(* ===== verification/_CoqProject ===== *)
-Q . S2P
Prelude.v
Bytes.v
Backend.v
KvRange.v
KeyedLog.v
ScopeTrie.v
MvccCodec.v
Txn.v
Envelope.v
Mvcc.v
MvccFacts.v
History.v
MvccSpec.v
SysRows.v
MvccRefine.v
MvccRange.v
MvccCompact.v
HistoryRefine.v
Watermark.v
Lease.v
Tso.v
Reach.v
Anomalies.v
Sequencer.v
SequencerSpec.v
SequencerRefine.v
SequencerValidate.v
SequencerRebuild.v
CommitLog.v
CommitLogFacts.v
CommitLogShip.v
ShardTable.v
ShardTableFacts.v
Decisions.v
DecisionsRefine.v
DecisionsApply.v
DecisionsReplay.v
RegionTable.v
RegionTableFacts.v
RegionTableStore.v
Migration.v
MigrationFacts.v
MigrationCopy.v
MigrationSplit.v
MigrationLive.v
PdQueue.v
PdQueueSpec.v
PdQueueSafety.v
DirectWrites.v
Executor.v
ExecutorSafety.v
ExecutorAnomalies.v
Snapshot.v
SnapshotFacts.v
SnapshotSafety.v
LogStore.v
LogStoreRefine.v
LogStoreSafety.v
SnapshotStore.v
SnapshotStoreSafety.v
Approval.v
ApprovalFacts.v
ApprovalInv.v
ApprovalSafety.v
ApprovalBridge.v
ApprovalStore.v
ApprovalBridgeSafety.v
Outbox.v
OutboxSafety.v
OutboxRelay.v
Witnesses.v
SequencerWitnesses.v
CommitLogWitnesses.v
RegionWitnesses.v
MigrationWitnesses.v
PdWitnesses.v
ExecutorWitnesses.v
SnapshotWitnesses.v
ApprovalWitnesses.v
OutboxWitnesses.v
