(* ===== verification/Prelude.v ===== *)
(** * Verification of the coord consensus and storage substrate

    coord is a distributed coordination service.  Raft groups ("Regions")
    replicate logs of commands; applying a log entry calls a handler of the
    store of the Region.  Region 0, the system Region, hands out timestamps,
    decides transactions and keeps the tables of Regions and of commit log
    shards.  The data Regions hold the keys and apply the decisions of
    Region 0 to them.  The development models these handlers, which are
    deterministic functions of the store and the command, and the pure parts
    around them.  On top of the key-value service the workflow crate keeps
    approvals, modelled from the decision table up to the concurrent calls and
    the delivery of their events.

    ** Parts and files

    - Foundations.  [Prelude]: results and errors, u64 arithmetic, lists.
      [Bytes]: byte strings, their order, big-endian integers, decimal numbers.
      [Backend]: the tables of [storage/redb_backend.rs] as one finite map from
      table and key to value; a write transaction that fails leaves the map as
      it was.
      [KeyedLog] and [SysRows]: rows under numbered keys and under prefixes.
      [Envelope]: [storage/envelope.rs].
    - Requests.  [KvRange]: [coord-core/src/kv_range.rs] and the matching rule
      of [watch/mod.rs].  [ScopeTrie]: [coord-core/src/auth/trie.rs].  [Txn]:
      the types of [txn/mod.rs].
    - The MVCC store, [storage/mvcc.rs].  [MvccCodec]: keys and records.
      [Mvcc]: writes, reads, transactions, compaction.  [History]: reads at a
      revision.  [Watermark]: marks and fences.  [Lease]: leases v1 and v2.
      A handler takes the store and returns its result with the store after
      it; the names are those of the code.
    - Its specification.  [MvccSpec]: a history of change events and the
      relation [mvcc_rep] between tables and history.  [MvccFacts],
      [MvccRefine], [MvccRange], [MvccCompact] and [HistoryRefine] prove the
      handlers against it, [Reach] lifts this to every reachable
      store, [Anomalies] shows executions that contradict comments of the code.
    - The timestamp oracle, [raft/tso.rs] and [apply_tso_allocate]: [Tso].
      The client is proved against the class of timestamp sources, and
      Region 0 is an instance of it.
    - The commit sequencer, [apply_sequencer_op] and its indexes in
      [storage/mvcc.rs], types in [raft/type_config.rs]: [Sequencer].
      [SequencerSpec] relates the rows to a list of decisions ([seq_rep]);
      [SequencerRefine], [SequencerValidate] and
      [SequencerRebuild] prove validation, the
      serializability of what it commits, and the rebuilding of the indexes.
    - The commit log, [storage/commit_log.rs]: [CommitLog], [CommitLogFacts],
      [CommitLogShip].  Its shards, [storage/commit_log_shard.rs]: [ShardTable],
      [ShardTableFacts].
    - Decisions reach the data Regions through [kvt/decision_apply.rs] and
      [apply_commit_decisions] of the store: [Decisions].  [DecisionsRefine]
      and [DecisionsApply] prove one batch against the history of the store,
      [DecisionsReplay] composes the sequencer, the clipping and the store: a
      Region that follows the decision log.
    - The Region table, [storage/region_table.rs] with the object key space of
      [storage/object_store.rs] and [RegionMeta] of [coord-core/src/types.rs]:
      [RegionTable], [RegionTableFacts], [RegionTableStore].
    - Range migration, [split_merge.rs], the proposals of
      [raft/region_runtime.rs] and the export, import and clearing of ranges in
      [storage/mvcc.rs]: [Migration].  [MigrationFacts], [MigrationCopy]
      and [MigrationLive] prove the copy, its replay and its
      completion; [MigrationSplit] what child and merged Region hold;
      [MigrationLive] also has two behaviours that are findings.
    - The operator queue and the journal of splits and merges in Region 0,
      [apply_pd_op] of [storage/mvcc.rs] with the records of
      [raft/type_config.rs] and [pd/operator.rs]: [PdQueue].  [PdQueueSpec]
      relates the rows to an abstract queue, journal and table ([pd_rep]),
      [PdQueueSafety] follows them along the log.
    - The execution of a split.  [DirectWrites]: the branches of
      [raft/state_machine.rs] for direct writes, behind the fence.  [Executor]:
      the steps of [pd/executor.rs] ([one_raft_step], [split_merge_step],
      [recover_step]) interleaved with the log of Region 0, clients, decisions
      and the child ([env_step]).  [ExecutorSafety] proves
      that runs without faults lose no write, [ExecutorAnomalies] what each
      fault does.
    - Snapshots, [storage/snapshot.rs]: [Snapshot] exports the tables and
      installs them.  [SnapshotFacts] says which rows an install leaves,
      [SnapshotSafety] what history they represent, what an install carries
      over and what it does not.
    - The Raft log, [raft/log_store.rs], with the guard of its purge and the
      read barrier: [LogStore].  [LogStoreRefine] has the abstract log, entries
      without gaps above the purged position, and that the store implements
      it; [LogStoreSafety] lifts this to every sequence of calls.
    - Snapshot files and recovery, the builder (a clone with its own copies of
      position and membership) and the start of [raft/state_machine.rs] and of
      the node: [SnapshotStore].
      [SnapshotStoreSafety] is about file names and the cleanup, crashes,
      restarts and late builds.
    - Approvals, [coord-core/src/workflow/approval/].  [Approval]: [engine.rs]
      and [model.rs], one instance with its branches, rounds and seats, its
      commands (sum [Command], [run_command]) and the effects they report.
      [ApprovalFacts] has the rules for the monad of the commands,
      [ApprovalInv] the invariant, [ApprovalSafety] its preservation and what
      follows for votes, revisions and effects.  [ApprovalBridge]: [bridge.rs],
      [events.rs] and what they use of [durable.rs], [model.rs] and
      [validate.rs]; the body of the retry loop of each call is a function from
      the loaded instance to a commit or an answer ([call_attempt]).
      [ApprovalStore]: the loads and the commit of
      [coord-agent/src/services/approval_store.rs] on the outbox of
      [outbox_kv.rs]; a call is a machine that makes one access to the store
      per step ([call_step]), and [sys_step] interleaves calls with other
      clients.  It also has the commit of the store in memory, [store.rs].
      [ApprovalBridgeSafety] proves the calls correct.
    - The outbox of events, the rest of [outbox_kv.rs] and the relay of
      [coord-core/src/workflow/durable.rs]: [Outbox].  [append_step] is the loop
      of [append] and [commit_state_and_outbox_batch], [relay_step] one access
      or one delivery of [tick]; [ob_step] interleaves any number of relays,
      which stop and start anywhere, with clients.  [OutboxSafety] follows the
      events along a run, shows that the calls of the approval bridge are such
      clients, and joins both systems on one store ([joint_step]).
      [OutboxRelay] is about one tick.
    - Concrete executions, on which the hypotheses of the theorems hold:
      [Witnesses], [SequencerWitnesses], [CommitLogWitnesses],
      [RegionWitnesses], [MigrationWitnesses], [PdWitnesses],
      [ExecutorWitnesses], [SnapshotWitnesses], [ApprovalWitnesses],
      [OutboxWitnesses]; the last two also have runs that are findings.

    ** What the theorems show

    - Refinement: every reachable store represents a history of events with
      increasing revisions; each write handler appends exactly its event,
      recognises its replay or fails without effect; transactions answer from
      the history extended by their own operations; compaction keeps the
      history; the past never changes.  The steps of [Reach] are the writes,
      transactions, leases of both versions with the cleanup of their keys,
      marks, fences, watermark advances and compactions.  Rows of metadata, of
      the change log and of positions decode, and the metadata of a key shows
      the life the history tells of it.
    - Reads: live reads are exact; reads at a revision answer with the value of
      that revision or refuse, also after compaction, and are repeatable.
    - Timestamps are unique and increasing across nodes, restarts and lost
      responses, and the refill loop of the client returns.
    - Transactions: each candidate gets the answer that is true of the decision
      log; committed transactions are serializable in commit order; an id
      commits once; rebuilt and maintained indexes are equivalent.
    - Replication of decisions: a Region holds at each timestamp up to its
      cursor the values the log decides; the Regions of a table share out each
      decision.
    - The Region table stays a tiling; routing is a search; split and merge move
      exactly the keys they mean to.
    - Migration: an attempt that reports success has copied every key of the
      range; with no fault on the way attempts succeed; the child of a split
      represents the history of its range and follows the decision log, and a
      merged Region reads as the two did, if the replica the migrator looks at
      is not behind its group; if it is, a decision can be lost.
    - Scheduling: the queue never holds an operator twice, a claim is exclusive,
      and a cutover changes the table and the intent together or only rejects
      the intent.  A split executed step by step, with failures and restarts,
      loses no write, unless one of four faults occurs: a read of Region 0 that
      is behind, a command committed after its call failed, a wait that times
      out, a write applied after its key has moved.
    - The commit log accounts for every record; scans are exact; trimming and
      reclamation remove only what they may; shards partition the timestamps.
    - Leases: revocation deletes the bound keys; records age in one direction;
      an expiry never beats a renewal that came first.
    - Snapshots: a node that is not ahead of a snapshot and installs it holds
      the revisions, the decisions, the queue and the Region table of the node
      that exported it, whatever it held before, and its history exactly if it
      can decrypt the values; a node ahead refuses it.
    - The Raft log answers as a log without gaps under the calls openraft may
      make, but for ranges that start in the purged prefix and for [0..0]; after a read index the read barrier serves exactly when the node
      leads, is not ahead of the commit frontier and its log confirms what it
      has applied.
    - Recovery: a crash while a snapshot is written leaves the old or the new
      one; when the single Raft group restarts, whatever its log has purged is
      covered by a snapshot on disk.  For the group of a Region this fails.
    - Approvals: an instance stays consistent under every sequence of commands;
      votes are counted and decided as the decision table says; a command on an
      old revision, or one that fails, changes nothing; the effects tell every
      change but one.  However calls interleave, a stored instance has
      only votes of those entitled to them, no update is lost, an idempotency
      key is used once, every call ends, and one that runs alone succeeds.  The
      dates of events are those of the Gregorian calendar.
    - Events: however clients and relays interleave, a committed event has been
      accepted by a sink, or refused as often as the policy allows, or is
      pending where the relays find it; the events of an instance are numbered
      without gaps; and a tick that has the store for itself delivers what is
      due in the order of these numbers.  An event may be delivered more often,
      and one that is refused is overtaken by the next.
    - Errors: the theorems of [Anomalies], [MigrationLive],
      [ExecutorAnomalies], [ApprovalWitnesses], [OutboxWitnesses] and some of
      the component files show the behaviours recorded as findings.

    ** Integers, fuel and parameters

    Revisions, timestamps and ids are integers of [Z] with the wrap-around or
    saturation of the code written out where it occurs; a theorem that needs an
    integer to stay in its width says so.  Loops that are not structural take
    fuel: [compact_loop] one round more than there are rows, the catch-up of the
    indexes one more than there are decisions, [get_ts_above] two more than the
    batches between high water and floor; the theorems prove that this is
    enough.  The retry deadline of the timestamp client is a number of
    attempts.  The pass of a Region over the log takes the list of what
    becomes of its proposals, and a migration the states it sees: the page loop
    does one round per element of its list of views, and one view more than the
    range has rows is enough.  The loops of the Raft log take one round more than
    the store has rows, and a number in a file name has at most the twenty
    digits of a u64.  The executor has no fuel, it is a step relation, and so
    are the calls of the approval bridge; [run_alone] takes the number of steps,
    six for a call that meets no other.  The relay is a step relation too;
    [run_tick] takes the number of steps, and [tick_delivers] says that some
    number is enough.  An approval instance is assumed to use fewer identifiers
    than a u32 counts ([room], [fits]), and a run of the outbox to reuse no
    event id and to have fewer than 2^64 events ([run_ok]); that a tick finds
    every due event requires the pending index to fit into one scan and one
    batch and to hold no negative time ([index_fits]).

    Third-party code is a parameter: the encryption barrier (record [Barrier]
    with [rep_barrier]), postcard ([Postcard], [PostcardLaws]: decoding undoes
    encoding), zstd ([Zstd], [ZstdLaws]) and SHA-256 ([Sha256], collision-free
    on the inputs of a run, [CollisionFree]), and the codec of the floors an
    import leaves ([FloorCodec], [FloorCodecLaws]).  The seats of an approval node
    depend on the expression evaluator, the ISO 8601 durations and the resolver
    of roles ([evaluate], [duration_ms], [resolve]), about which nothing is
    assumed; documents of approvals and events are kept decoded.  What the sink of
    the relay answers is an argument of each step.  What openraft answers to a
    read index request, and the metrics the read barrier looks at, are arguments
    of the definitions.  The files of witnesses
    instantiate each.

    ** Not modelled

    The raft library and its adapters, networking, timers, TLS, metrics, the
    gRPC and HTTP services, cryptography, the disk, the placement driver's
    scheduler and its membership operators, the transfer of snapshots in chunks,
    failures of the disk other than a crash between two steps, and the crates
    for client and command line.  Of the agent and the workflows only the
    approvals and the outbox are modelled, without the paged scan, the timers,
    the broker behind the sink, the expression language and the durations
    (floating point arithmetic).  The tasks around the replicated handlers are
    modelled only where a theorem composes them (the timestamp client, the pass
    of a Region over the decision log, the migrator, the executor of splits).
    The executor is that of one split on the node that
    leads the parent; merges are modelled up to their migration. *)

From Stdlib Require Export ZArith Lia.
From stdpp Require Export sorting prelude gmap list option.
Export list_basics.list list_relations.list list_monad.list list_misc.list
  list_tactics.list list_numbers.list.

(** ** Results *)

(** The error constructors of [coord_core::error::Error] that the modelled code
    raises.  The text of a message carries no behaviour and is dropped; the
    structured fields are kept. *)
Inductive Error :=
  | Internal
  | InvalidArgument
  | FailedPrecondition
  | Storage
  | Crypto
  | DataCorruption
  | RevisionCompacted (revision oldest : Z)
  | CommitRejected (commit_ts current_revision : Z)
  | HistoryUnavailable (revision : Z)
  | NotLeader
  | NotLeaderNoHint
  | ClusterUnavailable
  (** Not an [Error] of the code: the call panics (index out of range). *)
  | Panic.

#[export] Instance Error_eq_dec : EqDecision Error.
Proof. solve_decision. Defined.

(** [std::result::Result<T, Error>]. *)
Inductive result (A : Type) :=
  | Ok (a : A)
  | Err (e : Error).
Arguments Ok {A} a.
Arguments Err {A} e.

#[export] Instance result_eq_dec `{EqDecision A} : EqDecision (result A).
Proof. solve_decision. Defined.

#[export] Instance result_ret : MRet result := fun _ a => Ok a.
#[export] Instance result_bind : MBind result := fun _ _ k m =>
  match m with
  | Ok a => k a
  | Err e => Err e
  end.
#[export] Instance result_fmap : FMap result := fun _ _ f m =>
  match m with
  | Ok a => Ok (f a)
  | Err e => Err e
  end.

(** [Option::ok_or]. *)
Definition ok_or {A} (o : option A) (e : Error) : result A :=
  match o with
  | Some a => Ok a
  | None => Err e
  end.

(** [if c { return Err(e) }]. *)
Definition guard_err (c : bool) (e : Error) : result unit :=
  if c then Err e else Ok tt.

Lemma bind_Ok_inv {A B} (m : result A) (k : A -> result B) (b : B) :
  (m ≫= k) = Ok b <-> exists a, m = Ok a /\ k a = Ok b.
Proof.
  destruct m; simpl; split; [eauto|intros (?&[= <-]&?); done|done|intros (?&[=]&_)].
Qed.

Lemma guard_err_Ok c e u : guard_err c e = Ok u <-> c = false.
Proof. destruct c, u; simpl; naive_solver. Qed.

Lemma ok_or_Ok {A} (o : option A) e a : ok_or o e = Ok a <-> o = Some a.
Proof. destruct o; simpl; naive_solver. Qed.

(** Destruct every bind of a computation known to succeed. *)
Ltac inv_bind :=
  repeat match goal with
  | H : (_ ≫= _) = Ok _ |- _ => apply bind_Ok_inv in H; destruct H as (?&?&?)
  | H : guard_err _ _ = Ok _ |- _ => apply guard_err_Ok in H
  | H : ok_or _ _ = Ok _ |- _ => apply ok_or_Ok in H
  | H : Ok _ = Ok _ |- _ => injection H; clear H; intros; subst
  | H : Err _ = Ok _ |- _ => discriminate H
  | H : Ok _ = Err _ |- _ => discriminate H
  | x : unit |- _ => destruct x
  end.

(** ** Machine integers *)

Definition u16_modulus : Z := 2 ^ 16.
Definition u32_modulus : Z := 2 ^ 32.
Definition u64_modulus : Z := 2 ^ 64.

(** [as u16], [as u32], [as u64] on any integer. *)
Definition u16_wrap (z : Z) : Z := z mod u16_modulus.
Definition u32_wrap (z : Z) : Z := z mod u32_modulus.
Definition u64_wrap (z : Z) : Z := z mod u64_modulus.

(** [as i64]: two's complement. *)
Definition i64_wrap (z : Z) : Z := (z + 2 ^ 63) mod u64_modulus - 2 ^ 63.

Definition u64_max : Z := u64_modulus - 1.

Definition in_u32 (z : Z) : Prop := (0 <= z < u32_modulus)%Z.
Definition in_u64 (z : Z) : Prop := (0 <= z < u64_modulus)%Z.
Definition in_i64 (z : Z) : Prop := (- 2 ^ 63 <= z < 2 ^ 63)%Z.

(** [u64::saturating_add]. *)
Definition u64_saturating_add (a b : Z) : Z := Z.min (a + b) u64_max.

(** [u64::saturating_sub]. *)
Definition u64_saturating_sub (a b : Z) : Z := Z.max 0 (a - b).

(** [u64::checked_add]. *)
Definition u64_checked_add (a b : Z) : option Z :=
  if (a + b <=? u64_max)%Z then Some (a + b)%Z else None.

Ltac unfold_ints :=
  unfold i64_wrap, u16_wrap, u32_wrap, u64_wrap, in_u32, in_u64, in_i64, u64_max,
    u16_modulus, u32_modulus, u64_modulus in *.

Lemma u64_wrap_id z : in_u64 z -> u64_wrap z = z.
Proof. intros; unfold_ints; apply Z.mod_small; lia. Qed.

Lemma u64_wrap_range z : in_u64 (u64_wrap z).
Proof. unfold_ints; apply Z.mod_pos_bound; lia. Qed.

Lemma i64_wrap_id z : in_i64 z -> i64_wrap z = z.
Proof. intros; unfold_ints; rewrite Z.mod_small; lia. Qed.

Lemma i64_wrap_range z : in_i64 (i64_wrap z).
Proof.
  unfold_ints. pose proof (Z.mod_pos_bound (z + 2 ^ 63) (2 ^ 64)). lia.
Qed.

(** Casting a [u64] to [i64] and back is the identity. *)
Lemma u64_i64_u64 z : in_u64 z -> u64_wrap (i64_wrap z) = z.
Proof.
  intros. unfold_ints.
  rewrite Zminus_mod_idemp_l. rewrite Z.add_simpl_r. apply Z.mod_small; lia.
Qed.

Lemma u64_wrap_i64_wrap z : u64_wrap (i64_wrap z) = u64_wrap z.
Proof.
  unfold_ints. rewrite Zminus_mod_idemp_l. by rewrite Z.add_simpl_r.
Qed.

Lemma i64_wrap_u64_wrap z : i64_wrap (u64_wrap z) = i64_wrap z.
Proof. unfold_ints. by rewrite Zplus_mod_idemp_l. Qed.

Create HintDb coord discriminated.
#[export] Hint Resolve u64_wrap_range i64_wrap_range : coord.

(** ** Lists *)

(** [List.filter] through stdpp's membership. *)
Lemma elem_of_List_filter {A} (p : A -> bool) (l : list A) x :
  x ∈ List.filter p l <-> p x = true /\ x ∈ l.
Proof. rewrite !list_elem_of_In, List.filter_In. naive_solver. Qed.

Section list_facts.
Context {A : Type}.
Implicit Types (l : list A).

(** Scanning while a predicate holds, then stopping: the shape of a loop with
    [break]. *)
Fixpoint take_while (p : A -> bool) (l : list A) : list A :=
  match l with
  | [] => []
  | x :: l' => if p x then x :: take_while p l' else []
  end.

(** If once the predicate fails it fails on everything later, stopping early
    loses nothing. *)
Lemma take_while_filter (p : A -> bool) (R : A -> A -> Prop) l :
  StronglySorted R l ->
  (forall x y, R x y -> p x = false -> p y = false) ->
  take_while p l = List.filter p l.
Proof.
  intros Hs Hp. induction Hs as [|x l Hs IH Hx]; simpl; [done|].
  destruct (p x) eqn:E; [by rewrite IH|].
  symmetry. clear IH Hs. induction Hx as [|y l HR Hx IH]; simpl; [done|].
  by rewrite (Hp x y HR E).
Qed.

Lemma filter_filter_and (p q : A -> bool) l :
  List.filter p (List.filter q l) = List.filter (fun x => q x && p x) l.
Proof.
  induction l as [|x l IH]; simpl; [done|].
  destruct (q x); simpl; [destruct (p x)|]; by rewrite IH.
Qed.

Lemma filter_ext_Forall (p q : A -> bool) l :
  Forall (fun x => p x = q x) l -> List.filter p l = List.filter q l.
Proof.
  induction 1 as [|x l E _ IH]; simpl; [done|]. by rewrite E, IH.
Qed.

Lemma StronglySorted_List_filter (R : A -> A -> Prop) (p : A -> bool) l :
  StronglySorted R l -> StronglySorted R (List.filter p l).
Proof.
  induction 1 as [|x l Hs IH Hx]; simpl; [constructor|].
  destruct (p x); [|done]. constructor; [done|].
  rewrite Forall_forall in Hx |- *.
  intros y [_ Hy]%elem_of_List_filter. by apply Hx.
Qed.
(** Two strictly sorted lists with the same elements are equal. *)
Lemma StronglySorted_strict_unique (R : A -> A -> Prop) `{!StrictOrder R} l l' :
  StronglySorted R l -> StronglySorted R l' -> (forall x, x ∈ l <-> x ∈ l') -> l = l'.
Proof.
  intros Hl. revert l'. induction Hl as [|x l Hl IH Hx]; intros l' Hl' Hiff.
  - destruct l' as [|y l']; [done|]. specialize (Hiff y). set_solver.
  - destruct Hl' as [|y l' Hl' Hy]; [specialize (Hiff x); set_solver|].
    rewrite Forall_forall in Hx, Hy.
    assert (x = y) as <-.
    { pose proof (proj1 (Hiff x)) as H1. pose proof (proj2 (Hiff y)) as H2.
      rewrite !elem_of_cons in H1, H2.
      destruct H1 as [?|H1]; [by left|done|]. destruct H2 as [?|H2]; [by left|done|].
      destruct (irreflexivity R x). etrans; [by apply Hx|by apply Hy]. }
    f_equal. apply IH; [done|]. intros z. specialize (Hiff z). rewrite !elem_of_cons in Hiff.
    split; intros Hz.
    + destruct (proj1 Hiff (or_intror Hz)) as [->|?]; [|done].
      destruct (irreflexivity R x). by apply Hx.
    + destruct (proj2 Hiff (or_intror Hz)) as [->|?]; [|done].
      destruct (irreflexivity R x). by apply Hy.
Qed.

Lemma StronglySorted_snoc (R : A -> A -> Prop) l x :
  StronglySorted R l -> Forall (fun y => R y x) l -> StronglySorted R (l ++ [x]).
Proof.
  induction 1 as [|y l Hl IH Hy]; intros Hx; simpl; [repeat constructor|].
  apply Forall_cons in Hx as [? ?]. constructor; [by apply IH|].
  by rewrite Forall_app, Forall_singleton.
Qed.

Lemma omap_cons {B : Type} (f : A -> option B) x l :
  omap f (x :: l) = option_list (f x) ++ omap f l.
Proof. unfold omap. simpl. by destruct (f x). Qed.

Lemma forallb_ext (p q : A -> bool) l : (forall x, p x = q x) -> forallb p l = forallb q l.
Proof. intros H. induction l as [|x l IH]; simpl; [done|]. by rewrite H, IH. Qed.

Lemma omap_ext_Forall {B : Type} (f g : A -> option B) l :
  Forall (fun x => f x = g x) l -> omap f l = omap g l.
Proof. unfold omap. induction 1 as [|x l E _ IH]; simpl; [done|]. by rewrite E, IH. Qed.

Lemma filter_none (p : A -> bool) l :
  (forall x, x ∈ l -> p x = false) -> List.filter p l = [].
Proof.
  induction l as [|x l IH]; intros H; simpl; [done|]. rewrite H by left.
  apply IH. intros y Hy. apply H. by right.
Qed.

Lemma filter_all (p : A -> bool) l :
  (forall x, x ∈ l -> p x = true) -> List.filter p l = l.
Proof.
  induction l as [|x l IH]; intros H; simpl; [done|]. rewrite H by left. f_equal.
  apply IH. intros y Hy. apply H. by right.
Qed.

Lemma Forall2_filter {B : Type} (R : A -> B -> Prop) (f : A -> bool) (g : B -> bool) l (l' : list B) :
  Forall2 R l l' -> (forall x y, R x y -> f x = g y) ->
  Forall2 R (List.filter f l) (List.filter g l').
Proof.
  intros H Hfg. induction H as [|x y l l' Hxy _ IH]; [constructor|]. simpl. rewrite (Hfg x y Hxy).
  destruct (g y); [by constructor|done].
Qed.

(** A list sorted by a number splits at a bound. *)
Lemma sorted_split_above (f : A -> Z) (c : Z) l :
  StronglySorted (fun x y => (f x < f y)%Z) l ->
  exists old, l = old ++ List.filter (fun x => (c <? f x)%Z) l /\ Forall (fun x => (f x <= c)%Z) old.
Proof.
  induction 1 as [|x l Hs IH Hlt]; [by exists []|]. simpl.
  destruct (Z.ltb_spec c (f x)) as [H|H].
  - exists []. split; [|constructor]. simpl. f_equal. symmetry. apply filter_all.
    rewrite Forall_forall in Hlt. intros w Hw%Hlt. apply Z.ltb_lt. lia.
  - destruct IH as (old & E & Hold). exists (x :: old). split; [simpl; by f_equal|].
    by constructor.
Qed.

Lemma filter_length_lt (p q : A -> bool) l x :
  x ∈ l -> (forall y, y ∈ l -> p y = true -> q y = true) -> q x = true -> p x = false ->
  (length (List.filter p l) < length (List.filter q l))%nat.
Proof.
  intros Hx Hpq Hq Hp. assert (forall l', (forall y, y ∈ l' -> p y = true -> q y = true) ->
    (length (List.filter p l') <= length (List.filter q l'))%nat) as Hle.
  { induction l' as [|y l' IH]; intros H; simpl; [lia|].
    assert (length (List.filter p l') <= length (List.filter q l'))%nat
      by (apply IH; intros; apply H; [by right|done]).
    pose proof (H y ltac:(by left)) as Hy. destruct (p y); [rewrite Hy by done; simpl; lia|].
    destruct (q y); simpl; lia. }
  induction l as [|y l IH]; [by apply elem_of_nil in Hx|]. simpl.
  apply elem_of_cons in Hx as [<-|Hx].
  - rewrite Hp, Hq. simpl. specialize (Hle l). assert (length (List.filter p l) <=
      length (List.filter q l))%nat; [|lia]. apply Hle. intros; apply Hpq; [by right|done].
  - assert (length (List.filter p l) < length (List.filter q l))%nat
      by (apply IH; [done|]; intros; apply Hpq; [by right|done]).
    pose proof (Hpq y ltac:(by left)) as Hy. destruct (p y); [rewrite Hy by done; simpl; lia|].
    destruct (q y); simpl; lia.
Qed.

(** Strictly increasing in a key: the keys are distinct, and the last element is
    the greatest. *)
Lemma StronglySorted_NoDup_fmap {B : Type} (f : A -> B) (R : B -> B -> Prop) `{!StrictOrder R} l :
  StronglySorted (fun x y => R (f x) (f y)) l -> NoDup (f <$> l).
Proof.
  induction 1 as [|x l Hs IH Hx]; [constructor|]. apply NoDup_cons. split; [|done].
  intros (y & E & Hy)%list_elem_of_fmap. rewrite Forall_forall in Hx. specialize (Hx y Hy).
  rewrite E in Hx. by apply (irreflexivity R (f y)).
Qed.

Lemma StronglySorted_last (R : A -> A -> Prop) l x y :
  StronglySorted R l -> last l = Some x -> y ∈ l -> y = x \/ R y x.
Proof.
  induction 1 as [|z l Hs IH Hz]; [done|]. intros Hl [->|Hy]%elem_of_cons.
  - destruct l as [|z' l]; [left; simpl in Hl; congruence|]. right. rewrite Forall_forall in Hz.
    apply Hz. rewrite last_cons_cons in Hl. by apply last_Some_elem_of.
  - apply IH; [|done]. destruct l; [by apply elem_of_nil in Hy|]. by rewrite last_cons_cons in Hl.
Qed.

Lemma StronglySorted_lookup_lt (R : A -> A -> Prop) l i j x y :
  StronglySorted R l -> l !! i = Some x -> l !! j = Some y -> (i < j)%nat -> R x y.
Proof.
  intros Hs. revert i j. induction Hs as [|a l Hs IH Ha]; intros i j Hi Hj Hlt; [done|].
  destruct j as [|j]; [lia|]. destruct i as [|i]; simpl in *.
  - injection Hi as ->. rewrite Forall_forall in Ha. by eapply Ha, list_elem_of_lookup_2.
  - eapply IH; [done|done|lia].
Qed.

Lemma NoDup_fmap_inj_elem {B : Type} (f : A -> B) l x y :
  NoDup (f <$> l) -> x ∈ l -> y ∈ l -> f x = f y -> x = y.
Proof.
  intros Hn [i Hi]%list_elem_of_lookup [j Hj]%list_elem_of_lookup E.
  assert (i = j); [|by simplify_eq].
  eapply NoDup_lookup; [exact Hn|by rewrite list_lookup_fmap, Hi|].
  by rewrite list_lookup_fmap, Hj, E.
Qed.
End list_facts.
