(* ===== verification/Bytes.v ===== *)
(** * Byte strings

    [Vec<u8>] and [&[u8]]: lists of bytes with the lexicographic order of
    Rust slices, the big-endian integer codecs ([to_be_bytes] and
    [from_be_bytes]) and prefixes ([starts_with], [strip_prefix]).  Every
    ordered key of the storage layer rests on two facts proved here: the order
    is a strict total order, and big-endian encoding preserves it. *)

From Stdlib Require Export Strings.Byte.
From Stdlib Require Strings.String.
Export String.StringSyntax.
From S2P Require Export Prelude.

Local Open Scope Z_scope.

(** ** Bytes *)

#[export] Instance byte_eq_dec : EqDecision byte.
Proof.
  refine (fun x y => cast_if (decide (Byte.to_N x = Byte.to_N y)));
    abstract (congruence ||
      (pose proof (Byte.of_to_N x); pose proof (Byte.of_to_N y); congruence)).
Defined.

#[export] Instance byte_countable : Countable byte :=
  inj_countable Byte.to_N Byte.of_N Byte.of_to_N.

Abbreviation bytes := (list byte).

(** The byte string of an ASCII literal: [b"..."]. *)
Definition b (s : String.string) : bytes := String.list_byte_of_string s.
Arguments b s%_string_scope.

(** The numeric value of a [u8], and [as u8] of an integer. *)
Definition byte_Z (x : byte) : Z := Z.of_N (Byte.to_N x).
Definition byte_of_Z (z : Z) : byte :=
  default x00 (Byte.of_N (Z.to_N (z mod 256))).

Lemma byte_Z_range x : 0 <= byte_Z x < 256.
Proof. unfold byte_Z. pose proof (Byte.to_N_bounded x). lia. Qed.

Lemma byte_of_Z_Z x : byte_of_Z (byte_Z x) = x.
Proof.
  unfold byte_of_Z. rewrite Z.mod_small by apply byte_Z_range.
  unfold byte_Z. by rewrite N2Z.id, Byte.of_to_N.
Qed.

Lemma byte_Z_of_Z z : byte_Z (byte_of_Z z) = z mod 256.
Proof.
  unfold byte_of_Z, byte_Z. pose proof (Z.mod_pos_bound z 256).
  destruct (Byte.of_N (Z.to_N (z mod 256))) as [x|] eqn:E; simpl.
  - apply Byte.to_of_N in E. lia.
  - apply Byte.of_N_None_iff in E. lia.
Qed.

#[export] Instance byte_Z_inj : Inj (=) (=) byte_Z.
Proof. intros x y E. by rewrite <-(byte_of_Z_Z x), <-(byte_of_Z_Z y), E. Qed.

(** ** Lexicographic order *)

Fixpoint bytes_ltb (x y : bytes) : bool :=
  match x, y with
  | _, [] => false
  | [], _ :: _ => true
  | a :: x', c :: y' =>
    (byte_Z a <? byte_Z c) || ((byte_Z a =? byte_Z c) && bytes_ltb x' y')
  end.

Definition bytes_leb (x y : bytes) : bool := negb (bytes_ltb y x).

Definition bytes_lt (x y : bytes) : Prop := bytes_ltb x y = true.
Definition bytes_le (x y : bytes) : Prop := bytes_leb x y = true.

Definition bytes_eqb (x y : bytes) : bool := bool_decide (x = y).

Lemma bytes_eqb_spec x y : reflect (x = y) (bytes_eqb x y).
Proof. apply bool_decide_reflect. Qed.

Lemma bytes_ltb_cons a c x y :
  bytes_ltb (a :: x) (c :: y) = true <->
  byte_Z a < byte_Z c \/ (a = c /\ bytes_ltb x y = true).
Proof.
  simpl. rewrite orb_true_iff, andb_true_iff, Z.ltb_lt, Z.eqb_eq.
  split; [intros [?|[?%byte_Z_inj ?]]|intros [?|[-> ?]]]; auto.
Qed.

Lemma bytes_ltb_irrefl x : bytes_ltb x x = false.
Proof.
  induction x as [|a x IH]; [done|]. simpl. by rewrite Z.ltb_irrefl, IH, andb_false_r.
Qed.

#[export] Instance bytes_lt_trans : Transitive bytes_lt.
Proof.
  unfold bytes_lt. intros x. induction x as [|a x IH]; intros [|c y] [|d z]; try done.
  rewrite !bytes_ltb_cons. intros [?|[-> ?]] [?|[-> ?]]; auto; [left; lia|].
  right; split; [done|]. by eapply IH.
Qed.

#[export] Instance bytes_lt_strict : StrictOrder bytes_lt.
Proof.
  split; [|apply _]. intros x H. unfold bytes_lt in H. by rewrite bytes_ltb_irrefl in H.
Qed.

Lemma bytes_lt_trichotomy x y : bytes_lt x y \/ x = y \/ bytes_lt y x.
Proof.
  unfold bytes_lt. revert y. induction x as [|a x IH]; intros [|c y]; auto.
  rewrite !bytes_ltb_cons.
  destruct (Z.lt_trichotomy (byte_Z a) (byte_Z c)) as [?|[E|?]]; auto.
  apply byte_Z_inj in E as ->. destruct (IH y) as [?|[->|?]]; auto.
Qed.

Lemma bytes_ltb_spec x y : reflect (bytes_lt x y) (bytes_ltb x y).
Proof. unfold bytes_lt. by destruct (bytes_ltb x y); constructor. Qed.

Lemma bytes_leb_spec x y : reflect (bytes_le x y) (bytes_leb x y).
Proof. unfold bytes_le. by destruct (bytes_leb x y); constructor. Qed.

Lemma bytes_le_lt_eq x y : bytes_le x y <-> bytes_lt x y \/ x = y.
Proof.
  unfold bytes_le, bytes_leb. rewrite negb_true_iff. split.
  - intros E. destruct (bytes_lt_trichotomy x y) as [?|[?|H]]; auto.
    unfold bytes_lt in H. congruence.
  - intros [H| ->]; [|apply bytes_ltb_irrefl].
    destruct (bytes_ltb_spec y x) as [H'|]; [|done].
    destruct (irreflexivity bytes_lt x). by etrans.
Qed.

Lemma bytes_not_lt x y : ~ bytes_lt x y <-> bytes_le y x.
Proof.
  unfold bytes_lt, bytes_le, bytes_leb. destruct (bytes_ltb x y); naive_solver.
Qed.

Lemma bytes_not_le x y : ~ bytes_le x y <-> bytes_lt y x.
Proof.
  unfold bytes_lt, bytes_le, bytes_leb. destruct (bytes_ltb y x); naive_solver.
Qed.

Lemma bytes_le_lt_trans x y z : bytes_le x y -> bytes_lt y z -> bytes_lt x z.
Proof. rewrite bytes_le_lt_eq. intros [?| ->] ?; [by etrans|done]. Qed.

Lemma bytes_lt_le_trans x y z : bytes_lt x y -> bytes_le y z -> bytes_lt x z.
Proof. rewrite bytes_le_lt_eq. intros ? [?| <-]; [by etrans|done]. Qed.

Lemma bytes_lt_le x y : bytes_lt x y -> bytes_le x y.
Proof. rewrite bytes_le_lt_eq. auto. Qed.

#[export] Instance bytes_le_preorder : PreOrder bytes_le.
Proof.
  split.
  - intros x. apply bytes_le_lt_eq. auto.
  - intros x y z. rewrite !bytes_le_lt_eq. intros [?| ->] [?| ->]; auto. left. by etrans.
Qed.

#[export] Instance bytes_le_antisym : AntiSymm (=) bytes_le.
Proof.
  intros x y [H|?]%bytes_le_lt_eq [H'|?]%bytes_le_lt_eq; try done.
  destruct (irreflexivity bytes_lt x). by etrans.
Qed.

#[export] Instance bytes_le_total : Total bytes_le.
Proof.
  intros x y. rewrite !bytes_le_lt_eq.
  destruct (bytes_lt_trichotomy x y) as [?|[?|?]]; auto.
Qed.

#[export] Instance bytes_le_dec : RelDecision bytes_le.
Proof. intros x y. unfold bytes_le. apply _. Defined.

#[export] Instance bytes_lt_dec : RelDecision bytes_lt.
Proof. intros x y. unfold bytes_lt. apply _. Defined.

Lemma bytes_nil_le x : bytes_le [] x.
Proof. by destruct x. Qed.

Lemma bytes_not_lt_nil x : ~ bytes_lt x [].
Proof. by destruct x. Qed.

Lemma bytes_lt_app_r p x y : bytes_ltb (p ++ x) (p ++ y) = bytes_ltb x y.
Proof.
  induction p as [|a p IH]; [done|]. simpl. by rewrite Z.ltb_irrefl, Z.eqb_refl, IH.
Qed.

Lemma bytes_leb_app_r p x y : bytes_leb (p ++ x) (p ++ y) = bytes_leb x y.
Proof. unfold bytes_leb. by rewrite bytes_lt_app_r. Qed.

Lemma bytes_le_app x y : bytes_le x (x ++ y).
Proof.
  unfold bytes_le. rewrite <-(app_nil_r x) at 1. rewrite bytes_leb_app_r.
  apply bytes_nil_le.
Qed.

Lemma bytes_lt_snoc x c : bytes_lt x (x ++ [c]).
Proof.
  unfold bytes_lt. rewrite <-(app_nil_r x) at 1. by rewrite bytes_lt_app_r.
Qed.

(** [x ++ [0]] is the immediate successor of [x]. *)
Lemma bytes_succ x y : bytes_lt x y <-> bytes_le (x ++ [x00]) y.
Proof.
  revert y. induction x as [|a x IH]; intros [|c y]; try done.
  - unfold bytes_lt, bytes_le, bytes_leb. simpl. destruct y; simpl;
      pose proof (byte_Z_range c); change (byte_Z x00) with 0;
      (destruct (Z.ltb_spec (byte_Z c) 0); [lia|]); simpl; by rewrite andb_false_r.
  - specialize (IH y). simpl.
    unfold bytes_le, bytes_leb, bytes_lt in *. rewrite bytes_ltb_cons.
    rewrite negb_true_iff, <-not_true_iff_false, bytes_ltb_cons.
    rewrite negb_true_iff, <-not_true_iff_false in IH.
    pose proof (byte_Z_inj a c). destruct (Z.lt_trichotomy (byte_Z a) (byte_Z c)) as [?|[E|?]].
    + naive_solver lia.
    + apply byte_Z_inj in E as ->. naive_solver lia.
    + naive_solver lia.
Qed.

(** ** Prefixes *)

(** [slice::strip_prefix]. *)
Fixpoint strip_prefix (p x : bytes) : option bytes :=
  match p, x with
  | [], _ => Some x
  | _ :: _, [] => None
  | a :: p', c :: x' => if decide (a = c) then strip_prefix p' x' else None
  end.

(** [slice::starts_with]. *)
Definition starts_with (x p : bytes) : bool := bool_decide (is_Some (strip_prefix p x)).

Lemma strip_prefix_Some p x r : strip_prefix p x = Some r <-> x = p ++ r.
Proof.
  revert x. induction p as [|a p IH]; intros x; simpl; [naive_solver|].
  destruct x as [|c x]; [naive_solver|]. case_decide; [subst; rewrite IH|]; naive_solver.
Qed.

Lemma strip_prefix_app p x : strip_prefix p (p ++ x) = Some x.
Proof. by apply strip_prefix_Some. Qed.

Lemma starts_with_spec x p : starts_with x p = true <-> exists r, x = p ++ r.
Proof.
  unfold starts_with. rewrite bool_decide_eq_true. unfold is_Some.
  by setoid_rewrite strip_prefix_Some.
Qed.

Lemma starts_with_app p x : starts_with (p ++ x) p = true.
Proof. apply starts_with_spec; eauto. Qed.

(** Two prefixes that disagree somewhere start disjoint key spaces. *)
Definition diverge (p q : bytes) : bool :=
  match strip_prefix p q, strip_prefix q p with
  | None, None => true
  | _, _ => false
  end.

Lemma diverge_neq p q x y : diverge p q = true -> p ++ x <> q ++ y.
Proof.
  unfold diverge. intros Hd E.
  revert q Hd E. induction p as [|a p IH]; intros [|c q]; simpl; try done.
  intros Hd [= -> E]. rewrite decide_True in Hd by done.
  rewrite decide_True in Hd by done. by eapply IH.
Qed.

(** ** Big-endian integers *)

Fixpoint be_bytes (n : nat) (z : Z) : bytes :=
  match n with
  | O => []
  | S n' => byte_of_Z (z / 256 ^ Z.of_nat n') :: be_bytes n' z
  end.

Fixpoint be_val (l : bytes) : Z :=
  match l with
  | [] => 0
  | x :: l' => byte_Z x * 256 ^ Z.of_nat (length l') + be_val l'
  end.

Lemma length_be_bytes n z : length (be_bytes n z) = n.
Proof. induction n; simpl; congruence. Qed.

Lemma pow256_pos n : 0 < 256 ^ Z.of_nat n.
Proof. apply Z.pow_pos_nonneg; lia. Qed.

Lemma be_val_range l : 0 <= be_val l < 256 ^ Z.of_nat (length l).
Proof.
  induction l as [|x l IH]; [simpl; lia|]. cbn [be_val length].
  rewrite Nat2Z.inj_succ, Z.pow_succ_r by lia.
  pose proof (byte_Z_range x). pose proof (pow256_pos (length l)). nia.
Qed.

Lemma be_val_bytes n z : be_val (be_bytes n z) = z mod 256 ^ Z.of_nat n.
Proof.
  induction n as [|n IH]; [by rewrite Z.mod_1_r|].
  cbn [be_bytes be_val]. rewrite length_be_bytes, byte_Z_of_Z, IH.
  rewrite Nat2Z.inj_succ, Z.pow_succ_r by lia.
  pose proof (pow256_pos n). rewrite (Z.mul_comm 256), Z.rem_mul_r by lia. lia.
Qed.

Lemma be_bytes_mod n z : be_bytes n (z mod 256 ^ Z.of_nat n) = be_bytes n z.
Proof.
  enough (forall m, (n <= m)%nat -> be_bytes n (z mod 256 ^ Z.of_nat m) = be_bytes n z) by auto.
  induction n as [|n IH]; intros m Hm; [done|]. cbn [be_bytes]. rewrite IH by lia. f_equal.
  apply byte_Z_inj. rewrite !byte_Z_of_Z.
  replace (Z.of_nat m) with (Z.of_nat n + (1 + Z.of_nat (m - S n))) by lia.
  rewrite Z.pow_add_r, (Z.pow_add_r _ 1) by lia. pose proof (pow256_pos n).
  pose proof (pow256_pos (m - S n)).
  rewrite Z.rem_mul_r, Z.add_comm, Z.mul_comm, Z.div_add_l by lia.
  rewrite (Z.div_small (z mod _)) by (apply Z.mod_pos_bound; lia).
  rewrite Z.add_0_r, Z.pow_1_r, Z.rem_mul_r by lia.
  rewrite (Z.mul_comm 256), Z_mod_plus_full. apply Z.mod_mod; lia.
Qed.

Lemma be_bytes_val l : be_bytes (length l) (be_val l) = l.
Proof.
  induction l as [|x l IH]; [done|]. cbn [length be_bytes be_val].
  pose proof (pow256_pos (length l)). pose proof (be_val_range l).
  rewrite Z.div_add_l, Z.div_small, Z.add_0_r, byte_of_Z_Z by lia. f_equal.
  rewrite <-(be_bytes_mod _ (_ + _)), Z.add_comm, Z_mod_plus_full.
  by rewrite be_bytes_mod.
Qed.

(** Big-endian encoding is monotone: key order is numeric order. *)
Lemma be_val_lt l1 l2 :
  length l1 = length l2 -> bytes_ltb l1 l2 = (be_val l1 <? be_val l2).
Proof.
  revert l2. induction l1 as [|x l1 IH]; intros [|y l2] Hl; try done.
  injection Hl as Hl. specialize (IH l2 Hl). cbn [bytes_ltb be_val]. rewrite Hl.
  pose proof (be_val_range l1) as R1. pose proof (be_val_range l2) as R2. rewrite Hl in R1.
  pose proof (byte_Z_range x). pose proof (byte_Z_range y). rewrite IH.
  set (p := 256 ^ Z.of_nat (length l2)) in *.
  destruct (Z.lt_trichotomy (byte_Z x) (byte_Z y)) as [Hlt|[Heq|Hgt]].
  - rewrite (proj2 (Z.ltb_lt _ _) Hlt). symmetry. apply Z.ltb_lt. nia.
  - rewrite Heq, Z.ltb_irrefl, Z.eqb_refl. simpl.
    apply eq_true_iff_eq. rewrite !Z.ltb_lt. lia.
  - rewrite (proj2 (Z.ltb_ge _ _)), (proj2 (Z.eqb_neq _ _)) by lia. simpl.
    symmetry. apply Z.ltb_ge. nia.
Qed.

(** [u64::to_be_bytes], [i64::to_be_bytes] (both take the low 64 bits),
    [u32::to_be_bytes] and [u16::to_be_bytes]. *)
Definition be64 (z : Z) : bytes := be_bytes 8 z.
Definition be32 (z : Z) : bytes := be_bytes 4 z.
Definition be16 (z : Z) : bytes := be_bytes 2 z.

Lemma be64_val z : in_u64 z -> be_val (be64 z) = z.
Proof.
  intros. unfold be64. rewrite be_val_bytes. apply Z.mod_small. unfold_ints. lia.
Qed.

Lemma be64_val_wrap z : be_val (be64 z) = u64_wrap z.
Proof. unfold be64. by rewrite be_val_bytes. Qed.

Lemma be64_val_i64 z : in_i64 z -> i64_wrap (be_val (be64 z)) = z.
Proof. intros. rewrite be64_val_wrap, i64_wrap_u64_wrap. by apply i64_wrap_id. Qed.

Lemma be32_val z : in_u32 z -> be_val (be32 z) = z.
Proof.
  intros. unfold be32. rewrite be_val_bytes. apply Z.mod_small. unfold_ints. lia.
Qed.

Lemma be16_val z : 0 <= z < 65536 -> be_val (be16 z) = z.
Proof.
  intros. unfold be16. rewrite be_val_bytes. apply Z.mod_small. lia.
Qed.

Lemma be64_lt x y : in_u64 x -> in_u64 y -> bytes_ltb (be64 x) (be64 y) = (x <? y).
Proof.
  intros. rewrite be_val_lt by (unfold be64; by rewrite !length_be_bytes).
  by rewrite !be64_val.
Qed.

Lemma be64_inj x y : in_u64 x -> in_u64 y -> be64 x = be64 y -> x = y.
Proof. intros ?? E. by rewrite <-(be64_val x), E, be64_val. Qed.

Lemma length_be64 z : length (be64 z) = 8%nat.
Proof. apply length_be_bytes. Qed.
Lemma length_be32 z : length (be32 z) = 4%nat.
Proof. apply length_be_bytes. Qed.
Lemma length_be16 z : length (be16 z) = 2%nat.
Proof. apply length_be_bytes. Qed.

#[export] Hint Rewrite length_be64 length_be32 length_be16 @length_app : bytes_len.

Arguments be_bytes : simpl never.
Arguments be_val : simpl never.

(** A slice [data[i .. i + n]], [None] when out of bounds ([slice::get]). *)
Definition slice (i n : nat) (data : bytes) : option bytes :=
  if decide (i + n <= length data)%nat then Some (take n (drop i data)) else None.

Lemma slice_skip n i m p x :
  length p = n -> slice (n + i) m (p ++ x) = slice i m x.
Proof.
  intros <-. unfold slice. rewrite length_app, skipn_app.
  rewrite (drop_ge p), app_nil_l by lia. replace (length p + i - length p)%nat with i by lia.
  case_decide; case_decide; done || lia.
Qed.

Lemma slice_here n x r : length x = n -> slice 0 n (x ++ r) = Some x.
Proof.
  intros <-. unfold slice. rewrite decide_True by (rewrite length_app; lia).
  by rewrite drop_0, take_app_length.
Qed.

Lemma slice_all n x : length x = n -> slice 0 n x = Some x.
Proof. intros. rewrite <-(app_nil_r x) at 1. by apply slice_here. Qed.

Lemma slice_length i n data x : slice i n data = Some x -> length x = n.
Proof.
  unfold slice. case_decide; [|done]. intros [= <-]. rewrite length_take, length_drop. lia.
Qed.

(** Evaluate the slices of a concatenation of fixed-width fields. *)
Ltac field_width p :=
  lazymatch p with
  | be64 _ => constr:(8%nat)
  | be32 _ => constr:(4%nat)
  | be16 _ => constr:(2%nat)
  | [_] => constr:(1%nat)
  end.

Ltac slices :=
  repeat match goal with
  | |- context [slice 0 ?n (?p ++ ?x)] => rewrite (slice_here n p x) by reflexivity
  | |- context [slice 0 ?n ?p] => rewrite (slice_all n p) by reflexivity
  | |- context [slice ?i ?n (?p ++ ?x)] =>
    let w := field_width p in
    let j := eval compute in (i - w)%nat in
    change (slice i n (p ++ x)) with (slice (w + j) n (p ++ x));
    rewrite (slice_skip w j n p x) by reflexivity
  end.

(** ** Decimal numbers *)

Definition digit (z : Z) : byte := byte_of_Z (48 + z).

(** [format!] of a [u64]: at most twenty digits. *)
Fixpoint digits (n : nat) (z : Z) : bytes :=
  match n with
  | O => []
  | S n => if z <? 10 then [digit z] else digits n (z / 10) ++ [digit (z mod 10)]
  end.
Definition decimal (z : Z) : bytes := digits 20 z.

(** [str::parse::<u64>]: an optional plus sign, then digits, at least one, and no
    overflow. *)
Definition parse_digit (acc : option Z) (c : byte) : option Z :=
  v ← acc;
  let d := byte_Z c - 48 in
  if (0 <=? d) && (d <=? 9) then
    let v := v * 10 + d in if v <=? u64_max then Some v else None
  else None.

Definition parse_u64 (x : bytes) : option Z :=
  let body := match x with c :: r => if decide (c = x2b) then r else x | [] => x end in
  match body with
  | [] => None
  | _ => foldl parse_digit (Some 0) body
  end.

Definition is_digit (c : byte) : Prop := 48 <= byte_Z c <= 57.

Lemma sign_not_digit : ~ is_digit x2b /\ ~ is_digit x2d.
Proof. split; intros [H _]; by apply H. Qed.

Lemma digit_val z : 0 <= z < 10 -> byte_Z (digit z) = 48 + z.
Proof. intros Hz. unfold digit. rewrite byte_Z_of_Z, Z.mod_small; lia. Qed.

Lemma digits_digits n z : 0 <= z -> Forall is_digit (digits n z).
Proof.
  revert z. induction n as [|n IH]; intros z Hz; [constructor|]. cbn [digits].
  destruct (Z.ltb_spec z 10).
  - apply Forall_singleton. unfold is_digit. rewrite digit_val; lia.
  - apply Forall_app. split; [apply IH; apply Z.div_pos; lia|]. apply Forall_singleton. unfold is_digit.
    pose proof (Z.mod_pos_bound z 10). rewrite digit_val; lia.
Qed.

Lemma parse_digits n z :
  0 <= z < 10 ^ Z.of_nat n -> z <= u64_max -> (0 < n)%nat -> foldl parse_digit (Some 0) (digits n z) = Some z.
Proof.
  revert z. induction n as [|n IH]; intros z Hz Hm Hn; [lia|]. cbn [digits].
  assert (forall v c, 0 <= c < 10 -> v * 10 + c <= u64_max -> parse_digit (Some v) (digit c) = Some (v * 10 + c)) as Hstep.
  { intros v c Hc Hv. unfold parse_digit. cbn [mbind option_bind]. rewrite digit_val by done.
    replace (48 + c - 48) with c by lia. rewrite (proj2 (Z.leb_le 0 c)), (proj2 (Z.leb_le c 9)) by lia.
    cbn [andb]. by rewrite (proj2 (Z.leb_le _ _) Hv). }
  destruct (Z.ltb_spec z 10) as [Hlt|Hge].
  - cbn [foldl]. rewrite Hstep by lia. f_equal; lia.
  - rewrite foldl_app. pose proof (Z.mod_pos_bound z 10). pose proof (Z_div_mod_eq_full z 10) as E.
    rewrite IH; [cbn [foldl]; rewrite Hstep by lia; f_equal; lia| | |].
    + split; [apply Z.div_pos; lia|]. apply Z.div_lt_upper_bound; [lia|].
      rewrite Nat2Z.inj_succ, Z.pow_succ_r in Hz by lia. lia.
    + pose proof (Z.div_le_upper_bound z 10 z). lia.
    + destruct n; [|lia]. cbn in Hz. lia.
Qed.

Lemma decimal_parse z : in_u64 z -> parse_u64 (decimal z) = Some z.
Proof.
  intros Hz. unfold decimal. pose proof (digits_digits 20 z (proj1 Hz)) as Hd.
  assert (foldl parse_digit (Some 0) (digits 20 z) = Some z) as E.
  { apply parse_digits; [|unfold in_u64, u64_max in *; lia|lia]. unfold in_u64 in Hz.
    split; [lia|]. eapply Z.lt_trans; [apply Hz|]. by vm_compute. }
  unfold parse_u64. destruct (digits 20 z) as [|c r] eqn:Ez.
  { cbn in Ez. destruct (z <? 10); [done|]. by apply app_nil in Ez as [_ ?]. }
  apply Forall_cons in Hd as [Hc _]. rewrite decide_False; [exact E|].
  intros ->. by apply sign_not_digit.
Qed.
