(* ===== verification/Backend.v ===== *)
(** * The storage backend

    The [StorageBackend]/[ReadTx]/[WriteTx] contract of
    [coord-core/src/storage.rs] as implemented by
    [coord-server/src/storage/redb_backend.rs]: a handful of ordered tables of
    byte strings, read and written in transactions.  The Raft log of
    [coord-server/src/raft/log_store.rs] is a second database of the same kind
    with four tables of its own.  A transaction that
    returns an error leaves the store untouched.  The failures of the disk
    itself are outside the model. *)

From S2P Require Export Bytes.

Local Open Scope nat_scope.

Inductive table :=
  | TABLE_KV
  | TABLE_META
  | TABLE_CHANGELOG
  | TABLE_KV_META
  | TABLE_COMMIT_LOG
  | TABLE_LOG
  | TABLE_VOTE
  | TABLE_COMMITTED
  | TABLE_LAST_PURGED.

#[export] Instance table_eq_dec : EqDecision table.
Proof. solve_decision. Defined.

#[export] Instance table_countable : Countable table.
Proof.
  refine (inj_countable'
    (fun t => match t with TABLE_KV => 0 | TABLE_META => 1 | TABLE_CHANGELOG => 2
                         | TABLE_KV_META => 3 | TABLE_COMMIT_LOG => 4
                         | TABLE_LOG => 5 | TABLE_VOTE => 6 | TABLE_COMMITTED => 7
                         | TABLE_LAST_PURGED => 8 end)
    (fun n => match n with 0 => TABLE_KV | 1 => TABLE_META | 2 => TABLE_CHANGELOG
                         | 3 => TABLE_KV_META | 4 => TABLE_COMMIT_LOG
                         | 5 => TABLE_LOG | 6 => TABLE_VOTE | 7 => TABLE_COMMITTED
                         | _ => TABLE_LAST_PURGED end) _).
  by intros [].
Defined.

(** A row of a table, and the whole store: the rows of all tables. *)
Abbreviation row := (bytes * bytes)%type.
Abbreviation db := (gmap (table * bytes) bytes).

(** ** Point access *)

Definition tx_get (d : db) (t : table) (k : bytes) : option bytes := d !! (t, k).
Definition tx_insert (t : table) (k v : bytes) (d : db) : db := <[(t, k) := v]> d.
Definition tx_remove (t : table) (k : bytes) (d : db) : db := delete (t, k) d.

(** [StorageBackend::write]: commit on [Ok], roll back on [Err]. *)
Definition backend_write {A : Type} (d : db) (f : db -> result (A * db)) : result A * db :=
  match f d with
  | Ok (a, d') => (Ok a, d')
  | Err e => (Err e, d)
  end.

(** ** Scans *)

Definition row_le (x y : row) : Prop := bytes_le x.1 y.1.
Definition row_lt (x y : row) : Prop := bytes_lt x.1 y.1.

#[export] Instance row_le_dec : RelDecision row_le.
Proof. intros x y. unfold row_le. apply _. Defined.
#[export] Instance row_le_trans : Transitive row_le.
Proof. intros x y z. unfold row_le. apply transitivity. Qed.
#[export] Instance row_le_total : Total row_le.
Proof. intros x y. unfold row_le. apply bytes_le_total. Qed.

(** The rows of one table in key order (a redb B-tree). *)
Definition table_rows (d : db) (t : table) : list row :=
  merge_sort row_le
    (omap (fun '((t', k), v) => if decide (t' = t) then Some (k, v) else None)
       (map_to_list d)).

(** [table.range(start..)]. *)
Definition rows_from (start : bytes) (rows : list row) : list row :=
  List.filter (fun r => bytes_leb start r.1) rows.

(** The loop of [iter_range_limited]: stop at [end] (unless it is empty) and
    after [limit] rows (unless it is zero); [n] rows are already pushed. *)
Fixpoint scan_range (end_ : bytes) (limit n : nat) (rows : list row) : list row :=
  match rows with
  | [] => []
  | (k, v) :: rest =>
    if negb (bytes_eqb end_ []) && bytes_leb end_ k then []
    else (k, v) ::
      (if (0 <? limit) && (limit <=? S n) then [] else scan_range end_ limit (S n) rest)
  end.

Definition iter_range_limited (d : db) (t : table) (start end_ : bytes) (limit : nat)
    : list row :=
  scan_range end_ limit 0 (rows_from start (table_rows d t)).

Definition iter_range (d : db) (t : table) (start end_ : bytes) : list row :=
  iter_range_limited d t start end_ 0.

Definition iter_prefix (d : db) (t : table) (prefix : bytes) : list row :=
  take_while (fun r => starts_with r.1 prefix) (rows_from prefix (table_rows d t)).

(** The keys a range scan accepts; an empty [end] is no bound. *)
Definition in_range (start end_ k : bytes) : bool :=
  bytes_leb start k && (bytes_eqb end_ [] || bytes_ltb k end_).

(** ** What the scans return *)

Lemma elem_of_table_rows d t k v : (k, v) ∈ table_rows d t <-> d !! (t, k) = Some v.
Proof.
  unfold table_rows. rewrite merge_sort_Permutation, list_elem_of_omap. split.
  - intros ([[t' k'] v'] & Hin & E). case_decide; simplify_eq. by apply elem_of_map_to_list.
  - intros H. exists ((t, k), v). rewrite elem_of_map_to_list. by rewrite decide_True.
Qed.

Lemma table_rows_NoDup d t : NoDup (table_rows d t).*1.
Proof.
  unfold table_rows. rewrite merge_sort_Permutation.
  pose proof (NoDup_fst_map_to_list d) as Hd.
  induction (map_to_list d) as [|[[t' k] v] l IH]; simpl; [constructor|].
  apply NoDup_cons in Hd as [Hn Hd]. case_decide; [|auto]. subst.
  simpl. constructor; [|auto]. intros ([k' v'] & -> & Hin)%list_elem_of_fmap.
  apply list_elem_of_omap in Hin as ([[t'' k''] v''] & Hin & E).
  case_decide; [|done]. injection E as -> ->. subst t''.
  apply Hn, list_elem_of_fmap. by exists ((t, k'), v').
Qed.

(** A table is strictly increasing in its keys. *)
Lemma table_rows_sorted d t : StronglySorted row_lt (table_rows d t).
Proof.
  pose proof (table_rows_NoDup d t) as Hd.
  assert (StronglySorted row_le (table_rows d t)) as Hs
    by (apply StronglySorted_merge_sort; apply _).
  revert Hd. induction Hs as [|x l Hs IH Hx]; intros Hd; [constructor|].
  apply NoDup_cons in Hd as [Hn Hd]. constructor; [auto|].
  rewrite Forall_forall in Hx |- *. intros y Hy. specialize (Hx y Hy).
  unfold row_le, row_lt in *. apply bytes_le_lt_eq in Hx as [?|E]; [done|].
  destruct Hn. rewrite E. by apply list_elem_of_fmap_2.
Qed.

#[export] Instance row_lt_strict : StrictOrder row_lt.
Proof.
  split.
  - intros x H. by destruct (irreflexivity bytes_lt x.1).
  - intros x y z. unfold row_lt. apply transitivity.
Qed.

(** The rows of a table are determined by its point lookups. *)
Lemma table_rows_unique d t l :
  StronglySorted row_lt l ->
  (forall k v, (k, v) ∈ l <-> d !! (t, k) = Some v) ->
  table_rows d t = l.
Proof.
  intros Hs Hl. apply (StronglySorted_strict_unique row_lt); [apply table_rows_sorted|done|].
  intros [k v]. by rewrite elem_of_table_rows, Hl.
Qed.

Lemma scan_range_0 end_ n rows :
  scan_range end_ 0 n rows =
  take_while (fun r => negb (negb (bytes_eqb end_ []) && bytes_leb end_ r.1)) rows.
Proof.
  revert n. induction rows as [|[k v] rows IH]; intros n; simpl; [done|].
  destruct (negb (bytes_eqb end_ []) && bytes_leb end_ k); simpl; [done|]. by rewrite IH.
Qed.

Lemma scan_range_limit end_ limit n rows :
  0 < limit -> n < limit ->
  scan_range end_ limit n rows = take (limit - n) (scan_range end_ 0 n rows).
Proof.
  intros Hl. revert n. induction rows as [|[k v] rows IH]; intros n Hn; simpl.
  - by rewrite take_nil.
  - destruct (negb (bytes_eqb end_ []) && bytes_leb end_ k); [by rewrite take_nil|].
    rewrite (proj2 (Nat.ltb_lt 0 limit)) by done. simpl.
    destruct (Nat.leb_spec limit (S n)).
    + replace (limit - n) with 1 by lia. simpl. by rewrite take_0.
    + replace (limit - n) with (S (limit - S n)) by lia. simpl. by rewrite IH by lia.
Qed.

(** [iter_range] returns exactly the rows with keys in [[start, end)], in key
    order: stopping at the first key past [end] loses nothing. *)
Lemma iter_range_filter d t start end_ :
  iter_range d t start end_ =
  List.filter (fun r => in_range start end_ r.1) (table_rows d t).
Proof.
  unfold iter_range, iter_range_limited, rows_from. rewrite scan_range_0.
  rewrite (take_while_filter _ row_lt).
  - rewrite filter_filter_and. apply List.filter_ext. intros [k v]. unfold in_range. simpl.
    f_equal. unfold bytes_leb. by destruct (bytes_eqb end_ []), (bytes_ltb k end_).
  - apply StronglySorted_List_filter, table_rows_sorted.
  - intros [k v] [k' v']. unfold row_lt. simpl. rewrite !negb_false_iff, !andb_true_iff.
    intros Hlt [? Hle]. split; [done|]. apply bytes_lt_le. by eapply bytes_le_lt_trans.
Qed.

Lemma iter_range_limited_take d t start end_ limit :
  0 < limit ->
  iter_range_limited d t start end_ limit = take limit (iter_range d t start end_).
Proof.
  intros. unfold iter_range, iter_range_limited.
  rewrite (scan_range_limit _ _ 0) by done. by rewrite Nat.sub_0_r.
Qed.

Lemma elem_of_iter_range d t start end_ k v :
  (k, v) ∈ iter_range d t start end_ <->
  d !! (t, k) = Some v /\ in_range start end_ k = true.
Proof.
  rewrite iter_range_filter, elem_of_List_filter, elem_of_table_rows. naive_solver.
Qed.

(** Keys with a given prefix are contiguous in the order. *)
Lemma prefix_contiguous p x y :
  bytes_le p x -> bytes_lt x y -> starts_with x p = false -> starts_with y p = false.
Proof.
  intros Hp Hlt Hx. destruct (starts_with y p) eqn:Hy; [|done].
  apply starts_with_spec in Hy as [r ->]. exfalso. revert x r Hp Hlt Hx.
  induction p as [|a p IH]; intros x r Hp Hlt Hx; [by destruct x|].
  destruct x as [|c x]; [by unfold bytes_le, bytes_leb in Hp|].
  unfold bytes_le, bytes_leb in Hp. rewrite negb_true_iff, <-not_true_iff_false in Hp.
  rewrite bytes_ltb_cons in Hp. unfold bytes_lt in Hlt. simpl app in Hlt.
  rewrite bytes_ltb_cons in Hlt. destruct Hlt as [Hlt|[-> Hlt]]; [tauto|].
  apply (IH x r).
  - unfold bytes_le, bytes_leb. rewrite negb_true_iff, <-not_true_iff_false. tauto.
  - done.
  - rewrite <-not_true_iff_false in Hx |- *. intros Hs. apply Hx.
    apply starts_with_spec in Hs as [r' ->]. apply (starts_with_app (a :: p) r').
Qed.

(** [iter_prefix] returns exactly the rows whose key has the prefix. *)
Lemma iter_prefix_filter d t prefix :
  iter_prefix d t prefix = List.filter (fun r => starts_with r.1 prefix) (table_rows d t).
Proof.
  unfold iter_prefix, rows_from.
  set (R := fun x y : row => bytes_le prefix x.1 /\ row_lt x y).
  rewrite (take_while_filter _ R).
  - rewrite filter_filter_and. apply List.filter_ext. intros [k v]. simpl.
    destruct (starts_with k prefix) eqn:E; [|by rewrite andb_false_r].
    apply starts_with_spec in E as [r ->]. rewrite andb_true_r. apply bytes_le_app.
  - pose proof (table_rows_sorted d t) as Hs.
    induction Hs as [|[k v] l Hs IH Hx]; simpl; [constructor|].
    destruct (bytes_leb prefix k) eqn:E; [|done]. constructor; [done|].
    rewrite Forall_forall in Hx |- *. intros y [_ Hy]%elem_of_List_filter.
    split; [exact E|by apply Hx].
  - intros x y [Hp Hlt]. by apply prefix_contiguous.
Qed.

Lemma elem_of_iter_prefix d t prefix k v :
  (k, v) ∈ iter_prefix d t prefix <->
  d !! (t, k) = Some v /\ exists r, k = prefix ++ r.
Proof.
  rewrite iter_prefix_filter, elem_of_List_filter, elem_of_table_rows, starts_with_spec.
  naive_solver.
Qed.

Lemma iter_prefix_sorted d t prefix : StronglySorted row_lt (iter_prefix d t prefix).
Proof. rewrite iter_prefix_filter. apply StronglySorted_List_filter, table_rows_sorted. Qed.

Lemma iter_range_sorted d t s e : StronglySorted row_lt (iter_range d t s e).
Proof. rewrite iter_range_filter. apply StronglySorted_List_filter, table_rows_sorted. Qed.

Lemma iter_prefix_unique d t p l :
  StronglySorted row_lt l ->
  (forall k v, (k, v) ∈ l <-> d !! (t, k) = Some v /\ exists r, k = p ++ r) ->
  iter_prefix d t p = l.
Proof.
  intros Hs Hl. apply (StronglySorted_strict_unique row_lt); [apply iter_prefix_sorted|done|].
  intros [k v]. by rewrite elem_of_iter_prefix, Hl.
Qed.

Lemma length_omap {A B : Type} (f : A -> option B) (l : list A) :
  (length (omap f l) <= length l)%nat.
Proof. unfold omap. induction l as [|x l IH]; simpl; [done|]. destruct (f x); simpl; lia. Qed.

Lemma length_table_rows d t : (length (table_rows d t) <= size d)%nat.
Proof.
  unfold table_rows. rewrite merge_sort_Permutation, <-length_map_to_list. apply length_omap.
Qed.

Lemma length_List_filter {A : Type} (p : A -> bool) (l : list A) :
  (length (List.filter p l) <= length l)%nat.
Proof. induction l as [|x l IH]; simpl; [done|]. destruct (p x); simpl; lia. Qed.

Lemma length_iter_range d t a z : (length (iter_range d t a z) <= size d)%nat.
Proof.
  rewrite iter_range_filter. etrans; [apply length_List_filter|apply length_table_rows].
Qed.

Lemma length_iter_prefix d t p : (length (iter_prefix d t p) <= size d)%nat.
Proof.
  rewrite iter_prefix_filter. etrans; [apply length_List_filter|apply length_table_rows].
Qed.

Lemma sorted_rows_NoDup l : StronglySorted row_lt l -> NoDup l.*1.
Proof.
  induction 1 as [|x l Hs IH Hx]; simpl; constructor; [|done].
  intros (y & E & Hy)%list_elem_of_fmap. rewrite Forall_forall in Hx. specialize (Hx y Hy).
  unfold row_lt in Hx. rewrite E in Hx. by destruct (irreflexivity bytes_lt y.1).
Qed.
