(* ===== verification/KvRange.v ===== *)
(** * Range semantics of KV requests

    [coord-core/src/kv_range.rs]: what a pair [(key, range_end)] denotes for
    KV/Txn reads and for Watch subscriptions, the byte-wise successor of a
    prefix and the midpoint of an interval; and the Watch delivery test
    [key_matches] of [coord-server/src/watch/mod.rs]. *)

From S2P Require Export Backend.

Local Open Scope Z_scope.

(** ** Definitions *)

Inductive RangeSemantics := SingleKey | Interval.

#[export] Instance RangeSemantics_eq_dec : EqDecision RangeSemantics.
Proof. solve_decision. Defined.

(** [RangeSemantics::of]. *)
Definition range_semantics_of (key range_end : bytes) : RangeSemantics :=
  if bytes_eqb range_end [] || bytes_eqb range_end key then SingleKey else Interval.

Definition is_single_key (s : RangeSemantics) : bool := bool_decide (s = SingleKey).
Definition is_interval (s : RangeSemantics) : bool := bool_decide (s = Interval).

(** The [while let Some(last) = out.pop()] loop of [prefix_successor], run on
    the reversed vector: drop trailing [0xFF], then bump the last byte. *)
Fixpoint prefix_successor_loop (rev_out : bytes) : option bytes :=
  match rev_out with
  | [] => None
  | last :: rest =>
    if decide (last = xff) then prefix_successor_loop rest
    else Some (reverse (byte_of_Z (byte_Z last + 1) :: rest))
  end.

Definition prefix_successor (prefix : bytes) : option bytes :=
  prefix_successor_loop (reverse prefix).

(** The averaging loop of [mid_key]: [i] runs over the indices of the longer
    bound, [start] is padded with 0 and [end] with [0xFF]; [carry] is a [u16]. *)
Fixpoint mid_key_loop (start end_ : bytes) (i n : nat) (carry : Z) : bytes :=
  match n with
  | O => []
  | S n' =>
    let s := default 0 (byte_Z <$> start !! i) in
    let e := default 255 (byte_Z <$> end_ !! i) in
    let sum := s + e + carry in
    byte_of_Z (sum / 2) :: mid_key_loop start end_ (S i) n' ((sum mod 2) * 256)
  end.

(** [*last = last.saturating_add(1)] on the last byte. *)
Definition bump_last (x : bytes) : bytes :=
  match reverse x with
  | [] => []
  | last :: rest => reverse (byte_of_Z (Z.min 255 (byte_Z last + 1)) :: rest)
  end.

Definition mid_key (start end_ : bytes) : bytes :=
  if bytes_eqb start [] && bytes_eqb end_ [] then [x80]
  else if bytes_eqb end_ [] || bytes_eqb end_ [xff] then
    if bytes_ltb start [x80] then [x80] else start ++ [x80]
  else
    let len := Nat.max (length start) (length end_) in
    let mid := mid_key_loop start end_ 0 len 0 in
    if bytes_leb mid start then bump_last mid else mid.

Definition interval_contains (lo : bytes) (hi : option bytes) (key : bytes) : bool :=
  if bytes_ltb key lo then false
  else match hi with
       | None => true
       | Some hi => bytes_ltb key hi
       end.

(** [Vec<u8>::min]. *)
Definition bytes_min (x y : bytes) : bytes := if bytes_leb x y then x else y.

Definition watch_match_interval (key range_end : bytes) : bytes * option bytes :=
  let prefix_upper := prefix_successor key in
  let upper :=
    if bytes_eqb range_end [] then prefix_upper
    else match prefix_upper with
         | Some pu => Some (bytes_min pu range_end)
         | None => Some range_end
         end in
  (key, upper).

(** [watch/mod.rs::key_matches]. *)
Definition key_matches (key prefix range_end : bytes) : bool :=
  let '(lo, hi) := watch_match_interval prefix range_end in
  interval_contains lo hi key.

(** ** The successor of a prefix *)

Lemma bytes_ltb_nil_r x : bytes_ltb x [] = false.
Proof. by destruct x. Qed.

(** Below [p ++ [c + 1]]: the strings below or starting with [p ++ [c]]. *)
Lemma bump_upper p c x :
  c <> xff ->
  bytes_le (p ++ [c]) x ->
  bytes_lt x (p ++ [byte_of_Z (byte_Z c + 1)]) <-> starts_with x (p ++ [c]) = true.
Proof.
  intros Hc. rewrite starts_with_spec.
  assert (byte_Z (byte_of_Z (byte_Z c + 1)) = byte_Z c + 1) as Hv.
  { rewrite byte_Z_of_Z. apply Z.mod_small. pose proof (byte_Z_range c).
    assert (byte_Z c <> 255) by (intros E; apply Hc, byte_Z_inj; exact E). lia. }
  revert x. induction p as [|a p IH]; intros [|d x] Hle; try done.
  - unfold bytes_le, bytes_leb in Hle. simpl app in *.
    rewrite negb_true_iff, <-not_true_iff_false, bytes_ltb_cons in Hle.
    unfold bytes_lt. rewrite bytes_ltb_cons, Hv, bytes_ltb_nil_r. split.
    + intros [Hlt|[_ ?]]; [|done]. exists x. f_equal. symmetry. apply byte_Z_inj. lia.
    + intros [r [= -> ->]]. left. lia.
  - unfold bytes_le, bytes_leb in Hle. simpl app in *.
    rewrite negb_true_iff, <-not_true_iff_false, bytes_ltb_cons in Hle.
    unfold bytes_lt in *. rewrite bytes_ltb_cons. split.
    + intros [?|[-> Hlt]]; [tauto|]. apply IH in Hlt as [r ->]; [by exists r|].
      unfold bytes_le, bytes_leb. rewrite negb_true_iff, <-not_true_iff_false. tauto.
    + intros [r [= -> ->]]. right. split; [done|]. apply IH; [|by exists r].
      apply bytes_le_app.
Qed.

Lemma prefix_successor_snoc p c :
  prefix_successor (p ++ [c]) =
  if decide (c = xff) then prefix_successor p else Some (p ++ [byte_of_Z (byte_Z c + 1)]).
Proof.
  unfold prefix_successor. rewrite reverse_snoc. simpl. case_decide; [done|].
  f_equal. by rewrite reverse_cons, reverse_involutive.
Qed.

Lemma max_byte_prefix p x :
  bytes_le (p ++ [xff]) x -> starts_with x p = true -> starts_with x (p ++ [xff]) = true.
Proof.
  rewrite !starts_with_spec. intros Hle [r ->].
  unfold bytes_le in Hle. rewrite bytes_leb_app_r in Hle.
  unfold bytes_leb in Hle. rewrite negb_true_iff, <-not_true_iff_false in Hle.
  destruct r as [|d r]; [done|]. rewrite bytes_ltb_cons in Hle.
  exists r. rewrite <-app_assoc. f_equal. simpl. f_equal. apply byte_Z_inj.
  pose proof (byte_Z_range d). change (byte_Z xff) with 255 in *. lia.
Qed.

(** The strings from [p] up to the successor of [p] are those with prefix [p]. *)
Lemma prefix_successor_range p x :
  (bytes_le p x /\ from_option (bytes_lt x) True (prefix_successor p)) <->
  starts_with x p = true.
Proof.
  split.
  - induction p as [|c p IH] using rev_ind.
    { intros _. by apply starts_with_spec; exists x. }
    intros [Hle Hs]. rewrite prefix_successor_snoc in Hs. case_decide as Hc.
    + subst c. apply max_byte_prefix; [done|]. apply IH. split; [|done].
      etrans; [apply bytes_le_app|exact Hle].
    + simpl in Hs. by apply bump_upper.
  - intros Hs. assert (bytes_le p x) as Hle.
    { apply starts_with_spec in Hs as [r ->]. apply bytes_le_app. }
    split; [done|]. revert Hs Hle. induction p as [|c p IH] using rev_ind; [done|].
    intros Hs Hle. rewrite prefix_successor_snoc. case_decide as Hc.
    + apply IH; [|etrans; [apply bytes_le_app|exact Hle]].
      apply starts_with_spec in Hs as [r ->]. apply starts_with_spec.
      rewrite <-app_assoc. eauto.
    + simpl. by apply bump_upper.
Qed.

(** Watch delivery.  The interval that [watch_match_interval] computes is
    exactly the set of keys that have the subscribed key as a byte prefix and,
    when [range_end] is given, lie below it — also for prefixes that have no
    successor (empty or all [0xFF]). *)
Theorem key_matches_spec key prefix range_end :
  key_matches key prefix range_end = true <->
  starts_with key prefix = true /\ (range_end = [] \/ bytes_lt key range_end).
Proof.
  rewrite <-prefix_successor_range. unfold key_matches, watch_match_interval, interval_contains.
  destruct (bytes_ltb_spec key prefix) as [Hlt|Hge].
  { split; [done|]. intros [[Hle _] _]. by apply bytes_not_lt in Hle. }
  apply bytes_not_lt in Hge.
  destruct (bytes_eqb_spec range_end []) as [->|Hne].
  { destruct (prefix_successor prefix) as [pu|]; simpl; [|naive_solver].
    destruct (bytes_ltb_spec key pu); naive_solver. }
  destruct (prefix_successor prefix) as [pu|]; simpl.
  - unfold bytes_min. destruct (bytes_leb_spec pu range_end) as [Hpr|Hpr].
    + destruct (bytes_ltb_spec key pu) as [Hk|Hk]; [|naive_solver].
      split; [|done]. intros _. split; [done|]. right. by eapply bytes_lt_le_trans.
    + apply bytes_not_le in Hpr. destruct (bytes_ltb_spec key range_end) as [Hk|Hk].
      * split; [|done]. intros _. split; [|by right]. split; [done|]. by etrans.
      * naive_solver.
  - destruct (bytes_ltb_spec key range_end); naive_solver.
Qed.

(** Prefix successor.  When a prefix has a successor [s], the half-open
    interval [[p, s)] is exactly the set of strings with prefix [p]; there is
    none only if every byte of the prefix is [0xFF] (in particular for the
    empty prefix), and then every string from [p] on has the prefix. *)
Theorem prefix_successor_spec p :
  match prefix_successor p with
  | Some s => forall x, in_range p s x = true <-> starts_with x p = true
  | None => Forall (eq xff) p /\ forall x, bytes_le p x <-> starts_with x p = true
  end.
Proof.
  pose proof (prefix_successor_range p) as Hr.
  destruct (prefix_successor p) as [s|] eqn:E; simpl in Hr.
  - intros x. rewrite <-Hr. unfold in_range. rewrite andb_true_iff, orb_true_iff.
    unfold bytes_le, bytes_lt. destruct (bytes_eqb_spec s []) as [->|]; [|naive_solver].
    exfalso. revert E. clear Hr. induction p as [|c p IH] using rev_ind; [done|].
    rewrite prefix_successor_snoc. case_decide; [done|]. intros [= E].
    by destruct p.
  - split; [|intros x; rewrite <-Hr; naive_solver].
    revert E. clear Hr. induction p as [|c p IH] using rev_ind; [constructor|].
    rewrite prefix_successor_snoc. case_decide; [|done]. subst. intros E.
    apply Forall_app. auto.
Qed.

(** ** The midpoint of an interval *)

(** Split point of an unbounded interval.  With no upper bound, or with the
    upper bound [0xFF], [mid_key] lies strictly inside the interval. *)
Theorem mid_key_unbounded start end_ :
  end_ = [] \/ (end_ = [xff] /\ bytes_lt start [xff]) ->
  bytes_lt start (mid_key start end_) /\ (end_ = [] \/ bytes_lt (mid_key start end_) end_).
Proof.
  intros Hend. unfold mid_key.
  destruct (bytes_eqb_spec start []) as [->|Hs]; simpl.
  { destruct Hend as [->|[-> _]]; (split; [done|]); [by left|by right]. }
  assert (bytes_eqb end_ [] || bytes_eqb end_ [xff] = true) as ->.
  { by destruct Hend as [->|[-> _]]. }
  destruct (bytes_ltb_spec start [x80]) as [Hlt|Hge].
  { split; [done|]. destruct Hend as [->|[-> _]]; [by left|by right]. }
  split; [apply bytes_lt_snoc|]. destruct Hend as [->|[-> Hlt]]; [auto|right].
  destruct start as [|c start]; [done|]. unfold bytes_lt in *. simpl app.
  rewrite bytes_ltb_cons in Hlt |- *. rewrite bytes_ltb_nil_r in *. naive_solver.
Qed.

(** Split point of a bounded interval.  [mid_key] does not always lie
    inside [(start, end)]: its averaging loop drops the carry into the next
    higher byte, so for [[1,255]] and [[2,255]] the result is below [start],
    although [[2]] lies in between; and for [[5]] and [[6]] the result is the
    excluded upper bound, although [[5,0]] lies in between. *)
Theorem mid_key_bounded_escapes :
  (exists start end_ m, bytes_lt start m /\ bytes_lt m end_ /\
     bytes_lt (mid_key start end_) start) /\
  (exists start end_ m, bytes_lt start m /\ bytes_lt m end_ /\
     mid_key start end_ = end_).
Proof.
  split.
  - exists [x01; xff], [x02; xff], [x02]. by vm_compute.
  - exists [x05], [x06], [x05; x00]. by vm_compute.
Qed.
