(* ===== verification/KeyedLog.v ===== *)
(** * Logs keyed by a number

    Several parts of the store keep a log in a table: one row per entry, with
    the key [prefix ++ be64 n].  Big-endian numbers sort like the numbers, so a
    scan of the prefix is the log in order.  The change log, the decision log
    and the queues of the placement driver are of this shape. *)

From S2P Require Export KvRange.

Local Open Scope Z_scope.

(** [prefix_upper_bound] of [storage/mvcc.rs]: empty when there is no bound. *)
Fixpoint prefix_upper_bound_loop (rev_end : bytes) : bytes :=
  match rev_end with
  | [] => []
  | last :: rest =>
    if byte_Z last + 1 <=? 255 then reverse (byte_of_Z (byte_Z last + 1) :: rest)
    else prefix_upper_bound_loop rest
  end.

Definition prefix_upper_bound (prefix : bytes) : bytes :=
  prefix_upper_bound_loop (reverse prefix).

Lemma prefix_upper_bound_successor p : prefix_upper_bound p = default [] (prefix_successor p).
Proof.
  unfold prefix_upper_bound, prefix_successor. induction (reverse p) as [|c l IH]; simpl; [done|].
  case_decide as Hc.
  - subst c. simpl. exact IH.
  - destruct (Z.leb_spec (byte_Z c + 1) 255); [done|]. destruct Hc. apply byte_Z_inj.
    pose proof (byte_Z_range c). change (byte_Z xff) with 255. lia.
Qed.

Lemma in_range_prefix p x : in_range p (prefix_upper_bound p) x = starts_with x p.
Proof.
  rewrite prefix_upper_bound_successor. apply eq_true_iff_eq. unfold in_range.
  rewrite <-prefix_successor_range, andb_true_iff, orb_true_iff.
  destruct (prefix_successor p) as [e|] eqn:E; simpl; [|naive_solver].
  assert (e <> []) as Hne.
  { intros ->. pose proof (proj2 (prefix_successor_range p p)) as H. rewrite E in H.
    destruct H as [_ H]; [apply starts_with_spec; exists []; by rewrite app_nil_r|].
    by apply bytes_not_lt_nil in H. }
  destruct (bytes_eqb_spec e []); [done|]. naive_solver.
Qed.

Lemma iter_range_prefix d t p : iter_range d t p (prefix_upper_bound p) = iter_prefix d t p.
Proof.
  rewrite iter_range_filter, iter_prefix_filter. apply List.filter_ext. intros r. apply in_range_prefix.
Qed.

(** What lies between two keys of a prefix has the prefix. *)
Lemma between_prefix p a z x :
  bytes_le (p ++ a) x -> bytes_lt x (p ++ z) -> exists k, x = p ++ k.
Proof.
  intros H1 H2. apply starts_with_spec. destruct (starts_with x p) eqn:E; [done|].
  exfalso. pose proof (starts_with_app p z) as Hz.
  rewrite (prefix_contiguous p x (p ++ z)) in Hz; try done.
  etrans; [apply bytes_le_app|exact H1].
Qed.

(** A scan from some key of the prefix to its end. *)
Lemma in_range_prefix_from p x k :
  in_range (p ++ k) (prefix_upper_bound p) x = starts_with x p && bytes_leb (p ++ k) x.
Proof.
  rewrite <-in_range_prefix. unfold in_range.
  destruct (bytes_leb (p ++ k) x) eqn:E; [|by rewrite andb_false_r].
  assert (bytes_le p x) as Hp by (etrans; [apply bytes_le_app|exact E]).
  unfold bytes_le in Hp. rewrite Hp. by rewrite andb_true_r.
Qed.

Lemma iter_prefix_insert_other t p t' k v d :
  t' <> t \/ starts_with k p = false ->
  iter_prefix (tx_insert t' k v d) t p = iter_prefix d t p.
Proof.
  intros Hk. apply iter_prefix_unique; [apply iter_prefix_sorted|]. intros k' v'.
  rewrite elem_of_iter_prefix. unfold tx_insert.
  destruct (decide ((t', k) = (t, k'))) as [E|E]; [|by rewrite lookup_insert_ne].
  destruct Hk as [Hk|Hk]; [by injection E|]. apply (f_equal snd) in E. simpl in E. subst k'.
  split; intros [_ Hp]; by rewrite (proj2 (starts_with_spec k p) Hp) in Hk.
Qed.

Section keyed_log.
Context {A : Type} (t : table) (p : bytes) (key : A -> Z) (val : A -> bytes).

Definition keyed_row (a : A) : row := (p ++ be64 (key a), val a).
Definition keyed_ok (l : list A) : Prop :=
  Forall (fun a => in_u64 (key a)) l /\ StronglySorted (fun a a' => key a < key a') l.

Lemma keyed_key_inj r r' : in_u64 r -> in_u64 r' -> p ++ be64 r = p ++ be64 r' -> r = r'.
Proof. intros ? ? E%app_inv_head. by apply be64_inj. Qed.

Lemma keyed_rows_sorted l : keyed_ok l -> StronglySorted row_lt (keyed_row <$> l).
Proof.
  intros [Hw Hs]. induction Hs as [|a l Hl IH Ha]; [constructor|]. apply Forall_cons in Hw as [Hw Hws].
  rewrite fmap_cons. constructor; [by apply IH|]. rewrite Forall_fmap, Forall_forall in *.
  intros a' Ha'. unfold compose, row_lt, bytes_lt. cbn [fst keyed_row].
  rewrite bytes_lt_app_r, be64_lt; [|done|by apply Hws]. apply Z.ltb_lt. by apply Ha.
Qed.

Lemma keyed_lookup d l r :
  in_u64 r -> Forall (fun a => in_u64 (key a)) l -> iter_prefix d t p = keyed_row <$> l ->
  tx_get d t (p ++ be64 r) = val <$> List.find (fun a => key a =? r) l.
Proof.
  intros Hr Hw Hlog. rewrite Forall_forall in Hw.
  assert (forall x, tx_get d t (p ++ be64 r) = Some x <->
    exists a, a ∈ l /\ key a = r /\ x = val a) as Hiff.
  { intros x. pose proof (elem_of_iter_prefix d t p (p ++ be64 r) x) as H.
    rewrite Hlog, list_elem_of_fmap in H. unfold tx_get. split.
    - intros E. destruct (proj2 H) as (a & E' & Ha); [by eauto|].
      exists a. split; [done|]. split; [|exact (f_equal snd E')].
      symmetry. apply keyed_key_inj; [done|by apply Hw|exact (f_equal fst E')].
    - intros (a & Ha & <- & ->). apply H. by exists a. }
  destruct (List.find _ l) as [a|] eqn:E; simpl.
  - apply List.find_some in E as [Ha Er%Z.eqb_eq]. apply Hiff. exists a.
    by rewrite list_elem_of_In.
  - apply eq_None_not_Some. intros [x (a & Ha & <- & _)%Hiff].
    apply list_elem_of_In in Ha. pose proof (List.find_none _ _ E a Ha). simpl in *. lia.
Qed.

Lemma keyed_ok_snoc l a :
  keyed_ok l -> in_u64 (key a) -> Forall (fun a' => key a' < key a) l -> keyed_ok (l ++ [a]).
Proof.
  intros [Hw Hs] Ha Hl. split; [by rewrite Forall_app, Forall_singleton|].
  by apply StronglySorted_snoc.
Qed.

(** Appending an entry with a new highest number. *)
Lemma keyed_append d l a :
  keyed_ok l -> in_u64 (key a) -> Forall (fun a' => key a' < key a) l ->
  iter_prefix d t p = keyed_row <$> l ->
  iter_prefix (tx_insert t (p ++ be64 (key a)) (val a) d) t p = keyed_row <$> (l ++ [a]).
Proof.
  intros Hok Ha Hlt Hlog. apply iter_prefix_unique; [by apply keyed_rows_sorted, keyed_ok_snoc|].
  intros k v. rewrite fmap_app, elem_of_app, <-Hlog, elem_of_iter_prefix. simpl.
  rewrite list_elem_of_singleton. unfold tx_insert. rewrite lookup_insert_Some. split.
  - intros [[Hv Hp]|E].
    + split; [|done]. right. split; [|done]. intros E. apply (f_equal snd) in E.
      cbn [snd] in E. subst k.
      pose proof (keyed_lookup d l (key a) Ha (proj1 Hok) Hlog) as Hf. unfold tx_get in Hf.
      rewrite Hv in Hf. destruct (List.find _ l) as [a'|] eqn:E; [|done].
      apply List.find_some in E as [Hin Heq%Z.eqb_eq]. rewrite Forall_forall in Hlt.
      apply list_elem_of_In, Hlt in Hin. lia.
    + pose proof (f_equal fst E) as Ek. pose proof (f_equal snd E) as Ev.
      cbn [fst snd keyed_row] in Ek, Ev. subst k v. split; [by left|by eexists].
  - intros [[[E <-]|[_ Hv]] Hp]; [right|by left].
    apply (f_equal snd) in E. cbn [snd] in E. by subst k.
Qed.

(** Changing an entry in place and removing one. *)
Definition replace_key (a' : A) (l : list A) : list A :=
  (fun a => if key a =? key a' then a' else a) <$> l.

Lemma keyed_ok_replace l a' : keyed_ok l -> keyed_ok (replace_key a' l).
Proof.
  intros [Hw Hs]. assert (forall a, key (if key a =? key a' then a' else a) = key a) as Hk.
  { intros a. by destruct (Z.eqb_spec (key a) (key a')). }
  unfold replace_key. split.
  - rewrite Forall_fmap. eapply Forall_impl; [exact Hw|]. intros a. unfold compose. by rewrite Hk.
  - clear Hw. induction Hs as [|a l Hs IH Ha]; [constructor|]. rewrite fmap_cons. constructor; [done|].
    rewrite Forall_fmap. eapply Forall_impl; [exact Ha|]. intros x. unfold compose. by rewrite !Hk.
Qed.

Lemma keyed_replace d l a' :
  keyed_ok l -> key a' ∈ key <$> l -> iter_prefix d t p = keyed_row <$> l ->
  iter_prefix (tx_insert t (p ++ be64 (key a')) (val a') d) t p = keyed_row <$> replace_key a' l.
Proof.
  intros Hok Hin Hlog. apply iter_prefix_unique; [by apply keyed_rows_sorted, keyed_ok_replace|].
  destruct Hok as [Hw _]. rewrite Forall_forall in Hw.
  apply list_elem_of_fmap in Hin as (a0 & E0 & Hin).
  assert (in_u64 (key a')) as Hr by (rewrite E0; by apply Hw).
  intros k v. pose proof (elem_of_iter_prefix d t p k v) as Hd. rewrite Hlog in Hd.
  unfold tx_insert. rewrite lookup_insert_Some.
  unfold replace_key. rewrite <-list_fmap_compose, list_elem_of_fmap. split.
  - intros (a & E & Ha). unfold compose in E. destruct (Z.eqb_spec (key a) (key a')) as [Ek|Ek].
    + injection E as -> ->. split; [by left|by eexists].
    + destruct (proj1 Hd) as [Hv Hp]; [rewrite E; by apply (list_elem_of_fmap_2 keyed_row)|].
      split; [|done]. right. split; [|done]. intros [= E']. injection E as E1 _.
      destruct Ek. symmetry. apply keyed_key_inj; [done|by apply Hw|congruence].
  - intros [[[E <-]|[Hne Hv]] Hp].
    + injection E as E. exists a0. unfold compose. rewrite E0, Z.eqb_refl. split; [|done].
      unfold keyed_row. congruence.
    + pose proof (proj2 Hd (conj Hv Hp)) as (a & E & Ha)%list_elem_of_fmap. exists a. split; [|done].
      unfold compose. destruct (Z.eqb_spec (key a) (key a')) as [Ek|]; [|done].
      destruct Hne. injection E as E1 _. congruence.
Qed.

Lemma keyed_ok_filter f l : keyed_ok l -> keyed_ok (List.filter f l).
Proof.
  intros [Hw Hs]. split; [|by apply StronglySorted_List_filter].
  rewrite Forall_forall in *. intros a [_ Ha]%elem_of_List_filter. by apply Hw.
Qed.

Lemma keyed_delete d l r :
  in_u64 r -> keyed_ok l -> iter_prefix d t p = keyed_row <$> l ->
  iter_prefix (tx_remove t (p ++ be64 r) d) t p = keyed_row <$> List.filter (fun a => negb (key a =? r)) l.
Proof.
  intros Hr Hok Hlog. apply iter_prefix_unique; [by apply keyed_rows_sorted, keyed_ok_filter|].
  destruct Hok as [Hw _]. rewrite Forall_forall in Hw.
  intros k v. pose proof (elem_of_iter_prefix d t p k v) as Hd. rewrite Hlog in Hd.
  unfold tx_remove. rewrite lookup_delete_Some, list_elem_of_fmap. split.
  - intros (a & E & [Hf Ha]%elem_of_List_filter). apply negb_true_iff, Z.eqb_neq in Hf.
    destruct (proj1 Hd) as [Hv Hp]; [rewrite E; by apply (list_elem_of_fmap_2 keyed_row)|].
    split; [|done]. split; [|done]. intros [= E']. injection E as E1 _. destruct Hf.
    apply keyed_key_inj; [by apply Hw|done|congruence].
  - intros [[Hne Hv] Hp]. pose proof (proj2 Hd (conj Hv Hp)) as (a & E & Ha)%list_elem_of_fmap.
    exists a. split; [done|]. apply elem_of_List_filter. split; [|done]. apply negb_true_iff, Z.eqb_neq.
    intros Ek. destruct Hne. injection E as E1 _. congruence.
Qed.

(** The scan from a number to the end of the prefix. *)
Lemma keyed_range d l r :
  in_u64 r -> keyed_ok l -> iter_prefix d t p = keyed_row <$> l ->
  iter_range d t (p ++ be64 r) (prefix_upper_bound p) =
  keyed_row <$> List.filter (fun a => r <=? key a) l.
Proof.
  intros Hr [Hw _] Hlog. rewrite iter_range_filter.
  rewrite (List.filter_ext _ (fun x : row => starts_with x.1 p && bytes_leb (p ++ be64 r) x.1))
    by (intros; apply in_range_prefix_from).
  rewrite <-filter_filter_and, <-iter_prefix_filter, Hlog. clear Hlog.
  induction Hw as [|a l Ha Hw IH]; [done|]. rewrite fmap_cons.
  cbn [List.filter fst keyed_row]. unfold bytes_leb. rewrite bytes_lt_app_r, be64_lt by done.
  rewrite Z.ltb_antisym, negb_involutive. destruct (r <=? key a); [rewrite fmap_cons; by f_equal|done].
Qed.

End keyed_log.
