(* ===== verification/ScopeTrie.v ===== *)
(** * Scope matching of credentials

    [coord-core/src/auth/trie.rs]: the scope prefix tree that decides whether a
    single key is inside a scope, and the interval test
    [scope_covers_interval] that decides range reads.  The interval test works
    on bytes while the tree works on '/'-separated segments; the theorem of
    this file is that the interval test never grants more than the tree.

    A [&str] is the byte string of its UTF-8 encoding: splitting at '/' and
    the character classes used here only involve ASCII characters, whose bytes
    occur nowhere else in UTF-8. *)

From S2P Require Export KvRange.

Local Open Scope Z_scope.

(** ** The tree *)

Inductive TrieNode :=
  TNode (children : list (bytes * TrieNode)) (is_endpoint has_wildcard : bool).

Definition empty_node : TrieNode := TNode [] false false.

Definition node_children (n : TrieNode) : list (bytes * TrieNode) :=
  match n with TNode cs _ _ => cs end.
Definition node_is_endpoint (n : TrieNode) : bool := match n with TNode _ e _ => e end.
Definition node_has_wildcard (n : TrieNode) : bool := match n with TNode _ _ w => w end.

Definition mark_endpoint (n : TrieNode) : TrieNode :=
  match n with TNode cs _ w => TNode cs true w end.
Definition mark_wildcard (n : TrieNode) : TrieNode :=
  match n with TNode cs e _ => TNode cs e true end.

(** [HashMap::get] and the insertion of [HashMap::entry]: a child name occurs
    at most once. *)
Fixpoint child_get (seg : bytes) (cs : list (bytes * TrieNode)) : option TrieNode :=
  match cs with
  | [] => None
  | (s, n) :: cs' => if decide (s = seg) then Some n else child_get seg cs'
  end.

Fixpoint child_set (seg : bytes) (n : TrieNode) (cs : list (bytes * TrieNode))
    : list (bytes * TrieNode) :=
  match cs with
  | [] => [(seg, n)]
  | (s, m) :: cs' => if decide (s = seg) then (s, n) :: cs' else (s, m) :: child_set seg n cs'
  end.

Definition set_child (seg : bytes) (child n : TrieNode) : TrieNode :=
  match n with TNode cs e w => TNode (child_set seg child cs) e w end.

(** ** Scopes *)

Definition SLASH : byte := x2f.
Definition STAR : byte := x2a.

Definition is_ascii_alphanumeric (c : byte) : bool :=
  let z := byte_Z c in
  ((48 <=? z) && (z <=? 57)) || ((65 <=? z) && (z <=? 90)) || ((97 <=? z) && (z <=? 122)).

Definition scope_char_ok (c : byte) : bool :=
  is_ascii_alphanumeric c || bool_decide (c = SLASH) || bool_decide (c = x5f)
    || bool_decide (c = x2d) || bool_decide (c = STAR).

Definition validate_scope_chars (scope : bytes) : bool := forallb scope_char_ok scope.

(** [str::split('/')]; [cur] is the current piece, reversed. *)
Fixpoint split_slash (cur path : bytes) : list bytes :=
  match path with
  | [] => [reverse cur]
  | c :: path' =>
    if decide (c = SLASH) then reverse cur :: split_slash [] path'
    else split_slash (c :: cur) path'
  end.

Definition split_scope (path : bytes) : list bytes :=
  if bytes_eqb path [] then []
  else List.filter (fun s => negb (bytes_eqb s [])) (split_slash [] path).

(** The loop of [ScopeTrie::insert]: the updated tree, and whether the call
    returned [Ok]. *)
Fixpoint trie_insert_loop (node : TrieNode) (segments : list bytes) : TrieNode * bool :=
  match segments with
  | [] => (node, true)
  | segment :: rest =>
    if bytes_eqb segment [STAR] then
      match rest with
      | [] => (mark_wildcard node, true)
      | _ => (node, false)
      end
    else
      let child := default empty_node (child_get segment (node_children node)) in
      match rest with
      | [] => (set_child segment (mark_endpoint child) node, true)
      | _ => let '(child', ok) := trie_insert_loop child rest in
             (set_child segment child' node, ok)
      end
  end.

Definition trie_insert (root : TrieNode) (scope : bytes) : TrieNode * bool :=
  if bytes_eqb scope [] then (mark_endpoint root, true)
  else if negb (validate_scope_chars scope) then (root, false)
  else match split_scope scope with
       | [] => (mark_endpoint root, true)
       | segments => trie_insert_loop root segments
       end.

Fixpoint trie_matches_loop (node : TrieNode) (segments : list bytes) : bool :=
  match segments with
  | [] => node_is_endpoint node || node_has_wildcard node
  | segment :: rest =>
    if node_has_wildcard node then true
    else if node_is_endpoint node then true
    else match child_get segment (node_children node) with
         | Some child => trie_matches_loop child rest
         | None => false
         end
  end.

Definition trie_matches (root : TrieNode) (resource : bytes) : bool :=
  if node_is_endpoint root then true
  else trie_matches_loop root (split_scope resource).

(** ** Intervals *)

(** Well-formed UTF-8 ([std::str::from_utf8] succeeds): the continuation
    ranges of the Unicode table of well-formed byte sequences. *)
Definition cont (lo hi : Z) (c : byte) : bool := (lo <=? byte_Z c) && (byte_Z c <=? hi).

Fixpoint utf8_valid (x : bytes) : bool :=
  match x with
  | [] => true
  | c0 :: x0 =>
    let z := byte_Z c0 in
    if z <=? 127 then utf8_valid x0
    else match x0 with
    | [] => false
    | c1 :: x1 =>
      if (194 <=? z) && (z <=? 223) then cont 128 191 c1 && utf8_valid x1
      else match x1 with
      | [] => false
      | c2 :: x2 =>
        if (224 <=? z) && (z <=? 239) then
          cont (if z =? 224 then 160 else 128) (if z =? 237 then 159 else 191) c1
            && cont 128 191 c2 && utf8_valid x2
        else match x2 with
        | [] => false
        | c3 :: x3 =>
          (240 <=? z) && (z <=? 244)
            && cont (if z =? 240 then 144 else 128) (if z =? 244 then 143 else 191) c1
            && cont 128 191 c2 && cont 128 191 c3 && utf8_valid x3
        end
      end
    end
  end.

(** [from_utf8(key).unwrap_or("\u{FFFD}")]. *)
Definition utf8_or_replacement (key : bytes) : bytes :=
  if utf8_valid key then key else [xef; xbf; xbd].

(** [str::strip_suffix]. *)
Definition strip_suffix (suffix x : bytes) : option bytes :=
  reverse <$> strip_prefix (reverse suffix) (reverse x).

Definition ends_with_slash (x : bytes) : bool := bool_decide (last x = Some SLASH).

Definition push_slash (p : bytes) : bytes := if ends_with_slash p then p else p ++ [SLASH].

Definition contains_star (x : bytes) : bool := bool_decide (STAR ∈ x).

Definition scope_safe_byte_prefix (scope : bytes) : option bytes :=
  if negb (validate_scope_chars scope) then None
  else match strip_suffix [SLASH; STAR] scope with
  | Some base =>
    if contains_star base then None
    else if bytes_eqb base [] then Some []
    else Some (push_slash base)
  | None => if contains_star scope then None else Some (push_slash scope)
  end.

Definition scope_covers_interval (scope key range_end : bytes) : bool :=
  if bytes_eqb scope [] || forallb (fun c => bool_decide (c = SLASH)) scope
       || bytes_eqb scope [SLASH; STAR] || bytes_eqb scope [STAR] then true
  else if bytes_eqb range_end [] then
    let '(trie, ok) := trie_insert empty_node scope in
    ok && trie_matches trie (utf8_or_replacement key)
  else if bytes_eqb range_end [x00] then false
  else match scope_safe_byte_prefix scope with
  | None => false
  | Some prefix =>
    if bytes_eqb prefix [] then true
    else match prefix_successor prefix with
    | None => false
    | Some upper => bytes_leb prefix key && bytes_leb range_end upper
    end
  end.

(** ** Splitting *)

Lemma split_slash_app cur p r :
  split_slash cur (p ++ SLASH :: r) = split_slash cur p ++ split_slash [] r.
Proof.
  revert cur. induction p as [|c p IH]; intros cur; simpl; [done|].
  case_decide; simpl; by rewrite IH.
Qed.

Lemma split_scope_alt path :
  split_scope path = List.filter (fun s => negb (bytes_eqb s [])) (split_slash [] path).
Proof. unfold split_scope. by destruct (bytes_eqb_spec path []) as [->|]. Qed.

Lemma split_scope_app p r : split_scope (p ++ SLASH :: r) = split_scope p ++ split_scope r.
Proof. by rewrite !split_scope_alt, split_slash_app, List.filter_app. Qed.

Lemma split_scope_push_slash p : exists q,
  push_slash p = q ++ [SLASH] /\ split_scope q = split_scope p.
Proof.
  unfold push_slash, ends_with_slash. case_bool_decide as Hl; [|by exists p].
  apply last_Some in Hl as [q ->]. exists q. split; [done|].
  rewrite split_scope_app. unfold split_scope at 3. simpl. by rewrite app_nil_r.
Qed.

Lemma split_slash_elem cur path seg c :
  seg ∈ split_slash cur path -> c ∈ seg -> c ∈ cur \/ c ∈ path.
Proof.
  revert cur. induction path as [|a path IH]; intros cur Hs Hc; simpl in Hs.
  - apply list_elem_of_singleton in Hs as ->. left. by apply elem_of_reverse.
  - case_decide as Ha.
    + apply elem_of_cons in Hs as [->|Hs]; [left; by apply elem_of_reverse|].
      destruct (IH [] Hs Hc) as [Hn|]; [by apply elem_of_nil in Hn|]. right. by right.
    + destruct (IH (a :: cur) Hs Hc) as [[->|?]%elem_of_cons|?]; [right; by left|by left|].
      right. by right.
Qed.

Lemma split_scope_no_star path :
  contains_star path = false -> Forall (fun s => bytes_eqb s [STAR] = false) (split_scope path).
Proof.
  unfold contains_star. rewrite bool_decide_eq_false, split_scope_alt. intros Hn.
  apply Forall_forall. intros seg [_ Hs]%elem_of_List_filter.
  destruct (bytes_eqb_spec seg [STAR]) as [->|]; [|done].
  destruct (split_slash_elem _ _ _ STAR Hs) as [H|H]; [by left| |done].
  by apply elem_of_nil in H.
Qed.

(** Only a path of slashes has no segments. *)
Lemma split_slash_nonempty cur path :
  cur <> [] -> List.filter (fun s => negb (bytes_eqb s [])) (split_slash cur path) <> [].
Proof.
  revert cur. induction path as [|a path IH]; intros cur Hc; simpl.
  - destruct (bytes_eqb_spec (reverse cur) []) as [E|]; [|done].
    apply (f_equal reverse) in E. by rewrite reverse_involutive in E.
  - case_decide; [|by apply IH]. simpl.
    destruct (bytes_eqb_spec (reverse cur) []) as [E|]; [|done].
    apply (f_equal reverse) in E. by rewrite reverse_involutive in E.
Qed.

Lemma split_scope_nil path :
  split_scope path = [] -> forallb (fun c => bool_decide (c = SLASH)) path = true.
Proof.
  rewrite split_scope_alt. induction path as [|a path IH]; [done|]. simpl.
  case_decide as Ha; simpl.
  - intros E. rewrite bool_decide_eq_true_2 by done. by apply IH.
  - intros E. by apply split_slash_nonempty in E.
Qed.

(** ** Insertion and matching *)

Lemma child_get_set seg n cs : child_get seg (child_set seg n cs) = Some n.
Proof.
  induction cs as [|[s m] cs IH]; simpl; [by rewrite decide_True|].
  case_decide; simpl; [by rewrite decide_True|]. by rewrite decide_False.
Qed.

Lemma trie_insert_loop_cons node seg rest :
  bytes_eqb seg [STAR] = false -> rest <> [] ->
  trie_insert_loop node (seg :: rest) =
  let '(child', ok) :=
    trie_insert_loop (default empty_node (child_get seg (node_children node))) rest in
  (set_child seg child' node, ok).
Proof. intros Hs Hr. simpl. rewrite Hs. by destruct rest. Qed.

Lemma matches_via_child node seg child rest :
  trie_matches_loop child rest = true ->
  trie_matches_loop (set_child seg child node) (seg :: rest) = true.
Proof.
  intros Hm. destruct node as [cs e w]. simpl. destruct w, e; try done.
  by rewrite child_get_set.
Qed.

Lemma endpoint_matches cs w rest : trie_matches_loop (TNode cs true w) rest = true.
Proof. destruct rest; simpl; [done|]. by destruct w. Qed.

Lemma wildcard_matches node rest : trie_matches_loop (mark_wildcard node) rest = true.
Proof. destruct node, rest; simpl; [apply orb_true_r|done]. Qed.

(** A literal scope matches every resource that has its segments first. *)
Lemma insert_literal_matches segs node rest :
  segs <> [] -> Forall (fun s => bytes_eqb s [STAR] = false) segs ->
  exists t, trie_insert_loop node segs = (t, true) /\ trie_matches_loop t (segs ++ rest) = true.
Proof.
  revert node. induction segs as [|seg segs IH]; intros node Hne Hs; [done|].
  apply Forall_cons in Hs as [Hseg Hs]. destruct segs as [|seg' segs].
  - simpl. rewrite Hseg. eexists; split; [done|]. apply matches_via_child.
    destruct (default empty_node _) as [cs e w]. apply endpoint_matches.
  - rewrite trie_insert_loop_cons by done.
    destruct (IH (default empty_node (child_get seg (node_children node)))) as (t & -> & Ht);
      [done|done|].
    eexists; split; [done|]. simpl app. by apply matches_via_child.
Qed.

(** So does a scope that ends in a wildcard. *)
Lemma insert_wildcard_matches segs node rest :
  Forall (fun s => bytes_eqb s [STAR] = false) segs ->
  exists t, trie_insert_loop node (segs ++ [[STAR]]) = (t, true) /\
    trie_matches_loop t (segs ++ rest) = true.
Proof.
  revert node. induction segs as [|seg segs IH]; intros node Hs.
  - simpl. eexists; split; [done|]. apply wildcard_matches.
  - apply Forall_cons in Hs as [Hseg Hs]. simpl app at 1.
    rewrite trie_insert_loop_cons by (done || by destruct segs).
    destruct (IH (default empty_node (child_get seg (node_children node)))) as (t & -> & Ht);
      [done|].
    eexists; split; [done|]. simpl app. by apply matches_via_child.
Qed.

Lemma trie_matches_of_loop t resource :
  trie_matches_loop t (split_scope resource) = true -> trie_matches t resource = true.
Proof. unfold trie_matches. by destruct (node_is_endpoint t). Qed.

Lemma strip_suffix_Some suffix x base :
  strip_suffix suffix x = Some base -> x = base ++ suffix.
Proof.
  unfold strip_suffix. rewrite fmap_Some. intros (r & H & ->).
  apply strip_prefix_Some in H. apply (f_equal reverse) in H.
  by rewrite reverse_involutive, reverse_app, reverse_involutive in H.
Qed.

(** The byte prefix computed for a scope is safe: everything below it matches. *)
Lemma safe_prefix_matches scope p r :
  scope <> [] ->
  forallb (fun c => bool_decide (c = SLASH)) scope = false ->
  scope_safe_byte_prefix scope = Some p ->
  exists t, trie_insert empty_node scope = (t, true) /\ trie_matches t (p ++ r) = true.
Proof.
  intros Hne Hsl. unfold scope_safe_byte_prefix, trie_insert.
  destruct (bytes_eqb_spec scope []) as [|_]; [done|].
  destruct (validate_scope_chars scope); [|done]. simpl.
  destruct (strip_suffix [SLASH; STAR] scope) as [base|] eqn:Hb.
  - apply strip_suffix_Some in Hb. destruct (contains_star base) eqn:Hstar; [done|].
    assert (split_scope scope = split_scope base ++ [[STAR]]) as Hseg.
    { rewrite Hb. change (base ++ [SLASH; STAR]) with (base ++ SLASH :: [STAR]).
      by rewrite split_scope_app. }
    apply split_scope_no_star in Hstar.
    intros Hp. rewrite Hseg.
    assert (exists q, split_scope (p ++ r) = split_scope base ++ split_scope q) as [q Hq].
    { destruct (bytes_eqb_spec base []) as [->|Hbn]; simplify_eq; [by exists r|].
      destruct (split_scope_push_slash base) as (q & -> & <-). exists r.
      rewrite <-app_assoc. apply split_scope_app. }
    destruct (insert_wildcard_matches _ empty_node (split_scope q) Hstar) as (t & Ht & Hm).
    exists t. split; [by destruct (split_scope base)|].
    apply trie_matches_of_loop. by rewrite Hq.
  - destruct (contains_star scope) eqn:Hstar; [done|]. intros [= <-].
    destruct (split_scope_push_slash scope) as (q & -> & Hq).
    assert (split_scope scope <> []) as Hseg.
    { intros E%split_scope_nil. congruence. }
    apply split_scope_no_star in Hstar.
    destruct (insert_literal_matches _ empty_node (split_scope r) Hseg Hstar) as (t & Ht & Hm).
    exists t. split; [by destruct (split_scope scope)|].
    apply trie_matches_of_loop. rewrite <-app_assoc. simpl. by rewrite split_scope_app, Hq.
Qed.

Lemma match_all_matches scope x :
  scope = [] \/ forallb (fun c => bool_decide (c = SLASH)) scope = true
    \/ scope = [SLASH; STAR] \/ scope = [STAR] ->
  exists t, trie_insert empty_node scope = (t, true) /\ trie_matches t x = true.
Proof.
  intros H. destruct (bytes_eqb_spec scope []) as [->|Hne].
  { eexists; split; [reflexivity|done]. }
  destruct H as [?|[Hall|[->| ->]]]; [done| | |].
  - assert (validate_scope_chars scope = true) as Hv.
    { unfold validate_scope_chars. rewrite forallb_forall in Hall |- *. intros c Hc.
      apply Hall, bool_decide_eq_true in Hc as ->. done. }
    assert (split_scope scope = []) as Hs.
    { rewrite split_scope_alt. clear Hv Hne. induction scope as [|c scope IH]; [done|].
      simpl in Hall. apply andb_true_iff in Hall as [->%bool_decide_eq_true Hall].
      simpl. by apply IH. }
    unfold trie_insert. rewrite Hv, Hs. simpl.
    destruct (bytes_eqb_spec scope []); [done|]. eexists; split; [reflexivity|done].
  - eexists; split; [vm_compute; reflexivity|]. apply trie_matches_of_loop, (wildcard_matches empty_node).
  - eexists; split; [vm_compute; reflexivity|]. apply trie_matches_of_loop, (wildcard_matches empty_node).
Qed.

(** Range authorisation is sound.  If the interval test lets a credential
    with this scope read [[key, range_end)], then every key of the interval is
    one that the scope tree grants individually. *)
Theorem scope_covers_interval_sound scope key range_end x :
  range_end <> [] ->
  scope_covers_interval scope key range_end = true ->
  in_range key range_end x = true ->
  exists t, trie_insert empty_node scope = (t, true) /\ trie_matches t x = true.
Proof.
  intros Hre. unfold scope_covers_interval.
  destruct (bytes_eqb_spec scope []) as [->|Hne]; [intros; apply match_all_matches; auto|].
  destruct (forallb _ scope) eqn:Hsl; [intros; apply match_all_matches; auto|].
  destruct (bytes_eqb_spec scope [SLASH; STAR]); [intros; apply match_all_matches; auto|].
  destruct (bytes_eqb_spec scope [STAR]); [intros; apply match_all_matches; auto|].
  simpl. destruct (bytes_eqb_spec range_end []); [done|].
  destruct (bytes_eqb_spec range_end [x00]); [done|].
  destruct (scope_safe_byte_prefix scope) as [p|] eqn:Hp; [|done].
  intros Hc Hin. enough (exists r, x = p ++ r) as [r ->] by (by eapply safe_prefix_matches).
  destruct (bytes_eqb_spec p []) as [->|]; [by exists x|].
  destruct (prefix_successor p) as [upper|] eqn:Hu; [|done].
  apply andb_true_iff in Hc as [Hk Hr]. unfold in_range in Hin.
  apply andb_true_iff in Hin as [Hkx Hxr]. apply orb_true_iff in Hxr as [Hxr|Hxr].
  { by destruct (bytes_eqb_spec range_end []). }
  apply starts_with_spec, prefix_successor_range. rewrite Hu. simpl. split.
  - by trans key.
  - by eapply bytes_lt_le_trans.
Qed.

(** Witness for [scope_covers_interval_sound]: scope ["/app/a/"] and the
    repository's own prefix scan [["/app/a/", "/app/a0")]. *)
Lemma scope_covers_interval_sound_witness :
  scope_covers_interval (b "/app/a/") (b "/app/a/x") (b "/app/a0") = true /\
  exists t, trie_insert empty_node (b "/app/a/") = (t, true)
    /\ trie_matches t (b "/app/a/y") = true.
Proof.
  split; [reflexivity|].
  apply (scope_covers_interval_sound (b "/app/a/") (b "/app/a/x") (b "/app/a0") (b "/app/a/y"));
    [done|reflexivity|reflexivity].
Defined.
