(* ===== verification/MvccCodec.v ===== *)
(** * Key spaces and record codecs of the MVCC layer

    The key encodings and the hand-written binary codecs of
    [coord-server/src/storage/mvcc.rs]: [KvMetadata], [ChangeEvent],
    [AppliedLogId], [LeaseRecord], [LeaseV2Record], [DirectWriteFence].  The
    theorems are the round trips and the separation of the key spaces. *)

From S2P Require Export KvRange.

Local Open Scope Z_scope.

(** ** Key spaces *)

Definition KV_PREFIX : bytes := b "/kv/".
Definition LEASE_PREFIX : bytes := b "/_lease/".
Definition CHANGELOG_PREFIX : bytes := b "/_changelog/".
Definition KV_META_PREFIX : bytes := b "/_kv_meta/".
Definition META_LAST_APPLIED : bytes := b "/_meta/last_applied".
Definition META_CURRENT_REVISION : bytes := b "/_meta/current_revision".
Definition META_COMPACT_REVISION : bytes := b "/_meta/compacted_revision".
Definition META_COMMIT_LOG_TRIMMED_BEFORE : bytes := b "/_meta/commit_log_trimmed_before".
Definition LEASE_V2_PREFIX : bytes := b "/_leasev2/".
Definition LEASE_V2_REQ_PREFIX : bytes := b "/_leasev2req/".
Definition TSO_HIGH_WATER : bytes := b "/_sys/tso/high_water".
Definition TSO_LAST_BATCH : bytes := b "/_sys/tso/last_batch".
Definition DECISION_APPLIED_TS : bytes := b "/_sys/kv_t/decision_applied".
Definition DIRECT_WRITE_FENCE : bytes := b "/_sys/kv_t/direct_write_fence".
Definition IMPORT_HISTORY_FLOORS : bytes := b "/_sys/kv_t/import_history_floors".
Definition SAFE_TS_FENCE : bytes := b "/_sys/kv_t/safe_ts_fence".
Definition COMMIT_WATERMARK : bytes := b "/_sys/commit_log/watermark".
Definition APPLIED_LOG_ID_MAGIC : bytes := b "ALI1".

Definition encode_kv_key (user_key : bytes) : bytes := KV_PREFIX ++ user_key.
Definition decode_kv_key (internal_key : bytes) : option bytes :=
  strip_prefix KV_PREFIX internal_key.
Definition encode_kv_meta_key (user_key : bytes) : bytes := KV_META_PREFIX ++ user_key.
Definition encode_changelog_key (revision : Z) : bytes := CHANGELOG_PREFIX ++ be64 revision.
Definition encode_lease_key (lease_id : Z) : bytes := LEASE_PREFIX ++ be64 lease_id.
Definition encode_lease_v2_key (lease_id : Z) : bytes := LEASE_V2_PREFIX ++ be64 lease_id.
Definition encode_lease_v2_req_key (request_id : bytes) : bytes :=
  LEASE_V2_REQ_PREFIX ++ request_id.

Arguments encode_kv_key : simpl never.
Arguments decode_kv_key : simpl never.
Arguments encode_kv_meta_key : simpl never.
Arguments encode_changelog_key : simpl never.

(** Half-open intervals with an empty bound meaning "none". *)
Definition fence_contains (start end_ key : bytes) : bool :=
  bytes_leb start key && (bytes_eqb end_ [] || bytes_ltb key end_).

Definition ranges_intersect (a_start a_end b_start b_end : bytes) : bool :=
  (bytes_eqb b_end [] || bytes_ltb a_start b_end)
    && (bytes_eqb a_end [] || bytes_ltb b_start a_end).

(** [decode_u64]: exactly eight bytes. *)
Definition decode_u64 (x : bytes) : option Z :=
  if decide (length x = 8%nat) then Some (be_val x) else None.

(** ** KvMetadata *)

Record KvMetadata := {
  version : Z;
  create_revision : Z;
  mod_revision : Z;
  lease_id : Z;
  deleted : bool }.

#[export] Instance KvMetadata_eq_dec : EqDecision KvMetadata.
Proof. solve_decision. Defined.

Definition meta_to_bytes (m : KvMetadata) : bytes :=
  be64 (version m) ++ be64 (create_revision m) ++ be64 (mod_revision m)
    ++ be64 (lease_id m) ++ [if deleted m then x01 else x00].

Definition meta_from_bytes (x : bytes) : option KvMetadata :=
  if decide (length x < 32)%nat then None
  else
    let del := match x !! 32%nat with Some c => bool_decide (c = x01) | None => false end in
    v ← slice 0 8 x; c ← slice 8 8 x; m ← slice 16 8 x; l ← slice 24 8 x;
    Some {| version := i64_wrap (be_val v); create_revision := i64_wrap (be_val c);
            mod_revision := i64_wrap (be_val m); lease_id := i64_wrap (be_val l);
            deleted := del |}.

(** [KvMetadata::new_key], [update], [mark_deleted]; [version + 1] wraps in a
    release build. *)
Definition meta_new_key (revision lease : Z) : KvMetadata :=
  {| version := 1; create_revision := i64_wrap revision; mod_revision := i64_wrap revision;
     lease_id := lease; deleted := false |}.

Definition meta_update (m : KvMetadata) (revision lease : Z) : KvMetadata :=
  {| version := i64_wrap (version m + 1); create_revision := create_revision m;
     mod_revision := i64_wrap revision; lease_id := lease; deleted := false |}.

Definition meta_mark_deleted (m : KvMetadata) (revision : Z) : KvMetadata :=
  {| version := i64_wrap (version m + 1); create_revision := create_revision m;
     mod_revision := i64_wrap revision; lease_id := lease_id m; deleted := true |}.

(** The fields are [i64]. *)
Record meta_wf (m : KvMetadata) : Prop := {
  wf_version : in_i64 (version m);
  wf_create_revision : in_i64 (create_revision m);
  wf_mod_revision : in_i64 (mod_revision m);
  wf_lease_id : in_i64 (lease_id m) }.

(** ** AppliedLogId *)

Record AppliedLogId := { term : Z; node_id : Z; index : Z }.

Definition standalone (i : Z) : AppliedLogId := {| term := 0; node_id := 0; index := i |}.

Definition applied_to_bytes (a : AppliedLogId) : bytes :=
  APPLIED_LOG_ID_MAGIC ++ be64 (term a) ++ be64 (node_id a) ++ be64 (index a).

Definition applied_from_bytes (x : bytes) : option AppliedLogId :=
  body ← strip_prefix APPLIED_LOG_ID_MAGIC x;
  t ← slice 0 8 body; n ← slice 8 8 body; i ← slice 16 8 body;
  Some {| term := be_val t; node_id := be_val n; index := be_val i |}.

Definition applied_wf (a : AppliedLogId) : Prop :=
  in_u64 (term a) /\ in_u64 (node_id a) /\ in_u64 (index a).

(** ** ChangeEvent *)

Inductive EventType := EvPut | EvDelete | EvTxn | EvLease.

#[export] Instance EventType_eq_dec : EqDecision EventType.
Proof. solve_decision. Defined.

(** [KeyValueChange]; [prev_value] is always [None] in the code and is never
    encoded. *)
Record KeyValueChange := { ch_key : bytes; ch_value : option bytes }.

Record ChangeEvent := {
  revision : Z;
  changes : list KeyValueChange;
  event_type : EventType }.

#[export] Instance KeyValueChange_eq_dec : EqDecision KeyValueChange.
Proof. solve_decision. Defined.
#[export] Instance ChangeEvent_eq_dec : EqDecision ChangeEvent.
Proof. solve_decision. Defined.

Definition CHANGELOG_FORMAT_VERSION : byte := x02.

Definition event_type_byte (t : EventType) : byte :=
  match t with EvPut => x00 | EvDelete => x01 | EvTxn => x02 | EvLease => x03 end.

Definition len32 (x : bytes) : bytes := be32 (u32_wrap (Z.of_nat (length x))).

Definition change_to_bytes (c : KeyValueChange) : bytes :=
  len32 (ch_key c) ++ ch_key c ++
  match ch_value c with
  | Some v => [x01] ++ len32 v ++ v
  | None => [x00]
  end.

Definition event_to_bytes (e : ChangeEvent) : bytes :=
  [CHANGELOG_FORMAT_VERSION] ++ be64 (revision e) ++ [event_type_byte (event_type e)]
    ++ be32 (u32_wrap (Z.of_nat (length (changes e)))) ++ concat (change_to_bytes <$> changes e).

(** One iteration of the decoding loop; [rest] is [data[offset..]]. *)
Definition parse_change (rest : bytes) : result (KeyValueChange * bytes) :=
  if decide (length rest < 4)%nat then Err DataCorruption else
  let key_len := Z.to_nat (be_val (take 4 rest)) in
  let rest := drop 4 rest in
  if decide (length rest < key_len)%nat then Err DataCorruption else
  let key := take key_len rest in
  match drop key_len rest with
  | [] => Err DataCorruption
  | flag :: rest =>
    if decide (flag = x01) then
      if decide (length rest < 4)%nat then Err DataCorruption else
      let val_len := Z.to_nat (be_val (take 4 rest)) in
      let rest := drop 4 rest in
      if decide (length rest < val_len)%nat then Err DataCorruption else
      Ok ({| ch_key := key; ch_value := Some (take val_len rest) |}, drop val_len rest)
    else Ok ({| ch_key := key; ch_value := None |}, rest)
  end.

Fixpoint parse_changes (n : nat) (rest : bytes) : result (list KeyValueChange) :=
  match n with
  | O => Ok []
  | S n' =>
    '(c, rest) ← parse_change rest;
    cs ← parse_changes n' rest;
    Ok (c :: cs)
  end.

Definition event_type_of_byte (c : byte) : result EventType :=
  match c with
  | x00 => Ok EvPut
  | x01 => Ok EvDelete
  | x02 => Ok EvTxn
  | x03 => Ok EvLease
  | _ => Err DataCorruption
  end.

(** [ChangeEvent::from_bytes]; indexing past the end panics. *)
Definition event_from_bytes (data : bytes) : result ChangeEvent :=
  if decide (length data < 13)%nat then Err DataCorruption else
  let '(revision_start, event_type_pos) :=
    if decide (data !! 0%nat = Some CHANGELOG_FORMAT_VERSION) then (1, 9)%nat else (0, 8)%nat in
  rev ← ok_or (slice revision_start 8 data) Panic;
  tb ← ok_or (data !! event_type_pos) Panic;
  t ← event_type_of_byte tb;
  nb ← ok_or (slice (event_type_pos + 1) 4 data) Panic;
  cs ← parse_changes (Z.to_nat (be_val nb)) (drop (event_type_pos + 5) data);
  Ok {| revision := be_val rev; changes := cs; event_type := t |}.

(** The lengths fit their [u32] fields and the revision is a [u64]. *)
Definition change_wf (c : KeyValueChange) : Prop :=
  in_u32 (Z.of_nat (length (ch_key c))) /\
  from_option (fun v => in_u32 (Z.of_nat (length v))) True (ch_value c).

Definition event_wf (e : ChangeEvent) : Prop :=
  in_u64 (revision e) /\ in_u32 (Z.of_nat (length (changes e))) /\ Forall change_wf (changes e).

(** ** Lease records *)

Record LeaseRecord := { ttl : Z; deadline_wall_ms : Z; keepalive_revision : Z }.

#[export] Instance LeaseRecord_eq_dec : EqDecision LeaseRecord.
Proof. solve_decision. Defined.

Definition lease_to_bytes (r : LeaseRecord) : bytes :=
  be64 (ttl r) ++ be64 (deadline_wall_ms r) ++ be64 (keepalive_revision r).

Definition lease_from_bytes (x : bytes) : option LeaseRecord :=
  if decide (length x < 24)%nat then None
  else
    t ← slice 0 8 x; dl ← slice 8 8 x; k ← slice 16 8 x;
    Some {| ttl := i64_wrap (be_val t); deadline_wall_ms := i64_wrap (be_val dl);
            keepalive_revision := i64_wrap (be_val k) |}.

Record LeaseV2Record := {
  v2_ttl : Z;
  v2_granted_ts : Z;
  v2_deadline_wall_ms : Z;
  v2_revoked : bool;
  v2_revoked_commit_ts : Z;
  v2_grant_request_id : bytes }.

#[export] Instance LeaseV2Record_eq_dec : EqDecision LeaseV2Record.
Proof. solve_decision. Defined.

Definition U16_MAX : nat := N.to_nat 65535.

Definition lease_v2_to_bytes (r : LeaseV2Record) : bytes :=
  let len := Nat.min (length (v2_grant_request_id r)) U16_MAX in
  be64 (v2_ttl r) ++ be64 (v2_granted_ts r) ++ be64 (v2_deadline_wall_ms r)
    ++ [if v2_revoked r then x01 else x00] ++ be64 (v2_revoked_commit_ts r)
    ++ be16 (Z.of_nat len) ++ take len (v2_grant_request_id r).

Definition lease_v2_from_bytes (x : bytes) : option LeaseV2Record :=
  if decide (length x < 35)%nat then None
  else
    lb ← slice 33 2 x;
    let req_len := Z.to_nat (be_val lb) in
    if decide (length x < 35 + req_len)%nat then None
    else
      t ← slice 0 8 x; g ← slice 8 8 x; dl ← slice 16 8 x; rv ← slice 24 1 x;
      rc ← slice 25 8 x; req ← slice 35 req_len x;
      Some {| v2_ttl := i64_wrap (be_val t); v2_granted_ts := be_val g;
              v2_deadline_wall_ms := i64_wrap (be_val dl);
              v2_revoked := negb (bytes_eqb rv [x00]);
              v2_revoked_commit_ts := be_val rc; v2_grant_request_id := req |}.

(** ** Direct-write fence *)

Record DirectWriteFence := { fence_start : bytes; fence_end : bytes; fence_op_id : Z }.

#[export] Instance DirectWriteFence_eq_dec : EqDecision DirectWriteFence.
Proof. solve_decision. Defined.

Definition encode_direct_write_fence (start end_ : bytes) (op_id : Z) : bytes :=
  be64 op_id ++ len32 start ++ start ++ end_.

Definition decode_direct_write_fence (x : bytes) : option DirectWriteFence :=
  o ← slice 0 8 x; lb ← slice 8 4 x;
  let start_len := Z.to_nat (be_val lb) in
  s ← slice 12 start_len x;
  Some {| fence_start := s; fence_end := drop (12 + start_len) x; fence_op_id := be_val o |}.

(** ** Key lemmas *)

#[export] Instance encode_kv_key_inj : Inj (=) (=) encode_kv_key.
Proof. intros x y. apply app_inv_head. Qed.
#[export] Instance encode_kv_meta_key_inj : Inj (=) (=) encode_kv_meta_key.
Proof. intros x y. apply app_inv_head. Qed.
#[export] Instance encode_lease_v2_req_key_inj : Inj (=) (=) encode_lease_v2_req_key.
Proof. intros x y. apply app_inv_head. Qed.

Lemma encode_changelog_key_inj r1 r2 :
  in_u64 r1 -> in_u64 r2 -> encode_changelog_key r1 = encode_changelog_key r2 -> r1 = r2.
Proof. intros H1 H2 E%app_inv_head. by apply be64_inj. Qed.

Lemma be64_i64_inj x y : in_i64 x -> in_i64 y -> be64 x = be64 y -> x = y.
Proof. intros Hx Hy E. by rewrite <-(be64_val_i64 x), E, be64_val_i64. Qed.

Lemma encode_lease_key_inj x y :
  in_i64 x -> in_i64 y -> encode_lease_key x = encode_lease_key y -> x = y.
Proof. intros ?? E%app_inv_head. by apply be64_i64_inj. Qed.

Lemma encode_lease_v2_key_inj x y :
  in_i64 x -> in_i64 y -> encode_lease_v2_key x = encode_lease_v2_key y -> x = y.
Proof. intros ?? E%app_inv_head. by apply be64_i64_inj. Qed.

Lemma encode_changelog_key_lt r1 r2 :
  in_u64 r1 -> in_u64 r2 ->
  bytes_ltb (encode_changelog_key r1) (encode_changelog_key r2) = (r1 <? r2).
Proof. intros. unfold encode_changelog_key. rewrite bytes_lt_app_r. by apply be64_lt. Qed.

Lemma encode_kv_key_lt k1 k2 :
  bytes_ltb (encode_kv_key k1) (encode_kv_key k2) = bytes_ltb k1 k2.
Proof. apply bytes_lt_app_r. Qed.

Lemma decode_encode_kv_key k : decode_kv_key (encode_kv_key k) = Some k.
Proof. apply strip_prefix_app. Qed.

Lemma decode_u64_be64 z : in_u64 z -> decode_u64 (be64 z) = Some z.
Proof. intros. unfold decode_u64. rewrite decide_True by done. by rewrite be64_val. Qed.

Lemma decode_u64_range x z : decode_u64 x = Some z -> in_u64 z.
Proof.
  unfold decode_u64. case_decide as Hl; [|done]. intros [= <-].
  pose proof (be_val_range x) as H. rewrite Hl in H. exact H.
Qed.

(** A user key never reaches the rows of a system prefix. *)
Lemma kv_key_neq p k y : diverge KV_PREFIX p = true -> encode_kv_key k <> p ++ y.
Proof. apply diverge_neq. Qed.

(** ** Round trips *)

#[export] Hint Constructors meta_wf : coord.

Lemma meta_new_key_wf r l : in_i64 l -> meta_wf (meta_new_key r l).
Proof. split; simpl; auto with coord. unfold in_i64; lia. Qed.
Lemma meta_update_wf m r l : meta_wf m -> in_i64 l -> meta_wf (meta_update m r l).
Proof. intros [] ?. split; simpl; auto with coord. Qed.
Lemma meta_mark_deleted_wf m r : meta_wf m -> meta_wf (meta_mark_deleted m r).
Proof. intros []. split; simpl; auto with coord. Qed.
#[export] Hint Resolve meta_new_key_wf meta_update_wf meta_mark_deleted_wf : coord.

Lemma meta_from_bytes_wf x m : meta_from_bytes x = Some m -> meta_wf m.
Proof.
  unfold meta_from_bytes. case_decide; [done|].
  destruct (slice 0 8 x), (slice 8 8 x), (slice 16 8 x), (slice 24 8 x); try done.
  intros [= <-]. split; simpl; auto with coord.
Qed.
#[export] Hint Resolve meta_from_bytes_wf : coord.

Lemma meta_decode_encode m : meta_wf m -> meta_from_bytes (meta_to_bytes m) = Some m.
Proof.
  intros [? ? ? ?]. unfold meta_from_bytes, meta_to_bytes.
  rewrite decide_False by (rewrite !length_app, !length_be64; simpl; lia).
  slices. cbn [mbind option_bind]. rewrite !be64_val_i64 by done.
  destruct m as [v c md l []]; done.
Qed.

Lemma applied_roundtrip a : applied_wf a -> applied_from_bytes (applied_to_bytes a) = Some a.
Proof.
  intros (? & ? & ?). unfold applied_from_bytes, applied_to_bytes.
  rewrite strip_prefix_app. cbn [mbind option_bind]. slices. cbn [mbind option_bind].
  rewrite !be64_val by done. by destruct a.
Qed.

Record lease_wf (r : LeaseRecord) : Prop := {
  wf_ttl : in_i64 (ttl r);
  wf_deadline : in_i64 (deadline_wall_ms r);
  wf_keepalive : in_i64 (keepalive_revision r) }.

Lemma lease_roundtrip r : lease_wf r -> lease_from_bytes (lease_to_bytes r) = Some r.
Proof.
  intros [? ? ?]. unfold lease_from_bytes, lease_to_bytes.
  rewrite decide_False by (rewrite !length_app, !length_be64; lia).
  slices. cbn [mbind option_bind]. rewrite !be64_val_i64 by done. by destruct r.
Qed.

Lemma lease_from_bytes_wf x r : lease_from_bytes x = Some r -> lease_wf r.
Proof.
  unfold lease_from_bytes. case_decide; [done|].
  destruct (slice 0 8 x), (slice 8 8 x), (slice 16 8 x); try done.
  intros [= <-]. split; simpl; auto with coord.
Qed.

Definition lease_v2_wf (r : LeaseV2Record) : Prop :=
  in_i64 (v2_ttl r) /\ in_u64 (v2_granted_ts r) /\ in_i64 (v2_deadline_wall_ms r)
    /\ in_u64 (v2_revoked_commit_ts r).

(** What the encoding keeps of a record: the first [u16::MAX] bytes of the
    request id. *)
Definition lease_v2_truncate (r : LeaseV2Record) : LeaseV2Record :=
  {| v2_ttl := v2_ttl r; v2_granted_ts := v2_granted_ts r;
     v2_deadline_wall_ms := v2_deadline_wall_ms r; v2_revoked := v2_revoked r;
     v2_revoked_commit_ts := v2_revoked_commit_ts r;
     v2_grant_request_id := take U16_MAX (v2_grant_request_id r) |}.

Lemma lease_v2_roundtrip r :
  lease_v2_wf r -> lease_v2_from_bytes (lease_v2_to_bytes r) = Some (lease_v2_truncate r).
Proof.
  intros (? & ? & ? & ?). unfold lease_v2_from_bytes, lease_v2_to_bytes.
  set (len := Nat.min _ _). set (req := take len (v2_grant_request_id r)).
  assert (length req = len) as Hreq by (unfold req; rewrite length_take; lia).
  assert (Z.to_nat (be_val (be16 (Z.of_nat len))) = len) as Hlen.
  { rewrite be16_val; [lia|]. unfold U16_MAX in len. lia. }
  rewrite decide_False by (rewrite !length_app, Hreq, !length_be64, length_be16; simpl; lia).
  slices. cbn [mbind option_bind]. rewrite Hlen.
  rewrite decide_False by (rewrite !length_app, Hreq, !length_be64, length_be16; simpl; lia).
  slices. rewrite slice_all by done. cbn [mbind option_bind].
  rewrite !be64_val_i64, !be64_val by done. unfold lease_v2_truncate. do 2 f_equal.
  - by destruct (v2_revoked r).
  - unfold req, len. destruct (decide (U16_MAX <= length (v2_grant_request_id r))%nat).
    + f_equal. lia.
    + rewrite !take_ge by lia. done.
Qed.

Lemma slice_u64 i x y : slice i 8 x = Some y -> in_u64 (be_val y).
Proof. intros E. pose proof (be_val_range y) as H. by rewrite (slice_length _ _ _ _ E) in H. Qed.

(** A decoded record can be encoded back without loss. *)
Lemma lease_v2_from_bytes_wf x r :
  lease_v2_from_bytes x = Some r -> lease_v2_wf r /\ lease_v2_truncate r = r.
Proof.
  unfold lease_v2_from_bytes. case_decide; [done|]. intros E.
  destruct (slice 33 2 x) as [lb|] eqn:Elb; [|done]. cbn [mbind option_bind] in E.
  case_decide; [done|]. revert E.
  destruct (slice 0 8 x) as [t|]; [|done]. cbn [mbind option_bind].
  destruct (slice 8 8 x) as [g|] eqn:Eg; [|done]. cbn [mbind option_bind].
  destruct (slice 16 8 x) as [dl|]; [|done]. cbn [mbind option_bind].
  destruct (slice 24 1 x) as [rv|]; [|done]. cbn [mbind option_bind].
  destruct (slice 25 8 x) as [rc|] eqn:Erc; [|done]. cbn [mbind option_bind].
  destruct (slice 35 _ x) as [req|] eqn:Ereq; [|done]. cbn [mbind option_bind]. intros [= <-].
  split.
  - split; [apply i64_wrap_range|]. split; [by eapply slice_u64|].
    split; [apply i64_wrap_range|by eapply slice_u64].
  - unfold lease_v2_truncate. simpl. f_equal. apply take_ge.
    rewrite (slice_length _ _ _ _ Ereq). pose proof (be_val_range lb) as Hr.
    rewrite (slice_length _ _ _ _ Elb) in Hr. unfold U16_MAX. lia.
Qed.

Lemma len32_val x :
  in_u32 (Z.of_nat (length x)) -> Z.to_nat (be_val (len32 x)) = length x.
Proof.
  intros H. unfold len32, u32_wrap. unfold in_u32 in H.
  rewrite Z.mod_small, be32_val by done. lia.
Qed.

Lemma length_len32 x : length (len32 x) = 4%nat.
Proof. apply length_be32. Qed.

Lemma take_app_exact {A} (n : nat) (x y : list A) : length x = n -> take n (x ++ y) = x.
Proof. intros <-. apply take_app_length. Qed.
Lemma drop_app_exact {A} (n : nat) (x y : list A) : length x = n -> drop n (x ++ y) = y.
Proof. intros <-. apply drop_app_length. Qed.

Lemma fence_roundtrip start end_ op_id :
  in_u64 op_id -> in_u32 (Z.of_nat (length start)) ->
  decode_direct_write_fence (encode_direct_write_fence start end_ op_id) =
  Some {| fence_start := start; fence_end := end_; fence_op_id := op_id |}.
Proof.
  intros Ho Hs. unfold decode_direct_write_fence, encode_direct_write_fence.
  rewrite (slice_here 8) by done. cbn [mbind option_bind].
  rewrite (slice_skip 8 0 4), (slice_here 4) by done. cbn [mbind option_bind].
  rewrite len32_val by done.
  rewrite (slice_skip 8 4), (slice_skip 4 0), slice_here by done. cbn [mbind option_bind].
  rewrite be64_val by done. do 2 f_equal.
  rewrite !app_assoc. apply drop_app_exact. rewrite !length_app, length_be64, length_len32. lia.
Qed.

Lemma parse_change_roundtrip c r :
  change_wf c -> parse_change (change_to_bytes c ++ r) = Ok (c, r).
Proof.
  intros [Hk Hv]. destruct c as [k v]. cbn [ch_key ch_value] in *.
  unfold parse_change, change_to_bytes. cbn [ch_key ch_value]. rewrite <-!app_assoc.
  rewrite decide_False by (rewrite length_app, length_len32; lia).
  rewrite (take_app_exact 4), (drop_app_exact 4), len32_val by done.
  rewrite decide_False by (rewrite length_app; lia).
  rewrite take_app_length, drop_app_length.
  destruct v as [v|]; cbn [app from_option] in *; [|done].
  rewrite decide_True by done.
  rewrite decide_False by (rewrite !length_app, length_len32; lia).
  rewrite <-app_assoc, (take_app_exact 4), (drop_app_exact 4), len32_val by done.
  rewrite decide_False by (rewrite length_app; lia).
  by rewrite take_app_length, drop_app_length.
Qed.

Lemma parse_changes_roundtrip cs r :
  Forall change_wf cs -> parse_changes (length cs) (concat (change_to_bytes <$> cs) ++ r) = Ok cs.
Proof.
  induction 1 as [|c cs Hc _ IH]; [done|]. rewrite fmap_cons, concat_cons, <-app_assoc.
  cbn [length parse_changes]. rewrite parse_change_roundtrip by done.
  cbn [mbind result_bind]. by rewrite IH.
Qed.

Lemma event_decode_encode e : event_wf e -> event_from_bytes (event_to_bytes e) = Ok e.
Proof.
  intros (Hr & Hn & Hc). unfold event_from_bytes, event_to_bytes.
  rewrite decide_False by (rewrite !length_app, length_be64, length_be32; simpl; lia).
  rewrite decide_True by done.
  rewrite (slice_skip 1 0), slice_here by done.
  assert (forall x y : bytes, ([CHANGELOG_FORMAT_VERSION] ++ be64 (revision e) ++ x ++ y) !! 9%nat
    = (x ++ y) !! 0%nat) as Hl.
  { intros. rewrite lookup_app_r by (simpl; lia). by rewrite lookup_app_r by (simpl; lia). }
  rewrite Hl. simpl (9 + 1)%nat. simpl (9 + 5)%nat.
  rewrite (slice_skip 1 9), (slice_skip 8 1), (slice_skip 1 0), slice_here by done.
  cbn [ok_or mbind result_bind lookup list_lookup app].
  replace (event_type_of_byte (event_type_byte (event_type e))) with (Ok (event_type e))
    by (by destruct (event_type e)).
  cbn [mbind result_bind].
  rewrite be32_val by (unfold u32_wrap; rewrite Z.mod_small; done).
  unfold u32_wrap. rewrite Z.mod_small, Nat2Z.id by done.
  rewrite !app_comm_cons, !app_assoc, drop_app_exact by done.
  rewrite <-(app_nil_r (concat _)), parse_changes_roundtrip by done.
  cbn [mbind result_bind]. rewrite be64_val by done. by destruct e.
Qed.

(** Change-log round trip.  Decoding the encoding of a change event gives
    the event back, whenever its lengths fit their [u32] fields. *)
Theorem event_roundtrip e : event_wf e -> event_from_bytes (event_to_bytes e) = Ok e.
Proof. apply event_decode_encode. Qed.

Lemma event_roundtrip_witness :
  let e := {| revision := 7; changes := [{| ch_key := b "k"; ch_value := Some (b "v") |};
                                         {| ch_key := b "gone"; ch_value := None |}];
              event_type := EvTxn |} in
  event_from_bytes (event_to_bytes e) = Ok e.
Proof.
  intros e. apply (event_roundtrip e).
  split; [|split]; [done|done|]. by repeat constructor.
Defined.

(** Metadata round trip.  The 33-byte encoding of a key's metadata decodes
    to the same metadata, for all [i64] field values. *)
Theorem meta_roundtrip m : meta_wf m -> meta_from_bytes (meta_to_bytes m) = Some m.
Proof. apply meta_decode_encode. Qed.

Lemma meta_roundtrip_witness :
  let m := {| version := 3; create_revision := 5; mod_revision := 9; lease_id := -1;
              deleted := true |} in
  meta_from_bytes (meta_to_bytes m) = Some m.
Proof. intros m. apply (meta_roundtrip m). by repeat split. Defined.

(** A corrupt change-log record can crash the reader.  A record of exactly
    13 bytes that starts with the current format version passes the length
    check of [ChangeEvent::from_bytes] and then indexes past its end. *)
Theorem event_from_bytes_panics rev t cnt :
  length rev = 8%nat -> length cnt = 3%nat -> byte_Z t <= 3 ->
  event_from_bytes ([CHANGELOG_FORMAT_VERSION] ++ rev ++ [t] ++ cnt) = Err Panic.
Proof.
  intros Hr Hc Ht. unfold event_from_bytes.
  rewrite decide_False by (rewrite !length_app, Hr, Hc; simpl; lia).
  rewrite decide_True by done.
  rewrite (slice_skip 1 0), slice_here by done.
  assert (([CHANGELOG_FORMAT_VERSION] ++ rev ++ [t] ++ cnt) !! 9%nat = Some t) as ->.
  { rewrite lookup_app_r by (simpl; lia). rewrite lookup_app_r by (simpl; lia).
    simpl. by rewrite Hr. }
  cbn [ok_or mbind result_bind].
  assert (exists et, event_type_of_byte t = Ok et) as [et ->].
  { destruct t; simpl; eauto; exfalso; vm_compute in Ht; by apply Ht. }
  cbn [mbind result_bind]. unfold slice. rewrite decide_False; [done|].
  rewrite !length_app, Hr, Hc. simpl. lia.
Qed.

Lemma event_from_bytes_panics_witness :
  event_from_bytes ([CHANGELOG_FORMAT_VERSION] ++ be64 1 ++ [x00] ++ [x00; x00; x00]) = Err Panic.
Proof. by apply (event_from_bytes_panics (be64 1) x00 [x00; x00; x00]). Defined.
