(* ===== verification/Txn.v ===== *)
(** * Transactions

    The types of [coord-server/src/txn/mod.rs] and the comparison of an actual
    value with a target.  The execution of a transaction is in [Mvcc]. *)

From S2P Require Export Bytes.

Local Open Scope Z_scope.

Inductive CompareTarget := CtVersion | CtValue | CtModRevision | CtCreateRevision.

Inductive CompareOp := OpEqual | OpGreater | OpLess | OpNotEqual.

Inductive CompareValue :=
  | CvVersion (v : Z)
  | CvValue (v : bytes)
  | CvModRevision (v : Z)
  | CvCreateRevision (v : Z).

Record TxnCompare := {
  cmp_key : bytes;
  cmp_target : CompareTarget;
  cmp_op : CompareOp;
  cmp_target_value : CompareValue }.

Inductive TxnOp :=
  | TxnPut (key value : bytes) (lease : option Z)
  | TxnDelete (key : bytes)
  | TxnRange (key range_end : bytes) (limit : Z).

Inductive TxnOpResponse :=
  | RespPut (revision : Z)
  | RespDelete (revision : Z)
  | RespRange (kvs : list (bytes * bytes)) (count revision : Z).

Record TxnResult := {
  succeeded : bool;
  txn_revision : Z;
  responses : list TxnOpResponse }.

Definition cv_eq (x y : CompareValue) : bool :=
  match x, y with
  | CvVersion a, CvVersion c => a =? c
  | CvValue a, CvValue c => bytes_eqb a c
  | CvModRevision a, CvModRevision c => a =? c
  | CvCreateRevision a, CvCreateRevision c => a =? c
  | _, _ => false
  end.

Definition cv_gt (x y : CompareValue) : bool :=
  match x, y with
  | CvVersion a, CvVersion c => c <? a
  | CvValue a, CvValue c => bytes_ltb c a
  | CvModRevision a, CvModRevision c => c <? a
  | CvCreateRevision a, CvCreateRevision c => c <? a
  | _, _ => false
  end.

Definition cv_lt (x y : CompareValue) : bool :=
  match x, y with
  | CvVersion a, CvVersion c => a <? c
  | CvValue a, CvValue c => bytes_ltb a c
  | CvModRevision a, CvModRevision c => a <? c
  | CvCreateRevision a, CvCreateRevision c => a <? c
  | _, _ => false
  end.

(** [CompareValue::compare]. *)
Definition cv_compare (x y : CompareValue) (op : CompareOp) : bool :=
  match op with
  | OpEqual => cv_eq x y
  | OpNotEqual => negb (cv_eq x y)
  | OpGreater => cv_gt x y
  | OpLess => cv_lt x y
  end.

(** Of two values of one kind exactly one of less, equal and greater holds. *)
Lemma cv_compare_trichotomy x y :
  (match x, y with
   | CvVersion _, CvVersion _ | CvValue _, CvValue _
   | CvModRevision _, CvModRevision _ | CvCreateRevision _, CvCreateRevision _ => True
   | _, _ => False
   end) ->
  (cv_compare x y OpLess = true /\ cv_compare x y OpEqual = false
     /\ cv_compare x y OpGreater = false) \/
  (cv_compare x y OpLess = false /\ cv_compare x y OpEqual = true
     /\ cv_compare x y OpGreater = false) \/
  (cv_compare x y OpLess = false /\ cv_compare x y OpEqual = false
     /\ cv_compare x y OpGreater = true).
Proof.
  destruct x as [a|a|a|a], y as [c|c|c|c]; intros H; try done; simpl;
    try (destruct (Z.lt_trichotomy a c) as [?|[?|?]]; lia).
  unfold bytes_eqb.
  destruct (bytes_lt_trichotomy a c) as [Hl|[->|Hg]].
  - left. rewrite Hl. assert (a <> c) by (intros ->; by apply (irreflexivity bytes_lt c)).
    rewrite bool_decide_eq_false_2 by done. split_and!; [done|done|].
    destruct (bytes_ltb_spec c a) as [Hca|]; [|done].
    destruct (irreflexivity bytes_lt a). by etrans.
  - right; left. by rewrite bool_decide_eq_true_2, bytes_ltb_irrefl.
  - right; right. rewrite Hg. assert (a <> c) by (intros ->; by apply (irreflexivity bytes_lt c)).
    rewrite bool_decide_eq_false_2 by done. split_and!; [|done|done].
    destruct (bytes_ltb_spec a c) as [Hac|]; [|done].
    destruct (irreflexivity bytes_lt a). by etrans.
Qed.
