(* ===== verification/Envelope.v ===== *)
(** * The value envelope

    [coord-server/src/storage/envelope.rs]: persisted records are
    [MAGIC | VERSION_V2 | postcard payload], and decoding fails closed on
    anything else.  Postcard itself is a third-party crate: the type class
    [Postcard] stands for its two entry points on one record type and
    [PostcardLaws] for what its documentation promises. *)

From S2P Require Export Bytes.

Local Open Scope Z_scope.

Class Postcard (A : Type) := {
  (** [postcard::to_allocvec]; [None] is an error. *)
  to_allocvec : A -> option bytes;
  (** [postcard::take_from_bytes]: the value and the bytes after it. *)
  take_from_bytes : bytes -> option (A * bytes) }.

(** Serialising a plain record into a growing vector does not fail, and
    deserialising consumes exactly the bytes that were written. *)
Class PostcardLaws (A : Type) {pc : Postcard A} : Prop := {
  postcard_total : forall v : A, is_Some (to_allocvec v);
  postcard_roundtrip : forall (v : A) p r,
    to_allocvec v = Some p -> take_from_bytes (p ++ r) = Some (v, r) }.

Inductive DecodeError :=
  | MissingEnvelope
  | UnsupportedVersion (v : byte)
  | PayloadV2
  | TrailingBytes (n : nat).

Definition MAGIC : bytes := [x02; x43; x52; x44].
Definition VERSION_V2 : byte := x02.
Definition PREFIX_LEN : nat := 5.

Definition envelope_encode {A : Type} {pc : Postcard A} (value : A) : option bytes :=
  payload ← to_allocvec value;
  Some (MAGIC ++ [VERSION_V2] ++ payload).

Definition split_envelope (data : bytes) : bytes + DecodeError :=
  if bool_decide (PREFIX_LEN <= length data)%nat && bytes_eqb (take 4 data) MAGIC then
    match data !! 4%nat with
    | Some v => if decide (v = VERSION_V2) then inl (drop PREFIX_LEN data)
                else inr (UnsupportedVersion v)
    | None => inr MissingEnvelope
    end
  else inr MissingEnvelope.

Definition decode_postcard_exact {A : Type} {pc : Postcard A} (data : bytes) : A + DecodeError :=
  match take_from_bytes data with
  | None => inr PayloadV2
  | Some (value, []) => inl value
  | Some (_, remainder) => inr (TrailingBytes (length remainder))
  end.

Definition envelope_decode {A : Type} {pc : Postcard A} (data : bytes) : A + DecodeError :=
  match split_envelope data with
  | inl payload => decode_postcard_exact payload
  | inr e => inr e
  end.

(** [decode(..).ok()]. *)
Definition decode_ok {A : Type} {pc : Postcard A} (data : bytes) : option A :=
  match envelope_decode data with
  | inl value => Some value
  | inr _ => None
  end.

Section laws.
Context {A : Type} {pc : Postcard A} {pl : PostcardLaws A}.

Lemma decode_encode_app (v : A) x y :
  envelope_encode v = Some x ->
  envelope_decode (x ++ y) = match y with [] => inl v | _ => inr (TrailingBytes (length y)) end.
Proof using pl.
  unfold envelope_encode. destruct (to_allocvec v) as [p|] eqn:E; [|done]. intros [= <-].
  unfold envelope_decode, split_envelope. simpl.
  unfold decode_postcard_exact. simpl. rewrite ?drop_0, (postcard_roundtrip _ _ y E). by destruct y.
Qed.

Lemma decode_ok_encode (v : A) x : envelope_encode v = Some x -> decode_ok x = Some v.
Proof using pl.
  intros E. unfold decode_ok. rewrite <-(app_nil_r x). by rewrite (decode_encode_app v x [] E).
Qed.

Lemma encode_total (v : A) : exists x, envelope_encode v = Some x.
Proof using pl.
  unfold envelope_encode. destruct (postcard_total v) as [p ->]. by eexists.
Qed.

End laws.

(** The envelope is exact and fails closed.  A record decodes to itself;
    with anything after it, it is refused with the number of trailing bytes;
    and data that does not start with the magic, or carries another version,
    is refused as such whatever follows. *)
Theorem envelope_exact {A : Type} {pc : Postcard A} (v : A) x :
  PostcardLaws A -> envelope_encode v = Some x ->
  envelope_decode x = inl v /\
  (forall y, y <> [] -> @envelope_decode A pc (x ++ y) = inr (TrailingBytes (length y))) /\
  (forall data, starts_with data MAGIC = false -> @envelope_decode A pc data = inr MissingEnvelope) /\
  (forall c rest, c <> VERSION_V2 ->
     @envelope_decode A pc (MAGIC ++ c :: rest) = inr (UnsupportedVersion c)).
Proof.
  intros pl E. split; [|split; [|split]].
  - rewrite <-(app_nil_r x). by rewrite (decode_encode_app v x [] E).
  - intros y Hy. rewrite (decode_encode_app v x y E). by destruct y.
  - intros data Hd. unfold envelope_decode, split_envelope.
    destruct (bytes_eqb (take 4 data) MAGIC) eqn:Em; [|by rewrite andb_false_r].
    exfalso. apply bool_decide_eq_true in Em. apply not_true_iff_false in Hd. apply Hd.
    apply starts_with_spec. exists (drop 4 data). by rewrite <-Em, take_drop.
  - intros c rest Hc. unfold envelope_decode, split_envelope. simpl. by rewrite decide_False.
Qed.

(** ** A codec that satisfies the laws *)

(** The laws can be met for every type of plain data: the bits of a number that
    stands for the value, with an end mark. *)
Fixpoint positive_bytes (p : positive) : bytes :=
  match p with
  | xH => [x02]
  | xO p => x00 :: positive_bytes p
  | xI p => x01 :: positive_bytes p
  end.

Fixpoint take_positive (x : bytes) : option (positive * bytes) :=
  match x with
  | x00 :: x => '(p, r) ← take_positive x; Some (xO p, r)
  | x01 :: x => '(p, r) ← take_positive x; Some (xI p, r)
  | x02 :: x => Some (xH, x)
  | _ => None
  end.

Definition countable_postcard (A : Type) `{Countable A} : Postcard A := {|
  to_allocvec (v : A) := Some (positive_bytes (encode v));
  take_from_bytes x := '(p, r) ← take_positive x; v ← decode p; Some (v, r) |}.

Lemma take_positive_bytes p r : take_positive (positive_bytes p ++ r) = Some (p, r).
Proof. induction p as [p IH|p IH|]; simpl; by rewrite ?IH. Qed.

Lemma countable_postcard_laws (A : Type) `{Countable A} :
  @PostcardLaws A (countable_postcard A).
Proof.
  split; [intros v; by eexists|]. intros v p r E. simpl in *. injection E as <-.
  rewrite take_positive_bytes. simpl. by rewrite decode_encode.
Qed.

Lemma envelope_exact_witness :
  exists x, @envelope_encode Z (countable_postcard Z) 5 = Some x /\
    @envelope_decode Z (countable_postcard Z) x = inl 5.
Proof.
  eexists. split; [reflexivity|].
  exact (proj1 (@envelope_exact Z (countable_postcard Z) 5 _ (countable_postcard_laws Z) eq_refl)).
Defined.
