(* ===== verification/Mvcc.v ===== *)
(** * The MVCC store

    [MvccStorage] of [coord-server/src/storage/mvcc.rs]: revisions, point and
    range writes, reads, transactions, compaction and historical reads, all on
    the byte tables of [Backend].  Each definition is the handler of the same
    name; a write handler returns its result together with the store after it
    (unchanged when the handler fails). *)

From S2P Require Export MvccCodec Txn.

Local Open Scope Z_scope.

(** ** The storage object *)

(** The encryption barrier ([security/barrier.rs]) as the store sees it. *)
Record Barrier := {
  encrypt : bytes -> result bytes;
  decrypt : bytes -> result bytes }.

(** What the store relies on: a ciphertext is at least 32 bytes (key id, nonce
    and tag) and decrypts to its plaintext. *)
Class BarrierLaws (br : Barrier) : Prop := {
  barrier_roundtrip : forall v c, encrypt br v = Ok c -> decrypt br c = Ok v;
  barrier_min_len : forall v c, encrypt br v = Ok c -> (32 <= length c)%nat }.

Inductive RevisionMode := ModeLogIndex | ModeCommitTs.
Inductive RevisionPolicy := PolicyLogIndex | PolicyCommitTs.

#[export] Instance RevisionMode_eq_dec : EqDecision RevisionMode.
Proof. solve_decision. Defined.
#[export] Instance RevisionPolicy_eq_dec : EqDecision RevisionPolicy.
Proof. solve_decision. Defined.

(** The configuration of [MvccStorage]; its backend is passed separately. *)
Record MvccStorage := { revision_mode : RevisionMode; barrier : option Barrier }.

(** [ApplyOutcome { replayed }]. *)
Definition ApplyOutcome := bool.
Definition applied_outcome : ApplyOutcome := false.
Definition replayed_outcome : ApplyOutcome := true.

Definition encrypt_value (s : MvccStorage) (internal_key value : bytes) : result bytes :=
  if negb (starts_with internal_key KV_PREFIX) then Ok value
  else match barrier s with
       | Some br => encrypt br value
       | None => Ok value
       end.

Definition decrypt_value (s : MvccStorage) (internal_key encrypted : bytes) : result bytes :=
  if negb (starts_with internal_key KV_PREFIX) then Ok encrypted
  else match barrier s with
       | Some br => if (32 <=? length encrypted)%nat then decrypt br encrypted else Ok encrypted
       | None => Ok encrypted
       end.

(** The idiom [if raw.is_empty() { vec![] } else { decrypt_value(..)? }]. *)
Definition plaintext_of (s : MvccStorage) (internal_key raw : bytes) : result bytes :=
  if bytes_eqb raw [] then Ok [] else decrypt_value s internal_key raw.

(** ** Revisions *)

Definition get_applied_log_id (d : db) : option AppliedLogId :=
  tx_get d TABLE_META META_LAST_APPLIED ≫= applied_from_bytes.

Definition current_revision_in_tx (d : db) (mode : RevisionMode) : Z :=
  match tx_get d TABLE_META META_CURRENT_REVISION ≫= decode_u64 with
  | Some revision => revision
  | None =>
    match mode with
    | ModeLogIndex => default 0 (index <$> get_applied_log_id d)
    | ModeCommitTs => 0
    end
  end.

Definition current_revision (s : MvccStorage) (d : db) : Z :=
  current_revision_in_tx d (revision_mode s).

Definition set_current_revision (revision : Z) (d : db) : db :=
  tx_insert TABLE_META META_CURRENT_REVISION (be64 revision) d.

Definition accept_log_index_revision (s : MvccStorage) (d : db) (revision : Z) : result db :=
  if decide (revision_mode s = ModeCommitTs) then Ok d
  else
    let current := current_revision_in_tx d (revision_mode s) in
    if revision <=? current then Err (CommitRejected revision current)
    else Ok (set_current_revision revision d).

Definition accept_commit_ts (s : MvccStorage) (d : db) (commit_ts : Z) : result db :=
  let current := current_revision_in_tx d (revision_mode s) in
  if commit_ts <=? current then Err (CommitRejected commit_ts current)
  else Ok (set_current_revision commit_ts d).

Definition accept_revision (s : MvccStorage) (d : db) (revision : Z) (policy : RevisionPolicy)
    : result db :=
  match policy with
  | PolicyLogIndex => accept_log_index_revision s d revision
  | PolicyCommitTs => accept_commit_ts s d revision
  end.

Definition note_log_index_revision (s : MvccStorage) (d : db) (revision : Z) : db :=
  if decide (revision_mode s = ModeLogIndex) then
    if current_revision_in_tx d ModeLogIndex <? revision then set_current_revision revision d
    else d
  else d.

Definition insert_last_applied (applied : AppliedLogId) (d : db) : db :=
  tx_insert TABLE_META META_LAST_APPLIED (applied_to_bytes applied) d.

(** [set_last_applied] and [persist_applied]. *)
Definition persist_applied (s : MvccStorage) (d : db) (revision : Z) (applied : AppliedLogId)
    : db :=
  note_log_index_revision s (insert_last_applied applied d) revision.

(** ** The change log *)

Definition changelog_contains_revision (d : db) (revision : Z) : bool :=
  bool_decide (is_Some (tx_get d TABLE_CHANGELOG (encode_changelog_key revision))).

Definition changelog_event_at (d : db) (revision : Z) : result (option ChangeEvent) :=
  match tx_get d TABLE_CHANGELOG (encode_changelog_key revision) with
  | None => Ok None
  | Some x => e ← event_from_bytes x; Ok (Some e)
  end.

Definition insert_event (e : ChangeEvent) (d : db) : db :=
  tx_insert TABLE_CHANGELOG (encode_changelog_key (revision e)) (event_to_bytes e) d.

Definition put_change (key value : bytes) : KeyValueChange :=
  {| ch_key := key; ch_value := Some value |}.
Definition delete_change (key : bytes) : KeyValueChange :=
  {| ch_key := key; ch_value := None |}.

#[export] Instance delete_change_inj : Inj (=) (=) delete_change.
Proof. by intros k k' [=]. Qed.

(** ** Metadata rows *)

Definition get_kv_metadata (d : db) (key : bytes) : option KvMetadata :=
  tx_get d TABLE_KV_META (encode_kv_meta_key key) ≫= meta_from_bytes.

Definition insert_metadata (key : bytes) (m : KvMetadata) (d : db) : db :=
  tx_insert TABLE_KV_META (encode_kv_meta_key key) (meta_to_bytes m) d.

Definition is_deleted (d : db) (key : bytes) : bool :=
  default false (deleted <$> get_kv_metadata d key).

(** Write the value and the updated metadata of one key (the common part of
    [put_at_key] and [TxnOp::Put]). *)
Definition write_key (s : MvccStorage) (key value : bytes) (lid rev : Z) (d : db) : result db :=
  let meta := match get_kv_metadata d key with
              | Some m => meta_update m rev lid
              | None => meta_new_key rev lid
              end in
  encrypted ← encrypt_value s (encode_kv_key key) value;
  Ok (insert_metadata key meta (tx_insert TABLE_KV (encode_kv_key key) encrypted d)).

(** ** Put *)

Definition put_in_tx (s : MvccStorage) (key value : bytes) (lid rev : Z)
    (applied : AppliedLogId) (policy : RevisionPolicy) (d : db) : result (ApplyOutcome * db) :=
  d ← accept_revision s d rev policy;
  d ← write_key s key value lid rev d;
  let event := {| revision := rev; changes := [put_change key value]; event_type := EvPut |} in
  Ok (applied_outcome, insert_last_applied applied (insert_event event d)).

(** The replay guard shared by the write handlers.  [LogIndex]: any event at
    this revision means the entry was applied.  [CommitTs]: the event must be
    the same write, otherwise the timestamp is taken. *)
Definition replay_guard {A : Type} (s : MvccStorage) (d : db) (rev : Z) (policy : RevisionPolicy)
    (same : ChangeEvent -> bool) (replayed : A) (f : db -> result (A * db)) : result A * db :=
  match policy with
  | PolicyCommitTs =>
    match changelog_event_at d rev with
    | Err e => (Err e, d)
    | Ok (Some event) =>
      if same event then (Ok replayed, d)
      else (Err (CommitRejected rev (current_revision s d)), d)
    | Ok None => backend_write d f
    end
  | PolicyLogIndex =>
    if changelog_contains_revision d rev then (Ok replayed, d) else backend_write d f
  end.

Definition put_same (key value : bytes) (event : ChangeEvent) : bool :=
  match changes event with
  | [c] => bytes_eqb (ch_key c) key && bool_decide (ch_value c = Some value)
  | _ => false
  end.

Definition put_at_key (s : MvccStorage) (d : db) (key value : bytes) (lease : option Z)
    (rev : Z) (applied : AppliedLogId) (policy : RevisionPolicy) : result ApplyOutcome * db :=
  let lid := default 0 lease in
  replay_guard s d rev policy (put_same key value) replayed_outcome
    (put_in_tx s key value lid rev applied policy).

Definition put_at_revision (s : MvccStorage) (d : db) (key value : bytes) (lease : option Z)
    (rev : Z) (applied : AppliedLogId) : result ApplyOutcome * db :=
  put_at_key s d key value lease rev applied PolicyLogIndex.

Definition put_at_commit_ts (s : MvccStorage) (d : db) (key value : bytes) (lease : option Z)
    (commit_ts : Z) (applied : AppliedLogId) : result ApplyOutcome * db :=
  if commit_ts =? 0 then (Err InvalidArgument, d)
  else put_at_key s d key value lease commit_ts applied PolicyCommitTs.

(** [put]: the standalone entry point allocates the next revision. *)
Definition put (s : MvccStorage) (d : db) (key value : bytes) (lease : option Z)
    : result Z * db :=
  let rev := u64_saturating_add (current_revision s d) 1 in
  match put_at_revision s d key value lease rev (standalone rev) with
  | (Ok _, d') => (Ok rev, d')
  | (Err e, d') => (Err e, d')
  end.

(** ** Delete *)

(** [if let Some(m) = existing_meta.filter(|m| !m.deleted)] of [delete_at_key]. *)
Definition tombstone_live (key : bytes) (rev : Z) (d : db) : db :=
  match get_kv_metadata d key with
  | Some m => if deleted m then d else insert_metadata key (meta_mark_deleted m rev) d
  | None => d
  end.

Definition delete_in_tx (s : MvccStorage) (key : bytes) (rev : Z) (applied : AppliedLogId)
    (policy : RevisionPolicy) (d : db) : result (ApplyOutcome * db) :=
  d ← accept_revision s d rev policy;
  let d := tombstone_live key rev d in
  let event := {| revision := rev; changes := [delete_change key]; event_type := EvDelete |} in
  Ok (applied_outcome, insert_last_applied applied (insert_event event d)).

Definition delete_same (key : bytes) (event : ChangeEvent) : bool :=
  match changes event with
  | [c] => bytes_eqb (ch_key c) key && bool_decide (ch_value c = None)
  | _ => false
  end.

Definition delete_at_key (s : MvccStorage) (d : db) (key : bytes) (rev : Z)
    (applied : AppliedLogId) (policy : RevisionPolicy) : result ApplyOutcome * db :=
  replay_guard s d rev policy (delete_same key) replayed_outcome
    (delete_in_tx s key rev applied policy).

Definition delete_at_revision (s : MvccStorage) (d : db) (key : bytes) (rev : Z)
    (applied : AppliedLogId) : result ApplyOutcome * db :=
  delete_at_key s d key rev applied PolicyLogIndex.

Definition delete_at_commit_ts (s : MvccStorage) (d : db) (key : bytes) (commit_ts : Z)
    (applied : AppliedLogId) : result ApplyOutcome * db :=
  if commit_ts =? 0 then (Err InvalidArgument, d)
  else delete_at_key s d key commit_ts applied PolicyCommitTs.

Definition delete (s : MvccStorage) (d : db) (key : bytes) : result Z * db :=
  let rev := u64_saturating_add (current_revision s d) 1 in
  match delete_at_revision s d key rev (standalone rev) with
  | (Ok _, d') => (Ok rev, d')
  | (Err e, d') => (Err e, d')
  end.

(** ** Reads *)

Definition get (s : MvccStorage) (d : db) (key : bytes) : result (option bytes) :=
  match tx_get d TABLE_KV (encode_kv_key key) with
  | None => Ok None
  | Some data =>
    if is_deleted d key then Ok None
    else v ← plaintext_of s (encode_kv_key key) data; Ok (Some v)
  end.

(** The loop shared by [range] and [range_in]: [n] rows are collected so far;
    an empty [range_end] adds no bound. *)
Fixpoint range_loop (s : MvccStorage) (d : db) (range_end : bytes) (limit n : nat)
    (rows : list row) : result (list (bytes * bytes)) :=
  match rows with
  | [] => Ok []
  | (ik, v) :: rest =>
    if (limit <=? n)%nat && (0 <? limit)%nat then Ok []
    else match decode_kv_key ik with
    | None => range_loop s d range_end limit n rest
    | Some user_key =>
      if negb (bytes_eqb range_end []) && bytes_leb range_end user_key then Ok []
      else if is_deleted d user_key then range_loop s d range_end limit n rest
      else
        pt ← plaintext_of s ik v;
        results ← range_loop s d range_end limit (S n) rest;
        Ok ((user_key, pt) :: results)
    end
  end.

Definition range (s : MvccStorage) (d : db) (prefix : bytes) (limit : nat)
    : result (list (bytes * bytes)) :=
  range_loop s d [] limit 0 (iter_prefix d TABLE_KV (encode_kv_key prefix)).

Definition range_in (s : MvccStorage) (d : db) (start range_end : bytes) (limit : nat)
    : result (list (bytes * bytes)) :=
  range_loop s d range_end limit 0
    (iter_range d TABLE_KV (encode_kv_key start) (encode_kv_key range_end)).

Definition range_has_live_keys (s : MvccStorage) (d : db) (start range_end : bytes)
    : result bool :=
  kvs ← range_in s d start range_end 1;
  Ok (match kvs with [] => false | _ => true end).

(** [VersionedKv]. *)
Abbreviation VersionedKv := (bytes * bytes * KvMetadata)%type.

Fixpoint range_meta_loop (s : MvccStorage) (d : db) (range_end : bytes) (limit n : nat)
    (rows : list row) : result (list VersionedKv) :=
  match rows with
  | [] => Ok []
  | (ik, v) :: rest =>
    if (0 <? limit)%nat && (limit <=? n)%nat then Ok []
    else match decode_kv_key ik with
    | None => range_meta_loop s d range_end limit n rest
    | Some user_key =>
      if negb (bytes_eqb range_end []) && bytes_leb range_end user_key then Ok []
      else
        meta ← ok_or (get_kv_metadata d user_key) Internal;
        if deleted meta then range_meta_loop s d range_end limit n rest
        else
          pt ← plaintext_of s ik v;
          results ← range_meta_loop s d range_end limit (S n) rest;
          Ok ((user_key, pt, meta) :: results)
    end
  end.

Definition range_in_with_metadata (s : MvccStorage) (d : db) (start range_end : bytes)
    (limit : nat) : result (list VersionedKv * Z) :=
  results ← range_meta_loop s d range_end limit 0
    (iter_range d TABLE_KV (encode_kv_key start) (encode_kv_key range_end));
  Ok (results, current_revision_in_tx d (revision_mode s)).

(** [first_live_key_in]: at most 64 rows are looked at. *)
Fixpoint first_live (d : db) (end_ : bytes) (rows : list row) : option bytes :=
  match rows with
  | [] => None
  | (ik, _) :: rest =>
    match decode_kv_key ik with
    | None => first_live d end_ rest
    | Some user_key =>
      if negb (bytes_eqb end_ []) && bytes_leb end_ user_key then None
      else if is_deleted d user_key then first_live d end_ rest
      else Some user_key
    end
  end.

Definition first_live_key_in (d : db) (start end_ : bytes) : option bytes :=
  first_live d end_
    (iter_range_limited d TABLE_KV (encode_kv_key start) (encode_kv_key end_) 64).

(** One round of [sample_keys_in] over the current sub-intervals; [samples] is
    a [BTreeSet]. *)
Fixpoint sample_round (d : db) (bounds : list (bytes * bytes)) (samples : gset bytes)
    : gset bytes * list (bytes * bytes) :=
  match bounds with
  | [] => (samples, [])
  | (lo, hi) :: rest =>
    let probe := mid_key lo hi in
    if bytes_leb probe lo || (negb (bytes_eqb hi []) && bytes_leb hi probe)
    then sample_round d rest samples
    else
      let samples := match first_live_key_in d probe hi with
                     | Some key => {[key]} ∪ samples
                     | None => samples
                     end in
      let '(samples, next) := sample_round d rest samples in
      (samples, (lo, probe) :: (probe, hi) :: next)
  end.

Fixpoint sample_rounds (d : db) (max_samples rounds : nat) (bounds : list (bytes * bytes))
    (samples : gset bytes) : gset bytes :=
  match rounds with
  | O => samples
  | S rounds' =>
    if (max_samples <=? size samples)%nat || (length bounds =? 0)%nat then samples
    else
      let '(samples, next) := sample_round d bounds samples in
      if (max_samples * 4 <? length next)%nat then samples
      else sample_rounds d max_samples rounds' next samples
  end.

Definition sample_keys_in (d : db) (start end_ : bytes) (max_samples : nat) : list bytes :=
  if (max_samples =? 0)%nat then []
  else take max_samples
         (merge_sort bytes_le (elements (sample_rounds d max_samples 8 [(start, end_)] ∅))).

(** ** Range delete *)

(** The loop of [delete_range_at_key]: tombstone the live keys in turn; returns
    the deleted keys in order. *)
Fixpoint delete_range_loop (range_end : bytes) (rev : Z) (rows : list row) (d : db)
    : list bytes * db :=
  match rows with
  | [] => ([], d)
  | (ik, _) :: rest =>
    match decode_kv_key ik with
    | None => delete_range_loop range_end rev rest d
    | Some user_key =>
      if negb (bytes_eqb range_end []) && bytes_leb range_end user_key then ([], d)
      else match get_kv_metadata d user_key with
      | Some m =>
        if deleted m then delete_range_loop range_end rev rest d
        else
          let '(ks, d') := delete_range_loop range_end rev rest
            (insert_metadata user_key (meta_mark_deleted m rev) d) in
          (user_key :: ks, d')
      | None => delete_range_loop range_end rev rest d
      end
    end
  end.

(** [DeleteRangeOutcome { deleted_keys, replayed }]. *)
Abbreviation DeleteRangeOutcome := (list bytes * bool)%type.

Definition delete_range_in_tx (s : MvccStorage) (start range_end : bytes) (rev : Z)
    (applied : AppliedLogId) (policy : RevisionPolicy) (d : db)
    : result (DeleteRangeOutcome * db) :=
  d ← accept_revision s d rev policy;
  let all := iter_range d TABLE_KV (encode_kv_key start) (encode_kv_key range_end) in
  let '(deleted_keys, d) := delete_range_loop range_end rev all d in
  let event := {| revision := rev; changes := delete_change <$> deleted_keys;
                  event_type := EvDelete |} in
  Ok ((deleted_keys, false), insert_last_applied applied (insert_event event d)).

(** [count_deleted_at_revision]: over the metadata table, an empty [range_end]
    is no bound here. *)
Definition count_deleted_at_revision (d : db) (start range_end : bytes) (rev : Z) : nat :=
  length (List.filter
    (fun '(meta_key, meta_value) =>
       match strip_prefix KV_META_PREFIX meta_key with
       | None => false
       | Some user_key =>
         in_range start range_end user_key &&
         match meta_from_bytes meta_value with
         | Some m => deleted m && (u64_wrap (mod_revision m) =? rev)
         | None => false
         end
       end)
    (iter_prefix d TABLE_KV_META KV_META_PREFIX)).

Definition delete_range_at_key (s : MvccStorage) (d : db) (start range_end : bytes) (rev : Z)
    (applied : AppliedLogId) (policy : RevisionPolicy) : result DeleteRangeOutcome * db :=
  match policy with
  | PolicyCommitTs =>
    match changelog_event_at d rev with
    | Err e => (Err e, d)
    | Ok (Some event) =>
      let all_in_range := forallb (fun c =>
        bool_decide (ch_value c = None) && in_range start range_end (ch_key c)) (changes event) in
      match range_has_live_keys s d start range_end with
      | Err e => (Err e, d)
      | Ok live =>
        let tombstones := count_deleted_at_revision d start range_end rev in
        if all_in_range && negb live && (tombstones =? length (changes event))%nat
        then (Ok ([], true), d)
        else (Err (CommitRejected rev (current_revision s d)), d)
      end
    | Ok None => backend_write d (delete_range_in_tx s start range_end rev applied policy)
    end
  | PolicyLogIndex =>
    if changelog_contains_revision d rev then (Ok ([], true), d)
    else backend_write d (delete_range_in_tx s start range_end rev applied policy)
  end.

Definition delete_range_at_revision (s : MvccStorage) (d : db) (start range_end : bytes)
    (rev : Z) (applied : AppliedLogId) : result DeleteRangeOutcome * db :=
  delete_range_at_key s d start range_end rev applied PolicyLogIndex.

Definition delete_range_at_commit_ts (s : MvccStorage) (d : db) (start range_end : bytes)
    (commit_ts : Z) (applied : AppliedLogId) : result DeleteRangeOutcome * db :=
  if commit_ts =? 0 then (Err InvalidArgument, d)
  else delete_range_at_key s d start range_end commit_ts applied PolicyCommitTs.

Definition delete_range (s : MvccStorage) (d : db) (start range_end : bytes)
    : result (Z * nat) * db :=
  let rev := u64_saturating_add (current_revision s d) 1 in
  match delete_range_at_revision s d start range_end rev (standalone rev) with
  | (Ok (ks, _), d') => (Ok (rev, length ks), d')
  | (Err e, d') => (Err e, d')
  end.

(** ** Keys bound to a lease *)

(** [delete_keys_by_lease_in_tx]: over a snapshot of the metadata table. *)
Fixpoint delete_by_lease_loop (target : Z) (rev : Z) (rows : list row) (d : db)
    : list bytes * db :=
  match rows with
  | [] => ([], d)
  | (meta_key, meta_value) :: rest =>
    match meta_from_bytes meta_value, strip_prefix KV_META_PREFIX meta_key with
    | Some m, Some user_key =>
      if (lease_id m =? target) && negb (deleted m) then
        let '(ks, d') := delete_by_lease_loop target rev rest
          (insert_metadata user_key (meta_mark_deleted m rev) d) in
        (user_key :: ks, d')
      else delete_by_lease_loop target rev rest d
    | _, _ => delete_by_lease_loop target rev rest d
    end
  end.

Definition delete_keys_by_lease_in_tx (target : Z) (rev : Z) (d : db) : list bytes * db :=
  delete_by_lease_loop target rev (iter_prefix d TABLE_KV_META KV_META_PREFIX) d.

Fixpoint keys_by_lease_loop (lease : Z) (limit n : nat) (rows : list row) : list bytes :=
  match rows with
  | [] => []
  | (meta_key, meta_value) :: rest =>
    match meta_from_bytes meta_value, strip_prefix KV_META_PREFIX meta_key with
    | Some m, Some user_key =>
      if (lease_id m =? lease) && negb (deleted m) then
        user_key :: (if (limit <=? S n)%nat then [] else keys_by_lease_loop lease limit (S n) rest)
      else keys_by_lease_loop lease limit n rest
    | _, _ => keys_by_lease_loop lease limit n rest
    end
  end.

Definition keys_by_lease (d : db) (lease : Z) (limit : nat) : list bytes :=
  if (limit =? 0)%nat then []
  else keys_by_lease_loop lease limit 0 (iter_prefix d TABLE_KV_META KV_META_PREFIX).

(** ** Transactions *)

Definition evaluate_compare (d : db) (cmp : TxnCompare) : bool :=
  let raw_meta := get_kv_metadata d (cmp_key cmp) in
  let meta := match raw_meta with
              | Some m => if deleted m then None else Some m
              | None => None
              end in
  let value := if is_deleted d (cmp_key cmp) then None
               else tx_get d TABLE_KV (encode_kv_key (cmp_key cmp)) in
  match cmp_target cmp with
  | CtVersion =>
    match cmp_target_value cmp with
    | CvVersion t => cv_compare (CvVersion (default 0 (version <$> meta))) (CvVersion t) (cmp_op cmp)
    | _ => false
    end
  | CtValue =>
    match cmp_target_value cmp with
    | CvValue t => cv_compare (CvValue (default [] value)) (CvValue t) (cmp_op cmp)
    | _ => false
    end
  | CtModRevision =>
    match cmp_target_value cmp with
    | CvModRevision t =>
      cv_compare (CvModRevision (default 0 (mod_revision <$> meta))) (CvModRevision t) (cmp_op cmp)
    | _ => false
    end
  | CtCreateRevision =>
    match cmp_target_value cmp with
    | CvCreateRevision t =>
      cv_compare (CvCreateRevision (default 0 (create_revision <$> meta)))
        (CvCreateRevision t) (cmp_op cmp)
    | _ => false
    end
  end.

Definition evaluate_compares_in_tx (d : db) (compares : list TxnCompare) : bool :=
  forallb (evaluate_compare d) compares.

(** The rows a [TxnOp::Range] looks at, and its loop. *)
Definition txn_range_rows (d : db) (key range_end : bytes) : list row :=
  match range_semantics_of key range_end with
  | SingleKey =>
    match tx_get d TABLE_KV (encode_kv_key key) with
    | Some v => [(encode_kv_key key, v)]
    | None => []
    end
  | Interval => iter_range d TABLE_KV (encode_kv_key key) (encode_kv_key range_end)
  end.

Fixpoint txn_range_loop (s : MvccStorage) (d : db) (key range_end : bytes) (max : option nat)
    (n : nat) (rows : list row) : result (list (bytes * bytes)) :=
  match rows with
  | [] => Ok []
  | (ik, v) :: rest =>
    if from_option (fun m => (m <=? n)%nat) false max then Ok []
    else match decode_kv_key ik with
    | None => txn_range_loop s d key range_end max n rest
    | Some user_key =>
      if is_interval (range_semantics_of key range_end) && bytes_leb range_end user_key then Ok []
      else if is_deleted d user_key then txn_range_loop s d key range_end max n rest
      else
        pt ← plaintext_of s ik v;
        kvs ← txn_range_loop s d key range_end max (S n) rest;
        Ok ((user_key, pt) :: kvs)
    end
  end.

Definition execute_op_in_tx (s : MvccStorage) (d : db) (op : TxnOp) (rev : Z)
    : result (TxnOpResponse * option KeyValueChange * db) :=
  match op with
  | TxnPut key value lease =>
    d ← write_key s key value (default 0 lease) rev d;
    Ok (RespPut rev, Some (put_change key value), d)
  | TxnDelete key =>
    let d := match get_kv_metadata d key with
             | Some m => insert_metadata key (meta_mark_deleted m rev) d
             | None => d
             end in
    Ok (RespDelete rev, Some (delete_change key), d)
  | TxnRange key range_end limit =>
    let max := if 0 <? limit then Some (Z.to_nat limit) else None in
    kvs ← txn_range_loop s d key range_end max 0 (txn_range_rows d key range_end);
    Ok (RespRange kvs (Z.of_nat (length kvs)) rev, None, d)
  end.

Fixpoint execute_ops (s : MvccStorage) (d : db) (ops : list TxnOp) (rev : Z)
    : result (list TxnOpResponse * list KeyValueChange * db) :=
  match ops with
  | [] => Ok ([], [], d)
  | op :: rest =>
    '(resp, change, d) ← execute_op_in_tx s d op rev;
    '(resps, cs, d) ← execute_ops s d rest rev;
    Ok (resp :: resps, option_list change ++ cs, d)
  end.

Definition txn_in_tx (s : MvccStorage) (compares : list TxnCompare)
    (success_ops failure_ops : list TxnOp) (rev : Z) (applied : AppliedLogId) (d : db)
    : result (TxnResult * db) :=
  d ← accept_revision s d rev PolicyLogIndex;
  let succ := evaluate_compares_in_tx d compares in
  let ops := if succ then success_ops else failure_ops in
  '(resps, cs, d) ← execute_ops s d ops rev;
  let event := {| revision := rev; changes := cs; event_type := EvTxn |} in
  Ok ({| succeeded := succ; txn_revision := rev; responses := resps |},
      insert_last_applied applied (insert_event event d)).

Definition execute_txn_at_revision (s : MvccStorage) (d : db) (compares : list TxnCompare)
    (success_ops failure_ops : list TxnOp) (rev : Z) (applied : AppliedLogId)
    : result TxnResult * db :=
  if changelog_contains_revision d rev then
    (Ok {| succeeded := false; txn_revision := rev; responses := [] |}, d)
  else backend_write d (txn_in_tx s compares success_ops failure_ops rev applied).

Definition execute_txn (s : MvccStorage) (d : db) (compares : list TxnCompare)
    (success_ops failure_ops : list TxnOp) : result TxnResult * db :=
  let rev := u64_saturating_add (current_revision s d) 1 in
  execute_txn_at_revision s d compares success_ops failure_ops rev (standalone rev).

(** ** Compaction *)

Definition compacted_revision (d : db) : Z :=
  default 0 (tx_get d TABLE_META META_COMPACT_REVISION ≫= decode_u64).

Definition COMPACT_BATCH_SIZE : nat := 500.

(** The revision of a change-log key, [None] if the tail is not eight bytes. *)
Definition changelog_key_revision (key : bytes) : option Z :=
  if decide (length CHANGELOG_PREFIX <= length key)%nat
  then decode_u64 (drop (length CHANGELOG_PREFIX) key) else None.

Definition stale_changelog_keys (d : db) (effective : Z) : list bytes :=
  take COMPACT_BATCH_SIZE
    ((List.filter (fun '(key, _) =>
        from_option (fun r => r <? effective) false (changelog_key_revision key))
      (iter_prefix d TABLE_CHANGELOG CHANGELOG_PREFIX)).*1).

Definition stale_tombstone_keys (d : db) (effective : Z) : list bytes :=
  take COMPACT_BATCH_SIZE
    ((List.filter (fun '(_, meta_value) =>
        match meta_from_bytes meta_value with
        | Some m => deleted m && (u64_wrap (mod_revision m) <? effective)
        | None => false
        end)
      (iter_prefix d TABLE_KV_META KV_META_PREFIX)).*1).

Definition remove_tombstone (meta_key : bytes) (d : db) : db :=
  let d := match strip_prefix KV_META_PREFIX meta_key with
           | Some user_key => tx_remove TABLE_KV (encode_kv_key user_key) d
           | None => d
           end in
  tx_remove TABLE_KV_META meta_key d.

(** One batch: [(deleted change-log rows, deleted tombstones, store)]. *)
Definition compact_batch (effective : Z) (d : db) : nat * nat * db :=
  let stale := stale_changelog_keys d effective in
  let d := foldl (fun d key => tx_remove TABLE_CHANGELOG key d) d stale in
  let stale_tomb := stale_tombstone_keys d effective in
  let d := foldl (fun d meta_key => remove_tombstone meta_key d) d stale_tomb in
  (length stale, length stale_tomb, d).

(** The batch loop, with fuel; [None] if the fuel runs out. *)
Fixpoint compact_loop (fuel : nat) (effective : Z) (deleted_changelog deleted_tombstones : nat)
    (d : db) : option (nat * nat * db) :=
  match fuel with
  | O => None
  | S fuel' =>
    let '(bc, bt, d) := compact_batch effective d in
    let deleted_changelog := (deleted_changelog + bc)%nat in
    let deleted_tombstones := (deleted_tombstones + bt)%nat in
    if (bc =? 0)%nat && (bt =? 0)%nat then Some (deleted_changelog, deleted_tombstones, d)
    else compact_loop fuel' effective deleted_changelog deleted_tombstones d
  end.

(** [apply_compact]; every batch but the last removes a row, so the number of
    rows bounds the number of batches. *)
Definition apply_compact (s : MvccStorage) (d : db) (rev : Z) (applied : AppliedLogId)
    : option ((nat * nat) * db) :=
  let effective := Z.min rev (current_revision s d) in
  if effective =? 0 then Some ((0%nat, 0%nat), d)
  else if effective <=? compacted_revision d then Some ((0%nat, 0%nat), d)
  else
    '(dc, dt, d) ← compact_loop (S (size d)) effective 0 0 d;
    let d := tx_insert TABLE_META META_COMPACT_REVISION (be64 effective) d in
    let d := insert_last_applied applied d in
    Some ((dc, dt), note_log_index_revision s d (index applied)).
