(* ===== verification/MvccFacts.v ===== *)
(** * Facts about the store operations

    Which tables each operation of [Mvcc] touches, and what the point readers
    return after it.  Two stores that agree on a table are indistinguishable to
    the readers of that table. *)

From S2P Require Export Mvcc.

Local Open Scope Z_scope.

(** ** Agreement on a table *)

Definition same_table (t : table) (d d' : db) : Prop :=
  forall k, tx_get d t k = tx_get d' t k.

#[export] Instance same_table_equivalence t : Equivalence (same_table t).
Proof.
  split.
  - done.
  - intros d d' H k. by rewrite H.
  - intros d1 d2 d3 H1 H2 k. by rewrite H1, H2.
Qed.


Lemma table_rows_same t d d' : same_table t d d' -> table_rows d t = table_rows d' t.
Proof.
  intros H. apply table_rows_unique; [apply table_rows_sorted|].
  intros k v. rewrite elem_of_table_rows. specialize (H k). unfold tx_get in H. by rewrite H.
Qed.

#[export] Instance get_kv_metadata_proper :
  Proper (same_table TABLE_KV_META ==> eq ==> eq) get_kv_metadata.
Proof. intros d d' H k ? <-. unfold get_kv_metadata. by rewrite H. Qed.

#[export] Instance current_revision_in_tx_proper :
  Proper (same_table TABLE_META ==> eq ==> eq) current_revision_in_tx.
Proof.
  intros d d' H m ? <-. unfold current_revision_in_tx, get_applied_log_id. by rewrite !H.
Qed.

#[export] Instance current_revision_proper s :
  Proper (same_table TABLE_META ==> eq) (current_revision s).
Proof. intros d d' H. unfold current_revision. by rewrite H. Qed.

#[export] Instance compacted_revision_proper :
  Proper (same_table TABLE_META ==> eq) compacted_revision.
Proof. intros d d' H. unfold compacted_revision. by rewrite H. Qed.

Lemma iter_prefix_same t d d' p : same_table t d d' -> iter_prefix d t p = iter_prefix d' t p.
Proof. intros H. unfold iter_prefix. by rewrite (table_rows_same t d d'). Qed.

Lemma iter_range_same t d d' a z : same_table t d d' -> iter_range d t a z = iter_range d' t a z.
Proof. intros H. by rewrite !iter_range_filter, (table_rows_same t d d'). Qed.

(** ** Point access after an update *)

Lemma tx_get_insert t k v d : tx_get (tx_insert t k v d) t k = Some v.
Proof. apply lookup_insert_eq. Qed.

Lemma tx_get_insert_ne t k t' k' v d :
  (t', k') <> (t, k) -> tx_get (tx_insert t' k' v d) t k = tx_get d t k.
Proof. apply lookup_insert_ne. Qed.

Lemma tx_get_remove t k d : tx_get (tx_remove t k d) t k = None.
Proof. apply lookup_delete_eq. Qed.

Lemma tx_get_remove_ne t k t' k' d :
  (t', k') <> (t, k) -> tx_get (tx_remove t' k' d) t k = tx_get d t k.
Proof. apply lookup_delete_ne. Qed.

Lemma same_table_insert t t' k v d : t' <> t -> same_table t (tx_insert t' k v d) d.
Proof. intros H k'. apply tx_get_insert_ne. congruence. Qed.

Lemma same_table_remove t t' k d : t' <> t -> same_table t (tx_remove t' k d) d.
Proof. intros H k'. apply tx_get_remove_ne. congruence. Qed.

Lemma same_table_insert_l t t' k v d d' :
  t' <> t -> same_table t d d' -> same_table t (tx_insert t' k v d) d'.
Proof. intros ? <-. by apply same_table_insert. Qed.

(** Prove that an update leaves a table alone. *)
Ltac frame :=
  repeat first
    [ reflexivity
    | eassumption
    | apply same_table_insert_l; [congruence|]
    | etransitivity; [eapply same_table_remove; congruence|]
    | match goal with
      | |- same_table _ (if ?c then _ else _) _ => destruct c
      | |- same_table _ (match ?o with _ => _ end) _ => destruct o
      end ].

(** ** Metadata *)

Lemma get_kv_metadata_insert key m d :
  meta_wf m -> get_kv_metadata (insert_metadata key m d) key = Some m.
Proof.
  intros. unfold get_kv_metadata, insert_metadata. rewrite tx_get_insert.
  cbn [mbind option_bind]. by apply meta_decode_encode.
Qed.

Lemma get_kv_metadata_insert_ne key key' m d :
  key' <> key -> get_kv_metadata (insert_metadata key' m d) key = get_kv_metadata d key.
Proof.
  intros. unfold get_kv_metadata, insert_metadata. rewrite tx_get_insert_ne; [done|].
  intros [=]. simplify_eq.
Qed.

Lemma get_kv_metadata_wf d key m : get_kv_metadata d key = Some m -> meta_wf m.
Proof.
  unfold get_kv_metadata. destruct (tx_get _ _ _); [|done]. cbn [mbind option_bind].
  apply meta_from_bytes_wf.
Qed.
#[export] Hint Resolve get_kv_metadata_wf : coord.

Lemma is_deleted_Some d key m : get_kv_metadata d key = Some m -> is_deleted d key = deleted m.
Proof. intros E. unfold is_deleted. by rewrite E. Qed.

Lemma is_deleted_None d key : get_kv_metadata d key = None -> is_deleted d key = false.
Proof. intros E. unfold is_deleted. by rewrite E. Qed.

(** ** Revisions *)

Lemma current_revision_range s d : in_u64 (current_revision s d).
Proof.
  unfold current_revision, current_revision_in_tx.
  destruct (tx_get d TABLE_META META_CURRENT_REVISION ≫= decode_u64) as [r|] eqn:E.
  { destruct (tx_get d TABLE_META META_CURRENT_REVISION); [|done].
    by eapply decode_u64_range. }
  destruct (revision_mode s); [|by vm_compute].
  unfold get_applied_log_id. destruct (tx_get d TABLE_META META_LAST_APPLIED) as [x|];
    [|by vm_compute]. cbn [mbind option_bind].
  unfold applied_from_bytes. destruct (strip_prefix _ x) as [y|]; [|by vm_compute].
  cbn [mbind option_bind].
  destruct (slice 0 8 y); [|by vm_compute]. cbn [mbind option_bind].
  destruct (slice 8 8 y); [|by vm_compute]. cbn [mbind option_bind].
  destruct (slice 16 8 y) as [i|] eqn:Ei; [|by vm_compute].
  cbn [mbind option_bind fmap option_fmap option_map default from_option index]. pose proof (be_val_range i) as Hi. by rewrite (slice_length _ _ _ _ Ei) in Hi.
Qed.
#[export] Hint Resolve current_revision_range : coord.

Lemma compacted_revision_range d : in_u64 (compacted_revision d).
Proof.
  unfold compacted_revision. destruct (tx_get _ _ _) as [x|]; [|by vm_compute].
  cbn [mbind option_bind]. destruct (decode_u64 x) eqn:E; [|by vm_compute].
  by eapply decode_u64_range.
Qed.
#[export] Hint Resolve compacted_revision_range : coord.

Lemma current_revision_set s r d : in_u64 r -> current_revision s (set_current_revision r d) = r.
Proof.
  intros. unfold current_revision, current_revision_in_tx, set_current_revision.
  rewrite tx_get_insert. cbn [mbind option_bind]. by rewrite decode_u64_be64.
Qed.

Lemma compacted_revision_set_current r d :
  compacted_revision (set_current_revision r d) = compacted_revision d.
Proof.
  unfold compacted_revision, set_current_revision. by rewrite tx_get_insert_ne.
Qed.

Lemma compacted_revision_last_applied a d :
  compacted_revision (insert_last_applied a d) = compacted_revision d.
Proof. unfold compacted_revision, insert_last_applied. by rewrite tx_get_insert_ne. Qed.

(** The revision row: once it is present, recording the applied log id does not
    move the current revision. *)
Lemma current_revision_last_applied s a r d :
  tx_get d TABLE_META META_CURRENT_REVISION ≫= decode_u64 = Some r ->
  current_revision s (insert_last_applied a d) = r.
Proof.
  intros E. unfold current_revision, current_revision_in_tx, insert_last_applied.
  rewrite tx_get_insert_ne by done. by rewrite E.
Qed.

(** The combinations of mode and policy in which a revision is checked; the
    remaining one (a log-index write to a commit-timestamp store) is the
    consensus metadata path, which consumes no revision. *)
Definition revision_checked (s : MvccStorage) (policy : RevisionPolicy) : bool :=
  match revision_mode s, policy with
  | ModeCommitTs, PolicyLogIndex => false
  | _, _ => true
  end.

Lemma accept_revision_Ok s d rev policy d' :
  revision_checked s policy = true ->
  accept_revision s d rev policy = Ok d' <->
  current_revision s d < rev /\ d' = set_current_revision rev d.
Proof.
  unfold accept_revision, accept_log_index_revision, accept_commit_ts, revision_checked,
    current_revision. intros Hc.
  assert ((if rev <=? current_revision_in_tx d (revision_mode s)
           then Err (CommitRejected rev (current_revision_in_tx d (revision_mode s)))
           else Ok (set_current_revision rev d)) = Ok d' <->
          current_revision_in_tx d (revision_mode s) < rev /\ d' = set_current_revision rev d).
  { destruct (Z.leb_spec rev (current_revision_in_tx d (revision_mode s))); split.
    - done.
    - intros []; lia.
    - by intros [= <-].
    - by intros [_ ->]. }
  destruct policy; [|done]. case_decide as E; [by rewrite E in Hc|done].
Qed.

(** ** Values *)

Lemma encode_kv_key_prefix key : starts_with (encode_kv_key key) KV_PREFIX = true.
Proof. apply starts_with_app. Qed.

(** What a reader recovers from a written value. *)
Lemma plaintext_of_encrypt s key v c :
  (forall br, barrier s = Some br -> BarrierLaws br) ->
  encrypt_value s (encode_kv_key key) v = Ok c -> plaintext_of s (encode_kv_key key) c = Ok v.
Proof.
  intros Hb. unfold encrypt_value, plaintext_of, decrypt_value.
  rewrite encode_kv_key_prefix. cbn [negb].
  destruct (barrier s) as [br|].
  - destruct (Hb br eq_refl) as [Hrt Hlen]. intros E.
    specialize (Hlen v c E). destruct (bytes_eqb_spec c []) as [->|_]; [simpl in Hlen; lia|].
    rewrite (proj2 (Nat.leb_le _ _) Hlen). by apply Hrt.
  - intros [= ->]. by destruct (bytes_eqb_spec c []) as [->|_].
Qed.
