(* ===== verification/History.v ===== *)
(** * Historical reads

    Reads at a past revision ([get_at_revision], [range_at_revision] and
    [range_at_revision_with_metadata] of [coord-server/src/storage/mvcc.rs]),
    which replay the change log and refuse to answer when compaction or an
    import has removed what they need. *)

From S2P Require Export Mvcc.

Local Open Scope Z_scope.

(** ** Import floors *)

(** [ImportHistoryFloor = (start_key, end_key, watermark)]. *)
Abbreviation ImportHistoryFloor := (bytes * bytes * Z)%type.

(** The [postcard] codec of the floor list (a third-party crate). *)
Class FloorCodec := {
  encode_floors : list ImportHistoryFloor -> bytes;
  decode_floors : bytes -> option (list ImportHistoryFloor) }.

Class FloorCodecLaws (fc : FloorCodec) : Prop :=
  floors_roundtrip : forall l, decode_floors (encode_floors l) = Some l.

(** ** Decoding the change log *)

(** [if let Ok(event) = ChangeEvent::from_bytes(..)]: a decoding error is
    skipped, a panic is not. *)
Definition try_event (x : bytes) : result (option ChangeEvent) :=
  match event_from_bytes x with
  | Ok e => Ok (Some e)
  | Err Panic => Err Panic
  | Err _ => Ok None
  end.

Definition changelog_rows (d : db) : list row :=
  iter_prefix d TABLE_CHANGELOG CHANGELOG_PREFIX.

Definition changelog_rows_from (d : db) (start_revision : Z) : list row :=
  List.filter (fun '(key, _) => negb (bytes_ltb key (encode_changelog_key start_revision)))
    (changelog_rows d).

Fixpoint decode_events (rows : list row) : result (list ChangeEvent) :=
  match rows with
  | [] => Ok []
  | (_, value) :: rest =>
    e ← try_event value;
    es ← decode_events rest;
    Ok (option_list e ++ es)
  end.

Definition read_changelog_entries (d : db) (start_revision : Z) : result (list ChangeEvent) :=
  decode_events (changelog_rows_from d start_revision).

Fixpoint decode_events_strict (rows : list row) : result (list ChangeEvent) :=
  match rows with
  | [] => Ok []
  | (_, value) :: rest =>
    e ← try_event value;
    e ← ok_or e DataCorruption;
    es ← decode_events_strict rest;
    Ok (e :: es)
  end.

Definition read_changelog_entries_strict (d : db) (start_revision : Z)
    : result (list ChangeEvent) :=
  decode_events_strict (changelog_rows_from d start_revision).

(** [verify_consistency]: the applied index and the last change-log revision. *)
Definition verify_consistency (d : db) : Z * option Z :=
  (default 0 (index <$> get_applied_log_id d),
   foldl (fun tail '(key, _) =>
            if (length CHANGELOG_PREFIX + 8 <=? length key)%nat
            then Some (be_val (drop (length key - 8) key)) else tail)
     None (changelog_rows d)).

(** ** Point reads *)

(** The last change of a list of changes to one key. *)
Definition last_change (key : bytes) (cs : list KeyValueChange) : option (option bytes) :=
  foldl (fun acc c => if bytes_eqb (ch_key c) key then Some (ch_value c) else acc) None cs.

(** The scan of [get_at_revision]: the last value at or before the target and
    whether the key was written after it; stops at the first later write. *)
Fixpoint history_scan (key end_key : bytes) (rows : list row)
    (last_value : option (option bytes)) : result (option (option bytes) * bool) :=
  match rows with
  | [] => Ok (last_value, false)
  | (log_key, log_value) :: rest =>
    let is_after := bytes_leb end_key log_key in
    event ← try_event log_value;
    match event ≫= fun e => last_change key (changes e) with
    | None => history_scan key end_key rest last_value
    | Some v =>
      if is_after then Ok (last_value, true) else history_scan key end_key rest (Some v)
    end
  end.

Definition ensure_history_reconstructable (d : db) (target : Z) : result unit :=
  let compacted := compacted_revision d in
  if target <=? compacted
  then Err (RevisionCompacted target (u64_saturating_add compacted 1))
  else Ok tt.

Section reads.
  Context {fc : FloorCodec}.

Definition import_history_floors (d : db) : result (list ImportHistoryFloor) :=
  match tx_get d TABLE_KV IMPORT_HISTORY_FLOORS with
  | None => Ok []
  | Some x => ok_or (decode_floors x) DataCorruption
  end.

Definition ensure_key_import_history_available (d : db) (key : bytes) (target : Z)
    : result unit :=
  floors ← import_history_floors d;
  guard_err (existsb (fun '(floor_start, floor_end, floor_revision) =>
    (target <? floor_revision) && in_range floor_start floor_end key) floors)
    (HistoryUnavailable target).

Definition ensure_import_history_available (d : db) (start range_end : bytes) (target : Z)
    : result unit :=
  floors ← import_history_floors d;
  guard_err (existsb (fun '(floor_start, floor_end, floor_revision) =>
    (target <? floor_revision) && ranges_intersect start range_end floor_start floor_end) floors)
    (HistoryUnavailable target).

Definition created_after (d : db) (key : bytes) (target : Z) : bool :=
  match get_kv_metadata d key with
  | Some m => target <? u64_wrap (create_revision m)
  | None => false
  end.

Definition get_at_revision (s : MvccStorage) (d : db) (key : bytes) (target : Z)
    : result (option bytes) :=
  _ ← ensure_history_reconstructable d target;
  _ ← ensure_key_import_history_available d key target;
  let end_key := encode_changelog_key (u64_saturating_add target 1) in
  '(last_at_or_before, written_after) ← history_scan key end_key (changelog_rows d) None;
  match last_at_or_before with
  | Some value => Ok value
  | None =>
    if negb written_after then get s d key
    else if created_after d key target then Ok None
    else Err (HistoryUnavailable target)
  end.

(** ** Range reads *)

(** The state of the replay of [replay_historical_range]: the value view, the
    keys changed after the target, the last write at or before it, and the
    later writes of each key (revision and whether it is a delete). *)
Record ReplayState := {
  rp_view : gmap bytes bytes;
  rp_changed_after : gset bytes;
  rp_last_write : gmap bytes Z;
  rp_post_events : gmap bytes (list (Z * bool)) }.

Definition replay_init : ReplayState :=
  {| rp_view := ∅; rp_changed_after := ∅; rp_last_write := ∅; rp_post_events := ∅ |}.

Definition replay_change (start range_end : bytes) (is_after : bool) (event_revision : Z)
    (st : ReplayState) (c : KeyValueChange) : ReplayState :=
  if negb (in_range start range_end (ch_key c)) then st
  else if is_after then
    {| rp_view := rp_view st;
       rp_changed_after := {[ch_key c]} ∪ rp_changed_after st;
       rp_last_write := rp_last_write st;
       rp_post_events :=
         <[ch_key c := default [] (rp_post_events st !! ch_key c)
                         ++ [(event_revision, bool_decide (ch_value c = None))]]>
           (rp_post_events st) |}
  else
    {| rp_view := match ch_value c with
                  | Some v => <[ch_key c := v]> (rp_view st)
                  | None => base.delete (ch_key c) (rp_view st)
                  end;
       rp_changed_after := rp_changed_after st;
       rp_last_write := <[ch_key c := event_revision]> (rp_last_write st);
       rp_post_events := rp_post_events st |}.

Fixpoint replay_rows (start range_end end_key : bytes) (rows : list row) (st : ReplayState)
    : result ReplayState :=
  match rows with
  | [] => Ok st
  | (log_key, log_value) :: rest =>
    let is_after := bytes_leb end_key log_key in
    event ← try_event log_value;
    let st := match event with
              | Some e =>
                foldl (replay_change start range_end is_after (revision e)) st (changes e)
              | None => st
              end in
    replay_rows start range_end end_key rest st
  end.

(** The completion of the view: a candidate key (currently live, or written
    after the target) that the replay does not know. *)
Definition complete_view (d : db) (target : Z) (changed_after : gset bytes)
    (candidates : list (bytes * option bytes)) (view : gmap bytes bytes)
    : gmap bytes bytes * list bytes :=
  foldl (fun '(view, bad) '(key, live_value) =>
    match view !! key with
    | Some _ => (view, bad)
    | None =>
      if decide (key ∈ changed_after) then
        if created_after d key target then (view, bad) else (view, bad ++ [key])
      else match live_value with
           | Some value => (<[key := value]> view, bad)
           | None => (view, bad)
           end
    end) (view, []) candidates.

(** The candidates in key order: live keys override the changed ones. *)
Definition candidate_map (changed_after : gset bytes) (live : list (bytes * bytes))
    : gmap bytes (option bytes) :=
  foldl (fun m '(k, v) => <[k := Some v]> m) (set_to_map (fun k => (k, None)) changed_after) live.

Definition sorted_entries {A : Type} (m : gmap bytes A) : list (bytes * A) :=
  omap (fun k => pair k <$> m !! k) (merge_sort bytes_le (elements (dom m))).

Definition replay_historical_range (s : MvccStorage) (d : db) (start range_end : bytes)
    (target : Z) : result ReplayState :=
  _ ← ensure_history_reconstructable d target;
  _ ← ensure_import_history_available d start range_end target;
  let end_key := encode_changelog_key (u64_saturating_add target 1) in
  st ← replay_rows start range_end end_key (changelog_rows d) replay_init;
  live ← range_in s d start range_end 0;
  let candidates := sorted_entries (candidate_map (rp_changed_after st) live) in
  let '(view, bad) := complete_view d target (rp_changed_after st) candidates (rp_view st) in
  _ ← guard_err (negb (bool_decide (bad = []))) (HistoryUnavailable target);
  Ok {| rp_view := view; rp_changed_after := rp_changed_after st;
        rp_last_write := rp_last_write st; rp_post_events := rp_post_events st |}.

(** [limit = 0] is no limit. *)
Definition take_limit {A : Type} (limit : nat) (l : list A) : list A :=
  if (limit =? 0)%nat then l else take limit l.

Definition range_at_revision (s : MvccStorage) (d : db) (start range_end : bytes) (limit : nat)
    (target : Z) : result (list (bytes * bytes)) :=
  st ← replay_historical_range s d start range_end target;
  Ok (take_limit limit (sorted_entries (rp_view st))).

(** The writes after the target that took effect: a delete of an absent key
    does not bump the version. *)
Definition effective_after (events : list (Z * bool)) : Z :=
  (foldl (fun '(exists_, count) '(_, is_delete) =>
     if (is_delete : bool) then
       if (exists_ : bool) then (false, count + 1) else (exists_, count)
     else (true, count + 1)) (true, 0) events).2.

Definition historical_metadata (d : db) (st : ReplayState) (target : Z) (key : bytes)
    : result KvMetadata :=
  current ← ok_or (get_kv_metadata d key) Internal;
  let after := from_option effective_after 0 (rp_post_events st !! key) in
  if after =? 0 then
    if deleted current then Err Internal else Ok current
  else
    let version_ := version current - after in
    if version_ <? - 2 ^ 63 then Err Internal
    else
      last_write ← ok_or (rp_last_write st !! key) Internal;
      if target <? u64_wrap (create_revision current) then Err Internal
      else Ok {| version := version_; create_revision := create_revision current;
                 mod_revision := i64_wrap last_write; lease_id := lease_id current;
                 deleted := false |}.

Fixpoint historical_rows (d : db) (st : ReplayState) (target : Z) (kvs : list (bytes * bytes))
    : result (list VersionedKv) :=
  match kvs with
  | [] => Ok []
  | (key, value) :: rest =>
    m ← historical_metadata d st target key;
    rows ← historical_rows d st target rest;
    Ok ((key, value, m) :: rows)
  end.

Definition range_at_revision_with_metadata (s : MvccStorage) (d : db) (start range_end : bytes)
    (limit : nat) (target : Z) : result (list VersionedKv) :=
  st ← replay_historical_range s d start range_end target;
  historical_rows d st target (take_limit limit (sorted_entries (rp_view st))).

End reads.
