(* ===== verification/MvccSpec.v ===== *)
(** * What the store promises: a history of change events

    The abstract state of the store is the list of all change events ever
    applied, in revision order.  The value of a key at a revision is the result
    of replaying the events up to it.  [mvcc_rep] relates the byte tables to
    such a history; every handler that writes keys extends the history by one
    event and keeps the relation, compaction keeps the history. *)

From S2P Require Export KeyedLog MvccFacts History.

Local Open Scope Z_scope.

(** ** The abstract state *)

Abbreviation history := (list ChangeEvent).

Definition apply_change (key : bytes) (v : option bytes) (c : KeyValueChange) : option bytes :=
  if bytes_eqb (ch_key c) key then ch_value c else v.

Definition apply_changes (key : bytes) (v : option bytes) (cs : list KeyValueChange)
    : option bytes := foldl (apply_change key) v cs.

(** The value of a key at revision [T], and its latest value. *)
Definition value_at (h : history) (key : bytes) (T : Z) : option bytes :=
  foldl (fun v e => if revision e <=? T then apply_changes key v (changes e) else v) None h.

Definition latest (h : history) (key : bytes) : option bytes :=
  foldl (fun v e => apply_changes key v (changes e)) None h.

Definition event_lt (e1 e2 : ChangeEvent) : Prop := revision e1 < revision e2.

Lemma value_at_snoc h e key T :
  value_at (h ++ [e]) key T =
  if revision e <=? T then apply_changes key (value_at h key T) (changes e) else value_at h key T.
Proof. unfold value_at. by rewrite foldl_app. Qed.

Lemma latest_snoc h e key :
  latest (h ++ [e]) key = apply_changes key (latest h key) (changes e).
Proof. unfold latest. by rewrite foldl_app. Qed.

Lemma value_at_latest h key T :
  Forall (fun e => revision e <= T) h -> value_at h key T = latest h key.
Proof.
  induction h as [|e h IH] using rev_ind; [done|]. rewrite Forall_app, Forall_singleton.
  intros [Hh He]. rewrite value_at_snoc, latest_snoc, IH by done.
  by rewrite (proj2 (Z.leb_le _ _) He).
Qed.

Lemma apply_changes_snoc key v cs c :
  apply_changes key v (cs ++ [c]) = apply_change key (apply_changes key v cs) c.
Proof. unfold apply_changes. by rewrite foldl_app. Qed.

Lemma apply_changes_app key v cs cs' :
  apply_changes key v (cs ++ cs') = apply_changes key (apply_changes key v cs) cs'.
Proof. unfold apply_changes. by rewrite foldl_app. Qed.

Lemma apply_changes_irrelevant key v cs :
  Forall (fun c => ch_key c <> key) cs -> apply_changes key v cs = v.
Proof.
  unfold apply_changes. revert v. induction cs as [|c cs IH]; intros v; [done|].
  rewrite Forall_cons. intros [Hc Hcs]. simpl. unfold apply_change at 2.
  destruct (bytes_eqb_spec (ch_key c) key); [done|]. by apply IH.
Qed.

(** A key with a value was written by some event. *)
Lemma apply_changes_Some key v cs x :
  apply_changes key v cs = Some x ->
  v = Some x \/ exists c, c ∈ cs /\ ch_key c = key /\ ch_value c = Some x.
Proof.
  induction cs as [|c cs IH] using rev_ind; [by left|]. rewrite apply_changes_snoc.
  unfold apply_change. destruct (bytes_eqb_spec (ch_key c) key) as [Hk|_].
  - intros Hv. right. exists c. by rewrite elem_of_app, list_elem_of_singleton; auto.
  - intros H. destruct (IH H) as [?|(c' & ? & ?)]; [by left|]. right. exists c'.
    by rewrite elem_of_app; auto.
Qed.

Lemma latest_Some h key x :
  latest h key = Some x ->
  exists e c, e ∈ h /\ c ∈ changes e /\ ch_key c = key /\ ch_value c = Some x.
Proof.
  induction h as [|e h IH] using rev_ind; [done|]. rewrite latest_snoc.
  intros [H|(c & ? & ?)]%apply_changes_Some.
  - destruct (IH H) as (e' & c & ? & ?). exists e', c. by rewrite elem_of_app; auto.
  - exists e, c. by rewrite elem_of_app, list_elem_of_singleton; auto.
Qed.

(** The key was written by the event at revision [r]. *)
Definition touched_at (h : history) (key : bytes) (r : Z) : Prop :=
  exists e, e ∈ h /\ revision e = r /\ key ∈ ch_key <$> changes e.

(** ** The representation of one key *)

(** [comp] is the compacted revision and [hi] a bound on the revisions used.  A
    key without metadata has no value and had none since compaction; a
    tombstone says when the key ceased to exist, and [create_revision] names an
    event that wrote the key and before which (as far as compaction allows to
    ask) the key had no value. *)
Definition key_ok (s : MvccStorage) (meta : option KvMetadata) (value_row : option bytes)
    (key : bytes) (comp hi : Z) (L : option bytes) (V : Z -> option bytes) (W : Z -> Prop)
    : Prop :=
  match meta with
  | None => value_row = None /\ L = None /\ forall T, comp <= T -> V T = None
  | Some m =>
    (u64_wrap (create_revision m) <= hi /\ W (u64_wrap (create_revision m))) /\
    (forall T, comp < T < u64_wrap (create_revision m) -> V T = None) /\
    if deleted m then L = None /\ forall T, u64_wrap (mod_revision m) <= T -> V T = None
    else exists raw v, value_row = Some raw /\
           plaintext_of s (encode_kv_key key) raw = Ok v /\ L = Some v
  end.

Definition key_rep (s : MvccStorage) (d : db) (comp hi : Z) (h : history) (key : bytes) : Prop :=
  key_ok s (get_kv_metadata d key) (tx_get d TABLE_KV (encode_kv_key key)) key comp hi
    (latest h key) (value_at h key) (touched_at h key).

Lemma key_ok_mono s meta row key comp comp' hi hi' L V V' (W W' : Z -> Prop) :
  comp <= comp' -> hi <= hi' ->
  (forall T, V T = None -> V' T = None) -> (forall r, W r -> W' r) ->
  key_ok s meta row key comp hi L V W -> key_ok s meta row key comp' hi' L V' W'.
Proof.
  intros Hc Hh HN HW. unfold key_ok. destruct meta as [m|].
  - intros ((H1 & H1') & H2 & H3). split; [split; [lia|auto]|]. split; [intros; apply HN, H2; lia|].
    destruct (deleted m); [|done]. destruct H3 as [? H3]. split; [done|]. auto.
  - intros (? & ? & H). split; [done|]. split; [done|]. intros. apply HN, H. lia.
Qed.

Definition keys_rep (s : MvccStorage) (d : db) (comp hi : Z) (h : history) : Prop :=
  forall key, key_rep s d comp hi h key.

(** The representation of keys depends on their own rows only; the system rows
    of the key table live under other prefixes. *)
Lemma keys_rep_frame s d d' comp hi h :
  (forall key, tx_get d' TABLE_KV (encode_kv_key key) = tx_get d TABLE_KV (encode_kv_key key)) ->
  same_table TABLE_KV_META d' d -> keys_rep s d comp hi h -> keys_rep s d' comp hi h.
Proof.
  intros H1 H2 Hk key. specialize (Hk key). unfold key_rep in *.
  assert (get_kv_metadata d' key = get_kv_metadata d key) as -> by (by rewrite H2).
  by rewrite H1.
Qed.

Lemma keys_rep_same s d d' comp hi h :
  same_table TABLE_KV d d' -> same_table TABLE_KV_META d d' ->
  keys_rep s d comp hi h -> keys_rep s d' comp hi h.
Proof. intros H1 H2. apply keys_rep_frame; [by intros key; rewrite H1|by symmetry]. Qed.

Lemma keys_rep_mono s d comp hi hi' h :
  hi <= hi' -> keys_rep s d comp hi h -> keys_rep s d comp hi' h.
Proof. intros Hle Hk key. by eapply key_ok_mono; [..|apply Hk]. Qed.

(** The event being built by a transaction at revision [rev]. *)
Definition pending (rev : Z) (t : EventType) (cs : list KeyValueChange) : ChangeEvent :=
  {| revision := rev; changes := cs; event_type := t |}.

Lemma value_at_pending_snoc h rev t cs c key T :
  value_at (h ++ [pending rev t (cs ++ [c])]) key T =
  if (rev <=? T) && bytes_eqb (ch_key c) key then ch_value c
  else value_at (h ++ [pending rev t cs]) key T.
Proof.
  rewrite !value_at_snoc. simpl. destruct (rev <=? T); [|done].
  rewrite apply_changes_snoc. unfold apply_change. by destruct (bytes_eqb _ _).
Qed.

Lemma latest_pending_snoc h rev t cs c key :
  latest (h ++ [pending rev t (cs ++ [c])]) key =
  if bytes_eqb (ch_key c) key then ch_value c else latest (h ++ [pending rev t cs]) key.
Proof. rewrite !latest_snoc. simpl. by rewrite apply_changes_snoc. Qed.

Lemma value_at_pending_nil h rev t key T :
  value_at (h ++ [pending rev t []]) key T = value_at h key T.
Proof. rewrite value_at_snoc. simpl. by destruct (_ <=? _). Qed.

Lemma latest_pending_nil h rev t key : latest (h ++ [pending rev t []]) key = latest h key.
Proof. by rewrite latest_snoc. Qed.

Lemma touched_at_app h e key r : touched_at h key r -> touched_at (h ++ [e]) key r.
Proof. intros (e' & ? & ?). exists e'. rewrite elem_of_app. naive_solver. Qed.

Lemma touched_pending_snoc h rev t cs c key r :
  touched_at (h ++ [pending rev t cs]) key r -> touched_at (h ++ [pending rev t (cs ++ [c])]) key r.
Proof.
  intros (e & [He| ->%list_elem_of_singleton]%elem_of_app & Hr & Hk).
  - apply touched_at_app. by exists e.
  - exists (pending rev t (cs ++ [c])). rewrite elem_of_app, list_elem_of_singleton.
    split; [by right|]. split; [done|]. simpl in *. rewrite fmap_app, elem_of_app. by left.
Qed.

Lemma touched_pending_last h rev t cs c :
  touched_at (h ++ [pending rev t (cs ++ [c])]) (ch_key c) rev.
Proof.
  exists (pending rev t (cs ++ [c])). rewrite elem_of_app, list_elem_of_singleton.
  split; [by right|]. split; [done|]. simpl. rewrite fmap_app, elem_of_app. right. left.
Qed.

Section pending.
  Context (s : MvccStorage) (comp rev : Z) (h : history) (t : EventType).
  Context (Hrev : in_u64 rev).
  Context (Hbarrier : forall br, barrier s = Some br -> BarrierLaws br).

Abbreviation rep d cs := (keys_rep s d comp rev (h ++ [pending rev t cs])).

(** Opening a transaction changes nothing. *)
Lemma pending_start d hi : hi <= rev -> keys_rep s d comp hi h -> rep d [].
Proof.
  intros Hhi Hk key. specialize (Hk key). unfold key_rep in *.
  rewrite latest_pending_nil.
  eapply key_ok_mono; [..|exact Hk]; [lia|done| |].
  - intros. by rewrite value_at_pending_nil.
  - intros. by apply touched_at_app.
Qed.

(** A change to one key leaves the representation of the others alone. *)
Lemma pending_other d d' cs c key :
  ch_key c <> key ->
  get_kv_metadata d' key = get_kv_metadata d key ->
  tx_get d' TABLE_KV (encode_kv_key key) = tx_get d TABLE_KV (encode_kv_key key) ->
  key_rep s d comp rev (h ++ [pending rev t cs]) key ->
  key_rep s d' comp rev (h ++ [pending rev t (cs ++ [c])]) key.
Proof.
  intros Hne Hm Hv Hk. unfold key_rep in *. rewrite Hm, Hv, latest_pending_snoc.
  assert (bytes_eqb (ch_key c) key = false) as E by (by apply bool_decide_eq_false).
  rewrite E. eapply key_ok_mono; [..|exact Hk]; [lia|done| |].
  - intros. by rewrite value_at_pending_snoc, E, andb_false_r.
  - intros. by apply touched_pending_snoc.
Qed.

Lemma pending_same cs c key T :
  ch_key c = key ->
  value_at (h ++ [pending rev t (cs ++ [c])]) key T =
  if rev <=? T then ch_value c else value_at (h ++ [pending rev t cs]) key T.
Proof.
  intros <-. rewrite value_at_pending_snoc. unfold bytes_eqb.
  by rewrite bool_decide_eq_true_2, andb_true_r.
Qed.

Lemma latest_same cs c key :
  ch_key c = key -> latest (h ++ [pending rev t (cs ++ [c])]) key = ch_value c.
Proof.
  intros <-. rewrite latest_pending_snoc. unfold bytes_eqb. by rewrite bool_decide_eq_true_2.
Qed.

Lemma pending_write d d' cs key value lid :
  in_i64 lid -> write_key s key value lid rev d = Ok d' ->
  rep d cs -> rep d' (cs ++ [put_change key value]).
Proof.
  intros Hlid Hw Hk. unfold write_key in Hw. inv_bind.
  rename x into raw, H into Henc.
  set (m := match get_kv_metadata d key with
            | Some m => meta_update m rev lid | None => meta_new_key rev lid end) in *.
  assert (meta_wf m) as Hm.
  { unfold m. destruct (get_kv_metadata d key) eqn:E; eauto with coord. }
  intros key'. destruct (decide (key' = key)) as [->|Hne].
  - specialize (Hk key). unfold key_rep in *.
    rewrite get_kv_metadata_insert, latest_same by done.
    assert ((u64_wrap (create_revision m) <= rev /\
             touched_at (h ++ [pending rev t (cs ++ [put_change key value])]) key
               (u64_wrap (create_revision m))) /\
      forall T, comp < T < u64_wrap (create_revision m) ->
        value_at (h ++ [pending rev t cs]) key T = None) as [H1 H2].
    { unfold m. destruct (get_kv_metadata d key) as [m0|]; simpl.
      - destruct Hk as ((? & ?) & ? & _). split; [|done]. split; [done|].
        by apply touched_pending_snoc.
      - rewrite u64_i64_u64 by done. split; [split; [lia|apply touched_pending_last]|].
        intros T ?. apply Hk. lia. }
    split; [done|]. split.
    { intros T HT. rewrite pending_same by done. destruct (Z.leb_spec rev T); [lia|]. by apply H2. }
    replace (deleted m) with false by (unfold m; by destruct (get_kv_metadata d key)).
    exists raw, value. split; [|split; [|done]].
    + unfold insert_metadata. rewrite tx_get_insert_ne by done. apply tx_get_insert.
    + by apply plaintext_of_encrypt.
  - eapply pending_other; [|..|apply Hk]; [by apply not_eq_sym| |].
    + rewrite get_kv_metadata_insert_ne by done.
      apply get_kv_metadata_proper; [by apply same_table_insert|done].
    + unfold insert_metadata. rewrite tx_get_insert_ne by done. apply tx_get_insert_ne.
      intros [= E]. by destruct Hne.
Qed.

Lemma pending_tombstone d cs key m :
  get_kv_metadata d key = Some m ->
  rep d cs -> rep (insert_metadata key (meta_mark_deleted m rev) d) (cs ++ [delete_change key]).
Proof.
  intros Hm Hk key'. destruct (decide (key' = key)) as [->|Hne].
  - specialize (Hk key). unfold key_rep in *. rewrite Hm in Hk.
    rewrite get_kv_metadata_insert, latest_same by eauto with coord.
    destruct Hk as ((H0 & H1) & H2 & _). split; [by split; [|apply touched_pending_snoc]|]. split.
    + intros T HT. rewrite pending_same by done. destruct (rev <=? T); [done|]. by apply H2.
    + split; [done|]. simpl. rewrite u64_i64_u64 by done. intros T HT.
      rewrite pending_same by done. by rewrite (proj2 (Z.leb_le _ _) HT).
  - eapply pending_other; [|..|apply Hk]; [by apply not_eq_sym| |].
    + by apply get_kv_metadata_insert_ne.
    + by apply tx_get_insert_ne.
Qed.

(** A delete of a key that does not exist changes no row. *)
Lemma pending_delete_absent d cs key :
  latest (h ++ [pending rev t cs]) key = None ->
  rep d cs -> rep d (cs ++ [delete_change key]).
Proof.
  intros Hl Hk key'. destruct (decide (key' = key)) as [->|Hne].
  - specialize (Hk key). unfold key_rep in *. rewrite latest_same by done. rewrite Hl in Hk.
    eapply key_ok_mono; [..|exact Hk]; [lia|done| |].
    + intros T E. rewrite pending_same, E by done. by destruct (_ <=? _).
    + intros. by apply touched_pending_snoc.
  - eapply pending_other; [|..|apply Hk]; [by apply not_eq_sym|done..].
Qed.

End pending.

(** ** The representation of the store *)

Definition event_row (e : ChangeEvent) : row :=
  (encode_changelog_key (revision e), event_to_bytes e).

(** The part of the history the change log has kept. *)
Definition retained (from : Z) (h : history) : history :=
  List.filter (fun e => from <=? revision e) h.

(** Compaction to a revision keeps the event at that revision; an imported range
    starts without one. *)
Definition log_from (d : db) : Z :=
  if (compacted_revision d =? 0) || changelog_contains_revision d (compacted_revision d)
  then compacted_revision d else compacted_revision d + 1.

Lemma log_from_bounds d :
  compacted_revision d <= log_from d <= compacted_revision d + 1 /\
  (compacted_revision d = 0 -> log_from d = 0).
Proof.
  unfold log_from. destruct (Z.eqb_spec (compacted_revision d) 0) as [->|];
    destruct (changelog_contains_revision _ _); simpl; lia.
Qed.

Lemma log_from_same d d' :
  same_table TABLE_CHANGELOG d' d -> compacted_revision d' = compacted_revision d ->
  log_from d' = log_from d.
Proof.
  intros Hl Hc. unfold log_from, changelog_contains_revision. rewrite Hc. by rewrite Hl.
Qed.


(** Writing an event above the compacted revision does not move the start. *)
Lemma log_from_append d d2 d' e :
  in_u64 (revision e) -> compacted_revision d < revision e ->
  compacted_revision d' = compacted_revision d -> same_table TABLE_CHANGELOG d2 d ->
  same_table TABLE_CHANGELOG d' (insert_event e d2) -> log_from d' = log_from d.
Proof.
  intros Hu Hlt Hc H2 Hl. unfold log_from, changelog_contains_revision. rewrite Hc. do 2 f_equal.
  rewrite (Hl (encode_changelog_key _)). unfold insert_event.
  rewrite tx_get_insert_ne; [by rewrite H2|].
  intros E. apply (f_equal snd) in E. simpl in E.
  apply encode_changelog_key_inj in E; [lia|done|apply compacted_revision_range].
Qed.

Record mvcc_rep (s : MvccStorage) (d : db) (h : history) : Prop := {
  rep_sorted : StronglySorted event_lt h;
  rep_wf : Forall event_wf h;
  rep_le : Forall (fun e => revision e <= current_revision s d) h;
  rep_comp : compacted_revision d <= current_revision s d;
  rep_log : changelog_rows d = event_row <$> retained (log_from d) h;
  rep_keys : keys_rep s d (compacted_revision d) (current_revision s d) h }.

Lemma events_u64 l : Forall event_wf l -> Forall (fun e => in_u64 (revision e)) l.
Proof. apply List.Forall_impl. by intros e [? _]. Qed.

Lemma event_rows_sorted l :
  Forall event_wf l -> StronglySorted event_lt l -> StronglySorted row_lt (event_row <$> l).
Proof.
  intros Hw%events_u64 Hs.
  exact (keyed_rows_sorted CHANGELOG_PREFIX revision event_to_bytes l (conj Hw Hs)).
Qed.

Lemma changelog_lookup d l rev :
  in_u64 rev -> Forall event_wf l -> changelog_rows d = event_row <$> l ->
  tx_get d TABLE_CHANGELOG (encode_changelog_key rev) =
  event_to_bytes <$> List.find (fun e => revision e =? rev) l.
Proof.
  intros Hr Hw%events_u64 Hlog.
  exact (keyed_lookup TABLE_CHANGELOG CHANGELOG_PREFIX revision event_to_bytes d l rev Hr Hw Hlog).
Qed.

(** A log that keeps the event at the compacted revision, if there is one. *)
Lemma log_from_compacted d h :
  Forall event_wf h -> changelog_rows d = event_row <$> retained (compacted_revision d) h ->
  changelog_rows d = event_row <$> retained (log_from d) h.
Proof.
  intros Hw Hlog. unfold log_from. destruct (compacted_revision d =? 0); [done|]. simpl.
  destruct (changelog_contains_revision _ _) eqn:Ec; [done|]. rewrite Hlog. f_equal.
  assert (Forall event_wf (retained (compacted_revision d) h)) as Hr.
  { rewrite Forall_forall in *. intros e [_ He]%elem_of_List_filter. auto. }
  unfold changelog_contains_revision in Ec. apply bool_decide_eq_false in Ec.
  rewrite (changelog_lookup d _ _ (compacted_revision_range d) Hr Hlog), fmap_is_Some in Ec.
  apply List.filter_ext_in. intros e He.
  destruct (Z.leb_spec (compacted_revision d) (revision e)), (Z.leb_spec
    (compacted_revision d + 1) (revision e)); try done; [|lia].
  destruct Ec. destruct (List.find _ _) as [e'|] eqn:Ef; [done|].
  assert (revision e =? compacted_revision d = false) as Hn%Z.eqb_neq; [|lia].
  apply (List.find_none _ _ Ef), List.filter_In. split; [done|]. by apply Z.leb_le.
Qed.

(** Appending an event with a new highest revision. *)
Lemma changelog_append d l e :
  event_wf e -> Forall event_wf l -> StronglySorted event_lt l ->
  Forall (fun e' => revision e' < revision e) l ->
  changelog_rows d = event_row <$> l ->
  changelog_rows (insert_event e d) = event_row <$> (l ++ [e]).
Proof.
  intros He Hw%events_u64 Hs Hlt Hlog.
  exact (keyed_append TABLE_CHANGELOG CHANGELOG_PREFIX revision event_to_bytes d l e
    (conj Hw Hs) (proj1 He) Hlt Hlog).
Qed.

(** Operations on system rows that do not move the revision back keep the
    representation. *)
Lemma mvcc_rep_frame s d d' h :
  (forall key, tx_get d' TABLE_KV (encode_kv_key key) = tx_get d TABLE_KV (encode_kv_key key)) ->
  same_table TABLE_KV_META d' d -> same_table TABLE_CHANGELOG d' d ->
  compacted_revision d' = compacted_revision d ->
  current_revision s d <= current_revision s d' ->
  mvcc_rep s d h -> mvcc_rep s d' h.
Proof.
  intros H1 H2 H3 Hc Hr [G1 G2 G3 G4 G5 G6]. split; rewrite ?Hc; [done|done| |lia| |].
  - eapply List.Forall_impl; [|exact G3]. intros e He. exact (Z.le_trans _ _ _ He Hr).
  - rewrite (log_from_same d d') by done. rewrite <-G5. by apply iter_prefix_same.
  - eapply keys_rep_mono; [exact Hr|]. by eapply keys_rep_frame.
Qed.

(** A key-table row outside the user key space. *)
Lemma kv_key_frame p y v d key :
  diverge KV_PREFIX p = true ->
  tx_get (tx_insert TABLE_KV (p ++ y) v d) TABLE_KV (encode_kv_key key) =
  tx_get d TABLE_KV (encode_kv_key key).
Proof.
  intros Hd. apply tx_get_insert_ne. intros E. apply (f_equal snd) in E. simpl in E.
  by apply (kv_key_neq p key y).
Qed.

Lemma kv_key_frame_remove p y d key :
  diverge KV_PREFIX p = true ->
  tx_get (tx_remove TABLE_KV (p ++ y) d) TABLE_KV (encode_kv_key key) =
  tx_get d TABLE_KV (encode_kv_key key).
Proof.
  intros Hd. apply tx_get_remove_ne. intros E. apply (f_equal snd) in E. simpl in E.
  by apply (kv_key_neq p key y).
Qed.
