(* ===== verification/SysRows.v ===== *)
(** * System rows

    The key table also holds the rows of the system components, each under a
    prefix of its own.  An operation is framed by the prefixes it writes. *)

From S2P Require Export KeyedLog MvccSpec.

Local Open Scope Z_scope.

(** [d'] differs from [d] at most in rows of the key table under [ps]. *)
Definition touches (ps : list bytes) (d d' : db) : Prop :=
  forall t k, t <> TABLE_KV \/ Forall (fun p => starts_with k p = false) ps ->
    tx_get d' t k = tx_get d t k.

#[export] Instance touches_preorder ps : PreOrder (touches ps).
Proof.
  split; [done|]. intros d1 d2 d3 H1 H2 t k Hk. by rewrite H2, H1.
Qed.

Lemma touches_mono ps ps' d d' : ps ⊆ ps' -> touches ps d d' -> touches ps' d d'.
Proof.
  intros Hs H t k [Ht|Hk]; apply H; [by left|right]. rewrite Forall_forall in *. auto.
Qed.

Lemma touches_insert ps p x v d : p ∈ ps -> touches ps d (tx_insert TABLE_KV (p ++ x) v d).
Proof.
  intros Hp t k Hk. unfold tx_get, tx_insert. rewrite lookup_insert_ne; [done|].
  intros [= <- <-]. destruct Hk as [?|Hk]; [done|]. rewrite Forall_forall in Hk.
  specialize (Hk p Hp). by rewrite starts_with_app in Hk.
Qed.

Lemma touches_insert_key ps k v d : k ∈ ps -> touches ps d (tx_insert TABLE_KV k v d).
Proof. intros Hk. rewrite <-(app_nil_r k). by apply touches_insert. Qed.

Lemma touches_remove ps p x d : p ∈ ps -> touches ps d (tx_remove TABLE_KV (p ++ x) d).
Proof.
  intros Hp t k Hk. unfold tx_get, tx_remove. rewrite lookup_delete_ne; [done|].
  intros [= <- <-]. destruct Hk as [?|Hk]; [done|]. rewrite Forall_forall in Hk.
  specialize (Hk p Hp). by rewrite starts_with_app in Hk.
Qed.

Lemma diverge_starts_with p q x : diverge p q = true -> starts_with (p ++ x) q = false.
Proof.
  intros Hd. apply not_true_iff_false. intros [r E]%starts_with_spec. by eapply diverge_neq.
Qed.

Lemma touches_get ps d d' p x :
  touches ps d d' -> forallb (diverge p) ps = true ->
  tx_get d' TABLE_KV (p ++ x) = tx_get d TABLE_KV (p ++ x).
Proof.
  intros H Hd. apply H. right. rewrite Forall_forall. intros q Hq%list_elem_of_In.
  apply diverge_starts_with. rewrite forallb_forall in Hd. by apply Hd.
Qed.

Lemma touches_get_key ps d d' k :
  touches ps d d' -> forallb (diverge k) ps = true -> tx_get d' TABLE_KV k = tx_get d TABLE_KV k.
Proof. intros H Hd. rewrite <-(app_nil_r k). by eapply touches_get. Qed.

Lemma touches_same_table ps d d' t : touches ps d d' -> t <> TABLE_KV -> same_table t d' d.
Proof. intros H Ht k. apply H. by left. Qed.

Lemma iter_prefix_agree t d d' p :
  (forall x, tx_get d' t (p ++ x) = tx_get d t (p ++ x)) -> iter_prefix d' t p = iter_prefix d t p.
Proof.
  intros H. apply iter_prefix_unique; [apply iter_prefix_sorted|]. intros k v.
  rewrite elem_of_iter_prefix. split; intros [Hv [r ->]]; (split; [|by eauto]); revert Hv;
    specialize (H r); unfold tx_get in H; congruence.
Qed.

Lemma touches_iter_prefix ps d d' p :
  touches ps d d' -> forallb (diverge p) ps = true ->
  iter_prefix d' TABLE_KV p = iter_prefix d TABLE_KV p.
Proof. intros H Hd. apply iter_prefix_agree. intros x. by eapply touches_get. Qed.

(** [d'] and [d] have the same rows under [ps]. *)
Definition agree (ps : list bytes) (d d' : db) : Prop :=
  forall p x, p ∈ ps -> tx_get d' TABLE_KV (p ++ x) = tx_get d TABLE_KV (p ++ x).

Lemma touches_agree ps qs d d' :
  touches ps d d' -> forallb (fun q => forallb (diverge q) ps) qs = true -> agree qs d d'.
Proof.
  intros Ht Hd q x Hq%list_elem_of_In. rewrite forallb_forall in Hd. by eapply touches_get, Hd.
Qed.

Lemma same_table_agree ps d d' : same_table TABLE_KV d' d -> agree ps d d'.
Proof. intros H p x _. apply H. Qed.

Lemma agree_mono ps qs d d' : qs ⊆ ps -> agree ps d d' -> agree qs d d'.
Proof. intros Hs H p x Hp. apply H. by apply Hs. Qed.

Lemma agree_key ps d d' k :
  agree ps d d' -> k ∈ ps -> tx_get d' TABLE_KV k = tx_get d TABLE_KV k.
Proof. intros H Hk. rewrite <-(app_nil_r k). by apply H. Qed.

Lemma agree_iter_prefix ps d d' p :
  agree ps d d' -> p ∈ ps -> iter_prefix d' TABLE_KV p = iter_prefix d TABLE_KV p.
Proof. intros H Hp. apply iter_prefix_agree. intros x. by apply H. Qed.

(** The representation of the keys does not depend on system rows. *)
Lemma touches_mvcc_rep ps s d d' h :
  touches ps d d' -> forallb (diverge KV_PREFIX) ps = true -> mvcc_rep s d h -> mvcc_rep s d' h.
Proof.
  intros H Hd. apply mvcc_rep_frame.
  - intros key. by eapply touches_get.
  - by eapply touches_same_table.
  - by eapply touches_same_table.
  - apply compacted_revision_proper. by eapply touches_same_table.
  - rewrite (current_revision_proper s d' d); [done|]. by eapply touches_same_table.
Qed.

#[export] Hint Resolve touches_insert touches_insert_key touches_remove : coord.
