(* ===== verification/MvccRefine.v ===== *)
(** * The handlers refine the history

    Each handler that writes keys, from a store that represents a history, either
    leaves the store alone or extends the history by the event it promises; the
    readers return what the history says. *)

From S2P Require Export MvccSpec.

Local Open Scope Z_scope.

(** ** Frames *)

(** The change touches only the key and key-metadata tables. *)
Definition keys_only (d d' : db) : Prop :=
  forall t, t <> TABLE_KV -> t <> TABLE_KV_META -> same_table t d' d.

#[export] Instance keys_only_refl : Reflexive keys_only.
Proof. intros d t _ _. reflexivity. Qed.
#[export] Instance keys_only_trans : Transitive keys_only.
Proof. intros d1 d2 d3 H1 H2 t ? ?. rewrite (H2 t) by done. by apply H1. Qed.

Lemma keys_only_insert_metadata key m d : keys_only d (insert_metadata key m d).
Proof. intros t ? ?. by apply same_table_insert. Qed.
#[export] Hint Resolve keys_only_insert_metadata : coord.

Lemma keys_only_write_key s key v lid rev d d' :
  write_key s key v lid rev d = Ok d' -> keys_only d d'.
Proof.
  unfold write_key. intros. inv_bind. intros t ? ?. unfold insert_metadata. frame.
Qed.

(** ** Committing an event *)

Lemma current_revision_commit s rev d d2 e a :
  in_u64 rev -> same_table TABLE_META d2 (set_current_revision rev d) ->
  current_revision s (insert_last_applied a (insert_event e d2)) = rev.
Proof.
  intros Hr Hm. apply current_revision_last_applied. unfold insert_event.
  rewrite tx_get_insert_ne by done. rewrite Hm. unfold set_current_revision.
  rewrite tx_get_insert. by apply decode_u64_be64.
Qed.

Lemma compacted_revision_commit rev d d2 e a :
  same_table TABLE_META d2 (set_current_revision rev d) ->
  compacted_revision (insert_last_applied a (insert_event e d2)) = compacted_revision d.
Proof.
  intros Hm. rewrite compacted_revision_last_applied.
  rewrite <-(compacted_revision_set_current rev d), <-Hm.
  apply compacted_revision_proper. by apply same_table_insert.
Qed.

Lemma retained_snoc comp h e :
  comp <= revision e -> retained comp (h ++ [e]) = retained comp h ++ [e].
Proof.
  intros H. unfold retained. rewrite List.filter_app. simpl.
  by rewrite (proj2 (Z.leb_le _ _) H).
Qed.

Lemma retained_Forall (P : ChangeEvent -> Prop) comp h : Forall P h -> Forall P (retained comp h).
Proof.
  rewrite !Forall_forall. intros H e [_ He]%elem_of_List_filter. by apply H.
Qed.

Section commit.
  Context (s : MvccStorage) (d : db) (h : history) (rev : Z) (policy : RevisionPolicy).
  Context (Hrep : mvcc_rep s d h) (Hrev : in_u64 rev).
  Context (Hchecked : revision_checked s policy = true).

(** A transaction body: the revision is accepted, the keys are changed and the
    event is written. *)
Lemma commit_event d1 d2 e a :
  accept_revision s d rev policy = Ok d1 -> keys_only d1 d2 ->
  revision e = rev -> event_wf e ->
  keys_rep s d2 (compacted_revision d) rev (h ++ [e]) ->
  let d' := insert_last_applied a (insert_event e d2) in
  mvcc_rep s d' (h ++ [e]) /\ current_revision s d' = rev.
Proof.
  intros [Hlt ->]%accept_revision_Ok Ho He Hw Hk; [|done].
  assert (same_table TABLE_META d2 (set_current_revision rev d)) as Hm by (by apply Ho).
  assert (same_table TABLE_CHANGELOG d2 d) as Hc.
  { rewrite (Ho TABLE_CHANGELOG) by done. by apply same_table_insert. }
  assert (current_revision s (insert_last_applied a (insert_event e d2)) = rev) as Hcur
    by (by eapply current_revision_commit).
  assert (compacted_revision (insert_last_applied a (insert_event e d2)) = compacted_revision d)
    as Hcomp by (by eapply compacted_revision_commit).
  destruct Hrep as [Hs Hwf Hle Hco Hlog Hkeys].
  split; [|done]. split; rewrite ?Hcur, ?Hcomp.
  - apply StronglySorted_snoc; [done|]. eapply List.Forall_impl; [|exact Hle].
    intros e' ?. unfold event_lt. simpl in *. lia.
  - by rewrite Forall_app, Forall_singleton.
  - rewrite Forall_app, Forall_singleton. split; [|lia].
    eapply List.Forall_impl; [|exact Hle]. simpl. lia.
  - lia.
  - assert (compacted_revision d < revision e) as Hce by lia.
    rewrite (log_from_append d d2 _ e (proj1 Hw) Hce Hcomp Hc) by (by apply same_table_insert).
    pose proof (log_from_bounds d). rewrite retained_snoc by lia.
    transitivity (changelog_rows (insert_event e d2)).
    { by apply iter_prefix_same, same_table_insert. }
    apply changelog_append; [done|by apply retained_Forall| | |].
    + by apply StronglySorted_List_filter.
    + apply retained_Forall. eapply List.Forall_impl; [|exact Hle]. simpl. lia.
    + rewrite <-Hlog. by apply iter_prefix_same.
  - eapply keys_rep_same; [| |exact Hk]; intros k; symmetry;
      unfold insert_last_applied, insert_event; by rewrite !tx_get_insert_ne.
Qed.

(** The state in which the body of a transaction starts. *)
Lemma accept_pending d1 t :
  accept_revision s d rev policy = Ok d1 ->
  keys_rep s d1 (compacted_revision d) rev (h ++ [pending rev t []]) /\
  current_revision s d < rev.
Proof.
  intros [Hlt ->]%accept_revision_Ok; [|done]. split; [|done].
  apply (pending_start _ _ _ _ _ _ (current_revision s d)); [lia|].
  eapply keys_rep_same; [| |apply (rep_keys _ _ _ Hrep)]; intros k; symmetry;
    by apply tx_get_insert_ne.
Qed.

End commit.

(** ** Point reads *)

(** A point read returns the latest value of the key. *)
Lemma get_latest s d h key : mvcc_rep s d h -> get s d key = Ok (latest h key).
Proof.
  intros Hrep. pose proof (rep_keys _ _ _ Hrep key) as Hk. unfold key_rep, key_ok in Hk.
  unfold get, is_deleted. destruct (get_kv_metadata d key) as [m|].
  - cbn [fmap option_fmap option_map default from_option].
    destruct Hk as (_ & _ & Hk). destruct (deleted m).
    + destruct Hk as [-> _]. by destruct (tx_get _ _ _).
    + destruct Hk as (raw & v & -> & Hp & ->). by rewrite Hp.
  - by destruct Hk as (-> & -> & _).
Qed.

(** Whether a key is live can be read off its metadata. *)
Lemma live_metadata s d comp hi h key :
  key_rep s d comp hi h key ->
  (exists m, get_kv_metadata d key = Some m /\ deleted m = false) <-> is_Some (latest h key).
Proof.
  unfold key_rep, key_ok. destruct (get_kv_metadata d key) as [m|].
  - intros (_ & _ & Hk). destruct (deleted m) eqn:E.
    + destruct Hk as [-> _]. split; [intros (m' & [= <-] & ?); congruence|by intros []].
    + destruct Hk as (? & ? & _ & _ & ->). split; [done|]. intros _. by exists m.
  - intros (_ & -> & _). split; [by intros (m' & ? & ?)|by intros []].
Qed.

(** ** Put and delete *)

Definition rep_barrier (s : MvccStorage) : Prop :=
  forall br, barrier s = Some br -> BarrierLaws br.

Definition put_event (key value : bytes) (rev : Z) : ChangeEvent :=
  {| revision := rev; changes := [put_change key value]; event_type := EvPut |}.

Definition delete_event (keys : list bytes) (rev : Z) : ChangeEvent :=
  {| revision := rev; changes := delete_change <$> keys; event_type := EvDelete |}.

Section point_writes.
  Context (s : MvccStorage) (d : db) (h : history) (rev : Z) (policy : RevisionPolicy).
  Context (Hrep : mvcc_rep s d h) (Hrev : in_u64 rev) (Hbar : rep_barrier s).
  Context (Hchecked : revision_checked s policy = true).

Lemma put_in_tx_rep key value lid a out d' :
  in_i64 lid -> event_wf (put_event key value rev) ->
  put_in_tx s key value lid rev a policy d = Ok (out, d') ->
  out = applied_outcome /\ current_revision s d < rev /\
  mvcc_rep s d' (h ++ [put_event key value rev]) /\ current_revision s d' = rev.
Proof.
  intros Hl Hw H. unfold put_in_tx in H. inv_bind. split; [done|].
  destruct (accept_pending _ _ _ _ _ Hrep Hchecked _ EvPut H) as [Hk Hlt]. split; [done|].
  eapply (commit_event s d h rev policy); try done.
  - by eapply keys_only_write_key.
  - by eapply (pending_write s _ rev h EvPut Hrev Hbar _ _ []).
Qed.

Lemma delete_in_tx_rep key a out d' :
  event_wf (delete_event [key] rev) ->
  delete_in_tx s key rev a policy d = Ok (out, d') ->
  out = applied_outcome /\ current_revision s d < rev /\
  mvcc_rep s d' (h ++ [delete_event [key] rev]) /\ current_revision s d' = rev.
Proof.
  intros Hw H. unfold delete_in_tx in H. inv_bind. split; [done|].
  destruct (accept_pending _ _ _ _ _ Hrep Hchecked _ EvDelete H) as [Hk Hlt]. split; [done|].
  eapply (commit_event s d h rev policy); try done; unfold tombstone_live.
  - destruct (get_kv_metadata x key) as [m|]; [destruct (deleted m)|]; auto with coord; reflexivity.
  - destruct (get_kv_metadata x key) as [m|] eqn:Em.
    + destruct (deleted m) eqn:Ed.
      * apply (pending_delete_absent s _ rev h EvDelete _ []); [|done].
        specialize (Hk key). unfold key_rep, key_ok in Hk. rewrite Em, Ed in Hk. apply Hk.
      * by apply (pending_tombstone s _ rev h EvDelete Hrev _ []).
    + apply (pending_delete_absent s _ rev h EvDelete _ []); [|done].
      specialize (Hk key). unfold key_rep, key_ok in Hk. rewrite Em in Hk. apply Hk.
Qed.

End point_writes.

(** ** The replay guard *)

Lemma changelog_event_at_rep s d h rev :
  mvcc_rep s d h -> in_u64 rev ->
  changelog_event_at d rev =
  Ok (List.find (fun e => revision e =? rev) (retained (log_from d) h)).
Proof.
  intros Hrep Hr. unfold changelog_event_at.
  assert (Forall event_wf (retained (log_from d) h)) as Hw
    by (apply retained_Forall, (rep_wf _ _ _ Hrep)).
  rewrite (changelog_lookup d _ rev Hr Hw (rep_log _ _ _ Hrep)).
  destruct (List.find _ _) as [e|] eqn:E; [|done]. simpl.
  rewrite event_decode_encode; [done|].
  apply List.find_some in E as [He _]. rewrite Forall_forall in Hw. by apply Hw, list_elem_of_In.
Qed.

Lemma changelog_contains_rep s d h rev :
  mvcc_rep s d h -> in_u64 rev ->
  changelog_contains_revision d rev =
  bool_decide (is_Some (List.find (fun e => revision e =? rev)
                          (retained (log_from d) h))).
Proof.
  intros Hrep Hr. unfold changelog_contains_revision.
  rewrite (changelog_lookup d _ rev Hr ltac:(apply retained_Forall, (rep_wf _ _ _ Hrep))
    (rep_log _ _ _ Hrep)).
  apply bool_decide_ext. by rewrite fmap_is_Some.
Qed.

Lemma find_retained s d h rev e :
  mvcc_rep s d h ->
  List.find (fun e => revision e =? rev) (retained (log_from d) h) = Some e ->
  e ∈ h /\ revision e = rev /\ rev <= current_revision s d.
Proof.
  intros Hrep [He Hr%Z.eqb_eq]%List.find_some.
  apply list_elem_of_In, elem_of_List_filter in He as [_ He].
  split; [done|]. split; [done|]. pose proof (rep_le _ _ _ Hrep) as Hle.
  rewrite Forall_forall in Hle. rewrite <-Hr. by apply Hle.
Qed.

(** What a guarded handler does, given what its transaction body does. *)
Lemma replay_guard_rep {A : Type} s d h rev policy same (rp : A) f :
  mvcc_rep s d h -> in_u64 rev ->
  (replay_guard s d rev policy same rp f = (Ok rp, d) /\
   exists e, e ∈ h /\ revision e = rev /\ (policy = PolicyCommitTs -> same e = true)) \/
  (replay_guard s d rev policy same rp f
     = (Err (CommitRejected rev (current_revision s d)), d) /\ rev <= current_revision s d) \/
  replay_guard s d rev policy same rp f = backend_write d f.
Proof.
  intros Hrep Hr. unfold replay_guard. destruct policy.
  - rewrite (changelog_contains_rep s d h) by done. case_bool_decide as Hf; [|by auto].
    destruct Hf as [e He]. left. split; [done|]. exists e.
    by destruct (find_retained _ _ _ _ _ Hrep He) as (? & ? & _).
  - rewrite (changelog_event_at_rep s d h) by done.
    destruct (List.find _ _) as [e|] eqn:He; [|by auto].
    destruct (find_retained _ _ _ _ _ Hrep He) as (? & ? & ?).
    destruct (same e) eqn:Hs; [left|right; left]; [|done]. split; [done|]. by exists e.
Qed.

Lemma accept_revision_Err s d rev policy e :
  accept_revision s d rev policy = Err e ->
  e = CommitRejected rev (current_revision s d) /\ rev <= current_revision s d.
Proof.
  unfold accept_revision, accept_log_index_revision, accept_commit_ts, current_revision.
  destruct policy; [case_decide; [done|]|];
    destruct (Z.leb_spec rev (current_revision_in_tx d (revision_mode s))); naive_solver.
Qed.

(** Put refines the history.  From a store that represents a history, a
    put either applies and appends exactly its event (at a revision above the
    current one, which becomes the current one), or recognises its own replay,
    or fails; in the last two cases the store is untouched.  It fails only when
    the revision is taken or the encryption barrier fails. *)
Theorem put_at_key_refines s d h key value lease rev a policy :
  mvcc_rep s d h -> rep_barrier s -> revision_checked s policy = true ->
  in_u64 rev -> in_i64 (default 0 lease) -> event_wf (put_event key value rev) ->
  match put_at_key s d key value lease rev a policy with
  | (Ok false, d') => current_revision s d < rev /\
      mvcc_rep s d' (h ++ [put_event key value rev]) /\ current_revision s d' = rev
  | (Ok true, d') => d' = d /\ exists e, e ∈ h /\ revision e = rev /\
      (policy = PolicyCommitTs -> changes e = [put_change key value])
  | (Err e, d') => d' = d /\
      ((e = CommitRejected rev (current_revision s d) /\ rev <= current_revision s d) \/
       encrypt_value s (encode_kv_key key) value = Err e)
  end.
Proof.
  intros Hrep Hb Hc Hr Hl Hw. unfold put_at_key.
  destruct (replay_guard_rep s d h rev policy (put_same key value) replayed_outcome
    (put_in_tx s key value (default 0 lease) rev a policy) Hrep Hr)
    as [[-> (e & ? & ? & Hs)]|[[-> ?]| ->]]; simpl.
  - split; [done|]. exists e. split; [done|]. split; [done|]. intros ->.
    specialize (Hs eq_refl). unfold put_same in Hs.
    destruct (changes e) as [|[k v] [|]]; try done.
    apply andb_true_iff in Hs as [?%bool_decide_eq_true ?%bool_decide_eq_true].
    simpl in *. by subst.
  - by auto.
  - unfold backend_write. destruct (put_in_tx _ _ _ _ _ _ _ _) as [[out d']|e] eqn:E.
    + by destruct (put_in_tx_rep s d h rev policy Hrep Hr Hb Hc _ _ _ _ _ _ Hl Hw E)
        as (-> & ? & ? & ?).
    + split; [done|]. unfold put_in_tx in E.
      destruct (accept_revision s d rev policy) as [d1|e1] eqn:Ea; simpl in E.
      * right. unfold write_key in E.
        destruct (encrypt_value _ _ _); simpl in E; [done|congruence].
      * injection E as ->. left. by eapply accept_revision_Err.
Qed.

(** Delete refines the history.  A delete appends exactly one deletion
    event (also when the key does not exist), or recognises its replay, or is
    rejected because its revision is taken; in the last two cases the store is
    untouched. *)
Theorem delete_at_key_refines s d h key rev a policy :
  mvcc_rep s d h -> revision_checked s policy = true ->
  in_u64 rev -> event_wf (delete_event [key] rev) ->
  match delete_at_key s d key rev a policy with
  | (Ok false, d') => current_revision s d < rev /\
      mvcc_rep s d' (h ++ [delete_event [key] rev]) /\ current_revision s d' = rev
  | (Ok true, d') => d' = d /\ exists e, e ∈ h /\ revision e = rev /\
      (policy = PolicyCommitTs -> changes e = [delete_change key])
  | (Err e, d') => d' = d /\
      e = CommitRejected rev (current_revision s d) /\ rev <= current_revision s d
  end.
Proof.
  intros Hrep Hc Hr Hw. unfold delete_at_key.
  destruct (replay_guard_rep s d h rev policy (delete_same key) replayed_outcome
    (delete_in_tx s key rev a policy) Hrep Hr)
    as [[-> (e & ? & ? & Hs)]|[[-> ?]| ->]]; simpl.
  - split; [done|]. exists e. split; [done|]. split; [done|]. intros ->.
    specialize (Hs eq_refl). unfold delete_same in Hs.
    destruct (changes e) as [|[k v] [|]]; try done.
    apply andb_true_iff in Hs as [?%bool_decide_eq_true ?%bool_decide_eq_true].
    simpl in *. by subst.
  - by auto.
  - unfold backend_write. destruct (delete_in_tx _ _ _ _ _ _) as [[out d']|e] eqn:E.
    + by destruct (delete_in_tx_rep s d h rev policy Hrep Hr Hc _ _ _ _ Hw E)
        as (-> & ? & ? & ?).
    + split; [done|]. unfold delete_in_tx in E.
      destruct (accept_revision s d rev policy) as [d1|e1] eqn:Ea; simpl in E; [done|].
      injection E as ->. by eapply accept_revision_Err.
Qed.
