(* ===== verification/MvccRange.v ===== *)
(** * Ranges and transactions refine the history

    Range reads return the live keys of an interval in order; range deletes,
    deletes by lease and transactions append the one event that lists their
    changes. *)

From S2P Require Export MvccRefine.

Local Open Scope Z_scope.

(** ** The rows of an interval of keys *)

Definition kv_rows (d : db) (start range_end : bytes) : list row :=
  iter_range d TABLE_KV (encode_kv_key start) (encode_kv_key range_end).

(** A row of the key table, with its user key below [range_end]. *)
Definition kv_row_ok (d : db) (range_end : bytes) (r : row) : Prop :=
  exists k, r.1 = encode_kv_key k /\ tx_get d TABLE_KV r.1 = Some r.2 /\
    (range_end = [] \/ bytes_lt k range_end).

Lemma elem_of_kv_rows d start range_end ik v :
  (ik, v) ∈ kv_rows d start range_end <->
  exists k, ik = encode_kv_key k /\ tx_get d TABLE_KV ik = Some v /\
    bytes_le start k /\ bytes_lt k range_end.
Proof.
  unfold kv_rows. rewrite elem_of_iter_range. unfold in_range, tx_get.
  rewrite andb_true_iff. change (bytes_eqb (encode_kv_key range_end) []) with false. rewrite orb_false_l. split.
  - intros (Hv & H1 & H2). destruct (between_prefix _ _ _ _ H1 H2) as [k ->]. exists k.
    split; [done|]. split; [done|]. unfold encode_kv_key in H1, H2.
    rewrite bytes_leb_app_r in H1. rewrite bytes_lt_app_r in H2. done.
  - intros (k & -> & Hv & H1 & H2). split; [done|]. unfold encode_kv_key.
    by rewrite bytes_leb_app_r, bytes_lt_app_r.
Qed.

Lemma kv_rows_ok d start range_end : Forall (kv_row_ok d range_end) (kv_rows d start range_end).
Proof.
  rewrite Forall_forall. intros [ik v] (k & -> & Hv & _ & ?)%elem_of_kv_rows.
  exists k. by auto.
Qed.

Lemma iter_prefix_kv_ok d prefix :
  Forall (kv_row_ok d []) (iter_prefix d TABLE_KV (encode_kv_key prefix)).
Proof.
  rewrite Forall_forall. intros [ik v] [Hv [r ->]]%elem_of_iter_prefix.
  exists (prefix ++ r). split; [|by auto]. unfold encode_kv_key. by rewrite app_assoc.
Qed.

(** The live keys among some rows. *)
Definition live_pair (h : history) (r : row) : option (bytes * bytes) :=
  k ← decode_kv_key r.1; v ← latest h k; Some (k, v).

Definition pair_lt (x y : bytes * bytes) : Prop := bytes_lt x.1 y.1.

Lemma live_pair_encode h k v :
  live_pair h (encode_kv_key k, v) = pair k <$> latest h k.
Proof. unfold live_pair. cbn [fst]. rewrite decode_encode_kv_key. cbn. by destruct (latest h k). Qed.

Lemma live_pairs_sorted h d range_end rows :
  Forall (kv_row_ok d range_end) rows -> StronglySorted row_lt rows ->
  StronglySorted pair_lt (omap (live_pair h) rows).
Proof.
  intros Hok. induction 1 as [|[ik v] rows Hs IH Hlt]; [constructor|].
  apply Forall_cons in Hok as [(k & Ek & _) Hok]. simpl in Ek. subst ik. simpl.
  rewrite live_pair_encode. destruct (latest h k) as [x|]; simpl; [|by apply IH].
  constructor; [by apply IH|]. rewrite Forall_forall in *.
  intros [k' x'] ([ik' v'] & Hin & E)%list_elem_of_omap.
  destruct (Hok _ Hin) as (k'' & Ek & _). simpl in Ek. subst ik'.
  rewrite live_pair_encode in E. destruct (latest h k''); [|done]. injection E as <- <-.
  specialize (Hlt _ Hin).
  change (bytes_ltb (encode_kv_key k) (encode_kv_key k'') = true) in Hlt.
  by rewrite encode_kv_key_lt in Hlt.
Qed.

(** ** Range reads *)

(** Stop after [limit] results, [n] of which are already collected. *)
Definition take_rest {A : Type} (limit n : nat) (l : list A) : list A :=
  if (limit =? 0)%nat then l else take (limit - n) l.

Lemma take_rest_cons {A : Type} limit n (x : A) l :
  (limit <=? n)%nat && (0 <? limit)%nat = false ->
  take_rest limit n (x :: l) = x :: take_rest limit (S n) l.
Proof.
  unfold take_rest. destruct (Nat.eqb_spec limit 0); [done|].
  intros H. destruct (Nat.leb_spec limit n); [destruct (Nat.ltb_spec 0 limit); simpl in H; [done|lia]|].
  replace (limit - n)%nat with (S (limit - S n)) by lia. done.
Qed.

Lemma range_loop_live s d comp hi h range_end limit n rows :
  keys_rep s d comp hi h -> Forall (kv_row_ok d range_end) rows ->
  range_loop s d range_end limit n rows = Ok (take_rest limit n (omap (live_pair h) rows)).
Proof.
  intros Hk. revert n. induction rows as [|[ik v] rows IH]; intros n Hok; simpl.
  { unfold take_rest. destruct (limit =? 0)%nat; [done|]. by rewrite take_nil. }
  apply Forall_cons in Hok as [(k & Ek & Hv & Hend) Hok]. simpl in Ek, Hv. subst ik.
  destruct ((limit <=? n)%nat && (0 <? limit)%nat) eqn:Hlim.
  { apply andb_true_iff in Hlim as [H1%Nat.leb_le H2%Nat.ltb_lt]. unfold take_rest.
    destruct (Nat.eqb_spec limit 0); [lia|]. replace (limit - n)%nat with 0%nat by lia.
    by rewrite take_0. }
  rewrite decode_encode_kv_key, live_pair_encode.
  assert (negb (bytes_eqb range_end []) && bytes_leb range_end k = false) as ->.
  { destruct Hend as [->|Hlt]; [done|]. unfold bytes_leb. unfold bytes_lt in Hlt. rewrite Hlt.
    by rewrite andb_false_r. }
  specialize (Hk k). unfold key_rep, key_ok in Hk.
  destruct (get_kv_metadata d k) as [m|] eqn:Em; [|by destruct Hk; congruence].
  rewrite (is_deleted_Some _ _ _ Em).
  destruct Hk as (_ & _ & Hk). destruct (deleted m).
  - destruct Hk as [-> _]. by apply IH.
  - destruct Hk as (raw & x & Hraw & Hp & ->). rewrite Hv in Hraw. injection Hraw as <-.
    rewrite Hp. cbn [mbind result_bind]. rewrite IH by done. cbn [mbind result_bind].
    cbn [fmap option_fmap option_map]. rewrite (take_rest_cons _ _ _ _ Hlim). done.
Qed.

(** The answer to a range query: the live keys of the interval with their
    latest values, in key order. *)
Definition range_answer (h : history) (P : bytes -> Prop) (l : list (bytes * bytes)) : Prop :=
  StronglySorted pair_lt l /\ forall k v, (k, v) ∈ l <-> P k /\ latest h k = Some v.

(** A live key has a value row. *)
Lemma latest_row s d comp hi h k v :
  keys_rep s d comp hi h -> latest h k = Some v ->
  exists raw, tx_get d TABLE_KV (encode_kv_key k) = Some raw.
Proof.
  intros Hrep Hl. pose proof (Hrep k) as Hk. unfold key_rep, key_ok in Hk.
  destruct (get_kv_metadata d k) as [m|]; [|by destruct Hk as (_ & ? & _); congruence].
  destruct Hk as (_ & _ & Hk). destruct (deleted m); [by destruct Hk; congruence|].
  naive_solver.
Qed.

Lemma kv_rows_answer s d comp hi h start range_end :
  keys_rep s d comp hi h ->
  range_answer h (fun k => bytes_le start k /\ bytes_lt k range_end)
    (omap (live_pair h) (kv_rows d start range_end)).
Proof.
  intros Hrep. split.
  { eapply live_pairs_sorted; [apply kv_rows_ok|apply iter_range_sorted]. }
  intros k v. rewrite list_elem_of_omap. split.
  - intros ([ik raw] & (k' & -> & _ & ?)%elem_of_kv_rows & E).
    rewrite live_pair_encode in E. destruct (latest h k') eqn:El; [|done].
    simpl in E. by simplify_eq.
  - intros [? Hl]. destruct (latest_row _ _ _ _ _ _ _ Hrep Hl) as [raw Hraw].
    exists (encode_kv_key k, raw). rewrite live_pair_encode, Hl. split; [|done].
    apply elem_of_kv_rows. by eauto.
Qed.

Lemma prefix_rows_answer s d comp hi h prefix :
  keys_rep s d comp hi h ->
  range_answer h (fun k => starts_with k prefix = true)
    (omap (live_pair h) (iter_prefix d TABLE_KV (encode_kv_key prefix))).
Proof.
  intros Hrep. split.
  { eapply live_pairs_sorted; [apply iter_prefix_kv_ok|apply iter_prefix_sorted]. }
  intros k v. rewrite list_elem_of_omap, starts_with_spec. split.
  - intros ([ik raw] & [_ [r ->]]%elem_of_iter_prefix & E).
    replace (encode_kv_key prefix ++ r) with (encode_kv_key (prefix ++ r)) in E
      by (unfold encode_kv_key; by rewrite app_assoc).
    rewrite live_pair_encode in E. destruct (latest h (prefix ++ r)) eqn:El; [|done].
    simpl in E. simplify_eq. by eauto.
  - intros [[r ->] Hl]. destruct (latest_row _ _ _ _ _ _ _ Hrep Hl) as [raw Hraw].
    exists (encode_kv_key (prefix ++ r), raw). rewrite live_pair_encode, Hl. split; [|done].
    apply elem_of_iter_prefix. split; [done|]. exists r. unfold encode_kv_key.
    by rewrite app_assoc.
Qed.

(** Range reads are exact.  On a store that represents a history, [range_in]
    and the prefix read [range] return, in key order, exactly the live keys of
    the interval (with the given prefix) with their latest values, cut to the
    limit; they never fail. *)
Theorem range_reads_exact s d h start range_end prefix :
  mvcc_rep s d h ->
  (exists l, range_answer h (fun k => bytes_le start k /\ bytes_lt k range_end) l /\
     forall limit, range_in s d start range_end limit = Ok (take_limit limit l)) /\
  (exists l, range_answer h (fun k => starts_with k prefix = true) l /\
     forall limit, range s d prefix limit = Ok (take_limit limit l)).
Proof.
  intros Hrep. split; eexists; (split; [eapply kv_rows_answer || eapply prefix_rows_answer; apply (rep_keys _ _ _ Hrep)|]);
    intros limit; unfold range_in, range;
    (erewrite range_loop_live; [|apply (rep_keys _ _ _ Hrep)|]);
    [|apply kv_rows_ok| |apply iter_prefix_kv_ok];
    unfold take_rest, take_limit; by rewrite Nat.sub_0_r.
Qed.

(** An empty upper bound is not "unbounded" for the readers.  [range_in]
    with an empty [range_end] returns nothing, whatever the store holds, because
    the encoded bound is [/kv/] itself. *)
Theorem range_in_empty_end s d start limit : range_in s d start [] limit = Ok [].
Proof.
  unfold range_in. change (iter_range d TABLE_KV (encode_kv_key start) (encode_kv_key []))
    with (kv_rows d start []).
  destruct (kv_rows d start []) as [|[ik v] l] eqn:E; [done|]. exfalso.
  assert ((ik, v) ∈ kv_rows d start []) as H by (rewrite E; left).
  apply elem_of_kv_rows in H as (k & _ & _ & _ & Hlt). by apply bytes_not_lt_nil in Hlt.
Qed.

(** ** Range deletes *)

Section bulk_deletes.
  Context (s : MvccStorage) (comp rev : Z) (h : history) (t : EventType).
  Context (Hrev : in_u64 rev).

Abbreviation rep d cs := (keys_rep s d comp rev (h ++ [pending rev t cs])).

(** Deleting one key does not change which others are live. *)
Lemma live_pair_other cs k rows :
  Forall (fun r : row => r.1 <> encode_kv_key k) rows ->
  omap (live_pair (h ++ [pending rev t (cs ++ [delete_change k])])) rows =
  omap (live_pair (h ++ [pending rev t cs])) rows.
Proof.
  intros Hne. apply omap_ext_Forall. eapply List.Forall_impl; [|exact Hne].
  intros [ik v] Hk. unfold live_pair. simpl in *. destruct (decode_kv_key ik) as [k'|] eqn:E; [|done].
  apply strip_prefix_Some in E. simpl. rewrite latest_pending_snoc. simpl.
  destruct (bytes_eqb_spec k k') as [->|_]; [by destruct Hk|done].
Qed.

Lemma delete_range_loop_rep range_end rows d cs ks d' :
  rep d cs ->
  Forall (fun r : row => exists k, r.1 = encode_kv_key k /\
            (range_end = [] \/ bytes_lt k range_end)) rows ->
  NoDup rows.*1 ->
  delete_range_loop range_end rev rows d = (ks, d') ->
  ks = (omap (live_pair (h ++ [pending rev t cs])) rows).*1 /\
  keys_only d d' /\ rep d' (cs ++ (delete_change <$> ks)).
Proof.
  revert d cs ks d'. induction rows as [|[ik v] rows IH]; intros d cs ks d' Hk Hok Hnd E;
    simpl in E.
  { injection E as <- <-. rewrite app_nil_r. done. }
  apply Forall_cons in Hok as [(k & Ek & Hend) Hok]. simpl in Ek. subst ik.
  apply NoDup_cons in Hnd as [Hn Hnd]. simpl omap. rewrite live_pair_encode.
  rewrite decode_encode_kv_key in E.
  assert (negb (bytes_eqb range_end []) && bytes_leb range_end k = false) as Hb.
  { destruct Hend as [->|Hlt]; [done|]. unfold bytes_leb. unfold bytes_lt in Hlt. rewrite Hlt.
    by rewrite andb_false_r. }
  rewrite Hb in E. pose proof (live_metadata _ _ _ _ _ _ (Hk k)) as Hlive.
  destruct (get_kv_metadata d k) as [m|] eqn:Em; [destruct (deleted m) eqn:Ed|].
  - destruct (latest (h ++ [pending rev t cs]) k).
    { destruct (proj2 Hlive) as (m' & ? & ?); [done|]. congruence. }
    by apply IH.
  - destruct (latest (h ++ [pending rev t cs]) k) as [x|] eqn:El.
    2:{ destruct (proj1 Hlive) as [x ?]; [by exists m|done]. }
    destruct (delete_range_loop range_end rev rows _) as [ks' d1] eqn:E1.
    injection E as <- <-.
    destruct (IH _ (cs ++ [delete_change k]) _ _ (pending_tombstone _ _ _ _ _ Hrev _ _ _ _ Em Hk)
      Hok Hnd E1) as (-> & Ho & Hr).
    assert (Forall (fun r : row => r.1 <> encode_kv_key k) rows) as Hne.
    { rewrite Forall_forall. intros r Hr1 E. apply Hn, list_elem_of_fmap. exists r. by rewrite E. }
    rewrite live_pair_other in Hr |- * by done. split; [done|].
    split; [etrans; [|exact Ho]; auto with coord|]. by rewrite <-app_assoc in Hr.
  - destruct (latest (h ++ [pending rev t cs]) k).
    { destruct (proj2 Hlive) as (m' & ? & ?); [done|]. congruence. }
    by apply IH.
Qed.

(** [delete_by_lease_loop] decides from a snapshot of the metadata rows, which
    the tombstones it writes do not invalidate. *)
Definition bound_to (target : Z) (r : row) : option bytes :=
  m ← meta_from_bytes r.2; k ← strip_prefix KV_META_PREFIX r.1;
  if (lease_id m =? target) && negb (deleted m) then Some k else None.

Lemma delete_by_lease_loop_rep target rows d cs ks d' :
  rep d cs ->
  Forall (fun r : row => tx_get d TABLE_KV_META r.1 = Some r.2) rows -> NoDup rows.*1 ->
  delete_by_lease_loop target rev rows d = (ks, d') ->
  ks = omap (bound_to target) rows /\ keys_only d d' /\ rep d' (cs ++ (delete_change <$> ks)).
Proof.
  revert d cs ks d'. induction rows as [|[mk mv] rows IH]; intros d cs ks d' Hk Hok Hnd E;
    cbn [delete_by_lease_loop] in E.
  { injection E as <- <-. by rewrite app_nil_r. }
  apply Forall_cons in Hok as [Hv Hok]. apply NoDup_cons in Hnd as [Hn Hnd].
  simpl in Hv. change (omap (bound_to target) ((mk, mv) :: rows)) with
    (match bound_to target (mk, mv) with
     | Some k => k :: omap (bound_to target) rows
     | None => omap (bound_to target) rows end).
  unfold bound_to at 1. cbn [fst snd].
  destruct (meta_from_bytes mv) as [m|] eqn:Em; cbn [mbind option_bind]; [|by eauto].
  destruct (strip_prefix KV_META_PREFIX mk) as [k|] eqn:Ek; cbn [mbind option_bind]; [|by eauto].
  destruct ((lease_id m =? target) && negb (deleted m)); [|by eauto].
  destruct (delete_by_lease_loop target rev rows _) as [ks1 d1] eqn:E1. injection E as <- <-.
  apply strip_prefix_Some in Ek. fold (encode_kv_meta_key k) in Ek.
  assert (get_kv_metadata d k = Some m) as Hm.
  { unfold get_kv_metadata. rewrite <-Ek, Hv. exact Em. }
  destruct (IH (insert_metadata k (meta_mark_deleted m rev) d) (cs ++ [delete_change k]) ks1 d1)
    as (-> & Ho & Hr); [by apply pending_tombstone| |done|done|].
  { rewrite Forall_forall in Hok |- *. intros r Hr. unfold insert_metadata.
    rewrite tx_get_insert_ne; [by apply Hok|]. intros [= E]. apply Hn, list_elem_of_fmap.
    exists r. by rewrite <-E, Ek. }
  split; [done|]. split; [etrans; [|exact Ho]; auto with coord|].
  by rewrite <-app_assoc in Hr.
Qed.

End bulk_deletes.

Lemma delete_event_wf h ks rev :
  Forall event_wf h -> in_u64 rev -> Z.of_nat (length ks) < u32_modulus ->
  Forall (fun k => is_Some (latest h k)) ks -> event_wf (delete_event ks rev).
Proof.
  intros Hw Hr Hn Hk. split; [done|]. split; simpl.
  - rewrite length_fmap. unfold in_u32. lia.
  - rewrite Forall_fmap. eapply List.Forall_impl; [|exact Hk].
    intros k [x (e & c & He & Hc & <- & _)%latest_Some]. split; [|done].
    rewrite Forall_forall in Hw. destruct (Hw e He) as (_ & _ & Hcs).
    rewrite Forall_forall in Hcs. exact (proj1 (Hcs c Hc)).
Qed.

Lemma range_answer_live h P l : range_answer h P l -> Forall (fun k => is_Some (latest h k)) l.*1.
Proof.
  intros [_ Hl]. rewrite Forall_fmap, Forall_forall. intros [k v] [_ E]%Hl. by exists v.
Qed.

Section delete_range.
  Context (s : MvccStorage) (d : db) (h : history) (rev : Z) (policy : RevisionPolicy).
  Context (Hrep : mvcc_rep s d h) (Hrev : in_u64 rev).
  Context (Hchecked : revision_checked s policy = true).
  Context (Hsize : Z.of_nat (size d) < u32_modulus).

Lemma delete_range_in_tx_rep start range_end a ks rp d' :
  delete_range_in_tx s start range_end rev a policy d = Ok ((ks, rp), d') ->
  rp = false /\ current_revision s d < rev /\
  ks = (omap (live_pair h) (kv_rows d start range_end)).*1 /\
  mvcc_rep s d' (h ++ [delete_event ks rev]) /\ current_revision s d' = rev.
Proof.
  intros H. unfold delete_range_in_tx in H. inv_bind.
  rename x into d1. assert (same_table TABLE_KV d1 d) as Hkv.
  { apply accept_revision_Ok in H as [_ ->]; [|done]. by apply same_table_insert. }
  rewrite (iter_range_same TABLE_KV d1 d) in H0 by done.
  fold (kv_rows d start range_end) in H0.
  destruct (delete_range_loop _ _ _ _) as [ks1 d2] eqn:E. inv_bind.
  destruct (accept_pending _ _ _ _ _ Hrep Hchecked _ EvDelete H) as [Hk Hlt].
  destruct (delete_range_loop_rep s _ rev h EvDelete Hrev range_end (kv_rows d start range_end)
    d1 [] ks d2 Hk) as (-> & Ho & Hr); [| |done|].
  { eapply List.Forall_impl; [|apply kv_rows_ok]. intros r (k & ? & _ & ?). by exists k. }
  { apply sorted_rows_NoDup, iter_range_sorted. }
  assert (omap (live_pair (h ++ [pending rev EvDelete []])) (kv_rows d start range_end) =
          omap (live_pair h) (kv_rows d start range_end)) as E1.
  { apply omap_ext_Forall, Forall_true. intros r. unfold live_pair.
    destruct (decode_kv_key r.1); [|done]. simpl. by rewrite latest_pending_nil. }
  rewrite E1 in *. split; [done|]. split; [done|]. split; [done|].
  eapply (commit_event s d h rev policy); try done.
  eapply delete_event_wf; [apply (rep_wf _ _ _ Hrep)|done| |].
  - rewrite length_fmap. eapply Z.le_lt_trans; [|exact Hsize]. apply inj_le.
    etrans; [apply length_omap|apply length_iter_range].
  - eapply range_answer_live, kv_rows_answer, (rep_keys _ _ _ Hrep).
Qed.

End delete_range.

Lemma range_has_live_keys_Ok s d h start range_end :
  mvcc_rep s d h -> exists live, range_has_live_keys s d start range_end = Ok live.
Proof.
  intros Hrep. unfold range_has_live_keys, range_in. fold (kv_rows d start range_end).
  rewrite (range_loop_live _ _ _ _ _ _ _ _ _ (rep_keys _ _ _ Hrep) (kv_rows_ok _ _ _)).
  cbn [mbind result_bind]. by eexists.
Qed.

(** Range delete refines the history.  A range delete appends one event
    that deletes exactly the live keys of the interval, in key order, and
    reports those keys; or recognises its replay; or is rejected because its
    revision is taken.  In the last two cases the store is untouched. *)
Theorem delete_range_at_key_refines s d h start range_end rev a policy :
  mvcc_rep s d h -> revision_checked s policy = true -> in_u64 rev ->
  Z.of_nat (size d) < u32_modulus ->
  match delete_range_at_key s d start range_end rev a policy with
  | (Ok (ks, false), d') => current_revision s d < rev /\
      (exists l, range_answer h (fun k => bytes_le start k /\ bytes_lt k range_end) l /\
         ks = l.*1) /\
      mvcc_rep s d' (h ++ [delete_event ks rev]) /\ current_revision s d' = rev
  | (Ok (ks, true), d') => d' = d /\ ks = [] /\ exists e, e ∈ h /\ revision e = rev
  | (Err e, d') => d' = d /\
      e = CommitRejected rev (current_revision s d) /\ rev <= current_revision s d
  end.
Proof.
  intros Hrep Hc Hr Hs.
  assert (match backend_write d (delete_range_in_tx s start range_end rev a policy) with
          | (Ok (ks, false), d') => current_revision s d < rev /\
              (exists l, range_answer h (fun k => bytes_le start k /\ bytes_lt k range_end) l /\
                 ks = l.*1) /\
              mvcc_rep s d' (h ++ [delete_event ks rev]) /\ current_revision s d' = rev
          | (Ok (ks, true), d') => False
          | (Err e, d') => d' = d /\
              e = CommitRejected rev (current_revision s d) /\ rev <= current_revision s d
          end) as Hbody.
  { unfold backend_write.
    destruct (delete_range_in_tx s start range_end rev a policy d) as [[[ks rp] d']|e] eqn:E.
    - destruct (delete_range_in_tx_rep s d h rev policy Hrep Hr Hc Hs _ _ _ _ _ _ E)
        as (-> & ? & -> & ? & ?). split; [done|]. split; [|done].
      eexists. split; [eapply kv_rows_answer, (rep_keys _ _ _ Hrep)|done].
    - split; [done|]. unfold delete_range_in_tx in E.
      destruct (accept_revision s d rev policy) as [d1|e1] eqn:Ea; cbn [mbind result_bind] in E.
      + destruct (delete_range_loop _ _ _ _). done.
      + injection E as ->. by eapply accept_revision_Err. }
  assert (forall e, List.find (fun e => revision e =? rev) (retained (log_from d) h)
            = Some e -> e ∈ h /\ revision e = rev /\ rev <= current_revision s d) as Hfind.
  { intros e. by apply find_retained. }
  unfold delete_range_at_key. destruct policy.
  - rewrite (changelog_contains_rep s d h) by done. case_bool_decide as Hf.
    + destruct Hf as [e He]. destruct (Hfind e He) as (? & ? & _). by eauto.
    + by destruct (backend_write _ _) as [[[? []]|] ?].
  - rewrite (changelog_event_at_rep s d h) by done.
    destruct (List.find _ _) as [e|] eqn:He.
    + destruct (Hfind e eq_refl) as (? & ? & ?).
      destruct (range_has_live_keys_Ok s d h start range_end Hrep) as [live ->].
      destruct (forallb _ _ && _ && _); [by eauto|done].
    + by destruct (backend_write _ _) as [[[? []]|] ?].
Qed.

(** ** Transactions *)

(** The change a transaction operation makes. *)
Definition op_change (op : TxnOp) : option KeyValueChange :=
  match op with
  | TxnPut key value _ => Some (put_change key value)
  | TxnDelete key => Some (delete_change key)
  | TxnRange _ _ _ => None
  end.

Definition op_lease_ok (op : TxnOp) : Prop :=
  match op with
  | TxnPut _ _ lease => in_i64 (default 0 lease)
  | _ => True
  end.

(** The keys a [TxnOp::Range] asks for. *)
Definition op_interval (key range_end k : bytes) : Prop :=
  match range_semantics_of key range_end with
  | SingleKey => k = key
  | Interval => bytes_le key k /\ bytes_lt k range_end
  end.

(** The response an operation must get in a store with history [h]. *)
Definition op_answer (h : history) (rev : Z) (op : TxnOp) (resp : TxnOpResponse) : Prop :=
  match op with
  | TxnPut _ _ _ => resp = RespPut rev
  | TxnDelete _ => resp = RespDelete rev
  | TxnRange key range_end limit =>
    exists l, range_answer h (op_interval key range_end) l /\
      let kvs := if 0 <? limit then take (Z.to_nat limit) l else l in
      resp = RespRange kvs (Z.of_nat (length kvs)) rev
  end.

(** The barrier fails on the value an operation writes. *)
Definition op_encrypt_fails (s : MvccStorage) (op : TxnOp) (e : Error) : Prop :=
  match op with
  | TxnPut key value _ => encrypt_value s (encode_kv_key key) value = Err e
  | _ => False
  end.

Definition txn_event (ops : list TxnOp) (rev : Z) : ChangeEvent :=
  {| revision := rev; changes := omap op_change ops; event_type := EvTxn |}.

Section txn.
  Context (s : MvccStorage) (comp rev : Z) (h : history) (t : EventType).
  Context (Hrev : in_u64 rev) (Hbar : rep_barrier s).

Abbreviation rep d cs := (keys_rep s d comp rev (h ++ [pending rev t cs])).

(** The rows of a transactional range read, like [range_loop_live]. *)
Lemma txn_range_loop_live d cs key range_end max n rows :
  rep d cs ->
  Forall (kv_row_ok d (if is_interval (range_semantics_of key range_end)
                       then range_end else [])) rows ->
  txn_range_loop s d key range_end max n rows =
  Ok (from_option (fun m => take (m - n)) id max
        (omap (live_pair (h ++ [pending rev t cs])) rows)).
Proof.
  intros Hk. revert n. induction rows as [|[ik v] rows IH]; intros n Hok; simpl.
  { destruct max; simpl; by rewrite ?take_nil. }
  apply Forall_cons in Hok as [(k & Ek & Hv & Hend) Hok]. simpl in Ek, Hv. subst ik.
  destruct (from_option (fun m => (m <=? n)%nat) false max) eqn:Hlim.
  { destruct max as [m|]; simpl in *; [|done]. apply Nat.leb_le in Hlim.
    by replace (m - n)%nat with 0%nat by lia. }
  rewrite decode_encode_kv_key, live_pair_encode.
  assert (is_interval (range_semantics_of key range_end) && bytes_leb range_end k = false) as ->.
  { destruct (is_interval _) eqn:E; [|done]. simpl. destruct Hend as [->|Hlt]; [done|].
    unfold bytes_leb. unfold bytes_lt in Hlt. by rewrite Hlt. }
  specialize (Hk k). unfold key_rep, key_ok in Hk.
  destruct (get_kv_metadata d k) as [m|] eqn:Em; [|by destruct Hk; congruence].
  rewrite (is_deleted_Some _ _ _ Em).
  destruct Hk as (_ & _ & Hk). destruct (deleted m).
  - destruct Hk as [-> _]. by apply IH.
  - destruct Hk as (raw & x & Hraw & Hp & ->). rewrite Hv in Hraw. injection Hraw as <-.
    rewrite Hp. cbn [mbind result_bind]. rewrite IH by done. cbn [mbind result_bind].
    destruct max as [m'|]; simpl in *; [|done]. apply Nat.leb_gt in Hlim.
    replace (m' - n)%nat with (S (m' - S n)) by lia. done.
Qed.

Lemma txn_range_rows_answer d cs key range_end :
  rep d cs ->
  range_answer (h ++ [pending rev t cs]) (op_interval key range_end)
    (omap (live_pair (h ++ [pending rev t cs])) (txn_range_rows d key range_end)) /\
  Forall (kv_row_ok d (if is_interval (range_semantics_of key range_end)
                       then range_end else [])) (txn_range_rows d key range_end).
Proof.
  intros Hk. unfold op_interval, txn_range_rows.
  destruct (range_semantics_of key range_end); simpl.
  2:{ split; [by eapply kv_rows_answer|apply kv_rows_ok]. }
  destruct (tx_get d TABLE_KV (encode_kv_key key)) as [raw|] eqn:Hraw.
  - split; [|by repeat constructor; exists key; auto]. simpl. rewrite live_pair_encode.
    destruct (latest _ key) as [v|] eqn:El; simpl;
      (split; [by repeat constructor|]); intros k w; rewrite ?list_elem_of_singleton, ?elem_of_nil;
      naive_solver congruence.
  - split; [|done]. split; [constructor|]. intros k w. rewrite elem_of_nil.
    split; [done|]. intros [-> Hl]. destruct (latest_row _ _ _ _ _ _ _ Hk Hl). congruence.
Qed.

Lemma execute_op_rep d cs op :
  op_lease_ok op -> rep d cs ->
  match execute_op_in_tx s d op rev with
  | Ok (resp, c, d') => c = op_change op /\ keys_only d d' /\ rep d' (cs ++ option_list c) /\
      op_answer (h ++ [pending rev t cs]) rev op resp
  | Err e => op_encrypt_fails s op e
  end.
Proof.
  intros Hl Hk. destruct op as [key value lease|key|key range_end limit]; unfold execute_op_in_tx.
  - destruct (write_key s key value (default 0 lease) rev d) as [d'|e] eqn:E; simpl.
    + split; [done|]. split; [by eapply keys_only_write_key|]. split; [|done].
      by eapply pending_write.
    + unfold write_key in E. destruct (encrypt_value _ _ _); simpl in E; [done|congruence].
  - pose proof (Hk key) as Hkey. unfold key_rep, key_ok in Hkey. split; [done|].
    destruct (get_kv_metadata d key) as [m|] eqn:Em.
    + split; [auto with coord|]. split; [by apply pending_tombstone|done].
    + split; [reflexivity|]. split; [apply pending_delete_absent; [apply Hkey|done]|done].
  - destruct (txn_range_rows_answer d cs key range_end Hk) as [Ha Hok].
    rewrite (txn_range_loop_live d cs key range_end _ _ _ Hk Hok). cbn [mbind result_bind].
    split; [done|]. split; [reflexivity|]. simpl. rewrite app_nil_r. split; [done|].
    eexists. split; [exact Ha|]. destruct (0 <? limit); simpl; by rewrite ?Nat.sub_0_r.
Qed.

Lemma execute_ops_rep ops d cs :
  Forall op_lease_ok ops -> rep d cs ->
  match execute_ops s d ops rev with
  | Ok (resps, cs', d') => cs' = omap op_change ops /\ keys_only d d' /\ rep d' (cs ++ cs') /\
      length resps = length ops /\
      forall i op resp, ops !! i = Some op -> resps !! i = Some resp ->
        op_answer (h ++ [pending rev t (cs ++ omap op_change (take i ops))]) rev op resp
  | Err e => Exists (fun op => op_encrypt_fails s op e) ops
  end.
Proof.
  revert d cs. induction ops as [|op ops IH]; intros d cs Hl Hk; cbn [execute_ops].
  { rewrite app_nil_r. split; [done|]. split; [reflexivity|]. done. }
  apply Forall_cons in Hl as [Hl Hls]. pose proof (execute_op_rep d cs op Hl Hk) as H1.
  destruct (execute_op_in_tx s d op rev) as [[[resp c] d1]|e]; cbn [mbind result_bind];
    [|by left].
  destruct H1 as (-> & Ho & Hk1 & Ha). specialize (IH _ _ Hls Hk1).
  destruct (execute_ops s d1 ops rev) as [[[resps1 cs1] d2]|e]; cbn [mbind result_bind];
    [|by right].
  destruct IH as (-> & Ho' & Hk2 & Hn & Has). rewrite omap_cons.
  split; [done|]. split; [by etrans|]. split; [by rewrite app_assoc|].
  split; [simpl; by rewrite Hn|]. intros [|i] op' resp' E E'; simpl in E, E'.
  - injection E as <-. injection E' as <-. simpl. by rewrite app_nil_r.
  - specialize (Has i op' resp' E E'). rewrite <-app_assoc in Has.
    simpl take. by rewrite omap_cons.
Qed.

End txn.

(** What a transaction answers and appends. *)
Definition txn_committed (s : MvccStorage) (d : db) (h : history) (compares : list TxnCompare)
    (success_ops failure_ops : list TxnOp) (rev : Z) (r : TxnResult) (d' : db) : Prop :=
  let ops := if succeeded r then success_ops else failure_ops in
  current_revision s d < rev /\ succeeded r = evaluate_compares_in_tx d compares /\
  txn_revision r = rev /\ length (responses r) = length ops /\
  (forall i op resp, ops !! i = Some op -> responses r !! i = Some resp ->
     op_answer (h ++ [txn_event (take i ops) rev]) rev op resp) /\
  mvcc_rep s d' (h ++ [txn_event ops rev]) /\ current_revision s d' = rev.

Lemma evaluate_compares_set_revision rev d compares :
  evaluate_compares_in_tx (set_current_revision rev d) compares = evaluate_compares_in_tx d compares.
Proof.
  apply forallb_ext. intros cmp. unfold evaluate_compare, is_deleted.
  assert (get_kv_metadata (set_current_revision rev d) (cmp_key cmp) =
          get_kv_metadata d (cmp_key cmp)) as -> by (apply get_kv_metadata_proper;
    [by apply same_table_insert|done]).
  assert (tx_get (set_current_revision rev d) TABLE_KV (encode_kv_key (cmp_key cmp)) =
          tx_get d TABLE_KV (encode_kv_key (cmp_key cmp))) as -> by (by apply tx_get_insert_ne).
  done.
Qed.

Lemma txn_in_tx_rep s d h compares success_ops failure_ops rev a :
  mvcc_rep s d h -> rep_barrier s -> revision_mode s = ModeLogIndex -> in_u64 rev ->
  Forall op_lease_ok success_ops -> Forall op_lease_ok failure_ops ->
  event_wf (txn_event success_ops rev) -> event_wf (txn_event failure_ops rev) ->
  match txn_in_tx s compares success_ops failure_ops rev a d with
  | Ok (r, d') => txn_committed s d h compares success_ops failure_ops rev r d'
  | Err e =>
      (e = CommitRejected rev (current_revision s d) /\ rev <= current_revision s d) \/
      Exists (fun op => op_encrypt_fails s op e)
        (if evaluate_compares_in_tx d compares then success_ops else failure_ops)
  end.
Proof.
  intros Hrep Hb Hm Hr Hl1 Hl2 Hw1 Hw2.
  assert (revision_checked s PolicyLogIndex = true) as Hc by (unfold revision_checked; by rewrite Hm).
  unfold txn_in_tx. destruct (accept_revision s d rev PolicyLogIndex) as [d1|e] eqn:Ea;
    cbn [mbind result_bind]; [|left; by eapply accept_revision_Err].
  destruct (accept_pending _ _ _ _ _ Hrep Hc _ EvTxn Ea) as [Hk Hlt].
  assert (evaluate_compares_in_tx d1 compares = evaluate_compares_in_tx d compares) as ->.
  { apply accept_revision_Ok in Ea as [_ ->]; [|done]. apply evaluate_compares_set_revision. }
  set (ops := if evaluate_compares_in_tx d compares then success_ops else failure_ops).
  assert (Forall op_lease_ok ops) as Hl by (unfold ops; by destruct (evaluate_compares_in_tx _ _)).
  assert (event_wf (txn_event ops rev)) as Hw by (unfold ops; by destruct (evaluate_compares_in_tx _ _)).
  pose proof (execute_ops_rep s _ rev h EvTxn Hr Hb ops d1 [] Hl Hk) as Hx.
  destruct (execute_ops s d1 ops rev) as [[[resps cs] d2]|e]; cbn [mbind result_bind]; [|by right].
  destruct Hx as (-> & Ho & Hk2 & Hn & Has).
  split; [done|]. split; [done|]. split; [done|]. split; [done|]. split; [exact Has|].
  by eapply (commit_event s d h rev PolicyLogIndex).
Qed.

(** C32: transactions are atomic and refine the history.  A transaction
    evaluates its compares on the store before it, runs exactly one branch and
    appends one event with that branch's changes in order, all at one revision.
    Each operation is answered on the history extended by the operations before
    it in the branch: a range read sees exactly the live keys of its interval,
    the earlier writes of the transaction included.  It fails only when the
    revision is taken or the barrier fails on a value, and then the store is
    untouched. *)
Theorem execute_txn_refines s d h compares success_ops failure_ops rev a :
  mvcc_rep s d h -> rep_barrier s -> revision_mode s = ModeLogIndex -> in_u64 rev ->
  Forall op_lease_ok success_ops -> Forall op_lease_ok failure_ops ->
  event_wf (txn_event success_ops rev) -> event_wf (txn_event failure_ops rev) ->
  changelog_contains_revision d rev = false ->
  match execute_txn_at_revision s d compares success_ops failure_ops rev a with
  | (Ok r, d') => txn_committed s d h compares success_ops failure_ops rev r d'
  | (Err e, d') => d' = d /\
      ((e = CommitRejected rev (current_revision s d) /\ rev <= current_revision s d) \/
       Exists (fun op => op_encrypt_fails s op e)
         (if evaluate_compares_in_tx d compares then success_ops else failure_ops))
  end.
Proof.
  intros Hrep Hb Hm Hr Hl1 Hl2 Hw1 Hw2 Hnew. unfold execute_txn_at_revision. rewrite Hnew.
  pose proof (txn_in_tx_rep s d h compares _ _ rev a Hrep Hb Hm Hr Hl1 Hl2 Hw1 Hw2) as Hx.
  unfold backend_write. by destruct (txn_in_tx _ _ _ _ _ _ _) as [[r d']|e].
Qed.
