(* ===== verification/MvccCompact.v ===== *)
(** * Compaction

    [apply_compact] terminates, removes exactly the change-log rows and the
    tombstones below the effective revision, and leaves the represented
    history as it was: what a reader can still ask is answered as before. *)

From S2P Require Export MvccRange.

Local Open Scope Z_scope.

(** ** Removing rows *)

Lemma tx_get_remove_all t ks d t' k' :
  tx_get (foldl (fun d k => tx_remove t k d) d ks) t' k' =
  if decide (t' = t /\ k' ∈ ks) then None else tx_get d t' k'.
Proof.
  revert d. induction ks as [|k ks IH]; intros d; simpl.
  { rewrite decide_False; [done|]. intros [_ H]. by apply elem_of_nil in H. }
  rewrite IH. destruct (decide (t' = t /\ k' = k)) as [[-> ->]|Hne].
  - rewrite (decide_True (P := t = t /\ k ∈ k :: ks)) by (split; [done|left]).
    case_decide; [done|]. apply tx_get_remove.
  - rewrite tx_get_remove_ne by (intros [=]; by destruct Hne).
    destruct (decide (t' = t /\ k' ∈ ks)) as [[? ?]|Hn].
    + rewrite decide_True; [done|]. split; [done|by right].
    + rewrite decide_False; [done|]. intros [? [->|?]%elem_of_cons]; naive_solver.
Qed.

Lemma tx_get_remove_pairs t0 (rows : list row) d t k :
  tx_get (foldl (fun d '(k, _) => tx_remove t0 k d) d rows) t k =
  if decide (t = t0 /\ k ∈ rows.*1) then None else tx_get d t k.
Proof.
  rewrite <-(tx_get_remove_all t0 rows.*1 d t k). f_equal. clear t k. revert d.
  induction rows as [|[k v] rows IH]; intros d; [done|]. rewrite fmap_cons. apply IH.
Qed.

Definition remove_tombstones (keys : list bytes) (d : db) : db :=
  foldl (fun d key => remove_tombstone (encode_kv_meta_key key) d) d keys.

Lemma remove_tombstone_encode key d :
  remove_tombstone (encode_kv_meta_key key) d =
  tx_remove TABLE_KV_META (encode_kv_meta_key key) (tx_remove TABLE_KV (encode_kv_key key) d).
Proof. unfold remove_tombstone, encode_kv_meta_key. by rewrite strip_prefix_app. Qed.

(** The rows a tombstone occupies. *)
Definition tombstone_row (t : table) (k key : bytes) : Prop :=
  (t = TABLE_KV /\ k = encode_kv_key key) \/ (t = TABLE_KV_META /\ k = encode_kv_meta_key key).

Lemma tx_get_remove_tombstones keys d t k :
  (tx_get (remove_tombstones keys d) t k = tx_get d t k /\
   forall key, key ∈ keys -> ~ tombstone_row t k key) \/
  (tx_get (remove_tombstones keys d) t k = None /\ exists key, key ∈ keys /\ tombstone_row t k key).
Proof.
  unfold remove_tombstones. revert d. induction keys as [|key keys IH]; intros d; simpl.
  { left. split; [done|]. intros key H. by apply elem_of_nil in H. }
  rewrite remove_tombstone_encode.
  destruct (IH (tx_remove TABLE_KV_META (encode_kv_meta_key key)
    (tx_remove TABLE_KV (encode_kv_key key) d))) as [[-> Hn]|[-> (key' & ? & ?)]].
  2:{ right. split; [done|]. exists key'. split; [by right|done]. }
  destruct (decide ((TABLE_KV_META, encode_kv_meta_key key) = (t, k))) as [[= <- <-]|H1].
  { right. split; [apply tx_get_remove|]. exists key. split; [left|by right]. }
  rewrite tx_get_remove_ne by done.
  destruct (decide ((TABLE_KV, encode_kv_key key) = (t, k))) as [[= <- <-]|H2].
  { right. split; [apply tx_get_remove|]. exists key. split; [left|by left]. }
  rewrite tx_get_remove_ne by done. left. split; [done|].
  intros key' [->|?]%elem_of_cons; [|by apply Hn].
  unfold tombstone_row. intros [[-> ->]|[-> ->]]; done.
Qed.

(** ** One batch *)

Definition stale_tombstone (d : db) (effective : Z) (key : bytes) : Prop :=
  exists m, get_kv_metadata d key = Some m /\ deleted m = true /\
    u64_wrap (mod_revision m) < effective.

Lemma elem_of_stale_changelog d effective k :
  k ∈ stale_changelog_keys d effective ->
  is_Some (tx_get d TABLE_CHANGELOG k) /\
  exists r, changelog_key_revision k = Some r /\ r < effective.
Proof.
  unfold stale_changelog_keys. intros H. apply elem_of_take in H as (i & H & _).
  apply list_elem_of_lookup_2 in H. apply list_elem_of_fmap in H as ([k' v] & -> & H).
  apply elem_of_List_filter in H as [Hr [Hv _]%elem_of_iter_prefix]. simpl.
  split; [by exists v|]. destruct (changelog_key_revision k') as [r|]; [|done].
  exists r. simpl in Hr. split; [done|lia].
Qed.

Lemma elem_of_stale_tombstones d effective mk :
  mk ∈ stale_tombstone_keys d effective ->
  exists key, mk = encode_kv_meta_key key /\ stale_tombstone d effective key.
Proof.
  unfold stale_tombstone_keys. intros H. apply elem_of_take in H as (i & H & _).
  apply list_elem_of_lookup_2 in H. apply list_elem_of_fmap in H as ([k' v] & -> & H).
  apply elem_of_List_filter in H as [Hm [Hv [key ->]]%elem_of_iter_prefix].
  exists key. split; [done|]. destruct (meta_from_bytes v) as [m|] eqn:Em; [|done].
  apply andb_true_iff in Hm as [Hd Hr]. exists m. split; [|split; [done|lia]].
  unfold get_kv_metadata, tx_get, encode_kv_meta_key. by rewrite Hv.
Qed.

Lemma stale_tombstone_keys_encode d effective :
  exists keys, stale_tombstone_keys d effective = encode_kv_meta_key <$> keys /\
    Forall (stale_tombstone d effective) keys.
Proof.
  pose proof (elem_of_stale_tombstones d effective) as H.
  induction (stale_tombstone_keys d effective) as [|mk l IH]; [by exists []|].
  destruct (H mk) as (key & -> & ?); [left|].
  destruct IH as (keys & -> & ?); [intros; apply H; by right|].
  exists (key :: keys). by rewrite Forall_cons.
Qed.

(** How a compacted store relates to the one before: rows are only removed, and
    only stale ones. *)
Record compact_rel (effective : Z) (d d' : db) : Prop := {
  cr_meta : same_table TABLE_META d' d;
  cr_changelog : forall k, tx_get d' TABLE_CHANGELOG k = tx_get d TABLE_CHANGELOG k \/
    (tx_get d' TABLE_CHANGELOG k = None /\
     exists r, changelog_key_revision k = Some r /\ r < effective);
  cr_keys : forall key,
    (get_kv_metadata d' key = get_kv_metadata d key /\
     tx_get d' TABLE_KV (encode_kv_key key) = tx_get d TABLE_KV (encode_kv_key key)) \/
    (get_kv_metadata d' key = None /\ tx_get d' TABLE_KV (encode_kv_key key) = None /\
     stale_tombstone d effective key) }.

Lemma compact_rel_refl effective d : compact_rel effective d d.
Proof. split; [done|by left|by left]. Qed.

Lemma compact_rel_trans effective d1 d2 d3 :
  compact_rel effective d1 d2 -> compact_rel effective d2 d3 -> compact_rel effective d1 d3.
Proof.
  intros [M1 C1 K1] [M2 C2 K2]. split.
  - by rewrite M2.
  - intros k. destruct (C2 k) as [->|?]; [apply C1|by right].
  - intros key. destruct (K1 key) as [[E1 E2]|(E1 & E2 & S1)].
    + rewrite <-E1, <-E2. destruct (K2 key) as [?|(? & ? & m & ? & ?)]; [by left|right].
      split; [done|]. split; [done|]. exists m. by rewrite <-E1.
    + right. destruct (K2 key) as [[-> ->]|(? & ? & _)]; done.
Qed.

Lemma compact_batch_rel effective d bc bt d' :
  compact_batch effective d = (bc, bt, d') -> compact_rel effective d d'.
Proof.
  unfold compact_batch. set (d1 := foldl _ d (stale_changelog_keys d effective)).
  intros [= _ _ <-]. apply (compact_rel_trans _ _ d1).
  - split.
    + intros k. unfold d1. rewrite tx_get_remove_all. rewrite decide_False; [done|naive_solver].
    + intros k. unfold d1. rewrite tx_get_remove_all. case_decide as H; [right|by left].
      split; [done|]. apply (elem_of_stale_changelog d), H.
    + intros key. left. unfold get_kv_metadata, d1. rewrite !tx_get_remove_all.
      rewrite !decide_False by naive_solver. done.
  - destruct (stale_tombstone_keys_encode d1 effective) as (keys & -> & Hst).
    rewrite foldl_fmap. change (foldl _ d1 keys) with (remove_tombstones keys d1).
    rewrite Forall_forall in Hst. split.
    + intros k. destruct (tx_get_remove_tombstones keys d1 TABLE_META k)
        as [[-> _]|[_ (key & _ & [[? _]|[? _]])]]; done.
    + intros k. left. destruct (tx_get_remove_tombstones keys d1 TABLE_CHANGELOG k)
        as [[-> _]|[_ (key & _ & [[? _]|[? _]])]]; done.
    + intros key. unfold get_kv_metadata.
      destruct (decide (key ∈ keys)) as [Hin|Hn]; [right|left].
      * split; [|split; [|by apply Hst]].
        -- destruct (tx_get_remove_tombstones keys d1 TABLE_KV_META (encode_kv_meta_key key))
             as [[_ Hn]|[-> _]]; [destruct (Hn key Hin); by right|done].
        -- destruct (tx_get_remove_tombstones keys d1 TABLE_KV (encode_kv_key key))
             as [[_ Hn]|[-> _]]; [destruct (Hn key Hin); by left|done].
      * split.
        -- destruct (tx_get_remove_tombstones keys d1 TABLE_KV_META (encode_kv_meta_key key))
             as [[-> _]|[_ (key' & ? & [[? _]|[_ E]])]]; [done|done|]. by simplify_eq.
        -- destruct (tx_get_remove_tombstones keys d1 TABLE_KV (encode_kv_key key))
             as [[-> _]|[_ (key' & ? & [[_ E]|[? _]])]]; [done| |done]. by simplify_eq.
Qed.

(** ** Termination *)

Lemma size_tx_remove t k d : (size (tx_remove t k d) <= size d)%nat.
Proof. unfold tx_remove. rewrite map_size_delete. destruct (d !! (t, k)); simpl; lia. Qed.

Lemma size_tx_remove_lt t k d :
  is_Some (tx_get d t k) -> (size (tx_remove t k d) < size d)%nat.
Proof.
  intros [v Hv]. unfold tx_remove, tx_get in *. rewrite map_size_delete, Hv. simpl.
  destruct (decide (size d = 0%nat)) as [E|]; [|lia].
  apply map_size_empty_inv in E. subst d. by rewrite lookup_empty in Hv.
Qed.

Lemma size_remove_all t ks d : (size (foldl (fun d k => tx_remove t k d) d ks) <= size d)%nat.
Proof.
  revert d. induction ks as [|k ks IH]; intros d; simpl; [done|].
  etrans; [apply IH|apply size_tx_remove].
Qed.

Lemma size_remove_tombstone mk d : (size (remove_tombstone mk d) <= size d)%nat.
Proof.
  unfold remove_tombstone. etrans; [apply size_tx_remove|].
  destruct (strip_prefix _ mk); [apply size_tx_remove|done].
Qed.

Lemma size_remove_tombstones_all mks d :
  (size (foldl (fun d mk => remove_tombstone mk d) d mks) <= size d)%nat.
Proof.
  revert d. induction mks as [|mk mks IH]; intros d; simpl; [done|].
  etrans; [apply IH|apply size_remove_tombstone].
Qed.

(** A batch that removes something makes the store smaller. *)
Lemma compact_batch_shrinks effective d bc bt d' :
  compact_batch effective d = (bc, bt, d') -> (0 < bc + bt)%nat -> (size d' < size d)%nat.
Proof.
  unfold compact_batch. set (d1 := foldl _ d (stale_changelog_keys d effective)).
  intros [= <- <- <-] Hpos.
  destruct (stale_changelog_keys d effective) as [|k ks] eqn:Ec.
  - simpl in d1. subst d1. simpl in Hpos.
    destruct (stale_tombstone_keys d effective) as [|mk mks] eqn:Et; [simpl in Hpos; lia|].
    simpl. eapply Nat.le_lt_trans; [apply size_remove_tombstones_all|].
    destruct (elem_of_stale_tombstones d effective mk) as (key & -> & m & Hm & _);
      [rewrite Et; left|].
    rewrite remove_tombstone_encode. eapply Nat.lt_le_trans; [|apply size_tx_remove].
    apply size_tx_remove_lt. rewrite tx_get_remove_ne by done.
    unfold get_kv_metadata in Hm. by destruct (tx_get d TABLE_KV_META (encode_kv_meta_key key)).
  - eapply Nat.le_lt_trans; [apply size_remove_tombstones_all|]. unfold d1. simpl.
    eapply Nat.le_lt_trans; [apply size_remove_all|]. apply size_tx_remove_lt.
    apply (elem_of_stale_changelog d effective). rewrite Ec. left.
Qed.

(** With enough fuel the loop ends in a store without stale rows. *)
Lemma compact_loop_ends fuel effective dc dt d :
  (size d < fuel)%nat ->
  exists dc' dt' d', compact_loop fuel effective dc dt d = Some (dc', dt', d') /\
    compact_rel effective d d' /\
    stale_changelog_keys d' effective = [] /\ stale_tombstone_keys d' effective = [].
Proof.
  revert dc dt d. induction fuel as [|fuel IH]; intros dc dt d Hf; [lia|]. cbn [compact_loop].
  destruct (compact_batch effective d) as [[bc bt] d1] eqn:E.
  pose proof (compact_batch_rel _ _ _ _ _ E) as Hrel.
  destruct ((bc =? 0)%nat && (bt =? 0)%nat) eqn:Hz.
  - exists (dc + bc)%nat, (dt + bt)%nat, d1. split; [done|]. split; [done|].
    apply andb_true_iff in Hz as [Hc%Nat.eqb_eq Ht%Nat.eqb_eq].
    unfold compact_batch in E. injection E as E1 E2 E3. rewrite Hc in E1. rewrite Ht in E2.
    apply nil_length_inv in E1. rewrite E1 in *. simpl in *.
    apply nil_length_inv in E2. rewrite E2 in *. simpl in *. by subst d1.
  - destruct (IH (dc + bc)%nat (dt + bt)%nat d1) as (dc' & dt' & d' & -> & Hr & ?).
    + apply compact_batch_shrinks in E; [lia|]. apply andb_false_iff in Hz.
      destruct Hz as [?%Nat.eqb_neq|?%Nat.eqb_neq]; lia.
    + exists dc', dt', d'. split; [done|]. split; [by eapply compact_rel_trans|done].
Qed.

(** ** Compaction keeps the history *)

Lemma changelog_key_revision_encode r :
  in_u64 r -> changelog_key_revision (encode_changelog_key r) = Some r.
Proof.
  intros Hr. unfold changelog_key_revision, encode_changelog_key.
  rewrite decide_True by (rewrite length_app; lia).
  rewrite drop_app_length. by apply decode_u64_be64.
Qed.

Lemma take_nil_inv {A : Type} n (l : list A) : take (S n) l = [] -> l = [].
Proof. by destruct l. Qed.

Lemma no_stale_changelog d effective k v r :
  stale_changelog_keys d effective = [] -> (k, v) ∈ changelog_rows d ->
  changelog_key_revision k = Some r -> effective <= r.
Proof.
  unfold stale_changelog_keys, COMPACT_BATCH_SIZE. intros E Hin Hr.
  apply take_nil_inv, fmap_nil_inv in E.
  destruct (Z.ltb_spec r effective) as [Hlt|]; [|done]. exfalso.
  assert ((k, v) ∈ List.filter (fun '(key, _) =>
    from_option (fun r => r <? effective) false (changelog_key_revision key)) (changelog_rows d))
    as H.
  { apply elem_of_List_filter. split; [|done]. rewrite Hr. simpl. lia. }
  unfold changelog_rows in H. rewrite E in H. by apply elem_of_nil in H.
Qed.

Lemma elem_of_event_rows (l : history) k v :
  (k, v) ∈ event_row <$> l <-> exists e, e ∈ l /\ k = encode_changelog_key (revision e)
    /\ v = event_to_bytes e.
Proof.
  rewrite list_elem_of_fmap. split.
  - intros (e & E & ?). exists e. split; [done|].
    exact (conj (f_equal fst E) (f_equal snd E)).
  - intros (e & ? & -> & ->). by exists e.
Qed.

Lemma compact_rel_log effective d d' h comp :
  compact_rel effective d d' -> stale_changelog_keys d' effective = [] -> comp <= effective ->
  StronglySorted event_lt h -> Forall event_wf h ->
  changelog_rows d = event_row <$> retained comp h ->
  changelog_rows d' = event_row <$> retained effective h.
Proof.
  intros [_ Hc _] Hstale Hle Hs Hw Hlog. apply iter_prefix_unique.
  { apply event_rows_sorted; [by apply retained_Forall|by apply StronglySorted_List_filter]. }
  assert (forall e, e ∈ h -> changelog_key_revision (encode_changelog_key (revision e))
    = Some (revision e)) as Hkey.
  { intros e He. apply changelog_key_revision_encode. rewrite Forall_forall in Hw. by apply Hw. }
  intros k v. rewrite elem_of_event_rows.
  pose proof (elem_of_iter_prefix d TABLE_CHANGELOG CHANGELOG_PREFIX k v) as Hd.
  fold (changelog_rows d) in Hd. rewrite Hlog, elem_of_event_rows in Hd.
  unfold tx_get in Hc. split.
  - intros (e & He & -> & ->). apply elem_of_List_filter in He as [Her He].
    destruct Hd as [Hd _]. split; [|by eexists].
    destruct (Hc (encode_changelog_key (revision e))) as [->|[_ (r & Hr & ?)]].
    + apply Hd. exists e. split; [|done]. apply elem_of_List_filter. split; [lia|done].
    + rewrite (Hkey e He) in Hr. injection Hr as <-. lia.
  - intros [Hv Hp]. destruct (Hc k) as [E|[E _]]; [|congruence].
    rewrite Hv in E. destruct (proj2 Hd) as (e & He & -> & ->); [by rewrite <-E|].
    exists e. split; [|done]. apply elem_of_List_filter in He as [_ He].
    apply elem_of_List_filter. split; [|done]. apply Z.leb_le.
    eapply no_stale_changelog; [exact Hstale| |by apply Hkey].
    apply elem_of_iter_prefix. by rewrite Hv.
Qed.

Lemma compact_rel_keys s effective d d' h comp hi hi' :
  compact_rel effective d d' -> comp <= effective -> hi <= hi' ->
  keys_rep s d comp hi h -> keys_rep s d' effective hi' h.
Proof.
  intros [_ _ Hk] Hle Hhi Hrep key. specialize (Hrep key). unfold key_rep in *.
  destruct (Hk key) as [[-> ->]|(-> & -> & m & Em & Ed & Hm)].
  - by eapply key_ok_mono; [..|exact Hrep].
  - unfold key_ok in *. rewrite Em, Ed in Hrep. destruct Hrep as (_ & _ & HL & HV).
    split; [done|]. split; [done|]. intros T HT. apply HV. lia.
Qed.

(** The revision after a log entry that only records its application. *)
Lemma current_revision_persist s d a :
  applied_wf a -> (revision_mode s = ModeLogIndex -> current_revision s d <= index a) ->
  current_revision s (note_log_index_revision s (insert_last_applied a d) (index a)) =
  match revision_mode s with ModeLogIndex => index a | ModeCommitTs => current_revision s d end.
Proof.
  intros Ha Hle. unfold note_log_index_revision.
  unfold current_revision in *. destruct (revision_mode s) eqn:Em.
  - rewrite decide_True by done. specialize (Hle eq_refl).
    assert (current_revision_in_tx (insert_last_applied a d) ModeLogIndex <= index a) as H.
    { unfold current_revision_in_tx, insert_last_applied, get_applied_log_id in *.
      rewrite tx_get_insert_ne by done.
      destruct (tx_get d TABLE_META META_CURRENT_REVISION ≫= decode_u64); [done|].
      rewrite tx_get_insert. cbn [mbind option_bind]. rewrite applied_roundtrip by done.
      simpl. lia. }
    destruct (Z.ltb_spec (current_revision_in_tx (insert_last_applied a d) ModeLogIndex)
      (index a)); [|lia].
    unfold current_revision_in_tx at 1, set_current_revision. rewrite tx_get_insert.
    cbn [mbind option_bind]. rewrite decode_u64_be64; [done|]. apply Ha.
  - rewrite decide_False by done. unfold current_revision_in_tx, insert_last_applied.
    by rewrite tx_get_insert_ne.
Qed.

Lemma note_frame s r d t :
  t <> TABLE_META -> same_table t (note_log_index_revision s d r) d.
Proof.
  intros Ht. unfold note_log_index_revision, set_current_revision.
  destruct (decide _); [destruct (_ <? _)|]; frame.
Qed.

Lemma compacted_revision_note s r d :
  compacted_revision (note_log_index_revision s d r) = compacted_revision d.
Proof.
  unfold note_log_index_revision. destruct (decide _); [destruct (_ <? _)|]; try done.
  apply compacted_revision_set_current.
Qed.

(** The revision compaction runs at. *)
Definition effective_revision (s : MvccStorage) (d : db) (rev : Z) : Z :=
  Z.min rev (current_revision s d).

Lemma apply_compact_rep s d h rev a :
  mvcc_rep s d h -> in_u64 rev -> applied_wf a ->
  (revision_mode s = ModeLogIndex -> current_revision s d <= index a) ->
  exists out d', apply_compact s d rev a = Some (out, d') /\ mvcc_rep s d' h /\
    compacted_revision d' = Z.max (compacted_revision d) (effective_revision s d rev) /\
    current_revision s d <= current_revision s d'.
Proof.
  intros Hrep Hr Ha Hidx. unfold apply_compact. fold (effective_revision s d rev).
  set (eff := effective_revision s d rev). pose proof (compacted_revision_range d) as Hc.
  destruct (Z.eqb_spec eff 0) as [E|Hne].
  { exists (0%nat, 0%nat), d. split; [done|]. split; [done|]. unfold in_u64 in Hc. lia. }
  destruct (Z.leb_spec eff (compacted_revision d)) as [Hle|Hlt].
  { exists (0%nat, 0%nat), d. split; [done|]. split; [done|]. lia. }
  destruct (compact_loop_ends (S (size d)) eff 0 0 d) as (dc & dt & dl & -> & Hrel & Hs1 & Hs2);
    [lia|]. cbn [mbind option_bind].
  set (d2 := tx_insert TABLE_META META_COMPACT_REVISION (be64 eff) dl).
  set (d' := note_log_index_revision s (insert_last_applied a d2) (index a)).
  assert (in_u64 eff) as Heff.
  { pose proof (current_revision_range s d). unfold eff, effective_revision, in_u64 in *. lia. }
  assert (current_revision s d2 = current_revision s d) as Hcur2.
  { unfold current_revision, current_revision_in_tx, get_applied_log_id, d2.
    rewrite !tx_get_insert_ne by done. by rewrite !(cr_meta _ _ _ Hrel). }
  assert (current_revision s d <= current_revision s d') as Hcur.
  { unfold d'. rewrite current_revision_persist by (rewrite ?Hcur2; done). rewrite Hcur2.
    destruct (revision_mode s); [by apply Hidx|lia]. }
  assert (compacted_revision d' = eff) as Hcomp.
  { unfold d'. rewrite compacted_revision_note, compacted_revision_last_applied.
    unfold compacted_revision, d2. rewrite tx_get_insert. cbn [mbind option_bind].
    by rewrite decode_u64_be64. }
  assert (forall t, t <> TABLE_META -> same_table t d' dl) as Hframe.
  { intros t Ht. unfold d'. rewrite note_frame by done. unfold insert_last_applied, d2. frame. }
  exists (dc, dt), d'. split; [done|]. split; [|lia].
  destruct Hrep as [H1 H2 H3 H4 H5 H6]. split; rewrite ?Hcomp.
  - done.
  - done.
  - eapply List.Forall_impl; [|exact H3]. simpl. lia.
  - unfold eff, effective_revision. lia.
  - apply log_from_compacted; [done|]. rewrite Hcomp.
    transitivity (changelog_rows dl); [by apply iter_prefix_same, Hframe|].
    pose proof (log_from_bounds d). by eapply compact_rel_log; [..|exact H5]; [| |lia|..].
  - eapply keys_rep_same; [symmetry; by apply Hframe..|].
    by eapply compact_rel_keys; [| |exact Hcur|exact H6]; [|lia].
Qed.

(** C33: compaction terminates and keeps the history.  [apply_compact] always
    ends; the compacted store still represents the whole history, its compacted
    revision is the requested one capped by the current revision (and never
    moves back), and no live read changes. *)
Theorem apply_compact_refines s d h rev a :
  mvcc_rep s d h -> in_u64 rev -> applied_wf a ->
  (revision_mode s = ModeLogIndex -> current_revision s d <= index a) ->
  exists out d', apply_compact s d rev a = Some (out, d') /\ mvcc_rep s d' h /\
    compacted_revision d' = Z.max (compacted_revision d) (Z.min rev (current_revision s d)) /\
    current_revision s d <= current_revision s d' /\
    forall key, get s d' key = get s d key.
Proof.
  intros Hrep Hr Ha Hi. destruct (apply_compact_rep s d h rev a Hrep Hr Ha Hi)
    as (out & d' & ? & Hrep' & ? & ?).
  exists out, d'. do 4 (split; [done|]). intros key.
  by rewrite (get_latest _ _ _ _ Hrep), (get_latest _ _ _ _ Hrep').
Qed.
