(* ===== verification/HistoryRefine.v ===== *)
(** * Historical reads answer from the history

    A read at a past revision that answers at all answers with the value the
    history had at that revision, also after compaction. *)

From S2P Require Export MvccCompact.

Local Open Scope Z_scope.

(** ** Replaying the change log *)

Lemma apply_changes_last key v cs :
  apply_changes key v cs = default v (last_change key cs).
Proof.
  unfold apply_changes, last_change. induction cs as [|c cs IH] using rev_ind; [done|].
  rewrite !foldl_app. simpl. unfold apply_change at 1. by destruct (bytes_eqb _ _).
Qed.

Lemma last_change_touched key cs : is_Some (last_change key cs) <-> key ∈ ch_key <$> cs.
Proof.
  unfold last_change. induction cs as [|c cs IH] using rev_ind.
  { split; [by intros []|intros H; by apply elem_of_nil in H]. }
  rewrite foldl_app, fmap_app, elem_of_app, <-IH. simpl. rewrite list_elem_of_singleton.
  destruct (bytes_eqb_spec (ch_key c) key) as [<-|Hne]; [naive_solver|].
  split; [by left|]. intros [?|?]; [done|congruence].
Qed.

(** What the events up to [T] last say of a key, starting from [acc]. *)
Definition scan_value (key : bytes) (T : Z) (acc : option (option bytes)) (l : history)
    : option (option bytes) :=
  foldl (fun acc e =>
    if revision e <=? T then
      match last_change key (changes e) with Some v => Some v | None => acc end
    else acc) acc l.

(** Whether an event after [T] writes the key. *)
Definition written_later (key : bytes) (T : Z) (l : history) : bool :=
  existsb (fun e => (T <? revision e) && bool_decide (is_Some (last_change key (changes e)))) l.

Lemma try_event_encode e : event_wf e -> try_event (event_to_bytes e) = Ok (Some e).
Proof. intros. unfold try_event. by rewrite event_decode_encode. Qed.

Lemma is_after_spec T r :
  in_u64 r -> in_u64 T -> T < u64_max ->
  bytes_leb (encode_changelog_key (u64_saturating_add T 1)) (encode_changelog_key r) = (T <? r).
Proof.
  intros Hr HT Hm. unfold bytes_leb, u64_saturating_add. rewrite Z.min_l by lia.
  rewrite encode_changelog_key_lt; [|done|unfold_ints; lia].
  destruct (Z.ltb_spec r (T + 1)), (Z.ltb_spec T r); try done; lia.
Qed.

Lemma scan_value_later key T acc l :
  Forall (fun e => T < revision e) l -> scan_value key T acc l = acc.
Proof.
  unfold scan_value. induction 1 as [|e l He _ IH]; [done|]. simpl.
  by destruct (Z.leb_spec (revision e) T); [lia|].
Qed.

Lemma history_scan_spec key T l acc :
  in_u64 T -> T < u64_max -> Forall event_wf l -> StronglySorted event_lt l ->
  history_scan key (encode_changelog_key (u64_saturating_add T 1)) (event_row <$> l) acc =
  Ok (scan_value key T acc l, written_later key T l).
Proof.
  intros HT Hm Hw Hs. revert acc. induction Hs as [|e l Hs IH He]; intros acc; [done|].
  apply Forall_cons in Hw as [Hwe Hw].
  rewrite fmap_cons. cbn [history_scan event_row].
  rewrite is_after_spec, try_event_encode by (done || apply Hwe). cbn [mbind result_bind option_bind].
  cbn [scan_value foldl written_later existsb].
  fold (scan_value key T) (written_later key T).
  destruct (last_change key (changes e)) as [v|]; cbn [from_option].
  - destruct (Z.ltb_spec T (revision e)) as [Hlt|Hge].
    + rewrite bool_decide_eq_true_2 by done. simpl.
      destruct (Z.leb_spec (revision e) T); [lia|]. fold (scan_value key T acc l).
      rewrite scan_value_later; [done|]. eapply List.Forall_impl; [|exact He].
      intros e' ?. unfold event_lt in *. lia.
    + simpl. destruct (Z.leb_spec (revision e) T); [|lia]. by apply IH.
  - rewrite bool_decide_eq_false_2 by (by intros []). rewrite andb_false_r. simpl.
    rewrite IH by done. by destruct (revision e <=? T).
Qed.

(** ** The retained part of the history *)

Lemma retained_split comp h :
  StronglySorted event_lt h ->
  exists old, h = old ++ retained comp h /\ Forall (fun e => revision e < comp) old.
Proof.
  unfold retained. induction 1 as [|e h Hs IH He]; [by exists []|]. simpl.
  destruct (Z.leb_spec comp (revision e)) as [Hle|Hlt].
  - exists []. split; [|done]. simpl. f_equal. clear IH Hs.
    induction He as [|e' h He' _ IH]; [done|]. simpl. unfold event_lt in He'.
    destruct (Z.leb_spec comp (revision e')); [|lia]. by rewrite <-IH.
  - destruct IH as (old & E & Ho). exists (e :: old). simpl. rewrite <-E.
    by rewrite Forall_cons.
Qed.

Lemma value_at_scan old l key T :
  value_at (old ++ l) key T = default (value_at old key T) (scan_value key T None l).
Proof.
  induction l as [|e l IH] using rev_ind; [by rewrite app_nil_r|].
  rewrite app_assoc, value_at_snoc, IH. unfold scan_value. rewrite foldl_app.
  fold (scan_value key T None l). simpl. destruct (revision e <=? T); [|done].
  rewrite apply_changes_last. by destruct (last_change key (changes e)).
Qed.

Definition untouched (key : bytes) (e : ChangeEvent) : Prop := last_change key (changes e) = None.

Lemma scan_value_None key T l :
  scan_value key T None l = None <->
  Forall (fun e => revision e <= T -> untouched key e) l.
Proof.
  induction l as [|e l IH] using rev_ind; [done|].
  rewrite Forall_app, Forall_singleton, <-IH. unfold scan_value. rewrite foldl_app.
  fold (scan_value key T None l). simpl. unfold untouched.
  destruct (Z.leb_spec (revision e) T), (last_change key (changes e)); naive_solver lia.
Qed.

Lemma written_later_false key T l :
  written_later key T l = false <-> Forall (fun e => T < revision e -> untouched key e) l.
Proof.
  unfold written_later, untouched. induction l as [|e l IH]; [done|]. simpl.
  rewrite Forall_cons, orb_false_iff, IH, andb_false_iff, Z.ltb_ge, bool_decide_eq_false.
  rewrite <-eq_None_not_Some. split; intros [H1 H2]; (split; [|done]).
  - intros. by destruct H1; [lia|].
  - destruct (Z.ltb_spec T (revision e)); [right; auto|by left].
Qed.

(** A key not written after [T] has had its latest value since. *)
Lemma value_at_not_later h key T :
  Forall (fun e => T < revision e -> untouched key e) h -> value_at h key T = latest h key.
Proof.
  induction h as [|e h IH] using rev_ind; [done|]. rewrite Forall_app, Forall_singleton.
  intros [Hh He]. rewrite value_at_snoc, latest_snoc, IH by done.
  destruct (Z.leb_spec (revision e) T) as [|Hlt]; [done|].
  by rewrite apply_changes_last, (He Hlt).
Qed.

Lemma value_at_not_written s d h key T :
  mvcc_rep s d h -> compacted_revision d < T ->
  written_later key T (retained (log_from d) h) = false ->
  value_at h key T = latest h key.
Proof.
  intros Hrep HT Hw%written_later_false. apply value_at_not_later. pose proof (log_from_bounds d).
  rewrite Forall_forall in *. intros e He Hlt. apply Hw; [|done].
  apply elem_of_List_filter. split; [apply Z.leb_le; lia|done].
Qed.

Lemma created_after_value s d h key T :
  mvcc_rep s d h -> compacted_revision d < T -> created_after d key T = true ->
  value_at h key T = None.
Proof.
  intros Hrep HT. pose proof (rep_keys _ _ _ Hrep key) as Hk.
  unfold key_rep, key_ok in Hk. unfold created_after.
  destruct (get_kv_metadata d key) as [m|]; [|done]. intros Hc%Z.ltb_lt.
  destruct Hk as (_ & H & _). by apply H.
Qed.

(** ** Point reads *)

Section point.
  Context {fc : FloorCodec}.
  Context (s : MvccStorage) (d : db) (h : history) (Hrep : mvcc_rep s d h).

Abbreviation log := (retained (log_from d) h).

Lemma history_scan_log key T :
  in_u64 T -> T < u64_max ->
  history_scan key (encode_changelog_key (u64_saturating_add T 1)) (changelog_rows d) None =
  Ok (scan_value key T None log, written_later key T log).
Proof.
  intros HT Hm. rewrite (rep_log _ _ _ Hrep). apply history_scan_spec; [done..| |].
  - apply retained_Forall, (rep_wf _ _ _ Hrep).
  - apply StronglySorted_List_filter, (rep_sorted _ _ _ Hrep).
Qed.

Lemma value_at_scan_log key T v :
  scan_value key T None log = Some v -> value_at h key T = v.
Proof.
  intros E. destruct (retained_split (log_from d) h (rep_sorted _ _ _ Hrep))
    as (old & Eh & _). rewrite Eh at 1. rewrite value_at_scan. by rewrite E.
Qed.

Lemma get_at_revision_value key T v :
  in_u64 T -> T < u64_max -> get_at_revision s d key T = Ok v -> v = value_at h key T.
Proof.
  intros HT Hm H. unfold get_at_revision in H. inv_bind.
  unfold ensure_history_reconstructable in H.
  destruct (Z.leb_spec T (compacted_revision d)) as [|Hc]; [done|].
  rewrite history_scan_log in H1 by done. inv_bind. symmetry.
  destruct (scan_value key T None log) as [x|] eqn:Es.
  { inv_bind. by apply value_at_scan_log. }
  destruct (written_later key T log) eqn:Ew; simpl in H2.
  - destruct (created_after d key T) eqn:Ec; [|done]. injection H2 as <-.
    by eapply created_after_value.
  - rewrite (get_latest _ _ _ _ Hrep) in H2. injection H2 as <-.
    by eapply value_at_not_written.
Qed.

(** C28: historical point reads are sound.  Whenever [get_at_revision] answers,
    the answer is the value the key had at the requested revision, however the
    store was compacted in between. *)
Theorem get_at_revision_sound key T v :
  in_u64 T -> T < u64_max -> get_at_revision s d key T = Ok v -> v = value_at h key T.
Proof. apply get_at_revision_value. Qed.

(** Historical point reads are complete while nothing is compacted.  In a
    store without compaction and imports, a read of any key that was ever put
    (and is still known by its metadata), at any revision after zero, is
    answered, with the value of that revision. *)
Theorem get_at_revision_complete key T m :
  in_u64 T -> 0 < T < u64_max -> compacted_revision d = 0 ->
  import_history_floors d = Ok [] -> get_kv_metadata d key = Some m ->
  get_at_revision s d key T = Ok (value_at h key T).
Proof.
  intros HT Hm Hc Hf Hmeta. unfold get_at_revision, ensure_history_reconstructable.
  destruct (Z.leb_spec T (compacted_revision d)) as [|Hlt]; [lia|].
  unfold ensure_key_import_history_available. rewrite Hf. cbn [mbind result_bind existsb guard_err].
  rewrite history_scan_log by (done || lia). cbn [mbind result_bind].
  destruct (scan_value key T None log) as [x|] eqn:Es.
  { by rewrite (value_at_scan_log _ _ _ Es). }
  destruct (written_later key T log) eqn:Ew; cbn [negb].
  - assert (created_after d key T = true) as Hca.
    { unfold created_after. rewrite Hmeta. apply Z.ltb_lt.
      pose proof (rep_keys _ _ _ Hrep key) as Hk. unfold key_rep, key_ok in Hk. rewrite Hmeta in Hk.
      destruct Hk as ([_ (e & He & Hr & Ht)] & _). rewrite <-Hr.
      apply scan_value_None in Es. rewrite Forall_forall in Es.
      apply Z.nle_gt. intros Hle. apply last_change_touched in Ht as [v Hv].
      unfold untouched in Es. rewrite Es in Hv; [done| |done].
      apply elem_of_List_filter. split; [|done].
      rewrite (proj2 (log_from_bounds d) Hc). apply Z.leb_le.
      pose proof (rep_wf _ _ _ Hrep) as Hw. rewrite Forall_forall in Hw. by apply Hw. }
    rewrite Hca. by rewrite (created_after_value s d h).
  - rewrite (get_latest _ _ _ _ Hrep). f_equal. symmetry. by eapply value_at_not_written.
Qed.

End point.

(** ** Range reads *)

Lemma elem_of_sorted_entries {A : Type} (m : gmap bytes A) k x :
  (k, x) ∈ sorted_entries m <-> m !! k = Some x.
Proof.
  unfold sorted_entries. rewrite list_elem_of_omap. split.
  - intros (k' & _ & E). destruct (m !! k') eqn:Em; simpl in E; by simplify_eq.
  - intros E. exists k. rewrite merge_sort_Permutation, elem_of_elements, elem_of_dom, E.
    split; [by eexists|done].
Qed.

Definition key_lt {A : Type} (x y : bytes * A) : Prop := bytes_lt x.1 y.1.

Lemma merge_sort_strict (l : list bytes) : NoDup l -> StronglySorted bytes_lt (merge_sort bytes_le l).
Proof.
  intros Hn. assert (StronglySorted bytes_le (merge_sort bytes_le l)) as Hs
    by (apply StronglySorted_merge_sort; apply _).
  assert (NoDup (merge_sort bytes_le l)) as Hnd by (by rewrite merge_sort_Permutation).
  revert Hnd. clear Hn. induction Hs as [|x l' Hs IH Hx]; intros Hnd; [constructor|].
  apply NoDup_cons in Hnd as [Hn Hnd]. constructor; [auto|]. rewrite Forall_forall in *.
  intros y Hy. specialize (Hx y Hy). apply bytes_le_lt_eq in Hx as [?| ->]; done.
Qed.

Lemma sorted_entries_sorted {A : Type} (m : gmap bytes A) :
  StronglySorted key_lt (sorted_entries m).
Proof.
  unfold sorted_entries.
  pose proof (merge_sort_strict (elements (dom m)) (NoDup_elements _)) as Hs.
  induction Hs as [|k l Hs IH Hk]; [constructor|]. rewrite omap_cons.
  destruct (m !! k) as [x|]; simpl; [|done]. constructor; [done|].
  pose proof (proj1 (Forall_forall (bytes_lt k) l) Hk) as Hk'.
  rewrite Forall_forall. intros [k' x'] (k2 & Hin & E)%list_elem_of_omap.
  destruct (m !! k2); simpl in E; simplify_eq. by apply Hk'.
Qed.

Lemma key_sorted_NoDup {A : Type} (l : list (bytes * A)) : StronglySorted key_lt l -> NoDup l.*1.
Proof.
  induction 1 as [|x l Hs IH Hx]; simpl; constructor; [|done].
  intros (y & E & Hy)%list_elem_of_fmap. rewrite Forall_forall in Hx. specialize (Hx y Hy).
  unfold key_lt in Hx. rewrite E in Hx. by destruct (irreflexivity bytes_lt y.1).
Qed.

Lemma candidate_map_lookup (changed : gset bytes) (live : list (bytes * bytes)) k :
  NoDup live.*1 ->
  (forall v, (k, v) ∈ live -> candidate_map changed live !! k = Some (Some v)) /\
  (k ∉ live.*1 ->
   candidate_map changed live !! k = if decide (k ∈ changed) then Some None else None).
Proof.
  unfold candidate_map. induction live as [|[k' v'] live IH] using rev_ind; intros Hnd.
  - simpl. split; [intros v H; by apply elem_of_nil in H|]. intros _.
    case_decide as Hc.
    + apply lookup_set_to_map; [done|]. by exists k.
    + apply eq_None_not_Some. intros [x Hx]. apply lookup_set_to_map in Hx; [|done].
      destruct Hx as (k1 & ? & [= -> _]). done.
  - rewrite fmap_app, NoDup_app in Hnd. destruct Hnd as (Hnd & Hdis & _).
    destruct (IH Hnd) as [IH1 IH2]. rewrite foldl_app, fmap_app. simpl.
    destruct (decide (k' = k)) as [->|Hne].
    + rewrite lookup_insert_eq. split.
      * intros v [Hin|[= ->]%list_elem_of_singleton]%elem_of_app; [|done].
        destruct (Hdis k); [|by left]. apply list_elem_of_fmap. by exists (k, v).
      * intros Hn. destruct Hn. apply elem_of_app. right. left.
    + rewrite lookup_insert_ne by done. split.
      * intros v [Hin|[= -> ->]%list_elem_of_singleton]%elem_of_app; [by apply IH1|done].
      * intros Hn. apply IH2. intros Hin. apply Hn, elem_of_app. by left.
Qed.

(** One event of the replay. *)
Definition replay_event (start range_end : bytes) (T : Z) (st : ReplayState) (e : ChangeEvent)
    : ReplayState :=
  foldl (replay_change start range_end (T <? revision e) (revision e)) st (changes e).

Lemma replay_rows_spec start range_end T l st :
  in_u64 T -> T < u64_max -> Forall event_wf l ->
  replay_rows start range_end (encode_changelog_key (u64_saturating_add T 1)) (event_row <$> l) st =
  Ok (foldl (replay_event start range_end T) st l).
Proof.
  intros HT Hm Hw. revert st. induction Hw as [|e l Hwe _ IH]; intros st; [done|].
  rewrite fmap_cons. cbn [replay_rows event_row].
  rewrite is_after_spec, try_event_encode by (done || apply Hwe). cbn [mbind result_bind].
  by rewrite IH.
Qed.

Section replay_state.
  Context (start range_end : bytes) (T : Z).

Lemma replay_changes_view is_after r cs st k :
  in_range start range_end k = true ->
  rp_view (foldl (replay_change start range_end is_after r) st cs) !! k =
  if (is_after : bool) then rp_view st !! k else apply_changes k (rp_view st !! k) cs.
Proof.
  intros Hk. revert st. induction cs as [|c cs IH] using rev_ind; intros st;
    [by destruct is_after|].
  rewrite foldl_app. simpl. rewrite apply_changes_snoc. unfold replay_change at 1, apply_change.
  destruct (bytes_eqb_spec (ch_key c) k) as [<-|Hne].
  - rewrite Hk. simpl. destruct is_after; simpl; [by rewrite IH|].
    destruct (ch_value c); by simplify_map_eq.
  - destruct (negb _); [by rewrite IH|]. destruct is_after; simpl; [by rewrite IH|].
    destruct (ch_value c); simplify_map_eq; by rewrite IH.
Qed.

Lemma replay_changes_after is_after r cs st k :
  k ∈ rp_changed_after (foldl (replay_change start range_end is_after r) st cs) <->
  k ∈ rp_changed_after st \/
  (is_after = true /\ in_range start range_end k = true /\ k ∈ ch_key <$> cs).
Proof.
  revert st. induction cs as [|c cs IH] using rev_ind; intros st.
  { simpl. rewrite elem_of_nil. naive_solver. }
  rewrite foldl_app, fmap_app, elem_of_app. simpl. rewrite list_elem_of_singleton.
  unfold replay_change at 1. destruct (in_range start range_end (ch_key c)) eqn:Er; simpl.
  - destruct is_after; simpl; [|rewrite IH; naive_solver].
    rewrite elem_of_union, elem_of_singleton, IH. naive_solver.
  - rewrite IH. naive_solver congruence.
Qed.

Lemma replay_view l k :
  in_range start range_end k = true ->
  rp_view (foldl (replay_event start range_end T) replay_init l) !! k = value_at l k T.
Proof.
  intros Hk. induction l as [|e l IH] using rev_ind; [done|].
  rewrite foldl_app, value_at_snoc. simpl. unfold replay_event at 1.
  rewrite replay_changes_view, IH by done.
  by destruct (Z.ltb_spec T (revision e)), (Z.leb_spec (revision e) T); try lia.
Qed.

Lemma replay_changed_after l k :
  k ∈ rp_changed_after (foldl (replay_event start range_end T) replay_init l) <->
  in_range start range_end k = true /\ written_later k T l = true.
Proof.
  unfold written_later. induction l as [|e l IH] using rev_ind.
  { simpl. rewrite elem_of_empty. naive_solver. }
  rewrite foldl_app, existsb_app, orb_true_iff. simpl. rewrite orb_false_r.
  unfold replay_event at 1. rewrite replay_changes_after, IH, andb_true_iff, bool_decide_eq_true,
    last_change_touched. tauto.
Qed.

(** The replay only knows keys of the range. *)
Lemma replay_view_range l k v :
  rp_view (foldl (replay_event start range_end T) replay_init l) !! k = Some v ->
  in_range start range_end k = true.
Proof.
  intros H. destruct (in_range start range_end k) eqn:Ek; [done|]. exfalso.
  assert (forall is_after r cs st, rp_view st !! k = None ->
    rp_view (foldl (replay_change start range_end is_after r) st cs) !! k = None) as Hc.
  { intros is_after r cs. induction cs as [|c cs IH]; intros st Hst; [done|]. simpl.
    apply IH. unfold replay_change. destruct (in_range start range_end (ch_key c)) eqn:Er; [|done].
    simpl. destruct is_after; [done|]. simpl.
    destruct (ch_value c); rewrite ?lookup_insert_ne, ?lookup_delete_ne by congruence; done. }
  assert (rp_view (foldl (replay_event start range_end T) replay_init l) !! k = None); [|congruence].
  clear H. induction l as [|e l IH] using rev_ind; [done|]. rewrite foldl_app. simpl.
  by apply Hc.
Qed.

End replay_state.

(** The completion step adds the live keys that were not written later, and
    reports the keys it cannot place. *)
Lemma complete_view_spec d T changed cands view view' bad :
  NoDup cands.*1 ->
  complete_view d T changed cands view = (view', bad) -> bad = [] ->
  (forall k v, view' !! k = Some v <->
     view !! k = Some v \/ (view !! k = None /\ k ∉ changed /\ (k, Some v) ∈ cands)) /\
  (forall k x, (k, x) ∈ cands -> view !! k = None -> k ∈ changed -> created_after d k T = true).
Proof.
  unfold complete_view. revert view' bad.
  induction cands as [|[k0 x0] cands IH] using rev_ind; intros view' bad Hnd E Hb.
  { simpl in E. injection E as <- <-. split.
    - intros k v. rewrite elem_of_nil. naive_solver.
    - intros k x H. by apply elem_of_nil in H. }
  rewrite fmap_app, NoDup_app in Hnd. destruct Hnd as (Hnd & Hdis & _).
  rewrite foldl_app in E. destruct (foldl _ (view, []) cands) as [view1 bad1] eqn:E1.
  simpl in E.
  assert (bad1 = [] /\ view1 !! k0 = view !! k0) as [-> Hv0].
  { assert (bad1 = []) as ->.
    { destruct (view1 !! k0); [congruence|]. case_decide; [|destruct x0; congruence].
      destruct (created_after d k0 T); [congruence|]. simplify_eq. by destruct bad1. }
    split; [done|]. destruct (IH _ _ Hnd eq_refl eq_refl) as [IH1 _]. apply option_eq. intros v.
    rewrite IH1. split; [|by left]. intros [?|(_ & _ & Hin)]; [done|]. exfalso.
    apply (Hdis k0); [|by left]. apply list_elem_of_fmap. by exists (k0, Some v). }
  destruct (IH _ _ Hnd eq_refl eq_refl) as [IH1 IH2].
  setoid_rewrite elem_of_app. setoid_rewrite list_elem_of_singleton. rewrite Hv0 in E.
  assert (forall x, (k0, x) ∈ cands -> False) as Hk0.
  { intros x Hin. apply (Hdis k0); [|by left]. apply list_elem_of_fmap. by exists (k0, x). }
  destruct (view !! k0) as [v0|] eqn:Ev0.
  { injection E as <- <-. split; [|naive_solver]. intros k v. rewrite IH1. naive_solver. }
  case_decide as Hc.
  { destruct (created_after d k0 T) eqn:Ec; [|simplify_eq; by destruct bad].
    injection E as <- <-. split; [|naive_solver]. intros k v. rewrite IH1. naive_solver. }
  destruct x0 as [x0|]; injection E as <- <-; (split; [|naive_solver]); intros k v.
  - destruct (decide (k0 = k)) as [->|Hne].
    + rewrite lookup_insert_eq, Ev0. naive_solver.
    + rewrite lookup_insert_ne, IH1 by done. naive_solver.
  - rewrite IH1. naive_solver.
Qed.

Section range.
  Context {fc : FloorCodec}.
  Context (s : MvccStorage) (d : db) (h : history) (Hrep : mvcc_rep s d h).

Lemma in_range_bounded start range_end k :
  range_end <> [] ->
  in_range start range_end k = true <-> bytes_le start k /\ bytes_lt k range_end.
Proof.
  intros Hne. unfold in_range. rewrite andb_true_iff. unfold bytes_eqb.
  rewrite bool_decide_eq_false_2 by done. done.
Qed.

(** Values found in the retained part are those of the history. *)
Lemma value_at_log k T v :
  value_at (retained (log_from d) h) k T = Some v -> value_at h k T = Some v.
Proof.
  intros H. apply (value_at_scan_log s d h Hrep).
  pose proof (value_at_scan [] (retained (log_from d) h) k T) as E.
  change (value_at [] k T) with (@None bytes) in E. rewrite app_nil_l in E.
  rewrite H in E. destruct (scan_value _ _ _ _) as [x|]; simpl in E; congruence.
Qed.

Lemma replay_historical_range_view start range_end T st :
  in_u64 T -> T < u64_max -> range_end <> [] ->
  replay_historical_range s d start range_end T = Ok st ->
  forall k v, rp_view st !! k = Some v <->
    (bytes_le start k /\ bytes_lt k range_end) /\ value_at h k T = Some v.
Proof.
  intros HT Hm Hne H k v. unfold replay_historical_range in H. inv_bind.
  assert (compacted_revision d < T) as Hc.
  { unfold ensure_history_reconstructable in H. destruct (Z.leb_spec T (compacted_revision d)); done. }
  rewrite (rep_log _ _ _ Hrep), replay_rows_spec in H1
    by (done || apply retained_Forall, (rep_wf _ _ _ Hrep)). inv_bind.
  set (l := retained (log_from d) h) in *.
  set (st0 := foldl (replay_event start range_end T) replay_init l) in *.
  unfold range_in in H2. fold (kv_rows d start range_end) in H2.
  rewrite (range_loop_live _ _ _ _ _ _ _ _ _ (rep_keys _ _ _ Hrep) (kv_rows_ok _ _ _)) in H2.
  inv_bind. destruct (kv_rows_answer _ _ _ _ _ start range_end (rep_keys _ _ _ Hrep)) as [Hsort Hlive].
  set (live := take_rest 0 0 _) in *.
  destruct (complete_view d T _ _ _) as [view bad] eqn:Ecv. inv_bind.
  assert (bad = []) as Hbad.
  { unfold negb in *. case_bool_decide; done. }
  destruct (complete_view_spec _ _ _ _ _ _ _ (key_sorted_NoDup _ (sorted_entries_sorted _)) Ecv Hbad)
    as [Hview Hcreated].
  setoid_rewrite elem_of_sorted_entries in Hview.
  setoid_rewrite elem_of_sorted_entries in Hcreated.
  simpl. rewrite Hview. clear Hview Ecv.
  destruct (candidate_map_lookup (rp_changed_after st0) live k) as [Hcm1 Hcm2];
    [by apply (key_sorted_NoDup live)|].
  rewrite <-in_range_bounded by done.
  destruct (in_range start range_end k) eqn:Ek.
  - unfold st0 at 1 2. rewrite replay_view by done.
    destruct (written_later k T l) eqn:Ew.
    + assert (k ∈ rp_changed_after st0) as Hin by (by apply replay_changed_after).
      assert (value_at l k T = None -> value_at h k T = None) as Hnone.
      { intros E. eapply created_after_value; [done..|].
        destruct (candidate_map (rp_changed_after st0) live !! k) as [x|] eqn:Ex.
        - eapply Hcreated; [exact Ex| |done]. unfold st0. by rewrite replay_view.
        - destruct (decide (k ∈ live.*1)) as [([k1 v1] & -> & Hi)%list_elem_of_fmap|Hn].
          + by specialize (Hcm1 v1 Hi).
          + specialize (Hcm2 Hn). by case_decide. }
      destruct (value_at l k T) as [w|] eqn:Ewv; [rewrite (value_at_log _ _ _ Ewv)|];
        naive_solver.
    + assert (k ∉ rp_changed_after st0) as Hn.
      { intros [_ ?]%replay_changed_after. congruence. }
      rewrite (value_at_not_written s d h k T) by done.
      assert (candidate_map (rp_changed_after st0) live !! k = Some (Some v) <->
              latest h k = Some v) as Hcand.
      { destruct (latest h k) as [w|] eqn:El.
        - rewrite (Hcm1 w); [naive_solver|]. apply Hlive. by rewrite <-in_range_bounded.
        - split; [|done]. rewrite Hcm2; [by rewrite decide_False|].
          intros ([k1 v1] & -> & [_ ?]%Hlive)%list_elem_of_fmap. simpl in *. congruence. }
      destruct (value_at l k T) as [w|] eqn:Ewv.
      * pose proof (value_at_log _ _ _ Ewv) as E.
        rewrite (value_at_not_written s d h k T) in E by done. naive_solver.
      * naive_solver.
  - split; [|naive_solver]. intros [E|(_ & Hn & Hcand)]; exfalso.
    + apply replay_view_range in E. congruence.
    + destruct (decide (k ∈ live.*1)) as [([k1 v1] & -> & [Hr _]%Hlive)%list_elem_of_fmap|Hni].
      * rewrite <-in_range_bounded in Hr by done. simpl in Ek. congruence.
      * rewrite (Hcm2 Hni), decide_False in Hcand by done. done.
Qed.

(** C29: historical range reads are sound.  Whenever [range_at_revision] answers
    for a bounded interval, it returns, in key order, exactly the keys that had
    a value at the requested revision, with those values, cut to the limit. *)
Theorem range_at_revision_sound start range_end limit T out :
  in_u64 T -> T < u64_max -> range_end <> [] ->
  range_at_revision s d start range_end limit T = Ok out ->
  exists l, out = take_limit limit l /\ StronglySorted pair_lt l /\
    forall k v, (k, v) ∈ l <->
      (bytes_le start k /\ bytes_lt k range_end) /\ value_at h k T = Some v.
Proof.
  intros HT Hm Hne H. unfold range_at_revision in H. inv_bind.
  exists (sorted_entries (rp_view x)). split; [done|].
  split; [apply sorted_entries_sorted|]. intros k v. rewrite elem_of_sorted_entries.
  by apply replay_historical_range_view.
Qed.

End range.
