(* ===== verification/Watermark.v ===== *)
(** * Watermarks and fences

    The monotone marks the system Region publishes ([set_safe_ts_fence],
    [publish_commit_watermark], [advance_commit_ts_watermark]) and the direct
    write fence of a Region under migration, of
    [coord-server/src/storage/mvcc.rs]. *)

From S2P Require Export HistoryRefine.

Local Open Scope Z_scope.

(** ** Operations *)

(** [applied_contains]: this log entry has been applied. *)
Definition applied_contains (d : db) (applied : AppliedLogId) : bool :=
  match get_applied_log_id d with
  | Some last => index applied <=? index last
  | None => false
  end.

Definition read_u64 (d : db) (k : bytes) : Z := default 0 (tx_get d TABLE_KV k ≫= decode_u64).

Definition safe_ts_fence (d : db) : Z := read_u64 d SAFE_TS_FENCE.
Definition commit_watermark (d : db) : Z := read_u64 d COMMIT_WATERMARK.

(** The common body of [set_safe_ts_fence] and [publish_commit_watermark]: a
    mark that only moves forward, once per log entry. *)
Definition publish_mark (k : bytes) (mark : Z) (applied : AppliedLogId) (d : db) : Z * db :=
  let prev := read_u64 d k in
  if applied_contains d applied then (prev, d)
  else
    let effective := Z.max prev mark in
    let d := if prev <? effective then tx_insert TABLE_KV k (be64 effective) d else d in
    (effective, insert_last_applied applied d).

Definition set_safe_ts_fence (fence_ts : Z) (applied : AppliedLogId) (d : db) : Z * db :=
  publish_mark SAFE_TS_FENCE fence_ts applied d.

Definition publish_commit_watermark (watermark : Z) (applied : AppliedLogId) (d : db) : Z * db :=
  publish_mark COMMIT_WATERMARK watermark applied d.

Definition advance_commit_ts_watermark (s : MvccStorage) (commit_ts : Z)
    (applied : AppliedLogId) (d : db) : Z * db :=
  let current_before := current_revision_in_tx d (revision_mode s) in
  if applied_contains d applied then (current_before, d)
  else
    let d := note_log_index_revision s d (index applied) in
    let current := current_revision_in_tx d (revision_mode s) in
    let effective := if decide (revision_mode s = ModeCommitTs)
                     then Z.max current commit_ts else current in
    let d := if current <? effective then set_current_revision effective d else d in
    (effective, insert_last_applied applied d).

Definition direct_write_fence_in_tx (d : db) : result (option DirectWriteFence) :=
  match tx_get d TABLE_KV DIRECT_WRITE_FENCE with
  | None => Ok None
  | Some x => f ← ok_or (decode_direct_write_fence x) Storage; Ok (Some f)
  end.

Definition direct_write_fence (d : db) : result (option DirectWriteFence) :=
  direct_write_fence_in_tx d.

Definition fence_direct_writes (start end_ : bytes) (op_id : Z) (applied : AppliedLogId) (d : db)
    : result Z * db :=
  backend_write d (fun d =>
    if applied_contains d applied then
      f ← direct_write_fence_in_tx d;
      Ok (from_option fence_op_id 0 f, d)
    else
      let d := tx_insert TABLE_KV DIRECT_WRITE_FENCE (encode_direct_write_fence start end_ op_id) d in
      Ok (op_id, insert_last_applied applied d)).

Definition clear_direct_write_fence (op_id : Z) (applied : AppliedLogId) (d : db)
    : result unit * db :=
  backend_write d (fun d =>
    if applied_contains d applied then Ok (tt, d)
    else
      f ← direct_write_fence_in_tx d;
      let mine := from_option (fun fence => (op_id =? 0) || (fence_op_id fence =? op_id)) false f in
      let d := if (mine : bool) then tx_remove TABLE_KV DIRECT_WRITE_FENCE d else d in
      Ok (tt, insert_last_applied applied d)).

(** A point write passes [None], a range write its upper bound. *)
Definition direct_write_fence_hit (d : db) (key : bytes) (end_ : option bytes)
    : result (option Z) :=
  f ← direct_write_fence d;
  match f with
  | None => Ok None
  | Some fence =>
    let hit := match end_ with
               | None => fence_contains (fence_start fence) (fence_end fence) key
               | Some e =>
                 let empty := negb (bytes_eqb e []) && bytes_leb e key in
                 negb empty && (bytes_eqb (fence_end fence) [] || bytes_ltb key (fence_end fence))
                   && (bytes_eqb e [] || bytes_ltb (fence_start fence) e)
               end in
    Ok (if hit then Some (fence_op_id fence) else None)
  end.

(** ** Facts *)

Lemma applied_contains_insert a a' d :
  applied_wf a -> applied_contains (insert_last_applied a d) a' = (index a' <=? index a).
Proof.
  intros Ha. unfold applied_contains, get_applied_log_id, insert_last_applied.
  rewrite tx_get_insert. cbn [mbind option_bind]. by rewrite applied_roundtrip.
Qed.

Lemma read_u64_range d k : in_u64 (read_u64 d k).
Proof.
  unfold read_u64. destruct (tx_get d TABLE_KV k) as [x|]; [|by vm_compute].
  cbn [mbind option_bind]. destruct (decode_u64 x) eqn:E; [|by vm_compute].
  by eapply decode_u64_range.
Qed.

Lemma read_u64_insert k z d : in_u64 z -> read_u64 (tx_insert TABLE_KV k (be64 z) d) k = z.
Proof.
  intros. unfold read_u64. rewrite tx_get_insert. cbn [mbind option_bind].
  by rewrite decode_u64_be64.
Qed.

Lemma read_u64_last_applied a d k : read_u64 (insert_last_applied a d) k = read_u64 d k.
Proof. unfold read_u64, insert_last_applied. by rewrite tx_get_insert_ne. Qed.

Lemma publish_mark_value k mark a d :
  in_u64 mark ->
  let '(r, d') := publish_mark k mark a d in
  read_u64 d' k = r /\
  r = if applied_contains d a then read_u64 d k else Z.max (read_u64 d k) mark.
Proof.
  intros Hm. pose proof (read_u64_range d k) as Hp. unfold publish_mark.
  destruct (applied_contains d a); [done|]. split; [|done].
  rewrite read_u64_last_applied. destruct (Z.ltb_spec (read_u64 d k) (Z.max (read_u64 d k) mark)).
  - rewrite read_u64_insert; [done|]. unfold in_u64 in *. lia.
  - lia.
Qed.

(** Published marks only move forward and replay once.  The safe-point
    fence and the commit watermark become the maximum of their old value and
    the published one; applying the same log entry again, even with another
    value, returns the mark unchanged and leaves the store as it is. *)
Theorem publish_mark_monotone k mark mark' a d :
  in_u64 mark -> applied_wf a -> applied_contains d a = false ->
  let '(r, d') := publish_mark k mark a d in
  r = Z.max (read_u64 d k) mark /\ read_u64 d' k = r /\ publish_mark k mark' a d' = (r, d').
Proof.
  intros Hm Ha Hn. pose proof (publish_mark_value k mark a d Hm) as Hv.
  destruct (publish_mark k mark a d) as [r d'] eqn:E. rewrite Hn in Hv.
  destruct Hv as [Hr Hmax]. split; [done|]. split; [done|].
  unfold publish_mark at 1. rewrite Hr.
  assert (applied_contains d' a = true) as ->; [|done].
  unfold publish_mark in E. rewrite Hn in E. injection E as _ <-.
  rewrite applied_contains_insert by done. apply Z.leb_refl.
Qed.

Lemma publish_mark_monotone_witness :
  let a := {| term := 1; node_id := 1; index := 3 |} in
  let '(r, d') := publish_mark SAFE_TS_FENCE 7 a ∅ in
  r = Z.max (read_u64 ∅ SAFE_TS_FENCE) 7 /\ read_u64 d' SAFE_TS_FENCE = r /\
  publish_mark SAFE_TS_FENCE 9 a d' = (r, d').
Proof.
  intros a. apply (publish_mark_monotone SAFE_TS_FENCE 7 9 a ∅);
    [by vm_compute|by repeat split|reflexivity].
Defined.

(** ** The safe point *)

Lemma current_revision_commit_ts s a d :
  revision_mode s = ModeCommitTs ->
  current_revision s (insert_last_applied a d) = current_revision s d.
Proof.
  intros Hm. unfold current_revision, current_revision_in_tx, insert_last_applied. rewrite Hm.
  by rewrite tx_get_insert_ne.
Qed.

Lemma advance_commit_ts_value s ts a d :
  revision_mode s = ModeCommitTs -> in_u64 ts -> applied_contains d a = false ->
  let '(r, d') := advance_commit_ts_watermark s ts a d in
  r = Z.max (current_revision s d) ts /\ current_revision s d' = r /\
  compacted_revision d' = compacted_revision d /\
  forall t, t <> TABLE_META -> same_table t d' d.
Proof.
  intros Hm Hts Hn. unfold advance_commit_ts_watermark, note_log_index_revision. rewrite Hn, Hm.
  rewrite (decide_False (P := ModeCommitTs = ModeLogIndex)) by done.
  rewrite (decide_True (P := ModeCommitTs = ModeCommitTs)) by done.
  replace (current_revision_in_tx d ModeCommitTs) with (current_revision s d)
    by (unfold current_revision; by rewrite Hm).
  pose proof (current_revision_range s d) as Hr. split; [done|].
  rewrite current_revision_commit_ts, compacted_revision_last_applied by done.
  destruct (Z.ltb_spec (current_revision s d) (Z.max (current_revision s d) ts)).
  - rewrite current_revision_set by (unfold in_u64 in *; lia).
    rewrite compacted_revision_set_current. split; [done|]. split; [done|].
    intros t Ht. unfold insert_last_applied, set_current_revision. frame.
  - split; [lia|]. split; [done|]. intros t Ht. unfold insert_last_applied. frame.
Qed.

Lemma put_at_commit_ts_closed s d h key value lease ts a :
  mvcc_rep s d h -> in_u64 ts -> 0 < ts <= current_revision s d ->
  Forall (fun e => revision e <> ts) h ->
  put_at_commit_ts s d key value lease ts a
    = (Err (CommitRejected ts (current_revision s d)), d) /\
  delete_at_commit_ts s d key ts a = (Err (CommitRejected ts (current_revision s d)), d).
Proof.
  intros Hrep Hts Hle Hnew. unfold put_at_commit_ts, delete_at_commit_ts.
  destruct (Z.eqb_spec ts 0); [lia|]. unfold put_at_key, delete_at_key, replay_guard.
  rewrite (changelog_event_at_rep s d h) by done.
  destruct (List.find _ _) as [e|] eqn:E.
  { apply List.find_some in E as [He Hr%Z.eqb_eq].
    apply list_elem_of_In, elem_of_List_filter in He as [_ He].
    rewrite Forall_forall in Hnew. by destruct (Hnew e He). }
  unfold backend_write, put_in_tx, delete_in_tx, accept_revision, accept_commit_ts.
  fold (current_revision s d). rewrite (proj2 (Z.leb_le _ _) (proj2 Hle)). done.
Qed.

(** A safe point closes the past.  Once a Region has advanced its applied
    watermark to [ts], the history below [ts] is fixed: the store still
    represents the same history, and every later put or delete with a commit
    timestamp at or below [ts] that is not a replay is rejected, leaving the
    store untouched. *)
Theorem advance_commit_ts_closes s d h ts a :
  mvcc_rep s d h -> revision_mode s = ModeCommitTs -> in_u64 ts ->
  applied_contains d a = false ->
  let '(r, d') := advance_commit_ts_watermark s ts a d in
  mvcc_rep s d' h /\ ts <= r /\ current_revision s d' = r /\
  forall key value lease ts' a', in_u64 ts' -> 0 < ts' <= ts ->
    Forall (fun e => revision e <> ts') h ->
    put_at_commit_ts s d' key value lease ts' a' = (Err (CommitRejected ts' r), d') /\
    delete_at_commit_ts s d' key ts' a' = (Err (CommitRejected ts' r), d').
Proof.
  intros Hrep Hm Hts Hn. pose proof (advance_commit_ts_value s ts a d Hm Hts Hn) as Hv.
  destruct (advance_commit_ts_watermark s ts a d) as [r d'].
  destruct Hv as (Hr & Hcur & Hcomp & Hframe).
  assert (mvcc_rep s d' h) as Hrep'.
  { eapply mvcc_rep_frame; [| | |done| |exact Hrep]; [|by apply Hframe|by apply Hframe|lia].
    intros key. by rewrite (Hframe TABLE_KV). }
  split; [done|]. split; [lia|]. split; [done|]. intros key value lease ts' a' H1 H2 H3.
  rewrite <-Hcur. apply (put_at_commit_ts_closed s d' h); [done|done|lia|done].
Qed.

(** ** The direct write fence *)

Lemma in_range_spec start end_ k :
  in_range start end_ k = true <-> bytes_le start k /\ (end_ = [] \/ bytes_lt k end_).
Proof.
  unfold in_range. rewrite andb_true_iff, orb_true_iff. unfold bytes_eqb.
  by rewrite bool_decide_eq_true.
Qed.

(** Two half-open intervals that each contain a key share one exactly when
    neither ends before the other starts. *)
Lemma intervals_overlap a_start a_end b_start b_end :
  in_range a_start a_end a_start = true -> in_range b_start b_end b_start = true ->
  (exists k, in_range a_start a_end k = true /\ in_range b_start b_end k = true) <->
  (b_end = [] \/ bytes_lt a_start b_end) /\ (a_end = [] \/ bytes_lt b_start a_end).
Proof.
  rewrite !in_range_spec. intros [_ Ha] [_ Hb]. split.
  - intros (k & [Hk1 Hk2]%in_range_spec & [Hk3 Hk4]%in_range_spec). split.
    + destruct Hk4; [by left|right]. by eapply bytes_le_lt_trans.
    + destruct Hk2; [by left|right]. by eapply bytes_le_lt_trans.
  - intros [H1 H2]. destruct (total bytes_le a_start b_start).
    + exists b_start. rewrite !in_range_spec. split; [done|]. split; [reflexivity|done].
    + exists a_start. rewrite !in_range_spec. split; [split; [reflexivity|done]|done].
Qed.

Lemma eqb_nil_or x (P : bool) : (bytes_eqb x [] || P) = true <-> x = [] \/ P = true.
Proof. unfold bytes_eqb. by rewrite orb_true_iff, bool_decide_eq_true. Qed.

(** What an armed fence reports, for a point write and for a range write. *)
Lemma fence_hit_exact d f :
  direct_write_fence d = Ok (Some f) -> in_range (fence_start f) (fence_end f) (fence_start f) = true ->
  (forall key, direct_write_fence_hit d key None =
     Ok (if in_range (fence_start f) (fence_end f) key then Some (fence_op_id f) else None)) /\
  (forall key e, exists hit, direct_write_fence_hit d key (Some e) = Ok hit /\
     (hit = Some (fence_op_id f) <->
      exists k, in_range key e k = true /\ in_range (fence_start f) (fence_end f) k = true) /\
     (hit = None \/ hit = Some (fence_op_id f))).
Proof.
  destruct f as [start end_ op_id]. cbn [fence_start fence_end fence_op_id]. intros Hf Hne.
  unfold direct_write_fence_hit. rewrite Hf. cbn [mbind result_bind fence_start fence_end fence_op_id].
  split; [done|]. intros key e. eexists. split; [done|].
  split; [|destruct (_ && _); auto].
  set (hit := negb _ && _ && _). transitivity (hit = true); [by destruct hit|]. unfold hit.
  rewrite !andb_true_iff, !eqb_nil_or, negb_true_iff, andb_false_iff, negb_false_iff.
  unfold bytes_eqb. rewrite bool_decide_eq_true.
  assert (bytes_leb e key = false <-> bytes_lt key e) as ->.
  { unfold bytes_leb, bytes_lt. by rewrite negb_false_iff. }
  fold (bytes_lt key end_) (bytes_lt start e). split.
  - intros [[He H1] H2]. apply intervals_overlap; [|done|done].
    apply in_range_spec. split; [reflexivity|done].
  - intros Hk. assert (e = [] \/ bytes_lt key e) as He.
    { destruct Hk as (k & [? [?|?]]%in_range_spec & _); [by left|right].
      by eapply bytes_le_lt_trans. }
    apply intervals_overlap in Hk; [|apply in_range_spec; split; [reflexivity|done]|done].
    naive_solver.
Qed.

(** Arming the fence leaves just its record. *)
Lemma fence_armed start end_ op_id a d :
  in_u64 op_id -> in_u32 (Z.of_nat (length start)) -> applied_contains d a = false ->
  fence_direct_writes start end_ op_id a d = (Ok op_id, (fence_direct_writes start end_ op_id a d).2) /\
  direct_write_fence (fence_direct_writes start end_ op_id a d).2 =
    Ok (Some {| fence_start := start; fence_end := end_; fence_op_id := op_id |}).
Proof.
  intros Ho Hl Hn. unfold fence_direct_writes, backend_write. rewrite Hn. split; [done|].
  unfold direct_write_fence, direct_write_fence_in_tx, insert_last_applied. cbn [snd].
  rewrite tx_get_insert_ne by done. rewrite tx_get_insert. by rewrite fence_roundtrip.
Qed.

(** The direct write fence blocks exactly the writes it must.  After
    [fence_direct_writes] over a non-empty interval, a point write is reported
    as blocked exactly when its key is in the interval, and a range write
    exactly when some key belongs to both intervals. *)
Theorem direct_write_fence_exact start end_ op_id a d :
  in_u64 op_id -> in_u32 (Z.of_nat (length start)) ->
  in_range start end_ start = true -> applied_contains d a = false ->
  exists d', fence_direct_writes start end_ op_id a d = (Ok op_id, d') /\
    (forall key, direct_write_fence_hit d' key None =
       Ok (if in_range start end_ key then Some op_id else None)) /\
    (forall key e, exists hit, direct_write_fence_hit d' key (Some e) = Ok hit /\
       (hit = Some op_id <->
        exists k, in_range key e k = true /\ in_range start end_ k = true) /\
       (hit = None \/ hit = Some op_id)).
Proof.
  intros Ho Hl Hne Hn. destruct (fence_armed start end_ op_id a d Ho Hl Hn) as [E Hf].
  eexists. split; [exact E|]. exact (fence_hit_exact _ _ Hf Hne).
Qed.
