(* ===== verification/Lease.v ===== *)
(** * Leases

    The replicated lease tables of [coord-server/src/storage/mvcc.rs]: the v1
    operations ([apply_lease_op], [apply_delete_keys_by_lease]), whose
    revocation deletes the bound keys at the log index, and the v2 operations
    ([apply_lease_v2_op], [delete_keys_by_lease_at_commit_ts]), whose
    revocation is a record and whose cleanup runs at a commit timestamp. *)

From S2P Require Export Watermark.

Local Open Scope Z_scope.

(** ** Version 1 *)

Inductive LeaseOp :=
  | LeaseGrant (id ttl deadline_wall_ms : Z)
  | LeaseKeepAlive (id deadline_wall_ms : Z)
  | LeaseRevoke (id : Z) (delete_keys : bool).

Definition get_lease_record (d : db) (id : Z) : option LeaseRecord :=
  tx_get d TABLE_KV (encode_lease_key id) ≫= lease_from_bytes.

Definition lease_of_row (r : row) : option (Z * LeaseRecord) :=
  id_bytes ← strip_prefix LEASE_PREFIX r.1;
  id ← decode_u64 id_bytes;
  rec ← lease_from_bytes r.2;
  Some (i64_wrap id, rec).

Definition list_lease_records (d : db) : list (Z * LeaseRecord) :=
  omap lease_of_row (iter_prefix d TABLE_KV LEASE_PREFIX).

Definition insert_lease (id : Z) (r : LeaseRecord) (d : db) : db :=
  tx_insert TABLE_KV (encode_lease_key id) (lease_to_bytes r) d.

(** The change of one operation: the deleted keys and the store. *)
Definition lease_op_body (op : LeaseOp) (rev : Z) (d : db) : list bytes * db :=
  match op with
  | LeaseGrant id t dl =>
    match get_lease_record d id with
    | Some _ => ([], d)
    | None =>
      ([], insert_lease id
             {| ttl := t; deadline_wall_ms := dl; keepalive_revision := i64_wrap rev |} d)
    end
  | LeaseKeepAlive id dl =>
    match get_lease_record d id with
    | Some r =>
      ([], insert_lease id
             {| ttl := ttl r; deadline_wall_ms := dl; keepalive_revision := i64_wrap rev |} d)
    | None => ([], d)
    end
  | LeaseRevoke id delete_keys =>
    let d := tx_remove TABLE_KV (encode_lease_key id) d in
    if delete_keys then delete_keys_by_lease_in_tx id rev d else ([], d)
  end.

Definition lease_event (keys : list bytes) (rev : Z) : ChangeEvent :=
  {| revision := rev; changes := delete_change <$> keys; event_type := EvLease |}.

Definition apply_lease_op (s : MvccStorage) (d : db) (op : LeaseOp) (rev : Z)
    (applied : AppliedLogId) : (ApplyOutcome * list KeyValueChange) * db :=
  if changelog_contains_revision d rev then ((replayed_outcome, []), d)
  else
    let d := note_log_index_revision s d rev in
    let '(deleted, d) := lease_op_body op rev d in
    let event := lease_event deleted rev in
    ((applied_outcome, changes event), insert_last_applied applied (insert_event event d)).

Definition apply_lease_op_standalone (s : MvccStorage) (d : db) (op : LeaseOp) : Z * db :=
  let rev := u64_saturating_add (current_revision s d) 1 in
  (rev, (apply_lease_op s d op rev (standalone rev)).2).

Definition apply_delete_keys_by_lease (s : MvccStorage) (d : db) (id : Z) (rev : Z)
    (applied : AppliedLogId) : (ApplyOutcome * list KeyValueChange) * db :=
  if changelog_contains_revision d rev then ((replayed_outcome, []), d)
  else
    let d := note_log_index_revision s d rev in
    let '(deleted, d) := delete_keys_by_lease_in_tx id rev d in
    let event := lease_event deleted rev in
    ((applied_outcome, changes event), insert_last_applied applied (insert_event event d)).

(** ** Version 2 *)

Inductive LeaseV2Op :=
  | V2Grant (lease_id ttl_seconds granted_ts deadline_wall_ms : Z) (request_id : bytes)
  | V2KeepAlive (lease_id deadline_wall_ms : Z)
  | V2Revoke (lease_id commit_ts expected_deadline_wall_ms : Z) (request_id : bytes).

Inductive LeaseV2Apply :=
  | V2Granted (lease_id granted_ts ttl : Z) (created : bool)
  | V2KeptAlive (ok : bool)
  | V2Revoked (commit_ts : Z).

Definition get_lease_v2_record (d : db) (id : Z) : option LeaseV2Record :=
  tx_get d TABLE_KV (encode_lease_v2_key id) ≫= lease_v2_from_bytes.

Definition lease_v2_of_row (r : row) : option (Z * LeaseV2Record) :=
  id_bytes ← strip_prefix LEASE_V2_PREFIX r.1;
  id ← decode_u64 id_bytes;
  rec ← lease_v2_from_bytes r.2;
  Some (i64_wrap id, rec).

Definition list_lease_v2_records (d : db) : list (Z * LeaseV2Record) :=
  omap lease_v2_of_row (iter_prefix d TABLE_KV LEASE_V2_PREFIX).

Definition insert_lease_v2 (id : Z) (r : LeaseV2Record) (d : db) : db :=
  tx_insert TABLE_KV (encode_lease_v2_key id) (lease_v2_to_bytes r) d.

(** The lease a grant request id already points to. *)
Definition lease_v2_of_request (d : db) (request_id : bytes) : option (Z * LeaseV2Record) :=
  if bytes_eqb request_id [] then None
  else
    x ← tx_get d TABLE_KV (encode_lease_v2_req_key request_id);
    existing ← decode_u64 x;
    let existing_id := i64_wrap existing in
    r ← get_lease_v2_record d existing_id;
    Some (existing_id, r).

Definition lease_v2_grant (id t ts dl : Z) (request_id : bytes) (d : db) : LeaseV2Apply * db :=
  match lease_v2_of_request d request_id with
  | Some (existing_id, r) => (V2Granted existing_id (v2_granted_ts r) (v2_ttl r) true, d)
  | None =>
    match get_lease_v2_record d id with
    | Some r =>
      let same_request :=
        negb (bytes_eqb request_id []) && bytes_eqb (v2_grant_request_id r) request_id in
      (V2Granted id (v2_granted_ts r) (v2_ttl r) same_request, d)
    | None =>
      let r := {| v2_ttl := t; v2_granted_ts := ts; v2_deadline_wall_ms := dl;
                  v2_revoked := false; v2_revoked_commit_ts := 0;
                  v2_grant_request_id := request_id |} in
      let d := insert_lease_v2 id r d in
      let d := if bytes_eqb request_id [] then d
               else tx_insert TABLE_KV (encode_lease_v2_req_key request_id) (be64 id) d in
      (V2Granted id ts t true, d)
    end
  end.

Definition v2_set_deadline (r : LeaseV2Record) (dl : Z) : LeaseV2Record :=
  {| v2_ttl := v2_ttl r; v2_granted_ts := v2_granted_ts r; v2_deadline_wall_ms := dl;
     v2_revoked := v2_revoked r; v2_revoked_commit_ts := v2_revoked_commit_ts r;
     v2_grant_request_id := v2_grant_request_id r |}.

Definition v2_set_revoked (r : LeaseV2Record) (commit_ts : Z) : LeaseV2Record :=
  {| v2_ttl := v2_ttl r; v2_granted_ts := v2_granted_ts r;
     v2_deadline_wall_ms := v2_deadline_wall_ms r; v2_revoked := true;
     v2_revoked_commit_ts := commit_ts; v2_grant_request_id := v2_grant_request_id r |}.

Definition lease_v2_keep_alive (id dl : Z) (d : db) : LeaseV2Apply * db :=
  match get_lease_v2_record d id with
  | Some r =>
    if v2_revoked r then (V2KeptAlive false, d)
    else (V2KeptAlive true, insert_lease_v2 id (v2_set_deadline r dl) d)
  | None => (V2KeptAlive false, d)
  end.

Definition lease_v2_revoke (id commit_ts expected_deadline : Z) (d : db) : LeaseV2Apply * db :=
  match get_lease_v2_record d id with
  | None => (V2Revoked 0, d)
  | Some r =>
    if negb (v2_revoked r) then
      if negb (expected_deadline =? 0) && (expected_deadline <? v2_deadline_wall_ms r)
      then (V2Revoked 0, d)
      else (V2Revoked commit_ts, insert_lease_v2 id (v2_set_revoked r commit_ts) d)
    else if v2_revoked_commit_ts r <? commit_ts
    then (V2Revoked commit_ts, insert_lease_v2 id (v2_set_revoked r commit_ts) d)
    else (V2Revoked 0, d)
  end.

Definition lease_v2_body (op : LeaseV2Op) (d : db) : LeaseV2Apply * db :=
  match op with
  | V2Grant id t ts dl request_id => lease_v2_grant id t ts dl request_id d
  | V2KeepAlive id dl => lease_v2_keep_alive id dl d
  | V2Revoke id commit_ts expected_deadline _ => lease_v2_revoke id commit_ts expected_deadline d
  end.

Definition apply_lease_v2_op (s : MvccStorage) (d : db) (op : LeaseV2Op) (rev : Z)
    (applied : AppliedLogId) : (LeaseV2Apply * ApplyOutcome) * db :=
  let '(r, d) := lease_v2_body op (note_log_index_revision s d rev) in
  ((r, applied_outcome), insert_last_applied applied d).

(** The per-Region cleanup of a revoked v2 lease. *)
Definition delete_keys_by_lease_at_commit_ts (s : MvccStorage) (d : db) (id commit_ts : Z)
    (applied : AppliedLogId) : result (ApplyOutcome * list bytes) * db :=
  if commit_ts =? 0 then (Err InvalidArgument, d)
  else
    match changelog_event_at d commit_ts with
    | Err e => (Err e, d)
    | Ok (Some event) =>
      if decide (event_type event = EvLease) then (Ok (replayed_outcome, []), d)
      else (Err (CommitRejected commit_ts (current_revision s d)), d)
    | Ok None =>
      backend_write d (fun d =>
        fence ← direct_write_fence_in_tx d;
        match fence with
        | Some _ => Err (CommitRejected commit_ts (current_revision_in_tx d (revision_mode s)))
        | None =>
          let '(deleted, d) := delete_keys_by_lease_in_tx id commit_ts d in
          match deleted with
          | [] => Ok ((applied_outcome, deleted), insert_last_applied applied d)
          | _ =>
            d ← accept_commit_ts s d commit_ts;
            let event := lease_event deleted commit_ts in
            Ok ((applied_outcome, deleted), insert_last_applied applied (insert_event event d))
          end
        end)
    end.

(** ** Keys bound to a lease *)

(** The key is live and bound to the lease. *)
Definition bound (d : db) (id : Z) (k : bytes) : Prop :=
  exists m, get_kv_metadata d k = Some m /\ lease_id m = id /\ deleted m = false.

Lemma bound_to_encode id k x :
  bound_to id (encode_kv_meta_key k, x) =
  m ← meta_from_bytes x; if (lease_id m =? id) && negb (deleted m) then Some k else None.
Proof.
  unfold bound_to. cbn [fst snd]. destruct (meta_from_bytes x); [|done]. cbn [mbind option_bind].
  unfold encode_kv_meta_key. by rewrite strip_prefix_app.
Qed.

Lemma elem_of_bound d id k :
  k ∈ omap (bound_to id) (iter_prefix d TABLE_KV_META KV_META_PREFIX) <-> bound d id k.
Proof.
  rewrite list_elem_of_omap. unfold bound, get_kv_metadata. split.
  - intros ([mk x] & [Hv [k' ->]]%elem_of_iter_prefix & E).
    fold (encode_kv_meta_key k') in E. rewrite bound_to_encode in E.
    destruct (meta_from_bytes x) as [m|] eqn:Em; [|done]. cbn [mbind option_bind] in E.
    destruct ((lease_id m =? id) && negb (deleted m)) eqn:Eb; [|done]. injection E as ->.
    apply andb_true_iff in Eb as [?%Z.eqb_eq ?%negb_true_iff]. exists m.
    unfold tx_get, encode_kv_meta_key. rewrite Hv. done.
  - intros (m & E & Hl & Hd). destruct (tx_get d TABLE_KV_META (encode_kv_meta_key k)) as [x|] eqn:Ex;
      [|done]. cbn [mbind option_bind] in E. exists (encode_kv_meta_key k, x). split.
    + apply elem_of_iter_prefix. split; [done|]. by exists k.
    + rewrite bound_to_encode, E. cbn [mbind option_bind]. by rewrite Hl, Hd, Z.eqb_refl.
Qed.

(** What the loop does to the metadata of each key. *)
Lemma delete_by_lease_loop_metadata id rev rows d ks d' :
  Forall (fun r : row => tx_get d TABLE_KV_META r.1 = Some r.2) rows ->
  delete_by_lease_loop id rev rows d = (ks, d') ->
  same_table TABLE_KV d' d /\
  forall k, (k ∈ ks -> exists m, get_kv_metadata d' k = Some m /\ deleted m = true) /\
            (k ∉ ks -> get_kv_metadata d' k = get_kv_metadata d k).
Proof.
  intros Hok. assert (forall r m, r ∈ rows -> meta_from_bytes r.2 = Some m -> meta_wf m) as Hwf
    by eauto with coord. clear Hok. revert d ks d'.
  induction rows as [|[mk mv] rows IH]; intros d ks d' E; cbn [delete_by_lease_loop] in E.
  { injection E as <- <-. split; [done|]. intros k. rewrite elem_of_nil. done. }
  assert (forall r m, r ∈ rows -> meta_from_bytes r.2 = Some m -> meta_wf m) as Hwf'
    by (intros; eapply Hwf; [by right|done]).
  destruct (meta_from_bytes mv) as [m|] eqn:Em; [|by apply IH].
  destruct (strip_prefix KV_META_PREFIX mk) as [k0|]; [|by apply IH].
  destruct (_ && _); [|by apply IH].
  destruct (delete_by_lease_loop id rev rows _) as [ks1 d1] eqn:E1. injection E as <- <-.
  destruct (IH Hwf' _ _ _ E1) as [Hkv H]. split.
  { rewrite Hkv. by apply same_table_insert. }
  intros k. destruct (H k) as [H1 H2]. rewrite elem_of_cons. split.
  - intros [->|?]; [|by apply H1]. destruct (decide (k0 ∈ ks1)); [by apply H1|].
    rewrite H2 by done. eexists. rewrite get_kv_metadata_insert; [done|]. eauto with coord.
  - intros Hn. rewrite H2 by tauto. apply get_kv_metadata_insert_ne. naive_solver.
Qed.

Lemma kv_meta_rows_present d :
  Forall (fun r : row => tx_get d TABLE_KV_META r.1 = Some r.2)
    (iter_prefix d TABLE_KV_META KV_META_PREFIX).
Proof. rewrite Forall_forall. by intros [k v] [? _]%elem_of_iter_prefix. Qed.

(** [delete_keys_by_lease_in_tx] deletes exactly the bound keys. *)
Lemma delete_keys_by_lease_spec s comp rev h t id d cs ks d' :
  in_u64 rev -> keys_rep s d comp rev (h ++ [pending rev t cs]) ->
  delete_keys_by_lease_in_tx id rev d = (ks, d') ->
  (forall k, k ∈ ks <-> bound d id k) /\ (length ks <= size d)%nat /\
  keys_only d d' /\ same_table TABLE_KV d' d /\
  keys_rep s d' comp rev (h ++ [pending rev t (cs ++ (delete_change <$> ks))]) /\
  forall k, ~ bound d' id k.
Proof.
  intros Hr Hk E. unfold delete_keys_by_lease_in_tx in E.
  destruct (delete_by_lease_loop_metadata _ _ _ _ _ _ (kv_meta_rows_present d) E) as [Hkv Hm].
  destruct (delete_by_lease_loop_rep s comp rev h t Hr _ _ _ cs _ _ Hk (kv_meta_rows_present d)
    (sorted_rows_NoDup _ (iter_prefix_sorted _ _ _)) E) as (-> & Ho & Hk').
  split; [intros; apply elem_of_bound|].
  split; [etrans; [apply length_omap|apply length_iter_prefix]|].
  do 3 (split; [done|]). intros k (m & Em & Hl & Hd). destruct (Hm k) as [H1 H2].
  destruct (decide (k ∈ omap (bound_to id) (iter_prefix d TABLE_KV_META KV_META_PREFIX))) as [Hin|Hn].
  - destruct (H1 Hin) as (m' & ? & ?). congruence.
  - apply Hn, elem_of_bound. exists m. by rewrite <-H2.
Qed.

Lemma bound_live s d comp hi h id k :
  keys_rep s d comp hi h -> bound d id k -> is_Some (latest h k).
Proof.
  intros Hk (m & Em & _ & Hd). apply (live_metadata s d comp hi h k (Hk k)). by exists m.
Qed.

(** ** Version 1 refines the history *)

Section lease_v1.
  Context (s : MvccStorage) (d : db) (h : history) (rev : Z).
  Context (Hrep : mvcc_rep s d h) (Hmode : revision_mode s = ModeLogIndex).
  Context (Hrev : in_u64 rev) (Hnew : current_revision s d < rev).
  Context (Hsize : Z.of_nat (S (size d)) < u32_modulus).

Lemma note_fresh : note_log_index_revision s d rev = set_current_revision rev d.
Proof.
  unfold note_log_index_revision. rewrite decide_True by done.
  unfold current_revision in Hnew. rewrite Hmode in Hnew. by rewrite (proj2 (Z.ltb_lt _ _) Hnew).
Qed.

Lemma accept_fresh : accept_revision s d rev PolicyLogIndex = Ok (set_current_revision rev d).
Proof.
  apply accept_revision_Ok; [unfold revision_checked; by rewrite Hmode|done].
Qed.

Lemma fresh_not_replayed : changelog_contains_revision d rev = false.
Proof.
  rewrite (changelog_contains_rep s d h) by done. apply bool_decide_eq_false_2.
  intros [e He]. destruct (find_retained _ _ _ _ _ Hrep He) as (_ & _ & ?). clear Hsize. lia.
Qed.

Lemma pending_fresh :
  keys_rep s (set_current_revision rev d) (compacted_revision d) rev (h ++ [pending rev EvLease []]).
Proof.
  eapply (accept_pending s d h rev PolicyLogIndex);
    [done|unfold revision_checked; by rewrite Hmode|apply accept_fresh].
Qed.

(** Committing a lease event. *)
Lemma lease_commit d2 ks a :
  keys_only (set_current_revision rev d) d2 -> Forall (fun k => is_Some (latest h k)) ks ->
  Z.of_nat (length ks) < u32_modulus ->
  keys_rep s d2 (compacted_revision d) rev (h ++ [pending rev EvLease (delete_change <$> ks)]) ->
  let d' := insert_last_applied a (insert_event (lease_event ks rev) d2) in
  mvcc_rep s d' (h ++ [lease_event ks rev]) /\ current_revision s d' = rev.
Proof.
  intros Ho Hl Hn Hk.
  eapply (commit_event s d h rev PolicyLogIndex); try done.
  - unfold revision_checked; by rewrite Hmode.
  - apply accept_fresh.
  - destruct (delete_event_wf h ks rev (rep_wf _ _ _ Hrep) Hrev Hn Hl) as (? & ? & ?). done.
Qed.

Lemma set_current_bound id k : bound (set_current_revision rev d) id k <-> bound d id k.
Proof.
  unfold bound.
  assert (get_kv_metadata (set_current_revision rev d) k = get_kv_metadata d k) as ->; [|done].
  apply get_kv_metadata_proper; [by apply same_table_insert|done].
Qed.

Lemma size_set_current : (size (set_current_revision rev d) <= S (size d))%nat.
Proof.
  unfold set_current_revision, tx_insert. rewrite map_size_insert. destruct (_ !! _); simpl; lia.
Qed.

(** The body of any operation, from the state in which it runs. *)
Lemma lease_op_body_rep op ks d2 :
  lease_op_body op rev (set_current_revision rev d) = (ks, d2) ->
  keys_only (set_current_revision rev d) d2 /\ Forall (fun k => is_Some (latest h k)) ks /\
  Z.of_nat (length ks) < u32_modulus /\
  keys_rep s d2 (compacted_revision d) rev (h ++ [pending rev EvLease (delete_change <$> ks)]).
Proof.
  set (d1 := set_current_revision rev d). intros E. pose proof pending_fresh as Hk.
  fold d1 in Hk.
  assert (forall y v, keys_only d1 (tx_insert TABLE_KV (LEASE_PREFIX ++ y) v d1) /\
    keys_rep s (tx_insert TABLE_KV (LEASE_PREFIX ++ y) v d1) (compacted_revision d) rev
      (h ++ [pending rev EvLease []])) as Hins.
  { intros y v. split; [intros t ? ?; by apply same_table_insert|].
    eapply keys_rep_frame; [| |exact Hk]; [|by apply same_table_insert].
    intros key. by apply kv_key_frame. }
  destruct op as [id t dl|id dl|id del]; cbn [lease_op_body] in E.
  - destruct (get_lease_record d1 id); injection E as <- <-;
      (split; [|split; [constructor|split; [done|]]]); [done|done|apply Hins..].
  - destruct (get_lease_record d1 id); injection E as <- <-;
      (split; [|split; [constructor|split; [done|]]]); [apply Hins..|done|done].
  - assert (keys_only d1 (tx_remove TABLE_KV (encode_lease_key id) d1)) as Ho
      by (intros t ? ?; by apply same_table_remove).
    assert (keys_rep s (tx_remove TABLE_KV (encode_lease_key id) d1) (compacted_revision d) rev
      (h ++ [pending rev EvLease []])) as Hk1.
    { eapply keys_rep_frame; [| |exact Hk]; [|by apply same_table_remove].
      intros key. by apply kv_key_frame_remove. }
    destruct del.
    + destruct (delete_keys_by_lease_spec _ _ _ _ _ _ _ _ _ _ Hrev Hk1 E)
        as (Hb & Hn & Ho' & _ & Hk' & _).
      split; [by etrans|]. split; [|split; [|done]].
      * rewrite Forall_forall. intros k Hin%Hb. pose proof (bound_live _ _ _ _ _ _ _ Hk1 Hin) as Hl.
        by rewrite latest_pending_nil in Hl.
      * eapply Z.le_lt_trans; [|exact Hsize]. apply inj_le. etrans; [exact Hn|].
        etrans; [apply size_tx_remove|apply size_set_current].
    + injection E as <- <-. split; [done|]. split; [constructor|]. by split.
Qed.

Lemma apply_lease_op_rep op a out cs d' :
  apply_lease_op s d op rev a = ((out, cs), d') ->
  exists ks, out = applied_outcome /\ cs = delete_change <$> ks /\
    mvcc_rep s d' (h ++ [lease_event ks rev]) /\ current_revision s d' = rev.
Proof.
  unfold apply_lease_op. rewrite fresh_not_replayed, note_fresh.
  destruct (lease_op_body op rev _) as [ks d2] eqn:E. intros [= <- <- <-].
  exists ks. split; [done|]. split; [done|].
  destruct (lease_op_body_rep _ _ _ E) as (? & ? & ? & ?). by apply lease_commit.
Qed.

(** The same without a lease record: [DeleteKeysByLease] in a data Region. *)
Lemma apply_delete_keys_by_lease_rep id a out cs d' :
  apply_delete_keys_by_lease s d id rev a = ((out, cs), d') ->
  exists ks, out = applied_outcome /\ cs = delete_change <$> ks /\ (forall k, k ∈ ks <-> bound d id k) /\
    mvcc_rep s d' (h ++ [lease_event ks rev]) /\ current_revision s d' = rev.
Proof.
  unfold apply_delete_keys_by_lease. rewrite fresh_not_replayed, note_fresh.
  destruct (delete_keys_by_lease_in_tx id rev _) as [ks d2] eqn:E. intros [= <- <- <-].
  destruct (delete_keys_by_lease_spec _ _ _ _ _ _ _ _ _ _ Hrev pending_fresh E) as (Hb & Hn & Ho & _ & Hk & _).
  exists ks. split; [done|]. split; [done|]. split; [intros k; by rewrite Hb, set_current_bound|].
  apply lease_commit; [done| | |done].
  - rewrite Forall_forall. intros k Hin%Hb. pose proof (bound_live _ _ _ _ _ _ _ pending_fresh Hin) as Hl.
    by rewrite latest_pending_nil in Hl.
  - eapply Z.le_lt_trans; [|exact Hsize]. apply inj_le. etrans; [exact Hn|apply size_set_current].
Qed.

End lease_v1.

(** ** Version 1: the lease table *)

Lemma get_lease_record_insert id r d :
  lease_wf r -> get_lease_record (insert_lease id r d) id = Some r.
Proof.
  intros. unfold get_lease_record, insert_lease. rewrite tx_get_insert.
  cbn [mbind option_bind]. by apply lease_roundtrip.
Qed.

Lemma get_lease_record_insert_ne id id' r d :
  in_i64 id -> in_i64 id' -> id <> id' ->
  get_lease_record (insert_lease id r d) id' = get_lease_record d id'.
Proof.
  intros. unfold get_lease_record, insert_lease. rewrite tx_get_insert_ne; [done|].
  intros E. apply (f_equal snd) in E. simpl in E. by apply encode_lease_key_inj in E.
Qed.

(** The rows of the key table below a system prefix are not moved by the
    bookkeeping of a log entry. *)
Lemma get_lease_record_frame d d' id :
  same_table TABLE_KV d' d -> get_lease_record d' id = get_lease_record d id.
Proof. intros H. unfold get_lease_record. by rewrite H. Qed.

Lemma finish_frame t e a d :
  t <> TABLE_META -> t <> TABLE_CHANGELOG ->
  same_table t (insert_last_applied a (insert_event e d)) d.
Proof. intros. unfold insert_last_applied, insert_event. frame. Qed.

Lemma apply_lease_op_record s d op rev a id :
  changelog_contains_revision d rev = false ->
  get_lease_record (apply_lease_op s d op rev a).2 id =
  get_lease_record (lease_op_body op rev (note_log_index_revision s d rev)).2 id.
Proof.
  intros Hn. unfold apply_lease_op. rewrite Hn.
  destruct (lease_op_body op rev _) as [ks d2]. simpl. by apply get_lease_record_frame, finish_frame.
Qed.

Lemma get_lease_record_note s d rev id :
  get_lease_record (note_log_index_revision s d rev) id = get_lease_record d id.
Proof. by apply get_lease_record_frame, note_frame. Qed.

(** A lease id belongs to its first owner.  A grant of an id that exists
    leaves its record as it was (another client's lease is never overwritten),
    a grant of a free id creates it, and no other lease is affected. *)
Theorem lease_grant_owner s d rev a id t dl :
  changelog_contains_revision d rev = false -> in_i64 id -> in_i64 t -> in_i64 dl ->
  let d' := (apply_lease_op s d (LeaseGrant id t dl) rev a).2 in
  get_lease_record d' id =
    Some (default {| ttl := t; deadline_wall_ms := dl; keepalive_revision := i64_wrap rev |}
            (get_lease_record d id)) /\
  forall id', in_i64 id' -> id' <> id -> get_lease_record d' id' = get_lease_record d id'.
Proof.
  intros Hn Hid Ht Hdl d'. unfold d'. split; [|intros id' Hid' Hne];
    rewrite apply_lease_op_record by done; cbn [lease_op_body]; rewrite get_lease_record_note;
    destruct (get_lease_record d id) as [r|] eqn:Er; cbn [snd default from_option].
  - by rewrite get_lease_record_note.
  - apply get_lease_record_insert. split; simpl; auto with coord.
  - by rewrite get_lease_record_note.
  - rewrite get_lease_record_insert_ne, get_lease_record_note by done. done.
Qed.

Lemma lease_grant_owner_witness :
  let s := {| revision_mode := ModeLogIndex; barrier := None |} in
  let d1 := (apply_lease_op s ∅ (LeaseGrant 7 10 1000) 1 (standalone 1)).2 in
  let d2 := (apply_lease_op s d1 (LeaseGrant 7 99 5000) 2 (standalone 2)).2 in
  get_lease_record d2 7 = Some {| ttl := 10; deadline_wall_ms := 1000; keepalive_revision := 1 |}.
Proof.
  intros s d1 d2.
  assert (changelog_contains_revision d1 2 = false) as H by (by vm_compute).
  destruct (lease_grant_owner s d1 2 (standalone 2) 7 99 5000 H) as [E _];
    [by vm_compute|by vm_compute|by vm_compute|].
  fold d2 in E. rewrite E. by vm_compute.
Defined.

(** Revoking a lease deletes exactly its keys.  A revocation with key
    deletion appends one event that deletes exactly the live keys bound to the
    lease; afterwards the lease record is gone, no live key is bound to it, and
    the other leases are as before. *)
Theorem lease_revoke_refines s d h rev a id :
  mvcc_rep s d h -> revision_mode s = ModeLogIndex -> in_u64 rev -> current_revision s d < rev ->
  Z.of_nat (S (size d)) < u32_modulus -> in_i64 id ->
  let '((out, cs), d') := apply_lease_op s d (LeaseRevoke id true) rev a in
  (exists ks, cs = delete_change <$> ks /\ (forall k, k ∈ ks <-> bound d id k) /\
     mvcc_rep s d' (h ++ [lease_event ks rev]) /\ current_revision s d' = rev) /\
  get_lease_record d' id = None /\ (forall k, ~ bound d' id k) /\
  forall id', in_i64 id' -> id' <> id -> get_lease_record d' id' = get_lease_record d id'.
Proof.
  intros Hrep Hm Hr Hnew Hs Hid.
  destruct (apply_lease_op s d (LeaseRevoke id true) rev a) as [[out cs] d'] eqn:E.
  destruct (apply_lease_op_rep s d h rev Hrep Hm Hr Hnew Hs _ _ _ _ _ E)
    as (ks & -> & Hcs & Hrep' & Hcur).
  unfold apply_lease_op in E.
  rewrite (fresh_not_replayed s d h rev Hrep Hr Hnew), (note_fresh s d rev Hm Hnew) in E.
  cbn [lease_op_body] in E. set (d1 := set_current_revision rev d) in E.
  destruct (delete_keys_by_lease_in_tx id rev _) as [ks1 d2] eqn:Ed.
  injection E as <- <-.
  assert (ks1 = ks) as ->.
  { simpl in Hcs. by apply (inj (fmap delete_change)) in Hcs. }
  assert (keys_rep s (tx_remove TABLE_KV (encode_lease_key id) d1) (compacted_revision d) rev
    (h ++ [pending rev EvLease []])) as Hk1.
  { eapply keys_rep_frame; [| |apply (pending_fresh s d h rev Hrep Hm Hnew)];
      [|by apply same_table_remove]. intros key. by apply kv_key_frame_remove. }
  destruct (delete_keys_by_lease_spec _ _ _ _ _ _ _ _ _ _ Hr Hk1 Ed)
    as (Hb & _ & _ & Hkv & _ & Hnone).
  assert (forall k, bound (tx_remove TABLE_KV (encode_lease_key id) d1) id k <-> bound d id k) as Hb1.
  { intros k. rewrite <-(set_current_bound d rev). unfold bound.
    by replace (get_kv_metadata (tx_remove TABLE_KV (encode_lease_key id) d1) k)
      with (get_kv_metadata d1 k) by (apply get_kv_metadata_proper;
        [symmetry; by apply same_table_remove|done]). }
  split; [exists ks; split; [done|]; split; [|done]; intros k; by rewrite Hb|].
  assert (forall id', get_lease_record (insert_last_applied a (insert_event (lease_event ks rev) d2)) id'
    = get_lease_record (tx_remove TABLE_KV (encode_lease_key id) d1) id') as Hrec.
  { intros id'. rewrite (get_lease_record_frame d2) by (by apply finish_frame).
    by apply get_lease_record_frame. }
  split; [|split].
  - rewrite Hrec. unfold get_lease_record. by rewrite tx_get_remove.
  - intros k (m & Em & ?). apply (Hnone k). exists m. split; [|done].
    rewrite <-Em. apply get_kv_metadata_proper; [symmetry; by apply finish_frame|done].
  - intros id' Hid' Hne. rewrite Hrec. unfold get_lease_record.
    rewrite tx_get_remove_ne; [|intros E; apply (f_equal snd) in E; simpl in E;
      by apply encode_lease_key_inj in E].
    unfold d1, set_current_revision. by rewrite tx_get_insert_ne.
Qed.

(** ** Version 2 *)

Section lease_v2.
  Context (s : MvccStorage).

Lemma get_lease_v2_insert id r d :
  lease_v2_wf r -> get_lease_v2_record (insert_lease_v2 id r d) id = Some (lease_v2_truncate r).
Proof.
  intros. unfold get_lease_v2_record, insert_lease_v2. rewrite tx_get_insert.
  cbn [mbind option_bind]. by apply lease_v2_roundtrip.
Qed.

Lemma get_lease_v2_insert_ne id id' r d :
  in_i64 id -> in_i64 id' -> id <> id' ->
  get_lease_v2_record (insert_lease_v2 id r d) id' = get_lease_v2_record d id'.
Proof.
  intros. unfold get_lease_v2_record, insert_lease_v2. rewrite tx_get_insert_ne; [done|].
  intros E. apply (f_equal snd) in E. simpl in E. by apply encode_lease_v2_key_inj in E.
Qed.

Lemma get_lease_v2_frame d d' id :
  same_table TABLE_KV d' d -> get_lease_v2_record d' id = get_lease_v2_record d id.
Proof. intros H. unfold get_lease_v2_record. by rewrite H. Qed.

Lemma lease_v2_of_request_frame d d' r :
  same_table TABLE_KV d' d -> lease_v2_of_request d' r = lease_v2_of_request d r.
Proof.
  intros H. unfold lease_v2_of_request, get_lease_v2_record. destruct (bytes_eqb r []); [done|].
  rewrite H. destruct (tx_get d TABLE_KV (encode_lease_v2_req_key r)) as [x|]; [|done].
  cbn [mbind option_bind]. destruct (decode_u64 x); [|done]. cbn [mbind option_bind]. by rewrite H.
Qed.

Lemma get_lease_v2_wf d id r :
  get_lease_v2_record d id = Some r -> lease_v2_wf r /\ lease_v2_truncate r = r.
Proof.
  unfold get_lease_v2_record. destruct (tx_get _ _ _); [|done]. apply lease_v2_from_bytes_wf.
Qed.

(** Rewriting an existing record, with fields that are still in range. *)
Lemma get_lease_v2_update d id r r' :
  get_lease_v2_record d id = Some r -> lease_v2_wf r' ->
  v2_grant_request_id r' = v2_grant_request_id r ->
  get_lease_v2_record (insert_lease_v2 id r' d) id = Some r'.
Proof.
  intros Hr Hw Hreq. rewrite get_lease_v2_insert by done. f_equal.
  destruct (get_lease_v2_wf _ _ _ Hr) as [_ Ht]. apply (f_equal v2_grant_request_id) in Ht.
  simpl in Ht. rewrite <-Hreq in Ht. destruct r'. unfold lease_v2_truncate. simpl in *.
  by rewrite Ht.
Qed.

(** The request-id index lives beside the records. *)
Lemma get_lease_v2_req_frame d request_id v id :
  get_lease_v2_record (tx_insert TABLE_KV (encode_lease_v2_req_key request_id) v d) id =
  get_lease_v2_record d id.
Proof.
  unfold get_lease_v2_record. rewrite tx_get_insert_ne; [done|].
  intros E. apply (f_equal snd) in E. simpl in E.
  by apply (diverge_neq LEASE_V2_PREFIX LEASE_V2_REQ_PREFIX (be64 id) request_id).
Qed.

Lemma apply_lease_v2_record d op rev a id :
  get_lease_v2_record (apply_lease_v2_op s d op rev a).2 id =
  get_lease_v2_record (lease_v2_body op (note_log_index_revision s d rev)).2 id.
Proof.
  unfold apply_lease_v2_op. destruct (lease_v2_body op _) as [r d2]. simpl.
  apply get_lease_v2_frame. unfold insert_lease_v2, insert_last_applied. by apply same_table_insert.
Qed.

(** An operation writes lease rows only. *)
Lemma lease_v2_body_frame op d :
  (forall key, tx_get (lease_v2_body op d).2 TABLE_KV (encode_kv_key key) = tx_get d TABLE_KV (encode_kv_key key)) /\
  forall t, t <> TABLE_KV -> same_table t (lease_v2_body op d).2 d.
Proof using Type.
  assert (forall d0 id r, (forall key, tx_get (insert_lease_v2 id r d0) TABLE_KV (encode_kv_key key) =
      tx_get d0 TABLE_KV (encode_kv_key key)) /\ forall t, t <> TABLE_KV -> same_table t (insert_lease_v2 id r d0) d0) as Hi.
  { intros d0 id r. split; [intros key; by apply kv_key_frame|]. intros t Ht. by apply same_table_insert. }
  destruct op as [id t ts dl req|id dl|id ts dl req]; cbn [lease_v2_body].
  - unfold lease_v2_grant. destruct (lease_v2_of_request d req) as [[i g]|]; [done|].
    destruct (get_lease_v2_record d id); [done|]. cbn [snd]. destruct (bytes_eqb req []); [apply Hi|].
    destruct (Hi d id {| v2_ttl := t; v2_granted_ts := ts; v2_deadline_wall_ms := dl; v2_revoked := false;
      v2_revoked_commit_ts := 0; v2_grant_request_id := req |}) as [H1 H2]. split.
    + intros key. unfold encode_lease_v2_req_key. by rewrite kv_key_frame.
    + intros t0 Ht. rewrite same_table_insert by done. by apply H2.
  - unfold lease_v2_keep_alive. destruct (get_lease_v2_record d id) as [r|]; [|done]. destruct (v2_revoked r); [done|apply Hi].
  - unfold lease_v2_revoke. destruct (get_lease_v2_record d id) as [r|]; [|done].
    destruct (v2_revoked r); cbn [negb]; [destruct (_ <? _)|destruct (negb _ && _)]; (done || apply Hi).
Qed.

Definition v2_op_wf (op : LeaseV2Op) : Prop :=
  match op with
  | V2Grant id t ts dl _ => in_i64 id /\ in_i64 t /\ in_u64 ts /\ in_i64 dl
  | V2KeepAlive id dl => in_i64 id /\ in_i64 dl
  | V2Revoke id ts dl _ => in_i64 id /\ in_u64 ts /\ in_i64 dl
  end.

(** A v2 lease record only ages.  Whatever operation is applied, an existing
    record keeps its TTL, its grant timestamp and its owner's request id; once
    it is revoked it stays revoked, its deadline is frozen and its cleanup
    timestamp never decreases. *)
Theorem lease_v2_record_ages d op rev a id r :
  v2_op_wf op -> in_i64 id -> get_lease_v2_record d id = Some r ->
  exists r', get_lease_v2_record (apply_lease_v2_op s d op rev a).2 id = Some r' /\
    v2_ttl r' = v2_ttl r /\ v2_granted_ts r' = v2_granted_ts r /\
    v2_grant_request_id r' = v2_grant_request_id r /\
    (v2_revoked r = true -> v2_revoked r' = true /\
       v2_deadline_wall_ms r' = v2_deadline_wall_ms r /\
       v2_revoked_commit_ts r <= v2_revoked_commit_ts r').
Proof.
  intros Hop Hid Hr. rewrite apply_lease_v2_record.
  set (d1 := note_log_index_revision s d rev).
  assert (get_lease_v2_record d1 id = Some r) as Hr1.
  { rewrite <-Hr. by apply get_lease_v2_frame, note_frame. }
  destruct (get_lease_v2_wf _ _ _ Hr) as [(W1 & W2 & W3 & W4) Ht].
  assert (forall id' r1, in_i64 id' -> id' <> id ->
    get_lease_v2_record (insert_lease_v2 id' r1 d1) id = Some r) as Hother.
  { intros id' r1 ? ?. by rewrite get_lease_v2_insert_ne. }
  assert (v2_ttl r = v2_ttl r /\ v2_granted_ts r = v2_granted_ts r /\
    v2_grant_request_id r = v2_grant_request_id r /\
    (v2_revoked r = true -> v2_revoked r = true /\
       v2_deadline_wall_ms r = v2_deadline_wall_ms r /\
       v2_revoked_commit_ts r <= v2_revoked_commit_ts r)) as Hsame by (repeat split; done || lia).
  destruct op as [id' t ts dl req|id' dl|id' ts dl req]; cbn [lease_v2_body] in *.
  - exists r. split; [|done]. unfold lease_v2_grant.
    destruct (lease_v2_of_request d1 req) as [[i g]|]; [done|].
    destruct (get_lease_v2_record d1 id') as [r1|] eqn:E1; [done|]. simpl.
    destruct (decide (id' = id)) as [->|Hne]; [congruence|].
    destruct (bytes_eqb req []); [apply Hother; [apply Hop|done]|].
    rewrite get_lease_v2_req_frame. apply Hother; [apply Hop|done].
  - unfold lease_v2_keep_alive.
    destruct (decide (id' = id)) as [->|Hne].
    + rewrite Hr1. destruct (v2_revoked r) eqn:Ev; [by exists r|]. simpl.
      rewrite (get_lease_v2_update _ _ r)
        by (done || exact (conj W1 (conj W2 (conj (proj2 Hop) W4)))).
      eexists. split; [done|]. simpl. done.
    + exists r. split; [|done]. destruct (get_lease_v2_record d1 id') as [r1|]; [|done].
      destruct (v2_revoked r1); [done|]. apply Hother; [apply Hop|done].
  - unfold lease_v2_revoke. destruct (decide (id' = id)) as [->|Hne].
    + rewrite Hr1. assert (get_lease_v2_record (insert_lease_v2 id (v2_set_revoked r ts) d1) id
        = Some (v2_set_revoked r ts)) as Hset.
      { apply (get_lease_v2_update _ _ r); [done| |done].
        exact (conj W1 (conj W2 (conj W3 (proj1 (proj2 Hop))))). }
      destruct (v2_revoked r) eqn:Ev; simpl.
      * destruct (Z.ltb_spec (v2_revoked_commit_ts r) ts); [|by exists r]. simpl.
        rewrite Hset. eexists. split; [done|]. simpl. repeat split; lia.
      * destruct (negb _ && _); [by exists r|]. simpl. rewrite Hset.
        eexists. split; [done|]. done.
    + exists r. split; [|done]. destruct (get_lease_v2_record d1 id') as [r1|]; [|done].
      destruct (v2_revoked r1); simpl; [destruct (_ <? _)|destruct (negb _ && _)]; simpl;
        try done; (apply Hother; [apply Hop|done]).
Qed.

(** Granting is idempotent per request.  When a grant with a request id
    creates a lease, a later grant with the same request id, whatever its other
    fields, returns that same lease (id, grant timestamp, TTL) and changes no
    lease row. *)
Theorem lease_v2_grant_idempotent d rev a id t ts dl req rev' a' id' t' ts' dl' :
  in_i64 id -> in_i64 t -> in_u64 ts -> in_i64 dl -> req <> [] ->
  lease_v2_of_request d req = None -> get_lease_v2_record d id = None ->
  let '(out, d1) := apply_lease_v2_op s d (V2Grant id t ts dl req) rev a in
  let '(out', d2) := apply_lease_v2_op s d1 (V2Grant id' t' ts' dl' req) rev' a' in
  out = (V2Granted id ts t true, applied_outcome) /\ out' = out /\ same_table TABLE_KV d2 d1.
Proof.
  intros Hid Ht Hts Hdl Hreq Hnone Hfree. unfold apply_lease_v2_op.
  set (d0 := note_log_index_revision s d rev).
  assert (same_table TABLE_KV d0 d) as H0 by (by apply note_frame).
  cbn [lease_v2_body]. unfold lease_v2_grant at 1.
  rewrite (lease_v2_of_request_frame d d0), (get_lease_v2_frame d d0) by done.
  rewrite Hnone, Hfree. assert (bytes_eqb req [] = false) as Hreq' by (by apply bool_decide_eq_false).
  rewrite Hreq'. set (r := {| v2_ttl := t |}).
  set (d1 := insert_last_applied a _). set (d1' := note_log_index_revision s d1 rev').
  assert (lease_v2_of_request d1' req = Some (id, lease_v2_truncate r)) as Hfound.
  { rewrite (lease_v2_of_request_frame d1 d1') by (by apply note_frame).
    unfold lease_v2_of_request. rewrite Hreq'. unfold d1, insert_last_applied.
    rewrite tx_get_insert_ne, tx_get_insert by done. cbn [mbind option_bind].
    unfold decode_u64. rewrite decide_True by done. cbn [mbind option_bind].
    rewrite be64_val_i64 by done.
    rewrite (get_lease_v2_frame (tx_insert TABLE_KV (encode_lease_v2_req_key req) (be64 id)
      (insert_lease_v2 id r d0))) by (by apply same_table_insert).
    rewrite get_lease_v2_req_frame, get_lease_v2_insert by done. done. }
  unfold lease_v2_grant. rewrite Hfound. split; [done|]. split; [done|].
  unfold insert_last_applied at 1. etransitivity; [by apply same_table_insert|].
  by apply note_frame.
Qed.

(** Expiry and keep-alive are decided by log order.  An expiry observed at
    the deadline of a lease has no effect once a keep-alive with a later
    deadline was applied before it (the lease stays alive); applied in the other
    order, the lease is revoked and the keep-alive fails. *)
Theorem lease_v2_expiry_race d id r dl commit_ts rev1 a1 rev2 a2 req :
  in_i64 id -> in_i64 dl -> in_u64 commit_ts -> get_lease_v2_record d id = Some r ->
  v2_revoked r = false -> v2_deadline_wall_ms r <> 0 -> v2_deadline_wall_ms r < dl ->
  let keep := V2KeepAlive id dl in
  let expire := V2Revoke id commit_ts (v2_deadline_wall_ms r) req in
  (let '((o1, _), d1) := apply_lease_v2_op s d keep rev1 a1 in
   let '((o2, _), d2) := apply_lease_v2_op s d1 expire rev2 a2 in
   o1 = V2KeptAlive true /\ o2 = V2Revoked 0 /\
   get_lease_v2_record d2 id = Some (v2_set_deadline r dl)) /\
  (let '((o1, _), d1) := apply_lease_v2_op s d expire rev1 a1 in
   let '((o2, _), d2) := apply_lease_v2_op s d1 keep rev2 a2 in
   o1 = V2Revoked commit_ts /\ o2 = V2KeptAlive false /\
   get_lease_v2_record d2 id = Some (v2_set_revoked r commit_ts)).
Proof.
  intros Hid Hdl Hts Hr Hrev Hd0 Hlt keep expire.
  destruct (get_lease_v2_wf _ _ _ Hr) as [(W1 & W2 & W3 & W4) _].
  assert (forall d' rev', get_lease_v2_record (note_log_index_revision s d' rev') id
    = get_lease_v2_record d' id) as Hnote.
  { intros. by apply get_lease_v2_frame, note_frame. }
  assert (forall d' a', get_lease_v2_record (insert_last_applied a' d') id
    = get_lease_v2_record d' id) as Hlast.
  { intros. apply get_lease_v2_frame. by apply same_table_insert. }
  assert (forall d' r', get_lease_v2_record d' id = Some r -> lease_v2_wf r' ->
    v2_grant_request_id r' = v2_grant_request_id r ->
    get_lease_v2_record (insert_lease_v2 id r' d') id = Some r') as Hupd.
  { intros. by apply (get_lease_v2_update _ _ r). }
  unfold apply_lease_v2_op. cbn [lease_v2_body]. split.
  - unfold lease_v2_keep_alive, lease_v2_revoke, keep, expire. cbn [lease_v2_body].
    unfold lease_v2_keep_alive. rewrite Hnote, Hr, Hrev. unfold lease_v2_revoke.
    rewrite Hnote, Hlast, Hupd; [|by rewrite Hnote|exact (conj W1 (conj W2 (conj Hdl W4)))|done].
    cbn [v2_set_deadline v2_revoked v2_deadline_wall_ms]. rewrite Hrev. cbn [negb].
    rewrite (proj2 (Z.eqb_neq _ _) Hd0), (proj2 (Z.ltb_lt _ _) Hlt). cbn [negb andb].
    split; [done|]. split; [done|]. rewrite Hlast, Hnote, Hlast.
    apply Hupd; [by rewrite Hnote|exact (conj W1 (conj W2 (conj Hdl W4)))|done].
  - unfold keep, expire. cbn [lease_v2_body]. unfold lease_v2_revoke.
    rewrite Hnote, Hr, Hrev. cbn [negb].
    rewrite Z.ltb_irrefl, andb_false_r. unfold lease_v2_keep_alive.
    rewrite Hnote, Hlast, Hupd; [|by rewrite Hnote|exact (conj W1 (conj W2 (conj W3 Hts)))|done].
    cbn [v2_set_revoked v2_revoked].
    split; [done|]. split; [done|]. rewrite Hlast, Hnote, Hlast.
    apply Hupd; [by rewrite Hnote|exact (conj W1 (conj W2 (conj W3 Hts)))|done].
Qed.

End lease_v2.

Lemma delete_by_lease_loop_nil id rev rows d d' :
  delete_by_lease_loop id rev rows d = ([], d') -> d' = d.
Proof.
  revert d. induction rows as [|[mk mv] rows IH]; intros d E; cbn [delete_by_lease_loop] in E.
  { by injection E. }
  destruct (meta_from_bytes mv); [|by apply IH].
  destruct (strip_prefix KV_META_PREFIX mk); [|by apply IH].
  destruct (_ && _); [|by apply IH]. by destruct (delete_by_lease_loop id rev rows _).
Qed.

Lemma delete_by_lease_loop_keys id rev rows d ks d' :
  delete_by_lease_loop id rev rows d = (ks, d') ->
  ks = omap (bound_to id) rows /\ keys_only d d'.
Proof.
  revert d ks d'. induction rows as [|[mk mv] rows IH]; intros d ks d' E;
    cbn [delete_by_lease_loop] in E.
  { injection E as <- <-. done. }
  rewrite omap_cons. unfold bound_to at 1. cbn [fst snd].
  destruct (meta_from_bytes mv) as [m|]; cbn [mbind option_bind]; [|by apply IH].
  destruct (strip_prefix KV_META_PREFIX mk) as [k|]; cbn [mbind option_bind]; [|by apply IH].
  destruct (_ && _); [|by apply IH].
  destruct (delete_by_lease_loop id rev rows _) as [ks1 d1] eqn:E1. injection E as <- <-.
  destruct (IH _ _ _ E1) as [-> Ho]. split; [done|]. etrans; [|exact Ho]. auto with coord.
Qed.

(** Accepting the revision after the keys were changed, instead of before. *)
Lemma set_current_keys_only ts d d2 :
  keys_only d d2 -> keys_only (set_current_revision ts d) (set_current_revision ts d2).
Proof.
  intros Ho t H1 H2. destruct (decide (t = TABLE_META)) as [->|Hne].
  - intros k. unfold set_current_revision, tx_get, tx_insert.
    destruct (decide (k = META_CURRENT_REVISION)) as [->|Hk].
    + by rewrite !lookup_insert_eq.
    + rewrite !lookup_insert_ne by congruence. by apply (Ho TABLE_META).
  - unfold set_current_revision. rewrite !same_table_insert by done. by apply Ho.
Qed.

(** Lease cleanup at a commit timestamp refines the history.  The cleanup
    appends one event deleting exactly the live keys bound to the lease, or, if
    there are none, changes no history at all (so a later cleanup at the same
    timestamp is not taken for a replay).  It is rejected only for a zero
    timestamp, under a write fence or when the timestamp is taken; a replay and
    every rejection leave the store untouched. *)
Theorem delete_keys_by_lease_at_commit_ts_refines s d h id ts a :
  mvcc_rep s d h -> revision_mode s = ModeCommitTs -> in_u64 ts ->
  Z.of_nat (size d) < u32_modulus ->
  match delete_keys_by_lease_at_commit_ts s d id ts a with
  | (Ok (false, ks), d') =>
      (forall k, k ∈ ks <-> bound d id k) /\ (forall k, ~ bound d' id k) /\
      mvcc_rep s d' (match ks with [] => h | _ => h ++ [lease_event ks ts] end) /\
      current_revision s d' = (match ks with [] => current_revision s d | _ => ts end) /\
      (ks <> [] -> current_revision s d < ts)
  | (Ok (true, ks), d') => d' = d /\ ks = [] /\
      exists e, e ∈ h /\ revision e = ts /\ event_type e = EvLease
  | (Err e, d') => d' = d /\
      (ts = 0 \/ direct_write_fence_in_tx d <> Ok None \/
       (e = CommitRejected ts (current_revision s d) /\ ts <= current_revision s d))
  end.
Proof.
  intros Hrep Hm Hts Hs. unfold delete_keys_by_lease_at_commit_ts.
  destruct (Z.eqb_spec ts 0); [by auto|]. rewrite (changelog_event_at_rep s d h) by done.
  destruct (List.find _ _) as [e|] eqn:Ef.
  { destruct (find_retained _ _ _ _ _ Hrep Ef) as (? & ? & ?).
    case_decide; [|by auto]. split; [done|]. split; [done|]. by exists e. }
  unfold backend_write. destruct (direct_write_fence_in_tx d) as [[f|]|]; [by split; [|right; left]| |by split; [|right; left]].
  cbn [mbind result_bind].
  destruct (delete_keys_by_lease_in_tx id ts d) as [ks d2] eqn:Ed.
  assert (forall dx, same_table TABLE_KV_META dx d2 -> forall k, bound dx id k <-> bound d2 id k) as Hbx.
  { intros dx Hx k. unfold bound. by rewrite (get_kv_metadata_proper dx d2 Hx k k eq_refl). }
  assert (revision_checked s PolicyCommitTs = true) as Hc by (unfold revision_checked; by rewrite Hm).
  assert (ks = [] -> d2 = d) as Hnil.
  { intros ->. by eapply delete_by_lease_loop_nil. }
  destruct (delete_by_lease_loop_keys _ _ _ _ _ _ Ed) as [Hks Ho].
  assert (forall k, k ∈ ks <-> bound d id k) as Hb by (intros; rewrite Hks; apply elem_of_bound).
  destruct ks as [|k0 ks].
  - rewrite Hnil in * by done. split; [done|].
    split; [intros k Hbk; apply (Hbx (insert_last_applied a d)), Hb in Hbk;
      [by apply elem_of_nil in Hbk|by apply same_table_insert]|].
    rewrite current_revision_commit_ts by done. split; [|by split].
    eapply mvcc_rep_frame; [| | | | |exact Hrep];
      [by intros; apply tx_get_insert_ne|by apply same_table_insert..| |].
    + apply compacted_revision_last_applied.
    + rewrite current_revision_commit_ts by done. lia.
  - destruct (accept_commit_ts s d2 ts) as [d3|e] eqn:Ea; cbn [mbind result_bind].
    2:{ split; [done|]. right. right. rewrite <-(current_revision_proper s d2 d) by (by apply Ho).
        by apply (accept_revision_Err s d2 ts PolicyCommitTs). }
    apply (accept_revision_Ok s d2 ts PolicyCommitTs d3 Hc) in Ea as [Hlt ->].
    rewrite (current_revision_proper s d2 d) in Hlt by (by apply Ho).
    assert (keys_rep s d (compacted_revision d) ts (h ++ [pending ts EvLease []])) as Hk.
    { eapply pending_start; [|apply (rep_keys _ _ _ Hrep)]. lia. }
    destruct (delete_keys_by_lease_spec _ _ _ _ _ _ _ _ _ _ Hts Hk Ed)
      as (_ & Hn & _ & _ & Hk2 & Hnone).
    set (kk := k0 :: ks) in *. split; [done|].
    split; [intros k Hbk; apply (Hnone k); apply Hbx in Hbk; [done|];
      rewrite (finish_frame TABLE_KV_META) by done; by apply same_table_insert|].
    apply and_assoc. split; [|done].
    apply (commit_event s d h ts PolicyCommitTs Hrep Hts Hc (set_current_revision ts d)); try done.
    + by apply accept_revision_Ok.
    + by apply set_current_keys_only.
    + destruct (delete_event_wf h kk ts (rep_wf _ _ _ Hrep) Hts) as (? & ? & ?); [| |done].
      * eapply Z.le_lt_trans; [|exact Hs]. by apply inj_le.
      * rewrite Forall_forall. intros k Hin%Hb. pose proof (bound_live _ _ _ _ _ _ _ Hk Hin) as Hl.
        by rewrite latest_pending_nil in Hl.
    + eapply keys_rep_same; [| |exact Hk2]; symmetry; by apply same_table_insert.
Qed.
