(* ===== verification/Tso.v ===== *)
(** * The timestamp oracle

    Region 0 hands out timestamps in batches ([MvccStorage::apply_tso_allocate]
    in [storage/mvcc.rs], one raft entry per batch), and every node serves
    single timestamps from the batch it holds ([TsoClient] in [raft/tso.rs]).
    The client is written against the [TsoSource] trait; here it is a class
    with its laws, which Region 0 discharges. *)

From S2P Require Export Envelope Watermark.

Local Open Scope Z_scope.

(** ** Region 0 *)

Record TsoBatchRecord := { tb_revision : Z; tb_start_ts : Z; tb_end_ts : Z }.
Record TsoBatchOutcome := { bo_start_ts : Z; bo_end_ts : Z; bo_replayed : bool }.

Definition tso_high_water (d : db) : Z :=
  default 1 (tx_get d TABLE_KV TSO_HIGH_WATER ≫= decode_u64).

Section region0.
Context {pc : Postcard TsoBatchRecord}.

Definition tso_allocate_in_tx (s : MvccStorage) (batch_size rev : Z) (applied : AppliedLogId)
    (d : db) : result (TsoBatchOutcome * db) :=
  let d := note_log_index_revision s d rev in
  let start_ts := tso_high_water d in
  end_ts ← ok_or (u64_checked_add start_ts (Z.max batch_size 1)) Internal;
  let record := {| tb_revision := rev; tb_start_ts := start_ts; tb_end_ts := end_ts |} in
  record_bytes ← ok_or (envelope_encode record) Internal;
  let d := tx_insert TABLE_KV TSO_HIGH_WATER (be64 end_ts) d in
  let d := tx_insert TABLE_KV TSO_LAST_BATCH record_bytes d in
  let event := {| revision := rev; changes := []; event_type := EvPut |} in
  let d := insert_last_applied applied (insert_event event d) in
  Ok ({| bo_start_ts := start_ts; bo_end_ts := end_ts; bo_replayed := false |}, d).

Definition apply_tso_allocate (s : MvccStorage) (d : db) (batch_size rev : Z)
    (applied : AppliedLogId) : result TsoBatchOutcome * db :=
  if changelog_contains_revision d rev then
    let last := tx_get d TABLE_KV TSO_LAST_BATCH ≫= decode_ok in
    let empty := {| bo_start_ts := tso_high_water d; bo_end_ts := tso_high_water d;
                    bo_replayed := true |} in
    (Ok (match last with
         | Some rec =>
           if tb_revision rec =? rev then
             {| bo_start_ts := tb_start_ts rec; bo_end_ts := tb_end_ts rec; bo_replayed := true |}
           else empty
         | None => empty
         end), d)
  else backend_write d (tso_allocate_in_tx s batch_size rev applied).

End region0.

(** ** The client *)

Record TsoBatch := { start_ts : Z; end_ts : Z }.
Record CachedBatch := { cb_next : Z; cb_end : Z }.

Definition normalize_batch_size (requested max : Z) : result Z :=
  let size := Z.max requested 1 in
  if max <? size then Err InvalidArgument else Ok size.

(** The [TsoSource] trait: the state of the source is threaded through. *)
Class TsoSource (S : Type) := {
  is_leader : S -> bool;
  allocate : Z -> S -> result TsoBatch * S }.

Definition TSO_REFILL_THRESHOLD_DIVISOR : Z := 8.

Record TsoClient := { batch_size : Z; cache : CachedBatch; was_leader : bool }.

(** [TsoClient::new]. *)
Definition tso_client_new (n : Z) : TsoClient :=
  {| batch_size := Z.max n 1; cache := {| cb_next := 0; cb_end := 0 |}; was_leader := false |}.

Definition set_cache (c : TsoClient) (cb : CachedBatch) : TsoClient :=
  {| batch_size := batch_size c; cache := cb; was_leader := was_leader c |}.
Definition set_was_leader (c : TsoClient) (w : bool) : TsoClient :=
  {| batch_size := batch_size c; cache := cache c; was_leader := w |}.

Definition skip_to_above (floor : Z) (cb : CachedBatch) : CachedBatch :=
  if floor =? 0 then cb
  else if cb_next cb <=? floor then
    {| cb_next := Z.min (u64_saturating_add floor 1) (cb_end cb); cb_end := cb_end cb |}
  else cb.

Definition refill_threshold (c : TsoClient) : Z :=
  Z.max ((batch_size c + TSO_REFILL_THRESHOLD_DIVISOR - 1) / TSO_REFILL_THRESHOLD_DIVISOR) 1.

Definition needs_refill (c : TsoClient) : bool :=
  Z.max (cb_end (cache c) - cb_next (cache c)) 0 <=? refill_threshold c.

Definition claim (cb : CachedBatch) : option (Z * CachedBatch) :=
  if cb_end cb <=? cb_next cb then None
  else Some (cb_next cb, {| cb_next := cb_next cb + 1; cb_end := cb_end cb |}).

Definition discard_batch (cb : CachedBatch) : CachedBatch :=
  {| cb_next := cb_end cb; cb_end := cb_end cb |}.

Definition install_batch (batch : TsoBatch) (cb : CachedBatch) : result CachedBatch :=
  if end_ts batch <=? start_ts batch then Err Internal
  else if start_ts batch <? cb_next cb then Err Internal
  else Ok {| cb_next := start_ts batch; cb_end := end_ts batch |}.

Section client.
Context {S : Type} {src : TsoSource S}.

(** [refill]: [attempts] is the number of tries before the deadline passes. *)
Fixpoint refill_loop (attempts : nat) (c : TsoClient) (st : S) : result unit * TsoClient * S :=
  match allocate (batch_size c) st with
  | (Ok batch, st) =>
    match install_batch batch (cache c) with
    | Ok cb => (Ok tt, set_cache c cb, st)
    | Err e => (Err e, c, st)
    end
  | (Err e, st) =>
    if decide (e = NotLeader \/ e = NotLeaderNoHint) then
      (Err e, set_was_leader (set_cache c (discard_batch (cache c))) false, st)
    else match attempts with
    | O => (Err e, c, st)
    | Datatypes.S attempts =>
      if decide (e = ClusterUnavailable) then refill_loop attempts c st else (Err e, c, st)
    end
  end.

Definition refill (attempts : nat) (c : TsoClient) (st : S) : result unit * TsoClient * S :=
  if needs_refill c then refill_loop attempts c st else (Ok tt, c, st).

(** The [loop] of [get_ts_above]; [None] when the fuel runs out. *)
Fixpoint get_ts_loop (fuel attempts : nat) (floor : Z) (c : TsoClient) (st : S)
    : option (result Z * TsoClient * S) :=
  match fuel with
  | O => None
  | Datatypes.S fuel =>
    let c := set_cache c (skip_to_above floor (cache c)) in
    if needs_refill c then
      match refill attempts c st with
      | (Ok _, c, st) => get_ts_loop fuel attempts floor c st
      | (Err e, c, st) => Some (Err e, c, st)
      end
    else match claim (cache c) with
    | Some (ts, cb) =>
      let c := set_cache c cb in
      if floor <? ts then Some (Ok ts, c, st) else get_ts_loop fuel attempts floor c st
    | None => get_ts_loop fuel attempts floor c st
    end
  end.

Definition get_ts_above (fuel attempts : nat) (floor : Z) (c : TsoClient) (st : S)
    : option (result Z * TsoClient * S) :=
  if is_leader st then get_ts_loop fuel attempts floor (set_was_leader c true) st
  else
    let c := if was_leader c
             then set_cache (set_was_leader c false) (discard_batch (cache c)) else c in
    Some (Err NotLeader, c, st).

Definition get_ts (fuel attempts : nat) (c : TsoClient) (st : S) :=
  get_ts_above fuel attempts 0 c st.

End client.

(** ** Allocation in Region 0 *)

Lemma tso_high_water_range d : in_u64 (tso_high_water d).
Proof.
  unfold tso_high_water. destruct (tx_get d TABLE_KV TSO_HIGH_WATER) as [x|]; [|by vm_compute].
  cbn [mbind option_bind]. destruct (decode_u64 x) eqn:E; [|by vm_compute].
  by eapply decode_u64_range.
Qed.

Lemma note_log_index_same t s d rev :
  t <> TABLE_META -> same_table t (note_log_index_revision s d rev) d.
Proof.
  intros Ht. unfold note_log_index_revision. case_decide; [|done].
  destruct (_ <? _); [|done]. by apply same_table_insert.
Qed.

Lemma tso_high_water_same d d' : same_table TABLE_KV d d' -> tso_high_water d = tso_high_water d'.
Proof. intros Hs. unfold tso_high_water. by rewrite (Hs TSO_HIGH_WATER). Qed.

Section allocation.
Context {pc : Postcard TsoBatchRecord} {pl : PostcardLaws TsoBatchRecord}.
Context (s : MvccStorage).

Lemma apply_tso_allocate_fresh d n rev a :
  changelog_contains_revision d rev = false ->
  match u64_checked_add (tso_high_water d) (Z.max n 1) with
  | Some e => exists d',
      apply_tso_allocate s d n rev a =
        (Ok {| bo_start_ts := tso_high_water d; bo_end_ts := e; bo_replayed := false |}, d') /\
      tso_high_water d' = e /\ (forall rev', changelog_contains_revision d' rev' =
        bool_decide (encode_changelog_key rev' = encode_changelog_key rev)
        || changelog_contains_revision d rev') /\
      tx_get d' TABLE_KV TSO_LAST_BATCH ≫= decode_ok =
        Some {| tb_revision := rev; tb_start_ts := tso_high_water d; tb_end_ts := e |}
  | None => apply_tso_allocate s d n rev a = (Err Internal, d)
  end.
Proof using pl.
  intros Hnew. pose proof (tso_high_water_range d) as Hr.
  unfold apply_tso_allocate, backend_write, tso_allocate_in_tx. rewrite Hnew. cbv zeta.
  rewrite (tso_high_water_same (note_log_index_revision s d rev) d) by (by apply note_log_index_same).
  destruct (u64_checked_add (tso_high_water d) (Z.max n 1)) as [e|] eqn:Ee; [|done].
  cbn [ok_or mbind result_bind]. set (record := {| tb_revision := rev |}).
  destruct (encode_total record) as [x Ex]. rewrite Ex. cbn [ok_or mbind result_bind].
  eexists. split; [done|]. unfold insert_last_applied, insert_event. split; [|split].
  - unfold tso_high_water. rewrite tx_get_insert_ne, tx_get_insert_ne, tx_get_insert_ne,
      tx_get_insert by done. cbn [mbind option_bind]. rewrite decode_u64_be64; [done|].
    unfold u64_checked_add in Ee. destruct (Z.leb_spec (tso_high_water d + Z.max n 1) u64_max);
      [|done]. injection Ee as <-. unfold in_u64, u64_max in *. lia.
  - intros rev'. unfold changelog_contains_revision. cbn [revision].
    rewrite tx_get_insert_ne by done.
    destruct (decide (encode_changelog_key rev' = encode_changelog_key rev)) as [E1|E1].
    + rewrite E1, tx_get_insert, !bool_decide_eq_true_2 by (done || by eexists). done.
    + rewrite !tx_get_insert_ne, (bool_decide_eq_false_2 _ E1) by congruence. simpl.
      by rewrite (note_log_index_same TABLE_CHANGELOG s d rev ltac:(done) (encode_changelog_key rev')).
  - rewrite !tx_get_insert_ne, tx_get_insert by done. cbn [mbind option_bind].
    by apply decode_ok_encode.
Qed.

(** Timestamp batches.  A new allocation gets the batch that starts at the
    high water and is as long as requested (at least one), and moves the high
    water to its end; it fails, without effect, only when the batch would
    overflow [u64].  Applying the same log entry again returns the same batch
    and changes nothing. *)
Theorem tso_allocate_spec d n rev a n' a' :
  changelog_contains_revision d rev = false ->
  match apply_tso_allocate s d n rev a with
  | (Ok out, d') =>
      bo_start_ts out = tso_high_water d /\ bo_end_ts out = tso_high_water d + Z.max n 1 /\
      bo_end_ts out <= u64_max /\ tso_high_water d' = bo_end_ts out /\
      apply_tso_allocate s d' n' rev a' =
        (Ok {| bo_start_ts := bo_start_ts out; bo_end_ts := bo_end_ts out; bo_replayed := true |}, d')
  | (Err e, d') => d' = d /\ u64_max < tso_high_water d + Z.max n 1
  end.
Proof using pl.
  intros Hnew. pose proof (apply_tso_allocate_fresh d n rev a Hnew) as H.
  unfold u64_checked_add in H.
  destruct (Z.leb_spec (tso_high_water d + Z.max n 1) u64_max); [|by rewrite H].
  destruct H as (d' & -> & Hhw & Hc & Hlast). cbn [bo_start_ts bo_end_ts].
  split; [done|]. split; [done|]. split; [done|]. split; [done|].
  unfold apply_tso_allocate. rewrite Hc, bool_decide_eq_true_2 by done. simpl orb. cbv iota.
  rewrite Hlast. cbn [tb_revision]. by rewrite Z.eqb_refl.
Qed.

End allocation.

(** ** Nodes and Region 0 together *)

(** The store of Region 0; what each node caches, and the batch it was granted
    but has not installed yet; the timestamps issued so far, newest first. *)
Record tso_system := {
  sys_db : db;
  sys_caches : gmap nat CachedBatch;
  sys_inflight : gmap nat TsoBatch;
  sys_issued : list (nat * Z) }.

Definition tso_init : tso_system :=
  {| sys_db := ∅; sys_caches := ∅; sys_inflight := ∅; sys_issued := [] |}.

Definition cache_of (y : tso_system) (n : nat) : CachedBatch :=
  default {| cb_next := 0; cb_end := 0 |} (sys_caches y !! n).

Definition with_cache (y : tso_system) (n : nat) (cb : CachedBatch) : tso_system :=
  {| sys_db := sys_db y; sys_caches := <[n := cb]> (sys_caches y);
     sys_inflight := sys_inflight y; sys_issued := sys_issued y |}.

Section system.
Context {pc : Postcard TsoBatchRecord} {pl : PostcardLaws TsoBatchRecord}.
Context (s : MvccStorage).

(** One atomic step of any node or of Region 0, in any order. *)
Inductive tso_step (y : tso_system) : tso_system -> Prop :=
  (** A batch is allocated and its response is on the way to node [n]. *)
  | tso_step_allocate n k rev a out d' :
      apply_tso_allocate s (sys_db y) k rev a = (Ok out, d') -> bo_replayed out = false ->
      sys_inflight y !! n = None ->
      tso_step y {| sys_db := d'; sys_caches := sys_caches y;
        sys_inflight :=
          <[n := {| start_ts := bo_start_ts out; end_ts := bo_end_ts out |}]> (sys_inflight y);
        sys_issued := sys_issued y |}
  (** An allocation that fails, is a replay, or whose response is lost. *)
  | tso_step_lost k rev a :
      tso_step y {| sys_db := (apply_tso_allocate s (sys_db y) k rev a).2;
        sys_caches := sys_caches y; sys_inflight := sys_inflight y; sys_issued := sys_issued y |}
  | tso_step_install n batch cb :
      sys_inflight y !! n = Some batch -> install_batch batch (cache_of y n) = Ok cb ->
      tso_step y {| sys_db := sys_db y; sys_caches := <[n := cb]> (sys_caches y);
        sys_inflight := base.delete n (sys_inflight y); sys_issued := sys_issued y |}
  | tso_step_refuse n :
      tso_step y {| sys_db := sys_db y; sys_caches := sys_caches y;
        sys_inflight := base.delete n (sys_inflight y); sys_issued := sys_issued y |}
  | tso_step_skip n floor :
      in_u64 floor -> tso_step y (with_cache y n (skip_to_above floor (cache_of y n)))
  | tso_step_discard n : tso_step y (with_cache y n (discard_batch (cache_of y n)))
  | tso_step_claim n ts cb :
      claim (cache_of y n) = Some (ts, cb) ->
      tso_step y {| sys_db := sys_db y; sys_caches := <[n := cb]> (sys_caches y);
        sys_inflight := sys_inflight y; sys_issued := (n, ts) :: sys_issued y |}
  (** A node loses its memory. *)
  | tso_step_restart n :
      tso_step y {| sys_db := sys_db y; sys_caches := base.delete n (sys_caches y);
        sys_inflight := base.delete n (sys_inflight y); sys_issued := sys_issued y |}
  (** Anything else that happens to the store of Region 0. *)
  | tso_step_other d' :
      tx_get d' TABLE_KV TSO_HIGH_WATER = tx_get (sys_db y) TABLE_KV TSO_HIGH_WATER ->
      tso_step y {| sys_db := d'; sys_caches := sys_caches y; sys_inflight := sys_inflight y;
        sys_issued := sys_issued y |}.

(** Node [n] can still issue [x], from its cache or from the batch on its way. *)
Definition owns (y : tso_system) (o : nat * bool) (x : Z) : Prop :=
  if o.2 then cb_next (cache_of y o.1) <= x < cb_end (cache_of y o.1)
  else exists batch, sys_inflight y !! o.1 = Some batch /\ start_ts batch <= x < end_ts batch.

Record tso_inv (y : tso_system) : Prop := {
  inv_owned : forall o x, owns y o x -> 1 <= x < tso_high_water (sys_db y);
  inv_issued : forall n x, (n, x) ∈ sys_issued y -> 1 <= x < tso_high_water (sys_db y);
  inv_exclusive : forall o o' x, owns y o x -> owns y o' x -> o = o';
  inv_order : forall n x o y', (n, x) ∈ sys_issued y -> owns y o y' ->
    x <> y' /\ (o.1 = n -> x < y');
  inv_newer : forall n x x', owns y (n, true) x -> owns y (n, false) x' -> x < x';
  inv_nodup : NoDup (sys_issued y).*2;
  inv_sorted : StronglySorted (fun p q : nat * Z => p.1 = q.1 -> q.2 < p.2) (sys_issued y);
  inv_positive : 1 <= tso_high_water (sys_db y) }.

(** Giving up timestamps, or moving the high water up, keeps the invariant. *)
Lemma tso_inv_shrink y y' :
  tso_inv y -> sys_issued y' = sys_issued y ->
  tso_high_water (sys_db y) <= tso_high_water (sys_db y') ->
  (forall o x, owns y' o x -> owns y o x) -> tso_inv y'.
Proof.
  intros [H1 H2 H3 H4 H5 H6 H7 H8] Hi Hh Ho. split; rewrite ?Hi; eauto.
  - intros o x Hx. specialize (H1 o x (Ho _ _ Hx)). lia.
  - intros n x Hx. specialize (H2 n x Hx). lia.
  - lia.
Qed.

Lemma cache_of_insert y n n' cb caches :
  cache_of {| sys_db := sys_db y; sys_caches := <[n := cb]> caches;
              sys_inflight := sys_inflight y; sys_issued := sys_issued y |} n' =
  if decide (n' = n) then cb else default {| cb_next := 0; cb_end := 0 |} (caches !! n').
Proof.
  unfold cache_of. simpl. case_decide; [subst; by rewrite lookup_insert_eq|].
  by rewrite lookup_insert_ne.
Qed.

(** Narrowing the cache of one node gives up timestamps only. *)
Lemma tso_inv_narrow y n cb :
  tso_inv y ->
  (forall x, cb_next cb <= x < cb_end cb -> cb_next (cache_of y n) <= x < cb_end (cache_of y n)) ->
  tso_inv (with_cache y n cb).
Proof.
  intros Hy Hn. apply (tso_inv_shrink y); [done|done|simpl; lia|].
  intros [n' []] x; [|done]. unfold owns, with_cache. simpl. rewrite cache_of_insert.
  case_decide; [subst|done]. apply Hn.
Qed.

Lemma apply_tso_allocate_cases d k rev a :
  (exists out, apply_tso_allocate s d k rev a = (Ok out, d) /\ bo_replayed out = true) \/
  apply_tso_allocate s d k rev a = (Err Internal, d) \/
  exists e d', tso_high_water d < e /\ tso_high_water d' = e /\
    apply_tso_allocate s d k rev a =
    (Ok {| bo_start_ts := tso_high_water d; bo_end_ts := e; bo_replayed := false |}, d').
Proof using pl.
  destruct (changelog_contains_revision d rev) eqn:Hc.
  - left. unfold apply_tso_allocate. rewrite Hc. eexists. split; [done|].
    destruct (_ ≫= _) as [r|]; [|done]. by destruct (_ =? _).
  - right. pose proof (apply_tso_allocate_fresh s d k rev a Hc) as H. unfold u64_checked_add in H.
    destruct (Z.leb_spec (tso_high_water d + Z.max k 1) u64_max); [right|by left].
    destruct H as (d' & E & Hh & _). exists (tso_high_water d + Z.max k 1), d'. by auto with lia.
Qed.

Lemma tso_inv_allocate y n e d' :
  tso_inv y -> sys_inflight y !! n = None -> tso_high_water (sys_db y) < e ->
  tso_high_water d' = e ->
  tso_inv {| sys_db := d'; sys_caches := sys_caches y;
    sys_inflight := <[n := {| start_ts := tso_high_water (sys_db y); end_ts := e |}]> (sys_inflight y);
    sys_issued := sys_issued y |}.
Proof.
  intros [H1 H2 H3 H4 H5 H6 H7 H8] Hn He Hd.
  assert (forall o x, owns {| sys_db := d'; sys_caches := sys_caches y;
    sys_inflight := <[n := {| start_ts := tso_high_water (sys_db y); end_ts := e |}]> (sys_inflight y);
    sys_issued := sys_issued y |} o x ->
    (o <> (n, false) /\ owns y o x) \/ (o = (n, false) /\ tso_high_water (sys_db y) <= x < e)) as Ho.
  { intros [n' []] x; unfold owns; simpl; [by left|]. intros (batch & E & Hx).
    destruct (decide (n' = n)) as [->|Hne].
    - rewrite lookup_insert_eq in E. injection E as <-. by right.
    - rewrite lookup_insert_ne in E by done. left. split; [congruence|by exists batch]. }
  split; simpl; rewrite ?Hd; try done.
  - intros o x [[_ Hx%H1]|[_ Hx]]%Ho; lia.
  - intros n' x Hx%H2. lia.
  - intros o o' x [[Hf Hx]|[-> Hx]]%Ho [[Hf' Hx']|[-> Hx']]%Ho; [by eapply H3| | |done].
    + apply H1 in Hx. lia.
    + apply H1 in Hx'. lia.
  - intros n' x o x' Hx [[_ Hx']|[-> Hx']]%Ho; [by eapply H4|]. apply H2 in Hx. simpl. lia.
  - intros n' x x' [[_ Hx]|[? _]]%Ho [[_ Hx']|[E Hx']]%Ho; [by eapply H5| |done|done].
    apply H1 in Hx. lia.
  - lia.
Qed.

Lemma tso_inv_install y n batch cb :
  tso_inv y -> sys_inflight y !! n = Some batch -> install_batch batch (cache_of y n) = Ok cb ->
  tso_inv {| sys_db := sys_db y; sys_caches := <[n := cb]> (sys_caches y);
    sys_inflight := base.delete n (sys_inflight y); sys_issued := sys_issued y |}.
Proof.
  intros [H1 H2 H3 H4 H5 H6 H7 H8] Hn Hi. unfold install_batch in Hi.
  destruct (end_ts batch <=? start_ts batch); [done|].
  destruct (start_ts batch <? cb_next (cache_of y n)); [done|]. injection Hi as <-.
  set (y' := {| sys_db := sys_db y |}).
  assert (forall o x, owns y' o x ->
    (o.1 <> n /\ owns y o x) \/ (o = (n, true) /\ owns y (n, false) x)) as Ho.
  { intros [n' []] x; unfold owns, cache_of; simpl.
    - destruct (decide (n' = n)) as [->|Hne]; [rewrite lookup_insert_eq|rewrite lookup_insert_ne by done].
      + intros Hx. right. split; [done|]. exists batch. by split.
      + intros Hx. left. by split.
    - intros (bt & E & Hx). apply lookup_delete_Some in E as [Hne E]. left. split; [done|by exists bt]. }
  split; try done.
  - intros o x [[_ Hx%H1]|[_ Hx%H1]]%Ho; done.
  - intros o o' x [[Hf Hx]|[-> Hx]]%Ho [[Hf' Hx']|[-> Hx']]%Ho; [by eapply H3| | |done].
    + by rewrite (H3 _ _ _ Hx Hx') in Hf.
    + by rewrite (H3 _ _ _ Hx' Hx) in Hf'.
  - intros n' x o x' Hx [[_ Hx']|[-> Hx']]%Ho; [by eapply H4|].
    by apply (H4 n' x (n, false) x' Hx Hx').
  - intros n' x x' [[Hf Hx]|[E Hx]]%Ho [[Hf' Hx']|[E' Hx']]%Ho; [by eapply H5|done| |done].
    injection E as ->. done.
Qed.

Lemma tso_inv_claim y n ts cb :
  tso_inv y -> claim (cache_of y n) = Some (ts, cb) ->
  tso_inv {| sys_db := sys_db y; sys_caches := <[n := cb]> (sys_caches y);
    sys_inflight := sys_inflight y; sys_issued := (n, ts) :: sys_issued y |}.
Proof.
  intros [H1 H2 H3 H4 H5 H6 H7 H8] Hc. unfold claim in Hc.
  destruct (Z.leb_spec (cb_end (cache_of y n)) (cb_next (cache_of y n))); [done|].
  injection Hc as <- <-. set (ts := cb_next (cache_of y n)) in *. set (y' := {| sys_db := sys_db y |}).
  assert (owns y (n, true) ts) as Hts by (unfold owns; simpl; lia).
  assert (forall o x, owns y' o x -> owns y o x /\ x <> ts /\ (o.1 = n -> ts < x)) as Ho.
  { intros [n' b'] x Hx. assert (owns y (n', b') x /\ (n' = n -> b' = true -> ts < x)) as [Hx' Hlt].
    { revert Hx. destruct b'; unfold owns, cache_of; simpl; [|by split].
      destruct (decide (n' = n)) as [->|Hne];
        [rewrite lookup_insert_eq; simpl; unfold ts, cache_of; lia|by rewrite lookup_insert_ne]. }
    split; [done|]. split.
    - intros ->. pose proof (H3 _ _ _ Hx' Hts) as [= -> ->].
      specialize (Hlt eq_refl eq_refl). lia.
    - simpl. intros ->. destruct b'; [by apply Hlt|]. by eapply H5. }
  split; try done.
  - intros o x [Hx _]%Ho. by eapply H1.
  - simpl. intros n' x [E|Hx]%elem_of_cons; [injection E as -> ->; by eapply H1|by eapply H2].
  - intros o o' x [Hx _]%Ho [Hx' _]%Ho. by eapply H3.
  - simpl. intros n' x o x' [E|Hx]%elem_of_cons (Hx' & Hne & Hlt)%Ho; [|by eapply H4].
    injection E as -> ->. by auto.
  - intros n' x x' [Hx _]%Ho [Hx' _]%Ho. by eapply H5.
  - simpl. constructor; [|done]. intros ([n' x] & E & Hx)%list_elem_of_fmap. simpl in E. subst x.
    by destruct (H4 _ _ _ _ Hx Hts).
  - simpl. constructor; [done|]. rewrite Forall_forall. intros [n' x] Hx E. simpl in *. subst n'.
    by apply (H4 n x (n, true) ts Hx Hts).
Qed.

Lemma tso_inv_step y y' : tso_inv y -> tso_step y y' -> tso_inv y'.
Proof using pl.
  intros Hy Hs. destruct Hs as [n k rev a out d' E Hr Hn|k rev a|n batch cb Hn Hi|n|n floor Hf|n|
    n ts cb Hc|n|d' Hd].
  - destruct (apply_tso_allocate_cases (sys_db y) k rev a) as [(o & E' & ?)|[E'|(e & d1 & ? & ? & E')]];
      rewrite E' in E; [congruence|done|]. injection E as <- <-. by apply tso_inv_allocate.
  - destruct (apply_tso_allocate_cases (sys_db y) k rev a) as [(o & -> & ?)|[->|(e & d1 & ? & ? & ->)]];
      (apply (tso_inv_shrink y); [done|done|simpl; lia|done]).
  - by eapply tso_inv_install.
  - apply (tso_inv_shrink y); [done|done|simpl; lia|].
    intros [n' []] x; unfold owns; simpl; [done|]. intros (bt & E & Hx).
    apply lookup_delete_Some in E as [_ E]. by exists bt.
  - apply tso_inv_narrow; [done|]. intros x. unfold skip_to_above.
    destruct (floor =? 0); [done|]. unfold in_u64 in Hf.
    destruct (Z.leb_spec (cb_next (cache_of y n)) floor); [|done].
    simpl. unfold u64_saturating_add, u64_max. lia.
  - apply tso_inv_narrow; [done|]. simpl. lia.
  - by eapply tso_inv_claim.
  - apply (tso_inv_shrink y); [done|done|simpl; lia|]. intros [n' []] x; unfold owns, cache_of; simpl.
    + destruct (decide (n' = n)) as [->|Hne]; [rewrite lookup_delete_eq; simpl; lia|].
      by rewrite lookup_delete_ne.
    + intros (bt & E & Hx). apply lookup_delete_Some in E as [_ E]. by exists bt.
  - apply (tso_inv_shrink y); [done|done| |done]. simpl. unfold tso_high_water. rewrite Hd. lia.
Qed.

End system.

Lemma tso_inv_init : tso_inv tso_init.
Proof.
  assert (forall o x, ~ owns tso_init o x) as Ho.
  { intros [n []] x; unfold owns, cache_of; simpl; [rewrite lookup_empty; simpl; lia|].
    intros (bt & E & _). by rewrite lookup_empty in E. }
  split; simpl; try (intros * H; (by apply Ho in H) || by apply elem_of_nil in H);
    [constructor..|by vm_compute].
Qed.

(** C34: timestamps are unique.  However allocations, installations, lost
    responses, skips, discarded batches, restarts and claims of any number of
    nodes interleave with everything else that happens in Region 0, no
    timestamp is ever issued twice, each node issues increasing timestamps, and
    all of them lie between one and the high water. *)
Theorem tso_timestamps_unique {pc : Postcard TsoBatchRecord} s y :
  PostcardLaws TsoBatchRecord -> rtc (tso_step s) tso_init y ->
  NoDup (sys_issued y).*2 /\
  StronglySorted (fun p q : nat * Z => p.1 = q.1 -> q.2 < p.2) (sys_issued y) /\
  forall n ts, (n, ts) ∈ sys_issued y -> 1 <= ts < tso_high_water (sys_db y).
Proof.
  intros pl Hr. assert (tso_inv y) as [H1 H2 H3 H4 H5 H6 H7 H8]; [|done].
  pose proof tso_inv_init as H0. revert H0.
  induction Hr as [|y1 y2 y3 Hs _ IH]; [done|]. intros H. by eapply IH, tso_inv_step.
Qed.

(** ** The client against its source *)

Class TsoSourceLaws (S : Type) {src : TsoSource S} (hw : S -> Z) (inv : S -> Prop) : Prop := {
  source_leader : forall st, inv st -> is_leader st = true;
  source_positive : forall st, inv st -> 1 <= hw st;
  source_allocate : forall n st, inv st -> hw st + Z.max n 1 <= u64_max ->
    exists st', allocate n st =
      (Ok {| start_ts := hw st; end_ts := hw st + Z.max n 1 |}, st') /\
      inv st' /\ hw st' = hw st + Z.max n 1 }.

(** What the cache of a client holds lies below the high water. *)
Definition cache_wf (hw : Z) (cb : CachedBatch) : Prop :=
  cb_next cb <= cb_end cb <= hw /\ (cb_next cb < cb_end cb -> 1 <= cb_next cb).

Section liveness.
Context {S : Type} {src : TsoSource S} (hw : S -> Z) (inv : S -> Prop) {sl : TsoSourceLaws S hw inv}.
Context (attempts : nat) (floor : Z) (Hfloor : 0 <= floor < u64_max).

Lemma skip_to_above_wf H cb :
  cache_wf H cb -> cache_wf H (skip_to_above floor cb) /\
  cb_next cb <= cb_next (skip_to_above floor cb) /\
  cb_end (skip_to_above floor cb) = cb_end cb /\
  (cb_next (skip_to_above floor cb) < cb_end cb -> floor < cb_next (skip_to_above floor cb)).
Proof using Hfloor.
  unfold cache_wf, skip_to_above. intros Hc. destruct (Z.eqb_spec floor 0); [lia|].
  destruct (Z.leb_spec (cb_next cb) floor); simpl; [|lia]. unfold u64_saturating_add. lia.
Qed.

Lemma refill_ok c st :
  inv st -> needs_refill c = true -> cache_wf (hw st) (cache c) -> 1 <= batch_size c ->
  hw st + batch_size c <= u64_max ->
  exists st', refill attempts c st =
    (Ok tt, set_cache c {| cb_next := hw st; cb_end := hw st + batch_size c |}, st') /\
    inv st' /\ hw st' = hw st + batch_size c.
Proof using sl.
  intros Hi Hn [Hc _] Hb Hm. unfold refill. rewrite Hn.
  destruct (@source_allocate S src hw inv sl (batch_size c) st Hi ltac:(lia)) as (st' & E & Hi' & Hh).
  rewrite Z.max_l in E, Hh by lia. exists st'. split; [|done].
  assert (install_batch {| start_ts := hw st; end_ts := hw st + batch_size c |} (cache c) =
    Ok {| cb_next := hw st; cb_end := hw st + batch_size c |}) as Hin.
  { unfold install_batch. simpl. destruct (Z.leb_spec (hw st + batch_size c) (hw st)); [lia|].
    by destruct (Z.ltb_spec (hw st) (cb_next (cache c))); [lia|]. }
  destruct attempts; simpl; rewrite E; by rewrite Hin.
Qed.

(** Enough timestamps in the cache: the next one above the floor is issued. *)
Lemma get_ts_claim c st H :
  cache_wf H (cache c) ->
  needs_refill (set_cache c (skip_to_above floor (cache c))) = false ->
  exists ts c',
    (forall fuel, get_ts_loop (Datatypes.S fuel) attempts floor c st = Some (Ok ts, c', st)) /\
    floor < ts /\ cb_next (cache c) <= ts.
Proof using Hfloor.
  intros Hw Hn. destruct (skip_to_above_wf H _ Hw) as (_ & Hle & He & Hlt).
  pose proof Hn as Hn'. unfold needs_refill in Hn'. apply Z.leb_gt in Hn'.
  cbn [cache set_cache] in *. set (cb := skip_to_above floor (cache c)) in *.
  assert (1 <= refill_threshold (set_cache c cb)) by (unfold refill_threshold; lia).
  eexists (cb_next cb), _. split; [|lia]. intros fuel. cbn [get_ts_loop]. cbv zeta. fold cb.
  rewrite Hn. unfold claim. cbn [cache set_cache].
  destruct (Z.leb_spec (cb_end cb) (cb_next cb)); [lia|].
  by destruct (Z.ltb_spec floor (cb_next cb)); [|lia].
Qed.

Lemma get_ts_loop_refill fuel c st c2 st' :
  let c1 := set_cache c (skip_to_above floor (cache c)) in
  needs_refill c1 = true -> refill attempts c1 st = (Ok tt, c2, st') ->
  get_ts_loop (Datatypes.S fuel) attempts floor c st = get_ts_loop fuel attempts floor c2 st'.
Proof. intros c1 Hn E. cbn [get_ts_loop]. cbv zeta. fold c1. by rewrite Hn, E. Qed.

Lemma threshold_lt c : 2 <= batch_size c -> refill_threshold c < batch_size c.
Proof.
  unfold refill_threshold, TSO_REFILL_THRESHOLD_DIVISOR. Z.to_euclidean_division_equations. lia.
Qed.

Lemma get_ts_loop_returns k c st :
  inv st -> cache_wf (hw st) (cache c) -> 2 <= batch_size c ->
  floor < hw st + Z.of_nat k * batch_size c ->
  hw st + (Z.of_nat k + 1) * batch_size c <= u64_max ->
  exists ts c' st', get_ts_loop (Datatypes.S (Datatypes.S k)) attempts floor c st
    = Some (Ok ts, c', st') /\ floor < ts /\ cb_next (cache c) <= ts.
Proof using sl Hfloor.
  revert c st. induction k as [|k IH]; intros c st Hi Hw Hb Hf Hm.
  all: set (c1 := set_cache c (skip_to_above floor (cache c))).
  all: destruct (needs_refill c1) eqn:Hn;
    [|destruct (get_ts_claim c st _ Hw Hn) as (ts & c' & ? & ? & ?); by eauto 10].
  all: destruct (skip_to_above_wf _ _ Hw) as (Hw1 & Hle & _).
  all: destruct (refill_ok c1 st Hi Hn Hw1 ltac:(simpl; lia) ltac:(simpl; nia)) as (st' & E & Hi' & Hh).
  all: pose proof (@source_positive S src hw inv sl st Hi); change (batch_size c1) with (batch_size c) in *.
  all: set (c2 := set_cache c1 _) in E.
  all: assert (cache_wf (hw st') (cache c2)) as Hw2 by (split; simpl; lia).
  all: rewrite (get_ts_loop_refill _ c st c2 st' Hn E).
  - assert (needs_refill (set_cache c2 (skip_to_above floor (cache c2))) = false) as Hn2.
    { unfold skip_to_above. simpl. destruct (Z.leb_spec (hw st) floor); [lia|].
      pose proof (threshold_lt c Hb). unfold needs_refill.
      destruct (floor =? 0); simpl; change (refill_threshold _) with (refill_threshold c); lia. }
    destruct (get_ts_claim c2 st' _ Hw2 Hn2) as (ts & c' & -> & ? & Hts). simpl in Hts.
    destruct Hw. eexists _, _, _. split; [done|]. lia.
  - destruct (IH c2 st' Hi' Hw2) as (ts & c' & st'' & -> & ? & Hts); [done|simpl; lia..|].
    simpl in Hts. destruct Hw. eexists _, _, _. split; [done|]. lia.
Qed.

End liveness.

(** A timestamp is served.  With batches of at least two, a leader that can
    allocate returns a timestamp above the requested floor, after at most
    [k + 2] rounds when the floor is less than [k] batches above the high water;
    the timestamp is not below what the client would have issued next. *)
Theorem get_ts_above_returns {S : Type} {src : TsoSource S} (hw : S -> Z) (inv : S -> Prop)
    attempts floor k c st :
  TsoSourceLaws S hw inv -> inv st -> 0 <= floor -> cache_wf (hw st) (cache c) ->
  2 <= batch_size c -> floor < hw st + Z.of_nat k * batch_size c ->
  hw st + (Z.of_nat k + 1) * batch_size c <= u64_max ->
  exists ts c' st', get_ts_above (k + 2) attempts floor c st = Some (Ok ts, c', st') /\
    floor < ts /\ cb_next (cache c) <= ts.
Proof.
  intros sl Hi Hf Hw Hb Hk Hm. unfold get_ts_above. rewrite source_leader by done.
  replace (k + 2)%nat with (Datatypes.S (Datatypes.S k)) by lia.
  apply (get_ts_loop_returns hw inv attempts floor ltac:(nia) k (set_was_leader c true) st); done.
Qed.

(** With batches of one, no timestamp is ever served.  The refill threshold
    is at least one, so a batch of one timestamp always needs a refill: the
    loop of [get_ts_above] allocates batch after batch and never returns,
    although a batch size of one is a valid configuration. *)
Theorem get_ts_above_spins {S : Type} {src : TsoSource S} (hw : S -> Z) (inv : S -> Prop)
    fuel attempts floor c st :
  TsoSourceLaws S hw inv -> inv st -> 0 <= floor < u64_max -> cache_wf (hw st) (cache c) ->
  batch_size c = 1 -> cb_end (cache c) - cb_next (cache c) <= 1 ->
  hw st + Z.of_nat fuel <= u64_max ->
  get_ts_above fuel attempts floor c st = None.
Proof.
  intros sl Hi Hf Hw Hb Hc Hm. unfold get_ts_above. rewrite source_leader by done.
  assert (batch_size (set_was_leader c true) = 1) as Hb' by done. revert Hb'.
  assert (cache_wf (hw st) (cache (set_was_leader c true))) as Hw' by done. revert Hw'.
  assert (cb_end (cache (set_was_leader c true)) - cb_next (cache (set_was_leader c true)) <= 1)
    as Hc' by done. revert Hc'.
  generalize (set_was_leader c true). clear c Hw Hb Hc. revert st Hi Hm.
  induction fuel as [|fuel IH]; intros st Hi Hm c Hc Hw Hb; [done|].
  destruct (skip_to_above_wf floor Hf _ _ Hw) as (Hw1 & Hle & He & _).
  set (c1 := set_cache c (skip_to_above floor (cache c))).
  assert (needs_refill c1 = true) as Hn.
  { unfold needs_refill, refill_threshold. simpl. rewrite Hb. apply Z.leb_le. simpl. lia. }
  destruct (refill_ok hw inv attempts c1 st Hi Hn Hw1 ltac:(simpl; lia) ltac:(simpl; lia))
    as (st' & E & Hi' & Hh).
  rewrite (get_ts_loop_refill attempts floor fuel c st _ st' Hn E). simpl in Hh. rewrite Hb in Hh.
  pose proof (source_positive st Hi). apply IH; simpl; [done|lia|lia| |done].
  split; simpl; lia.
Qed.

(** ** Region 0 is such a source *)

(** The store of Region 0, the next raft index, and who leads it: this node
    ([Some true]), another one, or nobody known. *)
Record region0 := { r0_db : db; r0_index : Z; r0_leader : option bool }.

Section source.
Context {pc : Postcard TsoBatchRecord} {pl : PostcardLaws TsoBatchRecord} (s : MvccStorage).

(** [TsoAllocator::allocate], with a proposal that is committed and applied. *)
Definition allocator_allocate (n : Z) (st : region0) : result TsoBatch * region0 :=
  let n := Z.max n 1 in
  match r0_leader st with
  | None => (Err ClusterUnavailable, st)
  | Some false => (Err NotLeader, st)
  | Some true =>
    let '(r, d') := apply_tso_allocate s (r0_db st) n (r0_index st) (standalone (r0_index st)) in
    (out ← r; Ok {| start_ts := bo_start_ts out; end_ts := bo_end_ts out |},
     {| r0_db := d'; r0_index := r0_index st + 1; r0_leader := r0_leader st |})
  end.

Definition region0_source : TsoSource region0 := {|
  is_leader st := bool_decide (r0_leader st = Some true);
  allocate := allocator_allocate |}.

(** This node leads, and no entry of the log is applied twice. *)
Definition region0_inv (st : region0) : Prop :=
  r0_leader st = Some true /\ 0 <= r0_index st <= tso_high_water (r0_db st) /\
  1 <= tso_high_water (r0_db st) /\
  forall rev, in_u64 rev -> r0_index st <= rev -> changelog_contains_revision (r0_db st) rev = false.

Lemma region0_source_laws :
  @TsoSourceLaws region0 region0_source (fun st => tso_high_water (r0_db st)) region0_inv.
Proof using pl.
  split; simpl.
  - intros st (Hl & _). by apply bool_decide_eq_true_2.
  - intros st (_ & _ & ? & _). done.
  - intros n st (Hl & Hx & H1 & Hc) Hm. unfold allocator_allocate. rewrite Hl.
    assert (in_u64 (r0_index st)) as Hu by (unfold in_u64, u64_max in *; lia).
    pose proof (apply_tso_allocate_fresh s (r0_db st) (Z.max n 1) (r0_index st)
      (standalone (r0_index st)) (Hc _ Hu ltac:(lia))) as H.
    rewrite (Z.max_l (Z.max n 1) 1) in H by lia. unfold u64_checked_add in H.
    rewrite (proj2 (Z.leb_le _ _) Hm) in H. destruct H as (d' & -> & Hh & Hc' & _).
    eexists. split; [done|]. simpl. rewrite Hh. split; [|done].
    split; [done|]. simpl. rewrite Hh. split; [lia|]. split; [lia|].
    intros rev Hr Hge. rewrite Hc', Hc, orb_false_r by (done || lia). apply bool_decide_eq_false_2.
    intros E%encode_changelog_key_inj; [lia|done|done].
Qed.

End source.
