(* ===== verification/Reach.v ===== *)
(** * The store as a transition system

    One step is one applied log entry: a put, a deletion, a range deletion, a
    transaction, a lease operation of either version or the cleanup of a
    lease's keys, a mark or a fence, a watermark advance, a compaction.  Every
    reachable store represents a history; a step extends it by at most one
    event at a new highest revision, so the past never changes and historical
    reads are repeatable.  The rows of the tables decode, and the metadata of a
    key shows the life the history tells of it. *)

From S2P Require Export Lease.

Local Open Scope Z_scope.

(** ** The empty store *)

Lemma mvcc_rep_empty s : mvcc_rep s ∅ [].
Proof.
  assert (current_revision s ∅ = 0) as Hc.
  { unfold current_revision, current_revision_in_tx, get_applied_log_id, tx_get.
    rewrite !lookup_empty. by destruct (revision_mode s). }
  assert (compacted_revision ∅ = 0) as Hp.
  { unfold compacted_revision, tx_get. by rewrite lookup_empty. }
  split; rewrite ?Hc, ?Hp; try done; constructor.
Qed.

(** ** The life of a key

    What the history says about the metadata of a key, without the wrapping of
    the stored integers.  A write starts a life or adds a version to it; a
    deletion ends it, also with a new version; a deletion of a dead key does
    nothing, unless it is part of a transaction. *)

Record Life := { li_version : Z; li_created : Z; li_modified : Z; li_dead : bool }.

Definition life_change (rev : Z) (t : EventType) (key : bytes) (l : option Life) (c : KeyValueChange) : option Life :=
  if bytes_eqb (ch_key c) key then
    match ch_value c, l with
    | Some _, None => Some {| li_version := 1; li_created := rev; li_modified := rev; li_dead := false |}
    | Some _, Some l =>
      Some {| li_version := li_version l + 1; li_created := li_created l; li_modified := rev; li_dead := false |}
    | None, None => None
    | None, Some l =>
      if li_dead l && negb (bool_decide (t = EvTxn)) then Some l
      else Some {| li_version := li_version l + 1; li_created := li_created l; li_modified := rev; li_dead := true |}
    end
  else l.

Definition life_event (key : bytes) (l : option Life) (e : ChangeEvent) : option Life :=
  foldl (life_change (revision e) (event_type e) key) l (changes e).
Definition life (h : history) (key : bytes) : option Life := foldl (life_event key) None h.

(** Stored metadata shows a life; the fields are [i64] and hold revisions cast
    from [u64]. *)
Definition shows (m : option KvMetadata) (l : option Life) : Prop :=
  match m, l with
  | Some m, Some l =>
    version m = i64_wrap (li_version l) /\ u64_wrap (create_revision m) = li_created l /\
    u64_wrap (mod_revision m) = li_modified l /\ deleted m = li_dead l
  | None, None => True
  | _, _ => False
  end.

(** Each key shows its life; where compaction has removed the tombstone of a key
    that had no value since, the life begins anew after that. *)
Definition lives (d : db) (h : history) : Prop :=
  forall key, exists h1 h2, h = h1 ++ h2 /\ (forall T, compacted_revision d <= T -> value_at h1 key T = None) /\
    shows (get_kv_metadata d key) (life h2 key).

(** The store has followed the changes of an event. *)
Record moved (rev : Z) (t : EventType) (d d' : db) (cs : list KeyValueChange) : Prop := {
  mv_compacted : compacted_revision d' = compacted_revision d;
  mv_shows : forall key l, shows (get_kv_metadata d key) l ->
    shows (get_kv_metadata d' key) (foldl (life_change rev t key) l cs) }.

Lemma i64_wrap_succ z : i64_wrap (i64_wrap z + 1) = i64_wrap (z + 1).
Proof.
  unfold i64_wrap. replace ((z + 2 ^ 63) mod u64_modulus - 2 ^ 63 + 1 + 2 ^ 63) with ((z + 2 ^ 63) mod u64_modulus + 1) by lia.
  rewrite Zplus_mod_idemp_l. do 2 f_equal. lia.
Qed.

Section moved.
  Context (rev : Z) (t : EventType) (Hrev : in_u64 rev).
  Abbreviation mv := (moved rev t).

Lemma moved_app d d1 d2 cs cs' : mv d d1 cs -> mv d1 d2 cs' -> mv d d2 (cs ++ cs').
Proof using Type. intros [C1 H1] [C2 H2]. split; [congruence|]. intros key l Hl. rewrite foldl_app. auto. Qed.

Lemma moved_before d d1 d2 cs : mv d d1 [] -> mv d1 d2 cs -> mv d d2 cs.
Proof using Type. intros [C1 H1] [C2 H2]. split; [congruence|]. intros key l Hl. apply H2. by apply (H1 key l). Qed.
Lemma moved_after d d1 d2 cs : mv d d1 cs -> mv d1 d2 [] -> mv d d2 cs.
Proof using Type. intros [C1 H1] [C2 H2]. split; [congruence|]. intros key l Hl. by apply (H2 key), H1. Qed.

Lemma moved_quiet d d' :
  compacted_revision d' = compacted_revision d -> same_table TABLE_KV_META d' d -> mv d d' [].
Proof using Type. intros Hc Hm. split; [done|]. intros key l. unfold get_kv_metadata. by rewrite Hm. Qed.

Lemma moved_accept s d policy d' : accept_revision s d rev policy = Ok d' -> mv d d' [].
Proof using Type.
  intros H. assert (d' = d \/ d' = set_current_revision rev d) as [->| ->].
  { revert H. unfold accept_revision, accept_log_index_revision, accept_commit_ts.
    destruct policy; [case_decide; [intros [= <-]; by left|]|]; (destruct (_ <=? _); [done|]; intros [= <-]; by right). }
  - by apply moved_quiet.
  - apply moved_quiet; [apply compacted_revision_set_current|by apply same_table_insert].
Qed.

Lemma moved_finish e a d : mv d (insert_last_applied a (insert_event e d)) [].
Proof using Type.
  apply moved_quiet; [|unfold insert_last_applied, insert_event; frame]. rewrite compacted_revision_last_applied.
  unfold compacted_revision, insert_event. by rewrite tx_get_insert_ne.
Qed.

(** One key gets new metadata. *)
Lemma moved_insert d key m c :
  ch_key c = key -> meta_wf m ->
  (forall l, shows (get_kv_metadata d key) l -> shows (Some m) (life_change rev t key l c)) ->
  mv d (insert_metadata key m d) [c].
Proof using Type.
  intros Hc Hm Hs. split; [unfold compacted_revision, insert_metadata; by rewrite tx_get_insert_ne|].
  intros key' l Hl. cbn [foldl]. destruct (decide (key' = key)) as [->|Hne].
  - rewrite get_kv_metadata_insert by done. by apply Hs.
  - rewrite get_kv_metadata_insert_ne by congruence. unfold life_change. destruct (bytes_eqb_spec (ch_key c) key'); [congruence|done].
Qed.

Lemma moved_write s key v lid d d' : in_i64 lid -> write_key s key v lid rev d = Ok d' -> mv d d' [put_change key v].
Proof using Hrev.
  intros Hl H. unfold write_key in H. inv_bind. apply (moved_before _ (tx_insert TABLE_KV (encode_kv_key key) x d)).
  { apply moved_quiet; [unfold compacted_revision; by rewrite tx_get_insert_ne|by apply same_table_insert]. }
  apply moved_insert; [done|destruct (get_kv_metadata d key) eqn:E; eauto with coord|].
  replace (get_kv_metadata (tx_insert _ _ _ d) key) with (get_kv_metadata d key)
    by (symmetry; apply get_kv_metadata_proper; [by apply same_table_insert|done]).
  intros l. unfold life_change. cbn [put_change ch_key ch_value]. destruct (bytes_eqb_spec key key); [|done].
  destruct (get_kv_metadata d key) as [m|], l as [l|]; try done; cbn.
  - intros (-> & ? & _ & _). by rewrite i64_wrap_succ, u64_i64_u64.
  - intros _. by rewrite u64_i64_u64.
Qed.

Lemma moved_mark d key m :
  get_kv_metadata d key = Some m -> deleted m = false \/ t = EvTxn ->
  mv d (insert_metadata key (meta_mark_deleted m rev) d) [delete_change key].
Proof using Hrev.
  intros Em Hlive. apply moved_insert; [done|eauto with coord|]. rewrite Em. intros [l|]; [|done].
  intros (Hv & Hc & _ & Hd). unfold life_change. cbn [delete_change ch_key ch_value].
  destruct (bytes_eqb_spec key key); [|done].
  replace (li_dead l && negb (bool_decide (t = EvTxn))) with false.
  2:{ destruct Hlive as [Hlive|Ht]; [by rewrite <-Hd, Hlive|by rewrite (bool_decide_eq_true_2 _ Ht), andb_false_r]. }
  cbn. by rewrite Hv, i64_wrap_succ, u64_i64_u64.
Qed.

(** A deletion that finds nothing to delete. *)
Lemma moved_dead d key :
  (forall m, get_kv_metadata d key = Some m -> deleted m = true /\ t <> EvTxn) -> mv d d [delete_change key].
Proof using Type.
  intros Hd. split; [done|]. intros key' l Hl. cbn [foldl]. unfold life_change. cbn [delete_change ch_key ch_value].
  destruct (bytes_eqb_spec key key') as [<-|]; [|done]. destruct (get_kv_metadata d key) as [m|], l as [l|]; try done.
  destruct (Hd m eq_refl) as [Hdel Ht]. destruct Hl as (? & ? & ? & Hdl).
  by rewrite <-Hdl, Hdel, (bool_decide_eq_false_2 _ Ht).
Qed.

Lemma moved_tombstone key d : t <> EvTxn -> mv d (tombstone_live key rev d) [delete_change key].
Proof using Hrev.
  intros Ht. unfold tombstone_live. destruct (get_kv_metadata d key) as [m|] eqn:Em; [|apply moved_dead; by rewrite Em].
  destruct (deleted m) eqn:Ed; [|by apply moved_mark; [|left]]. apply moved_dead. rewrite Em. by intros ? [= <-].
Qed.

Lemma moved_delete_range range_end rows d ks d' :
  delete_range_loop range_end rev rows d = (ks, d') -> mv d d' (delete_change <$> ks).
Proof using Hrev.
  revert d ks d'. induction rows as [|[ik v] rows IH]; intros d ks d'; cbn [delete_range_loop]; [intros [= <- <-]; by apply moved_quiet|].
  destruct (decode_kv_key ik) as [k|]; [|apply IH]. destruct (_ && _); [intros [= <- <-]; by apply moved_quiet|].
  destruct (get_kv_metadata d k) as [m|] eqn:Em; [|apply IH]. destruct (deleted m) eqn:Ed; [apply IH|].
  destruct (delete_range_loop _ _ rows _) as [ks1 d1] eqn:E. intros [= <- <-].
  eapply (moved_app _ _ _ [delete_change k]); [by apply moved_mark; [|left]|by apply IH].
Qed.

Lemma moved_delete_by_lease id rows d ks d' :
  Forall (fun r : row => tx_get d TABLE_KV_META r.1 = Some r.2) rows -> NoDup rows.*1 ->
  delete_by_lease_loop id rev rows d = (ks, d') -> mv d d' (delete_change <$> ks).
Proof using Hrev.
  revert d ks d'. induction rows as [|[mk v] rows IH]; intros d ks d' Hr Hn; cbn [delete_by_lease_loop]; [intros [= <- <-]; by apply moved_quiet|].
  apply Forall_cons in Hr as [H1 Hr]. rewrite fmap_cons in Hn. apply NoDup_cons in Hn as [Hmk Hn].
  destruct (meta_from_bytes v) as [m|] eqn:Em; [|by apply IH].
  destruct (strip_prefix KV_META_PREFIX mk) as [k|] eqn:Ek; [|by apply IH].
  destruct (_ && _) eqn:Eb; [|by apply IH]. destruct (delete_by_lease_loop _ _ rows _) as [ks1 d1] eqn:E. intros [= <- <-].
  apply strip_prefix_Some in Ek. cbn [fst snd] in *. apply andb_prop in Eb as [_ Hl%negb_true_iff].
  eapply (moved_app _ _ _ [delete_change k]).
  - apply moved_mark; [|by left]. unfold get_kv_metadata, encode_kv_meta_key. by rewrite <-Ek, H1.
  - apply (IH _ _ _) in E; [done| |done]. rewrite Forall_forall in *. intros r Hin. rewrite <-(Hr r Hin).
    apply tx_get_insert_ne. intros [= E']. apply Hmk. unfold encode_kv_meta_key in E'. rewrite Ek, E'.
    by apply (list_elem_of_fmap_2 fst).
Qed.

Lemma moved_by_lease id d ks d' : delete_keys_by_lease_in_tx id rev d = (ks, d') -> mv d d' (delete_change <$> ks).
Proof using Hrev.
  apply moved_delete_by_lease; [apply kv_meta_rows_present|apply (sorted_rows_NoDup _ (iter_prefix_sorted _ _ _))].
Qed.

End moved.

Lemma moved_op rev s d op resp c d' :
  in_u64 rev -> op_lease_ok op -> execute_op_in_tx s d op rev = Ok (resp, c, d') -> moved rev EvTxn d d' (option_list c).
Proof.
  intros Hr Hl. destruct op as [key v lease|key|key range_end limit]; cbn [execute_op_in_tx].
  - destruct (write_key s key v (default 0 lease) rev d) as [d1|] eqn:E; cbn [mbind result_bind]; [|done].
    intros [= _ <- <-]. by apply (moved_write rev EvTxn Hr s key v (default 0 lease)).
  - intros [= _ <- <-]. destruct (get_kv_metadata d key) as [m|] eqn:Em; [by apply moved_mark; [..|right]|].
    apply moved_dead. by rewrite Em.
  - destruct (txn_range_loop _ _ _ _ _ _ _); cbn [mbind result_bind]; [|done]. intros [= _ <- <-]. by apply moved_quiet.
Qed.

Lemma moved_ops rev s d ops resps cs d' :
  in_u64 rev -> Forall op_lease_ok ops -> execute_ops s d ops rev = Ok (resps, cs, d') -> moved rev EvTxn d d' cs.
Proof.
  intros Hr Hl. revert d resps cs d'. induction Hl as [|op ops Ho Hl IH]; intros d resps cs d'; cbn [execute_ops].
  { intros [= _ <- <-]. by apply moved_quiet. }
  destruct (execute_op_in_tx s d op rev) as [[[resp c] d1]|] eqn:E; cbn [mbind result_bind]; [|done].
  apply moved_op in E; [|done..]. destruct (execute_ops s d1 ops rev) as [[[rs cs1] d2]|] eqn:E2; cbn [mbind result_bind]; [|done].
  intros [= _ <- <-]. eapply moved_app; [exact E|by eapply IH].
Qed.

Lemma execute_ops_changes s d ops rev resps cs d' :
  execute_ops s d ops rev = Ok (resps, cs, d') -> cs = omap op_change ops.
Proof.
  revert d resps cs d'. induction ops as [|op ops IH]; intros d resps cs d'; cbn [execute_ops]; [by intros [= _ <- _]|].
  destruct (execute_op_in_tx s d op rev) as [[[resp c] d1]|] eqn:E; cbn [mbind result_bind]; [|done].
  destruct (execute_ops s d1 ops rev) as [[[rs cs1] d2]|] eqn:E2; cbn [mbind result_bind]; [|done].
  intros [= _ <- _]. rewrite (IH _ _ _ _ E2).
  assert (c = op_change op) as ->; [|cbn [omap list_omap]; by destruct (op_change op)].
  destruct op as [key v lease|key|key range_end limit]; cbn [execute_op_in_tx] in E.
  - destruct (write_key _ _ _ _ _ _); cbn [mbind result_bind] in E; [|done]. by injection E as _ <- _.
  - by injection E as _ <- _.
  - destruct (txn_range_loop _ _ _ _ _ _ _); cbn [mbind result_bind] in E; [|done]. by injection E as _ <- _.
Qed.

Lemma moved_put s key v lid rev a policy d out d' :
  in_u64 rev -> in_i64 lid -> put_in_tx s key v lid rev a policy d = Ok (out, d') -> moved rev EvPut d d' [put_change key v].
Proof.
  intros Hr Hl H. unfold put_in_tx in H. inv_bind. eapply moved_before; [by eapply moved_accept|].
  eapply moved_after; [by eapply moved_write|apply moved_finish].
Qed.

Lemma moved_delete s key rev a policy d out d' :
  in_u64 rev -> delete_in_tx s key rev a policy d = Ok (out, d') -> moved rev EvDelete d d' [delete_change key].
Proof.
  intros Hr H. unfold delete_in_tx in H. inv_bind. eapply moved_before; [by eapply moved_accept|].
  eapply moved_after; [by apply moved_tombstone|apply moved_finish].
Qed.

Lemma moved_range_delete s start range_end rev a policy d ks rp d' :
  in_u64 rev -> delete_range_in_tx s start range_end rev a policy d = Ok ((ks, rp), d') ->
  moved rev EvDelete d d' (delete_change <$> ks).
Proof.
  intros Hr H. unfold delete_range_in_tx in H.
  destruct (accept_revision s d rev policy) as [x|] eqn:Ea; cbn [mbind result_bind] in H; [|done].
  destruct (delete_range_loop _ _ _ _) as [ks1 d2] eqn:El. injection H as <- _ <-.
  eapply moved_before; [by eapply moved_accept|]. eapply moved_after; [by eapply moved_delete_range|apply moved_finish].
Qed.

Lemma moved_txn s compares success_ops failure_ops rev a d r d' :
  in_u64 rev -> Forall op_lease_ok success_ops -> Forall op_lease_ok failure_ops ->
  txn_in_tx s compares success_ops failure_ops rev a d = Ok (r, d') ->
  moved rev EvTxn d d' (omap op_change (if succeeded r then success_ops else failure_ops)).
Proof.
  intros Hr Hs Hf H. unfold txn_in_tx in H.
  destruct (accept_revision s d rev PolicyLogIndex) as [x|] eqn:Ea; cbn [mbind result_bind] in H; [|done].
  destruct (execute_ops _ _ _ _) as [[[resps cs] d2]|] eqn:Ee; cbn [mbind result_bind] in H; [|done]. injection H as <- <-.
  cbn [succeeded]. rewrite <-(execute_ops_changes _ _ _ _ _ _ _ Ee). eapply moved_before; [by eapply moved_accept|].
  eapply moved_after; [|apply moved_finish]. eapply moved_ops; [done| |done]. by destruct (evaluate_compares_in_tx x compares).
Qed.

Lemma moved_note s rev t d : moved rev t d (note_log_index_revision s d rev) [].
Proof. apply moved_quiet; [apply compacted_revision_note|by apply note_frame]. Qed.

(** A deletion of the keys of a lease, from the store [d1] in which it runs. *)
Lemma moved_lease_event rev d d1 ks d2 a :
  moved rev EvLease d d1 [] -> moved rev EvLease d1 d2 (delete_change <$> ks) ->
  moved rev EvLease d (insert_last_applied a (insert_event (lease_event ks rev) d2)) (delete_change <$> ks).
Proof.
  intros H1 H2. eapply moved_before; [exact H1|]. eapply moved_after; [exact H2|apply moved_finish].
Qed.

Lemma moved_lease_body op rev d ks d2 :
  in_u64 rev -> lease_op_body op rev d = (ks, d2) -> moved rev EvLease d d2 (delete_change <$> ks).
Proof.
  intros Hr.
  assert (forall k v, moved rev EvLease d (tx_insert TABLE_KV k v d) []) as Hi.
  { intros k v. apply moved_quiet; [unfold compacted_revision; by rewrite tx_get_insert_ne|by apply same_table_insert]. }
  assert (forall k, moved rev EvLease d (tx_remove TABLE_KV k d) []) as Hd.
  { intros k. apply moved_quiet; [unfold compacted_revision; by rewrite tx_get_remove_ne|by apply same_table_remove]. }
  destruct op as [id tt dl|id dl|id del]; cbn [lease_op_body].
  - destruct (get_lease_record d id); intros [= <- <-]; [by apply moved_quiet|apply Hi].
  - destruct (get_lease_record d id); intros [= <- <-]; [apply Hi|by apply moved_quiet].
  - destruct del; [|intros [= <- <-]; apply Hd]. intros E. eapply moved_before; [apply Hd|by eapply moved_by_lease].
Qed.

(** ** Steps *)

(** The store represents the same history, and of the metadata nothing has
    changed but that some is gone; or it represents one more event, above all
    others, and the metadata has followed it. *)
Definition extends (s : MvccStorage) (d : db) (h : history) (d' : db) : Prop :=
  (mvcc_rep s d' h /\ current_revision s d <= current_revision s d' /\
   compacted_revision d <= compacted_revision d' /\
   forall key, get_kv_metadata d' key = get_kv_metadata d key \/ get_kv_metadata d' key = None) \/
  exists e, current_revision s d < revision e /\ mvcc_rep s d' (h ++ [e]) /\
    current_revision s d' = revision e /\ moved (revision e) (event_type e) d d' (changes e).

Section steps.
  Context (s : MvccStorage) (Hbar : rep_barrier s).

(** The operations that take their revision from the log meet it in order: it is
    new, or the entry is one that has been applied and is in the change log.
    The version 1 leases exist only where revisions are log indexes. *)
Definition in_order (d : db) (rev : Z) : Prop :=
  revision_mode s = ModeLogIndex /\ in_u64 rev /\
  (changelog_contains_revision d rev = true \/ current_revision s d < rev).

(** An applied position that the fallback of [current_revision] may take. *)
Definition position_ok (d : db) (a : AppliedLogId) : Prop :=
  applied_wf a /\ (revision_mode s = ModeLogIndex -> current_revision s d <= index a).

Inductive step : db -> db -> Prop :=
  | step_put d key value lease rev a policy :
      revision_checked s policy = true -> in_u64 rev -> in_i64 (default 0 lease) ->
      event_wf (put_event key value rev) ->
      step d (put_at_key s d key value lease rev a policy).2
  | step_delete d key rev a policy :
      revision_checked s policy = true -> in_u64 rev -> event_wf (delete_event [key] rev) ->
      step d (delete_at_key s d key rev a policy).2
  | step_delete_range d start range_end rev a policy :
      revision_checked s policy = true -> in_u64 rev -> Z.of_nat (size d) < u32_modulus ->
      step d (delete_range_at_key s d start range_end rev a policy).2
  | step_txn d compares success_ops failure_ops rev a :
      revision_mode s = ModeLogIndex -> in_u64 rev ->
      Forall op_lease_ok success_ops -> Forall op_lease_ok failure_ops ->
      event_wf (txn_event success_ops rev) -> event_wf (txn_event failure_ops rev) ->
      step d (execute_txn_at_revision s d compares success_ops failure_ops rev a).2
  | step_lease d op rev a :
      in_order d rev -> Z.of_nat (S (size d)) < u32_modulus ->
      step d (apply_lease_op s d op rev a).2
  | step_lease_keys d id rev a :
      in_order d rev -> Z.of_nat (S (size d)) < u32_modulus ->
      step d (apply_delete_keys_by_lease s d id rev a).2
  | step_lease_v2 d op rev a :
      in_u64 rev -> position_ok d a -> step d (apply_lease_v2_op s d op rev a).2
  | step_lease_v2_keys d id ts a :
      revision_mode s = ModeCommitTs -> in_u64 ts -> Z.of_nat (size d) < u32_modulus ->
      step d (delete_keys_by_lease_at_commit_ts s d id ts a).2
  | step_safe_fence d ts a :
      applied_wf a -> step d (set_safe_ts_fence ts a d).2
  | step_publish d ts a :
      applied_wf a -> step d (publish_commit_watermark ts a d).2
  | step_fence d start end_ op_id a :
      applied_wf a -> step d (fence_direct_writes start end_ op_id a d).2
  | step_unfence d op_id a :
      applied_wf a -> step d (clear_direct_write_fence op_id a d).2
  | step_watermark d ts a :
      revision_mode s = ModeCommitTs -> in_u64 ts ->
      step d (advance_commit_ts_watermark s ts a d).2
  | step_compact d rev a out d' :
      in_u64 rev -> position_ok d a -> apply_compact s d rev a = Some (out, d') -> step d d'.

Lemma extends_refl d h : mvcc_rep s d h -> extends s d h d.
Proof using Type. intros. left. split; [done|]. split; [lia|]. split; [lia|]. by left. Qed.

(** A step that leaves the rows of the keys and the change log alone. *)
Lemma quiet_extends d d' h :
  mvcc_rep s d h ->
  (forall key, tx_get d' TABLE_KV (encode_kv_key key) = tx_get d TABLE_KV (encode_kv_key key)) ->
  same_table TABLE_KV_META d' d -> same_table TABLE_CHANGELOG d' d ->
  compacted_revision d' = compacted_revision d -> current_revision s d <= current_revision s d' ->
  extends s d h d'.
Proof using Type. intros Hrep H1 H2 H3 H4 H5. left. split; [by eapply mvcc_rep_frame|]. split; [done|]. split; [lia|].
  intros key. left. by apply get_kv_metadata_proper.
Qed.

Lemma put_extends d h key value lease rev a policy :
  mvcc_rep s d h -> revision_checked s policy = true -> in_u64 rev ->
  in_i64 (default 0 lease) -> event_wf (put_event key value rev) ->
  extends s d h (put_at_key s d key value lease rev a policy).2.
Proof.
  intros Hrep Hc Hr Hl Hw. unfold put_at_key.
  destruct (replay_guard_rep s d h rev policy (put_same key value) replayed_outcome
    (put_in_tx s key value (default 0 lease) rev a policy) Hrep Hr) as [[-> _]|[[-> _]| ->]];
    [by apply extends_refl..|].
  unfold backend_write. destruct (put_in_tx _ _ _ _ _ _ _ _) as [[out d']|e] eqn:E;
    [|by apply extends_refl]. right. exists (put_event key value rev).
  destruct (put_in_tx_rep s d h rev policy Hrep Hr Hbar Hc _ _ _ _ _ _ Hl Hw E) as (_ & ? & ? & ?).
  do 3 (split; [done|]). by eapply moved_put.
Qed.

Lemma delete_extends d h key rev a policy :
  mvcc_rep s d h -> revision_checked s policy = true -> in_u64 rev ->
  event_wf (delete_event [key] rev) -> extends s d h (delete_at_key s d key rev a policy).2.
Proof.
  intros Hrep Hc Hr Hw. unfold delete_at_key.
  destruct (replay_guard_rep s d h rev policy (delete_same key) replayed_outcome
    (delete_in_tx s key rev a policy) Hrep Hr) as [[-> _]|[[-> _]| ->]];
    [by apply extends_refl..|].
  unfold backend_write. destruct (delete_in_tx _ _ _ _ _ _) as [[out d']|e] eqn:E;
    [|by apply extends_refl]. right. exists (delete_event [key] rev).
  destruct (delete_in_tx_rep s d h rev policy Hrep Hr Hc _ _ _ _ Hw E) as (_ & ? & ? & ?).
  do 3 (split; [done|]). by eapply moved_delete.
Qed.

Lemma delete_range_extends d h start range_end rev a policy :
  mvcc_rep s d h -> revision_checked s policy = true -> in_u64 rev ->
  Z.of_nat (size d) < u32_modulus ->
  extends s d h (delete_range_at_key s d start range_end rev a policy).2.
Proof.
  intros Hrep Hc Hr Hs.
  assert (extends s d h (backend_write d (delete_range_in_tx s start range_end rev a policy)).2) as Hb.
  { unfold backend_write.
    destruct (delete_range_in_tx s start range_end rev a policy d) as [[[ks rp] d']|e] eqn:E;
      [|by apply extends_refl]. right. exists (delete_event ks rev).
    destruct (delete_range_in_tx_rep s d h rev policy Hrep Hr Hc Hs _ _ _ _ _ _ E) as (_ & ? & _ & ? & ?).
    do 3 (split; [done|]). by eapply moved_range_delete. }
  unfold delete_range_at_key. destruct policy.
  - destruct (changelog_contains_revision d rev); [by apply extends_refl|done].
  - destruct (changelog_event_at d rev) as [[e|]|]; [|done|by apply extends_refl].
    destruct (range_has_live_keys s d start range_end); [|by apply extends_refl].
    destruct (_ && _ && _); by apply extends_refl.
Qed.

Lemma txn_extends d h compares success_ops failure_ops rev a :
  mvcc_rep s d h -> revision_mode s = ModeLogIndex -> in_u64 rev ->
  Forall op_lease_ok success_ops -> Forall op_lease_ok failure_ops ->
  event_wf (txn_event success_ops rev) -> event_wf (txn_event failure_ops rev) ->
  extends s d h (execute_txn_at_revision s d compares success_ops failure_ops rev a).2.
Proof.
  intros Hrep Hm Hr Hl1 Hl2 Hw1 Hw2. unfold execute_txn_at_revision.
  destruct (changelog_contains_revision d rev); [by apply extends_refl|].
  pose proof (txn_in_tx_rep s d h compares _ _ rev a Hrep Hbar Hm Hr Hl1 Hl2 Hw1 Hw2) as Hx.
  unfold backend_write. destruct (txn_in_tx _ _ _ _ _ _ _) as [[r d']|e] eqn:E;
    [|by apply extends_refl]. right. destruct Hx as (? & _ & _ & _ & _ & ? & ?).
  exists (txn_event (if succeeded r then success_ops else failure_ops) rev). do 3 (split; [done|]). by eapply moved_txn.
Qed.

Lemma watermark_extends d h ts a :
  mvcc_rep s d h -> revision_mode s = ModeCommitTs -> in_u64 ts ->
  extends s d h (advance_commit_ts_watermark s ts a d).2.
Proof.
  intros Hrep Hm Hts. destruct (applied_contains d a) eqn:Ea.
  - unfold advance_commit_ts_watermark. rewrite Ea. by apply extends_refl.
  - pose proof (advance_commit_ts_value s ts a d Hm Hts Ea) as Hv.
    destruct (advance_commit_ts_watermark s ts a d) as [r d'].
    destruct Hv as (Hr & Hcur & Hcomp & Hframe). apply quiet_extends; [done| |by apply Hframe|by apply Hframe|done|simpl; lia].
    intros key. by rewrite (Hframe TABLE_KV).
Qed.

Lemma current_last_applied_ok d a :
  position_ok d a -> current_revision s d <= current_revision s (insert_last_applied a d).
Proof using Type.
  intros [Hw Ha]. revert Ha. unfold current_revision, current_revision_in_tx, get_applied_log_id, insert_last_applied.
  rewrite tx_get_insert_ne by done. destruct (_ ≫= decode_u64); [lia|].
  destruct (revision_mode s); [|lia]. rewrite tx_get_insert. cbn [mbind option_bind]. rewrite applied_roundtrip by done.
  simpl. intros Ha. by apply Ha.
Qed.

(** A position that has not been applied yet is above the last one. *)
Lemma current_last_applied_new d a :
  applied_wf a -> applied_contains d a = false ->
  current_revision s d <= current_revision s (insert_last_applied a d).
Proof using Type.
  intros Hw Hn. destruct (tx_get d TABLE_META META_CURRENT_REVISION ≫= decode_u64) as [r|] eqn:E.
  { rewrite (current_revision_last_applied s a r d E). unfold current_revision, current_revision_in_tx. by rewrite E. }
  apply current_last_applied_ok. split; [done|]. intros Hm. unfold current_revision, current_revision_in_tx. rewrite E, Hm.
  unfold applied_contains in Hn. destruct (get_applied_log_id d) as [l|]; simpl; [apply Z.leb_gt in Hn; lia|].
  by destruct Hw as (_ & _ & [? _]).
Qed.

Lemma current_note d rev : in_u64 rev -> current_revision s d <= current_revision s (note_log_index_revision s d rev).
Proof using Type.
  intros Hr. unfold note_log_index_revision. case_decide as Hm; [|reflexivity].
  destruct (Z.ltb_spec (current_revision_in_tx d ModeLogIndex) rev) as [Hlt|]; [|reflexivity].
  rewrite current_revision_set by done. unfold current_revision. rewrite Hm. lia.
Qed.

(** Writing a system row once per log entry. *)
Lemma mark_extends d d1 h a :
  mvcc_rep s d h -> applied_wf a -> applied_contains d a = false ->
  (forall key, tx_get d1 TABLE_KV (encode_kv_key key) = tx_get d TABLE_KV (encode_kv_key key)) ->
  (forall t, t <> TABLE_KV -> same_table t d1 d) ->
  extends s d h (insert_last_applied a d1).
Proof using Type.
  intros Hrep Hw Hn Hk Ht. apply quiet_extends; [done|..].
  - intros key. rewrite <-Hk. by apply tx_get_insert_ne.
  - etrans; [by apply same_table_insert|by apply Ht].
  - etrans; [by apply same_table_insert|by apply Ht].
  - rewrite compacted_revision_last_applied. unfold compacted_revision. by rewrite (Ht TABLE_META).
  - rewrite <-(current_revision_proper s d1 d) by (by apply Ht).
    apply current_last_applied_new; [done|]. rewrite <-Hn. unfold applied_contains, get_applied_log_id.
    by rewrite (Ht TABLE_META).
Qed.

Lemma publish_extends d h k mark a :
  mvcc_rep s d h -> applied_wf a -> diverge KV_PREFIX k = true -> extends s d h (publish_mark k mark a d).2.
Proof using Type.
  intros Hrep Hw Hk. unfold publish_mark. destruct (applied_contains d a) eqn:Ea; [by apply extends_refl|]. cbn [snd].
  destruct (_ <? _); apply mark_extends; try done.
  - intros key. rewrite <-(app_nil_r k). by apply kv_key_frame.
  - intros t Ht. by apply same_table_insert.
Qed.

Lemma fence_extends d h start end_ op_id a :
  mvcc_rep s d h -> applied_wf a -> extends s d h (fence_direct_writes start end_ op_id a d).2.
Proof using Type.
  intros Hrep Hw. unfold fence_direct_writes, backend_write. destruct (applied_contains d a) eqn:Ea.
  - destruct (direct_write_fence_in_tx d); cbn [mbind result_bind]; by apply extends_refl.
  - apply mark_extends; try done; [|intros t Ht; by apply same_table_insert].
    intros key. rewrite <-(app_nil_r DIRECT_WRITE_FENCE). by apply kv_key_frame.
Qed.

Lemma unfence_extends d h op_id a :
  mvcc_rep s d h -> applied_wf a -> extends s d h (clear_direct_write_fence op_id a d).2.
Proof using Type.
  intros Hrep Hw. unfold clear_direct_write_fence, backend_write.
  destruct (applied_contains d a) eqn:Ea; [by apply extends_refl|].
  destruct (direct_write_fence_in_tx d) as [f|]; cbn [mbind result_bind]; [|by apply extends_refl]. cbv zeta.
  destruct (from_option _ false f); apply mark_extends; try done; [|intros t Ht; by apply same_table_remove].
  intros key. rewrite <-(app_nil_r DIRECT_WRITE_FENCE). by apply kv_key_frame_remove.
Qed.

Lemma lease_extends d h op rev a :
  mvcc_rep s d h -> in_order d rev -> Z.of_nat (S (size d)) < u32_modulus ->
  extends s d h (apply_lease_op s d op rev a).2.
Proof using Type.
  intros Hrep (Hm & Hr & [Hc|Hlt]) Hs; [unfold apply_lease_op; rewrite Hc; by apply extends_refl|].
  destruct (apply_lease_op s d op rev a) as [[out cs] d1] eqn:E. right.
  destruct (apply_lease_op_rep s d h rev Hrep Hm Hr Hlt Hs _ _ _ _ _ E) as (ks & _ & Hcs & ? & ?).
  exists (lease_event ks rev). do 3 (split; [done|]). unfold apply_lease_op in E.
  rewrite (fresh_not_replayed s d h rev Hrep Hr Hlt) in E. destruct (lease_op_body op rev _) as [ks1 d2] eqn:Eb.
  injection E as _ Ecs <-. rewrite Hcs in Ecs. apply (inj (fmap delete_change)) in Ecs as ->.
  eapply moved_lease_event; [apply moved_note|by eapply moved_lease_body].
Qed.

Lemma lease_keys_extends d h id rev a :
  mvcc_rep s d h -> in_order d rev -> Z.of_nat (S (size d)) < u32_modulus ->
  extends s d h (apply_delete_keys_by_lease s d id rev a).2.
Proof using Type.
  intros Hrep (Hm & Hr & [Hc|Hlt]) Hs; [unfold apply_delete_keys_by_lease; rewrite Hc; by apply extends_refl|].
  destruct (apply_delete_keys_by_lease s d id rev a) as [[out cs] d1] eqn:E. right.
  destruct (apply_delete_keys_by_lease_rep s d h rev Hrep Hm Hr Hlt Hs _ _ _ _ _ E) as (ks & _ & Hcs & _ & ? & ?).
  exists (lease_event ks rev). do 3 (split; [done|]). unfold apply_delete_keys_by_lease in E.
  rewrite (fresh_not_replayed s d h rev Hrep Hr Hlt) in E. destruct (delete_keys_by_lease_in_tx id rev _) as [ks1 d2] eqn:Eb.
  injection E as _ Ecs <-. rewrite Hcs in Ecs. apply (inj (fmap delete_change)) in Ecs as ->.
  eapply moved_lease_event; [apply moved_note|by eapply moved_by_lease].
Qed.

Lemma lease_v2_extends d h op rev a :
  mvcc_rep s d h -> in_u64 rev -> position_ok d a -> extends s d h (apply_lease_v2_op s d op rev a).2.
Proof using Type.
  intros Hrep Hr [Hw Ha]. unfold apply_lease_v2_op. set (d1 := note_log_index_revision s d rev).
  destruct (lease_v2_body_frame op d1) as [Hk Ht]. destruct (lease_v2_body op d1) as [r d2]. cbn [snd] in *.
  assert (forall t, t <> TABLE_META -> same_table t d1 d) as H1 by (intros t Htm; by apply note_frame).
  apply quiet_extends; [done|..].
  - intros key. unfold insert_last_applied. rewrite tx_get_insert_ne, Hk by done. by rewrite (H1 TABLE_KV).
  - etrans; [by apply same_table_insert|]. etrans; [by apply Ht|by apply H1].
  - etrans; [by apply same_table_insert|]. etrans; [by apply Ht|by apply H1].
  - rewrite compacted_revision_last_applied. unfold compacted_revision. rewrite (Ht TABLE_META) by done.
    apply compacted_revision_note.
  - pose proof (current_note d rev Hr) as Hn. fold d1 in Hn. rewrite <-(current_revision_proper s d2 d1) in Hn by (by apply Ht).
    unfold d1, note_log_index_revision in *. clear d1. case_decide as Hm.
    + destruct (_ <? rev) eqn:El.
      * rewrite (current_revision_last_applied s a rev d2); [|rewrite (Ht TABLE_META) by done;
          unfold set_current_revision; rewrite tx_get_insert; cbn [mbind option_bind]; by rewrite decode_u64_be64].
        apply Z.ltb_lt in El. unfold current_revision. rewrite Hm. lia.
      * rewrite <-(current_revision_proper s d2 d) by (by apply Ht). apply current_last_applied_ok. split; [done|].
        intros _. rewrite (current_revision_proper s d2 d) by (by apply Ht). by apply Ha.
    + rewrite <-(current_revision_proper s d2 d) by (by apply Ht). apply current_last_applied_ok. by split.
Qed.

Lemma cleanup_moved d id ts a ks d' :
  in_u64 ts -> delete_keys_by_lease_at_commit_ts s d id ts a = (Ok (applied_outcome, ks), d') ->
  (ks = [] /\ d' = insert_last_applied a d) \/ (ks <> [] /\ moved ts EvLease d d' (delete_change <$> ks)).
Proof using Type.
  intros Hts. unfold delete_keys_by_lease_at_commit_ts. destruct (ts =? 0); [done|].
  destruct (changelog_event_at d ts) as [[e|]|]; [by case_decide| |done]. unfold backend_write.
  destruct (direct_write_fence_in_tx d) as [[f|]|]; cbn [mbind result_bind]; [done| |done].
  destruct (delete_keys_by_lease_in_tx id ts d) as [ks1 d2] eqn:Ed. destruct ks1 as [|k ks1].
  - intros [= <- <-]. left. split; [done|]. f_equal. by eapply delete_by_lease_loop_nil.
  - destruct (accept_commit_ts s d2 ts) as [d3|] eqn:Ea; cbn [mbind result_bind]; [|done]. intros [= <- <-]. right. split; [done|].
    eapply moved_after; [by eapply moved_by_lease|].
    eapply moved_before; [by apply (moved_accept ts EvLease s d2 PolicyCommitTs)|apply moved_finish].
Qed.

Lemma lease_v2_keys_extends d h id ts a :
  mvcc_rep s d h -> revision_mode s = ModeCommitTs -> in_u64 ts -> Z.of_nat (size d) < u32_modulus ->
  extends s d h (delete_keys_by_lease_at_commit_ts s d id ts a).2.
Proof using Type.
  intros Hrep Hm Hts Hs. pose proof (delete_keys_by_lease_at_commit_ts_refines s d h id ts a Hrep Hm Hts Hs) as H.
  destruct (delete_keys_by_lease_at_commit_ts s d id ts a) as [[[[] ks]|e] d'] eqn:E; cbn [snd].
  - destruct H as [-> _]. by apply extends_refl.
  - destruct H as (_ & _ & Hr & Hc & Hlt). destruct (cleanup_moved _ _ _ _ _ _ Hts E) as [[-> ->]|[Hne Hmv]].
    + apply quiet_extends; [done|by intros; apply tx_get_insert_ne|by apply same_table_insert..| |].
      * apply compacted_revision_last_applied.
      * by rewrite Hc.
    + right. exists (lease_event ks ts). split; [by apply Hlt|]. destruct ks; [done|]. by split_and!.
  - destruct H as [-> _]. by apply extends_refl.
Qed.

(** Compaction removes metadata and changes none. *)
Definition thins (d d' : db) : Prop :=
  forall k, tx_get d' TABLE_KV_META k = tx_get d TABLE_KV_META k \/ tx_get d' TABLE_KV_META k = None.

#[local] Instance thins_preorder : PreOrder thins.
Proof using Type.
  split; [by left|]. intros d1 d2 d3 H1 H2 k. destruct (H2 k) as [->| ->]; [apply H1|by right].
Qed.

Lemma thins_foldl {A : Type} (f : db -> A -> db) l d :
  (forall d x, thins d (f d x)) -> thins d (foldl f d l).
Proof using Type.
  intros Hf. revert d. induction l as [|x l IH]; intros d; [reflexivity|]. cbn [foldl]. etrans; [apply Hf|apply IH].
Qed.

Lemma thins_remove t k d : thins d (tx_remove t k d).
Proof using Type.
  intros k'. unfold tx_get, tx_remove. destruct (decide ((t, k) = (TABLE_KV_META, k'))) as [->|Hne].
  - right. apply lookup_delete_eq.
  - left. by apply lookup_delete_ne.
Qed.

Lemma thins_compact_loop fuel effective dc dt d r :
  compact_loop fuel effective dc dt d = Some r -> thins d r.2.
Proof using Type.
  revert dc dt d. induction fuel as [|fuel IH]; intros dc dt d; [done|]. cbn [compact_loop].
  assert (thins d (compact_batch effective d).2) as Hb.
  { unfold compact_batch. cbn [snd]. etrans; [|apply thins_foldl]; [apply thins_foldl; intros; apply thins_remove|].
    intros d1 k. unfold remove_tombstone. destruct (strip_prefix _ _); [|apply thins_remove].
    etrans; [|apply thins_remove]. apply thins_remove. }
  destruct (compact_batch effective d) as [[bc bt] d1]. cbn [snd] in Hb.
  destruct (_ && _); [by intros [= <-]|]. intros H%IH. by etrans.
Qed.

Lemma compact_metadata d rev a out d' key :
  apply_compact s d rev a = Some (out, d') -> get_kv_metadata d' key = get_kv_metadata d key \/ get_kv_metadata d' key = None.
Proof using Type.
  unfold apply_compact. destruct (_ =? 0); [intros [= <- <-]; by left|]. destruct (_ <=? _); [intros [= <- <-]; by left|].
  destruct (compact_loop _ _ _ _ _) as [[[dc dt] d1]|] eqn:E; [|done]. cbn [mbind option_bind]. intros [= <- <-].
  apply thins_compact_loop in E. cbn [snd] in E. unfold get_kv_metadata.
  rewrite (note_frame s _ _ TABLE_KV_META) by done. unfold insert_last_applied. rewrite !tx_get_insert_ne by done.
  destruct (E (encode_kv_meta_key key)) as [->| ->]; [by left|by right].
Qed.

Lemma step_extends d d' h : mvcc_rep s d h -> step d d' -> extends s d h d'.
Proof.
  intros Hrep Hstep. revert Hrep. destruct Hstep; intros Hrep.
  - by apply put_extends.
  - by apply delete_extends.
  - by apply delete_range_extends.
  - by apply txn_extends.
  - by apply lease_extends.
  - by apply lease_keys_extends.
  - by apply lease_v2_extends.
  - by apply lease_v2_keys_extends.
  - by apply publish_extends.
  - by apply publish_extends.
  - by apply fence_extends.
  - by apply unfence_extends.
  - by apply watermark_extends.
  - destruct H0 as [Hw Ha]. destruct (apply_compact_rep s d h rev a Hrep H Hw Ha) as (out1 & d1 & E & ? & Hc & ?).
    rewrite E in H1. injection H1 as <- <-. left. split; [done|]. split; [done|]. split; [lia|].
    intros key. by eapply compact_metadata.
Qed.

(** Events above [T] do not change the value at [T]. *)
Lemma value_at_app_later h es key T :
  Forall (fun e => T < revision e) es -> value_at (h ++ es) key T = value_at h key T.
Proof. intros H. rewrite value_at_scan. by rewrite scan_value_later. Qed.

(** An extended history is shown by the metadata again. *)
Lemma extends_lives d h d' : extends s d h d' -> lives d h -> exists es, mvcc_rep s d' (h ++ es) /\ lives d' (h ++ es) /\
  current_revision s d <= current_revision s d' /\ Forall (fun e => current_revision s d < revision e) es.
Proof using Type.
  intros [(Hrep & Hcur & Hcomp & Hm)|(e & Hlt & Hrep & Hcur & [Hc Hmv])] Hl.
  - exists []. rewrite app_nil_r. split_and!; [done| |done|constructor]. intros key.
    destruct (Hl key) as (h1 & h2 & -> & H1 & H2). destruct (Hm key) as [->|E].
    + exists h1, h2. split; [done|]. split; [|done]. intros T HT. apply H1. lia.
    + pose proof (rep_keys _ _ _ Hrep key) as Hk. unfold key_rep, key_ok in Hk. rewrite E in Hk.
      exists (h1 ++ h2), []. rewrite app_nil_r, E. split; [done|]. split; [|done]. apply Hk.
  - exists [e]. split_and!; [done| |lia|by constructor]. intros key. destruct (Hl key) as (h1 & h2 & -> & H1 & H2).
    exists h1, (h2 ++ [e]). rewrite app_assoc, Hc. split; [done|]. split; [done|].
    unfold life. rewrite foldl_app. by apply Hmv.
Qed.

Lemma steps_extend_lives d d' h :
  mvcc_rep s d h -> lives d h -> rtc step d d' ->
  exists es, mvcc_rep s d' (h ++ es) /\ lives d' (h ++ es).
Proof using Hbar.
  intros Hrep Hl Hsteps. revert h Hrep Hl. induction Hsteps as [d|d d1 d' Hstep _ IH]; intros h Hrep Hl.
  { exists []. by rewrite app_nil_r. }
  destruct (extends_lives _ _ _ (step_extends _ _ _ Hrep Hstep) Hl) as (es & Hrep1 & Hl1 & _).
  destruct (IH _ Hrep1 Hl1) as (es' & H). exists (es ++ es'). by rewrite app_assoc.
Qed.

Lemma steps_extend d d' h :
  mvcc_rep s d h -> rtc step d d' ->
  exists es, mvcc_rep s d' (h ++ es) /\ current_revision s d <= current_revision s d' /\
    Forall (fun e => current_revision s d < revision e) es.
Proof.
  intros Hrep Hsteps. revert h Hrep.
  induction Hsteps as [d|d d1 d' Hstep _ IH]; intros h Hrep.
  { exists []. rewrite app_nil_r. split; [done|]. split; [lia|constructor]. }
  destruct (step_extends _ _ _ Hrep Hstep) as [(Hrep1 & Hle & _)|(e & Hlt & Hrep1 & Hcur & _)].
  - destruct (IH h Hrep1) as (es & ? & ? & Hes). exists es. split; [done|]. split; [lia|].
    eapply List.Forall_impl; [|exact Hes]. simpl. lia.
  - destruct (IH _ Hrep1) as (es & H & ? & Hes). exists (e :: es).
    rewrite <-app_assoc in H. split; [done|]. split; [lia|]. constructor; [done|].
    eapply List.Forall_impl; [|exact Hes]. simpl. lia.
Qed.

(** C1: every reachable store is the image of a history.  Starting from the
    empty store, whatever sequence of these operations is applied, the resulting
    tables represent a history of change events with increasing revisions: puts,
    deletes and range deletes, accepted, rejected or replayed; transactions;
    version 1 lease operations and the cleanup of a lease's keys at a new log
    index, or replayed at one that is in the change log; version 2 lease
    operations; the cleanup of a lease's keys at a commit timestamp, accepted,
    rejected or replayed; the safe-point fence, the commit watermark, the fence
    against direct writes and its release; watermark advances; compactions. *)
Theorem reachable_represents d : rtc step ∅ d -> exists h, mvcc_rep s d h.
Proof.
  intros H. destruct (steps_extend ∅ d [] (mvcc_rep_empty s) H) as (es & Hes & _).
  by exists es.
Qed.

(** C2: the past is immutable.  Whatever happens to a store afterwards, the
    history it represents is only extended, and the value of every key at every
    revision up to the current one stays what it was. *)
Theorem past_immutable d d' h :
  mvcc_rep s d h -> rtc step d d' ->
  exists es, mvcc_rep s d' (h ++ es) /\ current_revision s d <= current_revision s d' /\
    forall key T, T <= current_revision s d -> value_at (h ++ es) key T = value_at h key T.
Proof.
  intros Hrep H. destruct (steps_extend d d' h Hrep H) as (es & ? & ? & Hes).
  exists es. split; [done|]. split; [done|]. intros key T HT.
  apply value_at_app_later. eapply List.Forall_impl; [|exact Hes]. simpl. lia.
Qed.

(** Historical reads are repeatable.  If a read at a revision that is not
    in the future answers, then every later read of the same key at the same
    revision either gives the same answer or refuses to answer; compactions and
    writes in between do not matter. *)
Theorem historical_reads_repeatable {fc : FloorCodec} d d' key T v v' :
  rtc step ∅ d -> rtc step d d' -> in_u64 T -> T < u64_max -> T <= current_revision s d ->
  get_at_revision s d key T = Ok v -> get_at_revision s d' key T = Ok v' -> v' = v.
Proof.
  intros Hd Hd' HT Hm Hle H1 H2.
  destruct (steps_extend ∅ d [] (mvcc_rep_empty s) Hd) as (h & Hh & _). simpl in Hh.
  destruct (steps_extend d d' h Hh Hd') as (es & Hh' & _ & Hes).
  rewrite (get_at_revision_value s d h Hh key T v) by done.
  rewrite (get_at_revision_value s d' (h ++ es) Hh' key T v') by done.
  apply value_at_app_later. eapply List.Forall_impl; [|exact Hes]. simpl. lia.
Qed.

End steps.

(** ** The types of the stored rows

    The rows that the modelled handlers write in the tables of metadata, of the
    change log and of positions decode; other rows of the table of positions
    (membership, snapshot, trimming, data keys) are none of their business. *)

Definition row_typed (t : table) (k v : bytes) : Prop :=
  match t with
  | TABLE_KV_META => exists key m, k = encode_kv_meta_key key /\ meta_from_bytes v = Some m
  | TABLE_CHANGELOG => exists r, k = encode_changelog_key r
  | TABLE_META =>
    (k = META_LAST_APPLIED -> is_Some (applied_from_bytes v)) /\
    (k = META_CURRENT_REVISION \/ k = META_COMPACT_REVISION -> is_Some (decode_u64 v))
  | _ => True
  end.

Definition typed (d : db) : Prop := forall t k v, tx_get d t k = Some v -> row_typed t k v.

Create HintDb typed.

Lemma typed_insert t k v d : typed d -> row_typed t k v -> typed (tx_insert t k v d).
Proof.
  intros Hd Hr t' k' v'. unfold tx_get, tx_insert. intros [[[= <- <-] <-]|[_ H]]%lookup_insert_Some;
    [done|by apply Hd].
Qed.

Lemma typed_remove t k d : typed d -> typed (tx_remove t k d).
Proof.
  intros Hd t' k' v'. unfold tx_get, tx_remove. intros [_ H]%lookup_delete_Some. by apply Hd.
Qed.

Lemma typed_kv k v d : typed d -> typed (tx_insert TABLE_KV k v d).
Proof. intros. by apply typed_insert. Qed.

Lemma typed_metadata key m d : typed d -> meta_wf m -> typed (insert_metadata key m d).
Proof. intros. apply typed_insert; [done|]. exists key, m. split; [done|]. by apply meta_decode_encode. Qed.

Lemma typed_event e d : typed d -> typed (insert_event e d).
Proof. intros. apply typed_insert; [done|]. by exists (revision e). Qed.

(** Positions decode, if perhaps to other ones. *)
Lemma applied_decodes a : is_Some (applied_from_bytes (applied_to_bytes a)).
Proof.
  unfold applied_from_bytes, applied_to_bytes. rewrite strip_prefix_app. cbn [mbind option_bind]. slices. by eexists.
Qed.

Lemma decode_u64_decodes r : is_Some (decode_u64 (be64 r)).
Proof. unfold decode_u64. rewrite decide_True by done. by eexists. Qed.

Lemma typed_last_applied a d : typed d -> typed (insert_last_applied a d).
Proof.
  intros. apply typed_insert; [done|]. split; [|by intros [?|?]]. intros _. apply applied_decodes.
Qed.

Lemma typed_set_current r d : typed d -> typed (set_current_revision r d).
Proof. intros. apply typed_insert; [done|]. split; [done|]. intros _. apply decode_u64_decodes. Qed.

Lemma typed_note s r d : typed d -> typed (note_log_index_revision s d r).
Proof.
  intros. unfold note_log_index_revision. case_decide; [|done].
  destruct (_ <? _); [by apply typed_set_current|done].
Qed.

#[export] Hint Resolve typed_remove typed_kv typed_metadata typed_event typed_last_applied
  typed_set_current typed_note : typed.

Lemma typed_mark key m r d :
  typed d -> get_kv_metadata d key = Some m -> typed (insert_metadata key (meta_mark_deleted m r) d).
Proof. intros Hd H%get_kv_metadata_wf. auto with typed coord. Qed.

#[export] Hint Resolve typed_mark : typed.

(** ** The operations *)

Lemma typed_accept s d rev policy d' :
  typed d -> accept_revision s d rev policy = Ok d' -> typed d'.
Proof.
  intros Hd. unfold accept_revision, accept_log_index_revision, accept_commit_ts.
  destruct policy; [case_decide; [by intros [= <-]|]|];
    (destruct (_ <=? _); [done|]; intros [= <-]; auto with typed).
Qed.

Lemma typed_write_key s key v lid rev d d' :
  typed d -> in_i64 lid -> write_key s key v lid rev d = Ok d' -> typed d'.
Proof.
  intros Hd Hl H. unfold write_key in H. inv_bind. apply typed_metadata; [auto with typed|].
  destruct (get_kv_metadata d key) as [m|] eqn:E; eauto with coord.
Qed.

Lemma typed_delete_range range_end rev rows d :
  typed d -> typed (delete_range_loop range_end rev rows d).2.
Proof.
  revert d. induction rows as [|[ik v] rows IH]; intros d Hd; [done|]. simpl.
  destruct (decode_kv_key ik) as [k|]; [|auto]. destruct (_ && _); [done|].
  destruct (get_kv_metadata d k) as [m|] eqn:E; [|auto]. destruct (deleted m); [auto|].
  specialize (IH (insert_metadata k (meta_mark_deleted m rev) d) ltac:(eauto with typed)).
  destruct (delete_range_loop _ _ _ _) as [ks d1]. exact IH.
Qed.

Lemma typed_delete_by_lease target rev rows d :
  typed d -> typed (delete_by_lease_loop target rev rows d).2.
Proof.
  revert d. induction rows as [|[mk mv] rows IH]; intros d Hd; [done|]. cbn [delete_by_lease_loop].
  destruct (meta_from_bytes mv) as [m|] eqn:E; [|auto].
  destruct (strip_prefix KV_META_PREFIX mk) as [k|]; [|auto]. destruct (_ && _); [|auto].
  specialize (IH (insert_metadata k (meta_mark_deleted m rev) d)
    ltac:(eauto using meta_from_bytes_wf, meta_mark_deleted_wf with typed)).
  destruct (delete_by_lease_loop _ _ _ _) as [ks d1]. exact IH.
Qed.

Lemma typed_execute_op s d op rev r :
  typed d -> op_lease_ok op -> execute_op_in_tx s d op rev = Ok r -> typed r.2.
Proof.
  intros Hd Hl H. destruct op as [key v lease|key|key range_end limit]; cbn [execute_op_in_tx] in H.
  - destruct (write_key s key v (default 0 lease) rev d) as [d1|] eqn:E; cbn [mbind result_bind] in H;
      [|done]. injection H as <-. by eapply typed_write_key.
  - injection H as <-. simpl. destruct (get_kv_metadata d key) as [m|] eqn:E; [eauto with typed|done].
  - destruct (txn_range_loop _ _ _ _ _ _ _); cbn [mbind result_bind] in H; [|done]. by injection H as <-.
Qed.

Lemma typed_execute_ops s d ops rev r :
  typed d -> Forall op_lease_ok ops -> execute_ops s d ops rev = Ok r -> typed r.2.
Proof.
  intros Hd Hl. revert d r Hd. induction Hl as [|op ops Ho Hl IH]; intros d r Hd; cbn [execute_ops].
  { by intros [= <-]. }
  destruct (execute_op_in_tx s d op rev) as [[[resp c] d1]|] eqn:E; cbn [mbind result_bind]; [|done].
  apply (typed_execute_op _ _ _ _ _ Hd Ho) in E.
  destruct (execute_ops s d1 ops rev) as [[[rs cs] d2]|] eqn:E2; cbn [mbind result_bind]; [|done].
  apply (IH _ _ E) in E2. by intros [= <-].
Qed.

(** A handler whose transaction body keeps the tables typed does. *)
Definition keeps_typed {A : Type} (f : db -> result (A * db)) : Prop :=
  forall d r d', typed d -> f d = Ok (r, d') -> typed d'.

Lemma typed_backend_write {A : Type} (d : db) (f : db -> result (A * db)) :
  typed d -> keeps_typed f -> typed (backend_write d f).2.
Proof. intros Hd Hf. unfold backend_write. destruct (f d) as [[r d']|] eqn:E; [by eapply Hf|done]. Qed.

Lemma typed_replay_guard {A : Type} (s : MvccStorage) (d : db) (rev : Z) policy same (rp : A) f :
  typed d -> keeps_typed f -> typed (replay_guard s d rev policy same rp f).2.
Proof.
  intros Hd Hf. unfold replay_guard. destruct policy.
  - destruct (changelog_contains_revision d rev); [done|by apply typed_backend_write].
  - destruct (changelog_event_at d rev) as [[e|]|]; [by destruct (same e)|by apply typed_backend_write|done].
Qed.

Lemma typed_put s d key value lease rev a policy :
  typed d -> in_i64 (default 0 lease) -> typed (put_at_key s d key value lease rev a policy).2.
Proof.
  intros Hd Hl. apply typed_replay_guard; [done|]. intros d1 r d' H1 H. unfold put_in_tx in H. inv_bind.
  eauto 6 using typed_accept, typed_write_key with typed.
Qed.

Lemma typed_delete s d key rev a policy : typed d -> typed (delete_at_key s d key rev a policy).2.
Proof.
  intros Hd. apply typed_replay_guard; [done|]. intros d1 r d' H1 H. unfold delete_in_tx in H. inv_bind.
  apply typed_last_applied, typed_event. unfold tombstone_live.
  assert (typed x) as Hx by (by eapply typed_accept).
  destruct (get_kv_metadata x key) as [m|] eqn:E; [|done]. destruct (deleted m); eauto with typed.
Qed.

Lemma typed_delete_range_at_key s d start range_end rev a policy :
  typed d -> typed (delete_range_at_key s d start range_end rev a policy).2.
Proof.
  intros Hd.
  assert (typed (backend_write d (delete_range_in_tx s start range_end rev a policy)).2) as Hw.
  { apply typed_backend_write; [done|]. intros d1 r d' H1 H. unfold delete_range_in_tx in H.
    destruct (accept_revision s d1 rev policy) as [x|] eqn:E; cbn [mbind result_bind] in H; [|done].
    pose proof (typed_delete_range range_end rev
      (iter_range x TABLE_KV (encode_kv_key start) (encode_kv_key range_end)) x
      ltac:(by eapply typed_accept)) as Ht.
    destruct (delete_range_loop _ _ _ _) as [ks d2]. injection H as _ <-.
    apply typed_last_applied, typed_event, Ht. }
  unfold delete_range_at_key. repeat (case_match; try done).
Qed.

Lemma typed_txn s d compares success_ops failure_ops rev a :
  typed d -> Forall op_lease_ok success_ops -> Forall op_lease_ok failure_ops ->
  typed (execute_txn_at_revision s d compares success_ops failure_ops rev a).2.
Proof.
  intros Hd H1 H2. unfold execute_txn_at_revision. destruct (changelog_contains_revision d rev); [done|].
  apply typed_backend_write; [done|]. intros d1 r d' Hd1 H. unfold txn_in_tx in H. inv_bind.
  assert (typed x) as Hx by (by eapply typed_accept).
  apply typed_execute_ops in H0; [|done|by destruct (evaluate_compares_in_tx _ _)].
  destruct x0 as [[resps cs] d2]. injection H3 as _ <-. apply typed_last_applied, typed_event, H0.
Qed.

Lemma typed_lease s d op rev a : typed d -> typed (apply_lease_op s d op rev a).2.
Proof.
  intros Hd. unfold apply_lease_op. destruct (changelog_contains_revision d rev); [done|].
  assert (typed (lease_op_body op rev (note_log_index_revision s d rev)).2) as H.
  { assert (typed (note_log_index_revision s d rev)) as Hn by auto with typed.
    unfold lease_op_body, insert_lease, delete_keys_by_lease_in_tx.
    destruct op as [id t dl|id dl|id []]; [destruct (get_lease_record _ _)..| |]; simpl;
      auto using typed_delete_by_lease with typed. }
  destruct (lease_op_body _ _ _) as [ks d1]. simpl in *. auto with typed.
Qed.

Lemma typed_lease_keys s d id rev a : typed d -> typed (apply_delete_keys_by_lease s d id rev a).2.
Proof.
  intros Hd. unfold apply_delete_keys_by_lease. destruct (changelog_contains_revision d rev); [done|].
  pose proof (typed_delete_by_lease id rev (iter_prefix (note_log_index_revision s d rev) TABLE_KV_META KV_META_PREFIX)
    (note_log_index_revision s d rev) ltac:(auto with typed)) as H.
  unfold delete_keys_by_lease_in_tx. destruct (delete_by_lease_loop _ _ _ _) as [ks d1]. cbn [snd] in *. auto with typed.
Qed.

Lemma typed_lease_v2 s d op rev a : typed d -> typed (apply_lease_v2_op s d op rev a).2.
Proof.
  intros Hd. unfold apply_lease_v2_op. assert (typed (note_log_index_revision s d rev)) as Hn by auto with typed.
  set (d1 := note_log_index_revision s d rev) in *. destruct (lease_v2_body_frame op d1) as [_ Hf].
  destruct (lease_v2_body op d1) as [r d2]. cbn [snd] in *. apply typed_last_applied. intros t k v.
  destruct (decide (t = TABLE_KV)) as [->|Ht]; [done|]. rewrite (Hf t Ht k). apply Hn.
Qed.

Lemma typed_lease_v2_keys s d id ts a : typed d -> typed (delete_keys_by_lease_at_commit_ts s d id ts a).2.
Proof.
  intros Hd. unfold delete_keys_by_lease_at_commit_ts. destruct (ts =? 0); [done|].
  destruct (changelog_event_at d ts) as [[e|]|]; [by case_decide| |done].
  apply typed_backend_write; [done|]. intros d1 r d' H1 H.
  destruct (direct_write_fence_in_tx d1) as [[f|]|]; cbn [mbind result_bind] in H; [done| |done].
  pose proof (typed_delete_by_lease id ts (iter_prefix d1 TABLE_KV_META KV_META_PREFIX) d1 H1) as Ht.
  unfold delete_keys_by_lease_in_tx in H. destruct (delete_by_lease_loop _ _ _ _) as [ks d2]. cbn [snd] in Ht.
  destruct ks as [|k ks]; [injection H as _ <-; auto with typed|].
  destruct (accept_commit_ts s d2 ts) as [d3|] eqn:Ea; cbn [mbind result_bind] in H; [|done]. injection H as _ <-.
  assert (typed d3) by (by apply (typed_accept s d2 ts PolicyCommitTs)). auto with typed.
Qed.

Lemma typed_publish k mark a d : typed d -> typed (publish_mark k mark a d).2.
Proof. intros Hd. unfold publish_mark. destruct (applied_contains d a); [done|]. cbn [snd]. destruct (_ <? _); auto with typed. Qed.

Lemma typed_fence start end_ op_id a d : typed d -> typed (fence_direct_writes start end_ op_id a d).2.
Proof.
  intros Hd. apply typed_backend_write; [done|]. intros d1 r d' H1. destruct (applied_contains d1 a).
  - destruct (direct_write_fence_in_tx d1); cbn [mbind result_bind]; [|done]. by intros [= _ <-].
  - intros [= _ <-]. auto with typed.
Qed.

Lemma typed_unfence op_id a d : typed d -> typed (clear_direct_write_fence op_id a d).2.
Proof.
  intros Hd. apply typed_backend_write; [done|]. intros d1 r d' H1. destruct (applied_contains d1 a); [by intros [= _ <-]|].
  destruct (direct_write_fence_in_tx d1) as [f|]; cbn [mbind result_bind]; [|done]. intros [= _ <-].
  destruct (from_option _ _ _); auto with typed.
Qed.

Lemma typed_watermark s ts a d : typed d -> typed (advance_commit_ts_watermark s ts a d).2.
Proof.
  intros Hd. unfold advance_commit_ts_watermark. destruct (applied_contains d a); [done|]. simpl.
  destruct (_ <? _); auto with typed.
Qed.

Lemma typed_foldl {A : Type} (f : db -> A -> db) l d :
  (forall d x, typed d -> typed (f d x)) -> typed d -> typed (foldl f d l).
Proof. intros Hf. revert d. induction l as [|x l IH]; intros d Hd; [done|]. simpl. auto. Qed.

Lemma typed_compact_loop fuel effective dc dt d r :
  typed d -> compact_loop fuel effective dc dt d = Some r -> typed r.2.
Proof.
  revert dc dt d. induction fuel as [|fuel IH]; intros dc dt d Hd; [done|]. cbn [compact_loop].
  assert (typed (compact_batch effective d).2) as Hb.
  { unfold compact_batch. cbn [snd]. apply typed_foldl.
    - intros d1 k H. unfold remove_tombstone. destruct (strip_prefix _ _); auto with typed.
    - apply typed_foldl; [|done]. auto with typed. }
  destruct (compact_batch effective d) as [[bc bt] d1]. simpl in Hb.
  destruct (_ && _); [by intros [= <-]|]. by apply IH.
Qed.

Lemma typed_compact s d rev a r : typed d -> apply_compact s d rev a = Some r -> typed r.2.
Proof.
  intros Hd. unfold apply_compact. destruct (_ =? 0); [by intros [= <-]|].
  destruct (_ <=? _); [by intros [= <-]|].
  destruct (compact_loop _ _ _ _ _) as [[[dc dt] d1]|] eqn:E; [|done]. cbn [mbind option_bind].
  apply (typed_compact_loop _ _ _ _ _ _ Hd) in E. intros [= <-].
  apply typed_note, typed_last_applied, typed_insert; [exact E|]. split; [done|]. intros _. apply decode_u64_decodes.
Qed.

Lemma steps_typed s d d' : typed d -> rtc (step s) d d' -> typed d'.
Proof.
  intros Hd H. revert Hd. induction H as [d|d d1 d2 Hs H IH]; [done|]. intros Hd. apply IH.
  destruct Hs; eauto using typed_put, typed_delete, typed_delete_range_at_key, typed_txn, typed_lease, typed_lease_keys,
    typed_lease_v2, typed_lease_v2_keys, typed_publish, typed_fence, typed_unfence, typed_watermark.
  match goal with E : apply_compact _ _ _ _ = Some _ |- _ => by apply (typed_compact _ _ _ _ _ Hd) in E end.
Qed.

(** The rows of the change log are those of the history. *)
Lemma changelog_row_decodes s d h k v :
  mvcc_rep s d h -> typed d -> tx_get d TABLE_CHANGELOG k = Some v ->
  exists e, e ∈ h /\ k = encode_changelog_key (revision e) /\ event_from_bytes v = Ok e.
Proof.
  intros Hrep Ht Hv. destruct (Ht _ _ _ Hv) as [r ->].
  assert ((encode_changelog_key r, v) ∈ changelog_rows d) as Hin.
  { apply elem_of_iter_prefix. split; [done|by eexists]. }
  rewrite (rep_log _ _ _ Hrep) in Hin. apply list_elem_of_fmap in Hin as (e & Hrow & He).
  unfold event_row in Hrow. apply pair_equal_spec in Hrow as [-> ->].
  apply elem_of_List_filter in He as [_ He]. exists e. split; [done|]. split; [done|]. apply event_decode_encode.
  pose proof (rep_wf _ _ _ Hrep) as Hw. rewrite Forall_forall in Hw. by apply Hw.
Qed.

Lemma lives_empty : lives ∅ [].
Proof.
  intros key. exists [], []. split; [done|]. split; [done|]. unfold get_kv_metadata, tx_get. by rewrite lookup_empty.
Qed.

(** C39: the tables stay typed and tell the history.  A store that is reached
    from the empty one represents a history such that each metadata row decodes
    and shows the life of its key: version, revision of creation, revision of
    the last change and tombstone are those of the events of the history,
    counted from where compaction last removed the key, and a key without
    metadata has no life.  Each row of the change log decodes to the event of
    the history at the revision its key names; the applied position and the
    current and compacted revision decode; and each stored value has metadata. *)
Theorem reachable_typed s d :
  rep_barrier s -> rtc (step s) ∅ d ->
  exists h, mvcc_rep s d h /\
    (forall k v, tx_get d TABLE_KV_META k = Some v -> exists key m, k = encode_kv_meta_key key /\ meta_from_bytes v = Some m) /\
    (forall key, exists h1 h2, h = h1 ++ h2 /\ (forall T, compacted_revision d <= T -> value_at h1 key T = None) /\
       shows (get_kv_metadata d key) (life h2 key)) /\
    (forall k v, tx_get d TABLE_CHANGELOG k = Some v ->
       exists e, e ∈ h /\ k = encode_changelog_key (revision e) /\ event_from_bytes v = Ok e) /\
    (forall v, tx_get d TABLE_META META_LAST_APPLIED = Some v -> is_Some (applied_from_bytes v)) /\
    (forall k v, k = META_CURRENT_REVISION \/ k = META_COMPACT_REVISION -> tx_get d TABLE_META k = Some v ->
       is_Some (decode_u64 v)) /\
    (forall key raw, tx_get d TABLE_KV (encode_kv_key key) = Some raw -> is_Some (get_kv_metadata d key)).
Proof.
  intros Hbar H. assert (typed ∅) as H0 by (intros t k v; unfold tx_get; by rewrite lookup_empty).
  pose proof (steps_typed s ∅ d H0 H) as Ht.
  destruct (steps_extend_lives s Hbar ∅ d [] (mvcc_rep_empty s) lives_empty H) as (h & Hrep & Hl). cbn [app] in *.
  exists h. split; [done|]. split; [apply (Ht TABLE_KV_META)|]. split; [exact Hl|].
  split; [intros k v; by apply (changelog_row_decodes s d h)|].
  split; [intros v Hv; by apply (Ht _ _ _ Hv)|]. split; [intros k v Hk Hv; by apply (Ht _ _ _ Hv)|].
  intros key raw Hraw. pose proof (rep_keys _ _ _ Hrep key) as Hk. unfold key_rep, key_ok in Hk.
  destruct (get_kv_metadata d key); [done|]. destruct Hk as [E _]. congruence.
Qed.
