(* ===== verification/Anomalies.v ===== *)
(** * Behaviours that contradict the code's own comments

    Each theorem exhibits an execution of the modelled handlers whose result is
    not what the comments of [coord-server/src/storage/mvcc.rs] promise. *)

From S2P Require Export Reach.

Local Open Scope Z_scope.

(** A plain log-index store without encryption. *)
Definition plain : MvccStorage := {| revision_mode := ModeLogIndex; barrier := None |}.

Definition do_put (key value : bytes) (rev : Z) (d : db) : db :=
  (put_at_revision plain d key value None rev (standalone rev)).2.
Definition do_delete (key : bytes) (rev : Z) (d : db) : db :=
  (delete_at_revision plain d key rev (standalone rev)).2.
Definition do_txn_delete (key : bytes) (rev : Z) (d : db) : db :=
  (execute_txn_at_revision plain d [] [TxnDelete key] [] rev (standalone rev)).2.
Definition do_compact (rev log_index : Z) (d : db) : db :=
  from_option snd d (apply_compact plain d rev (standalone log_index)).

Section anomalies.
  Context {fc : FloorCodec}.

(** A historical range read can refuse a revision that is fully retained.
    After put, delete and put of one key, with nothing ever compacted, the range
    read at the revision of the delete fails with [HistoryUnavailable], while
    the point read of the same key at the same revision answers that the key
    does not exist. *)
Theorem range_refuses_deleted_then_recreated :
  let d := do_put (b "k") (b "new") 3 (do_delete (b "k") 2 (do_put (b "k") (b "old") 1 ∅)) in
  compacted_revision d = 0 /\
  get_at_revision plain d (b "k") 2 = Ok None /\
  range_at_revision plain d [] [xff] 0 2 = Err (HistoryUnavailable 2).
Proof. vm_compute. done. Qed.

(** A historical point read can refuse a key that never existed.  In a
    store that was never compacted, deleting a key that does not exist makes
    every read of that key at an earlier revision fail with
    [HistoryUnavailable]. *)
Theorem get_refuses_never_existing_key :
  let d := do_delete (b "ghost") 2 (do_put (b "k") (b "v") 1 ∅) in
  compacted_revision d = 0 /\
  get_at_revision plain d (b "ghost") 1 = Err (HistoryUnavailable 1).
Proof. vm_compute. done. Qed.

(** An unbounded historical range read silently drops keys.  After
    compaction, a key that was not written since is found by the point read but
    missing from the historical read of the whole key space (empty upper
    bound), while the bounded read has it. *)
Theorem unbounded_historical_range_drops_keys :
  let d := do_put (b "j") (b "3") 4
             (do_compact 3 3 (do_put (b "j") (b "2") 3
               (do_put (b "j") (b "1") 2 (do_put (b "k") (b "v") 1 ∅)))) in
  get_at_revision plain d (b "k") 4 = Ok (Some (b "v")) /\
  range_at_revision plain d [] [xff] 0 4 = Ok [(b "j", b "3"); (b "k", b "v")] /\
  range_at_revision plain d [] [] 0 4 = Ok [(b "j", b "3")].
Proof. vm_compute. done. Qed.

(** Reconstructed versions can be wrong.  A transactional delete of an
    already deleted key increments its version, which the historical read does
    not take back: the version it reports for revision 1 is not the version the
    key had at revision 1. *)
Theorem historical_version_wrong :
  let d1 := do_put (b "k") (b "v") 1 ∅ in
  let d := do_txn_delete (b "k") 3 (do_delete (b "k") 2 d1) in
  (exists m, get_kv_metadata d1 (b "k") = Some m /\ version m = 1) /\
  exists m, range_at_revision_with_metadata plain d [] [xff] 0 1 = Ok [(b "k", b "v", m)] /\
    version m = 2.
Proof. split; eexists; by vm_compute. Qed.

End anomalies.

(** Value compares see the ciphertext.  With an encryption barrier, right
    after a key is put, a transaction compare "value = v" with the value just
    written is false (unless the ciphertext happens to equal it) and holds for
    the ciphertext instead, although reads return the plaintext. *)
Theorem txn_value_compare_sees_ciphertext s br key v c lid rev a policy d out d' :
  barrier s = Some br -> BarrierLaws br -> encrypt br v = Ok c -> c <> v -> in_i64 lid ->
  put_in_tx s key v lid rev a policy d = Ok (out, d') ->
  let cmp w := {| cmp_key := key; cmp_target := CtValue; cmp_op := OpEqual;
                  cmp_target_value := CvValue w |} in
  get s d' key = Ok (Some v) /\
  evaluate_compare d' (cmp v) = false /\ evaluate_compare d' (cmp c) = true.
Proof.
  intros Hb Hl He Hne Hlid H cmp. unfold put_in_tx, write_key in H. inv_bind.
  rename x into d1. unfold encrypt_value in H0. rewrite encode_kv_key_prefix, Hb in H0.
  cbn [negb] in H0. rewrite He in H0. injection H0 as <-.
  set (m := match get_kv_metadata d1 key with
            | Some m => meta_update m rev lid | None => meta_new_key rev lid end).
  set (d2 := insert_last_applied a _).
  assert (get_kv_metadata d2 key = Some m) as Hm.
  { transitivity (get_kv_metadata (insert_metadata key m
      (tx_insert TABLE_KV (encode_kv_key key) c d1)) key).
    - apply get_kv_metadata_proper; [by apply finish_frame|done].
    - apply get_kv_metadata_insert. unfold m. destruct (get_kv_metadata d1 key) eqn:E;
        eauto with coord. }
  assert (tx_get d2 TABLE_KV (encode_kv_key key) = Some c) as Hv.
  { unfold d2. rewrite (finish_frame TABLE_KV) by done. unfold insert_metadata.
    rewrite tx_get_insert_ne by done. apply tx_get_insert. }
  assert (is_deleted d2 key = false) as Hd.
  { rewrite (is_deleted_Some _ _ _ Hm). unfold m. by destruct (get_kv_metadata d1 key). }
  split; [|split].
  - unfold get. rewrite Hv, Hd. rewrite (plaintext_of_encrypt s key v c); [done| |].
    + intros br' Hbr. rewrite Hb in Hbr. by injection Hbr as <-.
    + unfold encrypt_value. by rewrite encode_kv_key_prefix, Hb.
  - unfold evaluate_compare. cbn [cmp_key cmp_target cmp_target_value cmp cmp_op].
    rewrite Hv, Hd. cbn. unfold bytes_eqb. by apply bool_decide_eq_false.
  - unfold evaluate_compare. cbn [cmp_key cmp_target cmp_target_value cmp cmp_op].
    rewrite Hv, Hd. cbn. unfold bytes_eqb. by apply bool_decide_eq_true.
Qed.
