(* ===== verification/Sequencer.v ===== *)
(** * The commit sequencer

    Region 0 decides optimistic transactions
    ([MvccStorage::apply_sequencer_op] in [storage/mvcc.rs], with the types of
    [raft/type_config.rs]): a candidate commits when nothing it read was written
    after its start timestamp.  Decisions are kept in a log; three derived
    indexes answer "who wrote this key (this range) last".  SHA-256, which
    names index rows, and postcard are parameters. *)

From S2P Require Export Envelope KeyedLog Watermark.

Local Open Scope Z_scope.

(** ** Data *)

Inductive SequencerMutation :=
  | SmPut (key value : bytes) (lease : option Z)
  | SmDelete (key : bytes)
  | SmDeleteRange (start end_ : bytes).

Definition point_key (m : SequencerMutation) : option bytes :=
  match m with
  | SmPut key _ _ | SmDelete key => Some key
  | SmDeleteRange _ _ => None
  end.

Record SequencerTxn := {
  st_txn_id : bytes; st_start_ts : Z; st_commit_ts : Z; st_request_id : bytes;
  st_read_set : list bytes; st_mutations : list SequencerMutation }.

Record SequencerReadRange := { rr_start : bytes; rr_end : bytes }.
Record SequencerTxnWithRanges := { tr_txn : SequencerTxn; tr_read_ranges : list SequencerReadRange }.
Record SequencerValidationLimits := { max_read_set : Z; max_range : Z }.

Inductive SequencerInvalid :=
  CommitTsNotAboveStart | MissingTxnId | ReadSetTooLarge | RangeScanExceeded.

Inductive SequencerOutcome :=
  | Committed (commit_ts : Z)
  | Conflict (commit_ts : Z) (conflict_key : bytes) (conflict_ts : Z)
  | Duplicate (commit_ts : Z)
  | OutOfOrder (commit_ts last_commit_ts : Z)
  | Invalid (commit_ts : Z) (reason : SequencerInvalid).

Inductive SequencerOp :=
  | ValidateAndCommit (txns : list SequencerTxn)
  | ValidateAndCommitWithRanges (txns : list SequencerTxnWithRanges)
      (limits : SequencerValidationLimits).

Record SequencerDecision := {
  sd_txn_id : bytes; sd_request_id : bytes; sd_start_ts : Z; sd_commit_ts : Z;
  sd_mutations : list SequencerMutation }.

Record SequencerIndexHit := { hit_key : bytes; hit_commit_ts : Z }.
Record SequencerIntervalWrite := { iw_start : bytes; iw_end : bytes; iw_commit_ts : Z }.

Inductive SequencerRangeQuery :=
  | Hit (hit : SequencerIndexHit)
  | Clear
  | Exceeded (scanned : nat).

Record SequencerIndexRebuild := {
  rb_from_ts : Z; rb_to_ts : Z; rb_decisions : Z; rb_keys : Z }.

(** ** Keys *)

Definition SEQUENCER_DECISION_PREFIX : bytes := b "/_sys/seq/decision/".
Definition SEQUENCER_LAST_COMMIT_TS : bytes := b "/_sys/seq/last_commit_ts".
Definition SEQUENCER_TXN_PREFIX : bytes := b "/_sys/seq/txn/".
Definition SEQUENCER_REQUEST_PREFIX : bytes := b "/_sys/seq/req/".
Definition SEQUENCER_KEY_INDEX_PREFIX : bytes := b "/_sys/seq/vidx/".
Definition SEQUENCER_RANGE_INDEX_PREFIX : bytes := b "/_sys/seq/ridx/".
Definition SEQUENCER_INTERVAL_INDEX_PREFIX : bytes := b "/_sys/seq/iidx/".
Definition SEQUENCER_INDEX_LAST_TS : bytes := b "/_sys/seq/vidx_last_ts".

(** The SHA-256 function of the [sha2] crate. *)
Class Sha256 := sha256 : bytes -> bytes.

(** What [sequencer_hash] feeds to the hasher: the domain, then every part
    with its length. *)
Definition hash_input (domain : bytes) (parts : list bytes) : bytes :=
  domain ++ concat ((fun part => be64 (Z.of_nat (length part)) ++ part) <$> parts).

Definition encode_sequencer_decision_key (commit_ts : Z) : bytes :=
  SEQUENCER_DECISION_PREFIX ++ be64 commit_ts.

Definition prefixed_key (prefix key : bytes) : bytes := prefix ++ key.

Section sequencer.
Context {sha : Sha256} {pd : Postcard SequencerDecision} {pi : Postcard SequencerIntervalWrite}.

Definition sequencer_hash (domain : bytes) (parts : list bytes) : bytes :=
  sha256 (hash_input domain parts).

Definition prefixed_hash_key (prefix hash : bytes) : bytes := prefix ++ hash.

Definition txn_index_key (txn_id : bytes) : bytes :=
  prefixed_hash_key SEQUENCER_TXN_PREFIX (sequencer_hash (b "txn") [txn_id]).
Definition request_index_key (txn_id request_id : bytes) : bytes :=
  prefixed_hash_key SEQUENCER_REQUEST_PREFIX (sequencer_hash (b "req") [txn_id; request_id]).
Definition point_index_key (key : bytes) : bytes :=
  prefixed_hash_key SEQUENCER_KEY_INDEX_PREFIX (sequencer_hash (b "key") [key]).
Definition range_index_key (key : bytes) : bytes :=
  prefixed_key SEQUENCER_RANGE_INDEX_PREFIX key.
Definition interval_index_key (start end_ : bytes) : bytes :=
  prefixed_key SEQUENCER_INTERVAL_INDEX_PREFIX (sequencer_hash (b "interval") [start; end_]).

(** [tx.get(TABLE_KV, k)?.and_then(decode_u64)]. *)
Definition get_u64 (d : db) (k : bytes) : option Z := tx_get d TABLE_KV k ≫= decode_u64.

(** ** The indexes *)

Definition best_index_hit (left right : option SequencerIndexHit) : option SequencerIndexHit :=
  match left, right with
  | None, hit | hit, None => hit
  | Some l, Some r =>
    if (hit_commit_ts l <? hit_commit_ts r)
       || ((hit_commit_ts r =? hit_commit_ts l) && bytes_ltb (hit_key r) (hit_key l))
    then Some r else Some l
  end.

(** The limit passed to the scan: one row more than allowed shows the excess. *)
Definition fetch_limit (max_entries : nat) : nat :=
  if (max_entries =? 0)%nat then 0%nat else S max_entries.

Definition over_budget {A : Type} (max_entries : nat) (rows : list A) : bool :=
  (0 <? max_entries)%nat && (max_entries <? length rows)%nat.

Fixpoint decode_intervals (rows : list row) : result (list SequencerIntervalWrite) :=
  match rows with
  | [] => Ok []
  | (_, value) :: rest =>
    entry ← ok_or (decode_ok value) Internal;
    entries ← decode_intervals rest;
    Ok (entry :: entries)
  end.

Definition sequencer_interval_rows_in (d : db) (max_entries : nat)
    : result (option (list SequencerIntervalWrite)) :=
  let rows := iter_range_limited d TABLE_KV SEQUENCER_INTERVAL_INDEX_PREFIX
                (prefix_upper_bound SEQUENCER_INTERVAL_INDEX_PREFIX) (fetch_limit max_entries) in
  if over_budget max_entries rows then Ok None
  else entries ← decode_intervals rows; Ok (Some entries).

Definition interval_hit (start_ts : Z) (covers : SequencerIntervalWrite -> bool)
    (best : option SequencerIndexHit) (entry : SequencerIntervalWrite) : option SequencerIndexHit :=
  if iw_commit_ts entry <=? start_ts then best
  else if covers entry then
    best_index_hit best (Some {| hit_key := iw_start entry; hit_commit_ts := iw_commit_ts entry |})
  else best.

Definition sequencer_interval_point_hit (entries : list SequencerIntervalWrite) (key : bytes)
    (start_ts : Z) : option SequencerIndexHit :=
  foldl (interval_hit start_ts (fun entry =>
    bytes_leb (iw_start entry) key && bytes_ltb key (iw_end entry))) None entries.

Definition query_of_hit (best : option SequencerIndexHit) : SequencerRangeQuery :=
  match best with
  | Some hit => Hit hit
  | None => Clear
  end.

Definition sequencer_interval_point_in (d : db) (key : bytes) (start_ts : Z) (max_entries : nat)
    : result SequencerRangeQuery :=
  entries ← sequencer_interval_rows_in d max_entries;
  match entries with
  | None => Ok (Exceeded max_entries)
  | Some entries => Ok (query_of_hit (sequencer_interval_point_hit entries key start_ts))
  end.

Definition sequencer_interval_range_in (d : db) (start end_ : bytes) (start_ts : Z)
    (max_entries : nat) : result SequencerRangeQuery :=
  entries ← sequencer_interval_rows_in d max_entries;
  match entries with
  | None => Ok (Exceeded max_entries)
  | Some entries =>
    Ok (query_of_hit (foldl (interval_hit start_ts (fun entry =>
      (bytes_eqb end_ [] || bytes_ltb (iw_start entry) end_)
      && (bytes_eqb (iw_end entry) [] || bytes_ltb start (iw_end entry)))) None entries))
  end.

(** The loop over the rows of the ordered index. *)
Definition range_row_hit (start_ts : Z) (best : option SequencerIndexHit) (r : row)
    : option SequencerIndexHit :=
  match strip_prefix SEQUENCER_RANGE_INDEX_PREFIX r.1, decode_u64 r.2 with
  | Some key, Some write_ts =>
    if write_ts <=? start_ts then best
    else if from_option (fun hit => hit_commit_ts hit <? write_ts) true best
    then Some {| hit_key := key; hit_commit_ts := write_ts |}
    else best
  | _, _ => best
  end.

Definition sequencer_range_query_in (d : db) (start end_ : bytes) (start_ts : Z)
    (max_entries : nat) : result SequencerRangeQuery :=
  if negb (bytes_eqb end_ []) && bytes_leb end_ start then Ok Clear
  else
    let scan_end := if bytes_eqb end_ [] then prefix_upper_bound SEQUENCER_RANGE_INDEX_PREFIX
                    else range_index_key end_ in
    let rows := iter_range_limited d TABLE_KV (range_index_key start) scan_end
                  (fetch_limit max_entries) in
    if over_budget max_entries rows then Ok (Exceeded max_entries)
    else match foldl (range_row_hit start_ts) None rows with
    | Some hit => Ok (Hit hit)
    | None => sequencer_interval_range_in d start end_ start_ts max_entries
    end.

(** The point index and the interval index together. *)
Definition sequencer_point_query (d : db) (key : bytes) (start_ts : Z)
    : result (option SequencerIndexHit) :=
  let point := match get_u64 d (point_index_key key) with
               | Some ts => if start_ts <? ts
                            then Some {| hit_key := key; hit_commit_ts := ts |} else None
               | None => None
               end in
  q ← sequencer_interval_point_in d key start_ts 0;
  match q with
  | Hit hit => Ok (best_index_hit point (Some hit))
  | Clear => Ok (best_index_hit point None)
  | Exceeded _ => Err Internal
  end.

(** ** Index maintenance *)

(** Raise the timestamp of one index row. *)
Definition raise_index (ts : Z) (k : bytes) (d : db) : db :=
  if default 0 (get_u64 d k) <? ts then tx_insert TABLE_KV k (be64 ts) d else d.

Definition index_mutation (ts : Z) (m : SequencerMutation) (d : db) : result db :=
  match m with
  | SmPut key _ _ | SmDelete key =>
    Ok (raise_index ts (range_index_key key) (raise_index ts (point_index_key key) d))
  | SmDeleteRange start end_ =>
    let k := interval_index_key start end_ in
    let prev := default {| iw_start := []; iw_end := []; iw_commit_ts := 0 |}
                  (tx_get d TABLE_KV k ≫= decode_ok) in
    if iw_commit_ts prev <? ts then
      x ← ok_or (envelope_encode {| iw_start := start; iw_end := end_; iw_commit_ts := ts |})
            Internal;
      Ok (tx_insert TABLE_KV k x d)
    else Ok d
  end.

Fixpoint index_mutations (ts : Z) (ms : list SequencerMutation) (d : db) : result db :=
  match ms with
  | [] => Ok d
  | m :: ms => d ← index_mutation ts m d; index_mutations ts ms d
  end.

Definition sequencer_index_writes_in_tx (decision : SequencerDecision) (d : db) : result (Z * db) :=
  d ← index_mutations (sd_commit_ts decision) (sd_mutations decision) d;
  Ok (Z.of_nat (length (sd_mutations decision)), d).

(** ** Validation *)

Definition point_conflict (d : db) (entries : list SequencerIntervalWrite) (txn : SequencerTxn)
    (key : bytes) : option SequencerOutcome :=
  let interval := match sequencer_interval_point_hit entries key (st_start_ts txn) with
                  | Some hit => Some (Conflict (st_commit_ts txn) key (hit_commit_ts hit))
                  | None => None
                  end in
  match get_u64 d (point_index_key key) with
  | Some write_ts =>
    if st_start_ts txn <? write_ts then Some (Conflict (st_commit_ts txn) key write_ts)
    else interval
  | None => interval
  end.

Fixpoint check_read_set (d : db) (entries : list SequencerIntervalWrite) (txn : SequencerTxn)
    (keys : list bytes) : option SequencerOutcome :=
  match keys with
  | [] => None
  | key :: keys =>
    match point_conflict d entries txn key with
    | Some out => Some out
    | None => check_read_set d entries txn keys
    end
  end.

Fixpoint check_read_ranges (d : db) (txn : SequencerTxn) (max_entries : nat)
    (ranges : list SequencerReadRange) : result (option SequencerOutcome) :=
  match ranges with
  | [] => Ok None
  | r :: ranges =>
    q ← sequencer_range_query_in d (rr_start r) (rr_end r) (st_start_ts txn) max_entries;
    match q with
    | Clear => check_read_ranges d txn max_entries ranges
    | Hit hit => Ok (Some (Conflict (st_commit_ts txn) (hit_key hit) (hit_commit_ts hit)))
    | Exceeded _ => Ok (Some (Invalid (st_commit_ts txn) RangeScanExceeded))
    end
  end.

Definition decision_of (txn : SequencerTxn) : SequencerDecision :=
  {| sd_txn_id := st_txn_id txn; sd_request_id := st_request_id txn;
     sd_start_ts := st_start_ts txn; sd_commit_ts := st_commit_ts txn;
     sd_mutations := st_mutations txn |}.

(** The writes of a transaction that passed. *)
Definition record_decision (txn : SequencerTxn) (d : db) : result db :=
  let ts := st_commit_ts txn in
  let decision := decision_of txn in
  x ← ok_or (envelope_encode decision) Internal;
  let d := tx_insert TABLE_KV (encode_sequencer_decision_key ts) x d in
  let d := tx_insert TABLE_KV (txn_index_key (st_txn_id txn)) (be64 ts) d in
  let d := if bytes_eqb (st_request_id txn) [] then d
           else tx_insert TABLE_KV (request_index_key (st_txn_id txn) (st_request_id txn))
                  (be64 ts) d in
  '(_, d) ← sequencer_index_writes_in_tx decision d;
  let d := tx_insert TABLE_KV SEQUENCER_INDEX_LAST_TS (be64 ts) d in
  Ok (tx_insert TABLE_KV SEQUENCER_LAST_COMMIT_TS (be64 ts) d).

(** The idempotency lookups: the first decision of the transaction. *)
Definition find_duplicate (txn : SequencerTxn) (d : db) : option Z :=
  match get_u64 d (txn_index_key (st_txn_id txn)) with
  | Some ts => Some ts
  | None =>
    if bytes_eqb (st_request_id txn) [] then None
    else get_u64 d (request_index_key (st_txn_id txn) (st_request_id txn))
  end.

Definition read_set_too_large (txn : SequencerTxn) (ranges : list SequencerReadRange)
    (limits : option SequencerValidationLimits) : bool :=
  from_option (fun l => (0 <? max_read_set l)
    && (max_read_set l <? Z.of_nat (length (st_read_set txn) + length ranges))) false limits.

Definition range_budget (limits : option SequencerValidationLimits) : nat :=
  from_option (fun l => Z.to_nat (max_range l)) 0%nat limits.

(** The interval index is scanned once, and not at all without point reads. *)
Definition interval_entries (txn : SequencerTxn) (max_entries : nat) (d : db)
    : result (option (list SequencerIntervalWrite)) :=
  match st_read_set txn with
  | [] => Ok (Some [])
  | _ => sequencer_interval_rows_in d max_entries
  end.

Definition sequencer_validate_in_tx (txn : SequencerTxn) (ranges : list SequencerReadRange)
    (limits : option SequencerValidationLimits) (d : db) : result (SequencerOutcome * db) :=
  let ts := st_commit_ts txn in
  if bytes_eqb (st_txn_id txn) [] then Ok (Invalid ts MissingTxnId, d)
  else match find_duplicate txn d with
  | Some existing => Ok (Duplicate existing, d)
  | None =>
    if ts <=? st_start_ts txn then Ok (Invalid ts CommitTsNotAboveStart, d)
    else
      let last := default 0 (get_u64 d SEQUENCER_LAST_COMMIT_TS) in
      if ts <=? last then Ok (OutOfOrder ts last, d)
      else if read_set_too_large txn ranges limits then Ok (Invalid ts ReadSetTooLarge, d)
      else
        entries ← interval_entries txn (range_budget limits) d;
        match entries with
        | None => Ok (Invalid ts RangeScanExceeded, d)
        | Some entries =>
          match check_read_set d entries txn (st_read_set txn) with
          | Some out => Ok (out, d)
          | None =>
            refused ← check_read_ranges d txn (range_budget limits) ranges;
            match refused with
            | Some out => Ok (out, d)
            | None => d ← record_decision txn d; Ok (Committed ts, d)
            end
          end
        end
  end.

Fixpoint validate_batch (limits : option SequencerValidationLimits)
    (txns : list SequencerTxnWithRanges) (d : db) : result (list SequencerOutcome * db) :=
  match txns with
  | [] => Ok ([], d)
  | t :: txns =>
    '(out, d) ← sequencer_validate_in_tx (tr_txn t) (tr_read_ranges t) limits d;
    '(outs, d) ← validate_batch limits txns d;
    Ok (out :: outs, d)
  end.

(** The candidates of a command, with their predicates and limits. *)
Definition op_txns (op : SequencerOp) : list SequencerTxnWithRanges :=
  match op with
  | ValidateAndCommit txns => (fun txn => {| tr_txn := txn; tr_read_ranges := [] |}) <$> txns
  | ValidateAndCommitWithRanges txns _ => txns
  end.
Definition op_limits (op : SequencerOp) : option SequencerValidationLimits :=
  match op with
  | ValidateAndCommit _ => None
  | ValidateAndCommitWithRanges _ limits => Some limits
  end.

Definition apply_sequencer_op (s : MvccStorage) (d : db) (op : SequencerOp) (rev : Z)
    (applied : AppliedLogId) : result (list SequencerOutcome) * db :=
  backend_write d (fun d =>
    let d := note_log_index_revision s d rev in
    '(outs, d) ← validate_batch (op_limits op) (op_txns op) d;
    Ok (outs, insert_last_applied applied d)).

(** ** Reading the decision log *)

Definition get_sequencer_decision (d : db) (commit_ts : Z) : option SequencerDecision :=
  tx_get d TABLE_KV (encode_sequencer_decision_key commit_ts) ≫= decode_ok.

Definition sequencer_last_commit_ts (d : db) : Z := default 0 (get_u64 d SEQUENCER_LAST_COMMIT_TS).
Definition sequencer_index_last_ts (d : db) : Z := default 0 (get_u64 d SEQUENCER_INDEX_LAST_TS).

(** A row of the log: its key and its record must agree. *)
Definition decision_of_row (r : row) : result SequencerDecision :=
  commit_ts ← ok_or (strip_prefix SEQUENCER_DECISION_PREFIX r.1 ≫= decode_u64) Internal;
  decision ← ok_or (decode_ok r.2) Internal;
  if sd_commit_ts decision =? commit_ts then Ok decision else Err Internal.

Fixpoint decisions_of_rows (rows : list row) : result (list SequencerDecision) :=
  match rows with
  | [] => Ok []
  | r :: rows =>
    decision ← decision_of_row r; decisions ← decisions_of_rows rows; Ok (decision :: decisions)
  end.

Definition decision_rows_after (d : db) (after_ts : Z) (limit : nat) : list row :=
  iter_range_limited d TABLE_KV (encode_sequencer_decision_key (u64_saturating_add after_ts 1))
    (prefix_upper_bound SEQUENCER_DECISION_PREFIX) limit.

Definition sequencer_decisions_after (d : db) (after_ts : Z) (limit : nat)
    : result (list SequencerDecision) :=
  decisions_of_rows (decision_rows_after d after_ts (Nat.max limit 1)).

Definition next_sequencer_decision_ts (d : db) (after_ts : Z) : result (option Z) :=
  decisions ← sequencer_decisions_after d after_ts 1;
  Ok (sd_commit_ts <$> head decisions).

(** ** Rebuilding the indexes *)

(** One batch of [catch_up_sequencer_index]: the rows are indexed in one write
    transaction; the result is the number of keys and the last timestamp. *)
Fixpoint catch_up_rows (rows : list row) (keys last_ts : Z) (d : db) : result ((Z * Z) * db) :=
  match rows with
  | [] => Ok ((keys, last_ts), d)
  | r :: rows =>
    decision ← decision_of_row r;
    '(n, d) ← sequencer_index_writes_in_tx decision d;
    catch_up_rows rows (keys + n) (sd_commit_ts decision) d
  end.

Definition catch_up_batch (rows : list row) (marker : Z) (d : db) : result (Z * Z) * db :=
  backend_write d (fun d =>
    '((keys, last_ts), d) ← catch_up_rows rows 0 marker d;
    Ok ((keys, last_ts),
        if sequencer_index_last_ts d <? last_ts
        then tx_insert TABLE_KV SEQUENCER_INDEX_LAST_TS (be64 last_ts) d else d)).

(** The [while] loop; [None] when the fuel runs out. *)
Fixpoint catch_up_loop (fuel batch : nat) (last_commit_ts marker : Z)
    (stats : SequencerIndexRebuild) (d : db) : option (result SequencerIndexRebuild * db) :=
  match fuel with
  | O => None
  | S fuel =>
    if last_commit_ts <=? marker then Some (Ok stats, d)
    else
      match decision_rows_after d marker batch with
      | [] => Some (Ok stats, d)
      | rows =>
        match catch_up_batch rows marker d with
        | (Err e, d) => Some (Err e, d)
        | (Ok (keys, last_ts), d) =>
          let stats := {| rb_from_ts := rb_from_ts stats; rb_to_ts := last_ts;
                          rb_decisions := rb_decisions stats + Z.of_nat (length rows);
                          rb_keys := rb_keys stats + keys |} in
          if (length rows <? batch)%nat then Some (Ok stats, d)
          else catch_up_loop fuel batch last_commit_ts last_ts stats d
        end
      end
  end.

Definition catch_up_sequencer_index (fuel batch : nat) (d : db)
    : option (result SequencerIndexRebuild * db) :=
  let batch := Nat.max batch 1 in
  let from_ts := sequencer_index_last_ts d in
  catch_up_loop fuel batch (sequencer_last_commit_ts d) from_ts
    {| rb_from_ts := from_ts; rb_to_ts := from_ts; rb_decisions := 0; rb_keys := 0 |} d.

Definition remove_prefix (d : db) (prefix : bytes) : db :=
  foldl (fun d '(k, _) => tx_remove TABLE_KV k d) d (iter_prefix d TABLE_KV prefix).

Definition rebuild_sequencer_validation_index (fuel batch : nat) (d : db)
    : option (result SequencerIndexRebuild * db) :=
  let d := foldl remove_prefix d
    [SEQUENCER_KEY_INDEX_PREFIX; SEQUENCER_RANGE_INDEX_PREFIX; SEQUENCER_INTERVAL_INDEX_PREFIX] in
  catch_up_sequencer_index fuel batch (tx_remove TABLE_KV SEQUENCER_INDEX_LAST_TS d).

End sequencer.
