(* ===== verification/SequencerSpec.v ===== *)
(** * What the sequencer promises

    The decision log as a list of decisions with increasing commit timestamps;
    the values it determines; the relation between a log and the rows of
    Region 0 ([seq_rep]); and the validation indexes: indexing the mutations of
    a new decision turns the index rows of a log into those of the extended
    log, whether this happens when the decision is made or later from the
    log. *)

From S2P Require Export Sequencer SysRows.

Local Open Scope Z_scope.

#[export] Instance SequencerMutation_eq_dec : EqDecision SequencerMutation.
Proof. solve_decision. Defined.

(** ** The values a decision log determines *)

(** What a mutation makes of a key: nothing, or a new value. *)
Definition mutation_value (k : bytes) (m : SequencerMutation) : option (option bytes) :=
  match m with
  | SmPut key value _ => if bytes_eqb key k then Some (Some value) else None
  | SmDelete key => if bytes_eqb key k then Some None else None
  | SmDeleteRange start end_ => if in_range start end_ k then Some None else None
  end.

Definition run_mutations (k : bytes) (ms : list SequencerMutation) (v : option bytes) : option bytes :=
  foldl (fun v m => default v (mutation_value k m)) v ms.

Definition writes (dec : SequencerDecision) (k : bytes) : Prop :=
  exists m, m ∈ sd_mutations dec /\ is_Some (mutation_value k m).

(** The value of a key after all decisions up to a timestamp. *)
Definition decided_value (ds : list SequencerDecision) (k : bytes) (T : Z) : option bytes :=
  foldl (fun v dec => if sd_commit_ts dec <=? T then run_mutations k (sd_mutations dec) v else v)
    None ds.

Lemma run_mutations_untouched k ms v :
  (forall m, m ∈ ms -> mutation_value k m = None) -> run_mutations k ms v = v.
Proof.
  revert v. induction ms as [|m ms IH]; intros v H; simpl; [done|].
  rewrite (H m) by left. simpl. apply IH. intros m' Hm. apply H. by right.
Qed.

Lemma decided_value_snoc ds dec k T :
  decided_value (ds ++ [dec]) k T =
  if sd_commit_ts dec <=? T then run_mutations k (sd_mutations dec) (decided_value ds k T)
  else decided_value ds k T.
Proof. unfold decided_value. by rewrite foldl_app. Qed.

(** A key nobody writes between two timestamps keeps its value. *)
Lemma decided_value_quiet ds k T1 T2 :
  T1 <= T2 ->
  (forall dec, dec ∈ ds -> T1 < sd_commit_ts dec <= T2 -> ~ writes dec k) ->
  decided_value ds k T1 = decided_value ds k T2.
Proof.
  intros HT. induction ds as [|dec ds IH] using rev_ind; intros H; [done|].
  rewrite !decided_value_snoc.
  assert (decided_value ds k T1 = decided_value ds k T2) as ->.
  { apply IH. intros dec' Hd. apply H. apply elem_of_app. by left. }
  destruct (Z.leb_spec (sd_commit_ts dec) T1), (Z.leb_spec (sd_commit_ts dec) T2); try done; [lia|].
  symmetry. apply run_mutations_untouched. intros m Hm.
  apply eq_None_not_Some. intros Hs. apply (H dec); [apply elem_of_app; right; by left|lia|].
  by exists m.
Qed.

(** ** The last decision of some kind *)

Section last_such.
Implicit Types (p : SequencerDecision -> bool) (ds : list SequencerDecision).

Definition last_such p ds : option Z := sd_commit_ts <$> last (List.filter p ds).

Lemma last_such_snoc p ds dec :
  last_such p (ds ++ [dec]) = if p dec then Some (sd_commit_ts dec) else last_such p ds.
Proof.
  unfold last_such. rewrite List.filter_app. simpl. destruct (p dec); [|by rewrite app_nil_r].
  by rewrite last_snoc.
Qed.

Lemma last_such_Some p ds ts :
  last_such p ds = Some ts -> exists dec, dec ∈ ds /\ p dec = true /\ sd_commit_ts dec = ts.
Proof.
  induction ds as [|dec ds IH] using rev_ind; [done|]. rewrite last_such_snoc.
  destruct (p dec) eqn:Hp.
  - intros [= <-]. exists dec. rewrite elem_of_app, list_elem_of_singleton. by auto.
  - intros (dec' & ? & ? & ?)%IH. exists dec'. rewrite elem_of_app. by auto.
Qed.

Lemma last_such_after p ds dec :
  StronglySorted (fun a a' => sd_commit_ts a < sd_commit_ts a') ds -> dec ∈ ds -> p dec = true ->
  exists ts, last_such p ds = Some ts /\ sd_commit_ts dec <= ts.
Proof.
  intros Hs. induction ds as [|x ds IH] using rev_ind; [by intros ?%elem_of_nil|].
  apply StronglySorted_app in Hs as (Hlt & Hs & _). intros Hd Hp. rewrite last_such_snoc.
  apply elem_of_app in Hd as [Hd| ->%list_elem_of_singleton].
  - destruct (p x); [|by apply IH]. exists (sd_commit_ts x). split; [done|].
    apply Z.lt_le_incl, Hlt; [done|by left].
  - rewrite Hp. by exists (sd_commit_ts x).
Qed.

Lemma last_such_None p ds : (forall dec, dec ∈ ds -> p dec = false) -> last_such p ds = None.
Proof.
  intros H. destruct (last_such p ds) eqn:E; [|done].
  apply last_such_Some in E as (dec & Hd & Hp & _). by rewrite H in Hp.
Qed.

End last_such.

Definition last_ts (ds : list SequencerDecision) : Z := default 0 (sd_commit_ts <$> last ds).

Definition writes_point (k : bytes) (dec : SequencerDecision) : bool :=
  existsb (fun m => bool_decide (point_key m = Some k)) (sd_mutations dec).
Definition writes_interval (start end_ : bytes) (dec : SequencerDecision) : bool :=
  existsb (fun m => bool_decide (m = SmDeleteRange start end_)) (sd_mutations dec).

Lemma writes_cases dec k :
  writes dec k <-> writes_point k dec = true \/
    exists start end_, writes_interval start end_ dec = true /\ in_range start end_ k = true.
Proof.
  unfold writes, writes_point, writes_interval. setoid_rewrite existsb_exists. split.
  - intros (m & Hm & Hs). apply list_elem_of_In in Hm. destruct m as [key v l|key|start end_]; simpl in Hs.
    + destruct (bytes_eqb_spec key k) as [->|]; [|by destruct Hs]. left. eexists. split; [done|].
      by apply bool_decide_eq_true_2.
    + destruct (bytes_eqb_spec key k) as [->|]; [|by destruct Hs]. left. eexists. split; [done|].
      by apply bool_decide_eq_true_2.
    + destruct (in_range start end_ k) eqn:E; [|by destruct Hs]. right. exists start, end_.
      split; [|done]. eexists. split; [done|]. by apply bool_decide_eq_true_2.
  - intros [(m & Hm & E%bool_decide_eq_true)|(start & end_ & (m & Hm & ->%bool_decide_eq_true) & E)];
      apply list_elem_of_In in Hm; eexists; (split; [done|]).
    + destruct m; simpl in *; try done; injection E as ->;
        by destruct (bytes_eqb_spec k k).
    + simpl. by rewrite E.
Qed.

(** ** Hashed keys *)

(** SHA-256 has no collisions among the inputs in use ([U]). *)
Class CollisionFree {sha : Sha256} (U : bytes -> Prop) : Prop :=
  sha256_inj : forall x y, U x -> U y -> sha256 x = sha256 y -> x = y.

Definition hashable (U : bytes -> Prop) (domain : bytes) (parts : list bytes) : Prop :=
  U (hash_input domain parts) /\ Forall (fun part => in_u64 (Z.of_nat (length part))) parts.

(** The length prefixes make the hashed input unambiguous. *)
Lemma hash_input_inj domain parts parts' :
  Forall (fun part => in_u64 (Z.of_nat (length part))) parts ->
  Forall (fun part => in_u64 (Z.of_nat (length part))) parts' ->
  length parts = length parts' ->
  hash_input domain parts = hash_input domain parts' -> parts = parts'.
Proof.
  unfold hash_input. intros H H' Hl E%app_inv_head. revert parts' H' Hl E.
  induction H as [|x l Hx Hf IH]; intros [|x' l'] H' Hl E; try done.
  apply Forall_cons in H' as [Hx' H']. rewrite !fmap_cons in E. cbn [concat] in E.
  rewrite <-!app_assoc in E. apply app_inj_1 in E as [En E]; [|by rewrite !length_be64].
  apply be64_inj in En; [|done..].
  apply app_inj_1 in E as [-> E]; [|lia]. f_equal. apply IH; [done|by injection Hl|done].
Qed.

Section hashing.
Context {sha : Sha256} {U : bytes -> Prop} {cf : CollisionFree U}.

Lemma sequencer_hash_inj domain parts parts' :
  hashable U domain parts -> hashable U domain parts' -> length parts = length parts' ->
  sequencer_hash domain parts = sequencer_hash domain parts' -> parts = parts'.
Proof using cf.
  intros [Hu Hl] [Hu' Hl'] Hn E. pose proof (sha256_inj _ _ Hu Hu' E) as Ei.
  by apply hash_input_inj in Ei.
Qed.

End hashing.

(** ** The representation of the log *)

Definition mutation_ok (U : bytes -> Prop) (m : SequencerMutation) : Prop :=
  match m with
  | SmPut key _ _ | SmDelete key => hashable U (b "key") [key]
  | SmDeleteRange start end_ => hashable U (b "interval") [start; end_] /\ bytes_lt start end_
  end.

Section representation.
Context {sha : Sha256} {pd : Postcard SequencerDecision} {pi : Postcard SequencerIntervalWrite}.
Context (U : bytes -> Prop).

Definition decision_ok (dec : SequencerDecision) : Prop :=
  0 < sd_commit_ts dec /\ in_u64 (sd_commit_ts dec) /\ hashable U (b "txn") [sd_txn_id dec] /\
  (sd_request_id dec <> [] -> hashable U (b "req") [sd_txn_id dec; sd_request_id dec]) /\
  Forall (mutation_ok U) (sd_mutations dec).

Definition decision_bytes (dec : SequencerDecision) : bytes := default [] (envelope_encode dec).
Definition interval_bytes (start end_ : bytes) (ts : Z) : bytes :=
  default [] (envelope_encode {| iw_start := start; iw_end := end_; iw_commit_ts := ts |}).

(** The rows of the three indexes. *)
Record index_rows (d : db) (ds : list SequencerDecision) : Prop := {
  ix_point : forall k, hashable U (b "key") [k] ->
    tx_get d TABLE_KV (point_index_key k) = be64 <$> last_such (writes_point k) ds;
  ix_range : forall k,
    tx_get d TABLE_KV (range_index_key k) = be64 <$> last_such (writes_point k) ds;
  ix_interval : forall x v,
    tx_get d TABLE_KV (SEQUENCER_INTERVAL_INDEX_PREFIX ++ x) = Some v <->
    exists start end_ ts, last_such (writes_interval start end_) ds = Some ts /\
      x = sequencer_hash (b "interval") [start; end_] /\ v = interval_bytes start end_ ts }.

(** The decision log and the idempotency rows. *)
Record log_rows (d : db) (ds : list SequencerDecision) : Prop := {
  lr_ok : Forall decision_ok ds;
  lr_sorted : StronglySorted (fun a a' => sd_commit_ts a < sd_commit_ts a') ds;
  lr_unique : NoDup (sd_txn_id <$> ds);
  lr_last : tx_get d TABLE_KV SEQUENCER_LAST_COMMIT_TS = be64 <$> (sd_commit_ts <$> last ds);
  lr_log : iter_prefix d TABLE_KV SEQUENCER_DECISION_PREFIX =
    keyed_row SEQUENCER_DECISION_PREFIX sd_commit_ts decision_bytes <$> ds;
  lr_txn : forall id, hashable U (b "txn") [id] ->
    tx_get d TABLE_KV (txn_index_key id) =
    be64 <$> last_such (fun dec => bytes_eqb (sd_txn_id dec) id) ds;
  lr_request : forall id rq, rq <> [] -> hashable U (b "req") [id; rq] ->
    tx_get d TABLE_KV (request_index_key id rq) =
    be64 <$> last_such (fun dec => bytes_eqb (sd_txn_id dec) id && bytes_eqb (sd_request_id dec) rq) ds }.

Record seq_rep (d : db) (ds : list SequencerDecision) : Prop := {
  sr_log : log_rows d ds;
  sr_index : index_rows d ds;
  sr_index_last : sequencer_index_last_ts d = last_ts ds }.

Definition all_mutations (ds : list SequencerDecision) : list SequencerMutation :=
  concat (sd_mutations <$> ds).

(** What a transaction reads. *)
Definition reads (txn : SequencerTxn) (ranges : list SequencerReadRange) (k : bytes) : Prop :=
  k ∈ st_read_set txn \/ exists r, r ∈ ranges /\ in_range (rr_start r) (rr_end r) k = true.

Definition txn_ok (txn : SequencerTxn) : Prop :=
  in_u64 (st_commit_ts txn) /\ 0 <= st_start_ts txn /\
  Forall (fun k => hashable U (b "key") [k]) (st_read_set txn) /\
  hashable U (b "txn") [st_txn_id txn] /\
  (st_request_id txn <> [] -> hashable U (b "req") [st_txn_id txn; st_request_id txn]) /\
  Forall (mutation_ok U) (st_mutations txn).

(** What the sequencer must answer for a candidate. *)
Definition outcome_ok (ds : list SequencerDecision) (txn : SequencerTxn)
    (ranges : list SequencerReadRange) (limits : option SequencerValidationLimits)
    (out : SequencerOutcome) : Prop :=
  match out with
  | Committed ts => ts = st_commit_ts txn /\ st_txn_id txn <> [] /\
      st_start_ts txn < ts /\ last_ts ds < ts /\
      (forall dec, dec ∈ ds -> sd_txn_id dec <> st_txn_id txn) /\
      forall dec k, dec ∈ ds -> st_start_ts txn < sd_commit_ts dec -> writes dec k ->
        ~ reads txn ranges k
  | Conflict ts _ write_ts => ts = st_commit_ts txn /\
      exists dec k, dec ∈ ds /\ sd_commit_ts dec = write_ts /\ st_start_ts txn < write_ts /\
        writes dec k /\ reads txn ranges k
  | Duplicate ts => exists dec, dec ∈ ds /\ sd_txn_id dec = st_txn_id txn /\ sd_commit_ts dec = ts
  | OutOfOrder ts last => ts = st_commit_ts txn /\ last = last_ts ds /\ ts <= last
  | Invalid ts MissingTxnId => st_txn_id txn = []
  | Invalid ts CommitTsNotAboveStart => st_commit_ts txn <= st_start_ts txn
  | Invalid ts ReadSetTooLarge => exists l, limits = Some l /\
      0 < max_read_set l < Z.of_nat (length (st_read_set txn) + length ranges)
  | Invalid ts RangeScanExceeded => exists l, limits = Some l /\
      0 < max_range l < Z.of_nat (length (all_mutations ds))
  end.

End representation.

(** ** The validation indexes follow the log *)

Definition index_prefixes : list bytes :=
  [SEQUENCER_KEY_INDEX_PREFIX; SEQUENCER_RANGE_INDEX_PREFIX; SEQUENCER_INTERVAL_INDEX_PREFIX].

Definition with_mutations (dec : SequencerDecision) (ms : list SequencerMutation)
    : SequencerDecision :=
  {| sd_txn_id := sd_txn_id dec; sd_request_id := sd_request_id dec;
     sd_start_ts := sd_start_ts dec; sd_commit_ts := sd_commit_ts dec; sd_mutations := ms |}.

Lemma with_mutations_all dec : with_mutations dec (sd_mutations dec) = dec.
Proof. by destruct dec. Qed.

(** Rows that other prefixes do not reach. *)
Lemma get_insert_diverge p q x y v d :
  diverge p q = true ->
  tx_get (tx_insert TABLE_KV (q ++ y) v d) TABLE_KV (p ++ x) = tx_get d TABLE_KV (p ++ x).
Proof.
  intros H. apply tx_get_insert_ne. intros E. apply (f_equal snd) in E. simpl in E.
  symmetry in E. by eapply diverge_neq.
Qed.

(** ** Raising one row *)

Lemma raise_index_get ts k o d :
  tx_get d TABLE_KV k = be64 <$> o -> from_option (fun z => in_u64 z /\ z <= ts) True o ->
  0 < ts -> tx_get (raise_index ts k d) TABLE_KV k = Some (be64 ts).
Proof.
  intros Hk Ho Hts. unfold raise_index, get_u64. rewrite Hk.
  destruct o as [z|]; cbn [fmap option_fmap option_map mbind option_bind from_option] in *.
  - destruct Ho as [Hz Hle]. rewrite decode_u64_be64 by done. cbn [from_option]. unfold id.
    destruct (Z.ltb_spec z ts); [apply tx_get_insert|]. assert (z = ts) as -> by lia. by rewrite Hk.
  - unfold id. destruct (Z.ltb_spec 0 ts); [apply tx_get_insert|lia].
Qed.

Lemma raise_index_ne ts k k' d :
  k <> k' -> tx_get (raise_index ts k d) TABLE_KV k' = tx_get d TABLE_KV k'.
Proof.
  intros Hk. unfold raise_index. destruct (_ <? _); [|done]. apply tx_get_insert_ne. congruence.
Qed.

Lemma raise_index_touches ps ts p x d : p ∈ ps -> touches ps d (raise_index ts (p ++ x) d).
Proof. intros Hp. unfold raise_index. destruct (_ <? _); [by apply touches_insert|done]. Qed.

Section index.
Context {sha : Sha256} {pd : Postcard SequencerDecision} {pi : Postcard SequencerIntervalWrite}.
Context {pli : PostcardLaws SequencerIntervalWrite}.
Context {U : bytes -> Prop} {cf : CollisionFree U}.

Lemma interval_bytes_decode start end_ ts :
  decode_ok (interval_bytes start end_ ts) =
  Some {| iw_start := start; iw_end := end_; iw_commit_ts := ts |}.
Proof using pli.
  unfold interval_bytes.
  destruct (encode_total {| iw_start := start; iw_end := end_; iw_commit_ts := ts |}) as [x E].
  rewrite E. simpl. by apply decode_ok_encode.
Qed.

(** The mutations of a log, and their timestamps. *)
Definition mutations_ok (ds : list SequencerDecision) : Prop :=
  Forall (fun dec => Forall (mutation_ok U) (sd_mutations dec)) ds.

Lemma writes_interval_ok ds start end_ ts :
  mutations_ok ds -> last_such (writes_interval start end_) ds = Some ts ->
  hashable U (b "interval") [start; end_] /\ bytes_lt start end_.
Proof.
  intros Hok (dec & Hd & Hw & _)%last_such_Some. unfold mutations_ok in Hok.
  rewrite Forall_forall in Hok. specialize (Hok dec Hd). rewrite Forall_forall in Hok.
  apply existsb_exists in Hw as (m & Hm & ->%bool_decide_eq_true).
  by apply list_elem_of_In, Hok in Hm.
Qed.

Section one_decision.
Context (ds : list SequencerDecision) (dec : SequencerDecision).
Context (Hts : 0 < sd_commit_ts dec) (Hu : in_u64 (sd_commit_ts dec)).
Context (Hlt : Forall (fun d' => in_u64 (sd_commit_ts d') /\ sd_commit_ts d' < sd_commit_ts dec) ds).

Abbreviation so_far ms := (ds ++ [with_mutations dec ms]).

(** All timestamps of the extended log are at most the new one. *)
Lemma last_such_le p ms :
  from_option (fun z => in_u64 z /\ z <= sd_commit_ts dec) True (last_such p (so_far ms)).
Proof using Hu Hlt.
  destruct (last_such p (so_far ms)) as [z|] eqn:E; simpl; [|done].
  apply last_such_Some in E as (d' & Hd & _ & <-).
  apply elem_of_app in Hd as [Hd| ->%list_elem_of_singleton].
  - rewrite Forall_forall in Hlt. destruct (Hlt d' Hd). split; [done|lia].
  - split; [done|]. simpl. lia.
Qed.

Lemma last_such_snoc_mutation (p : SequencerDecision -> bool) (q : SequencerMutation -> bool) ms m :
  (forall dec, p dec = existsb q (sd_mutations dec)) ->
  last_such p (so_far (ms ++ [m])) =
  if q m then Some (sd_commit_ts dec) else last_such p (so_far ms).
Proof.
  intros Hp. rewrite !last_such_snoc, !Hp. simpl. rewrite existsb_app. simpl.
  rewrite orb_false_r. destruct (existsb q ms), (q m); done.
Qed.

Lemma index_point_mutation m key ms d :
  point_key m = Some key -> hashable U (b "key") [key] ->
  index_rows U d (so_far ms) ->
  index_rows U (raise_index (sd_commit_ts dec) (range_index_key key)
                 (raise_index (sd_commit_ts dec) (point_index_key key) d)) (so_far (ms ++ [m])).
Proof using Hts Hu Hlt cf.
  intros Hm Hk [H1 H2 H3].
  assert (forall k, last_such (writes_point k) (so_far (ms ++ [m])) =
    if bytes_eqb key k then Some (sd_commit_ts dec) else last_such (writes_point k) (so_far ms)) as Hw.
  { intros k. rewrite (last_such_snoc_mutation _ (fun m => bool_decide (point_key m = Some k))) by done.
    rewrite Hm. destruct (bytes_eqb_spec key k) as [->|Hne]; [by rewrite bool_decide_eq_true_2|].
    by rewrite bool_decide_eq_false_2 by congruence. }
  split.
  - intros k Hk'. rewrite raise_index_ne by (intros E; symmetry in E; by apply diverge_neq in E).
    rewrite Hw. destruct (bytes_eqb_spec key k) as [->|Hne].
    + eapply raise_index_get; [by apply H1|apply last_such_le|done].
    + rewrite raise_index_ne; [by apply H1|]. intros E%app_inv_head.
      apply sequencer_hash_inj in E; [|done..]. congruence.
  - intros k. rewrite Hw. destruct (bytes_eqb_spec key k) as [->|Hne].
    + eapply raise_index_get; [|apply (last_such_le (writes_point k) ms)|done].
      rewrite raise_index_ne; [by apply H2|]. by apply diverge_neq.
    + rewrite !raise_index_ne; [by apply H2|by apply diverge_neq|].
      by intros E%app_inv_head.
  - intros x v. rewrite !raise_index_ne by (by apply diverge_neq). rewrite H3.
    assert (forall start end_, last_such (writes_interval start end_) (so_far (ms ++ [m])) =
      last_such (writes_interval start end_) (so_far ms)) as Hi.
    { intros. rewrite (last_such_snoc_mutation _ (fun m => bool_decide (m = SmDeleteRange start end_)))
        by done. by rewrite bool_decide_eq_false_2 by (intros ->; done). }
    by setoid_rewrite Hi.
Qed.

(** The row of an interval before it is written again. *)
Lemma interval_row_prev start end_ ms d :
  mutations_ok (so_far ms) -> hashable U (b "interval") [start; end_] ->
  index_rows U d (so_far ms) ->
  tx_get d TABLE_KV (interval_index_key start end_) =
  interval_bytes start end_ <$> last_such (writes_interval start end_) (so_far ms).
Proof using cf.
  intros Hok Hh [_ _ H3]. unfold interval_index_key, prefixed_key.
  destruct (tx_get d TABLE_KV _) as [v|] eqn:E.
  - apply H3 in E as (s' & e' & ts & Hl & Ex & ->).
    destruct (writes_interval_ok _ _ _ _ Hok Hl) as [Hh' _].
    apply sequencer_hash_inj in Ex; [|done..]. injection Ex as <- <-. by rewrite Hl.
  - destruct (last_such _ (so_far ms)) as [ts|] eqn:El; [|done].
    rewrite (proj2 (H3 _ (interval_bytes start end_ ts))) in E; [done|]. by exists start, end_, ts.
Qed.

Lemma index_interval_rows start end_ ms d d' :
  mutations_ok (so_far ms) -> hashable U (b "interval") [start; end_] ->
  touches [SEQUENCER_INTERVAL_INDEX_PREFIX] d d' ->
  (forall k, k <> interval_index_key start end_ -> tx_get d' TABLE_KV k = tx_get d TABLE_KV k) ->
  tx_get d' TABLE_KV (interval_index_key start end_) =
    Some (interval_bytes start end_ (sd_commit_ts dec)) ->
  index_rows U d (so_far ms) -> index_rows U d' (so_far (ms ++ [SmDeleteRange start end_])).
Proof using cf.
  intros Hok Hh Ht Hne Hrow [H1 H2 H3].
  assert (forall k, last_such (writes_point k) (so_far (ms ++ [SmDeleteRange start end_])) =
    last_such (writes_point k) (so_far ms)) as Hp.
  { intros k. by rewrite (last_such_snoc_mutation _ (fun m => bool_decide (point_key m = Some k))). }
  assert (forall s e, last_such (writes_interval s e) (so_far (ms ++ [SmDeleteRange start end_])) =
    if bool_decide (SmDeleteRange start end_ = SmDeleteRange s e) then Some (sd_commit_ts dec)
    else last_such (writes_interval s e) (so_far ms)) as Hi.
  { intros s e. by rewrite (last_such_snoc_mutation _ (fun m => bool_decide (m = SmDeleteRange s e))). }
  split.
  - intros k Hk. rewrite Hp.
    etrans; [exact (touches_get _ _ _ SEQUENCER_KEY_INDEX_PREFIX _ Ht eq_refl)|by apply H1].
  - intros k. rewrite Hp.
    etrans; [exact (touches_get _ _ _ SEQUENCER_RANGE_INDEX_PREFIX _ Ht eq_refl)|by apply H2].
  - intros x v. destruct (decide (x = sequencer_hash (b "interval") [start; end_])) as [->|Hx].
    + change (SEQUENCER_INTERVAL_INDEX_PREFIX ++ sequencer_hash (b "interval") [start; end_])
        with (interval_index_key start end_). rewrite Hrow. split.
      * intros [= <-]. exists start, end_, (sd_commit_ts dec).
        by rewrite Hi, bool_decide_eq_true_2.
      * intros (s & e & ts & Hl & Ex & ->). rewrite Hi in Hl.
        assert (s = start /\ e = end_) as [-> ->].
        { case_bool_decide as E; [by injection E|].
          destruct (writes_interval_ok _ _ _ _ Hok Hl) as [Hh' _].
          apply sequencer_hash_inj in Ex; [|done..]. by injection Ex as -> ->. }
        rewrite bool_decide_eq_true_2 in Hl by done. by injection Hl as <-.
    + rewrite Hne by (by intros E%app_inv_head). rewrite H3.
      split; intros (s & e & ts & Hl & -> & ->); exists s, e, ts; rewrite Hi in *;
        (case_bool_decide as E; [by injection E as -> ->|done]).
Qed.

Lemma index_mutation_rep m ms d :
  mutation_ok U m -> mutations_ok (so_far ms) -> index_rows U d (so_far ms) ->
  exists d', index_mutation (sd_commit_ts dec) m d = Ok d' /\
    index_rows U d' (so_far (ms ++ [m])) /\ touches index_prefixes d d'.
Proof using Hts Hu Hlt pli cf.
  intros Hm Hok Hr. destruct m as [key value lease|key|start end_]; simpl in Hm |- *.
  1,2: eexists; split; [done|]; split; [by apply (index_point_mutation _ key)|];
    etrans; apply raise_index_touches; unfold index_prefixes; set_solver.
  destruct Hm as [Hh _]. pose proof (interval_row_prev _ _ _ _ Hok Hh Hr) as Hprev.
  rewrite Hprev.
  assert (forall d', d' = tx_insert TABLE_KV (interval_index_key start end_)
      (interval_bytes start end_ (sd_commit_ts dec)) d ->
    index_rows U d' (so_far (ms ++ [SmDeleteRange start end_])) /\ touches index_prefixes d d') as Hins.
  { intros d' ->. assert (touches [SEQUENCER_INTERVAL_INDEX_PREFIX] d (tx_insert TABLE_KV
      (interval_index_key start end_) (interval_bytes start end_ (sd_commit_ts dec)) d)) as Ht
      by (apply touches_insert; set_solver).
    split; [|eapply touches_mono; [|exact Ht]; unfold index_prefixes; set_solver].
    eapply index_interval_rows; [done|done|exact Ht| |apply tx_get_insert|exact Hr].
    intros k Hk. apply tx_get_insert_ne. congruence. }
  assert (envelope_encode {| iw_start := start; iw_end := end_; iw_commit_ts := sd_commit_ts dec |} =
    Some (interval_bytes start end_ (sd_commit_ts dec))) as Henc.
  { unfold interval_bytes. by destruct (encode_total
      {| iw_start := start; iw_end := end_; iw_commit_ts := sd_commit_ts dec |}) as [x ->]. }
  pose proof (last_such_le (writes_interval start end_) ms) as Hle.
  destruct (last_such _ (so_far ms)) as [ts|] eqn:El;
    cbn [fmap option_fmap option_map mbind option_bind from_option] in *.
  - rewrite interval_bytes_decode. cbn [from_option]. unfold id. cbn [iw_commit_ts].
    destruct (Z.ltb_spec ts (sd_commit_ts dec)).
    + rewrite Henc. eexists. split; [done|]. by apply Hins.
    + assert (ts = sd_commit_ts dec) as -> by lia. exists d. split; [done|]. split; [|reflexivity].
      by eapply index_interval_rows.
  - unfold id. cbn [iw_commit_ts]. destruct (Z.ltb_spec 0 (sd_commit_ts dec)); [|lia].
    rewrite Henc. eexists. split; [done|]. by apply Hins.
Qed.

Lemma index_mutations_rep ms' ms d :
  Forall (mutation_ok U) ms' -> mutations_ok (so_far ms) -> index_rows U d (so_far ms) ->
  exists d', index_mutations (sd_commit_ts dec) ms' d = Ok d' /\
    index_rows U d' (so_far (ms ++ ms')) /\ touches index_prefixes d d'.
Proof using Hts Hu Hlt pli cf.
  intros Hm. revert ms d. induction Hm as [|m ms' Hm Hms IH]; intros ms d Hok Hr; simpl.
  { exists d. by rewrite app_nil_r. }
  destruct (index_mutation_rep m ms d Hm Hok Hr) as (d1 & -> & Hr1 & Ht1).
  cbn [mbind result_bind]. destruct (IH (ms ++ [m]) d1) as (d2 & -> & Hr2 & Ht2); [|done|].
  { unfold mutations_ok in *. rewrite Forall_app, Forall_singleton in *. simpl in *.
    rewrite Forall_app, Forall_singleton. naive_solver. }
  exists d2. rewrite <-app_assoc in Hr2. split; [done|]. split; [done|]. by etrans.
Qed.

End one_decision.

(** Indexing a new decision. *)
Lemma sequencer_index_writes_rep ds dec d :
  Forall (fun d' => in_u64 (sd_commit_ts d') /\ sd_commit_ts d' < sd_commit_ts dec) ds ->
  0 < sd_commit_ts dec -> in_u64 (sd_commit_ts dec) -> mutations_ok (ds ++ [dec]) ->
  index_rows U d ds ->
  exists d', sequencer_index_writes_in_tx dec d =
      Ok (Z.of_nat (length (sd_mutations dec)), d') /\
    index_rows U d' (ds ++ [dec]) /\ touches index_prefixes d d'.
Proof using pli cf.
  intros Hlt Hts Hu Hok Hr. unfold mutations_ok in Hok. rewrite Forall_app, Forall_singleton in Hok.
  destruct Hok as [Hok Hms]. assert (index_rows U d (ds ++ [with_mutations dec []])) as Hr0.
  { destruct Hr as [H1 H2 H3]. split.
    - intros k. rewrite last_such_snoc. apply H1.
    - intros k. rewrite last_such_snoc. apply H2.
    - intros x v. setoid_rewrite last_such_snoc. apply H3. }
  destruct (index_mutations_rep ds dec Hts Hu Hlt (sd_mutations dec) [] d) as (d' & E & Hr' & Ht);
    [done| |done|].
  { unfold mutations_ok. rewrite Forall_app, Forall_singleton. split; [done|]. simpl. constructor. }
  unfold sequencer_index_writes_in_tx. rewrite E. cbn [mbind result_bind].
  exists d'. split; [done|]. simpl app in Hr'. by rewrite with_mutations_all in Hr'.
Qed.

End index.
