(* ===== verification/SequencerRefine.v ===== *)
(** * Validation is exact

    The index queries find exactly the decisions that wrote what is asked for
    after a timestamp; a candidate commits if and only if nothing it read was
    overwritten; and committed transactions are serializable in the order of
    their commit timestamps. *)

From S2P Require Export SequencerSpec Watermark.

Local Open Scope Z_scope.

(** ** Bounded scans *)

Lemma budget_scan {n} d t x z :
  let rows := iter_range_limited d t x z (fetch_limit n) in
  over_budget n rows = over_budget n (iter_range d t x z) /\
  (over_budget n rows = false -> rows = iter_range d t x z).
Proof.
  unfold over_budget, fetch_limit. destruct (Nat.eqb_spec n 0) as [->|Hn]; [done|].
  rewrite iter_range_limited_take by lia. set (l := iter_range d t x z).
  rewrite length_take. split.
  - f_equal. apply eq_true_iff_eq. rewrite !Nat.ltb_lt. lia.
  - destruct (Nat.ltb_spec 0 n); [|lia]. rewrite andb_true_l. intros Hl%Nat.ltb_ge. apply take_ge. lia.
Qed.

Lemma over_budget_spec {A : Type} n (l : list A) :
  over_budget n l = true <-> (0 < n < length l)%nat.
Proof. unfold over_budget. rewrite andb_true_iff, !Nat.ltb_lt. lia. Qed.

(** ** Folding over index entries *)

Lemma best_index_hit_cases l r : exists h, best_index_hit l (Some r) = Some h /\ (Some h = l \/ h = r).
Proof. destruct l as [l|]; simpl; [destruct (_ || _)|]; eauto. Qed.

Lemma interval_fold start_ts covers entries best :
  match foldl (interval_hit start_ts covers) best entries with
  | None => best = None /\
      Forall (fun e => iw_commit_ts e <= start_ts \/ covers e = false) entries
  | Some h => best = Some h \/ exists e, e ∈ entries /\ start_ts < iw_commit_ts e /\
      covers e = true /\ hit_commit_ts h = iw_commit_ts e
  end.
Proof.
  revert best. induction entries as [|e entries IH]; intros best; simpl.
  { destruct best; [by left|]. split; [done|constructor]. }
  specialize (IH (interval_hit start_ts covers best e)).
  assert (match interval_hit start_ts covers best e with
    | None => best = None /\ (iw_commit_ts e <= start_ts \/ covers e = false)
    | Some h => best = Some h \/
        (start_ts < iw_commit_ts e /\ covers e = true /\ hit_commit_ts h = iw_commit_ts e)
    end) as He.
  { unfold interval_hit. destruct (Z.leb_spec (iw_commit_ts e) start_ts); [destruct best; by auto|].
    destruct (covers e); [|destruct best; by auto].
    destruct (best_index_hit_cases best {| hit_key := iw_start e; hit_commit_ts := iw_commit_ts e |})
      as (h & -> & [<-| ->]); by auto. }
  destruct (foldl _ _ entries) as [h|].
  - destruct IH as [E|(e' & ? & ?)]; [rewrite E in He|right; exists e'; split; [by right|done]].
    destruct He as [?|?]; [by left|right]. exists e. split; [by left|done].
  - destruct IH as [E Hf]. rewrite E in He. destruct He as [? ?]. split; [done|]. by constructor.
Qed.

(** The key and timestamp of a row of the ordered index. *)
Definition range_row (r : row) : option (bytes * Z) :=
  key ← strip_prefix SEQUENCER_RANGE_INDEX_PREFIX r.1; ts ← decode_u64 r.2; Some (key, ts).

Lemma range_fold start_ts rows best :
  match foldl (range_row_hit start_ts) best rows with
  | None => best = None /\
      Forall (fun r => from_option (fun '(_, ts) => ts <= start_ts) True (range_row r)) rows
  | Some h => best = Some h \/ exists r, r ∈ rows /\
      range_row r = Some (hit_key h, hit_commit_ts h) /\ start_ts < hit_commit_ts h
  end.
Proof.
  revert best. induction rows as [|r rows IH]; intros best; simpl.
  { destruct best; [by left|]. split; [done|constructor]. }
  specialize (IH (range_row_hit start_ts best r)).
  assert (match range_row_hit start_ts best r with
    | None => best = None /\ from_option (fun '(_, ts) => ts <= start_ts) True (range_row r)
    | Some h => best = Some h \/
        (range_row r = Some (hit_key h, hit_commit_ts h) /\ start_ts < hit_commit_ts h)
    end) as Hr.
  { unfold range_row_hit, range_row. destruct (strip_prefix _ r.1) as [k|]; simpl;
      [|destruct best; by auto].
    destruct (decode_u64 r.2) as [ts|]; simpl; [|destruct best; by auto].
    destruct (Z.leb_spec ts start_ts); [destruct best; by auto|].
    destruct best as [h|]; simpl; [destruct (hit_commit_ts h <? ts)|]; by auto. }
  destruct (foldl _ _ rows) as [h|].
  - destruct IH as [E|(r' & ? & ?)]; [rewrite E in Hr|right; exists r'; split; [by right|done]].
    destruct Hr as [?|?]; [by left|right]. exists r. split; [by left|done].
  - destruct IH as [E Hf]. rewrite E in Hr. destruct Hr as [? ?]. split; [done|]. by constructor.
Qed.

(** ** The index queries *)

Section queries.
Context {sha : Sha256} {pd : Postcard SequencerDecision} {pi : Postcard SequencerIntervalWrite}.
Context {pli : PostcardLaws SequencerIntervalWrite}.
Context {U : bytes -> Prop}.
Context (d : db) (ds : list SequencerDecision).
Context (Hix : index_rows U d ds) (Hok : mutations_ok (U := U) ds).
Context (Hsorted : StronglySorted (fun a a' => sd_commit_ts a < sd_commit_ts a') ds).
Context (Hu : Forall (fun dec => in_u64 (sd_commit_ts dec)) ds).

Abbreviation interval_rows := (iter_prefix d TABLE_KV SEQUENCER_INTERVAL_INDEX_PREFIX).

(** A decision after [start_ts] that writes a key of [P]. *)
Definition wrote (start_ts : Z) (P : bytes -> Prop) (ts : Z) : Prop :=
  exists dec k, dec ∈ ds /\ sd_commit_ts dec = ts /\ start_ts < ts /\ writes dec k /\ P k.

(** The index key of a mutation. *)
Definition mutation_index_key (m : SequencerMutation) : bytes :=
  match m with
  | SmPut k _ _ | SmDelete k => range_index_key k
  | SmDeleteRange start end_ => interval_index_key start end_
  end.

Lemma elem_of_all_mutations m dec : dec ∈ ds -> m ∈ sd_mutations dec -> m ∈ all_mutations ds.
Proof.
  intros Hd Hm. unfold all_mutations. apply list_elem_of_In, List.in_concat.
  exists (sd_mutations dec). split; apply list_elem_of_In; [|done]. by apply list_elem_of_fmap_2.
Qed.

(** Distinct index rows come from distinct mutations. *)
Lemma index_rows_bound (rows : list row) :
  StronglySorted row_lt rows ->
  (forall k v, (k, v) ∈ rows -> exists m, m ∈ all_mutations ds /\ mutation_index_key m = k) ->
  (length rows <= length (all_mutations ds))%nat.
Proof.
  intros Hs Hr. rewrite <-(length_fmap fst rows), <-(length_fmap mutation_index_key (all_mutations ds)).
  apply submseteq_length, NoDup_submseteq; [by apply sorted_rows_NoDup|].
  intros k ([k' v] & -> & Hin)%list_elem_of_fmap. destruct (Hr _ _ Hin) as (m & Hm & E).
  apply list_elem_of_fmap. by exists m.
Qed.

Lemma interval_row_mutation k v :
  (k, v) ∈ interval_rows -> exists m, m ∈ all_mutations ds /\ mutation_index_key m = k.
Proof using Hix.
  intros [Hv [x ->]]%elem_of_iter_prefix. apply Hix in Hv as (s & e & ts & Hl & -> & _).
  apply last_such_Some in Hl as (dec & Hd & Hw & _).
  apply existsb_exists in Hw as (m & Hm%list_elem_of_In & ->%bool_decide_eq_true).
  exists (SmDeleteRange s e). split; [by eapply elem_of_all_mutations|done].
Qed.

Lemma decode_intervals_ok rows :
  (forall k v, (k, v) ∈ rows -> exists s e ts, v = interval_bytes s e ts) ->
  exists entries, decode_intervals rows = Ok entries /\
    forall entry, entry ∈ entries <->
      exists k, (k, interval_bytes (iw_start entry) (iw_end entry) (iw_commit_ts entry)) ∈ rows.
Proof using pli.
  induction rows as [|[k v] rows IH]; intros Hr; simpl.
  { exists []. split; [done|]. intros entry. rewrite elem_of_nil. split; [done|].
    by intros [k Hk%elem_of_nil]. }
  destruct (Hr k v) as (s & e & ts & ->); [by left|]. rewrite interval_bytes_decode.
  destruct IH as (entries & -> & Hm); [intros; eapply Hr; by right|].
  cbn [ok_or mbind result_bind]. eexists. split; [done|]. intros entry. rewrite elem_of_cons, Hm. split.
  - intros [->|[k' ?]]; [exists k; by left|exists k'; by right].
  - intros [k' [E|Hk']%elem_of_cons]; [left|right; by eauto].
    apply (f_equal (fun r => decode_ok r.2)) in E. simpl in E. rewrite !interval_bytes_decode in E.
    injection E as <- <- <-. by destruct entry.
Qed.

(** The entries of the interval index. *)
Lemma interval_rows_spec n :
  (sequencer_interval_rows_in d n = Ok None /\ (0 < n < length (all_mutations ds))%nat) \/
  exists entries, sequencer_interval_rows_in d n = Ok (Some entries) /\
    forall entry, entry ∈ entries <->
      last_such (writes_interval (iw_start entry) (iw_end entry)) ds = Some (iw_commit_ts entry).
Proof using pli Hix.
  unfold sequencer_interval_rows_in.
  destruct (budget_scan (n := n) d TABLE_KV SEQUENCER_INTERVAL_INDEX_PREFIX
    (prefix_upper_bound SEQUENCER_INTERVAL_INDEX_PREFIX)) as [Hb Hf].
  rewrite iter_range_prefix in Hb, Hf. cbv zeta in *.
  destruct (over_budget n (iter_range_limited _ _ _ _ _)) eqn:Eb.
  - left. split; [done|]. symmetry in Hb. apply over_budget_spec in Hb.
    pose proof (index_rows_bound interval_rows (iter_prefix_sorted _ _ _) interval_row_mutation). lia.
  - right. rewrite Hf by done.
    destruct (decode_intervals_ok interval_rows) as (entries & -> & Hm).
    { intros k v [Hv [x ->]]%elem_of_iter_prefix. apply Hix in Hv as (s & e & ts & _ & _ & ->).
      by eauto. }
    exists entries. split; [done|]. intros [s e ts]. rewrite Hm. cbn [iw_start iw_end iw_commit_ts]. split.
    + intros [k [Hv [x ->]]%elem_of_iter_prefix]. apply Hix in Hv as (s' & e' & ts' & Hl & _ & E).
      apply (f_equal decode_ok) in E. rewrite !interval_bytes_decode in E. by injection E as -> -> ->.
    + intros Hl. exists (interval_index_key s e). apply elem_of_iter_prefix. split; [|by eexists].
      apply (proj2 (ix_interval _ _ _ Hix (sequencer_hash (b "interval") [s; e]) _)).
      by exists s, e, ts.
Qed.

(** An interval entry stands for a decision, and every decision is covered by
    an entry that is not older. *)
Lemma interval_entry_wrote start_ts entry k :
  last_such (writes_interval (iw_start entry) (iw_end entry)) ds = Some (iw_commit_ts entry) ->
  start_ts < iw_commit_ts entry -> in_range (iw_start entry) (iw_end entry) k = true ->
  wrote start_ts (eq k) (iw_commit_ts entry).
Proof.
  intros (dec & Hd & Hw & Ht)%last_such_Some Hs Hk. exists dec, k. split; [done|]. split; [done|].
  split; [done|]. split; [|done]. apply writes_cases. right. by eauto.
Qed.

(** A fold over the interval entries decides whether an interval write hits
    [P], when [covers] tells which intervals meet [P]. *)
Lemma interval_fold_spec start_ts covers (P : bytes -> Prop) entries :
  (forall entry, entry ∈ entries <->
     last_such (writes_interval (iw_start entry) (iw_end entry)) ds = Some (iw_commit_ts entry)) ->
  (forall s e ts, bytes_lt s e ->
     covers {| iw_start := s; iw_end := e; iw_commit_ts := ts |} = true <->
     exists k, in_range s e k = true /\ P k) ->
  match foldl (interval_hit start_ts covers) None entries with
  | Some h => wrote start_ts P (hit_commit_ts h)
  | None => forall dec s e k, dec ∈ ds -> start_ts < sd_commit_ts dec ->
      writes_interval s e dec = true -> in_range s e k = true -> ~ P k
  end.
Proof using Hok Hsorted.
  intros He Hc. pose proof (interval_fold start_ts covers entries None) as H.
  destruct (foldl _ None entries) as [h|].
  - destruct H as [?|([s e ts] & Hin & Hts & Hcov & ->)]; [done|]. apply He in Hin. simpl in *.
    destruct (writes_interval_ok _ _ _ _ Hok Hin) as [_ Hse].
    apply Hc in Hcov as (k & Hk & HP); [|done].
    destruct (interval_entry_wrote start_ts {| iw_start := s; iw_end := e; iw_commit_ts := ts |} k
      Hin Hts Hk) as (dec & k' & ? & ? & ? & ? & <-). by exists dec, k.
  - destruct H as [_ Hf]. intros dec s e k Hd Hts Hw Hk HP.
    destruct (last_such_after _ _ _ Hsorted Hd Hw) as (ts & Hl & Hle).
    destruct (writes_interval_ok _ _ _ _ Hok Hl) as [_ Hse].
    rewrite Forall_forall in Hf.
    destruct (Hf {| iw_start := s; iw_end := e; iw_commit_ts := ts |}) as [Hts'|Hno];
      [by apply He|simpl in Hts'; lia|].
    rewrite (proj2 (Hc s e ts Hse)) in Hno; [done|]. by eauto.
Qed.

Lemma point_hit_spec start_ts key entries :
  (forall entry, entry ∈ entries <->
     last_such (writes_interval (iw_start entry) (iw_end entry)) ds = Some (iw_commit_ts entry)) ->
  match sequencer_interval_point_hit entries key start_ts with
  | Some h => wrote start_ts (eq key) (hit_commit_ts h)
  | None => forall dec s e, dec ∈ ds -> start_ts < sd_commit_ts dec ->
      writes_interval s e dec = true -> in_range s e key = false
  end.
Proof using Hok Hsorted.
  intros He. pose proof (interval_fold_spec start_ts (fun entry =>
    bytes_leb (iw_start entry) key && bytes_ltb key (iw_end entry)) (eq key) entries He) as H.
  unfold sequencer_interval_point_hit. destruct (foldl _ None entries) as [h|].
  1: apply H. 2: intros dec s e Hd Hts Hw; apply not_true_iff_false; intros Hk;
    eapply H; [|exact Hd|exact Hts|exact Hw|exact Hk|done].
  all: intros s' e' ts Hse; cbn [iw_start iw_end]; rewrite andb_true_iff; split;
    [intros [? ?]; exists key; split; [|done]; apply in_range_spec; by auto
    |intros (k & [? Hk']%in_range_spec & <-); split; [done|];
     destruct Hk' as [->|?]; [by apply bytes_not_lt_nil in Hse|done]].
Qed.

(** The rows of the ordered index between two keys. *)
Lemma range_index_scan start end_ k v :
  (k, v) ∈ iter_range d TABLE_KV (range_index_key start)
    (if bytes_eqb end_ [] then prefix_upper_bound SEQUENCER_RANGE_INDEX_PREFIX
     else range_index_key end_) <->
  exists key, k = range_index_key key /\ in_range start end_ key = true /\
    be64 <$> last_such (writes_point key) ds = Some v.
Proof using Hix.
  rewrite elem_of_iter_range.
  assert (in_range (range_index_key start) (if bytes_eqb end_ []
    then prefix_upper_bound SEQUENCER_RANGE_INDEX_PREFIX else range_index_key end_) k = true <->
    exists key, k = range_index_key key /\ in_range start end_ key = true) as ->.
  { unfold range_index_key, prefixed_key. destruct (bytes_eqb_spec end_ []) as [->|Hne].
    - rewrite in_range_prefix_from, andb_true_iff, starts_with_spec. unfold in_range.
      split.
      + intros [[key ->] Hle]. exists key. rewrite bytes_leb_app_r in Hle. by rewrite Hle.
      + intros (key & -> & Hle). rewrite andb_true_r in Hle. rewrite bytes_leb_app_r. by eauto.
    - rewrite in_range_spec. split.
      + intros [Hle [E|Hlt]]; [done|]. destruct (between_prefix _ _ _ _ Hle Hlt) as [key ->].
        exists key. split; [done|]. apply in_range_spec. unfold bytes_le, bytes_lt in *.
        rewrite bytes_leb_app_r in Hle. rewrite bytes_lt_app_r in Hlt. by auto.
      + intros (key & -> & [Hle [E|Hlt]]%in_range_spec); [done|]. unfold bytes_le, bytes_lt in *.
        rewrite bytes_leb_app_r, bytes_lt_app_r. by auto. }
  split.
  - intros [Hv (key & -> & Hk)]. exists key. split; [done|]. split; [done|].
    pose proof (ix_range _ _ _ Hix key) as Hr. unfold tx_get in Hr. by rewrite Hv in Hr.
  - intros (key & -> & Hk & Hv). split; [|by eauto].
    pose proof (ix_range _ _ _ Hix key) as Hr. unfold tx_get in Hr. by rewrite Hr.
Qed.

(** What an index query must answer about the keys of [P]. *)
Definition query_ok (start_ts : Z) (P : bytes -> Prop) (n : nat) (q : result SequencerRangeQuery)
    : Prop :=
  match q with
  | Ok Clear => forall dec k, dec ∈ ds -> start_ts < sd_commit_ts dec -> writes dec k -> ~ P k
  | Ok (Hit h) => wrote start_ts P (hit_commit_ts h)
  | Ok (Exceeded _) => (0 < n < length (all_mutations ds))%nat
  | Err _ => False
  end.

Lemma point_write_u64 key ts : last_such (writes_point key) ds = Some ts -> in_u64 ts.
Proof using Hu.
  intros (dec & Hd & _ & <-)%last_such_Some. rewrite Forall_forall in Hu. by apply Hu.
Qed.

Lemma point_wrote start_ts key ts (P : bytes -> Prop) :
  last_such (writes_point key) ds = Some ts -> start_ts < ts -> P key -> wrote start_ts P ts.
Proof.
  intros (dec & Hd & Hw & Ht)%last_such_Some Hs HP. exists dec, key. split; [done|]. split; [done|].
  split; [done|]. split; [|done]. apply writes_cases. by left.
Qed.

(** The rows of the ordered index decide about the point writes. *)
Lemma range_rows_spec start end_ start_ts rows :
  (forall k v, (k, v) ∈ rows <-> exists key, k = range_index_key key /\
     in_range start end_ key = true /\ (be64 <$> last_such (writes_point key) ds) = Some v) ->
  match foldl (range_row_hit start_ts) None rows with
  | Some h => wrote start_ts (fun k => in_range start end_ k = true) (hit_commit_ts h)
  | None => forall dec k, dec ∈ ds -> start_ts < sd_commit_ts dec -> writes_point k dec = true ->
      in_range start end_ k = false
  end.
Proof using Hsorted Hu.
  intros Hr.
  assert (forall key ts, last_such (writes_point key) ds = Some ts ->
    range_row (range_index_key key, be64 ts) = Some (key, ts)) as Hrow.
  { intros key ts Hl. unfold range_row, range_index_key, prefixed_key. cbn [fst snd].
    rewrite strip_prefix_app. cbn [mbind option_bind].
    by rewrite (decode_u64_be64 _ (point_write_u64 _ _ Hl)). }
  pose proof (range_fold start_ts rows None) as H. destruct (foldl _ None rows) as [h|].
  - destruct H as [?|([k v] & Hin & Hh & Hts)]; [done|].
    apply Hr in Hin as (key & -> & Hk & Hv). apply fmap_Some in Hv as (ts & Hl & ->).
    rewrite (Hrow _ _ Hl) in Hh. injection Hh as -> ->. by eapply point_wrote.
  - destruct H as [_ Hf]. intros dec k Hd Hts Hw. apply not_true_iff_false. intros Hk.
    destruct (last_such_after _ _ _ Hsorted Hd Hw) as (ts & Hl & Hle).
    rewrite Forall_forall in Hf. specialize (Hf (range_index_key k, be64 ts)).
    rewrite (Hrow _ _ Hl) in Hf. simpl in Hf.
    assert (ts <= start_ts); [|lia]. apply Hf. apply Hr. exists k. by rewrite Hl.
Qed.

Lemma range_row_mutation start end_ k v :
  (k, v) ∈ iter_range d TABLE_KV (range_index_key start)
    (if bytes_eqb end_ [] then prefix_upper_bound SEQUENCER_RANGE_INDEX_PREFIX
     else range_index_key end_) ->
  exists m, m ∈ all_mutations ds /\ mutation_index_key m = k.
Proof using Hix.
  intros (key & -> & _ & Hv)%range_index_scan. apply fmap_Some in Hv as (ts & Hl & _).
  apply last_such_Some in Hl as (dec & Hd & Hw & _).
  apply existsb_exists in Hw as (m & Hm%list_elem_of_In & Hk%bool_decide_eq_true).
  exists m. split; [by eapply elem_of_all_mutations|]. destruct m; simpl in *; by simplify_eq.
Qed.

Lemma interval_range_spec start end_ start_ts n :
  in_range start end_ start = true ->
  match sequencer_interval_range_in d start end_ start_ts n with
  | Ok Clear => forall dec s e k, dec ∈ ds -> start_ts < sd_commit_ts dec ->
      writes_interval s e dec = true -> in_range s e k = true -> in_range start end_ k <> true
  | Ok (Hit h) => wrote start_ts (fun k => in_range start end_ k = true) (hit_commit_ts h)
  | Ok (Exceeded _) => (0 < n < length (all_mutations ds))%nat
  | Err _ => False
  end.
Proof using Hix Hok Hsorted pli.
  intros Hne. unfold sequencer_interval_range_in.
  destruct (interval_rows_spec n) as [[-> ?]|(entries & -> & He)]; [done|].
  cbn [mbind result_bind].
  match goal with |- context [foldl (interval_hit _ ?covers)] =>
    pose proof (interval_fold_spec start_ts covers (fun k => in_range start end_ k = true) entries He)
      as H end.
  match type of H with ?c -> _ => assert c as Hc; [|specialize (H Hc); by destruct (foldl _ None entries)] end.
  intros s e ts Hse; cbn [iw_start iw_end].
  rewrite andb_true_iff, !eqb_nil_or. symmetry. apply intervals_overlap; [|done].
  apply in_range_spec. split; [reflexivity|by right].
Qed.

Lemma range_query_spec start end_ start_ts n :
  query_ok start_ts (fun k => in_range start end_ k = true) n
    (sequencer_range_query_in d start end_ start_ts n).
Proof using Hix Hok Hsorted Hu pli.
  unfold sequencer_range_query_in. destruct (negb _ && _) eqn:E.
  { apply andb_true_iff in E as [Hn Hle]. intros dec k _ _ _ [Hk Hk']%in_range_spec.
    destruct Hk' as [->|Hk']; [done|]. unfold bytes_leb in Hle. apply negb_true_iff in Hle.
    pose proof (bytes_le_lt_trans _ _ _ Hk Hk') as Hlt. unfold bytes_lt in Hlt. congruence. }
  assert (in_range start end_ start = true) as Hne.
  { apply in_range_spec. split; [reflexivity|]. unfold bytes_eqb in E.
    destruct (decide (end_ = [])) as [|Hd]; [by left|right]. unfold bytes_lt.
    rewrite bool_decide_eq_false_2 in E by done. unfold bytes_leb in E. simpl in E.
    by apply negb_false_iff in E. }
  match goal with |- context [iter_range_limited ?d ?t ?x ?z _] =>
    destruct (budget_scan (n := n) d t x z) as [Hb Hf] end.
  cbv zeta in *. destruct (over_budget n (iter_range_limited _ _ _ _ _)) eqn:Eb.
  { symmetry in Hb. apply over_budget_spec in Hb. simpl.
    pose proof (index_rows_bound _ (iter_range_sorted _ _ _ _) (range_row_mutation start end_)). lia. }
  rewrite Hf by done. pose proof (range_rows_spec start end_ start_ts _ (range_index_scan start end_)) as Hp.
  destruct (foldl (range_row_hit start_ts) None _) as [h|]; [done|].
  pose proof (interval_range_spec start end_ start_ts n Hne) as Hi.
  destruct (sequencer_interval_range_in _ _ _ _ _) as [[]|]; try done.
  intros dec k Hd Hts [Hw|(s & e & Hw & Hk)]%writes_cases; [by rewrite (Hp dec k Hd Hts Hw)|].
  by eapply Hi.
Qed.

(** ** Reads against the log *)

Abbreviation entries_ok entries := (forall entry, entry ∈ entries <->
  last_such (writes_interval (iw_start entry) (iw_end entry)) ds = Some (iw_commit_ts entry)).

Lemma point_conflict_spec entries txn key :
  entries_ok entries -> hashable U (b "key") [key] ->
  match point_conflict d entries txn key with
  | Some out => exists ts, out = Conflict (st_commit_ts txn) key ts /\
      wrote (st_start_ts txn) (eq key) ts
  | None => forall dec, dec ∈ ds -> st_start_ts txn < sd_commit_ts dec -> ~ writes dec key
  end.
Proof using Hix Hok Hsorted Hu.
  intros He Hk. pose proof (point_hit_spec (st_start_ts txn) key entries He) as Hi.
  unfold point_conflict, get_u64. rewrite (ix_point _ _ _ Hix key Hk).
  destruct (last_such (writes_point key) ds) as [ts|] eqn:El.
  - cbn [fmap option_fmap option_map mbind option_bind].
    rewrite (decode_u64_be64 _ (point_write_u64 _ _ El)).
    destruct (Z.ltb_spec (st_start_ts txn) ts).
    { exists ts. split; [done|]. by eapply point_wrote. }
    destruct (sequencer_interval_point_hit _ _ _) as [h|]; [by eauto|].
    intros dec Hd Hts [Hw|(s & e & Hw & Hin)]%writes_cases; [|by rewrite (Hi dec s e Hd Hts Hw) in Hin].
    destruct (last_such_after _ _ _ Hsorted Hd Hw) as (ts' & Hl & Hle). rewrite El in Hl.
    injection Hl as <-. lia.
  - cbn [fmap option_fmap option_map mbind option_bind].
    destruct (sequencer_interval_point_hit _ _ _) as [h|]; [by eauto|].
    intros dec Hd Hts [Hw|(s & e & Hw & Hin)]%writes_cases; [|by rewrite (Hi dec s e Hd Hts Hw) in Hin].
    destruct (last_such_after _ _ _ Hsorted Hd Hw) as (ts' & Hl & Hle). by rewrite El in Hl.
Qed.

Lemma wrote_mono start_ts (P Q : bytes -> Prop) ts :
  (forall k, P k -> Q k) -> wrote start_ts P ts -> wrote start_ts Q ts.
Proof. intros H (dec & k & ? & ? & ? & ? & ?). exists dec, k. split_and!; auto. Qed.

Lemma check_read_set_spec entries txn keys :
  entries_ok entries -> Forall (fun k => hashable U (b "key") [k]) keys ->
  match check_read_set d entries txn keys with
  | Some out => exists key ts, out = Conflict (st_commit_ts txn) key ts /\
      wrote (st_start_ts txn) (.∈ keys) ts
  | None => forall dec k, dec ∈ ds -> st_start_ts txn < sd_commit_ts dec -> writes dec k -> k ∉ keys
  end.
Proof using Hix Hok Hsorted Hu.
  intros He Hk. induction Hk as [|key keys Hkey Hk IH]; simpl.
  { intros. apply not_elem_of_nil. }
  pose proof (point_conflict_spec entries txn key He Hkey) as Hp.
  destruct (point_conflict _ _ _ _) as [out|].
  - destruct Hp as (ts & -> & Hw). exists key, ts. split; [done|].
    eapply wrote_mono; [|exact Hw]. intros k <-. by left.
  - destruct (check_read_set _ _ _ _) as [out|].
    + destruct IH as (key' & ts & -> & Hw). exists key', ts. split; [done|].
      eapply wrote_mono; [|exact Hw]. intros k Hin. by right.
    + intros dec k Hd Hts Hw. rewrite not_elem_of_cons. split; [|by eapply IH].
      intros ->. by eapply Hp.
Qed.

Lemma check_read_ranges_spec txn n ranges :
  match check_read_ranges d txn n ranges with
  | Ok (Some out) =>
      (exists key ts, out = Conflict (st_commit_ts txn) key ts /\
        wrote (st_start_ts txn)
          (fun k => exists r, r ∈ ranges /\ in_range (rr_start r) (rr_end r) k = true) ts) \/
      (out = Invalid (st_commit_ts txn) RangeScanExceeded /\
       (0 < n < length (all_mutations ds))%nat)
  | Ok None => forall dec k, dec ∈ ds -> st_start_ts txn < sd_commit_ts dec -> writes dec k ->
      ~ exists r, r ∈ ranges /\ in_range (rr_start r) (rr_end r) k = true
  | Err _ => False
  end.
Proof using Hix Hok Hsorted Hu pli.
  induction ranges as [|r ranges IH]; simpl.
  { by intros ? ? ? ? ? (r & ?%elem_of_nil & _). }
  pose proof (range_query_spec (rr_start r) (rr_end r) (st_start_ts txn) n) as Hq.
  destruct (sequencer_range_query_in _ _ _ _ _) as [[h| |m]|]; simpl in *; [| | |done].
  - left. eexists _, _. split; [done|]. eapply wrote_mono; [|exact Hq]. intros k Hk.
    exists r. split; [by left|done].
  - destruct (check_read_ranges _ _ _ _) as [[out|]|]; [| |done].
    + destruct IH as [(key & ts & -> & Hw)|?]; [left|by right]. exists key, ts. split; [done|].
      eapply wrote_mono; [|exact Hw]. intros k (r' & ? & ?). exists r'. split; [by right|done].
    + intros dec k Hd Hts Hw (r' & [->|Hr]%elem_of_cons & Hin); [by eapply Hq|].
      eapply IH; by eauto.
  - by right.
Qed.

End queries.
