(* ===== verification/SequencerValidate.v ===== *)
(** * Validation, recording, serializability

    A candidate that passes validation becomes the next decision of the log;
    the log, the idempotency rows and the indexes grow together.  Applying
    sequencer commands, one after the other, keeps the store a representation
    of a decision log; every answer is right for the log at its point; and the
    committed transactions are serializable in the order of their commit
    timestamps. *)

From S2P Require Export SequencerRefine.

Local Open Scope Z_scope.

(** The rows the sequencer writes. *)
Definition sequencer_prefixes : list bytes :=
  [SEQUENCER_DECISION_PREFIX; SEQUENCER_TXN_PREFIX; SEQUENCER_REQUEST_PREFIX;
   SEQUENCER_KEY_INDEX_PREFIX; SEQUENCER_RANGE_INDEX_PREFIX; SEQUENCER_INTERVAL_INDEX_PREFIX;
   SEQUENCER_INDEX_LAST_TS; SEQUENCER_LAST_COMMIT_TS].

Lemma last_snoc_ts ds dec : last_ts (ds ++ [dec]) = sd_commit_ts dec.
Proof. unfold last_ts. by rewrite last_snoc. Qed.

(** Every timestamp of the log is at most the last one. *)
Lemma last_ts_bound ds dec :
  StronglySorted (fun a a' => sd_commit_ts a < sd_commit_ts a') ds -> dec ∈ ds ->
  sd_commit_ts dec <= last_ts ds.
Proof.
  intros Hs. destruct ds as [|x ds _] using rev_ind; [by intros ?%elem_of_nil|].
  apply StronglySorted_app in Hs as (Hlt & _ & _). rewrite last_snoc_ts.
  intros [Hd| ->%list_elem_of_singleton]%elem_of_app; [|lia].
  apply Z.lt_le_incl, Hlt; [done|by left].
Qed.

Section validate.
Context {sha : Sha256} {pd : Postcard SequencerDecision} {pi : Postcard SequencerIntervalWrite}.
Context {pld : PostcardLaws SequencerDecision} {pli : PostcardLaws SequencerIntervalWrite}.
Context {U : bytes -> Prop} {cf : CollisionFree U}.

(** ** Rows of other prefixes *)

Lemma index_rows_frame d d' ds :
  agree index_prefixes d d' -> index_rows U d ds -> index_rows U d' ds.
Proof.
  intros Ha [H1 H2 H3]. split.
  - intros k Hh. etrans; [exact (Ha SEQUENCER_KEY_INDEX_PREFIX _ ltac:(left))|by apply H1].
  - intros k. etrans; [exact (Ha SEQUENCER_RANGE_INDEX_PREFIX _ ltac:(right; left))|by apply H2].
  - intros x v. rewrite (Ha SEQUENCER_INTERVAL_INDEX_PREFIX _ ltac:(right; right; left)). apply H3.
Qed.

Definition log_prefixes : list bytes :=
  [SEQUENCER_DECISION_PREFIX; SEQUENCER_TXN_PREFIX; SEQUENCER_REQUEST_PREFIX;
   SEQUENCER_LAST_COMMIT_TS].

Lemma log_rows_frame d d' ds : agree log_prefixes d d' -> log_rows U d ds -> log_rows U d' ds.
Proof.
  intros Ha [H1 H2 H2' H3 H4 H5 H6]. split; [done|done|done| | | |].
  - etrans; [exact (agree_key _ _ _ SEQUENCER_LAST_COMMIT_TS Ha ltac:(do 3 right; left))|done].
  - etrans; [exact (agree_iter_prefix _ _ _ SEQUENCER_DECISION_PREFIX Ha ltac:(left))|done].
  - intros id Hid. etrans; [exact (Ha SEQUENCER_TXN_PREFIX _ ltac:(right; left))|].
    exact (H5 id Hid).
  - intros id rq Hrq Hh. etrans; [exact (Ha SEQUENCER_REQUEST_PREFIX _ ltac:(right; right; left))|].
    exact (H6 id rq Hrq Hh).
Qed.

Lemma seq_rep_frame d d' ds : agree sequencer_prefixes d d' -> seq_rep U d ds -> seq_rep U d' ds.
Proof.
  intros Ha [H1 H2 H3]. split.
  - eapply log_rows_frame; [|done]. eapply agree_mono; [|done].
    unfold log_prefixes, sequencer_prefixes. set_solver.
  - eapply index_rows_frame; [|done]. eapply agree_mono; [|done].
    unfold index_prefixes, sequencer_prefixes. set_solver.
  - rewrite <-H3. unfold sequencer_index_last_ts, get_u64.
    rewrite (agree_key _ _ _ SEQUENCER_INDEX_LAST_TS Ha ltac:(do 6 right; left)). done.
Qed.

Lemma seq_rep_get_last d ds :
  log_rows U d ds -> sequencer_last_commit_ts d = last_ts ds.
Proof.
  intros [Hok _ _ Hl _ _ _]. unfold sequencer_last_commit_ts, get_u64, last_ts. rewrite Hl.
  destruct (last ds) as [dec|] eqn:E; [|done].
  cbn [fmap option_fmap option_map mbind option_bind].
  rewrite decode_u64_be64; [done|]. rewrite Forall_forall in Hok.
  apply last_Some_elem_of, Hok in E. apply E.
Qed.

(** ** Recording a decision *)

Lemma decision_bytes_encode dec : envelope_encode dec = Some (decision_bytes dec).
Proof using pld. unfold decision_bytes. by destruct (encode_total dec) as [x ->]. Qed.

(** The rows of an idempotency index after one more entry. *)
Lemma hashed_row_insert (p domain : bytes) (parts parts' : list bytes) v d (o : option bytes)
    (eqb : bool) :
  hashable U domain parts -> hashable U domain parts' -> length parts = length parts' ->
  (eqb = true <-> parts = parts') ->
  tx_get d TABLE_KV (p ++ sequencer_hash domain parts') = o ->
  tx_get (tx_insert TABLE_KV (p ++ sequencer_hash domain parts) v d) TABLE_KV
    (p ++ sequencer_hash domain parts') = if eqb then Some v else o.
Proof using cf.
  intros H H' Hl He Ho. destruct eqb.
  - rewrite (proj1 He eq_refl). apply tx_get_insert.
  - rewrite tx_get_insert_ne; [done|]. intros E. apply (f_equal snd) in E. cbn [snd] in E.
    apply app_inv_head in E. apply (sequencer_hash_inj (U := U)) in E; try done.
    by apply He in E.
Qed.

(** The decision row, the transaction row and the request row of [dec]. *)
Definition log_decision (dec : SequencerDecision) (d : db) : db :=
  let d := tx_insert TABLE_KV (encode_sequencer_decision_key (sd_commit_ts dec))
             (decision_bytes dec) d in
  let d := tx_insert TABLE_KV (txn_index_key (sd_txn_id dec)) (be64 (sd_commit_ts dec)) d in
  if bytes_eqb (sd_request_id dec) [] then d
  else tx_insert TABLE_KV (request_index_key (sd_txn_id dec) (sd_request_id dec))
         (be64 (sd_commit_ts dec)) d.

Lemma log_decision_touches dec d :
  touches [SEQUENCER_DECISION_PREFIX; SEQUENCER_TXN_PREFIX; SEQUENCER_REQUEST_PREFIX] d
    (log_decision dec d).
Proof.
  unfold log_decision.
  assert (touches [SEQUENCER_DECISION_PREFIX; SEQUENCER_TXN_PREFIX; SEQUENCER_REQUEST_PREFIX] d
    (tx_insert TABLE_KV (txn_index_key (sd_txn_id dec)) (be64 (sd_commit_ts dec))
      (tx_insert TABLE_KV (encode_sequencer_decision_key (sd_commit_ts dec))
             (decision_bytes dec) d))) as H.
  { etrans; apply touches_insert; [left|right; left]. }
  destruct (bytes_eqb _ _); [done|]. etrans; [exact H|]. apply touches_insert. do 2 right. left.
Qed.

Lemma log_decision_log dec ds d :
  log_rows U d ds -> decision_ok U dec -> last_ts ds < sd_commit_ts dec ->
  iter_prefix (log_decision dec d) TABLE_KV SEQUENCER_DECISION_PREFIX =
  keyed_row SEQUENCER_DECISION_PREFIX sd_commit_ts decision_bytes <$> (ds ++ [dec]).
Proof.
  intros Hr Hd Hlt.
  assert (iter_prefix (tx_insert TABLE_KV (encode_sequencer_decision_key (sd_commit_ts dec))
    (decision_bytes dec) d) TABLE_KV SEQUENCER_DECISION_PREFIX =
    keyed_row SEQUENCER_DECISION_PREFIX sd_commit_ts decision_bytes <$> (ds ++ [dec])) as H.
  { apply keyed_append; [|apply Hd| |apply Hr].
    - split; [|apply Hr]. eapply Forall_impl; [apply Hr|]. intros x Hx. apply Hx.
    - apply Forall_forall. intros x Hx. pose proof (last_ts_bound _ _ (lr_sorted _ _ _ Hr) Hx). lia. }
  unfold log_decision. rewrite <-H.
  assert (forall p x v d, diverge SEQUENCER_DECISION_PREFIX p = true ->
    iter_prefix (tx_insert TABLE_KV (p ++ x) v d) TABLE_KV SEQUENCER_DECISION_PREFIX =
    iter_prefix d TABLE_KV SEQUENCER_DECISION_PREFIX) as Hf.
  { intros p x v d0 Hp. apply (touches_iter_prefix [p]); [by apply touches_insert; left|].
    cbn [forallb]. by rewrite Hp. }
  destruct (bytes_eqb _ _).
  - exact (Hf SEQUENCER_TXN_PREFIX _ _ _ eq_refl).
  - etrans; [exact (Hf SEQUENCER_REQUEST_PREFIX _ _ _ eq_refl)|].
    exact (Hf SEQUENCER_TXN_PREFIX _ _ _ eq_refl).
Qed.

Lemma log_decision_txn dec ds d id :
  log_rows U d ds -> decision_ok U dec -> hashable U (b "txn") [id] ->
  tx_get (log_decision dec d) TABLE_KV (txn_index_key id) =
  be64 <$> last_such (fun dec => bytes_eqb (sd_txn_id dec) id) (ds ++ [dec]).
Proof using cf.
  intros Hr Hd Hid. rewrite last_such_snoc.
  assert (tx_get (tx_insert TABLE_KV (txn_index_key (sd_txn_id dec)) (be64 (sd_commit_ts dec))
    (tx_insert TABLE_KV (encode_sequencer_decision_key (sd_commit_ts dec)) (decision_bytes dec) d))
    TABLE_KV (txn_index_key id) = if bytes_eqb (sd_txn_id dec) id then Some (be64 (sd_commit_ts dec))
      else be64 <$> last_such (fun dec => bytes_eqb (sd_txn_id dec) id) ds) as H.
  { apply hashed_row_insert; [apply Hd|done|done| |].
    - destruct (bytes_eqb_spec (sd_txn_id dec) id); split; congruence.
    - etrans; [|exact (lr_txn _ _ _ Hr id Hid)]. exact (get_insert_diverge SEQUENCER_TXN_PREFIX SEQUENCER_DECISION_PREFIX
        _ _ _ _ eq_refl). }
  etrans; [|etrans; [exact H|by destruct (bytes_eqb _ _)]].
  unfold log_decision. destruct (bytes_eqb (sd_request_id dec) []); [done|].
  exact (get_insert_diverge SEQUENCER_TXN_PREFIX SEQUENCER_REQUEST_PREFIX _ _ _ _ eq_refl).
Qed.

Lemma log_decision_request dec ds d id rq :
  log_rows U d ds -> decision_ok U dec -> rq <> [] -> hashable U (b "req") [id; rq] ->
  tx_get (log_decision dec d) TABLE_KV (request_index_key id rq) =
  be64 <$> last_such (fun dec => bytes_eqb (sd_txn_id dec) id && bytes_eqb (sd_request_id dec) rq)
    (ds ++ [dec]).
Proof using cf.
  intros Hr Hd Hrq Hh. rewrite last_such_snoc.
  assert (tx_get (tx_insert TABLE_KV (txn_index_key (sd_txn_id dec)) (be64 (sd_commit_ts dec))
    (tx_insert TABLE_KV (encode_sequencer_decision_key (sd_commit_ts dec)) (decision_bytes dec) d))
    TABLE_KV (request_index_key id rq) = be64 <$> last_such (fun dec =>
      bytes_eqb (sd_txn_id dec) id && bytes_eqb (sd_request_id dec) rq) ds) as H.
  { etrans; [exact (get_insert_diverge SEQUENCER_REQUEST_PREFIX SEQUENCER_TXN_PREFIX _ _ _ _ eq_refl)|].
    etrans; [exact (get_insert_diverge SEQUENCER_REQUEST_PREFIX SEQUENCER_DECISION_PREFIX
      _ _ _ _ eq_refl)|]. exact (lr_request _ _ _ Hr id rq Hrq Hh). }
  unfold log_decision. destruct (bytes_eqb_spec (sd_request_id dec) []) as [E|E].
  - rewrite E. destruct (bytes_eqb_spec [] rq); [done|]. by rewrite andb_false_r.
  - etrans; [refine (hashed_row_insert _ (b "req") [sd_txn_id dec; sd_request_id dec] [id; rq] _ _ _
      (bytes_eqb (sd_txn_id dec) id && bytes_eqb (sd_request_id dec) rq) _ Hh eq_refl _ H)|].
    + by apply Hd.
    + rewrite andb_true_iff. destruct (bytes_eqb_spec (sd_txn_id dec) id),
        (bytes_eqb_spec (sd_request_id dec) rq); (split; [intros [? ?]; congruence|]);
        intros [= ? ?]; split; congruence.
    + by destruct (_ && _).
Qed.

Lemma record_decision_eq txn d :
  record_decision txn d =
  '(_, d) ← sequencer_index_writes_in_tx (decision_of txn) (log_decision (decision_of txn) d);
  Ok (tx_insert TABLE_KV SEQUENCER_LAST_COMMIT_TS (be64 (st_commit_ts txn))
       (tx_insert TABLE_KV SEQUENCER_INDEX_LAST_TS (be64 (st_commit_ts txn)) d)).
Proof using pld. unfold record_decision. by rewrite decision_bytes_encode. Qed.

Lemma log_rows_snoc dec ds d d' :
  log_rows U d ds -> decision_ok U dec -> last_ts ds < sd_commit_ts dec ->
  (forall dec', dec' ∈ ds -> sd_txn_id dec' <> sd_txn_id dec) ->
  touches (SEQUENCER_INDEX_LAST_TS :: SEQUENCER_LAST_COMMIT_TS :: index_prefixes)
    (log_decision dec d) d' ->
  tx_get d' TABLE_KV SEQUENCER_LAST_COMMIT_TS = Some (be64 (sd_commit_ts dec)) ->
  log_rows U d' (ds ++ [dec]).
Proof using cf.
  intros Hr Hd Hlt Hnew Ht Hl. split.
  - apply Forall_app. split; [apply Hr|by constructor].
  - apply StronglySorted_snoc; [apply Hr|]. apply Forall_forall. intros x Hx.
    pose proof (last_ts_bound _ _ (lr_sorted _ _ _ Hr) Hx). lia.
  - rewrite fmap_app. apply NoDup_app. split; [apply Hr|]. split; [|apply NoDup_singleton].
    intros id (dec' & -> & Hd')%list_elem_of_fmap E%list_elem_of_singleton. by eapply Hnew.
  - rewrite Hl. by rewrite last_snoc.
  - etrans; [exact (touches_iter_prefix _ _ _ SEQUENCER_DECISION_PREFIX Ht eq_refl)|].
    by apply log_decision_log.
  - intros id Hid. etrans; [exact (touches_get _ _ _ SEQUENCER_TXN_PREFIX _ Ht eq_refl)|].
    by apply log_decision_txn.
  - intros id rq Hrq Hh. etrans; [exact (touches_get _ _ _ SEQUENCER_REQUEST_PREFIX _ Ht eq_refl)|].
    exact (log_decision_request dec ds d id rq Hr Hd Hrq Hh).
Qed.

Lemma decision_ok_mutations ds : Forall (decision_ok U) ds -> mutations_ok (U := U) ds.
Proof. intros H. eapply Forall_impl; [exact H|]. intros dec Hd. apply Hd. Qed.

Lemma decision_ok_u64 ds :
  Forall (decision_ok U) ds -> Forall (fun dec => in_u64 (sd_commit_ts dec)) ds.
Proof. intros H. eapply Forall_impl; [exact H|]. intros dec Hd. apply Hd. Qed.

Lemma record_decision_rep txn ds d :
  seq_rep U d ds -> decision_ok U (decision_of txn) -> last_ts ds < st_commit_ts txn ->
  (forall dec, dec ∈ ds -> sd_txn_id dec <> st_txn_id txn) ->
  exists d', record_decision txn d = Ok d' /\ seq_rep U d' (ds ++ [decision_of txn]) /\
    touches sequencer_prefixes d d'.
Proof using pld pli cf.
  intros [Hl Hi _] Hd Hlt Hnew. rewrite record_decision_eq.
  pose proof (log_decision_touches (decision_of txn) d) as Ht1.
  destruct (sequencer_index_writes_rep (U := U) ds (decision_of txn) (log_decision (decision_of txn) d))
    as (d2 & -> & Hi2 & Ht2).
  { apply Forall_forall. intros x Hx. pose proof (last_ts_bound _ _ (lr_sorted _ _ _ Hl) Hx).
    split; [|simpl; lia]. pose proof (lr_ok _ _ _ Hl) as Hok. rewrite Forall_forall in Hok. by apply Hok. }
  { apply Hd. } { apply Hd. }
  { apply decision_ok_mutations, Forall_app. split; [apply Hl|by constructor]. }
  { eapply index_rows_frame; [|done]. by eapply touches_agree. }
  cbn [mbind result_bind]. eexists. split; [done|].
  assert (touches [SEQUENCER_INDEX_LAST_TS; SEQUENCER_LAST_COMMIT_TS] d2
    (tx_insert TABLE_KV SEQUENCER_LAST_COMMIT_TS (be64 (st_commit_ts txn))
       (tx_insert TABLE_KV SEQUENCER_INDEX_LAST_TS (be64 (st_commit_ts txn)) d2))) as Ht3.
  { etrans; apply touches_insert_key; [left|right; left]. }
  split; [split|].
  - eapply log_rows_snoc; [done|done|done|done| |apply tx_get_insert].
    etrans; eapply touches_mono; [|exact Ht2| |exact Ht3]; set_solver.
  - eapply index_rows_frame; [|done]. by eapply touches_agree.
  - rewrite last_snoc_ts. unfold sequencer_index_last_ts, get_u64.
    rewrite tx_get_insert_ne by discriminate. rewrite tx_get_insert. cbn [mbind option_bind].
    by rewrite decode_u64_be64 by apply Hd.
  - etrans; [eapply touches_mono; [|exact Ht1]|etrans; eapply touches_mono; [|exact Ht2| |exact Ht3]];
      set_solver.
Qed.

(** ** Validation *)

Lemma find_duplicate_spec txn ds d :
  log_rows U d ds -> txn_ok U txn ->
  match find_duplicate txn d with
  | Some ts => exists dec, dec ∈ ds /\ sd_txn_id dec = st_txn_id txn /\ sd_commit_ts dec = ts
  | None => forall dec, dec ∈ ds -> sd_txn_id dec <> st_txn_id txn
  end.
Proof.
  intros Hr (_ & _ & _ & Hid & Hrq & _). unfold find_duplicate, get_u64.
  assert (forall p ts, last_such p ds = Some ts -> in_u64 ts) as Hu.
  { intros p ts (dec & Hd & _ & <-)%last_such_Some. pose proof (lr_ok _ _ _ Hr) as Hok.
    rewrite Forall_forall in Hok. by apply Hok. }
  rewrite (lr_txn _ _ _ Hr _ Hid).
  destruct (last_such (fun dec => bytes_eqb (sd_txn_id dec) (st_txn_id txn)) ds) as [ts|] eqn:E;
    cbn [fmap option_fmap option_map mbind option_bind].
  { rewrite decode_u64_be64 by eauto. apply last_such_Some in E as (dec & Hd & He & <-).
    destruct (bytes_eqb_spec (sd_txn_id dec) (st_txn_id txn)); [by exists dec|done]. }
  assert (forall dec, dec ∈ ds -> sd_txn_id dec <> st_txn_id txn) as Hno.
  { intros dec Hd Heq. destruct (last_such_after (fun dec => bytes_eqb (sd_txn_id dec) (st_txn_id txn))
      ds dec (lr_sorted _ _ _ Hr) Hd) as (ts & Hts & _); [|congruence].
    rewrite Heq. by destruct (bytes_eqb_spec (st_txn_id txn) (st_txn_id txn)). }
  destruct (bytes_eqb_spec (st_request_id txn) []) as [|Hne]; [done|].
  rewrite (lr_request _ _ _ Hr _ _ Hne (Hrq Hne)), last_such_None; [done|].
  intros dec Hd. destruct (bytes_eqb_spec (sd_txn_id dec) (st_txn_id txn)); [|done].
  by apply Hno in Hd.
Qed.

Lemma range_budget_exceeded limits n :
  (0 < range_budget limits < n)%nat ->
  exists l, limits = Some l /\ 0 < max_range l < Z.of_nat n.
Proof. destruct limits as [l|]; simpl; [|lia]. exists l. split; [done|]. lia. Qed.

Lemma read_set_too_large_spec txn ranges limits :
  read_set_too_large txn ranges limits = true -> exists l, limits = Some l /\
    0 < max_read_set l < Z.of_nat (length (st_read_set txn) + length ranges).
Proof.
  destruct limits as [l|]; simpl; [|done]. rewrite andb_true_iff, !Z.ltb_lt. by exists l.
Qed.

(** The log after an answer. *)
Definition log_after (ds : list SequencerDecision) (txn : SequencerTxn) (out : SequencerOutcome)
    : list SequencerDecision :=
  match out with
  | Committed _ => ds ++ [decision_of txn]
  | _ => ds
  end.

(** The reads of a candidate, checked against the indexes. *)
Definition check_reads (txn : SequencerTxn) (ranges : list SequencerReadRange) (budget : nat) (d : db)
    : result (option SequencerOutcome) :=
  entries ← interval_entries txn budget d;
  match entries with
  | None => Ok (Some (Invalid (st_commit_ts txn) RangeScanExceeded))
  | Some entries =>
    match check_read_set d entries txn (st_read_set txn) with
    | Some out => Ok (Some out)
    | None => check_read_ranges d txn budget ranges
    end
  end.

Lemma interval_entries_spec txn ds d n :
  seq_rep U d ds -> txn_ok U txn ->
  (interval_entries txn n d = Ok None /\ (0 < n < length (all_mutations ds))%nat) \/
  exists entries, interval_entries txn n d = Ok (Some entries) /\
    match check_read_set d entries txn (st_read_set txn) with
    | Some out => exists key ts, out = Conflict (st_commit_ts txn) key ts /\
        wrote ds (st_start_ts txn) (.∈ st_read_set txn) ts
    | None => forall dec k, dec ∈ ds -> st_start_ts txn < sd_commit_ts dec -> writes dec k ->
        k ∉ st_read_set txn
    end.
Proof using pli.
  intros [Hl Hi _] (_ & _ & Hk & _). unfold interval_entries.
  destruct (st_read_set txn) as [|key keys] eqn:E.
  { right. exists []. split; [done|]. simpl. intros. apply not_elem_of_nil. }
  destruct (interval_rows_spec d ds Hi n) as [?|(entries & -> & He)]; [by left|right].
  exists entries. split; [done|]. rewrite <-E in *. apply (check_read_set_spec (U := U)); try done.
  - apply decision_ok_mutations, Hl.
  - apply Hl.
  - apply decision_ok_u64, Hl.
Qed.

Lemma check_reads_spec txn ranges limits ds d :
  seq_rep U d ds -> txn_ok U txn ->
  match check_reads txn ranges (range_budget limits) d with
  | Ok (Some out) => outcome_ok ds txn ranges limits out /\ log_after ds txn out = ds
  | Ok None => forall dec k, dec ∈ ds -> st_start_ts txn < sd_commit_ts dec -> writes dec k ->
      ~ reads txn ranges k
  | Err _ => False
  end.
Proof using pli.
  intros Hs Ht. unfold check_reads.
  destruct (interval_entries_spec txn ds d (range_budget limits) Hs Ht)
    as [[-> Hb]|(entries & -> & Hp)]; cbn [mbind result_bind].
  { split; [|done]. by apply range_budget_exceeded. }
  destruct (check_read_set _ _ _ _) as [out|].
  { destruct Hp as (key & ts & -> & (dec & k & ? & ? & ? & ? & ?)). split; [|done]. split; [done|].
    exists dec, k. split_and!; try done. by left. }
  pose proof (check_read_ranges_spec (U := U) d ds (sr_index _ _ _ Hs)
    (decision_ok_mutations _ (lr_ok _ _ _ (sr_log _ _ _ Hs))) (lr_sorted _ _ _ (sr_log _ _ _ Hs))
    (decision_ok_u64 _ (lr_ok _ _ _ (sr_log _ _ _ Hs))) txn (range_budget limits) ranges) as Hr.
  destruct (check_read_ranges _ _ _ _) as [[out|]|]; [| |done].
  - destruct Hr as [(key & ts & -> & (dec & k & ? & ? & ? & ? & ?))|[-> Hb]]; (split; [|done]).
    + split; [done|]. exists dec, k. split_and!; try done. by right.
    + by apply range_budget_exceeded.
  - intros dec k Hd Hlt Hw [Hin|Hin]; [by eapply Hp|by eapply Hr].
Qed.

(** The tail of validation: check the reads, then record. *)
Lemma validate_tail txn ranges limits ds d :
  seq_rep U d ds -> txn_ok U txn -> st_txn_id txn <> [] -> st_start_ts txn < st_commit_ts txn ->
  last_ts ds < st_commit_ts txn -> (forall dec, dec ∈ ds -> sd_txn_id dec <> st_txn_id txn) ->
  exists out d',
    (refused ← check_reads txn ranges (range_budget limits) d;
     match refused with
     | Some out => Ok (out, d)
     | None => d ← record_decision txn d; Ok (Committed (st_commit_ts txn), d)
     end) = Ok (out, d') /\
    outcome_ok ds txn ranges limits out /\ seq_rep U d' (log_after ds txn out) /\
    touches sequencer_prefixes d d' /\ (log_after ds txn out = ds -> d' = d).
Proof using pld pli cf.
  intros Hs Ht Hid Hst Hlast Hnew. pose proof (check_reads_spec txn ranges limits ds d Hs Ht) as Hc.
  destruct (check_reads _ _ _ _) as [[out|]|]; [| |done]; cbn [mbind result_bind].
  { destruct Hc as [Ho El]. exists out, d. rewrite El. done. }
  destruct (record_decision_rep txn ds d) as (d' & -> & Hs' & Ht'); [done| |done|done|].
  { destruct Ht as (H1 & H2 & H3 & H4 & H5 & H6). split; [simpl; lia|done]. }
  eexists _, _. split; [done|]. split_and!; [done..|].
  simpl. intros E. apply (f_equal length) in E. rewrite length_app in E. simpl in E. lia.
Qed.

(** Validation is exact.  A candidate always gets an answer, and the
    answer says what is true of the decision log: [Committed] when the
    transaction is new, its timestamp is above its snapshot and above every
    decision, and nothing it read (keys and ranges) was written after its
    snapshot; [Conflict] when a decision after its snapshot wrote something it
    read; and so on for the other answers.  Only a commit changes the store: it
    appends the decision to the log, with all indexes. *)
Lemma validate_rep txn ranges limits ds d :
  seq_rep U d ds -> txn_ok U txn ->
  exists out d', sequencer_validate_in_tx txn ranges limits d = Ok (out, d') /\
    outcome_ok ds txn ranges limits out /\ seq_rep U d' (log_after ds txn out) /\
    touches sequencer_prefixes d d' /\ (log_after ds txn out = ds -> d' = d).
Proof using pld pli cf.
  intros Hs Ht. unfold sequencer_validate_in_tx.
  destruct (bytes_eqb_spec (st_txn_id txn) []) as [E|E]; [by eexists _, d|].
  pose proof (find_duplicate_spec txn ds d (sr_log _ _ _ Hs) Ht) as Hf.
  destruct (find_duplicate txn d) as [ts|]; [by eexists _, d|].
  destruct (Z.leb_spec (st_commit_ts txn) (st_start_ts txn)); [by eexists _, d|].
  fold (sequencer_last_commit_ts d). rewrite (seq_rep_get_last d ds (sr_log _ _ _ Hs)).
  destruct (Z.leb_spec (st_commit_ts txn) (last_ts ds)); [by eexists _, d|].
  destruct (read_set_too_large txn ranges limits) eqn:El.
  { eexists _, d. split; [done|]. split; [by apply read_set_too_large_spec|done]. }
  destruct (validate_tail txn ranges limits ds d) as (out & d' & Hv & H'); [done..|].
  exists out, d'. split; [|done]. rewrite <-Hv. unfold check_reads.
  destruct (interval_entries _ _ _) as [[entries|]|]; try done. cbn [mbind result_bind].
  by destruct (check_read_set _ _ _ _).
Qed.

End validate.

(** ** Serializability *)

(** Two logs, of which the second continues the first. *)
Lemma sorted_log_split ds1 dec ds2 dec' :
  StronglySorted (fun a a' => sd_commit_ts a < sd_commit_ts a') (ds1 ++ dec :: ds2) ->
  dec' ∈ ds1 ++ dec :: ds2 -> sd_commit_ts dec' < sd_commit_ts dec -> dec' ∈ ds1.
Proof.
  intros Hs [Hd|[->|Hd]%elem_of_cons]%elem_of_app Hlt; [done|lia|].
  apply StronglySorted_app in Hs as (_ & _ & Hs). apply StronglySorted_inv in Hs as [_ Hf].
  rewrite Forall_forall in Hf. specialize (Hf _ Hd). simpl in Hf. lia.
Qed.

Section serial.
Context {sha : Sha256} {pd : Postcard SequencerDecision} {pi : Postcard SequencerIntervalWrite}.
Context {pld : PostcardLaws SequencerDecision} {pli : PostcardLaws SequencerIntervalWrite}.
Context {U : bytes -> Prop} {cf : CollisionFree U}.

(** ** A command *)

(** The answers to the candidates of one command, in order, each against the
    log its predecessors left. *)
Inductive validated (limits : option SequencerValidationLimits) :
    list SequencerDecision -> list SequencerTxnWithRanges -> list SequencerOutcome ->
    list SequencerDecision -> Prop :=
  | validated_nil ds : validated limits ds [] [] ds
  | validated_cons ds t ts out outs ds' :
      outcome_ok ds (tr_txn t) (tr_read_ranges t) limits out ->
      validated limits (log_after ds (tr_txn t) out) ts outs ds' ->
      validated limits ds (t :: ts) (out :: outs) ds'.

Lemma log_after_prefix ds txn out : ds `prefix_of` log_after ds txn out.
Proof. destruct out; simpl; by eexists + (exists []; by rewrite app_nil_r). Qed.

Lemma validated_prefix limits ds ts outs ds' : validated limits ds ts outs ds' -> ds `prefix_of` ds'.
Proof. induction 1; [done|]. etrans; [apply log_after_prefix|done]. Qed.

Lemma validated_length limits ds ts outs ds' :
  validated limits ds ts outs ds' -> length outs = length ts.
Proof. induction 1; simpl; by f_equal. Qed.

Lemma validate_batch_rep limits ts ds d :
  seq_rep U d ds -> Forall (fun t => txn_ok U (tr_txn t)) ts ->
  exists outs d' ds', validate_batch limits ts d = Ok (outs, d') /\
    validated limits ds ts outs ds' /\ seq_rep U d' ds' /\ touches sequencer_prefixes d d'.
Proof using pld pli cf.
  intros Hs Hok. revert ds d Hs. induction Hok as [|t ts Ht Hok IH]; intros ds d Hs; simpl.
  { exists [], d, ds. split_and!; [done|constructor|done|done]. }
  destruct (validate_rep (tr_txn t) (tr_read_ranges t) limits ds d Hs Ht)
    as (out & d1 & -> & Ho & Hs1 & Ht1 & _). cbn [mbind result_bind].
  destruct (IH _ _ Hs1) as (outs & d2 & ds2 & -> & Hv & Hs2 & Ht2). cbn [mbind result_bind].
  exists (out :: outs), d2, ds2. split_and!; [done|by econstructor|done|by etrans].
Qed.

Lemma note_log_index_kv s d rev : same_table TABLE_KV (note_log_index_revision s d rev) d.
Proof.
  unfold note_log_index_revision, set_current_revision. destruct (decide _); [|done].
  destruct (_ <? _); [|done]. frame.
Qed.

Lemma apply_op_rep s op rev a ds d :
  seq_rep U d ds -> Forall (fun t => txn_ok U (tr_txn t)) (op_txns op) ->
  exists outs d' ds', apply_sequencer_op s d op rev a = (Ok outs, d') /\
    validated (op_limits op) ds (op_txns op) outs ds' /\ seq_rep U d' ds' /\
    tx_get d' TABLE_META META_LAST_APPLIED = Some (applied_to_bytes a) /\
    forall k, Forall (fun p => starts_with k p = false) sequencer_prefixes ->
      tx_get d' TABLE_KV k = tx_get d TABLE_KV k.
Proof using pld pli cf.
  intros Hs Hok. unfold apply_sequencer_op, backend_write.
  pose proof (note_log_index_kv s d rev) as Hn.
  destruct (validate_batch_rep (op_limits op) (op_txns op) ds (note_log_index_revision s d rev))
    as (outs & d1 & ds1 & -> & Hv & Hs1 & Ht); [|done|].
  { eapply seq_rep_frame; [|done]. by apply same_table_agree. }
  cbn [mbind result_bind]. exists outs, (insert_last_applied a d1), ds1. split_and!; [done|done| | |].
  - eapply seq_rep_frame; [|done]. apply same_table_agree. unfold insert_last_applied. frame.
  - apply tx_get_insert.
  - intros k Hk. unfold insert_last_applied. rewrite tx_get_insert_ne by congruence.
    rewrite Ht by (by right). apply Hn.
Qed.

(** ** Many commands *)

Record command := { cmd_op : SequencerOp; cmd_rev : Z; cmd_applied : AppliedLogId }.

(** Applying commands in the order of the Raft log. *)
Fixpoint apply_commands (s : MvccStorage) (d : db) (cs : list command)
    : list (result (list SequencerOutcome)) * db :=
  match cs with
  | [] => ([], d)
  | c :: cs =>
    let '(r, d) := apply_sequencer_op s d (cmd_op c) (cmd_rev c) (cmd_applied c) in
    let '(rs, d) := apply_commands s d cs in
    (r :: rs, d)
  end.

(** A candidate and its answer. *)
Definition answered (cs : list command) (rs : list (result (list SequencerOutcome)))
    (t : SequencerTxnWithRanges) (out : SequencerOutcome) : Prop :=
  exists i j c outs, cs !! i = Some c /\ rs !! i = Some (Ok outs) /\
    op_txns (cmd_op c) !! j = Some t /\ outs !! j = Some out.

(** The candidate's answer is right at its point of the log. *)
Definition answered_in (ds' : list SequencerDecision) (limits : option SequencerValidationLimits)
    (t : SequencerTxnWithRanges) (out : SequencerOutcome) : Prop :=
  exists ds, outcome_ok ds (tr_txn t) (tr_read_ranges t) limits out /\
    log_after ds (tr_txn t) out `prefix_of` ds'.

Lemma validated_answers limits ds ts outs ds' j t out :
  validated limits ds ts outs ds' -> ts !! j = Some t -> outs !! j = Some out ->
  answered_in ds' limits t out.
Proof.
  intros Hv. revert j. induction Hv as [|ds t' ts out' outs ds' Ho Hv IH]; intros j; [done|].
  destruct j as [|j]; [|apply IH]. intros [= ->] [= ->]. exists ds. split; [done|].
  by eapply validated_prefix.
Qed.

Lemma apply_commands_rep s cs ds d :
  seq_rep U d ds -> Forall (fun c => Forall (fun t => txn_ok U (tr_txn t)) (op_txns (cmd_op c))) cs ->
  exists ds', seq_rep U (apply_commands s d cs).2 ds' /\ ds `prefix_of` ds' /\
    Forall2 (fun c r => exists outs, r = Ok outs /\ length outs = length (op_txns (cmd_op c)) /\
      forall j t out, op_txns (cmd_op c) !! j = Some t -> outs !! j = Some out ->
        answered_in ds' (op_limits (cmd_op c)) t out) cs (apply_commands s d cs).1.
Proof using pld pli cf.
  intros Hs Hok. revert ds d Hs. induction Hok as [|c cs Hc Hok IH]; intros ds d Hs; simpl.
  { exists ds. split_and!; [done|done|constructor]. }
  destruct (apply_op_rep s (cmd_op c) (cmd_rev c) (cmd_applied c) ds d Hs Hc)
    as (outs & d1 & ds1 & -> & Hv & Hs1 & _ & _).
  destruct (IH ds1 d1 Hs1) as (ds2 & Hs2 & Hp & Hf).
  destruct (apply_commands s d1 cs) as [rs d2]. simpl in *. exists ds2. split; [done|].
  split; [etrans; [by eapply validated_prefix|done]|]. constructor; [|done].
  exists outs. split; [done|]. split; [by eapply validated_length|].
  intros j t out Hj Ho. destruct (validated_answers _ _ _ _ _ _ _ _ Hv Hj Ho) as (ds0 & ? & ?).
  exists ds0. split; [done|]. by etrans.
Qed.

(** C30: validation is exact.  Applying one command always succeeds.  Each
    candidate is answered, in order, against the decision log its predecessors
    left, and the answer says what is true of that log: [Committed] when the
    transaction is new, its timestamp is above its snapshot and above every
    decision, and no decision after its snapshot wrote anything it read (keys
    or ranges); [Conflict] when a decision after its snapshot did; and so on
    for the other answers.  Exactly the committed candidates are appended to
    the log, with all index rows; other rows of the key table are untouched. *)
Theorem apply_sequencer_op_exact s op rev a ds d :
  seq_rep U d ds -> Forall (fun t => txn_ok U (tr_txn t)) (op_txns op) ->
  exists outs d' ds', apply_sequencer_op s d op rev a = (Ok outs, d') /\
    validated (op_limits op) ds (op_txns op) outs ds' /\ seq_rep U d' ds' /\
    tx_get d' TABLE_META META_LAST_APPLIED = Some (applied_to_bytes a) /\
    forall k, Forall (fun p => starts_with k p = false) sequencer_prefixes ->
      tx_get d' TABLE_KV k = tx_get d TABLE_KV k.
Proof using pld pli cf. apply apply_op_rep. Qed.

(** C3: committed transactions are serializable.  Apply any commands, in any
    number: in the final log, and whatever is committed later, every committed
    transaction finds each key it read (points and ranges) just before its
    commit timestamp as it was at its snapshot.  Executing the transactions one
    at a time in the order of their commit timestamps therefore shows every
    one of them the values it did read. *)
Theorem sequencer_serializable s cs ds d :
  seq_rep U d ds -> Forall (fun c => Forall (fun t => txn_ok U (tr_txn t)) (op_txns (cmd_op c))) cs ->
  exists ds', seq_rep U (apply_commands s d cs).2 ds' /\ ds `prefix_of` ds' /\
    forall t ts, answered cs (apply_commands s d cs).1 t (Committed ts) ->
      decision_of (tr_txn t) ∈ ds' /\ ts = st_commit_ts (tr_txn t) /\
      forall k, reads (tr_txn t) (tr_read_ranges t) k ->
        decided_value ds' k (st_start_ts (tr_txn t)) = decided_value ds' k (ts - 1).
Proof using pld pli cf.
  intros Hs Hok. destruct (apply_commands_rep s cs ds d Hs Hok) as (ds' & Hs' & Hp & Hf).
  exists ds'. split; [done|]. split; [done|]. intros t ts (i & j & c & outs & Hc & Hr & Ht & Ho).
  destruct (Forall2_lookup_lr _ _ _ _ _ _ Hf Hc Hr) as (outs' & [= <-] & _ & Ha).
  destruct (Ha _ _ _ Ht Ho) as (ds0 & (-> & _ & Hlt & _ & _ & Hread) & [ds1 E]). simpl in E.
  rewrite <-app_assoc in E. simpl in E. subst ds'. split; [apply elem_of_app; right; by left|].
  split; [done|]. intros k Hk. apply decided_value_quiet; [lia|]. intros dec Hd Hts Hw.
  apply (Hread dec k); [|lia|done|done].
  eapply sorted_log_split; [exact (lr_sorted _ _ _ (sr_log _ _ _ Hs'))|done|simpl; lia].
Qed.

(** C38: a transaction commits at most once.  Once a decision for a
    transaction is in the log, every later candidate with its id is answered
    [Duplicate] with the commit timestamp of that decision, whatever else the
    candidate contains, and changes nothing. *)
Theorem sequencer_exactly_once txn ranges limits ds d dec :
  seq_rep U d ds -> txn_ok U txn -> st_txn_id txn <> [] ->
  dec ∈ ds -> sd_txn_id dec = st_txn_id txn ->
  sequencer_validate_in_tx txn ranges limits d = Ok (Duplicate (sd_commit_ts dec), d).
Proof.
  intros Hs Ht Hid Hd He. unfold sequencer_validate_in_tx.
  destruct (bytes_eqb_spec (st_txn_id txn) []) as [|_]; [done|].
  pose proof (find_duplicate_spec txn ds d (sr_log _ _ _ Hs) Ht) as Hf.
  destruct (find_duplicate txn d) as [ts|]; [|by destruct (Hf dec)].
  destruct Hf as (dec' & Hd' & He' & <-).
  by rewrite (NoDup_fmap_inj_elem sd_txn_id ds dec' dec (lr_unique _ _ _ (sr_log _ _ _ Hs)) Hd' Hd) by congruence.
Qed.

End serial.
