(* ===== verification/SequencerRebuild.v ===== *)
(** * Rebuilding the validation index

    The indexes are a function of the decision log: catching up from any
    point, or rebuilding from nothing, restores exactly the rows that were
    maintained while the log grew. *)

From S2P Require Export SequencerValidate MvccCompact.

Local Open Scope Z_scope.

Section rebuild.
Context {sha : Sha256} {pd : Postcard SequencerDecision} {pi : Postcard SequencerIntervalWrite}.
Context {pld : PostcardLaws SequencerDecision} {pli : PostcardLaws SequencerIntervalWrite}.
Context {U : bytes -> Prop} {cf : CollisionFree U}.

Abbreviation decision_row := (keyed_row SEQUENCER_DECISION_PREFIX sd_commit_ts decision_bytes).

(** ** Reading the log *)

Lemma decision_of_row_ok dec :
  in_u64 (sd_commit_ts dec) -> decision_of_row (decision_row dec) = Ok dec.
Proof using pld.
  intros Hu. unfold decision_of_row, keyed_row. cbn [fst snd].
  rewrite strip_prefix_app. cbn [mbind option_bind]. rewrite decode_u64_be64 by done.
  cbn [ok_or mbind result_bind].
  rewrite (decode_ok_encode dec) by apply decision_bytes_encode. cbn [ok_or mbind result_bind].
  by rewrite Z.eqb_refl.
Qed.

Lemma decisions_of_rows_ok ds :
  Forall (fun dec => in_u64 (sd_commit_ts dec)) ds -> decisions_of_rows (decision_row <$> ds) = Ok ds.
Proof using pld.
  induction 1 as [|dec ds Hd _ IH]; [done|]. rewrite fmap_cons. cbn [decisions_of_rows].
  rewrite decision_of_row_ok by done. cbn [mbind result_bind]. rewrite IH. done.
Qed.

Lemma log_keyed_ok d ds : log_rows U d ds -> keyed_ok sd_commit_ts ds.
Proof. intros Hl. split; [by eapply decision_ok_u64, Hl|apply Hl]. Qed.

Lemma decision_rows_after_spec d ds after n :
  log_rows U d ds -> in_u64 (after + 1) -> 0 <= after -> (0 < n)%nat ->
  decision_rows_after d after n =
  decision_row <$> take n (List.filter (fun dec => after <? sd_commit_ts dec) ds).
Proof.
  intros Hl Hu Ha Hn. unfold decision_rows_after. rewrite iter_range_limited_take by lia.
  replace (u64_saturating_add after 1) with (after + 1)
    by (unfold u64_saturating_add, in_u64, u64_max in *; lia).
  unfold encode_sequencer_decision_key.
  rewrite (keyed_range _ _ sd_commit_ts decision_bytes d ds); [|done|by eapply log_keyed_ok|apply Hl].
  rewrite fmap_take. do 2 f_equal. apply List.filter_ext. intros dec.
  apply eq_true_iff_eq. rewrite Z.leb_le, Z.ltb_lt. lia.
Qed.

(** Reading the log by pages returns the decisions after a timestamp, in
    order. *)
Lemma sequencer_decisions_after_rep d ds after n :
  log_rows U d ds -> in_u64 (after + 1) -> 0 <= after ->
  sequencer_decisions_after d after n =
  Ok (take (Nat.max n 1) (List.filter (fun dec => after <? sd_commit_ts dec) ds)).
Proof using pld.
  intros Hl Hu Ha. unfold sequencer_decisions_after.
  rewrite (decision_rows_after_spec d ds) by (done || lia). apply decisions_of_rows_ok.
  apply Forall_take, Forall_forall. intros dec [_ Hd]%elem_of_List_filter.
  pose proof (log_keyed_ok d ds Hl) as [Hk _]. rewrite Forall_forall in Hk. by apply Hk.
Qed.

(** ** Catching up *)

Lemma last_ts_nonneg ds : Forall (decision_ok U) ds -> 0 <= last_ts ds.
Proof.
  intros H. unfold last_ts. destruct (last ds) as [dec|] eqn:E; simpl; [|lia].
  apply last_Some_elem_of in E. rewrite Forall_forall in H. destruct (H _ E). lia.
Qed.

(** The decisions after the marker are those not indexed yet. *)
Lemma filter_after ds0 ds1 :
  StronglySorted (fun a a' => sd_commit_ts a < sd_commit_ts a') (ds0 ++ ds1) ->
  Forall (decision_ok U) (ds0 ++ ds1) ->
  List.filter (fun dec => last_ts ds0 <? sd_commit_ts dec) (ds0 ++ ds1) = ds1.
Proof.
  intros Hs Hok. apply StronglySorted_app in Hs as (Hlt & Hs0 & _). rewrite List.filter_app.
  rewrite (filter_none _ ds0), (filter_all _ ds1); [done| |].
  - intros dec Hd. apply Z.ltb_lt. unfold last_ts. destruct (last ds0) as [dec0|] eqn:E; simpl.
    + apply Hlt; [by apply last_Some_elem_of in E|done].
    + apply Forall_app in Hok as [_ Hok]. rewrite Forall_forall in Hok. by apply Hok.
  - intros dec Hd. apply Z.ltb_ge. by apply last_ts_bound.
Qed.

(** One batch of rows. *)
Lemma catch_up_rows_rep batch ds0 keys ts d :
  Forall (decision_ok U) (ds0 ++ batch) ->
  StronglySorted (fun a a' => sd_commit_ts a < sd_commit_ts a') (ds0 ++ batch) ->
  index_rows U d ds0 ->
  exists d', catch_up_rows (decision_row <$> batch) keys ts d =
      Ok ((keys + Z.of_nat (length (all_mutations batch)),
           default ts (sd_commit_ts <$> last batch)), d') /\
    index_rows U d' (ds0 ++ batch) /\ touches index_prefixes d d'.
Proof using pld pli cf.
  revert ds0 keys ts d. induction batch as [|dec batch IH]; intros ds0 keys ts d Hok Hs Hi; simpl.
  { exists d. unfold all_mutations. simpl. by rewrite Z.add_0_r, app_nil_r. }
  pose proof Hok as Hok'. apply Forall_app in Hok' as [Hok0 [Hd _]%Forall_cons].
  pose proof Hs as Hs'. apply StronglySorted_app in Hs' as (Hlt & _ & _).
  rewrite decision_of_row_ok by apply Hd. cbn [mbind result_bind].
  replace (ds0 ++ dec :: batch) with ((ds0 ++ [dec]) ++ batch) in * by by rewrite <-app_assoc.
  destruct (sequencer_index_writes_rep (U := U) ds0 dec d) as (d1 & -> & Hi1 & Ht1).
  { apply Forall_forall. intros x Hx. rewrite Forall_forall in Hok0. split; [by apply Hok0|].
    apply Hlt; [done|by left]. }
  { apply Hd. } { apply Hd. }
  { apply decision_ok_mutations. by apply Forall_app in Hok as [? _]. }
  { done. }
  cbn [mbind result_bind].
  destruct (IH (ds0 ++ [dec]) (keys + Z.of_nat (length (sd_mutations dec))) (sd_commit_ts dec) d1)
    as (d2 & E & Hi2 & Ht2); [done|done|done|].
  exists d2. split; [|split; [done|by etrans]]. etrans; [exact E|]. do 3 f_equal.
  - unfold all_mutations. rewrite fmap_cons. cbn [concat]. rewrite length_app. lia.
  - rewrite last_cons. by destruct (last batch).
Qed.

Lemma catch_up_batch_rep batch ds0 d :
  Forall (decision_ok U) (ds0 ++ batch) ->
  StronglySorted (fun a a' => sd_commit_ts a < sd_commit_ts a') (ds0 ++ batch) -> batch <> [] ->
  index_rows U d ds0 -> sequencer_index_last_ts d = last_ts ds0 ->
  exists d', catch_up_batch (decision_row <$> batch) (last_ts ds0) d =
      (Ok (Z.of_nat (length (all_mutations batch)), last_ts (ds0 ++ batch)), d') /\
    index_rows U d' (ds0 ++ batch) /\ sequencer_index_last_ts d' = last_ts (ds0 ++ batch) /\
    touches (SEQUENCER_INDEX_LAST_TS :: index_prefixes) d d'.
Proof using pld pli cf.
  intros Hok Hs Hne Hi Hm. unfold catch_up_batch, backend_write.
  destruct (catch_up_rows_rep batch ds0 0 (last_ts ds0) d Hok Hs Hi) as (d1 & -> & Hi1 & Ht1).
  assert (default (last_ts ds0) (sd_commit_ts <$> last batch) = last_ts (ds0 ++ batch)) as ->.
  { destruct batch as [|x l _] using rev_ind; [done|]. by rewrite app_assoc, last_snoc_ts, last_snoc. }
  cbn [mbind result_bind]. rewrite Z.add_0_l.
  assert (sequencer_index_last_ts d1 = last_ts ds0) as ->.
  { rewrite <-Hm. unfold sequencer_index_last_ts, get_u64.
    by rewrite (touches_get_key _ _ _ SEQUENCER_INDEX_LAST_TS Ht1 eq_refl). }
  destruct batch as [|x l _] using rev_ind; [done|]. rewrite app_assoc, last_snoc_ts in *.
  assert (last_ts ds0 < sd_commit_ts x) as Hlt.
  { rewrite <-app_assoc in Hs, Hok. pose proof (filter_after ds0 (l ++ [x]) Hs Hok) as Hf.
    apply Z.ltb_lt. assert (x ∈ l ++ [x]) as Hx by (apply elem_of_app; right; by left).
    rewrite <-Hf in Hx. by apply elem_of_List_filter in Hx as [? _]. }
  rewrite (proj2 (Z.ltb_lt _ _) Hlt). eexists. split; [done|]. split_and!.
  - eapply index_rows_frame; [|done]. apply touches_agree with [SEQUENCER_INDEX_LAST_TS]; [|done].
    apply touches_insert_key. left.
  - unfold sequencer_index_last_ts, get_u64. rewrite tx_get_insert. cbn [mbind option_bind].
    rewrite decode_u64_be64; [done|]. apply Forall_app in Hok as [_ Hx].
    apply Forall_cons in Hx as [Hx _]. apply Hx.
  - etrans; [eapply touches_mono; [intros ? ?; by right|exact Ht1]|]. apply touches_insert_key. left.
Qed.

(** A store whose log is [ds0 ++ ds1] and whose indexes cover [ds0]. *)
Record indexed_upto (ds0 ds1 : list SequencerDecision) (d : db) : Prop := {
  iu_log : log_rows U d (ds0 ++ ds1);
  iu_index : index_rows U d ds0;
  iu_marker : sequencer_index_last_ts d = last_ts ds0 }.

Lemma last_ts_app_lt ds0 ds1 :
  StronglySorted (fun a a' => sd_commit_ts a < sd_commit_ts a') (ds0 ++ ds1) ->
  Forall (decision_ok U) (ds0 ++ ds1) -> ds1 <> [] -> last_ts ds0 < last_ts (ds0 ++ ds1).
Proof.
  intros Hs Hok Hne. pose proof (filter_after ds0 ds1 Hs Hok) as Hf.
  destruct ds1 as [|x l _] using rev_ind; [done|]. rewrite app_assoc, last_snoc_ts.
  assert (x ∈ l ++ [x]) as Hx by (apply elem_of_app; right; by left).
  rewrite <-Hf in Hx. apply elem_of_List_filter in Hx as [? _]. by apply Z.ltb_lt.
Qed.

Lemma catch_up_next n ds0 ds1 d :
  indexed_upto ds0 ds1 d -> ds1 <> [] -> (0 < n)%nat ->
  decision_rows_after d (last_ts ds0) n = decision_row <$> take n ds1.
Proof.
  intros [Hl _ _] Hne Hn. pose proof (lr_sorted _ _ _ Hl) as Hs. pose proof (lr_ok _ _ _ Hl) as Hok.
  rewrite (decision_rows_after_spec d (ds0 ++ ds1)); [|done| | |done].
  - by rewrite filter_after.
  - pose proof (last_ts_app_lt _ _ Hs Hok Hne).
    assert (in_u64 (last_ts (ds0 ++ ds1))) as Hu.
    { destruct ds1 as [|x l _] using rev_ind; [done|]. rewrite app_assoc, last_snoc_ts.
      rewrite Forall_forall in Hok. apply Hok. rewrite !elem_of_app. do 2 right. by left. }
    pose proof (last_ts_nonneg ds0 (proj1 (proj1 (Forall_app _ _ _) Hok))).
    unfold in_u64, u64_max in *. lia.
  - apply last_ts_nonneg. by apply Forall_app in Hok as [? _].
Qed.

Lemma catch_up_batch_step batch rest ds0 d :
  indexed_upto ds0 (batch ++ rest) d -> batch <> [] ->
  exists d', catch_up_batch (decision_row <$> batch) (last_ts ds0) d =
      (Ok (Z.of_nat (length (all_mutations batch)), last_ts (ds0 ++ batch)), d') /\
    indexed_upto (ds0 ++ batch) rest d' /\ touches (SEQUENCER_INDEX_LAST_TS :: index_prefixes) d d'.
Proof using pld pli cf.
  intros [Hl Hi Hm] Hne. pose proof (lr_sorted _ _ _ Hl) as Hs. pose proof (lr_ok _ _ _ Hl) as Hok.
  rewrite app_assoc in Hs, Hok, Hl. apply StronglySorted_app in Hs as (_ & Hs & _).
  apply Forall_app in Hok as [Hok _].
  destruct (catch_up_batch_rep batch ds0 d Hok Hs Hne Hi Hm) as (d' & -> & Hi' & Hm' & Ht).
  exists d'. split; [done|]. split; [|done]. split; [|done|done].
  eapply log_rows_frame; [|done]. by eapply touches_agree.
Qed.

Definition rebuild_stats (stats : SequencerIndexRebuild) (ds0 ds1 : list SequencerDecision)
    : SequencerIndexRebuild :=
  {| rb_from_ts := rb_from_ts stats; rb_to_ts := last_ts (ds0 ++ ds1);
     rb_decisions := rb_decisions stats + Z.of_nat (length ds1);
     rb_keys := rb_keys stats + Z.of_nat (length (all_mutations ds1)) |}.

Lemma rebuild_stats_app stats ds0 l1 l2 :
  rebuild_stats (rebuild_stats stats ds0 l1) (ds0 ++ l1) l2 = rebuild_stats stats ds0 (l1 ++ l2).
Proof.
  unfold rebuild_stats, all_mutations. simpl. rewrite app_assoc, fmap_app, concat_app, !length_app.
  f_equal; lia.
Qed.

Lemma rebuild_stats_nil stats ds0 :
  rb_to_ts stats = last_ts ds0 -> rebuild_stats stats ds0 [] = stats.
Proof.
  intros E. unfold rebuild_stats, all_mutations. simpl. rewrite app_nil_r, !Z.add_0_r, <-E.
  by destruct stats.
Qed.

(** The loop reaches the end of the log: one more iteration than decisions is
    fuel enough. *)
Lemma catch_up_loop_rep fuel n ds1 ds0 stats d :
  (length ds1 < fuel)%nat -> (0 < n)%nat -> indexed_upto ds0 ds1 d -> rb_to_ts stats = last_ts ds0 ->
  exists d', catch_up_loop fuel n (last_ts (ds0 ++ ds1)) (last_ts ds0) stats d =
      Some (Ok (rebuild_stats stats ds0 ds1), d') /\
    seq_rep U d' (ds0 ++ ds1) /\ touches (SEQUENCER_INDEX_LAST_TS :: index_prefixes) d d'.
Proof using pld pli cf.
  intros Hf Hn. revert ds1 ds0 stats d Hf.
  induction fuel as [|fuel IH]; intros ds1 ds0 stats d Hf Hu Hst; [lia|]. cbn [catch_up_loop].
  destruct (decide (ds1 = [])) as [->|Hne].
  { rewrite app_nil_r, Z.leb_refl, rebuild_stats_nil by done. exists d. split; [done|].
    destruct Hu as [Hl Hi Hm]. rewrite app_nil_r in Hl. done. }
  pose proof (last_ts_app_lt ds0 ds1 (lr_sorted _ _ _ (iu_log _ _ _ Hu))
    (lr_ok _ _ _ (iu_log _ _ _ Hu)) Hne) as Hlt.
  rewrite (proj2 (Z.leb_gt _ _) Hlt), (catch_up_next n ds0 ds1 d Hu Hne Hn).
  assert (take n ds1 <> []) as Hne' by (destruct ds1, n; simpl; done || lia).
  destruct (decision_row <$> take n ds1) as [|r rs] eqn:Er.
  { by apply fmap_nil_inv in Er. }
  rewrite <-Er, length_fmap. rewrite <-(take_drop n ds1) in Hu.
  destruct (catch_up_batch_step _ _ _ _ Hu Hne') as (d1 & -> & Hu1 & Ht1).
  assert (forall st, st = rebuild_stats stats ds0 (take n ds1) -> exists d',
    (if (length (take n ds1) <? n)%nat then Some (Ok st, d1)
     else catch_up_loop fuel n (last_ts (ds0 ++ ds1)) (last_ts (ds0 ++ take n ds1)) st d1) =
    Some (Ok (rebuild_stats stats ds0 ds1), d') /\ seq_rep U d' (ds0 ++ ds1) /\
    touches (SEQUENCER_INDEX_LAST_TS :: index_prefixes) d d') as H; [|by apply H].
  intros st ->. rewrite length_take. destruct (Nat.ltb_spec (n `min` length ds1) n) as [Hl|Hl].
  - rewrite drop_ge in Hu1 by lia. rewrite take_ge in * by lia. exists d1. split; [done|].
    destruct Hu1 as [H1 H2 H3]. rewrite app_nil_r in H1. done.
  - destruct (IH (drop n ds1) (ds0 ++ take n ds1) (rebuild_stats stats ds0 (take n ds1)) d1)
      as (d2 & E & Hs & Ht2); [rewrite length_drop; lia|done|done|].
    rewrite <-app_assoc, take_drop in E, Hs. exists d2. split; [|split; [done|by etrans]].
    etrans; [exact E|]. by rewrite rebuild_stats_app, take_drop.
Qed.

Lemma catch_up_rep fuel n ds0 ds1 d :
  (length ds1 < fuel)%nat -> indexed_upto ds0 ds1 d ->
  exists d', catch_up_sequencer_index fuel n d =
      Some (Ok {| rb_from_ts := last_ts ds0; rb_to_ts := last_ts (ds0 ++ ds1);
                  rb_decisions := Z.of_nat (length ds1);
                  rb_keys := Z.of_nat (length (all_mutations ds1)) |}, d') /\
    seq_rep U d' (ds0 ++ ds1) /\ touches (SEQUENCER_INDEX_LAST_TS :: index_prefixes) d d'.
Proof using pld pli cf.
  intros Hf Hu. unfold catch_up_sequencer_index.
  rewrite (iu_marker _ _ _ Hu), (seq_rep_get_last d _ (iu_log _ _ _ Hu)).
  exact (catch_up_loop_rep fuel (Nat.max n 1) ds1 ds0
    {| rb_from_ts := last_ts ds0; rb_to_ts := last_ts ds0; rb_decisions := 0; rb_keys := 0 |} d
    Hf ltac:(lia) Hu eq_refl).
Qed.

(** ** Removing the indexes *)

Lemma remove_prefix_touches d p : touches [p] d (remove_prefix d p).
Proof.
  intros t k Hk. unfold remove_prefix. rewrite tx_get_remove_pairs. rewrite decide_False; [done|].
  intros [-> ([k' v] & -> & [_ Hp]%elem_of_iter_prefix)%list_elem_of_fmap].
  destruct Hk as [?|Hk]; [done|]. apply Forall_cons in Hk as [Hk _].
  apply starts_with_spec in Hp. simpl in Hk. congruence.
Qed.

Lemma remove_prefix_none d p x : tx_get (remove_prefix d p) TABLE_KV (p ++ x) = None.
Proof.
  unfold remove_prefix. rewrite tx_get_remove_pairs. destruct (decide _) as [|Hn]; [done|].
  apply eq_None_not_Some. intros [v Hv]. apply Hn. split; [done|]. apply list_elem_of_fmap.
  exists (p ++ x, v). split; [done|]. apply elem_of_iter_prefix. by eauto.
Qed.

Lemma remove_indexes_none d p x :
  p ∈ index_prefixes -> tx_get (foldl remove_prefix d index_prefixes) TABLE_KV (p ++ x) = None.
Proof.
  assert (forall d q, tx_get d TABLE_KV (p ++ x) = None ->
    tx_get (remove_prefix d q) TABLE_KV (p ++ x) = None) as Hstep.
  { intros d' q Hn. unfold remove_prefix. rewrite tx_get_remove_pairs. by destruct (decide _). }
  unfold index_prefixes. cbn [foldl]. rewrite !elem_of_cons, elem_of_nil.
  intros [->|[->|[->|[]]]]; [do 2 apply Hstep|apply Hstep|]; apply remove_prefix_none.
Qed.

Lemma remove_indexes_touches d :
  touches (SEQUENCER_INDEX_LAST_TS :: index_prefixes) d
    (tx_remove TABLE_KV SEQUENCER_INDEX_LAST_TS (foldl remove_prefix d index_prefixes)).
Proof.
  assert (forall q d, q ∈ index_prefixes -> touches (SEQUENCER_INDEX_LAST_TS :: index_prefixes) d
    (remove_prefix d q)) as Hstep.
  { intros q d' Hq. eapply touches_mono; [|apply remove_prefix_touches].
    intros x ->%list_elem_of_singleton. by right. }
  unfold index_prefixes. cbn [foldl].
  etrans; [etrans; [etrans|]|]; [apply Hstep..|]; [left|right; left|do 2 right; left|].
  rewrite <-(app_nil_r SEQUENCER_INDEX_LAST_TS) at 2. apply touches_remove. left.
Qed.

(** An empty index is the index of the empty log. *)
Lemma index_rows_empty d :
  (forall p x, p ∈ index_prefixes -> tx_get d TABLE_KV (p ++ x) = None) -> index_rows U d [].
Proof.
  intros H. split.
  - intros k _. exact (H SEQUENCER_KEY_INDEX_PREFIX _ ltac:(left)).
  - intros k. exact (H SEQUENCER_RANGE_INDEX_PREFIX _ ltac:(right; left)).
  - intros x v. rewrite (H SEQUENCER_INTERVAL_INDEX_PREFIX _ ltac:(do 2 right; left)).
    split; [done|]. by intros (? & ? & ? & ? & _).
Qed.

Lemma rebuild_rep fuel n ds d :
  (length ds < fuel)%nat -> log_rows U d ds ->
  exists d', rebuild_sequencer_validation_index fuel n d =
      Some (Ok {| rb_from_ts := 0; rb_to_ts := last_ts ds; rb_decisions := Z.of_nat (length ds);
                  rb_keys := Z.of_nat (length (all_mutations ds)) |}, d') /\
    seq_rep U d' ds /\ touches (SEQUENCER_INDEX_LAST_TS :: index_prefixes) d d'.
Proof using pld pli cf.
  intros Hf Hl. unfold rebuild_sequencer_validation_index. fold index_prefixes.
  pose proof (remove_indexes_touches d) as Ht1.
  set (d1 := tx_remove _ _ _) in *.
  destruct (catch_up_rep fuel n [] ds d1 Hf) as (d' & E & Hs & Ht2).
  { split.
    - eapply log_rows_frame; [|done]. by eapply touches_agree.
    - apply index_rows_empty. intros p x Hp. unfold d1. rewrite tx_get_remove_ne.
      + by apply remove_indexes_none.
      + intros E. apply (f_equal snd) in E. cbn [snd] in E.
        assert (diverge p SEQUENCER_INDEX_LAST_TS = true) as Hdv.
        { revert Hp. unfold index_prefixes. rewrite !elem_of_cons, elem_of_nil.
          by intros [->|[->|[->|[]]]]. }
        eapply (diverge_neq p SEQUENCER_INDEX_LAST_TS x []); [done|by rewrite app_nil_r].
    - unfold d1, sequencer_index_last_ts, get_u64. by rewrite tx_get_remove. }
  exists d'. split; [exact E|]. split; [done|by etrans].
Qed.

(** ** Validation reads the indexes only through their contents *)

Lemma index_rows_agree d d' ds :
  index_rows U d ds -> index_rows U d' ds ->
  agree [SEQUENCER_RANGE_INDEX_PREFIX; SEQUENCER_INTERVAL_INDEX_PREFIX] d d'.
Proof.
  intros [_ H2 H3] [_ H2' H3'] p x. rewrite !elem_of_cons, elem_of_nil. intros [->|[->|[]]].
  - etrans; [exact (H2' x)|symmetry; exact (H2 x)].
  - apply option_eq. intros v. etrans; [exact (H3' x v)|symmetry; exact (H3 x v)].
Qed.

Lemma iter_range_limited_agree p a z n d d' :
  agree [p] d d' -> (forall k, in_range a z k = true -> exists x, k = p ++ x) ->
  iter_range_limited d' TABLE_KV a z n = iter_range_limited d TABLE_KV a z n.
Proof.
  intros Ha Hp. assert (iter_range d' TABLE_KV a z = iter_range d TABLE_KV a z) as E.
  { apply (StronglySorted_strict_unique row_lt); [apply iter_range_sorted..|].
    intros [k v]. rewrite !elem_of_iter_range.
    split; intros [Hv Hr]; (split; [|done]); destruct (Hp _ Hr) as [x ->];
      specialize (Ha p x ltac:(by left)); unfold tx_get in Ha; congruence. }
  destruct n as [|n]; [exact E|]. by rewrite !iter_range_limited_take, E by lia.
Qed.

Lemma interval_rows_agree d d' ds n :
  index_rows U d ds -> index_rows U d' ds ->
  sequencer_interval_rows_in d' n = sequencer_interval_rows_in d n.
Proof.
  intros H H'. unfold sequencer_interval_rows_in.
  rewrite (iter_range_limited_agree SEQUENCER_INTERVAL_INDEX_PREFIX _ _ _ d d'); [done| |].
  - eapply agree_mono; [|by eapply index_rows_agree]. intros q ->%list_elem_of_singleton. by right; left.
  - intros k Hk. rewrite in_range_prefix in Hk. by apply starts_with_spec.
Qed.

Lemma range_query_agree d d' ds start end_ start_ts n :
  index_rows U d ds -> index_rows U d' ds ->
  sequencer_range_query_in d' start end_ start_ts n = sequencer_range_query_in d start end_ start_ts n.
Proof.
  intros H H'. unfold sequencer_range_query_in, sequencer_interval_range_in.
  rewrite (interval_rows_agree d d' ds n H H').
  rewrite (iter_range_limited_agree SEQUENCER_RANGE_INDEX_PREFIX _ _ _ d d'); [done| |].
  - eapply agree_mono; [|by eapply index_rows_agree]. intros q ->%list_elem_of_singleton. by left.
  - intros k Hk. unfold range_index_key, prefixed_key in Hk.
    destruct (bytes_eqb_spec end_ []) as [->|Hne].
    + rewrite in_range_prefix_from in Hk. apply andb_true_iff in Hk as [Hk _].
      by apply starts_with_spec.
    + apply in_range_spec in Hk as [Hle [E|Hlt]]; [done|]. by eapply between_prefix.
Qed.

Lemma check_reads_agree txn ranges n d d' ds :
  index_rows U d ds -> index_rows U d' ds -> txn_ok U txn ->
  check_reads txn ranges n d' = check_reads txn ranges n d.
Proof.
  intros H H' (_ & _ & Hk & _). unfold check_reads, interval_entries.
  rewrite (interval_rows_agree d d' ds n H H').
  assert (forall entries, check_read_set d' entries txn (st_read_set txn) =
    check_read_set d entries txn (st_read_set txn)) as Es.
  { intros entries. induction Hk as [|key keys Hkey Hk IH]; [done|]. cbn [check_read_set].
    rewrite IH. unfold point_conflict, get_u64.
    by rewrite (ix_point _ _ _ H key Hkey), (ix_point _ _ _ H' key Hkey). }
  assert (check_read_ranges d' txn n ranges = check_read_ranges d txn n ranges) as Er.
  { induction ranges as [|r ranges IH]; [done|]. cbn [check_read_ranges].
    rewrite (range_query_agree d d' ds _ _ _ _ H H'). by rewrite IH. }
  rewrite Er. destruct (match st_read_set txn with [] => _ | _ => _ end) as [[entries|]|]; try done.
  cbn [mbind result_bind]. by rewrite Es.
Qed.

(** The tests that come before the indexes. *)
Definition precheck (txn : SequencerTxn) (ranges : list SequencerReadRange)
    (limits : option SequencerValidationLimits) (d : db) : option SequencerOutcome :=
  let ts := st_commit_ts txn in
  if bytes_eqb (st_txn_id txn) [] then Some (Invalid ts MissingTxnId)
  else match find_duplicate txn d with
  | Some existing => Some (Duplicate existing)
  | None =>
    if ts <=? st_start_ts txn then Some (Invalid ts CommitTsNotAboveStart)
    else if ts <=? sequencer_last_commit_ts d then Some (OutOfOrder ts (sequencer_last_commit_ts d))
    else if read_set_too_large txn ranges limits then Some (Invalid ts ReadSetTooLarge)
    else None
  end.

Lemma validate_eq txn ranges limits d :
  sequencer_validate_in_tx txn ranges limits d =
  match precheck txn ranges limits d with
  | Some out => Ok (out, d)
  | None =>
    refused ← check_reads txn ranges (range_budget limits) d;
    match refused with
    | Some out => Ok (out, d)
    | None => d ← record_decision txn d; Ok (Committed (st_commit_ts txn), d)
    end
  end.
Proof.
  unfold sequencer_validate_in_tx, precheck, sequencer_last_commit_ts, check_reads.
  destruct (bytes_eqb _ _); [done|]. destruct (find_duplicate _ _); [done|].
  destruct (_ <=? st_start_ts txn); [done|]. destruct (st_commit_ts txn <=? _); [done|].
  destruct (read_set_too_large _ _ _); [done|].
  destruct (interval_entries _ _ _) as [[entries|]|]; [|done..]. cbn [mbind result_bind].
  by destruct (check_read_set _ _ _ _).
Qed.

Lemma precheck_agree txn ranges limits ds d d' :
  log_rows U d ds -> log_rows U d' ds -> txn_ok U txn ->
  precheck txn ranges limits d' = precheck txn ranges limits d.
Proof.
  intros H H' (_ & _ & _ & Hid & Hrq & _). unfold precheck, find_duplicate, get_u64.
  rewrite (seq_rep_get_last d ds H), (seq_rep_get_last d' ds H').
  rewrite (lr_txn _ _ _ H _ Hid), (lr_txn _ _ _ H' _ Hid).
  destruct (bytes_eqb_spec (st_request_id txn) []) as [|Hne]; [done|].
  by rewrite (lr_request _ _ _ H _ _ Hne (Hrq Hne)), (lr_request _ _ _ H' _ _ Hne (Hrq Hne)).
Qed.

(** The validation index can always be rebuilt.  Whatever the index rows
    and the marker of a store are (missing, stale or damaged), as long as its
    decision log is intact [rebuild_sequencer_validation_index] terminates, with
    one iteration more than there are decisions as fuel and for every batch
    size, and leaves exactly the indexes of the log; it reports the range and
    the number of decisions and mutations indexed, and touches nothing else. *)
Theorem rebuild_restores_index fuel n ds d :
  (length ds < fuel)%nat -> log_rows U d ds ->
  exists d', rebuild_sequencer_validation_index fuel n d =
      Some (Ok {| rb_from_ts := 0; rb_to_ts := last_ts ds; rb_decisions := Z.of_nat (length ds);
                  rb_keys := Z.of_nat (length (all_mutations ds)) |}, d') /\
    seq_rep U d' ds /\ touches (SEQUENCER_INDEX_LAST_TS :: index_prefixes) d d'.
Proof using pld pli cf. apply rebuild_rep. Qed.

(** The maintained index and the rebuilt index are equivalent.  Validation
    against the rows kept up to date commit by commit and validation against
    the rows rebuilt from the log give every candidate the same answer, down
    to the reported key and timestamp, and leave representations of the same
    log. *)
Theorem rebuilt_index_equivalent fuel n ds d txn ranges limits :
  (length ds < fuel)%nat -> seq_rep U d ds -> txn_ok U txn ->
  exists stats d1 out d' d1',
    rebuild_sequencer_validation_index fuel n d = Some (Ok stats, d1) /\
    sequencer_validate_in_tx txn ranges limits d = Ok (out, d') /\
    sequencer_validate_in_tx txn ranges limits d1 = Ok (out, d1') /\
    seq_rep U d' (log_after ds txn out) /\ seq_rep U d1' (log_after ds txn out).
Proof using pld pli cf.
  intros Hf Hs Ht. destruct (rebuild_rep fuel n ds d Hf (sr_log _ _ _ Hs)) as (d1 & Hr & Hs1 & Htch).
  destruct (validate_rep txn ranges limits ds d Hs Ht) as (out & d' & Hv & _ & Hs' & _).
  destruct (validate_rep txn ranges limits ds d1 Hs1 Ht) as (out1 & d1' & Hv1 & _ & Hs1' & _).
  assert (out1 = out) as ->; [|by eexists _, d1, out, d', d1'].
  rewrite validate_eq in Hv, Hv1.
  rewrite (precheck_agree txn ranges limits ds d d1 (sr_log _ _ _ Hs) (sr_log _ _ _ Hs1) Ht),
    (check_reads_agree txn ranges _ d d1 ds (sr_index _ _ _ Hs) (sr_index _ _ _ Hs1) Ht) in Hv1.
  destruct (precheck txn ranges limits d); [congruence|].
  destruct (check_reads _ _ _ d) as [[o|]|]; cbn [mbind result_bind] in Hv, Hv1; [congruence| |done].
  destruct (record_decision txn d), (record_decision txn d1); cbn [mbind result_bind] in Hv, Hv1;
    congruence.
Qed.

End rebuild.
