(* ===== verification/CommitLog.v ===== *)
(** * The commit log

    The change records of committed transactions: their frames and keys
    ([storage/commit_log.rs]) and the operations of [storage/mvcc.rs] that
    append, read, trim and ship them.  zstd and postcard are parameters. *)

From S2P Require Export Sequencer.

Local Open Scope Z_scope.

(** ** Data *)

Record CommitPrevValue := {
  pv_value : bytes; pv_create_revision : Z; pv_mod_revision : Z; pv_version : Z;
  pv_lease_id : Z }.

Record CommitChange := {
  cc_key : bytes; cc_value : option bytes; cc_prev : option CommitPrevValue }.

Record CommitRecord := {
  cr_shard_id : Z; cr_commit_ts : Z; cr_txn_id : bytes; cr_start_ts : Z; cr_region_id : Z;
  cr_txn_bytes : Z; cr_changes : list CommitChange }.

#[export] Instance CommitPrevValue_eq_dec : EqDecision CommitPrevValue.
Proof. solve_decision. Defined.
#[export] Instance CommitChange_eq_dec : EqDecision CommitChange.
Proof. solve_decision. Defined.
#[export] Instance CommitRecord_eq_dec : EqDecision CommitRecord.
Proof. solve_decision. Defined.

Inductive CommitLogAppend := AppendInserted | AppendDuplicate.

Record CommitLogAppendResult := { inserted : Z; duplicates : Z; rejected : Z; cursor_ts : Z }.
Record CommitLogTrimResult := { trimmed_before : Z; removed : Z }.

(** ** Frames *)

Definition COMMIT_LOG_MAGIC : bytes := [x01; x43; x4c; x52].
Definition COMMIT_LOG_FORMAT_VERSION : byte := x01.
Definition COMMIT_LOG_CODEC_ZSTD : byte := x01.
Definition COMMIT_LOG_STAGING_SHARD_ID : Z := 1.
Definition COMMIT_LOG_MAX_FRAME_BYTES : Z := 64 * 1024 * 1024.
Definition COMMIT_LOG_HEADER_LEN : nat := 14.

(** [zstd::bulk::compress] and [zstd::bulk::decompress] (with the capacity);
    [None] is an error. *)
Class Zstd := {
  zstd_compress : bytes -> option bytes;
  zstd_decompress : bytes -> Z -> option bytes }.

(** Decompression inverts compression when the capacity is the original length,
    and the output of compression is bounded ([ZSTD_compressBound]). *)
Class ZstdLaws {z : Zstd} : Prop := {
  zstd_total : forall x, is_Some (zstd_compress x);
  zstd_roundtrip : forall x y,
    zstd_compress x = Some y -> zstd_decompress y (Z.of_nat (length x)) = Some x;
  zstd_bound : forall x y, zstd_compress x = Some y ->
    (length y <= length x + length x / 256 + 64)%nat }.

Definition txn_write_bytes (mutations : list SequencerMutation) : Z :=
  foldr (fun m n => n + match m with
    | SmPut key value _ => Z.of_nat (length key) + Z.of_nat (length value) + 16
    | SmDelete key => Z.of_nat (length key) + 8
    | SmDeleteRange start end_ => Z.of_nat (length start) + Z.of_nat (length end_) + 32
    end) 0 mutations.

Definition read_u32 (data : bytes) (offset : nat) : result Z :=
  x ← ok_or (slice offset 4 data) Panic; Ok (be_val x).

(** ** Keys *)

Definition COMMIT_LOG_PREFIX : bytes := b "/_sys/commit_log/".
Definition COMMIT_LOG_CURSOR_KEY : bytes := b "/_sys/commit_log/cursor".
Definition COMMIT_LOG_COUNT_KEY : bytes := b "/_sys/commit_log/count".
Definition COMMIT_LOG_SHIPPED_PREFIX : bytes := b "/_sys/commit_log/shipped/".

Definition shipped_key (region_id : Z) : bytes := COMMIT_LOG_SHIPPED_PREFIX ++ be64 region_id.
Definition commit_log_shard_prefix (shard_id : Z) : bytes := COMMIT_LOG_PREFIX ++ be64 shard_id.
Definition encode_commit_log_key (shard_id commit_ts region_id : Z) : bytes :=
  COMMIT_LOG_PREFIX ++ be64 shard_id ++ be64 commit_ts ++ be64 region_id.

Definition commit_log_key_ts (key : bytes) : option Z :=
  x ← slice (length COMMIT_LOG_PREFIX + 8) 8 key; Some (be_val x).

Section commit_log.
Context {pr : Postcard CommitRecord} {z : Zstd}.

Definition commit_record_encode (r : CommitRecord) (max_txn_bytes : Z) : result bytes :=
  if cr_shard_id r =? 0 then Err InvalidArgument
  else if cr_commit_ts r =? 0 then Err InvalidArgument
  else if bytes_eqb (cr_txn_id r) [] then Err InvalidArgument
  else if max_txn_bytes <? cr_txn_bytes r then Err InvalidArgument
  else
    payload ← ok_or (to_allocvec r) Storage;
    if COMMIT_LOG_MAX_FRAME_BYTES <? Z.of_nat (length payload) then Err Storage
    else
      compressed ← ok_or (zstd_compress payload) Storage;
      Ok (COMMIT_LOG_MAGIC ++ [COMMIT_LOG_FORMAT_VERSION] ++ [COMMIT_LOG_CODEC_ZSTD]
          ++ be32 (u32_wrap (Z.of_nat (length payload)))
          ++ be32 (u32_wrap (Z.of_nat (length compressed))) ++ compressed).

Definition commit_record_decode (data : bytes) : result CommitRecord :=
  if (length data <? COMMIT_LOG_HEADER_LEN)%nat then Err Storage
  else if negb (bytes_eqb (take 4 data) COMMIT_LOG_MAGIC) then Err Storage
  else
    version ← ok_or (data !! 4%nat) Panic;
    if decide (version <> COMMIT_LOG_FORMAT_VERSION) then Err Storage
    else
      codec ← ok_or (data !! 5%nat) Panic;
      if decide (codec <> COMMIT_LOG_CODEC_ZSTD) then Err Storage
      else
        uncompressed_len ← read_u32 data 6;
        if COMMIT_LOG_MAX_FRAME_BYTES <? uncompressed_len then Err Storage
        else
          compressed_len ← read_u32 data 10;
          if negb (Z.of_nat (length data) =? Z.of_nat COMMIT_LOG_HEADER_LEN + compressed_len)
          then Err Storage
          else
            payload ← ok_or (zstd_decompress (drop COMMIT_LOG_HEADER_LEN data) uncompressed_len)
                        Storage;
            if negb (Z.of_nat (length payload) =? uncompressed_len) then Err Storage
            else
              '(record, remainder) ← ok_or (take_from_bytes payload) Storage;
              match remainder with
              | [] => Ok record
              | _ => Err Storage
              end.

Definition append_commit_record_in_tx (record : CommitRecord) (max_txn_bytes : Z) (d : db)
    : result (CommitLogAppend * db) :=
  let key := encode_commit_log_key (cr_shard_id record) (cr_commit_ts record)
               (cr_region_id record) in
  encoded ← commit_record_encode record max_txn_bytes;
  match tx_get d TABLE_COMMIT_LOG key with
  | Some existing =>
    match commit_record_decode existing with
    | Err Panic => Err Panic
    | Err _ => Err Storage
    | Ok existing => if decide (existing = record) then Ok (AppendDuplicate, d) else Err Storage
    end
  | None => Ok (AppendInserted, tx_insert TABLE_COMMIT_LOG key encoded d)
  end.

(** ** Reading *)

Definition decode_commit_log_row (r : row) : result CommitRecord :=
  match commit_record_decode r.2 with
  | Err Panic => Err Panic
  | Err _ => Err Storage
  | Ok record => Ok record
  end.

Fixpoint decode_commit_log_rows (rows : list row) : result (list CommitRecord) :=
  match rows with
  | [] => Ok []
  | r :: rows =>
    record ← decode_commit_log_row r; records ← decode_commit_log_rows rows;
    Ok (record :: records)
  end.

Definition append_commit_record (d : db) (record : CommitRecord) (max_txn_bytes : Z)
    : result CommitLogAppend * db :=
  backend_write d (append_commit_record_in_tx record max_txn_bytes).

Definition commit_records_at (d : db) (shard_id commit_ts : Z) : result (list CommitRecord) :=
  let prefix := encode_commit_log_key shard_id commit_ts 0 in
  decode_commit_log_rows (iter_prefix d TABLE_COMMIT_LOG (take (length prefix - 8) prefix)).

Definition commit_records_after (d : db) (shard_id after_ts : Z) (limit : nat)
    : result (list CommitRecord) :=
  let start := encode_commit_log_key shard_id (u64_saturating_add after_ts 1) 0 in
  let end_ := prefix_upper_bound (commit_log_shard_prefix shard_id) in
  decode_commit_log_rows (iter_range_limited d TABLE_COMMIT_LOG start end_ limit).

(** ** Trimming the outbox *)

Definition commit_log_trimmed_before (d : db) : Z :=
  default 0 (tx_get d TABLE_META META_COMMIT_LOG_TRIMMED_BEFORE ≫= decode_u64).

(** The rows to remove and the new mark. *)
Definition trim_rows (d : db) (previous target : Z) (limit : nat) : result ((Z * Z) * db) :=
  let rows := iter_range_limited d TABLE_COMMIT_LOG
                (commit_log_shard_prefix COMMIT_LOG_STAGING_SHARD_ID)
                (encode_commit_log_key COMMIT_LOG_STAGING_SHARD_ID target 0) (limit + 1) in
  let remove := Nat.min (length rows) limit in
  let d := foldl (fun d '(key, _) => tx_remove TABLE_COMMIT_LOG key d) d (take remove rows) in
  next ← match rows !! remove with
         | Some (key, _) => ok_or (commit_log_key_ts key) Storage
         | None => Ok target
         end;
  let before := Z.max next previous in
  Ok ((before, Z.of_nat remove),
      if previous <? before
      then tx_insert TABLE_META META_COMMIT_LOG_TRIMMED_BEFORE (be64 before) d else d).

Definition trim_commit_log_outbox (s : MvccStorage) (d : db) (through_ts : Z) (max_rows : nat)
    (applied : AppliedLogId) : result CommitLogTrimResult * db :=
  backend_write d (fun d =>
    if applied_contains d applied then
      Ok ({| trimmed_before := commit_log_trimmed_before d; removed := 0 |}, d)
    else
      let previous := commit_log_trimmed_before d in
      let target := Z.max through_ts previous in
      '((before, n), d) ← (if previous <? target
                           then trim_rows d previous target (Nat.max max_rows 1)
                           else Ok ((previous, 0), d));
      let d := note_log_index_revision s (insert_last_applied applied d) (index applied) in
      Ok ({| trimmed_before := before; removed := n |}, d)).

(** ** Shipping records to a shard group *)

(** [BTreeMap::entry(k).and_modify(max).or_insert(ts)]. *)
Fixpoint shipped_max (k ts : Z) (m : list (Z * Z)) : list (Z * Z) :=
  match m with
  | [] => [(k, ts)]
  | (k', ts') :: m' =>
    if k =? k' then (k', Z.max ts' ts) :: m'
    else if k <? k' then (k, ts) :: m
    else (k', ts') :: shipped_max k ts m'
  end.

Definition outside_shard (shard_id start_ts end_ts : Z) (r : CommitRecord) : bool :=
  negb (cr_shard_id r =? shard_id) || (cr_commit_ts r <? start_ts)
  || (negb (end_ts =? 0) && (end_ts <=? cr_commit_ts r)).

Fixpoint append_records (shard_id start_ts end_ts max_txn_bytes : Z) (records : list CommitRecord)
    (res : CommitLogAppendResult) (shipped : list (Z * Z)) (d : db)
    : (CommitLogAppendResult * list (Z * Z)) * db :=
  match records with
  | [] => ((res, shipped), d)
  | r :: records =>
    let reject := {| inserted := inserted res; duplicates := duplicates res;
                     rejected := rejected res + 1; cursor_ts := cursor_ts res |} in
    let go := append_records shard_id start_ts end_ts max_txn_bytes records in
    if outside_shard shard_id start_ts end_ts r then go reject shipped d
    else match append_commit_record_in_tx r max_txn_bytes d with
    | Ok (AppendInserted, d) =>
      go {| inserted := inserted res + 1; duplicates := duplicates res; rejected := rejected res;
            cursor_ts := Z.max (cursor_ts res) (cr_commit_ts r) |}
         (shipped_max (cr_region_id r) (cr_commit_ts r) shipped) d
    | Ok (AppendDuplicate, d) =>
      go {| inserted := inserted res; duplicates := duplicates res + 1; rejected := rejected res;
            cursor_ts := Z.max (cursor_ts res) (cr_commit_ts r) |}
         (shipped_max (cr_region_id r) (cr_commit_ts r) shipped) d
    | Err _ => go reject shipped d
    end
  end.

Definition ship_mark (d : db) (m : Z * Z) : db :=
  let previous := read_u64 d (shipped_key m.1) in
  if previous <? m.2 then tx_insert TABLE_KV (shipped_key m.1) (be64 m.2) d else d.

Definition apply_commit_log_append (s : MvccStorage) (d : db) (shard_id start_ts end_ts : Z)
    (records : list CommitRecord) (max_txn_bytes rev : Z) (applied : AppliedLogId)
    : CommitLogAppendResult * db :=
  let d := note_log_index_revision s d rev in
  let previous_cursor := read_u64 d COMMIT_LOG_CURSOR_KEY in
  let previous_count := read_u64 d COMMIT_LOG_COUNT_KEY in
  let '((res, shipped), d) := append_records shard_id start_ts end_ts max_txn_bytes records
      {| inserted := 0; duplicates := 0; rejected := 0; cursor_ts := previous_cursor |} [] d in
  let d := if 0 <? inserted res
           then tx_insert TABLE_KV COMMIT_LOG_COUNT_KEY (be64 (previous_count + inserted res)) d
           else d in
  let d := if previous_cursor <? cursor_ts res
           then tx_insert TABLE_KV COMMIT_LOG_CURSOR_KEY (be64 (cursor_ts res)) d else d in
  (res, insert_last_applied applied (foldl ship_mark d shipped)).

Definition commit_log_cursor (d : db) : Z := read_u64 d COMMIT_LOG_CURSOR_KEY.
Definition commit_log_record_count (d : db) : Z := read_u64 d COMMIT_LOG_COUNT_KEY.
Definition commit_log_shipped_through (d : db) (region_id : Z) : Z :=
  read_u64 d (shipped_key region_id).

End commit_log.
