(* ===== verification/CommitLogFacts.v ===== *)
(** * The commit log is exact

    Frames round-trip and fail closed; rows are written once; scans return
    the records asked for; trimming removes only what is below its mark. *)

From S2P Require Export CommitLog SysRows MvccCompact.

Local Open Scope Z_scope.

Section frames.
Context {pr : Postcard CommitRecord} {z : Zstd} {pl : PostcardLaws CommitRecord} {zl : ZstdLaws}.

(** The fields of a frame. *)
Definition frame (ulen clen : Z) (body : bytes) : bytes :=
  COMMIT_LOG_MAGIC ++ [COMMIT_LOG_FORMAT_VERSION] ++ [COMMIT_LOG_CODEC_ZSTD]
  ++ be32 ulen ++ be32 clen ++ body.

Lemma commit_record_encode_Ok r max x :
  commit_record_encode r max = Ok x <->
  (cr_shard_id r <> 0 /\ cr_commit_ts r <> 0 /\ cr_txn_id r <> [] /\ cr_txn_bytes r <= max) /\
  exists payload compressed, to_allocvec r = Some payload /\
    Z.of_nat (length payload) <= COMMIT_LOG_MAX_FRAME_BYTES /\
    zstd_compress payload = Some compressed /\
    x = frame (u32_wrap (Z.of_nat (length payload))) (u32_wrap (Z.of_nat (length compressed)))
          compressed.
Proof.
  unfold commit_record_encode.
  destruct (Z.eqb_spec (cr_shard_id r) 0); [split; [done|by intros [(? & _) _]]|].
  destruct (Z.eqb_spec (cr_commit_ts r) 0); [split; [done|by intros [(_ & ? & _) _]]|].
  destruct (bytes_eqb_spec (cr_txn_id r) []); [split; [done|by intros [(_ & _ & ? & _) _]]|].
  destruct (Z.ltb_spec max (cr_txn_bytes r)); [split; [done|intros [(_ & _ & _ & ?) _]; lia]|].
  destruct (to_allocvec r) as [payload|]; cbn [ok_or mbind result_bind];
    [|split; [done|by intros (_ & ? & ? & ? & _)]].
  destruct (Z.ltb_spec COMMIT_LOG_MAX_FRAME_BYTES (Z.of_nat (length payload))).
  { split; [done|]. intros (_ & p & c & [= ->] & ? & _). lia. }
  destruct (zstd_compress payload) as [c|] eqn:Ec; cbn [ok_or mbind result_bind].
  - split.
    + intros [= <-]. split; [done|]. by exists payload, c.
    + intros (_ & p & c' & [= <-] & _ & E & ->). rewrite Ec in E. by injection E as <-.
  - split; [done|]. intros (_ & p & c' & [= <-] & _ & E & _). congruence.
Qed.

(** Decoding a frame with its fields in place. *)
Lemma commit_record_decode_frame ulen clen body :
  in_u32 ulen -> in_u32 clen ->
  commit_record_decode (frame ulen clen body) =
  if COMMIT_LOG_MAX_FRAME_BYTES <? ulen then Err Storage
  else if negb (Z.of_nat (length body) =? clen) then Err Storage
  else
    payload ← ok_or (zstd_decompress body ulen) Storage;
    if negb (Z.of_nat (length payload) =? ulen) then Err Storage
    else
      '(record, remainder) ← ok_or (take_from_bytes payload) Storage;
      match remainder with [] => Ok record | _ => Err Storage end.
Proof.
  intros Hu Hc. unfold commit_record_decode, frame.
  set (data := COMMIT_LOG_MAGIC ++ _).
  assert (length data = 14 + length body)%nat as Hlen.
  { unfold data. rewrite !length_app, !length_be32. simpl. lia. }
  rewrite (proj2 (Nat.ltb_ge _ _)) by (rewrite Hlen; unfold COMMIT_LOG_HEADER_LEN; lia).
  change (take 4 data) with COMMIT_LOG_MAGIC. change (bytes_eqb COMMIT_LOG_MAGIC COMMIT_LOG_MAGIC) with true.
  change (data !! 4%nat) with (Some COMMIT_LOG_FORMAT_VERSION).
  change (data !! 5%nat) with (Some COMMIT_LOG_CODEC_ZSTD).
  cbn [negb ok_or mbind result_bind]. rewrite !decide_False by (intros H; by apply H).
  assert (read_u32 data 6 = Ok ulen) as ->.
  { unfold read_u32, data. rewrite (slice_skip 4 2), (slice_skip 1 1), (slice_skip 1 0), slice_here by done.
    cbn [ok_or mbind result_bind]. by rewrite be32_val. }
  assert (read_u32 data 10 = Ok clen) as ->.
  { unfold read_u32, data.
    rewrite (slice_skip 4 6), (slice_skip 1 5), (slice_skip 1 4), (slice_skip 4 0), slice_here by done.
    cbn [ok_or mbind result_bind]. by rewrite be32_val. }
  cbn [ok_or mbind result_bind]. rewrite Hlen.
  replace (drop COMMIT_LOG_HEADER_LEN data) with body.
  2:{ unfold data. rewrite !app_assoc, drop_app_length'; [done|]. by rewrite !length_app, !length_be32. }
  replace (Z.of_nat (14 + length body) =? Z.of_nat COMMIT_LOG_HEADER_LEN + clen)
    with (Z.of_nat (length body) =? clen); [done|].
  apply eq_true_iff_eq. rewrite !Z.eqb_eq. unfold COMMIT_LOG_HEADER_LEN. lia.
Qed.

Lemma commit_record_decode_encode r max x :
  commit_record_encode r max = Ok x -> commit_record_decode x = Ok r.
Proof using pl zl.
  intros (_ & p & c & Hp & Hl & Hc & ->)%commit_record_encode_Ok.
  pose proof (zstd_bound p c Hc) as Hb. unfold COMMIT_LOG_MAX_FRAME_BYTES in *.
  assert (Z.of_nat (length c) < u32_modulus) as Hc'.
  { assert (length p / 256 <= length p)%nat by (apply Nat.Div0.div_le_upper_bound; lia).
    unfold u32_modulus. lia. }
  unfold u32_wrap. rewrite !Z.mod_small by (unfold u32_modulus in *; lia).
  rewrite commit_record_decode_frame by (unfold in_u32, u32_modulus in *; lia).
  unfold COMMIT_LOG_MAX_FRAME_BYTES. rewrite (proj2 (Z.ltb_ge _ _)) by lia. rewrite Z.eqb_refl.
  cbn [negb]. rewrite (zstd_roundtrip p c Hc). cbn [ok_or mbind result_bind]. rewrite Z.eqb_refl.
  cbn [negb]. pose proof (postcard_roundtrip r p [] Hp) as Ht. rewrite app_nil_r in Ht. by rewrite Ht.
Qed.

Lemma frame_app ulen clen body y : frame ulen clen body ++ y = frame ulen clen (body ++ y).
Proof. unfold frame. by rewrite <-!app_assoc. Qed.

Lemma length_frame ulen clen body : length (frame ulen clen body) = (14 + length body)%nat.
Proof. unfold frame. rewrite !length_app, !length_be32. simpl. lia. Qed.

Lemma frame_take ulen clen body n :
  (14 <= n)%nat -> take n (frame ulen clen body) = frame ulen clen (take (n - 14) body).
Proof.
  intros Hn. rewrite <-(app_nil_l body) at 1. rewrite <-frame_app, take_app_ge.
  - rewrite frame_app, length_frame. simpl. by rewrite Nat.sub_0_r || done.
  - rewrite length_frame. simpl. lia.
Qed.

(** A frame whose declared length is not its length is refused. *)
Lemma frame_length_mismatch ulen clen body :
  in_u32 ulen -> in_u32 clen -> Z.of_nat (length body) <> clen ->
  commit_record_decode (frame ulen clen body) = Err Storage.
Proof.
  intros Hu Hc Hl. rewrite commit_record_decode_frame by done.
  destruct (_ <? ulen); [done|]. by rewrite (proj2 (Z.eqb_neq _ _) Hl).
Qed.

(** A commit record survives its frame, and damage to the frame does not
    go unnoticed.  When encoding succeeds, decoding the frame gives the
    record back; with any bytes after it, or with any part of its end missing,
    decoding is an error. *)
Theorem commit_record_frame_exact r max x :
  commit_record_encode r max = Ok x ->
  commit_record_decode x = Ok r /\
  (forall y, y <> [] -> commit_record_decode (x ++ y) = Err Storage) /\
  (forall n, (n < length x)%nat -> commit_record_decode (take n x) = Err Storage).
Proof using pl zl.
  intros E. split; [by eapply commit_record_decode_encode|].
  apply commit_record_encode_Ok in E as (_ & p & c & Hp & Hl & Hc & ->).
  pose proof (zstd_bound p c Hc) as Hb. unfold COMMIT_LOG_MAX_FRAME_BYTES in *.
  assert (Z.of_nat (length c) < u32_modulus) as Hc'.
  { assert (length p / 256 <= length p)%nat by (apply Nat.Div0.div_le_upper_bound; lia).
    unfold u32_modulus. lia. }
  unfold u32_wrap. rewrite !Z.mod_small by (unfold u32_modulus in *; lia).
  assert (in_u32 (Z.of_nat (length p)) /\ in_u32 (Z.of_nat (length c))) as [Hu Hv]
    by (unfold in_u32, u32_modulus in *; lia). split.
  - intros y Hy. rewrite frame_app. apply frame_length_mismatch; [done..|].
    rewrite length_app. destruct y; [done|simpl; lia].
  - intros n Hn. rewrite length_frame in Hn. destruct (decide (n < 14)%nat) as [Hs|Hs].
    + unfold commit_record_decode. rewrite (proj2 (Nat.ltb_lt _ _)); [done|].
      rewrite length_take, length_frame. unfold COMMIT_LOG_HEADER_LEN. lia.
    + rewrite frame_take by lia. apply frame_length_mismatch; [done..|].
      rewrite length_take. lia.
Qed.

End frames.

(** ** Keys *)

Lemma bytes_ltb_app x y u v :
  length x = length y ->
  bytes_ltb (x ++ u) (y ++ v) = bytes_ltb x y || (bytes_eqb x y && bytes_ltb u v).
Proof.
  revert y. induction x as [|a x IH]; intros [|c y] Hl; try done. injection Hl as Hl. simpl.
  destruct (Z.ltb_spec (byte_Z a) (byte_Z c)); [done|].
  destruct (Z.eqb_spec (byte_Z a) (byte_Z c)) as [E|E].
  - apply byte_Z_inj in E as ->. simpl. rewrite IH by done.
    replace (bytes_eqb (c :: x) (c :: y)) with (bytes_eqb x y); [done|].
    unfold bytes_eqb. apply bool_decide_ext. split; congruence.
  - simpl. unfold bytes_eqb. rewrite bool_decide_eq_false_2; [done|congruence].
Qed.

Definition record_key (r : CommitRecord) : bytes :=
  encode_commit_log_key (cr_shard_id r) (cr_commit_ts r) (cr_region_id r).

Definition record_u64 (r : CommitRecord) : Prop :=
  in_u64 (cr_shard_id r) /\ in_u64 (cr_commit_ts r) /\ in_u64 (cr_region_id r).

Lemma commit_log_key_eq shard ts region :
  encode_commit_log_key shard ts region = commit_log_shard_prefix shard ++ be64 ts ++ be64 region.
Proof. unfold encode_commit_log_key, commit_log_shard_prefix. by rewrite <-!app_assoc. Qed.

Lemma record_key_inj r r' :
  record_u64 r -> record_u64 r' -> record_key r = record_key r' ->
  cr_shard_id r = cr_shard_id r' /\ cr_commit_ts r = cr_commit_ts r' /\
  cr_region_id r = cr_region_id r'.
Proof.
  intros (H1 & H2 & H3) (H1' & H2' & H3') E. unfold record_key, encode_commit_log_key in E.
  apply app_inv_head, app_inj_1 in E as [E1 E]; [|by rewrite !length_be64].
  apply app_inj_1 in E as [E2 E3]; [|by rewrite !length_be64].
  by apply be64_inj in E1, E2, E3.
Qed.

(** Two keys of one shard compare like their timestamps and regions. *)
Lemma bytes_ltb_ts_region t1 r1 t2 r2 :
  in_u64 t1 -> in_u64 r1 -> in_u64 t2 -> in_u64 r2 ->
  bytes_ltb (be64 t1 ++ be64 r1) (be64 t2 ++ be64 r2) =
  (t1 <? t2) || ((t1 =? t2) && (r1 <? r2)).
Proof.
  intros. rewrite bytes_ltb_app by (by rewrite !length_be64). rewrite !be64_lt by done.
  f_equal. f_equal. unfold bytes_eqb. apply eq_true_iff_eq.
  rewrite bool_decide_eq_true, Z.eqb_eq. split; [by apply be64_inj|congruence].
Qed.

Lemma record_key_shard r shard :
  record_u64 r -> in_u64 shard ->
  starts_with (record_key r) (commit_log_shard_prefix shard) = (cr_shard_id r =? shard).
Proof.
  intros (H1 & _) Hs. unfold record_key. rewrite commit_log_key_eq. apply eq_true_iff_eq.
  rewrite starts_with_spec, Z.eqb_eq. unfold commit_log_shard_prefix. split.
  - intros [x E]. rewrite <-!app_assoc in E.
    apply app_inv_head, app_inj_1 in E as [E _]; [|by rewrite !length_be64]. by apply be64_inj.
  - intros ->. by eexists.
Qed.

Lemma record_key_ts r shard ts :
  record_u64 r -> in_u64 shard -> in_u64 ts ->
  starts_with (record_key r) (commit_log_shard_prefix shard ++ be64 ts) =
  (cr_shard_id r =? shard) && (cr_commit_ts r =? ts).
Proof.
  intros (H1 & H2 & _) Hs Ht. unfold record_key. rewrite commit_log_key_eq. apply eq_true_iff_eq.
  rewrite starts_with_spec, andb_true_iff, !Z.eqb_eq. unfold commit_log_shard_prefix. split.
  - intros [x E]. rewrite <-!app_assoc in E.
    apply app_inv_head, app_inj_1 in E as [E E2]; [|by rewrite !length_be64].
    apply app_inj_1 in E2 as [E2 _]; [|by rewrite !length_be64]. by apply be64_inj in E, E2.
  - intros [-> ->]. eexists. by rewrite <-!app_assoc.
Qed.

(** ** The records of a store *)

Section records.
Context {pr : Postcard CommitRecord} {z : Zstd} {pl : PostcardLaws CommitRecord} {zl : ZstdLaws}.

Abbreviation commit_rows d := (iter_prefix d TABLE_COMMIT_LOG COMMIT_LOG_PREFIX).

(** A row holds the record its key names. *)
Definition row_holds (x : row) (r : CommitRecord) : Prop :=
  record_u64 r /\ x.1 = record_key r /\ commit_record_decode x.2 = Ok r.

Definition commit_log_wf (d : db) : Prop :=
  forall x, x ∈ commit_rows d -> exists r, row_holds x r.

Definition log_records (d : db) : list CommitRecord :=
  omap (fun x => match commit_record_decode x.2 with Ok r => Some r | Err _ => None end)
    (commit_rows d).

Lemma log_records_rows d : commit_log_wf d -> Forall2 row_holds (commit_rows d) (log_records d).
Proof.
  unfold commit_log_wf, log_records. induction (commit_rows d) as [|x l IH]; intros H; [constructor|].
  destruct (H x) as [r Hr]; [by left|]. simpl. pose proof Hr as (_ & _ & ->).
  constructor; [done|]. apply IH. intros y Hy. apply H. by right.
Qed.

Lemma elem_of_log_records d r :
  commit_log_wf d ->
  r ∈ log_records d <->
  exists v, tx_get d TABLE_COMMIT_LOG (record_key r) = Some v /\ commit_record_decode v = Ok r.
Proof.
  intros Hw. unfold log_records. rewrite list_elem_of_omap. split.
  - intros ([k v] & Hin & E). destruct (Hw _ Hin) as (r' & _ & Hk & Hd). simpl in *.
    rewrite Hd in E. injection E as ->. exists v. apply elem_of_iter_prefix in Hin as [Hv _].
    by subst k.
  - intros (v & Hv & Hd). exists (record_key r, v). simpl. rewrite Hd. split; [|done].
    apply elem_of_iter_prefix. split; [done|]. by eexists.
Qed.

Lemma log_record_u64 d r : commit_log_wf d -> r ∈ log_records d -> record_u64 r.
Proof.
  intros Hw Hr. unfold log_records in Hr. apply list_elem_of_omap in Hr as (x & Hin & E).
  destruct (Hw _ Hin) as (r' & Hu & _ & Hd). rewrite Hd in E. by injection E as ->.
Qed.

(** One record per key. *)
Lemma log_records_unique d r r' :
  commit_log_wf d -> r ∈ log_records d -> r' ∈ log_records d -> record_key r = record_key r' -> r = r'.
Proof.
  intros Hw (v & Hv & Hd)%elem_of_log_records (v' & Hv' & Hd')%elem_of_log_records E; [|done..].
  rewrite E in Hv. congruence.
Qed.

(** ** Appending *)

Lemma decode_no_panic data : commit_record_decode data <> Err Panic.
Proof.
  unfold commit_record_decode. destruct (Nat.ltb_spec (length data) COMMIT_LOG_HEADER_LEN); [done|].
  unfold COMMIT_LOG_HEADER_LEN in *. destruct (negb _); [done|].
  destruct (lookup_lt_is_Some_2 data 4) as [c ->]; [lia|]. cbn [ok_or mbind result_bind].
  destruct (decide _); [done|].
  destruct (lookup_lt_is_Some_2 data 5) as [c' ->]; [lia|]. cbn [ok_or mbind result_bind].
  destruct (decide _); [done|].
  unfold read_u32, slice. rewrite !decide_True by lia. cbn [ok_or mbind result_bind].
  destruct (_ <? _); [done|]. destruct (negb _); [done|].
  destruct (zstd_decompress _ _); [|done]. cbn [ok_or mbind result_bind]. destruct (negb _); [done|].
  destruct (take_from_bytes _) as [[r [|]]|]; done.
Qed.

(** What an append must do. *)
Definition append_ok (r : CommitRecord) (max : Z) (d : db) (res : result (CommitLogAppend * db))
    : Prop :=
  match res with
  | Ok (AppendInserted, d') => (exists x, commit_record_encode r max = Ok x) /\
      (forall r', r' ∈ log_records d -> record_key r' <> record_key r) /\
      commit_log_wf d' /\ (forall r', r' ∈ log_records d' <-> r' = r \/ r' ∈ log_records d)
  | Ok (AppendDuplicate, d') => r ∈ log_records d /\ d' = d
  | Err e => commit_record_encode r max = Err e \/
      exists r', r' ∈ log_records d /\ record_key r' = record_key r /\ r' <> r
  end.

Lemma commit_log_wf_insert d r x :
  commit_log_wf d -> record_u64 r -> commit_record_decode x = Ok r ->
  commit_log_wf (tx_insert TABLE_COMMIT_LOG (record_key r) x d).
Proof.
  intros Hw Hu Hd [k v] [Hv Hp]%elem_of_iter_prefix. unfold tx_insert in Hv.
  apply lookup_insert_Some in Hv as [[[= <-] <-]|[_ Hv]]; [by exists r|].
  apply Hw, elem_of_iter_prefix. done.
Qed.

Lemma append_rep r max d :
  commit_log_wf d -> record_u64 r -> append_ok r max d (append_commit_record_in_tx r max d).
Proof using pl zl.
  intros Hw Hu. unfold append_commit_record_in_tx. fold (record_key r).
  destruct (commit_record_encode r max) as [x|e] eqn:Ee; cbn [mbind result_bind]; [|by left].
  pose proof (commit_record_decode_encode r max x Ee) as Hx.
  destruct (tx_get d TABLE_COMMIT_LOG (record_key r)) as [v|] eqn:Ev.
  - destruct (Hw (record_key r, v)) as (r' & _ & Hk & Hd).
    { apply elem_of_iter_prefix. split; [done|]. by eexists. }
    simpl in Hk, Hd. rewrite Hd.
    assert (r' ∈ log_records d) as Hin by (apply elem_of_log_records; [done|]; exists v; by rewrite <-Hk).
    destruct (decide (r' = r)) as [->|Hne]; [done|]. right. by exists r'.
  - assert (commit_log_wf (tx_insert TABLE_COMMIT_LOG (record_key r) x d)) as Hw'
      by (by apply commit_log_wf_insert).
    split; [by eexists|]. split; [|split; [done|]].
    + intros r' (v & Hv & _)%elem_of_log_records E; [|done]. rewrite E in Hv. congruence.
    + intros r'. rewrite !elem_of_log_records by done. split.
      * intros (v & Hv & Hd). destruct (decide (record_key r' = record_key r)) as [E|E].
        -- rewrite E, tx_get_insert in Hv. injection Hv as <-. left. congruence.
        -- right. exists v. rewrite tx_get_insert_ne in Hv by congruence. done.
      * intros [->|(v & Hv & Hd)]; [exists x; split; [apply tx_get_insert|done]|].
        exists v. split; [|done]. rewrite tx_get_insert_ne; [done|].
        intros E. apply (f_equal snd) in E. simpl in E. rewrite <-E in Hv. congruence.
Qed.

(** ** Scans *)

Lemma decode_rows_ok rows rs : Forall2 row_holds rows rs -> decode_commit_log_rows rows = Ok rs.
Proof.
  induction 1 as [|x r rows rs (_ & _ & Hd) _ IH]; [done|]. simpl. unfold decode_commit_log_row.
  rewrite Hd. cbn [mbind result_bind]. by rewrite IH.
Qed.

(** A scan inside the log is a filter of its records. *)
Lemma scan_records d a e (p : CommitRecord -> bool) :
  commit_log_wf d -> (forall k, in_range a e k = true -> starts_with k COMMIT_LOG_PREFIX = true) ->
  (forall r, record_u64 r -> in_range a e (record_key r) = p r) ->
  Forall2 row_holds (iter_range d TABLE_COMMIT_LOG a e) (List.filter p (log_records d)).
Proof.
  intros Hw Ha Hp.
  assert (iter_range d TABLE_COMMIT_LOG a e =
    List.filter (fun x => in_range a e x.1) (commit_rows d)) as ->.
  { rewrite iter_range_filter, iter_prefix_filter, filter_filter_and. apply List.filter_ext.
    intros x. destruct (in_range a e x.1) eqn:E; [by rewrite (Ha _ E)|by rewrite andb_false_r]. }
  eapply Forall2_filter; [by apply log_records_rows|]. intros x r (Hu & -> & _). by apply Hp.
Qed.

Lemma shard_prefix_log shard k :
  starts_with k (commit_log_shard_prefix shard) = true -> starts_with k COMMIT_LOG_PREFIX = true.
Proof.
  rewrite !starts_with_spec. intros [x ->]. unfold commit_log_shard_prefix. rewrite <-app_assoc.
  by eexists.
Qed.

Lemma after_range shard after r :
  record_u64 r -> in_u64 shard -> in_u64 (after + 1) -> 0 <= after ->
  in_range (encode_commit_log_key shard (u64_saturating_add after 1) 0)
    (prefix_upper_bound (commit_log_shard_prefix shard)) (record_key r) =
  (cr_shard_id r =? shard) && (after <? cr_commit_ts r).
Proof.
  intros Hu Hs Ha H0. replace (u64_saturating_add after 1) with (after + 1)
    by (unfold u64_saturating_add, in_u64, u64_max in *; lia).
  rewrite commit_log_key_eq, in_range_prefix_from, record_key_shard by done.
  destruct (Z.eqb_spec (cr_shard_id r) shard) as [E|]; [|done]. rewrite !andb_true_l.
  unfold record_key. rewrite commit_log_key_eq, E, bytes_leb_app_r. unfold bytes_leb.
  destruct Hu as (_ & Ht & Hr).
  rewrite bytes_ltb_ts_region by (done || by unfold in_u64). apply eq_true_iff_eq.
  rewrite negb_true_iff, orb_false_iff, andb_false_iff, Z.ltb_lt, !Z.ltb_ge, Z.eqb_neq.
  unfold in_u64 in *. lia.
Qed.

Lemma take_limit_eq {A : Type} limit (l : list A) :
  (limit = 0%nat -> take_limit limit l = l) /\ ((0 < limit)%nat -> take_limit limit l = take limit l).
Proof. unfold take_limit. destruct (Nat.eqb_spec limit 0); split; try done; lia. Qed.

Lemma commit_records_after_rep d shard after limit :
  commit_log_wf d -> in_u64 shard -> in_u64 (after + 1) -> 0 <= after ->
  commit_records_after d shard after limit =
  Ok (take_limit limit
    (List.filter (fun r => (cr_shard_id r =? shard) && (after <? cr_commit_ts r)) (log_records d))).
Proof.
  intros Hw Hs Ha H0. unfold commit_records_after. apply decode_rows_ok.
  set (a := encode_commit_log_key _ _ _). set (e := prefix_upper_bound _).
  assert (Forall2 row_holds (iter_range d TABLE_COMMIT_LOG a e) (List.filter
    (fun r => (cr_shard_id r =? shard) && (after <? cr_commit_ts r)) (log_records d))) as Hf.
  { apply scan_records; [done| |by intros; apply after_range]. intros k Hk. unfold a, e in Hk.
    rewrite commit_log_key_eq, in_range_prefix_from in Hk. apply andb_true_iff in Hk as [Hk _].
    by eapply shard_prefix_log. }
  destruct limit as [|n].
  - exact Hf.
  - rewrite iter_range_limited_take by lia.
    rewrite (proj2 (take_limit_eq (S n) _)) by lia. by apply Forall2_take.
Qed.

Lemma commit_records_at_rep d shard ts :
  commit_log_wf d -> in_u64 shard -> in_u64 ts ->
  commit_records_at d shard ts =
  Ok (List.filter (fun r => (cr_shard_id r =? shard) && (cr_commit_ts r =? ts)) (log_records d)).
Proof.
  intros Hw Hs Ht. unfold commit_records_at. apply decode_rows_ok.
  set (p := take _ _). assert (p = commit_log_shard_prefix shard ++ be64 ts) as ->.
  { unfold p. rewrite commit_log_key_eq, app_assoc, length_app, length_be64.
    apply take_app_length'. lia. }
  rewrite <-iter_range_prefix. apply scan_records; [done| |].
  - intros k Hk. rewrite in_range_prefix in Hk. apply starts_with_spec in Hk as [x ->].
    apply starts_with_spec. unfold commit_log_shard_prefix. rewrite <-!app_assoc. by eexists.
  - intros r Hu. rewrite in_range_prefix. by apply record_key_ts.
Qed.

Lemma log_records_sorted d :
  commit_log_wf d ->
  StronglySorted (fun r r' => bytes_lt (record_key r) (record_key r')) (log_records d).
Proof.
  intros Hw. pose proof (log_records_rows d Hw) as Hf.
  pose proof (iter_prefix_sorted d TABLE_COMMIT_LOG COMMIT_LOG_PREFIX) as Hs.
  revert Hs. induction Hf as [|x r l rs (_ & Hk & _) Hf IH]; intros Hs; [constructor|].
  apply StronglySorted_inv in Hs as [Hs Hx]. constructor; [by apply IH|].
  rewrite Forall_forall. rewrite Forall_forall in Hx. intros r' [i Hi]%list_elem_of_lookup.
  destruct (Forall2_lookup_r _ _ _ _ _ Hf Hi) as (y & Hy & (_ & Hk' & _)).
  rewrite <-Hk, <-Hk'. apply Hx. by eapply list_elem_of_lookup_2.
Qed.

(** Within one shard the order is that of timestamps and Regions. *)
Lemma shard_sorted d (p : CommitRecord -> bool) shard :
  commit_log_wf d ->
  (forall r, r ∈ List.filter p (log_records d) -> r ∈ log_records d /\ cr_shard_id r = shard) ->
  StronglySorted (fun r r' => cr_commit_ts r < cr_commit_ts r' \/
    (cr_commit_ts r = cr_commit_ts r' /\ cr_region_id r < cr_region_id r'))
    (List.filter p (log_records d)).
Proof.
  intros Hw Hp.
  pose proof (StronglySorted_List_filter _ p _ (log_records_sorted d Hw)) as Hs.
  induction Hs as [|r l Hs IH Hr]; [constructor|]. constructor.
  - apply IH. intros r' ?. apply Hp. by right.
  - rewrite Forall_forall in *. intros r' Hr'. specialize (Hr r' Hr').
    destruct (Hp r) as [Hin E]; [by left|]. destruct (Hp r') as [Hin' E']; [by right|].
    apply log_record_u64 in Hin as (_ & ? & ?), Hin' as (_ & ? & ?); [|done..].
    unfold bytes_lt, record_key in Hr. rewrite !commit_log_key_eq, E, E', bytes_lt_app_r in Hr.
    rewrite bytes_ltb_ts_region in Hr by done. lia.
Qed.

(** ** Trimming *)

Lemma in_range_below p e k :
  e <> [] -> in_range p (p ++ e) k = starts_with k p && bytes_ltb k (p ++ e).
Proof.
  intros He. apply eq_true_iff_eq. rewrite in_range_spec, andb_true_iff. split.
  - intros [Hle [E|Hlt]]; [by destruct p, e|]. split; [|done].
    rewrite <-(app_nil_r p) in Hle. destruct (between_prefix _ _ _ _ Hle Hlt) as [x ->].
    apply starts_with_app.
  - intros [[x ->]%starts_with_spec Hlt]. split; [apply bytes_le_app|by right].
Qed.

Lemma trim_range target r :
  record_u64 r -> in_u64 target ->
  in_range (commit_log_shard_prefix COMMIT_LOG_STAGING_SHARD_ID)
    (encode_commit_log_key COMMIT_LOG_STAGING_SHARD_ID target 0) (record_key r) =
  (cr_shard_id r =? COMMIT_LOG_STAGING_SHARD_ID) && (cr_commit_ts r <? target).
Proof.
  intros Hu Ht. rewrite commit_log_key_eq, in_range_below by done.
  rewrite record_key_shard by done.
  destruct (Z.eqb_spec (cr_shard_id r) COMMIT_LOG_STAGING_SHARD_ID) as [E|]; [|done].
  rewrite !andb_true_l. unfold record_key. rewrite commit_log_key_eq, E, bytes_lt_app_r.
  destruct Hu as (_ & ? & Hr). rewrite bytes_ltb_ts_region by (done || by unfold in_u64).
  destruct (Z.ltb_spec (cr_region_id r) 0); [unfold in_u64 in Hr; lia|].
  by rewrite andb_false_r, orb_false_r.
Qed.

Definition staged (target : Z) (r : CommitRecord) : bool :=
  (cr_shard_id r =? COMMIT_LOG_STAGING_SHARD_ID) && (cr_commit_ts r <? target).

Lemma staged_rows d target :
  commit_log_wf d -> in_u64 target ->
  Forall2 row_holds (iter_range d TABLE_COMMIT_LOG
    (commit_log_shard_prefix COMMIT_LOG_STAGING_SHARD_ID)
    (encode_commit_log_key COMMIT_LOG_STAGING_SHARD_ID target 0))
    (List.filter (staged target) (log_records d)).
Proof.
  intros Hw Ht. apply scan_records; [done| |by intros; apply trim_range].
  intros k Hk. rewrite commit_log_key_eq, in_range_below in Hk by done.
  apply andb_true_iff in Hk as [Hk _]. by eapply shard_prefix_log.
Qed.

(** The store after the first [n] of the staged records are removed. *)
Lemma remove_rows_records d (rows : list row) rs :
  commit_log_wf d -> Forall2 row_holds rows rs -> (forall r, r ∈ rs -> r ∈ log_records d) ->
  let d' := foldl (fun d '(key, _) => tx_remove TABLE_COMMIT_LOG key d) d rows in
  commit_log_wf d' /\ forall r, r ∈ log_records d' <-> r ∈ log_records d /\ r ∉ rs.
Proof.
  intros Hw Hf Hin d'.
  assert (forall k, tx_get d' TABLE_COMMIT_LOG k =
    if decide (k ∈ rows.*1) then None else tx_get d TABLE_COMMIT_LOG k) as Hg.
  { intros k. unfold d'. rewrite tx_get_remove_pairs. apply decide_ext. split; [by intros []|done]. }
  assert (commit_log_wf d') as Hw'.
  { intros [k v] [Hv Hp]%elem_of_iter_prefix. apply Hw, elem_of_iter_prefix. split; [|done].
    specialize (Hg k). unfold tx_get in Hg. rewrite Hv in Hg. by destruct (decide _). }
  split; [done|]. intros r. rewrite !elem_of_log_records by done. rewrite Hg. split.
  - intros (v & Hv & Hd). destruct (decide _) as [|Hn]; [done|]. split; [by exists v|].
    intros [i Hi]%list_elem_of_lookup. apply Hn.
    destruct (Forall2_lookup_r _ _ _ _ _ Hf Hi) as ([k w] & Hy & (_ & Hk & _)).
    apply list_elem_of_fmap. exists (k, w). split; [done|]. by eapply list_elem_of_lookup_2.
  - intros [(v & Hv & Hd) Hn]. exists v. rewrite decide_False; [done|].
    intros ([k w] & Hk & [i Hi]%list_elem_of_lookup)%list_elem_of_fmap.
    destruct (Forall2_lookup_l _ _ _ _ _ Hf Hi) as (r' & Hr' & (_ & Hk' & _)). simpl in *.
    apply Hn. apply list_elem_of_lookup_2 in Hr'.
    rewrite (log_records_unique d r r'); [done|done|..].
    + apply elem_of_log_records; [done|]. by exists v.
    + by apply Hin.
    + congruence.
Qed.

Lemma commit_log_key_ts_record r :
  record_u64 r -> commit_log_key_ts (record_key r) = Some (cr_commit_ts r).
Proof.
  intros (_ & Ht & _). unfold commit_log_key_ts, record_key, encode_commit_log_key.
  change (length COMMIT_LOG_PREFIX + 8)%nat with (length COMMIT_LOG_PREFIX + (8 + 0))%nat.
  rewrite slice_skip, slice_skip, slice_here by done. cbn [mbind option_bind]. by rewrite be64_val.
Qed.

Lemma trimmed_before_insert before d :
  in_u64 before ->
  commit_log_trimmed_before (tx_insert TABLE_META META_COMMIT_LOG_TRIMMED_BEFORE (be64 before) d) =
  before.
Proof.
  intros Hb. unfold commit_log_trimmed_before. rewrite tx_get_insert. cbn [mbind option_bind].
  by rewrite decode_u64_be64.
Qed.

Lemma log_records_proper d d' :
  same_table TABLE_COMMIT_LOG d' d ->
  log_records d' = log_records d /\ (commit_log_wf d -> commit_log_wf d').
Proof.
  intros H. assert (commit_rows d' = commit_rows d) as E by (by apply iter_prefix_same).
  unfold log_records, commit_log_wf. by rewrite E.
Qed.

(** The records that are trimmed and the one that is next. *)
Abbreviation trimmed d target limit := (take limit (List.filter (staged target) (log_records d))).
Abbreviation trim_next d target limit := (List.filter (staged target) (log_records d) !! limit).

Lemma trim_rows_rep d previous target limit :
  commit_log_wf d -> in_u64 target -> in_u64 previous ->
  exists d', trim_rows d previous target limit =
      Ok ((Z.max (from_option cr_commit_ts target (trim_next d target limit)) previous,
           Z.of_nat (length (trimmed d target limit))), d') /\
    commit_log_wf d' /\
    (forall r, r ∈ log_records d' <-> r ∈ log_records d /\ r ∉ trimmed d target limit) /\
    (previous = commit_log_trimmed_before d -> commit_log_trimmed_before d' =
       Z.max (from_option cr_commit_ts target (trim_next d target limit)) previous) /\
    same_table TABLE_KV d' d.
Proof.
  intros Hw Ht Hp. unfold trim_rows. rewrite iter_range_limited_take by lia.
  pose proof (staged_rows d target Hw Ht) as Hf. set (R := iter_range _ _ _ _) in *.
  set (F := List.filter (staged target) (log_records d)) in *.
  assert (Forall2 row_holds (take limit R) (take limit F)) as Hf' by (by apply Forall2_take).
  pose proof (Forall2_length _ _ _ Hf) as Hlen.
  replace (Nat.min (length (take (limit + 1) R)) limit) with (length (take limit F))
    by (rewrite !length_take; lia).
  replace (take (length (take limit F)) (take (limit + 1) R)) with (take limit R).
  2:{ rewrite take_take, length_take. destruct (decide (limit <= length F)%nat).
      - f_equal; lia. - rewrite !take_ge by lia. done. }
  assert (forall r, r ∈ F -> r ∈ log_records d) as Hsub by (by intros r [_ ?]%elem_of_List_filter).
  destruct (remove_rows_records d (take limit R) (take limit F) Hw Hf') as [Hw' Hr].
  { intros r Hr. apply Hsub. by eapply subseteq_take. }
  set (d1 := foldl _ d (take limit R)) in *.
  assert ((match take (limit + 1) R !! length (take limit F) with
           | Some (key, _) => ok_or (commit_log_key_ts key) Storage | None => Ok target end) =
    Ok (from_option cr_commit_ts target (F !! limit))) as ->.
  { rewrite length_take. destruct (F !! limit) as [r1|] eqn:E.
    - pose proof (lookup_lt_Some _ _ _ E). replace (limit `min` length F)%nat with limit by lia.
      rewrite lookup_take_lt by lia.
      destruct (Forall2_lookup_r _ _ _ _ _ Hf E) as ([k v] & -> & (Hu & Hk & _)). simpl in Hk.
      subst k. by rewrite commit_log_key_ts_record.
    - apply lookup_ge_None in E. rewrite lookup_ge_None_2; [done|]. rewrite length_take. lia. }
  cbn [mbind result_bind]. eexists. split; [done|].
  set (before := Z.max _ previous).
  assert (in_u64 before) as Hb.
  { unfold before. destruct (F !! limit) as [r1|] eqn:E; simpl; [|unfold in_u64 in *; lia].
    apply list_elem_of_lookup_2, Hsub, log_record_u64 in E as (_ & ? & _); [|done].
    unfold in_u64 in *; lia. }
  assert (same_table TABLE_META d1 d /\ same_table TABLE_KV d1 d) as [Hm Hkv].
  { split; intros k; unfold d1; rewrite tx_get_remove_pairs; by rewrite decide_False by (by intros []). }
  destruct (Z.ltb_spec previous before).
  - destruct (log_records_proper d1 (tx_insert TABLE_META META_COMMIT_LOG_TRIMMED_BEFORE
      (be64 before) d1)) as [El Hl]; [by apply same_table_insert|].
    split; [by apply Hl|]. split; [by rewrite El|]. split; [intros _; by apply trimmed_before_insert|].
    etrans; [by apply same_table_insert|done].
  - split; [done|]. split; [done|]. split; [|done]. intros ->. unfold before in *.
    unfold commit_log_trimmed_before at 1. rewrite Hm. fold (commit_log_trimmed_before d). lia.
Qed.

Lemma trimmed_before_u64 d : in_u64 (commit_log_trimmed_before d).
Proof.
  unfold commit_log_trimmed_before.
  destruct (tx_get d TABLE_META META_COMMIT_LOG_TRIMMED_BEFORE) as [x|]; [|by vm_compute].
  cbn [mbind option_bind]. destruct (decode_u64 x) eqn:E; [|by vm_compute].
  by eapply decode_u64_range.
Qed.

(** Everything below the mark is gone. *)
Definition outbox_trimmed (d : db) : Prop :=
  forall r, r ∈ log_records d -> cr_shard_id r = COMMIT_LOG_STAGING_SHARD_ID ->
    commit_log_trimmed_before d <= cr_commit_ts r.

(** A staged record that is not among the first ones is not below the next. *)
Lemma trim_next_bound d target limit r :
  commit_log_wf d -> r ∈ log_records d -> r ∉ trimmed d target limit ->
  cr_shard_id r = COMMIT_LOG_STAGING_SHARD_ID ->
  from_option cr_commit_ts target (trim_next d target limit) <= cr_commit_ts r.
Proof.
  intros Hw Hr Hn Hs. set (F := List.filter (staged target) (log_records d)) in *.
  assert (forall r1, F !! limit = Some r1 -> r1 ∈ log_records d /\ staged target r1 = true) as HF.
  { intros r1 [? ?]%list_elem_of_lookup_2%elem_of_List_filter. done. }
  destruct (Z.ltb_spec (cr_commit_ts r) target) as [Hlt|Hge].
  - assert (r ∈ F) as [i Hi]%list_elem_of_lookup.
    { apply elem_of_List_filter. split; [|done]. unfold staged. rewrite Hs. by apply Z.ltb_lt in Hlt. }
    assert (limit <= i)%nat as Hli.
    { destruct (decide (limit <= i)%nat); [done|]. destruct Hn. apply elem_of_take. exists i.
      split; [done|lia]. }
    destruct (F !! limit) as [r1|] eqn:E; simpl.
    2:{ apply lookup_ge_None in E. apply lookup_lt_Some in Hi. lia. }
    destruct (decide (limit = i)) as [->|Hne]; [by simplify_eq|].
    destruct (HF r1 eq_refl) as [Hr1 [Hs1%Z.eqb_eq _]%andb_true_iff].
    assert (bytes_lt (record_key r1) (record_key r)) as Hb.
    { apply (StronglySorted_lookup_lt (fun r r' => bytes_lt (record_key r) (record_key r')) F limit i);
        [|done|done|lia].
      by apply StronglySorted_List_filter, log_records_sorted. }
    pose proof (log_record_u64 d r Hw Hr) as (_ & Ht & Hg).
    pose proof (log_record_u64 d r1 Hw Hr1) as (_ & Ht1 & Hg1).
    unfold bytes_lt, record_key in Hb. rewrite !commit_log_key_eq, Hs, Hs1, bytes_lt_app_r in Hb.
    rewrite bytes_ltb_ts_region in Hb by done. lia.
  - destruct (F !! limit) as [r1|] eqn:E; simpl; [|done].
    destruct (HF r1 eq_refl) as [_ [_ ?%Z.ltb_lt]%andb_true_iff]. lia.
Qed.

Lemma note_applied_commit_log s applied d1 :
  let d2 := note_log_index_revision s (insert_last_applied applied d1) (index applied) in
  same_table TABLE_COMMIT_LOG d2 d1 /\ commit_log_trimmed_before d2 = commit_log_trimmed_before d1.
Proof.
  unfold note_log_index_revision, insert_last_applied, set_current_revision.
  split; [frame|]. unfold commit_log_trimmed_before.
  destruct (decide _); [destruct (_ <? _)|]; by rewrite !tx_get_insert_ne by discriminate.
Qed.

(** Trimming is safe.  It removes records of the staging shard below the
    requested timestamp and nothing else, at most [max_rows] (and at least one)
    per call; the mark it stores and returns only grows, never passes the
    request, and no record below it remains; a call that removed fewer rows
    than it may have reached the request.  Replaying the log entry changes
    nothing. *)
Theorem trim_commit_log_outbox_safe s d through max_rows applied :
  commit_log_wf d -> outbox_trimmed d -> in_u64 through ->
  (applied_contains d applied = true ->
   trim_commit_log_outbox s d through max_rows applied =
     (Ok {| trimmed_before := commit_log_trimmed_before d; removed := 0 |}, d)) /\
  (applied_contains d applied = false ->
   exists before n d', trim_commit_log_outbox s d through max_rows applied =
       (Ok {| trimmed_before := before; removed := Z.of_nat n |}, d') /\
     commit_log_wf d' /\ outbox_trimmed d' /\ commit_log_trimmed_before d' = before /\
     commit_log_trimmed_before d <= before <= Z.max through (commit_log_trimmed_before d) /\
     (n <= Nat.max max_rows 1)%nat /\
     ((n < Nat.max max_rows 1)%nat -> before = Z.max through (commit_log_trimmed_before d)) /\
     (forall r, r ∈ log_records d' -> r ∈ log_records d) /\
     (forall r, r ∈ log_records d -> r ∉ log_records d' ->
        cr_shard_id r = COMMIT_LOG_STAGING_SHARD_ID /\ cr_commit_ts r < through)).
Proof.
  intros Hw Ho Hu. unfold trim_commit_log_outbox, backend_write.
  split; intros ->; [done|]. pose proof (trimmed_before_u64 d) as Hp.
  set (prev := commit_log_trimmed_before d) in *. set (n := Nat.max max_rows 1).
  destruct (Z.ltb_spec prev (Z.max through prev)) as [Hlt|Hge].
  - destruct (trim_rows_rep d prev (Z.max through prev) n Hw) as (d1 & -> & Hw1 & Hr1 & Hb1 & _);
      [unfold in_u64 in *; lia|done|]. cbn [mbind result_bind].
    destruct (note_applied_commit_log s applied d1) as [Ht Hb]. destruct (log_records_proper _ _ Ht) as [El Hwf].
    set (next := from_option _ _ _) in *. rewrite (Hb1 eq_refl) in Hb.
    assert (next <= Z.max through prev) as Hnext.
    { unfold next. destruct (trim_next d _ n) as [r1|] eqn:E; simpl; [|lia].
      apply list_elem_of_lookup_2, elem_of_List_filter in E as [[_ ?%Z.ltb_lt]%andb_true_iff _]. lia. }
    eexists _, _, _. split; [done|]. split; [by apply Hwf|].
    split; [|split; [done|split; [lia|split; [rewrite length_take; lia|]]]].
    { intros r Hr Hs. rewrite El in Hr. apply Hr1 in Hr as [Hr Hn]. rewrite Hb.
      pose proof (trim_next_bound d _ n r Hw Hr Hn Hs). specialize (Ho r Hr Hs). fold prev in Ho.
      fold next in H. lia. }
    split.
    { intros Hl. rewrite length_take in Hl. unfold next. rewrite lookup_ge_None_2 by lia. simpl. lia. }
    rewrite El. split; [intros r [? _]%Hr1; done|].
    intros r Hr Hn. destruct (decide (r ∈ trimmed d (Z.max through prev) n)) as [Hin|Hin].
    + apply subseteq_take, elem_of_List_filter in Hin as [[Hs%Z.eqb_eq Hts%Z.ltb_lt]%andb_true_iff _].
      split; [done|]. specialize (Ho r Hr Hs). fold prev in Ho. lia.
    + destruct Hn. by apply Hr1.
  - cbn [mbind result_bind]. destruct (note_applied_commit_log s applied d) as [Ht Hb].
    destruct (log_records_proper _ _ Ht) as [El Hwf]. fold prev in Hb.
    eexists prev, 0%nat, _. split; [done|]. split; [by apply Hwf|].
    split; [|split; [done|split; [lia|split; [lia|split; [lia|]]]]].
    + intros r Hr Hs. rewrite Hb. rewrite El in Hr. by apply Ho.
    + rewrite El. by split.
Qed.

(** The commit log is written once.  Appending a record to a well-formed
    log either adds exactly that record under a free key; or finds the very
    same record already there and changes nothing; or is refused, because the
    record is not encodable or because a different record holds its key, and
    changes nothing.  A record that was added is found to be a duplicate ever
    after. *)
Theorem commit_log_append_once r max d :
  commit_log_wf d -> record_u64 r ->
  append_ok r max d (append_commit_record_in_tx r max d) /\
  (forall d' max' x, append_commit_record_in_tx r max d = Ok (AppendInserted, d') ->
     commit_record_encode r max' = Ok x ->
     append_commit_record_in_tx r max' d' = Ok (AppendDuplicate, d')).
Proof using pl zl.
  intros Hw Hu. pose proof (append_rep r max d Hw Hu) as H. split; [done|].
  intros d' max' x E Ex. rewrite E in H. destruct H as (_ & _ & Hw' & Hin).
  pose proof (append_rep r max' d' Hw' Hu) as H'.
  assert (r ∈ log_records d') as Hr by (apply Hin; by left).
  destruct (append_commit_record_in_tx r max' d') as [[[|] d'']|e].
  - destruct H' as (_ & Hfree & _). by destruct (Hfree r Hr).
  - by destruct H' as [_ ->].
  - destruct H' as [H'|(r' & Hr' & Hk & Hne)]; [congruence|]. destruct Hne.
    by apply (log_records_unique d').
Qed.

(** Reading the commit log by cursor is exact.  [commit_records_after]
    returns the records of the shard after the cursor, and
    [commit_records_at] those of one timestamp, in the order of timestamp and
    Region, up to the limit; none is left out and none is made up. *)
Theorem commit_log_scans_exact d shard ts limit :
  commit_log_wf d -> in_u64 shard -> 0 <= ts -> in_u64 (ts + 1) ->
  exists after at_,
    commit_records_after d shard ts limit = Ok (take_limit limit after) /\
    commit_records_at d shard ts = Ok at_ /\
    (forall r, r ∈ after <-> r ∈ log_records d /\ cr_shard_id r = shard /\ ts < cr_commit_ts r) /\
    (forall r, r ∈ at_ <-> r ∈ log_records d /\ cr_shard_id r = shard /\ cr_commit_ts r = ts) /\
    StronglySorted (fun r r' => cr_commit_ts r < cr_commit_ts r' \/
      (cr_commit_ts r = cr_commit_ts r' /\ cr_region_id r < cr_region_id r')) (at_ ++ after).
Proof.
  intros Hw Hs H0 Hts.
  assert (in_u64 ts) as Hu by (unfold in_u64 in *; lia).
  eexists _, _. split; [by apply commit_records_after_rep|]. split; [by apply commit_records_at_rep|].
  assert (forall r, r ∈ List.filter (fun r => (cr_shard_id r =? shard) && (ts <? cr_commit_ts r))
    (log_records d) <-> r ∈ log_records d /\ cr_shard_id r = shard /\ ts < cr_commit_ts r) as Ha.
  { intros r. rewrite elem_of_List_filter, andb_true_iff, Z.eqb_eq, Z.ltb_lt. naive_solver. }
  assert (forall r, r ∈ List.filter (fun r => (cr_shard_id r =? shard) && (cr_commit_ts r =? ts))
    (log_records d) <-> r ∈ log_records d /\ cr_shard_id r = shard /\ cr_commit_ts r = ts) as Hat.
  { intros r. rewrite elem_of_List_filter, andb_true_iff, !Z.eqb_eq. naive_solver. }
  split; [done|]. split; [done|]. apply StronglySorted_app_2.
  - intros r r' (_ & _ & <-)%Hat (_ & _ & ?)%Ha. by left.
  - apply shard_sorted with shard; [done|]. by intros r (? & ? & _)%Hat.
  - apply shard_sorted with shard; [done|]. by intros r (? & ? & _)%Ha.
Qed.

End records.
