(* ===== verification/CommitLogShip.v ===== *)
(** * Shipping records to a shard group

    [apply_commit_log_append] accounts for every record it is given: accepted
    records are in the log, and the cursor, the count and the per-Region marks
    move with them. *)

From S2P Require Export CommitLogFacts.

Local Open Scope Z_scope.

(** ** The map of marks *)

Fixpoint assoc (g : Z) (m : list (Z * Z)) : option Z :=
  match m with
  | [] => None
  | (k, ts) :: m => if g =? k then Some ts else assoc g m
  end.

Definition keys_lt (x y : Z * Z) : Prop := x.1 < y.1.

Lemma assoc_not_in g m : Forall (fun x => g < x.1) m -> assoc g m = None.
Proof.
  induction 1 as [|[k ts] m Hk _ IH]; [done|]. simpl in *. by destruct (Z.eqb_spec g k); [lia|].
Qed.

Lemma shipped_max_lookup k ts m g :
  StronglySorted keys_lt m ->
  assoc g (shipped_max k ts m) =
  if g =? k then Some (from_option (fun t => Z.max t ts) ts (assoc k m)) else assoc g m.
Proof.
  induction 1 as [|[k' ts'] m Hs IH Hk]; simpl; [done|].
  destruct (Z.eqb_spec k k') as [<-|Hne]; simpl; [by destruct (Z.eqb_spec g k)|].
  destruct (Z.ltb_spec k k') as [Hlt|Hge]; simpl.
  - destruct (Z.eqb_spec g k) as [->|]; [|done]. rewrite assoc_not_in; [done|].
    eapply Forall_impl; [exact Hk|]. unfold keys_lt. simpl. lia.
  - rewrite IH. destruct (Z.eqb_spec g k') as [->|]; [|done]. by destruct (Z.eqb_spec k' k); [lia|].
Qed.

Lemma shipped_max_keys k ts m (P : Z -> Prop) :
  P k -> Forall (fun x => P x.1) m -> Forall (fun x => P x.1) (shipped_max k ts m).
Proof.
  intros Hk. induction 1 as [|[k' ts'] m Hk' Hm IH]; simpl; [by constructor|].
  destruct (k =? k'); [by constructor|]. destruct (k <? k'); [by repeat constructor|by constructor].
Qed.

Lemma shipped_max_sorted k ts m :
  StronglySorted keys_lt m -> StronglySorted keys_lt (shipped_max k ts m).
Proof.
  induction 1 as [|[k' ts'] m Hs IH Hk]; simpl; [repeat constructor|].
  destruct (Z.eqb_spec k k') as [->|Hne]; [by constructor|].
  destruct (Z.ltb_spec k k').
  - constructor; [by constructor|]. constructor; [done|].
    eapply Forall_impl; [exact Hk|]. unfold keys_lt. simpl. lia.
  - constructor; [done|]. apply (shipped_max_keys k ts m (fun x => k' < x)); [lia|done].
Qed.

Section ship.
Context {pr : Postcard CommitRecord} {z : Zstd} {pl : PostcardLaws CommitRecord} {zl : ZstdLaws}.

(** ** The loop *)

Definition ship (m : list (Z * Z)) (r : CommitRecord) : list (Z * Z) :=
  shipped_max (cr_region_id r) (cr_commit_ts r) m.

(** The effect of the loop on the records it accepts. *)
Record shipped_as (shard_id start_ts end_ts : Z) (records accepted : list CommitRecord)
    (res res' : CommitLogAppendResult) (m m' : list (Z * Z)) (d d' : db) : Prop := {
  sh_wf : commit_log_wf d';
  sh_frame : forall t, t <> TABLE_COMMIT_LOG -> same_table t d' d;
  sh_sub : accepted `sublist_of` records;
  sh_inside : Forall (fun r => outside_shard shard_id start_ts end_ts r = false) accepted;
  sh_records : forall r, r ∈ log_records d' <-> r ∈ log_records d \/ r ∈ accepted;
  sh_accepted : inserted res' + duplicates res' =
    inserted res + duplicates res + Z.of_nat (length accepted);
  sh_rejected : rejected res' + Z.of_nat (length accepted) =
    rejected res + Z.of_nat (length records);
  sh_inserted : inserted res <= inserted res' /\ duplicates res <= duplicates res';
  sh_cursor : cursor_ts res' = foldl (fun c r => Z.max c (cr_commit_ts r)) (cursor_ts res) accepted;
  sh_marks : m' = foldl ship m accepted }.

Definition count_rejected (res : CommitLogAppendResult) : CommitLogAppendResult :=
  {| inserted := inserted res; duplicates := duplicates res; rejected := rejected res + 1;
     cursor_ts := cursor_ts res |}.

Lemma shipped_reject sid a e r records acc res res' m m' d d' :
  shipped_as sid a e records acc (count_rejected res) res' m m' d d' ->
  shipped_as sid a e (r :: records) acc res res' m m' d d'.
Proof. intros [? ? ? ? ? H1 H2 H3 ? ?]. split; simpl in *; try done; try lia. by constructor. Qed.

Lemma shipped_accept sid a e r records acc res res1 res' m m' d d1 d' :
  outside_shard sid a e r = false ->
  (forall t, t <> TABLE_COMMIT_LOG -> same_table t d1 d) ->
  (forall r', r' ∈ log_records d1 <-> r' = r \/ r' ∈ log_records d) ->
  inserted res1 + duplicates res1 = inserted res + duplicates res + 1 ->
  inserted res <= inserted res1 -> duplicates res <= duplicates res1 ->
  rejected res1 = rejected res -> cursor_ts res1 = Z.max (cursor_ts res) (cr_commit_ts r) ->
  shipped_as sid a e records acc res1 res' (ship m r) m' d1 d' ->
  shipped_as sid a e (r :: records) (r :: acc) res res' m m' d d'.
Proof.
  intros Hin Hfr Hlog Hs Hi Hd Hrj Hc [? Hf ? ? H0 H1 H2 H3 H4 H5].
  split; simpl in *; try done; try lia; [|by constructor|by constructor| |by rewrite <-Hc].
  - intros t Ht. etrans; [by apply Hf|by apply Hfr].
  - intros r'. rewrite H0, Hlog, elem_of_cons. tauto.
Qed.

Lemma append_frame r max d out d' :
  append_commit_record_in_tx r max d = Ok (out, d') ->
  forall t, t <> TABLE_COMMIT_LOG -> same_table t d' d.
Proof.
  intros E t Ht. unfold append_commit_record_in_tx in E.
  destruct (commit_record_encode r max); [|done]. cbn [mbind result_bind] in E.
  destruct (tx_get d TABLE_COMMIT_LOG _).
  - destruct (commit_record_decode _) as [|[]]; try done. destruct (decide _); [|done].
    by injection E as <- <-.
  - injection E as <- <-. by apply same_table_insert.
Qed.

Lemma append_records_rep sid a e max records res m d :
  commit_log_wf d -> Forall record_u64 records ->
  exists accepted res' m' d',
    append_records sid a e max records res m d = ((res', m'), d') /\
    shipped_as sid a e records accepted res res' m m' d d'.
Proof using pl zl.
  intros Hw Hu. revert res m d Hw. induction Hu as [|r records Hr Hu IH]; intros res m d Hw.
  { exists [], res, m, d. split; [done|]. split; simpl; try done; try lia.
    intros r. rewrite elem_of_nil. tauto. }
  cbn [append_records]. fold (count_rejected res).
  destruct (IH (count_rejected res) m d Hw) as (acc & res' & m' & d' & Erj & Hrj).
  pose proof (shipped_reject _ _ _ r _ _ _ _ _ _ _ _ Hrj) as Hrj'.
  destruct (outside_shard sid a e r) eqn:Eo; [by exists acc, res', m', d'|].
  pose proof (append_rep r max d Hw Hr) as Ha.
  destruct (append_commit_record_in_tx r max d) as [[out d1]|err] eqn:Ea;
    [|by exists acc, res', m', d'].
  pose proof (append_frame _ _ _ _ _ Ea) as Hfr. clear Erj Hrj Hrj'.
  destruct out.
  - destruct Ha as (_ & _ & Hw1 & Hlog).
    match goal with |- context [append_records _ _ _ _ _ ?res1 ?m1 _] =>
      destruct (IH res1 m1 d1 Hw1) as (acc1 & res1' & m1' & d1' & -> & Hs) end.
    exists (r :: acc1), res1', m1', d1'. split; [done|].
    eapply shipped_accept; [done|exact Hfr|exact Hlog|..|exact Hs]; simpl; lia.
  - destruct Ha as (Hin & ->).
    match goal with |- context [append_records _ _ _ _ _ ?res1 ?m1 _] =>
      destruct (IH res1 m1 d Hw) as (acc1 & res1' & m1' & d1' & -> & Hs) end.
    exists (r :: acc1), res1', m1', d1'. split; [done|].
    eapply shipped_accept; [done|exact Hfr| |..|exact Hs]; simpl; try lia.
    intros r'. split; [by right|]. by intros [->|?].
Qed.

(** ** The marks *)

Lemma read_u64_insert_ne k k' v d : k' <> k -> read_u64 (tx_insert TABLE_KV k' v d) k = read_u64 d k.
Proof. intros Hk. unfold read_u64. by rewrite tx_get_insert_ne by congruence. Qed.

Lemma ship_mark_ne k d x : shipped_key x.1 <> k -> read_u64 (ship_mark d x) k = read_u64 d k.
Proof. intros Hk. unfold ship_mark. destruct (_ <? _); [by apply read_u64_insert_ne|done]. Qed.

Lemma ship_mark_eq d g ts :
  in_u64 ts -> read_u64 (ship_mark d (g, ts)) (shipped_key g) =
  Z.max (read_u64 d (shipped_key g)) ts.
Proof.
  intros Ht. unfold ship_mark. cbn [fst snd].
  destruct (Z.ltb_spec (read_u64 d (shipped_key g)) ts); [rewrite read_u64_insert by done|]; lia.
Qed.

Lemma ship_marks_read m d g :
  in_u64 g -> Forall (fun x => in_u64 x.1 /\ in_u64 x.2) m -> StronglySorted keys_lt m ->
  read_u64 (foldl ship_mark d m) (shipped_key g) =
  from_option (Z.max (read_u64 d (shipped_key g))) (read_u64 d (shipped_key g)) (assoc g m).
Proof.
  intros Hg Hu Hs. revert d Hu. induction Hs as [|[k ts] m Hs IH Hk]; intros d Hu; [done|].
  apply Forall_cons in Hu as [[Hk1 Ht1] Hu]. cbn [foldl assoc].
  rewrite IH by done. destruct (Z.eqb_spec g k) as [->|Hne].
  - rewrite ship_mark_eq by done. rewrite assoc_not_in; [done|].
    eapply Forall_impl; [exact Hk|]. by intros.
  - rewrite ship_mark_ne; [done|]. intros E. apply app_inv_head in E. apply be64_inj in E; simpl in *; [|done..]. congruence.
Qed.

Lemma ship_marks_other m d k :
  (forall g, shipped_key g <> k) -> read_u64 (foldl ship_mark d m) k = read_u64 d k.
Proof.
  intros Hk. revert d. induction m as [|x m IH]; intros d; [done|]. cbn [foldl]. rewrite IH.
  by apply ship_mark_ne.
Qed.

(** The mark a list of accepted records gives a Region. *)
Definition last_shipped (g : Z) (accepted : list CommitRecord) (ts : Z) : Z :=
  foldl (fun ts r => if cr_region_id r =? g then Z.max ts (cr_commit_ts r) else ts) ts accepted.

Lemma ship_lookup accepted m g :
  StronglySorted keys_lt m -> Forall record_u64 accepted ->
  StronglySorted keys_lt (foldl ship m accepted) /\
  from_option (Z.max 0) 0 (assoc g (foldl ship m accepted)) =
  last_shipped g accepted (from_option (Z.max 0) 0 (assoc g m)).
Proof.
  intros Hs Hu. revert m Hs. induction Hu as [|r acc (_ & Ht & _) Hu IH]; intros m Hs; [done|].
  cbn [foldl last_shipped]. destruct (IH (ship m r)) as [H1 H2]; [by apply shipped_max_sorted|].
  split; [done|]. rewrite H2. unfold last_shipped. f_equal. unfold ship.
  rewrite shipped_max_lookup by done.
  destruct (Z.eqb_spec g (cr_region_id r)) as [E|Hne].
  - subst g. rewrite Z.eqb_refl. destruct (assoc (cr_region_id r) m); simpl; unfold in_u64 in Ht; lia.
  - by rewrite (proj2 (Z.eqb_neq (cr_region_id r) g)) by congruence.
Qed.

Lemma last_shipped_spec g accepted ts :
  ts <= last_shipped g accepted ts /\
  (forall r, r ∈ accepted -> cr_region_id r = g -> cr_commit_ts r <= last_shipped g accepted ts) /\
  (last_shipped g accepted ts = ts \/ exists r, r ∈ accepted /\ cr_region_id r = g /\
     cr_commit_ts r = last_shipped g accepted ts).
Proof.
  revert ts. induction accepted as [|r acc IH]; intros ts.
  { split; [done|]. split; [by intros ? ?%elem_of_nil|by left]. }
  cbn [last_shipped foldl].
  fold (last_shipped g acc (if cr_region_id r =? g then Z.max ts (cr_commit_ts r) else ts)).
  destruct (IH (if cr_region_id r =? g then Z.max ts (cr_commit_ts r) else ts)) as (H1 & H2 & H3).
  destruct (Z.eqb_spec (cr_region_id r) g) as [E|E].
  - split; [lia|]. split; [intros r' [->|Hr]%elem_of_cons Hg; [lia|by apply H2]|].
    destruct H3 as [H3|(r' & ? & ? & ?)]; [|right; exists r'; split; [by right|done]].
    destruct (Z.max_spec ts (cr_commit_ts r)) as [[? Em]|[? Em]]; rewrite Em in *; [right|by left].
    exists r. split; [by left|]. by rewrite H3.
  - split; [done|]. split; [intros r' [->|Hr]%elem_of_cons Hg; [done|by apply H2]|].
    destruct H3 as [H3|(r' & ? & ? & ?)]; [by left|right; exists r'; split; [by right|done]].
Qed.

Lemma last_shipped_max g acc p q :
  last_shipped g acc (Z.max p q) = Z.max p (last_shipped g acc q).
Proof.
  unfold last_shipped. revert q. induction acc as [|r acc IH]; intros q; [done|]. cbn [foldl].
  rewrite <-IH. f_equal. destruct (cr_region_id r =? g); lia.
Qed.

Lemma shipped_max_u64 k ts m :
  in_u64 k -> in_u64 ts -> Forall (fun x => in_u64 x.1 /\ in_u64 x.2) m ->
  Forall (fun x => in_u64 x.1 /\ in_u64 x.2) (shipped_max k ts m).
Proof.
  intros Hk Ht. induction 1 as [|[k' ts'] m [? ?] Hm IH]; simpl in *; [by apply Forall_singleton|].
  destruct (_ =? _); [|destruct (_ <? _)]; rewrite ?Forall_cons; [|done|done].
  split; [|done]. simpl. unfold in_u64 in *. lia.
Qed.

Lemma ship_u64 accepted m :
  Forall record_u64 accepted -> Forall (fun x => in_u64 x.1 /\ in_u64 x.2) m ->
  Forall (fun x => in_u64 x.1 /\ in_u64 x.2) (foldl ship m accepted).
Proof.
  intros Hu. revert m. induction Hu as [|r acc (_ & Ht & Hg) Hu IH]; intros m Hm; [done|].
  cbn [foldl]. by apply IH, shipped_max_u64.
Qed.

Lemma ship_marks_through accepted d g :
  in_u64 g -> Forall record_u64 accepted ->
  read_u64 (foldl ship_mark d (foldl ship [] accepted)) (shipped_key g) =
  last_shipped g accepted (read_u64 d (shipped_key g)).
Proof.
  intros Hg Hu. destruct (ship_lookup accepted [] g) as [Hs Hl]; [constructor|done|].
  rewrite ship_marks_read; [|done|by apply ship_u64|done].
  pose proof (read_u64_range d (shipped_key g)) as Hr. unfold in_u64 in Hr.
  rewrite <-(Z.max_l (read_u64 d (shipped_key g)) 0) at 3 by lia.
  rewrite last_shipped_max. simpl in Hl. rewrite <-Hl.
  destruct (assoc g (foldl ship [] accepted)); simpl; lia.
Qed.

Lemma foldl_max_u64 accepted c :
  Forall record_u64 accepted -> in_u64 c ->
  in_u64 (foldl (fun c r => Z.max c (cr_commit_ts r)) c accepted) /\
  c <= foldl (fun c r => Z.max c (cr_commit_ts r)) c accepted.
Proof.
  intros Hu. revert c. induction Hu as [|r acc (_ & Ht & _) Hu IH]; intros c Hc; [done|].
  cbn [foldl]. destruct (IH (Z.max c (cr_commit_ts r))); [unfold in_u64 in *; lia|]. split; [done|lia].
Qed.

Lemma read_u64_proper d d' k : same_table TABLE_KV d' d -> read_u64 d' k = read_u64 d k.
Proof. intros H. unfold read_u64. by rewrite H. Qed.

Lemma shipped_key_other g k :
  diverge COMMIT_LOG_SHIPPED_PREFIX k = true -> shipped_key g <> k.
Proof. intros Hd E. rewrite <-(app_nil_r k) in E. by eapply diverge_neq in E. Qed.

(** The rows written after the loop. *)
Definition ship_finish (count cursor : Z) (res : CommitLogAppendResult) (m : list (Z * Z)) (d : db)
    : db :=
  let d := if 0 <? inserted res
           then tx_insert TABLE_KV COMMIT_LOG_COUNT_KEY (be64 (count + inserted res)) d else d in
  let d := if cursor <? cursor_ts res
           then tx_insert TABLE_KV COMMIT_LOG_CURSOR_KEY (be64 (cursor_ts res)) d else d in
  foldl ship_mark d m.

Lemma ship_finish_rep res accepted d :
  0 <= inserted res -> in_u64 (read_u64 d COMMIT_LOG_COUNT_KEY + inserted res) ->
  in_u64 (cursor_ts res) -> read_u64 d COMMIT_LOG_CURSOR_KEY <= cursor_ts res ->
  Forall record_u64 accepted ->
  let d' := ship_finish (read_u64 d COMMIT_LOG_COUNT_KEY) (read_u64 d COMMIT_LOG_CURSOR_KEY) res
              (foldl ship [] accepted) d in
  read_u64 d' COMMIT_LOG_COUNT_KEY = read_u64 d COMMIT_LOG_COUNT_KEY + inserted res /\
  read_u64 d' COMMIT_LOG_CURSOR_KEY = cursor_ts res /\
  forall g, in_u64 g -> read_u64 d' (shipped_key g) =
    last_shipped g accepted (read_u64 d (shipped_key g)).
Proof.
  intros Hi Hc Hcu Hle Hu. unfold ship_finish.
  assert (forall g k, k = COMMIT_LOG_COUNT_KEY \/ k = COMMIT_LOG_CURSOR_KEY -> k <> shipped_key g) as Hne.
  { intros g k [->| ->] E; symmetry in E; revert E; by apply shipped_key_other. }
  cbv zeta. split; [|split].
  - rewrite ship_marks_other by (intros g E; by apply (Hne g COMMIT_LOG_COUNT_KEY); auto).
    destruct (_ <? cursor_ts res); [rewrite read_u64_insert_ne by discriminate|];
      (destruct (Z.ltb_spec 0 (inserted res)); [by rewrite read_u64_insert|lia]).
  - rewrite ship_marks_other by (intros g E; by apply (Hne g COMMIT_LOG_CURSOR_KEY); auto).
    destruct (Z.ltb_spec (read_u64 d COMMIT_LOG_CURSOR_KEY) (cursor_ts res));
      [by rewrite read_u64_insert|].
    destruct (0 <? inserted res); [rewrite read_u64_insert_ne by discriminate|]; lia.
  - intros g Hg. rewrite ship_marks_through by done. f_equal.
    destruct (_ <? cursor_ts res); [rewrite read_u64_insert_ne by auto|];
      (destruct (0 <? inserted res); [by rewrite read_u64_insert_ne by auto|done]).
Qed.

Lemma ship_finish_frame count cursor res m d :
  same_table TABLE_COMMIT_LOG (ship_finish count cursor res m d) d.
Proof.
  unfold ship_finish.
  assert (forall d, same_table TABLE_COMMIT_LOG (foldl ship_mark d m) d) as H.
  { induction m as [|x m IH]; intros d'; [done|]. cbn [foldl]. etrans; [apply IH|].
    unfold ship_mark. frame. }
  etrans; [apply H|]. frame.
Qed.

(** Shipping accounts for every record.  Each record of the batch is either
    accepted (it lies in the shard and is in the log afterwards) or rejected,
    and the counts add up; nothing else enters the log.  The record count grows
    by the number inserted, the cursor becomes the highest accepted timestamp,
    and the mark of every Region becomes the highest timestamp accepted for it:
    no mark passes a record that is not in the log. *)
Theorem commit_log_append_accounts s d sid a e records max rev applied :
  commit_log_wf d -> Forall record_u64 records ->
  in_u64 (commit_log_record_count d + Z.of_nat (length records)) ->
  exists accepted res d',
    apply_commit_log_append s d sid a e records max rev applied = (res, d') /\
    commit_log_wf d' /\ accepted `sublist_of` records /\
    Forall (fun r => outside_shard sid a e r = false) accepted /\
    (forall r, r ∈ log_records d' <-> r ∈ log_records d \/ r ∈ accepted) /\
    inserted res + duplicates res = Z.of_nat (length accepted) /\
    inserted res + duplicates res + rejected res = Z.of_nat (length records) /\
    commit_log_record_count d' = commit_log_record_count d + inserted res /\
    commit_log_cursor d' = foldl (fun c r => Z.max c (cr_commit_ts r)) (commit_log_cursor d) accepted /\
    cursor_ts res = commit_log_cursor d' /\
    (forall g, in_u64 g -> commit_log_shipped_through d' g =
       last_shipped g accepted (commit_log_shipped_through d g)).
Proof using pl zl.
  intros Hw Hu Hc. unfold apply_commit_log_append, commit_log_record_count, commit_log_cursor,
    commit_log_shipped_through in *.
  assert (same_table TABLE_KV (note_log_index_revision s d rev) d /\
    same_table TABLE_COMMIT_LOG (note_log_index_revision s d rev) d) as [Hkv Hcl].
  { unfold note_log_index_revision, set_current_revision. split; frame. }
  set (d0 := note_log_index_revision s d rev) in *.
  destruct (log_records_proper d d0 Hcl) as [El Hw0].
  rewrite !(read_u64_proper d d0 _ Hkv).
  match goal with |- context [append_records _ _ _ _ _ ?res ?m _] =>
    destruct (append_records_rep sid a e max records res m d0 (Hw0 Hw) Hu)
      as (acc & res' & m' & d1 & -> & [H1 H2 H3 H4 H5 H6 H7 H8 H9 H10]) end.
  simpl in H6, H7, H8, H9. rewrite El in H5.
  assert (Forall record_u64 acc) as Hua by (rewrite Forall_forall in *; intros r Hr; by eapply Hu, elem_of_sublist).
  pose proof (sublist_length _ _ H3) as Hlen.
  assert (in_u64 (read_u64 d COMMIT_LOG_COUNT_KEY)) as Hr by apply read_u64_range.
  destruct (foldl_max_u64 acc _ Hua (read_u64_range d COMMIT_LOG_CURSOR_KEY)) as [Hcu Hcl'].
  rewrite <-H9 in Hcu, Hcl'.
  assert (forall k, read_u64 d1 k = read_u64 d k) as Hd1.
  { intros k. rewrite (read_u64_proper d0 d1), (read_u64_proper d d0); [done|done|by apply H2]. }
  rewrite <-!Hd1 in *. subst m'.
  fold (ship_finish (read_u64 d1 COMMIT_LOG_COUNT_KEY) (read_u64 d1 COMMIT_LOG_CURSOR_KEY) res'
    (foldl ship [] acc) d1).
  destruct (ship_finish_rep res' acc d1) as (G1 & G2 & G3);
    [lia|unfold in_u64 in *; lia|done|done|done|].
  exists acc, res'. eexists. split; [done|].
  match goal with |- context [insert_last_applied applied ?d4] =>
    destruct (log_records_proper d1 (insert_last_applied applied d4)) as [Ed Hwd] end.
  { etrans; [unfold insert_last_applied; by apply same_table_insert|apply ship_finish_frame]. }
  split; [by apply Hwd|]. split; [done|]. split; [done|]. rewrite Ed. split; [done|].
  split; [lia|]. split; [lia|]. rewrite !read_u64_last_applied, G1, G2. split; [done|].
  split; [done|]. split; [done|]. intros g Hg. rewrite read_u64_last_applied, <-Hd1. by apply G3.
Qed.

End ship.
