(* ===== verification/ShardTable.v ===== *)
(** * The table of commit log shards

    [storage/commit_log_shard.rs]: shards divide the timestamps into
    consecutive half-open intervals; only the last may be unbounded.  The
    operations on the table, the thresholds, and their application to Region 0
    ([apply_commit_log_shard_op] in [storage/mvcc.rs]). *)

From S2P Require Export Envelope Watermark SysRows.

Local Open Scope Z_scope.

(** ** Data *)

Record CommitLogShardMeta := {
  shard_id : Z; start_ts : Z; end_ts : Z; opened_at_ms : Z; ended_at_ms : Z; sealed_at_ms : Z }.

Record CommitLogShardTable := { shards : list CommitLogShardMeta; gc_before_ts : Z }.

Definition empty_shard_table : CommitLogShardTable := {| shards := []; gc_before_ts := 0 |}.

Inductive CommitLogShardOp :=
  | OpOpen (start_ts opened_at_ms : Z)
  | OpSetEnd (shard_id end_ts now_ms : Z)
  | OpSeal (shard_id now_ms : Z)
  | OpGc (through_ts : Z).

Definition COMMIT_LOG_SHARD_TABLE_KEY : bytes := b "/_sys/commit_log/shards".
Definition COMMIT_LOG_SHARD_REGION_ID_BASE : Z := 2 ^ 62.

Definition shard_region_id (shard_id : Z) : Z := Z.lor COMMIT_LOG_SHARD_REGION_ID_BASE shard_id.

(** ** Routing *)

Definition covers (m : CommitLogShardMeta) (ts : Z) : bool :=
  (start_ts m <=? ts) && ((end_ts m =? 0) || (ts <? end_ts m)).

Definition covering (t : CommitLogShardTable) (ts : Z) : option CommitLogShardMeta :=
  List.find (fun m => covers m ts) (shards t).

Definition latest_shard (t : CommitLogShardTable) : option CommitLogShardMeta := last (shards t).

(** ** Changing the table: the result says whether anything changed *)

Definition open_shard (t : CommitLogShardTable) (first_start_ts now_ms : Z)
    : result (bool * CommitLogShardTable) :=
  let push id start :=
    Ok (true, {| shards := shards t ++ [{| shard_id := id; start_ts := start; end_ts := 0;
                   opened_at_ms := now_ms; ended_at_ms := 0; sealed_at_ms := 0 |}];
                 gc_before_ts := gc_before_ts t |}) in
  match latest_shard t with
  | Some m => if end_ts m =? 0 then Ok (false, t) else push (shard_id m + 1) (end_ts m)
  | None => if first_start_ts =? 0 then Err InvalidArgument else push 1 first_start_ts
  end.

Definition with_end (m : CommitLogShardMeta) (e now_ms : Z) : CommitLogShardMeta :=
  {| shard_id := shard_id m; start_ts := start_ts m; end_ts := e; opened_at_ms := opened_at_ms m;
     ended_at_ms := now_ms; sealed_at_ms := sealed_at_ms m |}.

(** [shards.last_mut()]. *)
Definition replace_last (m : CommitLogShardMeta) (l : list CommitLogShardMeta)
    : list CommitLogShardMeta := take (length l - 1) l ++ [m].

Definition set_end (t : CommitLogShardTable) (id e now_ms : Z)
    : result (bool * CommitLogShardTable) :=
  match latest_shard t with
  | None => Err InvalidArgument
  | Some m =>
    if negb (shard_id m =? id) then Err InvalidArgument
    else if negb (end_ts m =? 0) then Ok (false, t)
    else if e <=? start_ts m then Err InvalidArgument
    else Ok (true, {| shards := replace_last (with_end m e now_ms) (shards t);
                      gc_before_ts := gc_before_ts t |})
  end.

Definition with_seal (m : CommitLogShardMeta) (now_ms : Z) : CommitLogShardMeta :=
  {| shard_id := shard_id m; start_ts := start_ts m; end_ts := end_ts m;
     opened_at_ms := opened_at_ms m; ended_at_ms := ended_at_ms m; sealed_at_ms := now_ms |}.

(** [iter_mut().find(..)]: the first shard with the id. *)
Fixpoint seal_shards (id now_ms : Z) (l : list CommitLogShardMeta)
    : result (bool * list CommitLogShardMeta) :=
  match l with
  | [] => Err InvalidArgument
  | m :: l =>
    if shard_id m =? id then
      if end_ts m =? 0 then Err InvalidArgument
      else if negb (sealed_at_ms m =? 0) then Ok (false, m :: l)
      else Ok (true, with_seal m now_ms :: l)
    else
      '(changed, l) ← seal_shards id now_ms l; Ok (changed, m :: l)
  end.

Definition seal (t : CommitLogShardTable) (id now_ms : Z) : result (bool * CommitLogShardTable) :=
  '(changed, l) ← seal_shards id now_ms (shards t);
  Ok (changed, {| shards := l; gc_before_ts := gc_before_ts t |}).

Definition is_reclaimed (t : CommitLogShardTable) (m : CommitLogShardMeta) : bool :=
  negb (end_ts m =? 0) && (end_ts m <=? gc_before_ts t).

Definition live_shards (t : CommitLogShardTable) : list CommitLogShardMeta :=
  List.filter (fun m => negb (is_reclaimed t m)) (shards t).

Definition advance_gc (t : CommitLogShardTable) (through_ts : Z)
    : result (bool * CommitLogShardTable) :=
  if (through_ts =? 0) || (through_ts <=? gc_before_ts t) then Ok (false, t)
  else if negb (existsb (fun m => end_ts m =? through_ts) (shards t)) then Err InvalidArgument
  else if existsb (fun m => negb (end_ts m =? 0) && (end_ts m <=? through_ts)
                            && (sealed_at_ms m =? 0)) (shards t)
  then Err InvalidArgument
  else Ok (true, {| shards := shards t; gc_before_ts := through_ts |}).

(** ** The invariant the code checks *)

Fixpoint validate_shards (index : Z) (l : list CommitLogShardMeta) : result unit :=
  match l with
  | [] => Ok tt
  | m :: rest =>
    if start_ts m =? 0 then Err Storage
    else if negb (shard_id m =? index + 1) then Err Storage
    else if negb (end_ts m =? 0) && (end_ts m <=? start_ts m) then Err Storage
    else match rest with
    | next :: _ =>
      if end_ts m =? 0 then Err Storage
      else if negb (start_ts next =? end_ts m) then Err Storage
      else validate_shards (index + 1) rest
    | [] => validate_shards (index + 1) rest
    end
  end.

Definition validate (t : CommitLogShardTable) : result unit :=
  _ ← validate_shards 0 (shards t);
  if negb (gc_before_ts t =? 0) && negb (existsb (fun m => end_ts m =? gc_before_ts t) (shards t))
  then Err Storage else Ok tt.

(** ** Thresholds ([u128] arithmetic, so exact) *)

Definition split_end_ts (ship_cursor_ts sequencer_last_ts start_ts : Z) : Z :=
  u64_saturating_add (Z.max (Z.max ship_cursor_ts sequencer_last_ts) start_ts) 1.

Definition precreate_due (records age_ms shard_records shard_secs : Z) : bool :=
  (shard_records * 4 <=? records * 5) || (shard_secs * 1000 * 4 <=? age_ms * 5).

Definition seal_due (records age_ms shard_records shard_secs : Z) : bool :=
  (shard_records <=? records) || (shard_secs * 1000 <=? age_ms).

Definition seal_timeout_due (ended_at now_ms timeout_secs : Z) : bool :=
  negb (ended_at =? 0) && (ended_at + timeout_secs * 1000 <=? now_ms).

Definition gc_due (m : CommitLogShardMeta) (watermark now_ms retention_secs : Z) : bool :=
  negb (end_ts m =? 0) && negb (sealed_at_ms m =? 0) && (end_ts m <=? watermark)
  && (sealed_at_ms m + retention_secs * 1000 <=? now_ms).

Fixpoint gc_scan (t : CommitLogShardTable) (watermark now_ms retention_secs : Z)
    (l : list CommitLogShardMeta) (through : option Z) : option Z :=
  match l with
  | [] => through
  | m :: l =>
    if is_reclaimed t m then gc_scan t watermark now_ms retention_secs l through
    else if negb (gc_due m watermark now_ms retention_secs) then through
    else gc_scan t watermark now_ms retention_secs l (Some (end_ts m))
  end.

Definition gc_boundary (t : CommitLogShardTable) (watermark now_ms retention_secs : Z) : option Z :=
  gc_scan t watermark now_ms retention_secs (shards t) None.

(** ** Storage *)

Section storage.
Context {pt : Postcard CommitLogShardTable}.

Definition shard_table_encode (t : CommitLogShardTable) : result bytes :=
  ok_or (to_allocvec t) Storage.

Definition shard_table_decode (data : bytes) : result CommitLogShardTable :=
  '(t, remainder) ← ok_or (take_from_bytes data) Storage;
  match remainder with
  | [] => _ ← validate t; Ok t
  | _ => Err Storage
  end.

Definition read_shard_table (d : db) : result CommitLogShardTable :=
  match tx_get d TABLE_KV COMMIT_LOG_SHARD_TABLE_KEY with
  | Some x => shard_table_decode x
  | None => Ok empty_shard_table
  end.

Definition run_shard_op (t : CommitLogShardTable) (op : CommitLogShardOp)
    : result (bool * CommitLogShardTable) :=
  match op with
  | OpOpen start opened_at => open_shard t start opened_at
  | OpSetEnd id e now_ms => set_end t id e now_ms
  | OpSeal id now_ms => seal t id now_ms
  | OpGc through => advance_gc t through
  end.

(** A refused operation leaves the table as it is: the methods return their
    errors before they write. *)
Definition shard_op_outcome (t : CommitLogShardTable) (op : CommitLogShardOp)
    : bool * CommitLogShardTable :=
  match run_shard_op t op with
  | Ok (changed, t') => (changed, t')
  | Err _ => (false, t)
  end.

Definition apply_commit_log_shard_op (s : MvccStorage) (d : db) (op : CommitLogShardOp) (rev : Z)
    (applied : AppliedLogId) : result (list CommitLogShardMeta) * db :=
  backend_write d (fun d =>
    let d := note_log_index_revision s d rev in
    t ← read_shard_table d;
    let '(changed, t') := shard_op_outcome t op in
    d ← (if changed then x ← shard_table_encode t';
                         Ok (tx_insert TABLE_KV COMMIT_LOG_SHARD_TABLE_KEY x d)
         else Ok d);
    Ok (shards t', insert_last_applied applied d)).

Definition commit_log_shard_table (d : db) : result CommitLogShardTable := read_shard_table d.

End storage.
