(* ===== verification/ShardTableFacts.v ===== *)
(** * Shards partition the timestamps

    Whatever operations are applied, the table keeps its invariant: it can be
    read back, routes every timestamp to at most one shard, never moves a
    boundary, and reclaims only sealed shards past their retention. *)

From S2P Require Export ShardTable.

Local Open Scope Z_scope.

(** ** The chain of shards *)

(** [validate_shards] as a proposition. *)
Fixpoint chained (index : Z) (l : list CommitLogShardMeta) : Prop :=
  match l with
  | [] => True
  | m :: rest =>
    start_ts m <> 0 /\ shard_id m = index + 1 /\ (end_ts m <> 0 -> start_ts m < end_ts m) /\
    from_option (fun next => end_ts m <> 0 /\ start_ts next = end_ts m) True (head rest) /\
    chained (index + 1) rest
  end.

Lemma validate_shards_spec index l : validate_shards index l = Ok tt <-> chained index l.
Proof.
  revert index. induction l as [|m l IH]; intros index; [done|]. cbn [validate_shards chained].
  destruct (Z.eqb_spec (start_ts m) 0); [split; [done|tauto]|].
  destruct (Z.eqb_spec (shard_id m) (index + 1)); cbn [negb]; [|split; [done|tauto]].
  assert (negb (end_ts m =? 0) && (end_ts m <=? start_ts m) = true <->
    end_ts m <> 0 /\ end_ts m <= start_ts m) as Hb.
  { by rewrite andb_true_iff, negb_true_iff, Z.eqb_neq, Z.leb_le. }
  destruct (negb (end_ts m =? 0) && (end_ts m <=? start_ts m)).
  { split; [done|]. intros (_ & _ & H & _). destruct (proj1 Hb eq_refl) as [Hne ?].
    specialize (H Hne). lia. }
  assert (end_ts m <> 0 -> start_ts m < end_ts m) as Hlt.
  { intros Hne. destruct (Z.lt_ge_cases (start_ts m) (end_ts m)); [done|].
    discriminate (proj2 Hb (conj Hne H)). }
  destruct l as [|next l]; cbn [head from_option]; [rewrite IH; cbn [chained]; tauto|].
  destruct (Z.eqb_spec (end_ts m) 0) as [E|E]; [split; [done|tauto]|].
  destruct (Z.eqb_spec (start_ts next) (end_ts m)) as [E'|E']; cbn [negb]; [|split; [done|tauto]].
  rewrite IH. tauto.
Qed.

Lemma chained_snoc index l m :
  chained index (l ++ [m]) <->
  chained index l /\ start_ts m <> 0 /\ shard_id m = index + Z.of_nat (length l) + 1 /\
  (end_ts m <> 0 -> start_ts m < end_ts m) /\
  from_option (fun x => end_ts x <> 0 /\ start_ts m = end_ts x) True (last l).
Proof.
  revert index. induction l as [|x l IH]; intros index.
  { simpl. rewrite Z.add_0_r. tauto. }
  rewrite last_cons. cbn [app chained length]. rewrite IH.
  replace (index + 1 + Z.of_nat (length l) + 1) with (index + Z.of_nat (S (length l)) + 1) by lia.
  destruct l as [|y l]; [simpl; tauto|].
  destruct (last (y :: l)) as [w|] eqn:E; [|by apply last_None in E].
  cbn [app head from_option]. tauto.
Qed.

(** The chain depends on the boundaries only. *)
Definition bounds (m : CommitLogShardMeta) : Z * Z * Z := (shard_id m, start_ts m, end_ts m).

Lemma chained_bounds index l l' : bounds <$> l' = bounds <$> l -> chained index l -> chained index l'.
Proof.
  revert index l'. induction l as [|m l IH]; intros index [|m' l'] E; try done.
  rewrite !fmap_cons in E. injection E as E1 E2 E3 E. cbn [chained]. rewrite E1, E2, E3.
  intros (? & ? & ? & Hh & ?). split_and!; try done; [|by eapply IH].
  destruct l as [|y l], l' as [|y' l']; try done. simpl in *. by injection E as _ -> _ _.
Qed.

Lemma chained_after index m l x :
  chained index (m :: l) -> x ∈ l -> end_ts m <> 0 /\ end_ts m <= start_ts x.
Proof.
  revert index m. induction l as [|y l IH]; intros index m Hc Hx; [by apply elem_of_nil in Hx|].
  cbn [chained head from_option] in Hc. destruct Hc as (_ & _ & _ & [Hne Hs] & Hc). split; [done|].
  apply elem_of_cons in Hx as [->|Hx]; [lia|].
  destruct (IH _ _ Hc Hx) as [Hy Hle]. destruct Hc as (_ & _ & Hlt & _). specialize (Hlt Hy). lia.
Qed.

Lemma chained_suffix index l1 l2 :
  chained index (l1 ++ l2) -> chained (index + Z.of_nat (length l1)) l2.
Proof.
  revert index. induction l1 as [|x l1 IH]; intros index H; [by rewrite Z.add_0_r|].
  destruct H as (_ & _ & _ & _ & H). apply IH in H. cbn [length].
  by replace (index + Z.of_nat (S (length l1))) with (index + 1 + Z.of_nat (length l1)) by lia.
Qed.

Lemma chained_before index l m x :
  chained index (l ++ [m]) -> x ∈ l -> end_ts x <= start_ts m.
Proof.
  intros Hc (l1 & l2 & ->)%list_elem_of_split. rewrite <-app_assoc in Hc.
  apply chained_suffix in Hc. apply (chained_after _ _ _ m Hc).
  apply elem_of_app. right. by left.
Qed.

(** ** Routing *)

Lemma covers_spec m ts : covers m ts = true <-> start_ts m <= ts /\ (end_ts m = 0 \/ ts < end_ts m).
Proof. unfold covers. rewrite andb_true_iff, orb_true_iff, Z.leb_le, Z.eqb_eq, Z.ltb_lt. done. Qed.

Lemma covering_unique index l m m' ts :
  chained index l -> List.find (fun m => covers m ts) l = Some m -> m' ∈ l -> covers m' ts = true ->
  m' = m.
Proof.
  revert index. induction l as [|x l IH]; intros index Hc Hf Hm Hcov; [done|]. cbn [List.find] in Hf.
  destruct (covers x ts) eqn:Ex.
  - injection Hf as ->. apply elem_of_cons in Hm as [->|Hm]; [done|].
    destruct (chained_after _ _ _ _ Hc Hm) as [Hne Hle].
    apply covers_spec in Ex, Hcov. lia.
  - apply elem_of_cons in Hm as [->|Hm]; [congruence|]. destruct Hc as (_ & _ & _ & _ & Hc).
    by eapply IH.
Qed.

Lemma covering_total index l m0 m1 ts :
  chained index l -> head l = Some m0 -> last l = Some m1 -> start_ts m0 <= ts ->
  (end_ts m1 = 0 \/ ts < end_ts m1) -> is_Some (List.find (fun m => covers m ts) l).
Proof.
  revert index m0. induction l as [|x l IH]; intros index m0 Hc H0 H1 Hs He; [done|].
  simpl in H0. injection H0 as <-. cbn [List.find]. destruct (covers x ts) eqn:Ex; [by eexists|].
  destruct l as [|y l].
  - simpl in H1. injection H1 as ->. exfalso. apply not_true_iff_false in Ex. apply Ex, covers_spec. lia.
  - destruct Hc as (_ & _ & _ & [Hne Hy] & Hc). apply (IH _ y Hc); [done|done| |done].
    apply not_true_iff_false in Ex. rewrite covers_spec in Ex. simpl in Hy. lia.
Qed.

(** ** The invariant *)

(** The table is valid, and what has been reclaimed is sealed. *)
Definition shard_inv (t : CommitLogShardTable) : Prop :=
  validate t = Ok tt /\ Forall (fun m => 0 <= start_ts m) (shards t) /\
  (forall m, m ∈ shards t -> is_reclaimed t m = true -> sealed_at_ms m <> 0).

Lemma validate_spec t :
  validate t = Ok tt <->
  chained 0 (shards t) /\ (gc_before_ts t = 0 \/ exists m, m ∈ shards t /\ end_ts m = gc_before_ts t).
Proof.
  unfold validate. destruct (validate_shards 0 (shards t)) as [[]|e] eqn:E; cbn [mbind result_bind].
  - rewrite validate_shards_spec in E.
    destruct (Z.eqb_spec (gc_before_ts t) 0) as [Hg|Hg]; simpl; [split; auto|].
    destruct (existsb _ (shards t)) eqn:Ex; simpl.
    + apply existsb_exists in Ex as (m & Hm%list_elem_of_In & Em%Z.eqb_eq). split; [|done].
      intros _. split; [done|]. right. by exists m.
    + split; [done|]. intros [_ [?|(m & Hm & Em)]]; [done|]. apply not_true_iff_false in Ex.
      destruct Ex. apply existsb_exists. exists m. rewrite <-list_elem_of_In. by rewrite Z.eqb_eq.
  - split; [done|]. intros [Hc%validate_shards_spec _]. congruence.
Qed.

Lemma replace_last_snoc l x m : replace_last m (l ++ [x]) = l ++ [m].
Proof.
  unfold replace_last. rewrite length_app. simpl. replace (length l + 1 - 1)%nat with (length l) by lia.
  by rewrite take_app_length.
Qed.

Lemma latest_shard_snoc t m : latest_shard t = Some m -> exists l, shards t = l ++ [m].
Proof. intros H. unfold latest_shard in H. by apply last_Some in H. Qed.

(** What an operation may do to the table. *)
Record shard_step (t t' : CommitLogShardTable) : Prop := {
  st_inv : shard_inv t';
  (** a shard whose interval is closed keeps its boundaries *)
  st_kept : forall m, m ∈ shards t -> end_ts m <> 0 ->
    exists m', m' ∈ shards t' /\ bounds m' = bounds m;
  st_first : forall m, head (shards t) = Some m ->
    exists m', head (shards t') = Some m' /\ start_ts m' = start_ts m;
  st_gc : gc_before_ts t <= gc_before_ts t' }.

Lemma shard_step_refl t : shard_inv t -> shard_step t t.
Proof. intros H. split; [done| | |lia]; intros m ?; by exists m. Qed.

Lemma shard_step_trans t1 t2 t3 : shard_step t1 t2 -> shard_step t2 t3 -> shard_step t1 t3.
Proof.
  intros [_ K1 F1 G1] [I2 K2 F2 G2]. split; [done| | |lia].
  - intros m Hm He. destruct (K1 m Hm He) as (m' & Hm' & E).
    destruct (K2 m' Hm') as (m'' & Hm'' & E'); [by injection E as _ _ ->|]. exists m''.
    split; [done|congruence].
  - intros m Hm. destruct (F1 m Hm) as (m' & Hm' & E). destruct (F2 m' Hm') as (m'' & ? & ?).
    exists m''. split; [done|congruence].
Qed.

Lemma open_shard_step t start now c t' :
  0 <= start -> shard_inv t -> open_shard t start now = Ok (c, t') -> shard_step t t' /\ (c = false -> t' = t).
Proof.
  intros Hst Hinv. pose proof Hinv as [[Hc Hg]%validate_spec [Hpos Hs]]. unfold open_shard.
  assert (forall id st, 0 <= st -> chained 0 (shards t ++ [{| shard_id := id; start_ts := st; end_ts := 0;
      opened_at_ms := now; ended_at_ms := 0; sealed_at_ms := 0 |}]) ->
    shard_step t {| shards := shards t ++ [{| shard_id := id; start_ts := st; end_ts := 0;
      opened_at_ms := now; ended_at_ms := 0; sealed_at_ms := 0 |}];
      gc_before_ts := gc_before_ts t |}) as Hpush.
  { intros id st Hst' Hc'. split; [split; [|split]| | |done]; simpl.
    - apply validate_spec. split; [done|]. simpl. destruct Hg as [?|(m & Hm & E)]; [by left|right].
      exists m. rewrite elem_of_app. by auto.
    - by apply Forall_app, conj, Forall_singleton.
    - intros m [Hm| ->%list_elem_of_singleton]%elem_of_app; [by apply Hs|done].
    - intros m Hm _. exists m. rewrite elem_of_app. by auto.
    - intros m Hm. exists m. by destruct (shards t). }
  destruct (latest_shard t) as [m|] eqn:El.
  - destruct (latest_shard_snoc t m El) as [l E]. destruct (Z.eqb_spec (end_ts m) 0) as [E0|E0].
    { intros [= <- <-]. split; [by apply shard_step_refl|done]. }
    intros [= <- <-]. split; [|done].
    assert (0 <= start_ts m) as Hm by (rewrite E, Forall_app in Hpos; by destruct Hpos as [_ [? _]%Forall_cons]).
    pose proof Hc as Hc'. rewrite E in Hc'. apply chained_snoc in Hc' as (_ & ? & Hid & Hlt & _).
    specialize (Hlt E0). apply Hpush; [lia|]. apply chained_snoc. simpl.
    split; [done|]. rewrite E, last_snoc, length_app. simpl. split_and!; try done. lia.
  - unfold latest_shard in El. apply last_None in El. destruct (Z.eqb_spec start 0); [done|].
    intros [= <- <-]. split; [|done]. apply Hpush; [done|]. rewrite El. simpl. done.
Qed.

Lemma set_end_step t id e now c t' :
  shard_inv t -> set_end t id e now = Ok (c, t') -> shard_step t t' /\ (c = false -> t' = t).
Proof.
  intros Hinv. pose proof Hinv as [[Hc Hg]%validate_spec [Hpos Hs]]. unfold set_end.
  destruct (latest_shard t) as [m|] eqn:El; [|done].
  destruct (latest_shard_snoc t m El) as [l E]. destruct (shard_id m =? id); cbn [negb]; [|done].
  destruct (Z.eqb_spec (end_ts m) 0) as [E0|E0]; cbn [negb].
  2:{ intros [= <- <-]. split; [by apply shard_step_refl|done]. }
  destruct (Z.leb_spec e (start_ts m)); [done|]. intros [= <- <-]. split; [|done].
  rewrite E, replace_last_snoc. rewrite E in Hc, Hg, Hs, Hpos.
  pose proof (fun x => chained_before _ _ _ x Hc) as Hbefore.
  apply chained_snoc in Hc as (Hc & ? & ? & _ & Hl).
  apply Forall_app in Hpos as [Hpos [Hm _]%Forall_cons].
  assert (forall x, x ∈ l ++ [m] -> end_ts x <> 0 -> x ∈ l) as Hold.
  { intros x [?| ->%list_elem_of_singleton]%elem_of_app ?; done. }
  split; [split; [|split]| | |done]; simpl.
  - apply validate_spec. simpl. split; [apply chained_snoc; by simpl|].
    destruct Hg as [?|(x & Hx & Ex)]; [by left|]. destruct (decide (gc_before_ts t = 0)); [by left|right].
    exists x. rewrite elem_of_app. split; [left; apply Hold; [done|congruence]|done].
  - by apply Forall_app, conj, Forall_singleton.
  - intros x [Hx| ->%list_elem_of_singleton]%elem_of_app Hr.
    { apply Hs; [rewrite elem_of_app; by left|done]. }
    exfalso. unfold is_reclaimed in Hr. simpl in Hr. apply andb_true_iff in Hr as [_ Hr%Z.leb_le].
    destruct Hg as [Hg|(x & Hx & Ex)]; [lia|].
    destruct (decide (end_ts x = 0)); [lia|]. pose proof (Hbefore x (Hold x Hx n)). lia.
  - intros x Hx Hne. rewrite E in Hx. exists x. rewrite elem_of_app. split; [left; by apply Hold|done].
  - intros x Hx. rewrite E in Hx. destruct l as [|y l]; simpl in *; [|by exists x].
    injection Hx as <-. by eexists.
Qed.

Lemma seal_shards_spec id now l c l' :
  seal_shards id now l = Ok (c, l') ->
  bounds <$> l' = bounds <$> l /\ (c = false -> l' = l) /\
  (forall m', m' ∈ l' -> m' ∈ l \/ (exists m, m ∈ l /\ bounds m = bounds m' /\ sealed_at_ms m = 0)).
Proof.
  revert c l'. induction l as [|m l IH]; intros c l'; cbn [seal_shards]; [done|].
  destruct (shard_id m =? id).
  - destruct (end_ts m =? 0); [done|]. destruct (Z.eqb_spec (sealed_at_ms m) 0) as [E|E]; cbn [negb].
    + intros [= <- <-]. split; [done|]. split; [done|].
      intros m' [->|Hm]%elem_of_cons; [right; exists m; split; [by left|done]|left; by right].
    + intros [= <- <-]. split; [done|]. split; [done|]. by left.
  - destruct (seal_shards id now l) as [[c1 l1]|] eqn:E; cbn [mbind result_bind]; [|done].
    intros [= <- <-]. destruct (IH _ _ eq_refl) as (H1 & H2 & H3).
    rewrite !fmap_cons, H1. split; [done|]. split; [intros ->; by rewrite H2|].
    intros m' [->|Hm]%elem_of_cons; [left; by left|].
    destruct (H3 m' Hm) as [?|(x & ? & ?)]; [left; by right|right; exists x; split; [by right|done]].
Qed.

Lemma seal_step t id now c t' :
  shard_inv t -> seal t id now = Ok (c, t') -> shard_step t t' /\ (c = false -> t' = t).
Proof.
  intros Hinv. pose proof Hinv as [[Hc Hg]%validate_spec [Hpos Hs]]. unfold seal.
  destruct (seal_shards id now (shards t)) as [[c1 l1]|] eqn:E; cbn [mbind result_bind]; [|done].
  intros [= <- <-]. apply seal_shards_spec in E as (Hb & Hf & Hm).
  assert (forall m, m ∈ shards t -> exists m', m' ∈ l1 /\ bounds m' = bounds m) as Hkept.
  { intros m Hin. apply (list_elem_of_fmap_2 bounds) in Hin. rewrite <-Hb in Hin.
    apply list_elem_of_fmap in Hin as (m' & -> & ?). by exists m'. }
  split; [|intros ->; rewrite Hf by done; by destruct t]. split; [split; [|split]| | |done]; simpl.
  - apply validate_spec. simpl. split; [by eapply chained_bounds|].
    destruct Hg as [?|(m & Hin & Em)]; [by left|right]. destruct (Hkept m Hin) as (m' & ? & Eb).
    exists m'. split; [done|]. injection Eb as _ _ ->. done.
  - rewrite Forall_forall in *. intros m' Hin'. destruct (Hm m' Hin') as [?|(m & ? & Eb & _)]; [by apply Hpos|].
    injection Eb as _ <- _. by apply Hpos.
  - intros m' Hin' Hr. destruct (Hm m' Hin') as [?|(m & Hin & Eb & E0)]; [by apply Hs|].
    exfalso. apply (Hs m Hin); [|done]. unfold is_reclaimed in *. simpl in *.
    by injection Eb as _ _ ->.
  - intros m Hin _. by apply Hkept.
  - intros m Hh. destruct (shards t) as [|x l], l1 as [|x1 l1]; try done. simpl in Hh.
    injection Hh as ->. exists x1. split; [done|]. rewrite !fmap_cons in Hb. by injection Hb as _ -> _ _.
Qed.

Lemma advance_gc_step t through c t' :
  shard_inv t -> advance_gc t through = Ok (c, t') -> shard_step t t' /\ (c = false -> t' = t).
Proof.
  intros Hinv. pose proof Hinv as [[Hc Hg]%validate_spec [Hpos Hs]]. unfold advance_gc.
  destruct ((through =? 0) || (through <=? gc_before_ts t)) eqn:E0.
  { intros [= <- <-]. split; [by apply shard_step_refl|done]. }
  apply orb_false_iff in E0 as [H0%Z.eqb_neq Hlt%Z.leb_gt].
  destruct (existsb (fun m => end_ts m =? through) (shards t)) eqn:E1; cbn [negb]; [|done].
  apply existsb_exists in E1 as (x & Hx%list_elem_of_In & Ex%Z.eqb_eq).
  destruct (existsb _ (shards t)) eqn:E2; [done|]. intros [= <- <-]. split; [|done].
  split; [split; [|split]| | |simpl; lia]; simpl.
  - apply validate_spec. simpl. split; [done|]. right. by exists x.
  - done.
  - intros m Hm Hr Hz. apply not_true_iff_false in E2. destruct E2. apply existsb_exists.
    exists m. rewrite <-list_elem_of_In. split; [done|]. rewrite Hz. simpl. rewrite andb_true_r. exact Hr.
  - intros m Hm _. by exists m.
  - intros m Hm. by exists m.
Qed.

(** The arguments of an operation are unsigned. *)
Definition shard_op_ok (op : CommitLogShardOp) : Prop :=
  match op with
  | OpOpen start _ => 0 <= start
  | _ => True
  end.

Lemma shard_op_step t op :
  shard_inv t -> shard_op_ok op ->
  shard_step t (shard_op_outcome t op).2 /\
  ((shard_op_outcome t op).1 = false -> (shard_op_outcome t op).2 = t).
Proof.
  intros Hinv Hop. unfold shard_op_outcome.
  destruct (run_shard_op t op) as [[c t']|] eqn:E; [|split; [by apply shard_step_refl|done]].
  destruct op; simpl in *.
  - by eapply open_shard_step.
  - by eapply set_end_step.
  - by eapply seal_step.
  - by eapply advance_gc_step.
Qed.

(** ** Reading the table back *)

Section stored.
Context {pt : Postcard CommitLogShardTable} {pl : PostcardLaws CommitLogShardTable}.

(** Applying operations in the order of the Raft log. *)
Fixpoint apply_shard_ops (s : MvccStorage) (d : db)
    (ops : list (CommitLogShardOp * Z * AppliedLogId))
    : list (result (list CommitLogShardMeta)) * db :=
  match ops with
  | [] => ([], d)
  | (op, rev, applied) :: ops =>
    let '(r, d) := apply_commit_log_shard_op s d op rev applied in
    let '(rs, d) := apply_shard_ops s d ops in
    (r :: rs, d)
  end.

Lemma shard_table_roundtrip t x :
  shard_inv t -> to_allocvec t = Some x -> shard_table_decode x = Ok t.
Proof using pl.
  intros [Hv _] E. unfold shard_table_decode. pose proof (postcard_roundtrip t x [] E) as Hr.
  rewrite app_nil_r in Hr. rewrite Hr. cbn [ok_or mbind result_bind]. by rewrite Hv.
Qed.

Lemma note_revision_kv s d rev : same_table TABLE_KV (note_log_index_revision s d rev) d.
Proof. unfold note_log_index_revision, set_current_revision. frame. Qed.

Lemma read_shard_table_proper d d' :
  same_table TABLE_KV d' d -> read_shard_table d' = read_shard_table d.
Proof. intros H. unfold read_shard_table. by rewrite H. Qed.

Lemma apply_shard_op_rep s d t op rev a :
  read_shard_table d = Ok t -> shard_inv t -> shard_op_ok op ->
  exists d', apply_commit_log_shard_op s d op rev a =
      (Ok (shards (shard_op_outcome t op).2), d') /\
    read_shard_table d' = Ok (shard_op_outcome t op).2 /\
    shard_step t (shard_op_outcome t op).2 /\
    forall k, k <> COMMIT_LOG_SHARD_TABLE_KEY -> tx_get d' TABLE_KV k = tx_get d TABLE_KV k.
Proof using pl.
  intros Hr Hinv Hop. destruct (shard_op_step t op Hinv Hop) as [Hst Hun].
  unfold apply_commit_log_shard_op, backend_write.
  pose proof (note_revision_kv s d rev) as Hn.
  rewrite (read_shard_table_proper _ _ Hn), Hr. cbn [mbind result_bind].
  destruct (shard_op_outcome t op) as [[] t']; simpl in *.
  - destruct (postcard_total t') as [x Ex]. unfold shard_table_encode. rewrite Ex.
    cbn [ok_or mbind result_bind]. eexists. split; [done|]. split; [|split; [done|]].
    + unfold read_shard_table, insert_last_applied. rewrite tx_get_insert_ne by discriminate.
      rewrite tx_get_insert. apply shard_table_roundtrip; [apply Hst|done].
    + intros k Hk. unfold insert_last_applied. rewrite tx_get_insert_ne by discriminate.
      rewrite tx_get_insert_ne by congruence. apply Hn.
  - eexists. split; [done|]. rewrite Hun in * by done. split; [|split; [done|]].
    + rewrite <-Hr. apply read_shard_table_proper. unfold insert_last_applied.
      etrans; [by apply same_table_insert|done].
    + intros k _. unfold insert_last_applied. rewrite tx_get_insert_ne by discriminate. apply Hn.
Qed.

Lemma apply_shard_ops_rep s d t ops :
  read_shard_table d = Ok t -> shard_inv t -> Forall (fun o => shard_op_ok o.1.1) ops ->
  exists t', read_shard_table (apply_shard_ops s d ops).2 = Ok t' /\ shard_step t t' /\
    Forall (fun r => exists l, r = Ok l) (apply_shard_ops s d ops).1.
Proof using pl.
  intros Hr Hinv Hops. revert d t Hr Hinv.
  induction Hops as [|[[op rev] a] ops Hop _ IH]; intros d t Hr Hinv.
  { exists t. split; [done|]. split; [by apply shard_step_refl|constructor]. }
  simpl. destruct (apply_shard_op_rep s d t op rev a Hr Hinv Hop) as (d1 & -> & Hr1 & Hst & _).
  destruct (IH d1 _ Hr1 (st_inv _ _ Hst)) as (t' & Hr' & Hst' & Hok).
  destruct (apply_shard_ops s d1 ops) as [rs d2]. simpl in *. exists t'. split; [done|].
  split; [by eapply shard_step_trans|]. constructor; [by eexists|done].
Qed.

Lemma covering_step t t' ts m :
  shard_step t t' -> covering t ts = Some m -> end_ts m <> 0 ->
  exists m', covering t' ts = Some m' /\ bounds m' = bounds m.
Proof.
  intros [[[Hc _]%validate_spec _] Hk _ _] Hm He. unfold covering in *.
  apply List.find_some in Hm as [Hin%list_elem_of_In Hcov].
  destruct (Hk m Hin He) as (m' & Hm' & Eb). exists m'. split; [|done].
  assert (covers m' ts = true) as Hcov'.
  { unfold covers in *. by injection Eb as _ -> ->. }
  destruct (List.find (fun m => covers m ts) (shards t')) as [m''|] eqn:Ef.
  - f_equal. symmetry. by eapply covering_unique.
  - apply list_elem_of_In in Hm'. pose proof (List.find_none _ _ Ef m' Hm'). simpl in *. congruence.
Qed.

(** Shards partition the timestamps, for good.  From any table that
    satisfies the invariant (the absent table does), after any sequence of shard
    operations, accepted or refused, every command was answered, the stored
    table can be read back and satisfies the invariant; each timestamp from the
    first boundary up to the last is covered by a shard and by only one; and a
    timestamp that lies in a closed shard is routed to that shard, with the
    same boundaries, ever after. *)
Theorem shard_routing_partition s d t ops :
  read_shard_table d = Ok t -> shard_inv t -> Forall (fun o => shard_op_ok o.1.1) ops ->
  exists t', read_shard_table (apply_shard_ops s d ops).2 = Ok t' /\ shard_inv t' /\
    Forall (fun r => exists l, r = Ok l) (apply_shard_ops s d ops).1 /\
    (forall ts m m', covering t' ts = Some m -> m' ∈ shards t' -> covers m' ts = true -> m' = m) /\
    (forall ts first final, head (shards t') = Some first -> latest_shard t' = Some final ->
       start_ts first <= ts -> (end_ts final = 0 \/ ts < end_ts final) ->
       is_Some (covering t' ts)) /\
    (forall ts m, covering t ts = Some m -> end_ts m <> 0 ->
       exists m', covering t' ts = Some m' /\ bounds m' = bounds m).
Proof using pl.
  intros Hr Hinv Hops. destruct (apply_shard_ops_rep s d t ops Hr Hinv Hops) as (t' & Hr' & Hst & Hok).
  pose proof (st_inv _ _ Hst) as Hinv'. pose proof (proj1 Hinv') as [Hc _]%validate_spec.
  exists t'. split_and!; [done..| | |].
  - intros ts m m' Hm Hin Hcov. by eapply covering_unique.
  - intros ts first final Hf Hl Hs He. by eapply covering_total.
  - intros ts m Hm He. by eapply covering_step.
Qed.

End stored.

(** ** Reclamation *)

Lemma gc_scan_spec t w now ret l through :
  match gc_scan t w now ret l through with
  | Some e => through = Some e \/ exists l1 m l2, l = l1 ++ m :: l2 /\ end_ts m = e /\
      is_reclaimed t m = false /\
      Forall (fun x => is_reclaimed t x = true \/ gc_due x w now ret = true) (l1 ++ [m])
  | None => through = None
  end.
Proof.
  revert through. induction l as [|m l IH]; intros through; cbn [gc_scan]; [destruct through; auto|].
  destruct (is_reclaimed t m) eqn:Er; [|destruct (gc_due m w now ret) eqn:Ed; cbn [negb]].
  - specialize (IH through). destruct (gc_scan _ _ _ _ l through); [|done].
    destruct IH as [?|(l1 & x & l2 & -> & ? & ? & Hf)]; [by left|right].
    exists (m :: l1), x, l2. split_and!; try done. constructor; [by left|done].
  - specialize (IH (Some (end_ts m))). destruct (gc_scan _ _ _ _ l _); [|done].
    destruct IH as [[= <-]|(l1 & x & l2 & -> & ? & ? & Hf)]; right.
    + exists [], m, l. split_and!; try done. constructor; [by right|constructor].
    + exists (m :: l1), x, l2. split_and!; try done. constructor; [by right|done].
  - destruct through; auto.
Qed.

(** The proposed boundary: everything at or below it is reclaimed or due. *)
Lemma gc_boundary_due t w now ret through :
  shard_inv t -> gc_boundary t w now ret = Some through ->
  (exists m, m ∈ shards t /\ end_ts m = through /\ is_reclaimed t m = false /\
     gc_due m w now ret = true) /\
  forall x, x ∈ shards t -> end_ts x <> 0 -> end_ts x <= through ->
    is_reclaimed t x = true \/ gc_due x w now ret = true.
Proof.
  intros [[Hc _]%validate_spec _] Hb. unfold gc_boundary in Hb.
  pose proof (gc_scan_spec t w now ret (shards t) None) as H. rewrite Hb in H.
  destruct H as [?|(l1 & m & l2 & El & Em & Er & Hf)]; [done|].
  apply Forall_app in Hf as [Hf1 [Hm _]%Forall_cons]. destruct Hm as [?|Hm]; [congruence|].
  rewrite El in *. apply chained_suffix in Hc. split.
  { exists m. split; [apply elem_of_app; right; by left|done]. }
  intros x Hx Hx0 Hle. apply elem_of_app in Hx as [Hx|[->|Hx]%elem_of_cons].
  - rewrite Forall_forall in Hf1. by apply Hf1.
  - by right.
  - exfalso. destruct (chained_after _ _ _ _ Hc Hx) as [_ Hx1].
    apply list_elem_of_split in Hx as (l3 & l4 & ->).
    rewrite (app_comm_cons l3 (x :: l4) m) in Hc. apply chained_suffix in Hc as (_ & _ & Hl & _).
    specialize (Hl Hx0). lia.
Qed.

(** When [advance_gc] moves the mark. *)
Lemma advance_gc_Ok t through :
  through <> 0 -> gc_before_ts t < through -> (exists m, m ∈ shards t /\ end_ts m = through) ->
  (forall x, x ∈ shards t -> end_ts x <> 0 -> end_ts x <= through -> sealed_at_ms x <> 0) ->
  advance_gc t through = Ok (true, {| shards := shards t; gc_before_ts := through |}).
Proof.
  intros H0 Hlt (m & Hm & Em) Hs. unfold advance_gc.
  rewrite (proj2 (Z.eqb_neq _ _) H0), (proj2 (Z.leb_gt _ _) Hlt). cbn [orb].
  assert (existsb (fun m => end_ts m =? through) (shards t) = true) as ->.
  { apply existsb_exists. exists m. by rewrite <-list_elem_of_In, Z.eqb_eq. }
  cbn [negb]. destruct (existsb _ (shards t)) eqn:Ex; [|done]. exfalso.
  apply existsb_exists in Ex as (x & Hx%list_elem_of_In & Hbad).
  rewrite !andb_true_iff, negb_true_iff, Z.eqb_neq, Z.leb_le, Z.eqb_eq in Hbad.
  destruct Hbad as [[Hx0 Hle] Hz]. by apply (Hs x).
Qed.

(** Reclamation is safe and its proposal is always accepted.  The boundary
    [gc_boundary] proposes makes [advance_gc] move the mark there, to a value
    above the old one; every shard this newly reclaims is due for it
    ([gc_due]: closed, sealed, below the watermark and past its retention). *)
Theorem shard_gc_safe t w now ret through :
  shard_inv t -> gc_boundary t w now ret = Some through ->
  exists t', advance_gc t through = Ok (true, t') /\ shard_inv t' /\
    gc_before_ts t < gc_before_ts t' /\ shards t' = shards t /\
    forall m, m ∈ shards t -> is_reclaimed t' m = true ->
      is_reclaimed t m = true \/ gc_due m w now ret = true.
Proof.
  intros Hinv Hb. pose proof Hinv as [[Hc _]%validate_spec [Hpos Hs]].
  destruct (gc_boundary_due t w now ret through Hinv Hb) as [(m & Hm & Em & Er & Hd) Hdue].
  assert (forall x, gc_due x w now ret = true -> end_ts x <> 0 /\ sealed_at_ms x <> 0) as Hsealed.
  { intros x Hx. unfold gc_due in Hx. rewrite !andb_true_iff, !negb_true_iff, !Z.eqb_neq in Hx. tauto. }
  destruct (Hsealed m Hd) as [He _].
  assert (gc_before_ts t < through) as Hlt.
  { unfold is_reclaimed in Er. rewrite (proj2 (Z.eqb_neq _ _) He) in Er. simpl in Er.
    apply Z.leb_gt in Er. lia. }
  assert (advance_gc t through = Ok (true, {| shards := shards t; gc_before_ts := through |})) as Hadv.
  { apply advance_gc_Ok; [congruence|done|by exists m|]. intros x Hx Hx0 Hle.
    destruct (Hdue x Hx Hx0 Hle) as [Hr|Hx']; [by apply Hs|by apply Hsealed]. }
  eexists. split; [exact Hadv|]. split; [apply (advance_gc_step _ _ _ _ Hinv Hadv)|].
  split; [done|]. split; [done|]. intros x Hx Hr. unfold is_reclaimed in Hr. simpl in Hr.
  apply andb_true_iff in Hr as [Hx0%negb_true_iff%Z.eqb_neq Hle%Z.leb_le]. by apply Hdue.
Qed.
