(* ===== verification/Decisions.v ===== *)
(** * Applying decisions to a data Region

    The sequencer's decisions are cut to each Region's interval
    ([kvt/decision_apply.rs]) and applied to its store in one write transaction
    ([MvccStorage::apply_commit_decisions] and
    [apply_commit_decisions_with_log] in [storage/mvcc.rs]), with the change
    log, the commit record and the cursor. *)

From S2P Require Export CommitLog.

Local Open Scope Z_scope.

(** ** Data *)

Record CommitDecisionApply := { da_commit_ts : Z; da_mutations : list SequencerMutation }.

Record CommitDecisionApplyLog := {
  dl_shard_id : Z; dl_region_id : Z; dl_commit_ts : Z; dl_txn_id : bytes; dl_start_ts : Z;
  dl_mutations : list SequencerMutation }.

Inductive DecisionView :=
  | Plain (decision : CommitDecisionApply)
  | Logged (decision : CommitDecisionApplyLog).

Definition dv_commit_ts (v : DecisionView) : Z :=
  match v with
  | Plain decision => da_commit_ts decision
  | Logged decision => dl_commit_ts decision
  end.

Definition dv_mutations (v : DecisionView) : list SequencerMutation :=
  match v with
  | Plain decision => da_mutations decision
  | Logged decision => dl_mutations decision
  end.

Definition dv_logged (v : DecisionView) : option CommitDecisionApplyLog :=
  match v with
  | Plain _ => None
  | Logged decision => Some decision
  end.

Record CommitDecisionApplyResult := { through_ts : Z; decisions : Z }.

(** ** Cutting to a Region *)

Inductive PeerRole := Voter | Learner.
Record Peer := { peer_node_id : Z; raft_addr : bytes; role : PeerRole }.
Record RegionEpoch := { conf_ver : Z; epoch_version : Z }.

Record RegionMeta := {
  region_id : Z; start_key : bytes; end_key : bytes; epoch : RegionEpoch; peers : list Peer;
  approximate_size : Z; approximate_keys : Z }.

#[export] Instance PeerRole_eq_dec : EqDecision PeerRole.
Proof. solve_decision. Defined.
#[export] Instance Peer_eq_dec : EqDecision Peer.
Proof. solve_decision. Defined.
#[export] Instance RegionEpoch_eq_dec : EqDecision RegionEpoch.
Proof. solve_decision. Defined.
#[export] Instance RegionMeta_eq_dec : EqDecision RegionMeta.
Proof. solve_decision. Defined.

Definition contains_key (m : RegionMeta) (key : bytes) : bool :=
  bytes_leb (start_key m) key && (bytes_eqb (end_key m) [] || bytes_ltb key (end_key m)).

Definition key_in_region (m : RegionMeta) (key : bytes) : bool :=
  bytes_leb (start_key m) key && (bytes_eqb (end_key m) [] || bytes_ltb key (end_key m)).

Definition mutation_bytes (m : SequencerMutation) : Z :=
  match m with
  | SmPut key value _ => Z.of_nat (length key) + Z.of_nat (length value) + 24
  | SmDelete key => Z.of_nat (length key) + 16
  | SmDeleteRange start end_ => Z.of_nat (length start) + Z.of_nat (length end_) + 32
  end.

(** [Ord::max] on slices. *)
Definition bytes_max (x y : bytes) : bytes := if bytes_ltb y x then x else y.

Definition clip_range (m : RegionMeta) (start end_ : bytes) : option (bytes * bytes) :=
  let clip_start := bytes_max start (start_key m) in
  let clip_end := match bytes_eqb (end_key m) [], bytes_eqb end_ [] with
                  | _, true => end_key m
                  | true, false => end_
                  | false, false => bytes_min end_ (end_key m)
                  end in
  if bytes_eqb clip_end [] || bytes_ltb clip_start clip_end then Some (clip_start, clip_end)
  else None.

Definition clip_mutation (m : RegionMeta) (mutation : SequencerMutation)
    : option SequencerMutation :=
  match mutation with
  | SmPut key _ _ | SmDelete key => if key_in_region m key then Some mutation else None
  | SmDeleteRange start end_ =>
    match clip_range m start end_ with
    | Some (start, end_) => Some (SmDeleteRange start end_)
    | None => None
    end
  end.

Definition apply_entry (m : RegionMeta) (decision : SequencerDecision) : CommitDecisionApplyLog :=
  {| dl_shard_id := COMMIT_LOG_STAGING_SHARD_ID; dl_region_id := region_id m;
     dl_commit_ts := sd_commit_ts decision; dl_txn_id := sd_txn_id decision;
     dl_start_ts := sd_start_ts decision;
     dl_mutations := omap (clip_mutation m) (sd_mutations decision) |}.

(** The loop; [payload_empty] is [payload.is_empty()] and [bytes] the size so
    far. *)
Fixpoint build_apply_loop (decisions : list SequencerDecision) (m : RegionMeta) (max_bytes : Z)
    (payload_empty : bool) (bytes : Z) : list CommitDecisionApplyLog :=
  match decisions with
  | [] => []
  | decision :: rest =>
    let entry := apply_entry m decision in
    let size := 24 + foldr (fun mu n => n + mutation_bytes mu) 0 (dl_mutations entry) in
    let total := Z.min (bytes + size) u64_max in
    if negb payload_empty && (Z.max max_bytes 1 <? total) then []
    else entry :: build_apply_loop rest m max_bytes false total
  end.

Definition build_apply_batch (decisions : list SequencerDecision) (m : RegionMeta) (batch : nat)
    (max_bytes : Z) : list CommitDecisionApplyLog :=
  build_apply_loop (take batch decisions) m max_bytes true 0.

(** ** Applying *)


Definition last_applied_decision_ts (d : db) : Z := read_u64 d DECISION_APPLIED_TS.

(** The same transaction: its change event matches the decision item by item. *)
Definition change_matches (c : KeyValueChange) (m : SequencerMutation) : bool :=
  match m with
  | SmPut key value _ => bytes_eqb (ch_key c) key && bool_decide (ch_value c = Some value)
  | SmDelete key => bytes_eqb (ch_key c) key && bool_decide (ch_value c = None)
  | SmDeleteRange _ _ => false
  end.

Definition event_matches_mutations (event : ChangeEvent) (mutations : list SequencerMutation)
    : bool :=
  if existsb (fun m => match m with SmDeleteRange _ _ => true | _ => false end) mutations
  then false
  else (length (changes event) =? length mutations)%nat
       && forallb (fun '(c, m) => change_matches c m) (zip (changes event) mutations).

(** A proposal to the Region's group: [None] when it fails, otherwise the
    revision and the log position at which it is applied. *)
Abbreviation proposal := (option (Z * AppliedLogId)).

Section apply.
Context {pr : Postcard CommitRecord} {z : Zstd}.

Definition prev_of (value : bytes) (m : KvMetadata) : CommitPrevValue :=
  {| pv_value := value; pv_create_revision := create_revision m;
     pv_mod_revision := mod_revision m; pv_version := version m; pv_lease_id := lease_id m |}.

Definition commit_prev_value (d : db) (internal_key : bytes) (m : KvMetadata)
    : option CommitPrevValue :=
  if deleted m then None else (fun value => prev_of value m) <$> tx_get d TABLE_KV internal_key.

(** The rows of a [DeleteRange]: the keys tombstoned with their old values. *)
Fixpoint decision_delete_range (end_ : bytes) (commit_ts : Z) (rows : list row) (d : db)
    : list (bytes * CommitPrevValue) * db :=
  match rows with
  | [] => ([], d)
  | (ik, value) :: rows =>
    match decode_kv_key ik with
    | None => decision_delete_range end_ commit_ts rows d
    | Some user_key =>
      if negb (bytes_eqb end_ []) && bytes_leb end_ user_key then ([], d)
      else match get_kv_metadata d user_key with
      | Some m =>
        if deleted m then decision_delete_range end_ commit_ts rows d
        else
          let '(ks, d') := decision_delete_range end_ commit_ts rows
            (insert_metadata user_key (meta_mark_deleted m commit_ts) d) in
          ((user_key, prev_of value m) :: ks, d')
      | None => decision_delete_range end_ commit_ts rows d
      end
    end
  end.

(** The rows a [DeleteRange] looks at: an empty [end_] is no bound. *)
Definition decision_range_rows (d : db) (start end_ : bytes) : list row :=
  iter_range d TABLE_KV (encode_kv_key start)
    (if bytes_eqb end_ [] then prefix_upper_bound KV_PREFIX else encode_kv_key end_).

(** One mutation: the changes for the change log and for the commit record. *)
Definition decision_mutation (s : MvccStorage) (commit_ts : Z) (m : SequencerMutation) (d : db)
    : result ((list KeyValueChange * list CommitChange) * db) :=
  match m with
  | SmPut key value lease =>
    let prev := get_kv_metadata d key ≫= commit_prev_value d (encode_kv_key key) in
    let meta := match get_kv_metadata d key with
                | Some m => meta_update m commit_ts (default 0 lease)
                | None => meta_new_key commit_ts (default 0 lease)
                end in
    encrypted ← encrypt_value s (encode_kv_key key) value;
    Ok (([put_change key value],
         [{| cc_key := key; cc_value := Some encrypted; cc_prev := prev |}]),
        insert_metadata key meta (tx_insert TABLE_KV (encode_kv_key key) encrypted d))
  | SmDelete key =>
    let prev := get_kv_metadata d key ≫= commit_prev_value d (encode_kv_key key) in
    let d := match get_kv_metadata d key with
             | Some m => if deleted m then d
                         else insert_metadata key (meta_mark_deleted m commit_ts) d
             | None => d
             end in
    Ok (([delete_change key], [{| cc_key := key; cc_value := None; cc_prev := prev |}]), d)
  | SmDeleteRange start end_ =>
    let '(ks, d) := decision_delete_range end_ commit_ts (decision_range_rows d start end_) d in
    Ok ((delete_change <$> ks.*1,
         (fun '(k, prev) => {| cc_key := k; cc_value := None; cc_prev := Some prev |}) <$> ks), d)
  end.

Fixpoint decision_mutations (s : MvccStorage) (commit_ts : Z) (ms : list SequencerMutation) (d : db)
    : result ((list KeyValueChange * list CommitChange) * db) :=
  match ms with
  | [] => Ok (([], []), d)
  | m :: ms =>
    '((cs, rs), d) ← decision_mutation s commit_ts m d;
    '((cs', rs'), d) ← decision_mutations s commit_ts ms d;
    Ok ((cs ++ cs', rs ++ rs'), d)
  end.

(** The commit record of a logged decision; a failure to write it is logged and
    ignored. *)
Definition write_record (log : CommitDecisionApplyLog) (rs : list CommitChange) (max_txn_bytes : Z)
    (d : db) : db :=
  match rs with
  | [] => d
  | _ =>
    let bytes := txn_write_bytes (dl_mutations log) in
    let record := {| cr_shard_id := dl_shard_id log; cr_commit_ts := dl_commit_ts log;
                     cr_txn_id := dl_txn_id log; cr_start_ts := dl_start_ts log;
                     cr_region_id := dl_region_id log;
                     cr_txn_bytes := if bytes <? u32_modulus then bytes else u32_modulus - 1;
                     cr_changes := rs |} in
    match append_commit_record_in_tx record max_txn_bytes d with
    | Ok (_, d) => d
    | Err _ => d
    end
  end.

(** One decision that is not a replay. *)
Definition decision_body (s : MvccStorage) (v : DecisionView) (max_txn_bytes : Z) (d : db)
    : result db :=
  let ts := dv_commit_ts v in
  '((cs, rs), d) ← decision_mutations s ts (dv_mutations v) d;
  let d := match cs with
           | [] => d
           | _ => insert_event {| revision := ts; changes := cs; event_type := EvTxn |} d
           end in
  Ok (match dv_logged v with
      | Some log => write_record log rs max_txn_bytes d
      | None => d
      end).

(** The loop: [continue] on replays, [break] where the decision cannot be
    applied. *)
Fixpoint apply_views (s : MvccStorage) (max_txn_bytes : Z) (views : list DecisionView)
    (current through count : Z) (previous : option Z) (d : db) : result ((Z * Z * Z) * db) :=
  match views with
  | [] => Ok ((current, through, count), d)
  | v :: views =>
    let ts := dv_commit_ts v in
    if ts <=? through then apply_views s max_txn_bytes views current through count previous d
    else if from_option (fun p => ts <=? p) false previous then Ok ((current, through, count), d)
    else
      existing ← changelog_event_at d ts;
      match existing with
      | Some event =>
        if event_matches_mutations event (dv_mutations v)
        then apply_views s max_txn_bytes views current ts (count + 1) (Some ts) d
        else Ok ((current, through, count), d)
      | None =>
        if ts <=? current then
          match dv_mutations v with
          | [] => apply_views s max_txn_bytes views current ts (count + 1) (Some ts) d
          | _ => Ok ((current, through, count), d)
          end
        else
          d ← decision_body s v max_txn_bytes d;
          apply_views s max_txn_bytes views ts ts (count + 1) (Some ts) d
      end
  end.

Definition apply_commit_decisions_core (s : MvccStorage) (d : db) (views : list DecisionView)
    (rev : Z) (applied : AppliedLogId) (max_txn_bytes : Z)
    : result CommitDecisionApplyResult * db :=
  let cursor := last_applied_decision_ts d in
  backend_write d (fun d =>
    '((current, through, count), d) ←
      apply_views s max_txn_bytes views (current_revision s d) cursor 0 None d;
    let d := if cursor <? through then tx_insert TABLE_KV DECISION_APPLIED_TS (be64 through) d
             else d in
    let effective := Z.max current through in
    let d := if current_revision s d <? effective then set_current_revision effective d else d in
    let d := note_log_index_revision s (insert_last_applied applied d) rev in
    Ok ({| through_ts := through; decisions := count |}, d)).

Definition apply_commit_decisions (s : MvccStorage) (d : db) (decisions : list CommitDecisionApply)
    (rev : Z) (applied : AppliedLogId) : result CommitDecisionApplyResult * db :=
  apply_commit_decisions_core s d (Plain <$> decisions) rev applied 0.

Definition apply_commit_decisions_with_log (s : MvccStorage) (d : db)
    (decisions : list CommitDecisionApplyLog) (rev : Z) (applied : AppliedLogId)
    (max_txn_bytes : Z) : result CommitDecisionApplyResult * db :=
  apply_commit_decisions_core s d (Logged <$> decisions) rev applied max_txn_bytes.

(** ** Following the decision log *)

Inductive PassEnd := CaughtUp | ApplyFailed | ScanFailed | NoMoreProposals.

(** The loop of [apply_pending_decisions] for one Region led by this node:
    [log] is the store of Region 0, [proposals] what becomes of the successive
    proposals; an error of the apply fails its proposal. *)
Fixpoint apply_region_pending {pd : Postcard SequencerDecision}
    (s : MvccStorage) (m : RegionMeta) (batch : nat) (max_txn_bytes : Z) (log : db)
    (proposals : list proposal) (total : Z) (d : db) : (Z * PassEnd) * db :=
  match sequencer_decisions_after log (last_applied_decision_ts d) batch with
  | Err _ => ((total, ScanFailed), d)
  | Ok decs =>
    let payload := build_apply_batch decs m batch max_txn_bytes in
    match last payload, proposals with
    | None, _ => ((total, CaughtUp), d)
    | Some _, [] => ((total, NoMoreProposals), d)
    | Some _, None :: _ => ((total, ApplyFailed), d)
    | Some entry, Some (rev, applied) :: proposals =>
      let more := (batch <=? length payload)%nat || (length payload <? length decs)%nat in
      match apply_commit_decisions_with_log s d payload rev applied max_txn_bytes with
      | (Err _, d) => ((total, ApplyFailed), d)
      | (Ok res, d) =>
        if through_ts res <? dl_commit_ts entry then ((total, ApplyFailed), d)
        else if more
        then apply_region_pending s m batch max_txn_bytes log proposals (total + decisions res) d
        else ((total + decisions res, CaughtUp), d)
      end
    end
  end.

End apply.
