(* ===== verification/DecisionsRefine.v ===== *)
(** * Applying decisions refines the history

    Each applied decision extends the history of the store by one event whose
    effect on every key is that of the decision's mutations. *)

From S2P Require Export Decisions SequencerSpec MvccRange MvccCompact.

Local Open Scope Z_scope.

(** ** One mutation *)

Definition mutation_lease_ok (m : SequencerMutation) : Prop :=
  match m with
  | SmPut _ _ lease => in_i64 (default 0 lease)
  | _ => True
  end.

(** Keys and values whose lengths fit the change log. *)
Definition mutation_wf (m : SequencerMutation) : Prop :=
  match m with
  | SmPut key value _ =>
      in_u32 (Z.of_nat (length key)) /\ in_u32 (Z.of_nat (length value))
  | SmDelete key => in_u32 (Z.of_nat (length key))
  | SmDeleteRange _ _ => True
  end.

Definition mutation_encrypt_fails (s : MvccStorage) (m : SequencerMutation) (e : Error) : Prop :=
  match m with
  | SmPut key value _ => encrypt_value s (encode_kv_key key) value = Err e
  | _ => False
  end.

(** The range rows of a decision are rows of user keys inside the interval. *)
Lemma elem_of_decision_range_rows d start end_ ik v :
  (ik, v) ∈ decision_range_rows d start end_ <->
  exists k, ik = encode_kv_key k /\ tx_get d TABLE_KV ik = Some v /\ in_range start end_ k = true.
Proof.
  unfold decision_range_rows. destruct (bytes_eqb_spec end_ []) as [->|Hne].
  - rewrite elem_of_iter_range. unfold encode_kv_key. rewrite in_range_prefix_from, andb_true_iff.
    rewrite starts_with_spec. unfold in_range. split.
    + intros [Hv [[k ->] Hle]]. exists k. rewrite bytes_leb_app_r in Hle. by rewrite Hle.
    + intros (k & -> & Hv & Hle). rewrite andb_true_r in Hle. split; [done|].
      split; [by eexists|]. by rewrite bytes_leb_app_r.
  - fold (kv_rows d start end_). rewrite elem_of_kv_rows. setoid_rewrite in_range_spec.
    split; intros (k & ? & ? & Hk); exists k; (split; [done|]); (split; [done|]);
      [destruct Hk; by auto|by destruct Hk as [? [?|?]]].
Qed.

(** The loop is the range-delete loop, with the old values. *)
Lemma decision_delete_range_eq end_ ts rows d :
  delete_range_loop end_ ts rows d =
  ((decision_delete_range end_ ts rows d).1.*1, (decision_delete_range end_ ts rows d).2).
Proof.
  revert d. induction rows as [|[ik v] rows IH]; intros d; [done|]. simpl.
  destruct (decode_kv_key ik) as [k|]; [|apply IH]. destruct (_ && _); [done|].
  destruct (get_kv_metadata d k) as [m|]; [|apply IH]. destruct (deleted m); [apply IH|].
  rewrite IH. by destruct (decision_delete_range _ _ _ _).
Qed.

Section mutations.
  Context (s : MvccStorage) (comp rev : Z) (h : history) (t : EventType).
  Context (Hrev : in_u64 rev) (Hbar : rep_barrier s).

Abbreviation with_changes cs := (h ++ [pending rev t cs]).
Abbreviation rep d cs := (keys_rep s d comp rev (with_changes cs)).

(** What a mutation must do to the keys. *)
Definition mutation_effect (m : SequencerMutation) (cs cs' : list KeyValueChange) : Prop :=
  forall k, latest (with_changes (cs ++ cs')) k =
    default (latest (with_changes cs) k) (mutation_value k m).

Lemma latest_deletes cs ks k :
  latest (with_changes (cs ++ (delete_change <$> ks))) k =
  if decide (k ∈ ks) then None else latest (with_changes cs) k.
Proof.
  rewrite !latest_snoc. simpl. rewrite apply_changes_app. generalize (apply_changes k (latest h k) cs).
  induction ks as [|k' ks IH]; intros v; [done|]. rewrite fmap_cons. cbn [apply_changes foldl].
  fold (apply_changes k (apply_change k v (delete_change k')) (delete_change <$> ks)). rewrite IH.
  unfold apply_change, delete_change. cbn [ch_key ch_value].
  destruct (decide (k ∈ ks)) as [Hk|Hk]; [by rewrite decide_True by by right|].
  destruct (bytes_eqb_spec k' k) as [->|Hne]; [by rewrite decide_True by by left|].
  rewrite decide_False; [done|]. intros [->|?]%elem_of_cons; done.
Qed.

Lemma range_mutation_rep start end_ d cs ks d' :
  rep d cs -> decision_delete_range end_ rev (decision_range_rows d start end_) d = (ks, d') ->
  keys_only d d' /\ rep d' (cs ++ (delete_change <$> ks.*1)) /\
  mutation_effect (SmDeleteRange start end_) cs (delete_change <$> ks.*1) /\
  Forall (fun k => is_Some (latest (with_changes cs) k)) ks.*1 /\
  (length ks <= size d)%nat.
Proof using Hrev.
  intros Hk E. pose proof (decision_delete_range_eq end_ rev (decision_range_rows d start end_) d) as El.
  rewrite E in El. simpl in El.
  destruct (delete_range_loop_rep s comp rev h t Hrev end_ (decision_range_rows d start end_)
    d cs ks.*1 d' Hk) as (Eks & Ho & Hr); [| |done|].
  { rewrite Forall_forall. intros [ik v] (k & -> & _ & [_ ?]%in_range_spec)%elem_of_decision_range_rows.
    by exists k. }
  { apply sorted_rows_NoDup, iter_range_sorted. }
  assert (forall k, k ∈ ks.*1 <-> in_range start end_ k = true /\ is_Some (latest (with_changes cs) k)) as Hin.
  { intros k. rewrite Eks, list_elem_of_fmap. setoid_rewrite list_elem_of_omap. split.
    - intros ([k1 x] & -> & ([ik v] & (k2 & -> & Hv & Hr')%elem_of_decision_range_rows & Ep)).
      rewrite live_pair_encode in Ep. apply fmap_Some in Ep as (y & Hy & [= -> ->]). cbn [fst]. by rewrite Hy.
    - intros [Hr' [x Hx]]. destruct (latest_row _ _ _ _ _ _ _ Hk Hx) as [raw Hraw].
      exists (k, x). split; [done|]. exists (encode_kv_key k, raw).
      rewrite elem_of_decision_range_rows, live_pair_encode, Hx. split; [by exists k|done]. }
  split; [done|]. split; [done|]. split; [|split].
  - intros k. rewrite latest_deletes. simpl. destruct (decide (k ∈ ks.*1)) as [Hd|Hd].
    + apply Hin in Hd as [-> _]. done.
    + destruct (in_range start end_ k) eqn:Er; [|done]. simpl.
      apply eq_None_not_Some. intros Hs. apply Hd, Hin. done.
  - rewrite Forall_forall. intros k [_ ?]%Hin. done.
  - rewrite <-(length_fmap fst ks), Eks, length_fmap. etrans; [apply length_omap|].
    apply length_iter_range.
Qed.

Lemma live_key_wf cs k :
  Forall event_wf h -> Forall change_wf cs -> is_Some (latest (with_changes cs) k) ->
  change_wf (delete_change k).
Proof.
  intros Hw Hcs [x (e & c & He & Hc & <- & _)%latest_Some]. split; [|done]. simpl.
  apply elem_of_app in He as [He| ->%list_elem_of_singleton].
  - rewrite Forall_forall in Hw. destruct (Hw e He) as (_ & _ & Hf). rewrite Forall_forall in Hf.
    exact (proj1 (Hf c Hc)).
  - simpl in Hc. rewrite Forall_forall in Hcs. exact (proj1 (Hcs c Hc)).
Qed.

(** What the changes of a mutation are. *)
Record mutation_done (m : SequencerMutation) (cs cs' : list KeyValueChange) (d d' : db) : Prop := {
  md_only : keys_only d d';
  md_rep : rep d' (cs ++ cs');
  md_effect : mutation_effect m cs cs';
  md_wf : Forall event_wf h -> Forall change_wf cs -> mutation_wf m -> Forall change_wf cs';
  md_length : (length cs' <= S (size d))%nat;
  md_size : (size d <= size d')%nat }.

Lemma size_tx_insert tb k v d : (size d <= size (tx_insert tb k v d))%nat.
Proof. unfold tx_insert. rewrite map_size_insert. destruct (d !! (tb, k)); simpl; lia. Qed.

Lemma size_delete_range end_ rows d :
  (size d <= size (decision_delete_range end_ rev rows d).2)%nat.
Proof.
  revert d. induction rows as [|[ik v] rows IH]; intros d; [done|]. simpl.
  destruct (decode_kv_key ik) as [k|]; [|apply IH]. destruct (_ && _); [done|].
  destruct (get_kv_metadata d k) as [m|]; [|apply IH]. destruct (deleted m); [apply IH|].
  specialize (IH (insert_metadata k (meta_mark_deleted m rev) d)).
  destruct (decision_delete_range _ _ _ _) as [ks d1]. simpl in *.
  etrans; [apply size_tx_insert|exact IH].
Qed.

Lemma point_effect m key v cs c :
  point_key m = Some key -> ch_key c = key -> ch_value c = v ->
  (forall k, mutation_value k m = if bytes_eqb key k then Some v else None) ->
  mutation_effect m cs [c].
Proof.
  intros Hk <- <- Hm k. rewrite latest_pending_snoc, Hm. by destruct (bytes_eqb (ch_key c) k).
Qed.

Lemma delete_mutation_rep key d cs :
  rep d cs ->
  let d' := match get_kv_metadata d key with
            | Some m => if deleted m then d else insert_metadata key (meta_mark_deleted m rev) d
            | None => d
            end in
  mutation_done (SmDelete key) cs [delete_change key] d d'.
Proof using Hrev.
  intros Hk d'. pose proof (live_metadata _ _ _ _ _ _ (Hk key)) as Hlive.
  assert (mutation_effect (SmDelete key) cs [delete_change key]) as He
    by (by eapply (point_effect _ key None)).
  assert (Forall event_wf h -> Forall change_wf cs -> mutation_wf (SmDelete key) ->
    Forall change_wf [delete_change key]) as Hwf.
  { intros _ _ Hm. constructor; [|constructor]. split; [exact Hm|done]. }
  assert (forall m, get_kv_metadata d key = Some m -> deleted m = true ->
    latest (with_changes cs) key = None) as Habs.
  { intros m Hm Hd. apply eq_None_not_Some. intros Hs%Hlive. destruct Hs as (m' & ? & ?). congruence. }
  unfold d'. destruct (get_kv_metadata d key) as [m|] eqn:Em; [destruct (deleted m) eqn:Ed|].
  - split; try done; [|simpl; lia]. apply pending_delete_absent; [|done]. by eapply Habs.
  - split; try done; [auto with coord|by apply pending_tombstone|simpl; lia|apply size_tx_insert].
  - split; try done; [|simpl; lia]. apply pending_delete_absent; [|done].
    apply eq_None_not_Some. intros Hs%Hlive. by destruct Hs as (m' & ? & ?).
Qed.

Lemma decision_mutation_rep m d cs :
  mutation_lease_ok m -> rep d cs ->
  match decision_mutation s rev m d with
  | Ok ((cs', _), d') => mutation_done m cs cs' d d'
  | Err e => mutation_encrypt_fails s m e
  end.
Proof using Hrev Hbar.
  intros Hl Hk. destruct m as [key value lease|key|start end_]; cbn [decision_mutation].
  - destruct (encrypt_value s (encode_kv_key key) value) as [x|e] eqn:Ee; cbn [mbind result_bind];
      [|done].
    assert (write_key s key value (default 0 lease) rev d = Ok (insert_metadata key
      match get_kv_metadata d key with
      | Some m => meta_update m rev (default 0 lease)
      | None => meta_new_key rev (default 0 lease)
      end (tx_insert TABLE_KV (encode_kv_key key) x d))) as Hw.
    { unfold write_key. by rewrite Ee. }
    split.
    + by eapply keys_only_write_key.
    + by eapply pending_write.
    + by eapply (point_effect _ key (Some value)).
    + intros _ _ [? ?]. constructor; [|constructor]. by split.
    + simpl. lia.
    + etrans; [apply size_tx_insert|apply size_tx_insert].
  - by apply delete_mutation_rep.
  - destruct (decision_delete_range end_ rev (decision_range_rows d start end_) d) as [ks d'] eqn:E.
    destruct (range_mutation_rep start end_ d cs ks d' Hk E) as (Ho & Hr & He & Hlive & Hn).
    split; [done|done|done| | |].
    + intros Hw Hcs _. rewrite Forall_fmap. eapply Forall_impl; [exact Hlive|]. intros k Hs.
      by eapply live_key_wf.
    + rewrite !length_fmap. lia.
    + pose proof (size_delete_range end_ (decision_range_rows d start end_) d) as Hsz. by rewrite E in Hsz.
Qed.

(** All mutations of a decision. *)
Lemma decision_mutations_rep ms d cs :
  Forall mutation_lease_ok ms -> rep d cs ->
  match decision_mutations s rev ms d with
  | Ok ((cs', _), d') => keys_only d d' /\ rep d' (cs ++ cs') /\
      (forall k, latest (with_changes (cs ++ cs')) k = run_mutations k ms (latest (with_changes cs) k)) /\
      (Forall event_wf h -> Forall change_wf cs -> Forall mutation_wf ms -> Forall change_wf cs') /\
      (length cs' <= length ms * S (size d'))%nat /\ (size d <= size d')%nat
  | Err e => exists m, m ∈ ms /\ mutation_encrypt_fails s m e
  end.
Proof using Hrev Hbar.
  intros Hl. revert d cs. induction Hl as [|m ms Hm Hms IH]; intros d cs Hk; cbn [decision_mutations].
  { rewrite app_nil_r. by split_and!. }
  pose proof (decision_mutation_rep m d cs Hm Hk) as H1.
  destruct (decision_mutation s rev m d) as [[[cs1 rs1] d1]|e]; cbn [mbind result_bind].
  2:{ exists m. split; [by left|done]. }
  destruct H1 as [Ho Hr He Hw Hn Hsz]. specialize (IH d1 (cs ++ cs1) Hr).
  destruct (decision_mutations s rev ms d1) as [[[cs2 rs2] d2]|e]; cbn [mbind result_bind].
  2:{ destruct IH as (m' & ? & ?). exists m'. split; [by right|done]. }
  destruct IH as (Ho2 & Hr2 & He2 & Hw2 & Hn2 & Hsz2). rewrite <-app_assoc in Hr2, He2.
  split_and!; [by etrans|done| | | |lia].
  - intros k. rewrite He2, He. done.
  - intros Hh Hcs [Hm1 Hms1]%Forall_cons. assert (Forall change_wf cs1) by (by apply Hw).
    apply Forall_app. split; [done|]. apply Hw2; [done|by apply Forall_app|done].
  - rewrite length_app. simpl. lia.
Qed.

End mutations.
