(* ===== verification/DecisionsApply.v ===== *)
(** * A batch of decisions

    The loop of [apply_commit_decisions_core] applies the decisions above the
    cursor one by one inside one transaction; the store it commits represents
    the history extended by them. *)

From S2P Require Export DecisionsRefine SysRows.

Local Open Scope Z_scope.

(** ** What the loop leaves alone *)

(** The meta table and the system rows of the key table. *)
Definition decision_frame (d d' : db) : Prop :=
  forall t k, t = TABLE_META \/ t = TABLE_KV /\ starts_with k KV_PREFIX = false ->
    tx_get d' t k = tx_get d t k.

#[export] Instance decision_frame_preorder : PreOrder decision_frame.
Proof.
  split; [done|]. intros d1 d2 d3 H1 H2 t k Hk. by rewrite H2, H1.
Qed.

Lemma decision_frame_insert t k v d :
  t <> TABLE_META -> t <> TABLE_KV \/ starts_with k KV_PREFIX = true ->
  decision_frame d (tx_insert t k v d).
Proof.
  intros Ht Hk t' k' Hk'. apply tx_get_insert_ne.
  intros [= <- <-]. destruct Hk' as [?|[? ?]], Hk as [?|?]; congruence.
Qed.

Lemma decision_frame_metadata key m d : decision_frame d (insert_metadata key m d).
Proof. apply decision_frame_insert; [done|by left]. Qed.

Section frame.
Context {pr : Postcard CommitRecord} {z : Zstd}.

Lemma delete_range_frame end_ ts rows d :
  decision_frame d (decision_delete_range end_ ts rows d).2.
Proof.
  revert d. induction rows as [|[ik v] rows IH]; intros d; [done|]. simpl.
  destruct (decode_kv_key ik) as [k|]; [|apply IH]. destruct (_ && _); [done|].
  destruct (get_kv_metadata d k) as [m|]; [|apply IH]. destruct (deleted m); [apply IH|].
  specialize (IH (insert_metadata k (meta_mark_deleted m ts) d)).
  destruct (decision_delete_range _ _ _ _) as [ks d1]. simpl in *.
  etrans; [apply decision_frame_metadata|exact IH].
Qed.

Lemma decision_mutations_frame s ts ms d cs d' :
  decision_mutations s ts ms d = Ok (cs, d') -> decision_frame d d'.
Proof.
  revert d cs. induction ms as [|m ms IH]; intros d cs; cbn [decision_mutations].
  { by intros [= _ <-]. }
  destruct (decision_mutation s ts m d) as [[[cs1 rs1] d1]|e] eqn:E; cbn [mbind result_bind]; [|done].
  destruct (decision_mutations s ts ms d1) as [[[cs2 rs2] d2]|e] eqn:E2; cbn [mbind result_bind];
    [|done]. intros [= _ <-].
  etrans; [|by eapply IH]. clear E2 IH.
  destruct m as [key value lease|key|start end_]; cbn [decision_mutation] in E.
  - destruct (encrypt_value _ _ _); cbn [mbind result_bind] in E; [|done]. injection E as _ _ <-.
    etrans; [|apply decision_frame_metadata]. apply decision_frame_insert; [done|right].
    apply starts_with_app.
  - injection E as _ _ <-. destruct (get_kv_metadata d key) as [m|]; [|done].
    destruct (deleted m); [done|]. apply decision_frame_metadata.
  - pose proof (delete_range_frame end_ ts (decision_range_rows d start end_) d) as H.
    destruct (decision_delete_range _ _ _ _) as [ks d2']. by injection E as _ _ <-.
Qed.

(** The commit record goes to a table of its own. *)
Lemma write_record_only log rs max d t :
  t <> TABLE_COMMIT_LOG -> same_table t (write_record log rs max d) d.
Proof.
  intros Ht. unfold write_record. destruct rs as [|c rs]; [done|].
  unfold append_commit_record_in_tx. destruct (commit_record_encode _ _); cbn [mbind result_bind];
    [|done].
  destruct (tx_get _ TABLE_COMMIT_LOG _) as [x|].
  - destruct (commit_record_decode x) as [|[]]; [by case_decide|done..].
  - by apply same_table_insert.
Qed.

Lemma write_record_frame log rs max d : decision_frame d (write_record log rs max d).
Proof. intros t k [-> |[-> _]]; by apply write_record_only. Qed.

End frame.

(** ** How much the store grows *)

Lemma size_tx_insert_le t k v d : (size (tx_insert t k v d) <= S (size d))%nat.
Proof. unfold tx_insert. rewrite map_size_insert. destruct (d !! (t, k)); simpl; lia. Qed.

Lemma size_insert_metadata key m0 m d :
  get_kv_metadata d key = Some m0 -> size (insert_metadata key m d) = size d.
Proof.
  unfold get_kv_metadata. intros H. unfold insert_metadata, tx_insert. rewrite map_size_insert_Some;
    [done|]. destruct (tx_get d TABLE_KV_META _) as [x|] eqn:E; [|done]. by exists x.
Qed.

Section size.
Context {pr : Postcard CommitRecord} {z : Zstd}.

Lemma size_decision_range end_ ts rows d :
  size (decision_delete_range end_ ts rows d).2 = size d.
Proof.
  revert d. induction rows as [|[ik v] rows IH]; intros d; [done|]. simpl.
  destruct (decode_kv_key ik) as [k|]; [|apply IH]. destruct (_ && _); [done|].
  destruct (get_kv_metadata d k) as [m|] eqn:E; [|apply IH]. destruct (deleted m); [apply IH|].
  specialize (IH (insert_metadata k (meta_mark_deleted m ts) d)).
  destruct (decision_delete_range _ _ _ _) as [ks d1]. simpl in *. rewrite IH.
  by eapply size_insert_metadata.
Qed.

Lemma size_decision_mutations s ts ms d cs d' :
  decision_mutations s ts ms d = Ok (cs, d') -> (size d' <= size d + 2 * length ms)%nat.
Proof.
  revert d cs. induction ms as [|m ms IH]; intros d cs; cbn [decision_mutations].
  { intros [= _ <-]. lia. }
  destruct (decision_mutation s ts m d) as [[[cs1 rs1] d1]|e] eqn:E; cbn [mbind result_bind]; [|done].
  destruct (decision_mutations s ts ms d1) as [[[cs2 rs2] d2]|e] eqn:E2; cbn [mbind result_bind];
    [|done]. intros [= _ <-].
  apply IH in E2. enough (size d1 <= S (S (size d)))%nat by (simpl; lia). clear E2 IH.
  destruct m as [key value lease|key|start end_]; cbn [decision_mutation] in E.
  - destruct (encrypt_value _ _ _); cbn [mbind result_bind] in E; [|done]. injection E as _ _ <-.
    etrans; [apply size_tx_insert_le|]. apply le_n_S, size_tx_insert_le.
  - injection E as _ _ <-. destruct (get_kv_metadata d key) as [m|] eqn:Em; [|lia].
    destruct (deleted m); [lia|]. rewrite (size_insert_metadata _ _ _ _ Em). lia.
  - pose proof (size_decision_range end_ ts (decision_range_rows d start end_) d) as H.
    destruct (decision_delete_range _ _ _ _) as [ks d2']. injection E as _ _ <-. simpl in H. lia.
Qed.

Lemma size_write_record log rs max d : (size (write_record log rs max d) <= S (size d))%nat.
Proof.
  unfold write_record. destruct rs as [|c rs]; [lia|]. unfold append_commit_record_in_tx.
  destruct (commit_record_encode _ _); cbn [mbind result_bind]; [|lia].
  destruct (tx_get _ TABLE_COMMIT_LOG _) as [x|]; [|apply size_tx_insert_le].
  destruct (commit_record_decode x) as [|[]]; try case_decide; lia.
Qed.

Definition view_rows (v : DecisionView) : nat := 2 * length (dv_mutations v) + 2.

Lemma size_decision_body s v max d d' :
  decision_body s v max d = Ok d' -> (size d' <= size d + view_rows v)%nat.
Proof.
  unfold decision_body, view_rows. intros E.
  destruct (decision_mutations s _ (dv_mutations v) d) as [[[cs rs] d2]|e] eqn:E2;
    cbn [mbind result_bind] in E; [|done]. injection E as <-.
  apply size_decision_mutations in E2. set (d3 := match cs with [] => d2 | _ => _ end).
  assert (size d3 <= S (size d2))%nat
    by (unfold d3; destruct cs; [lia|apply size_tx_insert_le]).
  destruct (dv_logged v) as [log|]; [|lia]. pose proof (size_write_record log rs max d3). lia.
Qed.

End size.

(** ** The history inside the transaction *)

(** [mvcc_rep] with the loop's own revision instead of the stored one. *)
Record tx_rep (s : MvccStorage) (d : db) (cur : Z) (h : history) : Prop := {
  tr_sorted : StronglySorted event_lt h;
  tr_wf : Forall event_wf h;
  tr_le : Forall (fun e => revision e <= cur) h;
  tr_comp : compacted_revision d <= cur;
  tr_log : changelog_rows d = event_row <$> retained (log_from d) h;
  tr_keys : keys_rep s d (compacted_revision d) cur h }.

Lemma mvcc_tx_rep s d h : mvcc_rep s d h -> tx_rep s d (current_revision s d) h.
Proof. by intros []. Qed.

Lemma tx_mvcc_rep s d h cur : cur <= current_revision s d -> tx_rep s d cur h -> mvcc_rep s d h.
Proof.
  intros Hle []. split; try done; [|lia|by eapply keys_rep_mono].
  eapply Forall_impl; [eassumption|]. simpl. lia.
Qed.

Lemma tx_rep_frame s d d' cur h :
  (forall key, tx_get d' TABLE_KV (encode_kv_key key) = tx_get d TABLE_KV (encode_kv_key key)) ->
  same_table TABLE_KV_META d' d -> same_table TABLE_CHANGELOG d' d ->
  compacted_revision d' = compacted_revision d -> tx_rep s d cur h -> tx_rep s d' cur h.
Proof.
  intros H1 H2 H3 Hc [G1 G2 G3 G4 G5 G6]. split; rewrite ?Hc; try done.
  - rewrite (log_from_same d d') by done. rewrite <-G5. by apply iter_prefix_same.
  - by eapply keys_rep_frame.
Qed.

(** No event lies above the loop's revision. *)
Lemma changelog_event_above s d cur h ts :
  tx_rep s d cur h -> cur < ts -> in_u64 ts -> changelog_event_at d ts = Ok None.
Proof.
  intros Hr Hlt Hts. unfold changelog_event_at.
  rewrite (changelog_lookup d _ ts Hts (retained_Forall _ _ _ (tr_wf _ _ _ _ Hr)) (tr_log _ _ _ _ Hr)).
  destruct (List.find _ _) as [e|] eqn:E; [|done]. exfalso.
  apply List.find_some in E as [[_ He]%list_elem_of_In%elem_of_List_filter Hrev%Z.eqb_eq].
  pose proof (tr_le _ _ _ _ Hr) as Hle. rewrite Forall_forall in Hle. specialize (Hle e He). lia.
Qed.

(** An event without changes is not written. *)
Lemma pending_nil_drop s d comp hi h rev t :
  keys_rep s d comp hi (h ++ [pending rev t []]) -> keys_rep s d comp hi h.
Proof.
  intros Hk key. specialize (Hk key). unfold key_rep in *. rewrite latest_pending_nil in Hk.
  eapply key_ok_mono; [..|exact Hk]; [done|done| |].
  - intros T. by rewrite value_at_pending_nil.
  - intros r (e & [He| ->%list_elem_of_singleton]%elem_of_app & Hr & Hin); [by exists e|].
    by apply elem_of_nil in Hin.
Qed.

(** The next event: the keys have changed, the event is written. *)
Lemma tx_rep_event s d d2 cur h e :
  tx_rep s d cur h -> keys_only d d2 -> cur < revision e -> event_wf e ->
  keys_rep s d2 (compacted_revision d) (revision e) (h ++ [e]) ->
  tx_rep s (insert_event e d2) (revision e) (h ++ [e]).
Proof.
  intros [Hs Hwf Hle Hco Hlog _] Ho Hlt Hw Hk.
  assert (compacted_revision (insert_event e d2) = compacted_revision d) as Hcomp.
  { apply compacted_revision_proper. rewrite <-(Ho TABLE_META) by done. by apply same_table_insert. }
  split; rewrite ?Hcomp.
  - apply StronglySorted_snoc; [done|]. eapply List.Forall_impl; [|exact Hle].
    intros e' ?. unfold event_lt. simpl in *. lia.
  - by rewrite Forall_app, Forall_singleton.
  - rewrite Forall_app, Forall_singleton. split; [|lia].
    eapply List.Forall_impl; [|exact Hle]. simpl. lia.
  - lia.
  - assert (same_table TABLE_CHANGELOG d2 d) as Hc by (by apply Ho).
    assert (compacted_revision d < revision e) as Hce by lia.
    rewrite (log_from_append d d2 _ e (proj1 Hw) Hce Hcomp Hc) by done.
    pose proof (log_from_bounds d). rewrite retained_snoc by lia. apply changelog_append; [done|by apply retained_Forall| | |].
    + by apply StronglySorted_List_filter.
    + apply retained_Forall. eapply List.Forall_impl; [|exact Hle]. simpl. lia.
    + rewrite <-Hlog. by apply iter_prefix_same, Ho.
  - eapply keys_rep_same; [| |exact Hk]; intros k; symmetry; by apply tx_get_insert_ne.
Qed.

(** The keys have changed in no way that makes an event. *)
Lemma tx_rep_no_event s d d2 cur h rev t :
  tx_rep s d cur h -> keys_only d d2 -> cur < rev ->
  keys_rep s d2 (compacted_revision d) rev (h ++ [pending rev t []]) -> tx_rep s d2 rev h.
Proof.
  intros [Hs Hwf Hle Hco Hlog _] Ho Hlt Hk%pending_nil_drop.
  assert (compacted_revision d2 = compacted_revision d) as Hcomp
    by (by apply compacted_revision_proper, Ho).
  split; rewrite ?Hcomp; try done; [|lia|].
  - eapply List.Forall_impl; [|exact Hle]. simpl. lia.
  - rewrite (log_from_same d d2) by (done || by apply Ho).
    rewrite <-Hlog. by apply iter_prefix_same, Ho.
Qed.

(** ** The loop *)

(** The value of a key after the decisions of a batch up to [T]. *)
Definition views_value (k : bytes) (T : Z) (views : list DecisionView) (v : option bytes)
    : option bytes :=
  foldl (fun v w => if dv_commit_ts w <=? T then run_mutations k (dv_mutations w) v else v) v views.

(** [h'] is [h] extended by the decisions [views]. *)
Definition extended_by (views : list DecisionView) (h h' : history) : Prop :=
  h `prefix_of` h' /\ forall k T, value_at h' k T = views_value k T views (value_at h k T).

Definition view_ok (v : DecisionView) : Prop :=
  in_u64 (dv_commit_ts v) /\ Forall mutation_lease_ok (dv_mutations v) /\
  Forall mutation_wf (dv_mutations v).

(** The change list of a decision fits the change log of a store of [n] rows. *)
Definition view_fits (n : nat) (v : DecisionView) : Prop :=
  in_u32 (Z.of_nat (length (dv_mutations v) * S n)).

Definition views_rows (views : list DecisionView) : nat :=
  foldr (fun v n => view_rows v + n)%nat 0%nat views.

Definition view_encrypt_fails (s : MvccStorage) (v : DecisionView) (e : Error) : Prop :=
  exists m, m ∈ dv_mutations v /\ mutation_encrypt_fails s m e.

Definition view_lt (v w : DecisionView) : Prop := dv_commit_ts v < dv_commit_ts w.

(** The timestamp of the last decision. *)
Definition through_last (ts : Z) (views : list DecisionView) : Z :=
  foldl (fun _ v => dv_commit_ts v) ts views.

Lemma view_fits_mono n n' v : (n <= n')%nat -> view_fits n' v -> view_fits n v.
Proof.
  unfold view_fits, in_u32. intros Hn [_ H]. split; [lia|]. eapply Z.le_lt_trans; [|exact H].
  apply Nat2Z.inj_le. apply Nat.mul_le_mono_l. lia.
Qed.

Section loop.
Context {pr : Postcard CommitRecord} {z : Zstd}.
Context (s : MvccStorage) (max_txn_bytes : Z) (Hbar : rep_barrier s).

Lemma decision_body_rep v d cur h :
  tx_rep s d cur h -> cur < dv_commit_ts v -> view_ok v ->
  view_fits (size d + view_rows v) v ->
  match decision_body s v max_txn_bytes d with
  | Ok d' => exists h', tx_rep s d' (dv_commit_ts v) h' /\ extended_by [v] h h'
  | Err e => view_encrypt_fails s v e
  end.
Proof using Hbar.
  intros Hr Hlt (Hts & Hl & Hw) Hfit. unfold decision_body. set (ts := dv_commit_ts v) in *.
  pose proof (pending_start s _ ts h EvTxn d cur ltac:(lia) (tr_keys _ _ _ _ Hr)) as Hk.
  pose proof (decision_mutations_rep s _ ts h EvTxn Hts Hbar _ d [] Hl Hk) as Hm.
  destruct (decision_mutations s ts (dv_mutations v) d) as [[[cs rs] d1]|e] eqn:E;
    cbn [mbind result_bind]; [|done].
  pose proof (size_decision_mutations _ _ _ _ _ _ E) as Hsz.
  destruct Hm as (Ho & Hk1 & Hv & Hwf & Hn & _). rewrite app_nil_l in Hk1, Hv.
  set (d2 := match cs with [] => d1 | _ => _ end).
  set (d3 := match dv_logged v with Some log => _ | None => d2 end).
  assert (forall t, t <> TABLE_COMMIT_LOG -> same_table t d3 d2) as H3.
  { unfold d3. destruct (dv_logged v); [|done]. intros t. apply write_record_only. }
  assert (forall h', tx_rep s d2 ts h' -> tx_rep s d3 ts h') as Hup.
  { intros h'. apply tx_rep_frame; try (by apply H3); [intros key; by apply H3|].
    by apply compacted_revision_proper, H3. }
  assert (forall k T, value_at (h ++ [pending ts EvTxn cs]) k T =
    if ts <=? T then run_mutations k (dv_mutations v) (value_at h k T) else value_at h k T) as Hval.
  { intros k T. rewrite value_at_snoc. simpl. destruct (Z.leb_spec ts T) as [HT|]; [|done].
    specialize (Hv k). rewrite !latest_snoc in Hv. simpl in Hv.
    rewrite (value_at_latest h k T); [exact Hv|].
    eapply Forall_impl; [exact (tr_le _ _ _ _ Hr)|]. simpl. lia. }
  destruct cs as [|c cs].
  - exists h. split; [apply Hup; by eapply tx_rep_no_event|]. split; [done|].
    intros k T. unfold views_value. simpl. fold ts. by rewrite <-Hval, value_at_pending_nil.
  - exists (h ++ [pending ts EvTxn (c :: cs)]). split.
    + apply Hup. apply (tx_rep_event s d d1 cur h (pending ts EvTxn (c :: cs))); try done.
      split; [done|]. split.
      * apply (view_fits_mono (size d1)) in Hfit; [|unfold view_rows; lia].
        unfold view_fits, in_u32 in *. simpl in *. lia.
      * apply Hwf; [apply (tr_wf _ _ _ _ Hr)|constructor|done].
    + split; [by apply prefix_app_r|]. intros k T. unfold views_value. simpl. fold ts. apply Hval.
Qed.

Lemma extended_by_nil h : extended_by [] h h.
Proof. by split. Qed.

Lemma extended_by_cons v views h h1 h2 :
  extended_by [v] h h1 -> extended_by views h1 h2 -> extended_by (v :: views) h h2.
Proof.
  intros [H1 V1] [H2 V2]. split; [by etrans|]. intros k T. by rewrite V2, V1.
Qed.

Lemma apply_views_frame views cur through count prev d r d' :
  apply_views s max_txn_bytes views cur through count prev d = Ok (r, d') -> decision_frame d d'.
Proof using.
  revert cur through count prev d. induction views as [|v views IH]; intros cur through count prev d;
    cbn [apply_views]; [by intros [= _ <-]|].
  destruct (_ <=? through); [apply IH|]. destruct (from_option _ _ _); [by intros [= _ <-]|].
  destruct (changelog_event_at d _) as [[ev|]|]; cbn [mbind result_bind]; [|..|done].
  { destruct (event_matches_mutations _ _); [apply IH|by intros [= _ <-]]. }
  destruct (_ <=? cur); [destruct (dv_mutations v); [apply IH|by intros [= _ <-]]|].
  destruct (decision_body s v max_txn_bytes d) as [d1|] eqn:E; cbn [mbind result_bind]; [|done].
  intros H%IH. etrans; [|exact H]. unfold decision_body in E.
  destruct (decision_mutations s _ (dv_mutations v) d) as [[[cs rs] d2]|e] eqn:E2;
    cbn [mbind result_bind] in E; [|done]. injection E as <-.
  etrans; [by eapply decision_mutations_frame|].
  etrans; [|destruct (dv_logged v); [apply write_record_frame|reflexivity]].
  destruct cs; [done|]. apply decision_frame_insert; [done|by left].
Qed.

Lemma size_apply_views views cur through count prev d r d' :
  apply_views s max_txn_bytes views cur through count prev d = Ok (r, d') ->
  (size d' <= size d + views_rows views)%nat.
Proof using.
  revert cur through count prev d. induction views as [|v views IH]; intros cur through count prev d;
    cbn [apply_views]; [intros [= _ <-]; lia|].
  change (views_rows (v :: views)) with (view_rows v + views_rows views)%nat.
  assert (forall d1 cur through count prev, (size d1 <= size d + view_rows v)%nat ->
    apply_views s max_txn_bytes views cur through count prev d1 = Ok (r, d') ->
    (size d' <= size d + (view_rows v + views_rows views))%nat) as Hgo.
  { intros d1 ? ? ? ? ? H%IH. lia. }
  destruct (_ <=? through); [apply Hgo; lia|].
  destruct (from_option _ _ _); [intros [= _ <-]; lia|].
  destruct (changelog_event_at d _) as [[ev|]|]; cbn [mbind result_bind]; [|..|done].
  { destruct (event_matches_mutations _ _); [apply Hgo; lia|intros [= _ <-]; lia]. }
  destruct (_ <=? cur); [destruct (dv_mutations v); [apply Hgo; lia|intros [= _ <-]; lia]|].
  destruct (decision_body s v max_txn_bytes d) as [d1|] eqn:E; cbn [mbind result_bind]; [|done].
  apply Hgo. by eapply size_decision_body.
Qed.

(** Decisions at or below the cursor are replays. *)
Lemma apply_views_replays old views cur through count prev d :
  Forall (fun v => dv_commit_ts v <= through) old ->
  apply_views s max_txn_bytes (old ++ views) cur through count prev d =
  apply_views s max_txn_bytes views cur through count prev d.
Proof using.
  induction 1 as [|v old Hv _ IH]; [done|]. simpl. by rewrite (proj2 (Z.leb_le _ _) Hv).
Qed.

(** The decisions above the cursor and the revision are all applied. *)
Lemma apply_views_rep views cur through count prev d h :
  tx_rep s d cur h -> StronglySorted view_lt views -> Forall view_ok views ->
  Forall (fun v => through < dv_commit_ts v /\ cur < dv_commit_ts v) views ->
  from_option (fun p => p <= through) True prev ->
  Forall (view_fits (size d + views_rows views)) views ->
  match apply_views s max_txn_bytes views cur through count prev d with
  | Ok ((cur', through', count'), d') =>
      cur' = through_last cur views /\ through' = through_last through views /\
      count' = count + Z.of_nat (length views) /\
      exists h', tx_rep s d' cur' h' /\ extended_by views h h'
  | Err e => exists v, v ∈ views /\ view_encrypt_fails s v e
  end.
Proof using Hbar.
  intros Hr Hs. revert cur through count prev d h Hr.
  induction Hs as [|v views Hs IH Hlt]; intros cur through count prev d h Hr Hok Hab Hp Hfit;
    cbn [apply_views].
  { split_and!; [done|done|simpl; lia|]. exists h. split; [done|apply extended_by_nil]. }
  apply Forall_cons in Hok as [Hv Hok]. apply Forall_cons in Hab as [[Ht Hc] Hab].
  apply Forall_cons in Hfit as [Hfv Hfit].
  change (views_rows (v :: views)) with (view_rows v + views_rows views)%nat in Hfv, Hfit.
  rewrite (proj2 (Z.leb_gt _ _) Ht).
  replace (from_option _ false prev) with false
    by (destruct prev as [p|]; simpl in *; [symmetry; apply Z.leb_gt; lia|done]).
  rewrite (changelog_event_above s d cur h) by (done || apply Hv). cbn [mbind result_bind].
  rewrite (proj2 (Z.leb_gt _ _) Hc).
  apply (view_fits_mono (size d + view_rows v)) in Hfv; [|lia].
  pose proof (decision_body_rep v d cur h Hr Hc Hv Hfv) as Hb.
  destruct (decision_body s v max_txn_bytes d) as [d1|e] eqn:E; cbn [mbind result_bind].
  2:{ exists v. split; [by left|done]. }
  apply size_decision_body in E. set (ts := dv_commit_ts v) in *.
  destruct Hb as (h1 & Hr1 & He1).
  assert (Forall (fun w => ts < dv_commit_ts w /\ ts < dv_commit_ts w) views) as Hab'.
  { eapply Forall_impl; [exact Hlt|]. intros w Hw. unfold view_lt in Hw. by split. }
  assert (Forall (view_fits (size d1 + views_rows views)) views) as Hfit'.
  { eapply Forall_impl; [exact Hfit|]. intros w. apply view_fits_mono. lia. }
  specialize (IH ts ts (count + 1) (Some ts) d1 h1 Hr1 Hok Hab' (Z.le_refl ts) Hfit').
  destruct (apply_views s max_txn_bytes views ts ts (count + 1) (Some ts) d1)
    as [[[[cur' through'] count'] d']|e].
  - destruct IH as (-> & -> & -> & h2 & Hr2 & He2).
    split_and!; [done|done|simpl; lia|]. exists h2. split; [done|]. by eapply extended_by_cons.
  - destruct IH as (w & ? & ?). exists w. split; [by right|done].
Qed.

End loop.

(** ** The handler *)

(** The decisions of a batch that are not replays. *)
Definition fresh_views (cursor : Z) (views : list DecisionView) : list DecisionView :=
  List.filter (fun v => cursor <? dv_commit_ts v) views.

Lemma fresh_above cursor views :
  Forall (fun v => cursor < dv_commit_ts v) (fresh_views cursor views).
Proof. apply Forall_forall. intros v [H _]%elem_of_List_filter. by apply Z.ltb_lt. Qed.

Lemma last_ts_range ts views :
  in_u64 ts -> Forall (fun v => in_u64 (dv_commit_ts v)) views -> in_u64 (through_last ts views).
Proof. intros Hts H. revert ts Hts. induction H as [|v views Hv H IH]; intros ts Hts; [done|by apply IH]. Qed.

Lemma last_ts_above ts views :
  StronglySorted view_lt views -> Forall (fun v => ts < dv_commit_ts v) views ->
  ts <= through_last ts views.
Proof.
  intros Hs. revert ts. induction Hs as [|v views Hs IH Hlt]; intros ts Hab; [done|].
  apply Forall_cons in Hab as [? _]. etrans; [|apply (IH (dv_commit_ts v))]; [lia|].
  eapply Forall_impl; [exact Hlt|]. done.
Qed.

Section handler.
Context {pr : Postcard CommitRecord} {z : Zstd}.
Context (s : MvccStorage) (Hmode : revision_mode s = ModeCommitTs).

(** The cursor and the revision, as the transaction leaves them. *)
Definition finish_decisions (cursor current through rev : Z) (applied : AppliedLogId) (d : db) : db :=
  let d := if cursor <? through then tx_insert TABLE_KV DECISION_APPLIED_TS (be64 through) d else d in
  let effective := Z.max current through in
  let d := if current_revision s d <? effective then set_current_revision effective d else d in
  note_log_index_revision s (insert_last_applied applied d) rev.

Lemma finish_decisions_rep cursor current through rev applied d h :
  tx_rep s d current h -> in_u64 current -> in_u64 through -> cursor <= through ->
  last_applied_decision_ts d = cursor ->
  let d' := finish_decisions cursor current through rev applied d in
  mvcc_rep s d' h /\ last_applied_decision_ts d' = through /\ current_revision s d' = Z.max (current_revision s d) (Z.max current through).
Proof using Hmode.
  intros Hr Hcur Hth Hle Hd d'. unfold d', finish_decisions, note_log_index_revision.
  rewrite decide_False by (by rewrite Hmode).
  set (d1 := if cursor <? through then _ else d). set (eff := Z.max current through).
  assert (same_table TABLE_META d1 d) as Hm.
  { unfold d1. destruct (_ <? _); [by apply same_table_insert|done]. }
  assert (in_u64 eff) as Heff by (unfold eff; destruct (Z.max_spec current through) as [[_ ->]|[_ ->]]; done).
  set (d2 := if current_revision s d1 <? eff then _ else d1).
  assert (current_revision s (insert_last_applied applied d2) =
    Z.max (current_revision s d) eff) as Hrev.
  { rewrite <-(current_revision_proper s _ _ Hm). transitivity (current_revision s d2).
    - unfold current_revision, current_revision_in_tx, insert_last_applied.
      rewrite tx_get_insert_ne by done. by rewrite Hmode.
    - unfold d2. destruct (Z.ltb_spec (current_revision s d1) eff); [|lia].
      rewrite current_revision_set by done. lia. }
  assert (forall t, t <> TABLE_META -> same_table t (insert_last_applied applied d2) d1) as H2.
  { intros t Ht. unfold insert_last_applied, d2, set_current_revision. frame. }
  assert (forall t, t <> TABLE_KV -> same_table t d1 d) as H1.
  { intros t Ht. unfold d1. frame. }
  split; [|split; [|exact Hrev]].
  - apply (tx_mvcc_rep _ _ _ current); [lia|]. revert Hr. apply tx_rep_frame.
    + intros key. rewrite H2 by done. unfold d1. destruct (_ <? _); [|done].
      rewrite <-(app_nil_r DECISION_APPLIED_TS). by apply kv_key_frame.
    + rewrite H2 by done. by apply H1.
    + rewrite H2 by done. by apply H1.
    + rewrite compacted_revision_last_applied, <-Hm. unfold d2.
      destruct (_ <? eff); [apply compacted_revision_set_current|done].
  - unfold last_applied_decision_ts, read_u64. rewrite H2 by done. unfold d1.
    destruct (Z.ltb_spec cursor through).
    + by apply read_u64_insert.
    + etrans; [exact Hd|]. by apply Z.le_antisymm.
Qed.

Lemma apply_commit_decisions_core_eq d views rev applied max :
  apply_commit_decisions_core s d views rev applied max =
  match apply_views s max views (current_revision s d) (last_applied_decision_ts d) 0 None d with
  | Ok ((current, through, count), d1) =>
      (Ok {| through_ts := through; decisions := count |},
       finish_decisions (last_applied_decision_ts d) current through rev applied d1)
  | Err e => (Err e, d)
  end.
Proof using.
  unfold apply_commit_decisions_core, backend_write.
  by destruct (apply_views _ _ _ _ _ _ _ _) as [[[[? ?] ?] ?]|].
Qed.

Lemma size_apply_decisions d views rev applied max :
  (size (apply_commit_decisions_core s d views rev applied max).2
     <= size d + views_rows views + 3)%nat.
Proof using Hmode.
  rewrite apply_commit_decisions_core_eq.
  destruct (apply_views _ _ _ _ _ _ _ _) as [[[[cur through] count] d1]|e] eqn:E; simpl; [|lia].
  apply size_apply_views in E. unfold finish_decisions, note_log_index_revision.
  rewrite decide_False by (by rewrite Hmode). unfold insert_last_applied, set_current_revision.
  set (d2 := if _ <? through then _ else d1).
  assert (size d2 <= S (size d1))%nat
    by (unfold d2; destruct (_ <? through); [apply size_tx_insert_le|lia]).
  set (d3 := if _ <? _ then tx_insert TABLE_META META_CURRENT_REVISION _ d2 else d2).
  assert (size d3 <= S (size d2))%nat
    by (unfold d3; destruct (current_revision s d2 <? _); [apply size_tx_insert_le|lia]).
  pose proof (size_tx_insert_le TABLE_META META_LAST_APPLIED (applied_to_bytes applied) d3). lia.
Qed.

(** The body of the handler, on every outcome. *)
Lemma apply_decisions_core_rep max views rev applied d h :
  mvcc_rep s d h -> rep_barrier s -> StronglySorted view_lt views -> Forall view_ok views ->
  let fresh := fresh_views (last_applied_decision_ts d) views in
  Forall (fun v => current_revision s d < dv_commit_ts v) fresh ->
  Forall (view_fits (size d + views_rows fresh)) fresh ->
  match apply_commit_decisions_core s d views rev applied max with
  | (Ok res, d') => through_ts res = through_last (last_applied_decision_ts d) fresh /\
      decisions res = Z.of_nat (length fresh) /\
      last_applied_decision_ts d' = through_ts res /\
      current_revision s d' = Z.max (current_revision s d) (through_ts res) /\
      exists h', mvcc_rep s d' h' /\ extended_by fresh h h'
  | (Err e, d') => d' = d /\ exists v, v ∈ fresh /\ view_encrypt_fails s v e
  end.
Proof using Hmode.
  intros Hrep Hbar Hs Hok fresh Hab Hfit. rewrite apply_commit_decisions_core_eq.
  set (cursor := last_applied_decision_ts d) in *.
  destruct (sorted_split_above dv_commit_ts cursor views Hs) as (old & E & Hold). fold (fresh_views cursor views) in E. fold fresh in E.
  rewrite E, apply_views_replays by done.
  assert (StronglySorted view_lt fresh) as Hsf by (by apply StronglySorted_List_filter).
  assert (Forall view_ok fresh) as Hokf by (rewrite E in Hok; by apply Forall_app in Hok as [_ ?]).
  pose proof (fresh_above cursor views) as Hcf. fold fresh in Hcf.
  pose proof (apply_views_rep s max Hbar fresh (current_revision s d) cursor 0 None d h
    (mvcc_tx_rep _ _ _ Hrep) Hsf Hokf
    (proj2 (Forall_and _ _) (conj Hcf Hab)) I Hfit) as H.
  destruct (apply_views s max fresh (current_revision s d) cursor 0 None d)
    as [[[[cur' through'] count'] d1]|e] eqn:Ev; cbn [mbind result_bind]; [|done].
  destruct H as (-> & -> & -> & h' & Hr & Hext).
  apply apply_views_frame in Ev.
  assert (Forall (fun v => in_u64 (dv_commit_ts v)) fresh) as Hu
    by (eapply Forall_impl; [exact Hokf|]; by intros v [? _]).
  destruct (finish_decisions_rep cursor (through_last (current_revision s d) fresh) (through_last cursor fresh)
    rev applied d1 h' Hr) as (Hm & Hc & Hcr).
  - apply last_ts_range; [auto with coord|done].
  - apply last_ts_range; [apply read_u64_range|done].
  - by apply last_ts_above.
  - unfold cursor, last_applied_decision_ts, read_u64. rewrite Ev; [done|by right].
  - split_and!; [done|simpl; lia|done| |by exists h'].
    cbn [through_ts]. rewrite Hcr, (current_revision_proper s d1 d) by (intros k; apply Ev; by left).
    destruct fresh; [simpl; lia|]. change (through_last (current_revision s d) (d0 :: fresh))
      with (through_last cursor (d0 :: fresh)). lia.
Qed.

(** C31: applying a batch of decisions refines the history.  On a store of a
    key-value region (revisions are commit timestamps), a batch in timestamp
    order whose new decisions lie above the store's revision is applied as a
    whole: the history is extended so that the value of every key at every
    timestamp is what the new decisions make of it, the cursor moves to the
    last of them, decisions at or below the cursor are skipped as replays, and
    the revision does not fall behind.  The only failure is the encryption of a
    value, and then nothing changes. *)
Theorem apply_decisions_refine max views rev applied d h :
  mvcc_rep s d h -> rep_barrier s -> StronglySorted view_lt views -> Forall view_ok views ->
  let fresh := fresh_views (last_applied_decision_ts d) views in
  Forall (fun v => current_revision s d < dv_commit_ts v) fresh ->
  Forall (view_fits (size d + views_rows fresh)) fresh ->
  match apply_commit_decisions_core s d views rev applied max with
  | (Ok res, d') => through_ts res = through_last (last_applied_decision_ts d) fresh /\
      decisions res = Z.of_nat (length fresh) /\
      last_applied_decision_ts d' = through_ts res /\
      current_revision s d' = Z.max (current_revision s d) (through_ts res) /\
      exists h', mvcc_rep s d' h' /\ extended_by fresh h h'
  | (Err e, d') => d' = d /\ exists v, v ∈ fresh /\ view_encrypt_fails s v e
  end.
Proof using Hmode. apply apply_decisions_core_rep. Qed.

(** A drifted decision stops the batch.  When the first new decision is
    not above the store's revision and the change log does not hold that very
    transaction, nothing of the batch is applied: the history and the cursor
    stay, so the decision is offered again. *)
Theorem drifted_decision_blocks max old v rest rev applied d h :
  mvcc_rep s d h ->
  Forall (fun v => dv_commit_ts v <= last_applied_decision_ts d) old ->
  in_u64 (dv_commit_ts v) ->
  last_applied_decision_ts d < dv_commit_ts v <= current_revision s d ->
  dv_mutations v <> [] ->
  (forall e, e ∈ h -> revision e = dv_commit_ts v ->
     event_matches_mutations e (dv_mutations v) = false) ->
  exists d', apply_commit_decisions_core s d (old ++ v :: rest) rev applied max =
      (Ok {| through_ts := last_applied_decision_ts d; decisions := 0 |}, d') /\
    mvcc_rep s d' h /\ last_applied_decision_ts d' = last_applied_decision_ts d.
Proof using Hmode.
  intros Hrep Hold Hts [Hlt Hle] Hm Hno. rewrite apply_commit_decisions_core_eq.
  rewrite apply_views_replays by done. cbn [apply_views].
  rewrite (proj2 (Z.leb_gt _ _) Hlt). cbn [from_option].
  rewrite (changelog_event_at_rep s d h) by done. cbn [mbind result_bind].
  assert (forall x y : result ((Z * Z * Z) * db),
    match List.find (fun e => revision e =? dv_commit_ts v) (retained (log_from d) h) with
    | Some event => if event_matches_mutations event (dv_mutations v) then x else y
    | None => y
    end = y) as Hf.
  { intros x y. destruct (List.find _ _) as [e|] eqn:E; [|done].
    destruct (find_retained _ _ _ _ _ Hrep E) as (He & Hr & _). by rewrite Hno. }
  rewrite (proj2 (Z.leb_le _ _) Hle). destruct (dv_mutations v) as [|m ms] eqn:Em; [done|].
  rewrite Hf.
  destruct (finish_decisions_rep (last_applied_decision_ts d) (current_revision s d)
    (last_applied_decision_ts d) rev applied d h (mvcc_tx_rep _ _ _ Hrep)) as (? & ? & _);
    [auto with coord|apply read_u64_range|done|done|].
  eexists. split; [reflexivity|]. done.
Qed.

End handler.
