(* ===== verification/DecisionsReplay.v ===== *)
(** * A Region replays the decision log

    The mutations cut to a Region have the effect of the whole decision on the
    keys of the Region and none elsewhere; a Region that follows the decision
    log holds, at every timestamp, the values the log decides. *)

From Stdlib Require Import Btauto.
From S2P Require Export DecisionsApply SequencerRebuild.

Local Open Scope Z_scope.

(** ** Cutting to a Region *)

Lemma bytes_leb_max x y k : bytes_leb (bytes_max x y) k = bytes_leb x k && bytes_leb y k.
Proof.
  apply eq_true_iff_eq. rewrite andb_true_iff. unfold bytes_max.
  destruct (bytes_ltb_spec y x) as [H%bytes_lt_le|H%bytes_not_lt]; simpl; fold (bytes_le x k) (bytes_le y k).
  - split; [|by intros [? ?]]. intros ?. split; [done|by etrans].
  - split; [|by intros [? ?]]. intros ?. split; [by etrans|done].
Qed.

Lemma bytes_ltb_min x y k : bytes_ltb k (bytes_min x y) = bytes_ltb k x && bytes_ltb k y.
Proof.
  apply eq_true_iff_eq. rewrite andb_true_iff. unfold bytes_min.
  destruct (bytes_leb_spec x y) as [H|H%bytes_not_le]; fold (bytes_lt k x) (bytes_lt k y).
  - split; [|by intros [? ?]]. intros ?. split; [done|by eapply bytes_lt_le_trans].
  - split; [|by intros [? ?]]. intros ?. split; [by etrans|done].
Qed.

(** The bounds of the cut describe the intersection. *)
Lemma clip_range_bounds m start end_ k :
  in_range (bytes_max start (start_key m))
    (match bytes_eqb (end_key m) [], bytes_eqb end_ [] with
     | _, true => end_key m
     | true, false => end_
     | false, false => bytes_min end_ (end_key m)
     end) k = in_range start end_ k && key_in_region m k.
Proof.
  unfold key_in_region, in_range. rewrite bytes_leb_max.
  destruct (bytes_eqb_spec (end_key m) []) as [E|E], (bytes_eqb_spec end_ []) as [E'|E'].
  - rewrite E. simpl. btauto.
  - destruct (bytes_eqb_spec end_ []); [done|]. simpl. btauto.
  - destruct (bytes_eqb_spec (end_key m) []); [done|]. simpl. btauto.
  - rewrite bytes_ltb_min. unfold bytes_min. destruct (bytes_leb end_ (end_key m));
    (destruct (bytes_eqb_spec (end_key m) []), (bytes_eqb_spec end_ []); try done); simpl; btauto.
Qed.

Lemma clip_range_exact m start end_ k :
  match clip_range m start end_ with
  | Some (cs, ce) => in_range cs ce k
  | None => false
  end = in_range start end_ k && key_in_region m k.
Proof.
  rewrite <-clip_range_bounds. unfold clip_range.
  match goal with |- _ = in_range _ ?c k => set (ce := c) end.
  destruct (bytes_eqb ce [] || bytes_ltb _ ce) eqn:E; [done|].
  apply orb_false_iff in E as [E1 E2]. unfold in_range. rewrite E1. simpl. symmetry.
  apply not_true_iff_false. intros [Hs He]%andb_true_iff.
  rewrite <-not_true_iff_false in E2. apply E2. by eapply bytes_le_lt_trans.
Qed.

(** A mutation cut to a Region does to a key of the Region what the mutation
    does, and nothing to another key. *)
Lemma clip_mutation_value m mu k :
  clip_mutation m mu ≫= mutation_value k = if key_in_region m k then mutation_value k mu else None.
Proof.
  destruct mu as [key value lease|key|start end_]; cbn [clip_mutation].
  - destruct (key_in_region m key) eqn:E; cbn [mbind option_bind mutation_value];
      destruct (bytes_eqb_spec key k) as [->|]; rewrite ?E; try done; by destruct (key_in_region m k).
  - destruct (key_in_region m key) eqn:E; cbn [mbind option_bind mutation_value];
      destruct (bytes_eqb_spec key k) as [->|]; rewrite ?E; try done; by destruct (key_in_region m k).
  - pose proof (clip_range_exact m start end_ k) as H.
    destruct (clip_range m start end_) as [[cs ce]|]; cbn [mbind option_bind mutation_value].
    + rewrite H. destruct (in_range start end_ k), (key_in_region m k); done.
    + destruct (in_range start end_ k), (key_in_region m k); done.
Qed.

Lemma run_mutations_clip m ms k v :
  run_mutations k (omap (clip_mutation m) ms) v = if key_in_region m k then run_mutations k ms v else v.
Proof.
  revert v. induction ms as [|mu ms IH]; intros v; [by destruct (key_in_region m k)|].
  pose proof (clip_mutation_value m mu k) as H. cbn [omap list_omap].
  destruct (clip_mutation m mu) as [mu'|]; cbn [mbind option_bind] in H; unfold run_mutations in *;
    cbn [foldl]; rewrite IH, ?H; [by destruct (key_in_region m k)|].
  destruct (key_in_region m k); [by rewrite <-H|done].
Qed.

(** ** The batch for a Region *)

Lemma build_apply_loop_prefix decs m max empty bytes :
  exists n, build_apply_loop decs m max empty bytes = apply_entry m <$> take n decs /\
    (n <= length decs)%nat /\ (empty = true -> decs <> [] -> 0 < n)%nat.
Proof.
  revert empty bytes. induction decs as [|dec decs IH]; intros empty bytes; [by exists 0%nat|].
  cbn [build_apply_loop]. destruct (negb empty && _) eqn:E.
  - exists 0%nat. split; [done|]. split; [lia|]. intros ->. done.
  - match goal with |- context [build_apply_loop decs m max false ?x] =>
      destruct (IH false x) as (n & -> & Hn & _) end.
    exists (S n). split; [done|]. simpl. split; [lia|]. lia.
Qed.

Lemma build_apply_batch_prefix decs m batch max :
  exists n, build_apply_batch decs m batch max = apply_entry m <$> take n decs /\
    (n <= Nat.min batch (length decs))%nat /\ ((0 < batch)%nat -> decs <> [] -> (0 < n)%nat).
Proof.
  destruct (build_apply_loop_prefix (take batch decs) m max true 0) as (n & E & Hn & Hp).
  rewrite length_take in Hn. exists n. unfold build_apply_batch. rewrite E, take_take.
  replace (n `min` batch)%nat with n by lia. split; [done|]. split; [lia|].
  intros Hb Hd. apply Hp; [done|]. destruct decs, batch; done || lia.
Qed.

(** The batch for a Region.  The payload is a prefix of the decisions,
    never empty when there is one, and each entry, applied to the value of any
    key, does what the whole decision does if the key lies in the Region and
    nothing otherwise: the Regions of a partition of the key space together
    apply every decision exactly once to every key. *)
Theorem apply_batch_exact decs m batch max :
  (0 < batch)%nat ->
  exists n, build_apply_batch decs m batch max = apply_entry m <$> take n decs /\
    (n <= batch)%nat /\ (decs <> [] -> (0 < n)%nat) /\
    forall dec k v, run_mutations k (dl_mutations (apply_entry m dec)) v =
      if key_in_region m k then run_mutations k (sd_mutations dec) v else v.
Proof.
  intros Hb. destruct (build_apply_batch_prefix decs m batch max) as (n & E & Hn & Hp).
  exists n. split; [done|]. split; [lia|]. split; [by apply Hp|]. intros dec k v.
  apply run_mutations_clip.
Qed.

(** The payload bytes of an entry, as the batch counts them. *)
Definition entry_bytes (e : CommitDecisionApplyLog) : Z :=
  24 + foldr (fun mu n => n + mutation_bytes mu) 0 (dl_mutations e).

Definition payload_bytes (es : list CommitDecisionApplyLog) : Z :=
  foldr (fun e n => entry_bytes e + n) 0 es.

Lemma entry_bytes_pos e : 0 < entry_bytes e.
Proof.
  unfold entry_bytes. enough (0 <= foldr (fun mu n => n + mutation_bytes mu) 0 (dl_mutations e)) by lia.
  induction (dl_mutations e) as [|mu ms IH]; [done|]. simpl.
  destruct mu; cbn [mutation_bytes]; lia.
Qed.

Lemma build_apply_loop_bytes decs m max bytes :
  0 <= bytes <= Z.max max 1 -> max < u64_max ->
  bytes + payload_bytes (build_apply_loop decs m max false bytes) <= Z.max max 1.
Proof.
  intros Hb Hm. assert (1 < u64_max) as H1 by (by vm_compute). revert bytes Hb. induction decs as [|dec decs IH]; intros bytes Hb;
    cbn [build_apply_loop]; [simpl; lia|].
  fold (entry_bytes (apply_entry m dec)). pose proof (entry_bytes_pos (apply_entry m dec)) as Hp.
  cbn [negb andb]. destruct (Z.ltb_spec (Z.max max 1)
    (Z.min (bytes + entry_bytes (apply_entry m dec)) u64_max)) as [H|H]; [simpl; lia|].
  assert (Z.min (bytes + entry_bytes (apply_entry m dec)) u64_max =
    bytes + entry_bytes (apply_entry m dec)) as E by lia.
  rewrite E in H |- *. specialize (IH (bytes + entry_bytes (apply_entry m dec)) ltac:(lia)).
  unfold payload_bytes in *. cbn [foldr]. lia.
Qed.

(** C40: a batch is bounded.  It has at most [batch] entries, and its bytes stay
    within the limit unless its first entry alone exceeds it, in which case
    that entry is the whole batch. *)
Theorem apply_batch_bounded decs m batch max :
  max < u64_max ->
  let payload := build_apply_batch decs m batch max in
  (length payload <= batch)%nat /\
  (payload_bytes payload <= Z.max max 1 \/
   exists e, payload = [e] /\ Z.max max 1 < entry_bytes e).
Proof.
  intros Hm payload. assert (1 < u64_max) as H1 by (by vm_compute). split.
  { destruct (build_apply_batch_prefix decs m batch max) as (n & E & Hn & _). unfold payload.
    rewrite E, length_fmap, length_take. lia. }
  unfold payload, build_apply_batch. destruct (take batch decs) as [|dec rest]; [left; simpl; lia|].
  cbn [build_apply_loop negb andb]. fold (entry_bytes (apply_entry m dec)).
  set (e := apply_entry m dec). pose proof (entry_bytes_pos e) as Hp.
  destruct (Z.le_gt_cases (entry_bytes e) (Z.max max 1)) as [H|H].
  - left. rewrite Z.min_l by lia.
    pose proof (build_apply_loop_bytes rest m max (0 + entry_bytes e) ltac:(lia) Hm) as Hb.
    unfold payload_bytes in *. cbn [foldr]. lia.
  - right. exists e. split; [|done]. f_equal. destruct rest as [|dec' rest]; [done|].
    cbn [build_apply_loop negb andb]. fold (entry_bytes (apply_entry m dec')).
    pose proof (entry_bytes_pos (apply_entry m dec')).
    destruct (Z.ltb_spec (Z.max max 1)
      (Z.min (Z.min (0 + entry_bytes e) u64_max + entry_bytes (apply_entry m dec')) u64_max)) as [|Hx];
      [done|]. lia.
Qed.

(** ** The decisions up to a cursor *)

Abbreviation dec_lt := (fun a a' => sd_commit_ts a < sd_commit_ts a').

Definition pending_decisions (c : Z) (ds : list SequencerDecision) : list SequencerDecision :=
  List.filter (fun dec => c <? sd_commit_ts dec) ds.

Lemma pending_above c ds : Forall (fun dec => c < sd_commit_ts dec) (pending_decisions c ds).
Proof. apply Forall_forall. intros v [H _]%elem_of_List_filter. by apply Z.ltb_lt. Qed.

(** What the decisions up to [c] make of a key. *)
Definition run_decisions (k : bytes) (T : Z) (ds : list SequencerDecision) (v : option bytes)
    : option bytes :=
  foldl (fun v dec => if sd_commit_ts dec <=? T then run_mutations k (sd_mutations dec) v else v) v ds.

Lemma run_decisions_upto k T c ds v :
  Forall (fun dec => sd_commit_ts dec <= c) ds ->
  run_decisions k (Z.min T c) ds v = run_decisions k T ds v.
Proof.
  intros H. revert v. induction H as [|dec ds Hd H IH]; intros v; [done|]. unfold run_decisions in *.
  simpl. rewrite IH. f_equal.
  destruct (Z.leb_spec (sd_commit_ts dec) (Z.min T c)), (Z.leb_spec (sd_commit_ts dec) T); done || lia.
Qed.

Lemma run_decisions_above k T c ds v :
  Forall (fun dec => c < sd_commit_ts dec) ds -> run_decisions k (Z.min T c) ds v = v.
Proof.
  intros H. revert v. induction H as [|dec ds Hd H IH]; intros v; [done|]. unfold run_decisions in *.
  simpl. rewrite IH. destruct (Z.leb_spec (sd_commit_ts dec) (Z.min T c)); [lia|done].
Qed.

Lemma decided_value_upto old rest k T c :
  Forall (fun dec => sd_commit_ts dec <= c) old -> Forall (fun dec => c < sd_commit_ts dec) rest ->
  decided_value (old ++ rest) k (Z.min T c) = run_decisions k T old None.
Proof.
  intros Ho Hr. change (run_decisions k (Z.min T c) (old ++ rest) None = run_decisions k T old None).
  unfold run_decisions. rewrite foldl_app. fold (run_decisions k (Z.min T c) old None).
  rewrite run_decisions_upto by done. by apply run_decisions_above.
Qed.

(** ** Following the log *)

Definition decision_applies (dec : SequencerDecision) : Prop :=
  in_u64 (sd_commit_ts dec) /\ Forall mutation_lease_ok (sd_mutations dec) /\
  Forall mutation_wf (sd_mutations dec).

(** The rows the decisions may add to the store of a Region. *)
Definition decisions_rows (ds : list SequencerDecision) : nat :=
  foldr (fun dec n => 2 * length (sd_mutations dec) + 5 + n)%nat 0%nat ds.

Definition decisions_fit (n : nat) (ds : list SequencerDecision) : Prop :=
  Forall (fun dec => in_u32 (Z.of_nat (length (sd_mutations dec) * S n))) ds.

(** The store [d] of the Region [m] holds, at every timestamp up to its cursor,
    the values the log [ds] decides for the keys of the Region. *)
Record region_follows (s : MvccStorage) (m : RegionMeta) (ds : list SequencerDecision) (d : db)
    (h : history) : Prop := {
  rf_rep : mvcc_rep s d h;
  rf_aligned : current_revision s d <= last_applied_decision_ts d;
  rf_value : forall k T, value_at h k T =
    if key_in_region m k then decided_value ds k (Z.min T (last_applied_decision_ts d)) else None }.

Abbreviation entry_view m := (fun dec => Logged (apply_entry m dec)).

Lemma entry_view_ok m dec : decision_applies dec -> view_ok (entry_view m dec).
Proof.
  intros (Hu & Hl & Hw). split; [done|]. cbn [dv_mutations apply_entry dl_mutations].
  assert (forall P : SequencerMutation -> Prop, Forall P (sd_mutations dec) ->
    (forall start end_, P (SmDeleteRange start end_)) ->
    Forall P (omap (clip_mutation m) (sd_mutations dec))) as H.
  { intros P HP Hr. apply Forall_forall. intros mu (mu0 & Hin & E)%list_elem_of_omap.
    rewrite Forall_forall in HP. specialize (HP _ Hin).
    destruct mu0 as [key v l|key|st en]; simpl in E; [..|by destruct (clip_range _ _ _) as [[]|];
      simplify_eq]; destruct (key_in_region m key); by simplify_eq. }
  split; by apply H.
Qed.

Lemma entry_view_length m dec :
  (length (dv_mutations (entry_view m dec)) <= length (sd_mutations dec))%nat.
Proof.
  simpl. induction (sd_mutations dec) as [|mu ms IH]; [done|]. cbn [omap list_omap].
  destruct (clip_mutation m mu); simpl; lia.
Qed.

Lemma entry_views_rows m ds :
  (views_rows (entry_view m <$> ds) + 3 * length ds <= decisions_rows ds)%nat.
Proof.
  induction ds as [|dec ds IH]; [done|].
  change (view_rows (entry_view m dec) + views_rows (entry_view m <$> ds) + 3 * S (length ds)
    <= 2 * length (sd_mutations dec) + 5 + decisions_rows ds)%nat.
  pose proof (entry_view_length m dec). unfold view_rows. lia.
Qed.

Lemma decisions_rows_app ds ds' :
  decisions_rows (ds ++ ds') = (decisions_rows ds + decisions_rows ds')%nat.
Proof.
  induction ds as [|dec ds IH]; [done|]. cbn [app]. unfold decisions_rows in *. cbn [foldr].
  rewrite IH. lia.
Qed.

Lemma entry_views_value m k T ds v :
  views_value k T (entry_view m <$> ds) v =
  if key_in_region m k then run_decisions k T ds v else v.
Proof.
  revert v. induction ds as [|dec ds IH]; intros v; [by destruct (key_in_region m k)|].
  unfold views_value, run_decisions in *. simpl. rewrite IH, run_mutations_clip.
  by destruct (key_in_region m k), (_ <=? T).
Qed.

Lemma decisions_fit_mono n n' ds : (n <= n')%nat -> decisions_fit n' ds -> decisions_fit n ds.
Proof.
  intros Hn H. eapply Forall_impl; [exact H|]. unfold in_u32. intros dec [_ Hd]. split; [lia|].
  eapply Z.le_lt_trans; [|exact Hd]. apply Nat2Z.inj_le, Nat.mul_le_mono_l. lia.
Qed.

Lemma entry_views_fit m n n' ds :
  (n <= n')%nat -> decisions_fit n' ds -> Forall (view_fits n) (entry_view m <$> ds).
Proof.
  intros Hn H%(decisions_fit_mono n n' ds Hn). apply Forall_fmap. eapply Forall_impl; [exact H|].
  unfold in_u32, view_fits, in_u32, compose. intros dec [_ Hd]. split; [lia|].
  eapply Z.le_lt_trans; [|exact Hd]. apply Nat2Z.inj_le, Nat.mul_le_mono_r, entry_view_length.
Qed.

(** A prefix of the pending decisions, up to the timestamp of its last one. *)
Lemma pending_take c ds n x :
  StronglySorted dec_lt ds -> last (take n (pending_decisions c ds)) = Some x ->
  exists old, ds = old ++ take n (pending_decisions c ds) ++ drop n (pending_decisions c ds) /\
    Forall (fun dec => sd_commit_ts dec <= c) old /\
    Forall (fun dec => sd_commit_ts dec <= sd_commit_ts x) (old ++ take n (pending_decisions c ds)) /\
    Forall (fun dec => sd_commit_ts x < sd_commit_ts dec) (drop n (pending_decisions c ds)) /\
    pending_decisions (sd_commit_ts x) ds = drop n (pending_decisions c ds).
Proof.
  intros Hs [l E]%last_Some. destruct (sorted_split_above sd_commit_ts c ds Hs) as (old & Eds & Hold).
  fold (pending_decisions c ds) in Eds. set (pend := pending_decisions c ds) in *.
  pose proof (pending_above c ds) as Hab. fold pend in Hab.
  assert (StronglySorted dec_lt pend) as Hsp by (by apply StronglySorted_List_filter).
  rewrite <-(take_drop n pend), E in Hsp. apply StronglySorted_app in Hsp as (Hc & Hsl & _).
  apply StronglySorted_app in Hsl as (Hl & _ & _).
  assert (c < sd_commit_ts x) as Hx.
  { rewrite Forall_forall in Hab. apply Hab. rewrite <-(take_drop n pend), E. set_solver. }
  assert (Forall (fun dec => sd_commit_ts dec <= sd_commit_ts x) (old ++ take n pend)) as Hle.
  { rewrite E, !Forall_app, Forall_singleton. split_and!; [|apply Forall_forall|done].
    - eapply Forall_impl; [exact Hold|]. simpl. lia.
    - intros dec Hd. specialize (Hl dec x Hd ltac:(by left)). simpl in Hl. lia. }
  assert (Forall (fun dec => sd_commit_ts x < sd_commit_ts dec) (drop n pend)) as Hgt.
  { apply Forall_forall. intros dec Hd. apply Hc; [|done]. apply elem_of_app. right. by left. }
  exists old. split; [by rewrite take_drop|]. split_and!; [done|done|done|].
  unfold pending_decisions at 1. rewrite Eds, <-(take_drop n pend) at 1.
  rewrite app_assoc, List.filter_app.
  rewrite filter_none, filter_all; [done| |].
  - rewrite Forall_forall in Hgt. intros dec Hd%Hgt. by apply Z.ltb_lt.
  - rewrite Forall_forall in Hle. intros dec Hd%Hle. by apply Z.ltb_ge.
Qed.

Lemma through_last_entries m c ds x :
  last ds = Some x -> through_last c (entry_view m <$> ds) = sd_commit_ts x.
Proof.
  intros [l ->]%last_Some. unfold through_last. by rewrite fmap_app, foldl_app.
Qed.

Section replay.
Context {sha : Sha256} {pd : Postcard SequencerDecision} {pi : Postcard SequencerIntervalWrite}.
Context {pld : PostcardLaws SequencerDecision}.
Context {pr : Postcard CommitRecord} {z : Zstd}.
Context {U : bytes -> Prop}.
Context (s : MvccStorage) (m : RegionMeta) (batch : nat) (max_txn_bytes : Z).
Context (log : db) (ds : list SequencerDecision).
Context (Hmode : revision_mode s = ModeCommitTs) (Hbar : rep_barrier s).
Context (Hbatch : (0 < batch)%nat) (Hlog : log_rows U log ds).
Context (Happ : Forall decision_applies ds).
Context (Htop : Forall (fun dec => sd_commit_ts dec < u64_max) ds).

(** What one proposal does to the Region. *)
Definition step_done (n : nat) (d d' : db) (res : CommitDecisionApplyResult) : Prop :=
  let pend := pending_decisions (last_applied_decision_ts d) ds in
  (exists h', region_follows s m ds d' h') /\
  last_applied_decision_ts d' = through_ts res /\ decisions res = Z.of_nat n /\
  (forall x, last (take n pend) = Some x -> through_ts res = sd_commit_ts x) /\
  pending_decisions (through_ts res) ds = drop n pend /\
  (size d' <= size d + decisions_rows (take n pend))%nat.

Lemma entry_views_ok c n :
  let new := take n (pending_decisions c ds) in
  StronglySorted view_lt (entry_view m <$> new) /\ Forall view_ok (entry_view m <$> new) /\
  fresh_views c (entry_view m <$> new) = entry_view m <$> new.
Proof using Happ Hlog.
  intros new. assert (new ⊆ pending_decisions c ds) as Hsub by apply subseteq_take.
  split_and!.
  - assert (StronglySorted dec_lt new) as Hs.
    { assert (StronglySorted dec_lt (pending_decisions c ds)) as Hp
        by (apply StronglySorted_List_filter, (lr_sorted _ _ _ Hlog)).
      rewrite <-(take_drop n (pending_decisions c ds)) in Hp. by apply StronglySorted_app in Hp as (_ & ? & _). }
    clear Hsub. induction Hs as [|dec l Hs IH Hl]; [constructor|]. rewrite fmap_cons.
    constructor; [exact IH|]. rewrite Forall_fmap. eapply Forall_impl; [exact Hl|]. done.
  - rewrite Forall_fmap. apply Forall_forall. intros dec [_ Hd]%Hsub%elem_of_List_filter.
    rewrite Forall_forall in Happ. apply entry_view_ok, Happ, Hd.
  - apply filter_all. intros v (dec & -> & [Hd _]%Hsub%elem_of_List_filter)%list_elem_of_fmap. done.
Qed.

Lemma region_step d h n rev applied :
  let pend := pending_decisions (last_applied_decision_ts d) ds in
  region_follows s m ds d h -> (0 < n <= length pend)%nat ->
  decisions_fit (size d + decisions_rows (take n pend)) (take n pend) ->
  match apply_commit_decisions_with_log s d (apply_entry m <$> take n pend) rev applied
          max_txn_bytes with
  | (Ok res, d') => step_done n d d' res
  | (Err e, d') => d' = d /\ exists v, view_encrypt_fails s v e
  end.
Proof using Happ Hbar Hbatch Hlog Hmode.
  intros pend [Hrep Hal Hval] Hn Hfit. unfold apply_commit_decisions_with_log.
  set (c := last_applied_decision_ts d) in *. set (new := take n pend) in *.
  destruct (entry_views_ok c n) as (Hs & Hok & Hfr). fold pend in Hs, Hok, Hfr. fold new in Hs, Hok, Hfr.
  rewrite <-list_fmap_compose. change (Logged ∘ apply_entry m) with (entry_view m).
  assert (length new = n) as Hln by (unfold new; rewrite length_take; lia).
  assert (Forall (fun v => current_revision s d < dv_commit_ts v) (entry_view m <$> new)) as Hab.
  { rewrite <-Hfr. eapply Forall_impl; [apply fresh_above|]. simpl. lia. }
  pose proof (entry_views_rows m new) as Hrows.
  assert (Forall (view_fits (size d + views_rows (entry_view m <$> new))) (entry_view m <$> new)) as Hvf
    by (eapply entry_views_fit; [|exact Hfit]; lia).
  pose proof (apply_decisions_core_rep s Hmode max_txn_bytes (entry_view m <$> new) rev applied d h
    Hrep Hbar Hs Hok) as H. fold c in H. rewrite Hfr in H. specialize (H Hab Hvf).
  pose proof (size_apply_decisions s Hmode d (entry_view m <$> new) rev applied max_txn_bytes) as Hsz.
  destruct (apply_commit_decisions_core _ _ _ _ _ _) as [[res|e] d'].
  2:{ destruct H as (-> & v & _ & Hv). split; [done|]. by exists v. }
  destruct H as (Hth & Hcnt & Hcur & Hcr & h' & Hrep' & _ & Hv').
  rewrite length_fmap in Hcnt. simpl in Hsz.
  destruct (last new) as [x|] eqn:Ex.
  2:{ apply last_None in Ex. rewrite Ex in Hln. simpl in Hln. lia. }
  rewrite (through_last_entries m c new x Ex) in Hth.
  destruct (pending_take c ds n x (lr_sorted _ _ _ Hlog) Ex) as (old & Eds & Ho & Hle & Hgt & Hp).
  fold pend in Eds, Hle, Hgt, Hp. fold new in Eds, Hle.
  unfold step_done. fold c pend new. rewrite Hth in *.
  split_and!; [|done|by rewrite Hcnt, Hln|by intros y [= ->]%(eq_trans (eq_sym Ex))|done|lia].
  exists h'. split; [done|rewrite Hcr, Hcur|].
  - pose proof (fresh_above c (entry_view m <$> new)) as Hx. rewrite Hfr in Hx.
    apply last_Some_elem_of in Ex. rewrite Forall_fmap, Forall_forall in Hx. specialize (Hx x Ex).
    simpl in Hx. lia.
  - intros k T. rewrite Hv', Hval, Hcur, entry_views_value. destruct (key_in_region m k); [|done].
    assert (Forall (fun dec => c < sd_commit_ts dec) (new ++ drop n pend)) as Hpa
      by (unfold new; rewrite take_drop; apply pending_above).
    rewrite Eds at 1. rewrite (decided_value_upto old) by done.
    rewrite Eds, app_assoc, decided_value_upto by done. unfold run_decisions. by rewrite foldl_app.
Qed.

(** The payload of one round of the loop. *)
Lemma payload_spec c :
  0 <= c < u64_max ->
  let pend := pending_decisions c ds in
  exists decs n, sequencer_decisions_after log c batch = Ok decs /\
    build_apply_batch decs m batch max_txn_bytes = apply_entry m <$> take n pend /\
    (n <= length pend)%nat /\ (pend <> [] -> (0 < n)%nat) /\
    ((batch <=? n)%nat || (n <? length decs)%nat = false -> n = length pend).
Proof using Hbatch Hlog pld.
  intros Hc pend. exists (take (Nat.max batch 1) pend).
  rewrite (sequencer_decisions_after_rep log ds c batch Hlog) by (unfold in_u64, u64_max in *; lia).
  fold (pending_decisions c ds). fold pend. set (decs := take (Nat.max batch 1) pend).
  destruct (build_apply_batch_prefix decs m batch max_txn_bytes) as (n & E & Hn & Hp).
  assert (length decs = Nat.min batch (length pend)) as Hl
    by (unfold decs; rewrite length_take; lia).
  exists n. split; [done|]. split.
  { rewrite E. unfold decs. rewrite take_take. by replace (n `min` (batch `max` 1))%nat with n by lia. }
  split; [lia|]. split.
  - intros Hne. apply Hp; [done|]. intros Hd. apply (f_equal length) in Hd. rewrite Hl in Hd.
    destruct pend; [done|]. simpl in Hd. lia.
  - intros [?%Nat.leb_gt ?%Nat.ltb_ge]%orb_false_iff. lia.
Qed.

(** The outcome of the loop. *)
Definition pass_done (proposals : list proposal) (total : Z) (d : db)
    (r : (Z * PassEnd) * db) : Prop :=
  let pend := pending_decisions (last_applied_decision_ts d) ds in
  (exists h', region_follows s m ds r.2 h') /\
  last_applied_decision_ts d <= last_applied_decision_ts r.2 /\ r.1.2 <> ScanFailed /\
  (r.1.2 = CaughtUp -> pending_decisions (last_applied_decision_ts r.2) ds = [] /\
     r.1.1 = total + Z.of_nat (length pend)) /\
  (Forall is_Some proposals -> (length pend <= length proposals)%nat ->
   (forall v e, ~ view_encrypt_fails s v e) -> r.1.2 = CaughtUp).

(** The loop stops where it is: nothing has changed. *)
Lemma pass_stops proposals total d h fin :
  region_follows s m ds d h -> fin <> ScanFailed -> fin <> CaughtUp ->
  (Forall is_Some proposals ->
   (length (pending_decisions (last_applied_decision_ts d) ds) <= length proposals)%nat ->
   (forall v e, ~ view_encrypt_fails s v e) -> False) ->
  pass_done proposals total d ((total, fin), d).
Proof using Hbatch.
  intros Hf H1 H2 H. split_and!; [by exists h|done|done|done|]. intros ? ? ?. by destruct H.
Qed.

Lemma pass_caught_up proposals total d h :
  region_follows s m ds d h -> pending_decisions (last_applied_decision_ts d) ds = [] ->
  pass_done proposals total d ((total, CaughtUp), d).
Proof using Hbatch.
  intros Hf Hp. split_and!; [by exists h|done|done| |done]. intros _. rewrite Hp. simpl.
  split; [done|lia].
Qed.

(** A round that applied [n] decisions, followed by the rest of the loop. *)
Lemma pass_continues p proposals total n d d' res r :
  let pend := pending_decisions (last_applied_decision_ts d) ds in
  (0 < n <= length pend)%nat -> step_done n d d' res ->
  last_applied_decision_ts d <= through_ts res ->
  pass_done proposals (total + decisions res) d' r -> pass_done (p :: proposals) total d r.
Proof using Hbatch.
  intros pend Hn (_ & Hcur & Hcnt & _ & Hp & _) Hle (Hf & Hmono & Hscan & Hup & Hlive).
  fold pend in Hp. rewrite Hcur in Hmono. rewrite Hcur, Hp in Hup, Hlive. rewrite Hcnt in Hup.
  unfold pass_done. fold pend. split_and!; [done|by etrans|done| |].
  - intros E. destruct (Hup E) as [H1 H2]. split; [done|]. rewrite H2, length_drop. lia.
  - intros [_ Hps]%Forall_cons Hlen He. simpl in Hlen.
    apply Hlive; [done|rewrite length_drop; lia|done].
Qed.

Lemma step_fit (d d' : db) n :
  let pend := pending_decisions (last_applied_decision_ts d) ds in
  decisions_fit (size d + decisions_rows pend) pend ->
  decisions_fit (size d + decisions_rows (take n pend)) (take n pend) /\
  ((size d' <= size d + decisions_rows (take n pend))%nat ->
   decisions_fit (size d' + decisions_rows (drop n pend)) (drop n pend)).
Proof using Hbatch.
  intros pend Hfit. pose proof (decisions_rows_app (take n pend) (drop n pend)) as Hr.
  rewrite take_drop in Hr. rewrite <-(take_drop n pend) in Hfit at 2.
  apply Forall_app in Hfit as [H1 H2]. split.
  - eapply decisions_fit_mono; [|exact H1]. lia.
  - intros Hsz. eapply decisions_fit_mono; [|exact H2]. lia.
Qed.

Lemma apply_region_pending_rep proposals total d h :
  region_follows s m ds d h -> last_applied_decision_ts d < u64_max ->
  (let pend := pending_decisions (last_applied_decision_ts d) ds in
   decisions_fit (size d + decisions_rows pend) pend) ->
  pass_done proposals total d
    (apply_region_pending s m batch max_txn_bytes log proposals total d).
Proof using Happ Hbar Hbatch Hlog Hmode Htop pld.
  revert total d h. induction proposals as [|p proposals IH]; intros total d h Hf Hc Hfit;
    cbn [apply_region_pending];
    (destruct (payload_spec (last_applied_decision_ts d)) as (decs & n & -> & -> & Hn & Hpos & Hmore);
      [pose proof (read_u64_range d DECISION_APPLIED_TS) as []; done|]);
    set (pend := pending_decisions (last_applied_decision_ts d) ds) in *;
    rewrite fmap_last; destruct (last (take n pend)) as [x|] eqn:Ex; cbn [fmap option_fmap option_map].
  2,4: apply (pass_caught_up _ _ _ h); [done|]; fold pend; apply last_None in Ex;
    destruct pend; [done|]; destruct n; [specialize (Hpos ltac:(done)); lia|done].
  { apply (pass_stops _ _ _ h); try done. fold pend. intros _ Hlen _.
    destruct pend; [by rewrite take_nil in Ex|simpl in Hlen; lia]. }
  destruct p as [[rev applied]|].
  2:{ apply (pass_stops _ _ _ h); try done. intros [[] _]%Forall_cons. done. }
  assert (0 < n <= length pend)%nat as Hn0 by (destruct n; [done|lia]).
  rewrite length_fmap, length_take, Nat.min_l by done.
  destruct (step_fit d d n Hfit) as [Hfit1 _].
  pose proof (region_step d h n rev applied Hf Hn0 Hfit1) as Hs. fold pend in Hs.
  destruct (apply_commit_decisions_with_log _ _ _ _ _ _) as [[res|e] d'].
  2:{ destruct Hs as (-> & v & Hv). apply (pass_stops _ _ _ h); try done.
      intros _ _ He. by eapply He. }
  assert (through_ts res = sd_commit_ts x) as Hth by (by apply Hs).
  rewrite Hth. cbn [apply_entry dl_commit_ts]. rewrite Z.ltb_irrefl.
  assert (x ∈ pend) as Hx by (apply last_Some_elem_of in Ex; by eapply subseteq_take).
  assert (last_applied_decision_ts d <= through_ts res) as Hle.
  { rewrite Hth. pose proof (pending_above (last_applied_decision_ts d) ds) as Ha.
    rewrite Forall_forall in Ha. specialize (Ha x Hx). lia. }
  apply (pass_continues _ proposals _ n _ d' res); [done|done|done|].
  destruct Hs as ([h' Hf'] & Hcur & Hcnt & _ & Hp & Hsz). fold pend in Hp, Hsz.
  destruct ((batch <=? n)%nat || (n <? length decs)%nat) eqn:Em.
  - apply (IH _ _ h' Hf').
    + rewrite Hcur, Hth. rewrite Forall_forall in Htop.
      apply elem_of_List_filter in Hx as [_ Hx]. by apply Htop.
    + rewrite Hcur, Hp. by apply (step_fit d d' n Hfit).
  - apply (pass_caught_up _ _ _ h' Hf'). rewrite Hcur, Hp. apply drop_ge.
    by rewrite (Hmore eq_refl).
Qed.

(** C4: a Region replays the decision log.  A pass over the log of decisions
    [ds] keeps the store of the Region following the log, whatever becomes of
    its proposals: every value of a key of the Region at a timestamp up to the
    cursor is the one the log decides.  The cursor does not move back.  If the
    pass reports that it caught up, no decision is pending and it applied each
    pending one once; and it does catch up when there are as many proposals as
    pending decisions, all succeed and encryption works. *)
Theorem region_replays_log proposals total d h :
  region_follows s m ds d h -> last_applied_decision_ts d < u64_max ->
  (let pend := pending_decisions (last_applied_decision_ts d) ds in
   decisions_fit (size d + decisions_rows pend) pend) ->
  pass_done proposals total d
    (apply_region_pending s m batch max_txn_bytes log proposals total d).
Proof using Happ Hbar Hbatch Hlog Hmode Htop pld. apply apply_region_pending_rep. Qed.

End replay.
