(* ===== verification/RegionTable.v ===== *)
(** * The table of Regions

    [storage/region_table.rs]: Region 0 stores one table whose Regions tile the
    key space.  Batches of changes are applied atomically; split, merge and the
    fixed Region of the object store are planned as such batches.  The table is
    stored under one key ([apply_region_meta_op] in [storage/mvcc.rs]). *)

From S2P Require Export Decisions SysRows.

Local Open Scope Z_scope.

(** ** Data *)

Record RegionTable := { rt_version : Z; regions : list RegionMeta }.

Definition empty_region_table : RegionTable := {| rt_version := 0; regions := [] |}.

Inductive RegionChange :=
  | RcAdd (meta : RegionMeta)
  | RcUpdate (meta : RegionMeta)
  | RcRemove (region_id : Z) (expected_epoch : RegionEpoch).

Inductive SplitMergeKind := Split | Merge.

Record SplitMergePlan := {
  plan_kind : SplitMergeKind; source_region : Z; target_region : option Z;
  plan_changes : list RegionChange; expected_table_version : Z }.

Inductive RegionMetaOp :=
  | RegionInit (regions : list RegionMeta)
  | RegionApply (changes : list RegionChange).

(** The reason of a refusal is the text of the error. *)
Inductive RegionMetaOutcome :=
  | RegionApplied (version : Z)
  | RegionRejected (reason : Error).

Definition REGION_TABLE_KEY : bytes := b "/_sys/pd/regions".
Definition OBJECT_PREFIX : bytes := b "/obj/".
Definition OBJECT_SPACE_END : bytes := b "/obj0".

Definition key_in_object_space (key : bytes) : bool := starts_with key OBJECT_PREFIX.

(** ** [sort_by] on the start key: a stable sort *)

Fixpoint insert_by_start (m : RegionMeta) (l : list RegionMeta) : list RegionMeta :=
  match l with
  | [] => [m]
  | m' :: rest => if bytes_ltb (start_key m) (start_key m') then m :: l
                  else m' :: insert_by_start m rest
  end.

Definition sort_by_start (l : list RegionMeta) : list RegionMeta :=
  foldl (fun sorted m => insert_by_start m sorted) [] l.

(** ** [partition_point]: the binary search of the standard library *)

Fixpoint partition_loop (fuel : nat) (pred : nat -> bool) (base size : nat) : nat :=
  match fuel with
  | O => base
  | S fuel =>
    if (size <=? 1)%nat then base
    else
      let half := (size / 2)%nat in
      let mid := (base + half)%nat in
      partition_loop fuel pred (if pred mid then mid else base) (size - half)
  end.

Definition partition_point {A : Type} (pred : A -> bool) (l : list A) : nat :=
  let at_index i := from_option pred false (l !! i) in
  match l with
  | [] => O
  | _ => let base := partition_loop (length l) at_index O (length l) in
         if at_index base then S base else base
  end.

(** ** Reading the table *)

Definition is_object_region (m : RegionMeta) : bool :=
  bytes_eqb (start_key m) OBJECT_PREFIX && bytes_eqb (end_key m) OBJECT_SPACE_END.

Definition has_object_region (t : RegionTable) : bool := existsb is_object_region (regions t).

Definition find_region (id : Z) (l : list RegionMeta) : option RegionMeta :=
  List.find (fun m => region_id m =? id) l.

Definition region_get (t : RegionTable) (id : Z) : option RegionMeta := find_region id (regions t).

Definition route (t : RegionTable) (key : bytes) : option RegionMeta :=
  match partition_point (fun m => bytes_leb (start_key m) key) (regions t) with
  | O => None
  | S index =>
    m ← regions t !! index; if contains_key m key then Some m else None
  end.

(** ** The invariant the code checks *)

(** The loop over the regions; [first] is [index == 0], [seen] the ids so
    far. *)
Fixpoint validate_regions (first : bool) (seen : list Z) (l : list RegionMeta) : result unit :=
  match l with
  | [] => Ok tt
  | m :: rest =>
    if region_id m =? 0 then Err Storage
    else if bool_decide (region_id m ∈ seen) then Err Storage
    else if (conf_ver (epoch m) =? 0) || (epoch_version (epoch m) =? 0) then Err Storage
    else if negb (bytes_eqb (end_key m) []) && bytes_leb (end_key m) (start_key m) then Err Storage
    else if first && negb (bytes_eqb (start_key m) []) then Err Storage
    else match rest with
    | [] => if negb (bytes_eqb (end_key m) []) then Err Storage
            else validate_regions false (region_id m :: seen) rest
    | next :: _ =>
      if bytes_eqb (end_key m) [] then Err Storage
      else if negb (bytes_eqb (end_key m) (start_key next)) then Err Storage
      else validate_regions false (region_id m :: seen) rest
    end
  end.

Definition region_validate (t : RegionTable) : result unit :=
  if rt_version t =? 0 then
    match regions t with [] => Ok tt | _ => Err Storage end
  else
    match regions t with
    | [] => Err Storage
    | first :: _ =>
      if negb (bytes_eqb (start_key first) []) then Err Storage
      else validate_regions true [] (regions t)
    end.

(** ** Changing the table *)

Definition region_init (t : RegionTable) (seeds : list RegionMeta) : result (bool * RegionTable) :=
  if negb (rt_version t =? 0) then Ok (false, t)
  else
    let next := {| rt_version := 1; regions := sort_by_start seeds |} in
    _ ← region_validate next; Ok (true, next).

Definition check_update_epoch (old new : RegionMeta) : result unit :=
  if negb (region_id new =? region_id old) then Err InvalidArgument
  else if (conf_ver (epoch new) <? conf_ver (epoch old))
          || (epoch_version (epoch new) <? epoch_version (epoch old)) then Err InvalidArgument
  else if bool_decide (epoch new = epoch old) then Err InvalidArgument
  else if (negb (bytes_eqb (start_key new) (start_key old))
           || negb (bytes_eqb (end_key new) (end_key old)))
          && (epoch_version (epoch new) <=? epoch_version (epoch old)) then Err InvalidArgument
  else if negb (bool_decide (peers new = peers old))
          && (conf_ver (epoch new) <=? conf_ver (epoch old)) then Err InvalidArgument
  else Ok tt.

(** [position] of a region id. *)
Definition region_index (id : Z) (l : list RegionMeta) : option nat :=
  fst <$> list_find (fun m => region_id m = id) l.

Definition apply_one (l : list RegionMeta) (change : RegionChange) : result (list RegionMeta) :=
  match change with
  | RcAdd meta =>
    match find_region (region_id meta) l with
    | Some existing => if decide (existing = meta) then Ok l else Err InvalidArgument
    | None =>
      if bytes_leb (end_key meta) (start_key meta) && negb (bytes_eqb (end_key meta) [])
      then Err InvalidArgument else Ok (l ++ [meta])
    end
  | RcUpdate meta =>
    index ← ok_or (region_index (region_id meta) l) InvalidArgument;
    old ← ok_or (l !! index) Panic;
    _ ← check_update_epoch old meta;
    Ok (<[index := meta]> l)
  | RcRemove id expected =>
    index ← ok_or (region_index id l) InvalidArgument;
    old ← ok_or (l !! index) Panic;
    if bool_decide (epoch old = expected) then Ok (base.delete index l) else Err InvalidArgument
  end.

Fixpoint apply_changes_to (l : list RegionMeta) (changes : list RegionChange)
    : result (list RegionMeta) :=
  match changes with
  | [] => Ok l
  | change :: changes => l ← apply_one l change; apply_changes_to l changes
  end.

(** The batch is validated under the old version. *)
Definition region_apply (t : RegionTable) (changes : list RegionChange)
    : result (bool * RegionTable) :=
  match changes with
  | [] => Ok (false, t)
  | _ =>
    l ← apply_changes_to (regions t) changes;
    let next := sort_by_start l in
    _ ← region_validate {| rt_version := rt_version t; regions := next |};
    Ok (true, {| rt_version := u64_wrap (rt_version t + 1); regions := next |})
  end.

(** ** Plans *)

Definition bump_version (e : RegionEpoch) (v : Z) : RegionEpoch :=
  {| conf_ver := conf_ver e; epoch_version := u64_wrap (v + 1) |}.

Definition shrink_region (m : RegionMeta) (split_key : bytes) : RegionMeta :=
  {| region_id := region_id m; start_key := start_key m; end_key := split_key;
     epoch := bump_version (epoch m) (epoch_version (epoch m)); peers := peers m;
     approximate_size := approximate_size m; approximate_keys := approximate_keys m |}.

Definition split_child (m : RegionMeta) (split_key : bytes) (id : Z) : RegionMeta :=
  {| region_id := id; start_key := split_key; end_key := end_key m;
     epoch := bump_version (epoch m) (epoch_version (epoch m)); peers := peers m;
     approximate_size := 0; approximate_keys := 0 |}.

Definition plan_split (t : RegionTable) (id : Z) (split_key : bytes) (new_id : Z)
    : result SplitMergePlan :=
  if rt_version t =? 0 then Err InvalidArgument
  else
    parent ← ok_or (region_get t id) InvalidArgument;
    if (new_id =? 0) || (new_id =? id) || bool_decide (is_Some (region_get t new_id))
    then Err InvalidArgument
    else if bytes_leb split_key (start_key parent) then Err InvalidArgument
    else if negb (bytes_eqb (end_key parent) []) && bytes_leb (end_key parent) split_key
    then Err InvalidArgument
    else if key_in_object_space split_key then Err InvalidArgument
    else Ok {| plan_kind := Split; source_region := id; target_region := Some new_id;
               plan_changes := [RcUpdate (shrink_region parent split_key);
                                RcAdd (split_child parent split_key new_id)];
               expected_table_version := rt_version t |}.

Definition merge_regions (left right : RegionMeta) : RegionMeta :=
  {| region_id := region_id left; start_key := start_key left; end_key := end_key right;
     epoch := bump_version (epoch left)
                (Z.max (epoch_version (epoch left)) (epoch_version (epoch right)));
     peers := peers left; approximate_size := approximate_size left;
     approximate_keys := approximate_keys left |}.

Definition plan_merge (t : RegionTable) (left right : Z) : result SplitMergePlan :=
  if rt_version t =? 0 then Err InvalidArgument
  else if left =? right then Err InvalidArgument
  else
    left_meta ← ok_or (region_get t left) InvalidArgument;
    right_meta ← ok_or (region_get t right) InvalidArgument;
    if bytes_eqb (end_key left_meta) []
       || negb (bytes_eqb (end_key left_meta) (start_key right_meta)) then Err InvalidArgument
    else if is_object_region left_meta || is_object_region right_meta then Err InvalidArgument
    else Ok {| plan_kind := Merge; source_region := left; target_region := None;
               plan_changes := [RcUpdate (merge_regions left_meta right_meta);
                                RcRemove right (epoch right_meta)];
               expected_table_version := rt_version t |}.

(** ** The fixed Region of the object store *)

Definition covers_object_space (m : RegionMeta) : bool :=
  bytes_leb (start_key m) OBJECT_PREFIX
  && (bytes_eqb (end_key m) [] || bytes_leb OBJECT_SPACE_END (end_key m)).

Definition object_piece (parent : RegionMeta) (id : Z) (start end_ : bytes) : RegionMeta :=
  {| region_id := id; start_key := start; end_key := end_; epoch := epoch parent;
     peers := peers parent; approximate_size := 0; approximate_keys := 0 |}.

Definition carve_left (m : RegionMeta) : RegionMeta :=
  {| region_id := region_id m; start_key := start_key m; end_key := OBJECT_PREFIX;
     epoch := epoch m; peers := peers m; approximate_size := approximate_size m;
     approximate_keys := approximate_keys m |}.

(** What replaces the parent. *)
Definition carve_pieces (parent : RegionMeta) (first_new_id : Z) : list RegionMeta :=
  (if bytes_ltb (start_key parent) OBJECT_PREFIX then [carve_left parent] else [])
  ++ [object_piece parent first_new_id OBJECT_PREFIX OBJECT_SPACE_END]
  ++ (if bytes_eqb (end_key parent) OBJECT_SPACE_END then []
      else [object_piece parent (u64_wrap (first_new_id + 1)) OBJECT_SPACE_END (end_key parent)]).

(** The id of the object Region and the new seeds. *)
Definition carve_object_region (l : list RegionMeta) (first_new_id : Z)
    : result (Z * list RegionMeta) :=
  if first_new_id =? 0 then Err InvalidArgument
  else match List.find is_object_region l with
  | Some existing => Ok (region_id existing, l)
  | None =>
    if existsb (fun m => first_new_id <=? region_id m) l then Err InvalidArgument
    else match list_find (fun m => covers_object_space m = true) l with
    | None => Err InvalidArgument
    | Some (index, parent) =>
      Ok (first_new_id,
          sort_by_start (take index l ++ carve_pieces parent first_new_id ++ drop (S index) l))
    end
  end.

(** ** Storage *)

Section storage.
Context {pt : Postcard RegionTable}.

Definition region_table_encode (t : RegionTable) : result bytes := ok_or (to_allocvec t) Storage.

Definition region_table_decode (data : bytes) : result RegionTable :=
  '(t, remainder) ← ok_or (take_from_bytes data) Storage;
  match remainder with
  | [] => _ ← region_validate t; Ok t
  | _ => Err Storage
  end.

Definition region_table (d : db) : result RegionTable :=
  match tx_get d TABLE_KV REGION_TABLE_KEY with
  | Some x => region_table_decode x
  | None => Ok empty_region_table
  end.

Definition run_region_op (t : RegionTable) (op : RegionMetaOp) : result (bool * RegionTable) :=
  match op with
  | RegionInit seeds => region_init t seeds
  | RegionApply changes => region_apply t changes
  end.

(** A refusal is an outcome, not an error; the table is written only when it
    changed. *)
Definition apply_region_meta_op (d : db) (op : RegionMetaOp) (applied : AppliedLogId)
    : result RegionMetaOutcome * db :=
  backend_write d (fun d =>
    t ← region_table d;
    '(outcome, d) ←
      match run_region_op t op with
      | Ok (changed, t) =>
        d ← (if (changed : bool)
             then x ← region_table_encode t; Ok (tx_insert TABLE_KV REGION_TABLE_KEY x d)
             else Ok d);
        Ok (RegionApplied (rt_version t), d)
      | Err e => Ok (RegionRejected e, d)
      end;
    Ok (outcome, insert_last_applied applied d)).

End storage.
