(* ===== verification/RegionTableFacts.v ===== *)
(** * The Regions tile the key space

    What [validate] checks, in terms of keys: every key lies in exactly one
    Region, and the binary search finds it.  Batches keep this, split and merge
    plans are applicable and move exactly the keys they mean to move. *)

From S2P Require Export RegionTable DecisionsReplay.

Local Open Scope Z_scope.

(** ** Sorting *)

Definition start_lt (m m' : RegionMeta) : Prop := bytes_lt (start_key m) (start_key m').
Definition start_le (m m' : RegionMeta) : Prop := bytes_le (start_key m) (start_key m').

#[export] Instance start_lt_strict : StrictOrder start_lt.
Proof.
  split; [intros m H; by eapply (irreflexivity bytes_lt)|].
  intros m1 m2 m3. unfold start_lt. by apply transitivity.
Qed.

Lemma insert_by_start_perm m l : insert_by_start m l ≡ₚ m :: l.
Proof.
  induction l as [|m' l IH]; [done|]. simpl. destruct (bytes_ltb _ _); [done|].
  rewrite IH. apply Permutation_swap.
Qed.

Lemma insert_by_start_sorted m l :
  StronglySorted start_le l -> StronglySorted start_le (insert_by_start m l).
Proof.
  induction 1 as [|m' l Hs IH Hl]; simpl; [by repeat constructor|].
  destruct (bytes_ltb_spec (start_key m) (start_key m')) as [H|H%bytes_not_lt].
  - constructor; [by constructor|]. apply bytes_lt_le in H. constructor; [done|].
    eapply Forall_impl; [exact Hl|]. intros m''. unfold start_le. by apply transitivity.
  - constructor; [done|]. rewrite insert_by_start_perm. by constructor.
Qed.

Lemma sort_by_start_spec l :
  sort_by_start l ≡ₚ l /\ StronglySorted start_le (sort_by_start l).
Proof.
  unfold sort_by_start. induction l as [|m l [IHp IHs]] using rev_ind; [by repeat constructor|].
  rewrite foldl_app. simpl. split; [|by apply insert_by_start_sorted].
  rewrite insert_by_start_perm, IHp. apply Permutation_cons_append.
Qed.

(** The sorted list with distinct start keys is unique. *)
Lemma sort_by_start_unique l l' :
  l ≡ₚ l' -> StronglySorted start_lt l' -> sort_by_start l = l'.
Proof.
  intros Hp Hs. destruct (sort_by_start_spec l) as [Hp' Hs'].
  apply (StronglySorted_strict_unique start_lt); [|done|].
  - assert (NoDup (start_key <$> sort_by_start l)) as Hn.
    { rewrite Hp', Hp. clear -Hs. induction Hs as [|m l' Hs IH Hm]; [constructor|].
      rewrite fmap_cons. constructor; [|done]. intros (m' & E & Hin)%list_elem_of_fmap.
      rewrite Forall_forall in Hm. specialize (Hm m' Hin). unfold start_lt in Hm. rewrite E in Hm.
      by eapply (irreflexivity bytes_lt). }
    revert Hs' Hn. generalize (sort_by_start l). clear. intros l Hs' Hn.
    induction Hs' as [|m l Hs IH Hm]; [constructor|]. rewrite fmap_cons in Hn.
    apply NoDup_cons in Hn as [Hx Hn]. constructor; [by apply IH|]. rewrite !Forall_forall in *.
    intros m' Hin. destruct (proj1 (bytes_le_lt_eq _ _) (Hm m' Hin)) as [?|E]; [done|].
    destruct Hx. rewrite E. by apply list_elem_of_fmap_2.
  - intros m. by rewrite Hp', Hp.
Qed.

(** ** The invariant *)

Definition interval_ok (m : RegionMeta) : Prop :=
  end_key m <> [] -> bytes_lt (start_key m) (end_key m).

(** The intervals of [l] follow each other from [from] to [to]; an empty bound
    is the end of the key space. *)
Fixpoint tiles (from : bytes) (l : list RegionMeta) (to : bytes) : Prop :=
  match l with
  | [] => False
  | m :: rest => start_key m = from /\ interval_ok m /\
    match rest with
    | [] => end_key m = to
    | _ => end_key m <> [] /\ tiles (end_key m) rest to
    end
  end.

Definition region_wf (m : RegionMeta) : Prop :=
  region_id m <> 0 /\ conf_ver (epoch m) <> 0 /\ epoch_version (epoch m) <> 0.

Record table_ok (t : RegionTable) : Prop := {
  to_init : rt_version t <> 0;
  to_tiles : tiles [] (regions t) [];
  to_ids : NoDup (region_id <$> regions t);
  to_wf : Forall region_wf (regions t) }.

Lemma interval_okb m :
  negb (bytes_eqb (end_key m) []) && bytes_leb (end_key m) (start_key m) = false <-> interval_ok m.
Proof.
  unfold interval_ok. destruct (bytes_eqb_spec (end_key m) []) as [E|E]; simpl; [tauto|].
  destruct (bytes_leb_spec (end_key m) (start_key m)) as [H|H%bytes_not_le]; [|tauto].
  split; [done|]. intros Hlt. specialize (Hlt E). exfalso.
  eapply (irreflexivity bytes_lt). by eapply bytes_lt_le_trans.
Qed.

Definition regions_ok (seen : list Z) (from : bytes) (l : list RegionMeta) : Prop :=
  tiles from l [] /\ NoDup (region_id <$> l) /\ Forall (fun m => region_id m ∉ seen) l /\
  Forall region_wf l.

Lemma not_seen_cons id seen (l : list RegionMeta) :
  Forall (fun m => region_id m ∉ id :: seen) l <->
  (id ∉ region_id <$> l) /\ Forall (fun m => region_id m ∉ seen) l.
Proof.
  rewrite !Forall_forall. split.
  - intros H. split.
    + intros (m & -> & Hin)%list_elem_of_fmap. apply (H m Hin). by left.
    + intros m Hin Hs. apply (H m Hin). by right.
  - intros [Ha Hb] m Hin [E|?]%elem_of_cons; [|by eapply Hb]. apply Ha. rewrite <-E.
    by apply list_elem_of_fmap_2.
Qed.

(** What the loop asks of one region, apart from its successor. *)
Definition region_check (seen : list Z) (m : RegionMeta) : Prop :=
  (region_id m ∉ seen) /\ region_wf m /\ interval_ok m.

Lemma regions_ok_cons seen m rest :
  regions_ok seen (start_key m) (m :: rest) <->
  region_check seen m /\
  match rest with
  | [] => end_key m = []
  | next :: _ => end_key m <> [] /\ end_key m = start_key next /\
      regions_ok (region_id m :: seen) (start_key next) rest
  end.
Proof.
  unfold regions_ok, region_check. rewrite fmap_cons, NoDup_cons, !Forall_cons.
  destruct rest as [|next rest].
  - cbn [tiles]. split; [tauto|]. intros ((? & ? & ?) & ?). split_and!; try done; [apply not_elem_of_nil|].
    constructor.
  - rewrite not_seen_cons. cbn [tiles]. intuition congruence.
Qed.

Lemma validate_regions_iff first seen l m rest :
  l = m :: rest -> (first = true -> start_key m = []) ->
  validate_regions first seen l = Ok tt <-> regions_ok seen (start_key m) l.
Proof.
  revert first seen m rest. induction l as [|m0 l IH]; intros first seen m rest [= -> ->] Hfirst.
  rewrite regions_ok_cons. cbn [validate_regions]. unfold region_check, region_wf.
  destruct (Z.eqb_spec (region_id m) 0) as [|H1]; [by split; [|intros ((_ & (? & _) & _) & _)]|].
  case_bool_decide as H2; [by split; [|intros ((? & _) & _)]|].
  destruct (Z.eqb_spec (conf_ver (epoch m)) 0) as [|H3];
    [by split; [|intros ((_ & (_ & ? & _) & _) & _)]|].
  destruct (Z.eqb_spec (epoch_version (epoch m)) 0) as [|H4];
    [by split; [|intros ((_ & (_ & _ & ?) & _) & _)]|]. cbn [orb].
  pose proof (interval_okb m) as H5. destruct (negb _ && _).
  { split; [done|]. intros ((_ & _ & ?%H5) & _). done. }
  assert (first && negb (bytes_eqb (start_key m) []) = false) as ->.
  { destruct first; [|done]. rewrite Hfirst by done. done. }
  assert (interval_ok m) as H6 by (by apply H5).
  destruct rest as [|next rest].
  - simpl. destruct (bytes_eqb_spec (end_key m) []) as [E|E]; simpl; [by split|].
    split; [done|]. by intros [_ ?].
  - destruct (bytes_eqb_spec (end_key m) []) as [E|E]; [by split; [|intros (_ & ? & _)]|].
    destruct (bytes_eqb_spec (end_key m) (start_key next)) as [Es|Es]; simpl;
      [|by split; [|intros (_ & _ & ? & _)]].
    rewrite (IH false (region_id m :: seen) next rest eq_refl) by done. tauto.
Qed.

(** What [validate] checks on an initialised table. *)
Lemma region_validate_iff t :
  rt_version t <> 0 -> region_validate t = Ok tt <-> table_ok t.
Proof.
  intros Hv. unfold region_validate. destruct (Z.eqb_spec (rt_version t) 0); [done|].
  assert (table_ok t <-> regions_ok [] [] (regions t)) as ->.
  { unfold regions_ok. split; [intros []; split_and!; try done|by intros (? & ? & _ & ?)].
    apply Forall_forall. intros m _. apply not_elem_of_nil. }
  destruct (regions t) as [|m l]; [by split; [|intros []]|].
  destruct (bytes_eqb_spec (start_key m) []) as [E|E]; cbn [negb].
  - pose proof (validate_regions_iff true [] (m :: l) m l eq_refl (fun _ => E)) as H.
    by rewrite E in H.
  - split; [done|]. by intros ((? & _) & _).
Qed.

(** ** The binary search *)

Lemma partition_loop_spec fuel pred n base size :
  (size <= fuel)%nat -> (0 < size)%nat -> (base = 0 \/ base < n)%nat -> (n <= base + size)%nat ->
  (forall i, (i < base + size)%nat -> pred i = (i <? n)%nat) ->
  let r := partition_loop fuel pred base size in
  (r = 0 \/ r < n)%nat /\ (n <= S r)%nat /\ (r < base + size)%nat.
Proof.
  revert base size. induction fuel as [|fuel IH]; intros base size Hf Hs Hb Hn Hp; [lia|].
  cbn [partition_loop]. destruct (Nat.leb_spec size 1) as [H1|H1]; [simpl; lia|].
  pose proof (Nat.div_mod_eq size 2) as Hd. pose proof (Nat.mod_upper_bound size 2 ltac:(lia)) as Hm.
  set (half := (size / 2)%nat) in *.
  rewrite Hp by lia. destruct (Nat.ltb_spec (base + half) n) as [H|H].
  - destruct (IH (base + half) (size - half))%nat as (? & ? & ?); [lia..| |lia].
    intros i Hi. apply Hp. lia.
  - destruct (IH base (size - half))%nat as (? & ? & ?); [lia..| |lia].
    intros i Hi. apply Hp. lia.
Qed.

(** On a list where the predicate holds first and then fails, the search
    returns where it starts to fail. *)
Lemma partition_point_spec {A : Type} (pred : A -> bool) l1 l2 :
  Forall (fun x => pred x = true) l1 -> Forall (fun x => pred x = false) l2 ->
  partition_point pred (l1 ++ l2) = length l1.
Proof.
  intros H1 H2. set (l := l1 ++ l2).
  assert (forall i, (i < length l)%nat ->
    from_option pred false (l !! i) = (i <? length l1)%nat) as Hp.
  { intros i Hi. destruct (lookup_lt_is_Some_2 l i Hi) as [x Hx]. rewrite Hx. simpl.
    rewrite Forall_forall in H1, H2. unfold l in Hx.
    apply lookup_app_Some in Hx as [Hx|[Hge Hx]].
    - rewrite (H1 x) by (by eapply list_elem_of_lookup_2). symmetry. apply Nat.ltb_lt.
      by eapply lookup_lt_Some.
    - rewrite (H2 x) by (by eapply list_elem_of_lookup_2). symmetry. by apply Nat.ltb_ge. }
  assert (length l1 <= length l)%nat as Hle by (unfold l; rewrite length_app; lia).
  set (at_index := fun i => from_option pred false (l !! i)).
  assert (partition_point pred l = if decide (length l = 0)%nat then 0%nat else
    let base := partition_loop (length l) at_index 0 (length l) in
    if at_index base then S base else base) as ->.
  { unfold at_index. clearbody l. by destruct l. }
  destruct (decide (length l = 0)%nat); [lia|].
  destruct (partition_loop_spec (length l) at_index (length l1) 0 (length l)) as (? & ? & ?);
    [lia..|done|]. cbv zeta.
  set (r := partition_loop _ _ _ _) in *. unfold at_index. rewrite Hp by done.
  destruct (Nat.ltb_spec r (length l1)); lia.
Qed.

(** ** One Region per key *)

Lemma contains_key_iff m k :
  contains_key m k = true <-> bytes_le (start_key m) k /\ (end_key m <> [] -> bytes_lt k (end_key m)).
Proof.
  unfold contains_key. rewrite andb_true_iff, orb_true_iff.
  destruct (bytes_eqb_spec (end_key m) []); unfold bytes_le, bytes_lt; intuition congruence.
Qed.

Lemma tiles_cons from m rest to :
  tiles from (m :: rest) to -> rest <> [] ->
  from = start_key m /\ end_key m <> [] /\ bytes_lt (start_key m) (end_key m) /\
  tiles (end_key m) rest to.
Proof.
  intros (<- & Hi & H) Hr. destruct rest; [done|]. destruct H as [He H]. split_and!; auto.
Qed.

Lemma tiles_from from l to : tiles from l to -> Forall (fun m => bytes_le from (start_key m)) l.
Proof.
  revert from. induction l as [|m l IH]; intros from H; [done|].
  constructor; [by destruct H as (<- & _)|]. destruct (decide (l = [])) as [->|Hl]; [constructor|].
  destruct (tiles_cons _ _ _ _ H Hl) as (-> & _ & Hlt & Ht). eapply Forall_impl; [by apply IH|].
  intros m'. apply transitivity. by apply bytes_lt_le.
Qed.

Lemma tiles_sorted from l to : tiles from l to -> StronglySorted start_lt l.
Proof.
  revert from. induction l as [|m l IH]; intros from H; [constructor|].
  destruct (decide (l = [])) as [->|Hl]; [by repeat constructor|].
  destruct (tiles_cons _ _ _ _ H Hl) as (-> & _ & Hlt & Ht). constructor; [by eapply IH|].
  eapply Forall_impl; [by eapply tiles_from|]. intros m'. by apply bytes_lt_le_trans.
Qed.

(** Where a key lies. *)
Lemma tiles_locate from l to k :
  tiles from l to -> bytes_le from k -> (to <> [] -> bytes_lt k to) ->
  exists l1 m l2, l = l1 ++ m :: l2 /\ contains_key m k = true /\
    Forall (fun m' => bytes_le (start_key m') k /\ contains_key m' k = false) l1 /\
    Forall (fun m' => bytes_lt k (start_key m')) l2.
Proof.
  revert from. induction l as [|m l IH]; intros from H Hf Hto; [done|].
  destruct (contains_key m k) eqn:Hc.
  - exists [], m, l. split_and!; [done|done|constructor|].
    destruct (decide (l = [])) as [->|Hl]; [constructor|].
    destruct (tiles_cons _ _ _ _ H Hl) as (-> & He & Hlt & Ht).
    apply contains_key_iff in Hc as [_ Hc]. eapply Forall_impl; [by eapply tiles_from|].
    intros m'. apply bytes_lt_le_trans. by apply Hc.
  - assert (bytes_le (start_key m) k) as Hs by (by destruct H as (-> & _)).
    destruct (decide (l = [])) as [->|Hl].
    { exfalso. destruct H as (_ & _ & E). rewrite <-not_true_iff_false, contains_key_iff in Hc.
      apply Hc. split; [done|]. by rewrite E. }
    destruct (tiles_cons _ _ _ _ H Hl) as (-> & He & Hlt & Ht).
    destruct (IH _ Ht) as (l1 & m' & l2 & -> & Hm & H1 & H2); [|done|].
    { rewrite <-not_true_iff_false, contains_key_iff in Hc. apply bytes_not_lt. intros Hk.
      apply Hc. by split. }
    exists (m :: l1), m', l2. split_and!; [done|done|by constructor|done].
Qed.

Lemma bytes_le_nil k : bytes_le [] k.
Proof. by destruct k. Qed.

(** The binary search finds the one Region that contains the key. *)
Lemma route_find t k :
  table_ok t -> route t k = List.find (fun m => contains_key m k) (regions t) /\
  is_Some (route t k).
Proof.
  intros [_ Ht _ _]. destruct (tiles_locate _ _ _ k Ht (bytes_le_nil k)) as
    (l1 & m & l2 & E & Hm & H1 & H2); [done|].
  assert (route t k = Some m) as Hr.
  { unfold route. rewrite E. replace (l1 ++ m :: l2) with ((l1 ++ [m]) ++ l2) by (by rewrite <-app_assoc).
    rewrite partition_point_spec.
    - rewrite length_app, Nat.add_comm. cbn [length Nat.add].
      rewrite <-app_assoc. cbn [app]. rewrite list_lookup_middle by done. cbn [mbind option_bind]. by rewrite Hm.
    - apply Forall_app. split; [eapply Forall_impl; [exact H1|]; by intros m' [? _]|].
      apply Forall_singleton. by apply contains_key_iff in Hm as [? _].
    - eapply Forall_impl; [exact H2|]. intros m' Hlt. by apply negb_false_iff. }
  rewrite Hr. split; [|done]. rewrite E. symmetry. clear -H1 Hm.
  induction H1 as [|m' l1 [_ H] _ IH]; simpl; [by rewrite Hm|by rewrite H].
Qed.

Lemma contains_unique l m m' k from to :
  tiles from l to -> m ∈ l -> m' ∈ l -> contains_key m k = true -> contains_key m' k = true -> m = m'.
Proof.
  intros Ht Hm Hm' Hc Hc'. assert (bytes_le from k) as Hf.
  { pose proof (tiles_from _ _ _ Ht) as H. rewrite Forall_forall in H.
    apply contains_key_iff in Hc as [Hs _]. exact (transitivity (H m Hm) Hs). }
  revert from Ht Hf Hm Hm'. induction l as [|m0 l IH]; intros from Ht Hf Hm Hm'; [done|].
  destruct (decide (l = [])) as [->|Hl].
  { apply list_elem_of_singleton in Hm, Hm'. congruence. }
  destruct (tiles_cons _ _ _ _ Ht Hl) as (-> & He & Hlt & Hts).
  assert (forall x, x ∈ l -> contains_key x k = true -> contains_key m0 k = false) as Hno.
  { intros x Hx [Hs _]%contains_key_iff. apply not_true_iff_false.
    intros [_ Hk]%contains_key_iff. pose proof (tiles_from _ _ _ Hts) as H.
    rewrite Forall_forall in H. eapply (irreflexivity bytes_lt k).
    eapply bytes_lt_le_trans; [by apply Hk|]. exact (transitivity (H x Hx) Hs). }
  apply elem_of_cons in Hm as [->|Hm], Hm' as [->|Hm']; try done.
  - rewrite (Hno m' Hm' Hc') in Hc. done.
  - rewrite (Hno m Hm Hc) in Hc'. done.
  - eapply IH; [exact Hts| |done|done]. apply bytes_not_lt. intros Hk.
    pose proof (tiles_from _ _ _ Hts) as H. rewrite Forall_forall in H.
    apply contains_key_iff in Hc as [Hs _]. eapply (irreflexivity bytes_lt k).
    eapply bytes_lt_le_trans; [exact Hk|]. exact (transitivity (H m Hm) Hs).
Qed.

Lemma route_unique t m k :
  table_ok t -> m ∈ regions t -> contains_key m k = true -> route t k = Some m.
Proof.
  intros Ht Hm Hc. destruct (route_find t k Ht) as [E [m' Hm']]. rewrite Hm'. f_equal.
  rewrite Hm' in E. symmetry in E. apply List.find_some in E as [Hin%list_elem_of_In Hc'].
  by eapply contains_unique; [apply to_tiles|..].
Qed.

(** Routing.  In a table [validate] accepts, the binary search on the
    start keys returns what a linear search for a Region containing the key
    would, and every key lies in exactly one Region. *)
Theorem route_is_search t k :
  rt_version t <> 0 -> region_validate t = Ok tt ->
  route t k = List.find (fun m => contains_key m k) (regions t) /\
  exists m, route t k = Some m /\ contains_key m k = true /\
    forall m', m' ∈ regions t -> contains_key m' k = true -> m' = m.
Proof.
  intros Hv H%region_validate_iff; [|done]. destruct (route_find t k H) as [E [m Hm]].
  split; [done|]. exists m. split; [done|]. rewrite Hm in E. symmetry in E.
  apply List.find_some in E as [Hin%list_elem_of_In Hc]. split; [done|]. intros m' Hin' Hc'.
  by eapply contains_unique; [apply to_tiles|..].
Qed.
