(* ===== verification/RegionTableStore.v ===== *)
(** * Plans and the stored table

    A split or merge plan is applicable to the table it was computed from and
    moves exactly the keys it means to move; carving the object Region out of a
    tiling leaves a tiling.  Once initialised, the stored table stays a tiling
    through every sequence of operations; the Regions of a table share out every
    decision; and the one way the table can be spoilt. *)

From S2P Require Export RegionTableFacts.

Local Open Scope Z_scope.

(** ** Replacing a stretch of the tiling *)

Lemma tiles_nonempty from l to : tiles from l to -> l <> [].
Proof. by destruct l. Qed.

Lemma tiles_app from l1 mid l2 to :
  tiles from l1 mid -> mid <> [] -> tiles mid l2 to -> tiles from (l1 ++ l2) to.
Proof.
  revert from. induction l1 as [|m l1 IH]; intros from H Hmid H2; [done|].
  destruct H as (Hs & Hi & H). split; [done|]. split; [done|]. destruct l1 as [|m' l1].
  - rewrite H. simpl. destruct l2; [done|]. by split.
  - simpl. destruct H as [He H]. split; [done|]. by apply IH.
Qed.

Lemma tiles_app_inv from l1 l2 to :
  tiles from (l1 ++ l2) to -> l1 <> [] -> l2 <> [] ->
  exists mid, mid <> [] /\ tiles from l1 mid /\ tiles mid l2 to.
Proof.
  revert from. induction l1 as [|m l1 IH]; intros from H H1 H2; [done|].
  destruct (tiles_cons _ _ _ _ H) as (-> & He & Hlt & Ht); [by destruct l1|].
  destruct (decide (l1 = [])) as [->|Hl1].
  { exists (end_key m). split; [done|]. split; [|done]. split; [done|]. split; [by intros _|done]. }
  destruct (IH _ Ht Hl1 H2) as (mid & Hm & Hl & Hr). exists mid. split; [done|]. split; [|done].
  split; [done|]. split; [by intros _|]. by destruct l1.
Qed.

(** A stretch of the tiling tiles an interval, and may be replaced by any other
    tiling of it. *)
Lemma tiles_replace from l1 old l2 to :
  tiles from (l1 ++ old ++ l2) to -> old <> [] ->
  exists a c, tiles a old c /\ (forall new, tiles a new c -> tiles from (l1 ++ new ++ l2) to).
Proof.
  intros H Ho.
  assert (exists a, tiles a (old ++ l2) to /\
    forall new, tiles a new to -> tiles from (l1 ++ new) to) as (a & Ha & Hl).
  { destruct (decide (l1 = [])) as [->|Hl1]; [by exists from|].
    destruct (tiles_app_inv _ _ _ _ H Hl1) as (mid & Hm & H1 & H2); [by destruct old|].
    exists mid. split; [done|]. intros new. by apply tiles_app. }
  destruct (decide (l2 = [])) as [->|Hl2].
  - exists a, to. rewrite app_nil_r in Ha. split; [done|]. intros new. rewrite app_nil_r. apply Hl.
  - destruct (tiles_app_inv _ _ _ _ Ha Ho Hl2) as (c & Hc & H1 & H2). exists a, c. split; [done|].
    intros new Hn. apply Hl. by eapply tiles_app.
Qed.

Lemma tiles_one from m to :
  tiles from [m] to <-> start_key m = from /\ end_key m = to /\ interval_ok m.
Proof. simpl. tauto. Qed.

Lemma route_Some t k :
  table_ok t -> exists m, route t k = Some m /\ m ∈ regions t /\ contains_key m k = true.
Proof.
  intros H. destruct (route_find t k H) as [E [m Hm]]. exists m. split; [done|].
  rewrite Hm in E. symmetry in E. apply List.find_some in E as [?%list_elem_of_In ?]. done.
Qed.

(** ** Finding a Region by its id *)

Lemma find_region_Some id l m :
  find_region id l = Some m -> region_id m = id /\ m ∈ l.
Proof.
  intros [H E%Z.eqb_eq]%List.find_some. split; [done|]. by apply list_elem_of_In.
Qed.

Lemma find_region_None id l : find_region id l = None <-> (id ∉ region_id <$> l).
Proof.
  unfold find_region. split.
  - intros H (m & -> & Hin%list_elem_of_In)%list_elem_of_fmap.
    apply (List.find_none _ _ H) in Hin. by rewrite Z.eqb_refl in Hin.
  - intros H. destruct (List.find _ _) as [m|] eqn:E; [|done]. destruct H.
    apply find_region_Some in E as [<- ?]. by apply list_elem_of_fmap_2.
Qed.

Lemma region_index_split id l1 m l2 :
  NoDup (region_id <$> (l1 ++ m :: l2)) -> region_id m = id ->
  region_index id (l1 ++ m :: l2) = Some (length l1).
Proof.
  intros Hn Hid. unfold region_index.
  assert (list_find (fun m => region_id m = id) (l1 ++ m :: l2) = Some (length l1, m)) as ->; [|done].
  apply list_find_Some. split; [by apply list_lookup_middle|]. split; [done|].
  intros j y Hj Hlt E. rewrite lookup_app_l in Hj by done.
  rewrite fmap_app, NoDup_app in Hn. destruct Hn as (_ & Hn & _).
  apply (Hn (region_id y)); [by apply list_elem_of_fmap_2; eapply list_elem_of_lookup_2|].
  rewrite fmap_cons, E, Hid. left.
Qed.

(** The table after a batch that leaves a tiling. *)
Lemma region_apply_tiling t changes l l' :
  table_ok t -> rt_version t < u64_max -> in_u64 (rt_version t) -> changes <> [] ->
  apply_changes_to (regions t) changes = Ok l -> l ≡ₚ l' ->
  tiles [] l' [] -> NoDup (region_id <$> l') -> Forall region_wf l' ->
  let t' := {| rt_version := rt_version t + 1; regions := l' |} in
  region_apply t changes = Ok (true, t') /\ table_ok t'.
Proof.
  intros Hok Hlt Hu Hne E Hp Ht Hn Hw t'.
  assert (table_ok {| rt_version := rt_version t; regions := l' |}) as Hok'
    by (split; [apply (to_init _ Hok)|done..]).
  split; [|split; simpl; [|done..]; destruct Hu; lia].
  unfold region_apply. destruct changes; [done|]. rewrite E. cbn [mbind result_bind].
  rewrite (sort_by_start_unique l l' Hp) by (by eapply tiles_sorted).
  rewrite (proj2 (region_validate_iff _ (to_init _ Hok')) Hok'). cbn [mbind result_bind].
  rewrite u64_wrap_id; [done|]. unfold in_u64, u64_max in *. lia.
Qed.

(** ** Split *)

Definition epoch_small (m : RegionMeta) : Prop :=
  0 <= epoch_version (epoch m) < u64_max.

(** The version of the table and the versions of the epochs can still grow. *)
Definition table_small (t : RegionTable) : Prop :=
  0 <= rt_version t < u64_max /\ Forall epoch_small (regions t).

Lemma bump_version_val e v : 0 <= v < u64_max -> epoch_version (bump_version e v) = v + 1.
Proof. intros H. apply u64_wrap_id. unfold in_u64, u64_max in *. lia. Qed.

(** An update that keeps id and peers and raises the version. *)
Lemma check_update_epoch_ok old new :
  region_id new = region_id old -> peers new = peers old ->
  conf_ver (epoch new) = conf_ver (epoch old) ->
  epoch_version (epoch old) < epoch_version (epoch new) -> check_update_epoch old new = Ok tt.
Proof.
  intros Hid Hp Hc Hv. unfold check_update_epoch. rewrite Hid, Z.eqb_refl, Hc, Z.ltb_irrefl. cbn [negb orb].
  rewrite (proj2 (Z.ltb_ge _ _)) by lia.
  rewrite bool_decide_eq_false_2 by (intros E; rewrite E in Hv; lia).
  rewrite (proj2 (Z.leb_gt _ _) Hv), andb_false_r, Hp, bool_decide_eq_true_2 by done. done.
Qed.

Lemma apply_update l1 old new l2 changes :
  NoDup (region_id <$> (l1 ++ old :: l2)) -> region_id new = region_id old ->
  check_update_epoch old new = Ok tt ->
  apply_changes_to (l1 ++ old :: l2) (RcUpdate new :: changes) =
  apply_changes_to (l1 ++ new :: l2) changes.
Proof.
  intros Hn Hid Hc. cbn [apply_changes_to apply_one]. rewrite Hid.
  rewrite (region_index_split (region_id old)) by done. cbn [ok_or mbind result_bind].
  rewrite list_lookup_middle by done. cbn [ok_or mbind result_bind]. rewrite Hc.
  cbn [mbind result_bind]. by rewrite insert_app_r_alt, Nat.sub_diag by done.
Qed.

Lemma same_ids l1 old new l2 :
  region_id new = region_id old ->
  region_id <$> (l1 ++ new :: l2) = region_id <$> (l1 ++ old :: l2).
Proof. intros E. by rewrite !fmap_app, !fmap_cons, E. Qed.

Section split.
Context (t : RegionTable) (parent : RegionMeta) (key : bytes) (new_id : Z).
Context (l1 l2 : list RegionMeta) (El : regions t = l1 ++ parent :: l2).
Context (Hok : table_ok t) (Hsmall : table_small t).
Context (Hid0 : new_id <> 0) (Hfresh : (new_id ∉ region_id <$> regions t)).
Context (Hlo : bytes_lt (start_key parent) key).
Context (Hhi : end_key parent <> [] -> bytes_lt key (end_key parent)).

Abbreviation shrunk := (shrink_region parent key).
Abbreviation child := (split_child parent key new_id).

Definition split_table : RegionTable :=
  {| rt_version := rt_version t + 1; regions := l1 ++ shrunk :: child :: l2 |}.

Lemma parent_facts : region_wf parent /\ epoch_small parent /\ parent ∈ regions t.
Proof using El Hok Hsmall.
  pose proof (to_wf _ Hok) as Hw. destruct Hsmall as [_ Hs]. rewrite El in Hw, Hs |- *.
  rewrite Forall_forall in Hw. rewrite Forall_forall in Hs. assert (parent ∈ l1 ++ parent :: l2) as Hin by (apply elem_of_app; right; left). auto.
Qed.

Lemma split_applies :
  region_apply t [RcUpdate shrunk; RcAdd child] = Ok (true, split_table) /\ table_ok split_table.
Proof using El Hok Hsmall Hid0 Hfresh Hlo Hhi.
  destruct parent_facts as (Hw & He & _). pose proof (to_ids _ Hok) as Hn. rewrite El in Hn.
  assert (key <> []) as Hk by (intros ->; by destruct (start_key parent)).
  pose proof (bump_version_val (epoch parent) _ He) as Hb.
  apply (region_apply_tiling t _ (l1 ++ shrunk :: l2 ++ [child])); try done.
  - destruct Hsmall; lia.
  - destruct Hsmall as [[? ?] _]. split; [done|]. unfold u64_max in *. lia.
  - rewrite El, apply_update; [|done|done|].
    2:{ apply check_update_epoch_ok; try done. cbn [epoch shrink_region]. rewrite Hb. lia. }
    cbn [apply_changes_to apply_one]. rewrite El in Hfresh.
    rewrite (proj2 (find_region_None _ _)) by (by rewrite (same_ids l1 parent)).
    assert (bytes_leb (end_key child) (start_key child) && negb (bytes_eqb (end_key child) []) = false) as ->.
    { rewrite andb_comm. apply interval_okb. intros H. by apply Hhi. }
    cbn [mbind result_bind]. by rewrite <-app_assoc.
  - apply Permutation_app_head. apply Permutation_skip. symmetry. apply Permutation_cons_append.
  - pose proof (to_tiles _ Hok) as Ht. rewrite El in Ht.
    destruct (tiles_replace [] l1 [parent] l2 [] Ht) as (a & c & Hp & Hr); [done|].
    apply tiles_one in Hp as (<- & <- & Hi). apply (Hr [shrunk; child]).
    split; [done|]. split; [by intros _|]. split; [done|]. by split.
  - rewrite El in Hfresh. assert (region_id <$> (l1 ++ shrunk :: child :: l2) ≡ₚ
      new_id :: (region_id <$> (l1 ++ parent :: l2))) as ->; [|by constructor].
    rewrite !fmap_app, !fmap_cons. cbn [region_id shrink_region split_child].
    rewrite (cons_middle (region_id parent)), app_assoc, <-Permutation_middle. by rewrite <-app_assoc.
  - pose proof (to_wf _ Hok) as Hwf. rewrite El in Hwf. rewrite !Forall_app, !Forall_cons in *.
    destruct Hwf as (? & (? & ? & ?) & ?). unfold region_wf. cbn [region_id epoch shrink_region split_child].
    rewrite Hb. cbn [conf_ver bump_version]. destruct He. split_and!; try done; lia.
Qed.
Lemma split_routes k :
  region_id <$> route split_table k =
  (fun i => if (i =? region_id parent) && bytes_leb key k then new_id else i)
    <$> (region_id <$> route t k).
Proof using El Hok Hsmall Hid0 Hfresh Hlo Hhi.
  destruct (route_Some t k Hok) as (m & -> & Hin & Hc). destruct split_applies as [_ Hok'].
  destruct parent_facts as (_ & _ & Hp). cbn [fmap option_fmap option_map].
  destruct (decide (m = parent)) as [->|Hne].
  - rewrite Z.eqb_refl. apply contains_key_iff in Hc as [Hc1 Hc2]. cbn [andb].
    destruct (bytes_leb_spec key k) as [Hk|Hk%bytes_not_le].
    + rewrite (route_unique _ child k Hok'); [done|by apply elem_of_app; right; repeat constructor|]. by apply contains_key_iff.
    + rewrite (route_unique _ shrunk k Hok'); [done|by apply elem_of_app; right; repeat constructor|]. by apply contains_key_iff.
  - destruct (Z.eqb_spec (region_id m) (region_id parent)) as [E|_].
    { destruct Hne. by apply (NoDup_fmap_inj_elem region_id (regions t) _ _ (to_ids _ Hok)). }
    cbn [andb]. rewrite (route_unique _ m k Hok'); [done| |done].
    rewrite El, elem_of_app, elem_of_cons in Hin. cbn [regions split_table].
    rewrite elem_of_app, !elem_of_cons. tauto.
Qed.

End split.

(** What an accepted plan consists of. *)
Lemma plan_split_inv t id key new_id plan :
  plan_split t id key new_id = Ok plan ->
  exists parent l1 l2, regions t = l1 ++ parent :: l2 /\ region_id parent = id /\ new_id <> 0 /\
    (new_id ∉ region_id <$> regions t) /\ bytes_lt (start_key parent) key /\
    (end_key parent <> [] -> bytes_lt key (end_key parent)) /\
    plan = {| plan_kind := RegionTable.Split; source_region := id; target_region := Some new_id;
              plan_changes := [RcUpdate (shrink_region parent key); RcAdd (split_child parent key new_id)];
              expected_table_version := rt_version t |}.
Proof.
  unfold plan_split. intros H. destruct (rt_version t =? 0); [done|].
  destruct (region_get t id) as [parent|] eqn:Eg; cbn [ok_or mbind result_bind] in H; [|done].
  apply find_region_Some in Eg as [<- Hin].
  destruct (Z.eqb_spec new_id 0) as [|H0]; [done|]. destruct (new_id =? region_id parent); [done|].
  cbn [orb] in H. case_bool_decide as Hg; [done|].
  destruct (bytes_leb_spec key (start_key parent)) as [|Hlo%bytes_not_le]; [done|].
  destruct (negb (bytes_eqb (end_key parent) []) && bytes_leb (end_key parent) key) eqn:Eh; [done|].
  destruct (key_in_object_space key); [done|]. injection H as <-.
  apply list_elem_of_split in Hin as (l1 & l2 & El). exists parent, l1, l2. split_and!; try done.
  - apply find_region_None. by apply eq_None_not_Some.
  - intros He. apply bytes_not_le. intros Hle. apply andb_false_iff in Eh as [Eh|Eh].
    + apply negb_false_iff in Eh. by destruct (bytes_eqb_spec (end_key parent) []).
    + unfold bytes_le in Hle. congruence.
Qed.

(** The table after a split, and its routes. *)
Lemma split_plan_applies t id key new_id plan :
  rt_version t <> 0 -> region_validate t = Ok tt -> table_small t ->
  plan_split t id key new_id = Ok plan ->
  exists t', region_apply t (plan_changes plan) = Ok (true, t') /\
    region_validate t' = Ok tt /\ rt_version t' = expected_table_version plan + 1 /\
    forall k, region_id <$> route t' k =
      (fun i => if (i =? id) && bytes_leb key k then new_id else i) <$> (region_id <$> route t k).
Proof.
  intros Hv Hok%region_validate_iff Hsmall H; [|done].
  apply plan_split_inv in H as (parent & l1 & l2 & El & <- & H0 & Hf & Hlo & Hhi & ->).
  destruct (split_applies t parent key new_id l1 l2 El Hok Hsmall H0 Hf Hlo Hhi) as [Ha Hok'].
  exists (split_table t parent key new_id l1 l2). split; [done|].
  split; [by apply region_validate_iff; [apply (to_init _ Hok')|]|]. split; [done|].
  intros k. by apply split_routes.
Qed.

(** C35: splitting a Region.  A plan computed from a valid table is accepted by
    the table it was computed from; the result is a valid table of the next
    version, in which exactly the keys of the Region from the split key on are
    routed to the new Region and every other key where it was. *)
Theorem split_plan_exact t id key new_id plan :
  rt_version t <> 0 -> region_validate t = Ok tt -> table_small t ->
  plan_split t id key new_id = Ok plan ->
  exists t', region_apply t (plan_changes plan) = Ok (true, t') /\
    region_validate t' = Ok tt /\ rt_version t' = expected_table_version plan + 1 /\
    forall k, region_id <$> route t' k =
      (fun i => if (i =? id) && bytes_leb key k then new_id else i) <$> (region_id <$> route t k).
Proof. apply split_plan_applies. Qed.

(** ** Merge *)

Section merge.
Context (t : RegionTable) (left right : RegionMeta).
Context (l1 l2 : list RegionMeta) (El : regions t = l1 ++ left :: right :: l2).
Context (Hok : table_ok t) (Hsmall : table_small t).

Abbreviation merged := (merge_regions left right).

Definition merge_table : RegionTable :=
  {| rt_version := rt_version t + 1; regions := l1 ++ merged :: l2 |}.

Lemma merged_elem : left ∈ regions t /\ right ∈ regions t.
Proof using El.
  rewrite El. split; apply elem_of_app; right; [left|right; left].
Qed.

Lemma merged_version :
  epoch_version (epoch merged) = Z.max (epoch_version (epoch left)) (epoch_version (epoch right)) + 1.
Proof using El Hsmall.
  destruct Hsmall as [_ Hs], merged_elem as [Hl Hr]. rewrite Forall_forall in Hs.
  apply bump_version_val. pose proof (Hs _ Hl) as [? ?]. pose proof (Hs _ Hr) as [? ?]. lia.
Qed.

(** The two regions and the one that replaces them. *)
Lemma merged_interval :
  end_key left = start_key right /\ end_key left <> [] /\ bytes_lt (start_key left) (end_key left) /\
  interval_ok right /\ tiles [] (l1 ++ merged :: l2) [].
Proof using El Hok.
  pose proof (to_tiles _ Hok) as Ht. rewrite El in Ht.
  destruct (tiles_replace [] l1 [left; right] l2 [] Ht) as (a & c & Hp & Hr); [done|].
  destruct Hp as (<- & Hi & He & Hs & Hi' & <-). split_and!; try done; [by apply Hi|].
  apply (Hr [merged]). apply tiles_one. split; [done|]. split; [done|].
  intros Hc. specialize (Hi He). specialize (Hi' Hc). rewrite Hs in Hi'.
  exact (transitivity Hi Hi').
Qed.

Lemma merge_applies :
  region_apply t [RcUpdate merged; RcRemove (region_id right) (epoch right)] = Ok (true, merge_table) /\
  table_ok merge_table.
Proof using El Hok Hsmall.
  pose proof merged_version as Hv. pose proof (to_ids _ Hok) as Hn. rewrite El in Hn.
  destruct merged_interval as (_ & _ & _ & _ & Ht).
  apply (region_apply_tiling t _ (l1 ++ merged :: l2)); try done.
  - destruct Hsmall; lia.
  - destruct Hsmall as [[? ?] _]. split; [done|]. unfold u64_max in *. lia.
  - rewrite El, apply_update; [|done|done|].
    2:{ apply check_update_epoch_ok; try done. rewrite Hv. lia. }
    cbn [apply_changes_to apply_one].
    rewrite (cons_middle merged), app_assoc, (region_index_split (region_id right)).
    2:{ rewrite <-app_assoc. cbn [app]. by rewrite (same_ids l1 left). }
    2:{ done. }
    cbn [ok_or mbind result_bind]. rewrite list_lookup_middle by done.
    cbn [ok_or mbind result_bind]. rewrite bool_decide_eq_true_2 by done. cbn [mbind result_bind].
    rewrite delete_middle. by rewrite <-app_assoc.
  - rewrite (same_ids l1 left) by done.
    assert (region_id <$> (l1 ++ left :: right :: l2) ≡ₚ
      region_id right :: (region_id <$> (l1 ++ left :: l2))) as Hp.
    { rewrite !fmap_app, !fmap_cons, (cons_middle (region_id left)), app_assoc, <-Permutation_middle.
      by rewrite <-app_assoc. }
    rewrite Hp in Hn. by apply NoDup_cons in Hn as [_ Hn].
  - pose proof (to_wf _ Hok) as Hwf. rewrite El in Hwf. rewrite !Forall_app, !Forall_cons in *.
    destruct Hwf as (? & (? & ? & ?) & _ & ?). unfold region_wf. rewrite Hv.
    cbn [region_id epoch merge_regions conf_ver bump_version].
    destruct Hsmall as [_ Hs], merged_elem as [Hl _]. rewrite Forall_forall in Hs.
    destruct (Hs _ Hl). split_and!; try done; lia.
Qed.

Lemma merge_routes k :
  region_id <$> route merge_table k =
  (fun i => if i =? region_id right then region_id left else i) <$> (region_id <$> route t k).
Proof using El Hok Hsmall.
  destruct (route_Some t k Hok) as (m & -> & Hin & Hc). destruct merge_applies as [_ Hok'].
  destruct merged_elem as [Hl Hr]. destruct merged_interval as (Hs & He & Hlt & Hi & _).
  cbn [fmap option_fmap option_map].
  assert (forall x y, x ∈ regions t -> y ∈ regions t -> region_id x = region_id y -> x = y) as Hinj
    by (intros x y; apply (NoDup_fmap_inj_elem region_id), (to_ids _ Hok)).
  assert (contains_key merged k = true -> route merge_table k = Some merged) as Hm
    by (intros; apply route_unique; [done|apply elem_of_app; right; left|done]).
  destruct (decide (m = right)) as [->|Hnr]; [|destruct (decide (m = left)) as [->|Hnl]].
  - rewrite Z.eqb_refl. apply contains_key_iff in Hc as [Hc1 Hc2].
    rewrite Hm; [done|]. apply contains_key_iff. split; [|done]. cbn [start_key merge_regions].
    etrans; [by apply bytes_lt_le|]. by rewrite Hs.
  - destruct (Z.eqb_spec (region_id left) (region_id right)) as [E|_]; [by destruct Hnr; apply Hinj|].
    apply contains_key_iff in Hc as [Hc1 Hc2].
    rewrite Hm; [done|]. apply contains_key_iff. split; [done|]. cbn [end_key merge_regions].
    intros Hre. etrans; [by apply Hc2|]. rewrite Hs. by apply Hi.
  - destruct (Z.eqb_spec (region_id m) (region_id right)) as [E|_]; [by destruct Hnr; apply Hinj|].
    rewrite (route_unique _ m k Hok'); [done| |done].
    rewrite El, elem_of_app, !elem_of_cons in Hin. cbn [regions merge_table].
    rewrite elem_of_app, elem_of_cons. tauto.
Qed.

End merge.

(** Regions with a common bound are neighbours in the table. *)
Lemma adjacent_split t left right :
  table_ok t -> left ∈ regions t -> right ∈ regions t ->
  end_key left <> [] -> end_key left = start_key right ->
  exists l1 l2, regions t = l1 ++ left :: right :: l2.
Proof.
  intros Hok (l1 & l2 & El)%list_elem_of_split Hr He Hs. exists l1.
  pose proof (to_tiles _ Hok) as Ht. rewrite El in Ht.
  destruct l2 as [|m l2].
  - destruct (decide (l1 = [])) as [->|Hl1]; [by destruct Ht as (_ & _ & ?)|].
    destruct (tiles_app_inv _ _ _ _ Ht Hl1) as (mid & _ & _ & H%tiles_one); [done|].
    by destruct H as (_ & ? & _).
  - exists l2. assert (start_key m = start_key right) as Em.
    { destruct (decide (l1 = [])) as [->|Hl1]; [destruct Ht as (_ & _ & _ & Hm & _); congruence|].
      destruct (tiles_app_inv _ _ _ _ Ht Hl1) as (mid & _ & _ & H); [done|].
      destruct H as (_ & _ & _ & Hm & _). congruence. }
    assert (m = right) as ->; [|done].
    assert (m ∈ regions t) as Hm by (rewrite El; apply elem_of_app; right; right; left).
    pose proof (tiles_sorted _ _ _ (to_tiles _ Hok)) as Hso.
    apply list_elem_of_lookup in Hm as [i Hi]. apply list_elem_of_lookup in Hr as [j Hj].
    destruct (Nat.lt_trichotomy i j) as [H|[->|H]]; [|congruence|].
    + pose proof (StronglySorted_lookup_lt _ _ _ _ _ _ Hso Hi Hj H) as Hlt. unfold start_lt in Hlt.
      rewrite Em in Hlt. by destruct (irreflexivity bytes_lt (start_key right)).
    + pose proof (StronglySorted_lookup_lt _ _ _ _ _ _ Hso Hj Hi H) as Hlt. unfold start_lt in Hlt.
      rewrite Em in Hlt. by destruct (irreflexivity bytes_lt (start_key right)).
Qed.

Lemma plan_merge_inv t left right plan :
  table_ok t -> plan_merge t left right = Ok plan ->
  exists lm rm l1 l2, regions t = l1 ++ lm :: rm :: l2 /\ region_id lm = left /\ region_id rm = right /\
    plan = {| plan_kind := RegionTable.Merge; source_region := left; target_region := None;
              plan_changes := [RcUpdate (merge_regions lm rm); RcRemove right (epoch rm)];
              expected_table_version := rt_version t |}.
Proof.
  intros Hok H. unfold plan_merge in H.
  destruct (rt_version t =? 0); [done|]. destruct (left =? right); [done|].
  destruct (region_get t left) as [lm|] eqn:Egl; cbn [ok_or mbind result_bind] in H; [|done].
  destruct (region_get t right) as [rm|] eqn:Egr; cbn [ok_or mbind result_bind] in H; [|done].
  apply find_region_Some in Egl as [<- Hl], Egr as [<- Hr].
  destruct (bytes_eqb_spec (end_key lm) []) as [|He]; [done|]. cbn [orb] in H.
  destruct (bytes_eqb_spec (end_key lm) (start_key rm)) as [Hs|]; cbn [negb] in H; [|done].
  destruct (_ || _); [done|]. injection H as <-.
  destruct (adjacent_split t lm rm Hok Hl Hr He Hs) as (l1 & l2 & El). by exists lm, rm, l1, l2.
Qed.

(** A plan fits the table it was made from. *)
Lemma plan_applies t plan :
  table_ok t -> table_small t ->
  (exists id key new_id, plan_split t id key new_id = Ok plan) \/
  (exists left right, plan_merge t left right = Ok plan) ->
  expected_table_version plan = rt_version t /\
  exists t', region_apply t (plan_changes plan) = Ok (true, t').
Proof.
  intros Hok Hsmall [(id & key & new_id & H)|(lid & rid & H)].
  - apply plan_split_inv in H as (parent & l1 & l2 & El & <- & H0 & Hf & Hlo & Hhi & ->).
    destruct (split_applies t parent key new_id l1 l2 El Hok Hsmall H0 Hf Hlo Hhi) as [Ha _].
    split; [done|]. by eexists.
  - apply plan_merge_inv in H as (lm & rm & l1 & l2 & El & <- & <- & ->); [|done].
    destruct (merge_applies t lm rm l1 l2 El Hok Hsmall) as [Ha _]. split; [done|]. by eexists.
Qed.

(** Merging two Regions.  A plan computed from a valid table is accepted by
    the table it was computed from; the result is a valid table of the next
    version, in which exactly the keys of the right Region are routed to the
    left one, and the epoch of the merged Region lies above both. *)
Theorem merge_plan_exact t left right plan :
  rt_version t <> 0 -> region_validate t = Ok tt -> table_small t ->
  plan_merge t left right = Ok plan ->
  exists t', region_apply t (plan_changes plan) = Ok (true, t') /\
    region_validate t' = Ok tt /\ rt_version t' = expected_table_version plan + 1 /\
    (forall k, region_id <$> route t' k =
      (fun i => if i =? right then left else i) <$> (region_id <$> route t k)) /\
    (forall m m', m ∈ regions t -> region_id m = left \/ region_id m = right ->
       region_get t' left = Some m' ->
       epoch_version (epoch m) < epoch_version (epoch m')).
Proof.
  intros Hv Hok%region_validate_iff Hsmall H; [|done].
  apply plan_merge_inv in H as (lm & rm & l1 & l2 & El & <- & <- & ->); [|done].
  destruct (merge_applies t lm rm l1 l2 El Hok Hsmall) as [Ha Hok'].
  exists (merge_table t lm rm l1 l2). split; [done|].
  split; [by apply region_validate_iff; [apply (to_init _ Hok')|]|]. split; [done|].
  split; [intros k; by apply merge_routes|]. intros m m' Hm Hid Hg.
  apply find_region_Some in Hg as [Hid' Hin'].
  assert (m' = merge_regions lm rm) as ->.
  { apply (NoDup_fmap_inj_elem region_id _ _ _ (to_ids _ Hok')); [done|apply elem_of_app; right; left|done]. }
  rewrite (merged_version t lm rm l1 l2 El Hsmall).
  destruct (merged_elem t lm rm l1 l2 El) as [Hl Hr].
  assert (forall y, y ∈ regions t -> region_id m = region_id y -> m = y) as Hinj
    by (intros y Hy; by apply (NoDup_fmap_inj_elem region_id _ _ _ (to_ids _ Hok))).
  destruct Hid as [E|E]; apply Hinj in E as ->; try done; lia.
Qed.

(** ** The object Region *)

Record seeds_ok (l : list RegionMeta) : Prop := {
  so_tiles : tiles [] l [];
  so_ids : NoDup (region_id <$> l);
  so_wf : Forall region_wf l }.

Lemma object_region_keys m k :
  is_object_region m = true -> contains_key m k = key_in_object_space k.
Proof.
  intros [Hs He]%andb_true_iff.
  apply bool_decide_eq_true in Hs. apply bool_decide_eq_true in He.
  unfold key_in_object_space. rewrite <-in_range_prefix.
  replace (prefix_upper_bound OBJECT_PREFIX) with OBJECT_SPACE_END by reflexivity.
  unfold contains_key, in_range. by rewrite Hs, He.
Qed.

Section carve.
Context (l1 : list RegionMeta) (parent : RegionMeta) (l2 : list RegionMeta) (id : Z).
Context (Hok : seeds_ok (l1 ++ parent :: l2)).
Context (Hid : Forall (fun m => region_id m < id) (l1 ++ parent :: l2)).
Context (Hu : 0 < id < u64_max) (Hcov : covers_object_space parent = true).

Lemma carve_tiles : tiles [] (l1 ++ carve_pieces parent id ++ l2) [].
Proof using Hcov Hok.
  destruct (tiles_replace [] l1 [parent] l2 [] (so_tiles _ Hok)) as (a & c & Hp & Hr); [done|].
  apply tiles_one in Hp as (<- & <- & Hi). apply Hr. clear Hr.
  apply andb_true_iff in Hcov as [Hs He]. unfold carve_pieces.
  set (obj := object_piece parent id OBJECT_PREFIX OBJECT_SPACE_END).
  set (rest := if bytes_eqb (end_key parent) OBJECT_SPACE_END then [] else _).
  assert (tiles OBJECT_PREFIX ([obj] ++ rest) (end_key parent)) as Ht.
  { assert (tiles OBJECT_PREFIX [obj] OBJECT_SPACE_END) as Hobj
      by (apply tiles_one; split; [done|]; split; [done|]; intros _; reflexivity).
    unfold rest. destruct (bytes_eqb_spec (end_key parent) OBJECT_SPACE_END) as [->|Hne].
    - done.
    - apply (tiles_app _ _ OBJECT_SPACE_END); [done|done|]. apply tiles_one.
      split; [done|]. split; [done|]. intros Hn. apply orb_true_iff in He as [He|He].
      + by apply bool_decide_eq_true in He.
      + apply bytes_le_lt_eq in He as [?|?]; [done|]. by destruct Hne. }
  destruct (bytes_ltb_spec (start_key parent) OBJECT_PREFIX) as [Hlt|Hge%bytes_not_lt].
  - apply (tiles_app _ _ OBJECT_PREFIX); [|done|done]. apply tiles_one.
    split; [done|]. split; [done|]. by intros _.
  - replace (start_key parent) with OBJECT_PREFIX; [done|].
    apply bytes_le_lt_eq in Hs as [Hs|Hs]; [|done].
    destruct (irreflexivity bytes_lt (start_key parent)). by eapply bytes_lt_le_trans.
Qed.

Lemma carve_ids : NoDup (region_id <$> (l1 ++ carve_pieces parent id ++ l2)).
Proof using Hid Hok Hu.
  pose proof (so_ids _ Hok) as Hn. unfold carve_pieces.
  set (lp := if bytes_ltb (start_key parent) OBJECT_PREFIX then _ else []).
  set (news := [object_piece parent id OBJECT_PREFIX OBJECT_SPACE_END] ++ _).
  assert (l1 ++ (lp ++ news) ++ l2 ≡ₚ news ++ (l1 ++ lp ++ l2)) as ->.
  { rewrite <-(app_assoc lp), (app_assoc l1 lp), (app_assoc l1 lp l2).
    apply Permutation_app_swap_app. }
  rewrite fmap_app, NoDup_app. split_and!.
  - unfold news. destruct (bytes_eqb _ _); [apply NoDup_singleton|].
    apply NoDup_cons. split; [|apply NoDup_singleton]. intros ?%list_elem_of_singleton.
    cbn [region_id object_piece] in *. rewrite u64_wrap_id in H by (unfold in_u64, u64_max in *; lia). lia.
  - intros x (m & -> & Hm)%list_elem_of_fmap (m' & E & Hm')%list_elem_of_fmap.
    assert (id <= region_id m) as Hge.
    { unfold news in Hm. destruct (bytes_eqb _ _).
      - apply list_elem_of_singleton in Hm as ->. cbn [region_id object_piece]. lia.
      - apply elem_of_cons in Hm as [->| ->%list_elem_of_singleton]; cbn [region_id object_piece]; [lia|].
        rewrite u64_wrap_id by (unfold in_u64, u64_max in *; lia). lia. }
    assert (region_id m' < id); [|lia]. rewrite Forall_forall in Hid.
    apply elem_of_app in Hm' as [H|[H|H]%elem_of_app].
    + apply Hid, elem_of_app. by left.
    + unfold lp in H. destruct (bytes_ltb _ _); [|by apply elem_of_nil in H].
      apply list_elem_of_singleton in H as ->. cbn [region_id carve_left].
      apply Hid, elem_of_app. right. left.
    + apply Hid, elem_of_app. right. by right.
  - unfold lp. destruct (bytes_ltb _ _); [cbn [app]; by rewrite (same_ids l1 parent)|].
    rewrite fmap_app, fmap_cons, <-Permutation_middle, NoDup_cons in Hn. rewrite fmap_app. apply Hn.
Qed.

Lemma carve_wf : Forall region_wf (l1 ++ carve_pieces parent id ++ l2).
Proof using Hok Hu.
  pose proof (so_wf _ Hok) as Hw. rewrite Forall_app, Forall_cons in Hw.
  destruct Hw as (H1 & (Hw1 & Hw2 & Hw3) & H2). unfold carve_pieces. rewrite !Forall_app.
  split_and!; try done.
  - destruct (bytes_ltb _ _); [|constructor]. by apply Forall_singleton.
  - apply Forall_singleton. split_and!; [cbn [region_id object_piece]; lia|done|done].
  - destruct (bytes_eqb _ _); [constructor|]. apply Forall_singleton. split_and!; [|done|done].
    cbn [region_id object_piece]. rewrite u64_wrap_id by (unfold in_u64, u64_max in *; lia). lia.
Qed.

End carve.

(** Carving the object Region.  Carving a tiling of the key space gives a
    tiling with distinct ids, which initialises the table, and one Region of it
    contains exactly the keys reserved for the object store. *)
Theorem carve_object_region_exact l first_new_id id l' :
  seeds_ok l -> 0 < first_new_id < u64_max ->
  carve_object_region l first_new_id = Ok (id, l') ->
  region_init empty_region_table l' = Ok (true, {| rt_version := 1; regions := l' |}) /\
  exists m, find_region id l' = Some m /\ forall k, contains_key m k = key_in_object_space k.
Proof.
  intros Hok Hu H. unfold carve_object_region in H.
  destruct (Z.eqb_spec first_new_id 0) as [|_]; [done|].
  enough (seeds_ok l' /\ exists m, m ∈ l' /\ region_id m = id /\ is_object_region m = true)
    as (Hok' & m & Hin & Hid & Hobj).
  { split.
    - unfold region_init. cbn [negb rt_version empty_region_table Z.eqb].
      rewrite (sort_by_start_unique l' l') by (done || by eapply tiles_sorted, so_tiles).
      rewrite (proj2 (region_validate_iff {| rt_version := 1; regions := l' |} ltac:(done))); [done|].
      by split; [|apply so_tiles|apply so_ids|apply so_wf].
    - exists m. split; [|intros k; by apply object_region_keys].
      destruct (find_region id l') as [m'|] eqn:E.
      + apply find_region_Some in E as [E Hin']. f_equal.
        apply (NoDup_fmap_inj_elem region_id _ _ _ (so_ids _ Hok')); [done|done|congruence].
      + apply find_region_None in E. destruct E. rewrite <-Hid. by apply list_elem_of_fmap_2. }
  destruct (List.find is_object_region l) as [m|] eqn:Ef.
  { injection H as <- <-. split; [done|]. apply List.find_some in Ef as [?%list_elem_of_In ?]. by exists m. }
  destruct (existsb _ l) eqn:Ee; [done|].
  destruct (list_find _ l) as [[i parent]|] eqn:Ei; [|done]. injection H as <- <-.
  apply list_find_Some in Ei as (Hi & Hcov & _). pose proof (take_drop_middle l i parent Hi) as E.
  set (l1 := take i l) in *. set (l2 := drop (S i) l) in *. rewrite <-E in Hok, Ee.
  assert (Forall (fun m => region_id m < first_new_id) (l1 ++ parent :: l2)) as Hlt.
  { apply Forall_forall. intros m Hm%list_elem_of_In. apply not_true_iff_false in Ee.
    apply Z.nle_gt. intros Hle. apply Ee, existsb_exists. exists m. split; [done|]. by apply Z.leb_le. }
  pose proof (carve_tiles l1 parent l2 first_new_id Hok Hcov) as Ht.
  rewrite (sort_by_start_unique _ (l1 ++ carve_pieces parent first_new_id ++ l2))
    by (done || by eapply tiles_sorted).
  split; [split; [done|by apply carve_ids|by apply carve_wf]|].
  exists (object_piece parent first_new_id OBJECT_PREFIX OBJECT_SPACE_END). split; [|done].
  unfold carve_pieces. rewrite !elem_of_app. right. left. right. left. left.
Qed.

(** ** The stored table *)

Section store.
Context {pt : Postcard RegionTable} {pl : PostcardLaws RegionTable}.

Lemma region_table_roundtrip t :
  region_validate t = Ok tt ->
  exists x, region_table_encode t = Ok x /\ region_table_decode x = Ok t.
Proof using pl.
  intros Hv. destruct (postcard_total t) as [x Hx]. exists x. unfold region_table_encode.
  rewrite Hx. split; [done|]. unfold region_table_decode.
  rewrite <-(app_nil_r x), (postcard_roundtrip _ _ _ Hx). cbn [ok_or mbind result_bind]. by rewrite Hv.
Qed.

(** What an operation does to an initialised table. *)
Lemma run_region_op_ok t op changed t' :
  table_ok t -> 0 <= rt_version t < u64_max -> run_region_op t op = Ok (changed, t') ->
  table_ok t' /\ rt_version t' = rt_version t + (if changed then 1 else 0) /\
  (changed = false -> t' = t).
Proof using.
  intros Hok Hu H. destruct op as [seeds|changes]; cbn [run_region_op] in H.
  - unfold region_init in H. pose proof (to_init _ Hok) as Hv.
    destruct (Z.eqb_spec (rt_version t) 0); [done|]. cbn [negb] in H. injection H as <- <-.
    split_and!; [done|lia|done].
  - unfold region_apply in H. destruct changes as [|c changes].
    { injection H as <- <-. split_and!; [done|lia|done]. }
    destruct (apply_changes_to (regions t) (c :: changes)) as [l|e]; cbn [mbind result_bind] in H; [|done].
    destruct (region_validate _) as [[]|e] eqn:Ev; cbn [mbind result_bind] in H; [|done].
    apply region_validate_iff in Ev; [|apply (to_init _ Hok)].
    injection H as <- <-. destruct Ev as [_ Ht Hi Hw]. cbn [regions rt_version] in *.
    rewrite u64_wrap_id by (unfold in_u64, u64_max in *; lia).
    split_and!; [|lia|done]. split; cbn [regions rt_version]; [lia|done..].
Qed.

Lemma apply_region_meta_op_ok d t op applied :
  region_table d = Ok t -> table_ok t -> 0 <= rt_version t < u64_max ->
  exists outcome d' t', apply_region_meta_op d op applied = (Ok outcome, d') /\
    region_table d' = Ok t' /\ table_ok t' /\ rt_version t <= rt_version t' <= rt_version t + 1 /\
    match outcome with
    | RegionApplied v => v = rt_version t' /\ exists changed, run_region_op t op = Ok (changed, t')
    | RegionRejected e => t' = t /\ run_region_op t op = Err e
    end.
Proof using pl.
  intros Hd Hok Hu. unfold apply_region_meta_op, backend_write. rewrite Hd. cbn [mbind result_bind].
  assert (forall d1, region_table (insert_last_applied applied d1) = region_table d1) as Hla.
  { intros d1. unfold region_table, insert_last_applied. by rewrite tx_get_insert_ne. }
  destruct (run_region_op t op) as [[changed t']|e] eqn:E; cbn [mbind result_bind].
  2:{ eexists _, _, t. split; [reflexivity|]. rewrite Hla. split_and!; try done; lia. }
  destruct (run_region_op_ok t op changed t' Hok Hu E) as (Hok' & Hv & Hsame).
  destruct changed; cbn [mbind result_bind].
  - destruct (region_table_roundtrip t') as (x & Ex & Dx).
    { by apply region_validate_iff; [apply (to_init _ Hok')|]. }
    rewrite Ex. cbn [mbind result_bind]. eexists _, _, t'. split; [reflexivity|]. rewrite Hla.
    split_and!; [|done|lia|lia|done|by exists true].
    unfold region_table. by rewrite tx_get_insert.
  - rewrite (Hsame eq_refl) in *. eexists _, _, t. split; [reflexivity|]. rewrite Hla.
    split_and!; [done|done|lia|lia|done|by exists false].
Qed.

(** A sequence of log entries. *)
Fixpoint apply_region_ops (d : db) (ops : list (RegionMetaOp * AppliedLogId))
    : list (result RegionMetaOutcome) * db :=
  match ops with
  | [] => ([], d)
  | (op, applied) :: ops =>
    let '(r, d) := apply_region_meta_op d op applied in
    let '(rs, d) := apply_region_ops d ops in (r :: rs, d)
  end.

(** C36: the table stays valid.  From a store with an initialised table, any
    sequence of operations, however malformed, is answered without an error,
    and leaves a stored table in which every key is routed to exactly one
    Region; the version never falls. *)
Theorem region_ops_keep_tiling ops d t :
  region_table d = Ok t -> rt_version t <> 0 -> region_validate t = Ok tt ->
  0 <= rt_version t -> rt_version t + Z.of_nat (length ops) <= u64_max ->
  exists outcomes t', fst (apply_region_ops d ops) = Ok <$> outcomes /\
    length outcomes = length ops /\
    region_table (apply_region_ops d ops).2 = Ok t' /\
    rt_version t <= rt_version t' /\
    forall k, exists m, route t' k = Some m /\ contains_key m k = true /\
      forall m', m' ∈ regions t' -> contains_key m' k = true -> m' = m.
Proof using pl.
  intros Hd Hv Hok%region_validate_iff H0 Hu; [|done]. clear Hv. revert d t Hd Hok H0 Hu.
  induction ops as [|[op applied] ops IH]; intros d t Hd Hok H0 Hu.
  - exists [], t. split_and!; [done|done|done|lia|]. intros k.
    destruct (route_Some t k Hok) as (m & Hr & Hin & Hc). exists m. split_and!; try done.
    intros m' Hin' Hc'. by eapply contains_unique; [apply to_tiles|..].
  - cbn [apply_region_ops length] in *.
    destruct (apply_region_meta_op_ok d t op applied Hd Hok) as
      (outcome & d' & t' & -> & Hd' & Hok' & Hv' & _); [lia|].
    destruct (IH d' t' Hd' Hok') as (outcomes & t'' & Ho & Hlen & Hd'' & Hle & Hk); [lia|lia|].
    destruct (apply_region_ops d' ops) as [rs d'']. cbn [fst snd] in *.
    exists (outcome :: outcomes), t''. rewrite Ho.
    split_and!; [done|simpl; by rewrite Hlen|done|lia|done].
Qed.

(** A table that was never initialised can be spoilt for good.  A batch
    that adds a Region and removes it again passes the check (an uninitialised
    table must be empty), is stored as version 1 without Regions, and from then
    on the table cannot be read and every operation fails. *)
Theorem empty_batch_spoils_table d m applied :
  tx_get d TABLE_KV REGION_TABLE_KEY = None ->
  (end_key m = [] \/ bytes_lt (start_key m) (end_key m)) ->
  exists d', apply_region_meta_op d (RegionApply [RcAdd m; RcRemove (region_id m) (epoch m)]) applied
      = (Ok (RegionApplied 1), d') /\
    region_table d' = Err Storage /\
    forall op applied', apply_region_meta_op d' op applied' = (Err Storage, d').
Proof using pl.
  intros Hd Hm. set (t1 := {| rt_version := 1; regions := [] |}).
  destruct (postcard_total t1) as [x Hx].
  assert (region_apply empty_region_table [RcAdd m; RcRemove (region_id m) (epoch m)] = Ok (true, t1))
    as Hra.
  { unfold region_apply. cbn [apply_changes_to apply_one regions empty_region_table find_region List.find].
    rewrite andb_comm, (proj2 (interval_okb m)).
    2:{ intros He. by destruct Hm. }
    cbn [mbind result_bind app]. unfold region_index. cbn [list_find].
    rewrite decide_True by done. cbn [fmap option_fmap option_map fst ok_or mbind result_bind].
    cbn [lookup list_lookup ok_or mbind result_bind]. rewrite bool_decide_eq_true_2 by done. done. }
  assert (region_table (insert_last_applied applied (tx_insert TABLE_KV REGION_TABLE_KEY x d))
    = Err Storage) as Hbad.
  { unfold region_table, insert_last_applied. rewrite tx_get_insert_ne by done.
    rewrite tx_get_insert. unfold region_table_decode.
    rewrite <-(app_nil_r x), (postcard_roundtrip _ _ _ Hx). done. }
  eexists. split.
  - unfold apply_region_meta_op, backend_write, region_table. rewrite Hd. cbn [mbind result_bind].
    unfold run_region_op. rewrite Hra. cbn [mbind result_bind]. unfold region_table_encode.
    rewrite Hx. cbn [ok_or mbind result_bind]. reflexivity.
  - split; [exact Hbad|]. intros op applied'. unfold apply_region_meta_op, backend_write.
    rewrite Hbad. done.
Qed.

End store.

(** An Add of a Region that is already there, unchanged, still makes a new
    version. *)
Theorem repeated_add_bumps_version t m :
  rt_version t <> 0 -> region_validate t = Ok tt -> 0 <= rt_version t < u64_max -> m ∈ regions t ->
  region_apply t [RcAdd m] = Ok (true, {| rt_version := rt_version t + 1; regions := regions t |}).
Proof.
  intros Hv Hok%region_validate_iff Hu Hm; [|done].
  apply (region_apply_tiling t [RcAdd m] (regions t) (regions t)); try done; try apply Hok; [lia| |].
  - unfold in_u64, u64_max in *. lia.
  - cbn [apply_changes_to apply_one]. destruct (find_region (region_id m) (regions t)) as [m'|] eqn:E.
    + apply find_region_Some in E as [E Hin].
      rewrite decide_True; [done|].
      by apply (NoDup_fmap_inj_elem region_id _ _ _ (to_ids _ Hok)).
    + apply find_region_None in E. destruct E. by apply list_elem_of_fmap_2.
Qed.

(** The Regions share out the decisions.  Under a valid table, for every
    key the Region it is routed to applies to it exactly what the decision
    says, and the entry of every other Region leaves it alone. *)
Theorem regions_share_decisions t dec k :
  rt_version t <> 0 -> region_validate t = Ok tt ->
  exists m, route t k = Some m /\
    (forall v, run_mutations k (dl_mutations (apply_entry m dec)) v
       = run_mutations k (sd_mutations dec) v) /\
    forall m' v, m' ∈ regions t -> m' <> m ->
      run_mutations k (dl_mutations (apply_entry m' dec)) v = v.
Proof.
  intros Hv Hok%region_validate_iff; [|done]. destruct (route_Some t k Hok) as (m & Hr & Hin & Hc).
  assert (forall m v, run_mutations k (dl_mutations (apply_entry m dec)) v =
    if contains_key m k then run_mutations k (sd_mutations dec) v else v) as Hrun
    by (intros; apply run_mutations_clip).
  exists m. split; [done|]. split; [intros v; by rewrite Hrun, Hc|].
  intros m' v Hin' Hne. rewrite Hrun. destruct (contains_key m' k) eqn:Hc'; [|done].
  destruct Hne. by eapply contains_unique; [apply to_tiles|..].
Qed.
