(* ===== verification/Migration.v ===== *)
(** * Moving a range between Regions

    Splits and merges move the live rows of a range: they are exported page by
    page at one revision of the source and imported through the log of the
    target ([export_range_page], [apply_range_import] and
    [clear_imported_range] of [storage/mvcc.rs]); the migrator that drives this
    is [split_merge.rs].  Everything it reads happens at its own time: a page
    carries the states of the stores the migrator saw while it handled it. *)

From S2P Require Export DecisionsReplay RegionTable.

Local Open Scope Z_scope.

(** ** Export *)

Record RangeSnapshotPage := {
  page_rows : list VersionedKv;
  next_after : option bytes;
  page_revision : Z }.

(** The loop over the metadata rows; [n] rows are already pushed.  The flag is
    [has_more]. *)
Fixpoint export_loop (s : MvccStorage) (d : db) (start end_ : bytes) (limit n : nat)
    (rows : list row) : result (list VersionedKv * bool) :=
  match rows with
  | [] => Ok ([], false)
  | (meta_key, meta_value) :: rows =>
    match strip_prefix KV_META_PREFIX meta_key with
    | None => export_loop s d start end_ limit n rows
    | Some user_key =>
      if bytes_ltb user_key start then export_loop s d start end_ limit n rows
      else if negb (bytes_eqb end_ []) && bytes_leb end_ user_key then Ok ([], false)
      else
        m ← ok_or (meta_from_bytes meta_value) DataCorruption;
        if deleted m then export_loop s d start end_ limit n rows
        else if (0 <? limit)%nat && (limit <=? n)%nat then Ok ([], true)
        else
          raw ← ok_or (tx_get d TABLE_KV (encode_kv_key user_key)) DataCorruption;
          value ← plaintext_of s (encode_kv_key user_key) raw;
          '(rest, has_more) ← export_loop s d start end_ limit (S n) rows;
          Ok ((user_key, value, m) :: rest, has_more)
    end
  end.

Definition export_lower (start : bytes) (after : option bytes) : bytes :=
  match after with
  | Some after => if bytes_leb start after then after ++ [x00] else start
  | None => start
  end.

Definition export_range_page (s : MvccStorage) (d : db) (start end_ : bytes)
    (after : option bytes) (limit : nat) (expected_revision : option Z)
    : result RangeSnapshotPage :=
  let lower := export_lower start after in
  let rev := current_revision s d in
  if negb (bytes_eqb end_ []) && bytes_leb end_ lower
  then Ok {| page_rows := []; next_after := None; page_revision := rev |}
  else
    let meta_start := encode_kv_meta_key lower in
    let meta_end := if bytes_eqb end_ [] then [] else encode_kv_meta_key end_ in
    if from_option (fun expected => negb (rev =? expected)) false expected_revision
    then Err FailedPrecondition
    else
      '(rows, has_more) ← export_loop s d start end_ limit 0
        (iter_range d TABLE_KV_META meta_start meta_end);
      Ok {| page_rows := rows;
            next_after := if has_more : bool then (fun r : VersionedKv => r.1.1) <$> last rows else None;
            page_revision := rev |}.

(** ** Import *)

(** The checks on the rows of a page; [seen] are the keys before. *)
Fixpoint check_import_rows (start end_ : bytes) (watermark : Z) (seen : list bytes)
    (rows : list VersionedKv) : result unit :=
  match rows with
  | [] => Ok tt
  | (key, _, m) :: rows =>
    if bytes_ltb key start || (negb (bytes_eqb end_ []) && bytes_leb end_ key)
    then Err InvalidArgument
    else if starts_with key (b "/_") then Err InvalidArgument
    else if bool_decide (key ∈ seen) then Err InvalidArgument
    else if deleted m then Err InvalidArgument
    else if (mod_revision m <=? 0) || (watermark <? u64_wrap (mod_revision m))
    then Err InvalidArgument
    else if (create_revision m <=? 0) || (mod_revision m <? create_revision m)
    then Err InvalidArgument
    else if version m <=? 0 then Err InvalidArgument
    else check_import_rows start end_ watermark (key :: seen) rows
  end.

(** The rows are written unless the target has the key at a later revision; the
    same revision with another value is corruption. *)
Fixpoint import_rows (s : MvccStorage) (rows : list VersionedKv) (d : db) : result (Z * db) :=
  match rows with
  | [] => Ok (0, d)
  | (key, value, m) :: rows =>
    let write :=
      encrypted ← encrypt_value s (encode_kv_key key) value;
      '(n, d) ← import_rows s rows
        (tx_insert TABLE_KV_META (encode_kv_meta_key key) (meta_to_bytes m)
          (tx_insert TABLE_KV (encode_kv_key key) encrypted d));
      Ok (n + 1, d) in
    match get_kv_metadata d key with
    | Some existing =>
      if mod_revision m <? mod_revision existing then import_rows s rows d
      else if mod_revision existing =? mod_revision m then
        raw ← ok_or (tx_get d TABLE_KV (encode_kv_key key)) DataCorruption;
        plaintext ← plaintext_of s (encode_kv_key key) raw;
        if bytes_eqb plaintext value then import_rows s rows d else Err DataCorruption
      else write
    | None => write
    end
  end.

Fixpoint raise_floor (start end_ : bytes) (watermark : Z) (floors : list ImportHistoryFloor)
    : list ImportHistoryFloor :=
  match floors with
  | [] => [(start, end_, watermark)]
  | (floor_start, floor_end, floor_revision) :: floors =>
    if bytes_eqb floor_start start && bytes_eqb floor_end end_
    then (floor_start, floor_end, Z.max floor_revision watermark) :: floors
    else (floor_start, floor_end, floor_revision) :: raise_floor start end_ watermark floors
  end.

(** The last page of a split: the revision, the compacted revision and the
    decision cursor of the target are raised to the watermark. *)
Definition seal_history (watermark current_before : Z) (d : db) : db :=
  let target_revision := Z.max current_before watermark in
  let d := set_current_revision target_revision d in
  let compacted := Z.min (Z.max (compacted_revision d) watermark) target_revision in
  let d := tx_insert TABLE_META META_COMPACT_REVISION (be64 compacted) d in
  tx_insert TABLE_KV DECISION_APPLIED_TS (be64 (Z.max (last_applied_decision_ts d) watermark)) d.

Section import.
Context {fc : FloorCodec}.

(** The last page of a merge: the history of the range below the watermark
    becomes unavailable. *)
Definition floor_history (start end_ : bytes) (watermark : Z) (d : db) : result db :=
  floors ← import_history_floors d;
  Ok (tx_insert TABLE_KV IMPORT_HISTORY_FLOORS
        (encode_floors (raise_floor start end_ watermark floors)) d).

Definition apply_range_import (s : MvccStorage) (d : db) (start end_ : bytes)
    (rows : list VersionedKv) (watermark : Z) (seal_prior_history done : bool)
    (applied : AppliedLogId) : result Z * db :=
  if decide (revision_mode s = ModeCommitTs) then
    if (watermark =? 0) && negb (match rows with [] => true | _ => false end)
    then (Err InvalidArgument, d)
    else match check_import_rows start end_ watermark [] rows with
    | Err e => (Err e, d)
    | Ok _ =>
      backend_write d (fun d =>
        let current_before := current_revision s d in
        '(imported, d) ← import_rows s rows d;
        d ← (if done then
               if seal_prior_history then Ok (seal_history watermark current_before d)
               else floor_history start end_ watermark d
             else Ok d);
        Ok (imported, insert_last_applied applied d))
    end
  else (Err FailedPrecondition, d).

End import.

(** The user keys with a row in the range. *)
Definition stale_rows (d : db) (start end_ : bytes) : list (bytes * bytes) :=
  let range_end := if bytes_eqb end_ [] then [] else encode_kv_key end_ in
  omap (fun '(internal_key, _) =>
          match decode_kv_key internal_key with
          | Some user_key => Some (internal_key, encode_kv_meta_key user_key)
          | None => None
          end)
    (iter_range d TABLE_KV (encode_kv_key start) range_end).

Definition clear_imported_range (s : MvccStorage) (d : db) (start end_ : bytes)
    (applied : AppliedLogId) : result Z * db :=
  if decide (revision_mode s = ModeCommitTs) then
    let stale := stale_rows d start end_ in
    let d := foldl (fun d x => tx_remove TABLE_KV_META x.2 (tx_remove TABLE_KV x.1 d)) d stale in
    (Ok (Z.of_nat (length stale)), insert_last_applied applied d)
  else (Err FailedPrecondition, d).

(** ** The migrator *)

(** What becomes of a command for the target.  A forwarded command is sent again
    when its answer does not come, so the log may apply it any number of times;
    the answer to the last one arrives or not. *)
Record Proposed := {
  applications : list AppliedLogId;
  answered : bool }.

Inductive MigrateError :=
  | ResetFailed
  | ScanError
  | BarrierTimeout
  | ExportFailed (e : Error)
  | DecisionPending (next : Z)
  | ImportFailed
  | Interrupted
  | NotAssembled
  | DrainFailed
  | BadPlan
  | NotAligned
  | Moved.

(** [propose] followed by the check of the response. *)
Fixpoint run_proposal {A : Type} (command : db -> AppliedLogId -> result A * db)
    (applied : list AppliedLogId) (d : db) : option (result A) * db :=
  match applied with
  | [] => (None, d)
  | [a] => let '(res, d) := command d a in (Some res, d)
  | a :: applied => run_proposal command applied (command d a).2
  end.

Definition propose {A : Type} (p : Proposed) (command : db -> AppliedLogId -> result A * db)
    (e : MigrateError) (d : db) : (A + MigrateError) * db :=
  match run_proposal command (applications p) d with
  | (Some (Ok x), d) => (if answered p then inl x else inr e, d)
  | (_, d) => (inr e, d)
  end.

(** One round of the page loop: the source when the page is read, the source
    and Region 0 when its cursor is checked, what else is applied to the target
    meanwhile, and the fate of the import. *)
Record PageView := {
  pv_source : db;
  pv_cursor : db;
  pv_log : db;
  pv_between : db -> db;
  pv_import : Proposed }.

Section migrator.
Context {fc : FloorCodec} {pd : Postcard SequencerDecision}.

Definition require_no_pending_decision (log : db) (cursor pinned : Z) : option MigrateError :=
  match next_sequencer_decision_ts log cursor with
  | Err _ => Some ScanError
  | Ok (Some next) => if next <=? pinned then Some (DecisionPending next) else None
  | Ok None => None
  end.

(** [polls] are the states of the source and of Region 0 at each poll before the
    time is up. *)
Fixpoint wait_for_decision_barrier (polls : list (db * db)) (pinned : Z) : option MigrateError :=
  match polls with
  | [] => Some BarrierTimeout
  | (source, log) :: polls =>
    match next_sequencer_decision_ts log (last_applied_decision_ts source) with
    | Err _ => Some ScanError
    | Ok (Some next) => if next <=? pinned then wait_for_decision_barrier polls pinned else None
    | Ok None => None
    end
  end.

(** The page loop; [Interrupted] when the process stops in between. *)
Fixpoint import_loop (s target : MvccStorage) (page_size : nat) (start end_ : bytes)
    (seal_prior_history : bool) (views : list PageView) (after : option bytes)
    (watermark : option Z) (d : db) : (Z + MigrateError) * db :=
  match views with
  | [] => (inr Interrupted, d)
  | v :: views =>
    match export_range_page s (pv_source v) start end_ after page_size watermark with
    | Err e => (inr (ExportFailed e), d)
    | Ok page =>
      let pinned := default (page_revision page) watermark in
      let blocked :=
        if seal_prior_history && bool_decide (after = None)
        then require_no_pending_decision (pv_log v) (last_applied_decision_ts (pv_cursor v)) pinned
        else None in
      match blocked with
      | Some e => (inr e, d)
      | None =>
        let done := match next_after page with None => true | Some _ => false end in
        let d := pv_between v d in
        match propose (pv_import v) (fun d a =>
                apply_range_import target d start end_ (page_rows page) pinned
                  seal_prior_history done a) ImportFailed d with
        | (inr e, d) => (inr e, d)
        | (inl _, d) =>
          if done then (inl pinned, d)
          else import_loop s target page_size start end_ seal_prior_history views
                 (next_after page) (Some pinned) d
        end
      end
    end
  end.

Definition import_pages (s target : MvccStorage) (page_size : nat) (start end_ : bytes)
    (seal_prior_history : bool) (expected_revision : option Z) (reset : Proposed)
    (before : db) (polls : list (db * db)) (views : list PageView) (d : db)
    : (Z + MigrateError) * db :=
  match propose reset (fun d => clear_imported_range target d start end_) ResetFailed d with
  | (inr e, d) => (inr e, d)
  | (inl _, d) =>
    let barrier :=
      match expected_revision with
      | None => wait_for_decision_barrier polls (current_revision s before)
      | Some _ => None
      end in
    match barrier with
    | Some e => (inr e, d)
    | None => import_loop s target page_size start end_ seal_prior_history views None
                expected_revision d
    end
  end.

(** The Region a split adds. *)
Definition split_target (plan : SplitMergePlan) : option RegionMeta :=
  target_id ← target_region plan;
  head (omap (fun change =>
    match change with
    | RcAdd m => if region_id m =? target_id then Some m else None
    | _ => None
    end) (plan_changes plan)).

(** The Region and the range whose direct writes a split fences off. *)
Definition split_fence (plan : SplitMergePlan) : option (Z * bytes * bytes) :=
  match plan_kind plan with
  | Merge => None
  | Split => child ← split_target plan;
             Some (source_region plan, start_key child, end_key child)
  end.

(** [assembled] and [drained]: the target group exists on this node, and no
    session reads the range. *)
Definition migrate_split (s target : MvccStorage) (page_size : nat) (plan : SplitMergePlan)
    (assembled drained : bool) (reset : Proposed) (before : db) (polls : list (db * db))
    (views : list PageView) (d : db) : (Z + MigrateError) * db :=
  match split_target plan with
  | None => (inr BadPlan, d)
  | Some child =>
    if negb assembled then (inr NotAssembled, d)
    else if negb drained then (inr DrainFailed, d)
    else import_pages s target page_size (start_key child) (end_key child) true None reset
           before polls views d
  end.

(** The Region a merge keeps, with its new range, and the ones it removes. *)
Definition merged_region (plan : SplitMergePlan) : option RegionMeta :=
  head (omap (fun change =>
    match change with
    | RcUpdate m => if region_id m =? source_region plan then Some m else None
    | _ => None
    end) (plan_changes plan)).

Definition donor_regions (plan : SplitMergePlan) : list Z :=
  omap (fun change => match change with RcRemove id _ => Some id | _ => None end)
    (plan_changes plan).

Definition merge_donor_range (ranges : Z -> option (bytes * bytes)) (plan : SplitMergePlan)
    : (Z * bytes * bytes) + MigrateError :=
  match plan_kind plan with
  | RegionTable.Split => inr BadPlan
  | RegionTable.Merge =>
    match head (donor_regions plan) with
    | None => inr BadPlan
    | Some donor =>
      match ranges donor with
      | None => inr NotAssembled
      | Some (start, end_) => inl (donor, start, end_)
      end
    end
  end.

(** The wait for equal cursors of donor and receiver; each poll sees the donor's
    cursor, the receiver's cursor and the donor's revision.  The result is the
    pinned revision and the cursor. *)
Fixpoint wait_for_cursors (s : MvccStorage) (polls : list (db * db * db)) : option (Z * Z) :=
  match polls with
  | [] => None
  | (donor, receiver, donor') :: polls =>
    if last_applied_decision_ts donor =? last_applied_decision_ts receiver
    then Some (current_revision s donor', last_applied_decision_ts donor)
    else wait_for_cursors s polls
  end.

(** [d] is the store of the absorbing group, to which the import is proposed.
    The cursors are read from the replicas of this node, which may be behind
    their groups: [after] is the donor's and [replica] the receiver's when the
    import is over. *)
Definition migrate_merge (s target : MvccStorage) (page_size : nat) (plan : SplitMergePlan)
    (ranges : Z -> option (bytes * bytes)) (assembled drained : bool)
    (cursors : list (db * db * db)) (reset : Proposed) (before : db) (polls : list (db * db))
    (views : list PageView) (after replica : db) (d : db) : (Z + MigrateError) * db :=
  match merged_region plan, donor_regions plan with
  | Some merged, [donor] =>
    match ranges donor with
    | None => (inr NotAssembled, d)
    | Some (donor_start, donor_end) =>
      if negb (bytes_eqb donor_end (end_key merged))
         || bytes_ltb donor_start (start_key merged)
         || (negb (bytes_eqb donor_end []) && bytes_ltb donor_end donor_start)
      then (inr BadPlan, d)
      else if negb assembled then (inr NotAssembled, d)
      else if negb drained then (inr DrainFailed, d)
      else match wait_for_cursors s cursors with
      | None => (inr NotAligned, d)
      | Some (pin, cursor) =>
        match import_pages s target page_size donor_start donor_end false
                (if 0 <? pin then Some pin else None) reset before polls views d with
        | (inr e, d) => (inr e, d)
        | (inl watermark, d) =>
          if negb (last_applied_decision_ts after =? cursor)
             || negb (last_applied_decision_ts replica =? cursor)
             || negb (current_revision s after =? pin)
          then (inr Moved, d)
          else (inl watermark, d)
        end
      end
    end
  | _, _ => (inr BadPlan, d)
  end.

End migrator.
