(* ===== verification/MigrationFacts.v ===== *)
(** * Pages of a range

    A page holds the live rows of its part of the range in key order; importing
    it into a target without rows there copies them. *)

From S2P Require Export Migration.

Local Open Scope Z_scope.

Abbreviation row_key := (fun r : VersionedKv => r.1.1).
Abbreviation key_lt := (fun x y : VersionedKv => bytes_lt x.1.1 y.1.1).

(** The row is live in the store. *)
Definition live_row (s : MvccStorage) (d : db) (r : VersionedKv) : Prop :=
  let '(k, v, m) := r in
  get_kv_metadata d k = Some m /\ deleted m = false /\
  exists raw, tx_get d TABLE_KV (encode_kv_key k) = Some raw /\
    plaintext_of s (encode_kv_key k) raw = Ok v.

Lemma past_end start end_ k :
  bytes_le start k -> negb (bytes_eqb end_ []) && bytes_leb end_ k = negb (in_range start end_ k).
Proof.
  intros H. unfold in_range, bytes_leb at 1. unfold bytes_le in H. rewrite H.
  by destruct (bytes_eqb end_ []), (bytes_ltb k end_).
Qed.

Lemma meta_row_lt k v k' v' :
  row_lt (encode_kv_meta_key k, v) (encode_kv_meta_key k', v') -> bytes_lt k k'.
Proof.
  unfold row_lt, bytes_lt, encode_kv_meta_key. cbn [fst]. by rewrite bytes_lt_app_r.
Qed.

Section export.
Context (s : MvccStorage) (d : db) (start end_ : bytes) (limit : nat).

(** What the loop makes of rows of the metadata table. *)
Definition exported (n : nat) (rows : list row) (out : list VersionedKv) (more : bool) : Prop :=
  Forall (fun x => live_row s d x /\ in_range start end_ (row_key x) = true /\
            encode_kv_meta_key (row_key x) ∈ rows.*1) out /\
  StronglySorted key_lt out /\
  (forall k m v, (encode_kv_meta_key k, v) ∈ rows -> in_range start end_ k = true ->
     meta_from_bytes v = Some m -> deleted m = false ->
     k ∈ row_key <$> out \/ (more = true /\ Forall (fun x => bytes_lt (row_key x) k) out)) /\
  (more = true -> (0 < limit)%nat /\ (limit <= n + length out)%nat).

Lemma exported_skip n r rows out more :
  (forall k m, r.1 = encode_kv_meta_key k -> in_range start end_ k = true ->
     meta_from_bytes r.2 = Some m -> deleted m = true) ->
  exported n rows out more -> exported n (r :: rows) out more.
Proof.
  intros Hr (H1 & H2 & H3 & H4). split_and!; [|done| |done].
  - eapply Forall_impl; [exact H1|]. intros x (? & ? & Hx). split; [done|]. split; [done|].
    by apply elem_of_cons; right.
  - intros k m v [<-|Hin]%elem_of_cons Hk Hm Hd; [|by eapply H3].
    rewrite (Hr k m) in Hd; done.
Qed.

Lemma exported_push n k v m raw_meta rows out more :
  live_row s d (k, v, m) -> in_range start end_ k = true -> meta_from_bytes raw_meta = Some m ->
  Forall (row_lt (encode_kv_meta_key k, raw_meta)) rows ->
  exported (S n) rows out more ->
  exported n ((encode_kv_meta_key k, raw_meta) :: rows) ((k, v, m) :: out) more.
Proof.
  intros Hl Hk Hm Hlt (H1 & H2 & H3 & H4).
  assert (forall k', encode_kv_meta_key k' ∈ rows.*1 -> bytes_lt k k') as Habove.
  { intros k' ([k2 v2] & E & Hin)%list_elem_of_fmap. rewrite Forall_forall in Hlt.
    specialize (Hlt _ Hin). cbn [fst] in E. subst k2. exact (meta_row_lt _ _ _ _ Hlt). }
  split_and!.
  - apply Forall_cons. split; [split_and!; [done|done|by left]|].
    eapply Forall_impl; [exact H1|]. intros x (? & ? & ?). split; [done|]. split; [done|].
    by apply elem_of_cons; right.
  - constructor; [done|]. eapply Forall_impl; [exact H1|]. intros x (_ & _ & Hx). by apply Habove.
  - intros k' m' v' [E|Hin]%elem_of_cons Hk' Hm' Hd'.
    + left. injection E as -> _. by left.
    + destruct (H3 k' m' v' Hin Hk' Hm' Hd') as [?|[? ?]]; [by left; right|right].
      split; [done|]. apply Forall_cons. split; [|done]. apply Habove, list_elem_of_fmap.
      by eexists (_, _).
  - intros Hmore. destruct (H4 Hmore). simpl. lia.
Qed.

Lemma export_loop_spec rows : forall n out more,
  StronglySorted row_lt rows -> Forall (fun r => d !! (TABLE_KV_META, r.1) = Some r.2) rows ->
  export_loop s d start end_ limit n rows = Ok (out, more) -> exported n rows out more.
Proof.
  induction rows as [|[mk mv] rows IH]; intros n out more Hs Hd E.
  { injection E as <- <-. split_and!; [constructor|constructor| |done]. by intros ? ? ? ?%elem_of_nil. }
  apply StronglySorted_inv in Hs as [Hs Hlt]. apply Forall_cons in Hd as [Hv Hd].
  cbn [export_loop] in E. simpl in Hv.
  destruct (strip_prefix KV_META_PREFIX mk) as [k|] eqn:Ek.
  2: { apply exported_skip; [|by apply IH]. simpl. intros k m ->. unfold encode_kv_meta_key in Ek.
       by rewrite strip_prefix_app in Ek. }
  apply strip_prefix_Some in Ek as ->. fold (encode_kv_meta_key k) in *.
  assert (forall k', encode_kv_meta_key k = encode_kv_meta_key k' -> k' = k) as Hinj
    by (intros k' E'; symmetry; exact (app_inv_head _ _ _ E')).
  destruct (bytes_ltb_spec k start) as [Hks|Hks].
  { apply exported_skip; [|by apply IH]. simpl. intros k' m ->%Hinj [Hle _]%in_range_spec.
    by destruct (irreflexivity bytes_lt k (bytes_lt_le_trans _ _ _ Hks Hle)). }
  assert (bytes_le start k) as Hle.
  { unfold bytes_le, bytes_leb. destruct (bytes_ltb_spec k start); done. }
  rewrite (past_end start) in E by done.
  destruct (in_range start end_ k) eqn:Hr; cbn [negb] in E.
  - destruct (meta_from_bytes mv) as [m|] eqn:Em; [|done]. cbn [ok_or mbind result_bind] in E.
    destruct (deleted m) eqn:Ed.
    { apply exported_skip; [|by apply IH]. simpl. congruence. }
    destruct ((0 <? limit)%nat && (limit <=? n)%nat) eqn:El.
    { injection E as <- <-. apply andb_true_iff in El as [?%Nat.ltb_lt ?%Nat.leb_le].
      split_and!; [constructor|constructor| |simpl; lia]. intros. right. by split. }
    inv_bind. destruct x1 as [rest hm]. inv_bind.
    apply exported_push; [|done..| |].
    + split; [unfold get_kv_metadata, tx_get; by rewrite Hv|]. split; [done|]. by eexists.
    + by apply Hlt.
    + by apply IH.
  - injection E as <- <-. split_and!; [constructor|constructor| |done].
    intros k' m v [E'|Hin]%elem_of_cons Hr'; [injection E' as -> _; congruence|].
    exfalso. rewrite Forall_forall in Hlt. specialize (Hlt _ Hin). apply meta_row_lt in Hlt. apply in_range_spec in Hr' as [_ Hr'].
    rewrite <-not_true_iff_false, in_range_spec in Hr. apply Hr. split; [done|].
    destruct Hr' as [->|Hr']; [by left|right]. by etransitivity.
Qed.

End export.

(** Keys after the last one of the page before. *)
Definition above (after : option bytes) (k : bytes) : Prop :=
  from_option (fun a => bytes_lt a k) True after.

Lemma export_lower_above start end_ after k :
  from_option (fun a => bytes_le start a) True after ->
  in_range start end_ k = true /\ above after k <->
  in_range (export_lower start after) end_ k = true.
Proof.
  rewrite !in_range_spec. intros Ha. unfold above, export_lower. destruct after as [a|]; simpl in *.
  - unfold bytes_le in Ha. rewrite Ha, (bytes_succ a k). split; [tauto|].
    intros [Hle ?]. split; [|done]. split; [|done].
    etransitivity; [exact Ha|]. etransitivity; [apply bytes_lt_le, bytes_lt_snoc|exact Hle].
  - tauto.
Qed.

Lemma in_range_meta lower end_ k :
  in_range (encode_kv_meta_key lower)
    (if bytes_eqb end_ [] then [] else encode_kv_meta_key end_) (encode_kv_meta_key k)
  = in_range lower end_ k.
Proof.
  unfold in_range. unfold encode_kv_meta_key. rewrite bytes_leb_app_r. f_equal.
  destruct (bytes_eqb_spec end_ []) as [->|]; [done|]. rewrite bytes_lt_app_r.
  by destruct (bytes_eqb_spec (KV_META_PREFIX ++ end_) []).
Qed.

(** What a page contains. *)
Record page_spec (s : MvccStorage) (d : db) (start end_ : bytes) (after : option bytes)
    (limit : nat) (page : RangeSnapshotPage) : Prop := {
  ps_revision : page_revision page = current_revision s d;
  ps_rows : Forall (fun x => live_row s d x /\ in_range start end_ (row_key x) = true /\
                      above after (row_key x)) (page_rows page);
  ps_sorted : StronglySorted key_lt (page_rows page);
  ps_complete : forall k m, in_range start end_ k = true -> above after k ->
    get_kv_metadata d k = Some m -> deleted m = false ->
    k ∈ row_key <$> page_rows page \/ exists a, next_after page = Some a /\ bytes_lt a k;
  ps_next : forall a, next_after page = Some a ->
    (0 < limit)%nat /\ exists x, last (page_rows page) = Some x /\ row_key x = a }.

Lemma export_page_spec s d start end_ after limit expected page :
  from_option (fun a => bytes_le start a) True after ->
  export_range_page s d start end_ after limit expected = Ok page ->
  page_spec s d start end_ after limit page /\
  ((exists k, in_range start end_ k = true /\ above after k) ->
   from_option (eq (current_revision s d)) True expected).
Proof.
  intros Ha E. unfold export_range_page in E.
  destruct (negb (bytes_eqb end_ []) && bytes_leb end_ (export_lower start after)) eqn:Ee.
  { assert (forall k, ~ (in_range start end_ k = true /\ above after k)) as Hno.
    { intros k. rewrite (export_lower_above start end_ after k Ha), in_range_spec.
      apply andb_true_iff in Ee as [Hn Hle]. destruct (bytes_eqb_spec end_ []) as [|Hne]; [done|].
      intros [Hk [?|Hlt]]; [done|]. apply (irreflexivity bytes_lt k).
      eapply bytes_lt_le_trans; [exact Hlt|]. by etransitivity. }
    injection E as <-. split; [|intros [k Hk]; by destruct (Hno k)].
    split; simpl; [done|constructor|constructor| |done]. intros k m ? ?. by destruct (Hno k). }
  destruct (from_option _ false expected) eqn:Ex; [done|]. inv_bind. destruct x as [rows more].
  inv_bind. apply export_loop_spec in H as (H1 & H2 & H3 & H4); [|apply iter_range_sorted|].
  2: { apply Forall_forall. intros [k v] [? _]%elem_of_iter_range. done. }
  assert (forall k v, (encode_kv_meta_key k, v) ∈ iter_range d TABLE_KV_META
      (encode_kv_meta_key (export_lower start after))
      (if bytes_eqb end_ [] then [] else encode_kv_meta_key end_) <->
    tx_get d TABLE_KV_META (encode_kv_meta_key k) = Some v /\
    (in_range start end_ k = true /\ above after k)) as Hin.
  { intros k v. rewrite elem_of_iter_range, in_range_meta.
    by rewrite (export_lower_above start end_ after k Ha). }
  split.
  - split; simpl; [done| |done| |].
    + eapply Forall_impl; [exact H1|]. intros x (Hl & Hr & ([k v] & Ek & Hkv)%list_elem_of_fmap).
      cbn [fst] in Ek. subst k. apply Hin in Hkv as (_ & _ & ?). done.
    + intros k m Hk Hab Hm Hd. unfold get_kv_metadata in Hm.
      destruct (tx_get d TABLE_KV_META (encode_kv_meta_key k)) as [v|] eqn:Ev; [|done].
      destruct (H3 k m v) as [?|[-> Hlt]]; [by apply Hin|done|done|done|by left|right].
      destruct (last rows) as [x|] eqn:El.
      * exists (row_key x). split; [done|]. rewrite Forall_forall in Hlt. apply Hlt.
        by apply last_Some_elem_of.
      * apply last_None in El as ->. destruct (H4 eq_refl). simpl in *. lia.
    + intros a. destruct more; [|done]. intros (x & El & ->)%fmap_Some. destruct (H4 eq_refl).
      split; [done|]. by exists x.
  - intros _. destruct expected as [e|]; [|done]. simpl in Ex |- *. lia.
Qed.

(** ** Import *)

(** The rows of a user key. *)
Definition key_rows (d : db) (k : bytes) : option bytes * option bytes :=
  (tx_get d TABLE_KV (encode_kv_key k), tx_get d TABLE_KV_META (encode_kv_meta_key k)).

Abbreviation absent := (fun (d : db) (k : bytes) => key_rows d k = (None, None)).

(** The target holds the row. *)
Definition holds (s : MvccStorage) (d : db) (r : VersionedKv) : Prop :=
  get_kv_metadata d r.1.1 = Some r.2 /\
  exists raw, tx_get d TABLE_KV (encode_kv_key r.1.1) = Some raw /\
    plaintext_of s (encode_kv_key r.1.1) raw = Ok r.1.2.

Lemma key_rows_metadata d d' k : key_rows d' k = key_rows d k -> get_kv_metadata d' k = get_kv_metadata d k.
Proof. unfold key_rows, get_kv_metadata. by intros [= _ ->]. Qed.

Lemma holds_rows s d d' r : key_rows d' r.1.1 = key_rows d r.1.1 -> holds s d r -> holds s d' r.
Proof.
  intros E [Hm Hv]. split; [by rewrite (key_rows_metadata d d')|]. injection E as -> _. done.
Qed.

(** Before its last page an import changes rows of user keys and its log
    position only. *)
Definition key_row (t : table) (k : bytes) : Prop :=
  (t = TABLE_META /\ k = META_LAST_APPLIED) \/
  exists key, (t = TABLE_KV /\ k = encode_kv_key key) \/
              (t = TABLE_KV_META /\ k = encode_kv_meta_key key).

Definition keys_touched (d d' : db) : Prop :=
  forall t k, ~ key_row t k -> tx_get d' t k = tx_get d t k.

#[export] Instance keys_touched_preorder : PreOrder keys_touched.
Proof. split; [done|]. intros d1 d2 d3 H1 H2 t k Hk. by rewrite H2, H1. Qed.

Lemma keys_touched_insert t k v d : key_row t k -> keys_touched d (tx_insert t k v d).
Proof.
  intros Hk t' k' Hn. unfold tx_get, tx_insert. apply lookup_insert_ne. by intros [= -> ->].
Qed.

Lemma keys_touched_remove t k d : key_row t k -> keys_touched d (tx_remove t k d).
Proof.
  intros Hk t' k' Hn. unfold tx_get, tx_remove. apply lookup_delete_ne. by intros [= -> ->].
Qed.

Lemma key_row_kv k : key_row TABLE_KV (encode_kv_key k).
Proof. right. exists k. by left. Qed.
Lemma key_row_meta k : key_row TABLE_KV_META (encode_kv_meta_key k).
Proof. right. exists k. by right. Qed.
Lemma key_row_applied : key_row TABLE_META META_LAST_APPLIED.
Proof. by left. Qed.
#[local] Hint Resolve key_row_kv key_row_meta key_row_applied : core.

Section import.
Context (s : MvccStorage) (Hbar : rep_barrier s).

Definition write_row (r : VersionedKv) (encrypted : bytes) (d : db) : db :=
  tx_insert TABLE_KV_META (encode_kv_meta_key r.1.1) (meta_to_bytes r.2)
    (tx_insert TABLE_KV (encode_kv_key r.1.1) encrypted d).

Lemma write_row_holds r encrypted d :
  meta_wf r.2 -> encrypt_value s (encode_kv_key r.1.1) r.1.2 = Ok encrypted ->
  holds s (write_row r encrypted d) r.
Proof.
  intros Hw He. split; [by apply get_kv_metadata_insert|]. exists encrypted. unfold write_row.
  rewrite tx_get_insert_ne by done. split; [apply tx_get_insert|]. by apply plaintext_of_encrypt.
Qed.

Lemma write_row_other r encrypted d k :
  k <> r.1.1 -> key_rows (write_row r encrypted d) k = key_rows d k.
Proof.
  intros Hne. unfold key_rows, write_row. rewrite (tx_get_insert_ne TABLE_KV) by done.
  assert (encode_kv_key r.1.1 <> encode_kv_key k) by (by intros ?%encode_kv_key_inj).
  assert (encode_kv_meta_key r.1.1 <> encode_kv_meta_key k) by (by intros ?%encode_kv_meta_key_inj).
  by rewrite !tx_get_insert_ne by congruence.
Qed.

Lemma write_row_touched r encrypted d : keys_touched d (write_row r encrypted d).
Proof. etransitivity; apply keys_touched_insert; auto. Qed.

(** Rows the target does not have are all written, unless encryption fails. *)
Lemma import_rows_fresh rows : forall d,
  NoDup (row_key <$> rows) -> Forall (fun x => absent d (row_key x) /\ meta_wf x.2) rows ->
  match import_rows s rows d with
  | Ok (n, d') => n = Z.of_nat (length rows) /\ keys_touched d d' /\
      Forall (holds s d') rows /\
      forall k, k ∉ row_key <$> rows -> key_rows d' k = key_rows d k
  | Err e => exists x, x ∈ rows /\ encrypt_value s (encode_kv_key (row_key x)) x.1.2 = Err e
  end.
Proof using Hbar.
  induction rows as [|[[k v] m] rows IH]; intros d Hnd Hf; [by split_and!|].
  cbn [import_rows]. apply NoDup_cons in Hnd as [Hk Hnd]. apply Forall_cons in Hf as [[Ha Hw] Hf].
  cbn [fst snd] in Ha, Hk, Hw. assert (get_kv_metadata d k = None) as ->.
  { unfold get_kv_metadata. injection Ha as _ ->. done. }
  destruct (encrypt_value s (encode_kv_key k) v) as [c|e] eqn:Ec; cbn [mbind result_bind].
  2: { exists (k, v, m). split; [by left|done]. }
  change (tx_insert TABLE_KV_META _ _ _) with (write_row (k, v, m) c d). specialize (IH (write_row (k, v, m) c d) Hnd).
  assert (forall x, x ∈ rows -> row_key x <> k) as Hne.
  { intros x Hx E. apply Hk. rewrite <-E. by apply (list_elem_of_fmap_2 row_key). }
  assert (Forall (fun x => absent (write_row (k, v, m) c d) (row_key x) /\ meta_wf x.2) rows) as Hf'.
  { rewrite Forall_forall in *. intros x Hx. rewrite write_row_other by (by apply Hne). auto. }
  specialize (IH Hf'). clear Hf'.
  destruct (import_rows s rows (write_row (k, v, m) c d)) as [[n d']|e]; cbn [mbind result_bind].
  - destruct IH as (-> & Ht & Hh & Ho). cbv beta iota. split_and!.
    + simpl. lia.
    + etransitivity; [apply write_row_touched|done].
    + apply Forall_cons. split; [|done].
      eapply (holds_rows s (write_row (k, v, m) c d)); [by apply Ho|by apply write_row_holds].
    + intros k' Hk'. rewrite fmap_cons, not_elem_of_cons in Hk'. destruct Hk' as [? ?].
      rewrite Ho by done. by apply write_row_other.
  - destruct IH as (x & ? & ?). exists x. split; [by right|done].
Qed.

End import.

(** What an import leaves alone. *)
Lemma keys_touched_marks s d d' :
  revision_mode s = ModeCommitTs -> keys_touched d d' ->
  current_revision s d' = current_revision s d /\ compacted_revision d' = compacted_revision d /\
  last_applied_decision_ts d' = last_applied_decision_ts d /\ changelog_rows d' = changelog_rows d /\
  same_table TABLE_CHANGELOG d' d.
Proof.
  intros Hmode H.
  assert (forall k, k <> META_LAST_APPLIED -> tx_get d' TABLE_META k = tx_get d TABLE_META k) as Hm.
  { intros k Hk. apply H. intros [[_ ?]|(? & [[? _]|[? _]])]; done. }
  assert (same_table TABLE_CHANGELOG d' d) as Hc.
  { intros k. apply H. intros [[? _]|(? & [[? _]|[? _]])]; done. }
  split_and!; [| | |by apply iter_prefix_same|done].
  - unfold current_revision, current_revision_in_tx. rewrite Hmode, Hm by done. done.
  - unfold compacted_revision. by rewrite Hm.
  - unfold last_applied_decision_ts, read_u64. rewrite H; [done|].
    intros [[? _]|(k & [[_ E]|[? _]])]; [done| |done].
    apply (kv_key_neq DECISION_APPLIED_TS k []); [done|]. by rewrite app_nil_r.
Qed.

Lemma key_rows_last_applied a d k : key_rows (insert_last_applied a d) k = key_rows d k.
Proof. unfold key_rows, insert_last_applied. by rewrite !tx_get_insert_ne. Qed.

(** ** Clearing the range *)

Lemma in_range_kv start end_ k :
  in_range (encode_kv_key start) (if bytes_eqb end_ [] then [] else encode_kv_key end_)
    (encode_kv_key k) = in_range start end_ k.
Proof.
  unfold in_range. unfold encode_kv_key. rewrite bytes_leb_app_r. f_equal.
  destruct (bytes_eqb_spec end_ []) as [->|]; [done|]. rewrite bytes_lt_app_r.
  by destruct (bytes_eqb_spec (KV_PREFIX ++ end_) []).
Qed.

Lemma elem_of_stale_rows d start end_ x :
  x ∈ stale_rows d start end_ <->
  exists k, x = (encode_kv_key k, encode_kv_meta_key k) /\ in_range start end_ k = true /\
    is_Some (tx_get d TABLE_KV (encode_kv_key k)).
Proof.
  unfold stale_rows. rewrite list_elem_of_omap. split.
  - intros ([ik v] & Hin & E). destruct (decode_kv_key ik) as [k|] eqn:Ek; [|done].
    unfold decode_kv_key in Ek. apply strip_prefix_Some in Ek as ->. injection E as <-.
    apply elem_of_iter_range in Hin as [Hv Hr]. rewrite in_range_kv in Hr.
    exists k. split; [done|]. split; [done|]. by eexists.
  - intros (k & -> & Hr & v & Hv). exists (encode_kv_key k, v). rewrite decode_encode_kv_key.
    split; [|done]. apply elem_of_iter_range. by rewrite in_range_kv.
Qed.

Definition remove_key (d : db) (x : bytes * bytes) : db :=
  tx_remove TABLE_KV_META x.2 (tx_remove TABLE_KV x.1 d).

Lemma remove_key_rows d k k' :
  key_rows (remove_key d (encode_kv_key k, encode_kv_meta_key k)) k' =
  if decide (k' = k) then (None, None) else key_rows d k'.
Proof.
  unfold key_rows, remove_key. cbn [fst snd]. case_decide as E; [subst|].
  - rewrite tx_get_remove_ne, !tx_get_remove by done. done.
  - assert (encode_kv_key k <> encode_kv_key k') by (by intros ?%encode_kv_key_inj).
    assert (encode_kv_meta_key k <> encode_kv_meta_key k') by (by intros ?%encode_kv_meta_key_inj).
    by rewrite !tx_get_remove_ne by congruence.
Qed.

Lemma remove_keys_rows ks d :
  let d' := foldl remove_key d ((fun k => (encode_kv_key k, encode_kv_meta_key k)) <$> ks) in
  keys_touched d d' /\
  forall k, key_rows d' k = if decide (k ∈ ks) then (None, None) else key_rows d k.
Proof.
  revert d. induction ks as [|k ks IH]; intros d; [done|]. rewrite fmap_cons. cbn [foldl].
  destruct (IH (remove_key d (encode_kv_key k, encode_kv_meta_key k))) as [H1 H2]. split.
  - etransitivity; [|exact H1].
    etransitivity; [apply keys_touched_remove, key_row_kv|apply keys_touched_remove, key_row_meta].
  - intros k'. rewrite H2, remove_key_rows. repeat case_decide; set_solver.
Qed.

Lemma clear_range_spec s d start end_ a :
  revision_mode s = ModeCommitTs ->
  exists n d', clear_imported_range s d start end_ a = (Ok n, d') /\ keys_touched d d' /\
    (forall k, in_range start end_ k = false -> key_rows d' k = key_rows d k) /\
    (forall k, in_range start end_ k = true -> (key_rows d' k).1 = None) /\
    (forall k, in_range start end_ k = true ->
       (is_Some (key_rows d k).2 -> is_Some (key_rows d k).1) -> absent d' k).
Proof.
  intros Hmode. unfold clear_imported_range. rewrite decide_True by done.
  set (f := fun k => (encode_kv_key k, encode_kv_meta_key k)).
  assert (exists ks, stale_rows d start end_ = f <$> ks) as [ks Eks].
  { assert (Forall (fun x => exists k, x = f k) (stale_rows d start end_)) as Hf.
    { apply Forall_forall. intros x (k & -> & _)%elem_of_stale_rows. by exists k. }
    induction Hf as [|x l [k ->] _ [ks ->]]; [by exists []|by exists (k :: ks)]. }
  assert (forall k, k ∈ ks <-> in_range start end_ k = true /\ is_Some (key_rows d k).1) as Hks.
  { intros k. transitivity (f k ∈ stale_rows d start end_).
    - rewrite Eks, list_elem_of_fmap. split; [by exists k|].
      intros (k' & E & ?). injection E as E _. by subst k'.
    - rewrite elem_of_stale_rows. split.
      + intros (k' & E & ? & ?). injection E as E _. by subst k'.
      + intros [? ?]. by exists k. }
  destruct (remove_keys_rows ks d) as [Ht Hr]. rewrite Eks.
  eexists _, _. split; [done|]. split_and!.
  - etransitivity; [exact Ht|]. apply keys_touched_insert, key_row_applied.
  - intros k Hk. rewrite key_rows_last_applied. etransitivity; [apply Hr|].
    rewrite decide_False; [done|]. rewrite Hks. intros [? _]. congruence.
  - intros k Hk. rewrite key_rows_last_applied. etransitivity; [apply (f_equal fst), Hr|].
    case_decide as Hin; [done|]. rewrite Hks in Hin. destruct (key_rows d k).1 eqn:E1; [|done].
    by destruct Hin.
  - intros k Hk Hm. rewrite key_rows_last_applied. etransitivity; [apply Hr|].
    case_decide as Hin; [done|]. rewrite Hks in Hin. unfold key_rows in *. simpl in *.
    destruct (tx_get d TABLE_KV (encode_kv_key k)) eqn:E1; [by destruct Hin|].
    destruct (tx_get d TABLE_KV_META (encode_kv_meta_key k)) eqn:E2; [|done].
    by destruct Hm.
Qed.

(** ** One page *)

Lemma be64_get t k z d : in_u64 z -> tx_get (tx_insert t k (be64 z) d) t k ≫= decode_u64 = Some z.
Proof. intros. rewrite tx_get_insert. cbn [mbind option_bind]. by apply decode_u64_be64. Qed.

(** The marks of a target after a page. *)
Definition page_marks (s : MvccStorage) (sealed : bool) (w : Z) (d d' : db) : Prop :=
  same_table TABLE_CHANGELOG d' d /\
  let up := fun z => if sealed then Z.max z w else z in
  current_revision s d' = up (current_revision s d) /\
  compacted_revision d' =
    (if sealed then Z.min (up (compacted_revision d)) (up (current_revision s d))
     else compacted_revision d) /\
  last_applied_decision_ts d' = up (last_applied_decision_ts d).

Lemma keys_touched_page_marks s w d d' :
  revision_mode s = ModeCommitTs -> keys_touched d d' -> page_marks s false w d d'.
Proof.
  intros Hmode H. destruct (keys_touched_marks s d d' Hmode H) as (? & ? & ? & ? & ?).
  split; [done|]. cbv zeta. by split_and!.
Qed.

Lemma seal_history_marks s w d :
  in_u64 w -> page_marks s true w d (seal_history w (current_revision s d) d).
Proof.
  intros Hw. pose proof (current_revision_range s d) as Hc. unfold seal_history.
  set (r := Z.max (current_revision s d) w). assert (in_u64 r) as Hr by (unfold r, in_u64 in *; lia).
  set (d1 := set_current_revision r d).
  assert (compacted_revision d1 = compacted_revision d) as Hd1.
  { unfold compacted_revision, d1, set_current_revision. by rewrite tx_get_insert_ne. }
  set (c := Z.min (Z.max (compacted_revision d1) w) r).
  pose proof (compacted_revision_range d) as Hcr.
  assert (in_u64 c) as Hcu by (unfold c, r, in_u64 in *; rewrite Hd1; lia).
  set (d2 := tx_insert TABLE_META META_COMPACT_REVISION (be64 c) d1).
  set (z := Z.max (last_applied_decision_ts d2) w).
  assert (last_applied_decision_ts d2 = last_applied_decision_ts d) as Hl.
  { unfold last_applied_decision_ts, read_u64, d2, d1, set_current_revision.
    by rewrite !tx_get_insert_ne. }
  pose proof (read_u64_range d DECISION_APPLIED_TS) as Hlr. fold (last_applied_decision_ts d) in Hlr.
  assert (in_u64 z) as Hz by (unfold z, in_u64 in *; rewrite Hl; lia).
  split; [|cbv zeta; split_and!].
  - intros k. unfold d2, d1, set_current_revision. by rewrite !tx_get_insert_ne.
  - unfold current_revision, current_revision_in_tx. rewrite tx_get_insert_ne by done.
    unfold d2. rewrite tx_get_insert_ne by done. unfold d1, set_current_revision.
    rewrite be64_get by exact Hr. reflexivity.
  - unfold compacted_revision at 1. rewrite tx_get_insert_ne by done. unfold d2.
    rewrite be64_get by done. unfold c. by rewrite Hd1.
  - unfold last_applied_decision_ts at 1. rewrite read_u64_insert by done.
    unfold z. by rewrite Hl.
Qed.

Section page.
Context {fc : FloorCodec} (s : MvccStorage).
Context (Hmode : revision_mode s = ModeCommitTs) (Hbar : rep_barrier s).

Lemma seal_history_keys w c d k : key_rows (seal_history w c d) k = key_rows d k.
Proof using Type.
  unfold key_rows, seal_history, set_current_revision.
  rewrite (tx_get_insert_ne TABLE_KV_META) by done.
  rewrite <-(app_nil_r DECISION_APPLIED_TS), kv_key_frame by done.
  by rewrite !tx_get_insert_ne.
Qed.

Lemma floor_history_keys start end_ w d d' k :
  floor_history start end_ w d = Ok d' -> key_rows d' k = key_rows d k /\ page_marks s false w d d'.
Proof using Hmode.
  unfold floor_history. intros H. inv_bind. split.
  - unfold key_rows. rewrite (tx_get_insert_ne TABLE_KV_META) by done.
    by rewrite <-(app_nil_r IMPORT_HISTORY_FLOORS), kv_key_frame.
  - split; [|cbv zeta; split_and!].
    + intros k'. by rewrite tx_get_insert_ne.
    + unfold current_revision, current_revision_in_tx. rewrite Hmode. by rewrite tx_get_insert_ne.
    + unfold compacted_revision. by rewrite tx_get_insert_ne.
    + unfold last_applied_decision_ts, read_u64. by rewrite tx_get_insert_ne.
Qed.

Lemma page_marks_keys sealed w d0 d d' :
  keys_touched d0 d -> page_marks s sealed w d d' -> page_marks s sealed w d0 d'.
Proof using Hmode.
  intros H (H1 & H2 & H3 & H4).
  destruct (keys_touched_marks s d0 d Hmode H) as (E1 & E2 & E3 & _ & E5).
  split; [by rewrite H1|]. cbv zeta in *. by rewrite <-E1, <-E2, <-E3.
Qed.

Lemma page_marks_last_applied sealed w d0 d a :
  page_marks s sealed w d0 d -> page_marks s sealed w d0 (insert_last_applied a d).
Proof using Hmode.
  intros (H1 & H2 & H3 & H4).
  destruct (keys_touched_marks s d (insert_last_applied a d) Hmode) as (E1 & E2 & E3 & _ & E5).
  { apply keys_touched_insert, key_row_applied. }
  split; [by rewrite E5|]. cbv zeta in *. by rewrite E1, E2, E3.
Qed.

(** A page of rows the target does not have: an error changes nothing. *)
Lemma apply_range_import_fresh d start end_ rows w seal done a :
  in_u64 w -> NoDup (row_key <$> rows) ->
  Forall (fun x => absent d (row_key x) /\ meta_wf x.2) rows ->
  match apply_range_import s d start end_ rows w seal done a with
  | (Ok n, d') => n = Z.of_nat (length rows) /\ Forall (holds s d') rows /\
      (forall k, k ∉ row_key <$> rows -> key_rows d' k = key_rows d k) /\
      page_marks s (done && seal) w d d'
  | (Err e, d') => d' = d
  end.
Proof using Hmode Hbar.
  intros Hw Hnd Hf. unfold apply_range_import. rewrite decide_True by done.
  destruct (_ && _); [done|]. destruct (check_import_rows _ _ _ _ _); [|done].
  pose proof (import_rows_fresh s Hbar rows d Hnd Hf) as Hi. unfold backend_write.
  destruct (import_rows s rows d) as [[n d1]|e]; cbn [mbind result_bind]; [|done].
  destruct Hi as (-> & Ht & Hh & Ho).
  destruct (keys_touched_marks s d d1 Hmode Ht) as (Hcur & _).
  assert (forall d2 sealed, (forall k, key_rows d2 k = key_rows d1 k) -> page_marks s sealed w d1 d2 ->
    Z.of_nat (length rows) = Z.of_nat (length rows) /\ Forall (holds s (insert_last_applied a d2)) rows /\
    (forall k, k ∉ row_key <$> rows -> key_rows (insert_last_applied a d2) k = key_rows d k) /\
    page_marks s sealed w d (insert_last_applied a d2)) as Hfin.
  { intros d2 sealed Hk Hm. split_and!; [done| | |].
    - eapply Forall_impl; [exact Hh|]. intros x Hx. eapply holds_rows; [|exact Hx].
      by rewrite key_rows_last_applied.
    - intros k Hk'. by rewrite key_rows_last_applied, Hk, Ho.
    - by eapply page_marks_last_applied, page_marks_keys. }
  destruct done, seal; cbn [andb mbind result_bind].
  - apply Hfin; [intros k; apply seal_history_keys|]. rewrite <-Hcur. by apply seal_history_marks.
  - destruct (floor_history start end_ w d1) as [d2|] eqn:Ef; cbn [mbind result_bind]; [|done].
    apply Hfin; [intros k|]; by eapply floor_history_keys, Ef.
  - apply Hfin; [done|]. by apply keys_touched_page_marks.
  - apply Hfin; [done|]. by apply keys_touched_page_marks.
Qed.

End page.
