(* ===== verification/MigrationCopy.v ===== *)
(** * A migration copies the range

    A forwarded command whose answer is lost is sent again.  Clearing a range
    and importing a page can be repeated: the second time writes nothing but the
    log position, so a proposal has the effect of one application of its
    command, or none.  Whatever happens to the source between the pages, a
    migration that reports success has copied every key of the range as it was
    at the pinned revision, and one that fails has left the marks of the target
    as they were. *)

From S2P Require Export MigrationFacts.

Local Open Scope Z_scope.

(** ** Replays *)

(** Whether a command succeeds does not depend on its log position; when it does
    not it changes nothing, and after it has succeeded it succeeds again, with
    the state it would have reached from the start. *)
Definition replayable {A : Type} (command : db -> AppliedLogId -> result A * db) (d : db) : Prop :=
  (exists x, forall a, (command d a).1 = Ok x /\
     forall a', exists x', command (command d a).2 a' = (Ok x', (command d a').2)) \/
  (exists e, forall a, command d a = (Err e, d)).

(** One application, or none. *)
Lemma propose_outcome {A : Type} (p : Proposed) (command : db -> AppliedLogId -> result A * db) e d r d' :
  replayable command d -> propose p command e d = (r, d') ->
  (exists a x, command d a = (Ok x, d')) \/ (d' = d /\ exists e', r = inr e').
Proof.
  intros Hrep E.
  enough (forall l d0 o d1, d0 = d \/ (exists a x, command d a = (Ok x, d0)) ->
    run_proposal command l d0 = (o, d1) ->
    (exists a x, command d a = (Ok x, d1)) \/ (d1 = d /\ forall x, o <> Some (Ok x))) as H.
  { unfold propose in E. destruct (run_proposal command (applications p) d) as [o d1] eqn:Er.
    destruct (H _ _ _ _ (or_introl eq_refl) Er) as [?|[-> Ho]].
    - left. by destruct o as [[x|]|]; injection E as _ <-.
    - right. destruct o as [[x|]|]; injection E as <- <-; [by destruct (Ho x)|by split; [|eexists]..]. }
  assert (forall d0, d0 = d \/ (exists a x, command d a = (Ok x, d0)) -> forall a,
    (exists x x', command d0 a = (Ok x', (command d a).2) /\ (command d a).1 = Ok x) \/
    (exists e', d0 = d /\ command d0 a = (Err e', d))) as Hone.
  { intros d0 Hd0 a. destruct Hrep as [[x Hx]|[e' He]].
    - left. destruct (Hx a) as [Hok _]. destruct Hd0 as [->|(a0 & x0 & E0)].
      + exists x, x. split; [|done]. rewrite <-Hok. apply surjective_pairing.
      + destruct (Hx a0) as [_ Hag]. rewrite E0 in Hag. destruct (Hag a) as [x' Hx']. by exists x, x'.
    - right. destruct Hd0 as [->|(a0 & x0 & E0)]; [by exists e'|]. by rewrite He in E0. }
  clear p E Hrep. induction l as [|a [|a2 l] IH]; intros d0 o d1 Hd0 Er.
  - injection Er as <- <-. destruct Hd0 as [->|?]; [by right|by left].
  - cbn [run_proposal] in Er. destruct (Hone d0 Hd0 a) as [(x & x' & E0 & E1)|(e' & -> & E0)]; rewrite E0 in Er.
    + left. injection Er as _ <-. exists a, x. rewrite <-E1. apply surjective_pairing.
    + right. injection Er as <- <-. by split.
  - eapply IH; [|exact Er]. destruct (Hone d0 Hd0 a) as [(x & x' & -> & E1)|(e' & -> & ->)]; [|by left].
    right. exists a, x. cbn [snd]. rewrite <-E1. apply surjective_pairing.
Qed.

(** An answered command that succeeds, however often it is applied. *)
Lemma propose_answered {A : Type} (p : Proposed) (command : db -> AppliedLogId -> result A * db) e d :
  replayable command d -> applications p <> [] -> answered p = true ->
  (forall a, exists x, (command d a).1 = Ok x) ->
  exists a x, propose p command e d = (inl x, (command d a).2).
Proof.
  intros Hrep Hne Hans Hok. unfold propose. rewrite Hans.
  enough (forall l d0, l <> [] -> d0 = d \/ (exists a, (command d a).2 = d0) ->
    exists a x, run_proposal command l d0 = (Some (Ok x), (command d a).2)) as H.
  { destruct (H (applications p) d Hne (or_introl eq_refl)) as (a & x & ->). by exists a, x. }
  assert (forall d0, d0 = d \/ (exists a, (command d a).2 = d0) -> forall a,
    exists x, command d0 a = (Ok x, (command d a).2)) as Hone.
  { intros d0 Hd0 a. destruct Hrep as [[x Hx]|[e' He]].
    - destruct Hd0 as [->|(a0 & <-)]; [|by destruct (Hx a0) as [_ Hag]].
      exists x. destruct (Hx a) as [<- _]. apply surjective_pairing.
    - destruct (Hok a) as [x Hx]. by rewrite He in Hx. }
  induction l as [|a [|a2 l] IH]; intros d0 Hl Hd0; [done| |].
  - cbn [run_proposal]. destruct (Hone d0 Hd0 a) as [x ->]. by exists a, x.
  - destruct (IH (command d0 a).2) as (a' & x & E); [done| |by exists a', x].
    right. destruct (Hone d0 Hd0 a) as [x ->]. by exists a.
Qed.

Lemma insert_last_applied_twice a a' d :
  insert_last_applied a' (insert_last_applied a d) = insert_last_applied a' d.
Proof. unfold insert_last_applied, tx_insert. apply insert_insert_eq. Qed.

(** ** Clearing *)

Lemma clear_replayable s start end_ d :
  revision_mode s = ModeCommitTs -> replayable (fun d => clear_imported_range s d start end_) d.
Proof.
  intros Hmode. left.
  exists (Z.of_nat (length (stale_rows d start end_))). intros a.
  destruct (clear_range_spec s d start end_ a Hmode) as (n & d1 & E & _ & _ & Hnone & _).
  split; [unfold clear_imported_range; by rewrite decide_True|].
  intros a'. rewrite E. cbn [snd].
  assert (stale_rows d1 start end_ = []) as Hs.
  { apply elem_of_nil_inv. intros x (k & _ & Hk & Hv)%elem_of_stale_rows.
    specialize (Hnone k Hk). cbn [fst key_rows] in Hnone. rewrite Hnone in Hv. by destruct Hv. }
  unfold clear_imported_range in *. rewrite decide_True in E |- * by done. rewrite decide_True by done.
  rewrite Hs. injection E as _ <-. cbn [length foldl snd]. rewrite insert_last_applied_twice. by eexists.
Qed.

(** ** Importing *)

(** The target has the key at a later revision, or the same row. *)
Definition settled (s : MvccStorage) (d : db) (r : VersionedKv) : Prop :=
  exists m, get_kv_metadata d r.1.1 = Some m /\
    (mod_revision r.2 < mod_revision m \/ mod_revision m = mod_revision r.2 /\
     exists raw, tx_get d TABLE_KV (encode_kv_key r.1.1) = Some raw /\
       plaintext_of s (encode_kv_key r.1.1) raw = Ok r.1.2).

Lemma settled_rows s d d' r : key_rows d' r.1.1 = key_rows d r.1.1 -> settled s d r -> settled s d' r.
Proof.
  intros E (m & Hm & H). exists m. rewrite (key_rows_metadata d d') by done. split; [done|].
  injection E as -> _. done.
Qed.

Lemma import_rows_settled s rows d : Forall (settled s d) rows -> import_rows s rows d = Ok (0, d).
Proof.
  induction 1 as [|[[k v] m] rows (m' & Hm & H) _ IH]; [done|]. cbn [import_rows fst snd] in *. rewrite Hm.
  destruct (Z.ltb_spec (mod_revision m) (mod_revision m')); [done|].
  destruct H as [?|(-> & raw & -> & Hp)]; [lia|]. rewrite Z.eqb_refl. cbn [ok_or mbind result_bind].
  rewrite Hp. cbn [mbind result_bind]. destruct (bytes_eqb_spec v v); [|done]. exact IH.
Qed.

Lemma import_rows_settle s rows : rep_barrier s -> forall d n d',
  NoDup (row_key <$> rows) -> Forall (fun x : VersionedKv => meta_wf x.2) rows ->
  import_rows s rows d = Ok (n, d') ->
  keys_touched d d' /\ Forall (settled s d') rows /\
  forall k, k ∉ row_key <$> rows -> key_rows d' k = key_rows d k.
Proof.
  intros Hbar. induction rows as [|[[k v] m] rows IH]; intros d n d' Hnd Hw E.
  { injection E as _ <-. by split_and!. }
  rewrite fmap_cons in *. apply NoDup_cons in Hnd as [Hk Hnd]. apply Forall_cons in Hw as [Hm Hw].
  cbn [fst snd] in Hk, Hm.
  assert (forall d0 n0, settled s d0 (k, v, m) -> keys_touched d d0 ->
    (forall k', k' <> k -> key_rows d0 k' = key_rows d k') -> import_rows s rows d0 = Ok (n0, d') ->
    keys_touched d d' /\ Forall (settled s d') ((k, v, m) :: rows) /\
    forall k', k' ∉ k :: (row_key <$> rows) -> key_rows d' k' = key_rows d k') as Hnext.
  { intros d0 n0 Hs0 Ht Ho E0. destruct (IH d0 n0 d' Hnd Hw E0) as (H1 & H2 & H3). split_and!.
    - by etransitivity.
    - apply Forall_cons. split; [|done]. by apply (settled_rows s d0); [apply H3|].
    - intros k' [Hne Hk']%not_elem_of_cons. rewrite H3 by done. by apply Ho. }
  cbn [import_rows] in E. cbv zeta in E.
  destruct (get_kv_metadata d k) as [m'|] eqn:Em; [|].
  1: destruct (Z.ltb_spec (mod_revision m) (mod_revision m')) as [Hlt|Hge].
  { apply (Hnext d n); [|done..]. exists m'. split; [done|]. by left. }
  1: destruct (Z.eqb_spec (mod_revision m') (mod_revision m)) as [Heq|Hne].
  { inv_bind. destruct (bytes_eqb_spec x0 v) as [->|]; [|done].
    apply (Hnext d n); [|done..]. exists m'. split; [done|]. right. split; [done|]. by exists x. }
  all: inv_bind; destruct x0 as [n1 d1]; inv_bind;
    change (tx_insert TABLE_KV_META _ _ _) with (write_row (k, v, m) x d) in *;
    (eapply (Hnext (write_row (k, v, m) x d)); [|apply write_row_touched|by intros; apply write_row_other|eassumption]);
    destruct (write_row_holds s Hbar (k, v, m) x d Hm H) as [? ?]; exists m; split; [done|]; right; done.
Qed.

Lemma check_import_rows_nodup start end_ w rows : forall seen,
  check_import_rows start end_ w seen rows = Ok tt ->
  NoDup (row_key <$> rows) /\ forall k, k ∈ seen -> k ∉ row_key <$> rows.
Proof.
  induction rows as [|[[k v] m] rows IH]; intros seen E.
  { split; [constructor|]. intros k _. apply not_elem_of_nil. }
  cbn [check_import_rows] in E.
  repeat (match type of E with (if ?c then _ else _) = _ => destruct c eqn:? end; [done|]).
  destruct (IH _ E) as [H1 H2]. rewrite fmap_cons. cbn [fst]. split.
  - apply NoDup_cons. split; [|done]. apply H2. by left.
  - intros k' Hk'. apply not_elem_of_cons. split; [|apply H2; by right].
    intros ->. apply bool_decide_eq_false in Heqb1. done.
Qed.

(** ** The last page *)

Lemma tx_insert_same t k v d : tx_get d t k = Some v -> tx_insert t k v d = d.
Proof. unfold tx_get, tx_insert. apply insert_id. Qed.

Lemma seal_history_get w c d :
  let r := Z.max c w in
  let d' := seal_history w c d in
  tx_get d' TABLE_META META_CURRENT_REVISION = Some (be64 r) /\
  tx_get d' TABLE_META META_COMPACT_REVISION =
    Some (be64 (Z.min (Z.max (compacted_revision d) w) r)) /\
  tx_get d' TABLE_KV DECISION_APPLIED_TS = Some (be64 (Z.max (last_applied_decision_ts d) w)).
Proof.
  cbv zeta. unfold seal_history, set_current_revision. split_and!.
  - do 2 rewrite tx_get_insert_ne by done. apply tx_get_insert.
  - rewrite tx_get_insert_ne by done. rewrite tx_get_insert. unfold compacted_revision.
    by rewrite tx_get_insert_ne by done.
  - rewrite tx_get_insert. unfold last_applied_decision_ts, read_u64. by rewrite !tx_get_insert_ne by done.
Qed.

Lemma seal_history_again s w d a :
  revision_mode s = ModeCommitTs -> in_u64 w ->
  let d' := insert_last_applied a (seal_history w (current_revision s d) d) in
  seal_history w (current_revision s d') d' = d'.
Proof.
  intros Hmode Hw d'.
  destruct (page_marks_last_applied s Hmode true w d _ a (seal_history_marks s w d Hw))
    as (_ & Hc & Hk & Hl). fold d' in Hc, Hk, Hl. cbv beta iota zeta in Hc, Hk, Hl.
  destruct (seal_history_get w (current_revision s d) d) as (G1 & G2 & G3).
  unfold seal_history at 1. rewrite Hc.
  replace (Z.max (Z.max (current_revision s d) w) w) with (Z.max (current_revision s d) w) by lia.
  assert (set_current_revision (Z.max (current_revision s d) w) d' = d') as ->.
  { apply tx_insert_same. unfold d', insert_last_applied. by rewrite tx_get_insert_ne. }
  rewrite Hk.
  assert (tx_insert TABLE_META META_COMPACT_REVISION (be64 (Z.min (Z.max (Z.min
    (Z.max (compacted_revision d) w) (Z.max (current_revision s d) w)) w)
    (Z.max (current_revision s d) w))) d' = d') as ->.
  { apply tx_insert_same. unfold d', insert_last_applied. rewrite tx_get_insert_ne by done.
    rewrite G2. do 2 f_equal. lia. }
  rewrite Hl. apply tx_insert_same. unfold d', insert_last_applied. rewrite tx_get_insert_ne by done.
  rewrite G3. do 2 f_equal. lia.
Qed.

Lemma raise_floor_again start end_ w floors :
  raise_floor start end_ w (raise_floor start end_ w floors) = raise_floor start end_ w floors.
Proof.
  induction floors as [|[[fs fe] fw] floors IH]; cbn [raise_floor].
  - destruct (bytes_eqb_spec start start), (bytes_eqb_spec end_ end_); [|done..]. cbn [andb].
    by rewrite Z.max_id.
  - destruct (bytes_eqb fs start && bytes_eqb fe end_) eqn:E; cbn [raise_floor]; rewrite E; [|by rewrite IH].
    by rewrite <-Z.max_assoc, Z.max_id.
Qed.

Section replay.
Context {fc : FloorCodec} {fl : FloorCodecLaws fc} (s : MvccStorage).
Context (Hmode : revision_mode s = ModeCommitTs) (Hbar : rep_barrier s).

Lemma floor_history_again start end_ w d d' a :
  floor_history start end_ w d = Ok d' ->
  floor_history start end_ w (insert_last_applied a d') = Ok (insert_last_applied a d').
Proof using fl.
  unfold floor_history. intros H. inv_bind. rename x into floors.
  set (d' := tx_insert _ _ _ d).
  assert (tx_get (insert_last_applied a d') TABLE_KV IMPORT_HISTORY_FLOORS =
    Some (encode_floors (raise_floor start end_ w floors))) as Hg.
  { unfold insert_last_applied. rewrite tx_get_insert_ne by done. apply tx_get_insert. }
  unfold import_history_floors at 1. rewrite Hg, floors_roundtrip. cbn [ok_or mbind result_bind].
  rewrite raise_floor_again. f_equal. by apply tx_insert_same.
Qed.

(** What a page does before the log position is written. *)
Definition finish_page (start end_ : bytes) (w : Z) (seal done : bool) (c : Z) (d : db) : result db :=
  if done then if seal then Ok (seal_history w c d) else floor_history start end_ w d else Ok d.

Lemma finish_page_again start end_ w seal done d d' a :
  in_u64 w -> finish_page start end_ w seal done (current_revision s d) d = Ok d' ->
  let da := insert_last_applied a d' in
  finish_page start end_ w seal done (current_revision s da) da = Ok da.
Proof using Hmode fl.
  intros Hw E da. unfold finish_page in *. destruct done; [|done]. destruct seal.
  - injection E as <-. f_equal. by apply seal_history_again.
  - by apply (floor_history_again start end_ w d).
Qed.

Lemma finish_page_keys start end_ w seal done c d d' k :
  finish_page start end_ w seal done c d = Ok d' -> key_rows d' k = key_rows d k.
Proof using Hmode.
  unfold finish_page. intros E. destruct done; [|by injection E as <-]. destruct seal.
  - injection E as <-. apply seal_history_keys.
  - by eapply (floor_history_keys s Hmode).
Qed.

(** The log position is only recorded. *)
Lemma import_position start end_ rows w seal done d :
  exists r, forall a, apply_range_import s d start end_ rows w seal done a =
    match r with Ok (n, d2) => (Ok n, insert_last_applied a d2) | Err e => (Err e, d) end.
Proof using Hmode.
  unfold apply_range_import, backend_write. destruct (decide (revision_mode s = ModeCommitTs)); [|done].
  destruct (_ && _); [by eexists (Err _)|]. destruct (check_import_rows _ _ _ _ _); [|by eexists (Err _)].
  destruct (import_rows s rows d) as [[n d1]|]; [|by eexists (Err _)]. cbn [mbind result_bind].
  destruct (if done then _ else _) as [d2|]; [by exists (Ok (n, d2))|by eexists (Err _)].
Qed.

Lemma import_again start end_ rows w seal done d a a' n d1 :
  in_u64 w -> Forall (fun x : VersionedKv => meta_wf x.2) rows ->
  apply_range_import s d start end_ rows w seal done a = (Ok n, d1) ->
  apply_range_import s d1 start end_ rows w seal done a' = (Ok 0, insert_last_applied a' d1).
Proof using Hmode Hbar fl.
  intros Hw Hwf. unfold apply_range_import. rewrite !(decide_True _ _ Hmode).
  destruct (_ && _); [done|].
  destruct (check_import_rows start end_ w [] rows) as [[]|] eqn:Ec; [|done].
  apply check_import_rows_nodup in Ec as [Hnd _]. unfold backend_write.
  destruct (import_rows s rows d) as [[n' d0]|] eqn:Ei; [|done]. cbn [mbind result_bind].
  destruct (import_rows_settle s rows Hbar d n' d0 Hnd Hwf Ei) as (Ht & Hs & _).
  destruct (keys_touched_marks s d d0 Hmode Ht) as (Hc & _). rewrite <-Hc.
  fold (finish_page start end_ w seal done (current_revision s d0) d0).
  destruct (finish_page start end_ w seal done (current_revision s d0) d0) as [d2|] eqn:Ef; [|done].
  cbn [mbind result_bind]. intros [= <- <-]. rewrite import_rows_settled.
  2: { eapply Forall_impl; [exact Hs|]. intros x Hx. eapply settled_rows; [|exact Hx].
       rewrite key_rows_last_applied. by eapply finish_page_keys. }
  cbn [mbind result_bind].
  fold (finish_page start end_ w seal done (current_revision s (insert_last_applied a d2)) (insert_last_applied a d2)).
  rewrite (finish_page_again start end_ w seal done d0 d2 a Hw Ef). reflexivity.
Qed.

Lemma import_replayable start end_ rows w seal done d :
  in_u64 w -> Forall (fun x : VersionedKv => meta_wf x.2) rows ->
  replayable (fun d a => apply_range_import s d start end_ rows w seal done a) d.
Proof using Hmode Hbar fl.
  intros Hw Hwf. destruct (import_position start end_ rows w seal done d) as [[[n d2]|e] Hr].
  - left. exists n. intros a. rewrite Hr. split; [done|]. intros a'. exists 0. rewrite Hr. cbn [snd].
    rewrite (import_again start end_ rows w seal done d a a' n _ Hw Hwf (Hr a)).
    by rewrite insert_last_applied_twice.
  - right. by exists e.
Qed.

(** Importing a page again changes nothing.  After a page has been imported,
    applying the same command at another log position answers zero rows and
    changes only the log position, in a split and in a merge, whether the page is
    the last or not. *)
Theorem range_import_replays start end_ rows w seal done d a a' n d1 :
  in_u64 w -> Forall (fun x : VersionedKv => meta_wf x.2) rows ->
  apply_range_import s d start end_ rows w seal done a = (Ok n, d1) ->
  apply_range_import s d1 start end_ rows w seal done a' = (Ok 0, insert_last_applied a' d1).
Proof using Hmode Hbar fl. apply import_again. Qed.

End replay.

(** The rows an import accepts lie in the range. *)
Lemma check_import_rows_in_range start end_ w rows : forall seen,
  check_import_rows start end_ w seen rows = Ok tt ->
  Forall (fun x => in_range start end_ (row_key x) = true) rows.
Proof.
  induction rows as [|[[k v] m] rows IH]; intros seen E; [constructor|].
  cbn [check_import_rows] in E. destruct (_ || _) eqn:Er in E; [done|].
  repeat (match type of E with (if ?c then _ else _) = _ => destruct c end; [done|]).
  constructor; [|by eapply IH]. apply orb_false_iff in Er as [H1 H2]. cbn [fst].
  unfold in_range, bytes_leb at 1. rewrite H1. simpl. destruct (bytes_eqb end_ []); [done|].
  simpl in H2. unfold bytes_leb in H2. by apply negb_false_iff in H2.
Qed.

(** ** The copy *)

(** The key is in [dst] as it is in [src]: live with the same value and metadata,
    or not there. *)
Definition copied (s target : MvccStorage) (src dst : db) (k : bytes) : Prop :=
  (exists v m, live_row s src (k, v, m) /\ holds target dst (k, v, m)) \/
  ((forall m, get_kv_metadata src k = Some m -> deleted m = true) /\ absent dst k).

Lemma copied_rows s target src dst dst' k :
  key_rows dst' k = key_rows dst k -> copied s target src dst k -> copied s target src dst' k.
Proof.
  intros E [(v & m & ? & ?)|[? ?]]; [left; exists v, m; split; [done|]|right; split; [done|congruence]].
  by eapply holds_rows.
Qed.

Lemma copied_source_rows s target src src' dst k :
  key_rows src' k = key_rows src k -> copied s target src dst k -> copied s target src' dst k.
Proof.
  intros E. assert (tx_get src' TABLE_KV (encode_kv_key k) = tx_get src TABLE_KV (encode_kv_key k)) as Ek
    by (by injection E).
  unfold copied, live_row. by rewrite Ek, (key_rows_metadata _ _ _ E).
Qed.

Section copy.
Context {fc : FloorCodec} {fl : FloorCodecLaws fc} {pd : Postcard SequencerDecision}.
Context (s target : MvccStorage) (page_size : nat) (start end_ : bytes) (seal : bool).
Context (Hmode : revision_mode target = ModeCommitTs) (Hbar : rep_barrier target).

(** What else happens to the target leaves the range alone. *)
Definition apart (v : PageView) : Prop :=
  forall d k, in_range start end_ k = true -> key_rows (pv_between v d) k = key_rows d k.

Abbreviation next_key after k := (in_range start end_ k = true /\ above after k).

(** The effect of one page on the target. *)
Lemma page_import v after expected page d w done a :
  from_option (fun a => bytes_le start a) True after ->
  export_range_page s (pv_source v) start end_ after page_size expected = Ok page -> in_u64 w ->
  (forall k, next_key after k -> absent d k) ->
  match apply_range_import target d start end_ (page_rows page) w seal done a with
  | (Ok _, d') =>
    (forall k, next_key after k -> from_option (fun a => ~ bytes_lt a k) True (next_after page) ->
       copied s target (pv_source v) d' k) /\
    (forall k, above (next_after page) k -> is_Some (next_after page) -> key_rows d' k = key_rows d k) /\
    (forall k, key_rows d' k = key_rows d k \/
       next_key after k /\ exists v m, holds target d' (k, v, m)) /\
    page_marks target (done && seal) w d d'
  | (Err _, d') => d' = d
  end.
Proof using Hmode Hbar.
  intros Ha E Hw Habs. destruct (export_page_spec _ _ _ _ _ _ _ _ Ha E) as [[_ Hrows Hs Hc Hn] _].
  rewrite Forall_forall in Hrows.
  pose proof (apply_range_import_fresh target Hmode Hbar d start end_ (page_rows page) w seal done a Hw)
    as Hi. destruct (apply_range_import _ _ _ _ _ _ _ _ _) as [[n|e] d'].
  2: { apply Hi; [by apply (StronglySorted_NoDup_fmap row_key bytes_lt)|].
       apply Forall_forall. intros [[k x] m] Hx. destruct (Hrows _ Hx) as (Hl & ? & ?).
       split; [by apply Habs|]. destruct Hl as [Hl _]. by eapply get_kv_metadata_wf. }
  destruct Hi as (_ & Hh & Ho & Hm).
  { by apply (StronglySorted_NoDup_fmap row_key bytes_lt). }
  { apply Forall_forall. intros [[k x] m] Hx. destruct (Hrows _ Hx) as (Hl & ? & ?).
    split; [by apply Habs|]. destruct Hl as [Hl _]. by eapply get_kv_metadata_wf. }
  rewrite Forall_forall in Hh.
  assert (forall k, k ∈ row_key <$> page_rows page -> next_key after k /\
    exists x m, live_row s (pv_source v) (k, x, m) /\ holds target d' (k, x, m)) as Hin.
  { intros k ([[k' x] m] & -> & Hx)%list_elem_of_fmap. destruct (Hrows _ Hx) as (? & ? & ?).
    split; [done|]. exists x, m. split; [done|]. by apply Hh. }
  split_and!.
  - intros k Hk Hlast. destruct (decide (k ∈ row_key <$> page_rows page)) as [Hr|Hr].
    { left. by apply Hin. }
    right. split; [|rewrite Ho by done; by apply Habs]. intros m Hmeta.
    destruct (deleted m) eqn:Ed; [done|].
    destruct (Hc k m) as [?|(z & Ez & Hlt)]; [by apply Hk..|done|done|done|].
    rewrite Ez in Hlast. simpl in Hlast. done.
  - intros k Hk [z Ez]. apply Ho. rewrite Ez in Hk. simpl in Hk.
    destruct (Hn z Ez) as (_ & x & El & <-). intros (y & -> & Hy)%list_elem_of_fmap.
    destruct (StronglySorted_last _ _ _ _ Hs El Hy) as [->|Hlt].
    + by apply (irreflexivity bytes_lt (row_key x)).
    + apply (irreflexivity bytes_lt (row_key x)). by etransitivity.
  - intros k. destruct (decide (k ∈ row_key <$> page_rows page)) as [Hr|Hr]; [|by left; apply Ho].
    right. destruct (Hin k Hr) as [? (x & m & _ & ?)]. split; [done|]. by exists x, m.
  - done.
Qed.

Lemma page_replayable v after expected page d w done :
  from_option (fun a => bytes_le start a) True after ->
  export_range_page s (pv_source v) start end_ after page_size expected = Ok page -> in_u64 w ->
  replayable (fun d a => apply_range_import target d start end_ (page_rows page) w seal done a) d.
Proof using Hmode Hbar fl.
  intros Ha E Hw. apply import_replayable; [done..|].
  destruct (export_page_spec _ _ _ _ _ _ _ _ Ha E) as [[_ Hrows _ _ _] _].
  eapply Forall_impl; [exact Hrows|]. intros [[k x] m] ([Hl _] & _). by eapply get_kv_metadata_wf.
Qed.

Lemma pinned_range v after wm page :
  from_option (fun a => bytes_le start a) True after -> from_option in_u64 True wm ->
  export_range_page s (pv_source v) start end_ after page_size wm = Ok page ->
  in_u64 (default (page_revision page) wm).
Proof using Type.
  intros Ha Hwm E. destruct wm; [done|]. simpl.
  destruct (export_page_spec _ _ _ _ _ _ _ _ Ha E) as [[-> _ _ _ _] _]. apply current_revision_range.
Qed.

(** The first step of the loop, when it gets as far as the import. *)
Lemma import_loop_cons v views after wm d w d' :
  from_option (fun a => bytes_le start a) True after -> from_option in_u64 True wm ->
  import_loop s target page_size start end_ seal (v :: views) after wm d = (inl w, d') ->
  exists page pinned a n d1, export_range_page s (pv_source v) start end_ after page_size wm = Ok page /\
    pinned = default (page_revision page) wm /\
    apply_range_import target (pv_between v d) start end_ (page_rows page) pinned seal
      (match next_after page with None => true | Some _ => false end) a = (Ok n, d1) /\
    (seal = true -> after = None ->
     require_no_pending_decision (pv_log v) (last_applied_decision_ts (pv_cursor v)) pinned = None) /\
    match next_after page with
    | None => w = pinned /\ d' = d1
    | Some z => import_loop s target page_size start end_ seal views (Some z) (Some pinned) d1
                = (inl w, d')
    end.
Proof using Hmode Hbar fl.
  intros Ha Hwm E. cbn [import_loop] in E.
  destruct (export_range_page _ _ _ _ _ _ _) as [page|] eqn:Ep; [|done]. cbv zeta in E.
  set (pinned := default (page_revision page) wm) in *.
  destruct (if seal && bool_decide (after = None) then _ else _) eqn:Eb; [done|].
  destruct (propose _ _ _ _) as [[n|] d1] eqn:Ei; [|done].
  apply propose_outcome in Ei as [(a & n' & Ei)|[_ [? ?]]];
    [|done|by eapply page_replayable, pinned_range].
  exists page, pinned, a, n', d1.
  do 3 (split; [done|]). split.
  { intros -> ->. by rewrite bool_decide_eq_true_2 in Eb. }
  destruct (next_after page) as [z|]; [done|]. by injection E as <- <-.
Qed.

(** Success: every key not yet copied is copied from a source at the pinned
    revision, and the ones before stay. *)
Lemma import_loop_copies views : forall after wm d w d',
  from_option (fun a => bytes_le start a) True after -> from_option in_u64 True wm ->
  Forall apart views -> (forall k, next_key after k -> absent d k) ->
  import_loop s target page_size start end_ seal views after wm d = (inl w, d') ->
  from_option (eq w) True wm /\
  (forall k, next_key after k -> exists v, v ∈ views /\
     current_revision s (pv_source v) = w /\ copied s target (pv_source v) d' k) /\
  (forall k, in_range start end_ k = true -> ~ above after k -> key_rows d' k = key_rows d k).
Proof using Hmode Hbar fl.
  induction views as [|v views IH]; intros after wm d w d' Ha Hwm Hap Habs E; [done|].
  apply Forall_cons in Hap as [Hv Hap].
  apply import_loop_cons in E as (page & pinned & a & n & d1 & Ep & Epin & Ei & _ & E); [|done..].
  destruct (export_page_spec _ _ _ _ _ _ _ _ Ha Ep) as [Hps Hrev].
  assert (in_u64 pinned) as Hp by (subst pinned; by eapply pinned_range).
  assert ((exists k, next_key after k) -> current_revision s (pv_source v) = pinned) as Hcur.
  { intros H%Hrev. subst pinned. destruct wm; [done|]. simpl.
    by rewrite (ps_revision _ _ _ _ _ _ _ Hps). }
  assert (forall k, next_key after k -> absent (pv_between v d) k) as Habs'
    by (intros k Hk; rewrite Hv by apply Hk; by apply Habs).
  pose proof (page_import v after wm page _ pinned
    (match next_after page with None => true | Some _ => false end) a Ha Ep Hp Habs') as Hpage. rewrite Ei in Hpage.
  destruct Hpage as (Hc & Hlater & Hrow & _).
  assert (forall k, ~ next_key after k -> key_rows d1 k = key_rows (pv_between v d) k) as Hkeep
    by (intros k Hk; destruct (Hrow k) as [?|[? _]]; tauto).
  destruct (next_after page) as [z|] eqn:Ez.
  - assert (in_range start end_ z = true /\ above after z) as [Hz Hza].
    { destruct (ps_next _ _ _ _ _ _ _ Hps z Ez) as (_ & x & Hx%last_Some_elem_of & <-).
      pose proof (ps_rows _ _ _ _ _ _ _ Hps) as Hr. rewrite Forall_forall in Hr.
      destruct (Hr x Hx) as (_ & ? & ?). done. }
    assert (forall k, bytes_lt z k -> above after k) as Hmono.
    { intros k Hk. destruct after as [a'|]; [|done]. simpl in *. by etransitivity. }
    destruct (IH (Some z) (Some pinned) d1 w d') as (Hw & Hnew & Hold); [|done|done| |done|].
    { by apply in_range_spec in Hz as [? _]. }
    { intros k [Hk Hzk]. rewrite Hlater by done. rewrite Hv by done. apply Habs.
      split; [done|by apply Hmono]. }
    simpl in Hw. split; [by destruct wm; subst|]. split.
    + intros k Hk. destruct (bytes_ltb_spec z k) as [Hzk|Hzk].
      * destruct (Hnew k) as (v' & ? & ?); [by split; [apply Hk|]|]. exists v'. by split; [right|].
      * exists v. split; [by left|]. split; [rewrite Hw; by apply Hcur; exists k|].
        eapply copied_rows; [apply Hold; [apply Hk|done]|]. by apply Hc.
    + intros k Hk Hna. rewrite Hold; [|done|by intros ?%Hmono].
      rewrite Hkeep by tauto. by apply Hv.
  - destruct E as [-> ->]. split; [by destruct wm; subst|]. split.
    + intros k Hk. exists v. split; [by left|]. split; [by apply Hcur; exists k|]. by apply Hc.
    + intros k Hk Hna. rewrite Hkeep by tauto. by apply Hv.
Qed.

Lemma import_pages_copied expected reset before polls views d w d' :
  Forall apart views -> from_option in_u64 True expected ->
  (forall k, in_range start end_ k = true ->
     is_Some (key_rows d k).2 -> is_Some (key_rows d k).1) ->
  import_pages s target page_size start end_ seal expected reset before polls views d = (inl w, d') ->
  from_option (eq w) True expected /\
  forall k, in_range start end_ k = true -> exists v, v ∈ views /\
    current_revision s (pv_source v) = w /\ copied s target (pv_source v) d' k.
Proof using Hmode Hbar fl.
  intros Hap Hex Hpair E. unfold import_pages in E.
  destruct (propose _ _ _ _) as [[n|] d1] eqn:Ep; [|done].
  apply propose_outcome in Ep as [(a & n' & Ep)|[_ [? ?]]]; [|done|by apply clear_replayable].
  destruct (clear_range_spec target d start end_ a Hmode) as (n0 & d0 & Ec & _ & _ & _ & Habs).
  rewrite Ep in Ec. injection Ec as <- <-. destruct (match expected with None => _ | Some _ => _ end); [done|].
  destruct (import_loop_copies views None expected d1 w d') as (? & H & _); [done|done|done| |done|].
  { intros k [Hk _]. by apply Habs; [|apply Hpair]. }
  split; [done|]. intros k Hk. by apply H.
Qed.

(** A migration copies the range.  If it reports success at a revision, every
    key of the range is in the target exactly as in a source at that revision:
    live with the same value and metadata, or not there.  The source may move
    while the pages are read, and other commands may be applied to the target
    outside the range; whatever an earlier attempt left in the range is gone. *)
Theorem migration_copies_range expected reset before polls views d w d' :
  Forall apart views -> from_option in_u64 True expected ->
  (forall k, in_range start end_ k = true ->
     is_Some (key_rows d k).2 -> is_Some (key_rows d k).1) ->
  import_pages s target page_size start end_ seal expected reset before polls views d = (inl w, d') ->
  from_option (eq w) True expected /\
  forall k, in_range start end_ k = true -> exists v, v ∈ views /\
    current_revision s (pv_source v) = w /\ copied s target (pv_source v) d' k.
Proof using Hmode Hbar fl. apply import_pages_copied. Qed.

End copy.
