(* ===== verification/MigrationSplit.v ===== *)
(** * A split hands over the decision log, a merge joins the reads

    The Region created by a split starts with the rows of its range at a
    revision of the parent and continues from there: it represents the part of
    the parent's history that concerns its keys, and follows the decision log.
    The receiver of a merge keeps serving its own range while the rows of the
    donor come in; when the migrator reports success both have applied the same
    decisions, and the receiver reads what the log decides in the range of
    both. *)

From S2P Require Export MigrationCopy.

Local Open Scope Z_scope.

Section target.
Context {fc : FloorCodec} {fl : FloorCodecLaws fc} {pd : Postcard SequencerDecision}.
Context (s target : MvccStorage) (page_size : nat) (start end_ : bytes).
Context (Hmode : revision_mode target = ModeCommitTs) (Hbar : rep_barrier target).

(** A target that has seen nothing but attempts of this split, at revisions up
    to [w]. *)
Record ready (w : Z) (d : db) : Prop := {
  rd_log : changelog_rows d = [];
  rd_outside : forall k, in_range start end_ k = false -> absent d k;
  rd_paired : forall k, is_Some (key_rows d k).2 -> is_Some (key_rows d k).1;
  rd_current : current_revision target d <= w;
  rd_compacted : compacted_revision d <= w;
  rd_cursor : last_applied_decision_ts d <= w }.

(** The marks of a target whose import is complete. *)
Definition sealed_at (w : Z) (d : db) : Prop :=
  current_revision target d = w /\ compacted_revision d = w /\ last_applied_decision_ts d = w.

Abbreviation next_key after k := (in_range start end_ k = true /\ above after k).

Lemma page_ready v after expected page d w done a :
  from_option (fun a => bytes_le start a) True after ->
  export_range_page s (pv_source v) start end_ after page_size expected = Ok page -> in_u64 w ->
  (forall k, next_key after k -> absent d k) -> ready w d ->
  let r := apply_range_import target d start end_ (page_rows page) w true done a in
  ready w r.2 /\ (forall n, r.1 = Ok n -> done = true -> sealed_at w r.2).
Proof using Hmode Hbar.
  intros Ha E Hw Habs Hrd r. subst r.
  pose proof (page_import s target page_size start end_ true Hmode Hbar v after expected page d w done a
    Ha E Hw Habs) as Hp.
  destruct (apply_range_import _ _ _ _ _ _ _ _ _) as [[n|e] d']; cbn [fst snd]; [|by rewrite Hp].
  destruct Hp as (_ & _ & Hrow & (Hlog & Hm)). cbv zeta in Hm. rewrite andb_true_r in Hm.
  destruct Hrd as [R1 R2 R3 R4 R5 R6]. destruct Hm as (M1 & M2 & M3).
  split; [split|].
  - rewrite <-R1. by apply iter_prefix_same.
  - intros k Hk. destruct (Hrow k) as [->|[[? _] _]]; [by apply R2|congruence].
  - intros k. destruct (Hrow k) as [->|[_ (x & m & _ & raw & Hraw & _)]]; [by apply R3|].
    intros _. cbn [fst snd] in Hraw. simpl. rewrite Hraw. by eexists.
  - rewrite M1. destruct done; lia.
  - rewrite M2. destruct done; lia.
  - rewrite M3. destruct done; lia.
  - intros _ _ ->. split_and!; [rewrite M1|rewrite M2|rewrite M3]; lia.
Qed.

(** Nothing else is applied to the target. *)
Definition quiet (v : PageView) : Prop := forall d, pv_between v d = d.

Lemma quiet_apart v : quiet v -> apart start end_ v.
Proof using Type. intros H d k _. by rewrite H. Qed.

(** The revision the migration is pinned to. *)
Definition pins (wm : option Z) (views : list PageView) (w : Z) : Prop :=
  match wm with
  | Some w' => w' = w
  | None => from_option (fun v => current_revision s (pv_source v) = w) True (head views)
  end.

Lemma import_loop_ready views : forall after wm d w r d',
  from_option (fun a => bytes_le start a) True after -> in_u64 w -> pins wm views w ->
  Forall quiet views -> (forall k, next_key after k -> absent d k) -> ready w d ->
  import_loop s target page_size start end_ true views after wm d = (r, d') ->
  ready w d' /\ (forall w', r = inl w' -> w' = w /\ sealed_at w d').
Proof using Hmode Hbar fl.
  induction views as [|v views IH]; intros after wm d w r d' Ha Hw Hpin Hq Habs Hrd E;
    cbn [import_loop] in E; [by injection E as <- <-|].
  apply Forall_cons in Hq as [Hv Hq].
  destruct (export_range_page _ _ _ _ _ _ _) as [page|] eqn:Ep; [|by injection E as <- <-].
  destruct (export_page_spec _ _ _ _ _ _ _ _ Ha Ep) as [Hps _].
  assert (default (page_revision page) wm = w) as Epin.
  { destruct wm; [done|]. simpl in *. by rewrite (ps_revision _ _ _ _ _ _ _ Hps). }
  cbv zeta in E. rewrite Epin, Hv in E.
  destruct (if true && bool_decide (after = None) then _ else _); [by injection E as <- <-|].
  pose proof (fun a => page_ready v after wm page d w
    (match next_after page with None => true | Some _ => false end) a Ha Ep Hw Habs Hrd) as Hpage.
  pose proof (fun a => page_import s target page_size start end_ true Hmode Hbar v after wm page d w
    (match next_after page with None => true | Some _ => false end) a Ha Ep Hw Habs) as Hrows.
  destruct (propose _ _ _ _) as [o d1] eqn:Ei.
  apply propose_outcome in Ei as [(a & n & Ei)|[-> [e ->]]];
    [|by injection E as <- <-|by eapply page_replayable].
  specialize (Hpage a). specialize (Hrows a). cbv zeta in Hpage. rewrite Ei in Hpage, Hrows.
  cbn [fst snd] in Hpage. destruct Hpage as [Hr1 Hdone], Hrows as (_ & Hlater & _).
  destruct o as [n'|e]; [|by injection E as <- <-].
  destruct (next_after page) as [z|] eqn:Ez.
  - destruct (ps_next _ _ _ _ _ _ _ Hps z Ez) as (_ & x & Hx%last_Some_elem_of & Hxz).
    pose proof (ps_rows _ _ _ _ _ _ _ Hps) as Hr. rewrite Forall_forall in Hr.
    destruct (Hr x Hx) as (_ & Hxr & Hxa). rewrite Hxz in Hxr, Hxa.
    apply (IH (Some z) (Some w) d1 w r d'); [|done..| |done|done].
    + by apply in_range_spec in Hxr as [? _].
    + intros k [Hk Hzk]. rewrite Hlater by done. apply Habs. split; [done|].
      destruct after; [|done]. simpl in *. by etransitivity.
  - injection E as <- <-. split; [done|]. intros w' [= <-]. split; [done|]. by eapply Hdone.
Qed.

(** The same for a whole attempt. *)
Lemma import_pages_ready reset before polls views d w r d' :
  in_u64 w -> pins None views w -> Forall quiet views -> ready w d ->
  import_pages s target page_size start end_ true None reset before polls views d = (r, d') ->
  ready w d' /\ (forall w', r = inl w' -> w' = w /\ sealed_at w d').
Proof using Hmode Hbar fl.
  intros Hw Hpin Hq Hrd E. unfold import_pages in E.
  assert (forall a, exists n d1, clear_imported_range target d start end_ a = (Ok n, d1) /\
    ready w d1 /\ forall k, in_range start end_ k = true -> absent d1 k) as Hclear.
  { intros a. destruct (clear_range_spec target d start end_ a Hmode) as (n & d1 & Ec & Ht & Hout & _ & Hin).
    destruct (keys_touched_marks target d d1 Hmode Ht) as (E1 & E2 & E3 & E4 & _).
    destruct Hrd as [R1 R2 R3 R4 R5 R6].
    exists n, d1. split; [done|]. split; [|intros k Hk; by apply Hin; [|apply R3]].
    split; [congruence| | |congruence..].
    - intros k Hk. rewrite Hout by done. by apply R2.
    - intros k. destruct (in_range start end_ k) eqn:Hk.
      + rewrite (Hin k Hk) by apply R3. by intros [? ?].
      + rewrite (Hout k Hk). apply R3. }
  destruct (propose _ _ _ _) as [o d1] eqn:Ep.
  apply propose_outcome in Ep as [(a & n & Ep)|[-> [e ->]]];
    [|by injection E as <- <-|by apply clear_replayable].
  destruct (Hclear a) as (n0 & d0 & Ec & Hr1 & Habs). rewrite Ep in Ec. injection Ec as <- <-.
  destruct o as [n'|]; [|by injection E as <- <-].
  destruct (wait_for_decision_barrier _ _); [by injection E as <- <-|].
  eapply import_loop_ready; [..|exact E]; try done. intros k [Hk _]. by apply Habs.
Qed.

End target.

(** ** The history of the range *)

Section restrict.
Context (start end_ : bytes).

Definition restrict_event (e : ChangeEvent) : ChangeEvent :=
  {| revision := revision e;
     changes := List.filter (fun c => in_range start end_ (ch_key c)) (changes e);
     event_type := event_type e |}.

Abbreviation restrict := (fmap restrict_event).

Lemma apply_changes_restrict k v cs :
  apply_changes k v (List.filter (fun c => in_range start end_ (ch_key c)) cs) =
  if in_range start end_ k then apply_changes k v cs else v.
Proof.
  unfold apply_changes. revert v. induction cs as [|c cs IH]; intros v; simpl; [by destruct (in_range _ _ _)|].
  destruct (in_range start end_ (ch_key c)) eqn:Ec; simpl; rewrite IH.
  - destruct (in_range start end_ k) eqn:Ek; [done|]. unfold apply_change.
    destruct (bytes_eqb_spec (ch_key c) k); [congruence|done].
  - destruct (in_range start end_ k) eqn:Ek; [|done]. unfold apply_change at 3.
    destruct (bytes_eqb_spec (ch_key c) k); [congruence|done].
Qed.

Lemma value_at_restrict h k T :
  value_at (restrict h) k T = if in_range start end_ k then value_at h k T else None.
Proof.
  induction h as [|e h IH] using rev_ind; [by destruct (in_range _ _ _)|].
  rewrite fmap_app. cbn [fmap list_fmap]. rewrite !value_at_snoc, IH. cbn [restrict_event revision changes].
  rewrite apply_changes_restrict. by destruct (in_range start end_ k), (revision e <=? T).
Qed.

Lemma latest_restrict h k :
  latest (restrict h) k = if in_range start end_ k then latest h k else None.
Proof.
  induction h as [|e h IH] using rev_ind; [by destruct (in_range _ _ _)|].
  rewrite fmap_app. cbn [fmap list_fmap]. rewrite !latest_snoc, IH. cbn [restrict_event changes].
  rewrite apply_changes_restrict. by destruct (in_range start end_ k).
Qed.

Lemma touched_restrict h k r :
  in_range start end_ k = true -> touched_at h k r -> touched_at (restrict h) k r.
Proof.
  intros Hk (e & He & Hr & (c & -> & Hc)%list_elem_of_fmap). exists (restrict_event e).
  split; [by apply (list_elem_of_fmap_2 restrict_event)|]. split; [done|].
  apply (list_elem_of_fmap_2 ch_key), elem_of_List_filter. done.
Qed.

Lemma restrict_wf h : Forall event_wf h -> Forall event_wf (restrict h).
Proof.
  intros H. rewrite Forall_fmap. eapply Forall_impl; [exact H|].
  intros e (? & Hl & Hc). split; [done|]. simpl. split.
  - pose proof (List.filter_length_le (fun c => in_range start end_ (ch_key c)) (changes e)).
    unfold in_u32 in *. lia.
  - rewrite Forall_forall in *. intros c [_ ?]%elem_of_List_filter. auto.
Qed.

Lemma restrict_sorted h : StronglySorted event_lt h -> StronglySorted event_lt (restrict h).
Proof.
  induction 1 as [|e h Hs IH He]; [constructor|]. rewrite fmap_cons. constructor; [done|].
  by rewrite Forall_fmap.
Qed.

End restrict.

(** A copied key represents its history from the pinned revision on. *)
Lemma copied_key_rep s target src dst start end_ h w k :
  mvcc_rep s src h -> current_revision s src = w -> in_range start end_ k = true ->
  copied s target src dst k -> key_rep target dst w w (restrict_event start end_ <$> h) k.
Proof.
  intros Hrep Hw Hk Hc. pose proof (rep_keys _ _ _ Hrep k) as Hs. unfold key_rep in *.
  assert (forall T, w <= T -> value_at h k T = latest h k) as Hlate.
  { intros T HT. apply value_at_latest. eapply Forall_impl; [apply (rep_le _ _ _ Hrep)|]. simpl. lia. }
  rewrite latest_restrict, Hk.
  destruct Hc as [(v & mt & (Em & Ed & raw & Eraw & Ev) & Em' & raw' & Eraw' & Ev')|[Hdel Habs]].
  - cbn [fst snd] in *. rewrite Em in Hs. rewrite Em', Eraw'. unfold key_ok in *. rewrite Ed in *.
    destruct Hs as ((Hcr & Ht) & _ & (raw2 & v2 & E2 & Ep & El)).
    split_and!; [lia|by apply touched_restrict|lia|].
    exists raw', v. split; [done|]. split; [done|]. rewrite El. congruence.
  - injection Habs as Hkv Hmeta. unfold get_kv_metadata at 1. rewrite Hmeta, Hkv. cbn [mbind option_bind].
    assert (latest h k = None) as HL.
    { destruct (get_kv_metadata src k) as [mt|] eqn:Em; unfold key_ok in Hs; [|by apply Hs].
      destruct Hs as (_ & _ & Hs). rewrite (Hdel mt eq_refl) in Hs. by apply Hs. }
    split; [done|]. split; [done|]. intros T HT. rewrite value_at_restrict, Hk. by rewrite Hlate.
Qed.

(** A target whose import is complete represents the history of its range. *)
Lemma sealed_rep s target start end_ d h w :
  ready target start end_ w d -> sealed_at target w d ->
  StronglySorted event_lt h -> Forall event_wf h -> Forall (fun e => 0 < revision e <= w) h ->
  (forall k, in_range start end_ k = true -> exists src, mvcc_rep s src h /\
     current_revision s src = w /\ copied s target src d k) ->
  mvcc_rep target d (restrict_event start end_ <$> h).
Proof.
  intros Hrd (Hcur & Hcomp & _) Hs Hwf Hle Hk. split; rewrite ?Hcur, ?Hcomp.
  - by apply restrict_sorted.
  - by apply restrict_wf.
  - rewrite Forall_fmap. eapply Forall_impl; [exact Hle|]. simpl. lia.
  - lia.
  - rewrite (rd_log _ _ _ _ _ Hrd). unfold retained.
    destruct (List.filter _ _) as [|e l] eqn:E; [done|exfalso].
    assert (e ∈ e :: l) as He by left. rewrite <-E in He.
    apply elem_of_List_filter in He as [Hf%Z.leb_le (e0 & -> & He0)%list_elem_of_fmap].
    rewrite Forall_forall in Hle. specialize (Hle e0 He0). simpl in Hf.
    assert (log_from d = w + 1) as Hlf; [|lia].
    unfold log_from. rewrite Hcomp. destruct (Z.eqb_spec w 0); [lia|]. simpl.
    destruct (changelog_contains_revision d w) eqn:Ec; [|done].
    unfold changelog_contains_revision in Ec. apply bool_decide_eq_true in Ec as [x Hx].
    assert ((encode_changelog_key w, x) ∈ changelog_rows d) as Hin.
    { apply elem_of_iter_prefix. split; [done|]. by eexists. }
    rewrite (rd_log _ _ _ _ _ Hrd) in Hin. by apply elem_of_nil in Hin.
  - intros k. destruct (in_range start end_ k) eqn:Hr.
    + destruct (Hk k Hr) as (src & ? & ? & ?). by eapply copied_key_rep.
    + pose proof (rd_outside _ _ _ _ _ Hrd k Hr) as Habs. injection Habs as Hkv Hmeta.
      unfold key_rep, get_kv_metadata, key_ok. rewrite Hmeta, Hkv. cbn [mbind option_bind].
      split; [done|]. rewrite latest_restrict, Hr. split; [done|].
      intros T _. by rewrite value_at_restrict, Hr.
Qed.

Section split.
Context {fc : FloorCodec} {fl : FloorCodecLaws fc} {sha : Sha256} {pd : Postcard SequencerDecision}.
Context {pi : Postcard SequencerIntervalWrite} {pld : PostcardLaws SequencerDecision}.
Context {U : bytes -> Prop}.

(** No decision lies between the cursor and the revision. *)
Lemma no_pending_decided log ds c w k T :
  log_rows U log ds -> 0 <= c < u64_max -> require_no_pending_decision log c w = None -> T <= w ->
  decided_value ds k (Z.min T c) = decided_value ds k T.
Proof using pld.
  intros Hlog Hc Hno HT. unfold require_no_pending_decision, next_sequencer_decision_ts in Hno.
  assert (in_u64 (c + 1)) as Hc1 by (unfold in_u64, u64_max in *; lia).
  rewrite (sequencer_decisions_after_rep log ds c 1 Hlog Hc1) in Hno by lia.
  cbn [mbind result_bind] in Hno. fold (pending_decisions c ds) in Hno.
  destruct (sorted_split_above sd_commit_ts c ds (lr_sorted _ _ _ Hlog)) as (old & Eds & Hold).
  change (List.filter _ ds) with (pending_decisions c ds) in Eds.
  assert (Forall (fun dec => w < sd_commit_ts dec) (pending_decisions c ds)) as Hpend.
  { destruct (pending_decisions c ds) as [|x l] eqn:Ep; [constructor|]. simpl in Hno.
    destruct (Z.leb_spec (sd_commit_ts x) w) as [|Hx]; [done|]. constructor; [done|].
    assert (StronglySorted (fun a a' => sd_commit_ts a < sd_commit_ts a') (x :: l)) as Hs.
    { rewrite <-Ep. apply StronglySorted_List_filter, Hlog. }
    apply StronglySorted_inv in Hs as [_ Hs]. eapply Forall_impl; [exact Hs|]. simpl. lia. }
  rewrite Eds, decided_value_upto by (done || apply pending_above).
  change (run_decisions k T old None = run_decisions k T (old ++ pending_decisions c ds) None).
  unfold run_decisions at 2. rewrite foldl_app. fold (run_decisions k T old None).
  pose proof (run_decisions_above k T T (pending_decisions c ds) (run_decisions k T old None)) as Hr.
  rewrite Z.min_id in Hr. symmetry. apply Hr. eapply Forall_impl; [exact Hpend|]. simpl. lia.
Qed.

Lemma value_at_upto h l k T w :
  Forall (fun e => revision e <= w) h -> Forall (fun e => w < revision e) l ->
  value_at (h ++ l) k (Z.min T w) = value_at h k T.
Proof using Type.
  intros Hh Hl. unfold value_at. rewrite foldl_app.
  assert (forall z, foldl (fun v e => if revision e <=? Z.min T w then apply_changes k v (changes e)
    else v) z l = z) as ->.
  { intros z. revert z. induction Hl as [|e l He _ IH]; intros z; [done|]. simpl. rewrite IH.
    destruct (Z.leb_spec (revision e) (Z.min T w)); [lia|done]. }
  generalize (None : option bytes) as z. induction Hh as [|e h He _ IH]; intros z; [done|]. simpl.
  rewrite IH. f_equal.
  destruct (Z.leb_spec (revision e) (Z.min T w)), (Z.leb_spec (revision e) T); done || lia.
Qed.

Context (s target : MvccStorage) (page_size : nat) (child : RegionMeta).
Context (Hmode : revision_mode target = ModeCommitTs) (Hbar : rep_barrier target).

Abbreviation rng f := (f (start_key child) (end_key child)).

(** A store of the parent at or after the moment it represented [h] at revision
    [w]. *)
Definition grown (h : history) (w : Z) (d : db) : Prop :=
  exists l, mvcc_rep s d (h ++ l) /\ Forall (fun e => w < revision e) l.

Lemma grown_same h w d : grown h w d -> current_revision s d = w -> mvcc_rep s d h.
Proof using Type.
  intros (l & Hrep & Hl) Hw. assert (l = []) as ->; [|by rewrite app_nil_r in Hrep].
  destruct l as [|e l]; [done|]. apply Forall_cons in Hl as [He _].
  pose proof (rep_le _ _ _ Hrep) as Hle. rewrite Forall_app, Forall_cons in Hle. lia.
Qed.

(** As before, and the values of the range are those the log decides up to the
    cursor. *)
Definition follows (h : history) (w : Z) (ds : list SequencerDecision) (d : db) : Prop :=
  exists l, mvcc_rep s d (h ++ l) /\ Forall (fun e => w < revision e) l /\
    forall k T, rng in_range k = true ->
      value_at (h ++ l) k T = decided_value ds k (Z.min T (last_applied_decision_ts d)).

(** An attempt that succeeds has checked that no decision is pending. *)
Lemma import_pages_checked reset before polls v views w d w' d' :
  current_revision s (pv_source v) = w ->
  import_pages s target page_size (start_key child) (end_key child) true None reset before polls
    (v :: views) d = (inl w', d') ->
  require_no_pending_decision (pv_log v) (last_applied_decision_ts (pv_cursor v)) w = None.
Proof using Hmode Hbar fl.
  intros Hw E. unfold import_pages in E. destruct (propose _ _ _ _) as [[n|] d1]; [|done].
  destruct (wait_for_decision_barrier _ _); [done|].
  apply import_loop_cons in E as (page & pinned & a & n' & d2 & Ep & -> & _ & Hno & _); [|done..].
  destruct (export_page_spec s (pv_source v) (start_key child) (end_key child) None page_size None page I Ep)
    as [Hps _].
  rewrite <-Hw, <-(ps_revision _ _ _ _ _ _ _ Hps). by apply Hno.
Qed.

(** C5: a split hands over the decision log.  Take a parent whose values are those
    its decision log decides up to its cursor, and any attempt to migrate the
    range of a child while the parent moves on.  If the attempt succeeds, the
    child represents the parent's history of its range, stands at the revision
    of the first page, and follows the log from there: it holds what the log
    decides at every timestamp and replaying the log continues it.  If it fails,
    at whatever point, the target is as good as before for the next attempt. *)
Theorem split_child_follows_log reset before polls v views h w ds d r d' :
  in_u64 w -> current_revision s (pv_source v) = w -> Forall (grown h w ∘ pv_source) (v :: views) ->
  Forall (fun e => 0 < revision e) h ->
  log_rows U (pv_log v) ds -> follows h w ds (pv_cursor v) ->
  last_applied_decision_ts (pv_cursor v) < u64_max ->
  Forall quiet (v :: views) -> rng (ready target) w d ->
  import_pages s target page_size (start_key child) (end_key child) true None reset before polls
    (v :: views) d = (r, d') ->
  rng (ready target) w d' /\
  forall w', r = inl w' -> w' = w /\
    region_follows target child ds d' (restrict_event (start_key child) (end_key child) <$> h) /\
    last_applied_decision_ts d' = w /\ current_revision target d' = w.
Proof using pld fl Hmode Hbar.
  intros Hw Hrev Hgrown Hpos Hlog (l & _ & Hl & Hval) Hcmax Hq Hrd E.
  destruct (import_pages_ready s target page_size (start_key child) (end_key child) Hmode Hbar reset before polls (v :: views) d w r d'
    Hw Hrev Hq Hrd E) as [Hrd' Hok].
  split; [done|]. intros w' ->. destruct (Hok w' eq_refl) as [-> Hseal]. split; [done|].
  assert (mvcc_rep s (pv_source v) h) as Hrep.
  { apply Forall_cons in Hgrown as [Hv _]. by eapply grown_same. }
  destruct (import_pages_copied s target page_size (start_key child) (end_key child) true Hmode Hbar None reset before polls
    (v :: views) d w d') as [_ Hcopied]; [|done|intros k _; apply (rd_paired _ _ _ _ _ Hrd)|done|].
  { eapply Forall_impl; [exact Hq|]. intros x. apply quiet_apart. }
  assert (Forall (fun e => 0 < revision e <= w) h) as Hle.
  { pose proof (rep_le _ _ _ Hrep) as Hle. rewrite Forall_forall in *. rewrite Hrev in Hle.
    intros e He. split; [by apply Hpos|by apply Hle]. }
  assert (mvcc_rep target d' (restrict_event (start_key child) (end_key child) <$> h)) as Hrep'.
  { eapply (sealed_rep s); [done|done|apply Hrep|apply Hrep|done|]. intros k Hk.
    destruct (Hcopied k Hk) as (x & Hx & Hxw & Hc). exists (pv_source x). split; [|done].
    rewrite Forall_forall in Hgrown. by eapply grown_same; [apply Hgrown|]. }
  destruct Hseal as (Hc1 & Hc2 & Hc3). split; [|done]. split; [done|lia|]. intros k T.
  rewrite value_at_restrict, Hc3. change (key_in_region child k) with (rng in_range k).
  destruct (rng in_range k) eqn:Hk; [|done].
  rewrite <-(value_at_upto h l k T w), (Hval k _ Hk); [|by eapply Forall_impl; [exact Hle|simpl; lia]|done].
  eapply no_pending_decided; [exact Hlog| |by eapply import_pages_checked|lia].
  pose proof (read_u64_range (pv_cursor v) DECISION_APPLIED_TS) as Hu.
  fold (last_applied_decision_ts (pv_cursor v)) in Hu. unfold in_u64 in Hu. lia.
Qed.

End split.

(** ** Merges *)

(** The store reads, in the range, what the log decides up to [c]. *)
Definition reads_log (s : MvccStorage) (start end_ : bytes) (ds : list SequencerDecision) (c : Z)
    (d : db) : Prop :=
  forall k, in_range start end_ k = true -> get s d k = Ok (decided_value ds k c).

Lemma get_rows s d d' k : key_rows d' k = key_rows d k -> get s d' k = get s d k.
Proof.
  intros E. unfold get, is_deleted. rewrite (key_rows_metadata d d') by done.
  by injection E as -> _.
Qed.

(** A copied key reads as in the source. *)
Lemma copied_get s target src dst h k :
  mvcc_rep s src h -> copied s target src dst k -> get target dst k = get s src k.
Proof.
  intros Hrep Hc. pose proof (rep_keys _ _ _ Hrep k) as Hk. unfold key_rep, key_ok in Hk.
  destruct Hc as [(v & m & (Em & Ed & raw & Er & Ev) & (Em' & raw' & Er' & Ev'))|[Hdel Habs]].
  - unfold get, is_deleted. cbn [fst snd] in *. rewrite Er, Em, Er', Em'. simpl. by rewrite Ed, Ev, Ev'.
  - injection Habs as Hv _. unfold get, is_deleted. rewrite Hv.
    destruct (get_kv_metadata src k) as [m|] eqn:Em.
    + simpl. rewrite (Hdel m eq_refl). by destruct (tx_get src TABLE_KV (encode_kv_key k)).
    + by destruct Hk as [-> _].
Qed.

Section receiver.
Context {fc : FloorCodec} {fl : FloorCodecLaws fc} {pd : Postcard SequencerDecision}.
Context (s target : MvccStorage) (page_size : nat) (start end_ : bytes).
Context (Hmode : revision_mode target = ModeCommitTs) (Hbar : rep_barrier target).

(** A fact on the receiver that depends on its cursor and on rows outside the
    range only. *)
Context (P : db -> Prop).
Context (HP : forall d d', P d -> last_applied_decision_ts d' = last_applied_decision_ts d ->
  (forall k, in_range start end_ k = false -> key_rows d' k = key_rows d k) -> P d').

Lemma page_keeps rows w done d a n d' :
  Forall (fun x : VersionedKv => meta_wf x.2) rows -> P d ->
  apply_range_import target d start end_ rows w false done a = (Ok n, d') -> P d'.
Proof using Hmode Hbar HP.
  intros Hwf Hd E. unfold apply_range_import in E. rewrite decide_True in E by done.
  destruct (_ && _); [done|]. destruct (check_import_rows _ _ _ _ _) as [[]|] eqn:Ec; [|done].
  destruct (check_import_rows_nodup _ _ _ _ _ Ec) as [Hnd _]. unfold backend_write in E.
  destruct (import_rows target rows d) as [[n1 d1]|] eqn:Ei; cbn [mbind result_bind] in E; [|done].
  destruct (import_rows_settle target rows Hbar d n1 d1 Hnd Hwf Ei) as (Ht & _ & Ho).
  destruct (keys_touched_marks target d d1 Hmode Ht) as (_ & _ & Hl & _).
  assert (forall k, in_range start end_ k = false -> key_rows d1 k = key_rows d k) as Hk.
  { intros k Hk. apply Ho. intros (x & -> & Hx)%list_elem_of_fmap.
    pose proof (check_import_rows_in_range _ _ _ _ _ Ec) as Hr. rewrite Forall_forall in Hr.
    by rewrite Hr in Hk. }
  fold (finish_page start end_ w false done (current_revision target d) d1) in E.
  destruct (finish_page _ _ _ _ _ _ _) as [d2|] eqn:Ef; cbn [mbind result_bind] in E; [|done].
  injection E as _ <-. apply (HP d); [done| |].
  - rewrite <-Hl. destruct (keys_touched_marks target d2 (insert_last_applied a d2) Hmode) as (_ & _ & -> & _).
    { apply keys_touched_insert, key_row_applied. }
    unfold finish_page in Ef. destruct done; [|by injection Ef as <-].
    by destruct (floor_history_keys target Hmode start end_ w d1 d2 [] Ef) as [_ (_ & _ & _ & ?)].
  - intros k Hr. rewrite key_rows_last_applied, (finish_page_keys target Hmode _ _ _ _ _ _ _ _ k Ef).
    by apply Hk.
Qed.

Lemma import_loop_keeps views : forall after wm d w d',
  from_option (fun a => bytes_le start a) True after -> from_option in_u64 True wm ->
  Forall (fun v => forall d, P d -> P (pv_between v d)) views -> P d ->
  import_loop s target page_size start end_ false views after wm d = (inl w, d') -> P d'.
Proof using Hmode Hbar HP fl.
  induction views as [|v views IH]; intros after wm d w d' Ha Hwm Hb Hd E; [done|].
  apply Forall_cons in Hb as [Hv Hb].
  apply import_loop_cons in E as (page & pinned & a & n & d1 & Ep & Epin & Ei & _ & E); [|done..].
  destruct (export_page_spec _ _ _ _ _ _ _ _ Ha Ep) as [Hps _].
  pose proof (ps_rows _ _ _ _ _ _ _ Hps) as Hr.
  assert (P d1) as Hd1.
  { eapply page_keeps; [|by apply Hv|exact Ei]. eapply Forall_impl; [exact Hr|].
    intros [[k x] m] ([Hl _] & _). by eapply get_kv_metadata_wf. }
  destruct (next_after page) as [z|] eqn:Ez; [|by destruct E as [_ ->]].
  destruct (ps_next _ _ _ _ _ _ _ Hps z Ez) as (_ & x & Hx%last_Some_elem_of & Hxz).
  rewrite Forall_forall in Hr. destruct (Hr x Hx) as (_ & Hxr & _). rewrite Hxz in Hxr.
  eapply (IH (Some z) (Some pinned)); [| |done|done|exact E].
  - by apply in_range_spec in Hxr as [? _].
  - simpl. rewrite Epin. by eapply pinned_range.
Qed.

Lemma import_pages_keeps expected reset before polls views d w d' :
  from_option in_u64 True expected ->
  Forall (fun v => forall d, P d -> P (pv_between v d)) views -> P d ->
  import_pages s target page_size start end_ false expected reset before polls views d = (inl w, d') ->
  P d'.
Proof using Hmode Hbar HP fl.
  intros Hex Hb Hd E. unfold import_pages in E.
  destruct (propose _ _ _ _) as [[n|] d1] eqn:Ep; [|done].
  apply propose_outcome in Ep as [(a & n' & Ep)|[_ [? ?]]]; [|done|by apply clear_replayable].
  destruct (clear_range_spec target d start end_ a Hmode) as (n0 & d0 & Ec & Ht & Ho & _).
  rewrite Ep in Ec. injection Ec as <- <-.
  destruct (match expected with None => _ | Some _ => _ end); [done|].
  eapply import_loop_keeps; [..|exact E]; [done|done|done|].
  apply (HP d); [done| |done]. by destruct (keys_touched_marks target d d1 Hmode Ht) as (_ & _ & ? & _).
Qed.

End receiver.

Lemma wait_for_cursors_Some s polls pin c :
  wait_for_cursors s polls = Some (pin, c) ->
  in_u64 pin /\ exists donor receiver donor', (donor, receiver, donor') ∈ polls /\
    last_applied_decision_ts donor = c.
Proof.
  induction polls as [|[[donor receiver] donor'] polls IH]; [done|]. cbn [wait_for_cursors].
  destruct (_ =? _).
  - intros [= <- <-]. split; [apply current_revision_range|].
    exists donor, receiver, donor'. split; [by left|done].
  - intros (? & a & b0 & c0 & ? & ?)%IH. split; [done|]. exists a, b0, c0. split; [by right|done].
Qed.

(** The range of both is the one range after the other. *)
Lemma in_range_join start mid end_ k :
  mid <> [] -> in_range start end_ k = true ->
  in_range start mid k = true \/ in_range mid end_ k = true.
Proof.
  intros Hm [H1 H2]%in_range_spec. destruct (bytes_leb mid k) eqn:E.
  - right. apply in_range_spec. by split.
  - left. apply in_range_spec. split; [done|]. right. apply negb_false_iff in E. exact E.
Qed.

Section merge.
Context {fc : FloorCodec} {fl : FloorCodecLaws fc} {pd : Postcard SequencerDecision}.
Context (s target : MvccStorage) (page_size : nat).
Context (Hmode : revision_mode target = ModeCommitTs) (Hbar : rep_barrier target).
Context (t : RegionTable) (left right : RegionMeta) (plan : SplitMergePlan).
Context (Hl : region_get t (region_id left) = Some left) (Hr : region_get t (region_id right) = Some right).
Context (Hplan : plan_merge t (region_id left) (region_id right) = Ok plan).
Context (ds : list SequencerDecision).

(** The receiver's own range, at its own cursor. *)
Abbreviation own d := (reads_log target (start_key left) (end_key left) ds (last_applied_decision_ts d) d).

(** What the plan says about the migration. *)
Lemma merge_plan_shape :
  merged_region plan = Some (merge_regions left right) /\ donor_regions plan = [region_id right] /\
  end_key left <> [] /\ end_key left = start_key right.
Proof using Hl Hr Hplan.
  unfold plan_merge in Hplan. destruct (rt_version t =? 0); [done|]. destruct (_ =? _); [done|].
  rewrite Hl, Hr in Hplan. cbn [ok_or mbind result_bind] in Hplan.
  destruct (bytes_eqb_spec (end_key left) []); [done|].
  destruct (bytes_eqb_spec (end_key left) (start_key right)) as [Hs|]; [|done]. cbn [orb negb] in Hplan.
  destruct (_ || _); [done|]. injection Hplan as <-. unfold merged_region. cbn. by rewrite Z.eqb_refl.
Qed.

(** Cursor and other rows are what [own] is about. *)
Lemma own_frame d d' :
  own d -> last_applied_decision_ts d' = last_applied_decision_ts d ->
  (forall k, in_range (start_key right) (end_key right) k = false -> key_rows d' k = key_rows d k) ->
  own d'.
Proof using Hl Hr Hplan.
  destruct merge_plan_shape as (_ & _ & Hne & Hs). intros Ho Hc Hk k Hr0. rewrite Hc.
  rewrite (get_rows target d d'); [by apply Ho|]. apply Hk. apply not_true_iff_false.
  intros [H1 _]%in_range_spec. apply in_range_spec in Hr0 as [_ [?|Hlt]]; [done|].
  rewrite <-Hs in H1. apply (irreflexivity bytes_lt k). by eapply bytes_lt_le_trans.
Qed.

(** C26: a merge joins the reads.  Take two Regions a merge plan joins, both of
    which read what the decision log decides up to their cursors; the donor does
    so in every state the migrator sees, its cursor only grows, and what else is
    applied to the receiver keeps this for its own range and leaves the donor's
    alone.  When the migration reports success, the receiver reads what the log
    decides in its own range up to its own cursor and in the donor's range up to
    the donor's cursor, which is that of the replica of the receiver on the
    migrating node.  So if this replica is not behind its group, the receiver
    reads what the log decides up to one cursor in the whole merged range.
    Whatever the pages, the retries and the polls were. *)
Theorem merge_joins_reads ranges assembled drained cursors reset before polls views after replica d w d' :
  ranges (region_id right) = Some (start_key right, end_key right) ->
  Forall (fun v => (exists h, mvcc_rep s (pv_source v) h) /\
    reads_log s (start_key right) (end_key right) ds (last_applied_decision_ts (pv_source v)) (pv_source v) /\
    last_applied_decision_ts (pv_source v) <= last_applied_decision_ts after /\
    Forall (fun x => last_applied_decision_ts x.1.1 <= last_applied_decision_ts (pv_source v)) cursors /\
    apart (start_key right) (end_key right) v /\ (forall d, own d -> own (pv_between v d))) views ->
  (forall k, in_range (start_key right) (end_key right) k = true ->
     is_Some (key_rows d k).2 -> is_Some (key_rows d k).1) -> own d ->
  migrate_merge s target page_size plan ranges assembled drained cursors reset before polls views after replica d
    = (inl w, d') ->
  last_applied_decision_ts replica = last_applied_decision_ts after /\
  reads_log target (start_key left) (end_key left) ds (last_applied_decision_ts d') d' /\
  reads_log target (start_key right) (end_key right) ds (last_applied_decision_ts after) d' /\
  (last_applied_decision_ts d' = last_applied_decision_ts replica ->
   reads_log target (start_key left) (end_key right) ds (last_applied_decision_ts d') d').
Proof using Hmode Hbar Hl Hr Hplan fl.
  intros Hrange Hviews Hpair Hown E. destruct merge_plan_shape as (Em & Ed & Hne & Hs).
  unfold migrate_merge in E. rewrite Em, Ed, Hrange in E. destruct (_ || _) in E; [done|].
  destruct assembled, drained; try done. cbn [negb] in E.
  destruct (wait_for_cursors s cursors) as [[pin c]|] eqn:Ew; [|done].
  apply wait_for_cursors_Some in Ew as (Hpin & d0 & r0 & d0' & Hin & Hc).
  set (expected := if 0 <? pin then Some pin else None) in *.
  assert (from_option in_u64 True expected) as Hex by (unfold expected; by destruct (0 <? pin)).
  destruct (import_pages _ _ _ _ _ _ _ _ _ _ _ _) as [[w1|] d1] eqn:Ei; [|done].
  destruct (_ || _) eqn:Echk in E; [done|]. injection E as <- <-.
  apply orb_false_iff in Echk as [[Ha Hd]%orb_false_iff _].
  apply negb_false_iff, Z.eqb_eq in Ha. apply negb_false_iff, Z.eqb_eq in Hd.
  assert (own d1) as Hown1.
  { eapply (import_pages_keeps s target page_size (start_key right) (end_key right) Hmode Hbar
      (fun d => own d) own_frame); [exact Hex| |exact Hown|exact Ei].
    eapply Forall_impl; [exact Hviews|]. intros v Hv. apply Hv. }
  destruct (import_pages_copied s target page_size (start_key right) (end_key right) false Hmode Hbar
    expected reset before polls views d w1 d1) as [_ Hcopy]; [|done..|].
  { eapply Forall_impl; [exact Hviews|]. intros v Hv. apply Hv. }
  assert (reads_log target (start_key right) (end_key right) ds (last_applied_decision_ts after) d1) as Hdon.
  { intros k Hk'. destruct (Hcopy k Hk') as (v & Hv & _ & Hcp). rewrite Forall_forall in Hviews.
    destruct (Hviews v Hv) as ((h & Hrep) & Hlog & Hle & Hpoll & _). rewrite Forall_forall in Hpoll.
    specialize (Hpoll _ Hin). cbn [fst] in Hpoll.
    rewrite (copied_get s target (pv_source v) d1 h k Hrep Hcp), (Hlog k Hk'). do 2 f_equal. lia. }
  split; [congruence|]. split; [done|]. split; [done|]. intros Heq k Hk.
  destruct (in_range_join _ _ _ _ Hne Hk) as [Hk'|Hk']; [by apply Hown1|].
  rewrite Hs in Hk'. rewrite Heq, Hd, <-Ha. by apply Hdon.
Qed.

End merge.
