(* ===== verification/MigrationLive.v ===== *)
(** * Migrations: completion, and two anomalies

    When the source stands still and the rows are fit for import, a migration
    with enough rounds succeeds, at the revision of the source.  A receiver that
    once owned the merged range answers historical reads from its own old change
    log; and a range with a key under the reserved prefix cannot be moved. *)

From S2P Require Export MigrationSplit.

Local Open Scope Z_scope.

(** What [apply_range_import] asks of a row. *)
Definition importable (w : Z) (k : bytes) (m : KvMetadata) : Prop :=
  starts_with k (b "/_") = false /\ 0 < create_revision m <= mod_revision m /\
  mod_revision m <= w /\ 0 < version m.

Lemma check_import_rows_ok start end_ w rows : forall seen,
  NoDup (row_key <$> rows) -> (forall k, k ∈ seen -> k ∉ row_key <$> rows) ->
  Forall (fun x => in_range start end_ (row_key x) = true /\ deleted x.2 = false /\
            meta_wf x.2 /\ importable w (row_key x) x.2) rows ->
  check_import_rows start end_ w seen rows = Ok tt.
Proof.
  induction rows as [|[[k v] m] rows IH]; intros seen Hnd Hseen Hf; [done|].
  rewrite fmap_cons in Hnd, Hseen. cbn [fst] in Hnd, Hseen.
  apply NoDup_cons in Hnd as [Hk Hnd]. apply Forall_cons in Hf as [(Hr & Hd & Hw & Hp & Hc & Hm & Hv) Hf].
  cbn [fst snd] in *. cbn [check_import_rows].
  apply in_range_spec in Hr as [Hle Hend].
  assert (bytes_ltb k start || negb (bytes_eqb end_ []) && bytes_leb end_ k = false) as ->.
  { unfold bytes_le, bytes_leb in Hle. apply negb_true_iff in Hle. rewrite Hle. simpl.
    destruct Hend as [->|Hlt]; [done|]. unfold bytes_lt in Hlt. unfold bytes_leb. rewrite Hlt.
    apply andb_false_r. }
  rewrite Hp, Hd. rewrite bool_decide_eq_false_2 by (intros H%Hseen; apply H; by left).
  assert (u64_wrap (mod_revision m) = mod_revision m) as ->.
  { destruct Hw as [_ _ Hw _]. apply u64_wrap_id. unfold_ints. lia. }
  destruct (Z.leb_spec (mod_revision m) 0); [lia|]. destruct (Z.ltb_spec w (mod_revision m)); [lia|].
  destruct (Z.leb_spec (create_revision m) 0); [lia|].
  destruct (Z.ltb_spec (mod_revision m) (create_revision m)); [lia|].
  destruct (Z.leb_spec (version m) 0); [lia|]. simpl. apply IH; [done| |done].
  intros k' [->|Hk']%elem_of_cons; [done|]. specialize (Hseen k' Hk').
  by apply not_elem_of_cons in Hseen as [_ ?].
Qed.

Section live.
Context {fc : FloorCodec} {fl : FloorCodecLaws fc} {pd : Postcard SequencerDecision}.
Context (s target : MvccStorage) (page_size : nat) (start end_ : bytes) (src : db) (h : history).
Context (Hmode : revision_mode target = ModeCommitTs) (Hbar : rep_barrier target).
Context (Hrep : mvcc_rep s src h).
Context (Henc : forall k v, exists c, encrypt_value target (encode_kv_key k) v = Ok c).

Abbreviation w := (current_revision s src).

(** Every row of the range decodes, and the live ones can be imported. *)
Context (Hfit : forall k raw, in_range start end_ k = true ->
  tx_get src TABLE_KV_META (encode_kv_meta_key k) = Some raw ->
  exists m, meta_from_bytes raw = Some m /\ (deleted m = false -> importable w k m)).

Lemma export_loop_ok rows : forall n,
  Forall (fun r => src !! (TABLE_KV_META, r.1) = Some r.2) rows ->
  exists out, export_loop s src start end_ page_size n rows = Ok out.
Proof using Hrep Hfit.
  induction rows as [|[mk mv] rows IH]; intros n Hd; [by eexists|].
  apply Forall_cons in Hd as [Hv Hd]. cbn [export_loop]. cbn [fst snd] in Hv.
  destruct (strip_prefix KV_META_PREFIX mk) as [k|] eqn:Ek; [|by apply IH].
  apply strip_prefix_Some in Ek as ->.
  destruct (bytes_ltb_spec k start) as [Hks|Hks]; [by apply IH|].
  assert (bytes_le start k) as Hle.
  { unfold bytes_le, bytes_leb. destruct (bytes_ltb_spec k start); done. }
  rewrite (past_end start) by done. destruct (in_range start end_ k) eqn:Hr; cbn [negb]; [|by eexists].
  destruct (Hfit k mv Hr Hv) as (m & Em & _). rewrite Em. cbn [ok_or mbind result_bind].
  destruct (deleted m) eqn:Ed; [by apply IH|]. destruct (_ && _); [by eexists|].
  pose proof (rep_keys _ _ _ Hrep k) as Hk. unfold key_rep, get_kv_metadata, tx_get at 1 in Hk.
  change (src !! (TABLE_KV_META, KV_META_PREFIX ++ k) = Some mv) in Hv. unfold encode_kv_meta_key in Hk.
  rewrite Hv in Hk. cbn [mbind option_bind] in Hk. rewrite Em in Hk. unfold key_ok in Hk.
  rewrite Ed in Hk. destruct Hk as (_ & _ & raw & v & Eraw & Ev & _).
  rewrite Eraw. cbn [ok_or mbind result_bind]. rewrite Ev. cbn [mbind result_bind].
  destruct (IH (S n) Hd) as [[rest more] ->]. cbn [mbind result_bind]. by eexists.
Qed.

Lemma export_page_ok after expected :
  expected = None \/ expected = Some w ->
  exists page, export_range_page s src start end_ after page_size expected = Ok page.
Proof using Hrep Hfit.
  intros He. unfold export_range_page. destruct (_ && _); [by eexists|].
  assert (from_option (fun e => negb (w =? e)) false expected = false) as ->.
  { destruct He as [->| ->]; [done|]. simpl. by rewrite Z.eqb_refl. }
  destruct (export_loop_ok (iter_range src TABLE_KV_META
    (encode_kv_meta_key (export_lower start after))
    (if bytes_eqb end_ [] then [] else encode_kv_meta_key end_)) 0) as [[rows more] ->].
  { apply Forall_forall. intros [k v] [? _]%elem_of_iter_range. done. }
  cbn [mbind result_bind]. by eexists.
Qed.

(** A page of the source can be imported. *)
Lemma page_import_ok after page d done a :
  page_spec s src start end_ after page_size page -> (forall k, in_range start end_ k = true ->
    above after k -> absent d k) ->
  exists n d', apply_range_import target d start end_ (page_rows page) w true done a = (Ok n, d').
Proof using Hmode Hbar Henc Hfit.
  intros [_ Hrows Hs _ _] Habs. rewrite Forall_forall in Hrows.
  assert (NoDup (row_key <$> page_rows page)) as Hnd
    by (by apply (StronglySorted_NoDup_fmap row_key bytes_lt)).
  assert (forall x, x ∈ page_rows page -> in_range start end_ (row_key x) = true /\
    deleted x.2 = false /\ meta_wf x.2 /\ importable w (row_key x) x.2) as Hok.
  { intros [[k v] m] Hx. destruct (Hrows _ Hx) as ((Em & Ed & _) & Hr & _). cbn [fst snd] in *.
    split; [done|]. split; [done|]. split; [by eapply get_kv_metadata_wf|].
    unfold get_kv_metadata in Em.
    destruct (tx_get src TABLE_KV_META (encode_kv_meta_key k)) as [raw|] eqn:Eraw; [|done].
    destruct (Hfit k raw Hr Eraw) as (m' & Em' & Hi). cbn [mbind option_bind] in Em.
    rewrite Em in Em'. injection Em' as <-. auto. }
  unfold apply_range_import. rewrite decide_True by done.
  assert ((w =? 0) && negb (match page_rows page with [] => true | _ => false end) = false) as ->.
  { destruct (page_rows page) as [|x l]; [apply andb_false_r|].
    destruct (Hok x) as (_ & _ & _ & _ & ? & ? & _); [by left|].
    destruct (Z.eqb_spec w 0); [lia|done]. }
  rewrite check_import_rows_ok; [|done|by intros k ?%elem_of_nil|by apply Forall_forall].
  pose proof (import_rows_fresh target Hbar (page_rows page) d Hnd) as Hi. unfold backend_write.
  destruct (import_rows target (page_rows page) d) as [[n d1]|e].
  - cbn [mbind result_bind]. destruct done; cbn [mbind result_bind]; by eexists _, _.
  - destruct Hi as (x & _ & Ex).
    + apply Forall_forall. intros x Hx. destruct (Hrows x Hx) as (_ & ? & ?). split; [by apply Habs|].
      by apply Hok.
    + destruct (Henc (row_key x) x.1.2) as [c Ec]. congruence.
Qed.

(** The metadata rows still to be read. *)
Definition remaining (after : option bytes) : nat :=
  length (iter_range src TABLE_KV_META (encode_kv_meta_key (export_lower start after))
    (if bytes_eqb end_ [] then [] else encode_kv_meta_key end_)).

Lemma remaining_lt after page z :
  from_option (fun a => bytes_le start a) True after ->
  page_spec s src start end_ after page_size page -> next_after page = Some z ->
  (remaining (Some z) < remaining after)%nat.
Proof using Type.
  intros Ha Hps Ez. destruct (ps_next _ _ _ _ _ _ _ Hps z Ez) as (_ & [[k v] m] & Hx & Hk).
  cbn [fst] in Hk. subst k. apply last_Some_elem_of in Hx.
  pose proof (ps_rows _ _ _ _ _ _ _ Hps) as Hr. rewrite Forall_forall in Hr.
  destruct (Hr _ Hx) as ((Em & _) & Hz & Hza). cbn [fst] in *. unfold get_kv_metadata in Em.
  destruct (tx_get src TABLE_KV_META (encode_kv_meta_key z)) as [raw|] eqn:Eraw; [|done].
  assert (bytes_le start z) as Hsz by (by apply in_range_spec in Hz as [? _]).
  unfold remaining. rewrite !iter_range_filter.
  apply (filter_length_lt _ _ _ (encode_kv_meta_key z, raw)).
  - by apply elem_of_table_rows.
  - intros [k' v'] Hin. cbn [fst]. unfold in_range. rewrite !andb_true_iff. intros [Hle ?]. split; [|done].
    eapply (transitivity (R := bytes_le)); [|exact Hle].
    unfold bytes_le, encode_kv_meta_key. rewrite bytes_leb_app_r.
    unfold export_lower at 2. unfold bytes_le in Hsz. rewrite Hsz.
    destruct after as [a|]; simpl in *; [rewrite Ha|].
    + apply bytes_succ. etransitivity; [exact Hza|apply bytes_lt_snoc].
    + eapply (transitivity (R := bytes_le)); [exact Hsz|apply bytes_lt_le, bytes_lt_snoc].
  - cbn [fst]. rewrite in_range_meta. by apply export_lower_above.
  - cbn [fst]. rewrite in_range_meta. apply not_true_iff_false. rewrite <-export_lower_above by done.
    intros [_ Hlt]. by apply (irreflexivity bytes_lt z).
Qed.

(** The command is applied, once or more, and answered. *)
Definition delivered (p : Proposed) : Prop := applications p <> [] /\ answered p = true.

(** A round in which the source has not moved and the import is answered. *)
Definition steady (v : PageView) : Prop := pv_source v = src /\ quiet v /\ delivered (pv_import v).

Lemma import_loop_completes views : forall after wm d,
  from_option (fun a => bytes_le start a) True after -> wm = None \/ wm = Some w ->
  Forall steady views -> (remaining after < length views)%nat ->
  (forall k, in_range start end_ k = true -> above after k -> absent d k) ->
  (after = None -> from_option (fun v => require_no_pending_decision (pv_log v)
     (last_applied_decision_ts (pv_cursor v)) w = None) True (head views)) ->
  exists d', import_loop s target page_size start end_ true views after wm d = (inl w, d').
Proof using Hmode Hbar Hrep Henc Hfit fl.
  induction views as [|v views IH]; intros after wm d Ha Hwm Hst Hn Habs Hno; [simpl in Hn; lia|].
  apply Forall_cons in Hst as [(Hv & Hq & Hne & Hans) Hst]. cbn [import_loop]. rewrite Hv, Hq.
  destruct (export_page_ok after wm Hwm) as [page Ep]. rewrite Ep.
  destruct (export_page_spec _ _ _ _ _ _ _ _ Ha Ep) as [Hps _]. cbv zeta.
  assert (default (page_revision page) wm = w) as ->.
  { destruct Hwm as [->| ->]; [|done]. simpl. apply Hps. }
  assert ((if true && bool_decide (after = None)
           then require_no_pending_decision (pv_log v) (last_applied_decision_ts (pv_cursor v)) w
           else None) = None) as ->.
  { simpl. case_bool_decide as Hn'; [|done]. exact (Hno Hn'). }
  set (last_page := match next_after page with None => true | Some _ => false end).
  pose proof (current_revision_range s src) as Hw. rewrite <-Hv in Ep.
  destruct (propose_answered (pv_import v) (fun d a => apply_range_import target d start end_
    (page_rows page) w true last_page a) ImportFailed d) as (a & x & Hp); [|done|done| |].
  { by eapply page_replayable. }
  { intros a. destruct (page_import_ok after page d last_page a Hps Habs) as (n & d1 & ->). by exists n. }
  destruct (page_import_ok after page d last_page a Hps Habs) as (n & d1 & Ei).
  rewrite Hp, Ei. cbn [snd]. subst last_page.
  destruct (next_after page) as [z|] eqn:Ez; [|by eexists].
  pose proof (page_import s target page_size start end_ true Hmode Hbar v after wm page
    d w false a Ha Ep Hw) as Hpage.
  rewrite Ei, Ez in Hpage. destruct Hpage as (_ & Hlater & _); [by intros k [? ?]; apply Habs|].
  destruct (ps_next _ _ _ _ _ _ _ Hps z Ez) as (_ & y & Hx%last_Some_elem_of & Hxz).
  pose proof (ps_rows _ _ _ _ _ _ _ Hps) as Hr. rewrite Forall_forall in Hr.
  destruct (Hr y Hx) as (_ & Hxr & Hxa). rewrite Hxz in Hxr, Hxa.
  apply IH; [|by right|done| | |done].
  - by apply in_range_spec in Hxr as [? _].
  - pose proof (remaining_lt after page z Ha Hps Ez). simpl in Hn. lia.
  - intros k Hk Hzk. rewrite Hlater by done. apply Habs; [done|].
    destruct after; [|done]. simpl in *. by etransitivity.
Qed.

(** C27: a migration completes.  When the source does not move while the pages are
    read, its rows in the range are fit for import (live ones with positive
    revisions up to the revision of the source, no key under the reserved prefix),
    no decision is pending, commands are answered and encryption works, then one
    round more than the source has rows is enough: the split is done, at the
    revision of the source, with any page size. *)
Theorem migration_completes reset before polls views d :
  delivered reset ->
  Forall steady views -> (size src < length views)%nat ->
  wait_for_decision_barrier polls (current_revision s before) = None ->
  from_option (fun v => require_no_pending_decision (pv_log v)
    (last_applied_decision_ts (pv_cursor v)) w = None) True (head views) ->
  (forall k, is_Some (key_rows d k).2 -> is_Some (key_rows d k).1) ->
  exists d', import_pages s target page_size start end_ true None reset before polls views d
    = (inl w, d').
Proof using Hmode Hbar Hrep Henc Hfit fl.
  intros [Hne Hans] Hst Hn Hpoll Hno Hpair. unfold import_pages.
  destruct (propose_answered reset (fun d => clear_imported_range target d start end_) ResetFailed d)
    as (a & x & ->); [by apply clear_replayable|done|done| |].
  { intros a. by destruct (clear_range_spec target d start end_ a Hmode) as (n & d1 & -> & _); exists n. }
  destruct (clear_range_spec target d start end_ a Hmode) as (n & d1 & -> & _ & _ & _ & Habs).
  cbn [snd]. rewrite Hpoll. apply import_loop_completes; [done|by left|done| | |done].
  - eapply Nat.le_lt_trans; [apply length_iter_range|done].
  - intros k Hk _. by apply Habs; [|apply Hpair].
Qed.

End live.

(** ** Where migrations go wrong *)

Section merge.
Context {fc : FloorCodec} {fl : FloorCodecLaws fc} (s : MvccStorage).
Context (Hmode : revision_mode s = ModeCommitTs) (Hbar : rep_barrier s).

Lemma keys_touched_floors d d' :
  keys_touched d d' -> import_history_floors d' = import_history_floors d.
Proof using Type.
  intros Ht. unfold import_history_floors. rewrite Ht; [done|].
  intros [[? _]|(k' & [[_ E']|[? _]])]; [done| |done].
  apply (kv_key_neq IMPORT_HISTORY_FLOORS k' []); [done|]. by rewrite app_nil_r.
Qed.

(** The floor an import leaves behind. *)
Lemma import_floors_after d start end_ rows w a n d' :
  NoDup (row_key <$> rows) -> Forall (fun x => absent d (row_key x) /\ meta_wf x.2) rows ->
  import_history_floors d = Ok [] ->
  apply_range_import s d start end_ rows w false true a = (Ok n, d') ->
  import_history_floors d' = Ok [(start, end_, w)].
Proof using Hmode Hbar fl.
  intros Hnd Hf Hfl E. unfold apply_range_import in E. rewrite decide_True in E by done.
  destruct (_ && _); [done|]. destruct (check_import_rows _ _ _ _ _); [|done].
  pose proof (import_rows_fresh s Hbar rows d Hnd Hf) as Hi. unfold backend_write in E.
  destruct (import_rows s rows d) as [[n1 d1]|]; cbn [mbind result_bind] in E; [|done].
  destruct Hi as (_ & Ht & _).
  rewrite <-(keys_touched_floors d d1 Ht) in Hfl. rename Hfl into Hfl1.
  unfold floor_history in E. rewrite Hfl1 in E. cbn [mbind result_bind] in E. injection E as _ <-.
  unfold import_history_floors, insert_last_applied. rewrite tx_get_insert_ne by done.
  rewrite tx_get_insert, floors_roundtrip. done.
Qed.

(** Reads after a merge can be stale.  The receiver of a merge once owned the
    key (it wrote it at revision [r], and its change log still has that event).
    After it has cleared the range and imported the key with the donor's value at
    watermark [w], the live read gives the donor's value; but a read at any
    revision from the watermark on passes the floor of the import and is answered
    from the receiver's old change log, with the value before the split. *)
Theorem merged_key_reads_old_history d h start end_ w k v m r T a a' n n' d1 d2 :
  mvcc_rep s d h -> import_history_floors d = Ok [] ->
  in_range start end_ k = true -> is_Some (tx_get d TABLE_KV (encode_kv_key k)) ->
  touched_at h k r -> log_from d <= r <= T -> compacted_revision d < T < u64_max -> in_u64 T ->
  in_u64 w -> w <= T -> meta_wf m -> deleted m = false ->
  clear_imported_range s d start end_ a = (Ok n, d1) ->
  apply_range_import s d1 start end_ [(k, v, m)] w false true a' = (Ok n', d2) ->
  get s d2 k = Ok (Some v) /\ get_at_revision s d2 k T = Ok (value_at h k T).
Proof using Hmode Hbar fl.
  intros Hrep Hfl Hk Hown (e & He & Hr & Htouch) Hlog [Hc Hm] HT Hw HwT Hwf Hdel Ecl Eim.
  destruct (clear_range_spec s d start end_ a Hmode) as (n0 & d1' & Ecl' & Ht & _ & _ & Habs).
  rewrite Ecl in Ecl'. injection Ecl' as -> <-. specialize (Habs k Hk (fun _ => Hown)).
  rewrite <-(keys_touched_floors d d1 Ht) in Hfl.
  destruct (keys_touched_marks s d d1 Hmode Ht) as (_ & Ec1 & _ & El1 & _).
  pose proof (apply_range_import_fresh s Hmode Hbar d1 start end_ [(k, v, m)] w false true a' Hw) as Hi.
  rewrite Eim in Hi. destruct Hi as (_ & Hh & _ & (Hlog2 & _ & Hcomp2 & _)).
  { apply NoDup_singleton. } { by apply Forall_singleton. }
  apply Forall_singleton in Hh as (Em & raw & Eraw & Ev). cbn [fst snd] in *. split.
  - unfold get, is_deleted. rewrite Eraw, Em. simpl. rewrite Hdel, Ev. done.
  - unfold get_at_revision, ensure_history_reconstructable. cbn [andb] in Hcomp2.
    rewrite Hcomp2, Ec1. destruct (Z.leb_spec T (compacted_revision d)); [lia|]. cbn [mbind result_bind].
    assert (import_history_floors d2 = Ok [(start, end_, w)]) as Hfl2
      by (apply (import_floors_after d1 start end_ [(k, v, m)] w a' n' d2);
          [apply NoDup_singleton|by apply Forall_singleton|done|done]).
    unfold ensure_key_import_history_available. rewrite Hfl2. cbn [mbind result_bind existsb].
    destruct (Z.ltb_spec T w); [lia|]. cbn [andb orb guard_err mbind result_bind].
    assert (changelog_rows d2 = changelog_rows d) as ->.
    { etransitivity; [|exact El1]. apply iter_prefix_same. exact Hlog2. }
    rewrite (history_scan_log s d h Hrep) by done. cbn [mbind result_bind].
    destruct (scan_value k T None (retained (log_from d) h)) as [x|] eqn:Es.
    { cbv beta iota. f_equal. symmetry. exact (value_at_scan_log s d h Hrep k T x Es). }
    apply scan_value_None in Es. rewrite Forall_forall in Es.
    apply last_change_touched in Htouch as [x Hx]. unfold untouched in Es.
    rewrite (Es e) in Hx; [done| |lia]. apply elem_of_List_filter. split; [apply Z.leb_le; lia|done].
Qed.

End merge.

Section reserved.
Context {fc : FloorCodec} {fl : FloorCodecLaws fc} {pd : Postcard SequencerDecision}.
Context (s target : MvccStorage) (page_size : nat) (start end_ : bytes) (seal : bool).
Context (Hmode : revision_mode target = ModeCommitTs) (Hbar : rep_barrier target).

Lemma check_import_rows_reserved w rows : forall seen x,
  check_import_rows start end_ w seen rows = Ok tt -> x ∈ rows ->
  starts_with (row_key x) (b "/_") = false.
Proof using Type.
  induction rows as [|[[k v] m] rows IH]; intros seen x E Hx; [by apply elem_of_nil in Hx|].
  cbn [check_import_rows] in E. destruct (_ || _); [done|].
  destruct (starts_with k (b "/_")) eqn:Ek; [done|]. destruct (bool_decide _); [done|].
  destruct (deleted m); [done|]. destruct (_ || _); [done|]. destruct (_ || _); [done|].
  destruct (version m <=? 0); [done|]. apply elem_of_cons in Hx as [->|Hx]; [done|]. by eapply IH.
Qed.

Lemma import_loop_reserved views : forall after wm d w d' k,
  from_option (fun a => bytes_le start a) True after -> from_option in_u64 True wm ->
  in_range start end_ k = true -> above after k ->
  Forall (fun v => exists m, get_kv_metadata (pv_source v) k = Some m /\ deleted m = false) views ->
  import_loop s target page_size start end_ seal views after wm d = (inl w, d') ->
  starts_with k (b "/_") = false.
Proof using Hmode Hbar fl.
  induction views as [|v views IH]; intros after wm d w d' k Ha Hwm Hk Hab Hlive E; [done|].
  apply Forall_cons in Hlive as [(m & Em & Ed) Hlive].
  apply import_loop_cons in E as (page & pinned & a & n & d1 & Ep & Epin & Ei & _ & E); [|done..].
  destruct (export_page_spec _ _ _ _ _ _ _ _ Ha Ep) as [Hps _].
  destruct (ps_complete _ _ _ _ _ _ _ Hps k m Hk Hab Em Ed) as [(x & -> & Hx)%list_elem_of_fmap|(z & Ez & Hzk)].
  - unfold apply_range_import in Ei. rewrite decide_True in Ei by done. destruct (_ && _); [done|].
    destruct (check_import_rows start end_ pinned [] (page_rows page)) as [[]|] eqn:Ec; [|done].
    by eapply check_import_rows_reserved.
  - rewrite Ez in E. destruct (ps_next _ _ _ _ _ _ _ Hps z Ez) as (_ & x & Hx%last_Some_elem_of & Hxz).
    pose proof (ps_rows _ _ _ _ _ _ _ Hps) as Hr. rewrite Forall_forall in Hr.
    destruct (Hr x Hx) as (_ & Hxr & _). rewrite Hxz in Hxr.
    eapply (IH (Some z)); [| |done|done|done|exact E]; [by apply in_range_spec in Hxr as [? _]|].
    simpl. rewrite Epin. by eapply pinned_range.
Qed.

(** A reserved key blocks the migration.  As long as the source holds a live
    key of the range that starts with [/_], no attempt succeeds, whatever the
    page size and the fate of its commands. *)
Theorem reserved_key_blocks_migration expected reset before polls views d k :
  from_option in_u64 True expected ->
  in_range start end_ k = true -> starts_with k (b "/_") = true ->
  Forall (fun v => exists m, get_kv_metadata (pv_source v) k = Some m /\ deleted m = false) views ->
  exists e, (import_pages s target page_size start end_ seal expected reset before polls views d).1
    = inr e.
Proof using Hmode Hbar fl.
  intros Hex Hk Hr Hlive. unfold import_pages. destruct (propose _ _ _ _) as [[n|e] d1]; [|by eexists].
  destruct (match expected with None => _ | Some _ => _ end); [by eexists|].
  destruct (import_loop _ _ _ _ _ _ _ _ _ _) as [[w|e] d'] eqn:E; [|by eexists].
  rewrite (import_loop_reserved views None expected d1 w d' k) in Hr; done.
Qed.

End reserved.
