(* ===== verification/PdQueue.v ===== *)
(** * The operator queue of the placement driver

    Region 0 keeps the queue of scheduling operators and the journal of splits
    and merges ([apply_pd_op] and the readers next to it in [storage/mvcc.rs];
    the records are those of [raft/type_config.rs] and [pd/operator.rs]).  A
    split or merge is journalled as an intent with its plan, and one command
    changes the Region table and the phase of the intent together. *)

From S2P Require Export RegionTable.

Local Open Scope Z_scope.

(** ** Operators *)

Inductive Operator :=
  | AddPeer (region_id node_id : Z) (raft_addr : bytes)
  | RemovePeer (region_id node_id : Z)
  | TransferLeader (region_id to_node : Z)
  | SplitRegion (region_id : Z) (split_key : bytes) (new_region_id : Z)
  | MergeRegion (left right : Z).

Definition operator_region_id (op : Operator) : Z :=
  match op with
  | AddPeer region_id _ _ => region_id
  | RemovePeer region_id _ => region_id
  | TransferLeader region_id _ => region_id
  | SplitRegion region_id _ _ => region_id
  | MergeRegion left_region _ => left_region
  end.

Inductive OperatorStatus :=
  | Pending
  | Running
  | Success
  | Failed (error : bytes)
  | Cancelled.

#[export] Instance Operator_eq_dec : EqDecision Operator.
Proof. solve_decision. Defined.
#[export] Instance OperatorStatus_eq_dec : EqDecision OperatorStatus.
Proof. solve_decision. Defined.

(** ** Queue entries *)

Record PdQueueEntry := {
  qe_op_id : Z;
  qe_op : Operator;
  qe_status : OperatorStatus;
  qe_requester : Z;
  qe_claimed_by : Z;
  qe_proposed_at_unix : Z;
  qe_claimed_at_unix : Z;
  qe_error : bytes }.

Definition new_pending (op_id : Z) (op : Operator) (requester proposed_at_unix : Z) : PdQueueEntry :=
  {| qe_op_id := op_id; qe_op := op; qe_status := Pending; qe_requester := requester;
     qe_claimed_by := 0; qe_proposed_at_unix := proposed_at_unix; qe_claimed_at_unix := 0;
     qe_error := [] |}.

Definition is_pending (e : PdQueueEntry) : bool := bool_decide (qe_status e = Pending).
Definition is_running (e : PdQueueEntry) : bool := bool_decide (qe_status e = Running).

Definition is_terminal (e : PdQueueEntry) : bool :=
  match qe_status e with
  | Success | Failed _ | Cancelled => true
  | _ => false
  end.

(** The entry with another status, claimant, claim time and error. *)
Definition set_status (e : PdQueueEntry) (status : OperatorStatus) (claimed_by claimed_at_unix : Z)
    (error : bytes) : PdQueueEntry :=
  {| qe_op_id := qe_op_id e; qe_op := qe_op e; qe_status := status; qe_requester := qe_requester e;
     qe_claimed_by := claimed_by; qe_proposed_at_unix := qe_proposed_at_unix e;
     qe_claimed_at_unix := claimed_at_unix; qe_error := error |}.

(** The [try_] methods change the entry in place and say whether they did. *)
Definition try_claim (e : PdQueueEntry) (node_id claimed_at_unix : Z) : option PdQueueEntry :=
  if is_pending e then Some (set_status e Running node_id claimed_at_unix (qe_error e)) else None.

Definition try_complete (e : PdQueueEntry) (node_id : Z) (success : bool) (error : bytes)
    : option PdQueueEntry :=
  if is_running e && (qe_claimed_by e =? node_id)
  then Some (set_status e (if success then Success else Failed error) (qe_claimed_by e)
               (qe_claimed_at_unix e) (if success then [] else error))
  else None.

Definition try_requeue (e : PdQueueEntry) : option PdQueueEntry :=
  if is_running e then Some (set_status e Pending 0 0 []) else None.

Definition running_for_secs (e : PdQueueEntry) (now_unix : Z) : Z :=
  if is_running e && (0 <? qe_claimed_at_unix e)
  then Z.max (i64_wrap (now_unix - qe_claimed_at_unix e)) 0 else 0.

(** ** Intents *)

(** The reason of a refusal is a text made of the two versions, or the text of
    the error of the table. *)
Inductive RejectReason :=
  | TableMoved (version expected : Z)
  | PlanRefused (e : Error).

Inductive IntentPhase :=
  | Prepared
  | Applied (table_version : Z)
  | Rejected (reason : RejectReason).

#[export] Instance RejectReason_eq_dec : EqDecision RejectReason.
Proof. solve_decision. Defined.
#[export] Instance IntentPhase_eq_dec : EqDecision IntentPhase.
Proof. solve_decision. Defined.

Record PdIntent := {
  in_op_id : Z;
  in_owner : Z;
  in_plan : SplitMergePlan;
  in_phase : IntentPhase }.

Definition set_phase (intent : PdIntent) (phase : IntentPhase) : PdIntent :=
  {| in_op_id := in_op_id intent; in_owner := in_owner intent; in_plan := in_plan intent;
     in_phase := phase |}.

(** ** Commands *)

Inductive PdOp :=
  | Enqueue (op : Operator) (requester proposed_at_unix : Z)
  | Claim (op_id node_id claimed_at_unix : Z)
  | Complete (op_id node_id : Z) (success : bool) (error : bytes)
  | Requeue (op_id : Z)
  | RecordIntent (intent : PdIntent)
  | Cutover (op_id : Z)
  | ClearIntent (op_id : Z).

Definition PD_QUEUE_PREFIX : bytes := b "/_pd/ops/".
Definition PD_INTENT_PREFIX : bytes := b "/_pd/intents/".
Definition PD_QUEUE_MAX_TERMINAL : nat := 512.

Definition encode_pd_op_key (op_id : Z) : bytes := PD_QUEUE_PREFIX ++ be64 op_id.
Definition encode_pd_intent_key (op_id : Z) : bytes := PD_INTENT_PREFIX ++ be64 op_id.

Section storage.
Context {pe : Postcard PdQueueEntry} {pn : Postcard PdIntent} {pt : Postcard RegionTable}.

(** The records are stored in the value envelope. *)
Definition entry_to_bytes (e : PdQueueEntry) : result bytes := ok_or (envelope_encode e) Internal.
Definition entry_from_bytes (x : bytes) : option PdQueueEntry := decode_ok x.
Definition intent_to_bytes (i : PdIntent) : result bytes := ok_or (envelope_encode i) Internal.
Definition intent_from_bytes (x : bytes) : option PdIntent := decode_ok x.

Definition queue_rows (d : db) : list row := iter_prefix d TABLE_KV PD_QUEUE_PREFIX.

(** The entry of the key, changed by [f] when [f] takes effect. *)
Definition update_entry (d : db) (op_id : Z) (f : PdQueueEntry -> option PdQueueEntry) : result db :=
  let key := encode_pd_op_key op_id in
  match tx_get d TABLE_KV key ≫= entry_from_bytes with
  | None => Ok d
  | Some e =>
    match f e with
    | None => Ok d
    | Some e => x ← entry_to_bytes e; Ok (tx_insert TABLE_KV key x d)
    end
  end.

(** A pending or running entry of the same operator. *)
Definition duplicate_entry (op : Operator) (r : row) : bool :=
  match entry_from_bytes r.2 with
  | Some e => (is_pending e || is_running e) && bool_decide (qe_op e = op)
  | None => false
  end.

Definition enqueue (d : db) (op : Operator) (requester proposed_at_unix rev : Z) : result db :=
  if existsb (duplicate_entry op) (queue_rows d) then Ok d
  else
    x ← entry_to_bytes (new_pending rev op requester proposed_at_unix);
    Ok (tx_insert TABLE_KV (encode_pd_op_key rev) x d).

Definition record_intent (d : db) (intent : PdIntent) : result db :=
  let key := encode_pd_intent_key (in_op_id intent) in
  match tx_get d TABLE_KV key with
  | Some _ => Ok d
  | None => x ← intent_to_bytes intent; Ok (tx_insert TABLE_KV key x d)
  end.

(** The table and the phase change in one transaction. *)
Definition cutover (d : db) (op_id : Z) : result db :=
  let key := encode_pd_intent_key op_id in
  match tx_get d TABLE_KV key ≫= intent_from_bytes with
  | None => Ok d
  | Some intent =>
    if decide (in_phase intent = Prepared) then
      t ← region_table d;
      let expected := expected_table_version (in_plan intent) in
      '(phase, d) ←
        (if negb (rt_version t =? expected) then Ok (Rejected (TableMoved (rt_version t) expected), d)
         else
           match region_apply t (plan_changes (in_plan intent)) with
           | Ok (_, t) =>
             x ← region_table_encode t;
             Ok (Applied (rt_version t), tx_insert TABLE_KV REGION_TABLE_KEY x d)
           | Err e => Ok (Rejected (PlanRefused e), d)
           end);
      x ← intent_to_bytes (set_phase intent phase);
      Ok (tx_insert TABLE_KV key x d)
    else Ok d
  end.

Definition run_pd_op (d : db) (op : PdOp) (rev : Z) : result db :=
  match op with
  | Enqueue op requester proposed_at_unix => enqueue d op requester proposed_at_unix rev
  | Claim op_id node_id claimed_at_unix =>
    update_entry d op_id (fun e => try_claim e node_id claimed_at_unix)
  | Complete op_id node_id success error =>
    update_entry d op_id (fun e => try_complete e node_id success error)
  | Requeue op_id => update_entry d op_id try_requeue
  | RecordIntent intent => record_intent d intent
  | Cutover op_id => cutover d op_id
  | ClearIntent op_id => Ok (tx_remove TABLE_KV (encode_pd_intent_key op_id) d)
  end.

(** The keys of the finished entries, and the removal of the oldest ones. *)
Definition terminal_keys (d : db) : list bytes :=
  omap (fun r : row =>
          match entry_from_bytes r.2 with
          | Some e => if is_terminal e then Some r.1 else None
          | None => None
          end) (queue_rows d).

Definition trim_terminal (d : db) : db :=
  let terminal := terminal_keys d in
  let excess := (length terminal - PD_QUEUE_MAX_TERMINAL)%nat in
  foldl (fun d k => tx_remove TABLE_KV k d) d (take excess terminal).

(** [true] is a replay. *)
Definition apply_pd_op (s : MvccStorage) (d : db) (op : PdOp) (rev : Z) (applied : AppliedLogId)
    : result bool * db :=
  if changelog_contains_revision d rev then (Ok true, d)
  else
    backend_write d (fun d =>
      let d := note_log_index_revision s d rev in
      d ← run_pd_op d op rev;
      let d := trim_terminal d in
      let event := {| revision := rev; changes := []; event_type := EvPut |} in
      Ok (false, insert_last_applied applied (insert_event event d))).

(** ** Readers *)

Definition pd_intent (d : db) (op_id : Z) : option PdIntent :=
  tx_get d TABLE_KV (encode_pd_intent_key op_id) ≫= intent_from_bytes.

(** [sort_by_key] keeps equal keys in order. *)
Fixpoint insert_by {A : Type} (key : A -> Z) (a : A) (l : list A) : list A :=
  match l with
  | [] => [a]
  | a' :: l => if key a <=? key a' then a :: a' :: l else a' :: insert_by key a l
  end.

Definition sort_by_key {A : Type} (key : A -> Z) (l : list A) : list A := foldr (insert_by key) [] l.

Definition pd_intents (d : db) : list PdIntent :=
  sort_by_key in_op_id (omap (fun r : row => intent_from_bytes r.2) (iter_prefix d TABLE_KV PD_INTENT_PREFIX)).

Definition pd_queue_entries (d : db) : list PdQueueEntry :=
  sort_by_key qe_op_id (omap (fun r : row => entry_from_bytes r.2) (queue_rows d)).

End storage.
