(* ===== verification/PdQueueSpec.v ===== *)
(** * What the queue of the placement driver does

    The queue as a list of entries in the order of their numbers, the journal
    as a map, and every command as a function on them; the rows of Region 0
    represent such a state and [apply_pd_op] runs the function. *)

From S2P Require Export PdQueue RegionTableStore.

Local Open Scope Z_scope.

(** ** The abstract state *)

Record PdState := {
  pd_queue : list PdQueueEntry;
  pd_journal : gmap Z PdIntent;
  pd_table : RegionTable }.

Definition live (e : PdQueueEntry) : bool := is_pending e || is_running e.

Definition spec_enqueue (op : Operator) (requester proposed_at_unix rev : Z) (q : list PdQueueEntry)
    : list PdQueueEntry :=
  if existsb (fun e => live e && bool_decide (qe_op e = op)) q then q
  else q ++ [new_pending rev op requester proposed_at_unix].

Definition spec_update (op_id : Z) (f : PdQueueEntry -> option PdQueueEntry) (q : list PdQueueEntry)
    : list PdQueueEntry :=
  (fun e => if qe_op_id e =? op_id then default e (f e) else e) <$> q.

Definition cutover_outcome (t : RegionTable) (plan : SplitMergePlan) : IntentPhase * RegionTable :=
  if negb (rt_version t =? expected_table_version plan)
  then (Rejected (TableMoved (rt_version t) (expected_table_version plan)), t)
  else match region_apply t (plan_changes plan) with
       | Ok (_, t') => (Applied (rt_version t'), t')
       | Err e => (Rejected (PlanRefused e), t)
       end.

Definition spec_cutover (op_id : Z) (j : gmap Z PdIntent) (t : RegionTable)
    : gmap Z PdIntent * RegionTable :=
  match j !! op_id with
  | Some intent =>
    if decide (in_phase intent = Prepared)
    then let '(phase, t) := cutover_outcome t (in_plan intent) in
         (<[op_id := set_phase intent phase]> j, t)
    else (j, t)
  | None => (j, t)
  end.

(** The oldest [n] finished entries go. *)
Fixpoint drop_terminal (n : nat) (q : list PdQueueEntry) : list PdQueueEntry :=
  match q with
  | [] => []
  | e :: q =>
    if is_terminal e then
      match n with
      | O => e :: q
      | S n => drop_terminal n q
      end
    else e :: drop_terminal n q
  end.

Definition terminals (q : list PdQueueEntry) : list PdQueueEntry := List.filter is_terminal q.

Definition spec_trim (q : list PdQueueEntry) : list PdQueueEntry :=
  drop_terminal (length (terminals q) - PD_QUEUE_MAX_TERMINAL) q.

Definition spec_run (st : PdState) (op : PdOp) (rev : Z) : PdState :=
  let with_queue q := {| pd_queue := q; pd_journal := pd_journal st; pd_table := pd_table st |} in
  let with_journal j :=
    {| pd_queue := pd_queue st; pd_journal := j; pd_table := pd_table st |} in
  match op with
  | Enqueue op requester at_ => with_queue (spec_enqueue op requester at_ rev (pd_queue st))
  | Claim op_id node_id at_ =>
    with_queue (spec_update op_id (fun e => try_claim e node_id at_) (pd_queue st))
  | Complete op_id node_id success error =>
    with_queue (spec_update op_id (fun e => try_complete e node_id success error) (pd_queue st))
  | Requeue op_id => with_queue (spec_update op_id try_requeue (pd_queue st))
  | RecordIntent intent =>
    with_journal (match pd_journal st !! in_op_id intent with
                  | Some _ => pd_journal st
                  | None => <[in_op_id intent := intent]> (pd_journal st)
                  end)
  | Cutover op_id =>
    let '(j, t) := spec_cutover op_id (pd_journal st) (pd_table st) in
    {| pd_queue := pd_queue st; pd_journal := j; pd_table := t |}
  | ClearIntent op_id => with_journal (base.delete op_id (pd_journal st))
  end.

Definition spec_pd_op (st : PdState) (op : PdOp) (rev : Z) : PdState :=
  let st := spec_run st op rev in
  {| pd_queue := spec_trim (pd_queue st); pd_journal := pd_journal st; pd_table := pd_table st |}.

(** The number a command names. *)
Definition op_number (op : PdOp) : option Z :=
  match op with
  | Enqueue _ _ _ => None
  | Claim op_id _ _ | Complete op_id _ _ _ | Requeue op_id | Cutover op_id | ClearIntent op_id => Some op_id
  | RecordIntent intent => Some (in_op_id intent)
  end.

(** ** Trimming *)

Lemma drop_terminal_keep n q e : e ∈ q -> is_terminal e = false -> e ∈ drop_terminal n q.
Proof.
  revert n. induction q as [|e' q IH]; intros n He Ht; [done|]. cbn [drop_terminal].
  apply elem_of_cons in He as [->|He].
  - rewrite Ht. by left.
  - destruct (is_terminal e'); [|right; by apply IH]. destruct n; [by right|by apply IH].
Qed.

Lemma drop_terminal_sub n q e : e ∈ drop_terminal n q -> e ∈ q.
Proof.
  revert n. induction q as [|e' q IH]; intros n; [done|]. cbn [drop_terminal].
  destruct (is_terminal e'); [destruct n; [done|]|]; rewrite ?elem_of_cons; intros H;
    [right; by apply (IH n)|destruct H as [->|H]; [by left|right; by apply (IH n)]].
Qed.

Lemma drop_terminal_terminals n q : terminals (drop_terminal n q) = drop n (terminals q).
Proof.
  revert n. induction q as [|e q IH]; intros n; cbn [drop_terminal]; [by destruct n|].
  unfold terminals in *. destruct (is_terminal e) eqn:E; [|cbn [List.filter]; rewrite E; apply IH].
  destruct n; cbn [List.filter]; rewrite E; [done|apply IH].
Qed.

Lemma drop_terminal_zero q : drop_terminal 0 q = q.
Proof.
  induction q as [|e q IH]; [done|]. cbn [drop_terminal]. destruct (is_terminal e); [done|by rewrite IH].
Qed.

Lemma spec_trim_bound q : (length (terminals (spec_trim q)) <= PD_QUEUE_MAX_TERMINAL)%nat.
Proof. unfold spec_trim. rewrite drop_terminal_terminals, length_drop. lia. Qed.

(** Removing the entries one by one. *)
Lemma drop_terminal_filter n q :
  NoDup (qe_op_id <$> q) ->
  foldl (fun q e => List.filter (fun e' => negb (qe_op_id e' =? qe_op_id e)) q) q (take n (terminals q))
  = drop_terminal n q.
Proof.
  revert n. induction q as [|e q IH]; intros n Hnd; [by destruct n|].
  rewrite fmap_cons in Hnd. apply NoDup_cons in Hnd as [He Hnd].
  assert (forall l q', Forall (fun e' => qe_op_id e <> qe_op_id e') l ->
    foldl (fun q e => List.filter (fun e' => negb (qe_op_id e' =? qe_op_id e)) q) (e :: q') l =
    e :: foldl (fun q e => List.filter (fun e' => negb (qe_op_id e' =? qe_op_id e)) q) q' l) as Hcons.
  { induction l as [|x l IHl]; intros q' Hl; [done|]. apply Forall_cons in Hl as [Hx Hl].
    cbn [foldl List.filter]. destruct (Z.eqb_spec (qe_op_id e) (qe_op_id x)); [done|]. simpl.
    by apply IHl. }
  assert (Forall (fun e' => qe_op_id e <> qe_op_id e') (terminals q)) as Hq.
  { apply Forall_forall. intros x [_ Hx]%elem_of_List_filter E. apply He. rewrite E.
    by apply list_elem_of_fmap_2. }
  unfold terminals in *. cbn [List.filter drop_terminal]. destruct (is_terminal e) eqn:Et.
  - destruct n; [done|]. cbn [take foldl List.filter]. rewrite Z.eqb_refl. cbn [negb].
    rewrite <-IH by done. f_equal. apply filter_all. intros x Hx.
    apply negb_true_iff, Z.eqb_neq. intros E. apply He. rewrite <-E. by apply list_elem_of_fmap_2.
  - rewrite Hcons; [by rewrite IH|]. by apply Forall_take.
Qed.

(** ** Representation *)

Section rep.
Context {pe : Postcard PdQueueEntry} {pn : Postcard PdIntent} {pt : Postcard RegionTable}.
Context {ple : PostcardLaws PdQueueEntry} {pln : PostcardLaws PdIntent} {plt : PostcardLaws RegionTable}.

Definition entry_bytes (e : PdQueueEntry) : bytes := default [] (envelope_encode e).
Definition intent_bytes (i : PdIntent) : bytes := default [] (envelope_encode i).

Lemma entry_encodes e : entry_to_bytes e = Ok (entry_bytes e).
Proof using ple. unfold entry_to_bytes, entry_bytes. by destruct (encode_total e) as [x ->]. Qed.
Lemma entry_decodes e : entry_from_bytes (entry_bytes e) = Some e.
Proof using ple.
  unfold entry_from_bytes, entry_bytes. destruct (encode_total e) as [x E]. rewrite E.
  by apply decode_ok_encode.
Qed.
Lemma intent_encodes i : intent_to_bytes i = Ok (intent_bytes i).
Proof using pln. unfold intent_to_bytes, intent_bytes. by destruct (encode_total i) as [x ->]. Qed.
Lemma intent_decodes i : intent_from_bytes (intent_bytes i) = Some i.
Proof using pln.
  unfold intent_from_bytes, intent_bytes. destruct (encode_total i) as [x E]. rewrite E.
  by apply decode_ok_encode.
Qed.

Abbreviation queue_row := (keyed_row PD_QUEUE_PREFIX qe_op_id entry_bytes).

Record pd_rep (d : db) (st : PdState) : Prop := {
  pr_queue : queue_rows d = queue_row <$> pd_queue st;
  pr_sorted : keyed_ok qe_op_id (pd_queue st);
  pr_journal : forall x v, tx_get d TABLE_KV (PD_INTENT_PREFIX ++ x) = Some v <->
    exists k i, in_u64 k /\ x = be64 k /\ pd_journal st !! k = Some i /\ v = intent_bytes i;
  pr_numbers : forall k i, pd_journal st !! k = Some i -> in_op_id i = k;
  pr_table : region_table d = Ok (pd_table st) }.

(** Only the rows of the queue, the journal and the table count. *)
Lemma pd_rep_frame d d' st :
  agree [PD_QUEUE_PREFIX; PD_INTENT_PREFIX; REGION_TABLE_KEY] d d' -> pd_rep d st -> pd_rep d' st.
Proof using.
  intros Ha [H1 H2 H3 H4 H5]. split; try done.
  - rewrite <-H1. eapply agree_iter_prefix; [exact Ha|by left].
  - intros x v. rewrite Ha by (right; left). apply H3.
  - unfold region_table. rewrite (agree_key _ d d' _ Ha); [done|]. right; right; by left.
Qed.

Lemma pd_rep_same d d' st : same_table TABLE_KV d' d -> pd_rep d st -> pd_rep d' st.
Proof using. intros H. by apply pd_rep_frame, same_table_agree. Qed.

Lemma intent_get d st k :
  pd_rep d st -> in_u64 k -> tx_get d TABLE_KV (encode_pd_intent_key k) = intent_bytes <$> pd_journal st !! k.
Proof using.
  intros Hrep Hk. unfold encode_pd_intent_key. apply option_eq. intros v.
  rewrite (pr_journal _ _ Hrep), fmap_Some. split.
  - intros (k' & i & Hk' & E%be64_inj & Hi & ->); [|done|done]. subst k'. by exists i.
  - intros (i & Hi & ->). by exists k, i.
Qed.

Lemma entry_get d st k :
  pd_rep d st -> in_u64 k ->
  tx_get d TABLE_KV (encode_pd_op_key k) =
  entry_bytes <$> List.find (fun e => qe_op_id e =? k) (pd_queue st).
Proof using.
  intros Hrep Hk. apply (keyed_lookup TABLE_KV PD_QUEUE_PREFIX qe_op_id entry_bytes); [done| |].
  - apply (pr_sorted _ _ Hrep).
  - apply (pr_queue _ _ Hrep).
Qed.

(** A new queue, or a new journal, and the rest as it was. *)
Lemma pd_rep_queue d d' st q :
  touches [PD_QUEUE_PREFIX] d d' -> queue_rows d' = queue_row <$> q -> keyed_ok qe_op_id q ->
  pd_rep d st -> pd_rep d' {| pd_queue := q; pd_journal := pd_journal st; pd_table := pd_table st |}.
Proof using.
  intros Ht Hq Hok [H1 H2 H3 H4 H5]. split; cbn [pd_queue pd_journal pd_table]; try done.
  - intros x v. rewrite (touches_get _ d d' PD_INTENT_PREFIX x Ht) by done. apply H3.
  - unfold region_table. by rewrite (touches_get_key _ d d' REGION_TABLE_KEY Ht).
Qed.

Lemma pd_rep_journal d d' st j :
  touches [PD_INTENT_PREFIX] d d' -> (forall k i, j !! k = Some i -> in_op_id i = k) ->
  (forall x v, tx_get d' TABLE_KV (PD_INTENT_PREFIX ++ x) = Some v <->
    exists k i, in_u64 k /\ x = be64 k /\ j !! k = Some i /\ v = intent_bytes i) ->
  pd_rep d st -> pd_rep d' {| pd_queue := pd_queue st; pd_journal := j; pd_table := pd_table st |}.
Proof using.
  intros Ht Hn Hj [H1 H2 H3 H4 H5]. split; cbn [pd_queue pd_journal pd_table]; try done.
  - rewrite <-H1. by eapply touches_iter_prefix.
  - unfold region_table. by rewrite (touches_get_key _ d d' REGION_TABLE_KEY Ht).
Qed.

Lemma insert_intent_rep d st k i :
  in_u64 k -> in_op_id i = k -> pd_rep d st ->
  pd_rep (tx_insert TABLE_KV (encode_pd_intent_key k) (intent_bytes i) d)
    {| pd_queue := pd_queue st; pd_journal := <[k := i]> (pd_journal st); pd_table := pd_table st |}.
Proof using.
  intros Hk Hi Hrep. apply (pd_rep_journal d); [apply touches_insert; by left| | |done].
  - intros k' i'. rewrite lookup_insert_Some. intros [[<- <-]|[_ ?]]; [done|by apply (pr_numbers _ _ Hrep)].
  - intros x v. unfold encode_pd_intent_key. destruct (decide (x = be64 k)) as [->|Hx].
    + rewrite tx_get_insert. split.
      * intros [= <-]. exists k, i. by rewrite lookup_insert_eq.
      * intros (k' & i' & Hk' & E%be64_inj & Hi' & ->); [|done|done]. subst k'.
        rewrite lookup_insert_eq in Hi'. by injection Hi' as ->.
    + rewrite tx_get_insert_ne by (intros [= E]; by apply Hx).
      rewrite (pr_journal _ _ Hrep). split; intros (k' & i' & Hk' & -> & Hi' & ->); exists k', i';
        (split_and!; [done|done| |done]).
      * rewrite lookup_insert_ne; [done|]. by intros ->.
      * rewrite lookup_insert_ne in Hi'; [done|]. by intros ->.
Qed.

Lemma delete_intent_rep d st k :
  in_u64 k -> pd_rep d st ->
  pd_rep (tx_remove TABLE_KV (encode_pd_intent_key k) d)
    {| pd_queue := pd_queue st; pd_journal := base.delete k (pd_journal st); pd_table := pd_table st |}.
Proof using.
  intros Hk Hrep. apply (pd_rep_journal d); [apply touches_remove; by left| | |done].
  - intros k' i'. rewrite lookup_delete_Some. intros [_ ?]. by apply (pr_numbers _ _ Hrep).
  - intros x v. unfold encode_pd_intent_key. destruct (decide (x = be64 k)) as [->|Hx].
    + rewrite tx_get_remove. split; [done|].
      intros (k' & i' & Hk' & E%be64_inj & Hi' & ->); [|done|done]. subst k'.
      by rewrite lookup_delete_eq in Hi'.
    + rewrite tx_get_remove_ne by (intros [= E]; by apply Hx).
      rewrite (pr_journal _ _ Hrep). split; intros (k' & i' & Hk' & -> & Hi' & ->); exists k', i';
        (split_and!; [done|done| |done]).
      * rewrite lookup_delete_ne; [done|]. by intros ->.
      * rewrite lookup_delete_ne in Hi'; [done|]. by intros ->.
Qed.

(** ** The commands *)

Lemma existsb_rows op q :
  existsb (duplicate_entry op) (queue_row <$> q) = existsb (fun e => live e && bool_decide (qe_op e = op)) q.
Proof using ple.
  induction q as [|e q IH]; [done|]. rewrite fmap_cons. cbn [existsb]. rewrite IH. f_equal.
  unfold duplicate_entry. cbn [snd keyed_row]. by rewrite entry_decodes.
Qed.

Lemma enqueue_rep d st op requester at_ rev :
  pd_rep d st -> in_u64 rev -> Forall (fun e => qe_op_id e < rev) (pd_queue st) ->
  exists d', enqueue d op requester at_ rev = Ok d' /\ touches [PD_QUEUE_PREFIX] d d' /\
    pd_rep d' (spec_run st (Enqueue op requester at_) rev).
Proof using ple.
  intros Hrep Hr Hlt. unfold enqueue. rewrite (pr_queue _ _ Hrep), existsb_rows.
  cbn [spec_run]. unfold spec_enqueue. destruct (existsb _ (pd_queue st)).
  { exists d. split_and!; [done|done|]. by destruct st. }
  rewrite entry_encodes. cbn [mbind result_bind]. eexists. split; [done|].
  assert (touches [PD_QUEUE_PREFIX] d (tx_insert TABLE_KV (encode_pd_op_key rev)
    (entry_bytes (new_pending rev op requester at_)) d)) as Ht by (apply touches_insert; by left).
  split; [done|]. pose proof (pr_sorted _ _ Hrep) as Hs.
  apply (pd_rep_queue d); [done| |by apply keyed_ok_snoc|done].
  exact (keyed_append TABLE_KV PD_QUEUE_PREFIX qe_op_id entry_bytes d (pd_queue st)
    (new_pending rev op requester at_) Hs Hr Hlt (pr_queue _ _ Hrep)).
Qed.

Lemma keyed_ok_unique l e e' :
  keyed_ok qe_op_id l -> e ∈ l -> e' ∈ l -> qe_op_id e = qe_op_id e' -> e = e'.
Proof using.
  intros [_ Hs]. apply NoDup_fmap_inj_elem. exact (StronglySorted_NoDup_fmap qe_op_id Z.lt _ Hs).
Qed.

Lemma update_entry_rep d st op_id f :
  pd_rep d st -> in_u64 op_id -> (forall e e', f e = Some e' -> qe_op_id e' = qe_op_id e) ->
  exists d', update_entry d op_id f = Ok d' /\ touches [PD_QUEUE_PREFIX] d d' /\
    pd_rep d' {| pd_queue := spec_update op_id f (pd_queue st); pd_journal := pd_journal st;
                 pd_table := pd_table st |}.
Proof using ple.
  intros Hrep Hk Hf. pose proof (pr_sorted _ _ Hrep) as Hs.
  assert (forall e, e ∈ pd_queue st -> qe_op_id e = op_id -> f e = None ->
    spec_update op_id f (pd_queue st) = pd_queue st) as Hsame.
  { intros e He Ee Hn. unfold spec_update. rewrite <-(list_fmap_id (pd_queue st)) at 2.
    apply list_fmap_ext. intros i x Hx%list_elem_of_lookup_2.
    destruct (Z.eqb_spec (qe_op_id x) op_id) as [Ex|]; [|done].
    rewrite (keyed_ok_unique _ x e Hs Hx He) by congruence. by rewrite Hn. }
  unfold update_entry. rewrite (entry_get d st op_id Hrep Hk).
  destruct (List.find _ (pd_queue st)) as [e|] eqn:Ef; cbn [fmap option_fmap option_map mbind option_bind].
  - apply List.find_some in Ef as [He%list_elem_of_In Ee%Z.eqb_eq]. rewrite entry_decodes.
    destruct (f e) as [e'|] eqn:Efe.
    + rewrite entry_encodes. cbn [mbind result_bind]. eexists. split; [done|].
      assert (qe_op_id e' = op_id) as He' by (rewrite <-Ee; by apply Hf). subst op_id.
      split; [apply touches_insert; by left|]. rewrite <-He'.
      assert (spec_update (qe_op_id e') f (pd_queue st) = replace_key qe_op_id e' (pd_queue st)) as ->.
      { apply list_fmap_ext. intros i x Hx%list_elem_of_lookup_2.
        destruct (Z.eqb_spec (qe_op_id x) (qe_op_id e')) as [Ex|]; [|done].
        rewrite (keyed_ok_unique _ x e Hs Hx He) by congruence. by rewrite Efe. }
      apply (pd_rep_queue d); [apply touches_insert; by left| |by apply keyed_ok_replace|done].
      apply (keyed_replace TABLE_KV PD_QUEUE_PREFIX qe_op_id entry_bytes); [done| |apply (pr_queue _ _ Hrep)].
      rewrite He'. by apply list_elem_of_fmap_2.
    + exists d. split_and!; [done|done|]. rewrite (Hsame e He Ee Efe). by destruct st.
  - exists d. split_and!; [done|done|].
    assert (spec_update op_id f (pd_queue st) = pd_queue st) as ->; [|by destruct st].
    unfold spec_update. rewrite <-(list_fmap_id (pd_queue st)) at 2.
    apply list_fmap_ext. intros i x Hx%list_elem_of_lookup_2%list_elem_of_In.
    by rewrite (List.find_none _ _ Ef x Hx).
Qed.

Lemma record_intent_rep d st intent rev :
  pd_rep d st -> in_u64 (in_op_id intent) ->
  exists d', record_intent d intent = Ok d' /\ touches [PD_INTENT_PREFIX] d d' /\
    pd_rep d' (spec_run st (RecordIntent intent) rev).
Proof using pln.
  intros Hrep Hk. unfold record_intent. rewrite (intent_get d st _ Hrep Hk). cbn [spec_run].
  destruct (pd_journal st !! in_op_id intent) as [i|]; cbn [fmap option_fmap option_map].
  { exists d. split_and!; [done|done|]. by destruct st. }
  rewrite intent_encodes. cbn [mbind result_bind]. eexists.
  split; [done|]. split; [apply touches_insert; by left|]. by apply insert_intent_rep.
Qed.

Lemma write_table_rep d st t x :
  pd_rep d st -> region_table_encode t = Ok x -> region_table_decode x = Ok t ->
  pd_rep (tx_insert TABLE_KV REGION_TABLE_KEY x d)
    {| pd_queue := pd_queue st; pd_journal := pd_journal st; pd_table := t |}.
Proof using.
  intros [H1 H2 H3 H4 H5] He Hd.
  assert (touches [REGION_TABLE_KEY] d (tx_insert TABLE_KV REGION_TABLE_KEY x d)) as Ht
    by (apply touches_insert_key; by left).
  split; cbn [pd_queue pd_journal pd_table]; try done.
  - rewrite <-H1. by eapply touches_iter_prefix.
  - intros y v. rewrite (touches_get _ d _ PD_INTENT_PREFIX y Ht) by done. apply H3.
  - unfold region_table. by rewrite tx_get_insert.
Qed.

Lemma cutover_outcome_ok t plan :
  table_ok t -> 0 <= rt_version t < u64_max -> table_ok (cutover_outcome t plan).2.
Proof using.
  intros Hok Hv. unfold cutover_outcome. destruct (negb _); [done|].
  destruct (region_apply t (plan_changes plan)) as [[changed t']|] eqn:E; [|done].
  by apply (run_region_op_ok t (RegionApply (plan_changes plan)) changed t').
Qed.

Lemma cutover_rep d st op_id rev :
  pd_rep d st -> in_u64 op_id -> table_ok (pd_table st) -> 0 <= rt_version (pd_table st) < u64_max ->
  exists d', cutover d op_id = Ok d' /\ touches [PD_INTENT_PREFIX; REGION_TABLE_KEY] d d' /\
    pd_rep d' (spec_run st (Cutover op_id) rev).
Proof using pln plt.
  intros Hrep Hk Hok Hv. unfold cutover. rewrite (intent_get d st _ Hrep Hk). cbn [spec_run].
  unfold spec_cutover.
  destruct (pd_journal st !! op_id) as [i|] eqn:Ei; cbn [fmap option_fmap option_map mbind option_bind].
  2: { exists d. split_and!; [done|done|]. by destruct st. }
  rewrite intent_decodes. destruct (decide (in_phase i = Prepared)).
  2: { exists d. split_and!; [done|done|]. by destruct st. }
  pose proof (pr_numbers _ _ Hrep _ _ Ei) as Hn.
  rewrite (pr_table _ _ Hrep). cbn [mbind result_bind]. pose proof (cutover_outcome_ok _ (in_plan i) Hok Hv) as Hok'.
  assert (forall d0 x, touches [PD_INTENT_PREFIX; REGION_TABLE_KEY] d d0 ->
    touches [PD_INTENT_PREFIX; REGION_TABLE_KEY] d (tx_insert TABLE_KV (encode_pd_intent_key op_id) x d0)) as Ht.
  { intros d0 x H0. etransitivity; [exact H0|]. apply touches_insert. by left. }
  unfold cutover_outcome in *. destruct (negb _); cbn [mbind result_bind].
  { rewrite intent_encodes. cbn [mbind result_bind]. eexists. split; [done|]. split; [by apply Ht|].
    by apply insert_intent_rep. }
  destruct (region_apply _ _) as [[changed t']|err]; cbn [mbind result_bind].
  2: { rewrite intent_encodes. cbn [mbind result_bind]. eexists. split; [done|]. split; [by apply Ht|].
       by apply insert_intent_rep. }
  cbn [snd] in Hok'. destruct (region_table_roundtrip t') as (x & Ex & Dx).
  { by apply region_validate_iff; [apply (to_init _ Hok')|]. }
  rewrite Ex. cbn [mbind result_bind]. rewrite intent_encodes. cbn [mbind result_bind].
  eexists. split; [done|]. split.
  - apply Ht, touches_insert_key. right. by left.
  - pose proof (write_table_rep d st t' x Hrep Ex Dx) as Hw.
    exact (insert_intent_rep _ _ op_id (set_phase i (Applied (rt_version t'))) Hk Hn Hw).
Qed.

Lemma terminal_keys_rep d st :
  pd_rep d st -> terminal_keys d = (fun e => encode_pd_op_key (qe_op_id e)) <$> terminals (pd_queue st).
Proof using ple.
  intros Hrep. unfold terminal_keys. rewrite (pr_queue _ _ Hrep). clear Hrep.
  induction (pd_queue st) as [|e q IH]; [done|]. rewrite fmap_cons. cbn [omap list_omap].
  cbn [snd keyed_row]. rewrite entry_decodes. unfold terminals in *. cbn [List.filter].
  destruct (is_terminal e); [|done]. rewrite fmap_cons. f_equal. exact IH.
Qed.

Lemma trim_terminal_rep d st :
  pd_rep d st ->
  touches [PD_QUEUE_PREFIX] d (trim_terminal d) /\
  pd_rep (trim_terminal d)
    {| pd_queue := spec_trim (pd_queue st); pd_journal := pd_journal st; pd_table := pd_table st |}.
Proof using ple.
  intros Hrep. unfold trim_terminal. rewrite (terminal_keys_rep d st Hrep), length_fmap.
  unfold spec_trim. set (n := (_ - _)%nat). clearbody n. rewrite <-fmap_take.
  pose proof (pr_sorted _ _ Hrep) as [Hu Hs].
  rewrite <-drop_terminal_filter by exact (StronglySorted_NoDup_fmap qe_op_id Z.lt _ Hs).
  assert (Forall (fun e => in_u64 (qe_op_id e)) (take n (terminals (pd_queue st)))) as Hl.
  { apply Forall_take. rewrite Forall_forall in *. intros e [_ He]%elem_of_List_filter. by apply Hu. }
  clear Hu Hs. revert Hl. generalize (take n (terminals (pd_queue st))) as l. intros l.
  revert d st Hrep.
  induction l as [|e l IH]; intros d st Hrep Hl.
  { split; [done|]. by destruct st. }
  apply Forall_cons in Hl as [He Hl]. rewrite fmap_cons. cbn [foldl].
  assert (touches [PD_QUEUE_PREFIX] d (tx_remove TABLE_KV (encode_pd_op_key (qe_op_id e)) d)) as Ht
    by (apply touches_remove; by left).
  pose proof (pr_sorted _ _ Hrep) as Hs.
  destruct (IH (tx_remove TABLE_KV (encode_pd_op_key (qe_op_id e)) d)
    {| pd_queue := List.filter (fun e' => negb (qe_op_id e' =? qe_op_id e)) (pd_queue st);
       pd_journal := pd_journal st; pd_table := pd_table st |}) as [H1 H2]; [|done|].
  - apply (pd_rep_queue d); [done| |by apply keyed_ok_filter|done].
    apply (keyed_delete TABLE_KV PD_QUEUE_PREFIX qe_op_id entry_bytes); [done|done|apply (pr_queue _ _ Hrep)].
  - split; [by etransitivity|exact H2].
Qed.

Lemma try_op_id e e' n at_ ok err :
  try_claim e n at_ = Some e' \/ try_complete e n ok err = Some e' \/ try_requeue e = Some e' ->
  qe_op_id e' = qe_op_id e.
Proof using.
  unfold try_claim, try_complete, try_requeue.
  intros [H|[H|H]]; (destruct (_ : bool) in H; [|done]); by injection H as <-.
Qed.

Lemma run_pd_op_rep d st op rev :
  pd_rep d st -> in_u64 rev -> Forall (fun e => qe_op_id e < rev) (pd_queue st) ->
  from_option in_u64 True (op_number op) -> table_ok (pd_table st) -> 0 <= rt_version (pd_table st) < u64_max ->
  exists d', run_pd_op d op rev = Ok d' /\
    touches [PD_QUEUE_PREFIX; PD_INTENT_PREFIX; REGION_TABLE_KEY] d d' /\ pd_rep d' (spec_run st op rev).
Proof using ple pln plt.
  intros Hrep Hr Hlt Hn Hok Hv.
  assert (forall ps st', ps ⊆ [PD_QUEUE_PREFIX; PD_INTENT_PREFIX; REGION_TABLE_KEY] ->
    (exists d', run_pd_op d op rev = Ok d' /\ touches ps d d' /\ pd_rep d' st') ->
    exists d', run_pd_op d op rev = Ok d' /\
      touches [PD_QUEUE_PREFIX; PD_INTENT_PREFIX; REGION_TABLE_KEY] d d' /\ pd_rep d' st') as Hw.
  { intros ps st' Hps (d' & ? & ? & ?). exists d'. split_and!; [done| |done]. by eapply touches_mono. }
  destruct op; cbn [run_pd_op op_number from_option] in *.
  - eapply (Hw [PD_QUEUE_PREFIX]); [set_solver +|by apply enqueue_rep].
  - eapply (Hw [PD_QUEUE_PREFIX]); [set_solver +|apply update_entry_rep; [done..|]].
    intros e e' E. by eapply (try_op_id e e' _ _ true []); left.
  - eapply (Hw [PD_QUEUE_PREFIX]); [set_solver +|apply update_entry_rep; [done..|]].
    intros e e' E. by eapply (try_op_id e e' _ 0); right; left.
  - eapply (Hw [PD_QUEUE_PREFIX]); [set_solver +|apply update_entry_rep; [done..|]].
    intros e e' E. by eapply (try_op_id e e' 0 0 true []); right; right.
  - eapply (Hw [PD_INTENT_PREFIX]); [set_solver +|by apply record_intent_rep].
  - eapply (Hw [PD_INTENT_PREFIX; REGION_TABLE_KEY]); [set_solver +|by apply cutover_rep].
  - eapply (Hw [PD_INTENT_PREFIX]); [set_solver +|]. eexists. split; [done|].
    split; [apply touches_remove; by left|]. by apply delete_intent_rep.
Qed.

(** ** The command *)

Lemma apply_pd_op_rep s d st op rev applied :
  pd_rep d st -> in_u64 rev -> Forall (fun e => qe_op_id e < rev) (pd_queue st) ->
  from_option in_u64 True (op_number op) -> table_ok (pd_table st) -> 0 <= rt_version (pd_table st) < u64_max ->
  changelog_contains_revision d rev = false ->
  exists d', apply_pd_op s d op rev applied = (Ok false, d') /\ pd_rep d' (spec_pd_op st op rev) /\
    forall r, in_u64 r ->
      changelog_contains_revision d' r = (r =? rev) || changelog_contains_revision d r.
Proof using ple pln plt.
  intros Hrep Hr Hlt Hn Hok Hv Hc. unfold apply_pd_op. rewrite Hc. unfold backend_write. cbv zeta.
  assert (pd_rep (note_log_index_revision s d rev) st) as Hrep1.
  { apply (pd_rep_same d); [|done]. unfold note_log_index_revision, set_current_revision. frame. }
  destruct (run_pd_op_rep _ st op rev Hrep1 Hr Hlt Hn Hok Hv) as (d1 & -> & Ht1 & Hrep2).
  cbn [mbind result_bind]. destruct (trim_terminal_rep d1 _ Hrep2) as [Ht2 Hrep3].
  eexists. split; [done|]. split.
  - eapply pd_rep_same; [|exact Hrep3]. unfold insert_last_applied, insert_event. frame.
  - intros r Hr'. unfold changelog_contains_revision, insert_last_applied, insert_event.
    rewrite tx_get_insert_ne by done. cbn [revision]. destruct (Z.eqb_spec r rev) as [->|Hne].
    { rewrite tx_get_insert. apply bool_decide_eq_true. by eexists. }
    rewrite tx_get_insert_ne.
    2: { intros E. destruct Hne. apply (f_equal snd), encode_changelog_key_inj in E; done. }
    rewrite Ht2, Ht1 by (by left). unfold note_log_index_revision, set_current_revision.
    repeat case_match; by rewrite ?tx_get_insert_ne.
Qed.

(** ** Reading the queue *)

Lemma sort_by_key_sorted {A : Type} (key : A -> Z) l :
  StronglySorted (fun a a' => key a < key a') l -> sort_by_key key l = l.
Proof using.
  induction 1 as [|a l _ IH Ha]; [done|]. cbn [sort_by_key foldr]. fold (sort_by_key key l). rewrite IH.
  destruct l as [|a' l]; [done|]. apply Forall_cons in Ha as [Ha _]. cbn [insert_by].
  by destruct (Z.leb_spec (key a) (key a')); [|lia].
Qed.

Lemma pd_queue_entries_rep d st : pd_rep d st -> pd_queue_entries d = pd_queue st.
Proof using ple.
  intros Hrep. unfold pd_queue_entries. rewrite (pr_queue _ _ Hrep).
  assert (omap (fun r : row => entry_from_bytes r.2) (queue_row <$> pd_queue st) = pd_queue st) as ->.
  { generalize (pd_queue st) as q. induction q as [|e q IH]; [done|]. cbn. rewrite entry_decodes. by f_equal. }
  apply sort_by_key_sorted, (pr_sorted _ _ Hrep).
Qed.

End rep.
