(* ===== verification/PdQueueSafety.v ===== *)
(** * Runs of Region 0: claims and cutovers

    What holds along any sequence of commands for the queue and the Region
    table: the shape of the queue, who may finish an operator, and when a
    split or merge takes effect.  A claimed operator belongs to its claimant
    until it is requeued, and a split or merge changes the table once, to what
    was planned. *)

From S2P Require Export PdQueueSpec.

Local Open Scope Z_scope.

(** ** Commands in the order of the log *)

Inductive R0Command :=
  | R0Pd (op : PdOp)
  | R0Region (op : RegionMetaOp).

(** An entry of the log; its index is the revision. *)
Record R0Entry := { r0_rev : Z; r0_applied : AppliedLogId; r0_command : R0Command }.

Definition spec_region (t : RegionTable) (op : RegionMetaOp) : RegionTable :=
  match run_region_op t op with
  | Ok (_, t') => t'
  | Err _ => t
  end.

Definition spec_r0 (st : PdState) (e : R0Entry) : PdState :=
  match r0_command e with
  | R0Pd op => spec_pd_op st op (r0_rev e)
  | R0Region op => {| pd_queue := pd_queue st; pd_journal := pd_journal st;
                      pd_table := spec_region (pd_table st) op |}
  end.

Definition spec_log (st : PdState) (l : list R0Entry) : PdState := foldl spec_r0 st l.

Definition entry_number (e : R0Entry) : option Z :=
  match r0_command e with R0Pd op => op_number op | R0Region _ => None end.

(** Indexes grow and numbers fit into a word. *)
Fixpoint log_ok (last : Z) (l : list R0Entry) : Prop :=
  match l with
  | [] => True
  | e :: l => last < r0_rev e /\ in_u64 (r0_rev e) /\ from_option in_u64 True (entry_number e) /\
              log_ok (r0_rev e) l
  end.

Definition below (last : Z) (q : list PdQueueEntry) : Prop := Forall (fun e => qe_op_id e <= last) q.

(** ** The queue *)

(** What the fields of an entry say together. *)
Definition entry_ok (e : PdQueueEntry) : Prop :=
  match qe_status e with
  | Pending => qe_claimed_by e = 0 /\ qe_claimed_at_unix e = 0 /\ qe_error e = []
  | Running | Success => qe_error e = []
  | Failed error => qe_error e = error
  | Cancelled => False
  end.

Definition live_entries (q : list PdQueueEntry) : list PdQueueEntry := List.filter live q.

(** No operator is queued twice, and few finished entries are kept. *)
Record queue_ok (last : Z) (q : list PdQueueEntry) : Prop := {
  qo_sorted : keyed_ok qe_op_id q;
  qo_below : below last q;
  qo_entries : Forall entry_ok q;
  qo_distinct : NoDup (qe_op <$> live_entries q);
  qo_terminal : (length (terminals q) <= PD_QUEUE_MAX_TERMINAL)%nat }.

Lemma live_terminal e : live e = negb (is_terminal e).
Proof. unfold live, is_pending, is_running, is_terminal. by destruct (qe_status e). Qed.

Lemma live_drop_terminal n q : live_entries (drop_terminal n q) = live_entries q.
Proof.
  revert n. induction q as [|e q IH]; intros n; [done|]. cbn [drop_terminal]. unfold live_entries in *.
  destruct (is_terminal e) eqn:E.
  - destruct n; [done|]. cbn [List.filter]. rewrite live_terminal, E. apply IH.
  - cbn [List.filter]. rewrite live_terminal, E. cbn [negb]. by rewrite IH.
Qed.

Lemma keyed_ok_drop_terminal n q : keyed_ok qe_op_id q -> keyed_ok qe_op_id (drop_terminal n q).
Proof.
  intros Hq. rewrite <-drop_terminal_filter by exact (StronglySorted_NoDup_fmap qe_op_id Z.lt _ (proj2 Hq)).
  generalize (take n (terminals q)). intros l. revert q Hq.
  induction l as [|e l IH]; intros q Hq; [done|]. cbn [foldl]. by apply IH, keyed_ok_filter.
Qed.

Lemma Forall_drop_terminal (P : PdQueueEntry -> Prop) n q : Forall P q -> Forall P (drop_terminal n q).
Proof. rewrite !Forall_forall. intros H e He. by eapply H, drop_terminal_sub. Qed.

(** The methods keep the entry's identity, and its fields consistent. *)
Definition same_identity (e e' : PdQueueEntry) : Prop :=
  qe_op_id e' = qe_op_id e /\ qe_op e' = qe_op e /\ qe_requester e' = qe_requester e /\
  qe_proposed_at_unix e' = qe_proposed_at_unix e.

Definition transition (f : PdQueueEntry -> option PdQueueEntry) : Prop :=
  forall e e', f e = Some e' -> same_identity e e' /\ live e = true /\ (entry_ok e -> entry_ok e').

Lemma try_claim_transition n at_ : transition (fun e => try_claim e n at_).
Proof.
  intros e e'. unfold try_claim, is_pending. case_bool_decide as E; [|done]. intros [= <-].
  split; [done|]. unfold live, is_pending, entry_ok. rewrite E. by split; [|intros (_ & _ & ?)].
Qed.

Lemma try_complete_transition n ok err : transition (fun e => try_complete e n ok err).
Proof.
  intros e e'. unfold try_complete, is_running. case_bool_decide as E; [|done].
  destruct (_ =? _); [|done]. intros [= <-]. split; [done|].
  unfold live, is_pending, is_running, entry_ok. rewrite E. split; [done|]. by destruct ok.
Qed.

Lemma try_requeue_transition : transition try_requeue.
Proof.
  intros e e'. unfold try_requeue, is_running. case_bool_decide as E; [|done]. intros [= <-].
  split; [done|]. unfold live, is_pending, is_running, entry_ok. rewrite E. by split.
Qed.

Lemma spec_update_ok last op_id f q :
  transition f -> keyed_ok qe_op_id q -> below last q -> Forall entry_ok q -> NoDup (qe_op <$> live_entries q) ->
  let q' := spec_update op_id f q in
  keyed_ok qe_op_id q' /\ below last q' /\ Forall entry_ok q' /\ NoDup (qe_op <$> live_entries q').
Proof.
  intros Hf Hs Hb He Hd q'. unfold q', spec_update.
  set (g := fun e => if qe_op_id e =? op_id then default e (f e) else e).
  assert (forall e, same_identity e (g e)) as Hid.
  { intros e. unfold g. destruct (_ =? _); [|done]. destruct (f e) eqn:E; [|done]. by apply Hf. }
  assert (forall e, live (g e) = true -> live e = true) as Hlive.
  { intros e. unfold g. destruct (_ =? _); [|done]. destruct (f e) eqn:E; [|done]. intros _. by eapply Hf. }
  split_and!.
  - destruct Hs as [Hu Hs]. split.
    + rewrite Forall_fmap. eapply Forall_impl; [exact Hu|]. intros e. unfold compose.
      by destruct (Hid e) as [-> _].
    + clear -Hs Hid. induction Hs as [|e q Hs IH Hx]; [constructor|]. rewrite fmap_cons. constructor; [done|].
      rewrite Forall_fmap. eapply Forall_impl; [exact Hx|]. intros x. unfold compose.
      by destruct (Hid e) as [-> _], (Hid x) as [-> _].
  - unfold below. rewrite Forall_fmap. eapply Forall_impl; [exact Hb|]. intros e. unfold compose.
    by destruct (Hid e) as [-> _].
  - rewrite Forall_fmap. eapply Forall_impl; [exact He|]. intros e. unfold compose, g.
    destruct (_ =? _); [|done]. destruct (f e) eqn:E; [|done]. by apply Hf.
  - assert (sublist (qe_op <$> live_entries (g <$> q)) (qe_op <$> live_entries q)) as Hsub.
    { clear -Hlive Hid. induction q as [|e q IH]; [constructor|]. rewrite fmap_cons. unfold live_entries in *.
      cbn [List.filter]. destruct (live (g e)) eqn:E1.
      - rewrite (Hlive e E1), !fmap_cons. destruct (Hid e) as (_ & -> & _). by constructor.
      - destruct (live e); [rewrite fmap_cons; by constructor|done]. }
    by eapply sublist_NoDup.
Qed.

Lemma spec_enqueue_ok last op requester at_ rev q :
  last < rev -> in_u64 rev -> keyed_ok qe_op_id q -> below last q -> Forall entry_ok q ->
  NoDup (qe_op <$> live_entries q) ->
  let q' := spec_enqueue op requester at_ rev q in
  keyed_ok qe_op_id q' /\ below rev q' /\ Forall entry_ok q' /\ NoDup (qe_op <$> live_entries q').
Proof.
  intros Hlt Hr Hs Hb He Hd q'. unfold q', spec_enqueue.
  assert (below rev q) as Hb' by (eapply Forall_impl; [exact Hb|]; simpl; lia).
  destruct (existsb _ q) eqn:Ex; [done|]. split_and!.
  - apply keyed_ok_snoc; [done|done|]. eapply Forall_impl; [exact Hb|]. simpl. lia.
  - apply Forall_app. split; [done|]. apply Forall_singleton. simpl. lia.
  - by rewrite Forall_app, Forall_singleton.
  - unfold live_entries. rewrite List.filter_app, fmap_app. simpl. apply NoDup_app.
    split; [done|]. split; [|apply NoDup_singleton]. intros x (e & -> & [Hl Hin]%elem_of_List_filter)%list_elem_of_fmap.
    rewrite list_elem_of_singleton. intros Eo. apply not_true_iff_false in Ex. apply Ex.
    apply existsb_exists. exists e. rewrite <-list_elem_of_In. split; [done|].
    rewrite Hl. by apply bool_decide_eq_true.
Qed.

Lemma spec_trim_ok last q :
  keyed_ok qe_op_id q -> below last q -> Forall entry_ok q -> NoDup (qe_op <$> live_entries q) ->
  queue_ok last (spec_trim q).
Proof.
  intros Hs Hb He Hd. unfold spec_trim. split.
  - by apply keyed_ok_drop_terminal.
  - by apply Forall_drop_terminal.
  - by apply Forall_drop_terminal.
  - by rewrite live_drop_terminal.
  - apply spec_trim_bound.
Qed.

Lemma below_mono last last' q : last <= last' -> below last q -> below last' q.
Proof. intros Hl Hb. eapply Forall_impl; [exact Hb|]. simpl. lia. Qed.

Lemma spec_r0_queue last st e :
  last < r0_rev e -> in_u64 (r0_rev e) -> queue_ok last (pd_queue st) ->
  queue_ok (r0_rev e) (pd_queue (spec_r0 st e)).
Proof.
  intros Hlt Hr [H1 H2 H3 H4 H5]. assert (below (r0_rev e) (pd_queue st)) as H2' by (by eapply below_mono, H2; lia).
  unfold spec_r0. destruct (r0_command e) as [op|op]; [|by split].
  unfold spec_pd_op. cbn [pd_queue].
  assert (forall op_id f, transition f -> queue_ok (r0_rev e) (spec_trim (spec_update op_id f (pd_queue st)))) as Hu.
  { intros op_id f Hf. destruct (spec_update_ok (r0_rev e) op_id f (pd_queue st)) as (? & ? & ? & ?); try done.
    by apply spec_trim_ok. }
  destruct op; cbn [spec_run pd_queue]; try by apply spec_trim_ok.
  - destruct (spec_enqueue_ok last op requester proposed_at_unix (r0_rev e) (pd_queue st))
      as (? & ? & ? & ?); try done. by apply spec_trim_ok.
  - apply Hu, try_claim_transition.
  - apply Hu, try_complete_transition.
  - apply Hu, try_requeue_transition.
  - destruct (spec_cutover _ _ _). by apply spec_trim_ok.
Qed.

(** ** The table *)

Lemma spec_cutover_table op_id j t :
  table_ok t -> 0 <= rt_version t < u64_max ->
  let t' := (spec_cutover op_id j t).2 in
  table_ok t' /\ (t' = t \/ rt_version t' = rt_version t + 1).
Proof.
  intros Hok Hv. unfold spec_cutover. destruct (j !! op_id) as [i|]; [|by split; [|left]].
  destruct (decide _); [|by split; [|left]].
  pose proof (cutover_outcome_ok t (in_plan i) Hok Hv) as Hc. unfold cutover_outcome in *.
  destruct (negb _); [by split; [|left]|].
  destruct (region_apply _ _) as [[changed t']|] eqn:E; cbn [snd] in *; [|by split; [|left]].
  split; [done|].
  destruct (run_region_op_ok t (RegionApply (plan_changes (in_plan i))) changed t' Hok Hv E) as (_ & Hn & Hs).
  destruct changed; [by right|left; by apply Hs].
Qed.

(** The table of the next state: the same, or of the next version. *)
Lemma spec_r0_table st e :
  table_ok (pd_table st) -> 0 <= rt_version (pd_table st) < u64_max ->
  let t' := pd_table (spec_r0 st e) in
  table_ok t' /\ (t' = pd_table st \/ rt_version t' = rt_version (pd_table st) + 1).
Proof.
  intros Hok Hv. unfold spec_r0. destruct (r0_command e) as [op|op].
  - unfold spec_pd_op. destruct op; cbn [spec_run pd_table]; try by split; [|left].
    pose proof (spec_cutover_table op_id (pd_journal st) (pd_table st) Hok Hv) as H.
    by destruct (spec_cutover _ _ _).
  - cbn [pd_table]. unfold spec_region. destruct (run_region_op _ _) as [[changed t']|] eqn:E; [|by split; [|left]].
    destruct (run_region_op_ok _ _ _ _ Hok Hv E) as (? & Hn & Hs). split; [done|].
    destruct changed; [by right|left; by apply Hs].
Qed.

Lemma spec_log_table l : forall st,
  table_ok (pd_table st) -> 0 <= rt_version (pd_table st) ->
  rt_version (pd_table st) + Z.of_nat (length l) <= u64_max ->
  let t' := pd_table (spec_log st l) in
  table_ok t' /\ rt_version (pd_table st) <= rt_version t' <= rt_version (pd_table st) + Z.of_nat (length l) /\
  (rt_version t' = rt_version (pd_table st) -> t' = pd_table st).
Proof.
  induction l as [|e l IH]; intros st Hok Hv Hl; cbn [spec_log foldl length] in *.
  { split_and!; [done|lia|lia|done]. }
  destruct (spec_r0_table st e Hok) as [Hok' Hn]; [lia|].
  destruct (IH (spec_r0 st e)) as (H1 & H2 & H3); [done|destruct Hn as [->| ->]; lia..|].
  fold (spec_log (spec_r0 st e) l) in *. split_and!; [done|destruct Hn as [E|E]; rewrite ?E in H2; lia..|].
  intros E. destruct Hn as [Hn|Hn]; [|lia]. rewrite <-Hn. apply H3. by rewrite Hn.
Qed.

(** ** Runs on the store *)

Section runs.
Context {pe : Postcard PdQueueEntry} {pn : Postcard PdIntent} {pt : Postcard RegionTable}.
Context {ple : PostcardLaws PdQueueEntry} {pln : PostcardLaws PdIntent} {plt : PostcardLaws RegionTable}.
Context (s : MvccStorage).

(** [true]: the command was answered. *)
Definition apply_r0 (d : db) (e : R0Entry) : bool * db :=
  match r0_command e with
  | R0Pd op =>
    match apply_pd_op s d op (r0_rev e) (r0_applied e) with
    | (Ok _, d) => (true, d)
    | (Err _, d) => (false, d)
    end
  | R0Region op =>
    match apply_region_meta_op d op (r0_applied e) with
    | (Ok _, d) => (true, d)
    | (Err _, d) => (false, d)
    end
  end.

Fixpoint run_r0 (d : db) (l : list R0Entry) : list bool * db :=
  match l with
  | [] => ([], d)
  | e :: l =>
    let '(ok, d) := apply_r0 d e in
    let '(oks, d) := run_r0 d l in (ok :: oks, d)
  end.

(** A store between two commands; [last] is the index of the last one. *)
Record r0_ok (last : Z) (d : db) (st : PdState) : Prop := {
  ro_rep : pd_rep d st;
  ro_queue : queue_ok last (pd_queue st);
  ro_table : table_ok (pd_table st);
  ro_version : 0 <= rt_version (pd_table st);
  ro_fresh : forall r, in_u64 r -> last < r -> changelog_contains_revision d r = false }.

Lemma region_op_rep d st op applied :
  pd_rep d st -> table_ok (pd_table st) -> 0 <= rt_version (pd_table st) < u64_max ->
  exists outcome d', apply_region_meta_op d op applied = (Ok outcome, d') /\
    pd_rep d' {| pd_queue := pd_queue st; pd_journal := pd_journal st;
                 pd_table := spec_region (pd_table st) op |} /\
    same_table TABLE_CHANGELOG d' d.
Proof using plt.
  intros Hrep Hok Hv. unfold apply_region_meta_op, backend_write. rewrite (pr_table _ _ Hrep).
  cbn [mbind result_bind]. unfold spec_region.
  destruct (run_region_op (pd_table st) op) as [[changed t']|e] eqn:E; cbn [mbind result_bind].
  2: { eexists _, _. split; [done|]. split; [|unfold insert_last_applied; frame].
       apply (pd_rep_same d); [unfold insert_last_applied; frame|]. by destruct st. }
  destruct (run_region_op_ok _ _ _ _ Hok Hv E) as (Hok' & Hn & Hsame).
  destruct changed; cbn [mbind result_bind].
  - destruct (region_table_roundtrip t') as (x & Ex & Dx).
    { by apply region_validate_iff; [apply (to_init _ Hok')|]. }
    rewrite Ex. cbn [mbind result_bind]. eexists _, _. split; [done|].
    split; [|unfold insert_last_applied; frame].
    eapply pd_rep_same; [|by apply write_table_rep; [exact Hrep|exact Ex|]]. unfold insert_last_applied. frame.
  - eexists _, _. split; [done|]. split; [|unfold insert_last_applied; frame].
    apply (pd_rep_same d); [unfold insert_last_applied; frame|]. rewrite (Hsame eq_refl). by destruct st.
Qed.

Lemma apply_r0_ok last d st e :
  r0_ok last d st -> last < r0_rev e -> in_u64 (r0_rev e) -> from_option in_u64 True (entry_number e) ->
  rt_version (pd_table st) < u64_max ->
  exists d', apply_r0 d e = (true, d') /\ r0_ok (r0_rev e) d' (spec_r0 st e).
Proof using ple pln plt.
  intros [Hrep Hq Hok Hv Hf] Hlt Hr Hn Hu.
  assert (table_ok (pd_table (spec_r0 st e)) /\ 0 <= rt_version (pd_table (spec_r0 st e))) as [Hok' Hv'].
  { destruct (spec_r0_table st e Hok) as [? [->| ->]]; [lia|by split..|by split; [|lia]]. }
  pose proof (spec_r0_queue last st e Hlt Hr Hq) as Hq'.
  unfold apply_r0, spec_r0, entry_number in *. destruct (r0_command e) as [op|op].
  - destruct (apply_pd_op_rep s d st op (r0_rev e) (r0_applied e)) as (d' & -> & Hrep' & Hc); try done.
    + eapply Forall_impl; [apply (qo_below _ _ Hq)|]. simpl. lia.
    + by apply Hf.
    + eexists. split; [done|]. split; [done..|]. intros r Hr' Hlt'. rewrite Hc by done.
      destruct (Z.eqb_spec r (r0_rev e)); [lia|]. apply Hf; [done|lia].
  - destruct (region_op_rep d st op (r0_applied e)) as (o & d' & -> & Hrep' & Hc); try done.
    eexists. split; [done|]. split; [done..|]. intros r Hr' Hlt'. unfold changelog_contains_revision.
    rewrite Hc. apply Hf; [done|lia].
Qed.

Lemma run_r0_ok l : forall last d st,
  r0_ok last d st -> log_ok last l -> rt_version (pd_table st) + Z.of_nat (length l) <= u64_max ->
  (run_r0 d l).1 = replicate (length l) true /\
  exists last', last <= last' /\ r0_ok last' (run_r0 d l).2 (spec_log st l).
Proof using ple pln plt.
  induction l as [|e l IH]; intros last d st Hro Hl Hu; cbn [run_r0 log_ok length] in *.
  { split; [done|]. exists last. split; [lia|done]. }
  destruct Hl as (Hlt & Hr & Hn & Hl). pose proof (ro_version _ _ _ Hro).
  destruct (apply_r0_ok last d st e Hro Hlt Hr Hn) as (d' & -> & Hro'); [lia|].
  destruct (IH _ d' _ Hro' Hl) as (Ho & last' & Hle & Hro'').
  { destruct (spec_r0_table st e (ro_table _ _ _ Hro)) as [_ [->| ->]]; lia. }
  destruct (run_r0 d' l) as [oks d'']. cbn [fst snd] in *. rewrite Ho. split; [done|].
  exists last'. split; [lia|done].
Qed.

(** C37: the queue stays in order.  From a store whose queue is in order, any
    sequence of queue, journal and table commands is answered; the store then
    represents the state the abstract queue reaches and reads back as its
    queue, in which no operator is waiting or running twice, at most 512
    finished entries are kept and the fields of every entry agree with its
    status. *)
Theorem pd_queue_in_order l last d st :
  r0_ok last d st -> log_ok last l -> rt_version (pd_table st) + Z.of_nat (length l) <= u64_max ->
  (run_r0 d l).1 = replicate (length l) true /\
  exists last', pd_rep (run_r0 d l).2 (spec_log st l) /\
    pd_queue_entries (run_r0 d l).2 = pd_queue (spec_log st l) /\ queue_ok last' (pd_queue (spec_log st l)).
Proof using ple pln plt.
  intros Hro Hl Hu. destruct (run_r0_ok l last d st Hro Hl Hu) as (H1 & last' & _ & [H2 H3 _ _ _]).
  split; [done|]. exists last'. split; [done|]. split; [by apply pd_queue_entries_rep|done].
Qed.

End runs.

(** ** Claims and cutovers *)

(** ** Claims *)

(** The entry after its claimant has finished it. *)
Definition completed (e : PdQueueEntry) (success : bool) (error : bytes) : PdQueueEntry :=
  set_status e (if success then Success else Failed error) (qe_claimed_by e) (qe_claimed_at_unix e)
    (if success then [] else error).

(** The entry is as it was claimed, or finished by its claimant, or finished and
    no longer kept. *)
Definition held (e : PdQueueEntry) (l : list R0Entry) (q : list PdQueueEntry) : Prop :=
  e ∈ q \/
  exists success error,
    R0Pd (Complete (qe_op_id e) (qe_claimed_by e) success error) ∈ r0_command <$> l /\
    forall e', e' ∈ q -> qe_op_id e' = qe_op_id e -> e' = completed e success error.

Lemma completed_terminal e success error : is_terminal (completed e success error) = true.
Proof. by destruct success. Qed.

(** Nothing happens to a finished entry. *)
Lemma terminal_final f e : transition f -> is_terminal e = true -> f e = None.
Proof.
  intros Hf Ht. destruct (f e) as [e'|] eqn:E; [|done]. apply Hf in E as (_ & Hl & _).
  by rewrite live_terminal, Ht in Hl.
Qed.

Lemma elem_of_spec_update op_id f q e' :
  e' ∈ spec_update op_id f q <->
  exists e, e ∈ q /\ e' = if qe_op_id e =? op_id then default e (f e) else e.
Proof. unfold spec_update. rewrite list_elem_of_fmap. naive_solver. Qed.

Lemma transition_op_id f e : transition f -> qe_op_id (default e (f e)) = qe_op_id e.
Proof. intros Hf. destruct (f e) as [e'|] eqn:E; [|done]. by apply Hf. Qed.

(** An update that does nothing to the claimed entry. *)
Lemma held_update e l c q op_id f :
  transition f -> (qe_op_id e = op_id -> f e = None) -> held e l q ->
  held e (l ++ [c]) (spec_update op_id f q).
Proof.
  intros Hf Hn [He|(ok & err & Hc & Hall)].
  - left. apply elem_of_spec_update. exists e. split; [done|].
    destruct (Z.eqb_spec (qe_op_id e) op_id); [|done]. by rewrite Hn.
  - right. exists ok, err. split; [rewrite fmap_app, elem_of_app; by left|].
    intros e' (x & Hx & ->)%elem_of_spec_update Hid.
    destruct (Z.eqb_spec (qe_op_id x) op_id) as [Ex|].
    + rewrite transition_op_id in Hid by done. pose proof (Hall x Hx Hid) as ->.
      by rewrite (terminal_final f) by (done || apply completed_terminal).
    + by apply Hall.
Qed.

(** The completion by the claimant. *)
Lemma held_complete e l c q last success error :
  is_running e = true -> queue_ok last q -> held e l q ->
  r0_command c = R0Pd (Complete (qe_op_id e) (qe_claimed_by e) success error) ->
  held e (l ++ [c]) (spec_update (qe_op_id e) (fun e0 => try_complete e0 (qe_claimed_by e) success error) q).
Proof.
  intros Hrun Hq [He|(ok & err & Hc & Hall)] Ec.
  - right. exists success, error. rewrite fmap_app, elem_of_app. split; [right; rewrite <-Ec; by left|].
    intros e' (x & Hx & ->)%elem_of_spec_update.
    destruct (Z.eqb_spec (qe_op_id x) (qe_op_id e)) as [Ex|]; [|done]. intros _.
    rewrite (keyed_ok_unique q x e (qo_sorted _ _ Hq) Hx He Ex). unfold try_complete.
    by rewrite Hrun, Z.eqb_refl.
  - right. exists ok, err. split; [rewrite fmap_app, elem_of_app; by left|].
    intros e' (x & Hx & ->)%elem_of_spec_update Hid.
    destruct (Z.eqb_spec (qe_op_id x) (qe_op_id e)) as [Ex|]; [|by apply Hall].
    pose proof (Hall x Hx Ex) as ->.
    by rewrite (terminal_final (fun e0 => try_complete e0 (qe_claimed_by e) success error))
      by (apply try_complete_transition || apply completed_terminal).
Qed.

Lemma held_same e l c q : held e l q -> held e (l ++ [c]) q.
Proof.
  intros [?|(ok & err & Hc & Hall)]; [by left|right]. exists ok, err.
  split; [rewrite fmap_app, elem_of_app; by left|done].
Qed.

Lemma held_trim e l q : is_running e = true -> held e l q -> held e l (spec_trim q).
Proof.
  intros Hrun [He|(ok & err & Hc & Hall)].
  - left. apply drop_terminal_keep; [done|]. unfold is_running in Hrun. apply bool_decide_eq_true in Hrun.
    unfold is_terminal. by rewrite Hrun.
  - right. exists ok, err. split; [done|]. intros e' He'%drop_terminal_sub. by apply Hall.
Qed.

Lemma held_step e l c last st :
  is_running e = true -> queue_ok last (pd_queue st) -> last < r0_rev c -> qe_op_id e <= last ->
  r0_command c <> R0Pd (Requeue (qe_op_id e)) -> held e l (pd_queue st) ->
  held e (l ++ [c]) (pd_queue (spec_r0 st c)).
Proof.
  intros Hrun Hq Hlt Hid Hno Hh. unfold spec_r0. destruct (r0_command c) as [op|op] eqn:Ec; [|by apply held_same].
  unfold spec_pd_op. cbn [pd_queue]. apply held_trim; [done|].
  pose proof Hrun as Hst. unfold is_running in Hst. apply bool_decide_eq_true in Hst.
  destruct op; cbn [spec_run pd_queue].
  - unfold spec_enqueue. destruct (existsb _ _); [by apply held_same|].
    destruct Hh as [He|(ok & err & Hc & Hall)]; [left; apply elem_of_app; by left|].
    right. exists ok, err. split; [rewrite fmap_app, elem_of_app; by left|].
    intros e' [He'| ->%list_elem_of_singleton]%elem_of_app Hi; [by apply Hall|]. cbn in Hi. lia.
  - apply held_update; [apply try_claim_transition| |done]. intros _. unfold try_claim, is_pending. by rewrite Hst.
  - destruct (decide (op_id = qe_op_id e)) as [->|Hne].
    2: { apply held_update; [apply try_complete_transition|congruence|done]. }
    destruct (decide (node_id = qe_claimed_by e)) as [->|Hn]; [by eapply held_complete|].
    apply held_update; [apply try_complete_transition| |done]. intros _. unfold try_complete.
    rewrite Hrun. destruct (Z.eqb_spec (qe_claimed_by e) node_id); [congruence|done].
  - apply held_update; [apply try_requeue_transition| |done]. intros E. destruct Hno. by rewrite E.
  - by apply held_same.
  - destruct (spec_cutover _ _ _). by apply held_same.
  - by apply held_same.
Qed.

Lemma held_run l' : forall e l last st,
  is_running e = true -> queue_ok last (pd_queue st) -> qe_op_id e <= last -> log_ok last l' ->
  Forall (fun c => r0_command c <> R0Pd (Requeue (qe_op_id e))) l' -> held e l (pd_queue st) ->
  held e (l ++ l') (pd_queue (spec_log st l')).
Proof.
  induction l' as [|c l' IH]; intros e l last st Hrun Hq Hid Hl Hno Hh; [by rewrite app_nil_r|].
  cbn [log_ok spec_log foldl] in *. destruct Hl as (Hlt & Hr & Hn & Hl). apply Forall_cons in Hno as [Hc Hno].
  rewrite cons_middle, app_assoc. eapply (IH e _ (r0_rev c)); [done| |lia|done|done|].
  - by apply (spec_r0_queue last).
  - by eapply held_step.
Qed.

(** ** Cutovers *)

(** A settled intent stays until it is cleared, and only its own cutover, once,
    moves an intent. *)
Lemma journal_step st c k i :
  pd_journal st !! k = Some i -> r0_command c <> R0Pd (ClearIntent k) ->
  (in_phase i = Prepared -> r0_command c <> R0Pd (Cutover k)) ->
  pd_journal (spec_r0 st c) !! k = Some i.
Proof.
  intros Hi Hclear Hcut. unfold spec_r0. destruct (r0_command c) as [op|op]; [|done].
  unfold spec_pd_op. destruct op; cbn [spec_run pd_journal]; try done.
  - destruct (pd_journal st !! in_op_id intent) eqn:E; [done|].
    rewrite lookup_insert_ne; [done|]. intros Ek. congruence.
  - unfold spec_cutover. destruct (pd_journal st !! op_id) as [i'|] eqn:E; [|done].
    destruct (decide (in_phase i' = Prepared)) as [Hp|]; [|done].
    destruct (cutover_outcome _ _). cbn [pd_journal].
    rewrite lookup_insert_ne; [done|]. intros ->. rewrite Hi in E. injection E as ->.
    by apply (Hcut Hp).
  - rewrite lookup_delete_ne; [done|]. intros ->. by apply Hclear.
Qed.

Lemma journal_settled l : forall st k i,
  pd_journal st !! k = Some i -> in_phase i <> Prepared ->
  Forall (fun c => r0_command c <> R0Pd (ClearIntent k)) l ->
  pd_journal (spec_log st l) !! k = Some i.
Proof.
  induction l as [|c l IH]; intros st k i Hi Hp Hl; [done|]. apply Forall_cons in Hl as [Hc Hl].
  cbn [spec_log foldl]. apply IH; [|done|done]. by apply journal_step.
Qed.

(** Commands for other intents and for the queue leave a settled intent's
    cutover without effect on the table. *)
Lemma cutover_settled st c k i :
  pd_journal st !! k = Some i -> in_phase i <> Prepared -> r0_command c = R0Pd (Cutover k) ->
  pd_table (spec_r0 st c) = pd_table st.
Proof.
  intros Hi Hp Hc. unfold spec_r0. rewrite Hc. unfold spec_pd_op. cbn [spec_run pd_table].
  unfold spec_cutover. rewrite Hi. by destruct (decide _).
Qed.

Section safety.
Context {pe : Postcard PdQueueEntry} {pn : Postcard PdIntent} {pt : Postcard RegionTable}.
Context {ple : PostcardLaws PdQueueEntry} {pln : PostcardLaws PdIntent} {plt : PostcardLaws RegionTable}.
Context (s : MvccStorage).

(** A claim is exclusive.  While no command requeues a running operator, no
    claim, completion, enqueueing or trimming of others touches its entry: it is
    as its claimant left it, or its claimant has completed it and the entry, if
    it is still kept, records just that. *)
Theorem claim_exclusive l last d st e :
  r0_ok last d st -> log_ok last l -> rt_version (pd_table st) + Z.of_nat (length l) <= u64_max ->
  e ∈ pd_queue st -> is_running e = true ->
  Forall (fun c => r0_command c <> R0Pd (Requeue (qe_op_id e))) l ->
  exists q, queue_rows (run_r0 s d l).2 = keyed_row PD_QUEUE_PREFIX qe_op_id entry_bytes <$> q /\
    (e ∈ q \/
     exists success error,
       R0Pd (Complete (qe_op_id e) (qe_claimed_by e) success error) ∈ r0_command <$> l /\
       forall e', e' ∈ q -> qe_op_id e' = qe_op_id e ->
         e' = set_status e (if success then Success else Failed error) (qe_claimed_by e)
                (qe_claimed_at_unix e) (if success then [] else error)).
Proof using ple pln plt.
  intros Hro Hl Hu He Hrun Hno. destruct (run_r0_ok s l last d st Hro Hl Hu) as (_ & last' & _ & [Hrep _ _ _ _]).
  exists (pd_queue (spec_log st l)). split; [apply Hrep|].
  pose proof (ro_queue _ _ _ Hro) as Hq. pose proof (qo_below _ _ Hq) as Hb. unfold below in Hb. rewrite Forall_forall in Hb.
  apply (held_run l e [] last st); [done|done|by apply Hb|done|done|by left].
Qed.

Lemma pd_intent_rep d st k : pd_rep d st -> in_u64 k -> pd_intent d k = pd_journal st !! k.
Proof using pln.
  intros Hrep Hk. unfold pd_intent. rewrite (intent_get d st k Hrep Hk).
  destruct (pd_journal st !! k) as [i|]; [|done]. cbn. by rewrite intent_decodes.
Qed.

Lemma log_ok_prefix l : forall last l', log_ok last (l ++ l') -> log_ok last l.
Proof using. induction l as [|e l IH]; intros last l' H; [done|]. cbn in *. naive_solver. Qed.

Lemma log_ok_middle l : forall last c l', log_ok last (l ++ c :: l') -> from_option in_u64 True (entry_number c).
Proof using. induction l as [|e l IH]; intros last c l' H; cbn in H; [naive_solver|]. by eapply IH, H. Qed.

(** Every prefix of a run. *)
Lemma run_prefix whole last d st l l' :
  r0_ok last d st -> log_ok last whole -> rt_version (pd_table st) + Z.of_nat (length whole) <= u64_max ->
  whole = l ++ l' -> exists last', r0_ok last' (run_r0 s d l).2 (spec_log st l).
Proof using ple pln plt.
  intros Hro Hl Hu ->. rewrite length_app in Hu.
  destruct (run_r0_ok s l last d st Hro) as (_ & last' & _ & H); [by eapply log_ok_prefix|lia|by exists last'].
Qed.

Lemma spec_log_app st l l' : spec_log st (l ++ l') = spec_log (spec_log st l) l'.
Proof using. apply foldl_app. Qed.

(** One cutover of a prepared intent. *)
Lemma spec_cutover_step st st0 c k i :
  table_ok (pd_table st0) -> table_small (pd_table st0) ->
  (exists id key new_id, plan_split (pd_table st0) id key new_id = Ok (in_plan i)) \/
  (exists left right, plan_merge (pd_table st0) left right = Ok (in_plan i)) ->
  (rt_version (pd_table st) = rt_version (pd_table st0) -> pd_table st = pd_table st0) ->
  r0_command c = R0Pd (Cutover k) -> pd_journal st !! k = Some i -> in_phase i = Prepared ->
  exists phase, phase <> Prepared /\ pd_journal (spec_r0 st c) !! k = Some (set_phase i phase) /\
    ((pd_table st = pd_table st0 /\
      region_apply (pd_table st) (plan_changes (in_plan i)) = Ok (true, pd_table (spec_r0 st c)) /\
      phase = Applied (rt_version (pd_table (spec_r0 st c)))) \/
     (pd_table (spec_r0 st c) = pd_table st /\ rt_version (pd_table st) <> rt_version (pd_table st0) /\
      phase = Rejected (TableMoved (rt_version (pd_table st)) (rt_version (pd_table st0))))).
Proof using.
  intros Hok Hsmall Hplan Hsame Hc Hi Hp.
  destruct (plan_applies _ _ Hok Hsmall Hplan) as [Hexp [t' Ht']].
  unfold spec_r0. rewrite Hc. unfold spec_pd_op. cbn [spec_run pd_table pd_journal].
  unfold spec_cutover. rewrite Hi, decide_True by done. unfold cutover_outcome. rewrite Hexp.
  destruct (Z.eqb_spec (rt_version (pd_table st)) (rt_version (pd_table st0))) as [E|E]; cbn [negb].
  - rewrite (Hsame E), Ht'. cbn [pd_table pd_journal]. exists (Applied (rt_version t')).
    split; [done|]. split; [by rewrite lookup_insert_eq|]. by left.
  - cbn [pd_table pd_journal]. eexists. split; [|split; [by rewrite lookup_insert_eq|]]; [done|]. by right.
Qed.

(** C25: a cutover does what was planned, or nothing.  Take a split or merge plan
    made from the table at some time, and let any commands for queue, journal
    and table follow.  When the intent with that plan is then cut over, either
    the table is still the one the plan was made from and becomes the table the
    plan describes, and the intent says so; or the table has changed, it is left
    alone, and the intent is rejected with the two versions.  From then on the
    intent stays as it is until it is cleared, and cutting it over again does not
    change the table. *)
Theorem cutover_exact l l' last d st plan op_id i c c' :
  r0_ok last d st -> table_small (pd_table st) ->
  (exists id key new_id, plan_split (pd_table st) id key new_id = Ok plan) \/
  (exists left right, plan_merge (pd_table st) left right = Ok plan) ->
  log_ok last (l ++ c :: l' ++ [c']) ->
  rt_version (pd_table st) + Z.of_nat (length (l ++ c :: l' ++ [c'])) <= u64_max ->
  r0_command c = R0Pd (Cutover op_id) -> r0_command c' = R0Pd (Cutover op_id) ->
  Forall (fun x => r0_command x <> R0Pd (ClearIntent op_id)) l' ->
  pd_intent (run_r0 s d l).2 op_id = Some i -> in_plan i = plan -> in_phase i = Prepared ->
  exists t t' phase,
    region_table (run_r0 s d l).2 = Ok t /\ region_table (run_r0 s d (l ++ [c])).2 = Ok t' /\
    pd_intent (run_r0 s d (l ++ c :: l')).2 op_id = Some (set_phase i phase) /\
    region_table (run_r0 s d (l ++ c :: l' ++ [c'])).2 = region_table (run_r0 s d (l ++ c :: l')).2 /\
    ((t = pd_table st /\ region_apply t (plan_changes plan) = Ok (true, t') /\
      phase = Applied (rt_version t')) \/
     (t' = t /\ rt_version t <> rt_version (pd_table st) /\
      phase = Rejected (TableMoved (rt_version t) (rt_version (pd_table st))))).
Proof using ple pln plt.
  intros Hro Hsmall Hplan Hl Hu Hc Hc' Hno Hi <- Hp. set (whole := l ++ c :: l' ++ [c']) in *.
  assert (in_u64 op_id) as Hk.
  { pose proof (log_ok_middle _ _ _ _ Hl) as H. unfold entry_number in H. by rewrite Hc in H. }
  destruct (run_prefix whole last d st l (c :: l' ++ [c']) Hro Hl Hu eq_refl) as (n1 & [R1 _ _ _ _]).
  destruct (run_prefix whole last d st (l ++ [c]) (l' ++ [c']) Hro Hl Hu) as (n2 & [R2 _ _ _ _]).
  { unfold whole. by rewrite <-app_assoc. }
  destruct (run_prefix whole last d st (l ++ c :: l') [c'] Hro Hl Hu) as (n3 & [R3 _ _ _ _]).
  { unfold whole. by rewrite <-app_assoc. }
  destruct (run_prefix whole last d st whole [] Hro Hl Hu) as (n4 & [R4 _ _ _ _]); [by rewrite app_nil_r|].
  rewrite (pd_intent_rep _ _ op_id R1 Hk) in Hi. unfold whole in Hu. rewrite !length_app in Hu.
  destruct (spec_log_table l st (ro_table _ _ _ Hro) (ro_version _ _ _ Hro)) as (_ & _ & Hsame); [lia|].
  destruct (spec_cutover_step (spec_log st l) st c op_id i (ro_table _ _ _ Hro) Hsmall Hplan Hsame Hc Hi Hp)
    as (phase & Hph & Hj & Hout).
  assert (spec_log st (l ++ [c]) = spec_r0 (spec_log st l) c) as E2 by (by rewrite spec_log_app).
  assert (spec_log st (l ++ c :: l') = spec_log (spec_r0 (spec_log st l) c) l') as E3 by (by rewrite spec_log_app).
  assert (spec_log st whole = spec_r0 (spec_log (spec_r0 (spec_log st l) c) l') c') as E4.
  { unfold whole. rewrite spec_log_app. cbn [spec_log foldl]. apply spec_log_app. }
  rewrite E2 in R2. rewrite E3 in R3. rewrite E4 in R4.
  pose proof (journal_settled l' _ op_id _ Hj Hph Hno) as Hj'.
  exists (pd_table (spec_log st l)), (pd_table (spec_r0 (spec_log st l) c)), phase.
  split; [apply R1|]. split; [apply R2|]. split; [by rewrite (pd_intent_rep _ _ op_id R3 Hk)|].
  split; [|done]. rewrite (pr_table _ _ R3), (pr_table _ _ R4). f_equal. by eapply cutover_settled.
Qed.

End safety.
