(* ===== verification/DirectWrites.v ===== *)
(** * Direct writes of a Region

    The branches of the state machine for direct writes ([PutV2], [DeleteV2],
    [DeleteRangeV2] in [raft/state_machine.rs]): each asks the fence first, and
    a refused write still moves the log position. *)

From S2P Require Export MigrationFacts.

Local Open Scope Z_scope.

Inductive DirectWrite :=
  | PutV2 (key value : bytes) (lease_id : option Z) (commit_ts : Z)
  | DeleteV2 (key : bytes) (commit_ts : Z)
  | DeleteRangeV2 (key range_end : bytes) (commit_ts : Z).

Inductive WriteResponse :=
  | RPut (revision : Z)
  | RDelete (revision : Z)
  | RDeleteRange (revision deleted : Z)
  | RCommitRejected (commit_ts current_revision : Z)
  | RDirectWritesFenced (op_id : Z).

(** The response and the event for the watchers. *)
Abbreviation WriteResult := (WriteResponse * option ChangeEvent)%type.

Definition write_event (ts : Z) (changes : list KeyValueChange) (ty : EventType) : ChangeEvent :=
  {| revision := ts; changes := changes; event_type := ty |}.

(** A rejected timestamp is an answer; any other error stops the state machine. *)
Definition write_answer {A : Type} (s : MvccStorage) (applied : AppliedLogId)
    (answer : A -> WriteResult) (outcome : result A * db) : result WriteResult * db :=
  match outcome with
  | (Ok x, d) => (Ok (answer x), d)
  | (Err (CommitRejected ts current), d) =>
    (Ok (RCommitRejected ts current, None), persist_applied s d (index applied) applied)
  | (Err e, d) => (Err e, d)
  end.

Definition run_direct (s : MvccStorage) (d : db) (w : DirectWrite) (applied : AppliedLogId)
    : result WriteResult * db :=
  match w with
  | PutV2 key value lease_id ts =>
    write_answer s applied (fun replayed : bool =>
        (RPut ts, if replayed then None else Some (write_event ts [put_change key value] EvPut)))
      (put_at_commit_ts s d key value lease_id ts applied)
  | DeleteV2 key ts =>
    write_answer s applied (fun replayed : bool =>
        (RDelete ts, if replayed then None else Some (write_event ts [delete_change key] EvDelete)))
      (delete_at_commit_ts s d key ts applied)
  | DeleteRangeV2 key range_end ts =>
    write_answer s applied (fun '(deleted_keys, replayed) =>
        (RDeleteRange ts (Z.of_nat (length deleted_keys)),
         if (replayed : bool) then None
         else Some (write_event ts (delete_change <$> deleted_keys) EvDelete)))
      (delete_range_at_commit_ts s d key range_end ts applied)
  end.

Definition write_fence_hit (d : db) (w : DirectWrite) : result (option Z) :=
  match w with
  | PutV2 key _ _ _ | DeleteV2 key _ => direct_write_fence_hit d key None
  | DeleteRangeV2 key range_end _ => direct_write_fence_hit d key (Some range_end)
  end.

Definition apply_direct (s : MvccStorage) (d : db) (w : DirectWrite) (applied : AppliedLogId)
    : result WriteResult * db :=
  match write_fence_hit d w with
  | Err e => (Err e, d)
  | Ok (Some op_id) => (Ok (RDirectWritesFenced op_id, None), persist_applied s d (index applied) applied)
  | Ok None => run_direct s d w applied
  end.

(** ** What a write touches *)

(** The keys the command is about. *)
Definition writes_key (w : DirectWrite) (k : bytes) : Prop :=
  match w with
  | PutV2 key _ _ _ | DeleteV2 key _ => k = key
  | DeleteRangeV2 key range_end _ => in_range key range_end k = true
  end.

(** Only the rows of some keys, the change log and the marks change. *)
Definition only_keys (P : bytes -> Prop) (d d' : db) : Prop :=
  (forall k, ~ P k -> key_rows d' k = key_rows d k) /\
  (forall x, starts_with x KV_PREFIX = false -> tx_get d' TABLE_KV x = tx_get d TABLE_KV x).

#[export] Instance only_keys_preorder P : PreOrder (only_keys P).
Proof.
  split; [done|]. intros d1 d2 d3 [H1 H1'] [H2 H2'].
  split; [intros k Hk; rewrite H2, H1 by done|intros x Hx; rewrite H2', H1' by done]; done.
Qed.

Lemma only_keys_other P t k v d : t <> TABLE_KV -> t <> TABLE_KV_META -> only_keys P d (tx_insert t k v d).
Proof.
  intros H1 H2. split.
  - intros k' _. unfold key_rows. by rewrite !tx_get_insert_ne by congruence.
  - intros x _. by rewrite tx_get_insert_ne by congruence.
Qed.

Lemma only_keys_metadata (P : bytes -> Prop) key m d : P key -> only_keys P d (insert_metadata key m d).
Proof.
  intros HP. unfold insert_metadata. split.
  - intros k Hk. unfold key_rows. rewrite !tx_get_insert_ne; [done| |done].
    intros [= E]. by subst.
  - intros x _. by rewrite tx_get_insert_ne.
Qed.

Lemma only_keys_write_key (P : bytes -> Prop) s key v lid rev d d' :
  P key -> write_key s key v lid rev d = Ok d' -> only_keys P d d'.
Proof.
  intros HP. unfold write_key. intros. inv_bind. etransitivity; [|by apply only_keys_metadata]. split.
  - intros k Hk. unfold key_rows. rewrite !tx_get_insert_ne; [done|done|]. intros [= E]. by subst.
  - intros y Hx. rewrite tx_get_insert_ne; [done|]. intros [= <-].
    unfold encode_kv_key in Hx. by rewrite starts_with_app in Hx.
Qed.

Lemma only_keys_commit P e a d : only_keys P d (insert_last_applied a (insert_event e d)).
Proof. etransitivity; [|by apply only_keys_other]. by apply only_keys_other. Qed.

Lemma only_keys_accept P s d rev policy d' : accept_revision s d rev policy = Ok d' -> only_keys P d d'.
Proof.
  destruct policy; cbn; unfold accept_log_index_revision, accept_commit_ts, set_current_revision.
  - destruct (decide _); [by intros [= <-]|]. destruct (_ <=? _); [done|]. intros [= <-]. by apply only_keys_other.
  - destruct (_ <=? _); [done|]. intros [= <-]. by apply only_keys_other.
Qed.

Lemma only_keys_persist P s rev a d : only_keys P d (persist_applied s d rev a).
Proof.
  unfold persist_applied, note_log_index_revision, set_current_revision.
  etransitivity; [by apply (only_keys_other P TABLE_META META_LAST_APPLIED (applied_to_bytes a))|].
  destruct (decide _); [|done]. destruct (_ <? _); [|done]. by apply only_keys_other.
Qed.

Lemma only_keys_guard {A : Type} P s d rev policy same (replayed : A) f :
  (forall x d', f d = Ok (x, d') -> only_keys P d d') ->
  only_keys P d (replay_guard s d rev policy same replayed f).2.
Proof.
  intros Hf. assert (only_keys P d (backend_write d f).2) as Hw.
  { unfold backend_write. destruct (f d) as [[x d']|e] eqn:E; [by eapply Hf|done]. }
  unfold replay_guard. destruct policy.
  - by destruct (changelog_contains_revision d rev).
  - destruct (changelog_event_at d rev) as [[event|]|e]; try done. by destruct (same event).
Qed.

Lemma only_keys_put s key value lid rev a policy d x d' :
  put_in_tx s key value lid rev a policy d = Ok (x, d') -> only_keys (eq key) d d'.
Proof.
  unfold put_in_tx. intros. inv_bind. etransitivity; [by eapply only_keys_accept|].
  etransitivity; [by eapply only_keys_write_key|]. apply only_keys_commit.
Qed.

Lemma only_keys_delete s key rev a policy d x d' :
  delete_in_tx s key rev a policy d = Ok (x, d') -> only_keys (eq key) d d'.
Proof.
  unfold delete_in_tx. intros. inv_bind. etransitivity; [by eapply only_keys_accept|].
  etransitivity; [|apply only_keys_commit]. unfold tombstone_live.
  destruct (get_kv_metadata _ key) as [m|]; [|done]. destruct (deleted m); [done|]. by apply only_keys_metadata.
Qed.

Lemma only_keys_delete_loop P range_end rev rows : forall d,
  (forall ik v k, (ik, v) ∈ rows -> decode_kv_key ik = Some k -> P k) ->
  only_keys P d (delete_range_loop range_end rev rows d).2.
Proof.
  induction rows as [|[ik v] rows IH]; intros d HP; [done|]. cbn [delete_range_loop].
  assert (forall d, only_keys P d (delete_range_loop range_end rev rows d).2) as IH'.
  { intros d0. apply IH. intros ? ? ? ?. apply HP with v0. by right. }
  destruct (decode_kv_key ik) as [k|] eqn:Ek; [|apply IH']. destruct (_ && _); [done|].
  destruct (get_kv_metadata d k) as [m|]; [|apply IH']. destruct (deleted m); [apply IH'|].
  specialize (IH' (insert_metadata k (meta_mark_deleted m rev) d)).
  destruct (delete_range_loop _ _ _ _) as [ks d']. cbn [snd] in *. etransitivity; [|exact IH'].
  apply only_keys_metadata. eapply HP; [by left|done].
Qed.

Lemma only_keys_delete_range s start range_end rev a policy d x d' :
  delete_range_in_tx s start range_end rev a policy d = Ok (x, d') ->
  only_keys (fun k => in_range start range_end k = true) d d'.
Proof.
  unfold delete_range_in_tx. intros E. inv_bind.
  match goal with E : accept_revision _ _ _ _ = Ok ?d0 |- _ =>
    etransitivity; [by eapply only_keys_accept|];
    pose proof (only_keys_delete_loop (fun k => in_range start range_end k = true) range_end rev
      (iter_range d0 TABLE_KV (encode_kv_key start) (encode_kv_key range_end)) d0) as Hl
  end.
  destruct (delete_range_loop _ _ _ _) as [ks d1]. inv_bind. etransitivity; [|apply only_keys_commit].
  apply Hl. intros ik v k Hk Hd. apply elem_of_iter_range in Hk as [_ Hk].
  apply strip_prefix_Some in Hd as ->. fold (encode_kv_key k) in Hk. rewrite <-in_range_kv. revert Hk. unfold in_range.
  destruct (bytes_eqb_spec range_end []) as [->|]; [|done]. intros [-> Hk]%andb_true_iff. done.
Qed.

Lemma only_keys_mono (P Q : bytes -> Prop) d d' : (forall k, P k -> Q k) -> only_keys P d d' -> only_keys Q d d'.
Proof. intros H [H1 H2]. split; [|done]. intros k Hk. apply H1. naive_solver. Qed.

Lemma write_answer_keys {A : Type} P s a (answer : A -> WriteResult) d r d1 :
  only_keys P d d1 -> only_keys P d (write_answer s a answer (r, d1)).2.
Proof.
  intros H. unfold write_answer. destruct r as [x|[]]; try done.
  etransitivity; [exact H|]. apply only_keys_persist.
Qed.

Lemma run_direct_keys s d w a : only_keys (writes_key w) d (run_direct s d w a).2.
Proof.
  destruct w as [key value lease ts|key ts|key range_end ts]; cbn [run_direct].
  - unfold put_at_commit_ts. destruct (ts =? 0); [done|]. unfold put_at_key.
    rewrite (surjective_pairing (replay_guard _ _ _ _ _ _ _)). apply write_answer_keys, only_keys_guard.
    intros x d' E. apply (only_keys_mono (eq key)); [intros k <-; done|]. by eapply only_keys_put.
  - unfold delete_at_commit_ts. destruct (ts =? 0); [done|]. unfold delete_at_key.
    rewrite (surjective_pairing (replay_guard _ _ _ _ _ _ _)). apply write_answer_keys, only_keys_guard.
    intros x d' E. apply (only_keys_mono (eq key)); [intros k <-; done|]. by eapply only_keys_delete.
  - unfold delete_range_at_commit_ts. destruct (ts =? 0); [done|].
    rewrite (surjective_pairing (delete_range_at_key _ _ _ _ _ _ _)). apply write_answer_keys.
    cbn [delete_range_at_key]. destruct (changelog_event_at d ts) as [[event|]|e]; [|..|done].
    + destruct (range_has_live_keys s d key range_end) as [live|]; [|done]. by destruct (_ && _).
    + unfold backend_write. destruct (delete_range_in_tx _ _ _ _ _ _ _) as [[x d']|] eqn:E; [|done].
      by eapply only_keys_delete_range.
Qed.

Lemma only_keys_fence P d d' : only_keys P d d' -> direct_write_fence d' = direct_write_fence d.
Proof. intros [_ H]. unfold direct_write_fence, direct_write_fence_in_tx. by rewrite H. Qed.

Lemma apply_direct_keys s d w a : only_keys (writes_key w) d (apply_direct s d w a).2.
Proof.
  unfold apply_direct. destruct (write_fence_hit d w) as [[op_id|]|e]; [|apply run_direct_keys|done].
  apply only_keys_persist.
Qed.

(** The fence and the write are about a common key. *)
Definition fence_meets (f : DirectWriteFence) (w : DirectWrite) : Prop :=
  exists k, writes_key w k /\ in_range (fence_start f) (fence_end f) k = true.

Lemma write_fence_hit_exact d f w :
  direct_write_fence d = Ok (Some f) -> in_range (fence_start f) (fence_end f) (fence_start f) = true ->
  (write_fence_hit d w = Ok (Some (fence_op_id f)) /\ fence_meets f w) \/
  (write_fence_hit d w = Ok None /\ ~ fence_meets f w).
Proof.
  intros Hf Hne. destruct (fence_hit_exact d f Hf Hne) as [Hp Hr]. unfold fence_meets.
  destruct w as [key value lease ts|key ts|key range_end ts]; cbn [write_fence_hit writes_key].
  1,2: rewrite Hp; destruct (in_range _ _ key) eqn:E; [left; split; [done|]; by exists key|right];
    split; [done|]; intros (k & -> & ?); congruence.
  destruct (Hr key range_end) as (hit & -> & Hiff & [->| ->]).
  - right. split; [done|]. intros H. by apply Hiff in H.
  - left. split; [done|]. by apply Hiff.
Qed.

Lemma fenced_write_rows s d w a f k :
  direct_write_fence d = Ok (Some f) -> in_range (fence_start f) (fence_end f) (fence_start f) = true ->
  in_range (fence_start f) (fence_end f) k = true ->
  key_rows (apply_direct s d w a).2 k = key_rows d k.
Proof.
  intros Hf Hne Hk. unfold apply_direct.
  destruct (write_fence_hit_exact d f w Hf Hne) as [[-> H]|[-> H]].
  - apply (only_keys_persist (fun _ => False)). by intros [].
  - apply (run_direct_keys s d w a). intros Hw. apply H. by exists k.
Qed.

(** The fence holds direct writes back.  While a fence over an interval is
    armed, a direct write about any key of the interval is refused as fenced and
    changes nothing but the log position, any other is carried out as if there
    were no fence; and whatever the write, the fence stays armed and the rows of
    the interval stay as they are. *)
Theorem direct_write_fenced s d w a f :
  direct_write_fence d = Ok (Some f) -> in_range (fence_start f) (fence_end f) (fence_start f) = true ->
  (fence_meets f w /\ apply_direct s d w a =
     (Ok (RDirectWritesFenced (fence_op_id f), None), persist_applied s d (index a) a) \/
   ~ fence_meets f w /\ apply_direct s d w a = run_direct s d w a) /\
  direct_write_fence (apply_direct s d w a).2 = direct_write_fence d /\
  forall k, in_range (fence_start f) (fence_end f) k = true ->
    key_rows (apply_direct s d w a).2 k = key_rows d k.
Proof.
  intros Hf Hne. split; [|split; [eapply only_keys_fence, apply_direct_keys|]].
  - unfold apply_direct. destruct (write_fence_hit_exact d f w Hf Hne) as [[-> H]|[-> H]]; auto.
  - intros k. by apply fenced_write_rows.
Qed.
