(* ===== verification/Executor.v ===== *)
(** * The execution of a split

    The steps of the executor that carries out one split
    ([execute_one_raft], [execute_split_merge], [wait_cutover],
    [recover_intents] of [pd/executor.rs], the fence calls of [split_merge.rs])
    on a node that leads the parent Region, between the steps of everything
    else: the log of Region 0 grows and this node applies it with a delay,
    direct writes are routed by the table the node has and are applied later,
    decisions are applied, the child serves once it is cut over.

    A step that the caller cannot tell from a normal one but that the order of
    events does not protect carries a [Fault]. *)

From S2P Require Export PdQueueSafety MigrationSplit DirectWrites.

Local Open Scope Z_scope.

(** ** The state *)

Record World := {
  (** The log of Region 0, and how much of it this node has applied. *)
  w_log : list R0Entry;
  w_seen : nat;
  (** Commands for Region 0 whose call ended in an error; they may still be
      committed. *)
  w_flight : list PdOp;
  w_source : db;
  w_target : db;
  (** Direct writes that passed the routing of this node. *)
  w_routed : list DirectWrite;
  (** The keys changed since the copy began by anything but direct writes to
      the parent: decisions, and what the child serves. *)
  w_moved : gset bytes }.

Definition set_source (w : World) (d : db) : World :=
  {| w_log := w_log w; w_seen := w_seen w; w_flight := w_flight w; w_source := d;
     w_target := w_target w; w_routed := w_routed w; w_moved := w_moved w |}.

Definition set_target (w : World) (d : db) : World :=
  {| w_log := w_log w; w_seen := w_seen w; w_flight := w_flight w; w_source := w_source w;
     w_target := d; w_routed := w_routed w; w_moved := w_moved w |}.

Definition set_moved (w : World) (ks : gset bytes) : World :=
  {| w_log := w_log w; w_seen := w_seen w; w_flight := w_flight w; w_source := w_source w;
     w_target := w_target w; w_routed := w_routed w; w_moved := ks |}.

Definition set_routed (w : World) (l : list DirectWrite) : World :=
  {| w_log := w_log w; w_seen := w_seen w; w_flight := w_flight w; w_source := w_source w;
     w_target := w_target w; w_routed := l; w_moved := w_moved w |}.

Definition set_flight (w : World) (l : list PdOp) : World :=
  {| w_log := w_log w; w_seen := w_seen w; w_flight := l; w_source := w_source w;
     w_target := w_target w; w_routed := w_routed w; w_moved := w_moved w |}.

Definition set_seen (w : World) (n : nat) : World :=
  {| w_log := w_log w; w_seen := n; w_flight := w_flight w; w_source := w_source w;
     w_target := w_target w; w_routed := w_routed w; w_moved := w_moved w |}.

(** An entry is appended to the log of Region 0. *)
Definition commit (w : World) (e : R0Entry) : World :=
  {| w_log := w_log w ++ [e]; w_seen := w_seen w; w_flight := w_flight w; w_source := w_source w;
     w_target := w_target w; w_routed := w_routed w; w_moved := w_moved w |}.

(** Where the executor is. *)
Inductive Pc :=
  | Idle
  | Ready                                 (* at the head of [execute_split_merge] *)
  | Planned (intent : PdIntent)           (* the plan is made, not recorded *)
  | Driving (intent : PdIntent)           (* at the head of its loop *)
  | Copying (intent : PdIntent) (pages : list db)  (* fenced; the sources of the pages read *)
  | Copied (intent : PdIntent)
  | Waiting (intent : PdIntent)           (* in [wait_cutover] *)
  | Failing (intent : PdIntent)           (* about to release the fence and give up *)
  | Clearing (success : bool)             (* about to clear the intent *)
  | Stopped (success : bool).             (* about to complete the operator *)

Inductive Fault :=
  | StaleView       (* the executor reads a Region 0 that has moved on *)
  | LateCommand     (* a command is committed after its call ended in an error *)
  | WaitTimeout     (* [wait_cutover] gives up *)
  | StaleRoute.     (* a write is applied to the parent that the table now routes elsewhere *)

(** No key has metadata without a value. *)
Definition paired (d : db) : Prop :=
  forall k, is_Some (key_rows d k).2 -> is_Some (key_rows d k).1.

Section executor.
Context {fc : FloorCodec} {psd : Postcard SequencerDecision}.
Context {pe : Postcard PdQueueEntry} {pn : Postcard PdIntent} {pt : Postcard RegionTable}.
(** The stores of Region 0, of the parent and of the child; the state of
    Region 0 the log starts from, and its index. *)
Context (s0 s target : MvccStorage) (page_size : nat) (d0 : db) (st0 : PdState) (last0 : Z).
(** This node and the operator. *)
Context (node op_id rid : Z) (split_key : bytes) (new_id : Z).

Abbreviation split_operator := (SplitRegion rid split_key new_id).

Definition region0 (w : World) : db := (run_r0 s0 d0 (w_log w)).2.
Definition view (w : World) : db := (run_r0 s0 d0 (take (w_seen w) (w_log w))).2.

Definition read_fault (w : World) : option Fault :=
  if decide (w_seen w = length (w_log w)) then None else Some StaleView.

(** The log can take the entry: its index is next, and no version overflows. *)
Definition can_commit (w : World) (e : R0Entry) (c : PdOp) : Prop :=
  r0_command e = R0Pd c /\ log_ok last0 (w_log w ++ [e]) /\
  rt_version (pd_table st0) + Z.of_nat (length (w_log w ++ [e])) <= u64_max.

(** The operator is waiting. *)
Definition queued (d : db) : Prop :=
  exists e, e ∈ pd_queue_entries d /\ qe_op_id e = op_id /\ is_pending e = true /\ qe_op e = split_operator.

(** The operator is running, claimed by this node. *)
Definition claimed_here (d : db) : Prop :=
  exists e, e ∈ pd_queue_entries d /\ qe_op_id e = op_id /\ is_running e = true /\
    qe_claimed_by e = node /\ qe_op e = split_operator.

(** The operator is finished, or no longer in the queue. *)
Definition finished (d : db) : Prop :=
  forall e, e ∈ pd_queue_entries d -> qe_op_id e = op_id -> is_terminal e = true.

Definition is_applied (i : PdIntent) : bool :=
  match in_phase i with Applied _ => true | _ => false end.

Definition new_intent (plan : SplitMergePlan) : PdIntent :=
  {| in_op_id := op_id; in_owner := node; in_plan := plan; in_phase := Prepared |}.

(** One round of [wait_cutover]: the intent when it has left [Prepared]. *)
Definition wait_poll (d : db) : option PdIntent :=
  match pd_intent d op_id with
  | Some i => if decide (in_phase i = Prepared) then None else Some i
  | None => None
  end.

(** [release_write_fence] answered [true], or without effect. *)
Definition released (w w' : World) : Prop :=
  exists a, w' = set_source w (clear_direct_write_fence op_id a (w_source w)).2.

Definition maybe_released (w w' : World) : Prop := w' = w \/ released w w'.

(** [arm_write_fence] for a split. *)
Definition armed (w w' : World) (plan : SplitMergePlan) : Prop :=
  exists id start end_ a, split_fence plan = Some (id, start, end_) /\
    applied_contains (w_source w) a = false /\
    w' = set_source w (fence_direct_writes start end_ op_id a (w_source w)).2.

(** [execute_one_raft]: claim, confirm the claim in the queue, execute, complete. *)
Inductive one_raft_step : World -> Pc -> option Fault -> World -> Pc -> Prop :=
  | x_claim w e at_unix :
      queued (view w) -> can_commit w e (Claim op_id node at_unix) -> one_raft_step w Idle None (commit w e) Idle
  | x_start w : claimed_here (view w) -> one_raft_step w Idle None w Ready
  | x_complete w e success error :
      can_commit w e (Complete op_id node success error) ->
      one_raft_step w (Stopped success) None (commit w e) Idle
  | x_complete_err w success : one_raft_step w (Stopped success) None w Idle.

(** [execute_split_merge], with [wait_cutover].  [propose_pd] sends a command
    again when its answer does not come, so it may be committed more than once. *)
Inductive split_merge_step : World -> Pc -> option Fault -> World -> Pc -> Prop :=
  (** The recorded intent, or a new plan. *)
  | x_resume w t i :
      region_table (view w) = Ok t -> rt_version t <> 0 -> pd_intent (view w) op_id = Some i ->
      split_merge_step w Ready (read_fault w) w (Driving i)
  | x_plan w t plan :
      region_table (view w) = Ok t -> table_small t -> pd_intent (view w) op_id = None ->
      plan_split t rid split_key new_id = Ok plan ->
      split_merge_step w Ready (read_fault w) w (Planned (new_intent plan))
  | x_refuse w : split_merge_step w Ready None w (Stopped false)
  | x_record w e i :
      can_commit w e (RecordIntent i) -> split_merge_step w (Planned i) None (commit w e) (Driving i)
  | x_record_again w e i :
      in_phase i = Prepared -> can_commit w e (RecordIntent i) ->
      split_merge_step w (Driving i) None (commit w e) (Driving i)
  | x_record_lost w e i :
      can_commit w e (RecordIntent i) -> split_merge_step w (Planned i) None (commit w e) (Stopped false)
  | x_record_err w i : split_merge_step w (Planned i) None w (Stopped false)
  (** The loop, with the intent prepared. *)
  | x_arm w w' i :
      in_phase i = Prepared -> armed w w' (in_plan i) -> split_merge_step w (Driving i) None w' (Copying i [])
  | x_arm_err w w' i :
      in_phase i = Prepared -> w' = w \/ armed w w' (in_plan i) ->
      split_merge_step w (Driving i) None w' (Failing i)
  | x_page w i pages :
      split_merge_step w (Copying i pages) None
        (if pages is [] then set_moved w ∅ else w) (Copying i (pages ++ [w_source w]))
  | x_migrate w i pages assembled drained reset before polls views child r d' :
      pv_source <$> views = pages -> split_target (in_plan i) = Some child ->
      Forall (apart (start_key child) (end_key child)) views ->
      Forall (fun v => forall d, paired d -> paired (pv_between v d)) views ->
      migrate_split s target page_size (in_plan i) assembled drained reset before polls views
        (w_target w) = (r, d') ->
      split_merge_step w (Copying i pages) None (set_target w d')
        (match r with inl _ => Copied i | inr _ => Failing i end)
  | x_cutover w e i :
      can_commit w e (Cutover op_id) -> split_merge_step w (Copied i) None (commit w e) (Waiting i)
  | x_cutover_again w e i :
      can_commit w e (Cutover op_id) -> split_merge_step w (Waiting i) None (commit w e) (Waiting i)
  | x_cutover_err w i :
      split_merge_step w (Copied i) None (set_flight w (Cutover op_id :: w_flight w)) (Failing i)
  | x_seen w i i' :
      wait_poll (view w) = Some i' ->
      split_merge_step w (Waiting i) None w (Driving i')
  | x_timeout w i : split_merge_step w (Waiting i) (Some WaitTimeout) w (Failing i)
  | x_give_up w w' i : maybe_released w w' -> split_merge_step w (Failing i) None w' (Stopped false)
  (** The loop, with the intent applied or rejected. *)
  | x_applied w w' i v :
      in_phase i = Applied v -> maybe_released w w' -> split_merge_step w (Driving i) None w' (Clearing true)
  | x_rejected w w' i reason :
      in_phase i = Rejected reason -> released w w' -> split_merge_step w (Driving i) None w' (Clearing false)
  | x_rejected_err w w' i reason :
      in_phase i = Rejected reason -> maybe_released w w' ->
      split_merge_step w (Driving i) None w' (Stopped false)
  | x_clear w e success answered :
      can_commit w e (ClearIntent op_id) ->
      split_merge_step w (Clearing success) None (commit w e) (Stopped (success && answered))
  | x_clear_err w success : split_merge_step w (Clearing success) None w (Stopped false).

(** [recover_intents]: an operator that is running here is executed again, the
    intent of a finished operator is cleared away. *)
Inductive recover_step : World -> Pc -> option Fault -> World -> Pc -> Prop :=
  | x_again w i :
      pd_intent (view w) op_id = Some i -> claimed_here (view w) -> recover_step w Idle None w Ready
  | x_sweep w w' i e :
      pd_intent (view w) op_id = Some i -> finished (view w) ->
      (if is_applied i then w' = w else released w w') ->
      can_commit w' e (ClearIntent op_id) -> recover_step w Idle (read_fault w) (commit w' e) Idle
  | x_sweep_err w w' i :
      pd_intent (view w) op_id = Some i -> finished (view w) ->
      (if is_applied i then w' = w else released w w') -> recover_step w Idle (read_fault w) w' Idle.

(** The executor; the process stops anywhere and starts again. *)
Inductive exec_step : World -> Pc -> option Fault -> World -> Pc -> Prop :=
  | x_one w pc fault w' pc' : one_raft_step w pc fault w' pc' -> exec_step w pc fault w' pc'
  | x_drive w pc fault w' pc' : split_merge_step w pc fault w' pc' -> exec_step w pc fault w' pc'
  | x_recover w pc fault w' pc' : recover_step w pc fault w' pc' -> exec_step w pc fault w' pc'
  | x_restart w pc : exec_step w pc None w Idle.

(** Entries of others: they neither record nor cut over this intent. *)
Definition foreign (e : R0Entry) : Prop :=
  match r0_command e with
  | R0Pd (RecordIntent i) => in_op_id i <> op_id
  | R0Pd (Cutover k) => k <> op_id
  | _ => True
  end.

(** The table the node routes by sends every key of the write to the parent. *)
Definition routed_here (w : World) (wr : DirectWrite) : Prop :=
  exists t, region_table (view w) = Ok t /\
    forall k, writes_key wr k -> region_id <$> route t k = Some rid.

(** A store changes at most at these keys. *)
Definition changes_at (ks : gset bytes) (d d' : db) : Prop :=
  forall k, k ∉ ks -> key_rows d' k = key_rows d k.

Inductive env_step : World -> option Fault -> World -> Prop :=
  | v_commit w e :
      foreign e -> log_ok last0 (w_log w ++ [e]) ->
      rt_version (pd_table st0) + Z.of_nat (length (w_log w ++ [e])) <= u64_max ->
      env_step w None (commit w e)
  | v_late w e c l1 l2 :
      w_flight w = l1 ++ c :: l2 -> can_commit w e c ->
      env_step w (Some LateCommand) (set_flight (commit w e) (l1 ++ l2))
  | v_observe w n : (w_seen w <= n <= length (w_log w))%nat -> env_step w None (set_seen w n)
  | v_route w wr : routed_here w wr -> env_step w None (set_routed w (wr :: w_routed w))
  | v_write w wr l1 l2 a fault :
      w_routed w = l1 ++ wr :: l2 -> fault = Some StaleRoute \/ fault = None /\ routed_here w wr ->
      env_step w fault (set_source (set_routed w (l1 ++ l2)) (apply_direct s (w_source w) wr a).2)
  | v_decide w ks d :
      changes_at ks (w_source w) d -> direct_write_fence d = direct_write_fence (w_source w) ->
      env_step w None (set_moved (set_source w d) (w_moved w ∪ ks))
  | v_serve w ks d t :
      region_table (region0 w) = Ok t -> is_Some (region_get t new_id) ->
      changes_at ks (w_target w) d -> paired d ->
      env_step w None (set_moved (set_target w d) (w_moved w ∪ ks)).

Definition sys_step (x : World * Pc) (fault : option Fault) (y : World * Pc) : Prop :=
  exec_step x.1 x.2 fault y.1 y.2 \/ env_step x.1 fault y.1 /\ y.2 = x.2.

(** Runs, with the faults on the way. *)
Inductive sys_run : World * Pc -> list Fault -> World * Pc -> Prop :=
  | run_here x : sys_run x [] x
  | run_step x fault y faults z :
      sys_step x fault y -> sys_run y faults z ->
      sys_run x (if fault is Some f then f :: faults else faults) z.

(** The range of the child. *)
Definition in_child (i : PdIntent) (k : bytes) : Prop :=
  exists child, split_target (in_plan i) = Some child /\
    in_range (start_key child) (end_key child) k = true.

(** The split is cut over, and the table has not changed since. *)
Definition cut_over (w : World) (i : PdIntent) : Prop :=
  exists t, pd_intent (region0 w) op_id = Some i /\ region_table (region0 w) = Ok t /\
    in_phase i = Applied (rt_version t).

End executor.

(** ** Facts: the target never has metadata without a value, a split plan gives
    the child its range, commands of others leave the intent alone, and the
    states of Region 0 along its log *)

(** ** The target keeps values and metadata together *)

Lemma paired_rows d d' : (forall k, key_rows d' k = key_rows d k) -> paired d -> paired d'.
Proof. intros H Hp k. rewrite !H. apply Hp. Qed.

Lemma paired_write_row r x d : paired d -> paired (write_row r x d).
Proof.
  intros Hp k. destruct (decide (k = r.1.1)) as [->|Hne]; [|rewrite write_row_other by done; apply Hp].
  intros _. unfold key_rows, write_row. cbn [fst]. rewrite tx_get_insert_ne, tx_get_insert by done. done.
Qed.

Lemma paired_import_rows s rows : forall d n d', import_rows s rows d = Ok (n, d') -> paired d -> paired d'.
Proof.
  induction rows as [|[[key value] m] rows IH]; intros d n d' E Hp; cbn [import_rows] in E; [by injection E as <- <-|].
  assert (forall n d', (encrypted ← encrypt_value s (encode_kv_key key) value;
      '(n, d) ← import_rows s rows (write_row (key, value, m) encrypted d); Ok (n + 1, d)) = Ok (n, d') ->
    paired d') as Hw.
  { intros n0 d1 E0. inv_bind. destruct x0 as [n1 d2]. inv_bind. eapply IH; [done|]. by apply paired_write_row. }
  destruct (get_kv_metadata d key) as [existing|]; [|by eapply Hw].
  destruct (_ <? _); [by eapply IH|]. destruct (_ =? _); [|by eapply Hw].
  inv_bind. destruct (bytes_eqb _ _); [by eapply IH|done].
Qed.

(** Direct writes keep them together. *)
Lemma paired_only d d' : only_keys (fun _ => False) d d' -> paired d -> paired d'.
Proof. intros [H _]. apply paired_rows. intros k. apply H. by intros []. Qed.

Lemma paired_metadata key m m' d : get_kv_metadata d key = Some m -> paired d -> paired (insert_metadata key m' d).
Proof.
  intros Hm Hp k Hk. unfold key_rows, insert_metadata in *. cbn [fst snd] in *.
  rewrite tx_get_insert_ne by done. destruct (decide (k = key)) as [->|Hne].
  - apply Hp. unfold get_kv_metadata in Hm. unfold key_rows. cbn [snd].
    by destruct (tx_get d TABLE_KV_META (encode_kv_meta_key key)).
  - apply Hp. rewrite tx_get_insert_ne in Hk; [done|]. by intros [= ?].
Qed.

Lemma paired_delete_loop range_end rev rows : forall d,
  paired d -> paired (delete_range_loop range_end rev rows d).2.
Proof.
  induction rows as [|[ik v] rows IH]; intros d Hp; [done|]. cbn [delete_range_loop].
  destruct (decode_kv_key ik) as [k|]; [|by apply IH]. destruct (_ && _); [done|].
  destruct (get_kv_metadata d k) as [m|] eqn:Em; [|by apply IH]. destruct (deleted m); [by apply IH|].
  specialize (IH (insert_metadata k (meta_mark_deleted m rev) d) (paired_metadata _ _ _ _ Em Hp)).
  by destruct (delete_range_loop _ _ _ _).
Qed.

Lemma paired_guard {A : Type} s d rev policy same (replayed : A) f :
  (forall x d', f d = Ok (x, d') -> paired d') -> paired d ->
  paired (replay_guard s d rev policy same replayed f).2.
Proof.
  intros Hf Hp. assert (paired (backend_write d f).2) as Hw.
  { unfold backend_write. destruct (f d) as [[x d']|e] eqn:E; [by eapply Hf|done]. }
  unfold replay_guard. destruct policy.
  - by destruct (changelog_contains_revision d rev).
  - destruct (changelog_event_at d rev) as [[event|]|e]; try done. by destruct (same event).
Qed.

Lemma paired_answer {A : Type} s a (answer : A -> WriteResult) x :
  paired x.2 -> paired (write_answer s a answer x).2.
Proof.
  destruct x as [[x|e] d]; [done|]. intros Hp. unfold write_answer. destruct e; try done.
  eapply paired_only; [apply only_keys_persist|done].
Qed.

Lemma paired_direct s d w a : paired d -> paired (apply_direct s d w a).2.
Proof.
  intros Hp. unfold apply_direct. destruct (write_fence_hit d w) as [[op_id|]|e]; [|..|done].
  { eapply paired_only; [apply only_keys_persist|done]. }
  destruct w as [key value lease ts|key ts|key range_end ts]; cbn [run_direct]; apply paired_answer.
  - unfold put_at_commit_ts. destruct (ts =? 0); [done|]. apply paired_guard; [|done]. intros x d' E.
    unfold put_in_tx in E. inv_bind. eapply paired_only; [apply only_keys_commit|].
    match goal with H : write_key _ _ _ _ _ _ = Ok _ |- _ => unfold write_key in H end. inv_bind.
    apply (paired_write_row (key, value, _)). by eapply paired_only; [eapply only_keys_accept|].
  - unfold delete_at_commit_ts. destruct (ts =? 0); [done|]. apply paired_guard; [|done]. intros x d' E.
    unfold delete_in_tx in E. inv_bind. eapply paired_only; [apply only_keys_commit|].
    assert (paired x0) by (by eapply paired_only; [eapply only_keys_accept|]). unfold tombstone_live.
    destruct (get_kv_metadata x0 key) as [m|] eqn:Em; [|done]. destruct (deleted m); [done|]. by eapply paired_metadata.
  - unfold delete_range_at_commit_ts. destruct (ts =? 0); [done|]. cbn [delete_range_at_key].
    destruct (changelog_event_at d ts) as [[event|]|e]; [|..|done].
    + destruct (range_has_live_keys s d key range_end) as [live|]; [|done]. by destruct (_ && _).
    + unfold backend_write. destruct (delete_range_in_tx _ _ _ _ _ _ _) as [[x d']|] eqn:E; [|done].
      unfold delete_range_in_tx in E. inv_bind.
      assert (paired x0) as Hp0 by (by eapply paired_only; [eapply only_keys_accept|]).
      apply (paired_delete_loop range_end ts (iter_range x0 TABLE_KV (encode_kv_key key) (encode_kv_key range_end))) in Hp0.
      destruct (delete_range_loop _ _ _ _) as [ks d1]. inv_bind. by eapply paired_only; [apply only_keys_commit|].
Qed.

Section paired.
Context {fc : FloorCodec} {psd : Postcard SequencerDecision}.
Context (s target : MvccStorage) (Hmode : revision_mode target = ModeCommitTs).

Lemma paired_import d start end_ rows w seal done a :
  paired d -> paired (apply_range_import target d start end_ rows w seal done a).2.
Proof using Hmode.
  intros Hp. unfold apply_range_import. rewrite decide_True by done.
  destruct (_ && _); [done|]. destruct (check_import_rows _ _ _ _ _); [|done]. unfold backend_write.
  destruct (import_rows target rows d) as [[n d1]|] eqn:E; [|done]. cbn [mbind result_bind].
  destruct (if done then _ else _) as [d2|] eqn:Ef; [|done]. cbn [mbind result_bind snd].
  eapply paired_rows; [|by eapply paired_import_rows]. intros k. rewrite key_rows_last_applied.
  by eapply (finish_page_keys target Hmode).
Qed.

Lemma paired_clear d start end_ a : paired d -> paired (clear_imported_range target d start end_ a).2.
Proof using Hmode.
  intros Hp. destruct (clear_range_spec target d start end_ a Hmode) as (n & d' & -> & _ & Hout & _ & Hin).
  intros k. cbn [snd]. destruct (in_range start end_ k) eqn:E; [rewrite (Hin k E (Hp k)); by intros []|].
  rewrite Hout by done. apply Hp.
Qed.

Lemma propose_keeps {A : Type} (P : db -> Prop) (p : Proposed) (command : db -> AppliedLogId -> result A * db) e d :
  (forall d a, P d -> P (command d a).2) -> P d -> P (propose p command e d).2.
Proof using.
  intros Hc Hp. unfold propose. assert (P (run_proposal command (applications p) d).2) as H.
  { generalize (applications p) as l. intros l. revert d Hp. induction l as [|a [|a' l] IH]; intros d Hp; [done|..].
    - cbn [run_proposal]. specialize (Hc d a Hp). by destruct (command d a).
    - change (P (run_proposal command (a' :: l) (command d a).2).2). by apply IH, Hc. }
  destruct (run_proposal _ _ _) as [[[x|]|] d']; by try destruct (answered p).
Qed.

Lemma paired_import_loop page_size start end_ views :
  Forall (fun v => forall d, paired d -> paired (pv_between v d)) views -> forall after wm d,
  paired d -> paired (import_loop s target page_size start end_ true views after wm d).2.
Proof using Hmode.
  induction 1 as [|v views Hv _ IH]; intros after wm d Hp; cbn [import_loop]; [done|].
  destruct (export_range_page _ _ _ _ _ _ _) as [page|]; [|done]. cbv zeta.
  set (blocked := if true && bool_decide (after = None) then _ else None). destruct blocked; [done|].
  set (done := match next_after page with None => true | Some _ => false end).
  pose proof (propose_keeps paired (pv_import v)
    (fun (d : db) (a : AppliedLogId) => apply_range_import target d start end_ (page_rows page)
       (default (page_revision page) wm) true done a) ImportFailed (pv_between v d)
    (fun d a => paired_import d _ _ _ _ _ _ a) (Hv d Hp)) as Hi.
  destruct (propose _ _ _ _) as [[n|e] d2]; [|done]. destruct done; [done|]. by apply IH.
Qed.

Lemma paired_migrate page_size plan assembled drained reset before polls views d :
  Forall (fun v => forall d, paired d -> paired (pv_between v d)) views -> paired d ->
  paired (migrate_split s target page_size plan assembled drained reset before polls views d).2.
Proof using Hmode.
  intros Hv Hp. unfold migrate_split. destruct (split_target plan) as [child|]; [|done].
  destruct (negb assembled); [done|]. destruct (negb drained); [done|]. unfold import_pages.
  pose proof (propose_keeps paired reset
    (fun (d : db) => clear_imported_range target d (start_key child) (end_key child)) ResetFailed d
    (fun d a => paired_clear d _ _ a) Hp) as Hr.
  destruct (propose _ _ _ _) as [[n|e] d1]; [|done]. destruct (wait_for_decision_barrier _ _); [done|].
  by apply paired_import_loop.
Qed.

End paired.

(** ** The plan of a split *)

Record split_child_of (t : RegionTable) (id : Z) (key : bytes) (new_id : Z) (plan : SplitMergePlan)
    (child : RegionMeta) : Prop := {
  sc_target : split_target plan = Some child;
  sc_fence : split_fence plan = Some (id, key, end_key child);
  sc_start : start_key child = key;
  sc_range : in_range key (end_key child) key = true;
  sc_new : new_id <> id;
  sc_parent : forall k, in_range key (end_key child) k = true -> region_id <$> route t k = Some id }.

Lemma plan_split_child t id key new_id plan :
  table_ok t -> plan_split t id key new_id = Ok plan -> exists child, split_child_of t id key new_id plan child.
Proof.
  intros Hok H. apply plan_split_inv in H as (parent & l1 & l2 & El & <- & H0 & Hf & Hlo & Hhi & ->).
  assert (parent ∈ regions t) as Hin by (rewrite El; set_solver).
  exists (split_child parent key new_id).
  assert (split_target {| plan_kind := RegionTable.Split; source_region := region_id parent;
    target_region := Some new_id;
    plan_changes := [RcUpdate (shrink_region parent key); RcAdd (split_child parent key new_id)];
    expected_table_version := rt_version t |} = Some (split_child parent key new_id)) as Et.
  { unfold split_target. cbn. by rewrite Z.eqb_refl. }
  split; [done|unfold split_fence; cbn [plan_kind]; by rewrite Et|done| | |]; cbn [split_child end_key].
  - apply in_range_spec. split; [reflexivity|]. destruct (decide (end_key parent = [])); auto.
  - intros ->. apply Hf. apply list_elem_of_fmap. by exists parent.
  - intros k Hk. apply in_range_spec in Hk as [Hk1 Hk2]. rewrite (route_unique t parent k Hok Hin); [done|].
    apply contains_key_iff. split; [by eapply bytes_lt_le, bytes_lt_le_trans|]. intros He. by destruct Hk2.
Qed.

Lemma split_cut_routes t id key new_id plan child t' b k :
  table_ok t -> table_small t -> plan_split t id key new_id = Ok plan ->
  split_child_of t id key new_id plan child -> region_apply t (plan_changes plan) = Ok (b, t') ->
  in_range key (end_key child) k = true -> region_id <$> route t' k = Some new_id.
Proof.
  intros Hok Hs Hp Hc Ha Hk.
  destruct (split_plan_applies t id key new_id plan (to_init _ Hok)) as (t1 & Ha' & _ & _ & Hr); [|done|done|].
  { by apply region_validate_iff; [apply (to_init _ Hok)|]. }
  rewrite Ha in Ha'. injection Ha' as _ <-. rewrite Hr, (sc_parent _ _ _ _ _ _ Hc k Hk). cbn.
  rewrite Z.eqb_refl. apply in_range_spec in Hk as [Hk _]. by rewrite Hk.
Qed.

(** ** The intent along the log of Region 0 *)

(** Commands of others keep the intent or clear it. *)
Lemma journal_foreign st e k :
  foreign k e -> pd_journal (spec_r0 st e) !! k = pd_journal st !! k \/ pd_journal (spec_r0 st e) !! k = None.
Proof.
  unfold foreign, spec_r0. intros Hf. destruct (r0_command e) as [op|op]; [|by left].
  unfold spec_pd_op. destruct op; cbn [spec_run pd_journal]; try by left.
  - left. destruct (pd_journal st !! in_op_id intent); [done|]. by rewrite lookup_insert_ne.
  - left. unfold spec_cutover. destruct (pd_journal st !! op_id) as [i|]; [|done].
    destruct (decide _); [|done]. destruct (cutover_outcome _ _). cbn [pd_journal]. by rewrite lookup_insert_ne.
  - destruct (decide (op_id = k)) as [->|Hne]; [right; by rewrite lookup_delete_eq|left].
    by rewrite lookup_delete_ne.
Qed.

Lemma journal_clear st e k : r0_command e = R0Pd (ClearIntent k) -> pd_journal (spec_r0 st e) !! k = None.
Proof. intros E. unfold spec_r0. rewrite E. cbn. by rewrite lookup_delete_eq. Qed.

Lemma journal_record st e i :
  r0_command e = R0Pd (RecordIntent i) -> pd_journal st !! in_op_id i = None ->
  pd_journal (spec_r0 st e) !! in_op_id i = Some i /\ pd_table (spec_r0 st e) = pd_table st.
Proof. intros E Hn. unfold spec_r0. rewrite E. cbn. rewrite Hn. by rewrite lookup_insert_eq. Qed.

Lemma journal_cut_none st e k :
  r0_command e = R0Pd (Cutover k) -> pd_journal st !! k = None -> pd_journal (spec_r0 st e) !! k = None.
Proof. intros E Hn. unfold spec_r0. rewrite E. cbn. unfold spec_cutover. by rewrite Hn. Qed.

Section log.
Context {pe : Postcard PdQueueEntry} {pn : Postcard PdIntent} {pt : Postcard RegionTable}.
Context {ple : PostcardLaws PdQueueEntry} {pln : PostcardLaws PdIntent} {plt : PostcardLaws RegionTable}.
Context (s0 : MvccStorage) (d0 : db) (st0 : PdState) (last0 : Z) (Hro : r0_ok last0 d0 st0).

(** Region 0 after some entries. *)
Definition state_at (l : list R0Entry) (n : nat) : PdState := spec_log st0 (take n l).
Abbreviation table_at l n := (pd_table (state_at l n)).

Definition log_fine (l : list R0Entry) : Prop :=
  log_ok last0 l /\ rt_version (pd_table st0) + Z.of_nat (length l) <= u64_max.

Lemma state_at_app l e n : (n <= length l)%nat -> state_at (l ++ [e]) n = state_at l n.
Proof using. intros H. unfold state_at. by rewrite take_app_le. Qed.

Lemma state_at_full l : state_at l (length l) = spec_log st0 l.
Proof using. unfold state_at. by rewrite firstn_all. Qed.

Lemma state_at_last l e : state_at (l ++ [e]) (length (l ++ [e])) = spec_r0 (state_at l (length l)) e.
Proof using. rewrite !state_at_full. by rewrite spec_log_app. Qed.

Lemma state_reads l n :
  log_fine l -> pd_rep (run_r0 s0 d0 (take n l)).2 (state_at l n).
Proof using Hro ple pln plt.
  intros [Hl Hu]. destruct (run_prefix s0 l last0 d0 st0 (take n l) (drop n l) Hro Hl Hu) as [last' [Hrep _ _ _ _]].
  { by rewrite take_drop. }
  done.
Qed.

(** Tables only move forward, and a version names one table. *)
Lemma tables_ordered l n m :
  log_fine l -> (n <= m <= length l)%nat ->
  table_ok (table_at l n) /\ table_ok (table_at l m) /\ 0 <= rt_version (table_at l n) /\
  rt_version (table_at l n) <= rt_version (table_at l m) /\
  (rt_version (table_at l n) = rt_version (table_at l m) -> table_at l n = table_at l m) /\
  rt_version (table_at l m) <= rt_version (pd_table st0) + Z.of_nat m.
Proof using Hro.
  intros [_ Hu] Hn. pose proof (ro_version _ _ _ Hro) as Hv. pose proof (ro_table _ _ _ Hro) as Hok.
  destruct (spec_log_table (take n l) st0 Hok Hv) as (H1 & H2 & _); [rewrite length_take; lia|].
  rewrite length_take in H2. unfold state_at.
  assert (take m l = take n l ++ drop n (take m l)) as ->.
  { rewrite <-(take_drop n (take m l)) at 1. by rewrite take_take, Nat.min_l by lia. }
  rewrite spec_log_app. set (l' := drop n (take m l)).
  assert (length l' = m - n)%nat as Hlen by (unfold l'; rewrite length_drop, length_take; lia).
  destruct (spec_log_table l' (spec_log st0 (take n l)) H1) as (H3 & H4 & H5); [lia|rewrite Hlen; lia|].
  split_and!; [done|done|lia|lia| |lia]. intros E. symmetry. by apply H5.
Qed.

End log.
