(* ===== verification/ExecutorSafety.v ===== *)
(** * A split loses no write

    In a run without faults the child of a split has, at the moment of the
    cutover and after it, every key of its range as the parent has it, up to
    what decisions and the child itself have changed since the copy. *)

From S2P Require Export Executor.

Local Open Scope Z_scope.

Section safety.
Context {fc : FloorCodec} {fl : FloorCodecLaws fc} {psd : Postcard SequencerDecision}.
Context {pe : Postcard PdQueueEntry} {pn : Postcard PdIntent} {pt : Postcard RegionTable}.
Context {ple : PostcardLaws PdQueueEntry} {pln : PostcardLaws PdIntent} {plt : PostcardLaws RegionTable}.
Context (s0 s target : MvccStorage) (page_size : nat) (d0 : db) (st0 : PdState) (last0 : Z).
Context (node op_id rid : Z) (split_key : bytes) (new_id : Z).
Context (Hro : r0_ok last0 d0 st0) (Hop : in_u64 op_id) (Hkey : in_u32 (Z.of_nat (length split_key))).
Context (Hmode : revision_mode target = ModeCommitTs) (Hbar : rep_barrier target).

(** ** The log of Region 0 *)

Abbreviation J l n := (pd_journal (state_at st0 l n) !! op_id).
Abbreviation T l n := (pd_table (state_at st0 l n)).

(** The intent comes from a plan for a table the log had. *)
Definition planned (l : list R0Entry) (n : nat) (i : PdIntent) : Prop :=
  exists m, (m <= n)%nat /\ table_small (T l m) /\ plan_split (T l m) rid split_key new_id = Ok (in_plan i).

Definition routes_child (t : RegionTable) (i : PdIntent) : Prop :=
  forall k, in_child i k -> region_id <$> route t k = Some new_id.

Record log_good (l : list R0Entry) : Prop := {
  lg_fine : log_fine st0 last0 l;
  lg_planned : forall n i, (n <= length l)%nat -> J l n = Some i -> planned l n i;
  lg_applied : forall n i v, (n <= length l)%nat -> J l n = Some i -> in_phase i = Applied v ->
    v <= rt_version (T l n) /\ (rt_version (T l n) = v -> routes_child (T l n) i) }.

Lemma J_app l e n : (n <= length l)%nat -> J (l ++ [e]) n = J l n.
Proof using. intros. by rewrite state_at_app. Qed.

Lemma J_last l e : J (l ++ [e]) (length (l ++ [e])) = pd_journal (spec_r0 (state_at st0 l (length l)) e) !! op_id.
Proof using. by rewrite state_at_last. Qed.

Lemma planned_app l e n i : (n <= length l)%nat -> planned l n i -> planned (l ++ [e]) n i.
Proof using. intros Hn (m & Hm & Hs & Hp). exists m. by rewrite state_at_app by lia. Qed.

Lemma planned_le l n n' i : (n <= n')%nat -> planned l n i -> planned l n' i.
Proof using. intros Hn (m & Hm & H). exists m. split; [lia|done]. Qed.

Lemma planned_snoc l e i : planned l (length l) i -> planned (l ++ [e]) (length (l ++ [e])) i.
Proof using.
  intros H. apply (planned_le _ (length l)); [rewrite length_app; lia|]. by apply planned_app.
Qed.

(** What the new entry has to satisfy. *)
Lemma log_good_app l e :
  log_good l -> log_fine st0 last0 (l ++ [e]) ->
  (forall i, J (l ++ [e]) (length (l ++ [e])) = Some i -> planned l (length l) i /\
     forall v, in_phase i = Applied v ->
       let t := T (l ++ [e]) (length (l ++ [e])) in
       v <= rt_version t /\ (rt_version t = v -> routes_child t i)) ->
  log_good (l ++ [e]).
Proof using.
  intros [Hf Hp Ha] Hf' Hnew. split; [done|..].
  - intros n i Hn Hi. rewrite length_app in Hn. destruct (decide (n <= length l)%nat) as [Hle|].
    + rewrite J_app in Hi by done. apply planned_app; [done|by apply Hp].
    + assert (n = length (l ++ [e])) as -> by (rewrite length_app; cbn in *; lia).
      by apply planned_snoc, Hnew.
  - intros n i v Hn Hi Hv. rewrite length_app in Hn. destruct (decide (n <= length l)%nat) as [Hle|].
    + rewrite J_app in Hi by done. rewrite state_at_app by done. by apply Ha.
    + assert (n = length (l ++ [e])) as -> by (rewrite length_app; cbn in *; lia). by apply Hnew.
Qed.

(** The entry leaves the intent as it is, or clears it. *)
Definition inert (l : list R0Entry) (e : R0Entry) : Prop :=
  J (l ++ [e]) (length (l ++ [e])) = J l (length l) \/ J (l ++ [e]) (length (l ++ [e])) = None.

Lemma foreign_inert l e : foreign op_id e -> inert l e.
Proof using. unfold inert. rewrite J_last. apply journal_foreign. Qed.

Lemma log_good_inert l e :
  log_good l -> inert l e -> log_fine st0 last0 (l ++ [e]) -> log_good (l ++ [e]).
Proof using Hro.
  intros Hg Hf Hfine. apply log_good_app; [done..|]. intros i Hi.
  destruct (tables_ordered d0 st0 last0 Hro (l ++ [e]) (length l) (length (l ++ [e])) Hfine)
    as (_ & _ & _ & Hle & Heq & _); [rewrite length_app; lia|]. rewrite (state_at_app _ l) in Hle, Heq by done.
  destruct Hf as [E|E]; [|congruence].
  rewrite E in Hi. split; [by apply (lg_planned _ Hg)|]. intros v Hv.
  destruct (lg_applied _ Hg (length l) i v) as [H1 H2]; [done..|]. cbv zeta. split; [lia|].
  intros Hv'. rewrite <-Heq by lia. apply H2. lia.
Qed.

Lemma log_good_record l e i :
  log_good l -> r0_command e = R0Pd (RecordIntent i) -> in_op_id i = op_id -> in_phase i = Prepared ->
  planned l (length l) i -> J l (length l) = None -> log_fine st0 last0 (l ++ [e]) ->
  log_good (l ++ [e]) /\ J (l ++ [e]) (length (l ++ [e])) = Some i.
Proof using.
  intros Hg He Hid Hph Hpl Hn Hfine.
  assert (J (l ++ [e]) (length (l ++ [e])) = Some i) as Hi.
  { rewrite J_last, <-Hid. apply journal_record; [done|]. by rewrite Hid. }
  split; [|done]. apply log_good_app; [done..|]. intros i' Hi'. rewrite Hi in Hi'. injection Hi' as <-.
  split; [done|]. congruence.
Qed.

(** The cutover of a prepared intent. *)
Lemma log_good_cutover l e i :
  log_good l -> r0_command e = R0Pd (Cutover op_id) -> J l (length l) = Some i -> in_phase i = Prepared ->
  log_fine st0 last0 (l ++ [e]) ->
  log_good (l ++ [e]) /\ exists phase, phase <> Prepared /\
    J (l ++ [e]) (length (l ++ [e])) = Some (set_phase i phase).
Proof using Hro.
  intros Hg He Hi Hph Hfine. destruct (lg_planned _ Hg _ _ (le_n _) Hi) as (m & Hm & Hsmall & Hplan).
  destruct (tables_ordered d0 st0 last0 Hro l m (length l) (lg_fine _ Hg)) as (Hok & _ & _ & _ & Heq & _); [lia|].
  destruct (spec_cutover_step (state_at st0 l (length l)) (state_at st0 l m) e op_id i Hok Hsmall) as (phase & Hp & Hj & Ht);
    [left; by eexists _, _, _|by intros E; rewrite Heq|done..|].
  assert (J (l ++ [e]) (length (l ++ [e])) = Some (set_phase i phase)) as Hlast by (by rewrite J_last).
  split; [|by exists phase]. apply log_good_app; [done..|]. intros i' Hi'. rewrite Hlast in Hi'. injection Hi' as <-.
  split; [by exists m|]. intros v Hv. cbv zeta. rewrite state_at_last. cbn [in_phase set_phase] in Hv.
  destruct Ht as [(Et & Ha & ->)|(_ & _ & ->)]; [|done]. injection Hv as <-. split; [lia|]. intros _ k (child & Hc & Hk).
  destruct (plan_split_child _ _ _ _ _ Hok Hplan) as [child' Hsc].
  cbn [in_plan set_phase] in Hc. rewrite (sc_target _ _ _ _ _ _ Hsc) in Hc. injection Hc as <-.
  rewrite (sc_start _ _ _ _ _ _ Hsc) in Hk. rewrite Et in Ha. by eapply split_cut_routes.
Qed.

(** ** The intent from what the node has seen to the end of the log *)

Definition absent_in (l : list R0Entry) (seen : nat) : Prop :=
  forall n, (seen <= n <= length l)%nat -> J l n = None.

(** Recorded, if not cleared, and not cut over. *)
Definition prepared_in (l : list R0Entry) (seen : nat) (i : PdIntent) : Prop :=
  in_phase i = Prepared /\ planned l (length l) i /\
  forall n, (seen <= n <= length l)%nat -> J l n = None \/ J l n = Some i.

(** Cut over at some entry. *)
Definition waiting_in (l : list R0Entry) (seen : nat) (i : PdIntent) : Prop :=
  in_phase i = Prepared /\ exists c i', (c < length l)%nat /\ in_phase i' <> Prepared /\
  forall n, (seen <= n <= length l)%nat ->
    ((n <= c)%nat -> J l n = None \/ J l n = Some i) /\
    ((c < n)%nat -> (J l n = None \/ J l n = Some i') /\ (J l (length l) = Some i' -> J l n = Some i')).

(** Seen as settled. *)
Definition settled_in (l : list R0Entry) (seen : nat) (i : PdIntent) : Prop :=
  in_phase i <> Prepared /\
  forall n, (seen <= n <= length l)%nat ->
    (J l n = None \/ J l n = Some i) /\ (J l (length l) = Some i -> J l n = Some i).

(** An entry of the longer log is an old one or the new one. *)
Lemma window_app (l : list R0Entry) (e : R0Entry) (seen n : nat) (P : Prop) :
  (seen <= n <= length (l ++ [e]))%nat ->
  ((seen <= n <= length l)%nat -> P) -> (n = length (l ++ [e]) -> P) -> P.
Proof using.
  rewrite length_app. cbn. intros H H1 H2. destruct (decide (n <= length l)%nat); [apply H1|apply H2]; lia.
Qed.

Section inert.
Context (l : list R0Entry) (e : R0Entry) (seen : nat) (Hf : inert l e) (Hseen : (seen <= length l)%nat).

Lemma absent_app : absent_in l seen -> absent_in (l ++ [e]) seen.
Proof using Hf Hseen.
  intros H n Hn. apply (window_app l e seen n); [done|intros ?; rewrite J_app by lia; by apply H|intros ->].
  destruct Hf as [-> |]; [by apply H|done].
Qed.

Lemma prepared_app i : prepared_in l seen i -> prepared_in (l ++ [e]) seen i.
Proof using Hf Hseen.
  intros (Hp & Hpl & H). split; [done|]. split.
  { by apply planned_snoc. }
  intros n Hn. apply (window_app l e seen n); [done|intros ?; rewrite J_app by lia; by apply H|intros ->].
  destruct Hf as [-> |]; [by apply H|by left].
Qed.

Lemma settled_app i : settled_in l seen i -> settled_in (l ++ [e]) seen i.
Proof using Hf Hseen.
  intros (Hp & H). split; [done|]. intros n Hn.
  assert (J (l ++ [e]) (length (l ++ [e])) = Some i -> J l (length l) = Some i) as Hback.
  { destruct Hf as [-> |]; congruence. }
  apply (window_app l e seen n); [done|intros Hn'|intros ->].
  - rewrite (J_app l e n) by lia. destruct (H n Hn'). auto.
  - split; [|done]. destruct Hf as [-> |]; [by apply H|by left].
Qed.

Lemma waiting_app i : waiting_in l seen i -> waiting_in (l ++ [e]) seen i.
Proof using Hf Hseen.
  intros (Hp & c & i' & Hc & Hp' & H). split; [done|]. exists c, i'.
  split; [rewrite length_app; lia|]. split; [done|]. intros n Hn.
  assert (J (l ++ [e]) (length (l ++ [e])) = Some i' -> J l (length l) = Some i') as Hback.
  { destruct Hf as [-> |]; congruence. }
  apply (window_app l e seen n); [done|intros Hn'|intros ->].
  - rewrite (J_app l e n) by lia. destruct (H n Hn') as [H1 H2]. split; [done|].
    intros Hcn. destruct (H2 Hcn). auto.
  - split; [rewrite length_app; lia|]. intros _. split; [|done]. destruct Hf as [-> |]; [|by left].
    destruct (H (length l)) as [_ H2]; [lia|]. by apply H2.
Qed.

End inert.

(** The node sees more of the log. *)
Lemma window_mono (P : nat -> Prop) (seen seen' : nat) (l : list R0Entry) :
  (seen <= seen')%nat -> (forall n, (seen <= n <= length l)%nat -> P n) ->
  forall n, (seen' <= n <= length l)%nat -> P n.
Proof using. intros Hs H n Hn. apply H. lia. Qed.

Lemma record_prepared l e i seen :
  log_good l -> r0_command e = R0Pd (RecordIntent i) -> in_op_id i = op_id -> in_phase i = Prepared ->
  planned l (length l) i -> absent_in l seen -> (seen <= length l)%nat -> log_fine st0 last0 (l ++ [e]) ->
  log_good (l ++ [e]) /\ prepared_in (l ++ [e]) seen i.
Proof using.
  intros Hg He Hid Hp Hpl Ha Hs Hfine.
  destruct (log_good_record l e i) as [Hg' Hi]; [done..|by apply Ha|done|]. split; [done|].
  split; [done|]. split; [by apply planned_snoc|].
  intros n Hn. apply (window_app l e seen n); [done|intros ?|intros ->; by right].
  left. rewrite J_app by lia. by apply Ha.
Qed.

Lemma cutover_waiting l e i seen :
  log_good l -> r0_command e = R0Pd (Cutover op_id) -> prepared_in l seen i -> (seen <= length l)%nat ->
  log_fine st0 last0 (l ++ [e]) ->
  log_good (l ++ [e]) /\ waiting_in (l ++ [e]) seen i /\
  forall i', J (l ++ [e]) (length (l ++ [e])) = Some i' -> in_plan i' = in_plan i.
Proof using Hro.
  intros Hg He (Hp & Hpl & H) Hs Hfine.
  assert (log_good (l ++ [e]) /\ exists phase, phase <> Prepared /\
    (J (l ++ [e]) (length (l ++ [e])) = None \/ J (l ++ [e]) (length (l ++ [e])) = Some (set_phase i phase)))
    as [Hg' (phase & Hph & Hlast)].
  { destruct (H (length l)) as [Hn|Hi]; [lia|..].
    - assert (J (l ++ [e]) (length (l ++ [e])) = None) as Hj by (rewrite J_last; by apply journal_cut_none).
      split; [|exists (Applied 0); by split; [|left]]. apply log_good_app; [done..|]. intros i'. by rewrite Hj.
    - destruct (log_good_cutover l e i) as [? (phase & ? & ?)]; [done..|]. split; [done|]. exists phase. by split; [|right]. }
  split; [done|]. split; [|intros i' Hi'; destruct Hlast as [E|E]; rewrite E in Hi'; by simplify_eq].
  split; [done|]. exists (length l), (set_phase i phase). split; [rewrite length_app; cbn; lia|]. split; [done|].
  intros n Hn. apply (window_app l e seen n); [done|intros Hn'|intros ->].
  - rewrite (J_app l e n) by lia. split; [intros _; by apply H|lia].
  - rewrite length_app. cbn. split; [lia|]. intros _. rewrite length_app in Hlast. by split.
Qed.

(** ** The invariant *)

Definition fence_on (d : db) (i : PdIntent) : Prop :=
  exists child, split_target (in_plan i) = Some child /\
    direct_write_fence d = Ok (Some {| fence_start := start_key child; fence_end := end_key child;
                                       fence_op_id := op_id |}).

Definition copies (w : World) (i : PdIntent) : Prop :=
  forall k, in_child i k -> k ∉ w_moved w -> copied s target (w_source w) (w_target w) k.

Abbreviation len w := (length (w_log w)).
Abbreviation window w n := (w_seen w <= n <= len w)%nat.

(** The intent is applied, and the table has not changed since. *)
Definition cut (l : list R0Entry) (i : PdIntent) : Prop :=
  J l (length l) = Some i /\ in_phase i = Applied (rt_version (T l (length l))).

Record world_good (w : World) : Prop := {
  wg_log : log_good (w_log w);
  wg_seen : (w_seen w <= len w)%nat;
  wg_paired : paired (w_target w);
  wg_cut : forall i, cut (w_log w) i ->
    (fence_on (w_source w) i \/ forall n, window w n -> J (w_log w) n = Some i) /\ copies w i }.

Definition pc_good (w : World) (pc : Pc) : Prop :=
  match pc with
  | Planned i => in_phase i = Prepared /\ in_op_id i = op_id /\ planned (w_log w) (len w) i /\
                 absent_in (w_log w) (w_seen w)
  | Driving i => prepared_in (w_log w) (w_seen w) i \/ settled_in (w_log w) (w_seen w) i
  | Copying i pages => prepared_in (w_log w) (w_seen w) i /\ fence_on (w_source w) i /\
      Forall (fun src => forall k, in_child i k -> k ∉ w_moved w ->
                key_rows (w_source w) k = key_rows src k) pages
  | Copied i => prepared_in (w_log w) (w_seen w) i /\ fence_on (w_source w) i /\ copies w i
  | Waiting i => waiting_in (w_log w) (w_seen w) i
  | Failing i => prepared_in (w_log w) (w_seen w) i
  | _ => True
  end.

Lemma prepared_not_cut l seen i i' : (seen <= length l)%nat -> prepared_in l seen i -> ~ cut l i'.
Proof using.
  intros Hs (Hp & _ & H) [Hj Ha]. destruct (H (length l)) as [E|E]; [lia|congruence|].
  rewrite E in Hj. injection Hj as <-. congruence.
Qed.

(** A step that leaves the log alone, and every key that counts. *)
Definition frames (w w' : World) (i : PdIntent) : Prop :=
  forall k, in_child i k -> k ∉ w_moved w' ->
    (k ∉ w_moved w) /\ key_rows (w_source w') k = key_rows (w_source w) k /\
    key_rows (w_target w') k = key_rows (w_target w) k.

Lemma copies_frames w w' i : frames w w' i -> copies w i -> copies w' i.
Proof using.
  intros Hf Hc k Hk Hm. destruct (Hf k Hk Hm) as (Hm' & Hs & Ht).
  eapply copied_source_rows; [exact Hs|]. eapply copied_rows; [exact Ht|]. by apply Hc.
Qed.

Lemma good_frames w w' pc :
  w_log w' = w_log w -> w_seen w' = w_seen w -> paired (w_target w') ->
  direct_write_fence (w_source w') = direct_write_fence (w_source w) ->
  (forall i, planned (w_log w) (len w) i ->
     fence_on (w_source w) i \/ cut (w_log w) i /\ J (w_log w) (w_seen w) = Some i -> frames w w' i) ->
  world_good w -> pc_good w pc -> world_good w' /\ pc_good w' pc.
Proof using.
  intros El Es Hp Hfence Hfr [Hg Hs _ Hcut] Hpc.
  assert (forall i, fence_on (w_source w) i -> fence_on (w_source w') i) as Hon.
  { intros i (child & Hc & Hd). exists child. split; [done|]. by rewrite Hfence. }
  split.
  - split; rewrite ?El, ?Es; [done..|]. intros i Hi. destruct (Hcut i Hi) as [Hf Hc]. split.
    + destruct Hf as [Hf|Hf]; [left; by apply Hon|right; by rewrite ?Es].
    + eapply copies_frames; [|done]. apply Hfr; [by apply (lg_planned _ Hg); [|apply Hi]|].
      destruct Hf as [Hf|Hf]; [by left|right]. split; [done|]. apply Hf. lia.
  - destruct pc; cbn [pc_good] in *; rewrite ?El, ?Es; try done.
    + destruct Hpc as (Hpr & Hf & Hpages). split; [done|]. split; [by apply Hon|].
      eapply Forall_impl; [exact Hpages|]. intros src H k Hk Hm.
      destruct (Hfr intent (proj1 (proj2 Hpr)) (or_introl Hf) k Hk Hm) as (Hm' & -> & _). by apply H.
    + destruct Hpc as (Hpr & Hf & Hc). split; [done|]. split; [by apply Hon|].
      eapply copies_frames; [|done]. apply Hfr; [apply Hpr|by left].
Qed.

(** An inert entry is appended. *)
Lemma good_inert w e pc :
  inert (w_log w) e -> log_fine st0 last0 (w_log w ++ [e]) ->
  world_good w -> pc_good w pc -> world_good (commit w e) /\ pc_good (commit w e) pc.
Proof using Hro.
  intros Hf Hfine [Hg Hs Hp Hcut] Hpc. pose proof (log_good_inert _ _ Hg Hf Hfine) as Hg'.
  split.
  - split; cbn [w_log w_seen w_source w_target commit]; [done|rewrite length_app; lia|done|].
    intros i [Hi Ha].
    assert (J (w_log w) (len w) = Some i) as Hi0.
    { destruct Hf as [E|E]; rewrite E in Hi; done. }
    assert (cut (w_log w) i) as Hc0.
    { split; [done|]. destruct (lg_applied _ Hg _ _ _ (le_n _) Hi0 Ha) as [Hle _].
      destruct (tables_ordered d0 st0 last0 Hro (w_log w ++ [e]) (len w) (length (w_log w ++ [e])) Hfine)
        as (_ & _ & _ & Hle' & _ & _); [rewrite length_app; lia|].
      rewrite (state_at_app _ (w_log w)) in Hle' by done. rewrite Ha. f_equal. lia. }
    destruct (Hcut i Hc0) as [Hfo Hcp]. split; [|done]. destruct Hfo as [|Hn]; [by left|right].
    intros n Hwin. apply (window_app (w_log w) e (w_seen w) n); [done|intros ?|by intros ->].
    rewrite J_app by lia. by apply Hn.
  - destruct pc; cbn [pc_good] in *; cbn [w_log w_seen w_source w_moved commit]; try done.
    + destruct Hpc as (? & ? & ? & ?). split_and!; [done|done|by apply planned_snoc|by apply absent_app].
    + destruct Hpc; [left; by apply prepared_app|right; by apply settled_app].
    + destruct Hpc as (? & ? & ?). split; [by apply prepared_app|done].
    + destruct Hpc as (? & ? & ?). split; [by apply prepared_app|done].
    + by apply waiting_app.
    + by apply prepared_app.
Qed.

(** The node sees more. *)
Lemma good_observe w n pc :
  window w n -> world_good w -> pc_good w pc -> world_good (set_seen w n) /\ pc_good (set_seen w n) pc.
Proof using.
  intros Hn [Hg Hs Hp Hcut] Hpc. split.
  - split; cbn [w_log w_seen w_target set_seen]; [done|lia|done|]. intros i Hi. destruct (Hcut i Hi) as [Hf Hc].
    split; [|done]. destruct Hf as [|Hf]; [by left|right]. intros m Hm. apply Hf. lia.
  - destruct pc; cbn [pc_good] in *; cbn [w_log w_seen set_seen]; try done.
    + destruct Hpc as (? & ? & ? & Ha). split_and!; [done..|]. intros m Hm. apply Ha. lia.
    + destruct Hpc as [(? & ? & H)|(? & H)]; [left|right]; split_and!; try done; intros m Hm; apply H; lia.
    + destruct Hpc as ((? & ? & H) & ?). split; [|done]. split_and!; [done..|]. intros m Hm. apply H. lia.
    + destruct Hpc as ((? & ? & H) & ?). split; [|done]. split_and!; [done..|]. intros m Hm. apply H. lia.
    + destruct Hpc as (? & c & i' & ? & ? & H). split; [done|]. exists c, i'. split_and!; [done..|].
      intros m Hm. apply H. lia.
    + destruct Hpc as (? & ? & H). split_and!; [done..|]. intros m Hm. apply H. lia.
Qed.

(** ** The steps of the executor *)


Lemma view_reads w :
  world_good w -> pd_intent (view s0 d0 w) op_id = J (w_log w) (w_seen w) /\
    region_table (view s0 d0 w) = Ok (T (w_log w) (w_seen w)).
Proof using Hro Hop ple pln plt.
  intros Hg. pose proof (state_reads s0 d0 st0 last0 Hro (w_log w) (w_seen w) (lg_fine _ (wg_log _ Hg))) as Hrep.
  split; [by apply pd_intent_rep|apply (pr_table _ _ Hrep)].
Qed.

Lemma region0_reads w :
  world_good w -> pd_intent (region0 s0 d0 w) op_id = J (w_log w) (len w) /\
    region_table (region0 s0 d0 w) = Ok (T (w_log w) (len w)).
Proof using Hro Hop ple pln plt.
  intros Hg. pose proof (state_reads s0 d0 st0 last0 Hro (w_log w) (len w) (lg_fine _ (wg_log _ Hg))) as Hrep.
  rewrite firstn_all in Hrep. split; [by apply pd_intent_rep|apply (pr_table _ _ Hrep)].
Qed.

Lemma read_fresh w : read_fault w = None -> w_seen w = len w.
Proof using. unfold read_fault. by destruct (decide _). Qed.

Lemma good_no_cut w w' :
  world_good w -> w_log w' = w_log w -> w_seen w' = w_seen w -> paired (w_target w') ->
  (forall i, ~ cut (w_log w) i) -> world_good w'.
Proof using.
  intros [Hg Hs _ _] El Es Hp Hn. split; rewrite ?El, ?Es; [done..|]. intros i Hi. by destruct (Hn i).
Qed.

Lemma clear_fence_rows a d k : key_rows (clear_direct_write_fence op_id a d).2 k = key_rows d k.
Proof using.
  unfold clear_direct_write_fence, backend_write. destruct (applied_contains d a); [done|].
  destruct (direct_write_fence_in_tx d) as [f|]; [|done]. cbn [mbind result_bind snd].
  rewrite key_rows_last_applied. destruct (from_option _ _ _); [|done].
  unfold key_rows. by rewrite !tx_get_remove_ne.
Qed.

Lemma child_of_planned l n i :
  log_fine st0 last0 l -> (n <= length l)%nat -> planned l n i ->
  exists child, split_target (in_plan i) = Some child /\
    split_fence (in_plan i) = Some (rid, start_key child, end_key child) /\
    start_key child = split_key /\ in_range (start_key child) (end_key child) (start_key child) = true /\
    new_id <> rid.
Proof using Hro.
  intros Hf Hn (m & Hm & _ & Hp).
  destruct (tables_ordered d0 st0 last0 Hro l m n Hf) as (Hok & _); [lia|].
  destruct (plan_split_child _ _ _ _ _ Hok Hp) as [child [H1 H2 H3 H4 H5 _]]. exists child. by rewrite H3.
Qed.

Lemma resume_good w t i :
  world_good w -> region_table (view s0 d0 w) = Ok t -> pd_intent (view s0 d0 w) op_id = Some i ->
  read_fault w = None -> pc_good w (Driving i).
Proof using Hro Hop ple pln plt.
  intros Hg _ Hi Hf%read_fresh. destruct (view_reads w Hg) as [Hj _]. rewrite Hj, Hf in Hi. cbn [pc_good].
  assert (forall n, window w n -> n = len w) as Hn by (intros n; lia).
  destruct (decide (in_phase i = Prepared)) as [Hp|Hp]; [left|right].
  - split; [done|]. split; [by apply (lg_planned _ (wg_log _ Hg))|]. intros n ->%Hn. by right.
  - split; [done|]. intros n ->%Hn. split; [by right|done].
Qed.

Lemma plan_good w t plan :
  world_good w -> region_table (view s0 d0 w) = Ok t -> table_small t ->
  pd_intent (view s0 d0 w) op_id = None -> plan_split t rid split_key new_id = Ok plan ->
  read_fault w = None -> pc_good w (Planned (new_intent node op_id plan)).
Proof using Hro Hop ple pln plt.
  intros Hg Ht Hs Hn Hp Hf%read_fresh. destruct (view_reads w Hg) as [Hj Hv].
  rewrite Ht in Hv. injection Hv as ->. rewrite Hj in Hn. rewrite Hf in *. split_and!; [done|done|by exists (len w)|].
  intros n Hwin. assert (n = len w) as -> by lia. done.
Qed.

Lemma record_good w e i :
  world_good w -> pc_good w (Planned i) -> r0_command e = R0Pd (RecordIntent i) ->
  log_fine st0 last0 (w_log w ++ [e]) -> world_good (commit w e) /\ pc_good (commit w e) (Driving i).
Proof using.
  intros [Hg Hs Hp Hcut] (H1 & H2 & H3 & H4) He Hfine.
  destruct (record_prepared (w_log w) e i (w_seen w)) as [Hg' Hpr]; [done..|].
  split; [|by left]. split; cbn [w_log w_seen w_target commit]; [done|rewrite length_app; lia|done|].
  intros i' Hi'. exfalso. eapply prepared_not_cut; [|exact Hpr|exact Hi']. rewrite length_app. lia.
Qed.

(** The commands sent again. *)
Lemma record_again_good w e i :
  world_good w -> prepared_in (w_log w) (w_seen w) i -> r0_command e = R0Pd (RecordIntent i) ->
  log_fine st0 last0 (w_log w ++ [e]) -> world_good (commit w e) /\ pc_good (commit w e) (Driving i).
Proof using Hro.
  intros Hg Hpr He Hfine. pose proof (wg_seen _ Hg) as Hs. destruct Hpr as (Hp & Hpl & H).
  assert (inert (w_log w) e \/ J (w_log w ++ [e]) (length (w_log w ++ [e])) = Some i) as [Hin|Hi].
  { destruct (decide (in_op_id i = op_id)) as [Hid|Hne].
    2: { left. apply foreign_inert. unfold foreign. by rewrite He. }
    destruct (H (len w)) as [Hn|Hi]; [lia|right|left; left].
    - rewrite J_last, <-Hid. apply journal_record; [done|]. by rewrite Hid.
    - rewrite J_last. rewrite Hi. apply journal_step; [done|by rewrite He|by rewrite He]. }
  - apply good_inert; [done..|]. by left.
  - assert (log_good (w_log w ++ [e])) as Hg'.
    { apply log_good_app; [apply Hg|done|]. intros i'. rewrite Hi. intros [= <-]. split; [done|]. congruence. }
    assert (prepared_in (w_log w ++ [e]) (w_seen w) i) as Hpr'.
    { split; [done|]. split; [by apply planned_snoc|]. intros n Hn.
      apply (window_app (w_log w) e (w_seen w) n); [done|intros ?|intros ->; by right]. rewrite J_app by lia. by apply H. }
    split; [|by left]. split; cbn [w_log w_seen w_target commit]; [done|rewrite length_app; lia|apply Hg|].
    intros i' Hi'. exfalso. eapply prepared_not_cut; [|exact Hpr'|exact Hi']. rewrite length_app. lia.
Qed.

Lemma cutover_again_good w e i :
  world_good w -> pc_good w (Waiting i) -> r0_command e = R0Pd (Cutover op_id) ->
  log_fine st0 last0 (w_log w ++ [e]) -> world_good (commit w e) /\ pc_good (commit w e) (Waiting i).
Proof using Hro.
  intros Hg Hpc He Hfine. apply good_inert; [|done..]. unfold inert. rewrite J_last.
  destruct Hpc as (_ & c & i' & Hc & Hp & H). pose proof (wg_seen _ Hg). destruct (H (len w)) as [_ [[Hn|Hi] _]]; [lia|lia|..].
  - right. by apply journal_cut_none.
  - left. rewrite Hi. apply journal_step; [done|by rewrite He|done].
Qed.

Lemma arm_good w w' i :
  world_good w -> prepared_in (w_log w) (w_seen w) i -> armed op_id w w' (in_plan i) ->
  world_good w' /\ prepared_in (w_log w') (w_seen w') i /\ fence_on (w_source w') i.
Proof using Hro Hop Hkey.
  intros Hg Hpr (id & start & end_ & a & Hf & Ha & ->).
  destruct (child_of_planned (w_log w) (len w) i (lg_fine _ (wg_log _ Hg)) (le_n _) (proj1 (proj2 Hpr)))
    as (child & Ht & Hf' & Hst & _). rewrite Hf in Hf'. injection Hf' as -> -> ->.
  split; [|split; [done|]].
  - eapply good_no_cut; [exact Hg|done..|apply (wg_paired _ Hg)|]. intros i'. eapply prepared_not_cut; [apply Hg|done].
  - exists child. split; [done|]. cbn [w_source set_source]. apply fence_armed; [done|by rewrite Hst|done].
Qed.

Lemma page_good w i pages :
  world_good w -> pc_good w (Copying i pages) ->
  let w' := (if pages is [] then set_moved w ∅ else w) in
  world_good w' /\ pc_good w' (Copying i (pages ++ [w_source w])).
Proof using.
  intros Hg (Hpr & Hf & Hpages). destruct pages as [|src pages]; cbv zeta.
  - split; [|split; [done|split; [done|]]; by apply Forall_singleton].
    eapply good_no_cut; [exact Hg|done..|apply (wg_paired _ Hg)|].
    intros i'. eapply prepared_not_cut; [apply Hg|done].
  - split; [done|]. split; [done|]. split; [done|]. apply Forall_app. split; [done|]. by apply Forall_singleton.
Qed.

Lemma migrate_good w i pages assembled drained reset before polls views child r d' :
  world_good w -> pc_good w (Copying i pages) -> pv_source <$> views = pages ->
  split_target (in_plan i) = Some child -> Forall (apart (start_key child) (end_key child)) views ->
  Forall (fun v => forall d, paired d -> paired (pv_between v d)) views ->
  migrate_split s target page_size (in_plan i) assembled drained reset before polls views (w_target w) = (r, d') ->
  world_good (set_target w d') /\
  pc_good (set_target w d') (match r with inl _ => Copied i | inr _ => Failing i end).
Proof using Hmode Hbar fl.
  intros Hg (Hpr & Hf & Hpages) <- Hc Hap Hbt E. split.
  { eapply good_no_cut; [exact Hg|done..| |intros i'; eapply prepared_not_cut; [apply Hg|done]].
    pose proof (paired_migrate s target Hmode page_size (in_plan i) assembled drained reset before polls views
      (w_target w) Hbt (wg_paired _ Hg)) as Hp. by rewrite E in Hp. }
  destruct r as [rev|err]; [|done]. split; [done|]. split; [done|]. intros k (child' & Hc' & Hk) Hm.
  rewrite Hc in Hc'. injection Hc' as <-. unfold migrate_split in E. rewrite Hc in E.
  destruct (negb assembled); [done|]. destruct (negb drained); [done|].
  destruct (import_pages_copied s target page_size (start_key child) (end_key child) true Hmode Hbar None reset before
    polls views (w_target w) rev d' Hap I (fun k _ => wg_paired _ Hg k) E) as [_ Hcp].
  destruct (Hcp k Hk) as (v & Hv & _ & Hcv). rewrite Forall_fmap, Forall_forall in Hpages.
  eapply copied_source_rows; [|exact Hcv]. cbn [w_source set_target]. apply Hpages; [done| |done]. by exists child.
Qed.

Lemma cutover_good w e i :
  world_good w -> pc_good w (Copied i) -> r0_command e = R0Pd (Cutover op_id) ->
  log_fine st0 last0 (w_log w ++ [e]) -> world_good (commit w e) /\ pc_good (commit w e) (Waiting i).
Proof using Hro.
  intros [Hg Hs Hp Hcut] (Hpr & Hf & Hc) He Hfine.
  destruct (cutover_waiting (w_log w) e i (w_seen w)) as (Hg' & Hw & Hplan); [done..|]. split; [|done].
  split; cbn [w_log w_seen w_source w_target commit]; [done|rewrite length_app; lia|done|].
  intros i' [Hi' _]. apply Hplan in Hi' as Ep. split.
  - left. unfold fence_on. by rewrite Ep.
  - intros k Hk. apply Hc. unfold in_child in *. by rewrite <-Ep.
Qed.

Lemma seen_good w i i' :
  world_good w -> pc_good w (Waiting i) -> wait_poll op_id (view s0 d0 w) = Some i' -> pc_good w (Driving i').
Proof using Hro Hop ple pln plt.
  intros Hg (Hp & c & j & Hc & Hj & H) Hi. destruct (view_reads w Hg) as [E _]. unfold wait_poll in Hi. rewrite E in Hi. right.
  destruct (J (w_log w) (w_seen w)) as [i0|] eqn:Hi0; [|done]. destruct (decide (in_phase i0 = Prepared)) as [|Hp']; [done|].
  injection Hi as ->.
  pose proof (wg_seen _ Hg) as Hs. destruct (H (w_seen w)) as [H1 H2]; [lia|].
  assert (c < w_seen w)%nat as Hlt.
  { destruct (decide (w_seen w <= c)%nat) as [Hle|]; [|lia]. destruct (H1 Hle); congruence. }
  destruct (H2 Hlt) as [[Hn|Hj'] _]; [congruence|]. rewrite Hi0 in Hj'. injection Hj' as ->.
  split; [done|]. intros n Hn. apply H; [done|lia].
Qed.

Lemma released_frames w w' i : maybe_released op_id w w' -> frames w w' i.
Proof using.
  intros [->|[a ->]] k Hk Hm; [done|]. split; [done|]. split; [apply clear_fence_rows|done].
Qed.

(** The fence goes when the intent is not applied, or the node has seen it applied. *)
Lemma release_good w w' :
  world_good w -> maybe_released op_id w w' ->
  (forall i, cut (w_log w) i -> forall n, window w n -> J (w_log w) n = Some i) -> world_good w'.
Proof using.
  intros Hg Hr Hc. assert (w_log w' = w_log w /\ w_seen w' = w_seen w /\ w_target w' = w_target w) as (El & Es & Et).
  { by destruct Hr as [->|[a ->]]. }
  destruct Hg as [Hg Hs Hp Hcut]. split; rewrite ?El, ?Es, ?Et; [done..|]. intros i Hi. split.
  - right. by apply Hc.
  - eapply copies_frames; [by apply released_frames|]. by apply Hcut.
Qed.

Lemma settled_release w w' i :
  world_good w -> settled_in (w_log w) (w_seen w) i -> maybe_released op_id w w' -> world_good w'.
Proof using.
  intros Hg (Hp & H) Hr. eapply release_good; [done..|]. intros i' [Hi' _] n Hn.
  pose proof (wg_seen _ Hg). destruct (H (len w)) as [[E|E] _]; [lia|congruence|].
  rewrite E in Hi'. injection Hi' as <-. by apply H.
Qed.

Lemma prepared_release w w' i :
  world_good w -> prepared_in (w_log w) (w_seen w) i -> maybe_released op_id w w' -> world_good w'.
Proof using.
  intros Hg Hpr Hr. eapply release_good; [done..|]. intros i' Hi'. exfalso.
  eapply prepared_not_cut; [apply Hg|done|done].
Qed.

Lemma driving_release w w' i :
  world_good w -> pc_good w (Driving i) -> maybe_released op_id w w' -> world_good w'.
Proof using. intros Hg [?|?]; [by eapply prepared_release|by eapply settled_release]. Qed.

Lemma sweep_release w w' i :
  world_good w -> pd_intent (view s0 d0 w) op_id = Some i ->
  (if is_applied i then w' = w else released op_id w w') -> read_fault w = None -> world_good w'.
Proof using Hro Hop ple pln plt.
  intros Hg Hi Hr Hf%read_fresh. destruct (view_reads w Hg) as [E _]. rewrite E, Hf in Hi.
  destruct (is_applied i) eqn:Ea; [by subst w'|]. eapply release_good; [done|by right|].
  intros i' [Hi' Hp]. exfalso. rewrite Hi in Hi'. injection Hi' as <-. unfold is_applied in Ea. by rewrite Hp in Ea.
Qed.

Lemma commit_good w e c :
  can_commit st0 last0 w e c -> (forall i, c <> RecordIntent i) -> (forall k, c <> Cutover k) ->
  world_good w -> world_good (commit w e).
Proof using Hro.
  intros (He & Hl & Hu) H1 H2 Hg. apply (good_inert w e Idle); [|by split|done|done]. apply foreign_inert.
  unfold foreign. rewrite He. destruct c; try done; [by destruct (H1 intent)|by destruct (H2 op_id0)].
Qed.

(** Each kind of step. *)
Lemma one_raft_good w pc w' pc' :
  one_raft_step s0 d0 st0 last0 node op_id rid split_key new_id w pc None w' pc' ->
  world_good w -> pc_good w pc -> world_good w' /\ pc_good w' pc'.
Proof using Hro.
  intros Hst Hg Hpc. inversion Hst; subst; clear Hst; try done; (split; [|exact I]; by eapply commit_good).
Qed.

Lemma recover_good w pc w' pc' :
  recover_step s0 d0 st0 last0 node op_id rid split_key new_id w pc None w' pc' ->
  world_good w -> pc_good w pc -> world_good w' /\ pc_good w' pc'.
Proof using Hro Hop ple pln plt.
  intros Hst Hg Hpc. inversion Hst; subst; clear Hst; [done|..]; (split; [|exact I]).
  - eapply commit_good; [done|done|done|]. by eapply sweep_release.
  - by eapply sweep_release.
Qed.

Lemma split_merge_good w pc w' pc' :
  split_merge_step s0 s target page_size d0 st0 last0 node op_id rid split_key new_id w pc None w' pc' ->
  world_good w -> pc_good w pc -> world_good w' /\ pc_good w' pc'.
Proof using Hro Hop Hkey Hmode Hbar fl ple pln plt.
  intros Hst Hg Hpc. inversion Hst; subst; clear Hst;
    try (split; [|exact I]; by eapply commit_good); try done;
    try match goal with H : can_commit _ _ _ _ _ |- _ => destruct H as (? & ? & ?) end.
  - split; [done|]. by eapply resume_good.
  - split; [done|]. by eapply plan_good.
  - by apply record_good.
  - destruct Hpc as [Hpc|[? _]]; [|done]. by apply record_again_good.
  - split; [|exact I]. by eapply (record_good w e i).
  - destruct Hpc as [Hpc|[? _]]; [|done]. destruct (arm_good w w' i) as (? & ? & ?); [done..|].
    split; [done|]. split; [done|]. split; [done|]. by apply Forall_nil_2.
  - destruct Hpc as [Hpc|[? _]]; [|done]. destruct H0 as [->|Ha]; [done|].
    destruct (arm_good w w' i) as (? & ? & ?); [done..|]. done.
  - by apply page_good.
  - by eapply migrate_good.
  - by apply cutover_good.
  - by apply cutover_again_good.
  - destruct Hpc as (Hpr & Hf & Hc). split; [|done]. apply (good_frames w _ Idle); [done|done|apply Hg|done| |done|done].
    by intros i0 _ _ k Hk.
  - split; [done|]. by eapply seen_good.
  - split; [|exact I]. by eapply prepared_release.
  - split; [|exact I]. by eapply driving_release.
  - split; [|exact I]. eapply driving_release; [done..|]. by right.
  - split; [|exact I]. by eapply driving_release.
Qed.

Lemma exec_good w pc w' pc' :
  exec_step s0 s target page_size d0 st0 last0 node op_id rid split_key new_id w pc None w' pc' ->
  world_good w -> pc_good w pc -> world_good w' /\ pc_good w' pc'.
Proof using Hro Hop Hkey Hmode Hbar fl ple pln plt.
  intros Hst Hg Hpc. inversion Hst; subst; [by eapply one_raft_good|by eapply split_merge_good|by eapply recover_good|done].
Qed.

(** ** The steps of everything else *)

(** Behind the fence, or once the node has seen the cutover, no direct write
    reaches the range of the child. *)
Lemma write_frames w wr a i :
  world_good w -> routed_here s0 d0 rid w wr -> planned (w_log w) (len w) i ->
  fence_on (w_source w) i \/ cut (w_log w) i /\ J (w_log w) (w_seen w) = Some i ->
  forall k, in_child i k -> key_rows (apply_direct s (w_source w) wr a).2 k = key_rows (w_source w) k.
Proof using Hro Hop ple pln plt.
  intros Hg (t & Ht & Hr) Hpl Hor k (child & Hc & Hk).
  destruct (child_of_planned (w_log w) (len w) i (lg_fine _ (wg_log _ Hg)) (le_n _) Hpl)
    as (child' & Hc' & _ & _ & Hne & Hnew). rewrite Hc in Hc'. injection Hc' as <-.
  destruct Hor as [(child' & Hc' & Hf)|[[Hi Ha] Hseen]].
  { rewrite Hc in Hc'. injection Hc' as <-. by eapply fenced_write_rows; [exact Hf|..]. }
  apply (apply_direct_keys s (w_source w) wr a). intros Hw.
  destruct (view_reads w Hg) as [_ Hv]. rewrite Ht in Hv. injection Hv as ->.
  pose proof (wg_seen _ Hg) as Hs. pose proof (wg_log _ Hg) as Hl.
  destruct (tables_ordered d0 st0 last0 Hro (w_log w) (w_seen w) (len w) (lg_fine _ Hl)) as (_ & _ & _ & Hle & Heq & _); [lia|].
  destruct (lg_applied _ Hl _ _ _ Hs Hseen Ha) as [Hv Hroute].
  assert (region_id <$> route (T (w_log w) (w_seen w)) k = Some new_id) as E.
  { apply Hroute; [lia|]. by exists child. }
  rewrite Hr in E by done. congruence.
Qed.

Lemma env_good w pc w' :
  env_step s0 s d0 st0 last0 op_id rid new_id w None w' -> world_good w -> pc_good w pc ->
  world_good w' /\ pc_good w' pc.
Proof using Hro Hop ple pln plt.
  intros Hst Hg Hpc. inversion Hst as [? e Hf Hl Hu| |? n Hn|? wr Hr|? wr l1 l2 a fault Er Hfault|? ks d Hch Hfence|? ks d t _ _ Hch Hp];
    subst; clear Hst.
  - apply good_inert; [by apply foreign_inert|by split|done|done].
  - by apply good_observe.
  - eapply (good_frames w (set_routed w _)); [done|done|apply Hg|done| |done|done]. by intros i _ _ k Hk.
  - destruct Hfault as [|[_ Hr]]; [done|].
    apply (good_frames w); [done|done|apply Hg| | |done|done]; cbn [w_source set_source].
    + eapply only_keys_fence, apply_direct_keys.
    + intros i Hpl Hor k Hk Hm. split; [done|]. split; [|done]. by eapply write_frames.
  - apply (good_frames w); [done|done|apply Hg|done| |done|done]. intros i _ _ k Hk Hm.
    cbn [w_source w_moved w_target set_moved set_source] in *. apply not_elem_of_union in Hm as [? ?].
    split; [done|]. split; [by apply Hch|done].
  - apply (good_frames w); [done|done|done|done| |done|done]. intros i _ _ k Hk Hm.
    cbn [w_source w_moved w_target set_moved set_target] in *. apply not_elem_of_union in Hm as [? ?].
    split; [done|]. split; [done|by apply Hch].
Qed.

(** ** Runs *)

Abbreviation run := (sys_run s0 s target page_size d0 st0 last0 node op_id rid split_key new_id).

Lemma run_good x faults y :
  run x faults y -> faults = [] -> world_good x.1 -> pc_good x.1 x.2 -> world_good y.1 /\ pc_good y.1 y.2.
Proof using Hro Hop Hkey Hmode Hbar fl ple pln plt.
  induction 1 as [x|x [f|] y faults z Hst _ IH]; intros Hf Hg Hpc; [done|done|].
  assert (world_good y.1 /\ pc_good y.1 y.2) as [? ?]; [|by apply IH].
  destruct Hst as [Hst|[Hst ->]]; [by eapply exec_good|by eapply env_good].
Qed.

(** Nothing has happened yet: no entry after [st0], the executor idle. *)
Definition initial (w : World) : Prop :=
  w_log w = [] /\ w_seen w = 0%nat /\ w_flight w = [] /\ w_routed w = [] /\ paired (w_target w).

Lemma initial_good w :
  pd_journal st0 !! op_id = None -> rt_version (pd_table st0) <= u64_max -> initial w -> world_good w.
Proof using.
  intros Hn Hu (El & Es & _ & _ & Hp).
  assert (forall n, J [] n = None) as HJ by (intros n; unfold state_at; by rewrite take_nil).
  split; rewrite ?El, ?Es; [|cbn; lia|done|].
  - split; [split; [done|cbn; lia]|..]; intros n i; rewrite HJ; done.
  - intros i [Hi _]. by rewrite HJ in Hi.
Qed.

(** C6: a split loses no write.  Take any run, from a Region 0 that knows nothing
    of the operator, in which the executor claims, plans, fences, copies, cuts
    over, fails, restarts and tries again, between direct writes, decisions,
    other commands for Region 0 and delays of this node, but in which no fault
    occurs.  Whenever the split is cut over and the table has not changed since,
    every key of the child is routed to the child, and unless a decision or the
    child has changed it since the copy, the child has it exactly as the parent
    does. *)
Theorem split_loses_no_write w0 w pc i :
  pd_journal st0 !! op_id = None -> rt_version (pd_table st0) <= u64_max -> initial w0 ->
  run (w0, Idle) [] (w, pc) -> cut_over s0 d0 op_id w i ->
  exists t, region_table (region0 s0 d0 w) = Ok t /\
  forall k, in_child i k -> region_id <$> route t k = Some new_id /\
    (k ∉ w_moved w -> copied s target (w_source w) (w_target w) k).
Proof using Hro Hop Hkey Hmode Hbar fl ple pln plt.
  intros Hn Hu Hi Hrun (t & Hj & Ht & Ha).
  destruct (run_good _ _ _ Hrun eq_refl (initial_good w0 Hn Hu Hi) I) as [Hg _]. cbn [fst] in Hg.
  exists t. split; [done|]. destruct (region0_reads w Hg) as [Ej Et].
  rewrite Ej in Hj. rewrite Ht in Et. injection Et as ->. intros k Hk. split.
  - by eapply (lg_applied _ (wg_log _ Hg)).
  - intros Hm. destruct (wg_cut _ Hg i) as [_ Hc]; [by split|]. by apply Hc.
Qed.

End safety.
