(* ===== verification/ExecutorAnomalies.v ===== *)
(** * What the faults of a split do

    Each of the faults that [split_loses_no_write] excludes loses writes: the
    cutover that is committed after its call failed, the write that was routed
    before the cutover and is applied after it, and the restart on a node that
    has not seen its own cutover. *)

From S2P Require Export ExecutorSafety MigrationSplit.

Local Open Scope Z_scope.

(** ** An accepted put *)

Record fresh_put (s : MvccStorage) (d : db) (k v : bytes) (lease : option Z) (ts : Z) : Prop := {
  fp_rep : exists h, mvcc_rep s d h;
  fp_ts : 0 < ts /\ in_u64 ts /\ current_revision s d < ts;
  fp_lease : in_i64 (default 0 lease);
  fp_event : event_wf (put_event k v ts);
  fp_encrypt : exists x, encrypt_value s (encode_kv_key k) v = Ok x }.

Lemma put_fresh s d k v lease ts a :
  rep_barrier s -> revision_mode s = ModeCommitTs -> fresh_put s d k v lease ts ->
  exists d', put_at_commit_ts s d k v lease ts a = (Ok applied_outcome, d') /\ get s d' k = Ok (Some v).
Proof.
  intros Hb Hm [[h Hrep] (H0 & Hts & Hlt) Hl Hw [x Hx]]. unfold put_at_commit_ts.
  destruct (Z.eqb_spec ts 0); [lia|]. unfold put_at_key.
  destruct (replay_guard_rep s d h ts PolicyCommitTs (put_same k v) replayed_outcome
    (put_in_tx s k v (default 0 lease) ts a PolicyCommitTs) Hrep Hts) as [[_ (e & He & Hr & _)]|[[_ ?]| ->]].
  - pose proof (rep_le _ _ _ Hrep) as Hle. rewrite Forall_forall in Hle. apply Hle in He. lia.
  - lia.
  - unfold backend_write. destruct (put_in_tx s k v (default 0 lease) ts a PolicyCommitTs d) as [[out d']|e] eqn:E.
    + destruct (put_in_tx_rep s d h ts PolicyCommitTs Hrep Hts Hb ltac:(unfold revision_checked; by rewrite Hm)
        k v _ a out d' Hl Hw E) as (-> & _ & Hrep' & _).
      exists d'. split; [done|]. rewrite (get_latest _ _ _ _ Hrep'), latest_snoc. cbn. unfold bytes_eqb.
      unfold apply_change. cbn. unfold bytes_eqb. by rewrite bool_decide_eq_true_2.
    + exfalso. unfold put_in_tx in E. destruct (accept_revision s d ts PolicyCommitTs) as [d1|e1] eqn:Ea.
      * cbn [mbind result_bind] in E. unfold write_key in E. by rewrite Hx in E.
      * apply accept_revision_Err in Ea as [_ ?]. lia.
Qed.

(** With no fence a put is applied and answered. *)
Lemma apply_fresh_put s d k v lease ts a :
  rep_barrier s -> revision_mode s = ModeCommitTs -> fresh_put s d k v lease ts ->
  direct_write_fence d = Ok None ->
  get s (apply_direct s d (PutV2 k v lease ts) a).2 k = Ok (Some v).
Proof.
  intros Hb Hm Hf Hd. unfold apply_direct. cbn [write_fence_hit]. unfold direct_write_fence_hit. rewrite Hd.
  cbn [mbind result_bind run_direct].
  destruct (put_fresh s d k v lease ts a Hb Hm Hf) as (d' & -> & Hg). done.
Qed.

(** Releasing the fence keeps what a put needs. *)
Lemma fresh_put_released s d op_id a k v lease ts :
  revision_mode s = ModeCommitTs -> fresh_put s d k v lease ts ->
  fresh_put s (clear_direct_write_fence op_id a d).2 k v lease ts.
Proof.
  intros Hm [[h Hrep] Hts Hl Hw Hx].
  assert (same_table TABLE_KV_META (clear_direct_write_fence op_id a d).2 d /\
    same_table TABLE_CHANGELOG (clear_direct_write_fence op_id a d).2 d /\
    compacted_revision (clear_direct_write_fence op_id a d).2 = compacted_revision d /\
    current_revision s (clear_direct_write_fence op_id a d).2 = current_revision s d) as (H1 & H2 & H3 & H4).
  { unfold clear_direct_write_fence, backend_write. destruct (applied_contains d a); [done|].
    destruct (direct_write_fence_in_tx d) as [f|]; [|done]. cbn [mbind result_bind snd].
    match goal with |- context [insert_last_applied a ?x] => set (d1 := x) end.
    assert (forall t, t <> TABLE_KV -> same_table t d1 d) as Hs by (intros t Ht; unfold d1; frame).
    split_and!; [unfold insert_last_applied; frame; by apply Hs..|
      rewrite compacted_revision_last_applied; by apply compacted_revision_proper, Hs|].
    unfold current_revision, current_revision_in_tx, insert_last_applied.
    rewrite tx_get_insert_ne by done. rewrite (Hs TABLE_META) by done.
    destruct (_ ≫= decode_u64); [done|]. by rewrite Hm. }
  split; [|by rewrite H4|done|done|done]. exists h. apply (mvcc_rep_frame s d); try done; [|lia].
  intros key. pose proof (clear_fence_rows op_id a d key) as E. by injection E.
Qed.

Lemma fence_released d op_id a f :
  direct_write_fence d = Ok (Some f) -> fence_op_id f = op_id -> applied_contains d a = false ->
  direct_write_fence (clear_direct_write_fence op_id a d).2 = Ok None.
Proof.
  intros Hf <- Ha. unfold clear_direct_write_fence, backend_write. rewrite Ha.
  change (direct_write_fence_in_tx d) with (direct_write_fence d). rewrite Hf. cbn [mbind result_bind from_option snd].
  rewrite Z.eqb_refl, orb_true_r. unfold direct_write_fence, direct_write_fence_in_tx, insert_last_applied.
  rewrite tx_get_insert_ne by done. by rewrite tx_get_remove.
Qed.

Section anomalies.
Context {fc : FloorCodec} {fl : FloorCodecLaws fc} {psd : Postcard SequencerDecision}.
Context {pe : Postcard PdQueueEntry} {pn : Postcard PdIntent} {pt : Postcard RegionTable}.
Context {ple : PostcardLaws PdQueueEntry} {pln : PostcardLaws PdIntent} {plt : PostcardLaws RegionTable}.
Context (s0 s target : MvccStorage) (page_size : nat) (d0 : db) (st0 : PdState) (last0 : Z).
Context (node op_id rid : Z) (split_key : bytes) (new_id : Z).
Context (Hro : r0_ok last0 d0 st0) (Hop : in_u64 op_id) (Hkey : in_u32 (Z.of_nat (length split_key))).
Context (Hmode : revision_mode target = ModeCommitTs) (Hbar : rep_barrier target).
Context (Hsmode : revision_mode s = ModeCommitTs) (Hsbar : rep_barrier s).
Context (Hnone : pd_journal st0 !! op_id = None) (Hver : rt_version (pd_table st0) <= u64_max).

Abbreviation J l n := (pd_journal (state_at st0 l n) !! op_id).
Abbreviation T l n := (pd_table (state_at st0 l n)).
Abbreviation run := (sys_run s0 s target page_size d0 st0 last0 node op_id rid split_key new_id).
Abbreviation good := (world_good s target st0 last0 op_id rid split_key new_id).
Abbreviation pc_ok := (pc_good s target st0 op_id rid split_key new_id).

(** ** Runs *)

Lemma run_exec w pc w' pc' faults z :
  exec_step s0 s target page_size d0 st0 last0 node op_id rid split_key new_id w pc None w' pc' ->
  run (w', pc') faults z -> run (w, pc) faults z.
Proof using. intros Hst Hr. eapply run_step with (fault := None) (y := (w', pc')); [by left|exact Hr]. Qed.

Lemma run_env w pc w' fault faults z :
  env_step s0 s d0 st0 last0 op_id rid new_id w fault w' -> run (w', pc) faults z ->
  run (w, pc) (if fault is Some f then f :: faults else faults) z.
Proof using. intros Hst Hr. eapply run_step with (y := (w', pc)); [by right|exact Hr]. Qed.

Lemma run_trans x faults y faults' z : run x faults y -> run y faults' z -> run x (faults ++ faults') z.
Proof using.
  induction 1 as [|x [f|] y faults z' Hst _ IH]; intros Hr; [done|..].
  - eapply run_step with (fault := Some f); [exact Hst|]. by apply IH.
  - eapply run_step with (fault := None); [exact Hst|]. by apply IH.
Qed.

Lemma cut_over_of_cut w i : log_fine st0 last0 (w_log w) -> cut st0 op_id (w_log w) i -> cut_over s0 d0 op_id w i.
Proof using Hro Hop ple pln plt.
  intros Hf [Hi Ha]. pose proof (state_reads s0 d0 st0 last0 Hro (w_log w) (length (w_log w)) Hf) as Hrep.
  rewrite firstn_all in Hrep. exists (T (w_log w) (length (w_log w))).
  split; [rewrite <-Hi; by apply pd_intent_rep|]. split; [apply (pr_table _ _ Hrep)|done].
Qed.

(** The cutover of an intent whose table has not moved takes effect. *)
Lemma cutover_effective l e i :
  log_good st0 last0 op_id rid split_key new_id l -> r0_command e = R0Pd (Cutover op_id) ->
  J l (length l) = Some i -> in_phase i = Prepared ->
  rt_version (T l (length l)) = expected_table_version (in_plan i) ->
  exists v, cut st0 op_id (l ++ [e]) (set_phase i (Applied v)).
Proof using Hro.
  intros Hg He Hi Hp Hv. destruct (lg_planned _ _ _ _ _ _ _ Hg _ _ (le_n _) Hi) as (m & Hm & Hsmall & Hplan).
  destruct (tables_ordered d0 st0 last0 Hro l m (length l) (lg_fine _ _ _ _ _ _ _ Hg)) as (Hok & _ & _ & _ & Heq & _); [lia|].
  destruct (plan_applies (T l m) (in_plan i) Hok Hsmall) as [Hexp _]; [left; by eexists _, _, _|].
  destruct (spec_cutover_step (state_at st0 l (length l)) (state_at st0 l m) e op_id i Hok Hsmall)
    as (phase & _ & Hj & Ht); [left; by eexists _, _, _|by intros E; rewrite Heq|done..|].
  destruct Ht as [(_ & _ & ->)|(_ & Hne & _)]; [|congruence].
  eexists. split; [rewrite J_last; exact Hj|]. cbn [in_phase set_phase]. by rewrite state_at_last.
Qed.

(** The parent has the range of the child as long as the table has not moved. *)
Lemma parent_routed w i k v lease ts :
  good w -> J (w_log w) (length (w_log w)) = Some i -> w_seen w = length (w_log w) ->
  rt_version (T (w_log w) (length (w_log w))) = expected_table_version (in_plan i) ->
  in_child i k -> routed_here s0 d0 rid w (PutV2 k v lease ts).
Proof using Hro ple pln plt.
  intros Hg Hi Hs Hv (child & Hc & Hk). pose proof (wg_log _ _ _ _ _ _ _ _ _ Hg) as Hl.
  destruct (lg_planned _ _ _ _ _ _ _ Hl _ _ (le_n _) Hi) as (m & Hm & Hsmall & Hplan).
  destruct (tables_ordered d0 st0 last0 Hro (w_log w) m (length (w_log w)) (lg_fine _ _ _ _ _ _ _ Hl))
    as (Hok & _ & _ & _ & Heq & _); [lia|].
  destruct (plan_applies (T (w_log w) m) (in_plan i) Hok Hsmall) as [Hexp _]; [left; by eexists _, _, _|].
  destruct (plan_split_child _ _ _ _ _ Hok Hplan) as [child' Hsc].
  rewrite (sc_target _ _ _ _ _ _ Hsc) in Hc. injection Hc as <-. rewrite (sc_start _ _ _ _ _ _ Hsc) in Hk.
  pose proof (state_reads s0 d0 st0 last0 Hro (w_log w) (w_seen w) (lg_fine _ _ _ _ _ _ _ Hl)) as Hrep.
  eexists. split; [apply (pr_table _ _ Hrep)|]. intros ? ->. rewrite Hs, <-Heq by congruence.
  by apply (sc_parent _ _ _ _ _ _ Hsc).
Qed.

(** ** The copy is done, and the cutover is about to be proposed *)

Record copied_up (w : World) (i : PdIntent) (t : RegionTable) : Prop := {
  cu_run : exists w0, initial w0 /\ run (w0, Idle) [] (w, Copied i);
  cu_intent : pd_intent (region0 s0 d0 w) op_id = Some i;
  cu_table : region_table (region0 s0 d0 w) = Ok t;
  cu_version : rt_version t = expected_table_version (in_plan i);
  cu_seen : w_seen w = length (w_log w) }.

Record copied_facts (w : World) (i : PdIntent) : Prop := {
  cf_good : good w;
  cf_pc : pc_ok w (Copied i);
  cf_intent : J (w_log w) (length (w_log w)) = Some i;
  cf_prepared : in_phase i = Prepared;
  cf_version : rt_version (T (w_log w) (length (w_log w))) = expected_table_version (in_plan i) }.

Lemma copied_up_facts w i t : copied_up w i t -> copied_facts w i.
Proof using Hro Hop Hkey Hmode Hbar Hnone Hver fl ple pln plt.
  intros [(w0 & Hi & Hrun) Hj Ht Hv _].
  destruct (run_good s0 s target page_size d0 st0 last0 node op_id rid split_key new_id Hro Hop Hkey Hmode Hbar _ _ _ Hrun eq_refl
    (initial_good s target st0 last0 op_id rid split_key new_id w0 Hnone Hver Hi) I) as [Hg Hpc]. cbn [fst snd] in *.
  destruct (region0_reads s0 s target d0 st0 last0 op_id rid split_key new_id Hro Hop w Hg) as [Ej Et].
  rewrite Ej in Hj. rewrite Ht in Et. injection Et as ->. split; [done|done|done| |done]. apply Hpc.
Qed.

(** A late cutover loses writes.  Once the copy is done, let the call that
    proposes the cutover end in an error while its command is still on the way.
    The executor then releases the fence and gives up; the parent accepts and
    answers a put into the range of the child; and when the cutover is committed
    after all, the table sends the key to the child, which does not have the
    put. *)
Theorem late_cutover_loses_write w i t e k v lease ts a :
  copied_up w i t -> can_commit st0 last0 w e (Cutover op_id) -> in_child i k ->
  fresh_put s (w_source w) k v lease ts -> applied_contains (w_source w) a = false ->
  exists w' i', run (w, Copied i) [LateCommand] (w', Stopped false) /\ cut_over s0 d0 op_id w' i' /\
    in_plan i' = in_plan i /\ get s (w_source w') k = Ok (Some v) /\
    w_target w' = w_target w /\ w_moved w' = w_moved w.
Proof using Hro Hop Hkey Hmode Hbar Hsmode Hsbar Hnone Hver fl ple pln plt.
  intros Hup He Hk Hput Ha. destruct (copied_up_facts w i t Hup) as [Hg (_ & (child & _ & Hfence) & _) Hj Hp Hv].
  destruct He as (Hc & Hl & Hu). pose proof (wg_log _ _ _ _ _ _ _ _ _ Hg) as Hlg.
  destruct (cutover_effective (w_log w) e i Hlg Hc Hj Hp Hv) as [ver Hcut].
  set (wr := PutV2 k v lease ts). set (d1 := (clear_direct_write_fence op_id a (w_source w)).2).
  set (w1 := set_source (set_flight w (Cutover op_id :: w_flight w)) d1).
  set (w2 := set_routed w1 (wr :: w_routed w1)).
  set (w3 := set_source (set_routed w2 ([] ++ w_routed w1)) (apply_direct s (w_source w2) wr a).2).
  set (w4 := set_flight (commit w3 e) ([] ++ w_flight w)).
  assert (routed_here s0 d0 rid w1 wr) as Hr.
  { change (view s0 d0 w1) with (view s0 d0 w). by apply (parent_routed w i k v lease ts Hg Hj (cu_seen _ _ _ Hup) Hv). }
  exists w4, (set_phase i (Applied ver)). split; [|split; [apply cut_over_of_cut; [by split|exact Hcut]|]].
  - eapply run_exec; [apply x_drive; apply x_cutover_err|]. eapply run_exec; [apply x_drive; apply (x_give_up _ _ _ _ _ _ _ _ _ _ _ _ _ w1); right; by exists a|].
    eapply (run_env _ _ w2 None); [by apply v_route|].
    eapply (run_env _ _ w3 None); [apply v_write; [done|by right]|].
    eapply (run_env _ _ w4 (Some LateCommand)); [by apply (v_late _ _ _ _ _ _ _ _ w3 e (Cutover op_id) [] (w_flight w))|]. apply run_here.
  - split; [done|]. split; [|done]. apply apply_fresh_put; [done|done|by apply fresh_put_released|].
    by eapply fence_released; [exact Hfence|..].
Qed.

(** A routed write is lost.  Let a put into the range of the child have
    passed the routing of the parent when the cutover is proposed.  The cutover
    takes effect, the node sees it and releases the fence; the put is then
    applied to the parent and answered, while the table sends its key to the
    child. *)
Theorem routed_write_lost w i t e l1 l2 k v lease ts a :
  copied_up w i t -> can_commit st0 last0 w e (Cutover op_id) -> in_child i k ->
  w_routed w = l1 ++ PutV2 k v lease ts :: l2 ->
  fresh_put s (w_source w) k v lease ts -> applied_contains (w_source w) a = false ->
  exists w' i', run (w, Copied i) [StaleRoute] (w', Clearing true) /\ cut_over s0 d0 op_id w' i' /\
    in_plan i' = in_plan i /\ get s (w_source w') k = Ok (Some v) /\
    w_target w' = w_target w /\ w_moved w' = w_moved w.
Proof using Hro Hop Hkey Hmode Hbar Hsmode Hsbar Hnone Hver fl ple pln plt.
  intros Hup He Hk Hrt Hput Ha. destruct (copied_up_facts w i t Hup) as [Hg (_ & (child & _ & Hfence) & _) Hj Hp Hv].
  pose proof He as (Hc & Hl & Hu). pose proof (wg_log _ _ _ _ _ _ _ _ _ Hg) as Hlg.
  destruct (cutover_effective (w_log w) e i Hlg Hc Hj Hp Hv) as [ver Hcut].
  set (i' := set_phase i (Applied ver)). set (d1 := (clear_direct_write_fence op_id a (w_source w)).2).
  set (w2 := set_seen (commit w e) (length (w_log w ++ [e]))). set (w3 := set_source w2 d1).
  set (w4 := set_source (set_routed w3 (l1 ++ l2)) (apply_direct s (w_source w3) (PutV2 k v lease ts) a).2).
  assert (wait_poll op_id (view s0 d0 w2) = Some i') as Hview.
  { unfold wait_poll. assert (pd_intent (view s0 d0 w2) op_id = Some i') as ->; [|done]. pose proof (state_reads s0 d0 st0 last0 Hro (w_log w ++ [e]) (length (w_log w ++ [e])) (conj Hl Hu)) as Hrep.
    transitivity (J (w_log w ++ [e]) (length (w_log w ++ [e]))); [by apply pd_intent_rep|exact (proj1 Hcut)]. }
  exists w4, i'. split; [|split; [apply cut_over_of_cut; [by split|exact Hcut]|]].
  - eapply run_exec; [apply x_drive; by apply x_cutover|].
    eapply (run_env _ _ w2 None).
    { apply v_observe. cbn [w_seen w_log commit]. rewrite (cu_seen _ _ _ Hup), length_app. lia. }
    eapply run_exec; [apply x_drive; by apply (x_seen _ _ _ _ _ _ _ _ _ _ _ _ w2 i i')|].
    eapply run_exec; [apply x_drive; apply (x_applied _ _ _ _ _ _ _ _ _ _ _ _ w2 w3 i' ver); [done|right; by exists a]|].
    eapply (run_env _ _ w4 (Some StaleRoute)); [apply v_write; [exact Hrt|by left]|]. apply run_here.
  - split; [done|]. split; [|done]. apply apply_fresh_put; [done|done|by apply fresh_put_released|].
    by eapply fence_released; [exact Hfence|..].
Qed.

(** ** A restart *)

Lemma fence_rows start end_ a d k : key_rows (fence_direct_writes start end_ op_id a d).2 k = key_rows d k.
Proof using.
  unfold fence_direct_writes, backend_write. destruct (applied_contains d a).
  - by destruct (direct_write_fence_in_tx d).
  - cbn [snd]. rewrite key_rows_last_applied. unfold key_rows. by rewrite !tx_get_insert_ne.
Qed.

Lemma run_pages n : forall w i pages, pages <> [] ->
  run (w, Copying i pages) [] (w, Copying i (pages ++ replicate n (w_source w))).
Proof using.
  induction n as [|n IH]; intros w i pages Hne; [rewrite app_nil_r; apply run_here|].
  eapply run_exec; [apply x_drive; apply x_page|].
  assert (pages ++ replicate (S n) (w_source w) = (pages ++ [w_source w]) ++ replicate n (w_source w)) as ->
    by (by rewrite <-app_assoc).
  destruct pages as [|src pages]; [done|]. by apply IH.
Qed.

(** From a stale view to a second copy. *)
Lemma run_restart w pc i t id child assembled drained reset before polls v views r d' a :
  claimed_here node op_id rid split_key new_id (view s0 d0 w) ->
  region_table (view s0 d0 w) = Ok t -> rt_version t <> 0 -> pd_intent (view s0 d0 w) op_id = Some i ->
  read_fault w = Some StaleView -> in_phase i = Prepared -> split_target (in_plan i) = Some child ->
  split_fence (in_plan i) = Some (id, start_key child, end_key child) -> applied_contains (w_source w) a = false ->
  let d1 := (fence_direct_writes (start_key child) (end_key child) op_id a (w_source w)).2 in
  Forall (fun v => pv_source v = d1) (v :: views) ->
  Forall (apart (start_key child) (end_key child)) (v :: views) ->
  Forall (fun v => forall d, paired d -> paired (pv_between v d)) (v :: views) ->
  migrate_split s target page_size (in_plan i) assembled drained reset before polls (v :: views) (w_target w)
    = (inl r, d') ->
  run (w, pc) [StaleView] (set_target (set_moved (set_source w d1) ∅) d', Copied i).
Proof using.
  intros Hcl Ht Hv Hi Hf Hp Hch Hfence Ha d1 Hsrc Hap Hbt E. set (w1 := set_moved (set_source w d1) ∅).
  eapply run_exec; [apply x_restart|]. eapply run_exec; [apply x_recover; by eapply x_again|].
  eapply run_step with (fault := Some StaleView) (y := (w, Driving i)).
  { left. rewrite <-Hf. apply x_drive. by eapply x_resume. }
  eapply run_exec; [apply x_drive; apply x_arm with (w' := set_source w d1); [done|by eexists _, _, _, a]|].
  eapply run_exec; [apply x_drive; apply x_page|]. eapply (run_trans _ [] (w1, Copying i (pv_source <$> v :: views)) []).
  - pose proof (run_pages (length views) w1 i [d1] ltac:(done)) as Hpages.
    assert (pv_source <$> v :: views = [d1] ++ replicate (length views) (w_source w1)) as ->; [|exact Hpages].
    rewrite fmap_cons. apply Forall_cons in Hsrc as [-> Hsrc]. cbn [app]. f_equal. clear -Hsrc.
    induction Hsrc as [|x l Hx _ IH]; [done|]. rewrite fmap_cons, Hx, IH. done.
  - eapply run_exec; [apply x_drive; eapply x_migrate; [reflexivity|exact Hch|exact Hap|exact Hbt|exact E]|apply run_here].
Qed.

(** A restart can overwrite the child.  Let the split be cut over and the
    child be serving, while this node has not yet seen the cutover and its own
    view still shows the operator as running here and the intent as prepared.
    If the executor starts again, it copies the range once more; when the copy
    succeeds, every key of the child is as the parent has it, whatever the child
    had written since the cutover, and the table still sends the keys there. *)
Theorem stale_restart_overwrites_child w0 w pc i i' child assembled drained reset before polls v views r d' a h :
  initial w0 -> run (w0, Idle) [] (w, pc) -> cut_over s0 d0 op_id w i' ->
  claimed_here node op_id rid split_key new_id (view s0 d0 w) ->
  pd_intent (view s0 d0 w) op_id = Some i -> in_phase i = Prepared ->
  split_target (in_plan i) = Some child -> mvcc_rep s (w_source w) h -> applied_contains (w_source w) a = false ->
  let d1 := (fence_direct_writes (start_key child) (end_key child) op_id a (w_source w)).2 in
  Forall (fun v => pv_source v = d1) (v :: views) ->
  Forall (apart (start_key child) (end_key child)) (v :: views) ->
  Forall (fun v => forall d, paired d -> paired (pv_between v d)) (v :: views) ->
  migrate_split s target page_size (in_plan i) assembled drained reset before polls (v :: views) (w_target w)
    = (inl r, d') ->
  exists w', run (w, pc) [StaleView] (w', Copied i) /\ cut_over s0 d0 op_id w' i' /\
    forall k, in_child i k -> get target (w_target w') k = get s (w_source w) k.
Proof using Hro Hop Hkey Hmode Hbar Hnone Hver fl ple pln plt.
  intros Hinit Hrun (t & Hcj & Hct & Hca) Hcl Hi Hp Hch Hrep Ha d1 Hsrc Hap Hbt E.
  destruct (run_good s0 s target page_size d0 st0 last0 node op_id rid split_key new_id Hro Hop Hkey Hmode Hbar _ _ _ Hrun eq_refl
    (initial_good s target st0 last0 op_id rid split_key new_id w0 Hnone Hver Hinit) I) as [Hg _]. cbn [fst] in Hg.
  destruct (view_reads s0 s target d0 st0 last0 op_id rid split_key new_id Hro Hop w Hg) as [Hj Ht].
  assert (read_fault w = Some StaleView) as Hf.
  { unfold read_fault. destruct (decide _) as [Es|]; [|done].
    destruct (region0_reads s0 s target d0 st0 last0 op_id rid split_key new_id Hro Hop w Hg) as [Hj' _]. congruence. }
  pose proof (wg_log _ _ _ _ _ _ _ _ _ Hg) as Hl. pose proof (wg_seen _ _ _ _ _ _ _ _ _ Hg) as Hs.
  assert (J (w_log w) (w_seen w) = Some i) as Hi' by congruence.
  destruct (child_of_planned d0 st0 last0 rid split_key new_id Hro (w_log w) _ i (lg_fine _ _ _ _ _ _ _ Hl) Hs
    (lg_planned _ _ _ _ _ _ _ Hl _ _ Hs Hi')) as (child' & Hc' & Hfence & _). rewrite Hch in Hc'. injection Hc' as <-.
  destruct (tables_ordered d0 st0 last0 Hro (w_log w) (w_seen w) (w_seen w) (lg_fine _ _ _ _ _ _ _ Hl)) as (Hok & _); [lia|].
  exists (set_target (set_moved (set_source w d1) ∅) d'). split; [|split; [by exists t|]].
  - by eapply run_restart; [exact Hcl|exact Ht|apply (to_init _ Hok)|..].
  - intros k (child' & Hc' & Hk). rewrite Hch in Hc'. injection Hc' as <-. cbn [w_target set_target].
    unfold migrate_split in E. rewrite Hch in E. destruct (negb assembled); [done|]. destruct (negb drained); [done|].
    destruct (import_pages_copied s target page_size (start_key child) (end_key child) true Hmode Hbar None reset before
      polls (v :: views) (w_target w) r d' Hap I (fun k _ => wg_paired _ _ _ _ _ _ _ _ _ Hg k) E) as [_ Hcp].
    destruct (Hcp k Hk) as (x & Hx & _ & Hcx). rewrite Forall_forall in Hsrc. rewrite (Hsrc x Hx) in Hcx.
    eapply copied_get; [exact Hrep|]. eapply copied_source_rows; [|exact Hcx]. symmetry. apply fence_rows.
Qed.

End anomalies.
