(* ===== verification/Snapshot.v ===== *)
(** * Snapshots of the state machine

    [coord-server/src/storage/snapshot.rs]: [export_snapshot_data] reads the
    whole store into a [SnapshotData], [import_snapshot_data] replaces a store by
    one, and [to_bytes]/[from_bytes] are the bytes that travel to a follower and
    lie on disk.  The facts of this file say row by row what a store holds after
    a snapshot was installed. *)

From S2P Require Export CommitLog.

Local Open Scope Z_scope.

(** ** Data *)

Record SnapshotRawEntry := { internal_key : bytes; raw_value : bytes }.
Record SnapshotKvPair := { pair_key : bytes; pair_value : bytes }.
Record SnapshotKvMeta := { meta_key : bytes; meta_fields : KvMetadata }.

Record SnapshotData := {
  snap_version : Z;
  last_included_index : Z;
  last_included_term : Z;
  next_revision : Z;
  applied_index : Z;
  applied_term : Z;
  applied_node_id : Z;
  kv_pairs : list SnapshotKvPair;
  kv_metadata : list SnapshotKvMeta;
  auth_entries : list SnapshotRawEntry;
  lease_entries : list SnapshotRawEntry;
  snap_compacted : Z;
  snap_current : Z;
  pd_entries : list SnapshotRawEntry;
  sys_entries : list SnapshotRawEntry;
  changelog_entries : list SnapshotRawEntry;
  commit_log_entries : list SnapshotRawEntry }.

Definition CURRENT_VERSION : Z := 7.

(** The prefixes written out in [export_snapshot_data]. *)
Definition AUTH_DOMAIN : bytes := b "/_sys/auth/".
Definition LEASE_DOMAIN : bytes := b "/_lease/".
Definition PD_DOMAIN : bytes := b "/_pd/".
Definition SYS_DOMAIN : bytes := b "/_sys/".

(** ** Bytes *)

Section bytes.
Context {pc : Postcard SnapshotData}.

Definition snapshot_to_bytes (data : SnapshotData) : result bytes :=
  ok_or (envelope_encode data) Internal.

Definition snapshot_from_bytes (x : bytes) : result SnapshotData :=
  match envelope_decode x with
  | inr _ => Err Internal
  | inl snapshot =>
    if snap_version snapshot =? CURRENT_VERSION then Ok snapshot else Err Internal
  end.

End bytes.

(** ** Export: one read transaction *)

Definition raw_entry (r : row) : SnapshotRawEntry :=
  {| internal_key := r.1; raw_value := r.2 |}.

Definition kv_pair_of_row (r : row) : option SnapshotKvPair :=
  user_key ← decode_kv_key r.1;
  Some {| pair_key := user_key; pair_value := r.2 |}.

Definition kv_meta_of_row (r : row) : option SnapshotKvMeta :=
  user_key ← strip_prefix KV_META_PREFIX r.1;
  m ← meta_from_bytes r.2;
  Some {| meta_key := user_key; meta_fields := m |}.

Definition export_snapshot_data (s : MvccStorage) (d : db) (last_index last_term : Z)
    : SnapshotData :=
  let applied := get_applied_log_id d in
  let applied_index := default last_index (index <$> applied) in
  {| snap_version := CURRENT_VERSION;
     last_included_index := last_index;
     last_included_term := last_term;
     next_revision := u64_saturating_add applied_index 1;
     applied_index := applied_index;
     applied_term := default 0 (term <$> applied);
     applied_node_id := default 0 (node_id <$> applied);
     kv_pairs := omap kv_pair_of_row (iter_prefix d TABLE_KV (encode_kv_key []));
     kv_metadata := omap kv_meta_of_row (iter_prefix d TABLE_KV_META (encode_kv_meta_key []));
     auth_entries := raw_entry <$> iter_prefix d TABLE_KV AUTH_DOMAIN;
     lease_entries := raw_entry <$> iter_prefix d TABLE_KV LEASE_DOMAIN;
     snap_compacted := default 0 (tx_get d TABLE_META META_COMPACT_REVISION ≫= decode_u64);
     snap_current :=
       match tx_get d TABLE_META META_CURRENT_REVISION ≫= decode_u64 with
       | Some revision => revision
       | None => match revision_mode s with
                 | ModeLogIndex => applied_index
                 | ModeCommitTs => 0
                 end
       end;
     pd_entries := raw_entry <$> iter_prefix d TABLE_KV PD_DOMAIN;
     sys_entries :=
       raw_entry <$> List.filter (fun r => negb (starts_with r.1 AUTH_DOMAIN))
                       (iter_prefix d TABLE_KV SYS_DOMAIN);
     changelog_entries := raw_entry <$> iter_prefix d TABLE_CHANGELOG CHANGELOG_PREFIX;
     commit_log_entries := raw_entry <$> iter_prefix d TABLE_COMMIT_LOG COMMIT_LOG_PREFIX |}.

(** ** Import: one write transaction *)

(** Remove every row that [iter_prefix] finds. *)
Definition clear_prefix (t : table) (prefix : bytes) (d : db) : db :=
  foldl (fun d k => tx_remove t k d) d (iter_prefix d t prefix).*1.

Definition insert_rows (t : table) (rows : list row) (d : db) : db :=
  foldl (fun d (r : row) => tx_insert t r.1 r.2 d) d rows.

Definition pair_row (p : SnapshotKvPair) : row := (encode_kv_key (pair_key p), pair_value p).
Definition meta_row (m : SnapshotKvMeta) : row :=
  (encode_kv_meta_key (meta_key m), meta_to_bytes (meta_fields m)).
Definition entry_row (e : SnapshotRawEntry) : row := (internal_key e, raw_value e).

Definition put_or_remove (k : bytes) (revision : Z) (d : db) : db :=
  if 0 <? revision then tx_insert TABLE_META k (be64 revision) d else tx_remove TABLE_META k d.

Definition import_body (data : SnapshotData) (d : db) : db :=
  let d := clear_prefix TABLE_KV [] d in
  let d := clear_prefix TABLE_KV_META [] d in
  let d := clear_prefix TABLE_CHANGELOG CHANGELOG_PREFIX d in
  let d := clear_prefix TABLE_COMMIT_LOG COMMIT_LOG_PREFIX d in
  let d := insert_rows TABLE_KV (pair_row <$> kv_pairs data) d in
  let d := insert_rows TABLE_KV_META (meta_row <$> kv_metadata data) d in
  let d := insert_rows TABLE_KV (entry_row <$> auth_entries data) d in
  let d := insert_rows TABLE_KV (entry_row <$> lease_entries data) d in
  let d := insert_rows TABLE_KV (entry_row <$> pd_entries data) d in
  let d := insert_rows TABLE_KV (entry_row <$> sys_entries data) d in
  let d := insert_rows TABLE_CHANGELOG (entry_row <$> changelog_entries data) d in
  let d := insert_rows TABLE_COMMIT_LOG (entry_row <$> commit_log_entries data) d in
  let d := tx_remove TABLE_META META_COMMIT_LOG_TRIMMED_BEFORE d in
  let d := insert_last_applied {| term := applied_term data; node_id := applied_node_id data;
                                  index := applied_index data |} d in
  let d := put_or_remove META_COMPACT_REVISION (snap_compacted data) d in
  put_or_remove META_CURRENT_REVISION (snap_current data) d.

Definition import_snapshot_data (s : MvccStorage) (data : SnapshotData) (d : db)
    : result unit * db :=
  if negb (snap_version data =? CURRENT_VERSION) then (Err Internal, d)
  else if snap_current data <? current_revision s d then (Err Storage, d)
  else backend_write d (fun d => Ok (tt, import_body data d)).
