(* ===== verification/SnapshotFacts.v ===== *)
(** * What a store holds after a snapshot was installed

    Row by row, for the export of any store installed over any other. *)

From S2P Require Export Snapshot SysRows.
From S2P Require Import MvccCompact.

Local Open Scope Z_scope.

(** ** Clearing and refilling *)

Lemma clear_prefix_get t p d t' k :
  tx_get (clear_prefix t p d) t' k =
  if decide (t' = t) then if starts_with k p then None else tx_get d t' k else tx_get d t' k.
Proof.
  unfold clear_prefix. rewrite tx_get_remove_all.
  destruct (decide (t' = t)) as [->|Hn]; [|by rewrite decide_False by (by intros [? _])].
  destruct (starts_with k p) eqn:Hp.
  - case_decide as Hk; [done|]. apply eq_None_not_Some. intros [v Hv]. apply Hk. split; [done|].
    apply list_elem_of_fmap. exists (k, v). split; [done|]. apply elem_of_iter_prefix.
    split; [done|]. by apply starts_with_spec.
  - rewrite decide_False; [done|]. intros [_ Hk]. apply list_elem_of_fmap in Hk as ([k' v] & -> & Hk).
    apply elem_of_iter_prefix in Hk as [_ Hk]. simpl in Hp.
    by rewrite (proj2 (starts_with_spec k' p) Hk) in Hp.
Qed.

(** [rows] is the graph of [f]. *)
Definition graph (f : bytes -> option bytes) (rows : list row) : Prop :=
  NoDup rows.*1 /\ forall k v, (k, v) ∈ rows <-> f k = Some v.

Lemma insert_rows_other t rows d t' k :
  t' <> t \/ k ∉ rows.*1 -> tx_get (insert_rows t rows d) t' k = tx_get d t' k.
Proof.
  unfold insert_rows. revert d. induction rows as [|r rows IH]; intros d Hk; simpl; [done|].
  destruct r as [k0 v0]. rewrite fmap_cons, not_elem_of_cons in Hk. cbn [fst snd] in *.
  rewrite IH by tauto. apply lookup_insert_ne. intros [= <- <-]. tauto.
Qed.

Lemma insert_rows_elem t rows d k v :
  NoDup rows.*1 -> (k, v) ∈ rows -> tx_get (insert_rows t rows d) t k = Some v.
Proof.
  unfold insert_rows. revert d. induction rows as [|r rows IH]; intros d Hn Hk.
  { by apply elem_of_nil in Hk. }
  apply NoDup_cons in Hn as [Hr Hn]. apply elem_of_cons in Hk as [<-|Hk]; [|by apply IH].
  simpl. fold (insert_rows t rows (tx_insert t k v d)). rewrite insert_rows_other by (by right).
  apply lookup_insert_eq.
Qed.

Lemma insert_rows_graph f t rows d k :
  graph f rows ->
  tx_get (insert_rows t rows d) t k = match f k with Some v => Some v | None => tx_get d t k end.
Proof.
  intros [Hn Hf]. destruct (f k) as [v|] eqn:E; [by apply insert_rows_elem, Hf|].
  apply insert_rows_other. right. intros ([k' v] & -> & Hk%Hf)%list_elem_of_fmap. simpl in E. congruence.
Qed.

(** The part of a table under a prefix. *)
Definition part (d : db) (t : table) (p k : bytes) : option bytes :=
  if starts_with k p then tx_get d t k else None.

Lemma part_graph d t p : graph (part d t p) (iter_prefix d t p).
Proof.
  split; [apply sorted_rows_NoDup, iter_prefix_sorted|]. intros k v.
  rewrite elem_of_iter_prefix, <-starts_with_spec. unfold part. destruct (starts_with k p); naive_solver.
Qed.

Lemma entry_rows (rows : list row) : entry_row <$> (raw_entry <$> rows) = rows.
Proof. induction rows as [|[k v] rows IH]; [done|]. rewrite !fmap_cons. by f_equal. Qed.

Lemma strip_prefix_starts p k : starts_with k p = true -> exists x, k = p ++ x /\ strip_prefix p k = Some x.
Proof. intros [x ->]%starts_with_spec. exists x. by rewrite strip_prefix_app. Qed.

(** ** The rows of a snapshot *)

Lemma pair_rows d :
  pair_row <$> omap kv_pair_of_row (iter_prefix d TABLE_KV (encode_kv_key [])) =
  iter_prefix d TABLE_KV KV_PREFIX.
Proof.
  replace (encode_kv_key []) with KV_PREFIX by done.
  assert (Forall (fun r : row => starts_with r.1 KV_PREFIX = true) (iter_prefix d TABLE_KV KV_PREFIX)) as H.
  { rewrite Forall_forall. intros [k v] [_ Hk]%elem_of_iter_prefix. by apply starts_with_spec. }
  induction H as [|[k v] rows Hk _ IH]; [done|].
  destruct (strip_prefix_starts _ _ Hk) as (x & E & Hs). cbn [fst] in E, Hs.
  assert (kv_pair_of_row (k, v) = Some {| pair_key := x; pair_value := v |}) as E'.
  { unfold kv_pair_of_row, decode_kv_key. cbn [fst snd]. by rewrite Hs. }
  cbn [omap list_omap]. rewrite E', fmap_cons, IH. f_equal. unfold pair_row, encode_kv_key. simpl.
  by rewrite E.
Qed.

(** The metadata rows are decoded and encoded again. *)
Definition reencoded (d : db) (k : bytes) : option bytes :=
  meta_to_bytes <$> (part d TABLE_KV_META KV_META_PREFIX k ≫= meta_from_bytes).

Lemma meta_row_of k v :
  starts_with k KV_META_PREFIX = true ->
  meta_row <$> kv_meta_of_row (k, v) = (fun m => (k, meta_to_bytes m)) <$> meta_from_bytes v.
Proof.
  intros (x & -> & Hs)%strip_prefix_starts. unfold kv_meta_of_row. cbn [fst snd]. rewrite Hs.
  cbn [mbind option_bind]. by destruct (meta_from_bytes v).
Qed.

Lemma fmap_omap_list {A B C : Type} (f : A -> option B) (g : B -> C) (l : list A) :
  g <$> omap f l = omap (fun a => g <$> f a) l.
Proof. induction l as [|a l IH]; [done|]. cbn. destruct (f a); cbn; [f_equal|]; exact IH. Qed.

Lemma omap_keys_sorted (f : row -> option row) (l : list row) :
  (forall r r', f r = Some r' -> r'.1 = r.1) ->
  StronglySorted row_lt l -> StronglySorted row_lt (omap f l).
Proof.
  intros Hf. induction 1 as [|r l Hs IH Hr]; [constructor|]. cbn.
  destruct (f r) as [r'|] eqn:E; [|done]. constructor; [done|]. rewrite Forall_forall in *.
  intros y (x & Hx & Ex)%list_elem_of_omap. unfold row_lt in *. rewrite (Hf _ _ E), (Hf _ _ Ex). by apply Hr.
Qed.

(** The rows that the metadata of a snapshot is written back to. *)
Definition meta_rows (d : db) : list row :=
  meta_row <$> omap kv_meta_of_row (iter_prefix d TABLE_KV_META KV_META_PREFIX).

Lemma meta_rows_sorted d : StronglySorted row_lt (meta_rows d).
Proof.
  unfold meta_rows. rewrite fmap_omap_list. apply omap_keys_sorted; [|apply iter_prefix_sorted].
  intros [k v] r'. unfold kv_meta_of_row. cbn [fst snd].
  destruct (strip_prefix KV_META_PREFIX k) as [x|] eqn:E; [|done]. apply strip_prefix_Some in E as ->.
  cbn. destruct (meta_from_bytes v); [|done]. by intros [= <-].
Qed.

Lemma meta_graph d : graph (reencoded d) (meta_rows d).
Proof.
  split; [apply sorted_rows_NoDup, meta_rows_sorted|]. intros k v. unfold meta_rows.
  rewrite fmap_omap_list, list_elem_of_omap. unfold reencoded. split.
  - intros ([k' v'] & Hin & E). pose proof Hin as [_ Hk%starts_with_spec]%elem_of_iter_prefix.
    rewrite meta_row_of in E by done. apply (proj2 (part_graph _ _ _)) in Hin.
    destruct (meta_from_bytes v') eqn:Em; [|done]. injection E as <- <-. by rewrite Hin; simpl; rewrite Em.
  - destruct (part d TABLE_KV_META KV_META_PREFIX k) as [x|] eqn:Ep; [|done]. simpl.
    destruct (meta_from_bytes x) as [m|] eqn:Em; [|done]. intros [= <-].
    apply (proj2 (part_graph _ _ _)) in Ep. exists (k, x). split; [done|].
    pose proof Ep as [_ Hk%starts_with_spec]%elem_of_iter_prefix. rewrite meta_row_of by done. by rewrite Em.
Qed.

Lemma sys_graph d :
  graph (fun k => if starts_with k AUTH_DOMAIN then None else part d TABLE_KV SYS_DOMAIN k)
    (List.filter (fun r => negb (starts_with r.1 AUTH_DOMAIN)) (iter_prefix d TABLE_KV SYS_DOMAIN)).
Proof.
  split.
  - apply sorted_rows_NoDup, StronglySorted_List_filter, iter_prefix_sorted.
  - intros k v. rewrite elem_of_List_filter, (proj2 (part_graph d TABLE_KV SYS_DOMAIN)). cbn [fst].
    destruct (starts_with k AUTH_DOMAIN); naive_solver.
Qed.

(** ** The installed store *)

(** The rows of the key table that a snapshot carries. *)
Definition carried (k : bytes) : bool :=
  starts_with k KV_PREFIX || starts_with k LEASE_DOMAIN || starts_with k PD_DOMAIN
    || starts_with k SYS_DOMAIN.

Definition positive_row (revision : Z) : option bytes :=
  if 0 <? revision then Some (be64 revision) else None.

Record installed (data : SnapshotData) (d d0 d' : db) : Prop := {
  in_kv : forall k, tx_get d' TABLE_KV k = if carried k then tx_get d TABLE_KV k else None;
  in_kv_meta : forall k, tx_get d' TABLE_KV_META k = reencoded d k;
  in_changelog : forall k, tx_get d' TABLE_CHANGELOG k =
    if starts_with k CHANGELOG_PREFIX then tx_get d TABLE_CHANGELOG k else tx_get d0 TABLE_CHANGELOG k;
  in_commit_log : forall k, tx_get d' TABLE_COMMIT_LOG k =
    if starts_with k COMMIT_LOG_PREFIX then tx_get d TABLE_COMMIT_LOG k else tx_get d0 TABLE_COMMIT_LOG k;
  in_applied : tx_get d' TABLE_META META_LAST_APPLIED = Some (applied_to_bytes
    {| term := applied_term data; node_id := applied_node_id data; index := applied_index data |});
  in_current : tx_get d' TABLE_META META_CURRENT_REVISION = positive_row (snap_current data);
  in_compacted : tx_get d' TABLE_META META_COMPACT_REVISION = positive_row (snap_compacted data);
  in_trimmed : tx_get d' TABLE_META META_COMMIT_LOG_TRIMMED_BEFORE = None;
  in_meta : forall k,
    k ∉ [META_LAST_APPLIED; META_CURRENT_REVISION; META_COMPACT_REVISION; META_COMMIT_LOG_TRIMMED_BEFORE] ->
    tx_get d' TABLE_META k = tx_get d0 TABLE_META k }.

Lemma put_or_remove_get k revision d : tx_get (put_or_remove k revision d) TABLE_META k = positive_row revision.
Proof. unfold put_or_remove, positive_row. destruct (0 <? revision); [apply tx_get_insert|apply tx_get_remove]. Qed.

Lemma put_or_remove_ne k revision d t' k' :
  (TABLE_META, k) <> (t', k') -> tx_get (put_or_remove k revision d) t' k' = tx_get d t' k'.
Proof.
  intros Hne. unfold put_or_remove.
  destruct (0 <? revision); [by apply tx_get_insert_ne|by apply tx_get_remove_ne].
Qed.

(** The four writes to the table of metadata, last to first. *)
Lemma meta_writes data d k :
  tx_get (put_or_remove META_CURRENT_REVISION (snap_current data)
    (put_or_remove META_COMPACT_REVISION (snap_compacted data)
      (insert_last_applied {| term := applied_term data; node_id := applied_node_id data;
                              index := applied_index data |}
        (tx_remove TABLE_META META_COMMIT_LOG_TRIMMED_BEFORE d)))) TABLE_META k =
  if decide (k = META_CURRENT_REVISION) then positive_row (snap_current data)
  else if decide (k = META_COMPACT_REVISION) then positive_row (snap_compacted data)
  else if decide (k = META_LAST_APPLIED) then Some (applied_to_bytes
    {| term := applied_term data; node_id := applied_node_id data; index := applied_index data |})
  else if decide (k = META_COMMIT_LOG_TRIMMED_BEFORE) then None
  else tx_get d TABLE_META k.
Proof.
  case_decide as H1; [rewrite H1; apply put_or_remove_get|]. rewrite put_or_remove_ne by congruence.
  case_decide as H2; [rewrite H2; apply put_or_remove_get|]. rewrite put_or_remove_ne by congruence.
  unfold insert_last_applied. case_decide as H3; [rewrite H3; apply tx_get_insert|].
  rewrite tx_get_insert_ne by congruence. case_decide as H4; [rewrite H4; apply tx_get_remove|].
  apply tx_get_remove_ne. congruence.
Qed.

Lemma meta_writes_other data d t k :
  t <> TABLE_META ->
  tx_get (put_or_remove META_CURRENT_REVISION (snap_current data)
    (put_or_remove META_COMPACT_REVISION (snap_compacted data)
      (insert_last_applied {| term := applied_term data; node_id := applied_node_id data;
                              index := applied_index data |}
        (tx_remove TABLE_META META_COMMIT_LOG_TRIMMED_BEFORE d)))) t k = tx_get d t k.
Proof.
  intros Ht. rewrite !put_or_remove_ne by congruence. unfold insert_last_applied.
  rewrite tx_get_insert_ne by congruence. apply tx_get_remove_ne. congruence.
Qed.

Ltac other_tables := repeat first
  [ rewrite insert_rows_other by (by left)
  | rewrite clear_prefix_get, decide_False by done ].

Lemma import_installed s d d0 li lt :
  installed (export_snapshot_data s d li lt) d d0 (import_body (export_snapshot_data s d li lt) d0).
Proof.
  set (data := export_snapshot_data s d li lt). unfold import_body.
  split; intros; rewrite ?meta_writes, ?meta_writes_other by done.
  - subst data. cbn [kv_pairs auth_entries lease_entries pd_entries sys_entries export_snapshot_data].
    rewrite pair_rows, !entry_rows. other_tables.
    rewrite (insert_rows_graph _ _ _ _ _ (sys_graph d)).
    rewrite !(insert_rows_graph _ _ _ _ _ (part_graph d _ _)). other_tables.
    rewrite (insert_rows_graph _ _ _ _ _ (part_graph d _ _)). other_tables.
    rewrite clear_prefix_get, decide_True by done. rewrite (proj2 (starts_with_spec k []) (ex_intro _ k eq_refl)).
    assert (starts_with k AUTH_DOMAIN = true -> starts_with k SYS_DOMAIN = true) as Ha.
    { intros [x ->]%starts_with_spec. apply (starts_with_app SYS_DOMAIN (b "auth/" ++ x)). }
    unfold part, carried. destruct (starts_with k AUTH_DOMAIN); [rewrite Ha by done|clear Ha];
      destruct (tx_get d TABLE_KV k), (starts_with k KV_PREFIX), (starts_with k LEASE_DOMAIN),
        (starts_with k PD_DOMAIN); simpl; by try destruct (starts_with k SYS_DOMAIN).
  - other_tables. subst data. cbn [kv_metadata export_snapshot_data].
    replace (encode_kv_meta_key []) with KV_META_PREFIX by done.
    fold (meta_rows d). rewrite (insert_rows_graph _ _ _ _ _ (meta_graph d)). other_tables.
    rewrite clear_prefix_get, decide_True by done. rewrite (proj2 (starts_with_spec k []) (ex_intro _ k eq_refl)).
    by destruct (reencoded d k).
  - other_tables. subst data. cbn [changelog_entries export_snapshot_data]. rewrite entry_rows.
    rewrite (insert_rows_graph _ _ _ _ _ (part_graph d _ _)). other_tables.
    rewrite clear_prefix_get, decide_True by done. other_tables. unfold part.
    destruct (starts_with k CHANGELOG_PREFIX); [by destruct (tx_get d _ _)|done].
  - subst data. cbn [commit_log_entries export_snapshot_data]. rewrite entry_rows.
    rewrite (insert_rows_graph _ _ _ _ _ (part_graph d _ _)). other_tables.
    rewrite clear_prefix_get, decide_True by done. other_tables. unfold part.
    destruct (starts_with k COMMIT_LOG_PREFIX); [by destruct (tx_get d _ _)|done].
  - done.
  - done.
  - done.
  - done.
  - match goal with H : _ ∉ _ |- _ => rewrite !not_elem_of_cons in H end. rewrite !decide_False by tauto. by other_tables.
Qed.
