(* ===== verification/SnapshotSafety.v ===== *)
(** * Snapshots: what they carry and what they lose

    A store that represents a history goes through export, bytes and import.
    The receiving node has the same revisions and the same system rows, and
    represents the same history exactly if its barrier opens the sender's rows
    of the live keys ([opens_rows]).  The state of the key store and of every system
    component whose rows lie under the carried prefixes survives a snapshot.
    The rows of the v2 leases lie under prefixes that no domain of the snapshot
    covers, and the wrapped data keys lie in the table of metadata: both are
    lost. *)

From S2P Require Export SnapshotFacts Lease DecisionsReplay PdQueueSafety.

Local Open Scope Z_scope.

(** ** Revisions *)

Lemma applied_from_bytes_wf x a : applied_from_bytes x = Some a -> applied_wf a.
Proof.
  unfold applied_from_bytes. destruct (strip_prefix _ x) as [y|]; [|done]. cbn [mbind option_bind].
  destruct (slice 0 8 y) as [t|] eqn:E1; [|done]. destruct (slice 8 8 y) as [n|] eqn:E2; [|done].
  destruct (slice 16 8 y) as [i|] eqn:E3; [|done]. cbn. intros [= <-].
  assert (forall j z, slice j 8 y = Some z -> in_u64 (be_val z)) as H.
  { intros j z E. pose proof (be_val_range z) as Hr. by rewrite (slice_length _ _ _ _ E) in Hr. }
  split; [|split]; simpl; eauto.
Qed.

Lemma positive_row_decode z : in_u64 z -> default 0 (positive_row z ≫= decode_u64) = z.
Proof.
  intros Hz. unfold positive_row. destruct (Z.ltb_spec 0 z); cbn [mbind option_bind].
  - by rewrite decode_u64_be64.
  - simpl. unfold in_u64 in Hz. lia.
Qed.

Section installed.
Context (s : MvccStorage) (d d0 d' : db) (li lt : Z) (a : AppliedLogId).
Context (Ha : get_applied_log_id d = Some a).
Context (Hin : installed (export_snapshot_data s d li lt) d d0 d').

Lemma installed_compacted : compacted_revision d' = compacted_revision d.
Proof.
  unfold compacted_revision at 1. rewrite (in_compacted _ _ _ _ Hin). apply positive_row_decode.
  apply compacted_revision_range.
Qed.

Lemma installed_applied : get_applied_log_id d' = Some a.
Proof.
  unfold get_applied_log_id at 1. rewrite (in_applied _ _ _ _ Hin).
  cbn [applied_term applied_node_id applied_index export_snapshot_data]. rewrite Ha. simpl.
  destruct (tx_get d TABLE_META META_LAST_APPLIED) as [x|] eqn:E; unfold get_applied_log_id in Ha;
    rewrite E in Ha; [|done].
  destruct a. apply applied_roundtrip. by eapply applied_from_bytes_wf.
Qed.

Lemma snap_current_exact : snap_current (export_snapshot_data s d li lt) = current_revision s d.
Proof.
  cbn [snap_current export_snapshot_data]. unfold current_revision, current_revision_in_tx.
  rewrite Ha. by destruct (tx_get d TABLE_META META_CURRENT_REVISION ≫= decode_u64).
Qed.

Lemma installed_current :
  current_revision s d <= current_revision s d' /\
  (0 < current_revision s d \/ revision_mode s = ModeCommitTs ->
   current_revision s d' = current_revision s d).
Proof.
  pose proof (current_revision_range s d) as Hr.
  assert (current_revision s d' = if 0 <? current_revision s d then current_revision s d else
    match revision_mode s with ModeLogIndex => index a | ModeCommitTs => 0 end) as ->.
  { unfold current_revision at 1, current_revision_in_tx. rewrite (in_current _ _ _ _ Hin), snap_current_exact.
    unfold positive_row. destruct (0 <? current_revision s d).
    - cbn [mbind option_bind]. by rewrite decode_u64_be64.
    - cbn [mbind option_bind]. destruct (revision_mode s); [|done]. by rewrite installed_applied. }
  assert (in_u64 (index a)) as Hi.
  { pose proof installed_applied as E. unfold get_applied_log_id in E.
    destruct (tx_get d' TABLE_META META_LAST_APPLIED); [|done]. by apply applied_from_bytes_wf in E as (_ & _ & ?). }
  unfold in_u64 in *. destruct (Z.ltb_spec 0 (current_revision s d)); [lia|].
  destruct (revision_mode s); split; try lia; intros [?|?]; try done; lia.
Qed.

(** ** Rows *)

Lemma installed_carried k : carried k = true -> tx_get d' TABLE_KV k = tx_get d TABLE_KV k.
Proof. intros Hk. by rewrite (in_kv _ _ _ _ Hin), Hk. Qed.

Lemma installed_agree : agree [KV_PREFIX; LEASE_DOMAIN; PD_DOMAIN; SYS_DOMAIN] d d'.
Proof.
  intros p x Hp. apply installed_carried. unfold carried.
  repeat (apply elem_of_cons in Hp as [->|Hp]; [rewrite starts_with_app, ?orb_true_r; done|]).
  by apply elem_of_nil in Hp.
Qed.

Lemma installed_metadata key : get_kv_metadata d' key = get_kv_metadata d key.
Proof.
  unfold get_kv_metadata. rewrite (in_kv_meta _ _ _ _ Hin). unfold reencoded, part, encode_kv_meta_key.
  rewrite starts_with_app. destruct (tx_get d TABLE_KV_META _) as [x|]; [|done]. simpl.
  destruct (meta_from_bytes x) as [m|] eqn:E; [|done]. simpl. eauto using meta_decode_encode with coord.
Qed.

Lemma installed_changelog x :
  tx_get d' TABLE_CHANGELOG (CHANGELOG_PREFIX ++ x) = tx_get d TABLE_CHANGELOG (CHANGELOG_PREFIX ++ x).
Proof. by rewrite (in_changelog _ _ _ _ Hin), starts_with_app. Qed.

Lemma installed_commit_log x :
  tx_get d' TABLE_COMMIT_LOG (COMMIT_LOG_PREFIX ++ x) = tx_get d TABLE_COMMIT_LOG (COMMIT_LOG_PREFIX ++ x).
Proof. by rewrite (in_commit_log _ _ _ _ Hin), starts_with_app. Qed.

Lemma installed_rep h : mvcc_rep s d h -> mvcc_rep s d' h.
Proof.
  intros [G1 G2 G3 G4 G5 G6]. pose proof (proj1 installed_current) as Hle.
  split; rewrite ?installed_compacted; [done|done| |lia| |].
  - eapply List.Forall_impl; [|exact G3]. intros e He. exact (Z.le_trans _ _ _ He Hle).
  - assert (log_from d' = log_from d) as ->.
    { unfold log_from, changelog_contains_revision, encode_changelog_key.
      by rewrite installed_compacted, installed_changelog. }
    rewrite <-G5. apply iter_prefix_agree, installed_changelog.
  - eapply keys_rep_mono; [exact Hle|]. intros key. specialize (G6 key). unfold key_rep in *.
    rewrite installed_metadata. unfold encode_kv_key.
    rewrite (installed_agree KV_PREFIX key); [exact G6|by left].
Qed.

(** ** A snapshot of the installed store *)

Lemma installed_meta_rows : iter_prefix d' TABLE_KV_META KV_META_PREFIX = meta_rows d.
Proof.
  apply iter_prefix_unique; [apply meta_rows_sorted|]. intros k v.
  rewrite (proj2 (meta_graph d)), <-starts_with_spec. pose proof (in_kv_meta _ _ _ _ Hin k) as E.
  unfold tx_get in E. rewrite E. unfold reencoded, part. destruct (starts_with k KV_META_PREFIX); naive_solver.
Qed.

Lemma meta_rows_back :
  omap kv_meta_of_row (meta_rows d) = omap kv_meta_of_row (iter_prefix d TABLE_KV_META KV_META_PREFIX).
Proof.
  unfold meta_rows. set (rows := iter_prefix d TABLE_KV_META KV_META_PREFIX). clearbody rows.
  assert (Forall (fun m => meta_wf (meta_fields m)) (omap kv_meta_of_row rows)) as Hw.
  { rewrite Forall_forall. intros m (r & _ & E)%list_elem_of_omap. unfold kv_meta_of_row in E.
    destruct (strip_prefix KV_META_PREFIX r.1); [|done]. cbn in E.
    destruct (meta_from_bytes r.2) eqn:Em; [|done]. injection E as <-. eauto with coord. }
  induction Hw as [|m l Hm _ IH]; [done|]. rewrite fmap_cons.
  assert (kv_meta_of_row (meta_row m) = Some m) as E.
  { unfold kv_meta_of_row, meta_row, encode_kv_meta_key. cbn [fst snd]. rewrite strip_prefix_app.
    cbn [mbind option_bind]. rewrite meta_decode_encode by done. by destruct m. }
  cbn [omap list_omap]. rewrite E. by f_equal.
Qed.

Lemma installed_export :
  0 < current_revision s d \/ revision_mode s = ModeCommitTs ->
  export_snapshot_data s d' li lt = export_snapshot_data s d li lt.
Proof.
  intros Hc. pose proof (proj2 installed_current Hc) as Hcur.
  assert (forall p, p ∈ [KV_PREFIX; LEASE_DOMAIN; PD_DOMAIN; SYS_DOMAIN] ->
    iter_prefix d' TABLE_KV p = iter_prefix d TABLE_KV p) as Hp.
  { intros p. apply agree_iter_prefix, installed_agree. }
  assert (iter_prefix d' TABLE_KV AUTH_DOMAIN = iter_prefix d TABLE_KV AUTH_DOMAIN) as Hauth.
  { apply iter_prefix_agree. intros x. apply (installed_agree SYS_DOMAIN (b "auth/" ++ x)). set_solver. }
  assert (snap_current (export_snapshot_data s d' li lt) = current_revision s d') as H1.
  { cbn [snap_current export_snapshot_data]. unfold current_revision, current_revision_in_tx.
    rewrite installed_applied. by destruct (tx_get d' TABLE_META META_CURRENT_REVISION ≫= decode_u64). }
  rewrite Hcur, <-snap_current_exact in H1. pose proof installed_compacted as H2. unfold compacted_revision in H2.
  unfold export_snapshot_data in *. cbn [snap_current] in H1. cbv zeta in *. rewrite H1, H2.
  rewrite installed_applied, Ha, Hauth.
  replace (encode_kv_key []) with KV_PREFIX by done.
  rewrite (Hp KV_PREFIX), (Hp LEASE_DOMAIN), (Hp PD_DOMAIN), (Hp SYS_DOMAIN) by set_solver.
  replace (encode_kv_meta_key []) with KV_META_PREFIX by done.
  rewrite installed_meta_rows, meta_rows_back.
  rewrite (iter_prefix_agree TABLE_CHANGELOG d d' CHANGELOG_PREFIX) by apply installed_changelog.
  rewrite (iter_prefix_agree TABLE_COMMIT_LOG d d' COMMIT_LOG_PREFIX) by apply installed_commit_log.
  done.
Qed.

End installed.

(** ** The barrier of the receiver

    Values travel as the sender stored them, so what they say on the receiver
    is a matter of the receiver's own barrier. *)

(** The rows of the keys that have a value open to it. *)
Definition opens_rows (s : MvccStorage) (d : db) (h : history) : Prop :=
  forall key v, latest h key = Some v ->
    exists raw, tx_get d TABLE_KV (encode_kv_key key) = Some raw /\ plaintext_of s (encode_kv_key key) raw = Ok v.

Lemma rep_opens_rows s d h : mvcc_rep s d h -> opens_rows s d h.
Proof.
  intros Hrep key v Hv. pose proof (rep_keys _ _ _ Hrep key) as Hk. unfold key_rep, key_ok in Hk.
  destruct (get_kv_metadata d key) as [m|]; [|naive_solver]. destruct Hk as (_ & _ & Hk).
  destruct (deleted m); [naive_solver|]. destruct Hk as (raw & v' & H1 & H2 & H3). exists raw. split; congruence.
Qed.

Lemma current_revision_mode s s' d : revision_mode s' = revision_mode s -> current_revision s' d = current_revision s d.
Proof. intros E. unfold current_revision, current_revision_in_tx. by rewrite E. Qed.

Lemma export_mode s s' d li lt :
  revision_mode s' = revision_mode s -> export_snapshot_data s' d li lt = export_snapshot_data s d li lt.
Proof. intros E. unfold export_snapshot_data. by rewrite E. Qed.

Lemma rep_change_barrier s s' d h :
  revision_mode s' = revision_mode s -> mvcc_rep s d h -> (mvcc_rep s' d h <-> opens_rows s' d h).
Proof.
  intros Hm Hrep. split; [apply rep_opens_rows|]. intros Ho. destruct Hrep as [G1 G2 G3 G4 G5 G6].
  split; rewrite ?(current_revision_mode _ _ _ Hm); [done..|]. intros key. specialize (G6 key). unfold key_rep, key_ok in *.
  destruct (get_kv_metadata d key) as [m|]; [|done]. destruct G6 as (H1 & H2 & H3). split; [done|]. split; [done|].
  destruct (deleted m); [done|]. destruct H3 as (raw & v & E1 & _ & E3).
  destruct (Ho key v E3) as (raw' & E4 & E5). by exists raw', v.
Qed.

Lemma installed_opens_rows s s' d d0 d' li lt h :
  installed (export_snapshot_data s d li lt) d d0 d' -> (opens_rows s' d' h <-> opens_rows s' d h).
Proof.
  intros Hin. unfold opens_rows, encode_kv_key.
  assert (forall key, tx_get d' TABLE_KV (KV_PREFIX ++ key) = tx_get d TABLE_KV (KV_PREFIX ++ key)) as E.
  { intros key. apply (installed_agree s d d0 d' li lt Hin). by left. }
  by setoid_rewrite E.
Qed.

(** The receiver represents the sender's history exactly if it opens the rows. *)
Lemma installed_rep_iff s s' d d0 d' li lt a h :
  revision_mode s' = revision_mode s -> get_applied_log_id d = Some a ->
  installed (export_snapshot_data s d li lt) d d0 d' -> mvcc_rep s d h ->
  (mvcc_rep s' d' h <-> opens_rows s' d h).
Proof.
  intros Hm Ha Hin Hrep. rewrite (rep_change_barrier s s' d' h Hm) by (by eapply installed_rep).
  by eapply installed_opens_rows.
Qed.

(** ** Installing the export of a store *)

Lemma import_export s s' d d0 d' li lt :
  import_snapshot_data s' (export_snapshot_data s d li lt) d0 = (Ok tt, d') ->
  installed (export_snapshot_data s d li lt) d d0 d'.
Proof.
  unfold import_snapshot_data. cbn [snap_version export_snapshot_data]. rewrite Z.eqb_refl. cbn [negb].
  destruct (_ <? _); [done|]. unfold backend_write. intros [= <-]. apply import_installed.
Qed.

Lemma import_regress s s' d d0 li lt :
  import_snapshot_data s' (export_snapshot_data s d li lt) d0 =
  if snap_current (export_snapshot_data s d li lt) <? current_revision s' d0 then (Err Storage, d0)
  else (Ok tt, import_body (export_snapshot_data s d li lt) d0).
Proof. done. Qed.

Section bytes.
Context {pc : Postcard SnapshotData} {pl : PostcardLaws SnapshotData}.

Lemma snapshot_bytes_roundtrip data :
  snap_version data = CURRENT_VERSION ->
  exists x, snapshot_to_bytes data = Ok x /\ snapshot_from_bytes x = Ok data.
Proof.
  intros Hv. destruct (encode_total data) as [x E]. exists x. unfold snapshot_to_bytes, snapshot_from_bytes.
  rewrite E. split; [done|]. apply decode_ok_encode in E. unfold decode_ok in E.
  destruct (envelope_decode x); [|done]. injection E as ->. by rewrite Hv.
Qed.

(** C21: a snapshot carries the key store.  The export of a store that
    represents a history goes to bytes and back.  Every node of the same mode of
    revisions that is not ahead of it installs it, ends at the same current,
    compacted and applied positions, and exports the snapshot it installed; it
    represents the same history exactly if its own barrier opens the sender's
    rows of the live keys to their values, as the sender's does, since the
    snapshot carries ciphertext and no data keys.  A node that is ahead refuses the snapshot and
    keeps its rows. *)
Theorem snapshot_carries_state s s' d h a li lt :
  mvcc_rep s d h -> get_applied_log_id d = Some a ->
  0 < current_revision s d \/ revision_mode s = ModeCommitTs -> revision_mode s' = revision_mode s ->
  exists x, let data := export_snapshot_data s d li lt in
    snapshot_to_bytes data = Ok x /\ snapshot_from_bytes x = Ok data /\ opens_rows s d h /\
    forall d0,
      (current_revision s' d0 <= current_revision s d ->
       exists d', import_snapshot_data s' data d0 = (Ok tt, d') /\
         (mvcc_rep s' d' h <-> opens_rows s' d h) /\ get_applied_log_id d' = Some a /\
         current_revision s' d' = current_revision s d /\
         compacted_revision d' = compacted_revision d /\
         export_snapshot_data s' d' li lt = data) /\
      (current_revision s d < current_revision s' d0 ->
       import_snapshot_data s' data d0 = (Err Storage, d0)).
Proof.
  intros Hrep Ha Hc Hm. destruct (snapshot_bytes_roundtrip (export_snapshot_data s d li lt) eq_refl) as (x & H1 & H2).
  exists x. split; [done|]. split; [done|]. split; [by apply rep_opens_rows|]. intros d0. rewrite import_regress, (snap_current_exact s d li lt a Ha).
  split; intros Hd; [|by rewrite (proj2 (Z.ltb_lt _ _) Hd)].
  rewrite (proj2 (Z.ltb_ge _ _) Hd). eexists. split; [done|].
  pose proof (import_installed s d d0 li lt) as Hin. rewrite (current_revision_mode _ _ _ Hm), (export_mode _ _ _ _ _ Hm).
  split; [by eapply installed_rep_iff|]. split; [by eapply installed_applied|].
  split; [by eapply (installed_current s d d0)|]. split; [by eapply installed_compacted|].
  by eapply installed_export.
Qed.

End bytes.

(** ** The system components *)

Lemma agree_under p ps d d' : agree [p] d d' -> Forall (fun q => starts_with q p = true) ps -> agree ps d d'.
Proof.
  intros Ha Hp q x Hq. rewrite Forall_forall in Hp. apply Hp, starts_with_spec in Hq as [y ->].
  rewrite <-app_assoc. apply Ha. by left.
Qed.

Section services.
Context {sha : Sha256} {psd : Postcard SequencerDecision} {psi : Postcard SequencerIntervalWrite}.
Context {pld : PostcardLaws SequencerDecision} {pli : PostcardLaws SequencerIntervalWrite}.
Context {pe : Postcard PdQueueEntry} {pn : Postcard PdIntent} {pt : Postcard RegionTable}.
Context {ple : PostcardLaws PdQueueEntry} {pln : PostcardLaws PdIntent} {plt : PostcardLaws RegionTable}.
Context {U : bytes -> Prop} {cf : CollisionFree U}.

(** C22: a snapshot carries the system components.  On the node that installed
    it the decision log and its indexes, the operator queue with its intents
    and the Region table represent what they represented on the sender, the
    timestamp oracle and the fences stand where they stood, and a Region that
    followed the decisions up to its cursor follows them up to the same cursor
    exactly if the receiver's barrier, like the sender's, opens the rows of its
    live keys.  Sender
    and receiver number revisions by commit timestamps. *)
Theorem snapshot_carries_services s s' d d0 d' a li lt :
  get_applied_log_id d = Some a -> revision_mode s = ModeCommitTs -> revision_mode s' = ModeCommitTs ->
  import_snapshot_data s' (export_snapshot_data s d li lt) d0 = (Ok tt, d') ->
  (forall ds, seq_rep U d ds -> seq_rep U d' ds) /\
  (forall last st, r0_ok last d st -> r0_ok last d' st) /\
  (forall m ds h, region_follows s m ds d h ->
    opens_rows s d h /\ (region_follows s' m ds d' h <-> opens_rows s' d h)) /\
  (forall k, k ∈ [TSO_HIGH_WATER; TSO_LAST_BATCH; DIRECT_WRITE_FENCE; IMPORT_HISTORY_FLOORS; SAFE_TS_FENCE;
                  COMMIT_WATERMARK] -> tx_get d' TABLE_KV k = tx_get d TABLE_KV k).
Proof.
  intros Ha Hmode Hmode' Hin%import_export. pose proof (installed_agree s d d0 d' li lt Hin) as Hag.
  assert (agree [SYS_DOMAIN] d d') as Hsys by (eapply agree_mono; [|exact Hag]; set_solver).
  assert (agree [PD_DOMAIN] d d') as Hpd by (eapply agree_mono; [|exact Hag]; set_solver).
  split; [|split; [|split]].
  - intros ds. apply seq_rep_frame. eapply agree_under; [exact Hsys|]. by repeat constructor.
  - intros last st [G1 G2 G3 G4 G5]. split; [|done..|].
    + revert G1. apply pd_rep_frame. intros p x Hp. apply elem_of_cons in Hp as [->|Hp].
      { eapply (agree_under _ [PD_QUEUE_PREFIX]); [exact Hpd|by repeat constructor|by left]. }
      apply elem_of_cons in Hp as [->|Hp].
      { eapply (agree_under _ [PD_INTENT_PREFIX]); [exact Hpd|by repeat constructor|by left]. }
      eapply (agree_under _ [REGION_TABLE_KEY]); [exact Hsys|by repeat constructor|done].
    + intros r Hr Hlt. rewrite <-(G5 r Hr Hlt). unfold changelog_contains_revision, encode_changelog_key.
      by rewrite (installed_changelog s d d0 d' li lt Hin).
  - intros m ds h [G1 G2 G3].
    assert (last_applied_decision_ts d' = last_applied_decision_ts d) as E.
    { unfold last_applied_decision_ts, read_u64. f_equal.
      rewrite (agree_key _ _ _ DECISION_APPLIED_TS (agree_under _ [DECISION_APPLIED_TS] _ _ Hsys ltac:(by repeat constructor)));
        [done|by left]. }
    assert (revision_mode s' = revision_mode s) as Hm by congruence.
    pose proof (installed_rep_iff s s' d d0 d' li lt a h Hm Ha Hin G1) as Hiff.
    split; [by apply rep_opens_rows|]. split; [intros [H _ _]; by apply Hiff|]. intros Ho. split; rewrite ?E; [by apply Hiff| |done].
    rewrite (current_revision_mode _ _ _ Hm), (proj2 (installed_current s d d0 d' li lt a Ha Hin)) by (by right). done.
  - intros k Hk. eapply agree_key; [|exact Hk]. eapply agree_under; [exact Hsys|]. by repeat constructor.
Qed.

End services.

(** ** What a snapshot loses: two parts of the replicated state that no field
    of [SnapshotData] holds *)

(** ** The v2 leases

    [/_leasev2/] and [/_leasev2req/] do not start with [/_lease/]. *)

Lemma installed_v2_gone data d d0 d' p x :
  installed data d d0 d' -> p ∈ [LEASE_V2_PREFIX; LEASE_V2_REQ_PREFIX] -> tx_get d' TABLE_KV (p ++ x) = None.
Proof.
  intros Hin Hp. rewrite (in_kv _ _ _ _ Hin). unfold carried.
  assert (forallb (diverge p) [KV_PREFIX; LEASE_DOMAIN; PD_DOMAIN; SYS_DOMAIN] = true) as Hd.
  { apply elem_of_cons in Hp as [->|[->|[]%elem_of_nil]%elem_of_cons]; by vm_compute. }
  cbn [forallb] in Hd. rewrite !andb_true_iff in Hd. destruct Hd as (H1 & H2 & H3 & H4 & _).
  by rewrite !diverge_starts_with.
Qed.

(** A snapshot loses the v2 leases.  On the node that installed it no lease
    is left, whatever the sender held: the list that expiry scans is empty, a
    keep-alive of a live lease is refused and a revocation does nothing, while
    a key that was bound to the lease is still bound to it and keeps its
    value.  A retried grant gets a lease of its own. *)
Theorem snapshot_loses_v2_leases s d d0 d' a li lt id :
  get_applied_log_id d = Some a ->
  import_snapshot_data s (export_snapshot_data s d li lt) d0 = (Ok tt, d') ->
  list_lease_v2_records d' = [] /\
  get_lease_v2_record d' id = None /\
  (forall dl rev ap, (apply_lease_v2_op s d' (V2KeepAlive id dl) rev ap).1.1 = V2KeptAlive false) /\
  (forall ts dl rq rev ap, (apply_lease_v2_op s d' (V2Revoke id ts dl rq) rev ap).1.1 = V2Revoked 0) /\
  (forall t ts dl rq rev ap, (apply_lease_v2_op s d' (V2Grant id t ts dl rq) rev ap).1.1 = V2Granted id ts t true) /\
  (forall k, bound d id k -> bound d' id k /\ get s d' k = get s d k).
Proof.
  intros Ha Hin%import_export.
  assert (forall id, get_lease_v2_record d' id = None) as Hnone.
  { intros i. unfold get_lease_v2_record, encode_lease_v2_key.
    rewrite (installed_v2_gone _ _ _ _ LEASE_V2_PREFIX _ Hin); [done|by left]. }
  assert (forall d2, same_table TABLE_KV d2 d' -> get_lease_v2_record d2 id = None) as Hsame.
  { intros d2 H2. rewrite <-(Hnone id). by apply get_lease_v2_frame. }
  assert (forall rev, get_lease_v2_record (note_log_index_revision s d' rev) id = None) as Hnote.
  { intros rev. by apply Hsame, note_frame. }
  split; [|split; [done|split; [|split; [|split]]]].
  - unfold list_lease_v2_records. replace (iter_prefix d' TABLE_KV LEASE_V2_PREFIX) with (@nil row); [done|].
    symmetry. apply iter_prefix_unique; [constructor|]. intros k v. rewrite elem_of_nil. split; [done|].
    intros [Hv [x ->]]. pose proof (installed_v2_gone _ _ _ _ LEASE_V2_PREFIX x Hin ltac:(by left)) as E.
    unfold tx_get in E. congruence.
  - intros. unfold apply_lease_v2_op, lease_v2_body, lease_v2_keep_alive. by rewrite Hnote.
  - intros. unfold apply_lease_v2_op, lease_v2_body, lease_v2_revoke. by rewrite Hnote.
  - intros. unfold apply_lease_v2_op, lease_v2_body, lease_v2_grant.
    replace (lease_v2_of_request (note_log_index_revision s d' rev) rq) with (@None (Z * LeaseV2Record)).
    { by rewrite Hnote. }
    unfold lease_v2_of_request. destruct (bytes_eqb rq []); [done|]. unfold encode_lease_v2_req_key.
    assert (same_table TABLE_KV (note_log_index_revision s d' rev) d') as E by (by apply note_frame).
    rewrite E, (installed_v2_gone _ _ _ _ LEASE_V2_REQ_PREFIX _ Hin); [done|by right; left].
  - intros k (m & Hm & Hb). pose proof (installed_metadata s d d0 d' li lt Hin k) as E.
    split; [exists m; by rewrite E|]. unfold get, is_deleted. rewrite E.
    unfold encode_kv_key. rewrite (installed_agree s d d0 d' li lt Hin KV_PREFIX k ltac:(by left)). done.
Qed.

(** ** The data keys

    A value travels as the sender's ciphertext; the wrapped data keys are rows
    of the table of metadata ([security/dek_store.rs]), which an import does not
    replace. *)

Definition DEK_ENCRYPTED_PREFIX : bytes := b "/_meta/dek/encrypted/".

(** A snapshot ships values that the receiver cannot read.  The installed
    row of a key is the sender's ciphertext and the wrapped data keys are the
    receiver's own; where the receiver's barrier does not open the ciphertext,
    the installed key answers with the barrier's error, although the snapshot
    was accepted and the sender reads the value. *)
Theorem snapshot_ships_foreign_ciphertext s s' br br' d d0 d' li lt key v c :
  barrier s = Some br -> barrier s' = Some br' -> BarrierLaws br ->
  encrypt br v = Ok c -> tx_get d TABLE_KV (encode_kv_key key) = Some c -> is_deleted d key = false ->
  decrypt br' c = Err Crypto ->
  import_snapshot_data s' (export_snapshot_data s d li lt) d0 = (Ok tt, d') ->
  get s d key = Ok (Some v) /\ get s' d' key = Err Crypto /\
  forall x, tx_get d' TABLE_META (DEK_ENCRYPTED_PREFIX ++ x) = tx_get d0 TABLE_META (DEK_ENCRYPTED_PREFIX ++ x).
Proof.
  intros Hs Hs' Hl Hc Hrow Hlive Hd Hin%import_export.
  pose proof (barrier_min_len v c Hc) as Hlen.
  assert (forall st bar e, barrier st = Some bar -> decrypt bar c = e -> plaintext_of st (encode_kv_key key) c = e) as Hp.
  { intros st bar e Hb <-. unfold plaintext_of, decrypt_value, encode_kv_key.
    destruct (bytes_eqb_spec c []) as [->|_]; [simpl in Hlen; lia|].
    rewrite starts_with_app, Hb. cbn [negb]. by rewrite (proj2 (Nat.leb_le _ _) Hlen). }
  split; [|split].
  - unfold get. rewrite Hrow, Hlive, (Hp s br _ Hs (barrier_roundtrip v c Hc)). done.
  - unfold get, is_deleted. unfold encode_kv_key at 1.
    rewrite (installed_agree s d d0 d' li lt Hin KV_PREFIX key ltac:(by left)).
    rewrite (installed_metadata s d d0 d' li lt Hin key). fold (encode_kv_key key) (is_deleted d key).
    rewrite Hrow, Hlive. by rewrite (Hp s' br' _ Hs' Hd).
  - intros x. apply (in_meta _ _ _ _ Hin). intros Hk.
    assert (forallb (diverge DEK_ENCRYPTED_PREFIX) [META_LAST_APPLIED; META_CURRENT_REVISION;
      META_COMPACT_REVISION; META_COMMIT_LOG_TRIMMED_BEFORE] = true) as Hf by (by vm_compute).
    rewrite forallb_forall in Hf. apply list_elem_of_In, Hf in Hk.
    apply (diverge_neq _ _ x []) in Hk. by rewrite app_nil_r in Hk.
Qed.
