(* ===== verification/LogStore.v ===== *)
(** * The Raft log

    [coord-server/src/raft/log_store.rs]: the log entries, the vote, the
    committed and the purged position of one Raft group, in a database of their
    own, with the guard of [storage/snapshot.rs] in front of a purge and the
    read barrier of [server/mod.rs] that compares the applied position with the
    log. *)

From S2P Require Export Envelope KeyedLog.

Local Open Scope Z_scope.

(** ** Data *)

(** [LogIdOf<TypeConfig>]: the leader (term and node) that proposed the entry and
    its index. *)
Record LogId := { leader_term : Z; leader_node : Z; log_index : Z }.

#[export] Instance LogId_eq_dec : EqDecision LogId.
Proof. solve_decision. Defined.

(** [Entry] of openraft; the payload is whatever was proposed. *)
Record Entry (Payload : Type) := { log_id : LogId; payload : Payload }.
Arguments log_id {Payload}.
Arguments payload {Payload}.

Record LogState := { last_log_id : option LogId; last_purged_log_id : option LogId }.

Definition KEY_VOTE : bytes := b "vote".
Definition KEY_COMMITTED : bytes := b "committed".
Definition KEY_LAST_PURGED : bytes := b "last_purged".

Definition index_key (i : Z) : bytes := be64 i.

(** [std::ops::Bound<u64>]. *)
Inductive Bound := Included (i : Z) | Excluded (i : Z) | Unbounded.

(** ** The guard of a purge ([SnapshotTracker]) *)

Record DurableSnapshot := { durable_index : Z; durable_term : Z; durable_path : bytes }.

Abbreviation SnapshotTracker := (option DurableSnapshot).

Definition record_durable (index term : Z) (path : bytes) (durable : SnapshotTracker) : SnapshotTracker :=
  let should_replace := match durable with Some d => durable_index d <=? index | None => true end in
  if should_replace then Some {| durable_index := index; durable_term := term; durable_path := path |}
  else durable.

(** [is_file] tells which snapshot files are on disk. *)
Definition durable_covers (is_file : bytes -> bool) (index : Z) (durable : SnapshotTracker) : bool :=
  match durable with
  | Some d => (index <=? durable_index d) && is_file (durable_path d)
  | None => false
  end.

(** ** Rows *)

Definition serialize {A : Type} {pc : Postcard A} (value : A) : result bytes :=
  ok_or (envelope_encode value) Storage.

Definition deserialize {A : Type} {pc : Postcard A} (data : bytes) : result A :=
  match envelope_decode data with
  | inl value => Ok value
  | inr _ => Err Storage
  end.

Definition read_meta {A : Type} {pc : Postcard A} (t : table) (key : bytes) (d : db) : result (option A) :=
  match tx_get d t key with
  | Some data => value ← deserialize data; Ok (Some value)
  | None => Ok None
  end.

Definition write_meta {A : Type} {pc : Postcard A} (t : table) (key : bytes) (value : A) (d : db)
    : result unit * db :=
  backend_write d (fun d => data ← serialize value; Ok (tt, tx_insert t key data d)).

Definition remove_meta (t : table) (key : bytes) (d : db) : result unit * db :=
  backend_write d (fun d => Ok (tt, tx_remove t key d)).

(** ** The store *)

Section log_store.
Context {Payload Vote : Type}.
Context {pe : Postcard (Entry Payload)} {pv : Postcard Vote} {pl : Postcard LogId}.

Definition check_entry_key (key : bytes) (entry : Entry Payload) : result unit :=
  guard_err (negb (bytes_eqb key (index_key (log_index (log_id entry))))) Storage.

(** The decoding of one row, shared by all readers. *)
Definition entry_of_row (key data : bytes) : result (Entry Payload) :=
  entry ← deserialize data;
  _ ← check_entry_key key entry;
  Ok entry.

Definition last_purged (d : db) : result (option LogId) :=
  read_meta TABLE_LAST_PURGED KEY_LAST_PURGED d.

Definition get_entry_at (index : Z) (d : db) : result (option (Entry Payload)) :=
  match tx_get d TABLE_LOG (index_key index) with
  | Some data => entry ← entry_of_row (index_key index) data; Ok (Some entry)
  | None => Ok None
  end.

Definition read_vote (d : db) : result (option Vote) := read_meta TABLE_VOTE KEY_VOTE d.
Definition read_committed (d : db) : result (option LogId) := read_meta TABLE_COMMITTED KEY_COMMITTED d.

Definition is_initialized (d : db) : result bool :=
  committed ← read_committed d;
  Ok (bool_decide (is_Some committed)).

(** [table.last()] is the greatest row of the tree. *)
Definition get_log_state (d : db) : result LogState :=
  purged ← last_purged d;
  last ← match last (table_rows d TABLE_LOG) with
         | Some (k, v) => entry ← entry_of_row k v; Ok (Some (log_id entry))
         | None => Ok None
         end;
  Ok {| last_log_id := match last with Some l => Some l | None => purged end;
        last_purged_log_id := purged |}.

Definition has_prior_state (d : db) : result bool :=
  initialized ← is_initialized d;
  if (initialized : bool) then Ok true
  else
    vote ← read_vote d;
    if bool_decide (is_Some (vote : option Vote)) then Ok true
    else
      state ← get_log_state d;
      Ok (bool_decide (is_Some (last_log_id state))).

(** [for idx in start.. { .. }]: an index that overflows wraps, as in a release
    build.  One more turn than there are rows is always enough. *)
Fixpoint get_loop (fuel : nat) (idx : Z) (end_ : option Z) (d : db) : result (list (Entry Payload)) :=
  match fuel with
  | O => Err Panic
  | S fuel =>
    if match end_ with Some end_idx => end_idx <? idx | None => false end then Ok []
    else
      match tx_get d TABLE_LOG (index_key idx) with
      | Some data =>
        entry ← entry_of_row (index_key idx) data;
        rest ← get_loop fuel (u64_wrap (idx + 1)) end_ d;
        Ok (entry :: rest)
      | None => Ok []
      end
  end.

Definition try_get_log_entries (start_bound end_bound : Bound) (d : db) : result (list (Entry Payload)) :=
  let start := match start_bound with Included i => i | Excluded i => u64_wrap (i + 1) | Unbounded => 0 end in
  let end_ := match end_bound with
              | Included i => Some i
              | Excluded i => Some (u64_saturating_sub i 1)
              | Unbounded => None
              end in
  get_loop (S (size d)) start end_ d.

(** One write transaction; the callback of openraft runs after the commit. *)
Fixpoint append_loop (entries : list (Entry Payload)) (d : db) : result (unit * db) :=
  match entries with
  | [] => Ok (tt, d)
  | entry :: rest =>
    data ← serialize entry;
    append_loop rest (tx_insert TABLE_LOG (index_key (log_index (log_id entry))) data d)
  end.

Definition append (entries : list (Entry Payload)) (d : db) : result unit * db :=
  backend_write d (append_loop entries).

Fixpoint truncate_loop (fuel : nat) (idx : Z) (d : db) : result (unit * db) :=
  match fuel with
  | O => Err Panic
  | S fuel =>
    match tx_get d TABLE_LOG (index_key idx) with
    | Some _ => truncate_loop fuel (u64_wrap (idx + 1)) (tx_remove TABLE_LOG (index_key idx) d)
    | None => Ok (tt, d)
    end
  end.

Definition truncate_after (last : option LogId) (d : db) : result unit * db :=
  let start_idx := match last with Some lid => u64_saturating_add (log_index lid) 1 | None => 0 end in
  backend_write d (truncate_loop (S (size d)) start_idx).

Definition purge (tracker : option SnapshotTracker) (is_file : bytes -> bool) (lid : LogId) (d : db)
    : result unit * db :=
  if match tracker with Some t => negb (durable_covers is_file (log_index lid) t) | None => false end
  then (Err Storage, d)
  else backend_write d (fun d =>
    let d := foldl (fun d idx => tx_remove TABLE_LOG (index_key idx) d) d (seqZ 0 (log_index lid + 1)) in
    data ← serialize lid;
    Ok (tt, tx_insert TABLE_LAST_PURGED KEY_LAST_PURGED data d)).

Definition save_vote (vote : Vote) (d : db) : result unit * db := write_meta TABLE_VOTE KEY_VOTE vote d.

Definition save_committed (committed : option LogId) (d : db) : result unit * db :=
  match committed with
  | Some lid => write_meta TABLE_COMMITTED KEY_COMMITTED lid d
  | None => remove_meta TABLE_COMMITTED KEY_COMMITTED d
  end.

(** ** The read barrier

    [ensure_linearizable_barrier] after ReadIndex has answered: what the metrics
    of the Raft core say, against the log. *)

Record RaftMetrics := {
  is_leader : bool;
  local_committed : option LogId;
  last_applied_id : option LogId }.

Inductive ReadStatus := Served | Unavailable | DeadlineExceeded | InternalStatus.

(** The outcome of [raft.ensure_linearizable]. *)
Inductive ReadIndexOutcome := ReadIndexOk | ReadIndexTimeout | ForwardToLeader | ReadIndexFailed.

Definition phantom_check (applied : LogId) (d : db) : ReadStatus :=
  let covered_by_snapshot :=
    match last_purged d with
    | Ok (Some purged) => log_index applied <=? log_index purged
    | _ => false
    end in
  if covered_by_snapshot then Served
  else
    match get_entry_at (log_index applied) d with
    | Ok (Some entry) => if decide (log_id entry = applied) then Served else Unavailable
    | Ok None => Unavailable
    | Err _ => InternalStatus
    end.

Definition after_read_index (m : RaftMetrics) (log : option db) : ReadStatus :=
  if negb (is_leader m) then Unavailable
  else
    let ahead := match last_applied_id m, local_committed m with
                 | Some applied, Some committed => log_index committed <? log_index applied
                 | _, _ => false
                 end in
    if ahead then Unavailable
    else
      match last_applied_id m, log with
      | Some applied, Some d => phantom_check applied d
      | _, _ => Served
      end.

Definition ensure_linearizable_barrier (raft : option (ReadIndexOutcome * RaftMetrics)) (log : option db)
    : ReadStatus :=
  match raft with
  | None => Served
  | Some (ReadIndexTimeout, _) => DeadlineExceeded
  | Some (ForwardToLeader, _) => Unavailable
  | Some (ReadIndexFailed, _) => InternalStatus
  | Some (ReadIndexOk, m) => after_read_index m log
  end.

End log_store.
