(* ===== verification/LogStoreRefine.v ===== *)
(** * What the Raft log promises, and that it keeps it

    The contract of openraft's [RaftLogStorage]: a run of consecutive entries
    above the purged position, a vote and a committed position.  The rows of
    [LogStore] represent the abstract log; every write, called as the contract
    allows, simulates its operation and the reads return it. *)

From S2P Require Export LogStore MvccFacts SysRows.

Local Open Scope Z_scope.

Section spec.
Context {Payload Vote : Type}.
Abbreviation entry := (Entry Payload).

Record LogSpec := {
  ls_purged : option LogId;
  ls_entries : list entry;
  ls_vote : option Vote;
  ls_committed : option LogId }.

Definition empty_log : LogSpec :=
  {| ls_purged := None; ls_entries := []; ls_vote := None; ls_committed := None |}.

Definition entry_index (e : entry) : Z := log_index (log_id e).

(** The first index the log can still hold, and the one the next entry gets. *)
Definition first_index (st : LogSpec) : Z :=
  match ls_purged st with Some p => log_index p + 1 | None => 0 end.
Definition next_index (st : LogSpec) : Z := first_index st + Z.of_nat (length (ls_entries st)).

Definition consecutive (from : Z) (l : list entry) : Prop :=
  entry_index <$> l = seqZ from (Z.of_nat (length l)).

Record raft_log_ok (st : LogSpec) : Prop := {
  lo_first : 0 <= first_index st;
  lo_consecutive : consecutive (first_index st) (ls_entries st);
  lo_bound : next_index st <= u64_max }.

Inductive LogOp :=
  | Append (entries : list entry)
  | TruncateAfter (last : option LogId)
  | Purge (lid : LogId)
  | SaveVote (vote : Vote)
  | SaveCommitted (committed : option LogId).

(** What openraft may ask for: appends continue the log, a truncation or a purge
    does not reach below the purged position. *)
Definition allowed (st : LogSpec) (op : LogOp) : Prop :=
  match op with
  | Append es => consecutive (next_index st) es /\ next_index st + Z.of_nat (length es) <= u64_max
  | TruncateAfter (Some lid) => first_index st <= log_index lid + 1 <= u64_max
  | TruncateAfter None => ls_purged st = None
  | Purge lid => first_index st <= log_index lid + 1 <= u64_max /\ 0 <= log_index lid
  | SaveVote _ | SaveCommitted _ => True
  end.

Definition with_entries (st : LogSpec) (l : list entry) : LogSpec :=
  {| ls_purged := ls_purged st; ls_entries := l; ls_vote := ls_vote st; ls_committed := ls_committed st |}.

Definition spec_op (st : LogSpec) (op : LogOp) : LogSpec :=
  match op with
  | Append es => with_entries st (ls_entries st ++ es)
  | TruncateAfter (Some lid) =>
    with_entries st (List.filter (fun e => entry_index e <=? log_index lid) (ls_entries st))
  | TruncateAfter None => with_entries st []
  | Purge lid =>
    {| ls_purged := Some lid;
       ls_entries := List.filter (fun e => log_index lid <? entry_index e) (ls_entries st);
       ls_vote := ls_vote st; ls_committed := ls_committed st |}
  | SaveVote v =>
    {| ls_purged := ls_purged st; ls_entries := ls_entries st; ls_vote := Some v;
       ls_committed := ls_committed st |}
  | SaveCommitted c =>
    {| ls_purged := ls_purged st; ls_entries := ls_entries st; ls_vote := ls_vote st;
       ls_committed := c |}
  end.

(** The entry at an index, and the entries the log holds in a range. *)
Definition entry_at (st : LogSpec) (i : Z) : option entry :=
  List.find (fun e => entry_index e =? i) (ls_entries st).

Definition entries_in (st : LogSpec) (start : Z) (end_ : option Z) : list entry :=
  List.filter (fun e => (start <=? entry_index e)
    && match end_ with Some z => entry_index e <=? z | None => true end) (ls_entries st).

(** A range as openraft means it: the first index and the last one. *)
Definition bound_start (x : Bound) : Z :=
  match x with Included i => i | Excluded i => i + 1 | Unbounded => 0 end.
Definition bound_end (x : Bound) : option Z :=
  match x with Included i => Some i | Excluded i => Some (i - 1) | Unbounded => None end.
Definition bounds_u64 (sb eb : Bound) : Prop :=
  in_u64 (bound_start sb) /\ match sb with Excluded i => 0 <= i | _ => True end /\
  match eb with Excluded i | Included i => in_u64 i | Unbounded => True end.

(** ** Consecutive entries *)

Lemma consecutive_cons from e l :
  consecutive from (e :: l) <-> entry_index e = from /\ consecutive (from + 1) l.
Proof.
  unfold consecutive. cbn [length]. rewrite fmap_cons, Nat2Z.inj_succ, seqZ_cons by lia.
  replace (Z.pred (Z.succ (Z.of_nat (length l)))) with (Z.of_nat (length l)) by lia.
  replace (Z.succ from) with (from + 1) by lia. split; [by intros [= -> ->]|by intros [-> ->]].
Qed.

Lemma consecutive_app from l l' :
  consecutive from (l ++ l') <-> consecutive from l /\ consecutive (from + Z.of_nat (length l)) l'.
Proof.
  revert from. induction l as [|e l IH]; intros from; cbn [app length].
  - replace (from + Z.of_nat 0) with from by lia. split; [by intros ?|by intros [_ ?]].
  - rewrite !consecutive_cons, IH. replace (from + Z.of_nat (S (length l))) with (from + 1 + Z.of_nat (length l)) by lia.
    tauto.
Qed.

Lemma consecutive_range from l e : consecutive from l -> e ∈ l -> from <= entry_index e < from + Z.of_nat (length l).
Proof.
  intros Hc He. apply (list_elem_of_fmap_2 entry_index) in He. rewrite Hc, elem_of_seqZ in He. lia.
Qed.

Lemma consecutive_keyed from l :
  0 <= from -> from + Z.of_nat (length l) <= u64_max + 1 -> consecutive from l -> keyed_ok entry_index l.
Proof.
  revert from. induction l as [|e l IH]; intros from Hf Hb Hc; [split; constructor|].
  apply consecutive_cons in Hc as [He Hc]. cbn [length] in Hb.
  destruct (IH (from + 1)) as [H1 H2]; [lia|lia|done|]. split.
  - constructor; [unfold in_u64; unfold u64_max in Hb; lia|done].
  - constructor; [done|]. rewrite Forall_forall. intros e' He'. pose proof (consecutive_range _ _ _ Hc He'). lia.
Qed.

(** The entries up to an index and those above it. *)
Lemma consecutive_split from l i :
  consecutive from l -> from <= i + 1 ->
  exists l1 l2, l = l1 ++ l2 /\ List.filter (fun e => entry_index e <=? i) l = l1 /\
    List.filter (fun e => i <? entry_index e) l = l2 /\ consecutive from l1 /\
    (l2 <> [] -> from + Z.of_nat (length l1) = i + 1) /\ from + Z.of_nat (length l1) <= i + 1.
Proof.
  revert from. induction l as [|e l IH]; intros from Hc Hi.
  { exists [], []. repeat split; try done. simpl. lia. }
  apply consecutive_cons in Hc as [He Hc]. destruct (decide (from <= i)) as [Hle|Hgt].
  - destruct (IH (from + 1)) as (l1 & l2 & -> & E1 & E2 & H1 & H2 & H3); [done|lia|].
    exists (e :: l1), l2. cbn [List.filter]. rewrite He, (proj2 (Z.leb_le _ _) Hle).
    rewrite (proj2 (Z.ltb_ge _ _) Hle), E1, E2. split; [done|]. split; [done|]. split; [done|].
    split; [by apply consecutive_cons|]. cbn [length]. split; [intros Hn; specialize (H2 Hn); lia|lia].
  - assert (Forall (fun x => i < entry_index x) (e :: l)) as Hall.
    { rewrite Forall_forall. intros x [->|Hx]%elem_of_cons; [lia|].
      pose proof (consecutive_range _ _ _ Hc Hx). lia. }
    exists [], (e :: l). split; [done|].
    assert (forall l', Forall (fun x => i < entry_index x) l' ->
      List.filter (fun e => entry_index e <=? i) l' = [] /\ List.filter (fun e => i <? entry_index e) l' = l') as Hf.
    { intros l'. induction 1 as [|x l' Hx _ [IH1 IH2]]; [done|]. cbn [List.filter].
      rewrite (proj2 (Z.leb_gt _ _) Hx), (proj2 (Z.ltb_lt _ _) Hx). by rewrite IH1, IH2. }
    destruct (Hf _ Hall) as [-> ->]. repeat split; try done; simpl; lia.
Qed.

Lemma find_consecutive from l i :
  consecutive from l -> from <= i ->
  List.find (fun e => entry_index e =? i) l = l !! Z.to_nat (i - from).
Proof.
  revert from. induction l as [|e l IH]; intros from Hc Hi; [done|].
  apply consecutive_cons in Hc as [He Hc]. cbn [List.find]. destruct (Z.eqb_spec (entry_index e) i) as [E|E].
  - replace (i - from) with 0 by lia. done.
  - rewrite (IH (from + 1)) by (done || lia).
    replace (Z.to_nat (i - from)) with (S (Z.to_nat (i - (from + 1)))) by lia. done.
Qed.

Lemma entry_at_elem st e : raft_log_ok st -> e ∈ ls_entries st -> entry_at st (entry_index e) = Some e.
Proof.
  intros [_ Hc _] He. pose proof (consecutive_range _ _ _ Hc He) as Hr. unfold entry_at.
  rewrite (find_consecutive (first_index st)) by (done || lia).
  apply list_elem_of_lookup in He as [n Hn]. rewrite <-Hn. f_equal.
  assert (seqZ (first_index st) (Z.of_nat (length (ls_entries st))) !! n = Some (entry_index e)) as E.
  { rewrite <-Hc, list_lookup_fmap. by rewrite Hn. }
  apply lookup_seqZ in E as [E _]. lia.
Qed.

Lemma next_index_app st es : next_index (with_entries st (ls_entries st ++ es)) = next_index st + Z.of_nat (length es).
Proof. unfold next_index, first_index. simpl. rewrite length_app. lia. Qed.

(** The operations keep the log consecutive. *)
Lemma spec_op_ok st op : raft_log_ok st -> allowed st op -> raft_log_ok (spec_op st op).
Proof.
  intros [H1 H2 H3] Ha. destruct op as [es|[lid|]|lid|v|c]; simpl in Ha; cbn [spec_op].
  - split; [done| |rewrite next_index_app; lia]. apply consecutive_app. split; [done|apply Ha].
  - destruct (consecutive_split _ _ (log_index lid) H2) as (l1 & l2 & E & E1 & _ & Hc & _ & _); [lia|].
    split; [done| |]; unfold next_index in *; simpl; fold (first_index st); rewrite E1; [done|].
    change (first_index (with_entries st l1)) with (first_index st).
    rewrite E, length_app in H3. lia.
  - split; [done|by apply (consecutive_app _ [] (ls_entries st)) in H2|]. unfold next_index in *. simpl.
    change (first_index (with_entries st [])) with (first_index st). lia.
  - destruct (consecutive_split _ _ (log_index lid) H2) as (l1 & l2 & E & _ & E2 & Hc & Hn & Hle); [lia|].
    rewrite E in H2. apply consecutive_app in H2 as [_ H2]. unfold next_index in H3.
    split; unfold next_index, first_index in *; simpl; rewrite ?E2; [lia| |].
    + destruct l2 as [|e l2]; [done|]. by rewrite Hn in H2.
    + destruct l2 as [|e l2]; [simpl; lia|]. rewrite E, length_app in H3. rewrite <-Hn by done. lia.
  - by split.
  - by split.
Qed.

End spec.

(** ** The store implements the contract *)

Definition enveloped {A : Type} {pc : Postcard A} (v : A) : bytes := default [] (envelope_encode v).

Section codec.
Context {A : Type} {pc : Postcard A} {pl : PostcardLaws A}.

Lemma serialize_ok (v : A) : serialize v = Ok (enveloped v).
Proof. unfold serialize, enveloped. by destruct (encode_total v) as [x ->]. Qed.

Lemma deserialize_ok (v : A) : deserialize (enveloped v) = Ok v.
Proof.
  unfold deserialize, enveloped. destruct (encode_total v) as [x E]. rewrite E. simpl.
  apply decode_ok_encode in E. unfold decode_ok in E. destruct (envelope_decode x); [|done]. by injection E as ->.
Qed.

Lemma read_meta_ok t k d (o : option A) : tx_get d t k = enveloped <$> o -> read_meta t k d = Ok o.
Proof. unfold read_meta. intros ->. destruct o as [v|]; [|done]. cbn. by rewrite deserialize_ok. Qed.

Lemma write_meta_ok t k (v : A) d : write_meta t k v d = (Ok tt, tx_insert t k (enveloped v) d).
Proof. unfold write_meta, backend_write. by rewrite serialize_ok. Qed.

End codec.

Section refine.
Context {Payload Vote : Type}.
Context {pe : Postcard (Entry Payload)} {pv : Postcard Vote} {pl : Postcard LogId}.
Context {ple : PostcardLaws (Entry Payload)} {plv : PostcardLaws Vote} {pll : PostcardLaws LogId}.
Abbreviation spec := (LogSpec (Payload := Payload) (Vote := Vote)).
Abbreviation entry := (Entry Payload).

Definition log_rows_of (d : db) : list row := iter_prefix d TABLE_LOG [].
Definition raft_row (e : entry) : row := keyed_row [] entry_index enveloped e.

Record log_rep (d : db) (st : spec) : Prop := {
  rp_entries : log_rows_of d = raft_row <$> ls_entries st;
  rp_vote : tx_get d TABLE_VOTE KEY_VOTE = enveloped <$> ls_vote st;
  rp_committed : tx_get d TABLE_COMMITTED KEY_COMMITTED = enveloped <$> ls_committed st;
  rp_purged : tx_get d TABLE_LAST_PURGED KEY_LAST_PURGED = enveloped <$> ls_purged st }.

Lemma log_keyed (st : spec) : raft_log_ok st -> keyed_ok entry_index (ls_entries st).
Proof.
  intros [H1 H2 H3]. eapply consecutive_keyed; [exact H1| |exact H2]. unfold next_index in H3. lia.
Qed.

Lemma log_get d st i :
  log_rep d st -> raft_log_ok st -> in_u64 i -> tx_get d TABLE_LOG (index_key i) = enveloped <$> entry_at st i.
Proof.
  intros Hr Hok Hi. exact (keyed_lookup TABLE_LOG [] entry_index enveloped d _ i Hi (proj1 (log_keyed st Hok)) (rp_entries _ _ Hr)).
Qed.

Lemma entry_of_row_ok (e : entry) i :
  entry_index e = i -> entry_of_row (index_key i) (enveloped e) = Ok e.
Proof.
  intros <-. unfold entry_of_row, check_entry_key. rewrite deserialize_ok. cbn [mbind result_bind].
  unfold entry_index. by destruct (bytes_eqb_spec (index_key (log_index (log_id e))) (index_key (log_index (log_id e)))).
Qed.

Lemma entry_at_index (st : spec) i e : entry_at st i = Some e -> entry_index e = i /\ e ∈ ls_entries st.
Proof. intros [He E%Z.eqb_eq]%List.find_some. by rewrite list_elem_of_In. Qed.

(** ** Reads *)

Lemma get_entry_at_ok d st i :
  log_rep d st -> raft_log_ok st -> in_u64 i -> get_entry_at i d = Ok (entry_at st i).
Proof.
  intros Hr Hok Hi. unfold get_entry_at. rewrite (log_get d st i Hr Hok Hi).
  destruct (entry_at st i) as [e|] eqn:E; [|done]. apply entry_at_index in E as [E _]. cbn.
  by rewrite entry_of_row_ok.
Qed.

Lemma get_log_state_ok d st :
  log_rep d st -> raft_log_ok st ->
  get_log_state (Payload := Payload) d = Ok {|
    last_log_id := match last (ls_entries st) with Some e => Some (log_id e) | None => ls_purged st end;
    last_purged_log_id := ls_purged st |}.
Proof.
  intros Hr Hok. unfold get_log_state, last_purged. rewrite (read_meta_ok _ _ _ _ (rp_purged _ _ Hr)). cbn.
  assert (table_rows d TABLE_LOG = raft_row <$> ls_entries st) as ->.
  { rewrite <-(rp_entries _ _ Hr). unfold log_rows_of. rewrite iter_prefix_filter.
    symmetry. apply filter_all.
    intros r _. apply starts_with_spec. by exists r.1. }
  rewrite fmap_last. destruct (last (ls_entries st)) as [e|]; [|done]. cbn [fmap option_fmap option_map].
  unfold raft_row, keyed_row. cbn [app]. change (be64 (entry_index e)) with (index_key (entry_index e)).
  by rewrite entry_of_row_ok.
Qed.

Lemma get_loop_ok d fuel idx end_ (l : list entry) :
  (length l < fuel)%nat -> 0 <= idx -> idx + Z.of_nat (length l) <= u64_max -> consecutive idx l ->
  Forall (fun e => tx_get d TABLE_LOG (index_key (entry_index e)) = Some (enveloped e)) l ->
  tx_get d TABLE_LOG (index_key (idx + Z.of_nat (length l))) = None ->
  get_loop fuel idx end_ d =
  Ok (List.filter (fun e => match end_ with Some z => entry_index e <=? z | None => true end) l).
Proof.
  revert idx l. induction fuel as [|fuel IH]; intros idx l Hf Hi Hb Hc Hrows Hend; [lia|]. cbn [get_loop].
  destruct l as [|e l].
  { cbn [length] in Hend. rewrite Z.add_0_r in Hend. rewrite Hend. destruct end_ as [z|]; [by destruct (z <? idx)|done]. }
  pose proof (proj1 (consecutive_cons idx e l) Hc) as [He Hc']. apply Forall_cons in Hrows as [Hrow Hrows].
  cbn [length] in *.
  destruct (match end_ with Some end_idx => end_idx <? idx | None => false end) eqn:Estop.
  - destruct end_ as [z|]; [|done]. apply Z.ltb_lt in Estop. symmetry. f_equal.
    apply filter_none. intros x Hx.
    pose proof (consecutive_range _ _ _ Hc Hx). apply Z.leb_gt. lia.
  - rewrite He in Hrow. rewrite Hrow, entry_of_row_ok by done. cbn [mbind result_bind].
    rewrite u64_wrap_id by (unfold in_u64, u64_max in *; lia).
    rewrite (IH (idx + 1) l); [|lia|lia|lia|done|done|].
    + cbn [mbind result_bind List.filter]. rewrite He.
      replace (match end_ with Some z => idx <=? z | None => true end) with true; [done|].
      destruct end_ as [z|]; [|done]. apply Z.ltb_ge in Estop. symmetry. by apply Z.leb_le.
    + rewrite <-Hend. do 2 f_equal. lia.
Qed.

(** The entries from an index on are the suffix the loop walks. *)
Lemma suffix_rows d st start :
  log_rep d st -> raft_log_ok st -> in_u64 start -> first_index st <= start ->
  let l := List.filter (fun e => start <=? entry_index e) (ls_entries st) in
  (length l < S (size d))%nat /\ start + Z.of_nat (length l) <= u64_max /\ consecutive start l /\
  Forall (fun e => tx_get d TABLE_LOG (index_key (entry_index e)) = Some (enveloped e)) l /\
  tx_get d TABLE_LOG (index_key (start + Z.of_nat (length l))) = None.
Proof.
  intros Hr Hok Hs Hf l. pose proof Hok as [H1 H2 H3]. unfold next_index in H3.
  destruct (consecutive_split _ _ (start - 1) H2) as (l1 & l2 & E & _ & E2 & Hc1 & Hn & Hle); [lia|].
  replace l with l2 by (rewrite <-E2; apply List.filter_ext; intros e;
    destruct (Z.leb_spec start (entry_index e)), (Z.ltb_spec (start - 1) (entry_index e)); (done || lia)).
  rewrite E in H2. apply consecutive_app in H2 as [_ Hc2]. rewrite E, length_app in H3.
  assert (l2 = [] \/ first_index st + Z.of_nat (length l1) = start) as Hcase.
  { destruct l2; [by left|right]. rewrite Hn by done. lia. }
  assert (consecutive start l2) as Hc.
  { destruct Hcase as [->|Hst]; [done|]. by rewrite <-Hst. }
  assert (start + Z.of_nat (length l2) <= u64_max) as Hb.
  { destruct Hcase as [->|Hst]; [unfold in_u64, u64_max in *; simpl; lia|lia]. }
  assert (forall e, e ∈ l2 -> e ∈ ls_entries st) as Hsub by (intros e He; rewrite E; apply elem_of_app; by right).
  split; [|split; [done|split; [done|split]]].
  - pose proof (length_iter_prefix d TABLE_LOG []) as Hl. fold (log_rows_of d) in Hl.
    rewrite (rp_entries _ _ Hr), length_fmap, E, length_app in Hl. lia.
  - rewrite Forall_forall. intros e He. pose proof (proj1 (log_keyed st Hok)) as Hu. rewrite Forall_forall in Hu.
    pose proof (Hsub e He) as Hin. pose proof (Hu e Hin) as Hue. rewrite (log_get d st) by done.
    by rewrite entry_at_elem.
  - rewrite (log_get d st) by (done || (unfold in_u64, u64_max in *; lia)). unfold entry_at.
    destruct (List.find _ _) as [e|] eqn:Ef; [|done]. exfalso.
    apply List.find_some in Ef as [He Ee%Z.eqb_eq]. rewrite <-list_elem_of_In, E in He.
    apply elem_of_app in He as [He|He].
    + pose proof (consecutive_range _ _ _ Hc1 He). lia.
    + pose proof (consecutive_range _ _ _ Hc He). lia.
Qed.

Lemma bound_start_wrap sb eb : bounds_u64 sb eb ->
  match sb with Included i => i | Excluded i => u64_wrap (i + 1) | Unbounded => 0 end = bound_start sb.
Proof. intros (H1 & H2 & _). destruct sb; [done|simpl in *; by rewrite u64_wrap_id|done]. Qed.

(** A range that starts in the log, other than [0..0]. *)
Lemma try_get_ok d st sb eb :
  log_rep d st -> raft_log_ok st -> bounds_u64 sb eb -> first_index st <= bound_start sb ->
  bound_start sb <> 0 \/ bound_end eb <> Some (-1) ->
  try_get_log_entries sb eb d = Ok (entries_in st (bound_start sb) (bound_end eb)).
Proof.
  intros Hr Hok Hb Hge H0. unfold try_get_log_entries. rewrite (bound_start_wrap sb eb Hb). destruct Hb as (Hs & _ & He).
  set (end_ := match eb with Included i => _ | _ => _ end). unfold entries_in.
  destruct (suffix_rows d st _ Hr Hok Hs Hge) as (G1 & G2 & G3 & G4 & G5).
  rewrite (get_loop_ok d _ _ end_ _ G1 (proj1 Hs) G2 G3 G4 G5), filter_filter_and. f_equal.
  apply List.filter_ext. intros e. subst end_. destruct eb as [i|i|]; [done| |done].
  unfold u64_saturating_sub, in_u64 in *. cbn [bound_end] in *.
  destruct (Z.leb_spec (bound_start sb) (entry_index e)); [|done]. cbn [andb].
  assert (bound_start sb <> 0 \/ 0 <= i - 1) by (destruct H0 as [?|H0]; [by left|right; destruct (decide (i = 0)) as [->|]; [done|lia]]).
  destruct (Z.leb_spec (entry_index e) (Z.max 0 (i - 1))), (Z.leb_spec (entry_index e) (i - 1)); (done || lia).
Qed.

(** A range that starts in the purged prefix: the first row is missing. *)
Lemma try_get_purged d st sb eb :
  log_rep d st -> raft_log_ok st -> bounds_u64 sb eb -> bound_start sb < first_index st ->
  try_get_log_entries sb eb d = Ok [].
Proof.
  intros Hr Hok Hb Hlt. unfold try_get_log_entries. rewrite (bound_start_wrap sb eb Hb). destruct Hb as (Hs & _ & _).
  set (end_ := match eb with Included i => _ | _ => _ end). cbn [get_loop].
  destruct (match end_ with Some _ => _ | None => _ end); [done|].
  rewrite (log_get d st) by done. unfold entry_at. destruct (List.find _ _) as [e|] eqn:Ef; [|done]. exfalso.
  apply List.find_some in Ef as [Hin Ee%Z.eqb_eq]. rewrite <-list_elem_of_In in Hin.
  pose proof (consecutive_range _ _ _ (lo_consecutive _ Hok) Hin). lia.
Qed.

(** The excluded end of [0..0] saturates to 0. *)
Lemma try_get_zero d st sb eb :
  log_rep d st -> raft_log_ok st -> bound_start sb = 0 -> bound_end eb = Some (-1) -> bounds_u64 sb eb ->
  try_get_log_entries sb eb d = Ok (option_list (entry_at st 0)).
Proof.
  intros Hr Hok H0 H1 Hb. unfold try_get_log_entries. rewrite (bound_start_wrap sb eb Hb), H0.
  assert (eb = Excluded 0) as ->.
  { destruct Hb as (_ & _ & He). unfold in_u64 in He. destruct eb as [i|i|]; cbn in H1; [|f_equal|done]; injection H1; lia. }
  change (u64_saturating_sub 0 1) with 0. cbn [get_loop Z.ltb Z.compare].
  rewrite (log_get d st 0 Hr Hok) by (by vm_compute). destruct (entry_at st 0) as [e|] eqn:He; [|done].
  pose proof (entry_at_index st 0 e He) as [Hi _]. cbn [fmap option_fmap option_map].
  rewrite entry_of_row_ok by done. cbn [mbind result_bind]. destruct (size d) as [|n] eqn:Hz; [|done].
  apply map_size_empty_inv in Hz as ->. pose proof (log_get ∅ st 0 Hr Hok ltac:(by vm_compute)) as E.
  rewrite He in E. unfold tx_get in E. by rewrite lookup_empty in E.
Qed.

(** ** Writes *)

(** The other tables are not touched. *)
Definition only_log (d d' : db) : Prop := forall t, t <> TABLE_LOG -> same_table t d' d.

#[local] Instance only_log_preorder : PreOrder only_log.
Proof. split; [done|]. intros d1 d2 d3 H1 H2 t Ht k. by rewrite H2, H1. Qed.

Lemma log_rep_entries d d' (st : spec) l :
  only_log d d' -> log_rows_of d' = raft_row <$> l -> log_rep d st -> log_rep d' (with_entries st l).
Proof. intros Ho Hl [_ H2 H3 H4]. by split; [done|rewrite Ho..]. Qed.

Lemma append_loop_ok d (l es : list entry) :
  keyed_ok entry_index (l ++ es) -> log_rows_of d = raft_row <$> l ->
  exists d', append_loop es d = Ok (tt, d') /\ log_rows_of d' = raft_row <$> (l ++ es) /\ only_log d d'.
Proof.
  revert d l. induction es as [|e es IH]; intros d l Hk Hl; cbn [append_loop].
  { exists d. by rewrite app_nil_r. }
  rewrite serialize_ok. cbn [mbind result_bind].
  replace (l ++ e :: es) with ((l ++ [e]) ++ es) in * by (by rewrite <-app_assoc).
  pose proof Hk as [Hu Hs]. apply Forall_app in Hu as [Hu _]. apply StronglySorted_app_1_l in Hs as Hs'.
  assert (keyed_ok entry_index l) as Hkl.
  { split; [by apply Forall_app in Hu as [? _]|by apply StronglySorted_app_1_l in Hs']. }
  destruct (IH (tx_insert TABLE_LOG (index_key (log_index (log_id e))) (enveloped e) d) (l ++ [e])) as (d' & E & Hl' & Ho).
  - done.
  - apply (keyed_append TABLE_LOG [] entry_index enveloped d l e); [done| | |done].
    + rewrite Forall_app, Forall_singleton in Hu. apply Hu.
    + rewrite Forall_forall. intros a Ha. apply StronglySorted_app in Hs' as (Hc & _). apply Hc; [done|by left].
  - exists d'. split; [done|]. split; [done|]. etrans; [|exact Ho]. intros t Ht. by apply same_table_insert.
Qed.

Lemma truncate_loop_ok d fuel idx (l0 l : list entry) :
  (length l < fuel)%nat -> 0 <= idx -> idx + Z.of_nat (length l) <= u64_max ->
  keyed_ok entry_index (l0 ++ l) -> Forall (fun e => entry_index e < idx) l0 -> consecutive idx l ->
  log_rows_of d = raft_row <$> (l0 ++ l) ->
  exists d', truncate_loop fuel idx d = Ok (tt, d') /\ log_rows_of d' = raft_row <$> l0 /\ only_log d d'.
Proof.
  revert d idx l. induction fuel as [|fuel IH]; intros d idx l Hf Hi Hb Hk Hlt Hc Hl; [lia|].
  assert (in_u64 idx) as Hu by (unfold in_u64, u64_max in *; lia). cbn [truncate_loop].
  rewrite (keyed_lookup TABLE_LOG [] entry_index enveloped d _ idx Hu (proj1 Hk) Hl : tx_get d TABLE_LOG (index_key idx) = _).
  assert (forall l', List.find (fun a => entry_index a =? idx) (l0 ++ l') = List.find (fun a => entry_index a =? idx) l') as Hfind.
  { intros l'. clear -Hlt. induction Hlt as [|a l0 Ha _ IH]; [done|]. cbn [app List.find].
    destruct (Z.eqb_spec (entry_index a) idx); [lia|done]. }
  rewrite Hfind. destruct l as [|e l].
  { exists d. rewrite app_nil_r in Hl. done. }
  apply consecutive_cons in Hc as [He Hc]. cbn [List.find length] in *. rewrite (proj2 (Z.eqb_eq _ _) He).
  cbn [fmap option_fmap option_map]. rewrite u64_wrap_id by (unfold in_u64, u64_max in *; lia).
  assert (List.filter (fun a => negb (entry_index a =? idx)) (l0 ++ e :: l) = l0 ++ l) as Hfil.
  { rewrite List.filter_app. cbn [List.filter]. rewrite (proj2 (Z.eqb_eq _ _) He). cbn [negb].
    f_equal; apply filter_all; intros a Ha; apply negb_true_iff, Z.eqb_neq.
    - rewrite Forall_forall in Hlt. specialize (Hlt a Ha). lia.
    - pose proof (consecutive_range _ _ _ Hc Ha). lia. }
  pose proof (keyed_delete TABLE_LOG [] entry_index enveloped d _ idx Hu Hk Hl) as Hdel.
  pose proof (keyed_ok_filter entry_index (fun a => negb (entry_index a =? idx)) _ Hk) as Hk'.
  rewrite Hfil in Hdel, Hk'.
  destruct (IH (tx_remove TABLE_LOG (index_key idx) d) (idx + 1) l) as (d' & E & Hl' & Ho); [lia|lia|lia|done| |done|done|].
  { eapply Forall_impl; [exact Hlt|]. intros a Ha. simpl in *. lia. }
  exists d'. split; [done|]. split; [done|]. etrans; [|exact Ho]. intros t Ht. by apply same_table_remove.
Qed.

Lemma purge_loop_ok d ks (l : list entry) :
  Forall in_u64 ks -> keyed_ok entry_index l -> log_rows_of d = raft_row <$> l ->
  let d' := foldl (fun d idx => tx_remove TABLE_LOG (index_key idx) d) d ks in
  log_rows_of d' = raft_row <$> List.filter (fun e => negb (bool_decide (entry_index e ∈ ks))) l /\ only_log d d'.
Proof.
  revert d l. induction ks as [|k ks IH]; intros d l Hks Hk Hl; cbn [foldl].
  { split; [|done]. rewrite filter_all; [done|]. intros e _. rewrite bool_decide_eq_false_2; [done|]. apply not_elem_of_nil. }
  apply Forall_cons in Hks as [Hu Hks].
  pose proof (keyed_delete TABLE_LOG [] entry_index enveloped d l k Hu Hk Hl) as Hdel.
  destruct (IH (tx_remove TABLE_LOG (index_key k) d) (List.filter (fun e => negb (entry_index e =? k)) l) Hks) as [H1 H2].
  { by apply keyed_ok_filter. }
  { exact Hdel. }
  split; [|etrans; [|exact H2]; intros t Ht; by apply same_table_remove].
  rewrite H1, filter_filter_and. f_equal. apply List.filter_ext. intros e.
  destruct (Z.eqb_spec (entry_index e) k) as [->|Hne]; cbn [negb andb].
  - by rewrite bool_decide_eq_true_2 by (by left).
  - f_equal. apply bool_decide_ext. rewrite elem_of_cons. tauto.
Qed.

End refine.
