(* ===== verification/LogStoreSafety.v ===== *)
(** * Runs of the Raft log

    Any sequence of calls that openraft may make, from the empty database:
    every call is answered as the contract says and every read returns the
    abstract log. *)

From S2P Require Export LogStoreRefine.

Local Open Scope Z_scope.

Section runs.
Context {Payload Vote : Type}.
Context {pe : Postcard (Entry Payload)} {pv : Postcard Vote} {pl : Postcard LogId}.
Context {ple : PostcardLaws (Entry Payload)} {plv : PostcardLaws Vote} {pll : PostcardLaws LogId}.
Abbreviation spec := (LogSpec (Payload := Payload) (Vote := Vote)).

(** A call, with the guard of a purge and the snapshot files as they are then. *)
Record LogCall := {
  lc_tracker : option SnapshotTracker;
  lc_is_file : bytes -> bool;
  lc_op : LogOp (Payload := Payload) (Vote := Vote) }.

Definition log_call (c : LogCall) (d : db) : result unit * db :=
  match lc_op c with
  | Append es => append es d
  | TruncateAfter last => truncate_after last d
  | Purge lid => purge (lc_tracker c) (lc_is_file c) lid d
  | SaveVote v => save_vote v d
  | SaveCommitted o => save_committed o d
  end.

(** A purge that no snapshot on disk covers. *)
Definition refused (c : LogCall) : bool :=
  match lc_op c, lc_tracker c with
  | Purge lid, Some t => negb (durable_covers (lc_is_file c) (log_index lid) t)
  | _, _ => false
  end.

Definition spec_call (st : spec) (c : LogCall) : spec := if refused c then st else spec_op st (lc_op c).

Fixpoint allowed_calls (st : spec) (cs : list LogCall) : Prop :=
  match cs with
  | [] => True
  | c :: cs => allowed st (lc_op c) /\ allowed_calls (spec_call st c) cs
  end.

Fixpoint run_calls (cs : list LogCall) (d : db) : list (result unit) * db :=
  match cs with
  | [] => ([], d)
  | c :: cs => let '(r, d) := log_call c d in let '(rs, d) := run_calls cs d in (r :: rs, d)
  end.

Lemma truncate_ok d (st : spec) last :
  log_rep d st -> raft_log_ok st -> allowed st (TruncateAfter last) ->
  exists d', truncate_after last d = (Ok tt, d') /\ log_rep d' (spec_op st (TruncateAfter last)).
Proof.
  intros Hr Hok Ha. pose proof Hok as [H1 H2 H3]. unfold next_index in H3.
  set (i := match last with Some lid => log_index lid | None => -1 end).
  assert (first_index st <= i + 1 <= u64_max) as Hi.
  { subst i. destruct last as [lid|]; [exact Ha|]. simpl in Ha. unfold first_index. rewrite Ha.
    by vm_compute. }
  assert (match last with Some lid => u64_saturating_add (log_index lid) 1 | None => 0 end = i + 1) as Hstart.
  { subst i. destruct last as [lid|]; [|done]. unfold u64_saturating_add. lia. }
  assert (spec_op st (TruncateAfter last) = with_entries st (List.filter (fun e => entry_index e <=? i) (ls_entries st))) as ->.
  { subst i. destruct last as [lid|]; [done|]. cbn [spec_op]. f_equal. symmetry. apply filter_none.
    intros e He. pose proof (consecutive_range _ _ _ H2 He). apply Z.leb_gt. lia. }
  destruct (consecutive_split _ _ i H2 (proj1 Hi)) as (l1 & l2 & E & E1 & _ & Hc & Hn & Hle).
  rewrite E1. unfold truncate_after. rewrite Hstart. rewrite E in H2. apply consecutive_app in H2 as [_ Hc2].
  pose proof (length_iter_prefix d TABLE_LOG []) as Hlen. fold (log_rows_of d) in Hlen.
  rewrite (rp_entries _ _ Hr), length_fmap, E, length_app in Hlen. rewrite E, length_app in H3.
  destruct (truncate_loop_ok d (S (size d)) (i + 1) l1 l2) as (d' & Ed & Hl & Ho).
  - lia.
  - lia.
  - destruct l2; [simpl; lia|]. rewrite <-Hn by done. lia.
  - rewrite <-E. by apply log_keyed.
  - rewrite Forall_forall. intros e He. pose proof (consecutive_range _ _ _ Hc He). lia.
  - destruct l2; [done|]. by rewrite <-Hn.
  - rewrite <-E. apply (rp_entries _ _ Hr).
  - exists d'. unfold backend_write. rewrite Ed. split; [done|]. by eapply log_rep_entries.
Qed.

Lemma purge_ok d (st : spec) tracker is_file lid :
  log_rep d st -> raft_log_ok st -> allowed st (Purge lid) ->
  match tracker with Some t => durable_covers is_file (log_index lid) t = true | None => True end ->
  exists d', purge tracker is_file lid d = (Ok tt, d') /\ log_rep d' (spec_op st (Purge lid)).
Proof.
  intros Hr Hok [Ha Hl] Hg. unfold purge.
  replace (match tracker with Some t => negb (durable_covers is_file (log_index lid) t) | None => false end) with false
    by (destruct tracker as [t|]; [by rewrite Hg|done]).
  assert (Forall in_u64 (seqZ 0 (log_index lid + 1))) as Hks.
  { rewrite Forall_forall. intros k Hk%elem_of_seqZ. unfold in_u64, u64_max in *. lia. }
  destruct (purge_loop_ok d _ _ Hks (log_keyed st Hok) (rp_entries _ _ Hr)) as [H1 H2].
  unfold backend_write. rewrite serialize_ok. cbn [mbind result_bind]. eexists. split; [done|].
  destruct Hr as [_ R2 R3 R4]. set (d1 := foldl _ _ _) in *.
  assert (forall t k, t <> TABLE_LAST_PURGED ->
    tx_get (tx_insert TABLE_LAST_PURGED KEY_LAST_PURGED (enveloped lid) d1) t k = tx_get d1 t k) as Hins.
  { intros t k Ht. apply tx_get_insert_ne. congruence. }
  split; cbn [spec_op ls_purged ls_entries ls_vote ls_committed].
  - etrans; [|etrans; [exact H1|]].
    + unfold log_rows_of. apply iter_prefix_agree. intros x. by apply Hins.
    + f_equal. apply filter_ext_Forall. rewrite Forall_forall. intros e He.
      pose proof (consecutive_range _ _ _ (lo_consecutive _ Hok) He) as Hrange. pose proof (lo_first _ Hok).
      destruct (Z.ltb_spec (log_index lid) (entry_index e)).
      * rewrite bool_decide_eq_false_2; [done|]. rewrite elem_of_seqZ. lia.
      * rewrite bool_decide_eq_true_2; [done|]. rewrite elem_of_seqZ. lia.
  - rewrite Hins, H2 by done. exact R2.
  - rewrite Hins, H2 by done. exact R3.
  - apply tx_get_insert.
Qed.

Lemma log_call_ok d (st : spec) c :
  log_rep d st -> raft_log_ok st -> allowed st (lc_op c) ->
  exists d', log_call c d = (if refused c then Err Storage else Ok tt, d') /\ log_rep d' (spec_call st c).
Proof.
  intros Hr Hok Ha. unfold log_call, spec_call, refused in *. destruct (lc_op c) as [es|last|lid|v|o].
  - simpl in Ha. destruct Ha as [Hc Hb].
    destruct (append_loop_ok d (ls_entries st) es) as (d' & E & Hl & Ho).
    + apply (log_keyed (spec_op st (Append es))). by apply spec_op_ok.
    + apply (rp_entries _ _ Hr).
    + exists d'. unfold append, backend_write. rewrite E. split; [done|]. by eapply log_rep_entries.
  - by apply truncate_ok.
  - destruct (lc_tracker c) as [t|] eqn:Et.
    + destruct (durable_covers (lc_is_file c) (log_index lid) t) eqn:Ec; cbn [negb].
      * by apply purge_ok.
      * exists d. unfold purge. by rewrite Ec.
    + by apply purge_ok.
  - unfold save_vote. rewrite write_meta_ok. eexists. split; [done|]. destruct Hr as [R1 R2 R3 R4].
    split; cbn [spec_op ls_purged ls_entries ls_vote ls_committed].
    + rewrite <-R1. apply iter_prefix_agree. intros x. by apply tx_get_insert_ne.
    + apply tx_get_insert.
    + by rewrite tx_get_insert_ne.
    + by rewrite tx_get_insert_ne.
  - destruct Hr as [R1 R2 R3 R4]. destruct o as [lid|]; cbn [save_committed].
    + rewrite write_meta_ok. eexists. split; [done|].
      split; cbn [spec_op ls_purged ls_entries ls_vote ls_committed].
      * rewrite <-R1. apply iter_prefix_agree. intros x. by apply tx_get_insert_ne.
      * by rewrite tx_get_insert_ne.
      * apply tx_get_insert.
      * by rewrite tx_get_insert_ne.
    + unfold remove_meta, backend_write. eexists. split; [done|].
      split; cbn [spec_op ls_purged ls_entries ls_vote ls_committed].
      * rewrite <-R1. apply iter_prefix_agree. intros x. by apply tx_get_remove_ne.
      * by rewrite tx_get_remove_ne.
      * apply tx_get_remove.
      * by rewrite tx_get_remove_ne.
Qed.

Lemma run_calls_ok cs d (st : spec) :
  log_rep d st -> raft_log_ok st -> allowed_calls st cs ->
  exists d', run_calls cs d = ((fun c => if refused c then Err Storage else Ok tt) <$> cs, d') /\
    log_rep d' (foldl spec_call st cs) /\ raft_log_ok (foldl spec_call st cs).
Proof.
  revert d st. induction cs as [|c cs IH]; intros d st Hr Hok Ha; [by exists d|]. destruct Ha as [Hc Ha].
  destruct (log_call_ok d st c Hr Hok Hc) as (d1 & E & Hr1).
  destruct (IH d1 (spec_call st c) Hr1) as (d' & E' & Hr' & Hok').
  - unfold spec_call. destruct (refused c); [done|by apply spec_op_ok].
  - done.
  - exists d'. cbn [run_calls]. rewrite E, E'. done.
Qed.

Lemma empty_log_rep : log_rep ∅ (empty_log : spec) /\ raft_log_ok (empty_log : spec).
Proof.
  split; [|split; [done|done|vm_compute; done]].
  split; [|unfold tx_get; by rewrite lookup_empty..]. unfold log_rows_of.
  apply iter_prefix_unique; [constructor|]. intros k v. rewrite lookup_empty. simpl.
  rewrite elem_of_nil. naive_solver.
Qed.

Lemma has_prior_state_ok d (st : spec) :
  log_rep d st -> raft_log_ok st ->
  has_prior_state (Payload := Payload) (Vote := Vote) d =
  Ok (bool_decide (ls_committed st <> None \/ ls_vote st <> None \/ ls_entries st <> [] \/ ls_purged st <> None)).
Proof.
  intros Hr Hok. unfold has_prior_state, is_initialized, read_committed, read_vote.
  rewrite (read_meta_ok _ _ _ _ (rp_committed _ _ Hr)). cbn [mbind result_bind].
  destruct (ls_committed st) as [c|].
  { symmetry. by rewrite bool_decide_eq_true_2 by (by left). }
  change (bool_decide (is_Some (@None LogId))) with false. cbv iota.
  rewrite (read_meta_ok _ _ _ _ (rp_vote _ _ Hr)). cbn [mbind result_bind].
  destruct (ls_vote st) as [v|].
  { symmetry. by rewrite bool_decide_eq_true_2 by (by right; left). }
  change (bool_decide (is_Some (@None Vote))) with false. cbv iota.
  rewrite (get_log_state_ok d st Hr Hok). cbn [mbind result_bind last_log_id]. f_equal. apply bool_decide_ext.
  destruct (ls_entries st) as [|e l].
  - cbn [last]. destruct (ls_purged st); [naive_solver|]. split; [by intros []|naive_solver].
  - destruct (last (e :: l)) as [e'|] eqn:E'; [naive_solver|]. by apply last_None in E'.
Qed.

(** C23: the Raft log keeps its contract.  After any sequence of calls that
    openraft may make, from the empty database, every call has been answered,
    a purge that no snapshot on disk covers with an error and everything else
    with success, and the reads return the abstract log: each entry at its
    index; for a range that starts above the purged position, exactly the
    entries held in it; the last and the purged position, the vote, the
    committed position and whether there is anything at all.  Two ranges are
    answered otherwise: one that starts in the purged prefix gets nothing, even
    when it reaches into the log, and the empty range [0..0] gets the entry at
    index 0. *)
Theorem raft_log_keeps_contract cs :
  allowed_calls empty_log cs ->
  let st : spec := foldl spec_call empty_log cs in
  exists d, run_calls cs ∅ = ((fun c => if refused c then Err Storage else Ok tt) <$> cs, d) /\
    (forall i, in_u64 i -> get_entry_at i d = Ok (entry_at st i)) /\
    (forall sb eb, bounds_u64 sb eb ->
      try_get_log_entries sb eb d =
        Ok (if bool_decide (bound_start sb < first_index st) then []
            else if bool_decide (bound_start sb = 0 /\ bound_end eb = Some (-1)) then option_list (entry_at st 0)
            else entries_in st (bound_start sb) (bound_end eb))) /\
    get_log_state (Payload := Payload) d = Ok {|
      last_log_id := match last (ls_entries st) with Some e => Some (log_id e) | None => ls_purged st end;
      last_purged_log_id := ls_purged st |} /\
    read_vote d = Ok (ls_vote st) /\ read_committed d = Ok (ls_committed st) /\
    has_prior_state (Payload := Payload) (Vote := Vote) d =
      Ok (bool_decide (ls_committed st <> None \/ ls_vote st <> None \/ ls_entries st <> [] \/ ls_purged st <> None)).
Proof.
  intros Ha st. destruct empty_log_rep as [Hr Hok].
  destruct (run_calls_ok cs ∅ empty_log Hr Hok Ha) as (d & E & Hr' & Hok'). fold st in Hr', Hok'.
  exists d. split; [done|]. split; [intros i Hi; by apply get_entry_at_ok|]. split; [|split; [|split; [|split]]].
  - intros sb eb Hb. case_bool_decide as Hp; [by apply (try_get_purged d st)|].
    case_bool_decide as H0; [by apply (try_get_zero d st); [..|apply H0|apply H0|]|].
    apply (try_get_ok d st); [done|done|done|lia|]. destruct (decide (bound_start sb = 0)); [right|by left]. tauto.
  - by apply get_log_state_ok.
  - apply read_meta_ok, Hr'.
  - apply read_meta_ok, Hr'.
  - by apply has_prior_state_ok.
Qed.

(** An empty range at the start of the log is not empty: [0..0] returns the
    entry at index 0, because the excluded end saturates to 0. *)
Theorem empty_range_returns_entry d (st : spec) e :
  log_rep d st -> raft_log_ok st -> entry_at st 0 = Some e ->
  entries_in st 0 (Some (-1)) = [] /\ try_get_log_entries (Included 0) (Excluded 0) d = Ok [e].
Proof.
  intros Hr Hok He. split.
  - apply filter_none. intros x Hx. pose proof (consecutive_range _ _ _ (lo_consecutive _ Hok) Hx) as Hi.
    pose proof (lo_first _ Hok). apply andb_false_iff. right. apply Z.leb_gt. lia.
  - rewrite (try_get_zero d st) by done. by rewrite He.
Qed.

(** A range that starts in the purged prefix and reaches into the log returns
    nothing, although the log holds entries of it. *)
Theorem purged_start_returns_nothing d (st : spec) e :
  log_rep d st -> raft_log_ok st -> 0 < first_index st -> head (ls_entries st) = Some e ->
  (exists l, entries_in st 0 None = e :: l) /\ try_get_log_entries Unbounded Unbounded d = Ok [].
Proof.
  intros Hr Hok Hf He. split; [|by apply (try_get_purged d st)].
  pose proof (lo_consecutive _ Hok) as Hc. destruct (ls_entries st) as [|e' l] eqn:El; [done|]. injection He as ->.
  unfold entries_in. rewrite El. cbn [List.filter]. apply consecutive_cons in Hc as [-> _].
  rewrite (proj2 (Z.leb_le 0 _)) by lia. by eexists.
Qed.

(** C24: the read barrier serves exactly the reads whose applied position the log
    confirms.  After ReadIndex a read is served if and only if the node still
    leads, it has not applied beyond the commit frontier, and the position it
    applied is covered by the purged prefix or is the very entry the log holds
    at that index. *)
Theorem read_barrier_exact d (st : spec) m :
  log_rep d st -> raft_log_ok st -> from_option (fun l => in_u64 (log_index l)) True (last_applied_id m) ->
  ensure_linearizable_barrier (Payload := Payload) (Some (ReadIndexOk, m)) (Some d) = Served <->
  is_leader m = true /\
  forall applied, last_applied_id m = Some applied ->
    (forall committed, local_committed m = Some committed -> log_index applied <= log_index committed) /\
    (log_index applied < first_index st \/ exists e, entry_at st (log_index applied) = Some e /\ log_id e = applied).
Proof.
  intros Hr Hok Hm. cbn [ensure_linearizable_barrier]. unfold after_read_index.
  destruct (is_leader m); cbn [negb]; [|split; [done|by intros [? _]]].
  destruct (last_applied_id m) as [applied|]; [|split; [|by destruct (local_committed m)]].
  2:{ intros _. split; [done|]. by intros. }
  simpl in Hm.
  assert (phantom_check (Payload := Payload) applied d = Served <-> log_index applied < first_index st \/
    exists e, entry_at st (log_index applied) = Some e /\ log_id e = applied) as Hp.
  { unfold phantom_check, last_purged. rewrite (read_meta_ok _ _ _ _ (rp_purged _ _ Hr)).
    rewrite (get_entry_at_ok d st _ Hr Hok Hm). unfold first_index.
    assert (match entry_at st (log_index applied) with
      | Some entry => if decide (log_id entry = applied) then Served else Unavailable
      | None => Unavailable end = Served <->
      exists e, entry_at st (log_index applied) = Some e /\ log_id e = applied) as He.
    { destruct (entry_at st (log_index applied)) as [e|]; [case_decide|]; naive_solver. }
    unfold in_u64 in Hm. destruct (ls_purged st) as [p|].
    - destruct (Z.leb_spec (log_index applied) (log_index p)); [split; [left; lia|done]|].
      rewrite He. split; [by right|]. intros [?|?]; [lia|done].
    - rewrite He. split; [by right|]. intros [?|?]; [lia|done]. }
  destruct (local_committed m) as [c|].
  - destruct (Z.ltb_spec (log_index c) (log_index applied)) as [Hlt|Hge].
    + split; [done|]. intros [_ H]. destruct (H applied eq_refl) as [Hc _]. specialize (Hc c eq_refl). lia.
    + rewrite Hp. split; [intros H; split; [done|]; intros ? [= <-]; split; [by intros ? [= <-]|done]|].
      intros [_ H]. by apply (H applied).
  - rewrite Hp. split; [intros H; split; [done|]; by intros ? [= <-]|]. intros [_ H]. by apply (H applied).
Qed.

End runs.
