(* ===== verification/SnapshotStore.v ===== *)
(** * Snapshots on disk

    The snapshot side of [StateMachineStore] ([raft/state_machine.rs]) and the
    startup check of [coord/src/main.rs]: the file of a snapshot and its row in
    the store, the names of the files and their cleanup, what a restart loads,
    how a snapshot is built, published, installed and rebuilt, and how all this
    meets the purge guard of the Raft log.

    The names of the files: [snapshot-{index}-{term}.snap]. *)

From S2P Require Export Snapshot LogStore.

Local Open Scope Z_scope.

(** ** Names *)

(** [split_once('-')]. *)
Fixpoint split_once (x : bytes) : option (bytes * bytes) :=
  match x with
  | [] => None
  | c :: r => if decide (c = x2d) then Some ([], r)
              else '(a, z) ← split_once r; Some (c :: a, z)
  end.

Definition strip_name_suffix (p x : bytes) : option bytes := reverse <$> strip_prefix (reverse p) (reverse x).

Definition snapshot_name (idx term : Z) : bytes :=
  b "snapshot-" ++ decimal idx ++ b "-" ++ decimal term ++ b ".snap".

Definition parse_raft_snapshot_name (name : bytes) : option (Z * Z) :=
  rest ← strip_prefix (b "snapshot-") name;
  rest ← strip_name_suffix (b ".snap") rest;
  '(idx_s, term_s) ← split_once rest;
  idx ← parse_u64 idx_s;
  term ← parse_u64 term_s;
  Some (idx, term).

(** ** Files *)

(** The files of the snapshot directory, by name; a name stands for its path. *)
Abbreviation files := (gmap bytes bytes).

(** Newest first: by index, then by term. *)
Definition newer (x y : (Z * Z) * bytes) : Prop := y.1.1 < x.1.1 \/ (x.1.1 = y.1.1 /\ y.1.2 <= x.1.2).

#[export] Instance newer_dec : RelDecision newer.
Proof. intros x y. unfold newer. apply _. Defined.

Definition raft_snapshots (fs : files) : list ((Z * Z) * bytes) :=
  merge_sort newer
    (omap (fun '(name, _) => id ← parse_raft_snapshot_name name; Some (id, name)) (map_to_list fs)).

Definition cleanup_old_snapshots (keep : bytes) (fs : files) : files :=
  foldl (fun fs (x : (Z * Z) * bytes) => if decide (x.2 = keep) then fs else delete x.2 fs) fs
    (drop 3 (raft_snapshots fs)).

(** ** The state machine's part of a node *)

Definition META_SNAPSHOT : bytes := b "/_meta/snapshot".
Definition META_MEMBERSHIP : bytes := b "/_meta/membership".

Definition log_id_of (a : AppliedLogId) : LogId :=
  {| leader_term := term a; leader_node := node_id a; log_index := index a |}.

(** [SnapshotMetaOf], [StoredSnapshot] and the row [META_SNAPSHOT]. *)
Record SnapshotMeta (M : Type) := { sm_last_log_id : option LogId; sm_membership : M }.
Arguments sm_last_log_id {M}.
Arguments sm_membership {M}.

Record StoredSnapshot (M : Type) := { ss_meta : SnapshotMeta M; ss_data : bytes }.
Arguments ss_meta {M}.
Arguments ss_data {M}.

Record PersistedSnapshotMeta (M : Type) :=
  { pm_meta : SnapshotMeta M; pm_checksum : bytes; pm_path : bytes }.
Arguments pm_meta {M}.
Arguments pm_checksum {M}.
Arguments pm_path {M}.

(** The disk (the store, the Raft log, the snapshot files) and the memory (the
    purge guard, the snapshot slot, the applied position and the membership). *)
Record Node (M : Type) := {
  nd_db : db;
  nd_log : db;
  nd_files : files;
  nd_tracker : SnapshotTracker;
  nd_slot : option (StoredSnapshot M);
  nd_last_applied : option LogId;
  nd_membership : M }.
Arguments nd_db {M}.
Arguments nd_log {M}.
Arguments nd_files {M}.
Arguments nd_tracker {M}.
Arguments nd_slot {M}.
Arguments nd_last_applied {M}.
Arguments nd_membership {M}.

(** What [get_snapshot_builder] copies into the builder. *)
Record SnapshotBuilder (M : Type) := { sb_last_applied : option LogId; sb_membership : M }.
Arguments sb_last_applied {M}.
Arguments sb_membership {M}.

Section store.
Context {M : Type} (empty_membership : M).
Context {sha : Sha256}.
Context {psd : Postcard SnapshotData} {ppm : Postcard (PersistedSnapshotMeta M)} {pm : Postcard M}.
Context {pl : Postcard LogId}.
Context (s : MvccStorage).

Definition on_disk (n : Node M) (d : db) (fs : files) : Node M :=
  {| nd_db := d; nd_log := nd_log n; nd_files := fs; nd_tracker := nd_tracker n; nd_slot := nd_slot n;
     nd_last_applied := nd_last_applied n; nd_membership := nd_membership n |}.

Definition tracked (n : Node M) (t : SnapshotTracker) : Node M :=
  {| nd_db := nd_db n; nd_log := nd_log n; nd_files := nd_files n; nd_tracker := t; nd_slot := nd_slot n;
     nd_last_applied := nd_last_applied n; nd_membership := nd_membership n |}.

Definition slotted (n : Node M) (slot : option (StoredSnapshot M)) : Node M :=
  {| nd_db := nd_db n; nd_log := nd_log n; nd_files := nd_files n; nd_tracker := nd_tracker n;
     nd_slot := slot; nd_last_applied := nd_last_applied n; nd_membership := nd_membership n |}.

Definition in_memory (n : Node M) (applied : option LogId) (m : M) : Node M :=
  {| nd_db := nd_db n; nd_log := nd_log n; nd_files := nd_files n; nd_tracker := nd_tracker n;
     nd_slot := nd_slot n; nd_last_applied := applied; nd_membership := m |}.

Definition meta_index (meta : SnapshotMeta M) : Z := default 0 (log_index <$> sm_last_log_id meta).
Definition meta_term (meta : SnapshotMeta M) : Z := default 0 (leader_term <$> sm_last_log_id meta).
Definition final_name (meta : SnapshotMeta M) : bytes := snapshot_name (meta_index meta) (meta_term meta).
Definition tmp_name (meta : SnapshotMeta M) : bytes := b "." ++ final_name meta ++ b ".tmp".

(** [persist_snapshot_file_impl]: temporary file, rename, row, guard, cleanup. *)
Definition written (meta : SnapshotMeta M) (data : bytes) (fs : files) : files := <[tmp_name meta := data]> fs.
Definition renamed (meta : SnapshotMeta M) (data : bytes) (fs : files) : files :=
  <[final_name meta := data]> (delete (tmp_name meta) (written meta data fs)).

Definition persisted_meta (meta : SnapshotMeta M) (data : bytes) : PersistedSnapshotMeta M :=
  {| pm_meta := meta; pm_checksum := sha256 data; pm_path := final_name meta |}.

Definition persist_snapshot_file (meta : SnapshotMeta M) (data : bytes) (n : Node M)
    : result (bytes * bytes) * Node M :=
  let fs := renamed meta data (nd_files n) in
  match envelope_encode (persisted_meta meta data) with
  | None => (Err Storage, on_disk n (nd_db n) fs)
  | Some row =>
    let n := on_disk n (tx_insert TABLE_META META_SNAPSHOT row (nd_db n)) fs in
    let n := tracked n (record_durable (meta_index meta) (meta_term meta) (final_name meta) (nd_tracker n)) in
    (Ok (final_name meta, sha256 data),
     on_disk n (nd_db n) (cleanup_old_snapshots (final_name meta) (nd_files n)))
  end.

Definition load_persisted_snapshot_checked (d : db) (fs : files) : option (StoredSnapshot M * bytes) :=
  persisted ← tx_get d TABLE_META META_SNAPSHOT ≫= decode_ok;
  data ← fs !! pm_path persisted;
  if decide (sha256 data = pm_checksum persisted)
  then Some ({| ss_meta := pm_meta persisted; ss_data := data |}, pm_path persisted)
  else None.

Definition load_membership (d : db) : option M := tx_get d TABLE_META META_MEMBERSHIP ≫= decode_ok.

(** [StateMachineStore::new] over what the disk holds; the guard of a new process
    is empty. *)
Definition sm_new (d log : db) (fs : files) : Node M :=
  match load_persisted_snapshot_checked d fs with
  | Some (snap, path) =>
    {| nd_db := d; nd_log := log; nd_files := fs;
       nd_tracker := record_durable (meta_index (ss_meta snap)) (meta_term (ss_meta snap)) path None;
       nd_slot := Some snap; nd_last_applied := sm_last_log_id (ss_meta snap);
       nd_membership := sm_membership (ss_meta snap) |}
  | None =>
    {| nd_db := d; nd_log := log; nd_files := fs; nd_tracker := None; nd_slot := None;
       nd_last_applied := a ← get_applied_log_id d; if 0 <? index a then Some (log_id_of a) else None;
       nd_membership := default empty_membership (load_membership d) |}
  end.

(** [update_applied] and [persist_membership], for entries without a write of
    their own. *)
Definition update_applied (lid : LogId) (n : Node M) : Node M :=
  in_memory
    (on_disk n (insert_last_applied
       {| term := leader_term lid; node_id := leader_node lid; index := log_index lid |} (nd_db n)) (nd_files n))
    (Some lid) (nd_membership n).

Definition persist_membership (n : Node M) : result unit * Node M :=
  match envelope_encode (nd_membership n) with
  | None => (Err Storage, n)
  | Some x => (Ok tt, on_disk n (tx_insert TABLE_META META_MEMBERSHIP x (nd_db n)) (nd_files n))
  end.

Definition load_applied (d : db) : option LogId := log_id_of <$> get_applied_log_id d.

(** [get_snapshot_builder]: the clone has its own copies of the position and of
    the membership in memory, and shares the store, the files, the guard and
    the slot. *)
Definition get_snapshot_builder (n : Node M) : SnapshotBuilder M :=
  {| sb_last_applied := nd_last_applied n; sb_membership := nd_membership n |}.

(** [build_snapshot] on the clone in three parts, between which other work goes
    on: read the applied position, export in a blocking task, write and
    publish. *)
Definition build_read (builder : SnapshotBuilder M) (n : Node M) : SnapshotMeta M :=
  {| sm_last_log_id := match load_applied (nd_db n) with Some a => Some a | None => sb_last_applied builder end;
     sm_membership := sb_membership builder |}.

Definition build_export (meta : SnapshotMeta M) (n : Node M) : result bytes :=
  snapshot_to_bytes (export_snapshot_data s (nd_db n) (meta_index meta) (meta_term meta)).

(** [publish_snapshot]: an older snapshot does not replace a newer one. *)
Definition publish_snapshot (snap : StoredSnapshot M) (n : Node M) : Node M :=
  let new_idx := meta_index (ss_meta snap) in
  let replace := match nd_slot n with
                 | None => true
                 | Some cur => meta_index (ss_meta cur) <=? new_idx
                 end in
  if replace then slotted n (Some snap) else n.

Definition build_finish (meta : SnapshotMeta M) (data : bytes) (n : Node M) : result unit * Node M :=
  match persist_snapshot_file meta data n with
  | (Err e, n) => (Err e, n)
  | (Ok _, n) => (Ok tt, publish_snapshot {| ss_meta := meta; ss_data := data |} n)
  end.

(** [install_snapshot]: the chunk files of the object store are not modelled. *)
Definition import_bytes (data : bytes) (n : Node M) : result unit * Node M :=
  if bytes_eqb data [] then (Ok tt, n)
  else
    match snapshot_from_bytes data with
    | Err e => (Err e, n)
    | Ok snapshot =>
      let '(r, d) := import_snapshot_data s snapshot (nd_db n) in (r, on_disk n d (nd_files n))
    end.

Definition install_snapshot (meta : SnapshotMeta M) (data : bytes) (n : Node M) : result unit * Node M :=
  match import_bytes data n with
  | (Err e, n) => (Err e, n)
  | (Ok _, n) =>
    match persist_snapshot_file meta data n with
    | (Err e, n) => (Err e, n)
    | (Ok (path, _), n) =>
      let n := slotted n (Some {| ss_meta := meta; ss_data := data |}) in
      let n := in_memory n (sm_last_log_id meta) (sm_membership meta) in
      match persist_membership n with
      | (Err e, n) => (Err e, n)
      | (Ok _, n) => (Ok tt, tracked n (record_durable (meta_index meta) (meta_term meta) path (nd_tracker n)))
      end
    end
  end.

Definition get_current_snapshot (n : Node M) : option (StoredSnapshot M) * Node M :=
  match nd_slot n with
  | Some snap => (Some snap, n)
  | None =>
    match load_persisted_snapshot_checked (nd_db n) (nd_files n) with
    | Some (snap, _) => (Some snap, slotted n (Some snap))
    | None => (None, n)
    end
  end.

Definition rebuild_snapshot_from_mvcc (n : Node M) : result bytes * Node M :=
  match (a ← get_applied_log_id (nd_db n); if 0 <? index a then Some a else None) with
  | None => (Err Storage, n)
  | Some applied =>
    let last_membership := default empty_membership (load_membership (nd_db n)) in
    let meta := {| sm_last_log_id := Some (log_id_of applied); sm_membership := last_membership |} in
    match snapshot_to_bytes (export_snapshot_data s (nd_db n) (index applied) (term applied)) with
    | Err e => (Err e, n)
    | Ok data =>
      match persist_snapshot_file meta data n with
      | (Err e, n) => (Err e, n)
      | (Ok (path, _), n) =>
        let n := slotted n (Some {| ss_meta := meta; ss_data := data |}) in
        (Ok path, in_memory n (Some (log_id_of applied)) last_membership)
      end
    end
  end.

Definition is_file (n : Node M) (name : bytes) : bool := bool_decide (is_Some (nd_files n !! name)).

(** The startup check of [main.rs]; [Err] refuses to start. *)
Definition startup_check (n : Node M) : result unit * Node M :=
  match last_purged (nd_log n) with
  | Err e => (Err e, n)
  | Ok None => (Ok tt, n)
  | Ok (Some purged) =>
    if durable_covers (is_file n) (log_index purged) (nd_tracker n) then (Ok tt, n)
    else if match get_applied_log_id (nd_db n) with
            | Some a => log_index purged <=? index a
            | None => false
            end then
      let '(r, n) := rebuild_snapshot_from_mvcc n in
      (match r with Ok _ => Ok tt | Err e => Err e end, n)
    else (Ok tt, n)
  end.

(** A restart of the single Raft group, and of a Region's group
    ([region_runtime.rs]), which has no such check. *)
Definition restart (n : Node M) : result unit * Node M :=
  startup_check (sm_new (nd_db n) (nd_log n) (nd_files n)).
Definition region_restart (n : Node M) : Node M := sm_new (nd_db n) (nd_log n) (nd_files n).

End store.
