(* ===== verification/SnapshotStoreSafety.v ===== *)
(** * Recovery: snapshots against the purged log

    A node applies entries, writes its Raft log, builds snapshots in pieces,
    installs snapshots of the leader and restarts.  Whatever the order, a
    restart of the single Raft group ends with a snapshot that covers the purged
    part of the log.  A Region's group restarts without the startup check, and a
    build that ends after an install leaves it with a snapshot behind the log. *)

From S2P Require Export SnapshotStore SnapshotSafety LogStoreRefine LogStoreSafety.

Local Open Scope Z_scope.

(** ** Names *)

Lemma split_once_digits x r : Forall is_digit x -> split_once (x ++ b "-" ++ r) = Some (x, r).
Proof.
  induction 1 as [|c x Hc _ IH]; [done|]. cbn [app split_once]. rewrite decide_False; [|intros ->; by apply sign_not_digit].
  cbn [app] in IH. by rewrite IH.
Qed.

Lemma split_once_none x : Forall is_digit x -> split_once x = None.
Proof.
  induction 1 as [|c x Hc _ IH]; [done|]. cbn [split_once]. rewrite decide_False; [|intros ->; by apply sign_not_digit].
  by rewrite IH.
Qed.

Lemma strip_suffix_bytes p x : strip_name_suffix p (x ++ p) = Some x.
Proof. unfold strip_name_suffix. rewrite reverse_app, strip_prefix_app. cbn. by rewrite reverse_involutive. Qed.

(** The name of a Raft snapshot gives back its index and term. *)
Lemma snapshot_name_parse idx term :
  in_u64 idx -> in_u64 term -> parse_raft_snapshot_name (snapshot_name idx term) = Some (idx, term).
Proof.
  intros Hi Ht. unfold parse_raft_snapshot_name, snapshot_name. rewrite strip_prefix_app. cbn [mbind option_bind].
  rewrite !app_assoc, strip_suffix_bytes. cbn [mbind option_bind]. rewrite <-app_assoc.
  rewrite split_once_digits by (apply digits_digits, Hi). cbn [mbind option_bind].
  rewrite (decimal_parse idx) by done. cbn [mbind option_bind]. by rewrite decimal_parse.
Qed.

(** The file of the snapshot scheduler, [snapshot-{unix_ts}.snap], is not a Raft
    snapshot: the cleanup does not count it. *)
Lemma scheduler_name_ignored ts :
  0 <= ts -> parse_raft_snapshot_name (b "snapshot-" ++ decimal ts ++ b ".snap") = None.
Proof.
  intros Hts. unfold parse_raft_snapshot_name. rewrite strip_prefix_app. cbn [mbind option_bind].
  rewrite strip_suffix_bytes. cbn [mbind option_bind]. by rewrite split_once_none by (by apply digits_digits).
Qed.

Lemma snapshot_name_inj i t i' t' :
  in_u64 i -> in_u64 t -> in_u64 i' -> in_u64 t' -> snapshot_name i t = snapshot_name i' t' -> i = i' /\ t = t'.
Proof.
  intros H1 H2 H3 H4 E. apply (f_equal parse_raft_snapshot_name) in E. rewrite !snapshot_name_parse in E by done.
  by injection E.
Qed.

(** ** Cleanup *)

Lemma cleanup_lookup_keep keep fs : cleanup_old_snapshots keep fs !! keep = fs !! keep.
Proof.
  unfold cleanup_old_snapshots. generalize (drop 3 (raft_snapshots fs)) as l. intros l. revert fs.
  induction l as [|x l IH]; intros fs; [done|]. cbn [foldl]. rewrite IH. case_decide; [done|].
  by apply lookup_delete_ne.
Qed.

Lemma cleanup_subset keep fs name data :
  cleanup_old_snapshots keep fs !! name = Some data -> fs !! name = Some data.
Proof.
  unfold cleanup_old_snapshots. generalize (drop 3 (raft_snapshots fs)) as l. intros l. revert fs.
  induction l as [|x l IH]; intros fs; [done|]. cbn [foldl]. intros E%IH. case_decide; [done|].
  by apply lookup_delete_Some in E as [_ ?].
Qed.

(** The first steps of a cleanup, for a crash in the middle of it. *)
Definition cleanup_part (k : nat) (keep : bytes) (fs : files) : files :=
  foldl (fun fs (x : (Z * Z) * bytes) => if decide (x.2 = keep) then fs else base.delete x.2 fs) fs
    (take k (drop 3 (raft_snapshots fs))).

Lemma cleanup_part_lookup_keep k keep fs : cleanup_part k keep fs !! keep = fs !! keep.
Proof.
  unfold cleanup_part. generalize (take k (drop 3 (raft_snapshots fs))) as l. intros l. revert fs.
  induction l as [|x l IH]; intros fs; [done|]. cbn [foldl]. rewrite IH. case_decide; [done|].
  by apply lookup_delete_ne.
Qed.

(** What survives of the Raft snapshots: at most three besides the new one, and
    none older than one that was removed. *)
Lemma raft_snapshots_elem fs id name :
  (id, name) ∈ raft_snapshots fs <-> is_Some (fs !! name) /\ parse_raft_snapshot_name name = Some id.
Proof.
  unfold raft_snapshots. rewrite merge_sort_Permutation, list_elem_of_omap. split.
  - intros ([name' data] & Hin & E). apply elem_of_map_to_list in Hin.
    destruct (parse_raft_snapshot_name name') as [id'|] eqn:Ep; [|done]. injection E as -> ->. by eauto.
  - intros [[data Hd] Hp]. exists (name, data). rewrite elem_of_map_to_list. split; [done|]. by rewrite Hp.
Qed.

#[export] Instance newer_trans : Transitive newer.
Proof. intros x y z. unfold newer. lia. Qed.
#[export] Instance newer_total : Total newer.
Proof. intros x y. unfold newer. lia. Qed.

Lemma raft_snapshots_sorted fs : StronglySorted newer (raft_snapshots fs).
Proof. apply StronglySorted_merge_sort; apply _. Qed.

(** ** Saved, purged, restarted *)

Section recovery.
Context {M : Type} (empty_membership : M).
Context {sha : Sha256}.
Context {psd : Postcard SnapshotData} {ppm : Postcard (PersistedSnapshotMeta M)} {pm : Postcard M}.
Context {psdl : PostcardLaws SnapshotData} {ppml : PostcardLaws (PersistedSnapshotMeta M)} {pml : PostcardLaws M}.
Context {Payload Vote : Type}.
Context {pe : Postcard (Entry Payload)} {pv : Postcard Vote} {pl : Postcard LogId}.
Context {ple : PostcardLaws (Entry Payload)} {plv : PostcardLaws Vote} {pll : PostcardLaws LogId}.
Context (s : MvccStorage).

Abbreviation spec := (LogSpec (Payload := Payload) (Vote := Vote)).
Abbreviation call := (LogCall (Payload := Payload) (Vote := Vote)).
Abbreviation meta := (SnapshotMeta M).

(** ** Writing a snapshot *)

Record persisted (mt : meta) (data : bytes) (n n' : Node M) : Prop := {
  ps_db : nd_db n' = tx_insert TABLE_META META_SNAPSHOT (enveloped (persisted_meta mt data)) (nd_db n);
  ps_file : nd_files n' !! final_name mt = Some data;
  ps_files : forall x y, nd_files n' !! x = Some y -> (x = final_name mt /\ y = data) \/ nd_files n !! x = Some y;
  ps_tracker : nd_tracker n' = record_durable (meta_index mt) (meta_term mt) (final_name mt) (nd_tracker n);
  ps_log : nd_log n' = nd_log n;
  ps_slot : nd_slot n' = nd_slot n;
  ps_applied : nd_last_applied n' = nd_last_applied n;
  ps_membership : nd_membership n' = nd_membership n }.

Lemma persist_ok mt data n :
  exists n', persist_snapshot_file mt data n = (Ok (final_name mt, sha256 data), n') /\ persisted mt data n n'.
Proof.
  unfold persist_snapshot_file. destruct (encode_total (persisted_meta mt data)) as [row E].
  assert (enveloped (persisted_meta mt data) = row) as Erow by (unfold enveloped; by rewrite E).
  rewrite E. eexists. split; [done|]. split; cbn [nd_db nd_log nd_files nd_tracker nd_slot nd_last_applied nd_membership
    on_disk tracked]; try done.
  - by rewrite Erow.
  - rewrite cleanup_lookup_keep. unfold renamed. apply lookup_insert_eq.
  - intros x y Hx%cleanup_subset. unfold renamed, written in Hx.
    apply lookup_insert_Some in Hx as [[<- <-]|[_ Hx]]; [by left|right].
    apply lookup_delete_Some in Hx as [Hne Hx]. by rewrite lookup_insert_ne in Hx.
Qed.

Definition load (d : db) (fs : files) : option (StoredSnapshot M * bytes) := load_persisted_snapshot_checked d fs.

Lemma load_row d fs mt data :
  tx_get d TABLE_META META_SNAPSHOT = Some (enveloped (persisted_meta mt data)) ->
  load d fs = x ← fs !! final_name mt;
              if decide (sha256 x = sha256 data) then Some ({| ss_meta := mt; ss_data := x |}, final_name mt) else None.
Proof.
  intros E. unfold load, load_persisted_snapshot_checked. rewrite E. cbn [mbind option_bind].
  unfold enveloped. destruct (encode_total (persisted_meta mt data)) as [row Er]. rewrite Er. cbn [default from_option id].
  by rewrite (decode_ok_encode _ _ Er).
Qed.

(** The disk as a crash in the middle of [persist_snapshot_file] leaves it: with
    some of the temporary file, after the rename, after the row, or with some of
    the old files removed. *)
Inductive persist_crash (mt : meta) (data : bytes) (d : db) (fs : files) : db -> files -> Prop :=
  | crash_write part : persist_crash mt data d fs d (<[tmp_name mt := part]> fs)
  | crash_rename : persist_crash mt data d fs d (renamed mt data fs)
  | crash_cleanup k :
      persist_crash mt data d fs (tx_insert TABLE_META META_SNAPSHOT (enveloped (persisted_meta mt data)) d)
        (cleanup_part k (final_name mt) (renamed mt data fs)).

(** Writing a snapshot survives a crash.  Wherever the write of a snapshot
    is cut short, the next start loads the snapshot that was there before or the
    new one, whole; the new one from the moment its row is written.  A file that
    is written over under its own name is one with the same content. *)
Theorem snapshot_write_crash_safe (mt old_mt : meta) data d fs d' fs' old :
  load d fs = Some (old, final_name old_mt) ->
  (final_name old_mt = final_name mt -> ss_data old = data) ->
  persist_crash mt data d fs d' fs' ->
  load d' fs' = Some (old, final_name old_mt) \/
  load d' fs' = Some ({| ss_meta := mt; ss_data := data |}, final_name mt).
Proof.
  intros Hold Hsame Hc.
  assert (tmp_name mt <> final_name old_mt) as Htmp by done.
  assert (forall fs2, fs2 !! final_name old_mt = fs !! final_name old_mt -> load d fs2 = Some (old, final_name old_mt)) as Hkeep.
  { intros fs2 E. revert Hold. unfold load, load_persisted_snapshot_checked.
    destruct (tx_get d TABLE_META META_SNAPSHOT ≫= decode_ok) as [p|]; [|done]. cbn [mbind option_bind].
    destruct (fs !! pm_path p) as [x|] eqn:Ex; [|done]. cbn [mbind option_bind]. case_decide; [|done].
    intros [= <- Ep]. rewrite Ep in *. rewrite E, Ex. cbn [mbind option_bind]. by rewrite decide_True. }
  destruct Hc as [part| |k].
  - left. apply Hkeep. by apply lookup_insert_ne.
  - left. apply Hkeep. unfold renamed, written. destruct (decide (final_name mt = final_name old_mt)) as [E|Hne].
    + rewrite E, lookup_insert_eq. revert Hold. unfold load, load_persisted_snapshot_checked.
      destruct (tx_get d TABLE_META META_SNAPSHOT ≫= decode_ok) as [p|]; [|done]. cbn [mbind option_bind].
      destruct (fs !! pm_path p) as [x|] eqn:Ex; [|done]. cbn [mbind option_bind]. case_decide; [|done].
      intros [= <- Ep]. rewrite Ep in Ex. rewrite Ex. f_equal. symmetry. by apply Hsame.
    + rewrite lookup_insert_ne, lookup_delete_ne, lookup_insert_ne; done.
  - right. rewrite (load_row _ _ mt data) by apply tx_get_insert. rewrite cleanup_part_lookup_keep.
    unfold renamed. rewrite lookup_insert_eq. cbn [mbind option_bind]. by rewrite decide_True.
Qed.

(** ** A node at work *)

Definition applied_index_of (d : db) : Z := default 0 (index <$> get_applied_log_id d).

Definition u64_id (o : option LogId) : Prop :=
  from_option (fun l => in_u64 (log_index l) /\ in_u64 (leader_term l)) True o.

Definition id_index (o : option LogId) : Z := default 0 (log_index <$> o).

(** The bytes of a snapshot of at least that position. *)
Definition applied_of (sd : SnapshotData) : AppliedLogId :=
  {| term := applied_term sd; node_id := applied_node_id sd; index := applied_index sd |}.

Definition snapshot_of (i : Z) (data : bytes) : Prop :=
  exists sd, snapshot_from_bytes data = Ok sd /\ applied_wf (applied_of sd) /\ i <= applied_index sd.

(** A build in progress: its metadata, and the bytes once they are exported. *)
Abbreviation build := (meta * option bytes)%type.

Record NodeWorld := { w_node : Node M; w_build : option (SnapshotBuilder M + build); w_log : spec }.

Definition with_log (n : Node M) (log : db) : Node M :=
  {| nd_db := nd_db n; nd_log := log; nd_files := nd_files n; nd_tracker := nd_tracker n; nd_slot := nd_slot n;
     nd_last_applied := nd_last_applied n; nd_membership := nd_membership n |}.

(** What the Raft core makes the node do.  It applies entries, which leaves the
    row of the snapshot alone and moves the applied position forward; it calls
    the log as its contract says; it takes a builder and
    builds one snapshot at a time; it installs
    a snapshot that is ahead of the node; and the process restarts, which loses
    a build in progress. *)
Inductive node_step (w : NodeWorld) : NodeWorld -> Prop :=
  | step_apply d lid m :
      tx_get d TABLE_META META_SNAPSHOT = tx_get (nd_db (w_node w)) TABLE_META META_SNAPSHOT ->
      applied_index_of (nd_db (w_node w)) <= applied_index_of d ->
      u64_id lid -> id_index lid <= applied_index_of d ->
      node_step w {| w_node := in_memory (on_disk (w_node w) d (nd_files (w_node w))) lid m;
                w_build := w_build w; w_log := w_log w |}
  | step_log op log :
      let c : call := {| lc_tracker := Some (nd_tracker (w_node w)); lc_is_file := is_file (w_node w); lc_op := op |} in
      allowed (w_log w) op -> (log_call c (nd_log (w_node w))).2 = log ->
      node_step w {| w_node := with_log (w_node w) log; w_build := w_build w; w_log := spec_call (w_log w) c |}
  | step_get_builder :
      w_build w = None ->
      node_step w {| w_node := w_node w; w_build := Some (inl (get_snapshot_builder (w_node w))); w_log := w_log w |}
  | step_build_read bd :
      w_build w = Some (inl bd) ->
      node_step w {| w_node := w_node w; w_build := Some (inr (build_read bd (w_node w), None)); w_log := w_log w |}
  | step_build_export mt data :
      w_build w = Some (inr (mt, None)) -> build_export s mt (w_node w) = Ok data ->
      node_step w {| w_node := w_node w; w_build := Some (inr (mt, Some data)); w_log := w_log w |}
  | step_build_finish mt data n r :
      w_build w = Some (inr (mt, Some data)) -> build_finish mt data (w_node w) = (r, n) ->
      node_step w {| w_node := n; w_build := None; w_log := w_log w |}
  | step_install mt data n :
      u64_id (sm_last_log_id mt) -> snapshot_of (meta_index mt) data ->
      applied_index_of (nd_db (w_node w)) <= meta_index mt ->
      install_snapshot s mt data (w_node w) = (Ok tt, n) ->
      node_step w {| w_node := n; w_build := w_build w; w_log := w_log w |}
  | step_restart n :
      restart empty_membership s (w_node w) = (Ok tt, n) ->
      node_step w {| w_node := n; w_build := None; w_log := w_log w |}
  | step_region_restart :
      node_step w {| w_node := region_restart empty_membership (w_node w); w_build := None; w_log := w_log w |}.

(** ** The invariant *)

Record node_ok (n : Node M) (st : spec) : Prop := {
  no_row :
    (tx_get (nd_db n) TABLE_META META_SNAPSHOT = None /\ nd_tracker n = None /\ ls_purged st = None) \/
    exists mt data, tx_get (nd_db n) TABLE_META META_SNAPSHOT = Some (enveloped (persisted_meta mt data)) /\
      nd_files n !! final_name mt = Some data /\
      u64_id (sm_last_log_id mt) /\ meta_index mt <= applied_index_of (nd_db n);
  no_files : forall (mt : meta) data, u64_id (sm_last_log_id mt) -> nd_files n !! final_name mt = Some data ->
    snapshot_of (meta_index mt) data;
  no_tracker : forall t, nd_tracker n = Some t -> durable_index t <= applied_index_of (nd_db n);
  no_memory : u64_id (nd_last_applied n) /\ id_index (nd_last_applied n) <= applied_index_of (nd_db n);
  no_log : log_rep (nd_log n) st;
  no_log_ok : raft_log_ok st;
  no_purged : first_index st <= applied_index_of (nd_db n) + 1 }.

Definition build_ok (n : Node M) (o : option (SnapshotBuilder M + build)) : Prop :=
  match o with
  | None => True
  | Some (inl bd) => u64_id (sb_last_applied bd) /\ id_index (sb_last_applied bd) <= applied_index_of (nd_db n)
  | Some (inr (mt, o)) => u64_id (sm_last_log_id mt) /\ meta_index mt <= applied_index_of (nd_db n) /\
    from_option (snapshot_of (meta_index mt)) True o
  end.

Definition world_ok (w : NodeWorld) : Prop := node_ok (w_node w) (w_log w) /\ build_ok (w_node w) (w_build w).

Lemma applied_u64 d a : get_applied_log_id d = Some a -> u64_id (Some (log_id_of a)).
Proof.
  unfold get_applied_log_id. destruct (tx_get d TABLE_META META_LAST_APPLIED); [|done]. cbn.
  intros (? & ? & ?)%applied_from_bytes_wf. by split.
Qed.

Lemma meta_u64 (mt : meta) : u64_id (sm_last_log_id mt) -> in_u64 (meta_index mt) /\ in_u64 (meta_term mt).
Proof.
  unfold meta_index, meta_term. destruct (sm_last_log_id mt) as [l|]; [done|]. intros _. by vm_compute.
Qed.

Lemma final_name_inj (mt mt' : meta) :
  u64_id (sm_last_log_id mt) -> u64_id (sm_last_log_id mt') -> final_name mt = final_name mt' ->
  meta_index mt = meta_index mt'.
Proof.
  intros [? ?]%meta_u64 [? ?]%meta_u64 E. by apply snapshot_name_inj in E as [? _].
Qed.

Lemma record_durable_index i t path tr x :
  record_durable i t path tr = Some x -> durable_index x = i \/ tr = Some x.
Proof.
  unfold record_durable. destruct tr as [y|]; [destruct (_ <=? _)|]; intros [= <-]; by (left + right).
Qed.

(** The row of the snapshot does not belong to the applied position. *)
Lemma applied_insert_snapshot x d :
  applied_index_of (tx_insert TABLE_META META_SNAPSHOT x d) = applied_index_of d.
Proof. unfold applied_index_of, get_applied_log_id. by rewrite tx_get_insert_ne. Qed.

Lemma applied_insert_membership x d :
  applied_index_of (tx_insert TABLE_META META_MEMBERSHIP x d) = applied_index_of d.
Proof. unfold applied_index_of, get_applied_log_id. by rewrite tx_get_insert_ne. Qed.

(** Writing a snapshot of a position that is applied keeps the invariant. *)
Lemma persisted_ok mt data n n' st :
  node_ok n st -> u64_id (sm_last_log_id mt) -> meta_index mt <= applied_index_of (nd_db n) ->
  snapshot_of (meta_index mt) data -> persisted mt data n n' ->
  node_ok n' st /\ applied_index_of (nd_db n') = applied_index_of (nd_db n).
Proof.
  intros [G1 G2 G3 G4 G5 G6 G7] Hu Hle Hd [P1 P2 P3 P4 P5 P6 P7 P8].
  assert (applied_index_of (nd_db n') = applied_index_of (nd_db n)) as E by (rewrite P1; apply applied_insert_snapshot).
  split; [|done]. split; rewrite ?E, ?P5, ?P7; try done.
  - right. exists mt, data. rewrite P1. split; [apply tx_get_insert|]. done.
  - intros mt' data' Hu' [[Ef ->]|Hf]%P3; [|by eapply G2].
    by rewrite (final_name_inj mt' mt).
  - intros t Ht. rewrite P4 in Ht. apply record_durable_index in Ht as [->|Ht]; [done|by apply G3].
Qed.

(** ** Every step keeps it *)

Lemma node_ok_db n st d :
  node_ok n st -> tx_get d TABLE_META META_SNAPSHOT = tx_get (nd_db n) TABLE_META META_SNAPSHOT ->
  applied_index_of (nd_db n) <= applied_index_of d -> node_ok (on_disk n d (nd_files n)) st.
Proof.
  intros [G1 G2 G3 G4 G5 G6 G7] Hr Hle. split; cbn [on_disk nd_db nd_log nd_files nd_tracker nd_last_applied]; try done.
  - rewrite Hr. destruct G1 as [?|(mt & data & ? & ? & ? & ?)]; [by left|right]. exists mt, data.
    split; [done|]. split; [done|]. split; [done|lia].
  - intros t Ht%G3. lia.
  - destruct G4. split; [done|lia].
  - lia.
Qed.

Lemma node_ok_memory n st lid m :
  node_ok n st -> u64_id lid -> id_index lid <= applied_index_of (nd_db n) -> node_ok (in_memory n lid m) st.
Proof. intros [G1 G2 G3 G4 G5 G6 G7] Hu Hle. by split. Qed.

Lemma node_ok_slot n st slot : node_ok n st -> node_ok (slotted n slot) st.
Proof. intros [G1 G2 G3 G4 G5 G6 G7]. by split. Qed.

Lemma publish_ok n st snap :
  node_ok n st -> node_ok (publish_snapshot snap n) st /\ nd_db (publish_snapshot snap n) = nd_db n.
Proof.
  intros Hn. unfold publish_snapshot. destruct (match nd_slot n with Some _ => _ | None => _ end); [|done].
  split; [by apply node_ok_slot|done].
Qed.

Lemma node_ok_tracked n st i t path :
  node_ok n st -> is_Some (tx_get (nd_db n) TABLE_META META_SNAPSHOT) -> i <= applied_index_of (nd_db n) ->
  node_ok (tracked n (record_durable i t path (nd_tracker n))) st.
Proof.
  intros [G1 G2 G3 G4 G5 G6 G7] [row Hrow] Hle. split; try done.
  { destruct G1 as [[E _]|?]; [congruence|by right]. }
  intros x Hx. cbn [tracked nd_tracker] in Hx.
  apply record_durable_index in Hx as [->|Hx]; [done|by apply G3].
Qed.

Lemma export_snapshot_of d i t data :
  in_u64 i -> i <= applied_index_of d \/ get_applied_log_id d = None ->
  snapshot_to_bytes (export_snapshot_data s d i t) = Ok data -> snapshot_of i data.
Proof.
  intros Hi Hle E. destruct (snapshot_bytes_roundtrip (export_snapshot_data s d i t) eq_refl) as (x & Ex & Hx).
  assert (x = data) as -> by congruence. exists (export_snapshot_data s d i t). split; [done|].
  unfold applied_of, applied_index_of in *. cbn [applied_term applied_node_id applied_index export_snapshot_data].
  destruct (get_applied_log_id d) as [a|] eqn:Ea; cbn in *.
  - split; [|destruct Hle; [lia|done]]. unfold get_applied_log_id in Ea.
    destruct (tx_get d TABLE_META META_LAST_APPLIED); [|done]. apply applied_from_bytes_wf in Ea. by destruct a.
  - split; [|lia]. split; [by vm_compute|]. split; [by vm_compute|done].
Qed.

Lemma import_body_meta sd d k :
  k ∉ [META_LAST_APPLIED; META_CURRENT_REVISION; META_COMPACT_REVISION; META_COMMIT_LOG_TRIMMED_BEFORE] ->
  tx_get (import_body sd d) TABLE_META k = tx_get d TABLE_META k.
Proof.
  intros Hk. unfold import_body. rewrite meta_writes. rewrite !not_elem_of_cons in Hk.
  rewrite !decide_False by tauto. by other_tables.
Qed.

Lemma import_body_applied sd d :
  applied_wf (applied_of sd) -> applied_index_of (import_body sd d) = applied_index sd.
Proof.
  intros Hw. unfold applied_index_of, get_applied_log_id, import_body. rewrite meta_writes.
  rewrite decide_False, decide_False, decide_True by done. cbn [mbind option_bind].
  fold (applied_of sd). by rewrite applied_roundtrip.
Qed.

Lemma import_bytes_ok i data n st n' :
  node_ok n st -> snapshot_of i data -> applied_index_of (nd_db n) <= i -> import_bytes s data n = (Ok tt, n') ->
  node_ok n' st /\ i <= applied_index_of (nd_db n').
Proof.
  intros Hn (sd & Hsd & Hw & Hi) Hle. unfold import_bytes.
  destruct (bytes_eqb_spec data []) as [->|_]; [by vm_compute in Hsd|]. rewrite Hsd.
  unfold import_snapshot_data. destruct (negb _); [done|]. destruct (_ <? _); [done|]. unfold backend_write.
  intros [= <-]. cbn [on_disk nd_db]. rewrite import_body_applied by done. split; [|done].
  apply node_ok_db; [done| |rewrite import_body_applied by done; lia]. apply import_body_meta.
  rewrite !not_elem_of_cons. by repeat split; [..|apply not_elem_of_nil].
Qed.

Lemma persist_membership_ok (n : Node M) :
  exists x, persist_membership n = (Ok tt, on_disk n (tx_insert TABLE_META META_MEMBERSHIP x (nd_db n)) (nd_files n)).
Proof. unfold persist_membership. destruct (encode_total (nd_membership n)) as [x ->]. by exists x. Qed.

Lemma install_ok mt data n st n' :
  node_ok n st -> u64_id (sm_last_log_id mt) -> snapshot_of (meta_index mt) data ->
  applied_index_of (nd_db n) <= meta_index mt -> install_snapshot s mt data n = (Ok tt, n') ->
  node_ok n' st /\ applied_index_of (nd_db n) <= applied_index_of (nd_db n').
Proof.
  intros Hn Hu Hd Hle. unfold install_snapshot. destruct (import_bytes s data n) as [[[]|e] n1] eqn:E1; [|done].
  destruct (import_bytes_ok _ _ _ _ _ Hn Hd Hle E1) as [Hn1 Hi1].
  destruct (persist_ok mt data n1) as (n2 & -> & Hp). destruct (persisted_ok _ _ _ _ _ Hn1 Hu Hi1 Hd Hp) as [Hn2 Ha2].
  match goal with |- context[persist_membership ?m] => destruct (persist_membership_ok m) as [x ->] end.
  intros [= <-].
  split; [|cbn [tracked nd_db on_disk in_memory slotted]; rewrite applied_insert_membership; lia].
  match goal with |- node_ok (tracked ?n _) _ => apply (node_ok_tracked n) end; [| |cbn [nd_db on_disk]; rewrite applied_insert_membership; lia].
  2:{ cbn [nd_db on_disk in_memory slotted]. rewrite tx_get_insert_ne, (ps_db _ _ _ _ Hp), tx_get_insert by done. eauto. }
  apply (node_ok_db (in_memory (slotted n2 (Some {| ss_meta := mt; ss_data := data |})) (sm_last_log_id mt) (sm_membership mt))).
  - apply node_ok_memory; [by apply node_ok_slot|done|]. cbn [slotted nd_db]. fold (meta_index mt). unfold id_index, meta_index in *. lia.
  - cbn [in_memory slotted nd_db]. by rewrite tx_get_insert_ne.
  - cbn [in_memory slotted nd_db]. rewrite applied_insert_membership. lia.
Qed.

Lemma sm_new_ok n st : node_ok n st -> node_ok (sm_new empty_membership (nd_db n) (nd_log n) (nd_files n)) st.
Proof.
  intros [G1 G2 G3 G4 G5 G6 G7]. unfold sm_new.
  destruct (load_persisted_snapshot_checked (nd_db n) (nd_files n)) as [[snap path]|] eqn:E.
  - destruct G1 as [[H _]|(mt & data & Hr & Hf & Hu & Hle)]; [unfold load_persisted_snapshot_checked in E; by rewrite H in E|].
    fold (load (nd_db n) (nd_files n)) in E. rewrite (load_row _ _ _ _ Hr) in E.
    rewrite Hf in E. cbn [mbind option_bind] in E. rewrite decide_True in E by done.
    injection E as <- <-. cbn [ss_meta]. split; cbn [nd_db nd_log nd_files nd_tracker nd_last_applied]; try done.
    + right. by exists mt, data.
    + intros t [= <-]. done.
  - split; cbn [nd_db nd_log nd_files nd_tracker nd_last_applied]; try done.
    { destruct G1 as [(? & _ & ?)|?]; [by left|by right]. }
    unfold applied_index_of. destruct (get_applied_log_id (nd_db n)) as [a|] eqn:Ea; cbn; [|done].
    destruct (Z.ltb_spec 0 (index a)); cbn; [split; [by eapply (applied_u64 (nd_db n))|done]|].
    split; [done|]. destruct (applied_u64 _ _ Ea) as [[? _] _]. done.
Qed.

Lemma rebuild_ok n st a :
  node_ok n st -> get_applied_log_id (nd_db n) = Some a -> 0 < index a ->
  exists n' data, rebuild_snapshot_from_mvcc empty_membership s n = (Ok (snapshot_name (index a) (term a)), n') /\
    node_ok n' st /\ nd_log n' = nd_log n /\
    nd_tracker n' = record_durable (index a) (term a) (snapshot_name (index a) (term a)) (nd_tracker n) /\
    nd_files n' !! snapshot_name (index a) (term a) = Some data /\
    nd_slot n' = Some {| ss_meta := {| sm_last_log_id := Some (log_id_of a);
                                       sm_membership := default empty_membership (load_membership (nd_db n)) |};
                         ss_data := data |} /\
    snapshot_of (index a) data.
Proof.
  intros Hn Ha H0. unfold rebuild_snapshot_from_mvcc. rewrite Ha. cbn [mbind option_bind].
  rewrite (proj2 (Z.ltb_lt _ _) H0).
  destruct (snapshot_bytes_roundtrip (export_snapshot_data s (nd_db n) (index a) (term a)) eq_refl) as (data & Ed & _).
  rewrite Ed. set (mt := {| sm_last_log_id := Some (log_id_of a); sm_membership := _ |}).
  destruct (persist_ok mt data n) as (n1 & -> & Hp).
  assert (applied_index_of (nd_db n) = index a) as Eap by (unfold applied_index_of; by rewrite Ha).
  assert (u64_id (Some (log_id_of a))) as Hu by (by eapply applied_u64).
  assert (snapshot_of (index a) data) as Hd.
  { eapply export_snapshot_of; [apply Hu| |exact Ed]. left. by rewrite Eap. }
  destruct (persisted_ok mt data n n1 st Hn Hu) as [Hn1 Ha1]; [by rewrite Eap|done|done|].
  destruct Hp as [P1 P2 P3 P4 P5 P6 P7 P8]. eexists _, data. split; [done|].
  split; [|by repeat split]. apply node_ok_memory; [by apply node_ok_slot|done|].
  cbn [slotted nd_db]. rewrite Ha1, Eap. done.
Qed.

Lemma restart_ok n st r n' :
  node_ok n st -> restart empty_membership s n = (r, n') ->
  r = Ok tt /\ node_ok n' st /\ nd_log n' = nd_log n /\
  forall p, ls_purged st = Some p ->
    durable_covers (is_file n') (log_index p) (nd_tracker n') = true /\
    exists snap, nd_slot n' = Some snap /\ log_index p <= meta_index (ss_meta snap) /\
      snapshot_of (log_index p) (ss_data snap).
Proof.
  intros Hn. unfold restart, startup_check. pose proof (sm_new_ok n st Hn) as Hn0.
  unfold last_purged. rewrite (read_meta_ok _ _ _ _ (rp_purged _ _ (no_log _ _ Hn0))).
  destruct (ls_purged st) as [p|] eqn:Ep.
  2:{ intros [= <- <-]. split; [done|]. split; [done|]. split; [|done]. unfold sm_new.
      by destruct (load_persisted_snapshot_checked _ _) as [[]|]. }
  destruct (no_row _ _ Hn) as [(_ & _ & E)|(mt & data & Hr & Hf & Hu & Hle)]; [congruence|].
  assert (load (nd_db n) (nd_files n) = Some ({| ss_meta := mt; ss_data := data |}, final_name mt)) as El.
  { rewrite (load_row _ _ _ _ Hr), Hf. cbn [mbind option_bind]. by rewrite decide_True. }
  pose proof (no_purged _ _ Hn0) as Hpu. revert Hn0 Hpu. unfold sm_new. unfold load in El. rewrite El. cbn [ss_meta].
  set (n0 := {| nd_db := nd_db n; nd_log := nd_log n; nd_files := nd_files n; nd_tracker := _; nd_slot := _;
    nd_last_applied := _; nd_membership := _ |}). intros Hn0 Hpu. unfold first_index in Hpu. rewrite Ep in Hpu.
  assert (durable_covers (is_file n0) (log_index p) (nd_tracker n0) = (log_index p <=? meta_index mt)) as ->.
  { cbn [n0 nd_tracker record_durable durable_covers durable_index durable_path]. unfold is_file, n0. cbn [nd_files].
    rewrite Hf, bool_decide_eq_true_2 by eauto. apply andb_true_r. }
  destruct (Z.leb_spec (log_index p) (meta_index mt)) as [Hcov|Hlt].
  - intros [= <- <-]. split; [done|]. split; [done|]. split; [done|]. intros p' [= <-]. split.
    { cbn [n0 nd_tracker record_durable durable_covers durable_index durable_path]. unfold is_file, n0. cbn [nd_files].
      rewrite Hf, bool_decide_eq_true_2 by eauto. rewrite andb_true_r. by apply Z.leb_le. }
    eexists. split; [done|]. split; [done|]. destruct (no_files _ _ Hn mt data Hu Hf) as (sd & ? & ? & ?).
    exists sd. split; [done|]. split; [done|]. lia.
  - assert (0 <= meta_index mt) as H0 by (by apply meta_u64 in Hu as [[? _] _]).
    unfold applied_index_of in Hpu. destruct (get_applied_log_id (nd_db n0)) as [a|] eqn:Ea; cbn in Hpu; [|lia].
    rewrite (proj2 (Z.leb_le (log_index p) (index a))) by lia.
    destruct (rebuild_ok n0 st a Hn0 Ea ltac:(lia)) as (n1 & x & -> & Hn1 & El1 & Et & Ef & Es & (sd & ? & ? & ?)).
    intros [= <- <-]. split; [done|]. split; [done|]. split; [done|]. intros p' [= <-].
    assert (nd_tracker n1 = Some {| durable_index := index a; durable_term := term a;
      durable_path := snapshot_name (index a) (term a) |}) as Et'.
    { rewrite Et. unfold record_durable. cbn [n0 nd_tracker]. unfold record_durable. cbn [durable_index].
      by rewrite (proj2 (Z.leb_le (meta_index mt) (index a))) by lia. }
    split.
    { rewrite Et'. unfold durable_covers, is_file. cbn [durable_index durable_path]. rewrite Ef.
      rewrite bool_decide_eq_true_2 by eauto. rewrite andb_true_r. apply Z.leb_le. lia. }
    eexists. split; [exact Es|]. split; [cbn; lia|]. exists sd. split; [done|]. split; [done|]. lia.
Qed.

Lemma build_ok_mono n n' o :
  applied_index_of (nd_db n) <= applied_index_of (nd_db n') -> build_ok n o -> build_ok n' o.
Proof.
  intros Hle. destruct o as [[bd|[mt o]]|]; [| |done]; cbn [build_ok].
  - intros [? ?]. split; [done|lia].
  - intros (? & ? & ?). split; [done|]. split; [lia|done].
Qed.

Lemma log_step_ok n st op :
  let c : call := {| lc_tracker := Some (nd_tracker n); lc_is_file := is_file n; lc_op := op |} in
  node_ok n st -> allowed st op -> node_ok (with_log n (log_call c (nd_log n)).2) (spec_call st c).
Proof.
  intros c Hn Ha. pose proof Hn as [G1 G2 G3 G4 G5 G6 G7].
  destruct (log_call_ok (nd_log n) st c G5 G6 Ha) as (log' & E & Hr). rewrite E.
  assert (raft_log_ok (spec_call st c)) as Hok by (unfold spec_call; destruct (refused c); [done|by apply spec_op_ok]).
  assert (refused c = true \/ (forall lid, op <> Purge lid) \/
    exists lid t, op = Purge lid /\ nd_tracker n = Some t /\ log_index lid <= durable_index t) as Hcase.
  { unfold refused. cbn [lc_op lc_tracker lc_is_file c]. destruct op as [| |lid| |]; try (right; left; done).
    destruct (durable_covers (is_file n) (log_index lid) (nd_tracker n)) eqn:Ec; [|by left]. right; right.
    unfold durable_covers in Ec. destruct (nd_tracker n) as [t|]; [|done]. apply andb_true_iff in Ec as [Hle%Z.leb_le _].
    by exists lid, t. }
  assert (forall o, (forall lid, o <> Purge lid) -> ls_purged (spec_op st o) = ls_purged st) as Hsame.
  { intros [|[]| | |] Ho; try done. by destruct (Ho lid). }
  split; cbn [with_log nd_db nd_log nd_files nd_tracker nd_last_applied]; try done.
  - destruct G1 as [(? & Ht & Hp)|?]; [left|by right]. split; [done|]. split; [done|]. unfold spec_call.
    destruct Hcase as [->|[Ho|(lid & t & _ & E' & _)]]; [done| |congruence].
    destruct (refused c); [done|]. by rewrite Hsame.
  - unfold spec_call. destruct Hcase as [->|[Ho|(lid & t & Eo & Et & Hle)]]; [done| |].
    + destruct (refused c); [done|]. unfold first_index in *. by rewrite Hsame.
    + destruct (refused c); [done|]. cbn [c lc_op]. rewrite Eo. unfold first_index. cbn [spec_op ls_purged].
      pose proof (G3 t Et). lia.
Qed.

Lemma build_read_ok n bd :
  build_ok n (Some (inl bd)) -> build_ok n (Some (inr (build_read bd n, None))).
Proof.
  cbn [build_ok]. unfold build_read, meta_index, load_applied, applied_index_of. cbn [sm_last_log_id].
  destruct (get_applied_log_id (nd_db n)) as [a|] eqn:Ea; cbn; [|naive_solver].
  intros _. split; [by eapply (applied_u64 (nd_db n))|]. done.
Qed.

Lemma build_finish_ok mt data n st r n' :
  node_ok n st -> build_ok n (Some (inr (mt, Some data))) -> build_finish mt data n = (r, n') ->
  r = Ok tt /\ node_ok n' st.
Proof.
  intros Hn (Hu & Hle & Hd). unfold build_finish. destruct (persist_ok mt data n) as (n1 & -> & Hp).
  intros [= <- <-]. split; [done|]. apply publish_ok. by eapply persisted_ok.
Qed.

Lemma step_ok w w' : world_ok w -> node_step w w' -> world_ok w'.
Proof.
  intros [Hn Hb] Hs. destruct Hs as [d lid m Hr Hle Hu Hi|op log c Ha E|E|bd E|mt data E Ee|mt data n r E Ef|mt data n Hu Hd Hle Ei|n Er|];
    unfold world_ok; cbn [w_node w_build w_log].
  - split; [by apply node_ok_memory; [apply node_ok_db|..]|]. revert Hb. by apply build_ok_mono.
  - rewrite <-E. split; [by apply log_step_ok|done].
  - split; [done|]. exact (no_memory _ _ Hn).
  - split; [done|]. rewrite E in Hb. by apply build_read_ok.
  - split; [done|]. rewrite E in Hb. destruct Hb as (Hu & Hle & _). split; [done|]. split; [done|]. cbn [from_option].
    eapply export_snapshot_of; [by apply meta_u64 in Hu as [? _]| |exact Ee]. by left.
  - split; [|done]. rewrite E in Hb. by eapply build_finish_ok in Ef as [_ ?].
  - destruct (install_ok _ _ _ _ _ Hn Hu Hd Hle Ei) as [Hn' Hle']. split; [done|]. revert Hb. by apply build_ok_mono.
  - split; [|done]. by eapply restart_ok in Er as (_ & ? & _).
  - split; [|done]. by apply sm_new_ok.
Qed.

(** A new node: empty databases, no files. *)
Definition new_world : NodeWorld :=
  {| w_node := sm_new empty_membership ∅ ∅ ∅; w_build := None; w_log := empty_log |}.

Lemma new_world_ok : world_ok new_world.
Proof.
  split; [|done]. cbn [new_world w_node w_log]. destruct empty_log_rep as [Hr Hok].
  assert (forall k, tx_get ∅ TABLE_META k = None) as He by (intros k; apply lookup_empty).
  unfold sm_new, load_persisted_snapshot_checked. rewrite He. cbn [mbind option_bind].
  split; cbn [nd_db nd_log nd_files nd_tracker nd_last_applied]; try done.
  left. by rewrite He.
Qed.

Lemma reachable_world_ok w : rtc node_step new_world w -> world_ok w.
Proof.
  intros H. assert (world_ok new_world) as H0 by apply new_world_ok. revert H0.
  induction H as [|x y z Hs _ IH]; [done|]. intros Hx. apply IH. by eapply step_ok.
Qed.

(** C20: a restart finds a snapshot for what the log no longer holds.  In every
    state a node can reach, the startup of the single Raft group succeeds, and
    wherever the log is purged up to some position the node then has a
    snapshot file on disk that the purge guard counts and a current snapshot to
    send whose position and whose content reach at least as far. *)
Theorem restart_covers_purged_log w r n :
  rtc node_step new_world w -> restart empty_membership s (w_node w) = (r, n) ->
  r = Ok tt /\ last_purged (nd_log n) = Ok (ls_purged (w_log w)) /\
  forall p, ls_purged (w_log w) = Some p ->
    durable_covers (is_file n) (log_index p) (nd_tracker n) = true /\
    exists snap, (get_current_snapshot n).1 = Some snap /\ log_index p <= meta_index (ss_meta snap) /\
      exists sd, snapshot_from_bytes (ss_data snap) = Ok sd /\ log_index p <= applied_index sd.
Proof.
  intros [Hn _]%reachable_world_ok Hr. destruct (restart_ok _ _ _ _ Hn Hr) as (H1 & H2 & H3 & H4).
  split; [done|]. split; [by apply read_meta_ok, H2|]. intros p Hp.
  destruct (H4 p Hp) as (Hc & snap & Hs & Hle & sd & Hsd & _ & Hi). split; [done|]. exists snap.
  unfold get_current_snapshot. rewrite Hs. split; [done|]. split; [done|]. by exists sd.
Qed.

(** ** A Region's restart *)

Lemma import_bytes_frame data (n : Node M) r n' :
  import_bytes s data n = (r, n') ->
  nd_log n' = nd_log n /\ nd_files n' = nd_files n /\ nd_tracker n' = nd_tracker n.
Proof.
  unfold import_bytes. destruct (bytes_eqb data []); [by intros [= _ <-]|].
  destruct (snapshot_from_bytes data) as [sd|e]; [|by intros [= _ <-]].
  destruct (import_snapshot_data s sd (nd_db n)) as [r' d]. by intros [= _ <-].
Qed.

(** What an install leaves behind, besides the state. *)
Lemma install_post mt data n st n' :
  node_ok n st -> applied_index_of (nd_db n) <= meta_index mt -> install_snapshot s mt data n = (Ok tt, n') ->
  nd_log n' = nd_log n /\ nd_slot n' = Some {| ss_meta := mt; ss_data := data |} /\
  nd_files n' !! final_name mt = Some data /\
  nd_tracker n' = Some {| durable_index := meta_index mt; durable_term := meta_term mt; durable_path := final_name mt |}.
Proof.
  intros Hn Hle. unfold install_snapshot. destruct (import_bytes s data n) as [[[]|e] n1] eqn:E1; [|done].
  destruct (import_bytes_frame _ _ _ _ E1) as (F1 & F2 & F3).
  destruct (persist_ok mt data n1) as (n2 & -> & [P1 P2 P3 P4 P5 P6 P7 P8]).
  match goal with |- context[persist_membership ?m] => destruct (persist_membership_ok m) as [x ->] end.
  intros [= <-]. cbn [tracked on_disk in_memory slotted nd_log nd_slot nd_files nd_tracker].
  split; [congruence|]. split; [done|]. split; [done|]. rewrite P4, F3.
  assert (forall tr, (forall t, tr = Some t -> durable_index t <= meta_index mt) ->
    record_durable (meta_index mt) (meta_term mt) (final_name mt) tr =
    Some {| durable_index := meta_index mt; durable_term := meta_term mt; durable_path := final_name mt |}) as Hrec.
  { intros [t|] Ht; [|done]. unfold record_durable. by rewrite (proj2 (Z.leb_le _ _) (Ht t eq_refl)). }
  rewrite (Hrec (nd_tracker n)); [rewrite Hrec; [done|by intros t [= <-]]|].
  intros t Ht. pose proof (no_tracker _ _ Hn t Ht). lia.
Qed.

Lemma purge_covered lid (mt : meta) data n st :
  node_ok n st -> allowed st (Purge lid) -> log_index lid <= meta_index mt ->
  nd_files n !! final_name mt = Some data ->
  nd_tracker n = Some {| durable_index := meta_index mt; durable_term := meta_term mt; durable_path := final_name mt |} ->
  log_rep (purge (Some (nd_tracker n)) (is_file n) lid (nd_log n)).2 (spec_op st (Purge lid)).
Proof.
  intros Hn Ha Hle Hf Ht. destruct (purge_ok (nd_log n) st (Some (nd_tracker n)) (is_file n) lid) as (d' & E & Hr).
  - apply (no_log _ _ Hn).
  - apply (no_log_ok _ _ Hn).
  - done.
  - rewrite Ht. unfold durable_covers, is_file. cbn [durable_index durable_path]. rewrite Hf.
    rewrite bool_decide_eq_true_2 by eauto. rewrite andb_true_r. by apply Z.leb_le.
  - by rewrite E.
Qed.

(** A late build takes a Region's snapshot back behind its log.  A snapshot
    is built, and before its file is written the node installs a newer one from
    the leader and purges its log up to there; the slot in memory keeps the
    newer snapshot, but the row on disk is overwritten by the older one.  After a
    restart of a Region's group the snapshot to send ends before the first entry
    of the log, and the guard no longer covers the purged part. *)
Theorem late_build_takes_snapshot_back n st mt data mt' data' n1 lid n2 n3 :
  node_ok n st -> build_ok n (Some (inr (mt, Some data))) ->
  u64_id (sm_last_log_id mt') -> sm_last_log_id mt' = Some lid -> snapshot_of (meta_index mt') data' ->
  applied_index_of (nd_db n) <= meta_index mt' -> meta_index mt < meta_index mt' -> allowed st (Purge lid) ->
  install_snapshot s mt' data' n = (Ok tt, n1) ->
  n2 = with_log n1 (purge (Some (nd_tracker n1)) (is_file n1) lid (nd_log n1)).2 ->
  build_finish mt data n2 = (Ok tt, n3) ->
  last_purged (nd_log n3) = Ok (Some lid) /\
  nd_slot n3 = Some {| ss_meta := mt'; ss_data := data' |} /\
  let n4 := region_restart empty_membership n3 in
  (get_current_snapshot n4).1 = Some {| ss_meta := mt; ss_data := data |} /\ meta_index mt < log_index lid /\
  durable_covers (is_file n4) (log_index lid) (nd_tracker n4) = false.
Proof.
  intros Hn (Hu & _ & _) Hu' El Hd' Hle Hlt Ha Hi -> Hb.
  assert (meta_index mt' = log_index lid) as Em by (unfold meta_index; by rewrite El).
  destruct (install_ok _ _ _ _ _ Hn Hu' Hd' Hle Hi) as [Hn1 _].
  destruct (install_post _ _ _ _ _ Hn Hle Hi) as (F1 & F2 & F3 & F4).
  pose proof (purge_covered lid mt' data' n1 st Hn1 Ha ltac:(lia) F3 F4) as Hrep.
  set (n2 := with_log n1 _) in Hb. unfold build_finish in Hb. destruct (persist_ok mt data n2) as (n' & Ep & Hp).
  rewrite Ep in Hb. destruct Hp as [P1 P2 P3 P4 P5 P6 P7 P8]. injection Hb as <-.
  assert (nd_slot n' = Some {| ss_meta := mt'; ss_data := data' |}) as Es by (rewrite P6; exact F2).
  unfold publish_snapshot. rewrite Es. cbn [ss_meta]. rewrite (proj2 (Z.leb_gt _ _) Hlt).
  split; [rewrite P5; apply read_meta_ok; apply Hrep|]. split; [done|].
  assert (load (nd_db n') (nd_files n') = Some ({| ss_meta := mt; ss_data := data |}, final_name mt)) as Eload.
  { rewrite (load_row _ _ mt data), P2 by (rewrite P1; apply tx_get_insert). cbn [mbind option_bind]. by rewrite decide_True. }
  unfold region_restart, sm_new. unfold load in Eload. rewrite Eload. split; [done|]. split; [lia|].
  unfold durable_covers. cbn [nd_tracker record_durable durable_index ss_meta].
  rewrite (proj2 (Z.leb_gt (log_index lid) (meta_index mt))) by lia. done.
Qed.

End recovery.
