(* ===== verification/Approval.v ===== *)
(** * The approval engine

    [coord-core/src/workflow/approval/engine.rs] with the entities of [model.rs]:
    one approval instance with its branches (runs of a node), rounds (votes of a
    branch) and tasks (seats of a round), and the commands on it.  The engine is
    a value; a command runs on it, answers with the effects it reports or with
    an error, and leaves the engine it has changed.  The text of an error is
    dropped, its kind and its fields are kept. *)

From S2P Require Export Bytes.

Local Open Scope Z_scope.

(** ** Values of [serde_json] *)

Inductive Value :=
  | VNull
  | VBool (x : bool)
  | VNumber (z : Z)
  | VFloat (bits : Z)
  | VString (s : bytes)
  | VArray (items : list Value)
  | VObject (fields : list (bytes * Value)).

Abbreviation Id := bytes.
Abbreviation Principal := bytes.
Abbreviation Scope := (gmap bytes Value).

(** [BTreeMap::values]: in the order of the keys. *)
Definition entry_le {A : Type} (x y : bytes * A) : Prop := bytes_le x.1 y.1.

#[export] Instance entry_le_dec {A : Type} : RelDecision (@entry_le A).
Proof. intros x y. unfold entry_le. apply _. Defined.

Definition entries {A : Type} (m : gmap bytes A) : list (bytes * A) := merge_sort entry_le (map_to_list m).
Definition values {A : Type} (m : gmap bytes A) : list A := (entries m).*2.

(** [Iterator::max_by_key]: the last of the greatest. *)
Definition max_by_key {A : Type} (f : A -> Z) (l : list A) : option A :=
  foldl (fun best x => match best with
                       | None => Some x
                       | Some y => if f y <=? f x then Some x else Some y
                       end) None l.

(** ** Entities *)

Inductive InstanceStatus := IPending | IRunning | ICompleted | IRejected | ITerminated | ICancelled | IFaulted.
Inductive BranchStatus := BOpen | BCompleted | BRejected | BReturned | BSuperseded | BCancelled | BTerminated.
Inductive TaskStatus := TCreated | TClaimed | TCompleted | TRejected | TCancelled | TExpired.
Inductive RoundStatus := ROpen | RPassed | RRejected | RSuperseded | RCancelled.

Inductive JoinPolicy := JAll | JAny | JQuorum (n : Z) | JRatio (num den : Z).
Inductive RejectPolicy := AnyReject | OnExhausted.
Inductive TaskKind := KApproval | KReadAck.
Inductive Decision := DApprove | DReject.
Inductive AssignKind := AClaim | ATransfer | ADelegate.

#[export] Instance InstanceStatus_eq_dec : EqDecision InstanceStatus.
Proof. solve_decision. Defined.
#[export] Instance BranchStatus_eq_dec : EqDecision BranchStatus.
Proof. solve_decision. Defined.
#[export] Instance TaskStatus_eq_dec : EqDecision TaskStatus.
Proof. solve_decision. Defined.
#[export] Instance RoundStatus_eq_dec : EqDecision RoundStatus.
Proof. solve_decision. Defined.
#[export] Instance RejectPolicy_eq_dec : EqDecision RejectPolicy.
Proof. solve_decision. Defined.
#[export] Instance TaskKind_eq_dec : EqDecision TaskKind.
Proof. solve_decision. Defined.

Definition is_terminal (s : InstanceStatus) : bool :=
  match s with
  | ICompleted | IRejected | ITerminated | ICancelled | IFaulted => true
  | IPending | IRunning => false
  end.

Definition is_open (s : TaskStatus) : bool :=
  match s with TCreated | TClaimed => true | _ => false end.

Record AuditEntry := {
  audit_at : Z;
  audit_action : bytes;
  audit_branch : option Id;
  audit_by : Principal;
  audit_detail : bytes;
  audit_acting_service : option Principal }.

Record ReturnRecord := {
  from_node : bytes;
  to_node : bytes;
  return_by : Principal;
  return_comment : option bytes;
  return_at : Z }.

Record Instance_ := {
  inst_id : Id;
  definition_ns : bytes;
  definition_name : bytes;
  definition_version : bytes;
  definition_hash : bytes;
  engine_version : bytes;
  initiator : Principal;
  inst_status : InstanceStatus;
  context : Scope;
  root_branch_id : option Id;
  revision : Z;
  jump_count : Z;
  audit : list AuditEntry;
  returns : list ReturnRecord;
  inst_created_at : Z;
  inst_updated_at : Z }.

Record ApprovalPolicy := { allow_self_approve : bool; sign_admins : list Principal }.
Definition default_policy : ApprovalPolicy := {| allow_self_approve := false; sign_admins := [] |}.

Record Branch := {
  br_id : Id;
  br_instance_id : Id;
  parent_branch_id : option Id;
  node : bytes;
  attempt : Z;
  br_status : BranchStatus;
  join : JoinPolicy;
  reject_policy : RejectPolicy;
  policy : ApprovalPolicy;
  br_scope : Scope;
  round_ids : list Id;
  br_created_at : Z;
  br_closed_at : option Z }.

Record Delegation := { deleg_from : Principal; deleg_to : Principal; granted_at : Z }.

Record VoteRecord := {
  vote_round : Id;
  vote_decision : Decision;
  vote_actor : Principal;
  on_behalf_of : option Principal;
  vote_comment : option bytes;
  vote_at : Z;
  vote_acting_service : option Principal }.

Record Task := {
  task_id : Id;
  task_branch : Id;
  task_round : Id;
  kind : TaskKind;
  task_status : TaskStatus;
  assignee : option Principal;
  candidates : list Principal;
  deadline : option Z;
  delegation : option Delegation;
  transferred_from : list Principal;
  votes : list VoteRecord;
  task_scope : Scope;
  task_created_at : Z;
  task_updated_at : Z }.

Record SeatSpec := { seat_assignee : option Principal; seat_candidates : list Principal; seat_kind : TaskKind }.
Definition approver (p : Principal) : SeatSpec :=
  {| seat_assignee := Some p; seat_candidates := []; seat_kind := KApproval |}.
Definition reader (p : Principal) : SeatSpec :=
  {| seat_assignee := Some p; seat_candidates := []; seat_kind := KReadAck |}.
Definition pool (candidates : list Principal) : SeatSpec :=
  {| seat_assignee := None; seat_candidates := candidates; seat_kind := KApproval |}.

Record Round := {
  rd_id : Id;
  rd_branch : Id;
  number : Z;
  rd_status : RoundStatus;
  total_count : Z;
  completed_count : Z;
  rejected_count : Z;
  opened_at : Z;
  rd_closed_at : option Z }.

Inductive Effect :=
  | EInstanceStatus (from to : InstanceStatus)
  | EBranchCreated (id : Id) (node : bytes) (attempt : Z)
  | EBranchStatus (id : Id) (from to : BranchStatus)
  | ETaskCreated (id branch round : Id) (kind : TaskKind) (assignee : option Principal) (candidates : list Principal)
  | ETaskStatus (id : Id) (from to : TaskStatus)
  | ETaskAssigned (id : Id) (assignee : Principal) (kind : AssignKind)
  | ERoundOpened (id branch : Id) (number : Z)
  | ERoundCounted (id : Id) (total completed rejected : Z)
  | ERoundStatus (id : Id) (from to : RoundStatus)
  | EEvent (name : bytes) (data : Value).

Inductive ApprovalError :=
  | NotFound (id : bytes)
  | InvalidTransition
  | NotAuthorized
  | InvalidArgument
  | StaleRevision (expected actual : Z).

(** The aggregate. *)
Record Engine := {
  instance : Instance_;
  branches : gmap Id Branch;
  tasks : gmap Id Task;
  rounds : gmap Id Round;
  node_attempts : gmap bytes Z;
  seq : Z;
  acting_service : option Principal }.

Definition MAX_JUMPS : Z := 20.
Definition MAX_INSTANCE_ID_LEN : nat := 128.
Definition APPROVAL_ENGINE_VERSION : bytes := b "v2".

(** ** Assignments to fields *)

Definition with_instance (f : Instance_ -> Instance_) (e : Engine) : Engine :=
  {| instance := f (instance e); branches := branches e; tasks := tasks e; rounds := rounds e;
     node_attempts := node_attempts e; seq := seq e; acting_service := acting_service e |}.
Definition with_branches (f : gmap Id Branch -> gmap Id Branch) (e : Engine) : Engine :=
  {| instance := instance e; branches := f (branches e); tasks := tasks e; rounds := rounds e;
     node_attempts := node_attempts e; seq := seq e; acting_service := acting_service e |}.
Definition with_tasks (f : gmap Id Task -> gmap Id Task) (e : Engine) : Engine :=
  {| instance := instance e; branches := branches e; tasks := f (tasks e); rounds := rounds e;
     node_attempts := node_attempts e; seq := seq e; acting_service := acting_service e |}.
Definition with_rounds (f : gmap Id Round -> gmap Id Round) (e : Engine) : Engine :=
  {| instance := instance e; branches := branches e; tasks := tasks e; rounds := f (rounds e);
     node_attempts := node_attempts e; seq := seq e; acting_service := acting_service e |}.
Definition with_attempts (f : gmap bytes Z -> gmap bytes Z) (e : Engine) : Engine :=
  {| instance := instance e; branches := branches e; tasks := tasks e; rounds := rounds e;
     node_attempts := f (node_attempts e); seq := seq e; acting_service := acting_service e |}.
Definition with_seq (n : Z) (e : Engine) : Engine :=
  {| instance := instance e; branches := branches e; tasks := tasks e; rounds := rounds e;
     node_attempts := node_attempts e; seq := n; acting_service := acting_service e |}.
Definition set_acting_service (service : option Principal) (e : Engine) : Engine :=
  {| instance := instance e; branches := branches e; tasks := tasks e; rounds := rounds e;
     node_attempts := node_attempts e; seq := seq e; acting_service := service |}.

(** The fields of an instance that commands change: status, root branch,
    revision, jumps, audit, returns, time of the update. *)
Definition change_instance (st : InstanceStatus) (root : option Id) (rev jumps : Z) (au : list AuditEntry)
    (re : list ReturnRecord) (upd : Z) (i : Instance_) : Instance_ :=
  {| inst_id := inst_id i; definition_ns := definition_ns i; definition_name := definition_name i;
     definition_version := definition_version i; definition_hash := definition_hash i;
     engine_version := engine_version i; initiator := initiator i; inst_status := st; context := context i;
     root_branch_id := root; revision := rev; jump_count := jumps; audit := au; returns := re;
     inst_created_at := inst_created_at i; inst_updated_at := upd |}.

Definition set_inst_status (st : InstanceStatus) (i : Instance_) : Instance_ :=
  change_instance st (root_branch_id i) (revision i) (jump_count i) (audit i) (returns i) (inst_updated_at i) i.
Definition set_root (id : Id) (i : Instance_) : Instance_ :=
  change_instance (inst_status i) (Some id) (revision i) (jump_count i) (audit i) (returns i) (inst_updated_at i) i.
Definition push_audit (a : AuditEntry) (i : Instance_) : Instance_ :=
  change_instance (inst_status i) (root_branch_id i) (revision i) (jump_count i) (audit i ++ [a]) (returns i)
    (inst_updated_at i) i.
Definition push_return (r : ReturnRecord) (i : Instance_) : Instance_ :=
  change_instance (inst_status i) (root_branch_id i) (revision i) (u32_wrap (jump_count i + 1)) (audit i)
    (returns i ++ [r]) (inst_updated_at i) i.

Definition set_branch (st : BranchStatus) (closed : option Z) (x : Branch) : Branch :=
  {| br_id := br_id x; br_instance_id := br_instance_id x; parent_branch_id := parent_branch_id x;
     node := node x; attempt := attempt x; br_status := st; join := join x; reject_policy := reject_policy x;
     policy := policy x; br_scope := br_scope x; round_ids := round_ids x; br_created_at := br_created_at x;
     br_closed_at := closed |}.
Definition push_round (id : Id) (x : Branch) : Branch :=
  {| br_id := br_id x; br_instance_id := br_instance_id x; parent_branch_id := parent_branch_id x;
     node := node x; attempt := attempt x; br_status := br_status x; join := join x;
     reject_policy := reject_policy x; policy := policy x; br_scope := br_scope x;
     round_ids := round_ids x ++ [id]; br_created_at := br_created_at x; br_closed_at := br_closed_at x |}.

(** The fields of a task that commands change. *)
Definition change_task (st : TaskStatus) (who : option Principal) (dg : option Delegation)
    (tf : list Principal) (vs : list VoteRecord) (now : Z) (t : Task) : Task :=
  {| task_id := task_id t; task_branch := task_branch t; task_round := task_round t; kind := kind t;
     task_status := st; assignee := who; candidates := candidates t; deadline := deadline t; delegation := dg;
     transferred_from := tf; votes := vs; task_scope := task_scope t; task_created_at := task_created_at t;
     task_updated_at := now |}.
Definition set_task_status (st : TaskStatus) (now : Z) (t : Task) : Task :=
  change_task st (assignee t) (delegation t) (transferred_from t) (votes t) now t.

Definition set_round (st : RoundStatus) (closed : option Z) (r : Round) : Round :=
  {| rd_id := rd_id r; rd_branch := rd_branch r; number := number r; rd_status := st;
     total_count := total_count r; completed_count := completed_count r; rejected_count := rejected_count r;
     opened_at := opened_at r; rd_closed_at := closed |}.
Definition set_counts (total completed rejected : Z) (r : Round) : Round :=
  {| rd_id := rd_id r; rd_branch := rd_branch r; number := number r; rd_status := rd_status r;
     total_count := total; completed_count := completed; rejected_count := rejected;
     opened_at := opened_at r; rd_closed_at := rd_closed_at r |}.

(** ** Steps that cannot fail

    Such a step returns the effects it reports and the engine after it. *)

Definition W : Type := Engine -> list Effect * Engine.

Definition skip : W := fun e => ([], e).
Definition emits (out : list Effect) : W := fun e => (out, e).
Definition updates (f : Engine -> Engine) : W := fun e => ([], f e).
Definition andthen (f g : W) : W := fun e =>
  let '(o1, e1) := f e in let '(o2, e2) := g e1 in (o1 ++ o2, e2).
Fixpoint for_each (f : Id -> W) (ids : list Id) : W :=
  match ids with
  | [] => skip
  | id :: ids => andthen (f id) (for_each f ids)
  end.

Declare Scope approval_scope.
Delimit Scope approval_scope with approval.
Notation "f ;; g" := (andthen f g) (at level 100, g at level 200, right associativity) : approval_scope.
Local Open Scope approval_scope.

(** [format!("{}:{prefix}-{:04}", ...)]. *)
Definition pad4 (x : bytes) : bytes := replicate (4 - length x) x30 ++ x.
Definition gen_id (iid prefix : bytes) (n : Z) : Id := iid ++ b ":" ++ prefix ++ b "-" ++ pad4 (decimal n).

Definition gen (prefix : bytes) (e : Engine) : Id * Engine :=
  let n := u64_wrap (seq e + 1) in (gen_id (inst_id (instance e)) prefix n, with_seq n e).

Definition touch (now : Z) (e : Engine) : Engine :=
  with_instance (fun i => change_instance (inst_status i) (root_branch_id i) (u64_wrap (revision i + 1))
    (jump_count i) (audit i) (returns i) now i) e.

Definition emit (name : bytes) (data : Value) : W := emits [EEvent name data].

Definition audited (now : Z) (action : bytes) (branch : option Id) (by_ : Principal) (detail : bytes) : W :=
  updates (fun e => with_instance (push_audit {| audit_at := now; audit_action := action; audit_branch := branch;
    audit_by := by_; audit_detail := detail; audit_acting_service := acting_service e |}) e).

Definition create_branch (nd : bytes) (parent : option Id) (jn : JoinPolicy) (rj : RejectPolicy)
    (pl : ApprovalPolicy) (now : Z) (e : Engine) : Id * (list Effect * Engine) :=
  let att := u32_wrap (default 0 (node_attempts e !! nd) + 1) in
  let e := with_attempts (<[nd := att]>) e in
  let '(id, e) := gen (b "branch") e in
  let e := with_branches (<[id := {| br_id := id; br_instance_id := inst_id (instance e);
    parent_branch_id := parent; node := nd; attempt := att; br_status := BOpen; join := jn;
    reject_policy := rj; policy := pl; br_scope := ∅; round_ids := []; br_created_at := now;
    br_closed_at := None |}]>) e in
  let e := match root_branch_id (instance e) with
           | None => with_instance (set_root id) e
           | Some _ => e
           end in
  (id, ([EBranchCreated id nd att], e)).

Definition new_task (tid bid rid : Id) (s : SeatSpec) (dl : option Z) (now : Z) : Task :=
  {| task_id := tid; task_branch := bid; task_round := rid; kind := seat_kind s; task_status := TCreated;
     assignee := seat_assignee s; candidates := seat_candidates s; deadline := dl; delegation := None;
     transferred_from := []; votes := []; task_scope := ∅; task_created_at := now; task_updated_at := now |}.

Definition empty_seat (s : SeatSpec) : bool :=
  bool_decide (seat_assignee s = None) && bool_decide (seat_candidates s = []).

Fixpoint add_seats (bid rid : Id) (seats : list SeatSpec) (dl : option Z) (now : Z) (e : Engine)
    : list Id * (list Effect * Engine) :=
  match seats with
  | [] => ([], ([], e))
  | s :: seats =>
    if empty_seat s then add_seats bid rid seats dl now e
    else
      let '(tid, e) := gen (b "task") e in
      let e := with_tasks (<[tid := new_task tid bid rid s dl now]>) e in
      let '(ids, (out, e)) := add_seats bid rid seats dl now e in
      (tid :: ids, (ETaskCreated tid bid rid (seat_kind s) (seat_assignee s) (seat_candidates s) :: out, e))
  end.

Definition cancel_task (now : Z) (id : Id) : W := fun e =>
  match tasks e !! id with
  | Some t =>
    if is_open (task_status t) then
      ([ETaskStatus id (task_status t) TCancelled],
       with_tasks (<[id := set_task_status TCancelled now t]>) e)
    else ([], e)
  | None => ([], e)
  end.
Definition cancel_tasks (ids : list Id) (now : Z) : W := for_each (cancel_task now) ids.

Definition cancel_pending_tasks (rid : Id) (now : Z) : W := fun e =>
  let ids := task_id <$> List.filter (fun t => bytes_eqb (task_round t) rid && is_open (task_status t))
                           (values (tasks e)) in
  cancel_tasks ids now e.

Definition close_round (to : RoundStatus) (now : Z) (id : Id) : W := fun e =>
  match rounds e !! id with
  | Some r => ([ERoundStatus id (rd_status r) to], with_rounds (<[id := set_round to (Some now) r]>) e)
  | None => ([], e)
  end.
Definition close_rounds_of_branch (bid : Id) (to : RoundStatus) (now : Z) : W := fun e =>
  let ids := rd_id <$> List.filter (fun r => bytes_eqb (rd_branch r) bid && bool_decide (rd_status r = ROpen))
                         (values (rounds e)) in
  for_each (close_round to now) ids e.

Definition set_branch_status (bid : Id) (to : BranchStatus) (now : Z) : W := fun e =>
  match branches e !! bid with
  | Some x =>
    if bool_decide (br_status x = to) then ([], e)
    else
      let closed := match br_closed_at x with None => Some now | Some c => Some c end in
      ([EBranchStatus (br_id x) (br_status x) to], with_branches (<[bid := set_branch to closed x]>) e)
  | None => ([], e)
  end.

Definition cancel_open_branches (st : BranchStatus) (now : Z) : W := fun e =>
  let ids := br_id <$> List.filter (fun x => bool_decide (br_status x = BOpen)) (values (branches e)) in
  for_each (fun bid e =>
    let task_ids := task_id <$> List.filter (fun t => bytes_eqb (task_branch t) bid && is_open (task_status t))
                                  (values (tasks e)) in
    (cancel_tasks task_ids now ;; close_rounds_of_branch bid RCancelled now ;; set_branch_status bid st now) e)
    ids e.

Definition ev_instance_rejected : bytes := b "com.china-workflow.instance.rejected.v1".
Definition instance_data (e : Engine) : Value := VObject [(b "instance_id", VString (inst_id (instance e)))].

Definition close_branch (bid : Id) (to : BranchStatus) (now : Z) : W := fun e =>
  match branches e !! bid with
  | None => ([], e)
  | Some x =>
    let from := br_status x in
    let x := set_branch to (Some now) x in
    (updates (with_branches (<[br_id x := x]>)) ;; emits [EBranchStatus (br_id x) from to] ;;
     (fun e =>
        if bool_decide (parent_branch_id x = None) && bool_decide (to = BRejected) then
          let before := inst_status (instance e) in
          if bool_decide (before = IRejected) then ([], e)
          else (updates (with_instance (set_inst_status IRejected)) ;;
                emits [EInstanceStatus before IRejected] ;;
                emit ev_instance_rejected (instance_data e)) e
        else ([], e))) e
  end.

(** The decision table of a round. *)
Definition passes (j : JoinPolicy) (total completed : Z) : bool :=
  match j with
  | JAll => false
  | JAny => 1 <=? completed
  | JQuorum n => n <=? completed
  | JRatio num den => total * num <=? completed * den
  end.

Definition verdict (rj : RejectPolicy) (jn : JoinPolicy) (no_seats : bool) (total completed rejected : Z)
    : option RoundStatus :=
  if bool_decide (rj = AnyReject) && (0 <? rejected) then Some RRejected
  else if no_seats then Some RPassed
  else if (0 <? total) && (total <=? completed) then Some RPassed
  else if 0 <? total then
    if passes jn total completed then Some RPassed
    else if total <=? completed + rejected then Some RRejected
    else None
  else None.

Definition approvals (rid : Id) (e : Engine) : list Task :=
  List.filter (fun t => bytes_eqb (task_round t) rid && bool_decide (kind t = KApproval)) (values (tasks e)).

(** [.filter(p).count() as u32]. *)
Definition count_u32 (p : TaskStatus -> bool) (l : list Task) : Z :=
  u32_wrap (Z.of_nat (length (List.filter (fun t => p (task_status t)) l))).

Definition counts (st : TaskStatus) : bool := match st with TCancelled | TExpired => false | _ => true end.

Definition round_data (e : Engine) (r : Round) : Value :=
  VObject [(b "instance_id", VString (inst_id (instance e))); (b "branch_id", VString (rd_branch r));
           (b "round_id", VString (rd_id r)); (b "total", VNumber (total_count r));
           (b "completed", VNumber (completed_count r)); (b "rejected", VNumber (rejected_count r))].

(** A round that is decided closes with its open seats and its branch. *)
Definition decide_round (r : Round) (rid : Id) (to : RoundStatus) (br_to : BranchStatus) (name : bytes) (now : Z)
    : W :=
  let r := set_round to (Some now) r in
  updates (with_rounds (<[rd_id r := r]>)) ;;
  emits [ERoundStatus (rd_id r) ROpen to] ;;
  cancel_pending_tasks rid now ;;
  close_branch (rd_branch r) br_to now ;;
  (fun e => emit name (round_data e r) e).

Definition recount (rid : Id) (now : Z) : W := fun e =>
  match rounds e !! rid with
  | None => ([], e)
  | Some round =>
    if negb (bool_decide (rd_status round = ROpen)) then ([], e)
    else
      match branches e !! rd_branch round with
      | None => ([], e)
      | Some branch =>
        if negb (bool_decide (br_status branch = BOpen)) then ([], e)
        else
          let aps := approvals (rd_id round) e in
          let total := count_u32 counts aps in
          let completed := count_u32 (fun s => bool_decide (s = TCompleted)) aps in
          let rejected := count_u32 (fun s => bool_decide (s = TRejected)) aps in
          let r := set_counts total completed rejected round in
          (emits [ERoundCounted (rd_id r) total completed rejected] ;;
           match verdict (reject_policy branch) (join branch) (bool_decide (aps = [])) total completed rejected with
           | Some RPassed => decide_round r rid RPassed BCompleted (b "com.china-workflow.approval.round.passed.v1") now
           | Some RRejected =>
             decide_round r rid RRejected BRejected (b "com.china-workflow.approval.round.rejected.v1") now
           | _ => updates (with_rounds (<[rd_id r := r]>))
           end) e
      end
  end.

(** ** Commands

    A command may stop with an error; the engine it leaves then is the one it
    has reached. *)

Definition M (A : Type) : Type := Engine -> (ApprovalError + A) * Engine.

#[export] Instance M_ret : MRet M := fun _ a e => (inr a, e).
#[export] Instance M_bind : MBind M := fun _ _ k m e =>
  match m e with
  | (inl x, e) => (inl x, e)
  | (inr a, e) => k a e
  end.

Definition fail {A : Type} (x : ApprovalError) : M A := fun e => (inl x, e).
Definition get : M Engine := fun e => (inr e, e).
Definition lift (f : W) : M (list Effect) := fun e => let '(out, e) := f e in (inr out, e).
Definition modify (f : Engine -> Engine) : M unit := fun e => (inr tt, f e).
Definition ensure (c : bool) (x : ApprovalError) : M unit := if c then mret tt else fail x.
Definition found {A : Type} (o : option A) (x : ApprovalError) : M A :=
  match o with Some a => mret a | None => fail x end.

Definition guard (expected : Z) : M unit :=
  e ← get;
  _ ← ensure (revision (instance e) =? expected) (StaleRevision expected (revision (instance e)));
  ensure (negb (is_terminal (inst_status (instance e)))) InvalidTransition.

Definition get_task (id : Id) : M Task := e ← get; found (tasks e !! id) (NotFound id).
Definition get_branch (id : Id) : M Branch := e ← get; found (branches e !! id) (NotFound id).
Definition put_task (t : Task) : M unit := modify (with_tasks (<[task_id t := t]>)).

(** A branch that must be open. *)
Definition open_branch (id : Id) : M Branch :=
  x ← get_branch id;
  _ ← ensure (bool_decide (br_status x = BOpen)) InvalidTransition;
  mret x.

Definition any_open_branch (e : Engine) : bool :=
  existsb (fun x => bool_decide (br_status x = BOpen)) (values (branches e)).
Definition open_round (bid : Id) (e : Engine) : option Round :=
  List.find (fun r => bytes_eqb (rd_branch r) bid && bool_decide (rd_status r = ROpen)) (values (rounds e)).

(** The arguments of [Engine::start]. *)
Record StartSpec := {
  spec_id : bytes;
  spec_ns : bytes;
  spec_name : bytes;
  spec_version : bytes;
  spec_hash : bytes;
  spec_initiator : Principal;
  spec_context : Scope }.

Definition start (spec : StartSpec) (now : Z) : ApprovalError + Engine :=
  if existsb (fun x => bool_decide (x = []))
       [spec_id spec; spec_ns spec; spec_name spec; spec_version spec; spec_hash spec; spec_initiator spec]
  then inl InvalidArgument
  else if existsb (fun c => bool_decide (c = x2f)) (spec_id spec) || (MAX_INSTANCE_ID_LEN <? length (spec_id spec))%nat
  then inl InvalidArgument
  else inr {|
    instance := {| inst_id := spec_id spec; definition_ns := spec_ns spec; definition_name := spec_name spec;
      definition_version := spec_version spec; definition_hash := spec_hash spec;
      engine_version := APPROVAL_ENGINE_VERSION; initiator := spec_initiator spec; inst_status := IPending;
      context := spec_context spec; root_branch_id := None; revision := 0; jump_count := 0; audit := [];
      returns := []; inst_created_at := now; inst_updated_at := now |};
    branches := ∅; tasks := ∅; rounds := ∅; node_attempts := ∅; seq := 0; acting_service := None |}.

Definition enter_branch (expected : Z) (nd : bytes) (parent : option Id) (jn : JoinPolicy) (rj : RejectPolicy)
    (pl : ApprovalPolicy) (now : Z) : M (Id * list Effect) :=
  _ ← guard expected;
  e ← get;
  _ ← ensure (negb (any_open_branch e)) InvalidTransition;
  o1 ← lift (fun e => if bool_decide (inst_status (instance e) = IPending)
                      then ([EInstanceStatus IPending IRunning], with_instance (set_inst_status IRunning) e)
                      else ([], e));
  e ← get;
  let '(id, (o2, e)) := create_branch nd parent jn rj pl now e in
  _ ← modify (fun _ => e);
  let att := from_option attempt 0 (branches e !! id) in
  _ ← lift (audited now (b "enter_branch") (Some id) (b "engine")
       (b "node=" ++ nd ++ b " attempt=" ++ decimal att));
  _ ← modify (touch now);
  mret (id, o1 ++ o2).

Definition new_round (rid bid : Id) (n now : Z) : Round :=
  {| rd_id := rid; rd_branch := bid; number := n; rd_status := ROpen; total_count := 0; completed_count := 0;
     rejected_count := 0; opened_at := now; rd_closed_at := None |}.

Definition open_approval (expected : Z) (bid : Id) (seats : list SeatSpec) (dl : option Z) (now : Z)
    : M (Id * list Id * list Effect) :=
  _ ← guard expected;
  branch ← open_branch bid;
  e ← get;
  _ ← ensure (bool_decide (open_round (br_id branch) e = None)) InvalidTransition;
  let n := u32_wrap (Z.of_nat (length (List.filter (fun r => bytes_eqb (rd_branch r) (br_id branch))
                                        (values (rounds e)))) + 1) in
  let '(rid, e) := gen (b "round") e in
  _ ← modify (fun _ => with_rounds (<[rid := new_round rid (br_id branch) n now]>) e);
  x ← get_branch bid;
  _ ← modify (with_branches (<[bid := push_round rid x]>));
  e ← get;
  let '(ids, (o1, e)) := add_seats (br_id branch) rid seats dl now e in
  _ ← modify (fun _ => e);
  o2 ← lift (recount rid now);
  _ ← modify (touch now);
  mret (rid, ids, ERoundOpened rid (br_id branch) n :: o1 ++ o2).

Definition add_sign (expected : Z) (bid : Id) (seats : list SeatSpec) (by_ : Principal) (comment : option bytes)
    (now : Z) : M (list Id * list Effect) :=
  _ ← guard expected;
  branch ← open_branch bid;
  e ← get;
  r ← found (open_round (br_id branch) e) InvalidTransition;
  let '(ids, (o1, e)) := add_seats (br_id branch) (rd_id r) seats None now e in
  _ ← modify (fun _ => e);
  o2 ← lift (recount (rd_id r) now);
  _ ← lift (audited now (b "add_sign") (Some (br_id branch)) by_
       (b "seats=" ++ decimal (Z.of_nat (length ids)) ++ b " comment=" ++ default [] comment));
  _ ← modify (touch now);
  mret (ids, o1 ++ o2).

(** [sorted.windows(2).any(|w| w[0] == w[1])]. *)
Fixpoint adjacent_equal (l : list bytes) : bool :=
  match l with
  | x :: ((y :: _) as l') => bytes_eqb x y || adjacent_equal l'
  | _ => false
  end.

(** The targets of a removal are all seats of the round. *)
Fixpoint check_targets (rid : Id) (ids : list Id) : M unit :=
  match ids with
  | [] => mret tt
  | id :: ids =>
    t ← get_task id;
    _ ← ensure (bytes_eqb (task_round t) rid) InvalidArgument;
    check_targets rid ids
  end.

Definition task_is_open (e : Engine) (id : Id) : bool :=
  from_option (fun t => is_open (task_status t)) false (tasks e !! id).

Definition remove_sign (expected : Z) (bid : Id) (task_ids : list Id) (by_ : Principal) (now : Z)
    : M (list Effect) :=
  _ ← guard expected;
  _ ← ensure (negb (adjacent_equal (merge_sort bytes_le task_ids))) InvalidArgument;
  branch ← open_branch bid;
  e ← get;
  r ← found (open_round (br_id branch) e) InvalidTransition;
  _ ← check_targets (rd_id r) task_ids;
  if negb (bool_decide (task_ids = [])) && negb (existsb (task_is_open e) task_ids) then mret []
  else
    o1 ← lift (for_each (cancel_task now) task_ids);
    o2 ← lift (recount (rd_id r) now);
    _ ← lift (audited now (b "remove_sign") (Some (br_id branch)) by_
         (b "seats=" ++ decimal (Z.of_nat (length o1))));
    _ ← modify (touch now);
    mret (o1 ++ o2).

Definition is_candidate (p : Principal) (t : Task) : bool := existsb (bytes_eqb p) (candidates t).

Definition claim (expected : Z) (id : Id) (p : Principal) (now : Z) : M (list Effect) :=
  _ ← guard expected;
  t ← get_task id;
  _ ← ensure (is_open (task_status t)) InvalidTransition;
  _ ← ensure (bool_decide (assignee t = None)) InvalidTransition;
  _ ← ensure (is_candidate p t) NotAuthorized;
  let t := change_task TClaimed (Some p) (delegation t) (transferred_from t) (votes t) now t in
  _ ← put_task t;
  _ ← modify (touch now);
  mret [ETaskAssigned (task_id t) p AClaim; ETaskStatus (task_id t) TCreated TClaimed].

(** Who may act on a seat: the delegate, on behalf of the one who delegated; the
    assignee; a candidate of a seat without assignee. *)
Definition actor_can_act (t : Task) (actor : Principal) : ApprovalError + option Principal :=
  match delegation t with
  | Some d =>
    if bytes_eqb (deleg_to d) actor then inr (Some (deleg_from d))
    else match assignee t with
         | Some a => if bytes_eqb a actor then inr None else inl NotAuthorized
         | None => if is_candidate actor t then inr None else inl NotAuthorized
         end
  | None =>
    match assignee t with
    | Some a => if bytes_eqb a actor then inr None else inl NotAuthorized
    | None => if is_candidate actor t then inr None else inl NotAuthorized
    end
  end.

Definition check {A : Type} (r : ApprovalError + A) : M A := fun e => (r, e).

Definition voted_status (d : Decision) : TaskStatus := match d with DApprove => TCompleted | DReject => TRejected end.

Definition vote (expected : Z) (id : Id) (actor : Principal) (d : Decision) (comment : option bytes) (now : Z)
    : M (list Effect) :=
  _ ← guard expected;
  t ← get_task id;
  _ ← ensure (bool_decide (kind t = KApproval)) InvalidTransition;
  _ ← ensure (is_open (task_status t)) InvalidTransition;
  behalf ← check (actor_can_act t actor);
  e ← get;
  let implicit_claim := bool_decide (assignee t = None) in
  let who := if implicit_claim then Some actor else assignee t in
  let v := {| vote_round := task_round t; vote_decision := d; vote_actor := actor; on_behalf_of := behalf;
              vote_comment := comment; vote_at := now; vote_acting_service := acting_service e |} in
  let t' := change_task (voted_status d) who (delegation t) (transferred_from t) (votes t ++ [v]) now t in
  _ ← put_task t';
  o ← lift (recount (task_round t) now);
  _ ← modify (touch now);
  mret ((if implicit_claim then [ETaskAssigned (task_id t) actor AClaim] else []) ++
        ETaskStatus (task_id t) (task_status t) (voted_status d) :: o).

Definition approve (expected : Z) (id : Id) (actor : Principal) (comment : option bytes) (now : Z)
    : M (list Effect) := vote expected id actor DApprove comment now.
Definition reject (expected : Z) (id : Id) (actor : Principal) (comment : option bytes) (now : Z)
    : M (list Effect) := vote expected id actor DReject comment now.

Definition acknowledge (expected : Z) (id : Id) (actor : Principal) (now : Z) : M (list Effect) :=
  _ ← guard expected;
  t ← get_task id;
  _ ← ensure (bool_decide (kind t = KReadAck)) InvalidTransition;
  _ ← ensure (is_open (task_status t)) InvalidTransition;
  _ ← check (actor_can_act t actor);
  let who := if bool_decide (assignee t = None) then Some actor else assignee t in
  let t' := change_task TCompleted who (delegation t) (transferred_from t) (votes t) now t in
  _ ← put_task t';
  _ ← modify (touch now);
  mret [ETaskStatus (task_id t) (task_status t) TCompleted].

Definition transfer_from (t : Task) (by_ : Principal) : ApprovalError + Principal :=
  match assignee t with
  | Some a => if bytes_eqb a by_ then inr a else inl NotAuthorized
  | None => if is_candidate by_ t then inr by_ else inl NotAuthorized
  end.

Definition transfer (expected : Z) (id : Id) (to by_ : Principal) (now : Z) : M (list Effect) :=
  _ ← guard expected;
  t ← get_task id;
  _ ← ensure (is_open (task_status t)) InvalidTransition;
  _ ← ensure (bool_decide (kind t = KApproval)) InvalidTransition;
  from ← check (transfer_from t by_);
  let t' := change_task TClaimed (Some to) None (transferred_from t ++ [from]) (votes t) now t in
  _ ← put_task t';
  _ ← modify (touch now);
  mret ((if bool_decide (task_status t = TCreated) then [ETaskStatus (task_id t) TCreated TClaimed] else []) ++
        [ETaskAssigned (task_id t) to ATransfer]).

Definition delegate (expected : Z) (id : Id) (to by_ : Principal) (now : Z) : M (list Effect) :=
  _ ← guard expected;
  t ← get_task id;
  _ ← ensure (is_open (task_status t)) InvalidTransition;
  _ ← ensure (bool_decide (assignee t = Some by_)) NotAuthorized;
  let t' := change_task (task_status t) (assignee t)
              (Some {| deleg_from := by_; deleg_to := to; granted_at := now |}) (transferred_from t) (votes t) now t in
  _ ← put_task t';
  _ ← modify (touch now);
  mret [ETaskAssigned (task_id t) to ADelegate].

(** The newest attempt of a node. *)
Definition latest_attempt (nd : bytes) (e : Engine) : option Branch :=
  max_by_key attempt (List.filter (fun x => bytes_eqb (node x) nd) (values (branches e))).

Definition return_to_node (expected : Z) (bid : Id) (target : bytes) (by_ : Principal) (comment : option bytes)
    (now : Z) : M (Id * list Effect) :=
  _ ← guard expected;
  branch ← open_branch bid;
  e ← get;
  _ ← ensure (bool_decide (is_Some (node_attempts e !! target))) InvalidArgument;
  _ ← ensure (jump_count (instance e) <? MAX_JUMPS) InvalidArgument;
  o1 ← lift (match open_round (br_id branch) e with
             | Some r => cancel_pending_tasks (rd_id r) now
             | None => skip
             end);
  o2 ← lift (close_rounds_of_branch (br_id branch) RSuperseded now ;;
             set_branch_status (br_id branch) BReturned now);
  e ← get;
  let latest := latest_attempt target e in
  let '(jn, rj, pl) := match latest with
                       | Some x => (join x, reject_policy x, policy x)
                       | None => (JAll, AnyReject, default_policy)
                       end in
  o3 ← lift (match latest with
             | Some x => set_branch_status (br_id x) BSuperseded now
             | None => skip
             end);
  e ← get;
  let '(new_id, (o4, e)) := create_branch target (latest ≫= parent_branch_id) jn rj pl now e in
  _ ← modify (fun _ => with_instance (push_return {| from_node := node branch; to_node := target; return_by := by_;
         return_comment := comment; return_at := now |}) e);
  _ ← lift (audited now (b "return_to_node") (Some (br_id branch)) by_ (node branch ++ b " -> " ++ target));
  e ← get;
  o5 ← lift (emit (b "com.china-workflow.instance.returned.v1")
    (VObject [(b "instance_id", VString (inst_id (instance e))); (b "from_node", VString (node branch));
              (b "to_node", VString target); (b "jump_count", VNumber (jump_count (instance e)))]));
  _ ← modify (touch now);
  mret (new_id, o1 ++ o2 ++ o3 ++ o4 ++ o5).

(** The common part of [withdraw] and [terminate]. *)
Definition stop_instance (br_to : BranchStatus) (to : InstanceStatus) (action : bytes) (by_ : Principal)
    (detail : bytes) (event : bytes) (data : Engine -> Value) (now : Z) : W :=
  cancel_open_branches br_to now ;;
  (fun e => ([EInstanceStatus (inst_status (instance e)) to], with_instance (set_inst_status to) e)) ;;
  audited now action None by_ detail ;;
  (fun e => emit event (data e) e) ;;
  updates (touch now).

Definition withdraw (expected : Z) (by_ : Principal) (now : Z) : M (list Effect) :=
  _ ← guard expected;
  e ← get;
  _ ← ensure (bytes_eqb (initiator (instance e)) by_) NotAuthorized;
  lift (stop_instance BCancelled ICancelled (b "withdraw") by_ [] (b "com.china-workflow.instance.cancelled.v1")
          instance_data now).

Definition terminate (expected : Z) (by_ : Principal) (reason : bytes) (now : Z) : M (list Effect) :=
  _ ← guard expected;
  lift (stop_instance BTerminated ITerminated (b "terminate") by_ reason
          (b "com.china-workflow.instance.terminated.v1")
          (fun e => VObject [(b "instance_id", VString (inst_id (instance e))); (b "reason", VString reason)]) now).

(** The root branch that was created last. *)
Definition last_root (e : Engine) : option Branch :=
  max_by_key br_created_at (List.filter (fun x => bool_decide (parent_branch_id x = None)) (values (branches e))).

Definition finish (expected : Z) (now : Z) : M (list Effect) :=
  _ ← guard expected;
  e ← get;
  _ ← ensure (negb (any_open_branch e)) InvalidTransition;
  next ← match br_status <$> last_root e with
         | Some BCompleted => mret ICompleted
         | Some BRejected => mret IRejected
         | _ => fail InvalidTransition
         end;
  if bool_decide (inst_status (instance e) = next) then mret []
  else
    let before := inst_status (instance e) in
    _ ← modify (with_instance (set_inst_status next));
    let name := match next with
                | ICompleted => b "com.china-workflow.instance.completed.v1"
                | IRejected => ev_instance_rejected
                | _ => b "com.china-workflow.instance.status_changed.v1"
                end in
    o ← lift (fun e => emit name (instance_data e) e);
    _ ← modify (touch now);
    mret (EInstanceStatus before next :: o).

Definition expire (expected : Z) (id : Id) (now : Z) : M (list Effect) :=
  _ ← guard expected;
  t ← get_task id;
  _ ← ensure (is_open (task_status t)) InvalidTransition;
  d ← found (deadline t) InvalidArgument;
  _ ← ensure (d <=? now) InvalidArgument;
  x ← get_task id;
  _ ← modify (with_tasks (<[id := set_task_status TExpired now x]>));
  o ← (if bool_decide (kind t = KApproval) then lift (recount (task_round t) now) else mret []);
  _ ← modify (touch now);
  mret (ETaskStatus id (task_status t) TExpired :: o).

(** ** Queries *)

Definition resolve_var (e : Engine) (id : Id) (key : bytes) : option Value :=
  t ← tasks e !! id;
  match task_scope t !! key with
  | Some v => Some v
  | None =>
    match branches e !! task_branch t ≫= fun x => br_scope x !! key with
    | Some v => Some v
    | None => context (instance e) !! key
    end
  end.

Definition open_tasks_for (e : Engine) (p : Principal) : list Task :=
  List.filter (fun t =>
    is_open (task_status t) &&
    (bool_decide (assignee t = Some p) ||
     (bool_decide (assignee t = None) && is_candidate p t) ||
     bool_decide (deleg_to <$> delegation t = Some p)))
    (values (tasks e)).

(** ** All commands *)

Inductive Command :=
  | EnterBranch (nd : bytes) (parent : option Id) (jn : JoinPolicy) (rj : RejectPolicy) (pl : ApprovalPolicy)
  | OpenApproval (bid : Id) (seats : list SeatSpec) (dl : option Z)
  | AddSign (bid : Id) (seats : list SeatSpec) (by_ : Principal) (comment : option bytes)
  | RemoveSign (bid : Id) (ids : list Id) (by_ : Principal)
  | Claim (id : Id) (p : Principal)
  | Vote (id : Id) (actor : Principal) (d : Decision) (comment : option bytes)
  | Acknowledge (id : Id) (actor : Principal)
  | Transfer (id : Id) (to by_ : Principal)
  | Delegate (id : Id) (to by_ : Principal)
  | ReturnToNode (bid : Id) (target : bytes) (by_ : Principal) (comment : option bytes)
  | Withdraw (by_ : Principal)
  | Terminate (by_ : Principal) (reason : bytes)
  | Finish
  | Expire (id : Id).

Definition run_command (c : Command) (expected now : Z) : M (list Effect) :=
  match c with
  | EnterBranch nd parent jn rj pl => r ← enter_branch expected nd parent jn rj pl now; mret r.2
  | OpenApproval bid seats dl => r ← open_approval expected bid seats dl now; mret r.2
  | AddSign bid seats by_ comment => r ← add_sign expected bid seats by_ comment now; mret r.2
  | RemoveSign bid ids by_ => remove_sign expected bid ids by_ now
  | Claim id p => claim expected id p now
  | Vote id actor d comment => vote expected id actor d comment now
  | Acknowledge id actor => acknowledge expected id actor now
  | Transfer id to by_ => transfer expected id to by_ now
  | Delegate id to by_ => delegate expected id to by_ now
  | ReturnToNode bid target by_ comment => r ← return_to_node expected bid target by_ comment now; mret r.2
  | Withdraw by_ => withdraw expected by_ now
  | Terminate by_ reason => terminate expected by_ reason now
  | Finish => finish expected now
  | Expire id => expire expected id now
  end.
