(* ===== verification/ApprovalFacts.v ===== *)
(** * The approval engine: facts and the invariant

    Values of maps and how many of them satisfy a predicate; commands that fail
    change nothing; the invariant of an approval instance ([engine_inv]) and that
    every step of the engine keeps it. *)

From S2P Require Export Approval.

Local Open Scope Z_scope.
Local Open Scope approval_scope.

(** ** Values of a map *)

Section values.
Context {A : Type}.
Implicit Types (m : gmap bytes A) (p q : A -> bool).

#[local] Instance entry_le_trans : Transitive (@entry_le A).
Proof. intros x y z. apply (@transitivity _ bytes_le _). Qed.
#[local] Instance entry_le_total : Total (@entry_le A).
Proof. intros x y. apply (total bytes_le). Qed.

Lemma values_perm m : values m ≡ₚ (map_to_list m).*2.
Proof. unfold values, entries. by rewrite merge_sort_Permutation. Qed.

Lemma elem_of_values m x : x ∈ values m <-> exists k, m !! k = Some x.
Proof.
  rewrite values_perm, list_elem_of_fmap. split.
  - intros ([k y] & -> & H%elem_of_map_to_list). by exists k.
  - intros [k H%elem_of_map_to_list]. by exists (k, x).
Qed.

(** How many values satisfy [p]. *)
Definition cnt p m : Z := Z.of_nat (length (List.filter p (values m))).

Lemma filter_perm p (l l' : list A) : l ≡ₚ l' -> List.filter p l ≡ₚ List.filter p l'.
Proof.
  induction 1 as [|x l l' _ IH|x y l|l1 l2 l3 _ IH1 _ IH2]; simpl; [done| | |by rewrite IH1].
  - destruct (p x); by rewrite IH.
  - destruct (p x), (p y); try done. apply Permutation_swap.
Qed.

Lemma cnt_map_to_list p m : cnt p m = Z.of_nat (length (List.filter p (map_to_list m).*2)).
Proof. unfold cnt. by rewrite (filter_perm p _ _ (values_perm m)). Qed.

Definition one (x : bool) : Z := if x then 1 else 0.

Lemma cnt_empty p : cnt p ∅ = 0.
Proof. by rewrite cnt_map_to_list, map_to_list_empty. Qed.

Lemma cnt_insert p m k x : m !! k = None -> cnt p (<[k := x]> m) = one (p x) + cnt p m.
Proof.
  intros Hk. rewrite !cnt_map_to_list. rewrite (filter_perm p _ (x :: (map_to_list m).*2)).
  - simpl. destruct (p x); simpl; lia.
  - by rewrite map_to_list_insert.
Qed.

Lemma cnt_update p m k x y :
  m !! k = Some y -> cnt p (<[k := x]> m) = one (p x) - one (p y) + cnt p m.
Proof.
  intros Hk. rewrite <- (insert_delete_id m k y Hk) at 2. rewrite <- insert_delete_eq.
  rewrite !cnt_insert by apply lookup_delete_eq. lia.
Qed.

Lemma cnt_ext p q m : (forall k x, m !! k = Some x -> p x = q x) -> cnt p m = cnt q m.
Proof.
  intros H. unfold cnt. do 2 f_equal. apply filter_ext_Forall, Forall_forall.
  intros x [k Hk]%elem_of_values. by eapply H.
Qed.

Lemma cnt_fmap p (f : A -> A) m : cnt p (f <$> m) = cnt (fun x => p (f x)) m.
Proof.
  rewrite !cnt_map_to_list, map_to_list_fmap, <- list_fmap_compose.
  induction (map_to_list m) as [|[k x] l IH]; [done|]. cbn.
  destruct (p (f x)); cbn; lia.
Qed.

Lemma cnt_size p m : 0 <= cnt p m <= Z.of_nat (size m).
Proof.
  rewrite cnt_map_to_list. split; [lia|]. rewrite <- length_map_to_list, <- (length_fmap snd).
  pose proof (List.filter_length_le p (map_to_list m).*2). lia.
Qed.

Lemma cnt_zero p m : cnt p m = 0 <-> forall k x, m !! k = Some x -> p x = false.
Proof.
  unfold cnt. split.
  - intros H k x Hk. destruct (p x) eqn:E; [|done].
    assert (x ∈ List.filter p (values m)) as Hx by (apply elem_of_List_filter; split; [done|]; apply elem_of_values; eauto).
    destruct (List.filter p (values m)); [by apply elem_of_nil in Hx|]. simpl in H. lia.
  - intros H. rewrite filter_none; [done|]. intros x [k Hk]%elem_of_values. by eapply H.
Qed.

Lemma cnt_le p q m : (forall k x, m !! k = Some x -> p x = true -> q x = true) -> cnt p m <= cnt q m.
Proof.
  intros H. unfold cnt. assert (forall x, x ∈ values m -> p x = true -> q x = true) as H'.
  { intros x [k Hk]%elem_of_values. by eapply H. }
  induction (values m) as [|x l IH]; [done|]. simpl.
  assert (Z.of_nat (length (List.filter p l)) <= Z.of_nat (length (List.filter q l)))
    by (apply IH; intros; apply H'; [by right|done]).
  pose proof (H' x ltac:(by left)) as Hx. destruct (p x); [rewrite Hx by done; simpl; lia|].
  destruct (q x); simpl; lia.
Qed.

(** A search through the values. *)
Lemma find_values_Some p m x :
  List.find p (values m) = Some x -> p x = true /\ exists k, m !! k = Some x.
Proof. intros [Hx Hp]%List.find_some. split; [done|]. by apply elem_of_values, list_elem_of_In. Qed.

Lemma find_values_None p m :
  List.find p (values m) = None <-> forall k x, m !! k = Some x -> p x = false.
Proof.
  split.
  - intros H k x Hk. eapply List.find_none; [exact H|]. apply list_elem_of_In, elem_of_values. eauto.
  - intros H. destruct (List.find _ _) as [x|] eqn:E; [|done].
    apply find_values_Some in E as [Hp [k Hk]]. by rewrite (H k x Hk) in Hp.
Qed.

Lemma existsb_values p m : existsb p (values m) = false <-> forall k x, m !! k = Some x -> p x = false.
Proof.
  split.
  - intros H k x Hk. destruct (p x) eqn:E; [|done]. enough (existsb p (values m) = true) by congruence.
    apply List.existsb_exists. exists x. split; [|done]. apply list_elem_of_In, elem_of_values. eauto.
  - intros H. destruct (existsb _ _) eqn:E; [|done]. apply List.existsb_exists in E as (x & Hx & Hp).
    apply list_elem_of_In, elem_of_values in Hx as [k Hk]. by rewrite (H k x Hk) in Hp.
Qed.

(** The greatest by a key. *)
Lemma max_by_key_spec (f : A -> Z) (l : list A) :
  match max_by_key f l with
  | None => l = []
  | Some x => x ∈ l /\ forall y, y ∈ l -> f y <= f x
  end.
Proof.
  unfold max_by_key. induction l as [|x l IH] using rev_ind; [done|]. rewrite foldl_app. cbn.
  destruct (foldl _ None l) as [y|].
  - destruct IH as [Hy Hmax]. destruct (Z.leb_spec (f y) (f x)) as [Hle|Hlt]; split; try set_solver.
    + intros z [Hz%Hmax| ->%list_elem_of_singleton]%elem_of_app; lia.
    + intros z [Hz%Hmax| ->%list_elem_of_singleton]%elem_of_app; lia.
  - subst l. split; [set_solver|]. intros z ->%list_elem_of_singleton. lia.
Qed.
End values.

(** ** Identifiers *)

Lemma pad4_parse x : foldl parse_digit (Some 0) (pad4 x) = foldl parse_digit (Some 0) x.
Proof.
  unfold pad4. rewrite foldl_app. generalize (4 - length x)%nat as n. intros n. f_equal.
  induction n as [|n IH]; [done|]. exact IH.
Qed.

Lemma gen_id_inj iid prefix n n' :
  in_u64 n -> in_u64 n' -> gen_id iid prefix n = gen_id iid prefix n' -> n = n'.
Proof.
  intros Hn Hn' E. unfold gen_id in E. do 4 apply app_inv_head in E.
  assert (foldl parse_digit (Some 0) (pad4 (decimal n)) = foldl parse_digit (Some 0) (pad4 (decimal n'))) as H by congruence.
  rewrite !pad4_parse in H. unfold decimal in H.
  assert (forall z, in_u64 z -> foldl parse_digit (Some 0) (digits 20 z) = Some z) as Hd.
  { intros z Hz. apply parse_digits; [|unfold in_u64, u64_max in *; lia|lia]. unfold in_u64 in Hz.
    split; [lia|]. eapply Z.lt_trans; [apply Hz|]. by vm_compute. }
  rewrite !Hd in H by done. congruence.
Qed.

(** ** Commands that fail change nothing *)

(** A step that only looks; a step that cannot fail; a step that fails without
    a change. *)
Definition reads {A} (m : M A) : Prop := forall e, (m e).2 = e.
Definition succeeds {A} (m : M A) : Prop := forall e, exists a, (m e).1 = inr a.
Definition atomic {A} (m : M A) : Prop := forall e x e', m e = (inl x, e') -> e' = e.

Create HintDb approval discriminated.

Lemma reads_ret {A} (a : A) : reads (mret a).
Proof. done. Qed.
Lemma reads_fail {A} x : reads (fail (A := A) x).
Proof. done. Qed.
Lemma reads_get : reads get.
Proof. done. Qed.
Lemma reads_ensure c x : reads (ensure c x).
Proof. by destruct c. Qed.
Lemma reads_found {A} (o : option A) x : reads (found o x).
Proof. by destruct o. Qed.
Lemma reads_check {A} (r : ApprovalError + A) : reads (check r).
Proof. done. Qed.
Lemma reads_bind {A B} (m : M A) (k : A -> M B) : reads m -> (forall a, reads (k a)) -> reads (m ≫= k).
Proof. intros Hm Hk e. cbv [mbind M_bind]. specialize (Hm e). destruct (m e) as [[x|a] e']; cbn in Hm; subst; [done|apply Hk]. Qed.

Lemma succeeds_ret {A} (a : A) : succeeds (mret a).
Proof. intros e. by eexists. Qed.
Lemma succeeds_get : succeeds get.
Proof. intros e. by eexists. Qed.
Lemma succeeds_lift f : succeeds (lift f).
Proof. intros e. unfold lift. destruct (f e). by eexists. Qed.
Lemma succeeds_modify f : succeeds (modify f).
Proof. intros e. by eexists. Qed.
Lemma succeeds_bind {A B} (m : M A) (k : A -> M B) : succeeds m -> (forall a, succeeds (k a)) -> succeeds (m ≫= k).
Proof.
  intros Hm Hk e. cbv [mbind M_bind]. destruct (Hm e) as [a Ha]. destruct (m e) as [r e']. cbn in Ha. subst r. apply Hk.
Qed.

Lemma atomic_succeeds {A} (m : M A) : succeeds m -> atomic m.
Proof. intros Hm e x e' E. destruct (Hm e) as [a Ha]. by rewrite E in Ha. Qed.
Lemma atomic_reads {A} (m : M A) : reads m -> atomic m.
Proof. intros Hm e x e' E. specialize (Hm e). by rewrite E in Hm. Qed.
Lemma atomic_bind {A B} (m : M A) (k : A -> M B) : reads m -> (forall a, atomic (k a)) -> atomic (m ≫= k).
Proof.
  intros Hm Hk e x e' E. cbv [mbind M_bind] in E. specialize (Hm e). destruct (m e) as [[y|a] e1]; cbn in Hm; subst e1.
  - congruence.
  - by eapply Hk.
Qed.

Lemma reads_guard expected : reads (guard expected).
Proof. repeat (apply reads_bind; [auto using reads_get, reads_ensure|intros]). apply reads_ensure. Qed.
Lemma reads_get_task id : reads (get_task id).
Proof. apply reads_bind; [apply reads_get|intros; apply reads_found]. Qed.
Lemma reads_get_branch id : reads (get_branch id).
Proof. apply reads_bind; [apply reads_get|intros; apply reads_found]. Qed.
Lemma reads_open_branch id : reads (open_branch id).
Proof.
  apply reads_bind; [apply reads_get_branch|intros]. apply reads_bind; [apply reads_ensure|intros; apply reads_ret].
Qed.
Lemma reads_check_targets rid ids : reads (check_targets rid ids).
Proof.
  induction ids as [|id ids IH]; [apply reads_ret|]. apply reads_bind; [apply reads_get_task|intros].
  apply reads_bind; [apply reads_ensure|by intros].
Qed.

Lemma succeeds_if {A} (c : bool) (m m' : M A) : succeeds m -> succeeds m' -> succeeds (if c then m else m').
Proof. by destruct c. Qed.
Lemma succeeds_put_task t : succeeds (put_task t).
Proof. apply succeeds_modify. Qed.

#[export] Hint Resolve reads_ret reads_fail reads_get reads_ensure reads_found reads_check reads_guard
  reads_get_task reads_get_branch reads_open_branch reads_check_targets
  succeeds_ret succeeds_get succeeds_lift succeeds_modify succeeds_put_task succeeds_if : approval.

(** Go through a command: look, then change. *)
Ltac atomic_step :=
  first [ apply atomic_reads; by auto with approval nocore
        | apply atomic_bind; [by auto with approval nocore|intros]
        | apply atomic_succeeds;
          repeat first [ by auto with approval nocore
                       | apply succeeds_bind; [by auto with approval nocore|intros]
                       | match goal with |- succeeds (match ?x with _ => _ end) => destruct x end
                       | match goal with |- succeeds (let '(_, _) := ?x in _) => destruct x end ] ].

(** What a command that succeeds has gone through. *)
Lemma bind_inr {A B} (m : M A) (k : A -> M B) e a e' :
  (m ≫= k) e = (inr a, e') <-> exists x e1, m e = (inr x, e1) /\ k x e1 = (inr a, e').
Proof.
  cbv [mbind M_bind]. split.
  - destruct (m e) as [[y|x] e1]; [done|]. eauto.
  - intros (x & e1 & -> & E). exact E.
Qed.

Lemma get_inr e x e' : get e = (inr x, e') <-> x = e /\ e' = e.
Proof. unfold get. naive_solver. Qed.
Lemma ensure_inr c y e u e' : ensure c y e = (inr u, e') <-> c = true /\ e' = e.
Proof. unfold ensure. destruct c, u; cbv [mret M_ret fail]; naive_solver. Qed.
Lemma found_inr {A} (o : option A) y e x e' : found o y e = (inr x, e') <-> o = Some x /\ e' = e.
Proof. unfold found. destruct o; cbv [mret M_ret fail]; naive_solver. Qed.
Lemma check_inr {A} (r : ApprovalError + A) e x e' : check r e = (inr x, e') <-> r = inr x /\ e' = e.
Proof. unfold check. naive_solver. Qed.
Lemma ret_inr {A} (a : A) e x e' : mret (M := M) a e = (inr x, e') <-> x = a /\ e' = e.
Proof. cbv [mret M_ret]. naive_solver. Qed.
Lemma modify_inr f e u e' : modify f e = (inr u, e') <-> e' = f e.
Proof. unfold modify. destruct u. naive_solver. Qed.
Lemma lift_inr f e o e' : lift f e = (inr o, e') <-> f e = (o, e').
Proof. unfold lift. destruct (f e). naive_solver. Qed.

Lemma guard_inr expected e u e' :
  guard expected e = (inr u, e') <->
  revision (instance e) = expected /\ is_terminal (inst_status (instance e)) = false /\ e' = e.
Proof.
  unfold guard. rewrite bind_inr. setoid_rewrite get_inr. split.
  - intros (x & e1 & [-> ->] & H). apply bind_inr in H as ([] & e2 & [H1 ->]%ensure_inr & [H2 ->]%ensure_inr).
    apply Z.eqb_eq in H1. by apply negb_true_iff in H2.
  - intros (H1 & H2 & ->). exists e, e. split; [done|]. apply bind_inr. exists tt, e.
    split; apply ensure_inr; split; try done; [by apply Z.eqb_eq|by rewrite H2].
Qed.
Lemma get_task_inr id e t e' : get_task id e = (inr t, e') <-> tasks e !! id = Some t /\ e' = e.
Proof. unfold get_task. rewrite bind_inr. setoid_rewrite get_inr. setoid_rewrite found_inr. naive_solver. Qed.
Lemma get_branch_inr id e x e' : get_branch id e = (inr x, e') <-> branches e !! id = Some x /\ e' = e.
Proof. unfold get_branch. rewrite bind_inr. setoid_rewrite get_inr. setoid_rewrite found_inr. naive_solver. Qed.
Lemma open_branch_inr id e x e' :
  open_branch id e = (inr x, e') <-> branches e !! id = Some x /\ br_status x = BOpen /\ e' = e.
Proof.
  unfold open_branch. rewrite bind_inr. setoid_rewrite get_branch_inr. setoid_rewrite bind_inr.
  setoid_rewrite ensure_inr. setoid_rewrite ret_inr. setoid_rewrite bool_decide_eq_true. naive_solver.
Qed.

(** Destruct a command known to succeed. *)
Ltac inv_M H :=
  repeat (cbv beta zeta in H; match type of H with
  | (_ ≫= _) _ = (inr _, _) =>
    let x := fresh "x" in let e1 := fresh "e" in let Hm := fresh "Hm" in
    apply bind_inr in H; destruct H as (x & e1 & Hm & H); inv_M Hm
  | get _ = _ => apply get_inr in H; destruct H as [? ?]; subst
  | ensure _ _ _ = _ => apply ensure_inr in H; destruct H as [? ?]; subst
  | found _ _ _ = _ => apply found_inr in H; destruct H as [? ?]; subst
  | check _ _ = _ => apply check_inr in H; destruct H as [? ?]; subst
  | mret _ _ = _ => apply ret_inr in H; destruct H as [? ?]; subst
  | modify _ _ = _ => apply modify_inr in H; subst
  | lift _ _ = _ => apply lift_inr in H
  | put_task _ _ = _ => unfold put_task in H
  | guard _ _ = _ => apply guard_inr in H; destruct H as (? & ? & ?); subst
  | get_task _ _ = _ => apply get_task_inr in H; destruct H as [? ?]; subst
  | get_branch _ _ = _ => apply get_branch_inr in H; destruct H as [? ?]; subst
  | open_branch _ _ = _ => apply open_branch_inr in H; destruct H as (? & ? & ?); subst
  end).

Lemma open_approval_atomic expected bid seats dl now : atomic (open_approval expected bid seats dl now).
Proof.
  intros e x e' H. unfold open_approval in H. revert H. cbv [mbind M_bind].
  destruct (guard expected e) as [[y|u] e1] eqn:Eg; [intros [= <- <-]; by eapply (atomic_reads _ (reads_guard expected))|].
  apply guard_inr in Eg as (_ & _ & ->).
  destruct (open_branch bid e) as [[y|branch] e1] eqn:Eb;
    [intros [= <- <-]; by eapply (atomic_reads _ (reads_open_branch bid))|].
  apply open_branch_inr in Eb as (Hbr & _ & ->). cbn [get].
  destruct (ensure _ _ e) as [[y|u'] e1] eqn:Ee; [intros [= <- <-]; by eapply (atomic_reads _ (reads_ensure _ _))|].
  apply ensure_inr in Ee as [_ ->]. cbn [gen modify].
  unfold get_branch. cbv [mbind M_bind get]. cbn [with_rounds with_seq branches]. rewrite Hbr. cbn.
  destruct (add_seats _ _ _ _ _ _) as [ids [o1 e2]]. unfold lift. by destruct (recount _ _ _).
Qed.

Lemma atomic_fmap {A B} (m : M A) (f : A -> B) : atomic m -> atomic (r ← m; mret (f r)).
Proof.
  intros Hm e x e' H. cbv [mbind M_bind] in H. destruct (m e) as [[y|a] e1] eqn:E; [|done].
  injection H as -> ->. by eapply Hm.
Qed.

Lemma run_command_atomic c expected now : atomic (run_command c expected now).
Proof.
  destruct c; cbn [run_command].
  - apply atomic_fmap. unfold enter_branch. repeat atomic_step.
  - apply atomic_fmap, open_approval_atomic.
  - apply atomic_fmap. unfold add_sign. repeat atomic_step.
  - unfold remove_sign. do 6 atomic_step. destruct (_ && _); repeat atomic_step.
  - unfold claim. repeat atomic_step.
  - unfold vote. repeat atomic_step.
  - unfold acknowledge. repeat atomic_step.
  - unfold transfer. repeat atomic_step.
  - unfold delegate. repeat atomic_step.
  - apply atomic_fmap. unfold return_to_node. repeat atomic_step.
  - unfold withdraw. repeat atomic_step.
  - unfold terminate. repeat atomic_step.
  - unfold finish. do 3 atomic_step. apply atomic_bind.
    { destruct (_ <$> _) as [[]|]; auto with approval nocore. }
    intros next. destruct (bool_decide _); repeat atomic_step.
  - unfold expire. repeat atomic_step.
Qed.
