(* ===== verification/ApprovalInv.v ===== *)
(** * The invariant of an approval instance

    What holds between the branches, rounds and seats of an instance
    ([engine_inv]), and that each step of the engine keeps it. *)

From S2P Require Export ApprovalFacts.

Local Open Scope Z_scope.
Local Open Scope approval_scope.

(** ** The invariant *)

Definition born (prefix : bytes) (e : Engine) (k : Id) : Prop :=
  exists n, 1 <= n <= seq e /\ k = gen_id (inst_id (instance e)) prefix n.

Definition in_round (rid : Id) (t : Task) : bool := bytes_eqb (task_round t) rid && bool_decide (kind t = KApproval).

(** How many approval seats of a round are in a status. *)
Definition seats (rid : Id) (q : TaskStatus -> bool) (e : Engine) : Z :=
  cnt (fun t => in_round rid t && q (task_status t)) (tasks e).
Definition approved (s : TaskStatus) : bool := bool_decide (s = TCompleted).
Definition refused (s : TaskStatus) : bool := bool_decide (s = TRejected).
Definition any_status (s : TaskStatus) : bool := true.

(** A vote was cast by the assignee, or by a delegate of the assignee. *)
Definition entitled (t : Task) (v : VoteRecord) : Prop :=
  match on_behalf_of v with
  | None => assignee t = Some (vote_actor v)
  | Some p => assignee t = Some p /\ deleg_to <$> delegation t = Some (vote_actor v)
  end.

Definition cast (t : Task) (d : Decision) : Prop :=
  exists v, votes t = [v] /\ vote_decision v = d /\ vote_round v = task_round t /\ entitled t v.

(** The votes of a seat agree with its status. *)
Definition task_ok (t : Task) : Prop :=
  (forall d, delegation t = Some d -> assignee t = Some (deleg_from d)) /\
  match task_status t with
  | TClaimed => votes t = [] /\ is_Some (assignee t)
  | TCompleted => match kind t with KApproval => cast t DApprove | KReadAck => votes t = [] end
  | TRejected => kind t = KApproval /\ cast t DReject
  | TCreated | TCancelled | TExpired => votes t = []
  end.

(** A round is open while the table does not decide it, and closed by what the
    table says. *)
Definition round_decided (r : Round) (x : Branch) (no_seats : bool) : Prop :=
  let v := verdict (reject_policy x) (join x) no_seats (total_count r) (completed_count r) (rejected_count r) in
  match rd_status r with
  | ROpen => v = None
  | RPassed => v = Some RPassed
  | RRejected => v = Some RRejected
  | RSuperseded | RCancelled => True
  end.

Definition counted (e : Engine) (k : Id) (r : Round) : Prop :=
  completed_count r = seats k approved e /\ rejected_count r = seats k refused e /\
  (rd_status r = ROpen -> total_count r = seats k counts e).

(** [dirty] is the round whose seats have changed since they were counted. *)
Record engine_inv (dirty : option Id) (e : Engine) : Prop := {
  inv_seq : 0 <= seq e < u32_modulus;
  inv_size : Z.of_nat (size (tasks e)) <= seq e;
  inv_branch : forall k x, branches e !! k = Some x ->
    br_id x = k /\ born (b "branch") e k /\ (br_status x = BOpen -> inst_status (instance e) = IRunning);
  inv_one_open : forall k x k' x', branches e !! k = Some x -> branches e !! k' = Some x' ->
    br_status x = BOpen -> br_status x' = BOpen -> k = k';
  inv_round : forall k r, rounds e !! k = Some r ->
    rd_id r = k /\ born (b "round") e k /\
    exists x, branches e !! rd_branch r = Some x /\ (rd_status r = ROpen <-> br_status x = BOpen);
  inv_one_round : forall k r k' r', rounds e !! k = Some r -> rounds e !! k' = Some r' ->
    rd_branch r = rd_branch r' -> k = k';
  inv_task : forall k t, tasks e !! k = Some t ->
    task_id t = k /\ born (b "task") e k /\ task_ok t /\
    exists r, rounds e !! task_round t = Some r /\ rd_branch r = task_branch t /\
      (is_open (task_status t) = true -> rd_status r = ROpen);
  inv_counts : forall k r, rounds e !! k = Some r -> dirty <> Some k -> counted e k r;
  inv_verdict : forall k r x, rounds e !! k = Some r -> branches e !! rd_branch r = Some x -> dirty <> Some k ->
    round_decided r x (bool_decide (seats k any_status e = 0));
  inv_attempt : forall k x, branches e !! k = Some x ->
    exists n, node_attempts e !! node x = Some n /\ 1 <= attempt x <= n;
  inv_attempt_inj : forall k x k' x', branches e !! k = Some x -> branches e !! k' = Some x' ->
    node x = node x' -> attempt x = attempt x' -> k = k';
  inv_reached : forall nd n, node_attempts e !! nd = Some n ->
    n <= seq e /\ exists k x, branches e !! k = Some x /\ node x = nd /\ attempt x = n;
  inv_jumps : jump_count (instance e) = Z.of_nat (length (returns (instance e))) /\
    jump_count (instance e) <= MAX_JUMPS }.

Lemma inv_dirty rid e : engine_inv None e -> engine_inv (Some rid) e.
Proof. intros []. by constructor; auto. Qed.

Lemma seats_bound rid q e d : engine_inv d e -> 0 <= seats rid q e < u32_modulus.
Proof. intros Hi. pose proof (cnt_size (fun t => in_round rid t && q (task_status t)) (tasks e)).
  pose proof (inv_seq _ _ Hi). pose proof (inv_size _ _ Hi). unfold seats. lia. Qed.

(** ** Bookkeeping on the instance *)

Lemma inv_with_instance d e f :
  engine_inv d e -> inst_id (f (instance e)) = inst_id (instance e) ->
  (inst_status (f (instance e)) = inst_status (instance e) \/
   inst_status (f (instance e)) = IRunning \/
   forall k x, branches e !! k = Some x -> br_status x <> BOpen) ->
  jump_count (f (instance e)) = Z.of_nat (length (returns (f (instance e)))) ->
  jump_count (f (instance e)) <= MAX_JUMPS ->
  engine_inv d (with_instance f e).
Proof.
  intros [] Hid Hst Hj1 Hj2. constructor; try done; cbn [with_instance branches rounds tasks instance seq].
  - intros k x Hx. destruct (inv_branch0 k x Hx) as (H1 & (n & Hn) & H3). split; [done|].
    split; [exists n; cbn; by rewrite Hid|]. intros Ho. destruct Hst as [-> |[-> |Hst]]; [by apply H3|done|].
    by apply Hst in Hx.
  - intros k r Hr. destruct (inv_round0 k r Hr) as (H1 & (n & Hn) & H3). split; [done|].
    split; [exists n; cbn; by rewrite Hid|done].
  - intros k t Ht. destruct (inv_task0 k t Ht) as (H1 & (n & Hn) & H3). split; [done|].
    split; [exists n; cbn; by rewrite Hid|done].
Qed.

Lemma inv_touch d e now : engine_inv d e -> engine_inv d (touch now e).
Proof. intros Hi. pose proof (inv_jumps _ _ Hi) as [H1 H2]. apply inv_with_instance; auto. Qed.

Lemma inv_audited d e now a br by_ dt : engine_inv d e -> engine_inv d (audited now a br by_ dt e).2.
Proof. intros Hi. pose proof (inv_jumps _ _ Hi) as [H1 H2]. apply inv_with_instance; auto. Qed.

(** ** A seat changes *)

Definition same_seat (t t' : Task) : Prop :=
  task_id t' = task_id t /\ task_branch t' = task_branch t /\ task_round t' = task_round t /\ kind t' = kind t.

Lemma in_round_same rid t t' : same_seat t t' -> in_round rid t' = in_round rid t.
Proof. intros (_ & _ & H1 & H2). unfold in_round. by rewrite H1, H2. Qed.

Lemma seats_update e k t t' rid q :
  tasks e !! k = Some t -> same_seat t t' ->
  (in_round rid t = true -> q (task_status t') = q (task_status t)) ->
  seats rid q (with_tasks (<[k := t']>) e) = seats rid q e.
Proof.
  intros Hk Hs Hq. unfold seats. cbn [with_tasks tasks]. rewrite (cnt_update _ _ _ _ _ Hk).
  rewrite (in_round_same rid t t' Hs). destruct (in_round rid t); [rewrite Hq by done|]; cbn [andb]; lia.
Qed.

Lemma inv_task_update d e k t t' :
  engine_inv d e -> tasks e !! k = Some t -> same_seat t t' -> task_ok t' ->
  (is_open (task_status t') = true -> is_open (task_status t) = true) ->
  (d = Some (task_round t) \/ kind t = KReadAck \/
   is_open (task_status t') = true /\ is_open (task_status t) = true) ->
  engine_inv d (with_tasks (<[k := t']>) e).
Proof.
  intros Hi Hk Hs Hok Hopen Hd. pose proof Hs as (Eid & Ebr & Erd & Ek).
  assert (forall rid q, d <> Some rid ->
    (is_open (task_status t') = true -> is_open (task_status t) = true -> q (task_status t') = q (task_status t)) ->
    seats rid q (with_tasks (<[k := t']>) e) = seats rid q e) as Hsame.
  { intros rid q Hrid Hq. apply (seats_update e k t t'); try done. intros Hin. unfold in_round in Hin.
    apply andb_true_iff in Hin as [H1 H2]. destruct (bytes_eqb_spec (task_round t) rid); [|done].
    apply bool_decide_eq_true in H2. destruct Hd as [->|[?|[H3 H4]]]; [congruence|congruence|by apply Hq]. }
  destruct Hi. constructor; try done; cbn [with_tasks branches rounds tasks instance seq node_attempts].
  - rewrite map_size_insert, Hk. exact inv_size0.
  - intros k' t2 Ht2. destruct (decide (k = k')) as [->|Hne].
    + rewrite lookup_insert_eq in Ht2. injection Ht2 as <-. destruct (inv_task0 k' t Hk) as (H1 & H2 & _ & r & H3 & H4 & H5).
      split; [congruence|]. split; [exact H2|]. split; [done|]. exists r. rewrite Erd, Ebr. auto.
    + rewrite lookup_insert_ne in Ht2 by done. by apply inv_task0.
  - intros k' r Hr Hne. destruct (inv_counts0 k' r Hr Hne) as (H1 & H2 & H3). unfold counted.
    rewrite !Hsame; [done|done| |done| |done|]; destruct (task_status t'), (task_status t); by intros.
  - intros k' r x Hr Hx Hne. rewrite Hsame by done. by eapply inv_verdict0.
Qed.

(** ** Loops over identifiers *)

Lemma foldl_alter {A : Type} (g : A -> A) (ids : list Id) (m : gmap Id A) k :
  (forall x, g (g x) = g x) ->
  foldl (fun m id => alter g id m) m ids !! k = if bool_decide (k ∈ ids) then g <$> m !! k else m !! k.
Proof.
  intros Hg. revert m. induction ids as [|id ids IH]; intros m; [done|]. cbn [foldl]. rewrite IH.
  destruct (decide (k = id)) as [->|Hne].
  - rewrite lookup_alter_eq, (bool_decide_eq_true_2 (id ∈ id :: ids)) by set_solver.
    case_bool_decide; [|done]. destruct (m !! id); cbn; by rewrite ?Hg.
  - rewrite lookup_alter_ne by done. by rewrite (bool_decide_ext (k ∈ id :: ids) (k ∈ ids)) by set_solver.
Qed.

(** Updating the values that a test selects is updating them by their keys. *)
Lemma foldl_alter_where {A : Type} (key : A -> Id) (p : A -> bool) (g : A -> A) (m : gmap Id A) :
  (forall x, g (g x) = g x) -> (forall k x, m !! k = Some x -> key x = k) ->
  foldl (fun m id => alter g id m) m (key <$> List.filter p (values m)) =
  (fun x => if p x then g x else x) <$> m.
Proof.
  intros Hg Hkey. apply map_eq. intros k. rewrite foldl_alter, lookup_fmap by done.
  destruct (m !! k) as [x|] eqn:Hk; [|by case_bool_decide]. cbn.
  assert (k ∈ key <$> List.filter p (values m) <-> p x = true) as Hiff.
  { rewrite list_elem_of_fmap. split.
    - intros (y & -> & [Hp [k' Hy]%elem_of_values]%elem_of_List_filter).
      pose proof (Hkey _ _ Hy) as E. rewrite E in Hk. congruence.
    - intros Hp. exists x. split; [by rewrite (Hkey _ _ Hk)|]. apply elem_of_List_filter.
      split; [done|]. apply elem_of_values. eauto. }
  rewrite (bool_decide_ext _ _ Hiff). destruct (p x); [by rewrite bool_decide_eq_true_2|by rewrite bool_decide_eq_false_2].
Qed.

Lemma with_tasks_id e : with_tasks (fun m => m) e = e.
Proof. by destruct e. Qed.
Lemma with_rounds_id e : with_rounds (fun m => m) e = e.
Proof. by destruct e. Qed.

Definition cancel_one (now : Z) (t : Task) : Task :=
  if is_open (task_status t) then set_task_status TCancelled now t else t.

Lemma cancel_one_idem now t : cancel_one now (cancel_one now t) = cancel_one now t.
Proof. unfold cancel_one. destruct (is_open (task_status t)) eqn:E; [done|by rewrite E]. Qed.

Lemma with_tasks_ext f g e : f (tasks e) = g (tasks e) -> with_tasks f e = with_tasks g e.
Proof. unfold with_tasks. by intros ->. Qed.

Lemma cancel_task_engine now id e : (cancel_task now id e).2 = with_tasks (alter (cancel_one now) id) e.
Proof.
  unfold cancel_task, cancel_one. destruct (tasks e !! id) as [t|] eqn:Ht.
  - destruct (is_open (task_status t)) eqn:Ho; cbn [snd].
    + apply with_tasks_ext. apply map_eq. intros k. destruct (decide (k = id)) as [->|].
      * by rewrite lookup_insert_eq, lookup_alter_eq, Ht; cbn; rewrite Ho.
      * by rewrite lookup_insert_ne, lookup_alter_ne.
    + rewrite <- (with_tasks_id e) at 1. apply with_tasks_ext. symmetry. apply alter_id. intros t' Ht'.
      replace t' with t by congruence. by rewrite Ho.
  - rewrite <- (with_tasks_id e) at 1. apply with_tasks_ext. symmetry. apply alter_id. intros t' Ht'. congruence.
Qed.

Lemma cancel_tasks_engine ids now e :
  (cancel_tasks ids now e).2 = with_tasks (fun m => foldl (fun m id => alter (cancel_one now) id m) m ids) e.
Proof.
  revert e. induction ids as [|id ids IH]; intros e; [by rewrite <- (with_tasks_id e) at 1|].
  unfold cancel_tasks in *. cbn [for_each]. unfold andthen. pose proof (cancel_task_engine now id e) as H1.
  destruct (cancel_task now id e) as [o1 e1]. cbn in H1. subst e1. specialize (IH (with_tasks (alter (cancel_one now) id) e)).
  destruct (for_each _ ids _) as [o2 e2]. cbn in *. by rewrite IH.
Qed.

(** The open tasks that a test selects are cancelled. *)
Definition cancel_where (p : Task -> bool) (now : Z) : gmap Id Task -> gmap Id Task :=
  fmap (fun t => if p t && is_open (task_status t) then set_task_status TCancelled now t else t).

Definition keys_ok (e : Engine) : Prop :=
  (forall k x, branches e !! k = Some x -> br_id x = k) /\ (forall k r, rounds e !! k = Some r -> rd_id r = k) /\
  (forall k t, tasks e !! k = Some t -> task_id t = k).

Lemma inv_keys d e : engine_inv d e -> keys_ok e.
Proof.
  intros Hi. split; [|split].
  - intros k x Hx. by apply (inv_branch _ _ Hi).
  - intros k x Hx. by apply (inv_round _ _ Hi).
  - intros k x Hx. by apply (inv_task _ _ Hi).
Qed.

Lemma cancel_selected (p : Task -> bool) now e :
  keys_ok e ->
  (cancel_tasks (task_id <$> List.filter (fun t => p t && is_open (task_status t)) (values (tasks e))) now e).2 =
  with_tasks (cancel_where p now) e.
Proof.
  intros (_ & _ & Hk). rewrite cancel_tasks_engine. apply with_tasks_ext.
  rewrite (foldl_alter_where task_id) by (auto using cancel_one_idem). unfold cancel_where.
  apply map_fmap_ext. intros k t _. unfold cancel_one. destruct (p t); [|done]. cbn. by destruct (is_open _).
Qed.

Lemma cancel_pending_engine rid now e :
  keys_ok e -> (cancel_pending_tasks rid now e).2 = with_tasks (cancel_where (fun t => bytes_eqb (task_round t) rid) now) e.
Proof. apply cancel_selected. Qed.

Lemma close_rounds_engine bid to now e :
  keys_ok e -> (close_rounds_of_branch bid to now e).2 =
  with_rounds (fmap (fun r => if bytes_eqb (rd_branch r) bid && bool_decide (rd_status r = ROpen)
                              then set_round to (Some now) r else r)) e.
Proof.
  intros (_ & Hk & _). unfold close_rounds_of_branch.
  assert (forall ids e, (for_each (close_round to now) ids e).2 =
    with_rounds (fun m => foldl (fun m id => alter (set_round to (Some now)) id m) m ids) e) as Hl.
  { clear. induction ids as [|id ids IH]; intros e; [by rewrite <- (with_rounds_id e) at 1|].
    cbn [for_each]. unfold andthen.
    assert ((close_round to now id e).2 = with_rounds (alter (set_round to (Some now)) id) e) as H1.
    { unfold close_round. destruct (rounds e !! id) as [r|] eqn:Er; cbn [snd]; unfold with_rounds; f_equal.
      - apply map_eq. intros k. destruct (decide (k = id)) as [->|].
        + by rewrite lookup_insert_eq, lookup_alter_eq, Er.
        + by rewrite lookup_insert_ne, lookup_alter_ne.
      - rewrite alter_id; [by destruct e|]. intros r Hr. congruence. }
    destruct (close_round to now id e) as [o1 e1]. cbn in H1. subst e1.
    specialize (IH (with_rounds (alter (set_round to (Some now)) id) e)).
    destruct (for_each _ ids _) as [o2 e2]. cbn in *. by rewrite IH. }
  rewrite Hl. unfold with_rounds. f_equal. by apply (foldl_alter_where rd_id).
Qed.

(** ** A branch closes with its round and its open seats *)

Lemma seats_cancel p now e e' rid q :
  tasks e' = cancel_where p now (tasks e) -> q TCreated = q TCancelled -> q TClaimed = q TCancelled ->
  seats rid q e' = seats rid q e.
Proof.
  intros Ht H1 H2. unfold seats. rewrite Ht. unfold cancel_where. rewrite cnt_fmap. apply cnt_ext. intros k t _.
  destruct (p t); [|done]. cbn. destruct (task_status t) eqn:E; cbn; rewrite ?E; try done; by rewrite ?H1, ?H2.
Qed.

Lemma cancel_where_task_ok p now t :
  task_ok t -> task_ok (if p t && is_open (task_status t) then set_task_status TCancelled now t else t).
Proof.
  intros [Hd Hs]. destruct (p t); [|done]. cbn [andb]. destruct (is_open (task_status t)) eqn:E; [|done].
  split; [exact Hd|]. cbn. destruct (task_status t); try done. by destruct Hs.
Qed.

Record closes (bid : Id) (x : Branch) (e e' : Engine) (now : Z) : Prop := {
  cl_branch : exists st c, st <> BOpen /\ branches e' = <[bid := set_branch st c x]> (branches e);
  cl_tasks : exists p, tasks e' = cancel_where p now (tasks e) /\
    forall k t, tasks e !! k = Some t -> is_open (task_status t) = true -> p t = true;
  cl_round : forall k r', rounds e' !! k = Some r' -> exists r, rounds e !! k = Some r /\
    rd_branch r' = rd_branch r /\ rd_id r' = rd_id r /\
    ((rd_branch r <> bid /\ r' = r) \/
     (rd_branch r = bid /\ rd_status r' <> ROpen /\ completed_count r' = seats k approved e /\
      rejected_count r' = seats k refused e /\ round_decided r' x (bool_decide (seats k any_status e = 0))));
  cl_rounds : forall k r, rounds e !! k = Some r -> is_Some (rounds e' !! k);
  cl_seq : seq e' = seq e /\ node_attempts e' = node_attempts e;
  cl_instance : inst_id (instance e') = inst_id (instance e) /\ jump_count (instance e') = jump_count (instance e) /\
    returns (instance e') = returns (instance e) }.

Lemma closes_none_open d bid x e e' now :
  engine_inv d e -> branches e !! bid = Some x -> br_status x = BOpen -> closes bid x e e' now ->
  forall k y, branches e' !! k = Some y -> br_status y <> BOpen.
Proof.
  intros Hi Hx Ho [(st & c & Hst & Hbr) _ _ _ _ _] k y Hy Hyo. rewrite Hbr in Hy. destruct (decide (bid = k)) as [->|Hne].
  - rewrite lookup_insert_eq in Hy. by injection Hy as <-.
  - rewrite lookup_insert_ne in Hy by done. apply Hne. by eapply (inv_one_open _ _ Hi).
Qed.

(** An open seat belongs to the open branch. *)
Lemma open_seat_branch d e k t bid x :
  engine_inv d e -> tasks e !! k = Some t -> is_open (task_status t) = true ->
  branches e !! bid = Some x -> br_status x = BOpen -> task_branch t = bid.
Proof.
  intros Hi Ht Ho Hx Hxo. destruct (inv_task _ _ Hi k t Ht) as (_ & _ & _ & r & Hr & <- & Hro).
  destruct (inv_round _ _ Hi _ r Hr) as (_ & _ & y & Hy & Hiff). eapply (inv_one_open _ _ Hi); eauto. apply Hiff, Hro, Ho.
Qed.

Section closing.
Context (d : option Id) (bid : Id) (x : Branch) (e e' : Engine) (now : Z).
Context (Hi : engine_inv d e) (Hx : branches e !! bid = Some x) (Ho : br_status x = BOpen).
Context (Hd : forall k r, d = Some k -> rounds e !! k = Some r -> rd_branch r = bid).
Context (Hc : closes bid x e e' now).

Lemma closing_branch k y' :
  branches e' !! k = Some y' ->
  exists y, branches e !! k = Some y /\ br_id y' = br_id y /\ node y' = node y /\ attempt y' = attempt y /\
    join y' = join y /\ reject_policy y' = reject_policy y /\ (k <> bid -> y' = y).
Proof.
  destruct Hc as [(st & c & Hst & Hbr) _ _ _ _ _]. rewrite Hbr. destruct (decide (bid = k)) as [<-|Hne].
  - rewrite lookup_insert_eq. intros [= <-]. exists x. by split_and!.
  - rewrite lookup_insert_ne by done. intros Hy. by exists y'.
Qed.

Lemma closing_seats k q :
  q TCreated = q TCancelled -> q TClaimed = q TCancelled -> seats k q e' = seats k q e.
Proof. destruct Hc as [_ (p & Hp & _) _ _ _ _]. by apply seats_cancel with p now. Qed.

Lemma closing_born prefix k : born prefix e k -> born prefix e' k.
Proof.
  intros (n & Hn & ->). exists n. destruct Hc as [_ _ _ _ [-> _] [-> _]]. done.
Qed.

Lemma closing_task k t' :
  tasks e' !! k = Some t' ->
  task_id t' = k /\ born (b "task") e' k /\ task_ok t' /\ is_open (task_status t') = false /\
  exists r, rounds e' !! task_round t' = Some r /\ rd_branch r = task_branch t'.
Proof.
  pose proof closing_born as Hb. destruct Hc as [_ (p & Hp & Hall) Hr Hrs _ _].
  rewrite Hp. unfold cancel_where. rewrite lookup_fmap.
  destruct (tasks e !! k) as [t|] eqn:Ht; [|done]. intros [= <-].
  destruct (inv_task _ _ Hi k t Ht) as (H1 & H2 & H3 & r & H4 & H5 & _).
  destruct (Hrs _ _ H4) as [r' Hr']. destruct (Hr _ _ Hr') as (r0 & E0 & Eb & _ & _).
  assert (forall t', same_seat t t' -> task_id t' = k /\ exists r, rounds e' !! task_round t' = Some r /\ rd_branch r = task_branch t') as Hs.
  { intros t' (E1 & E2 & E3 & E4). split; [congruence|]. exists r'. rewrite E3. split; [done|]. congruence. }
  destruct (Hs (if p t && is_open (task_status t) then set_task_status TCancelled now t else t)) as [Hs1 Hs2];
    [by destruct (_ && _)|].
  split; [done|]. split; [by apply Hb|]. split; [by apply cancel_where_task_ok|]. split; [|done].
  destruct (is_open (task_status t)) eqn:E; [|by rewrite andb_false_r]. by rewrite (Hall k t Ht E).
Qed.

Lemma closing_round k r' :
  rounds e' !! k = Some r' ->
  rd_id r' = k /\ born (b "round") e' k /\
  exists y, branches e' !! rd_branch r' = Some y /\ (rd_status r' = ROpen <-> br_status y = BOpen).
Proof.
  intros Hr'. pose proof closing_born as Hb. pose proof (closes_none_open _ _ _ _ _ _ Hi Hx Ho Hc) as Hno.
  destruct (cl_round _ _ _ _ _ Hc k r' Hr') as (r & Hr & Eb & Ei & Hcase).
  destruct (inv_round _ _ Hi k r Hr) as (H1 & H2 & y & Hy & Hiff). split; [congruence|]. split; [by apply Hb|].
  destruct (cl_branch _ _ _ _ _ Hc) as (st & c & Hst & Hbr). rewrite Eb.
  destruct Hcase as [[Hne ->]|(E & Hro & _)].
  - exists y. rewrite Hbr, lookup_insert_ne by done. done.
  - exists (set_branch st c x). rewrite Hbr, E, lookup_insert_eq. split; [done|]. by split.
Qed.

(** After the branch has closed nothing is open. *)
Lemma inv_close : engine_inv None e'.
Proof.
  pose proof (closes_none_open _ _ _ _ _ _ Hi Hx Ho Hc) as Hno. pose proof Hc as [_ (p & Hp & _) Hr Hrs [Es Ea] (E1 & E2 & E3)].
  constructor.
  - rewrite Es. apply (inv_seq _ _ Hi).
  - rewrite Es, Hp. unfold cancel_where. rewrite map_size_fmap. apply (inv_size _ _ Hi).
  - intros k y' Hy'. destruct (closing_branch k y' Hy') as (y & Hy & E & _). destruct (inv_branch _ _ Hi k y Hy) as (H1 & H2 & _).
    split; [congruence|]. split; [by apply closing_born|]. intros Hyo. by destruct (Hno _ _ Hy').
  - intros k y k' y' Hy _ Hyo. by destruct (Hno _ _ Hy).
  - apply closing_round.
  - intros k r k' r' (r0 & Hr0 & -> & _)%Hr (r1 & Hr1 & -> & _)%Hr. by apply (inv_one_round _ _ Hi).
  - intros k t' Ht'. destruct (closing_task k t' Ht') as (H1 & H2 & H3 & H4 & r & H5 & H6). split_and!; try done.
    exists r. split_and!; try done. by rewrite H4.
  - intros k r' Hr' _. unfold counted. rewrite !closing_seats by done. pose proof (closing_round k r' Hr') as (_ & _ & y & Hy & Hiff).
    assert (rd_status r' = ROpen -> total_count r' = seats k counts e') as Htot by (intros ?%Hiff; by destruct (Hno _ _ Hy)).
    destruct (Hr k r' Hr') as (r & Hr0 & _ & _ & [[Hne ->]|(_ & _ & ? & ? & _)]); [|done].
    destruct (inv_counts _ _ Hi k r Hr0) as (? & ? & _); [|done]. intros ->. by eapply Hne, Hd.
  - intros k r' y' Hr' Hy' _. rewrite closing_seats by done. destruct (closing_branch _ y' Hy') as (y & Hy & _ & _ & _ & Ej & Erj & Hyy).
    destruct (Hr k r' Hr') as (r & Hr0 & Eb & _ & [[Hne ->]|(Eb' & _ & _ & _ & Hdec)]).
    + rewrite Hyy by done. eapply (inv_verdict _ _ Hi); try done. intros ->. by eapply Hne, Hd.
    + rewrite Eb, Eb', Hx in Hy. injection Hy as <-. unfold round_decided. by rewrite Ej, Erj.
  - intros k y' Hy'. destruct (closing_branch k y' Hy') as (y & Hy & _ & En & Eat & _). rewrite Ea, En, Eat. by eapply (inv_attempt _ _ Hi).
  - intros k y' k2 y2' Hy' Hy2'. destruct (closing_branch k y' Hy') as (y & Hy & _ & -> & -> & _).
    destruct (closing_branch k2 y2' Hy2') as (y2 & Hy2 & _ & -> & -> & _). by eapply (inv_attempt_inj _ _ Hi).
  - intros nd n. rewrite Ea, Es. intros Hn. destruct (inv_reached _ _ Hi nd n Hn) as (Hle & k & y & Hy & En & Eat). split; [done|].
    destruct (cl_branch _ _ _ _ _ Hc) as (st & c & _ & Hbr). rewrite Hbr. destruct (decide (bid = k)) as [<-|Hne].
    + exists bid, (set_branch st c x). rewrite lookup_insert_eq. rewrite Hx in Hy. by injection Hy as <-.
    + exists k, y. by rewrite lookup_insert_ne.
  - rewrite E2, E3. apply (inv_jumps _ _ Hi).
Qed.
End closing.

(** ** Counting a round *)

Lemma count_seats d e rid q : engine_inv d e -> count_u32 q (approvals rid e) = seats rid q e.
Proof.
  intros Hi. pose proof (seats_bound rid q e d Hi) as Hb. unfold seats, cnt in *. unfold count_u32, approvals.
  rewrite filter_filter_and. apply Z.mod_small. exact Hb.
Qed.

Lemma no_approvals rid e : bool_decide (approvals rid e = []) = bool_decide (seats rid any_status e = 0).
Proof.
  apply bool_decide_ext. unfold seats, cnt, approvals. rewrite (filter_ext_Forall (fun t => in_round rid t && any_status (task_status t)) (in_round rid)).
  - fold (in_round rid). destruct (List.filter (in_round rid) _); simpl; by split.
  - apply Forall_forall. intros t _. by rewrite andb_true_r.
Qed.

Lemma verdict_cases rj jn ns t c r : 
  verdict rj jn ns t c r = None \/ verdict rj jn ns t c r = Some RPassed \/ verdict rj jn ns t c r = Some RRejected.
Proof. unfold verdict. repeat case_match; auto. Qed.

Definition counted_round (e : Engine) (rid : Id) (r : Round) : Round :=
  set_counts (seats rid counts e) (seats rid approved e) (seats rid refused e) r.

(** The counts of an open round are written back. *)
Lemma inv_counted e rid r x :
  engine_inv (Some rid) e -> rounds e !! rid = Some r -> branches e !! rd_branch r = Some x ->
  rd_status r = ROpen ->
  round_decided (counted_round e rid r) x (bool_decide (seats rid any_status e = 0)) ->
  engine_inv None (with_rounds (<[rid := counted_round e rid r]>) e).
Proof.
  intros Hi Hr Hx Ho Hdec.
  assert (forall k r', rounds (with_rounds (<[rid := counted_round e rid r]>) e) !! k = Some r' ->
    exists r0, rounds e !! k = Some r0 /\ rd_id r' = rd_id r0 /\ rd_branch r' = rd_branch r0 /\ rd_status r' = rd_status r0 /\
      (k <> rid -> r' = r0) /\ (k = rid -> r' = counted_round e rid r)) as Hrd.
  { intros k r'. cbn [with_rounds rounds]. destruct (decide (rid = k)) as [<-|Hne].
    - rewrite lookup_insert_eq. intros [= <-]. exists r. by split_and!.
    - rewrite lookup_insert_ne by done. intros Hr'. exists r'. by split_and!. }
  pose proof Hi as []. constructor; try done; cbn [with_rounds branches tasks].
  - intros k r' (r0 & Hr0 & -> & -> & -> & _)%Hrd. by apply inv_round0.
  - intros k r' k2 r2' (r0 & Hr0 & _ & -> & _)%Hrd (r2 & Hr2 & _ & -> & _)%Hrd. by apply inv_one_round0.
  - intros k t Ht. destruct (inv_task0 k t Ht) as (H1 & H2 & H3 & r0 & H4 & H5 & H6). split_and!; try done.
    destruct (decide (rid = task_round t)) as [E|Hne].
    + exists (counted_round e rid r). cbn [with_rounds rounds]. rewrite <- E, lookup_insert_eq. split; [done|].
      rewrite <- E, Hr in H4. injection H4 as <-. done.
    + exists r0. cbn [with_rounds rounds]. by rewrite lookup_insert_ne.
  - intros k r' (r0 & Hr0 & _ & _ & _ & Hne & Heq)%Hrd _. destruct (decide (k = rid)) as [->|Hk].
    + rewrite (Heq eq_refl). by split.
    + rewrite (Hne Hk). apply inv_counts0; [done|congruence].
  - intros k r' y Hr' Hy _. apply Hrd in Hr' as (r0 & Hr0 & _ & Eb & _ & Hne & Heq). destruct (decide (k = rid)) as [->|Hk].
    + rewrite (Heq eq_refl). rewrite Hr in Hr0. injection Hr0 as <-. rewrite Eb, Hx in Hy. by injection Hy as <-.
    + specialize (Hne Hk). subst r0. refine (inv_verdict0 k r' y Hr0 _ _); congruence.
Qed.

Lemma andthen_engine f g e : ((f ;; g) e).2 = (g (f e).2).2.
Proof. unfold andthen. destruct (f e) as [o1 e1]. cbn. by destruct (g e1). Qed.
Lemma andthen_effects f g e : ((f ;; g) e).1 = (f e).1 ++ (g (f e).2).1.
Proof. unfold andthen. destruct (f e) as [o1 e1]. cbn. by destruct (g e1). Qed.

(** What closing a branch does to the instance. *)
Lemma close_branch_engine bid to now e x :
  branches e !! bid = Some x -> br_id x = bid ->
  exists f, (close_branch bid to now e).2 = with_instance f (with_branches (<[bid := set_branch to (Some now) x]>) e) /\
    (f (instance e) = instance e \/ f (instance e) = set_inst_status IRejected (instance e)).
Proof.
  intros Hx Hid. unfold close_branch. rewrite Hx. cbn [br_id set_branch parent_branch_id]. rewrite Hid.
  rewrite !andthen_engine. cbn [updates emits snd].
  destruct (_ && _); [|exists (fun i => i); split; [by destruct e|by left]].
  destruct (bool_decide _); [exists (fun i => i); split; [by destruct e|by left]|].
  rewrite !andthen_engine. exists (set_inst_status IRejected). by split; [|right].
Qed.

Lemma inv_decide_round e rid r x to bto name now :
  engine_inv (Some rid) e -> rounds e !! rid = Some r -> branches e !! rd_branch r = Some x ->
  rd_status r = ROpen -> to <> ROpen -> bto <> BOpen ->
  round_decided (set_round to (Some now) (counted_round e rid r)) x (bool_decide (seats rid any_status e = 0)) ->
  engine_inv None (decide_round (counted_round e rid r) rid to bto name now e).2.
Proof.
  intros Hi Hr Hx Ho Hto Hbto Hdec. pose proof (inv_keys _ _ Hi) as Hk.
  destruct (inv_round _ _ Hi rid r Hr) as (Hid & _ & x0 & Hx0 & Hiff). rewrite Hx in Hx0. injection Hx0 as <-.
  pose proof (proj1 Hiff Ho) as Hxo. unfold decide_round. rewrite !andthen_engine. cbn [updates emits emit snd].
  cbn [rd_id rd_branch set_round counted_round set_counts]. rewrite Hid.
  set (r' := set_round to (Some now) (counted_round e rid r)) in *.
  rewrite cancel_pending_engine.
  2:{ destruct Hk as (H1 & H2 & H3). split_and!; try done. intros k r0. cbn. destruct (decide (rid = k)) as [<-|].
      - rewrite lookup_insert_eq. intros [= <-]. done.
      - rewrite lookup_insert_ne by done. apply H2. }
  set (e1 := with_tasks _ _).
  destruct (close_branch_engine (rd_branch r) bto now e1 x) as (f & -> & Hf); [done|by apply (proj1 Hk)|].
  eapply (inv_close (Some rid) (rd_branch r) x e); try done.
  { intros k r0 [= <-] Hr0. congruence. }
  assert (inst_id (f (instance e)) = inst_id (instance e) /\ jump_count (f (instance e)) = jump_count (instance e) /\
    returns (f (instance e)) = returns (instance e)) as Hfi by (cbn in Hf; destruct Hf as [-> | ->]; done).
  constructor; cbn; try done.
  - by exists bto, (Some now).
  - eexists. split; [done|]. intros k t Ht Hopen. destruct (inv_task _ _ Hi k t Ht) as (_ & _ & _ & r0 & Hr0 & _ & Hro).
    apply bool_decide_eq_true. eapply (inv_one_round _ _ Hi); [exact Hr0|exact Hr|].
    destruct (inv_round _ _ Hi _ r0 Hr0) as (_ & _ & y & Hy & Hyi). eapply (inv_one_open _ _ Hi); eauto. apply Hyi, Hro, Hopen.
  - intros k r0. destruct (decide (rid = k)) as [<-|Hne].
    + rewrite lookup_insert_eq. intros [= <-]. exists r. split_and!; try done. by right.
    + rewrite lookup_insert_ne by done. intros Hr0. exists r0. split_and!; try done. left. split; [|done].
      intros E. apply Hne. by eapply (inv_one_round _ _ Hi).
  - intros k r0 Hr0. destruct (decide (rid = k)) as [<-|]; [by rewrite lookup_insert_eq|by rewrite lookup_insert_ne].
Qed.

Lemma inv_recount e rid r now :
  engine_inv (Some rid) e -> rounds e !! rid = Some r -> rd_status r = ROpen ->
  engine_inv None (recount rid now e).2.
Proof.
  intros Hi Hr Ho. destruct (inv_round _ _ Hi rid r Hr) as (Hid & _ & x & Hx & Hiff).
  unfold recount. rewrite Hr, (bool_decide_eq_true_2 _ Ho), Hx, (bool_decide_eq_true_2 _ (proj1 Hiff Ho)). cbn [negb].
  rewrite Hid, !(count_seats (Some rid)), no_approvals by done.
  change (set_counts _ _ _ r) with (counted_round e rid r). rewrite andthen_engine. cbn [emits snd].
  match goal with |- context [match ?v with _ => _ end] => destruct (verdict_cases (reject_policy x) (join x)
    (bool_decide (seats rid any_status e = 0)) (seats rid counts e) (seats rid approved e) (seats rid refused e)) as [E|[E|E]] end;
  fold approved refused; rewrite E.
  - cbn [updates snd rd_id counted_round set_counts]. rewrite Hid. eapply inv_counted; try done. unfold round_decided. cbn. by rewrite Ho.
  - by eapply inv_decide_round.
  - by eapply inv_decide_round.
Qed.

(** ** New entities *)

Definition room (n : Z) (e : Engine) : Prop := seq e + n < u32_modulus.

Lemma born_fresh prefix e k : 0 <= seq e < u32_modulus -> born prefix e k ->
  k <> gen_id (inst_id (instance e)) prefix (seq e + 1).
Proof.
  intros Hs (n & Hn & ->) E. apply gen_id_inj in E; [lia| |]; unfold_ints; lia.
Qed.

Lemma gen_room prefix e :
  0 <= seq e -> room 1 e -> gen prefix e = (gen_id (inst_id (instance e)) prefix (seq e + 1), with_seq (seq e + 1) e).
Proof. intros Hs Hr. unfold gen. rewrite u64_wrap_id; [done|]. unfold room in Hr. unfold_ints. lia. Qed.

Lemma born_more prefix e e' k :
  seq e <= seq e' -> inst_id (instance e') = inst_id (instance e) -> born prefix e k -> born prefix e' k.
Proof. intros Hs Hid (n & Hn & ->). exists n. rewrite Hid. split; [lia|done]. Qed.

Lemma born_new prefix e e' :
  0 <= seq e -> seq e' = seq e + 1 -> inst_id (instance e') = inst_id (instance e) ->
  born prefix e' (gen_id (inst_id (instance e)) prefix (seq e + 1)).
Proof. intros H0 Hs Hid. exists (seq e + 1). rewrite Hid. split; [lia|done]. Qed.

Section seat.
Context (rid : Id) (r : Round) (s : SeatSpec) (dl : option Z) (now : Z) (e : Engine).
Context (Hi : engine_inv (Some rid) e) (Hr : rounds e !! rid = Some r) (Ho : rd_status r = ROpen) (Hroom : room 1 e).

Definition seat_id : Id := gen_id (inst_id (instance e)) (b "task") (seq e + 1).
Definition seated : Engine :=
  with_tasks (<[seat_id := new_task seat_id (rd_branch r) rid s dl now]>) (with_seq (seq e + 1) e).

Lemma seat_fresh : tasks e !! seat_id = None.
Proof.
  destruct (tasks e !! seat_id) as [t|] eqn:Ht; [|done]. destruct (inv_task _ _ Hi _ t Ht) as (_ & Hb & _).
  by destruct (born_fresh _ _ _ (inv_seq _ _ Hi) Hb).
Qed.

Lemma inv_seated : engine_inv (Some rid) seated.
Proof.
  pose proof seat_fresh as Hf. pose proof (inv_seq _ _ Hi) as Hs. unfold room in Hroom.
  assert (forall p k, born p e k -> born p seated k) as Hb by (intros p k; apply born_more; [cbn; lia|done]).
  assert (forall k q, k <> rid -> seats k q seated = seats k q e) as Hseats.
  { intros k q Hk. unfold seats, seated. cbn [with_tasks with_seq tasks]. rewrite cnt_insert by done.
    unfold in_round at 1. cbn [new_task task_round]. destruct (bytes_eqb_spec rid k); [congruence|]. cbn. lia. }
  destruct Hi. constructor; try done; unfold seated; cbn [with_tasks with_seq branches rounds tasks instance seq node_attempts].
  - lia.
  - rewrite map_size_insert, Hf. lia.
  - intros k x Hx. destruct (inv_branch0 k x Hx) as (? & ? & ?). eauto.
  - intros k r' Hr'. destruct (inv_round0 k r' Hr') as (? & ? & ?). eauto.
  - intros k t. destruct (decide (seat_id = k)) as [<-|Hne].
    + rewrite lookup_insert_eq. intros [= <-]. cbn [new_task task_id task_round task_branch task_status]. split; [done|].
      split; [apply born_new; [lia|done|done]|]. split; [split; done|]. by exists r.
    + rewrite lookup_insert_ne by done. intros Ht. destruct (inv_task0 k t Ht) as (? & ? & ?). eauto.
  - intros k r' Hr' Hk. destruct (inv_counts0 k r' Hr' Hk) as (H1 & H2 & H3). fold seated. unfold counted.
    rewrite !Hseats by congruence. done.
  - intros k r' x Hr' Hx Hk. fold seated. rewrite Hseats by congruence. by eapply inv_verdict0.
  - intros nd n Hn. destruct (inv_reached0 nd n Hn) as (? & ?). split; [lia|done].
Qed.
End seat.

Lemma add_seats_inv rid r seats0 dl now e :
  engine_inv (Some rid) e -> rounds e !! rid = Some r -> rd_status r = ROpen ->
  room (Z.of_nat (length seats0)) e ->
  let e' := (add_seats (rd_branch r) rid seats0 dl now e).2.2 in
  engine_inv (Some rid) e' /\ rounds e' = rounds e /\ branches e' = branches e /\ instance e' = instance e.
Proof.
  revert e. induction seats0 as [|s seats0 IH]; intros e Hi Hr Ho Hroom; [done|]. cbn [add_seats].
  assert (room 1 e) as H1 by (unfold room in *; cbn [length] in Hroom; lia).
  destruct (empty_seat s); [apply IH; try done; unfold room in *; cbn [length] in Hroom; lia|].
  rewrite gen_room by (done || apply (inv_seq _ _ Hi)).
  specialize (IH (seated rid r s dl now e)).
  destruct IH as (IH1 & IH2 & IH3 & IH4); try done.
  - by apply inv_seated.
  - unfold room in *. cbn [length seated with_tasks with_seq seq] in *. lia.
  - change (with_tasks _ _) with (seated rid r s dl now e) at 1.
    destruct (add_seats _ _ seats0 _ _ _) as [ids [o e1]]. cbn in *. done.
Qed.

(** A branch is created where none is open. *)
Section new_branch.
Context (nd : bytes) (parent : option Id) (jn : JoinPolicy) (rj : RejectPolicy) (pl : ApprovalPolicy) (now : Z).
Context (e : Engine) (Hi : engine_inv None e) (Hroom : room 1 e) (Hrun : inst_status (instance e) = IRunning).
Context (Hno : forall k x, branches e !! k = Some x -> br_status x <> BOpen).

Let id := gen_id (inst_id (instance e)) (b "branch") (seq e + 1).
Let att := default 0 (node_attempts e !! nd) + 1.
Let x0 := {| br_id := id; br_instance_id := inst_id (instance e); parent_branch_id := parent; node := nd;
  attempt := att; br_status := BOpen; join := jn; reject_policy := rj; policy := pl; br_scope := ∅;
  round_ids := []; br_created_at := now; br_closed_at := None |}.

Lemma branch_fresh : branches e !! id = None.
Proof.
  destruct (branches e !! id) as [x|] eqn:Hx; [|done]. destruct (inv_branch _ _ Hi _ x Hx) as (_ & Hb & _).
  by destruct (born_fresh _ _ _ (inv_seq _ _ Hi) Hb).
Qed.

Lemma create_branch_engine :
  create_branch nd parent jn rj pl now e =
  (id, ([EBranchCreated id nd att],
        with_instance (fun i => match root_branch_id i with None => set_root id i | Some _ => i end)
          (with_branches (<[id := x0]>) (with_seq (seq e + 1) (with_attempts (<[nd := att]>) e))))).
Proof.
  unfold create_branch. assert (u32_wrap (default 0 (node_attempts e !! nd) + 1) = att) as ->.
  { unfold att. pose proof (inv_seq _ _ Hi). unfold room in Hroom. apply Z.mod_small.
    destruct (node_attempts e !! nd) as [n|] eqn:En; cbn; [|unfold_ints; lia].
    destruct (inv_reached _ _ Hi nd n En) as (? & k & x & Hx & Enode & Eat).
    destruct (inv_attempt _ _ Hi k x Hx) as (n' & _ & ?). unfold_ints. lia. }
  rewrite gen_room; [|cbn; apply (inv_seq _ _ Hi)|done]. unfold with_instance, with_branches, with_seq, with_attempts.
  cbn [instance seq]. fold id. fold x0. by destruct (root_branch_id (instance e)).
Qed.

Lemma inv_new_branch : engine_inv None (create_branch nd parent jn rj pl now e).2.2.
Proof.
  rewrite create_branch_engine. cbn [snd]. pose proof branch_fresh as Hf. pose proof (inv_seq _ _ Hi) as Hs. unfold room in Hroom.
  pose proof Hi as [].
  assert (forall p k, born p e k -> born p (with_branches (<[id := x0]>) (with_seq (seq e + 1) (with_attempts (<[nd := att]>) e))) k)
    as Hb by (intros p k; apply born_more; [cbn; lia|done]).
  assert (forall k x, <[id := x0]> (branches e) !! k = Some x -> (k = id /\ x = x0) \/ branches e !! k = Some x) as Hbr.
  { intros k x. destruct (decide (id = k)) as [<-|]; [rewrite lookup_insert_eq; intros [= <-]; by left|].
    rewrite lookup_insert_ne by done. by right. }
  assert (forall k r, rounds e !! k = Some r -> rd_branch r <> id) as Hrd.
  { intros k r Hr E. destruct (inv_round0 k r Hr) as (_ & _ & x & Hx & _). congruence. }
  apply inv_with_instance; cbn [with_branches with_seq with_attempts instance].
  2-5: destruct (root_branch_id (instance e)); cbn; auto; by destruct inv_jumps0.
  constructor; cbn [with_branches with_seq with_attempts instance branches tasks rounds node_attempts seq]; try done.
  - lia.
  - lia.
  - intros k x [[-> ->]|Hx]%Hbr; [split_and!; [done|apply born_new; [lia|done|done]|done]|].
    destruct (inv_branch0 k x Hx) as (? & ? & ?). eauto.
  - intros k x k' x' [[-> ->]|Hx]%Hbr [[-> ->]|Hx']%Hbr H1 H2; [done| | |]; by destruct (Hno _ _ ltac:(eassumption)).
  - intros k r Hr. destruct (inv_round0 k r Hr) as (H1 & H2 & x & H3 & H4). split_and!; eauto. exists x.
    rewrite lookup_insert_ne; [done|]. intros E. by apply (Hrd k r Hr).
  - intros k t Ht. destruct (inv_task0 k t Ht) as (? & ? & ?). eauto.
  - intros k r x Hr. rewrite lookup_insert_ne; [|intros E; by apply (Hrd k r Hr)]. by apply inv_verdict0.
  - intros k x [[-> ->]|Hx]%Hbr.
    + exists att. cbn [node attempt x0]. rewrite lookup_insert_eq. split; [done|]. split; [|lia]. unfold att.
      destruct (node_attempts e !! nd) as [n|] eqn:En; cbn; [|lia]. destruct (inv_reached0 nd n En) as (_ & k' & x' & Hx' & E1 & E2).
      destruct (inv_attempt0 k' x' Hx') as (n' & ? & ?). lia.
    + destruct (inv_attempt0 k x Hx) as (n & Hn & ?). destruct (decide (nd = node x)) as [->|].
      * rewrite lookup_insert_eq. exists att. unfold att. rewrite Hn. cbn. split; [done|lia].
      * rewrite lookup_insert_ne by done. eauto.
  - assert (forall k x, branches e !! k = Some x -> node x = nd -> attempt x <> att) as Hatt.
    { intros k x Hx En E. destruct (inv_attempt0 k x Hx) as (n & Hn & ?). unfold att in E. rewrite En in Hn. rewrite Hn in E. cbn in E. lia. }
    intros k x k' x' [[-> ->]|Hx]%Hbr [[-> ->]|Hx']%Hbr E1 E2; [done| | |by eapply inv_attempt_inj0].
    + by destruct (Hatt k' x' Hx').
    + by destruct (Hatt k x Hx).
  - intros n' m. destruct (decide (nd = n')) as [<-|Hne].
    + rewrite lookup_insert_eq. intros [= <-]. split.
      * unfold att. destruct (node_attempts e !! nd) as [n|] eqn:En; cbn; [|lia]. destruct (inv_reached0 nd n En). lia.
      * exists id, x0. by rewrite lookup_insert_eq.
    + rewrite lookup_insert_ne by done. intros Hm. destruct (inv_reached0 n' m Hm) as (? & k & x & Hx & ? & ?). split; [lia|].
      exists k, x. rewrite lookup_insert_ne; [done|]. congruence.
Qed.
End new_branch.

(** ** A round opens *)

Section new_round.
Context (bid : Id) (x : Branch) (n now : Z) (e : Engine).
Context (Hi : engine_inv None e) (Hx : branches e !! bid = Some x) (Ho : br_status x = BOpen) (Hroom : room 1 e).
Context (Hnone : forall k r, rounds e !! k = Some r -> rd_branch r <> bid).

Let rid := gen_id (inst_id (instance e)) (b "round") (seq e + 1).

Lemma inv_new_round :
  engine_inv (Some rid) (with_branches (<[bid := push_round rid x]>)
    (with_rounds (<[rid := new_round rid bid n now]>) (with_seq (seq e + 1) e))).
Proof.
  pose proof (inv_seq _ _ Hi) as Hs. unfold room in Hroom. pose proof Hi as [].
  set (e' := with_branches _ _).
  assert (rounds e !! rid = None) as Hf.
  { destruct (rounds e !! rid) as [r|] eqn:Hr; [|done]. destruct (inv_round0 _ r Hr) as (_ & Hb & _).
    by destruct (born_fresh _ _ _ Hs Hb). }
  assert (forall p k, born p e k -> born p e' k) as Hb by (intros p k; apply born_more; [cbn; lia|done]).
  assert (forall k y', branches e' !! k = Some y' -> exists y, branches e !! k = Some y /\ br_id y' = br_id y /\
    br_status y' = br_status y /\ node y' = node y /\ attempt y' = attempt y /\ join y' = join y /\
    reject_policy y' = reject_policy y) as Hbr.
  { intros k y'. cbn. destruct (decide (bid = k)) as [<-|]; [rewrite lookup_insert_eq; intros [= <-]; by exists x|].
    rewrite lookup_insert_ne by done. intros ?. by exists y'. }
  assert (forall k y, branches e !! k = Some y -> exists y', branches e' !! k = Some y' /\ br_status y' = br_status y /\
    node y' = node y /\ attempt y' = attempt y) as Hbr'.
  { intros k y Hy. cbn. destruct (decide (bid = k)) as [<-|]; [|rewrite lookup_insert_ne by done; eauto].
    rewrite lookup_insert_eq. exists (push_round rid x). by replace y with x by congruence. }
  assert (forall k r, rounds e' !! k = Some r -> (k = rid /\ r = new_round rid bid n now) \/ (k <> rid /\ rounds e !! k = Some r)) as Hrd.
  { intros k r. cbn. destruct (decide (rid = k)) as [<-|]; [rewrite lookup_insert_eq; intros [= <-]; by left|].
    rewrite lookup_insert_ne by done. by right. }
  constructor; try done.
  - cbn. lia.
  - cbn. lia.
  - intros k y' (y & Hy & -> & -> & _)%Hbr. destruct (inv_branch0 k y Hy) as (? & ? & ?). eauto.
  - intros k y' k2 y2' (y & Hy & _ & -> & _)%Hbr (y2 & Hy2 & _ & -> & _)%Hbr. by apply inv_one_open0.
  - intros k r [[-> ->]|[_ Hr]]%Hrd.
    + split; [done|]. split; [apply born_new; [lia|done|done]|]. exists (push_round rid x). cbn. by rewrite lookup_insert_eq.
    + destruct (inv_round0 k r Hr) as (? & ? & y & Hy & Hiff). split_and!; eauto. destruct (Hbr' _ _ Hy) as (y' & ? & E & _). exists y'. by rewrite E.
  - intros k r k2 r2 [[-> ->]|[_ Hr]]%Hrd [[-> ->]|[_ Hr2]]%Hrd E; [done| | |by eapply inv_one_round0];
      [by destruct (Hnone _ _ Hr2)|by destruct (Hnone _ _ Hr)].
  - intros k t Ht. destruct (inv_task0 k t Ht) as (? & ? & ? & r & Hr & ? & ?). split_and!; eauto. exists r. cbn.
    rewrite lookup_insert_ne; [done|]. congruence.
  - intros k r [[-> ->]|[_ Hr]]%Hrd Hk; [congruence|]. by apply inv_counts0.
  - intros k r y' [[-> ->]|[_ Hr]]%Hrd (y & Hy & _ & _ & _ & _ & Ej & Er)%Hbr Hk; [congruence|]. unfold round_decided. rewrite Ej, Er.
    by eapply inv_verdict0.
  - intros k y' (y & Hy & _ & _ & -> & -> & _)%Hbr. by eapply inv_attempt0.
  - intros k y' k2 y2' (y & Hy & _ & _ & -> & -> & _)%Hbr (y2 & Hy2 & _ & _ & -> & -> & _)%Hbr. by apply inv_attempt_inj0.
  - intros nd m Hm. destruct (inv_reached0 nd m Hm) as (? & k & y & Hy & ? & ?). split; [cbn; lia|].
    destruct (Hbr' _ _ Hy) as (y' & ? & _ & ? & ?). exists k, y'. split_and!; congruence.
Qed.
End new_round.

(** A closed branch changes its status. *)
Lemma inv_restatus d e k y st c :
  engine_inv d e -> branches e !! k = Some y -> br_status y <> BOpen -> st <> BOpen ->
  engine_inv d (with_branches (<[k := set_branch st c y]>) e).
Proof.
  intros Hi Hy Hyo Hst. pose proof Hi as []. set (e' := with_branches _ _).
  assert (forall k' z', branches e' !! k' = Some z' -> exists z, branches e !! k' = Some z /\ br_id z' = br_id z /\
    (br_status z' = BOpen <-> br_status z = BOpen) /\ node z' = node z /\ attempt z' = attempt z /\ join z' = join z /\
    reject_policy z' = reject_policy z) as Hbr.
  { intros k' z'. cbn. destruct (decide (k = k')) as [<-|]; [rewrite lookup_insert_eq; intros [= <-]; exists y|].
    - by split_and!.
    - rewrite lookup_insert_ne by done. intros ?. by exists z'. }
  assert (forall k' z, branches e !! k' = Some z -> exists z', branches e' !! k' = Some z' /\
    (br_status z' = BOpen <-> br_status z = BOpen) /\ node z' = node z /\ attempt z' = attempt z) as Hbr'.
  { intros k' z Hz. cbn. destruct (decide (k = k')) as [<-|]; [|rewrite lookup_insert_ne by done; eauto].
    rewrite lookup_insert_eq. exists (set_branch st c y). replace z with y by congruence. by split_and!. }
  constructor; try done.
  - intros k' z' (z & Hz & -> & Ho & _)%Hbr. destruct (inv_branch0 k' z Hz) as (? & ? & ?). split_and!; try done. intros ?%Ho. auto.
  - intros k1 z1' k2 z2' (z1 & Hz1 & _ & Ho1 & _)%Hbr (z2 & Hz2 & _ & Ho2 & _)%Hbr ?%Ho1 ?%Ho2. by eapply inv_one_open0.
  - intros k' r Hr. destruct (inv_round0 k' r Hr) as (? & ? & z & Hz & Hiff). split_and!; try done.
    destruct (Hbr' _ _ Hz) as (z' & ? & Ho & _). exists z'. by rewrite Ho.
  - intros k' r z' Hr (z & Hz & _ & _ & _ & _ & Ej & Er)%Hbr Hk. unfold round_decided. rewrite Ej, Er. by eapply inv_verdict0.
  - intros k' z' (z & Hz & _ & _ & -> & -> & _)%Hbr. by eapply inv_attempt0.
  - intros k1 z1' k2 z2' (z1 & Hz1 & _ & _ & -> & -> & _)%Hbr (z2 & Hz2 & _ & _ & -> & -> & _)%Hbr. by apply inv_attempt_inj0.
  - intros nd m Hm. destruct (inv_reached0 nd m Hm) as (? & k' & z & Hz & ? & ?). split; [done|].
    destruct (Hbr' _ _ Hz) as (z' & ? & _ & ? & ?). exists k', z'. split_and!; congruence.
Qed.
