(* ===== verification/ApprovalSafety.v ===== *)
(** * The approval engine is safe

    Every command keeps the invariant, so it holds in every state an instance can
    reach; what follows from it for branches, rounds, seats and votes. *)

From S2P Require Export ApprovalInv.

Local Open Scope Z_scope.
Local Open Scope approval_scope.

(** ** Leaving a branch without a decision *)

Lemma set_branch_status_engine bid to now e x :
  branches e !! bid = Some x -> br_status x <> to ->
  exists c, (set_branch_status bid to now e).2 = with_branches (<[bid := set_branch to c x]>) e.
Proof.
  intros Hx Hne. unfold set_branch_status. rewrite Hx, bool_decide_eq_false_2 by done. cbn [snd]. by eexists.
Qed.

Lemma keys_cancel p now e : keys_ok e -> keys_ok (with_tasks (cancel_where p now) e).
Proof.
  intros (K1 & K2 & K3). split_and!; try done. intros k t. cbn. unfold cancel_where. rewrite lookup_fmap.
  destruct (tasks e !! k) as [t0|] eqn:Ht; [|done]. intros [= <-]. destruct (_ && _); by apply (K3 k t0).
Qed.

Lemma leave_closes bid x p rto bto now e :
  engine_inv None e -> branches e !! bid = Some x -> br_status x = BOpen ->
  (rto = RSuperseded \/ rto = RCancelled) -> bto <> BOpen ->
  (forall k t, tasks e !! k = Some t -> is_open (task_status t) = true -> p t = true) ->
  closes bid x e ((close_rounds_of_branch bid rto now ;; set_branch_status bid bto now)
                    (with_tasks (cancel_where p now) e)).2 now.
Proof.
  intros Hi Hx Ho Hrto Hbto Hp. pose proof (inv_keys _ _ Hi) as (K1 & K2 & K3). rewrite andthen_engine.
  rewrite close_rounds_engine.
  2:{ by apply keys_cancel. }
  destruct (set_branch_status_engine bid bto now (with_rounds (fmap (fun r => if bytes_eqb (rd_branch r) bid && bool_decide (rd_status r = ROpen)
    then set_round rto (Some now) r else r)) (with_tasks (cancel_where p now) e)) x) as (c & ->); [done|congruence|].
  constructor; cbn; try done.
  - by exists bto, c.
  - by exists p.
  - intros k r'. rewrite lookup_fmap. destruct (rounds e !! k) as [r|] eqn:Hr; [|done]. intros [= <-]. exists r.
    destruct (inv_round _ _ Hi k r Hr) as (Hid & _ & y & Hy & Hiff). destruct (bytes_eqb_spec (rd_branch r) bid) as [E|E]; cbn.
    + rewrite E, Hx in Hy. injection Hy as <-. rewrite bool_decide_eq_true_2 by (by apply Hiff).
      destruct (inv_counts _ _ Hi k r Hr) as (H1 & H2 & _); [done|]. split_and!; try done. right. split_and!; try done.
      * by destruct Hrto as [-> | ->].
      * unfold round_decided. cbn. by destruct Hrto as [-> | ->].
    + split_and!; try done. by left.
  - intros k r Hr. rewrite lookup_fmap, Hr. by eexists.
Qed.

(** The open round of a branch is the one its open seats are in. *)
Lemma open_round_Some d bid e r :
  engine_inv d e -> open_round bid e = Some r -> rd_branch r = bid /\ rd_status r = ROpen /\ rounds e !! rd_id r = Some r.
Proof.
  intros Hi [Hp [k Hk]]%find_values_Some. apply andb_true_iff in Hp as [H1 H2].
  destruct (bytes_eqb_spec (rd_branch r) bid); [|done]. apply bool_decide_eq_true in H2. split_and!; try done.
  destruct (inv_round _ _ Hi k r Hk) as (-> & _). done.
Qed.

Lemma open_round_None bid e k r : open_round bid e = None -> rounds e !! k = Some r -> rd_branch r = bid -> rd_status r <> ROpen.
Proof.
  intros Hn Hr Hb Ho. apply (proj1 (find_values_None _ _) Hn) in Hr.
  rewrite Hb, Ho in Hr. unfold bytes_eqb in Hr. by rewrite !bool_decide_eq_true_2 in Hr.
Qed.

Lemma open_seat_round d e k t rid r :
  engine_inv d e -> tasks e !! k = Some t -> is_open (task_status t) = true ->
  rounds e !! rid = Some r -> rd_status r = ROpen -> task_round t = rid.
Proof.
  intros Hi Ht Ho Hr Hro. destruct (inv_task _ _ Hi k t Ht) as (_ & _ & _ & r0 & Hr0 & _ & Hr0o).
  destruct (inv_round _ _ Hi _ r0 Hr0) as (_ & _ & y & Hy & Hyi). destruct (inv_round _ _ Hi _ r Hr) as (_ & _ & z & Hz & Hzi).
  eapply (inv_one_round _ _ Hi); [done|done|]. eapply (inv_one_open _ _ Hi); eauto; [by apply Hyi, Hr0o|by apply Hzi].
Qed.

Lemma cancel_where_none now e : with_tasks (cancel_where (fun _ => false) now) e = e.
Proof. rewrite <- (with_tasks_id e) at 2. apply with_tasks_ext. apply map_fmap_id. Qed.

(** What [return_to_node] does to the branch it leaves. *)
Lemma return_closes bid x now e :
  engine_inv None e -> branches e !! bid = Some x -> br_status x = BOpen ->
  closes bid x e ((close_rounds_of_branch bid RSuperseded now ;; set_branch_status bid BReturned now)
    (match open_round bid e with Some r => cancel_pending_tasks (rd_id r) now | None => skip end e).2).2 now.
Proof.
  intros Hi Hx Ho. destruct (open_round bid e) as [r|] eqn:Er.
  - destruct (open_round_Some _ _ _ _ Hi Er) as (Hb & Hro & Hr). rewrite cancel_pending_engine by (by eapply inv_keys).
    apply leave_closes; try done; [by left|]. intros k t Ht Hto. apply bool_decide_eq_true. by eapply open_seat_round.
  - cbn [skip snd]. rewrite <- (cancel_where_none now e) at 2. apply leave_closes; try done; [by left|].
    intros k t Ht Hto. exfalso. destruct (inv_task _ _ Hi k t Ht) as (_ & _ & _ & r & Hr & Hb & Hro).
    eapply open_round_None; [exact Er|exact Hr| |by apply Hro]. rewrite Hb. by eapply open_seat_branch.
Qed.

Lemma return_instance bid now e :
  keys_ok e ->
  instance ((close_rounds_of_branch bid RSuperseded now ;; set_branch_status bid BReturned now)
    (match open_round bid e with Some r => cancel_pending_tasks (rd_id r) now | None => skip end e).2).2 = instance e.
Proof.
  intros Hk. assert (forall e0, keys_ok e0 -> instance ((close_rounds_of_branch bid RSuperseded now ;;
    set_branch_status bid BReturned now) e0).2 = instance e0) as Hl.
  { intros e0 Hk0. rewrite andthen_engine, close_rounds_engine by done. unfold set_branch_status. cbn.
    destruct (branches e0 !! bid) as [x|]; [|done]. by destruct (bool_decide _). }
  destruct (open_round bid e) as [r|]; [|by apply Hl]. rewrite cancel_pending_engine by done. rewrite Hl by (by apply keys_cancel). done.
Qed.

Lemma latest_attempt_elem target e y :
  latest_attempt target e = Some y -> node y = target /\ exists k, branches e !! k = Some y.
Proof.
  unfold latest_attempt. intros Hy. pose proof (max_by_key_spec attempt (List.filter (fun x => bytes_eqb (node x) target) (values (branches e)))) as Hs.
  rewrite Hy in Hs. destruct Hs as [[Hn Hk%elem_of_values]%elem_of_List_filter _]. by destruct (bytes_eqb_spec (node y) target).
Qed.

(** The old attempt of the target is superseded. *)
Lemma supersede_inv y target now e :
  engine_inv None e -> (forall k x, branches e !! k = Some x -> br_status x <> BOpen) -> latest_attempt target e = Some y ->
  let e' := (set_branch_status (br_id y) BSuperseded now e).2 in
  engine_inv None e' /\ instance e' = instance e /\ seq e' = seq e /\ (forall k x, branches e' !! k = Some x -> br_status x <> BOpen).
Proof.
  intros Hi Hno [_ [k Hk]]%latest_attempt_elem. destruct (inv_branch _ _ Hi k y Hk) as (-> & _). cbv zeta.
  destruct (decide (br_status y = BSuperseded)) as [E|Hne].
  - unfold set_branch_status. rewrite Hk, bool_decide_eq_true_2 by done. done.
  - destruct (set_branch_status_engine k BSuperseded now e y Hk Hne) as (c & ->). split_and!; try done.
    + apply inv_restatus; try done. by eapply Hno.
    + intros k' x. cbn. destruct (decide (k = k')) as [<-|]; [rewrite lookup_insert_eq; by intros [= <-]|].
      rewrite lookup_insert_ne by done. apply Hno.
Qed.

(** ** Stopping the instance *)

Lemma NoDup_keys {A : Type} (key : A -> Id) (p : A -> bool) (m : gmap Id A) :
  (forall k x, m !! k = Some x -> key x = k) -> NoDup (key <$> List.filter p (values m)).
Proof.
  intros Hk. assert (NoDup (key <$> values m)) as Hn.
  { rewrite (values_perm m), <- list_fmap_compose. erewrite list_fmap_ext; [apply NoDup_fst_map_to_list|].
    intros i [k x] Hx. cbn. by apply Hk, elem_of_map_to_list, list_elem_of_lookup_2 with i. }
  induction (values m) as [|x l IH]; [constructor|]. apply NoDup_cons in Hn as [Hx Hn]. cbn. destruct (p x); [|by apply IH].
  cbn. apply NoDup_cons. split; [|by apply IH]. intros (y & E & [_ Hy]%elem_of_List_filter)%list_elem_of_fmap.
  apply Hx. rewrite E. by apply list_elem_of_fmap_2.
Qed.

Lemma NoDup_single {A : Type} (l : list A) x : NoDup l -> (forall y, y ∈ l -> y = x) -> l = [] \/ l = [x].
Proof.
  intros Hn Hl. destruct l as [|y [|z l]]; [by left| |].
  - right. f_equal. apply Hl. by left.
  - exfalso. apply NoDup_cons in Hn as [Hy _]. apply Hy. rewrite (Hl y), (Hl z) by set_solver. by left.
Qed.

Lemma any_open_branch_false e :
  any_open_branch e = false <-> forall k x, branches e !! k = Some x -> br_status x <> BOpen.
Proof. unfold any_open_branch. rewrite existsb_values. setoid_rewrite bool_decide_eq_false. done. Qed.

Lemma inv_cancel_open st now e :
  engine_inv None e -> st <> BOpen ->
  let e' := (cancel_open_branches st now e).2 in
  engine_inv None e' /\ (forall k x, branches e' !! k = Some x -> br_status x <> BOpen) /\
  inst_status (instance e') = inst_status (instance e).
Proof.
  intros Hi Hst. pose proof (inv_keys _ _ Hi) as (K1 & K2 & K3). cbv zeta. unfold cancel_open_branches.
  set (ids := br_id <$> _). assert (forall k, k ∈ ids -> exists x, branches e !! k = Some x /\ br_status x = BOpen) as Hids.
  { intros k0 (x & -> & [Hp [k Hk]%elem_of_values]%elem_of_List_filter)%list_elem_of_fmap. apply bool_decide_eq_true in Hp.
    exists x. by rewrite (K1 _ _ Hk). }
  destruct ids as [|bid ids'] eqn:Eids.
  - cbn [for_each skip snd]. split_and!; try done. intros k x Hx Ho.
    assert (k ∈ ids) as Hk by (apply list_elem_of_fmap; exists x; split; [by rewrite (K1 _ _ Hx)|];
      apply elem_of_List_filter; split; [by apply bool_decide_eq_true|]; apply elem_of_values; eauto).
    rewrite Eids in Hk. by apply elem_of_nil in Hk.
  - destruct (Hids bid) as (x & Hx & Ho); [by left|].
    assert (ids' = []) as ->.
    { destruct (NoDup_single (bid :: ids') bid) as [?|[= ->]]; [|by intros ? (y & Hy & Hyo)%Hids; eapply (inv_one_open _ _ Hi)|done|done].
      rewrite <- Eids. by apply NoDup_keys. }
    cbn [for_each]. rewrite andthen_engine. cbn [skip snd]. rewrite andthen_engine.
    rewrite cancel_selected by done.
    assert (closes bid x e ((close_rounds_of_branch bid RCancelled now;; set_branch_status bid st now)
      (with_tasks (cancel_where (fun t => bytes_eqb (task_branch t) bid) now) e)).2 now) as Hc.
    { apply leave_closes; try done; [by right|]. intros k t Ht Hto. apply bool_decide_eq_true. by eapply open_seat_branch. }
    split; [by eapply (inv_close None)|]. split; [by eapply closes_none_open|].
    rewrite andthen_engine, close_rounds_engine by (by apply keys_cancel).
    unfold set_branch_status. cbn. rewrite Hx. by destruct (bool_decide _).
Qed.

(** ** Commands *)

(** The identifiers a command may use up. *)
Definition ids_needed (c : Command) : Z :=
  match c with
  | EnterBranch _ _ _ _ _ | ReturnToNode _ _ _ _ => 1
  | OpenApproval _ seats _ => Z.of_nat (length seats) + 1
  | AddSign _ seats _ _ => Z.of_nat (length seats)
  | _ => 0
  end.

Lemma audited_inv d now a br by_ dt e o e' : audited now a br by_ dt e = (o, e') -> engine_inv d e -> engine_inv d e'.
Proof. intros H Hi. pose proof (inv_audited d e now a br by_ dt Hi) as Ha. by rewrite H in Ha. Qed.

Lemma recount_inv rid r now e o e' :
  recount rid now e = (o, e') -> engine_inv (Some rid) e -> rounds e !! rid = Some r -> rd_status r = ROpen -> engine_inv None e'.
Proof. intros H Hi Hr Ho. pose proof (inv_recount e rid r now Hi Hr Ho) as Ha. by rewrite H in Ha. Qed.

Section commands.
Context (expected now : Z) (e : Engine) (Hi : engine_inv None e).

Lemma enter_branch_inv nd parent jn rj pl r e' :
  room 1 e -> enter_branch expected nd parent jn rj pl now e = (inr r, e') -> engine_inv None e'.
Proof using Hi.
  intros Hroom H. unfold enter_branch in H. inv_M H. destruct (create_branch _ _ _ _ _ _ _) as [id [o2 e2]] eqn:Ec. inv_M H.
  apply inv_touch. pose proof (inv_jumps _ _ Hi) as [Hj1 Hj2]. eapply audited_inv; [eassumption|].
  apply negb_true_iff in H0. pose proof (proj1 (any_open_branch_false e) H0) as Hnone.
  assert (engine_inv None e0 /\ inst_status (instance e0) = IRunning /\ room 1 e0 /\
    forall k x, branches e0 !! k = Some x -> br_status x <> BOpen) as (Hi1 & Hrun & Hroom1 & Hno).
  { case_bool_decide as Ep; injection Hm as <- <-.
    - split_and!; try done. apply inv_with_instance; auto.
    - split_and!; try done. destruct (inst_status (instance e)); done. }
  pose proof (inv_new_branch nd parent jn rj pl now e0 Hi1 Hroom1 Hrun Hno) as Hn. by rewrite Ec in Hn.
Qed.

(** A change of one open seat that leaves the counts alone. *)
Lemma seat_inv id t t' :
  tasks e !! id = Some t -> is_open (task_status t) = true -> same_seat t t' -> task_ok t' ->
  (kind t = KReadAck \/ is_open (task_status t') = true) ->
  engine_inv None (touch now (with_tasks (<[task_id t' := t']>) e)).
Proof using Hi.
  intros Ht Ho Hs Hok Hk. apply inv_touch. destruct (inv_task _ _ Hi id t Ht) as (Hid & _). pose proof Hs as (E & _). rewrite E, Hid.
  eapply inv_task_update; try done. by destruct Hk as [?|?]; right; [left|right].
Qed.

Lemma seat_ok id t : tasks e !! id = Some t -> task_ok t.
Proof using Hi. intros Ht. by destruct (inv_task _ _ Hi id t Ht) as (_ & _ & ? & _). Qed.

Lemma open_votes id t : tasks e !! id = Some t -> is_open (task_status t) = true -> votes t = [].
Proof using Hi. intros [_ Hs]%seat_ok Ho. by destruct (task_status t); try destruct Hs. Qed.

Lemma claim_inv id p o e' : claim expected id p now e = (inr o, e') -> engine_inv None e'.
Proof using Hi.
  intros H. unfold claim in H. inv_M H. pose proof (seat_ok _ _ H0) as [Hd _]. apply bool_decide_eq_true in H3.
  eapply seat_inv; try done; [|by right]. split; cbn.
  - intros d Ed. apply Hd in Ed. congruence.
  - split; [by eapply open_votes|by eexists].
Qed.

Lemma acknowledge_inv id actor o e' : acknowledge expected id actor now e = (inr o, e') -> engine_inv None e'.
Proof using Hi.
  intros H. unfold acknowledge in H. inv_M H. apply bool_decide_eq_true in H2. pose proof (seat_ok _ _ H0) as [Hd _].
  match goal with |- context [change_task ?st ?w ?d ?f ?v ?n ?t] => eapply (seat_inv id t (change_task st w d f v n t)) end; try done; [|by left].
  split; cbn.
  - intros d Ed. apply Hd in Ed. by rewrite Ed, bool_decide_eq_false_2.
  - rewrite H2. by eapply open_votes.
Qed.

Lemma transfer_inv id to by_ o e' : transfer expected id to by_ now e = (inr o, e') -> engine_inv None e'.
Proof using Hi.
  intros H. unfold transfer in H. inv_M H. eapply seat_inv; try done; [|by right]. split; cbn; [done|].
  split; [by eapply open_votes|by eexists].
Qed.

Lemma delegate_inv id to by_ o e' : delegate expected id to by_ now e = (inr o, e') -> engine_inv None e'.
Proof using Hi.
  intros H. unfold delegate in H. inv_M H. apply bool_decide_eq_true in H3. eapply seat_inv; try done; [|by right].
  pose proof (seat_ok _ _ H0) as [_ Hs]. split; cbn; [by intros d [= <-]|].
  by destruct (task_status x0).
Qed.

(** The round of an open seat is open. *)
Lemma open_seat id t :
  tasks e !! id = Some t -> is_open (task_status t) = true ->
  exists r, rounds e !! task_round t = Some r /\ rd_status r = ROpen.
Proof using Hi. intros Ht Ho. destruct (inv_task _ _ Hi id t Ht) as (_ & _ & _ & r & Hr & _ & Hro). eauto. Qed.

Lemma can_act_entitled t actor behalf v t' :
  task_ok t -> actor_can_act t actor = inr behalf -> on_behalf_of v = behalf -> vote_actor v = actor ->
  delegation t' = delegation t -> assignee t' = (if bool_decide (assignee t = None) then Some actor else assignee t) ->
  entitled t' v.
Proof using Type.
  intros [Hd _] Ha Eb Ev Edel Eas. unfold entitled. rewrite Eb, Eas, Edel, Ev. unfold actor_can_act in Ha.
  assert (forall (a : ApprovalError + option Principal), a = match assignee t with
    | Some a => if bytes_eqb a actor then inr None else inl NotAuthorized
    | None => if is_candidate actor t then inr None else inl NotAuthorized end -> a = inr behalf ->
    behalf = None /\ (if bool_decide (assignee t = None) then Some actor else assignee t) = Some actor) as Hnone.
  { intros a -> E. destruct (assignee t) as [p|]; cbn in *.
    - destruct (bytes_eqb_spec p actor) as [->|]; [|done]. by injection E as <-.
    - destruct (is_candidate actor t); [|done]. by injection E as <-. }
  destruct (delegation t) as [d|] eqn:Ed; [destruct (bytes_eqb_spec (deleg_to d) actor) as [<-|]|].
  - injection Ha as <-. rewrite (Hd d eq_refl). by rewrite bool_decide_eq_false_2.
  - by destruct (Hnone _ eq_refl Ha) as [-> ->].
  - by destruct (Hnone _ eq_refl Ha) as [-> ->].
Qed.

Lemma vote_inv id actor d c o e' : vote expected id actor d c now e = (inr o, e') -> engine_inv None e'.
Proof using Hi.
  intros H. unfold vote in H. inv_M H. apply bool_decide_eq_true in H2. apply inv_touch.
  pose proof (seat_ok _ _ H0) as Hok. destruct (open_seat _ _ H0 H3) as (r & Hr & Hro).
  destruct (inv_task _ _ Hi _ _ H0) as (Hid & _). cbn [task_id change_task] in Hm. rewrite Hid in Hm.
  eapply recount_inv; [exact Hm| |exact Hr|exact Hro]. eapply (inv_task_update _ _ id x0); [by apply inv_dirty|done|done| |by destruct d|by left].
  - split; cbn; [intros dl Hdl; apply (proj1 Hok) in Hdl as Ea; by rewrite Ea, bool_decide_eq_false_2|].
    rewrite (open_votes _ _ H0 H3), H2. cbn.
    assert (cast (change_task (voted_status d) (if bool_decide (assignee x0 = None) then Some actor else assignee x0) (delegation x0)
      (transferred_from x0) [{| vote_round := task_round x0; vote_decision := d; vote_actor := actor; on_behalf_of := x3;
        vote_comment := c; vote_at := now; vote_acting_service := acting_service e |}] now x0) d) as Hc.
    { eexists. cbn. split_and!; try done. by eapply (can_act_entitled x0 actor). }
    destruct d; cbn; [exact Hc|by split].
Qed.

Lemma expire_inv id o e' : expire expected id now e = (inr o, e') -> engine_inv None e'.
Proof using Hi.
  intros H. unfold expire in H. inv_M H. rewrite H0 in H5. injection H5 as <-. apply inv_touch.
  pose proof (seat_ok _ _ H0) as [Hd _]. destruct (open_seat _ _ H0 H2) as (r & Hr & Hro).
  assert (task_ok (set_task_status TExpired now x0)) as Hok by (split; [exact Hd|cbn; by eapply open_votes]).
  case_bool_decide as Ek; inv_M Hm.
  - eapply recount_inv; [exact Hm| |exact Hr|exact Hro]. eapply (inv_task_update _ _ id x0); try done; [by apply inv_dirty|by left].
  - eapply (inv_task_update _ _ id x0); try done. right; left. by destruct (kind x0).
Qed.

(** Seats of the open round are cancelled one by one. *)
Lemma cancel_seats_inv rid ids e0 :
  engine_inv (Some rid) e0 ->
  (forall id, id ∈ ids -> exists t, tasks e0 !! id = Some t /\ task_round t = rid) ->
  engine_inv (Some rid) (for_each (cancel_task now) ids e0).2 /\ rounds (for_each (cancel_task now) ids e0).2 = rounds e0.
Proof using Type.
  revert e0. induction ids as [|id ids IH]; intros e0 Hi0 Hids; [done|]. cbn [for_each]. rewrite andthen_engine.
  destruct (Hids id) as (t & Ht & Hrd); [by left|].
  assert (engine_inv (Some rid) (cancel_task now id e0).2 /\ rounds (cancel_task now id e0).2 = rounds e0 /\
    forall id', id' ∈ ids -> exists t, tasks (cancel_task now id e0).2 !! id' = Some t /\ task_round t = rid) as (H1 & H2 & H3).
  { unfold cancel_task. rewrite Ht. destruct (is_open (task_status t)) eqn:Ho; cbn [snd].
    - split_and!; [|done|].
      + destruct (inv_task _ _ Hi0 id t Ht) as (_ & _ & [Hd Hs] & _). eapply (inv_task_update _ _ id t); try done; [|left; congruence].
        split; [exact Hd|]. cbn. destruct (task_status t); try done. by destruct Hs.
      + intros id' Hid'. cbn. destruct (decide (id = id')) as [<-|]; [rewrite lookup_insert_eq; by eexists|].
        rewrite lookup_insert_ne by done. apply Hids. by right.
    - split_and!; try done. intros id' Hid'. apply Hids. by right. }
  destruct (IH _ H1 H3) as [H4 H5]. split; [done|]. by rewrite H5.
Qed.

Lemma check_targets_inr rid ids e0 u e' :
  check_targets rid ids e0 = (inr u, e') -> e' = e0 /\ forall id, id ∈ ids -> exists t, tasks e0 !! id = Some t /\ task_round t = rid.
Proof using Type.
  revert u. induction ids as [|id ids IH]; intros u H; cbn [check_targets] in H; inv_M H.
  - split; [done|]. by intros id ?%elem_of_nil.
  - destruct (IH _ H) as [-> Hids]. split; [done|]. intros id' [->|Hid']%elem_of_cons; [|by apply Hids].
    destruct (bytes_eqb_spec (task_round x) rid); [|done]. eauto.
Qed.

Lemma remove_sign_inv bid ids by_ o e' : remove_sign expected bid ids by_ now e = (inr o, e') -> engine_inv None e'.
Proof using Hi.
  intros H. unfold remove_sign in H. inv_M H. apply check_targets_inr in Hm as [-> Hids].
  destruct (open_round_Some _ _ _ _ Hi H4) as (_ & Hro & Hr). destruct (_ && _); inv_M H; [done|]. apply inv_touch.
  eapply audited_inv; [eassumption|].
  destruct (cancel_seats_inv (rd_id x2) ids e (inv_dirty _ _ Hi) Hids) as [Hc Hcr]. rewrite Hm in Hc, Hcr. cbn in Hc, Hcr.
  eapply recount_inv; [eassumption|exact Hc|by rewrite Hcr|done].
Qed.

Lemma add_sign_inv bid ss by_ c o e' :
  room (Z.of_nat (length ss)) e -> add_sign expected bid ss by_ c now e = (inr o, e') -> engine_inv None e'.
Proof using Hi.
  intros Hroom H. unfold add_sign in H. inv_M H. destruct (add_seats _ _ _ _ _ _) as [ids [o1 e1]] eqn:Ea. inv_M H.
  apply inv_touch. eapply audited_inv; [eassumption|]. destruct (open_round_Some _ _ _ _ Hi H3) as (Hb & Hro & Hr).
  rewrite <- Hb in Ea. destruct (add_seats_inv (rd_id x1) x1 ss None now e (inv_dirty _ _ Hi) Hr Hro Hroom) as (Hs & Hsr & _).
  rewrite Ea in Hs, Hsr. cbn in Hs, Hsr. eapply recount_inv; [eassumption|exact Hs|by rewrite Hsr|done].
Qed.

(** The steps of [open_approval]. *)
Lemma open_approval_run bid ss dl res e' :
  room (Z.of_nat (length ss) + 1) e -> open_approval expected bid ss dl now e = (inr res, e') ->
  exists rid m x ids o1 e1 o2 e2,
    let e0 := with_branches (<[bid := push_round rid x]>) (with_rounds (<[rid := new_round rid bid m now]>) (with_seq (seq e + 1) e)) in
    branches e !! bid = Some x /\ rounds e !! rid = None /\ engine_inv (Some rid) e0 /\ room (Z.of_nat (length ss)) e0 /\
    add_seats bid rid ss dl now e0 = (ids, (o1, e1)) /\ recount rid now e1 = (o2, e2) /\ e' = touch now e2 /\
    res = (rid, ids, ERoundOpened rid bid m :: o1 ++ o2).
Proof using Hi.
  intros Hroom H. unfold open_approval in H. inv_M H. pose proof (inv_seq _ _ Hi) as Hs.
  rewrite gen_room in H by (unfold room in *; lia). inv_M H. cbn [with_rounds with_seq branches] in H4. rewrite H0 in H4. injection H4 as <-.
  destruct (inv_branch _ _ Hi _ _ H0) as (Hid & _ & _). rewrite Hid in H, H3. clear Hid. apply bool_decide_eq_true in H3.
  match type of H with context [with_branches _ (with_rounds (<[?r := new_round _ _ ?n _]>) _)] => set (rid := r) in *; set (m := n) in * end.
  destruct (add_seats _ _ _ _ _ _) as [ids [o1 e1]] eqn:Ea. inv_M H. exists rid, m, x0. do 5 eexists. cbv zeta. split_and!; try done.
  - destruct (rounds e !! rid) as [r|] eqn:Hr; [|done]. destruct (inv_round _ _ Hi _ _ Hr) as (_ & Hb & _).
    by destruct (born_fresh _ _ _ Hs Hb).
  - apply inv_new_round; try done; [unfold room in *; lia|].
    intros k r Hr E. eapply open_round_None; [exact H3|exact Hr|exact E|].
    destruct (inv_round _ _ Hi k r Hr) as (_ & _ & y & Hy & Hiff). apply Hiff. congruence.
  - unfold room in *. cbn. lia.
Qed.

Lemma open_approval_inv bid ss dl o e' :
  room (Z.of_nat (length ss) + 1) e -> open_approval expected bid ss dl now e = (inr o, e') -> engine_inv None e'.
Proof using Hi.
  intros Hroom H. destruct (open_approval_run _ _ _ _ _ Hroom H) as (rid & m & x & ids & o1 & e1 & o2 & e2 & Hx & _ & Hn & Hrm & Ea & Er & -> & _).
  apply inv_touch. destruct (add_seats_inv rid (new_round rid bid m now) ss dl now _ Hn) as (Hs1 & Hsr & _); try done.
  - cbn. by rewrite lookup_insert_eq.
  - cbn [rd_branch new_round] in Hs1, Hsr. rewrite Ea in Hs1, Hsr. cbn in Hs1, Hsr.
    eapply (recount_inv rid (new_round rid bid m now)); [eassumption|exact Hs1| |done]. rewrite Hsr. by rewrite lookup_insert_eq.
Qed.

(** The steps of [return_to_node]. *)
Lemma return_to_node_run bid target by_ c res e' :
  room 1 e -> return_to_node expected bid target by_ c now e = (inr res, e') ->
  exists x jn rj pl id o1 e0 o2 e1 o3 e2 o4 e3 e4 name data rec,
    let latest := latest_attempt target e1 in
    (match open_round bid e with Some r => cancel_pending_tasks (rd_id r) now | None => skip end) e = (o1, e0) /\
    (close_rounds_of_branch bid RSuperseded now ;; set_branch_status bid BReturned now) e0 = (o2, e1) /\
    (match latest with Some y => set_branch_status (br_id y) BSuperseded now | None => skip end) e1 = (o3, e2) /\
    engine_inv None e2 /\ room 1 e2 /\ inst_status (instance e2) = IRunning /\ jump_count (instance e2) = jump_count (instance e) /\
    (forall k y, branches e2 !! k = Some y -> br_status y <> BOpen) /\ jump_count (instance e) < MAX_JUMPS /\
    branches e !! bid = Some x /\ br_status x = BOpen /\
    (jn, rj, pl) = match latest with Some y => (join y, reject_policy y, policy y) | None => (JAll, AnyReject, default_policy) end /\
    create_branch target (latest ≫= parent_branch_id) jn rj pl now e2 = (id, (o4, e3)) /\
    audited now (b "return_to_node") (Some bid) by_ (node x ++ b " -> " ++ target) (with_instance (push_return rec) e3) = ([], e4) /\
    e' = touch now e4 /\ res = (id, o1 ++ o2 ++ o3 ++ o4 ++ [EEvent name data]) /\ seq e2 = seq e.
Proof using Hi.
  intros Hroom H. unfold return_to_node in H. inv_M H.
  destruct (inv_branch _ _ Hi _ _ H0) as (Hid & _ & Hrun). rewrite Hid in *. clear Hid.
  pose proof (return_closes bid x0 now e Hi H0 H2) as Hc. pose proof (return_instance bid now e (inv_keys _ _ Hi)) as Hin.
  rewrite Hm in Hc, Hin. cbn [snd] in Hc, Hin. rewrite Hm0 in Hc, Hin. cbn [snd] in Hc, Hin.
  pose proof (inv_close None bid x0 e e1 now Hi H0 H2 ltac:(done) Hc) as Hi1. pose proof (closes_none_open _ _ _ _ _ _ Hi H0 H2 Hc) as Hno1.
  destruct (match latest_attempt target e1 with Some y => (join y, reject_policy y, policy y) | None => _ end) as [[jn rj] pl] eqn:Epol. inv_M H.
  assert (engine_inv None e2 /\ instance e2 = instance e1 /\ seq e2 = seq e1 /\ (forall k y, branches e2 !! k = Some y -> br_status y <> BOpen))
    as (Hi2 & Hin2 & Hs2 & Hno2).
  { destruct (latest_attempt target e1) as [y|] eqn:El; [|by injection Hm1 as <- <-].
    pose proof (supersede_inv y target now e1 Hi1 Hno1 El) as Hsup. by rewrite Hm1 in Hsup. }
  destruct (create_branch _ _ _ _ _ _ _) as [new_id [o4 e3]] eqn:Ec. inv_M H. apply Z.ltb_lt in H4.
  match goal with Hem : emit _ _ _ = _ |- _ => injection Hem as <- <- end.
  match goal with Ha : audited _ _ _ _ _ _ = (?o, ?e4) |- _ =>
    assert (o = []) as -> by (unfold audited, updates in Ha; congruence); rename Ha into Haud; exists x0, jn, rj, pl, new_id, x3, e0, x4, e1, x5, e2, o4, e3, e4 end.
  do 3 eexists. cbv zeta. split_and!; try done.
  - unfold room in *. rewrite Hs2, (proj1 (cl_seq _ _ _ _ _ Hc)). done.
  - rewrite Hin2, Hin. auto.
  - by rewrite Hin2, Hin.
  - by rewrite Hs2, (proj1 (cl_seq _ _ _ _ _ Hc)).
Qed.

Lemma return_to_node_inv bid target by_ c o e' :
  room 1 e -> return_to_node expected bid target by_ c now e = (inr o, e') -> engine_inv None e'.
Proof using Hi.
  intros Hroom H. destruct (return_to_node_run _ _ _ _ _ _ Hroom H) as
    (x & jn & rj & pl & id & o1 & e0 & o2 & e1 & o3 & e2 & o4 & e3 & e4 & name & data & rec & _ & _ & _ & Hi2 & Hroom2 & Hrun2 & Hj & Hno2 & Hmax
     & _ & _ & _ & Ec & Ha & -> & _).
  pose proof (inv_new_branch target (latest_attempt target e1 ≫= parent_branch_id) jn rj pl now e2 Hi2 Hroom2 Hrun2 Hno2) as Hi3.
  assert (jump_count (instance e3) = jump_count (instance e)) as Hj3.
  { rewrite create_branch_engine in Ec by done. injection Ec as _ _ <-. cbn. rewrite <- Hj. by destruct (root_branch_id (instance e2)). }
  rewrite Ec in Hi3. cbn [snd] in Hi3. apply inv_touch. eapply audited_inv; [exact Ha|].
  pose proof (inv_jumps _ _ Hi3) as [Hj1 Hj2]. unfold MAX_JUMPS in *.
  apply inv_with_instance; auto; cbn; rewrite ?length_app; cbn; rewrite Hj3 in *; unfold u32_wrap, u32_modulus;
    rewrite Z.mod_small by lia; unfold MAX_JUMPS; lia.
Qed.

Lemma stop_instance_inv bto to a by_ dt ev data :
  bto <> BOpen -> engine_inv None (stop_instance bto to a by_ dt ev data now e).2.
Proof using Hi.
  intros Hb. unfold stop_instance. rewrite !andthen_engine. cbn [updates snd emit emits]. apply inv_touch, inv_audited.
  destruct (inv_cancel_open bto now e Hi Hb) as (H1 & H2 & H3). pose proof (inv_jumps _ _ H1) as [Hj1 Hj2].
  apply inv_with_instance; auto.
Qed.

Lemma finish_inv o e' : finish expected now e = (inr o, e') -> engine_inv None e'.
Proof using Hi.
  intros H. unfold finish in H. inv_M H. apply negb_true_iff in H0. pose proof (proj1 (any_open_branch_false e) H0) as Hno.
  pose proof (inv_jumps _ _ Hi) as [Hj1 Hj2].
  assert (e0 = e) as -> by (destruct (_ <$> _) as [[]|]; inv_M Hm; done).
  destruct (bool_decide _); inv_M H; [done|]. match goal with Hem : emit _ _ _ = _ |- _ => injection Hem as <- <- end.
  apply inv_touch, inv_with_instance; auto.
Qed.
End commands.

(** Every command keeps the invariant. *)
Lemma run_command_inv c expected now e o e' :
  engine_inv None e -> room (ids_needed c) e -> run_command c expected now e = (inr o, e') -> engine_inv None e'.
Proof.
  intros Hi Hroom H. destruct c; cbn [run_command ids_needed] in *.
  - inv_M H. by eapply enter_branch_inv.
  - inv_M H. by eapply open_approval_inv.
  - inv_M H. by eapply add_sign_inv.
  - by eapply remove_sign_inv.
  - by eapply claim_inv.
  - by eapply vote_inv.
  - by eapply acknowledge_inv.
  - by eapply transfer_inv.
  - by eapply delegate_inv.
  - inv_M H. by eapply return_to_node_inv.
  - unfold withdraw in H. inv_M H. pose proof (stop_instance_inv now e Hi BCancelled ICancelled (b "withdraw") by_ []
      (b "com.china-workflow.instance.cancelled.v1") instance_data) as Hs. rewrite H in Hs. by apply Hs.
  - unfold terminate in H. inv_M H. epose proof (stop_instance_inv now e Hi BTerminated ITerminated _ _ _ _ _) as Hs.
    erewrite H in Hs. by apply Hs.
  - by eapply finish_inv.
  - by eapply expire_inv.
Qed.

(** ** Reachable states *)

Inductive engine_step : Engine -> Engine -> Prop :=
  | step_command c expected now e o e' :
      room (ids_needed c) e -> run_command c expected now e = (inr o, e') -> engine_step e e'
  | step_service service e : engine_step e (set_acting_service service e).

Lemma start_inv spec now e : start spec now = inr e -> engine_inv None e.
Proof.
  unfold start. destruct (existsb _ _); [done|]. destruct (_ || _); [done|]. intros [= <-].
  constructor; cbn; try (intros * H; by rewrite lookup_empty in H); try done.
Qed.

Lemma service_inv service e : engine_inv None e -> engine_inv None (set_acting_service service e).
Proof. intros []. by constructor. Qed.

Lemma reachable_inv spec now e0 e : start spec now = inr e0 -> rtc engine_step e0 e -> engine_inv None e.
Proof.
  intros H0%start_inv Hr. induction Hr as [|e1 e2 e3 Hs _ IH]; [done|]. apply IH.
  destruct Hs; [by eapply run_command_inv|by apply service_inv].
Qed.

(** C7: an approval instance stays consistent.  In every state it can reach at
    most one branch is open, and then the instance is running; each branch has
    at most one round, and the round is open exactly while its branch is; an
    open seat belongs to the open round; the attempts of a node are told
    apart; and the instance has been sent back at most twenty times.  So once
    the instance has ended nothing of it is open. *)
Theorem approval_instance_consistent spec now e0 e :
  start spec now = inr e0 -> rtc engine_step e0 e ->
  (forall k x k' x', branches e !! k = Some x -> branches e !! k' = Some x' ->
    (br_status x = BOpen -> inst_status (instance e) = IRunning) /\
    (br_status x = BOpen -> br_status x' = BOpen -> k = k') /\
    (node x = node x' -> attempt x = attempt x' -> k = k')) /\
  (forall k r k' r', rounds e !! k = Some r -> rounds e !! k' = Some r' ->
    (rd_branch r = rd_branch r' -> k = k') /\
    exists x, branches e !! rd_branch r = Some x /\ (rd_status r = ROpen <-> br_status x = BOpen)) /\
  (forall k t, tasks e !! k = Some t ->
    exists r, rounds e !! task_round t = Some r /\ rd_branch r = task_branch t /\
      (is_open (task_status t) = true -> rd_status r = ROpen)) /\
  jump_count (instance e) = Z.of_nat (length (returns (instance e))) /\ jump_count (instance e) <= MAX_JUMPS.
Proof.
  intros H0 Hr. pose proof (reachable_inv _ _ _ _ H0 Hr) as Hi. split; [|split; [|split]].
  - intros k x k' x' Hx Hx'. destruct (inv_branch _ _ Hi k x Hx) as (_ & _ & ?). split_and!; [done| |].
    + by apply (inv_one_open _ _ Hi).
    + by apply (inv_attempt_inj _ _ Hi).
  - intros k r k' r' Hk Hk'. split; [by apply (inv_one_round _ _ Hi)|]. by destruct (inv_round _ _ Hi k r Hk) as (_ & _ & ?).
  - intros k t Ht. by destruct (inv_task _ _ Hi k t Ht) as (_ & _ & _ & ?).
  - apply (inv_jumps _ _ Hi).
Qed.

(** ** Votes *)

Definition voted (d : Decision) (t : Task) : bool :=
  existsb (fun v => match d, vote_decision v with DApprove, DApprove | DReject, DReject => true | _, _ => false end) (votes t).

(** The votes of one kind that were cast in a round. *)
Definition votes_in (rid : Id) (d : Decision) (e : Engine) : Z :=
  cnt (fun t => bytes_eqb (task_round t) rid && voted d t) (tasks e).

Lemma voted_status_of t : task_ok t ->
  voted DApprove t = (bool_decide (kind t = KApproval) && approved (task_status t)) /\
  voted DReject t = (bool_decide (kind t = KApproval) && refused (task_status t)).
Proof.
  intros [_ Hs]. unfold voted, approved, refused. destruct (task_status t).
  1,5,6: rewrite Hs; cbn; by destruct (kind t).
  - destruct Hs as [-> _]. cbn. by destruct (kind t).
  - destruct (kind t); [destruct Hs as (v & -> & E & _); cbn; by rewrite E|by rewrite Hs].
  - destruct Hs as [-> (v & -> & E & _)]. cbn. by rewrite E.
Qed.

Lemma seats_votes d e rid :
  engine_inv d e -> seats rid approved e = votes_in rid DApprove e /\ seats rid refused e = votes_in rid DReject e.
Proof.
  intros Hi. unfold seats, votes_in. split; apply cnt_ext; intros k t Ht;
    destruct (inv_task _ _ Hi k t Ht) as (_ & _ & Hok & _); destruct (voted_status_of t Hok) as [H1 H2]; unfold in_round;
    rewrite ?H1, ?H2; by destruct (bytes_eqb _ _).
Qed.

(** C8: votes decide.  In every state an instance can reach the counts of a
    round are the numbers of the votes cast in it, and its status is what the
    decision table makes of them: open while the table leaves it undecided,
    passed or rejected by its verdict.  A seat has at most one vote, of the
    decision its status shows, and it was cast by the assignee or by the
    delegate the assignee named. *)
Theorem votes_decide spec now e0 e :
  start spec now = inr e0 -> rtc engine_step e0 e ->
  (forall k r, rounds e !! k = Some r ->
    completed_count r = votes_in k DApprove e /\ rejected_count r = votes_in k DReject e /\
    (rd_status r = ROpen -> total_count r = seats k counts e) /\
    exists x, branches e !! rd_branch r = Some x /\
      let v := verdict (reject_policy x) (join x) (bool_decide (seats k any_status e = 0))
                 (total_count r) (completed_count r) (rejected_count r) in
      (rd_status r = ROpen -> v = None) /\ (rd_status r = RPassed -> v = Some RPassed) /\
      (rd_status r = RRejected -> v = Some RRejected)) /\
  (forall k t, tasks e !! k = Some t ->
    votes t = [] \/
    exists v d, votes t = [v] /\ vote_decision v = d /\ kind t = KApproval /\ task_status t = voted_status d /\
      vote_round v = task_round t /\ entitled t v).
Proof.
  intros H0 Hr. pose proof (reachable_inv _ _ _ _ H0 Hr) as Hi. split.
  - intros k r Hk. destruct (inv_counts _ _ Hi k r Hk) as (H1 & H2 & H3); [done|].
    destruct (seats_votes _ _ k Hi) as [E1 E2]. rewrite <- E1, <- E2. split_and!; try done.
    destruct (inv_round _ _ Hi k r Hk) as (_ & _ & x & Hx & _). exists x. split; [done|].
    pose proof (inv_verdict _ _ Hi k r x Hk Hx ltac:(done)) as Hv. unfold round_decided in Hv. cbv zeta in *.
    destruct (rd_status r); by split_and!.
  - intros k t Ht. destruct (inv_task _ _ Hi k t Ht) as (_ & _ & [_ Hs] & _). unfold cast in Hs.
    destruct (task_status t); try (by left); try (by left; destruct Hs).
    + destruct (kind t); [|by left]. destruct Hs as (v & ? & ? & ? & ?). right. by exists v, DApprove.
    + destruct Hs as (? & v & ? & ? & ? & ?). right. by exists v, DReject.
Qed.

(** ** Revisions *)

(** What only [touch] changes, and what no command changes. *)
Definition core (e : Engine) : Z * Id * Principal :=
  (revision (instance e), inst_id (instance e), initiator (instance e)).

Definition keeps_core (f : W) : Prop := forall e, core (f e).2 = core e.

Lemma keeps_andthen f g : keeps_core f -> keeps_core g -> keeps_core (f ;; g).
Proof. intros Hf Hg e. rewrite andthen_engine. by rewrite Hg, Hf. Qed.
Lemma keeps_for_each f ids : (forall id, keeps_core (f id)) -> keeps_core (for_each f ids).
Proof. intros Hf. induction ids as [|id ids IH]; [done|]. by apply keeps_andthen. Qed.

Lemma keeps_cancel_tasks ids now : keeps_core (cancel_tasks ids now).
Proof. apply keeps_for_each. intros id e. unfold cancel_task. destruct (tasks e !! id); [|done]. by destruct (is_open _). Qed.
Lemma keeps_close_rounds bid to now : keeps_core (close_rounds_of_branch bid to now).
Proof.
  intros e. unfold close_rounds_of_branch. apply keeps_for_each. intros id e'. unfold close_round. by destruct (rounds e' !! id).
Qed.
Lemma keeps_set_branch_status bid to now : keeps_core (set_branch_status bid to now).
Proof. intros e. unfold set_branch_status. destruct (branches e !! bid); [|done]. by destruct (bool_decide _). Qed.
Lemma keeps_close_branch bid to now : keeps_core (close_branch bid to now).
Proof.
  intros e. unfold close_branch. destruct (branches e !! bid); [|done]. rewrite !andthen_engine. cbn [updates emits snd].
  destruct (_ && _); [|done]. destruct (bool_decide _); [done|]. by rewrite !andthen_engine.
Qed.
Lemma keeps_decide_round r rid to bto name now : keeps_core (decide_round r rid to bto name now).
Proof.
  repeat apply keeps_andthen; try done.
  - intros e. apply keeps_cancel_tasks.
  - apply keeps_close_branch.
Qed.
Lemma keeps_recount rid now : keeps_core (recount rid now).
Proof.
  intros e. unfold recount. destruct (rounds e !! rid); [|done]. destruct (negb _); [done|]. destruct (branches e !! _); [|done].
  destruct (negb _); [done|]. rewrite andthen_engine. cbn [emits snd]. destruct (verdict _ _ _ _ _ _) as [[]|]; try done;
    apply keeps_decide_round.
Qed.
Lemma keeps_audited now a br by_ dt : keeps_core (audited now a br by_ dt).
Proof. done. Qed.
Lemma keeps_cancel_open st now : keeps_core (cancel_open_branches st now).
Proof.
  intros e. unfold cancel_open_branches. apply keeps_for_each. intros id e'.
  by repeat apply keeps_andthen; [apply keeps_cancel_tasks|apply keeps_close_rounds|apply keeps_set_branch_status].
Qed.

Lemma keeps_eq f e o e' : keeps_core f -> f e = (o, e') -> core e' = core e.
Proof. intros Hf E. specialize (Hf e). by rewrite E in Hf. Qed.

Lemma add_seats_core bid rid ss dl now e : core (add_seats bid rid ss dl now e).2.2 = core e.
Proof.
  revert e. induction ss as [|s ss IH]; intros e; [done|]. cbn [add_seats]. destruct (empty_seat s); [apply IH|]. cbn [gen].
  match goal with |- context [add_seats bid rid ss dl now ?e1] => specialize (IH e1) end.
  destruct (add_seats bid rid ss dl now _) as [ids [o e1]]. cbn in *. done.
Qed.
Lemma create_branch_core nd parent jn rj pl now e : core (create_branch nd parent jn rj pl now e).2.2 = core e.
Proof. unfold create_branch. cbn [gen]. by destruct (root_branch_id _). Qed.

Definition touched (e e' : Engine) : Prop :=
  revision (instance e') = u64_wrap (revision (instance e) + 1) /\ inst_id (instance e') = inst_id (instance e) /\
  initiator (instance e') = initiator (instance e).

Lemma touch_core now e e1 : core e1 = core e -> touched e (touch now e1).
Proof. intros [= E1 E2 E3]. unfold touched. cbn. by rewrite E1, E2, E3. Qed.

(** Chase the core through the equations of a command. *)
Ltac chase_core :=
  repeat match goal with
  | H : recount _ _ _ = _ |- _ => apply (keeps_eq _ _ _ _ (keeps_recount _ _)) in H
  | H : audited _ _ _ _ _ _ = _ |- _ => apply (keeps_eq _ _ _ _ (keeps_audited _ _ _ _ _)) in H
  | H : for_each (cancel_task _) _ _ = _ |- _ => apply (keeps_eq _ _ _ _ (keeps_cancel_tasks _ _)) in H
  | H : set_branch_status _ _ _ _ = _ |- _ => apply (keeps_eq _ _ _ _ (keeps_set_branch_status _ _ _)) in H
  | H : emit _ _ _ = _ |- _ => injection H as <- <-
  end.

Lemma run_command_touch c expected now e o e' :
  run_command c expected now e = (inr o, e') -> (e' = e /\ o = []) \/ touched e e'.
Proof.
  destruct c; cbn [run_command]; intros H.
  - apply bind_inr in H as (res & er & H & Hret). inv_M Hret. unfold enter_branch in H. inv_M H. destruct (create_branch _ _ _ _ _ _ _) as [id [o2 e2]] eqn:Ec. inv_M H. right.
    apply touch_core. chase_core. rewrite Hm0. pose proof (create_branch_core nd parent jn rj pl now e0) as Hc. rewrite Ec in Hc.
    cbn in Hc. rewrite Hc. destruct (bool_decide _); by injection Hm as <- <-.
  - apply bind_inr in H as (res & er & H & Hret). inv_M Hret. unfold open_approval in H. inv_M H. cbn [gen] in H. inv_M H. destruct (add_seats _ _ _ _ _ _) as [ids [o1 e1]] eqn:Ea. inv_M H. right.
    apply touch_core. chase_core. rewrite Hm. match type of Ea with add_seats ?a ?c ?d ?f ?g ?h = _ =>
      pose proof (add_seats_core a c d f g h) as Hc end. rewrite Ea in Hc. exact Hc.
  - apply bind_inr in H as (res & er & H & Hret). inv_M Hret. unfold add_sign in H. inv_M H. destruct (add_seats _ _ _ _ _ _) as [ids [o1 e1]] eqn:Ea. inv_M H. right.
    apply touch_core. chase_core. rewrite Hm0, Hm. match type of Ea with add_seats ?a ?c ?d ?f ?g ?h = _ =>
      pose proof (add_seats_core a c d f g h) as Hc end. rewrite Ea in Hc. exact Hc.
  - unfold remove_sign in H. inv_M H. apply check_targets_inr in Hm as [-> _]. destruct (_ && _); inv_M H; [by left|]. right.
    apply touch_core. chase_core. congruence.
  - unfold claim in H. inv_M H. right. by apply touch_core.
  - unfold vote in H. inv_M H. right. apply touch_core. chase_core. exact Hm.
  - unfold acknowledge in H. inv_M H. right. by apply touch_core.
  - unfold transfer in H. inv_M H. right. by apply touch_core.
  - unfold delegate in H. inv_M H. right. by apply touch_core.
  - apply bind_inr in H as (res & er & H & Hret). inv_M Hret. unfold return_to_node in H. inv_M H. destruct (match latest_attempt target e1 with Some _ => _ | None => _ end) as [[jn rj] pl].
    inv_M H. destruct (create_branch _ _ _ _ _ _ _) as [id [o2 e3]] eqn:Ec. inv_M H. right. apply touch_core. chase_core.
    match type of Ec with create_branch ?a ?c ?d ?f ?g ?h ?i = _ => pose proof (create_branch_core a c d f g h i) as Hc end.
    rewrite Ec in Hc. cbn [snd] in Hc. rewrite Hm2. change (core (with_instance _ e3)) with (core e3). rewrite Hc.
    assert (core e2 = core e1) as -> by (destruct (latest_attempt target e1); chase_core; [done|by injection Hm1 as <- <-]).
    apply (keeps_eq _ _ _ _ (keeps_andthen _ _ (keeps_close_rounds _ _ _) (keeps_set_branch_status _ _ _))) in Hm0. rewrite Hm0.
    destruct (open_round _ e); [|by injection Hm as <- <-]. by apply (keeps_eq _ _ _ _ (keeps_cancel_tasks _ _)) in Hm.
  - unfold withdraw in H. inv_M H. right. revert H. unfold stop_instance, andthen.
    destruct (cancel_open_branches _ _ _) as [o1 e1] eqn:Ec. cbn. intros [= <- <-]. apply touch_core.
    by apply (keeps_eq _ _ _ _ (keeps_cancel_open _ _)) in Ec.
  - unfold terminate in H. inv_M H. right. revert H. unfold stop_instance, andthen.
    destruct (cancel_open_branches _ _ _) as [o1 e1] eqn:Ec. cbn. intros [= <- <-]. apply touch_core.
    by apply (keeps_eq _ _ _ _ (keeps_cancel_open _ _)) in Ec.
  - unfold finish in H. inv_M H. assert (e0 = e) as -> by (destruct (_ <$> _) as [[]|]; inv_M Hm; done).
    destruct (bool_decide _); inv_M H; [by left|]. right. chase_core. by apply touch_core.
  - unfold expire in H. inv_M H. right. apply touch_core. destruct (bool_decide _); inv_M Hm; chase_core; [exact Hm|done].
Qed.

Lemma run_command_guard c expected now e x :
  guard expected e = (inl x, e) -> run_command c expected now e = (inl x, e).
Proof.
  intros Hg. destruct c; cbn [run_command]; cbv [mbind M_bind]; unfold enter_branch, open_approval, add_sign, remove_sign, claim,
    vote, acknowledge, transfer, delegate, return_to_node, withdraw, terminate, finish, expire; cbv [mbind M_bind]; by rewrite Hg.
Qed.

Lemma touched_moves e e' : touched e e' -> revision (instance e') <> revision (instance e).
Proof.
  intros (E & _) Heq. rewrite E in Heq. unfold u64_wrap, u64_modulus in Heq.
  pose proof (Z.mod_pos_bound (revision (instance e) + 1) (2 ^ 64)). pose proof (Z_div_mod_eq_full (revision (instance e) + 1) (2 ^ 64)). lia.
Qed.

(** C18: commands are guarded by the revision.  A command that names another
    revision than the current one is refused, and so is every command on an
    instance that has ended.  A command that fails leaves the instance as it
    was, wherever it fails.  A command that succeeds moves the revision or does
    nothing at all; so of two commands that name the same revision, the second
    is refused once the first has had an effect. *)
Theorem commands_guarded c expected now e r e' :
  run_command c expected now e = (r, e') ->
  (revision (instance e) <> expected -> r = inl (StaleRevision expected (revision (instance e)))) /\
  (revision (instance e) = expected -> is_terminal (inst_status (instance e)) = true -> r = inl InvalidTransition) /\
  (forall x, r = inl x -> e' = e) /\
  (forall o, r = inr o -> (e' = e /\ o = []) \/
     (revision (instance e') = u64_wrap (revision (instance e) + 1) /\
      forall c' now', run_command c' expected now' e' = (inl (StaleRevision expected (revision (instance e'))), e'))).
Proof.
  assert (forall e0, revision (instance e0) <> expected ->
    guard expected e0 = (inl (StaleRevision expected (revision (instance e0))), e0)) as Hst.
  { intros e0 Hne. unfold guard. cbv [mbind M_bind get ensure]. by rewrite (proj2 (Z.eqb_neq _ _) Hne). }
  intros H. split_and!.
  - intros Hne. rewrite (run_command_guard c expected now e _ (Hst e Hne)) in H. congruence.
  - intros Heq Ht. rewrite (run_command_guard c expected now e InvalidTransition) in H; [congruence|].
    unfold guard. cbv [mbind M_bind get ensure]. by rewrite (proj2 (Z.eqb_eq _ _) Heq), Ht.
  - intros x ->. by eapply run_command_atomic.
  - intros o ->. destruct (run_command_touch _ _ _ _ _ _ H) as [?|Ht]; [by left|right]. split; [apply Ht|].
    intros c' now'. apply run_command_guard, Hst. intros E. apply (touched_moves e e' Ht). rewrite E.
    destruct (decide (revision (instance e) = expected)) as [|Hne]; [done|].
    by rewrite (run_command_guard c expected now e _ (Hst e Hne)) in H.
Qed.

(** ** Effects *)

(** What a consumer of the effects knows of an instance. *)
Record SeatView := {
  sv_branch : Id;
  sv_round : Id;
  sv_kind : TaskKind;
  sv_status : TaskStatus;
  sv_assignee : option Principal;
  sv_candidates : list Principal;
  sv_delegate : option Principal }.

Record View := {
  v_status : InstanceStatus;
  v_branches : gmap Id (bytes * Z * BranchStatus);
  v_rounds : gmap Id (Id * Z * RoundStatus * (Z * Z * Z));
  v_seats : gmap Id SeatView }.

Definition seat_view (t : Task) : SeatView :=
  {| sv_branch := task_branch t; sv_round := task_round t; sv_kind := kind t; sv_status := task_status t;
     sv_assignee := assignee t; sv_candidates := candidates t; sv_delegate := deleg_to <$> delegation t |}.
Definition branch_view (x : Branch) : bytes * Z * BranchStatus := (node x, attempt x, br_status x).
Definition round_view (r : Round) : Id * Z * RoundStatus * (Z * Z * Z) :=
  (rd_branch r, number r, rd_status r, (total_count r, completed_count r, rejected_count r)).

Definition view (e : Engine) : View :=
  {| v_status := inst_status (instance e); v_branches := branch_view <$> branches e;
     v_rounds := round_view <$> rounds e; v_seats := seat_view <$> tasks e |}.

Definition v_set_branch (id : Id) (y : bytes * Z * BranchStatus) (v : View) : View :=
  {| v_status := v_status v; v_branches := <[id := y]> (v_branches v); v_rounds := v_rounds v; v_seats := v_seats v |}.
Definition v_set_round (id : Id) (y : Id * Z * RoundStatus * (Z * Z * Z)) (v : View) : View :=
  {| v_status := v_status v; v_branches := v_branches v; v_rounds := <[id := y]> (v_rounds v); v_seats := v_seats v |}.
Definition v_set_seat (id : Id) (y : SeatView) (v : View) : View :=
  {| v_status := v_status v; v_branches := v_branches v; v_rounds := v_rounds v; v_seats := <[id := y]> (v_seats v) |}.
Definition change_seat (st : TaskStatus) (who del : option Principal) (y : SeatView) : SeatView :=
  {| sv_branch := sv_branch y; sv_round := sv_round y; sv_kind := sv_kind y; sv_status := st;
     sv_assignee := who; sv_candidates := sv_candidates y; sv_delegate := del |}.

(** The consumer applies an effect; it must fit what it knows. *)
Definition apply_effect (v : View) (f : Effect) : option View :=
  match f with
  | EInstanceStatus from to =>
    if decide (v_status v = from)
    then Some {| v_status := to; v_branches := v_branches v; v_rounds := v_rounds v; v_seats := v_seats v |} else None
  | EBranchCreated id nd att =>
    match v_branches v !! id with None => Some (v_set_branch id (nd, att, BOpen) v) | Some _ => None end
  | EBranchStatus id from to =>
    '(nd, att, st) ← v_branches v !! id;
    if decide (st = from) then Some (v_set_branch id (nd, att, to) v) else None
  | ETaskCreated id bid rid k a c =>
    match v_seats v !! id with
    | None => Some (v_set_seat id {| sv_branch := bid; sv_round := rid; sv_kind := k; sv_status := TCreated;
                sv_assignee := a; sv_candidates := c; sv_delegate := None |} v)
    | Some _ => None
    end
  | ETaskStatus id from to =>
    y ← v_seats v !! id;
    if decide (sv_status y = from) then Some (v_set_seat id (change_seat to (sv_assignee y) (sv_delegate y) y) v) else None
  | ETaskAssigned id p AClaim =>
    y ← v_seats v !! id; Some (v_set_seat id (change_seat (sv_status y) (Some p) (sv_delegate y) y) v)
  | ETaskAssigned id p ATransfer =>
    y ← v_seats v !! id; Some (v_set_seat id (change_seat (sv_status y) (Some p) None y) v)
  | ETaskAssigned id p ADelegate =>
    y ← v_seats v !! id; Some (v_set_seat id (change_seat (sv_status y) (sv_assignee y) (Some p) y) v)
  | ERoundOpened id bid n =>
    match v_rounds v !! id with None => Some (v_set_round id (bid, n, ROpen, (0, 0, 0)) v) | Some _ => None end
  | ERoundCounted id t c r =>
    '(bid, n, st, _) ← v_rounds v !! id; Some (v_set_round id (bid, n, st, (t, c, r)) v)
  | ERoundStatus id from to =>
    '(bid, n, st, cs) ← v_rounds v !! id;
    if decide (st = from) then Some (v_set_round id (bid, n, to, cs) v) else None
  | EEvent _ _ => Some v
  end.

Fixpoint replay (v : View) (out : list Effect) : option View :=
  match out with
  | [] => Some v
  | f :: out => v ← apply_effect v f; replay v out
  end.

Lemma replay_app v o1 o2 : replay v (o1 ++ o2) = replay v o1 ≫= fun v => replay v o2.
Proof. revert v. induction o1 as [|f o1 IH]; intros v; [done|]. cbn. destruct (apply_effect v f); [apply IH|done]. Qed.

Definition reports (f : W) (e : Engine) : Prop := replay (view e) (f e).1 = Some (view (f e).2).

Lemma reports_andthen f g e : reports f e -> reports g (f e).2 -> reports (f ;; g) e.
Proof. unfold reports. rewrite andthen_effects, andthen_engine, replay_app. by intros -> H. Qed.

Lemma view_tasks k t e : view (with_tasks (<[k := t]>) e) = v_set_seat k (seat_view t) (view e).
Proof. unfold view, v_set_seat. cbn. by rewrite fmap_insert. Qed.
Lemma view_rounds k r e : view (with_rounds (<[k := r]>) e) = v_set_round k (round_view r) (view e).
Proof. unfold view, v_set_round. cbn. by rewrite fmap_insert. Qed.
Lemma view_branches k x e : view (with_branches (<[k := x]>) e) = v_set_branch k (branch_view x) (view e).
Proof. unfold view, v_set_branch. cbn. by rewrite fmap_insert. Qed.

(** A relation that every step keeps, with its effects. *)
Definition tells (f : W) : Prop := forall e, keys_ok e -> keys_ok (f e).2 /\ reports f e.

Lemma tells_andthen f g : tells f -> tells g -> tells (f ;; g).
Proof.
  intros Hf Hg e Hk. destruct (Hf e Hk) as [Hk1 H1]. destruct (Hg _ Hk1) as [Hk2 H2].
  split; [by rewrite andthen_engine|by apply reports_andthen].
Qed.
Lemma tells_for_each f ids : (forall id, tells (f id)) -> tells (for_each f ids).
Proof. intros Hf. induction ids as [|id ids IH]; [done|]. by apply tells_andthen. Qed.

Lemma tells_cancel_task now id : tells (cancel_task now id).
Proof.
  intros e (K1 & K2 & K3). unfold cancel_task, reports. destruct (tasks e !! id) as [t|] eqn:Ht; [|done].
  destruct (is_open (task_status t)); [|done]. cbn [fst snd]. split.
  - split_and!; try done. intros k t'. cbn. destruct (decide (id = k)) as [<-|]; [rewrite lookup_insert_eq; intros [= <-]; by apply (K3 id t)|].
    rewrite lookup_insert_ne by done. apply K3.
  - cbn. rewrite lookup_fmap, Ht. cbn. rewrite decide_True by done. cbn. by rewrite view_tasks.
Qed.
Lemma tells_cancel_tasks ids now : tells (cancel_tasks ids now).
Proof. apply tells_for_each, tells_cancel_task. Qed.
Lemma tells_close_round to now id : tells (close_round to now id).
Proof.
  intros e (K1 & K2 & K3). unfold close_round, reports. destruct (rounds e !! id) as [r|] eqn:Hr; [|done]. cbn [fst snd]. split.
  - split_and!; try done. intros k r'. cbn. destruct (decide (id = k)) as [<-|]; [rewrite lookup_insert_eq; intros [= <-]; by apply (K2 id r)|].
    rewrite lookup_insert_ne by done. apply K2.
  - cbn. rewrite lookup_fmap, Hr. cbn. rewrite decide_True by done. cbn. by rewrite view_rounds.
Qed.
Lemma tells_close_rounds bid to now : tells (close_rounds_of_branch bid to now).
Proof. intros e. apply tells_for_each, tells_close_round. Qed.

Lemma keys_branch e k x : keys_ok e -> br_id x = k -> keys_ok (with_branches (<[k := x]>) e).
Proof.
  intros (K1 & K2 & K3) E. split_and!; try done. intros k' x'. cbn. destruct (decide (k = k')) as [<-|].
  - rewrite lookup_insert_eq. by intros [= <-].
  - rewrite lookup_insert_ne by done. apply K1.
Qed.

Lemma tells_set_branch_status bid to now : tells (set_branch_status bid to now).
Proof.
  intros e Hk. unfold set_branch_status, reports. destruct (branches e !! bid) as [x|] eqn:Hx; [|done].
  destruct (bool_decide _); [done|]. cbn [fst snd]. pose proof (proj1 Hk _ _ Hx) as Hid. split; [by apply keys_branch|].
  cbn. rewrite Hid, lookup_fmap, Hx. cbn. rewrite decide_True by done. cbn. by rewrite view_branches.
Qed.

Lemma tells_close_branch bid to now : tells (close_branch bid to now).
Proof.
  intros e Hk. unfold close_branch, reports. destruct (branches e !! bid) as [x|] eqn:Hx; [|done].
  pose proof (proj1 Hk _ _ Hx) as Hid. cbn [br_id set_branch parent_branch_id]. rewrite Hid.
  rewrite !andthen_engine, !andthen_effects. cbn [updates emits fst snd app replay].
  set (e1 := with_branches _ e). assert (keys_ok e1) as Hk1 by (by apply keys_branch).
  assert (apply_effect (view e) (EBranchStatus bid (br_status x) to) = Some (view e1)) as H1.
  { cbn. rewrite lookup_fmap, Hx. cbn. rewrite decide_True by done. unfold e1. by rewrite view_branches. }
  rewrite H1. cbn [mbind option_bind].
  destruct (_ && _); [|done]. destruct (bool_decide _); [done|]. rewrite !andthen_engine, !andthen_effects. cbn.
  by rewrite decide_True.
Qed.

Lemma keys_round e k r : keys_ok e -> rd_id r = k -> keys_ok (with_rounds (<[k := r]>) e).
Proof.
  intros (K1 & K2 & K3) E. split_and!; try done. intros k' x'. cbn. destruct (decide (k = k')) as [<-|].
  - rewrite lookup_insert_eq. by intros [= <-].
  - rewrite lookup_insert_ne by done. apply K2.
Qed.

Lemma tells_cancel_pending rid now : tells (cancel_pending_tasks rid now).
Proof. intros e. apply tells_cancel_tasks. Qed.

Lemma tells_step f g e :
  keys_ok (f e).2 -> reports f e -> tells g -> keys_ok ((f ;; g) e).2 /\ reports (f ;; g) e.
Proof. intros Hk H Hg. destruct (Hg _ Hk). split; [by rewrite andthen_engine|by apply reports_andthen]. Qed.

Lemma tells_quiet f : (forall e, view (f e) = view e /\ (keys_ok e -> keys_ok (f e))) -> tells (updates f).
Proof. intros Hf e Hk. destruct (Hf e) as [E H]. split; [by apply H|]. unfold reports. cbn. by rewrite E. Qed.
Lemma tells_event name data : tells (fun e => emit name (data e) e).
Proof. by intros e Hk. Qed.
Lemma tells_audited now a br by_ dt : tells (audited now a br by_ dt).
Proof. by apply tells_quiet. Qed.
Lemma tells_touch now : tells (updates (touch now)).
Proof. by apply tells_quiet. Qed.

Lemma tells_decide_round r rid to bto name now e :
  keys_ok e -> rounds e !! rd_id r = Some r -> rd_status r = ROpen ->
  keys_ok (decide_round r rid to bto name now e).2 /\ reports (decide_round r rid to bto name now) e.
Proof.
  intros Hk Hr Ho. unfold decide_round. set (g := cancel_pending_tasks _ _ ;; _).
  assert (tells g) as Hg.
  { apply tells_andthen; [apply tells_cancel_pending|]. apply tells_andthen; [apply tells_close_branch|].
    apply (tells_event name (fun e => round_data e _)). }
  cbn [rd_id set_round rd_branch]. pose proof (keys_round e (rd_id r) (set_round to (Some now) r) Hk eq_refl) as Hk'.
  destruct (Hg _ Hk') as [Hk2 H2]. split; [by rewrite !andthen_engine|]. unfold reports in *.
  rewrite !andthen_engine, !andthen_effects. cbn [updates emits fst snd app replay]. cbn [apply_effect].
  cbn [view v_rounds]. rewrite lookup_fmap, Hr. cbn. rewrite decide_True by done. cbn. rewrite view_rounds in H2. apply H2.
Qed.

Lemma tells_recount rid now : tells (recount rid now).
Proof.
  intros e Hk. unfold recount. unfold reports at 1. destruct (rounds e !! rid) as [r|] eqn:Hr; [|done].
  destruct (bool_decide_reflect (rd_status r = ROpen)) as [Ho|]; [|done]. cbn [negb].
  destruct (branches e !! rd_branch r) as [x|]; [|done]. destruct (bool_decide (br_status x = BOpen)); [|done]. cbn [negb].
  pose proof (proj1 (proj2 Hk) _ _ Hr) as Hid. cbn [rd_id set_counts]. rewrite Hid.
  set (t := count_u32 counts _). set (c := count_u32 _ _). set (rj := count_u32 _ _).
  set (r' := set_counts t c rj r). set (e1 := with_rounds (<[rid := r']>) e).
  assert (keys_ok e1) as Hk1 by (by apply keys_round).
  assert (apply_effect (view e) (ERoundCounted rid t c rj) = Some (view e1)) as H1.
  { cbn. rewrite lookup_fmap, Hr. cbn. unfold e1. by rewrite view_rounds. }
  assert (forall to bto name, decide_round r' rid to bto name now e = decide_round r' rid to bto name now e1) as Hd.
  { intros to bto name. unfold decide_round, andthen, updates. cbn [rd_id set_round r' set_counts]. rewrite Hid.
    assert (forall y, with_rounds (<[rid := y]>) e1 = with_rounds (<[rid := y]>) e) as E; [|by rewrite E].
    intros y. unfold with_rounds, e1. cbn. by rewrite insert_insert_eq. }
  rewrite andthen_engine, andthen_effects. cbn [emits fst snd app replay]. rewrite H1. cbn [mbind option_bind].
  destruct (verdict _ _ _ _ _ _) as [[]|]; try done; rewrite Hd; apply tells_decide_round;
    try done; cbn; rewrite Hid; apply lookup_insert_eq.
Qed.

Lemma tells_cancel_open st now : tells (cancel_open_branches st now).
Proof.
  intros e. unfold cancel_open_branches. apply tells_for_each. intros bid e'. apply tells_andthen; [apply tells_cancel_tasks|].
  apply tells_andthen; [apply tells_close_rounds|apply tells_set_branch_status].
Qed.

Lemma tells_stop bto to a by_ dt ev data now : tells (stop_instance bto to a by_ dt ev data now).
Proof.
  apply tells_andthen; [apply tells_cancel_open|]. apply tells_andthen.
  - intros e Hk. split; [done|]. unfold reports. cbn. by rewrite decide_True.
  - apply tells_andthen; [apply tells_audited|]. apply tells_andthen; [apply tells_event|apply tells_touch].
Qed.

Lemma tells_skip : tells skip.
Proof. done. Qed.

Lemma add_seats_told rid r ss dl now e :
  engine_inv (Some rid) e -> rounds e !! rid = Some r -> rd_status r = ROpen -> room (Z.of_nat (length ss)) e ->
  reports (fun e => (add_seats (rd_branch r) rid ss dl now e).2) e.
Proof.
  unfold reports. revert e. induction ss as [|s ss IH]; intros e Hi Hr Ho Hroom; [done|]. cbn [add_seats].
  assert (room 1 e) as H1 by (unfold room in *; cbn [length] in Hroom; lia).
  destruct (empty_seat s); [apply IH; try done; unfold room in *; cbn [length] in Hroom; lia|].
  rewrite gen_room by (done || apply (inv_seq _ _ Hi)).
  specialize (IH (seated rid r s dl now e)). rewrite <-surjective_pairing in IH || idtac.
  change (with_tasks _ _) with (seated rid r s dl now e) at 1 2.
  assert (apply_effect (view e) (ETaskCreated (seat_id e) (rd_branch r) rid (seat_kind s) (seat_assignee s) (seat_candidates s))
    = Some (view (seated rid r s dl now e))) as E.
  { cbn. rewrite lookup_fmap, (seat_fresh rid) by done. cbn. unfold seated. by rewrite view_tasks. }
  destruct (add_seats _ _ ss _ _ _) as [ids [o e1]]. cbn [fst snd replay] in *. unfold seat_id in E. rewrite E. cbn. apply IH; try done.
  - by apply inv_seated.
  - unfold room in *. cbn [length seated with_tasks with_seq seq] in *. lia.
Qed.

(** Effects [o] lead a consumer from what it knows of [e] to what there is to
    know of [e']. *)
Definition told (e : Engine) (o : list Effect) (e' : Engine) : Prop := replay (view e) o = Some (view e').

Lemma told_app e o1 e1 o2 e2 : told e o1 e1 -> told e1 o2 e2 -> told e (o1 ++ o2) e2.
Proof. unfold told. rewrite replay_app. by intros -> ?. Qed.
Lemma told_cons e f o e1 e2 : apply_effect (view e) f = Some (view e1) -> told e1 o e2 -> told e (f :: o) e2.
Proof. unfold told. cbn. by intros -> ?. Qed.
Lemma tells_told f e o e' : tells f -> keys_ok e -> f e = (o, e') -> told e o e' /\ keys_ok e'.
Proof. intros Hf Hk E. destruct (Hf e Hk) as [H1 H2]. unfold reports in H2. rewrite E in *. done. Qed.
Lemma told_touch e o e' now : told e o e' -> told e o (touch now e').
Proof. done. Qed.
Lemma told_audited e o e' now a br by_ dt o' e'' :
  audited now a br by_ dt e' = (o', e'') -> told e o e' -> told e o e''.
Proof. by intros [= <- <-]. Qed.

Lemma keys_task e k t : keys_ok e -> task_id t = k -> keys_ok (with_tasks (<[k := t]>) e).
Proof.
  intros (K1 & K2 & K3) E. split_and!; try done. intros k' x'. cbn. destruct (decide (k = k')) as [<-|].
  - rewrite lookup_insert_eq. by intros [= <-].
  - rewrite lookup_insert_ne by done. apply K3.
Qed.

Section told_commands.
Context (expected now : Z) (e : Engine) (Hi : engine_inv None e).

Let Hk : keys_ok e := inv_keys _ _ Hi.

Lemma create_branch_told nd parent jn rj pl e0 o id e' :
  engine_inv None e0 -> room 1 e0 -> create_branch nd parent jn rj pl now e0 = (id, (o, e')) -> told e0 o e'.
Proof using Type.
  intros Hi0 Hroom. rewrite create_branch_engine by done. intros [= <- <- <-]. unfold told. cbn.
  rewrite lookup_fmap, branch_fresh by done. cbn. unfold view, v_set_branch. cbn. rewrite fmap_insert.
  by destruct (root_branch_id (instance e0)).
Qed.

Lemma enter_branch_told nd parent jn rj pl r e' :
  room 1 e -> enter_branch expected nd parent jn rj pl now e = (inr r, e') -> told e r.2 e'.
Proof using Hi.
  intros Hroom H. unfold enter_branch in H. inv_M H. destruct (create_branch _ _ _ _ _ _ _) as [id [o2 e2]] eqn:Ec. inv_M H.
  pose proof (inv_jumps _ _ Hi) as [Hj1 Hj2]. apply told_touch. eapply told_audited; [eassumption|].
  assert (engine_inv None e0 /\ room 1 e0 /\ told e x1 e0) as (Hi0 & Hroom0 & Ht).
  { case_bool_decide as Ep; injection Hm as <- <-; [|done]. split_and!; [|done|].
    - apply negb_true_iff in H0. pose proof (proj1 (any_open_branch_false e) H0). apply inv_with_instance; auto.
    - unfold told. cbn. by rewrite Ep, decide_True. }
  eapply told_app; [exact Ht|]. by eapply create_branch_told.
Qed.

Lemma add_seats_told' rid r ss dl e0 ids o e' :
  engine_inv (Some rid) e0 -> rounds e0 !! rid = Some r -> rd_status r = ROpen -> room (Z.of_nat (length ss)) e0 ->
  add_seats (rd_branch r) rid ss dl now e0 = (ids, (o, e')) -> told e0 o e' /\ keys_ok e'.
Proof using Type.
  intros Hi0 Hr Ho Hroom E. pose proof (add_seats_told rid r ss dl now e0 Hi0 Hr Ho Hroom) as H.
  pose proof (add_seats_inv rid r ss dl now e0 Hi0 Hr Ho Hroom) as [H' _]. unfold reports in H. rewrite E in *. split; [done|].
  by eapply inv_keys.
Qed.

Lemma add_sign_told bid ss by_ c r e' :
  room (Z.of_nat (length ss)) e -> add_sign expected bid ss by_ c now e = (inr r, e') -> told e r.2 e'.
Proof using Hi.
  intros Hroom H. unfold add_sign in H. inv_M H. destruct (add_seats _ _ _ _ _ _) as [ids [o1 e1]] eqn:Ea. inv_M H.
  apply told_touch. eapply told_audited; [eassumption|]. destruct (open_round_Some _ _ _ _ Hi H3) as (Hb & Hro & Hr).
  rewrite <- Hb in Ea. eapply add_seats_told' in Ea as [Ht Hk1]; try done; [|by apply inv_dirty].
  eapply told_app; [exact Ht|]. eapply (tells_told (recount (rd_id x1) now)); [apply tells_recount|done|eassumption].
Qed.

Lemma open_approval_told bid ss dl res e' :
  room (Z.of_nat (length ss) + 1) e -> open_approval expected bid ss dl now e = (inr res, e') -> told e res.2 e'.
Proof using Hi.
  intros Hroom H. destruct (open_approval_run _ _ _ Hi _ _ _ _ _ Hroom H) as
    (rid & m & x & ids & o1 & e1 & o2 & e2 & Hx & Hf & Hn & Hrm & Ea & Er & -> & ->).
  apply told_touch. cbn [snd]. set (e0 := with_branches _ _) in *. apply (told_cons _ _ _ e0).
  - unfold e0. cbn. rewrite lookup_fmap, Hf. cbn. unfold view, v_set_round. cbn. rewrite !fmap_insert. do 2 f_equal. symmetry. apply insert_id.
    by rewrite lookup_fmap, Hx.
  - eapply (add_seats_told' rid (new_round rid bid m now)) in Ea as [T1 Hk1]; try done; [|unfold e0; cbn; by rewrite lookup_insert_eq].
    eapply tells_told in Er as [T2 _]; [|apply tells_recount|done]. by eapply told_app.
Qed.

Lemma return_to_node_told bid target by_ c res e' :
  room 1 e -> return_to_node expected bid target by_ c now e = (inr res, e') -> told e res.2 e'.
Proof using Hi.
  intros Hroom H. destruct (return_to_node_run _ _ _ Hi _ _ _ _ _ _ Hroom H) as
    (x & jn & rj & pl & id & o1 & e0 & o2 & e1 & o3 & e2 & o4 & e3 & e4 & name & data & rec & H1 & H2 & H3 & Hi2 & Hroom2 & Hrun2 & Hj & Hno2 & _
     & _ & _ & _ & Ec & Ha & -> & -> & _).
  apply told_touch. eapply told_audited; [exact Ha|]. cbn [snd].
  eapply tells_told in H1 as [T1 Hk1]; [|destruct (open_round bid e); [apply tells_cancel_pending|apply tells_skip]|exact Hk].
  eapply tells_told in H2 as [T2 Hk2]; [|apply tells_andthen; [apply tells_close_rounds|apply tells_set_branch_status]|done].
  eapply tells_told in H3 as [T3 Hk3]; [|destruct (latest_attempt target e1); [apply tells_set_branch_status|apply tells_skip]|done].
  apply create_branch_told in Ec; [|done|done]. do 4 (eapply told_app; [eassumption|]). done.
Qed.

Lemma remove_sign_told bid ids by_ o e' : remove_sign expected bid ids by_ now e = (inr o, e') -> told e o e'.
Proof using Hi.
  intros H. unfold remove_sign in H. inv_M H. apply check_targets_inr in Hm as [-> _]. destruct (_ && _); inv_M H; [done|].
  apply told_touch. eapply told_audited; [eassumption|].
  eapply tells_told in Hm as [T1 Hk1]; [|apply tells_for_each, tells_cancel_task|exact Hk].
  eapply tells_told in Hm0 as [T2 _]; [|apply tells_recount|done]. by eapply told_app.
Qed.

(** A change of one seat. *)
Lemma told_seat id t t' o :
  tasks e !! id = Some t -> task_id t' = id ->
  replay (view e) o = Some (v_set_seat id (seat_view t') (view e)) -> told e o (with_tasks (<[id := t']>) e).
Proof using Type. intros Ht Hid Ho. unfold told. by rewrite view_tasks. Qed.

Lemma claim_told id p o e' : claim expected id p now e = (inr o, e') -> told e o e'.
Proof using Hi.
  intros H. unfold claim in H. inv_M H. destruct (inv_task _ _ Hi _ _ H0) as (Hid & _ & [_ Hs] & _). apply bool_decide_eq_true in H3.
  assert (task_status x0 = TCreated) as Hst by (destruct (task_status x0); try done; destruct Hs as [_ [? ?]]; congruence).
  apply told_touch. cbn [task_id change_task]. rewrite Hid. eapply told_seat; try done.
  cbn. rewrite lookup_fmap, H0. cbn. rewrite lookup_insert_eq. cbn. rewrite decide_True by done. unfold v_set_seat. cbn.
  by rewrite insert_insert_eq.
Qed.

Lemma transfer_told id to by_ o e' : transfer expected id to by_ now e = (inr o, e') -> told e o e'.
Proof using Hi.
  intros H. unfold transfer in H. inv_M H. destruct (inv_task _ _ Hi _ _ H0) as (Hid & _). apply told_touch. cbn [task_id change_task].
  rewrite Hid. eapply told_seat; try done. destruct (bool_decide_reflect (task_status x0 = TCreated)) as [Es|Es]; cbn.
  - rewrite lookup_fmap, H0. cbn. rewrite decide_True by done. cbn. rewrite lookup_insert_eq. unfold v_set_seat. cbn. by rewrite insert_insert_eq.
  - rewrite lookup_fmap, H0. cbn. unfold seat_view, change_seat. cbn. by destruct (task_status x0).
Qed.

Lemma delegate_told id to by_ o e' : delegate expected id to by_ now e = (inr o, e') -> told e o e'.
Proof using Hi.
  intros H. unfold delegate in H. inv_M H. destruct (inv_task _ _ Hi _ _ H0) as (Hid & _). apply told_touch. cbn [task_id change_task].
  rewrite Hid. eapply told_seat; try done. cbn. by rewrite lookup_fmap, H0.
Qed.

Lemma acknowledge_told id actor o e' :
  (forall t, tasks e !! id = Some t -> assignee t <> None) ->
  acknowledge expected id actor now e = (inr o, e') -> told e o e'.
Proof using Hi.
  intros Has H. unfold acknowledge in H. inv_M H. destruct (inv_task _ _ Hi _ _ H0) as (Hid & _). apply told_touch. cbn [task_id change_task].
  rewrite Hid, bool_decide_eq_false_2 by (by apply Has). eapply told_seat; try done. cbn. rewrite lookup_fmap, H0. cbn. by rewrite decide_True.
Qed.

Lemma vote_told id actor d c o e' : vote expected id actor d c now e = (inr o, e') -> told e o e'.
Proof using Hi.
  intros H. unfold vote in H. inv_M H. destruct (inv_task _ _ Hi _ _ H0) as (Hid & _). apply told_touch. cbn [task_id change_task] in Hm.
  rewrite Hid in *. eapply tells_told in Hm as [T _]; [|apply tells_recount|by apply keys_task].
  rewrite app_comm_cons || idtac. match goal with |- told _ (?a ++ ?f :: ?o) _ => replace (a ++ f :: o) with ((a ++ [f]) ++ o) by (by rewrite <- app_assoc) end.
  eapply told_app; [|exact T]. eapply told_seat; try done. destruct (bool_decide_reflect (assignee x0 = None)) as [Ea|Ea]; cbn.
  - rewrite lookup_fmap, H0. cbn. rewrite lookup_insert_eq. cbn. rewrite decide_True by done. unfold v_set_seat. cbn. by rewrite insert_insert_eq.
  - rewrite lookup_fmap, H0. cbn. by rewrite decide_True.
Qed.

Lemma expire_told id o e' : expire expected id now e = (inr o, e') -> told e o e'.
Proof using Hi.
  intros H. unfold expire in H. inv_M H. rewrite H0 in H5. injection H5 as <-. destruct (inv_task _ _ Hi _ _ H0) as (Hid & _).
  apply told_touch. eapply told_cons.
  - cbn. rewrite lookup_fmap, H0. cbn. rewrite decide_True by done. cbn. symmetry. f_equal. apply (view_tasks id (set_task_status TExpired now x0)).
  - case_bool_decide; inv_M Hm; [|done]. by eapply tells_told in Hm as [? _]; [|apply tells_recount|by apply keys_task].
Qed.

Lemma finish_told o e' : finish expected now e = (inr o, e') -> told e o e'.
Proof using Type.
  intros H. unfold finish in H. inv_M H. assert (e0 = e) as -> by (destruct (_ <$> _) as [[]|]; inv_M Hm; done).
  destruct (bool_decide _); inv_M H; [done|]. match goal with Hem : emit _ _ _ = _ |- _ => injection Hem as <- <- end.
  apply told_touch. unfold told. cbn. by rewrite decide_True.
Qed.
End told_commands.

(** An acknowledgement that takes an unassigned seat. *)
Definition takes_seat (c : Command) (e : Engine) : bool :=
  match c with
  | Acknowledge id _ => from_option (fun t => bool_decide (assignee t = None)) false (tasks e !! id)
  | _ => false
  end.

Lemma run_command_told c expected now e o e' :
  engine_inv None e -> room (ids_needed c) e -> takes_seat c e = false ->
  run_command c expected now e = (inr o, e') -> told e o e'.
Proof.
  intros Hi Hroom Htk H. pose proof (inv_keys _ _ Hi) as Hk. destruct c; cbn [run_command ids_needed] in *.
  - inv_M H. by eapply enter_branch_told.
  - inv_M H. by eapply open_approval_told.
  - inv_M H. by eapply add_sign_told.
  - by eapply remove_sign_told.
  - by eapply claim_told.
  - by eapply vote_told.
  - eapply acknowledge_told; [done| |done]. cbn in Htk. intros t Ht. rewrite Ht in Htk. by apply bool_decide_eq_false in Htk.
  - by eapply transfer_told.
  - by eapply delegate_told.
  - inv_M H. by eapply return_to_node_told.
  - unfold withdraw in H. inv_M H. by eapply tells_told in H as [? _]; [|apply tells_stop|].
  - unfold terminate in H. inv_M H. by eapply tells_told in H as [? _]; [|apply tells_stop|].
  - by eapply finish_told.
  - by eapply expire_told.
Qed.

(** C9: the effects tell the whole story.  A consumer that has seen the
    statuses, the counts, the assignees and the delegates of an instance and
    applies the effects of a command, each of which must start from the status
    the consumer knows, ends up with what the instance then holds.  The one
    exception is an acknowledgement by a candidate of a seat that nobody has
    taken. *)
Theorem effects_complete spec start_now e0 e c expected now o e' :
  start spec start_now = inr e0 -> rtc engine_step e0 e -> room (ids_needed c) e -> takes_seat c e = false ->
  run_command c expected now e = (inr o, e') -> replay (view e) o = Some (view e').
Proof. intros H0 Hr. pose proof (reachable_inv _ _ _ _ H0 Hr). by apply run_command_told. Qed.
