(* ===== verification/ApprovalBridge.v ===== *)
(** * The approval bridge

    [coord-core/src/workflow/approval/bridge.rs], with [events.rs], the record
    of the outbox in [durable.rs], the approve task of [workflow/model.rs] and
    the join policy of [validate.rs]: what stands between the workflow runtime,
    the users and the engine of [Approval].  A call of the bridge reads the
    instance, works on a copy and commits it; the part between the read and the
    commit is here, the store and the retries are in [ApprovalStore].  The
    expression evaluator, the parser of durations and the resolver of roles are
    parameters. *)

From S2P Require Export ApprovalFacts.

Local Open Scope Z_scope.
Local Open Scope approval_scope.

(** ** Equality of values *)

#[export] Instance value_eq_dec : EqDecision Value.
Proof.
  unfold EqDecision. fix go 1. intros v w.
  destruct v as [|x|x|x|x|xs|xs], w as [|y|y|y|y|ys|ys]; try (right; discriminate);
    try (destruct (decide (x = y)) as [E|E]; [left|right]; congruence).
  - by left.
  - assert (base.Decision (xs = ys)) as [E|E]; [|left; congruence|right; congruence].
    revert ys. induction xs as [|x xs IH]; intros [|y ys]; try (right; discriminate); [by left|].
    destruct (go x y) as [E|E]; [|right; congruence]. destruct (IH ys) as [E'|E']; [left|right]; congruence.
  - assert (base.Decision (xs = ys)) as [E|E]; [|left; congruence|right; congruence].
    revert ys. induction xs as [|[k x] xs IH]; intros [|[l y] ys]; try (right; discriminate); [by left|].
    destruct (decide (k = l)) as [E|E]; [|right; congruence].
    destruct (go x y) as [E'|E']; [|right; congruence]. destruct (IH ys) as [E''|E'']; [left|right]; congruence.
Defined.

#[export] Instance JoinPolicy_eq_dec : EqDecision JoinPolicy.
Proof. solve_decision. Defined.
#[export] Instance Decision_eq_dec : EqDecision Approval.Decision.
Proof. solve_decision. Defined.
#[export] Instance AuditEntry_eq_dec : EqDecision AuditEntry.
Proof. solve_decision. Defined.
#[export] Instance ReturnRecord_eq_dec : EqDecision ReturnRecord.
Proof. solve_decision. Defined.
#[export] Instance ApprovalPolicy_eq_dec : EqDecision ApprovalPolicy.
Proof. solve_decision. Defined.
#[export] Instance Delegation_eq_dec : EqDecision Delegation.
Proof. solve_decision. Defined.
#[export] Instance VoteRecord_eq_dec : EqDecision VoteRecord.
Proof. solve_decision. Defined.
#[export] Instance Instance_eq_dec : EqDecision Instance_.
Proof. solve_decision. Defined.
#[export] Instance Branch_eq_dec : EqDecision Branch.
Proof. solve_decision. Defined.
#[export] Instance Task_eq_dec : EqDecision Task.
Proof. solve_decision. Defined.
#[export] Instance Round_eq_dec : EqDecision Round.
Proof. solve_decision. Defined.
#[export] Instance Engine_eq_dec : EqDecision Engine.
Proof. solve_decision. Defined.

(** ** Events *)

Definition APPROVAL_EVENT_TYPES : list bytes :=
  [b "com.china-workflow.instance.returned.v1";
   b "com.china-workflow.instance.cancelled.v1";
   b "com.china-workflow.instance.terminated.v1";
   b "com.china-workflow.instance.completed.v1";
   b "com.china-workflow.instance.rejected.v1";
   b "com.china-workflow.approval.round.passed.v1";
   b "com.china-workflow.approval.round.rejected.v1"].

Inductive OutboxStatus := OsPending | OsDelivered | OsDead.

Record OutboxRecord := {
  rec_id : bytes;
  aggregate_id : bytes;
  sequence : Z;
  rec_type : bytes;
  specversion : bytes;
  source : bytes;
  subject : option bytes;
  dataschema : bytes;
  rec_time : bytes;
  rec_data : Value;
  created_at_ms : Z;
  rec_status : OutboxStatus;
  rec_attempts : Z;
  next_attempt_at_ms : Z;
  delivered_at_ms : option Z }.

Definition external_event_type (internal : bytes) : bytes :=
  match strip_prefix (b "io.serverlessworkflow.") internal with
  | Some rest => b "com.china-workflow" ++ b "." ++ rest
  | None => internal
  end.

Definition dataschema_for (external_type : bytes) : bytes :=
  b "https://schemas.coord.dev/events" ++ b "/" ++ external_type ++ b ".json".

(** Year, month and day of a day counted from 1970-01-01. *)
Definition civil_from_days (z : Z) : Z * Z * Z :=
  let z := z + 719468 in
  let era := Z.quot (if 0 <=? z then z else z - 146096) 146097 in
  let doe := z - era * 146097 in
  let yoe := (doe - doe / 1460 + doe / 36524 - doe / 146096) / 365 in
  let y := yoe + era * 400 in
  let doy := doe - (365 * yoe + yoe / 4 - yoe / 100) in
  let mp := (5 * doy + 2) / 153 in
  let d := doy - (153 * mp + 2) / 5 + 1 in
  let m := if mp <? 10 then mp + 3 else mp - 9 in
  (if m <=? 2 then y + 1 else y, m, d).

(** [{:0n}]. *)
Definition padded (n : nat) (z : Z) : bytes := let x := decimal z in replicate (n - length x) x30 ++ x.

Definition rfc3339_utc (ms : Z) : bytes :=
  let ms := Z.max ms 0 in
  let secs := ms / 1000 in
  let millis := ms mod 1000 in
  let rem := secs mod 86400 in
  let '(y, mo, d) := civil_from_days (secs / 86400) in
  padded 4 y ++ b "-" ++ padded 2 mo ++ b "-" ++ padded 2 d ++ b "T" ++
  padded 2 (rem / 3600) ++ b ":" ++ padded 2 (rem mod 3600 / 60) ++ b ":" ++ padded 2 (rem mod 60) ++ b "." ++
  padded 3 millis ++ b "Z".

Definition lifecycle (aggregate event_type : bytes) (data : Value) (now : Z) (id : bytes) : OutboxRecord :=
  let external := external_event_type event_type in
  {| rec_id := id; aggregate_id := aggregate; sequence := 0; rec_type := external; specversion := b "1.0";
     source := b "coord/workflow"; subject := Some aggregate; dataschema := dataschema_for external;
     rec_time := rfc3339_utc now; rec_data := data; created_at_ms := now; rec_status := OsPending;
     rec_attempts := 0; next_attempt_at_ms := now; delivered_at_ms := None |}.

Definition event_record (aggregate name : bytes) (data : Value) (now : Z) (id : bytes)
    : ApprovalError + OutboxRecord :=
  if existsb (bytes_eqb name) APPROVAL_EVENT_TYPES then inr (lifecycle aggregate name data now id)
  else inl InvalidArgument.

(** [format!("{approval_id}:{rev_after}:{}", records.len())]. *)
Definition event_id (approval_id : Id) (rev_after n : Z) : bytes :=
  approval_id ++ b ":" ++ decimal rev_after ++ b ":" ++ decimal n.

Fixpoint records_from (approval_id : Id) (effects : list Effect) (rev_after now n : Z)
    : ApprovalError + list OutboxRecord :=
  match effects with
  | [] => inr []
  | EEvent name data :: effects =>
    match event_record approval_id name data now (event_id approval_id rev_after n) with
    | inl x => inl x
    | inr r => match records_from approval_id effects rev_after now (n + 1) with
               | inl x => inl x
               | inr rs => inr (r :: rs)
               end
    end
  | _ :: effects => records_from approval_id effects rev_after now n
  end.

Definition effects_to_records (approval_id : Id) (effects : list Effect) (rev_after now : Z)
    : ApprovalError + list OutboxRecord := records_from approval_id effects rev_after now 0.

(** ** The approve task *)

Definition parse_u32 (x : bytes) : option Z :=
  match parse_u64 x with
  | Some n => if n <? u32_modulus then Some n else None
  | None => None
  end.

(** [str::split_once]. *)
Fixpoint split_once (c : byte) (x : bytes) : option (bytes * bytes) :=
  match x with
  | [] => None
  | y :: x => if decide (y = c) then Some ([], x) else '(l, r) ← split_once c x; Some (y :: l, r)
  end.

Definition parse_join_policy (s : bytes) : option JoinPolicy :=
  if bytes_eqb s (b "all") then Some JAll
  else if bytes_eqb s (b "any") then Some JAny
  else match strip_prefix (b "quorum:") s with
       | Some n =>
         match parse_u32 n with
         | None => None
         | Some n => if n =? 0 then None else Some (JQuorum n)
         end
       | None =>
         rest ← strip_prefix (b "ratio:") s;
         '(num, den) ← split_once x2f rest;
         num ← parse_u32 num;
         den ← parse_u32 den;
         if (0 <? num) && (0 <? den) then Some (JRatio num den) else None
       end.

Record ApproveTask := {
  approvers : list bytes;
  at_pool : list bytes;
  readers : list bytes;
  roles : list bytes;
  mode : JoinPolicy;
  veto : bool;
  at_deadline : option bytes;
  on_pass : option bytes;
  on_reject : option bytes;
  at_sign_admins : list bytes;
  at_allow_self : bool }.

Definition to_reject (task : ApproveTask) : RejectPolicy := if veto task then AnyReject else OnExhausted.

(** The fields of a workflow instance that the bridge reads. *)
Record WorkflowInstance := {
  wf_id : bytes;
  wf_ns : bytes;
  wf_name : bytes;
  wf_version : bytes;
  wf_hash : option bytes;
  wf_initiator : option bytes;
  wf_context : Value }.

Definition workflow_scope (context : Value) : Scope :=
  match context with VObject fields => list_to_map fields | _ => ∅ end.

(** [str::trim]: the characters with the property White_Space, in UTF-8. *)
Definition white_space : list bytes :=
  [[x09]; [x0a]; [x0b]; [x0c]; [x0d]; [x20]; [xc2; x85]; [xc2; xa0]; [xe1; x9a; x80];
   [xe2; x80; x80]; [xe2; x80; x81]; [xe2; x80; x82]; [xe2; x80; x83]; [xe2; x80; x84]; [xe2; x80; x85];
   [xe2; x80; x86]; [xe2; x80; x87]; [xe2; x80; x88]; [xe2; x80; x89]; [xe2; x80; x8a]; [xe2; x80; xa8];
   [xe2; x80; xa9]; [xe2; x80; xaf]; [xe2; x81; x9f]; [xe3; x80; x80]].

Fixpoint strip_any (seqs : list bytes) (x : bytes) : option bytes :=
  match seqs with
  | [] => None
  | p :: seqs => match strip_prefix p x with Some r => Some r | None => strip_any seqs x end
  end.
Fixpoint trim_start (seqs : list bytes) (n : nat) (x : bytes) : bytes :=
  match n with
  | O => x
  | S n => match strip_any seqs x with Some r => trim_start seqs n r | None => x end
  end.
Definition trim (x : bytes) : bytes :=
  let x := trim_start white_space (length x) x in
  reverse (trim_start (reverse <$> white_space) (length x) (reverse x)).

Definition ends_with (x : bytes) (c : byte) : bool := bool_decide (last x = Some c).

(** ** Errors and outcomes *)

Inductive BridgeError :=
  | BNotFound (id : bytes)
  | BNotAuthorized
  | BInvalidTransition
  | BInvalidArgument
  | BStale
  | BStore
  | BSerialization.

Definition bridge_error (x : ApprovalError) : BridgeError :=
  match x with
  | NotFound id => BNotFound id
  | InvalidTransition => BInvalidTransition
  | NotAuthorized => BNotAuthorized
  | InvalidArgument => BInvalidArgument
  | StaleRevision _ _ => BStale
  end.

Inductive NodeOutcome := NodePassed | NodeRejected.
Inductive ApprovalOutcome := OutCompleted | OutRejected | OutCancelled | OutTerminated.

Definition status_label (st : InstanceStatus) : bytes :=
  match st with
  | IPending => b "PENDING"
  | IRunning => b "RUNNING"
  | ICompleted => b "COMPLETED"
  | IRejected => b "REJECTED"
  | ITerminated => b "TERMINATED"
  | ICancelled => b "CANCELLED"
  | IFaulted => b "FAULTED"
  end.
Definition response_for (e : Engine) : Value :=
  VObject [(b "instance_id", VString (inst_id (instance e))); (b "status", VString (status_label (inst_status (instance e))))].
Definition terminal_outcome (st : InstanceStatus) : option ApprovalOutcome :=
  match st with
  | ICompleted => Some OutCompleted
  | IRejected => Some OutRejected
  | ICancelled => Some OutCancelled
  | ITerminated => Some OutTerminated
  | IPending | IRunning | IFaulted => None
  end.
Definition node_outcome_for (st : BranchStatus) : option NodeOutcome :=
  match st with BCompleted => Some NodePassed | BRejected => Some NodeRejected | _ => None end.

(** ** Authorisation *)

Inductive ApprovalCommand :=
  | AcApprove (id : Id) (comment : option bytes)
  | AcReject (id : Id) (comment : option bytes)
  | AcAcknowledge (id : Id)
  | AcAddSign (bid : Id) (seats : list SeatSpec) (comment : option bytes)
  | AcRemoveSign (ids : list Id)
  | AcReturnToNode (bid : Id) (target : bytes) (comment : option bytes)
  | AcTransfer (id : Id) (to : Principal)
  | AcDelegate (id : Id) (to : Principal)
  | AcWithdraw
  | AcTerminate (reason : bytes).

Definition SYSTEM_ACTOR : bytes := b "system".
Definition anonymous : bytes := b "anonymous".

Definition guard_self_approve (actor : Principal) (id : Id) : M unit :=
  e ← get;
  if bytes_eqb (initiator (instance e)) anonymous || negb (bytes_eqb (initiator (instance e)) actor) then mret tt
  else match tasks e !! id ≫= fun t => branches e !! task_branch t with
       | None => mret tt
       | Some x => ensure (allow_self_approve (policy x)) NotAuthorized
       end.

Definition is_sign_admin (actor : Principal) (x : Branch) : bool := existsb (bytes_eqb actor) (sign_admins (policy x)).

Definition guard_sign_admin (actor : Principal) (bid : Id) : M unit :=
  x ← get_branch bid;
  e ← get;
  ensure (is_sign_admin actor x || bytes_eqb (initiator (instance e)) actor) NotAuthorized.

Definition holds_seat (actor : Principal) (bid : Id) (t : Task) : bool :=
  bytes_eqb (task_branch t) bid && is_open (task_status t) &&
  (bool_decide (assignee t = Some actor) || is_candidate actor t ||
   bool_decide (deleg_to <$> delegation t = Some actor)).

Definition guard_return_to_node (actor : Principal) (bid : Id) : M unit :=
  x ← get_branch bid;
  e ← get;
  ensure (is_sign_admin actor x || bytes_eqb (initiator (instance e)) actor ||
          existsb (holds_seat actor (br_id x)) (values (tasks e))) NotAuthorized.

Definition guard_terminate (actor : Principal) : M unit :=
  e ← get;
  ensure (bytes_eqb actor SYSTEM_ACTOR || existsb (is_sign_admin actor) (values (branches e))) NotAuthorized.

(** ** Commands on a loaded instance *)

Definition branch_of_tasks (ids : list Id) : M Id :=
  match ids with
  | id :: _ => t ← get_task id; mret (task_branch t)
  | [] =>
    e ← get;
    x ← found (List.find (fun x => bool_decide (br_status x = BOpen)) (values (branches e))) InvalidTransition;
    mret (br_id x)
  end.

Definition command_branch (e : Engine) (c : ApprovalCommand) : option Id :=
  match c with
  | AcApprove id _ | AcReject id _ | AcAcknowledge id | AcTransfer id _ | AcDelegate id _ => task_branch <$> tasks e !! id
  | AcAddSign bid _ _ | AcReturnToNode bid _ _ => Some bid
  | AcRemoveSign ids => match (branch_of_tasks ids e).1 with inr id => Some id | inl _ => None end
  | AcWithdraw | AcTerminate _ => None
  end.

Definition seat_of (t : Task) : SeatSpec :=
  {| seat_assignee := assignee t; seat_candidates := candidates t; seat_kind := kind t |}.

(** The seats of the newest attempt of a node. *)
Definition prior_seats (target : bytes) : M (list SeatSpec) :=
  e ← get;
  x ← found (latest_attempt target e) InvalidTransition;
  let seats := seat_of <$> List.filter (fun t => bytes_eqb (task_branch t) (br_id x)) (values (tasks e)) in
  _ ← ensure (negb (bool_decide (seats = []))) InvalidTransition;
  mret seats.

Definition apply_command (actor : Principal) (c : ApprovalCommand) (now : Z) : M (list Effect) :=
  e ← get;
  let expected := revision (instance e) in
  match c with
  | AcApprove id comment => _ ← guard_self_approve actor id; approve expected id actor comment now
  | AcReject id comment => _ ← guard_self_approve actor id; reject expected id actor comment now
  | AcAcknowledge id => _ ← guard_self_approve actor id; acknowledge expected id actor now
  | AcTransfer id to => _ ← guard_self_approve actor id; transfer expected id to actor now
  | AcDelegate id to => _ ← guard_self_approve actor id; delegate expected id to actor now
  | AcAddSign bid seats comment =>
    _ ← guard_sign_admin actor bid;
    r ← add_sign expected bid seats actor comment now;
    mret r.2
  | AcRemoveSign ids =>
    bid ← branch_of_tasks ids;
    _ ← guard_sign_admin actor bid;
    remove_sign expected bid ids actor now
  | AcReturnToNode bid target comment =>
    _ ← guard_return_to_node actor bid;
    seats ← prior_seats target;
    r ← return_to_node expected bid target actor comment now;
    e ← get;
    r' ← open_approval (revision (instance e)) r.1 seats None now;
    mret (r.2 ++ r'.2)
  | AcWithdraw => withdraw expected actor now
  | AcTerminate reason => _ ← guard_terminate actor; terminate expected actor reason now
  end.

(** ** Calls: from what was read to what is committed *)

Inductive ExpectedRev := CreateOnly | Exact (n : Z).
Record IdemRecord := { idem_name : bytes; idem_response : Value }.

Inductive CommandOutcome :=
  | Applied (response : Value) (node_outcome : option NodeOutcome) (terminal : option ApprovalOutcome)
  | Duplicate (cached : Value).

Inductive Outcome :=
  | RCommand (x : CommandOutcome)
  | ROpened
  | RExpired (expired : Z) (node_outcome : option NodeOutcome)
  | RFinished (terminal : option ApprovalOutcome)
  | RTerminated.

(** An attempt ends the call, or asks for a commit and gives the answer for the
    case that it goes through. *)
Inductive Attempt :=
  | Stop (r : BridgeError + Outcome)
  | Commit (e : Engine) (events : list OutboxRecord) (expected : ExpectedRev) (idem : option IdemRecord) (r : Outcome).

(** The effects of a run on a loaded engine become the commit, or the error. *)
Definition commit_run (run : (ApprovalError + list Effect) * Engine) (approval_id : Id) (now : Z)
    (expected : ExpectedRev) (idem : Engine -> option IdemRecord) (r : Engine -> Outcome) : Attempt :=
  match run with
  | (inl x, _) => Stop (inl (bridge_error x))
  | (inr effects, e) =>
    match effects_to_records approval_id effects (revision (instance e)) now with
    | inl x => Stop (inl (bridge_error x))
    | inr events => Commit e events expected (idem e) (r e)
    end
  end.

(** [engine.set_acting_service(..)], the command, [engine.set_acting_service(None)]. *)
Definition acting (service : option Principal) (m : M (list Effect)) : M (list Effect) := fun e =>
  let '(r, e) := m (set_acting_service service e) in (r, set_acting_service None e).

Definition command_attempt (approval_id : Id) (actor : Principal) (service : option Principal) (c : ApprovalCommand)
    (key : option bytes) (now : Z) (loaded : option (Engine * Z)) : Attempt :=
  match loaded with
  | None => Stop (inl (BNotFound approval_id))
  | Some (e, mod_rev) =>
    let branch := command_branch e c in
    commit_run (acting service (apply_command actor c now) e) approval_id now (Exact mod_rev)
      (fun e => (fun k => {| idem_name := k; idem_response := response_for e |}) <$> key)
      (fun e => RCommand (Applied (response_for e)
                  (branch ≫= fun id => branches e !! id ≫= fun x => node_outcome_for (br_status x))
                  (terminal_outcome (inst_status (instance e)))))
  end.

Definition node_is_open (node_name : bytes) (e : Engine) : bool :=
  existsb (fun x => bytes_eqb (node x) node_name && bool_decide (br_status x = BOpen)) (values (branches e)).

(** [open_node_events]. *)
Definition open_node (node_name : bytes) (task : ApproveTask) (seats : list SeatSpec) (pl : ApprovalPolicy)
    (dl : option Z) (now : Z) : M (list Effect) :=
  e ← get;
  r ← enter_branch (revision (instance e)) node_name None (mode task) (to_reject task) pl now;
  e ← get;
  r' ← open_approval (revision (instance e)) r.1 seats dl now;
  mret (r.2 ++ r'.2).

Definition start_spec (wf : WorkflowInstance) : StartSpec :=
  {| spec_id := wf_id wf; spec_ns := wf_ns wf; spec_name := wf_name wf; spec_version := wf_version wf;
     spec_hash := default [] (wf_hash wf); spec_initiator := default anonymous (wf_initiator wf);
     spec_context := workflow_scope (wf_context wf) |}.

Definition ensure_attempt (wf : WorkflowInstance) (node_name : bytes) (task : ApproveTask) (seats : list SeatSpec)
    (dl : option Z) (now : Z) (loaded : option (Engine * Z)) : Attempt :=
  let pl := {| allow_self_approve := at_allow_self task; sign_admins := at_sign_admins task |} in
  let opened e expected :=
    commit_run (open_node node_name task seats pl dl now e) (inst_id (instance e)) now expected (fun _ => None)
      (fun _ => ROpened) in
  match loaded with
  | Some (e, mod_rev) => if node_is_open node_name e then Stop (inr ROpened) else opened e (Exact mod_rev)
  | None =>
    match start (start_spec wf) now with
    | inl x => Stop (inl (bridge_error x))
    | inr e => opened e CreateOnly
    end
  end.

Definition is_due (now : Z) (t : Task) : bool :=
  is_open (task_status t) && from_option (fun d => d <=? now) false (deadline t).
Definition due_tasks (now : Z) (e : Engine) : list Id := task_id <$> List.filter (is_due now) (values (tasks e)).

(** The branches of the due seats that are open. *)
Definition affected_branches (due : list Id) (e : Engine) : list Id :=
  omap (fun id =>
    t ← tasks e !! id;
    x ← branches e !! task_branch t;
    if decide (br_status x = BOpen) then Some (task_branch t) else None) due.

Fixpoint expire_all (ids : list Id) (now : Z) : M (list Effect) :=
  match ids with
  | [] => mret []
  | id :: ids =>
    e ← get;
    o ← expire (revision (instance e)) id now;
    os ← expire_all ids now;
    mret (o ++ os)
  end.

Fixpoint find_map {A B : Type} (f : A -> option B) (l : list A) : option B :=
  match l with
  | [] => None
  | x :: l => match f x with Some y => Some y | None => find_map f l end
  end.

Definition expire_attempt (approval_id : Id) (now : Z) (loaded : option (Engine * Z)) : Attempt :=
  match loaded with
  | None => Stop (inl (BNotFound approval_id))
  | Some (e, mod_rev) =>
    let due := due_tasks now e in
    if bool_decide (due = []) then Stop (inr (RExpired 0 None))
    else
      let affected := affected_branches due e in
      commit_run (expire_all due now e) approval_id now (Exact mod_rev) (fun _ => None)
        (fun e => RExpired (u32_wrap (Z.of_nat (length due)))
                    (find_map (fun id => branches e !! id ≫= fun x => node_outcome_for (br_status x)) affected))
  end.

Definition finish_attempt (approval_id : Id) (now : Z) (loaded : option (Engine * Z)) : Attempt :=
  match loaded with
  | None => Stop (inl (BNotFound approval_id))
  | Some (e, mod_rev) =>
    if bool_decide (inst_status (instance e) = ICompleted) || any_open_branch e then Stop (inr (RFinished None))
    else if negb (bool_decide (br_status <$> last_root e = Some BCompleted)) then Stop (inr (RFinished None))
    else commit_run (finish (revision (instance e)) now e) approval_id now (Exact mod_rev) (fun _ => None)
           (fun e => RFinished (terminal_outcome (inst_status (instance e))))
  end.

Definition terminate_attempt (approval_id : Id) (actor : Principal) (reason : bytes) (now : Z)
    (loaded : option (Engine * Z)) : Attempt :=
  match loaded with
  | None => Stop (inl (BNotFound approval_id))
  | Some (e, mod_rev) =>
    commit_run ((_ ← guard_terminate actor; e ← get; terminate (revision (instance e)) actor reason now) e)
      approval_id now (Exact mod_rev) (fun _ => None) (fun _ => RTerminated)
  end.

(** [next_open_deadline], on a loaded instance. *)
Definition next_open_deadline (e : Engine) : option Z :=
  foldl (fun best d => match best with None => Some d | Some m => Some (Z.min m d) end) None
    (omap (fun t => if is_open (task_status t) then deadline t else None) (values (tasks e))).

(** ** Seats of a task *)

Section seats.

(** [ExpressionEvaluator::evaluate_with_vars] with [$input] bound to the
    context, [parse_iso8601_duration_ms] and [ApproverResolver::resolve]. *)
Context (evaluate : bytes -> Value -> option Value).
Context (duration_ms : bytes -> option Z).
Context (resolve : bytes -> option (list Principal)).

Definition is_expression (trimmed : bytes) : bool := starts_with trimmed [x24; x7b] && ends_with trimmed x7d.

Fixpoint strings_of (items : list Value) : option (list bytes) :=
  match items with
  | [] => Some []
  | VString p :: items => ps ← strings_of items; Some (p :: ps)
  | _ => None
  end.

Definition expand_entry (context : Value) (entry : bytes) : option (list Principal) :=
  let trimmed := trim entry in
  if negb (is_expression trimmed) then Some [entry]
  else
    v ← evaluate trimmed context;
    match v with
    | VString p => Some [p]
    | VArray items => strings_of items
    | _ => None
    end.

Fixpoint expand_entries (context : Value) (entries : list bytes) : option (list Principal) :=
  match entries with
  | [] => Some []
  | x :: entries => ps ← expand_entry context x; qs ← expand_entries context entries; Some (ps ++ qs)
  end.

Definition expand_source (context : Value) (entries : list bytes) : option (list Principal) :=
  if bool_decide (entries = []) then Some []
  else
    ps ← expand_entries context entries;
    if bool_decide (ps = []) || existsb (fun p => bool_decide (p = [])) ps then None else Some ps.

Fixpoint resolve_roles (names : list bytes) : option (list SeatSpec) :=
  match names with
  | [] => Some []
  | role :: names => ps ← resolve role; qs ← resolve_roles names; Some ((approver <$> ps) ++ qs)
  end.

Definition resolve_seats (task : ApproveTask) (context : Value) : BridgeError + list SeatSpec :=
  let seats :=
    named ← expand_source context (approvers task);
    pl ← expand_source context (at_pool task);
    rd ← expand_source context (readers task);
    names ← expand_source context (roles task);
    from_roles ← resolve_roles names;
    Some ((approver <$> named) ++ (if bool_decide (pl = []) then [] else [pool pl]) ++ (reader <$> rd) ++ from_roles) in
  match seats with
  | None => inl BInvalidArgument
  | Some seats =>
    if existsb (fun s => bool_decide (seat_kind s = KApproval)) seats then inr seats else inl BInvalidArgument
  end.

(** [i64::saturating_add]. *)
Definition i64_saturating_add (x y : Z) : Z := Z.max (- 2 ^ 63) (Z.min (x + y) (2 ^ 63 - 1)).

Definition deadline_ms (task : ApproveTask) (now : Z) : option Z :=
  d ← at_deadline task; ms ← duration_ms d; Some (i64_saturating_add now ms).

(** ** All calls *)

Inductive Call :=
  | CommandCall (approval_id : Id) (actor : Principal) (service : option Principal) (c : ApprovalCommand)
      (key : option bytes)
  | EnsureCall (wf : WorkflowInstance) (node_name : bytes) (task : ApproveTask)
  | ExpireCall (approval_id : Id)
  | FinishCall (approval_id : Id)
  | TerminateCall (approval_id : Id) (actor : Principal) (reason : bytes).

Definition call_id (x : Call) : Id :=
  match x with
  | CommandCall id _ _ _ _ | ExpireCall id | FinishCall id | TerminateCall id _ _ => id
  | EnsureCall wf _ _ => wf_id wf
  end.

Definition call_key (x : Call) : option bytes := match x with CommandCall _ _ _ _ key => key | _ => None end.

(** What a call does once it has read the instance at time [now]. *)
Definition call_attempt (x : Call) (now : Z) (loaded : option (Engine * Z)) : Attempt :=
  match x with
  | CommandCall id actor service c key => command_attempt id actor service c key now loaded
  | EnsureCall wf node_name task =>
    match resolve_seats task (wf_context wf) with
    | inl x => Stop (inl x)
    | inr seats => ensure_attempt wf node_name task seats (deadline_ms task now) now loaded
    end
  | ExpireCall id => expire_attempt id now loaded
  | FinishCall id => finish_attempt id now loaded
  | TerminateCall id actor reason => terminate_attempt id actor reason now loaded
  end.

End seats.
