(* ===== verification/ApprovalStore.v ===== *)
(** * The approval store and the calls that share it

    [KvApprovalStore] of [coord-agent/src/services/approval_store.rs] with the
    keys of [approval/keys.rs] and the parts of [outbox_kv.rs] it uses, the
    retry loops of [bridge.rs], and [MemoryApprovalStore] of [approval/store.rs].
    A value of the key-value store is kept decoded: its bytes are what
    [serde_json] makes of it.  A call of the bridge is a machine that makes one
    access to the store at a time, so that calls interleave at every access. *)

From S2P Require Export ApprovalBridge.

Local Open Scope Z_scope.

(** ** The key-value store *)

Inductive Doc :=
  | DEngine (e : Engine)
  | DIdem (r : IdemRecord)
  | DRecord (r : OutboxRecord)
  | DText (x : bytes).

Record KvRow := { row_value : Doc; row_version : Z; row_mod : Z }.
Record Kv := { kv_rows : gmap bytes KvRow; kv_revision : Z }.

Inductive Compare :=
  | CmpVersion (key : bytes) (n : Z)
  | CmpModRev (key : bytes) (n : Z)
  | CmpValue (key : bytes) (x : bytes).

(** A key that is not there has version 0, revision 0 and no bytes. *)
Definition holds (kv : Kv) (c : Compare) : bool :=
  match c with
  | CmpVersion key n => default 0 (row_version <$> kv_rows kv !! key) =? n
  | CmpModRev key n => default 0 (row_mod <$> kv_rows kv !! key) =? n
  | CmpValue key x =>
    match row_value <$> kv_rows kv !! key with
    | None => bytes_eqb [] x
    | Some (DText y) => bytes_eqb y x
    | Some _ => false
    end
  end.

Definition put_row (rev : Z) (rows : gmap bytes KvRow) (kd : bytes * Doc) : gmap bytes KvRow :=
  <[kd.1 := {| row_value := kd.2; row_version := default 0 (row_version <$> rows !! kd.1) + 1; row_mod := rev |}]> rows.

(** A transaction whose second branch is empty. *)
Definition kv_txn (compares : list Compare) (puts : list (bytes * Doc)) (kv : Kv) : bool * Kv :=
  let rev := kv_revision kv + 1 in
  if forallb (holds kv) compares
  then (true, {| kv_rows := foldl (put_row rev) (kv_rows kv) puts; kv_revision := rev |})
  else (false, {| kv_rows := kv_rows kv; kv_revision := rev |}).

(** ** Keys *)

Definition instance_key (id : Id) : bytes := b "/_workflow/v4/instances/" ++ id.
Definition idem_key (id : Id) (key : bytes) : bytes := b "/_workflow/v4/idempotency/" ++ id ++ b "/" ++ key.

Definition record_key (aggregate : bytes) (n : Z) : bytes :=
  b "/_workflow/v3/outbox/records/" ++ aggregate ++ b "/" ++ padded 20 n.
Definition id_key (id : bytes) : bytes := b "/_workflow/v3/outbox/ids/" ++ id.
Definition seq_key (aggregate : bytes) : bytes := b "/_workflow/v3/outbox/seq/" ++ aggregate.

Definition outbox_row (k : bytes) : Prop := exists rest, k = b "/_workflow/v3/outbox/" ++ rest.

(** [{next_attempt_at_ms:020}] of an [i64]. *)
Definition padded_i64 (z : Z) : bytes := if z <? 0 then b "-" ++ padded 19 (- z) else padded 20 z.
Definition pending_key (next : Z) (id : bytes) : bytes :=
  b "/_workflow/v3/outbox/pending/" ++ padded_i64 next ++ b ":" ++ id.

(** ** The outbox part of a commit *)

Definition outbox_compares (aggregate cur_bytes : bytes) (recs : list OutboxRecord) : list Compare :=
  match recs with
  | [] => []
  | _ => CmpValue (seq_key aggregate) cur_bytes :: ((fun r => CmpVersion (id_key (rec_id r)) 0) <$> recs)
  end.

Definition stored_record (n : Z) (r : OutboxRecord) : OutboxRecord :=
  {| rec_id := rec_id r; aggregate_id := aggregate_id r; sequence := n; rec_type := rec_type r;
     specversion := specversion r; source := source r; subject := subject r; dataschema := dataschema r;
     rec_time := rec_time r; rec_data := rec_data r; created_at_ms := created_at_ms r; rec_status := OsPending;
     rec_attempts := rec_attempts r; next_attempt_at_ms := next_attempt_at_ms r; delivered_at_ms := delivered_at_ms r |}.

Fixpoint record_puts (aggregate : bytes) (recs : list OutboxRecord) (n : Z) : list (bytes * Doc) :=
  match recs with
  | [] => []
  | r :: recs =>
    [(id_key (rec_id r), DText (record_key aggregate n)); (record_key aggregate n, DRecord (stored_record n r));
     (pending_key (next_attempt_at_ms r) (rec_id r), DRecord (stored_record n r))] ++
    record_puts aggregate recs (u64_wrap (n + 1))
  end.

Definition outbox_ops (recs : list OutboxRecord) (seq_start : Z) : list (bytes * Doc) :=
  match recs with
  | [] => []
  | first :: _ =>
    let last := u64_wrap (seq_start + Z.of_nat (length recs) - 1) in
    (seq_key (aggregate_id first), DText (decimal last)) :: record_puts (aggregate_id first) recs seq_start
  end.

(** ** Reads *)

Definition read_instance (kv : Kv) (id : Id) : BridgeError + option (Engine * Z) :=
  match kv_rows kv !! instance_key id with
  | None => inr None
  | Some r => match row_value r with DEngine e => inr (Some (e, row_mod r)) | _ => inl BSerialization end
  end.

Definition load_idem (kv : Kv) (id : Id) (key : bytes) : BridgeError + option Value :=
  match kv_rows kv !! idem_key id key with
  | None => inr None
  | Some r => match row_value r with DIdem i => inr (Some (idem_response i)) | _ => inl BSerialization end
  end.

Definition read_sequence (kv : Kv) (aggregate : bytes) : Z * bytes :=
  match kv_rows kv !! seq_key aggregate with
  | Some {| row_value := DText x |} => (default 0 (parse_u64 x), x)
  | _ => (0, [])
  end.

(** ** The commit *)

Record Pending := {
  pd_engine : Engine;
  pd_events : list OutboxRecord;
  pd_expected : ExpectedRev;
  pd_idem : option IdemRecord;
  pd_result : Outcome }.

(** [ensure_expected_rev_allowed]. *)
Definition rev_allowed (expected : ExpectedRev) : bool := match expected with Exact n => negb (n =? 0) | CreateOnly => true end.

Fixpoint distinct (l : list bytes) : bool :=
  match l with
  | [] => true
  | x :: l => negb (existsb (bytes_eqb x) l) && distinct l
  end.

(** [ensure_event_aggregates_match]. *)
Definition aggregates_match (e : Engine) (events : list OutboxRecord) : bool :=
  forallb (fun r => bytes_eqb (aggregate_id r) (inst_id (instance e))) events && distinct (rec_id <$> events).

Definition instance_predicate (key : bytes) (expected : ExpectedRev) : Compare :=
  match expected with CreateOnly => CmpVersion key 0 | Exact n => CmpModRev key n end.

Definition instance_predicate_holds (expected : ExpectedRev) (current : option (Engine * Z)) : bool :=
  match expected with
  | CreateOnly => bool_decide (current = None)
  | Exact n => from_option (fun er => er.2 =? n) false current
  end.

Definition replay_matches (current : option (Engine * Z)) (e : Engine) : bool :=
  from_option (fun er => bool_decide (er.1 = e)) false current.

Definition commit_compares (p : Pending) (cur_bytes : bytes) : list Compare :=
  let id := inst_id (instance (pd_engine p)) in
  outbox_compares id cur_bytes (pd_events p) ++ [instance_predicate (instance_key id) (pd_expected p)] ++
  match pd_idem p with Some r => [CmpVersion (idem_key id (idem_name r)) 0] | None => [] end.

Definition commit_puts (p : Pending) (cur : Z) : list (bytes * Doc) :=
  let id := inst_id (instance (pd_engine p)) in
  (instance_key id, DEngine (pd_engine p)) :: outbox_ops (pd_events p) (u64_wrap (cur + 1)) ++
  match pd_idem p with Some r => [(idem_key id (idem_name r), DIdem r)] | None => [] end.

(** ** Calls as machines *)

Definition MAX_COMMIT_ATTEMPTS : nat := 3.
Definition COMMIT_RETRY_LIMIT : nat := 8.

Inductive Phase :=
  | PIdem (attempt : nat)
  | PLoad (attempt : nat)
  | CRead (attempt rounds : nat) (p : Pending)
  | CEvents (attempt rounds : nat) (p : Pending) (current : option (Engine * Z)) (rest : list OutboxRecord)
  | CRecord (attempt rounds : nat) (p : Pending) (current : option (Engine * Z)) (key : bytes) (rest : list OutboxRecord)
  | CSequence (attempt rounds : nat) (p : Pending)
  | CTxn (attempt rounds : nat) (p : Pending) (cur : Z) (cur_bytes : bytes)
  | PDone (r : BridgeError + Outcome).

(** The loop around an attempt: a commit that was refused is tried again with
    the instance read anew. *)
Definition committed (attempt : nat) (p : Pending) (ok : bool) : Phase :=
  if ok then PDone (inr (pd_result p))
  else if (MAX_COMMIT_ATTEMPTS <=? attempt)%nat then PDone (inl BStale)
  else PIdem (S attempt).

Definition begin_commit (attempt : nat) (p : Pending) : Phase :=
  if negb (rev_allowed (pd_expected p)) || negb (aggregates_match (pd_engine p) (pd_events p)) then PDone (inl BStore)
  else CRead attempt COMMIT_RETRY_LIMIT p.

(** The next turn of the loop inside the commit. *)
Definition retry_commit (attempt rounds : nat) (p : Pending) : Phase :=
  match rounds with O | S O => committed attempt p false | S rounds => CRead attempt rounds p end.

Definition not_replayed (attempt rounds : nat) (p : Pending) (current : option (Engine * Z)) : Phase :=
  if instance_predicate_holds (pd_expected p) current then CSequence attempt rounds p
  else committed attempt p false.

(** One event after the other is looked up, while the commit may be a replay. *)
Definition events_left (attempt rounds : nat) (p : Pending) (current : option (Engine * Z)) (rest : list OutboxRecord)
    : Phase := match rest with [] => committed attempt p true | _ => CEvents attempt rounds p current rest end.

(** ** What is known of calls *)

(** The thresholds that [parse_join_policy] lets through. *)
Definition valid_join (j : JoinPolicy) : Prop :=
  match j with JAll | JAny => True | JQuorum n => 0 < n | JRatio num den => 0 < num /\ 0 < den end.

(** The identifiers that a command of the bridge may use up. *)
Definition command_ids (c : ApprovalCommand) (n : Z) : Z :=
  match c with AcAddSign _ ss _ => Z.of_nat (length ss) | AcReturnToNode _ _ _ => n + 2 | _ => 0 end.

Section calls.
Context (evaluate : bytes -> Value -> option Value).
Context (duration_ms : bytes -> option Z).
Context (resolve : bytes -> option (list Principal)).

Abbreviation call_attempt := (call_attempt evaluate duration_ms resolve).

(** [resolve_seats] comes before the first access to the store. *)
Definition start_phase (x : Call) : Phase :=
  match x with
  | EnsureCall wf _ task =>
    match resolve_seats evaluate resolve task (wf_context wf) with inl x => PDone (inl x) | inr _ => PIdem 1 end
  | _ => PIdem 1
  end.

Definition call_step (x : Call) (now : Z) (ph : Phase) (kv : Kv) : Phase * Kv :=
  match ph with
  | PIdem attempt =>
    match call_key x with
    | None => (PLoad attempt, kv)
    | Some key =>
      match load_idem kv (call_id x) key with
      | inl err => (PDone (inl err), kv)
      | inr (Some cached) => (PDone (inr (RCommand (Duplicate cached))), kv)
      | inr None => (PLoad attempt, kv)
      end
    end
  | PLoad attempt =>
    match read_instance kv (call_id x) with
    | inl err => (PDone (inl err), kv)
    | inr loaded =>
      match call_attempt x now loaded with
      | Stop r => (PDone r, kv)
      | Commit e events expected idem r =>
        (begin_commit attempt {| pd_engine := e; pd_events := events; pd_expected := expected; pd_idem := idem;
                                 pd_result := r |}, kv)
      end
    end
  | CRead attempt rounds p =>
    match read_instance kv (inst_id (instance (pd_engine p))) with
    | inl err => (PDone (inl err), kv)
    | inr current =>
      (if replay_matches current (pd_engine p) then events_left attempt rounds p current (pd_events p)
       else not_replayed attempt rounds p current, kv)
    end
  | CEvents attempt rounds p current rest =>
    match rest with
    | [] => (committed attempt p true, kv)
    | r :: rest =>
      match row_value <$> kv_rows kv !! id_key (rec_id r) with
      | Some (DText key) => (CRecord attempt rounds p current key rest, kv)
      | _ => (not_replayed attempt rounds p current, kv)
      end
    end
  | CRecord attempt rounds p current key rest =>
    match row_value <$> kv_rows kv !! key with
    | Some (DRecord _) => (events_left attempt rounds p current rest, kv)
    | Some _ => (PDone (inl BSerialization), kv)
    | None => (not_replayed attempt rounds p current, kv)
    end
  | CSequence attempt rounds p =>
    let '(cur, cur_bytes) := read_sequence kv (inst_id (instance (pd_engine p))) in
    (CTxn attempt rounds p cur cur_bytes, kv)
  | CTxn attempt rounds p cur cur_bytes =>
    let '(ok, kv) := kv_txn (commit_compares p cur_bytes) (commit_puts p cur) kv in
    (if ok then committed attempt p true else retry_commit attempt rounds p, kv)
  | PDone r => (PDone r, kv)
  end.

(** A call that has the store for itself. *)
Fixpoint run_alone (n : nat) (x : Call) (now : Z) (ph : Phase) (kv : Kv) : Phase * Kv :=
  match n with
  | O => (ph, kv)
  | S n => let '(ph, kv) := call_step x now ph kv in run_alone n x now ph kv
  end.

(** ** The system *)

(** The task of a call has passed the validation of definitions. *)
Definition valid_call (x : Call) : Prop := match x with EnsureCall _ _ task => valid_join (mode task) | _ => True end.

(** The identifiers that a call may use up on an instance that has used [n]. *)
Definition call_ids (x : Call) (n : Z) : Z :=
  match x with
  | CommandCall _ _ _ c _ => command_ids c n
  | EnsureCall wf _ task =>
    match resolve_seats evaluate resolve task (wf_context wf) with inr ss => Z.of_nat (length ss) + 2 | inl _ => 0 end
  | _ => 0
  end.

Definition loaded_seq (loaded : option (Engine * Z)) : Z := from_option (fun er => seq er.1) 0 loaded.
Definition fits (x : Call) (loaded : option (Engine * Z)) : Prop :=
  loaded_seq loaded + call_ids x (loaded_seq loaded) < u32_modulus.

Record Running := { rc_call : Call; rc_now : Z; rc_phase : Phase }.
Record System := { sys_kv : Kv; sys_calls : list Running }.

(** The key of the idempotency record a transaction has just written. *)
Definition written_key (ph : Phase) (kv : Kv) : option (Id * bytes) :=
  match ph with
  | CTxn _ _ p _ cur_bytes =>
    if forallb (holds kv) (commit_compares p cur_bytes)
    then (fun r => (inst_id (instance (pd_engine p)), idem_name r)) <$> pd_idem p else None
  | _ => None
  end.

(** The rest of the system leaves the keys of version 4 alone. *)
Definition v4 (key : bytes) : Prop := exists rest, key = b "/_workflow/v4/" ++ rest.
Definition others_step (kv kv' : Kv) : Prop :=
  (forall key, v4 key -> kv_rows kv' !! key = kv_rows kv !! key) /\ kv_revision kv <= kv_revision kv'.

(** Every instance uses fewer than 2^32 identifiers. *)
Definition step_fits (c : Running) (kv : Kv) : Prop :=
  match rc_phase c, read_instance kv (call_id (rc_call c)) with
  | PLoad _, inr loaded => fits (rc_call c) loaded
  | _, _ => True
  end.

(** Calls arrive, advance by one access each, and finish in any order; other
    clients of the store write in between.  A step carries the idempotency key
    it has written. *)
Inductive sys_step : System -> option (Id * bytes) -> System -> Prop :=
  | step_arrive x now s :
      valid_call x ->
      sys_step s None {| sys_kv := sys_kv s;
        sys_calls := sys_calls s ++ [{| rc_call := x; rc_now := now; rc_phase := start_phase x |}] |}
  | step_call i c ph kv' s :
      sys_calls s !! i = Some c -> step_fits c (sys_kv s) ->
      call_step (rc_call c) (rc_now c) (rc_phase c) (sys_kv s) = (ph, kv') ->
      sys_step s (written_key (rc_phase c) (sys_kv s)) {| sys_kv := kv';
        sys_calls := <[i := {| rc_call := rc_call c; rc_now := rc_now c; rc_phase := ph |}]> (sys_calls s) |}
  | step_others kv' s :
      others_step (sys_kv s) kv' -> sys_step s None {| sys_kv := kv'; sys_calls := sys_calls s |}.

Inductive sys_run : System -> list (Id * bytes) -> System -> Prop :=
  | run_nil s : sys_run s [] s
  | run_step s s' s'' l ls : sys_run s ls s' -> sys_step s' l s'' -> sys_run s (ls ++ option_list l) s''.

(** A schedule names the call that advances. *)
Fixpoint run_schedule (order : list nat) (s : System) : System :=
  match order with
  | [] => s
  | i :: order =>
    match sys_calls s !! i with
    | None => run_schedule order s
    | Some c =>
      let '(ph, kv) := call_step (rc_call c) (rc_now c) (rc_phase c) (sys_kv s) in
      run_schedule order {| sys_kv := kv;
        sys_calls := <[i := {| rc_call := rc_call c; rc_now := rc_now c; rc_phase := ph |}]> (sys_calls s) |}
    end
  end.

End calls.

(** ** The store in memory *)

Record Entry := {
  en_engine : Engine;
  en_mod : Z;
  en_events : list OutboxRecord;
  en_idem : gmap bytes Value }.

Fixpoint number_from (n : Z) (events : list OutboxRecord) : list OutboxRecord :=
  match events with
  | [] => []
  | r :: events => stored_record n r :: number_from (u64_wrap (n + 1)) events
  end.

(** [MemoryApprovalStore::commit_with_idem]. *)
Definition memory_commit (p : Pending) (m : gmap Id Entry) : (BridgeError + bool) * gmap Id Entry :=
  if negb (rev_allowed (pd_expected p)) || negb (aggregates_match (pd_engine p) (pd_events p)) then (inl BStore, m)
  else
    let id := inst_id (instance (pd_engine p)) in
    let current := m !! id in
    let matched := match pd_expected p with
                   | CreateOnly => bool_decide (current = None)
                   | Exact n => from_option (fun en => en_mod en =? n) false current
                   end in
    if negb matched then (inr false, m)
    else
      let last := foldl Z.max 0 (sequence <$> from_option en_events [] current) in
      let batch := number_from (u64_wrap (last + 1)) (pd_events p) in
      let idem := from_option en_idem ∅ current in
      let idem := match pd_idem p with
                  | Some r => match idem !! idem_name r with
                              | Some _ => idem
                              | None => <[idem_name r := idem_response r]> idem
                              end
                  | None => idem
                  end in
      (inr true, <[id := {| en_engine := pd_engine p; en_mod := from_option en_mod 0 current + 1;
                            en_events := from_option en_events [] current ++ batch; en_idem := idem |}]> m).
