(* ===== verification/ApprovalBridgeSafety.v ===== *)
(** * What the approval bridge guarantees

    Every instance the bridge commits is consistent; a round passes only with a
    vote, and nobody approves what they have started unless the node allows it.
    This holds of the stored instances under every interleaving of calls, and a
    command with an idempotency key takes effect at most once. *)

From S2P Require Export ApprovalSafety ApprovalStore.

Local Open Scope Z_scope.
Local Open Scope approval_scope.

(** ** What commands leave alone *)

Definition kept (t t' : Task) : Prop :=
  same_seat t t' /\ candidates t' = candidates t /\ (is_Some (assignee t) -> is_Some (assignee t')).

Lemma kept_change st who dg tf vs now t : (is_Some (assignee t) -> is_Some who) -> kept t (change_task st who dg tf vs now t).
Proof. intros Hw. split; [by split_and!|by split]. Qed.

(** Between [e] and [e'] seats, branches and rounds stay what they are.  The
    arguments say which votes, branches and rounds may be new. *)
Record frame (okv : Id -> VoteRecord -> Prop) (nb : JoinPolicy -> Prop) (nr : Id -> Prop) (e e' : Engine) : Prop := {
  fr_owner : inst_id (instance e') = inst_id (instance e) /\ initiator (instance e') = initiator (instance e);
  fr_seat : forall k t, tasks e !! k = Some t -> exists t', tasks e' !! k = Some t' /\ kept t t';
  fr_votes : forall k t' v, tasks e' !! k = Some t' -> v ∈ votes t' ->
    okv k v \/ exists t, tasks e !! k = Some t /\ v ∈ votes t;
  fr_branch : forall k x, branches e !! k = Some x ->
    exists x', branches e' !! k = Some x' /\ policy x' = policy x /\ join x' = join x;
  fr_new : forall k x', branches e' !! k = Some x' ->
    nb (join x') \/ exists k0 x, branches e !! k0 = Some x /\ join x' = join x;
  fr_round : forall k, is_Some (rounds e' !! k) -> nr k \/ is_Some (rounds e !! k) }.

Definition no_vote (k : Id) (v : VoteRecord) : Prop := False.
Definition no_branch (j : JoinPolicy) : Prop := False.
Definition no_round (k : Id) : Prop := False.
Abbreviation quiet := (frame no_vote no_branch no_round).

Lemma frame_refl okv nb nr e : frame okv nb nr e e.
Proof. constructor; eauto 10. intros k t Ht. exists t. split; [done|]. by split_and!. Qed.

Lemma frame_trans okv nb nr e e1 e2 : frame okv nb nr e e1 -> frame okv nb nr e1 e2 -> frame okv nb nr e e2.
Proof.
  intros [] []. constructor.
  - destruct fr_owner0, fr_owner1. split; congruence.
  - intros k t Ht. destruct (fr_seat0 k t Ht) as (t1 & Ht1 & (E1 & E2 & E3 & E4) & E5 & E6).
    destruct (fr_seat1 k t1 Ht1) as (t2 & Ht2 & (F1 & F2 & F3 & F4) & F5 & F6). exists t2. split; [done|].
    split_and!; try congruence; [split_and!; congruence|auto].
  - intros k t2 v Ht2 Hv. destruct (fr_votes1 k t2 v Ht2 Hv) as [?|(t1 & Ht1 & Hv1)]; [by left|]. by eapply fr_votes0.
  - intros k x Hx. destruct (fr_branch0 k x Hx) as (x1 & Hx1 & E1 & E2). destruct (fr_branch1 k x1 Hx1) as (x2 & Hx2 & F1 & F2).
    exists x2. split_and!; congruence.
  - intros k x2 Hx2. destruct (fr_new1 k x2 Hx2) as [?|(k1 & x1 & Hx1 & ->)]; [by left|]. by apply (fr_new0 k1).
  - intros k Hk. destruct (fr_round1 k Hk) as [?|Hk1]; [by left|]. by apply fr_round0.
Qed.

Lemma frame_mono okv nb nr e e' : quiet e e' -> frame okv nb nr e e'.
Proof.
  intros []. constructor; try done.
  - intros k t' v Ht Hv. destruct (fr_votes0 k t' v Ht Hv) as [[]|?]. by right.
  - intros k x' Hx. destruct (fr_new0 k x' Hx) as [[]|?]. by right.
  - intros k Hk. destruct (fr_round0 k Hk) as [[]|?]. by right.
Qed.

(** Steps that only change statuses, counts and the like. *)
Definition framed (f : W) : Prop := forall e, keys_ok e -> quiet e (f e).2.

Lemma framed_andthen f g : tells f -> framed f -> framed g -> framed (f ;; g).
Proof.
  intros Ht Hf Hg e Hk. rewrite andthen_engine. destruct (Ht e Hk) as [Hk1 _]. eapply frame_trans; [by apply Hf|by apply Hg].
Qed.
Lemma framed_for_each f ids : (forall id, tells (f id)) -> (forall id, framed (f id)) -> framed (for_each f ids).
Proof.
  intros Ht Hf. induction ids as [|id ids IH]; [intros e _; apply frame_refl|]. cbn [for_each]. by apply framed_andthen.
Qed.

Lemma frame_instance f e :
  inst_id (f (instance e)) = inst_id (instance e) -> initiator (f (instance e)) = initiator (instance e) ->
  quiet e (with_instance f e).
Proof. intros E1 E2. destruct (frame_refl no_vote no_branch no_round e). by constructor. Qed.

Lemma frame_task okv k t t' e :
  tasks e !! k = Some t -> kept t t' -> (forall v, v ∈ votes t' -> okv k v \/ v ∈ votes t) ->
  frame okv no_branch no_round e (with_tasks (<[k := t']>) e).
Proof.
  intros Ht Hs Hv. pose proof (frame_refl okv no_branch no_round e) as []. constructor; try done; cbn [with_tasks tasks].
  - intros k' t0 Ht0. destruct (decide (k = k')) as [<-|]; [|rewrite lookup_insert_ne by done; by apply fr_seat0].
    rewrite lookup_insert_eq. exists t'. split; [done|]. by replace t0 with t by congruence.
  - intros k' t0 v Ht0 Hin. destruct (decide (k = k')) as [<-|]; [|rewrite lookup_insert_ne in Ht0 by done; eauto].
    rewrite lookup_insert_eq in Ht0. injection Ht0 as <-. destruct (Hv v Hin); eauto.
Qed.

Lemma frame_branch k x x' e :
  branches e !! k = Some x -> policy x' = policy x -> join x' = join x -> quiet e (with_branches (<[k := x']>) e).
Proof.
  intros Hx Hp Hj. pose proof (frame_refl no_vote no_branch no_round e) as []. constructor; try done; cbn [with_branches branches].
  - intros k' y Hy. destruct (decide (k = k')) as [<-|]; [|rewrite lookup_insert_ne by done; by apply fr_branch0].
    rewrite lookup_insert_eq. exists x'. split_and!; congruence.
  - intros k' y Hy. right. destruct (decide (k = k')) as [<-|]; [|rewrite lookup_insert_ne in Hy by done; eauto].
    rewrite lookup_insert_eq in Hy. injection Hy as <-. eauto.
Qed.

Lemma frame_rounds k r e : is_Some (rounds e !! k) -> quiet e (with_rounds (<[k := r]>) e).
Proof.
  intros Hr. pose proof (frame_refl no_vote no_branch no_round e) as []. constructor; try done; cbn [with_rounds rounds].
  intros k'. right. destruct (decide (k = k')) as [<-|]; [done|]. by rewrite lookup_insert_ne in H by done.
Qed.

Lemma framed_cancel_task now id : framed (cancel_task now id).
Proof.
  intros e _. unfold cancel_task. destruct (tasks e !! id) as [t|] eqn:Ht; [|apply frame_refl].
  destruct (is_open (task_status t)); [|apply frame_refl]. eapply frame_task; [exact Ht|by split_and!|]. by right.
Qed.
Lemma framed_cancel_tasks ids now : framed (cancel_tasks ids now).
Proof. apply framed_for_each; [apply tells_cancel_task|apply framed_cancel_task]. Qed.
Lemma framed_close_rounds bid to now : framed (close_rounds_of_branch bid to now).
Proof.
  intros e. unfold close_rounds_of_branch. apply framed_for_each; [apply tells_close_round|].
  intros id e' _. unfold close_round. destruct (rounds e' !! id) as [r|] eqn:Hr; [|apply frame_refl]. by apply frame_rounds.
Qed.
Lemma framed_set_branch_status bid to now : framed (set_branch_status bid to now).
Proof.
  intros e _. unfold set_branch_status. destruct (branches e !! bid) as [x|] eqn:Hx; [|apply frame_refl].
  destruct (bool_decide _); [apply frame_refl|]. by eapply frame_branch.
Qed.
Lemma framed_close_branch bid to now : framed (close_branch bid to now).
Proof.
  intros e Hk. unfold close_branch. destruct (branches e !! bid) as [x|] eqn:Hx; [|apply frame_refl].
  rewrite !andthen_engine. cbn [updates emits fst snd br_id set_branch]. rewrite (proj1 Hk _ _ Hx).
  eapply frame_trans; [by eapply (frame_branch bid x (set_branch to (Some now) x))|].
  destruct (_ && _); [|apply frame_refl]. destruct (bool_decide _); [apply frame_refl|]. rewrite !andthen_engine. by apply frame_instance.
Qed.
Lemma framed_decide_round r rid to bto name now e :
  keys_ok e -> is_Some (rounds e !! rd_id r) -> quiet e (decide_round r rid to bto name now e).2.
Proof.
  intros Hk Hr. unfold decide_round. rewrite !andthen_engine. cbn [updates emits emit fst snd rd_id set_round].
  eapply frame_trans; [by apply (frame_rounds (rd_id r))|].
  assert (keys_ok (with_rounds (<[rd_id r := set_round to (Some now) r]>) e)) as Hk1 by (by apply keys_round).
  eapply frame_trans; [by apply framed_cancel_tasks|]. apply framed_close_branch. by apply tells_cancel_pending.
Qed.
Lemma framed_recount rid now : framed (recount rid now).
Proof.
  intros e Hk. unfold recount. destruct (rounds e !! rid) as [r|] eqn:Hr; [|apply frame_refl].
  destruct (negb _); [apply frame_refl|]. destruct (branches e !! rd_branch r) as [x|]; [|apply frame_refl].
  destruct (negb _); [apply frame_refl|]. rewrite andthen_engine. cbn [emits snd].
  assert (is_Some (rounds e !! rd_id r)) as Hs by (rewrite (proj1 (proj2 Hk) _ _ Hr); by eexists).
  destruct (verdict _ _ _ _ _ _) as [[]|]; try (by apply framed_decide_round); by apply (frame_rounds (rd_id r)).
Qed.
Lemma framed_cancel_open st now : framed (cancel_open_branches st now).
Proof.
  intros e. unfold cancel_open_branches. apply framed_for_each; intros bid e'.
  - apply tells_andthen; [apply tells_cancel_tasks|]. apply tells_andthen; [apply tells_close_rounds|apply tells_set_branch_status].
  - apply framed_andthen; [apply tells_cancel_tasks|apply framed_cancel_tasks|].
    apply framed_andthen; [apply tells_close_rounds|apply framed_close_rounds|apply framed_set_branch_status].
Qed.
Lemma framed_stop bto to a by_ dt ev data now : framed (stop_instance bto to a by_ dt ev data now).
Proof.
  intros e Hk. unfold stop_instance. rewrite !andthen_engine. cbn [updates emit emits audited snd].
  unfold touch. do 3 (eapply frame_trans; [|by apply frame_instance]). by apply framed_cancel_open.
Qed.

Lemma frame_seated rid r s dl now e :
  engine_inv (Some rid) e -> room 1 e -> quiet e (seated rid r s dl now e).
Proof.
  intros Hi Hroom. pose proof (seat_fresh rid e Hi) as Hf. pose proof (frame_refl no_vote no_branch no_round e) as [].
  constructor; try done; unfold seated; cbn [with_tasks with_seq tasks].
  - intros k t Ht. rewrite lookup_insert_ne by congruence. eauto.
  - intros k t v Ht Hv. destruct (decide (seat_id e = k)) as [<-|]; [|rewrite lookup_insert_ne in Ht by done; eauto].
    rewrite lookup_insert_eq in Ht. injection Ht as <-. by apply elem_of_nil in Hv.
Qed.

(** A seat of the list that votes. *)
Definition votes_seat (s : SeatSpec) : bool := bool_decide (seat_kind s = KApproval) && negb (empty_seat s).
Definition has_voter (rid : Id) (e : Engine) : Prop :=
  exists id t, tasks e !! id = Some t /\ in_round rid t = true /\ empty_seat (seat_of t) = false.

Lemma kept_seat t t' : kept t t' -> empty_seat (seat_of t) = false -> empty_seat (seat_of t') = false.
Proof.
  intros (_ & Hc & Ha). unfold empty_seat. cbn [seat_of seat_assignee seat_candidates]. rewrite Hc, !andb_false_iff.
  intros [H|H]; [left|by right]. apply bool_decide_eq_false in H. apply bool_decide_eq_false. apply not_eq_None_Some, Ha, not_eq_None_Some, H.
Qed.

Lemma voter_stays okv nb nr rid e e' : frame okv nb nr e e' -> has_voter rid e -> has_voter rid e'.
Proof.
  intros [] (id & t & Ht & Hin & Hne). destruct (fr_seat0 id t Ht) as (t' & Ht' & Hs). exists id, t'. split; [done|].
  split; [by rewrite (in_round_same rid t t' (proj1 Hs))|by eapply kept_seat].
Qed.

Lemma add_seats_frame rid r ss dl now e :
  engine_inv (Some rid) e -> rounds e !! rid = Some r -> rd_status r = ROpen -> room (Z.of_nat (length ss)) e ->
  let e' := (add_seats (rd_branch r) rid ss dl now e).2.2 in
  quiet e e' /\ (existsb votes_seat ss = true -> has_voter rid e').
Proof.
  revert e. induction ss as [|s ss IH]; intros e Hi Hr Ho Hroom; [split; [apply frame_refl|done]|]. cbn [add_seats existsb].
  assert (room 1 e) as H1 by (unfold room in *; cbn [length] in Hroom; lia). unfold votes_seat at 1.
  destruct (empty_seat s) eqn:Hes.
  { rewrite andb_false_r. apply IH; try done. unfold room in *; cbn [length] in Hroom; lia. }
  rewrite gen_room by (done || apply (inv_seq _ _ Hi)). specialize (IH (seated rid r s dl now e)).
  change (with_tasks _ _) with (seated rid r s dl now e) at 1. destruct IH as [IH1 IH2]; try done.
  - by apply inv_seated.
  - unfold room in *. cbn [length seated with_tasks with_seq seq] in *. lia.
  - destruct (add_seats _ _ ss _ _ _) as [ids [o e1]]. cbn [fst snd] in *.
    split; [eapply frame_trans; [by apply (frame_seated rid r s dl now)|done]|].
    intros [Hs|Hs]%orb_true_iff; [|by apply IH2]. eapply voter_stays; [exact IH1|].
    exists (seat_id e), (new_task (seat_id e) (rd_branch r) rid s dl now). unfold seated. cbn [with_tasks tasks].
    rewrite lookup_insert_eq. split; [done|]. split; [|by destruct s]. unfold in_round. cbn [new_task task_round kind].
    destruct (bytes_eqb_spec rid rid); [|done]. by destruct (seat_kind s).
Qed.

Lemma create_branch_frame nd parent jn rj pl now e id o e' (nb : JoinPolicy -> Prop) :
  engine_inv None e -> room 1 e -> create_branch nd parent jn rj pl now e = (id, (o, e')) ->
  (nb jn \/ exists k x, branches e !! k = Some x /\ jn = join x) -> frame no_vote nb no_round e e'.
Proof.
  intros Hi Hroom Ec Hj. rewrite create_branch_engine in Ec by done. injection Ec as <- <- <-.
  pose proof (branch_fresh e Hi) as Hf. pose proof (frame_refl no_vote nb no_round e) as [].
  constructor; try done; cbn [with_instance with_branches with_seq with_attempts branches instance rounds].
  - by destruct (root_branch_id (instance e)).
  - intros k x Hx. rewrite lookup_insert_ne by congruence. eauto.
  - intros k x. destruct (decide (gen_id (inst_id (instance e)) (b "branch") (seq e + 1) = k)) as [<-|].
    + rewrite lookup_insert_eq. by intros [= <-].
    + rewrite lookup_insert_ne by done. eauto.
Qed.

(** ** What one command may add *)

Definition new_vote (c : Command) (k : Id) (v : VoteRecord) : Prop :=
  match c with Vote id actor _ _ => k = id /\ vote_actor v = actor | _ => False end.
Definition new_join (c : Command) (j : JoinPolicy) : Prop :=
  match c with EnterBranch _ _ jn _ _ => j = jn | _ => False end.
Definition new_rounds (c : Command) (e' : Engine) (k : Id) : Prop :=
  match c with OpenApproval _ ss _ => existsb votes_seat ss = true -> has_voter k e' | _ => False end.

Lemma framed_eq f e o e' : framed f -> keys_ok e -> f e = (o, e') -> quiet e e'.
Proof. intros Hf Hk E. specialize (Hf e Hk). by rewrite E in Hf. Qed.
Lemma frame_touch okv nb nr now e e' : frame okv nb nr e e' -> frame okv nb nr e (touch now e').
Proof. intros H. eapply frame_trans; [exact H|]. apply frame_mono. by apply frame_instance. Qed.
Lemma frame_audited okv nb nr now a br by_ dt e e1 o e2 :
  audited now a br by_ dt e1 = (o, e2) -> frame okv nb nr e e1 -> frame okv nb nr e e2.
Proof. intros [= _ <-] H. eapply frame_trans; [exact H|]. apply frame_mono. by apply frame_instance. Qed.

Section frames.
Context (expected now : Z) (e : Engine) (Hi : engine_inv None e).

Let Hk : keys_ok e := inv_keys _ _ Hi.

Lemma seat_frame okv id t t' :
  tasks e !! id = Some t -> kept t t' -> (forall v, v ∈ votes t' -> okv id v \/ v ∈ votes t) ->
  frame okv no_branch no_round e (with_tasks (<[task_id t' := t']>) e).
Proof using Hi.
  intros Ht Hs Hv. destruct (inv_task _ _ Hi _ _ Ht) as (Hid & _). rewrite (proj1 (proj1 Hs)), Hid. by eapply frame_task.
Qed.

Lemma vote_frame id actor d c o e' :
  vote expected id actor d c now e = (inr o, e') -> frame (new_vote (Vote id actor d c)) no_branch no_round e e'.
Proof using Hi.
  intros H. unfold vote in H. inv_M H. apply frame_touch. destruct (inv_task _ _ Hi _ _ H0) as (Hid & _).
  eapply frame_trans; [|apply frame_mono; eapply framed_eq; [apply framed_recount| |exact Hm]; by apply keys_task].
  eapply (seat_frame _ id x0); [exact H0|apply kept_change; intros [p ->]; by rewrite bool_decide_eq_false_2|]. intros v [Hv|Hv%list_elem_of_singleton]%elem_of_app; [by right|left; by subst v].
Qed.

Lemma expire_frame id o e' : expire expected id now e = (inr o, e') -> quiet e e'.
Proof using Hi.
  intros H. unfold expire in H. inv_M H. rewrite H0 in H5. injection H5 as <-. apply frame_touch.
  destruct (inv_task _ _ Hi _ _ H0) as (Hid & _).
  assert (quiet e (with_tasks (<[id := set_task_status TExpired now x0]>) e)) as Hq by (eapply frame_task; [exact H0|by split_and!|by right]).
  case_bool_decide; inv_M Hm; [|done]. eapply frame_trans; [exact Hq|]. eapply framed_eq; [apply framed_recount|by apply keys_task|exact Hm].
Qed.

Lemma enter_branch_frame nd parent jn rj pl r e' :
  room 1 e -> enter_branch expected nd parent jn rj pl now e = (inr r, e') ->
  frame no_vote (fun j => j = jn) no_round e e'.
Proof using Hi.
  intros Hroom H. unfold enter_branch in H. inv_M H. destruct (create_branch _ _ _ _ _ _ _) as [id [o2 e2]] eqn:Ec. inv_M H.
  pose proof (inv_jumps _ _ Hi) as [Hj1 Hj2]. apply frame_touch. eapply frame_audited; [eassumption|].
  assert (engine_inv None e0 /\ room 1 e0 /\ quiet e e0) as (Hi0 & Hroom0 & Hq).
  { case_bool_decide as Ep; injection Hm as <- <-; [|split_and!; [done|done|apply frame_refl]]. split_and!; [|done|by apply frame_instance].
    apply negb_true_iff in H0. pose proof (proj1 (any_open_branch_false e) H0). apply inv_with_instance; auto. }
  eapply frame_trans; [by apply frame_mono|]. eapply create_branch_frame; [exact Hi0|done|exact Ec|by left].
Qed.

Lemma add_sign_frame bid ss by_ c r e' :
  room (Z.of_nat (length ss)) e -> add_sign expected bid ss by_ c now e = (inr r, e') -> quiet e e'.
Proof using Hi.
  intros Hroom H. unfold add_sign in H. inv_M H. destruct (add_seats _ _ _ _ _ _) as [ids [o1 e1]] eqn:Ea. inv_M H.
  apply frame_touch. eapply frame_audited; [eassumption|]. destruct (open_round_Some _ _ _ _ Hi H3) as (Hb & Hro & Hr). rewrite <- Hb in Ea.
  destruct (add_seats_frame (rd_id x1) x1 ss None now e (inv_dirty _ _ Hi) Hr Hro Hroom) as [Hq _].
  destruct (add_seats_inv (rd_id x1) x1 ss None now e (inv_dirty _ _ Hi) Hr Hro Hroom) as [Hi1 _].
  rewrite Ea in Hq, Hi1. cbn [fst snd] in Hq, Hi1. eapply frame_trans; [exact Hq|].
  eapply framed_eq; [apply framed_recount|by eapply inv_keys|eassumption].
Qed.

Lemma remove_sign_frame bid ids by_ o e' : remove_sign expected bid ids by_ now e = (inr o, e') -> quiet e e'.
Proof using Hi.
  intros H. unfold remove_sign in H. inv_M H. apply check_targets_inr in Hm as [-> _]. destruct (_ && _); inv_M H; [apply frame_refl|].
  apply frame_touch. eapply frame_audited; [eassumption|].
  assert (keys_ok e0) as Hk0 by (eapply tells_told in Hm as [_ ?]; [done|apply tells_cancel_tasks|exact Hk]).
  eapply frame_trans; [eapply framed_eq; [apply framed_cancel_tasks|exact Hk|exact Hm]|].
  eapply framed_eq; [apply framed_recount|exact Hk0|eassumption].
Qed.

Lemma open_approval_frame bid ss dl res e' :
  room (Z.of_nat (length ss) + 1) e -> open_approval expected bid ss dl now e = (inr res, e') ->
  frame no_vote no_branch (fun k => existsb votes_seat ss = true -> has_voter k e') e e'.
Proof using Hi.
  intros Hroom H. destruct (open_approval_run _ _ _ Hi _ _ _ _ _ Hroom H) as
    (rid & m & x & ids & o1 & e1 & o2 & e2 & Hx & Hf & Hn & Hrm & Ea & Er & -> & ->).
  set (e0 := with_branches _ _) in *.
  assert (rounds e0 !! rid = Some (new_round rid bid m now)) as Hr by (unfold e0; cbn; by rewrite lookup_insert_eq).
  destruct (add_seats_frame rid (new_round rid bid m now) ss dl now e0 Hn Hr eq_refl Hrm) as [Hq Hv].
  destruct (add_seats_inv rid (new_round rid bid m now) ss dl now e0 Hn Hr eq_refl Hrm) as [Hi1 _].
  cbn [rd_branch new_round] in Hq, Hv, Hi1. rewrite Ea in Hq, Hv, Hi1. cbn [fst snd] in Hq, Hv, Hi1.
  assert (quiet e1 e2) as Hq2 by (eapply framed_eq; [apply framed_recount|by eapply inv_keys|exact Er]).
  apply frame_touch. eapply frame_trans; [|apply frame_mono; eapply frame_trans; [exact Hq|exact Hq2]].
  pose proof (frame_branch bid x (push_round rid x) e Hx eq_refl eq_refl) as [].
  constructor; try done. intros k. unfold e0. cbn [with_branches with_rounds rounds].
  destruct (decide (rid = k)) as [<-|]; [|rewrite lookup_insert_ne by done; by right].
  intros _. left. intros Hs. apply Hv in Hs. exact (voter_stays _ _ _ rid e1 e2 Hq2 Hs).
Qed.

Lemma return_to_node_frame bid target by_ c res e' :
  room 1 e -> return_to_node expected bid target by_ c now e = (inr res, e') ->
  frame no_vote (fun j => j = JAll) no_round e e'.
Proof using Hi.
  intros Hroom H. destruct (return_to_node_run _ _ _ Hi _ _ _ _ _ _ Hroom H) as
    (x & jn & rj & pl & id & o1 & e0 & o2 & e1 & o3 & e2 & o4 & e3 & e4 & name & data & rec & H1 & H2 & H3 & Hi2 & Hroom2 & Hrun2 & Hj & Hno2 & _
     & _ & _ & Epol & Ec & Ha & -> & -> & _).
  apply frame_touch. eapply frame_audited; [exact Ha|]. eapply frame_trans; [|apply frame_mono; by apply frame_instance].
  assert (framed (match open_round bid e with Some r => cancel_pending_tasks (rd_id r) now | None => skip end)) as F1
    by (destruct (open_round bid e); [intros e'; apply framed_cancel_tasks|intros e' _; apply frame_refl]).
  assert (framed (match latest_attempt target e1 with Some y => set_branch_status (br_id y) BSuperseded now | None => skip end)) as F3
    by (destruct (latest_attempt target e1); [apply framed_set_branch_status|intros e' _; apply frame_refl]).
  pose proof (framed_eq _ _ _ _ F1 Hk H1) as Q1.
  eapply tells_told in H1 as [_ Hk1]; [|destruct (open_round bid e); [apply tells_cancel_pending|apply tells_skip]|exact Hk].
  assert (framed (close_rounds_of_branch bid RSuperseded now ;; set_branch_status bid BReturned now)) as F2
    by (apply framed_andthen; [apply tells_close_rounds|apply framed_close_rounds|apply framed_set_branch_status]).
  pose proof (framed_eq _ _ _ _ F2 Hk1 H2) as Q2.
  eapply tells_told in H2 as [_ Hk2]; [|apply tells_andthen; [apply tells_close_rounds|apply tells_set_branch_status]|done].
  pose proof (framed_eq _ _ _ _ F3 Hk2 H3) as Q3.
  eapply frame_trans; [apply frame_mono; eapply frame_trans; [exact Q1|eapply frame_trans; [exact Q2|exact Q3]]|].
  eapply create_branch_frame; [exact Hi2|exact Hroom2|exact Ec|].
  destruct (latest_attempt target e1) as [y|] eqn:El; [|left; congruence]. right.
  destruct (latest_attempt_elem _ _ _ El) as (_ & ky & Hy). destruct (fr_branch _ _ _ _ _ Q3 _ _ Hy) as (y' & Hy' & _ & E).
  exists ky, y'. split; congruence.
Qed.
End frames.

Lemma run_command_frame c expected now e o e' :
  engine_inv None e -> room (ids_needed c) e -> run_command c expected now e = (inr o, e') ->
  frame (new_vote c) (fun j => new_join c j \/ j = JAll) (new_rounds c e') e e'.
Proof.
  intros Hi Hroom H. pose proof (inv_keys _ _ Hi) as Hk. destruct c; cbn [run_command ids_needed new_vote new_join new_rounds] in *.
  - inv_M H. apply enter_branch_frame in Hm; [|done|done]. destruct Hm. constructor; try done.
    intros k x' Hx. destruct (fr_new0 k x' Hx); eauto.
  - inv_M H. apply open_approval_frame in Hm; [|done|done]. destruct Hm. constructor; try done.
    intros k x' Hx. destruct (fr_new0 k x' Hx) as [[]|]; eauto.
  - inv_M H. apply frame_mono. by eapply add_sign_frame.
  - apply frame_mono. by eapply remove_sign_frame.
  - unfold claim in H. inv_M H. apply frame_mono, frame_touch. eapply (seat_frame e Hi _ id); [eassumption|by apply kept_change|by right].
  - apply vote_frame in H; [|done]. destruct H. constructor; try done.
    intros k x' Hx. destruct (fr_new0 k x' Hx) as [[]|]; eauto.
  - unfold acknowledge in H. inv_M H. apply frame_mono, frame_touch.
    eapply (seat_frame e Hi _ id); [eassumption|apply kept_change; intros [p ->]; by rewrite bool_decide_eq_false_2|by right].
  - unfold transfer in H. inv_M H. apply frame_mono, frame_touch. eapply (seat_frame e Hi _ id); [eassumption|by apply kept_change|by right].
  - unfold delegate in H. inv_M H. apply frame_mono, frame_touch. eapply (seat_frame e Hi _ id); [eassumption|by apply kept_change|by right].
  - inv_M H. apply return_to_node_frame in Hm; [|done|done]. destruct Hm. constructor; try done.
    intros k x' Hx. destruct (fr_new0 k x' Hx); eauto.
  - unfold withdraw in H. inv_M H. apply frame_mono. eapply framed_eq; [apply framed_stop|done|exact H].
  - unfold terminate in H. inv_M H. apply frame_mono. eapply framed_eq; [apply framed_stop|done|exact H].
  - apply frame_mono. unfold finish in H. inv_M H. assert (e0 = e) as -> by (destruct (_ <$> _) as [[]|]; inv_M Hm; done).
    destruct (bool_decide _); inv_M H; [apply frame_refl|]. match goal with Hem : emit _ _ _ = _ |- _ => injection Hem as <- <- end.
    apply frame_touch. by apply frame_instance.
  - apply frame_mono. by eapply expire_frame.
Qed.

(** ** Instances that the bridge has made *)

(** Whether somebody may act on a node of an instance. *)
Definition may_act (e : Engine) (x : Branch) (actor : Principal) : Prop :=
  initiator (instance e) = anonymous \/ actor <> initiator (instance e) \/ allow_self_approve (policy x) = true.

Record bridge_inv (e : Engine) : Prop := {
  bi_engine : engine_inv None e;
  bi_voters : forall k, is_Some (rounds e !! k) -> has_voter k e;
  bi_join : forall k x, branches e !! k = Some x -> valid_join (join x);
  bi_self : forall k t x v, tasks e !! k = Some t -> branches e !! task_branch t = Some x -> v ∈ votes t ->
    may_act e x (vote_actor v);
  bi_revision : in_u64 (revision (instance e)) }.

(** What the bridge checks before it runs a command of the engine. *)
Definition command_allowed (c : Command) (e : Engine) : Prop :=
  match c with
  | EnterBranch _ _ jn _ _ => valid_join jn
  | OpenApproval _ ss _ => existsb votes_seat ss = true
  | Vote id actor _ _ => forall t x, tasks e !! id = Some t -> branches e !! task_branch t = Some x -> may_act e x actor
  | _ => True
  end.

Definition carries (e e' : Engine) : Prop := bridge_inv e' /\ inst_id (instance e') = inst_id (instance e).

Lemma carries_trans e e1 e2 : carries e e1 -> carries e1 e2 -> carries e e2.
Proof. intros [_ E1] [H E2]. split; [done|congruence]. Qed.

Lemma run_command_bridge c expected now e o e' :
  bridge_inv e -> room (ids_needed c) e -> command_allowed c e -> run_command c expected now e = (inr o, e') -> carries e e'.
Proof.
  intros [Hi Hv Hj Hs Hrev] Hroom Hc H. pose proof (run_command_inv _ _ _ _ _ _ Hi Hroom H) as Hi'.
  pose proof (run_command_frame _ _ _ _ _ _ Hi Hroom H) as F. pose proof F as [[Fi Fo] Fs Fv Fb Fn Fr]. split; [|exact Fi]. constructor; [done|..].
  - intros k Hk. destruct (Fr k Hk) as [Hn|Hold]; [|eapply voter_stays; [exact F|by apply Hv]].
    destruct c; try done. by apply Hn.
  - intros k x Hx. destruct (Fn k x Hx) as [[Hn| ->]|(k0 & y & Hy & ->)]; [|done|by eapply Hj].
    destruct c; try done. cbn in Hn. by subst.
  - intros k t' x' v Ht' Hx' Hin.
    assert (forall t y, tasks e !! k = Some t -> branches e !! task_branch t = Some y -> policy x' = policy y) as Hpol.
    { intros t y Ht Hy. destruct (Fs k t Ht) as (t2 & Ht2 & (_ & Eb & _) & _). destruct (Fb _ _ Hy) as (y' & Hy' & Ep & _). congruence. }
    assert (exists t y, tasks e !! k = Some t /\ branches e !! task_branch t = Some y /\ may_act e y (vote_actor v)) as (t & y & Ht & Hy & Hm).
    { destruct (Fv k t' v Ht' Hin) as [Hn|(t & Ht & Hin')].
      - destruct c; try done. destruct Hn as [-> Hva]. unfold run_command, vote in H. inv_M H.
        destruct (inv_task _ _ Hi _ _ H0) as (_ & _ & _ & r & Hr & Erb & _). destruct (inv_round _ _ Hi _ _ Hr) as (_ & _ & y & Hy & _).
        rewrite Erb in Hy. exists x0, y. split_and!; try done. eauto.
      - destruct (inv_task _ _ Hi _ _ Ht) as (_ & _ & _ & r & Hr & Erb & _). destruct (inv_round _ _ Hi _ _ Hr) as (_ & _ & y & Hy & _).
        rewrite Erb in Hy. exists t, y. split_and!; eauto. }
    unfold may_act in *. rewrite Fo, (Hpol t y Ht Hy). done.
  - destruct (run_command_touch _ _ _ _ _ _ H) as [[-> _]|(-> & _)]; [done|]. apply Z.mod_pos_bound. done.
Qed.

Lemma return_seq expected now e bid target by_ c res e' :
  engine_inv None e -> room 1 e -> return_to_node expected bid target by_ c now e = (inr res, e') -> seq e' = seq e + 1.
Proof.
  intros Hi Hroom H. destruct (return_to_node_run _ _ _ Hi _ _ _ _ _ _ Hroom H) as
    (x & jn & rj & pl & id & o1 & e0 & o2 & e1 & o3 & e2 & o4 & e3 & e4 & name & data & rec & _ & _ & _ & Hi2 & Hroom2 & _ & _ & _ & _
     & _ & _ & _ & Ec & Ha & -> & _ & Hs).
  injection Ha as <-. rewrite create_branch_engine in Ec by done. injection Ec as _ _ <-. cbn. lia.
Qed.

Lemma enter_seq expected now e nd parent jn rj pl res e' :
  engine_inv None e -> room 1 e -> enter_branch expected nd parent jn rj pl now e = (inr res, e') -> seq e' = seq e + 1.
Proof.
  intros Hi Hroom H. unfold enter_branch in H. inv_M H. destruct (create_branch _ _ _ _ _ _ _) as [id [o2 e2]] eqn:Ec. inv_M H.
  pose proof (inv_jumps _ _ Hi) as [Hj1 Hj2].
  match goal with Ha : audited _ _ _ _ _ _ = _ |- _ => injection Ha as _ <- end.
  assert (engine_inv None e0 /\ seq e0 = seq e) as [Hi0 Hs].
  { case_bool_decide as Ep; injection Hm as <- <-; [|done]. split; [|done]. apply negb_true_iff in H0.
    pose proof (proj1 (any_open_branch_false e) H0). apply inv_with_instance; auto. }
  rewrite create_branch_engine in Ec by (done || (unfold room in *; by rewrite Hs)). injection Ec as <- <- <-. cbn. lia.
Qed.

(** The seats that a node is opened again with. *)
Lemma prior_seats_inr target e ss e' :
  bridge_inv e -> prior_seats target e = (inr ss, e') ->
  e' = e /\ existsb votes_seat ss = true /\ Z.of_nat (length ss) <= seq e.
Proof.
  intros [Hi Hv _ _ _] H. unfold prior_seats in H. inv_M H. split; [done|]. apply negb_true_iff, bool_decide_eq_false in H1. split.
  - destruct (List.filter _ _) as [|t l] eqn:El; [done|].
    assert (t ∈ List.filter (fun t => bytes_eqb (task_branch t) (br_id x)) (values (tasks e))) as Ht by (rewrite El; by left).
    apply elem_of_List_filter in Ht as [Hb [k Hk]%elem_of_values]. destruct (inv_task _ _ Hi k t Hk) as (_ & _ & _ & r & Hr & Erb & _).
    destruct (Hv (task_round t)) as (k2 & t2 & Ht2 & Hin & Hne); [by eexists|].
    destruct (inv_task _ _ Hi k2 t2 Ht2) as (_ & _ & _ & r2 & Hr2 & Erb2 & _). unfold in_round in Hin. apply andb_true_iff in Hin as [E Hkd].
    destruct (bytes_eqb_spec (task_round t2) (task_round t)) as [E'|]; [|done]. rewrite E' in Hr2.
    apply existsb_exists. exists (seat_of t2). split; [|by unfold votes_seat; cbn; rewrite Hkd, Hne].
    apply list_elem_of_In, list_elem_of_fmap. exists t2. split; [done|]. rewrite <- El. apply elem_of_List_filter.
    split; [|apply elem_of_values; by eexists]. by replace (task_branch t2) with (task_branch t) by congruence.
  - rewrite length_fmap. etrans; [|apply (inv_size _ _ Hi)]. pose proof (cnt_size (fun t => bytes_eqb (task_branch t) (br_id x)) (tasks e)).
    unfold cnt in *. lia.
Qed.

Lemma guard_self_inr actor id e u e' :
  guard_self_approve actor id e = (inr u, e') ->
  e' = e /\ forall t x, tasks e !! id = Some t -> branches e !! task_branch t = Some x -> may_act e x actor.
Proof.
  unfold guard_self_approve. intros H. inv_M H. unfold may_act.
  destruct (bytes_eqb_spec (initiator (instance e)) anonymous) as [?|Hne]; cbn [orb] in H; [inv_M H; by auto|].
  destruct (bytes_eqb_spec (initiator (instance e)) actor) as [E|Hne2]; cbn [negb] in H; [|inv_M H; split; [done|]; auto].
  destruct (tasks e !! id) as [t|]; cbn in H; [|inv_M H; by split]. destruct (branches e !! task_branch t) as [x|] eqn:Hx; inv_M H; split; try done.
  - intros t0 x0 [= <-] Hx0. replace x0 with x by congruence. auto.
  - intros t0 x0 [= <-] Hx0. congruence.
Qed.

Lemma guard_sign_inr actor bid e u e' : guard_sign_admin actor bid e = (inr u, e') -> e' = e.
Proof. unfold guard_sign_admin. intros H. by inv_M H. Qed.
Lemma guard_return_inr actor bid e u e' : guard_return_to_node actor bid e = (inr u, e') -> e' = e.
Proof. unfold guard_return_to_node. intros H. by inv_M H. Qed.
Lemma guard_terminate_inr actor e u e' : guard_terminate actor e = (inr u, e') -> e' = e.
Proof. unfold guard_terminate. intros H. by inv_M H. Qed.
Lemma branch_of_tasks_inr ids e id e' : branch_of_tasks ids e = (inr id, e') -> e' = e.
Proof. unfold branch_of_tasks. intros H. destruct ids; by inv_M H. Qed.

Lemma bind_ret {A B : Type} (m : M A) (f : A -> B) e b e' :
  (r ← m; mret (f r)) e = (inr b, e') -> exists r, m e = (inr r, e') /\ b = f r.
Proof. intros H. apply bind_inr in H as (r & e1 & H & Hr). apply ret_inr in Hr as [-> ->]. eauto. Qed.

(** A node is opened again, or for the first time. *)
Lemma open_approval_bridge now e bid ss dl res e' :
  bridge_inv e -> room (Z.of_nat (length ss) + 1) e -> existsb votes_seat ss = true ->
  open_approval (revision (instance e)) bid ss dl now e = (inr res, e') -> carries e e'.
Proof.
  intros Hb Hroom Hv H. eapply (run_command_bridge (OpenApproval bid ss dl)); [exact Hb|done|done|].
  cbn [run_command]. cbv [mbind M_bind]. rewrite H. done.
Qed.

Lemma apply_command_bridge actor c now e o e' :
  bridge_inv e -> seq e + command_ids c (seq e) < u32_modulus -> apply_command actor c now e = (inr o, e') -> carries e e'.
Proof.
  intros Hb Hroom H. unfold apply_command in H. apply bind_inr in H as (e0 & e1 & Hg & H). apply get_inr in Hg as [-> ->].
  pose proof (inv_seq _ _ (bi_engine _ Hb)) as Hs. assert (room 0 e) as Hr0 by (unfold room; lia).
  assert (forall c0, room (ids_needed c0) e -> command_allowed c0 e ->
    run_command c0 (revision (instance e)) now e = (inr o, e') -> carries e e') as Hrun.
  { intros c0 Hr Hc. by apply run_command_bridge. }
  cbv zeta in H. destruct c; cbn [command_ids] in Hroom.
  - apply bind_inr in H as (u & e1 & [-> Hg]%guard_self_inr & H). by apply (Hrun (Vote id actor DApprove comment)).
  - apply bind_inr in H as (u & e1 & [-> Hg]%guard_self_inr & H). by apply (Hrun (Vote id actor DReject comment)).
  - apply bind_inr in H as (u & e1 & [-> Hg]%guard_self_inr & H). by apply (Hrun (Acknowledge id actor)).
  - apply bind_inr in H as (u & e1 & ->%guard_sign_inr & H). by apply (Hrun (AddSign bid seats actor comment)).
  - apply bind_inr in H as (bid & e1 & ->%branch_of_tasks_inr & H). apply bind_inr in H as (u & e1 & ->%guard_sign_inr & H).
    by apply (Hrun (RemoveSign bid ids actor)).
  - apply bind_inr in H as (u & e1 & ->%guard_return_inr & H). apply bind_inr in H as (ss & e1 & Hp & H).
    destruct (prior_seats_inr _ _ _ _ Hb Hp) as (-> & Hv & Hl). apply bind_inr in H as (r & e1 & H1 & H).
    apply bind_inr in H as (e2 & e3 & Hg & H). apply get_inr in Hg as [-> ->]. apply bind_ret in H as (r' & H & _).
    assert (room 1 e) as Hr1 by (unfold room; lia). pose proof (return_seq _ _ _ _ _ _ _ _ _ (bi_engine _ Hb) Hr1 H1) as Hs1.
    assert (carries e e1) as Hc1.
    { eapply (run_command_bridge (ReturnToNode bid target actor comment)); [exact Hb|exact Hr1|done|].
      cbn [run_command]. cbv [mbind M_bind]. rewrite H1. done. }
    eapply carries_trans; [exact Hc1|]. refine (open_approval_bridge _ _ _ _ _ _ _ (proj1 Hc1) _ Hv H). unfold room; lia.
  - apply bind_inr in H as (u & e1 & [-> Hg]%guard_self_inr & H). by apply (Hrun (Transfer id to actor)).
  - apply bind_inr in H as (u & e1 & [-> Hg]%guard_self_inr & H). by apply (Hrun (Delegate id to actor)).
  - by apply (Hrun (Withdraw actor)).
  - apply bind_inr in H as (u & e1 & ->%guard_terminate_inr & H). by apply (Hrun (Terminate actor reason)).
Qed.

Lemma room_zero e : bridge_inv e -> room 0 e.
Proof. intros Hb. pose proof (inv_seq _ _ (bi_engine _ Hb)). unfold room. lia. Qed.

Lemma service_bridge service e : bridge_inv e -> bridge_inv (set_acting_service service e).
Proof. intros []. constructor; try done. by apply service_inv. Qed.

Lemma expire_all_bridge ids now e o e' : bridge_inv e -> expire_all ids now e = (inr o, e') -> carries e e'.
Proof.
  revert e o. induction ids as [|id ids IH]; intros e o Hb H; cbn [expire_all] in H.
  - apply ret_inr in H as [_ ->]. done.
  - apply bind_inr in H as (e0 & e1 & Hg & H). apply get_inr in Hg as [-> ->].
    apply bind_inr in H as (o1 & e1 & H1 & H). apply bind_ret in H as (os & H & _).
    assert (carries e e1) as Hc.
    { eapply (run_command_bridge (Expire id)); [done|by apply room_zero|done|exact H1]. }
    eapply carries_trans; [exact Hc|]. eapply IH; [apply Hc|exact H].
Qed.

Lemma start_bridge spec now e : start spec now = inr e -> bridge_inv e /\ inst_id (instance e) = spec_id spec /\ seq e = 0.
Proof.
  intros H. pose proof (start_inv _ _ _ H) as Hi. unfold start in H. destruct (existsb _ _); [done|]. destruct (_ || _); [done|].
  injection H as <-. split_and!; try done. constructor; [done|..]; cbn.
  - intros k [r Hr]. by rewrite lookup_empty in Hr.
  - intros k x Hx. by rewrite lookup_empty in Hx.
  - intros k t x v Ht. by rewrite lookup_empty in Ht.
  - done.
Qed.

Lemma open_node_bridge nd task ss pl dl now e o e' :
  bridge_inv e -> valid_join (mode task) -> existsb votes_seat ss = true -> seq e + (Z.of_nat (length ss) + 2) < u32_modulus ->
  open_node nd task ss pl dl now e = (inr o, e') -> carries e e'.
Proof.
  intros Hb Hj Hv Hroom H. unfold open_node in H. apply bind_inr in H as (e0 & e1 & Hg & H). apply get_inr in Hg as [-> ->].
  apply bind_inr in H as (r & e1 & H1 & H). apply bind_inr in H as (e2 & e3 & Hg & H). apply get_inr in Hg as [-> ->].
  apply bind_ret in H as (r' & H & _). assert (room 1 e) as Hr1 by (unfold room; lia).
  pose proof (enter_seq _ _ _ _ _ _ _ _ _ _ (bi_engine _ Hb) Hr1 H1) as Hs.
  assert (carries e e1) as Hc1.
  { eapply (run_command_bridge (EnterBranch nd None (mode task) (to_reject task) pl)); [exact Hb|exact Hr1|done|].
    cbn [run_command]. cbv [mbind M_bind]. rewrite H1. done. }
  eapply carries_trans; [exact Hc1|]. refine (open_approval_bridge _ _ _ _ _ _ _ (proj1 Hc1) _ Hv H). unfold room; lia.
Qed.

(** Validated policies need a vote. *)
Lemma parse_join_policy_valid s j : parse_join_policy s = Some j -> valid_join j.
Proof.
  unfold parse_join_policy. destruct (bytes_eqb _ _); [by intros [= <-]|]. destruct (bytes_eqb _ _); [by intros [= <-]|].
  assert (forall x n, parse_u32 x = Some n -> 0 <= n) as Hpos.
  { intros x n. unfold parse_u32, parse_u64. destruct (match x with [] => x | c :: r => _ end) as [|c l]; [done|].
    assert (forall l acc, (forall v, acc = Some v -> 0 <= v) -> forall v, foldl parse_digit acc l = Some v -> 0 <= v) as Hf.
    { intros l0. induction l0 as [|c0 l0 IH]; intros acc Ha v; cbn [foldl]; [apply Ha|]. apply IH. intros v0. unfold parse_digit.
      destruct acc as [w|]; [|done]. cbn. specialize (Ha w eq_refl). destruct ((0 <=? byte_Z c0 - 48) && _) eqn:Ed; [|done].
      destruct (_ <=? u64_max); [|done]. intros [= <-]. apply andb_true_iff in Ed as [Ed _]. apply Z.leb_le in Ed. lia. }
    destruct (foldl parse_digit (Some 0) (c :: l)) as [v|] eqn:Ev; [|done]. destruct (v <? u32_modulus); [|done]. intros [= <-].
    eapply Hf; [|exact Ev]. by intros ? [= <-]. }
  destruct (strip_prefix (b "quorum:") s) as [n|].
  - destruct (parse_u32 n) as [m|] eqn:Em; [|done]. destruct (Z.eqb_spec m 0); [done|]. intros [= <-]. cbn. specialize (Hpos _ _ Em). lia.
  - destruct (strip_prefix (b "ratio:") s) as [rest|]; [|done]. cbn. destruct (split_once x2f rest) as [[num den]|]; [|done]. cbn.
    destruct (parse_u32 num) as [m|]; [|done]. cbn. destruct (parse_u32 den) as [d|]; [|done]. cbn.
    destruct (Z.ltb_spec 0 m), (Z.ltb_spec 0 d); cbn; try done. by intros [= <-].
Qed.

(** ** Events *)

(** An effect whose event is in the catalogue. *)
Definition known (f : Effect) : bool :=
  match f with EEvent name _ => existsb (bytes_eqb name) APPROVAL_EVENT_TYPES | _ => true end.
Definition knows (f : W) : Prop := forall e, forallb known (f e).1 = true.

Lemma knows_andthen f g : knows f -> knows g -> knows (f ;; g).
Proof. intros Hf Hg e. rewrite andthen_effects, forallb_app. by rewrite Hf, Hg. Qed.
Lemma knows_for_each f ids : (forall id, knows (f id)) -> knows (for_each f ids).
Proof. intros Hf. induction ids as [|id ids IH]; [done|]. by apply knows_andthen. Qed.
Lemma knows_cancel_task now id : knows (cancel_task now id).
Proof. intros e. unfold cancel_task. destruct (tasks e !! id) as [t|]; [|done]. by destruct (is_open _). Qed.
Lemma knows_close_rounds bid to now : knows (close_rounds_of_branch bid to now).
Proof. intros e. apply knows_for_each. intros id e'. unfold close_round. by destruct (rounds e' !! id). Qed.
Lemma knows_set_branch_status bid to now : knows (set_branch_status bid to now).
Proof. intros e. unfold set_branch_status. destruct (branches e !! bid); [|done]. by destruct (bool_decide _). Qed.
Lemma knows_close_branch bid to now : knows (close_branch bid to now).
Proof.
  intros e. unfold close_branch. destruct (branches e !! bid) as [x|]; [|done]. do 2 (apply knows_andthen; [done|]).
  intros e'. destruct (_ && _); [|done]. by destruct (bool_decide _).
Qed.
Lemma knows_emit name data : existsb (bytes_eqb name) APPROVAL_EVENT_TYPES = true -> knows (fun e => emit name (data e) e).
Proof. intros H e. cbn [emit emits fst forallb known]. by rewrite H. Qed.
Lemma knows_recount rid now : knows (recount rid now).
Proof.
  intros e. unfold recount. destruct (rounds e !! rid) as [r|]; [|done]. destruct (negb _); [done|].
  destruct (branches e !! rd_branch r) as [x|]; [|done]. destruct (negb _); [done|]. apply knows_andthen; [done|].
  destruct (verdict _ _ _ _ _ _) as [[]|]; try done; unfold decide_round; do 2 (apply knows_andthen; [done|]);
    (apply knows_andthen; [intros e'; apply knows_for_each, knows_cancel_task|]); (apply knows_andthen; [apply knows_close_branch|]); by apply (knows_emit _ (fun e => round_data e _)).
Qed.
Lemma knows_cancel_open st now : knows (cancel_open_branches st now).
Proof.
  intros e. apply knows_for_each. intros bid e'. apply knows_andthen; [apply knows_for_each, knows_cancel_task|].
  apply knows_andthen; [apply knows_close_rounds|apply knows_set_branch_status].
Qed.
Lemma knows_eq f e o e' : knows f -> f e = (o, e') -> forallb known o = true.
Proof. intros Hf E. specialize (Hf e). by rewrite E in Hf. Qed.

Lemma add_seats_known bid rid ss dl now e : forallb known (add_seats bid rid ss dl now e).2.1 = true.
Proof.
  revert e. induction ss as [|s ss IH]; intros e; [done|]. cbn [add_seats]. destruct (empty_seat s); [apply IH|].
  destruct (gen _ e) as [tid e1]. specialize (IH (with_tasks (<[tid:=new_task tid bid rid s dl now]>) e1)).
  by destruct (add_seats _ _ ss _ _ _) as [ids [o e2]].
Qed.

Create HintDb events.
#[local] Hint Resolve knows_recount knows_close_rounds knows_set_branch_status knows_cancel_open knows_andthen knows_for_each
  knows_cancel_task : events.

Ltac known_parts :=
  cbn [snd forallb known]; rewrite ?forallb_app; cbn [forallb known];
  repeat (apply andb_true_iff; split);
  first [done | match goal with E : ?f _ = (?o, _) |- forallb known ?o = true => apply (knows_eq f _ _ _) in E; [exact E|eauto with events] end | idtac].

Lemma create_branch_known nd parent jn rj pl now e id o e' :
  create_branch nd parent jn rj pl now e = (id, (o, e')) -> forallb known o = true.
Proof. unfold create_branch. destruct (gen _ _). by intros [= _ <- _]. Qed.

(** Every event that a command emits is in the catalogue. *)
Lemma run_command_known c expected now e o e' : run_command c expected now e = (inr o, e') -> forallb known o = true.
Proof.
  intros H. destruct c; cbn [run_command] in H.
  - inv_M H. unfold enter_branch in Hm. inv_M Hm. destruct (create_branch _ _ _ _ _ _ _) as [id [o2 e2]] eqn:Ec. inv_M Hm.
    apply create_branch_known in Ec. known_parts. case_bool_decide; by simplify_eq.
  - inv_M H. unfold open_approval in Hm. inv_M Hm. destruct (gen _ _) as [rid e1]. inv_M Hm.
    destruct (add_seats _ _ _ _ _ _) as [ids [o1 e2]] eqn:Ea. inv_M Hm. known_parts.
    match type of Ea with add_seats ?bi ?ri ?s ?d ?n ?e0 = _ => pose proof (add_seats_known bi ri s d n e0) as Hk end. by rewrite Ea in Hk.
  - inv_M H. unfold add_sign in Hm. inv_M Hm. destruct (add_seats _ _ _ _ _ _) as [ids [o1 e2]] eqn:Ea. inv_M Hm. known_parts.
    match type of Ea with add_seats ?bi ?ri ?s ?d ?n ?e0 = _ => pose proof (add_seats_known bi ri s d n e0) as Hk end. by rewrite Ea in Hk.
  - unfold remove_sign in H. inv_M H. apply check_targets_inr in Hm as [-> _]. destruct (_ && _); inv_M H; known_parts.
  - unfold claim in H. by inv_M H.
  - unfold vote in H. inv_M H. known_parts. destruct (bool_decide (assignee x0 = None)); reflexivity.
  - unfold acknowledge in H. by inv_M H.
  - unfold transfer in H. inv_M H. by destruct (bool_decide (task_status x0 = TCreated)).
  - unfold delegate in H. by inv_M H.
  - inv_M H. unfold return_to_node in Hm. inv_M Hm. destruct (match latest_attempt _ _ with Some y => (join y, reject_policy y, policy y) | None => _ end) as [[jn rj] pl].
    inv_M Hm. destruct (create_branch _ _ _ _ _ _ _) as [id [o4 e4]] eqn:Ec. inv_M Hm. apply create_branch_known in Ec.
    match goal with Hem : emit _ _ _ = _ |- _ => injection Hem as <- <- end. known_parts.
    + destruct (open_round _ _); [|done]. intros e6. apply knows_for_each, knows_cancel_task.
    + destruct (latest_attempt _ _); [apply knows_set_branch_status|done].
  - unfold withdraw in H. inv_M H. eapply knows_eq; [|exact H]. unfold stop_instance. apply knows_andthen; [apply knows_cancel_open|].
    do 2 (apply knows_andthen; [done|]). apply knows_andthen; [by apply knows_emit|done].
  - unfold terminate in H. inv_M H. eapply knows_eq; [|exact H]. unfold stop_instance. apply knows_andthen; [apply knows_cancel_open|].
    do 2 (apply knows_andthen; [done|]). apply knows_andthen; [by apply (knows_emit _ (fun e => VObject _))|done].
  - unfold finish in H. inv_M H.
    assert (x1 = ICompleted \/ x1 = IRejected) as Hx by (destruct (br_status <$> last_root e) as [[]|]; first [done|inv_M Hm; auto]).
    destruct (bool_decide _); inv_M H; [done|]. match goal with Hem : emit _ _ _ = _ |- _ => injection Hem as <- <- end. by destruct Hx as [-> | ->].
  - unfold expire in H. inv_M H. known_parts. destruct (bool_decide (kind x0 = KApproval)); inv_M Hm; [|done].
    eapply knows_eq; [apply knows_recount|exact Hm].
Qed.

Lemma apply_command_known actor c now e o e' : apply_command actor c now e = (inr o, e') -> forallb known o = true.
Proof.
  intros H. unfold apply_command in H. apply bind_inr in H as (e0 & e1 & Hg & H). apply get_inr in Hg as [-> ->]. cbv zeta in H.
  assert (forall c0 e1, run_command c0 (revision (instance e)) now e1 = (inr o, e') -> forallb known o = true) as Hrun
    by (intros c0 e1; apply run_command_known).
  destruct c; try lazymatch type of H with (_ ≫= _) _ = _ => apply bind_inr in H as (u & e1 & _ & H) end.
  - by apply (Hrun (Vote id actor DApprove comment) e1).
  - by apply (Hrun (Vote id actor DReject comment) e1).
  - by apply (Hrun (Acknowledge id actor) e1).
  - by apply (Hrun (AddSign bid seats actor comment) e1).
  - apply bind_inr in H as (u' & e2 & _ & H). by apply (Hrun (RemoveSign u ids actor) e2).
  - apply bind_inr in H as (ss & e2 & _ & H). apply bind_inr in H as (r & e3 & H1 & H). apply bind_inr in H as (e4 & e5 & _ & H).
    apply bind_ret in H as (r' & H & ->). rewrite forallb_app. apply andb_true_iff. split.
    + eapply (run_command_known (ReturnToNode bid target actor comment)). cbn [run_command]. cbv [mbind M_bind]. by rewrite H1.
    + eapply (run_command_known (OpenApproval r.1 ss None)). cbn [run_command]. cbv [mbind M_bind]. by rewrite H.
  - by apply (Hrun (Transfer id to actor) e1).
  - by apply (Hrun (Delegate id to actor) e1).
  - by apply (Hrun (Withdraw actor) e).
  - by apply (Hrun (Terminate actor reason) e1).
Qed.

(** ** Records of the outbox *)

Lemma colon_split x d x' d' :
  Forall is_digit d -> Forall is_digit d' -> x ++ x3a :: d = x' ++ x3a :: d' -> x = x' /\ d = d'.
Proof.
  assert (forall k d0 d1, Forall is_digit d1 -> x3a :: d1 = k ++ x3a :: d0 -> k = []) as Hnil.
  { intros [|c k] d0 d1 Hd E; [done|]. injection E as _ E. rewrite E in Hd. apply Forall_app in Hd as [_ [[Hc Hc'] _]%Forall_cons]. by vm_compute in Hc'. }
  intros Hd Hd' E. apply app_eq_inv in E as [(k & -> & E)|(k & -> & E)];
    [pose proof (Hnil _ _ _ Hd' E) as ->|pose proof (Hnil _ _ _ Hd E) as ->]; injection E as ->; by rewrite ?app_nil_r.
Qed.

Lemma decimal_inj n n' : in_u64 n -> in_u64 n' -> decimal n = decimal n' -> n = n'.
Proof. intros H H' E. pose proof (decimal_parse n H) as P. rewrite E, (decimal_parse n' H') in P. congruence. Qed.

(** The identity of an event tells the instance, the revision and the place in
    the batch. *)
Lemma event_id_inj id rev n id' rev' n' :
  in_u64 rev -> in_u64 n -> in_u64 rev' -> in_u64 n' -> event_id id rev n = event_id id' rev' n' -> id = id' /\ rev = rev' /\ n = n'.
Proof.
  intros Hr Hn Hr' Hn' E. unfold event_id in E.
  assert (forall m, in_u64 m -> Forall is_digit (decimal m)) as Hd by (intros m [? _]; by apply digits_digits).
  rewrite !app_assoc in E. change (b ":") with [x3a] in E. rewrite <- !(app_assoc _ [x3a]) in E. cbn [app] in E.
  apply colon_split in E as [E En]; [|auto|auto]. apply decimal_inj in En as ->; [|done|done].
  apply colon_split in E as [-> Er]; [|auto|auto]. by apply decimal_inj in Er as ->.
Qed.

Lemma catalogue_external name : existsb (bytes_eqb name) APPROVAL_EVENT_TYPES = true -> external_event_type name = name.
Proof.
  intros (x & Hx & E)%existsb_exists. destruct (bytes_eqb_spec name x) as [->|]; [|done].
  repeat (destruct Hx as [<-|Hx]; [done|]). done.
Qed.

Lemma records_known id o rev now n :
  forallb known o = true ->
  exists events, records_from id o rev now n = inr events /\
    forall i r, events !! i = Some r -> aggregate_id r = id /\ rec_id r = event_id id rev (n + Z.of_nat i) /\ rec_type r ∈ APPROVAL_EVENT_TYPES.
Proof.
  revert n. induction o as [|f o IH]; intros n; cbn [forallb records_from]; [intros _; by exists []|].
  intros [Hf Ho]%andb_true_iff. destruct f; try (by apply IH). destruct (IH (n + 1) Ho) as (events & E & Hev). cbn [known] in Hf.
  unfold event_record. rewrite Hf, E. eexists. split; [done|]. intros [|i] r; cbn.
  - intros [= <-]. cbn. rewrite Z.add_0_r. split_and!; try done. rewrite catalogue_external by done.
    apply existsb_exists in Hf as (x & Hx & Ex). destruct (bytes_eqb_spec name x) as [->|]; [|done]. by apply list_elem_of_In.
  - intros Hr. destruct (Hev i r Hr) as (? & -> & ?). split_and!; try done. f_equal. lia.
Qed.

Lemma records_distinct id rev n events :
  in_u64 rev -> 0 <= n -> n + Z.of_nat (length events) < u64_modulus ->
  (forall i r, events !! i = Some r -> rec_id r = event_id id rev (n + Z.of_nat i)) -> distinct (rec_id <$> events) = true.
Proof.
  intros Hr. revert n. induction events as [|r events IH]; intros n Hn Hlen Hev; [done|]. cbn [fmap list_fmap distinct length] in *.
  apply andb_true_iff. split.
  - apply negb_true_iff, not_true_iff_false. intros (x & Hx & E)%existsb_exists. destruct (bytes_eqb_spec (rec_id r) x) as [<-|]; [|done].
    apply list_elem_of_In, list_elem_of_fmap in Hx as (r' & Er & [i Hi]%list_elem_of_lookup). pose proof (lookup_lt_Some _ _ _ Hi).
    rewrite (Hev 0%nat r eq_refl), (Hev (S i) r' Hi) in Er. apply event_id_inj in Er as (_ & _ & Er); [lia|done| |done|]; unfold in_u64; lia.
  - apply (IH (n + 1)); [lia|lia|]. intros i r' Hi. rewrite (Hev (S i) r' Hi). f_equal. lia.
Qed.

(** ** Dates *)

Definition leap (y : Z) : bool := (y mod 4 =? 0) && (negb (y mod 100 =? 0) || (y mod 400 =? 0)).
Definition days_in_month (y m : Z) : Z :=
  if m =? 2 then if leap y then 29 else 28
  else if (m =? 4) || (m =? 6) || (m =? 9) || (m =? 11) then 30 else 31.
Definition next_day (date : Z * Z * Z) : Z * Z * Z :=
  let '(y, m, d) := date in
  if d <? days_in_month y m then (y, m, d + 1) else if m <? 12 then (y, m + 1, 1) else (y + 1, 1, 1).

(** Years from March to February: the day on which one begins, the year of a
    day of the era of four hundred years, and the date of a day of a year. *)
Definition year_start (y : Z) : Z := 365 * y + y / 4 - y / 100 + y / 400.
Definition year_of_era (doe : Z) : Z := (doe - doe / 1460 + doe / 36524 - doe / 146096) / 365.
Definition month_day (doy : Z) : Z * Z :=
  let mp := (5 * doy + 2) / 153 in (if mp <? 10 then mp + 3 else mp - 9, doy - (153 * mp + 2) / 5 + 1).

Lemma year_of_era_bounds doe :
  0 <= doe < 146097 -> 0 <= year_of_era doe < 400 /\ year_start (year_of_era doe) <= doe < year_start (year_of_era doe + 1).
Proof.
  intros Hd. unfold year_of_era, year_start. set (y := _ / 365).
  assert (y = (doe - doe / 1460 + doe / 36524 - doe / 146096) / 365) as Ey by done. clearbody y.
  assert (0 <= y < 400) by (Z.to_euclidean_division_equations; lia). Z.to_euclidean_division_equations; lia.
Qed.

Lemma year_length y : year_start (y + 1) - year_start y = if leap (y + 1) then 366 else 365.
Proof.
  unfold year_start, leap. destruct (Z.eqb_spec ((y + 1) mod 4) 0), (Z.eqb_spec ((y + 1) mod 100) 0), (Z.eqb_spec ((y + 1) mod 400) 0);
    cbn [andb negb orb]; Z.to_euclidean_division_equations; lia.
Qed.

Definition civil (y doy : Z) : Z * Z * Z := let '(m, d) := month_day doy in (if m <=? 2 then y + 1 else y, m, d).

Lemma civil_days z :
  0 <= z -> exists y doy, z + 719468 = year_start y + doy /\ 0 <= doy < year_start (y + 1) - year_start y /\ civil_from_days z = civil y doy.
Proof.
  intros Hz. unfold civil_from_days. set (n := z + 719468). assert (0 <= n) as Hn by lia. rewrite (proj2 (Z.leb_le 0 n) Hn), Z.quot_div_nonneg by lia.
  set (k := n / 146097). pose proof (Z_div_mod_eq_full n 146097) as E. pose proof (Z.mod_pos_bound n 146097 ltac:(lia)) as Hr. fold k in E.
  replace (n - k * 146097) with (n mod 146097) by lia. set (doe := n mod 146097) in *. destruct (year_of_era_bounds doe Hr) as [Hy Hs].
  change ((doe - doe / 1460 + doe / 36524 - doe / 146096) / 365) with (year_of_era doe). set (y := year_of_era doe) in *.
  assert (forall a, year_start (a + k * 400) = year_start a + 146097 * k) as Hk by (intros a; unfold year_start; Z.to_euclidean_division_equations; lia).
  assert (y / 400 = 0) as H0 by (apply Z.div_small; lia).
  exists (y + k * 400), (doe - year_start y). replace (y + k * 400 + 1) with (y + 1 + k * 400) by lia. rewrite !Hk. split_and!; [lia|lia|lia|].
  unfold civil, month_day. replace (doe - year_start y) with (doe - (365 * y + y / 4 - y / 100)) by (unfold year_start; lia).
  by replace (y + 1 + k * 400) with (y + k * 400 + 1) by lia.
Qed.

Lemma year_unique y doy y' doy' :
  year_start y + doy = year_start y' + doy' -> 0 <= doy < year_start (y + 1) - year_start y ->
  0 <= doy' < year_start (y' + 1) - year_start y' -> y = y' /\ doy = doy'.
Proof.
  intros E H H'. assert (y = y') as ->; [|lia]. unfold year_start in *. Z.to_euclidean_division_equations; lia.
Qed.

(** The days of a year follow each other; February is its last month. *)
Definition follows_in_year (doy : Z) : bool :=
  let '(m, d) := month_day doy in
  let '(m', d') := month_day (doy + 1) in
  if m =? 2 then (m' =? 2) && (d' =? d + 1) && (d <=? 28) && bool_decide (d = 28 <-> doy = 364)
  else if d <? days_in_month 0 m then (m' =? m) && (d' =? d + 1)
  else (d' =? 1) && (m' =? if m <? 12 then m + 1 else 1).
Lemma year_checked : forallb follows_in_year (seqZ 0 365) = true.
Proof. by vm_compute. Qed.

Lemma civil_in_year y doy :
  0 <= doy -> doy + 1 < year_start (y + 1) - year_start y -> civil y (doy + 1) = next_day (civil y doy).
Proof.
  intros H0 H1. rewrite year_length in H1. pose proof year_checked as Hc. rewrite forallb_forall in Hc. specialize (Hc doy).
  assert (follows_in_year doy = true) as Hf by (apply Hc, list_elem_of_In, elem_of_seqZ; destruct (leap _); lia). clear Hc.
  unfold follows_in_year in Hf. unfold civil. destruct (month_day doy) as [m d], (month_day (doy + 1)) as [m' d']. cbn [next_day].
  destruct (Z.eqb_spec m 2) as [->|Hm].
  - rewrite !andb_true_iff in Hf. destruct Hf as [[[->%Z.eqb_eq ->%Z.eqb_eq] Hd%Z.leb_le] Hiff%bool_decide_eq_true]. cbn.
    unfold days_in_month. cbn. destruct (Z.ltb_spec d (if leap (y + 1) then 29 else 28)) as [|Hge]; [done|]. exfalso.
    destruct (leap (y + 1)); [lia|]. assert (doy = 364) by (apply Hiff; lia). lia.
  - assert (days_in_month (if m <=? 2 then y + 1 else y) m = days_in_month 0 m) as ->
      by (unfold days_in_month; by rewrite (proj2 (Z.eqb_neq _ _) Hm)).
    destruct (d <? days_in_month 0 m); rewrite !andb_true_iff in Hf.
    + by destruct Hf as [->%Z.eqb_eq ->%Z.eqb_eq].
    + destruct Hf as [->%Z.eqb_eq ->%Z.eqb_eq]. destruct (Z.ltb_spec m 12).
      * f_equal. f_equal. destruct (Z.leb_spec m 2), (Z.leb_spec (m + 1) 2); lia.
      * cbn. f_equal. f_equal. destruct (Z.leb_spec m 2); lia.
Qed.
Lemma civil_new_year y doy : doy + 1 = year_start (y + 1) - year_start y -> civil (y + 1) 0 = next_day (civil y doy).
Proof.
  rewrite year_length. intros E. destruct (leap (y + 1)) eqn:El.
  - assert (doy = 365) as -> by lia. change (civil y 365) with (y + 1, 2, 29). unfold next_day, days_in_month. by rewrite El.
  - assert (doy = 364) as -> by lia. change (civil y 364) with (y + 1, 2, 28). unfold next_day, days_in_month. by rewrite El.
Qed.

(** Event times are right.  Day 0 is 1 January 1970, and every later day
    is the day that follows the day before it in the Gregorian calendar. *)
Theorem dates_are_gregorian :
  civil_from_days 0 = (1970, 1, 1) /\ forall z, 0 <= z -> civil_from_days (z + 1) = next_day (civil_from_days z).
Proof.
  split; [reflexivity|]. intros z Hz. destruct (civil_days z Hz) as (y & doy & E & Hd & ->).
  destruct (civil_days (z + 1)) as (y' & doy' & E' & Hd' & ->); [lia|].
  destruct (decide (doy + 1 < year_start (y + 1) - year_start y)) as [Hlt|Hge].
  - destruct (year_unique y' doy' y (doy + 1)) as [-> ->]; [lia|done|lia|]. apply civil_in_year; lia.
  - pose proof (year_length (y + 1)) as Hl. destruct (year_unique y' doy' (y + 1) 0) as [-> ->]; [lia|done|destruct (leap _); lia|].
    apply civil_new_year. lia.
Qed.

(** ** Calls *)

Section calls.
Context (evaluate : bytes -> Value -> option Value).
Context (duration_ms : bytes -> option Z).
Context (resolve : bytes -> option (list Principal)).

Abbreviation call_attempt := (call_attempt evaluate duration_ms resolve).
Abbreviation call_step := (call_step evaluate duration_ms resolve).
Abbreviation sys_step := (sys_step evaluate duration_ms resolve).
Abbreviation sys_run := (sys_run evaluate duration_ms resolve).

Lemma resolve_roles_approvers names ss s : resolve_roles resolve names = Some ss -> s ∈ ss -> exists p, s = approver p.
Proof using Type.
  revert ss. induction names as [|n names IH]; cbn [resolve_roles]; intros ss H Hs.
  - injection H as <-. by apply elem_of_nil in Hs.
  - apply bind_Some in H as (ps & _ & H). apply bind_Some in H as (qs & Hq & H). injection H as <-.
    apply elem_of_app in Hs as [(p & -> & _)%list_elem_of_fmap|Hs]; [by eexists|by eapply IH].
Qed.

Lemma resolve_seats_voter task context ss :
  resolve_seats evaluate resolve task context = inr ss -> existsb votes_seat ss = true.
Proof using Type.
  unfold resolve_seats. destruct (mbind _ _) as [seats|] eqn:E; [|done]. destruct (existsb _ seats) eqn:Ex; [|done]. intros [= <-].
  apply bind_Some in E as (named & _ & E). apply bind_Some in E as (pl & _ & E). apply bind_Some in E as (rd & _ & E).
  apply bind_Some in E as (names & _ & E). apply bind_Some in E as (fr & Hf & E). injection E as <-.
  apply existsb_exists in Ex as (s & Hin & Hk). apply existsb_exists. exists s. split; [done|]. apply list_elem_of_In in Hin.
  apply bool_decide_eq_true in Hk.
  apply elem_of_app in Hin as [(p & -> & _)%list_elem_of_fmap|Hin]; [done|].
  apply elem_of_app in Hin as [Hin|Hin].
  - case_bool_decide as Ep; [by apply elem_of_nil in Hin|]. apply list_elem_of_singleton in Hin as ->. unfold votes_seat, empty_seat. cbn.
    by rewrite (bool_decide_eq_false_2 (pl = [])).
  - apply elem_of_app in Hin as [(p & -> & _)%list_elem_of_fmap|Hin]; [done|]. by destruct (resolve_roles_approvers _ _ _ Hf Hin) as [p ->].
Qed.

Definition expected_of (loaded : option (Engine * Z)) : ExpectedRev :=
  match loaded with None => CreateOnly | Some er => Exact er.2 end.

Lemma commit_run_inv run id now ex idem r e' events ex' idem' r' :
  commit_run run id now ex idem r = Commit e' events ex' idem' r' ->
  exists o, run = (inr o, e') /\ effects_to_records id o (revision (instance e')) now = inr events /\
    ex' = ex /\ idem' = idem e' /\ r' = r e'.
Proof using Type.
  unfold commit_run. destruct run as [[x|o] e]; [done|]. destruct (effects_to_records _ _ _ _) as [x|ev] eqn:E; [done|].
  intros [= <- <- <- <- <-]. eauto 10.
Qed.

(** What a call commits is a sound instance of the same identity, against the
    revision it has read, with the idempotency key of the call. *)
Lemma call_attempt_bridge x now loaded e' events ex idem r :
  valid_call x -> fits evaluate resolve x loaded ->
  (forall e rev, loaded = Some (e, rev) -> bridge_inv e /\ inst_id (instance e) = call_id x) ->
  call_attempt x now loaded = Commit e' events ex idem r ->
  bridge_inv e' /\ inst_id (instance e') = call_id x /\ ex = expected_of loaded /\ (idem_name <$> idem) = call_key x.
Proof using Type.
  intros Hv Hf Hl H. unfold fits in Hf. destruct x; cbn [call_attempt] in H; unfold ApprovalBridge.call_attempt in H.
  - unfold command_attempt in H. destruct loaded as [[e rev]|]; [|done]. destruct (Hl e rev eq_refl) as [Hb Hid]. cbn in Hf.
    apply commit_run_inv in H as (o & Hrun & _ & -> & -> & ->). unfold acting in Hrun.
    destruct (apply_command _ _ _ _) as [res e1] eqn:Ea. injection Hrun as -> <-.
    eapply apply_command_bridge in Ea as [Hb1 Hid1]; [|by apply service_bridge|done].
    split_and!; [by apply service_bridge|by rewrite <- Hid|done|by destruct key].
  - destruct (resolve_seats _ _ _ _) as [|ss] eqn:Er; [done|]. cbn in Hf. rewrite Er in Hf.
    pose proof (resolve_seats_voter _ _ _ Er) as Hvs. unfold ensure_attempt in H. destruct loaded as [[e rev]|].
    + destruct (Hl e rev eq_refl) as [Hb Hid]. destruct (node_is_open _ _); [done|]. apply commit_run_inv in H as (o & Hrun & _ & -> & -> & ->).
      cbn in Hf. eapply open_node_bridge in Hrun as [Hb1 Hid1]; try done. by rewrite Hid1.
    + destruct (start _ _) as [|e] eqn:Es; [done|]. apply start_bridge in Es as (Hb & Hid & Hs). apply commit_run_inv in H as (o & Hrun & _ & -> & -> & ->).
      cbn in Hf. eapply open_node_bridge in Hrun as [Hb1 Hid1]; try done; [|by rewrite Hs]. by rewrite Hid1, Hid.
  - unfold expire_attempt in H. destruct loaded as [[e rev]|]; [|done]. destruct (Hl e rev eq_refl) as [Hb Hid].
    destruct (bool_decide _); [done|]. apply commit_run_inv in H as (o & Hrun & _ & -> & -> & ->).
    apply expire_all_bridge in Hrun as [Hb1 Hid1]; [|done]. by rewrite Hid1.
  - unfold finish_attempt in H. destruct loaded as [[e rev]|]; [|done]. destruct (Hl e rev eq_refl) as [Hb Hid].
    destruct (_ || _); [done|]. destruct (negb _); [done|]. apply commit_run_inv in H as (o & Hrun & _ & -> & -> & ->).
    destruct (run_command_bridge Finish _ _ _ _ _ Hb (room_zero _ Hb) I Hrun) as [Hb1 Hid1]. by rewrite Hid1.
  - unfold terminate_attempt in H. destruct loaded as [[e rev]|]; [|done]. destruct (Hl e rev eq_refl) as [Hb Hid].
    apply commit_run_inv in H as (o & Hrun & _ & -> & -> & ->). apply bind_inr in Hrun as (u & e1 & ->%guard_terminate_inr & Hrun).
    apply bind_inr in Hrun as (e2 & e3 & Hg & Hrun). apply get_inr in Hg as [-> ->].
    destruct (run_command_bridge (Terminate actor reason) _ _ _ _ _ Hb (room_zero _ Hb) I Hrun) as [Hb1 Hid1]. by rewrite Hid1.
Qed.

(** ** Rows *)

Lemma put_other rev puts rows k : k ∉ puts.*1 -> foldl (put_row rev) rows puts !! k = rows !! k.
Proof using Type.
  revert rows. induction puts as [|kd puts IH]; intros rows Hk; [done|]. cbn [foldl]. rewrite fmap_cons, not_elem_of_cons in Hk.
  rewrite IH by apply Hk. unfold put_row. rewrite lookup_insert_ne; [done|]. destruct Hk. congruence.
Qed.

Lemma record_puts_keys aggregate recs n k : k ∈ (record_puts aggregate recs n).*1 -> outbox_row k.
Proof using Type.
  revert n. induction recs as [|r recs IH]; intros n; cbn [record_puts]; [by intros ?%elem_of_nil|].
  rewrite fmap_app, elem_of_app. intros [Hk|Hk]; [|by eapply IH]. cbn in Hk.
  repeat (apply elem_of_cons in Hk as [->|Hk]; [by eexists|]). by apply elem_of_nil in Hk.
Qed.
Lemma outbox_keys recs n k : k ∈ (outbox_ops recs n).*1 -> outbox_row k.
Proof using Type.
  unfold outbox_ops. destruct recs as [|r recs]; [by intros ?%elem_of_nil|]. rewrite fmap_cons.
  intros [->|Hk]%elem_of_cons; [by eexists|]. by eapply record_puts_keys.
Qed.

Lemma instance_not_outbox id : ~ outbox_row (instance_key id).
Proof using Type. by intros [rest [=]]. Qed.
Lemma idem_not_outbox id key : ~ outbox_row (idem_key id key).
Proof using Type. by intros [rest [=]]. Qed.
Lemma instance_not_idem id id' key : instance_key id <> idem_key id' key.
Proof using Type. by intros [=]. Qed.
Lemma instance_key_inj id id' : instance_key id = instance_key id' -> id = id'.
Proof using Type. by intros [= ->]. Qed.
Lemma instance_v4 id : v4 (instance_key id).
Proof using Type. by eexists. Qed.
Lemma idem_v4 id key : v4 (idem_key id key).
Proof using Type. by eexists. Qed.

(** What a commit does to the rows of version 4. *)
Lemma commit_rows p cur rev rows :
  let id := inst_id (instance (pd_engine p)) in
  let rows' := foldl (put_row rev) rows (commit_puts p cur) in
  rows' !! instance_key id = Some {| row_value := DEngine (pd_engine p);
    row_version := default 0 (row_version <$> rows !! instance_key id) + 1; row_mod := rev |} /\
  (forall k, v4 k -> k <> instance_key id -> (forall r, pd_idem p = Some r -> k <> idem_key id (idem_name r)) -> rows' !! k = rows !! k) /\
  (forall r, pd_idem p = Some r -> rows' !! idem_key id (idem_name r) = Some {| row_value := DIdem r;
    row_version := default 0 (row_version <$> rows !! idem_key id (idem_name r)) + 1; row_mod := rev |}).
Proof using Type.
  cbv zeta. unfold commit_puts. cbn [foldl]. rewrite foldl_app. set (id := inst_id _).
  assert (forall k, ~ outbox_row k -> forall rows0, foldl (put_row rev) rows0 (outbox_ops (pd_events p) (u64_wrap (cur + 1))) !! k = rows0 !! k) as Ho.
  { intros k Hk rows0. apply put_other. intros Hin. by apply Hk, (outbox_keys (pd_events p) (u64_wrap (cur + 1))). }
  assert (forall k, v4 k -> ~ outbox_row k) as Hv4 by (intros k [r1 ->] [r2 [=]]).
  split_and!.
  - rewrite put_other; [|destruct (pd_idem p); [|apply not_elem_of_nil]; intros Hin%list_elem_of_singleton; by apply instance_not_idem in Hin].
    rewrite Ho by apply instance_not_outbox. unfold put_row. by rewrite lookup_insert_eq.
  - intros k Hk Hne Hni. rewrite put_other; [|destruct (pd_idem p); [|apply not_elem_of_nil]; intros Hin%list_elem_of_singleton; by eapply Hni].
    rewrite Ho by auto. unfold put_row. by rewrite lookup_insert_ne.
  - intros r ->. cbn [foldl]. unfold put_row at 1. cbn [fst snd]. rewrite lookup_insert_eq, Ho by apply idem_not_outbox. unfold put_row.
    rewrite lookup_insert_ne; [done|]. apply instance_not_idem.
Qed.

(** ** The invariant of the system *)

Record kv_ok (kv : Kv) : Prop := {
  ko_instance : forall id row, kv_rows kv !! instance_key id = Some row ->
    exists e, row_value row = DEngine e /\ bridge_inv e /\ inst_id (instance e) = id /\ 0 < row_mod row <= kv_revision kv;
  ko_idem : forall id key row, kv_rows kv !! idem_key id key = Some row -> exists r, row_value row = DIdem r;
  ko_version : forall k row, v4 k -> kv_rows kv !! k = Some row -> 0 < row_version row;
  ko_revision : 0 <= kv_revision kv }.

(** A commit that is under way was computed from the row it expects. *)
Record pending_ok (kv : Kv) (x : Call) (now : Z) (p : Pending) : Prop := {
  po_id : inst_id (instance (pd_engine p)) = call_id x;
  po_bridge : bridge_inv (pd_engine p);
  po_key : (idem_name <$> pd_idem p) = call_key x;
  po_from : match pd_expected p with
            | CreateOnly => call_attempt x now None = Commit (pd_engine p) (pd_events p) CreateOnly (pd_idem p) (pd_result p)
            | Exact n => 0 < n <= kv_revision kv /\
              forall row e, kv_rows kv !! instance_key (call_id x) = Some row -> row_mod row = n -> row_value row = DEngine e ->
                call_attempt x now (Some (e, n)) = Commit (pd_engine p) (pd_events p) (Exact n) (pd_idem p) (pd_result p)
            end }.

Definition phase_ok (kv : Kv) (x : Call) (now : Z) (ph : Phase) : Prop :=
  match ph with
  | CRead _ _ p | CEvents _ _ p _ _ | CRecord _ _ p _ _ _ | CSequence _ _ p | CTxn _ _ p _ _ => pending_ok kv x now p
  | _ => True
  end.

Record sys_inv (s : System) : Prop := {
  si_kv : kv_ok (sys_kv s);
  si_calls : forall i c, sys_calls s !! i = Some c -> valid_call (rc_call c) /\ phase_ok (sys_kv s) (rc_call c) (rc_now c) (rc_phase c) }.

(** The rows of version 4 stay, or are written at a later revision. *)
Definition advances (kv kv' : Kv) : Prop :=
  kv_revision kv <= kv_revision kv' /\
  forall id row, kv_rows kv' !! instance_key id = Some row -> kv_rows kv !! instance_key id = Some row \/ kv_revision kv < row_mod row.

Lemma phase_advances kv kv' x now ph : advances kv kv' -> phase_ok kv x now ph -> phase_ok kv' x now ph.
Proof using Type.
  intros [Hr Hrow]. assert (forall p, pending_ok kv x now p -> pending_ok kv' x now p) as Hp.
  { intros p []. constructor; try done. destruct (pd_expected p) as [|n]; [done|]. destruct po_from0 as [Hn Hf]. split; [lia|].
    intros row e Hk Hm Hv. destruct (Hrow _ _ Hk) as [Hold|Hlt]; [by eapply Hf|lia]. }
  destruct ph; cbn; auto.
Qed.

Lemma advances_refl kv : advances kv kv.
Proof using Type. split; [lia|auto]. Qed.

(** A transaction that goes through. *)
Lemma txn_commits kv x now p cur cur_bytes kv' :
  kv_ok kv -> pending_ok kv x now p -> kv_txn (commit_compares p cur_bytes) (commit_puts p cur) kv = (true, kv') ->
  (exists loaded, read_instance kv (call_id x) = inr loaded /\ pd_expected p = expected_of loaded /\
     call_attempt x now loaded = Commit (pd_engine p) (pd_events p) (expected_of loaded) (pd_idem p) (pd_result p)) /\
  (forall r, pd_idem p = Some r -> kv_rows kv !! idem_key (call_id x) (idem_name r) = None) /\
  kv_revision kv' = kv_revision kv + 1 /\ kv_rows kv' = foldl (put_row (kv_revision kv + 1)) (kv_rows kv) (commit_puts p cur).
Proof using Type.
  intros Hk [Hid Hb Hkey Hfrom] H. unfold kv_txn in H. destruct (forallb _ _) eqn:Hc; [|done]. injection H as <-.
  unfold commit_compares in Hc. rewrite !forallb_app, !andb_true_iff in Hc. destruct Hc as (_ & Hc & Hi). split_and!; [| |done|done].
  - cbn [forallb] in Hc. rewrite andb_true_r in Hc. unfold read_instance. rewrite Hid in Hc.
    destruct (kv_rows kv !! instance_key (call_id x)) as [row|] eqn:Hrow.
    + destruct (ko_instance _ Hk _ _ Hrow) as (e & Hv & _ & _ & Hm). rewrite Hv. exists (Some (e, row_mod row)). split; [done|].
      destruct (pd_expected p) as [|n]; unfold instance_predicate, holds in Hc; rewrite Hrow in Hc; apply Z.eqb_eq in Hc; cbn in Hc.
      * pose proof (ko_version _ Hk _ _ (instance_v4 (call_id x)) Hrow). lia.
      * subst n. split; [done|]. destruct Hfrom as [_ Hf]. by eapply Hf.
    + exists None. split; [done|]. destruct (pd_expected p) as [|n]; [done|]. unfold instance_predicate, holds in Hc. rewrite Hrow in Hc. apply Z.eqb_eq in Hc. cbn in Hc.
      destruct Hfrom as [? _]. lia.
  - intros r Hr. rewrite Hr in Hi. cbn [forallb] in Hi. rewrite andb_true_r, Hid in Hi. unfold holds in Hi. apply Z.eqb_eq in Hi.
    destruct (kv_rows kv !! idem_key (call_id x) (idem_name r)) as [row|] eqn:Hrow; [|done].
    pose proof (ko_version _ Hk _ _ (idem_v4 _ _) Hrow). cbn in Hi. lia.
Qed.

Lemma txn_kv_ok kv x now p cur cur_bytes kv' :
  kv_ok kv -> pending_ok kv x now p -> kv_txn (commit_compares p cur_bytes) (commit_puts p cur) kv = (true, kv') ->
  kv_ok kv' /\ advances kv kv' /\ read_instance kv' (call_id x) = inr (Some (pd_engine p, kv_revision kv')) /\
  (forall id, id <> call_id x -> read_instance kv' id = read_instance kv id).
Proof using Type.
  intros Hk Hp H. destruct (txn_commits _ _ _ _ _ _ _ Hk Hp H) as (_ & _ & Hr & Hrows). pose proof Hp as [Hid Hb _ _].
  destruct (commit_rows p cur (kv_revision kv + 1) (kv_rows kv)) as (R1 & R2 & R3). rewrite <- Hrows, Hid in R1, R2, R3. pose proof Hk as [].
  assert (forall k row, v4 k -> kv_rows kv' !! k = Some row -> kv_rows kv !! k = Some row \/
    (k = instance_key (call_id x) /\ row_value row = DEngine (pd_engine p) /\ row_mod row = kv_revision kv + 1 /\
     row_version row = default 0 (row_version <$> kv_rows kv !! k) + 1) \/
    (exists r, k = idem_key (call_id x) (idem_name r) /\ row_value row = DIdem r /\
     row_version row = default 0 (row_version <$> kv_rows kv !! k) + 1)) as Hcase.
  { intros k row Hk4 Hrow. destruct (decide (k = instance_key (call_id x))) as [->|Hne]; [right; left; rewrite R1 in Hrow; by injection Hrow as <-|].
    destruct (pd_idem p) as [r|] eqn:Ei; [|left; rewrite <- Hrow; symmetry; by apply R2].
    destruct (decide (k = idem_key (call_id x) (idem_name r))) as [->|Hne2]; [right; right; rewrite (R3 r eq_refl) in Hrow; injection Hrow as <-; by exists r|].
    left. rewrite <- Hrow. symmetry. apply R2; try done. by intros r' [= <-]. }
  split_and!.
  - constructor; [| | |lia].
    + intros id row Hrow. destruct (Hcase _ _ (instance_v4 id) Hrow) as [Hold|[(Ek & Ev & Em & _)|(r & Ek & _)]].
      * destruct (ko_instance0 _ _ Hold) as (e & ? & ? & ? & ?). exists e. split_and!; try done; lia.
      * apply instance_key_inj in Ek as ->. exists (pd_engine p). split_and!; try done; lia.
      * by apply instance_not_idem in Ek.
    + intros id key row Hrow. destruct (Hcase _ _ (idem_v4 id key) Hrow) as [Hold|[(Ek & _)|(r & Ek & Ev & _)]]; [by eapply ko_idem0| |by exists r].
      by symmetry in Ek; apply instance_not_idem in Ek.
    + intros k row Hk4 Hrow. assert (0 <= default 0 (row_version <$> kv_rows kv !! k)) as Hd.
      { destruct (kv_rows kv !! k) as [row0|] eqn:E0; cbn; [|lia]. pose proof (ko_version0 _ _ Hk4 E0). lia. }
      destruct (Hcase _ _ Hk4 Hrow) as [Hold|[(_ & _ & _ & E)|(r & _ & _ & E)]]; [by eapply ko_version0|lia|lia].
  - split; [lia|]. intros id row Hrow. destruct (Hcase _ _ (instance_v4 id) Hrow) as [?|[(_ & _ & Em & _)|(r & Ek & _)]]; [by left|right; lia|].
    by apply instance_not_idem in Ek.
  - unfold read_instance. rewrite R1. cbn. by rewrite Hr.
  - intros id Hne. unfold read_instance. rewrite R2; [done|apply instance_v4| |].
    + intros E. by apply Hne, instance_key_inj.
    + intros r _ E. by apply instance_not_idem in E.
Qed.

Lemma txn_fails kv p cur cur_bytes kv' :
  kv_ok kv -> kv_txn (commit_compares p cur_bytes) (commit_puts p cur) kv = (false, kv') ->
  kv_rows kv' = kv_rows kv /\ kv_revision kv <= kv_revision kv' /\ kv_ok kv' /\ advances kv kv'.
Proof using Type.
  intros [] H. unfold kv_txn in H. destruct (forallb _ _); [done|]. injection H as <-. cbn. split_and!; try done; [lia| |].
  - constructor; cbn; try done; [|lia]. intros id row Hrow. destruct (ko_instance0 _ _ Hrow) as (e & ? & ? & ? & ?). exists e. split_and!; try done; lia.
  - split; cbn; [lia|auto].
Qed.

(** The pure parts of a step keep the commit. *)
Lemma committed_ok kv x now attempt p ok : phase_ok kv x now (committed attempt p ok).
Proof using Type. unfold committed. destruct ok; [done|]. by destruct (_ <=? _)%nat. Qed.
Lemma not_replayed_ok kv x now attempt rounds p cur : pending_ok kv x now p -> phase_ok kv x now (not_replayed attempt rounds p cur).
Proof using Type. intros Hp. unfold not_replayed. destruct (instance_predicate_holds _ _); [done|apply committed_ok]. Qed.
Lemma events_left_ok kv x now attempt rounds p cur rest : pending_ok kv x now p -> phase_ok kv x now (events_left attempt rounds p cur rest).
Proof using Type. intros Hp. destruct rest; [apply committed_ok|done]. Qed.
Lemma retry_ok kv x now attempt rounds p : pending_ok kv x now p -> phase_ok kv x now (retry_commit attempt rounds p).
Proof using Type. intros Hp. destruct rounds as [|[|n]]; [apply committed_ok|apply committed_ok|done]. Qed.

(** A step other than a transaction leaves the store alone. *)
Lemma call_step_ok kv c ph kv' :
  kv_ok kv -> valid_call (rc_call c) -> phase_ok kv (rc_call c) (rc_now c) (rc_phase c) -> step_fits evaluate resolve c kv ->
  call_step (rc_call c) (rc_now c) (rc_phase c) kv = (ph, kv') ->
  kv_ok kv' /\ advances kv kv' /\ phase_ok kv' (rc_call c) (rc_now c) ph.
Proof using Type.
  destruct c as [x now ph0]. cbn [rc_call rc_now rc_phase]. intros Hk Hv Hp Hf H. unfold step_fits in Hf. cbn [rc_call rc_phase] in Hf.
  destruct ph0; cbn [ApprovalStore.call_step phase_ok] in *.
  - destruct (call_key x) as [key|]; [destruct (load_idem _ _ _) as [|[]]|]; injection H as <- <-; (split_and!; [done|apply advances_refl|done]).
  - destruct (read_instance kv (call_id x)) as [|loaded] eqn:Hl; [injection H as <- <-; split_and!; [done|apply advances_refl|done]|].
    destruct (call_attempt x now loaded) as [r|e ev ex idem r] eqn:Ea; injection H as <- <-; (split_and!; [done|apply advances_refl|]); [done|].
    unfold begin_commit. destruct (_ || _); [done|]. cbn [phase_ok].
    assert (forall e0 rev, loaded = Some (e0, rev) -> bridge_inv e0 /\ inst_id (instance e0) = call_id x /\ 0 < rev <= kv_revision kv) as Hold.
    { intros e0 rev ->. unfold read_instance in Hl. destruct (kv_rows kv !! instance_key (call_id x)) as [row|] eqn:Hrow; [|done].
      destruct (ko_instance _ Hk _ _ Hrow) as (e1 & Hv1 & ? & ? & ?). rewrite Hv1 in Hl. by injection Hl as <- <-. }
    destruct (call_attempt_bridge x now loaded e ev ex idem r Hv Hf) as (Hb & Hid & -> & Hkey); [|done|].
    { intros e0 rev Hl0. by destruct (Hold e0 rev Hl0) as (? & ? & _). }
    constructor; cbn [pd_engine pd_events pd_expected pd_idem pd_result]; try done. destruct loaded as [[e0 rev]|]; [|done].
    cbn [expected_of snd]. destruct (Hold e0 rev eq_refl) as (_ & _ & Hm). split; [done|].
    intros row e1 Hrow Hmod Hval. unfold read_instance in Hl. rewrite Hrow, Hval in Hl. injection Hl as <- _. done.
  - destruct (read_instance kv _) as [|cur]; injection H as <- <-; (split_and!; [done|apply advances_refl|]); [done|].
    destruct (replay_matches _ _); [by apply events_left_ok|by apply not_replayed_ok].
  - destruct rest as [|r rest]; [injection H as <- <-; split_and!; [done|apply advances_refl|done]|].
    destruct (row_value <$> _) as [[]|]; injection H as <- <-; (split_and!; [done|apply advances_refl|]); try (by apply not_replayed_ok); done.
  - destruct (row_value <$> _) as [[]|]; injection H as <- <-; (split_and!; [done|apply advances_refl|]); try done;
      [by apply events_left_ok|by apply not_replayed_ok].
  - destruct (read_sequence kv _) as [cur bs]. injection H as <- <-. split_and!; [done|apply advances_refl|done].
  - destruct (kv_txn _ _ kv) as [[] kv2] eqn:Et; injection H as <- <-.
    + destruct (txn_kv_ok _ _ _ _ _ _ _ Hk Hp Et) as (? & ? & _). done.
    + destruct (txn_fails _ _ _ _ _ Hk Et) as (_ & _ & ? & ?). split_and!; try done. apply retry_ok.
      by apply (phase_advances kv kv2 x now (CRead 0 0 p)).
  - injection H as <- <-. split_and!; [done|apply advances_refl|done].
Qed.

Lemma others_ok kv kv' : kv_ok kv -> others_step kv kv' -> kv_ok kv' /\ advances kv kv'.
Proof using Type.
  intros [] [Hsame Hrev]. split; [constructor|split].
  - intros id row Hrow. rewrite Hsame in Hrow by apply instance_v4. destruct (ko_instance0 _ _ Hrow) as (e & ? & ? & ? & ?).
    exists e. split_and!; try done; lia.
  - intros id key row Hrow. rewrite Hsame in Hrow by apply idem_v4. by eapply ko_idem0.
  - intros k row Hk Hrow. rewrite Hsame in Hrow by done. by eapply ko_version0.
  - lia.
  - done.
  - intros id row Hrow. rewrite Hsame in Hrow by apply instance_v4. by left.
Qed.

Lemma calls_advance kv kv' s :
  advances kv kv' -> sys_kv s = kv -> sys_inv s -> forall i c, sys_calls s !! i = Some c ->
  valid_call (rc_call c) /\ phase_ok kv' (rc_call c) (rc_now c) (rc_phase c).
Proof using Type. intros Ha <- [_ Hc] i c Hi. destruct (Hc i c Hi) as [? ?]. split; [done|]. by eapply phase_advances. Qed.

Lemma sys_step_inv s l s' : sys_inv s -> sys_step s l s' -> sys_inv s'.
Proof using Type.
  intros Hs Hstep. pose proof Hs as [Hk Hc]. destruct Hstep as [x now s Hv|i c ph kv' s Hi Hf H|kv' s Ho].
  - constructor; [done|]. cbn [sys_kv sys_calls]. intros j c Hj. apply lookup_app_Some in Hj as [Hj|[_ Hj]]; [by apply (Hc j)|].
    apply list_lookup_singleton_Some in Hj as [_ <-]. split; [done|]. cbn. unfold start_phase. destruct x; try done.
    by destruct (resolve_seats _ _ _ _).
  - destruct (Hc i c Hi) as [Hv Hp]. destruct (call_step_ok _ _ _ _ Hk Hv Hp Hf H) as (Hk' & Ha & Hp').
    constructor; [done|]. cbn [sys_kv sys_calls]. intros j c' Hj. destruct (decide (i = j)) as [<-|Hne].
    + rewrite list_lookup_insert_eq in Hj by (by eapply lookup_lt_Some). by injection Hj as <-.
    + rewrite list_lookup_insert_ne in Hj by done. by eapply calls_advance.
  - destruct (others_ok _ _ Hk Ho) as [Hk' Ha]. constructor; [done|]. cbn [sys_kv sys_calls]. intros j c Hj. by eapply calls_advance.
Qed.

Definition empty_system : System := {| sys_kv := {| kv_rows := ∅; kv_revision := 0 |}; sys_calls := [] |}.

Lemma empty_inv : sys_inv empty_system.
Proof using Type.
  by constructor; [constructor|].
Qed.

Lemma sys_run_inv ls s : sys_run empty_system ls s -> sys_inv s.
Proof using Type.
  intros H. remember empty_system as s0. revert Heqs0. induction H as [s|s s1 s2 l ls Hr IH Hs]; intros ->; [apply empty_inv|].
  eapply sys_step_inv; [by apply IH|exact Hs].
Qed.

(** ** Stored instances *)

Lemma verdict_needs_vote rj jn t c r : valid_join jn -> verdict rj jn false t c r = Some RPassed -> 0 < c.
Proof using Type.
  intros Hj. unfold verdict. destruct (_ && _) eqn:E0; [done|]. destruct (Z.ltb_spec 0 t); cbn [andb]; [|done].
  destruct (Z.leb_spec t c); [lia|]. destruct (passes jn t c) eqn:Hp; [|by destruct (_ <=? _)]. intros _.
  destruct jn as [| |n|num den]; cbn in Hp, Hj; [done|apply Z.leb_le in Hp; lia|apply Z.leb_le in Hp; lia|]. apply Z.leb_le in Hp. nia.
Qed.

(** A round that passed has a vote for it. *)
Lemma passed_has_vote e k r :
  bridge_inv e -> rounds e !! k = Some r -> rd_status r = RPassed -> 0 < votes_in k DApprove e.
Proof using Type.
  intros [Hi Hv Hj _ _] Hr Hp. destruct (inv_round _ _ Hi _ _ Hr) as (_ & _ & x & Hx & _).
  pose proof (inv_verdict _ _ Hi _ _ _ Hr Hx ltac:(done)) as Hd. destruct (inv_counts _ _ Hi _ _ Hr ltac:(done)) as (Hc & _ & _).
  unfold round_decided in Hd. rewrite Hp in Hd.
  rewrite bool_decide_eq_false_2 in Hd.
  - rewrite <- (proj1 (seats_votes None e k Hi)), <- Hc. eapply verdict_needs_vote; [by eapply Hj|exact Hd].
  - destruct (Hv k) as (id & t & Ht & Hin & _); [by eexists|]. intros Hz. unfold seats in Hz.
    pose proof (proj1 (cnt_zero _ _) Hz id t Ht) as Hf. cbn in Hf. by rewrite Hin in Hf.
Qed.

Lemma stored_bridge ls s id e rev :
  sys_run empty_system ls s -> read_instance (sys_kv s) id = inr (Some (e, rev)) -> bridge_inv e /\ inst_id (instance e) = id.
Proof using Type.
  intros H%sys_run_inv Hr. destruct H as [Hk _]. unfold read_instance in Hr.
  destruct (kv_rows (sys_kv s) !! instance_key id) as [row|] eqn:Hrow; [|done].
  destruct (ko_instance _ Hk _ _ Hrow) as (e0 & Hv & ? & ? & _). rewrite Hv in Hr. by injection Hr as <- <-.
Qed.

(** C12: stored instances are sound.  However calls interleave, what the store
    holds under an identity is an instance of that identity with at most one
    open branch, and a closed one once the instance has ended.  A round that
    passed has at least one vote for it, cast by a seat of the round.  Every
    vote was cast by its seat's assignee or delegate, and on a node that
    forbids it none by the one who started the workflow. *)
Theorem stored_instances_sound ls s id e rev :
  sys_run empty_system ls s -> read_instance (sys_kv s) id = inr (Some (e, rev)) ->
  inst_id (instance e) = id /\
  (forall k x k' x', branches e !! k = Some x -> branches e !! k' = Some x' ->
     br_status x = BOpen -> br_status x' = BOpen -> k = k' /\ inst_status (instance e) = IRunning) /\
  (forall k r, rounds e !! k = Some r -> rd_status r = RPassed -> 0 < votes_in k DApprove e) /\
  (forall k t v, tasks e !! k = Some t -> v ∈ votes t -> entitled t v) /\
  (forall k t x v, tasks e !! k = Some t -> branches e !! task_branch t = Some x -> v ∈ votes t ->
     allow_self_approve (policy x) = false -> initiator (instance e) <> anonymous -> vote_actor v <> initiator (instance e)).
Proof using Type.
  intros H Hr. destruct (stored_bridge _ _ _ _ _ H Hr) as [Hb Hid]. pose proof Hb as [Hi _ _ Hs _]. split_and!; [done|..].
  - intros k x k' x' Hx Hx' Ho Ho'. split; [by eapply (inv_one_open _ _ Hi)|]. by apply (inv_branch _ _ Hi _ _ Hx).
  - intros k r. by apply passed_has_vote.
  - intros k t v Ht Hv. destruct (inv_task _ _ Hi _ _ Ht) as (_ & _ & [_ Hst] & _).
    assert (votes t = [] \/ exists d, cast t d) as [E|(d & v0 & E & _ & _ & He)].
    { destruct (task_status t); try (destruct Hst as [? ?]); try (by left); [|right; eauto]. destruct (kind t); [right; eauto|by left]. }
    + rewrite E in Hv. by apply elem_of_nil in Hv.
    + rewrite E in Hv. by apply list_elem_of_singleton in Hv as ->.
  - intros k t x v Ht Hx Hv Ha Hn E. destruct (Hs k t x v Ht Hx Hv) as [?|[?|?]]; [done|done|congruence].
Qed.

(** C10: updates are serial.  A step that changes a stored instance is the
    commit of a call that has computed the new state from exactly the state
    that was stored before the step; no other instance changes.  So no update is
    lost and none is applied to a state that is out of date. *)
Theorem updates_are_serial ls s l s' id :
  sys_run empty_system ls s -> sys_step s l s' ->
  read_instance (sys_kv s') id = read_instance (sys_kv s) id \/
  exists i c loaded e events idem r,
    sys_calls s !! i = Some c /\ call_id (rc_call c) = id /\ read_instance (sys_kv s) id = inr loaded /\
    call_attempt (rc_call c) (rc_now c) loaded = Commit e events (expected_of loaded) idem r /\
    read_instance (sys_kv s') id = inr (Some (e, kv_revision (sys_kv s'))).
Proof using Type.
  intros Hrun%sys_run_inv Hstep. destruct Hrun as [Hk Hc].
  destruct Hstep as [x now s Hv|i c ph kv' s Hi Hf H|kv' s [Hsame _]]; cbn [sys_kv]; [by left| |left].
  - destruct (Hc i c Hi) as [Hv Hp].
    destruct (rc_phase c) as [a|a|a n p|a n p cur rest|a n p cur key rest|a n p|a n p cur bs|r] eqn:Eph; cbn [ApprovalStore.call_step] in H.
    7: { destruct (kv_txn _ _ _) as [[] kv2] eqn:Et; injection H as _ <-.
         - destruct (txn_commits _ _ _ _ _ _ _ Hk Hp Et) as ((loaded & Hl & _ & Ha) & _).
           destruct (txn_kv_ok _ _ _ _ _ _ _ Hk Hp Et) as (_ & _ & Hnew & Hother).
           destruct (decide (id = call_id (rc_call c))) as [->|Hne]; [right|left; by apply Hother].
           exists i, c, loaded, (pd_engine p), (pd_events p), (pd_idem p), (pd_result p). done.
         - destruct (txn_fails _ _ _ _ _ Hk Et) as (E & _). left. unfold read_instance. by rewrite E. }
    all: left; repeat case_match; by simplify_eq.
  - unfold read_instance. by rewrite Hsame by apply instance_v4.
Qed.

(** ** Idempotency *)

Definition recorded (kv : Kv) (ik : Id * bytes) : Prop := is_Some (kv_rows kv !! idem_key ik.1 ik.2).

(** The label of a step: its key was free before and is taken after it. *)
Lemma written_key_spec s i c ph kv' :
  sys_inv s -> sys_calls s !! i = Some c -> call_step (rc_call c) (rc_now c) (rc_phase c) (sys_kv s) = (ph, kv') ->
  (forall ik, recorded (sys_kv s) ik -> recorded kv' ik) /\
  (forall ik, written_key (rc_phase c) (sys_kv s) = Some ik -> ~ recorded (sys_kv s) ik /\ recorded kv' ik) /\
  (forall key, kv_rows kv' <> kv_rows (sys_kv s) -> call_key (rc_call c) = Some key ->
     written_key (rc_phase c) (sys_kv s) = Some (call_id (rc_call c), key)).
Proof using Type.
  intros [Hk Hc] Hi H. destruct (Hc i c Hi) as [_ Hp].
  destruct (rc_phase c) as [a|a|a n p|a n p cur rest|a n p cur key rest|a n p|a n p cur bs|r] eqn:Eph; cbn [ApprovalStore.call_step] in H.
  7: { cbn [written_key]. destruct (kv_txn _ _ _) as [[] kv2] eqn:Et; injection H as _ <-.
       - destruct (txn_commits _ _ _ _ _ _ _ Hk Hp Et) as (_ & Hfree & _ & Hrows). pose proof Hp as [Hid _ Hkey _].
         destruct (commit_rows p cur (kv_revision (sys_kv s) + 1) (kv_rows (sys_kv s))) as (_ & R2 & R3). rewrite <- Hrows in R2, R3.
         unfold kv_txn in Et. destruct (forallb _ _); [|done]. split_and!.
         + intros ik Hik. unfold recorded in *. destruct (pd_idem p) as [r|] eqn:Er.
           * destruct (decide (idem_key ik.1 ik.2 = idem_key (inst_id (instance (pd_engine p))) (idem_name r))) as [->|Hne]; [rewrite (R3 r eq_refl); by eexists|].
             rewrite R2; [done|apply idem_v4|by intros E; symmetry in E; apply instance_not_idem in E|by intros r' [= <-]].
           * rewrite R2; [done|apply idem_v4|by intros E; symmetry in E; apply instance_not_idem in E|done].
         + intros ik E. destruct (pd_idem p) as [r|] eqn:Er; [|done]. injection E as <-. unfold recorded. cbn [fst snd].
           rewrite (R3 r eq_refl), Hid, (Hfree r eq_refl). split; [by intros [? ?]|by eexists].
         + intros key _ Ek. rewrite Ek in Hkey. destruct (pd_idem p) as [r|]; [|done]. injection Hkey as <-. cbn. by rewrite Hid.
       - unfold kv_txn in Et. destruct (forallb _ _); [done|]. injection Et as <-. split_and!; done. }
  all: repeat case_match; simplify_eq; by split_and!.
Qed.

(** C11: a command with an idempotency key takes effect at most once.  In a run
    with any number of calls that carry the same key for the same instance, at
    most one of them ever writes; the key is recorded with that write, stays
    recorded, and every call that looks it up afterwards is answered with the
    recorded response instead of running. *)
Theorem commands_at_most_once ls s :
  sys_run empty_system ls s ->
  NoDup ls /\
  (forall i c ph kv' key, sys_calls s !! i = Some c -> call_key (rc_call c) = Some key ->
     call_step (rc_call c) (rc_now c) (rc_phase c) (sys_kv s) = (ph, kv') -> kv_rows kv' <> kv_rows (sys_kv s) ->
     written_key (rc_phase c) (sys_kv s) = Some (call_id (rc_call c), key) /\ (call_id (rc_call c), key) ∉ ls) /\
  (forall i c n key, sys_calls s !! i = Some c -> rc_phase c = PIdem n -> call_key (rc_call c) = Some key ->
     (call_id (rc_call c), key) ∈ ls ->
     exists response, call_step (rc_call c) (rc_now c) (rc_phase c) (sys_kv s) = (PDone (inr (RCommand (Duplicate response))), sys_kv s)).
Proof using Type.
  intros Hrun. assert (NoDup ls /\ forall ik, ik ∈ ls -> recorded (sys_kv s) ik) as [Hnd Hrec].
  { remember empty_system as s0. revert Heqs0. induction Hrun as [s|s s1 s2 l ls Hr IH Hs]; intros ->.
    - split; [constructor|]. by intros ik ?%elem_of_nil.
    - destruct (IH eq_refl) as [Hnd Hrec]. pose proof (sys_run_inv _ _ Hr) as Hinv.
      destruct Hs as [x now s1 Hv|i c ph kv' s1 Hi Hf H|kv' s1 [Hsame _]]; cbn [option_list sys_kv] in *; rewrite ?app_nil_r; [done| |].
      + destruct (written_key_spec _ _ _ _ _ Hinv Hi H) as (W1 & W2 & _). destruct (written_key _ _) as [ik|]; cbn [option_list].
        * destruct (W2 ik eq_refl) as [Hn Hy]. split.
          -- apply NoDup_app. split; [done|]. split; [|apply NoDup_singleton]. intros ik' Hin ->%list_elem_of_singleton. by apply Hn, Hrec.
          -- intros ik' [Hin| ->%list_elem_of_singleton]%elem_of_app; auto.
        * rewrite app_nil_r. auto.
      + split; [done|]. intros ik Hin. unfold recorded. rewrite Hsame by apply idem_v4. by apply Hrec. }
  pose proof (sys_run_inv _ _ Hrun) as Hinv. split_and!; [done|..].
  - intros i c ph kv' key Hi Hkey H Hne. destruct (written_key_spec _ _ _ _ _ Hinv Hi H) as (_ & W2 & W3). specialize (W3 key Hne Hkey).
    split; [done|]. intros Hin. by apply (W2 _ W3), Hrec.
  - intros i c n key Hi Hph Hkey Hin. rewrite Hph. cbn [ApprovalStore.call_step]. rewrite Hkey. destruct (Hrec _ Hin) as [row Hrow].
    unfold load_idem. cbn [fst snd] in Hrow. rewrite Hrow. destruct (ko_idem _ (si_kv _ Hinv) _ _ _ Hrow) as [r ->]. eauto.
Qed.

(** ** Termination *)

(** [ph'] comes after [ph], whatever the store holds at that moment. *)
Definition next (x : Call) (now : Z) (ph' ph : Phase) : Prop :=
  (forall r, ph <> PDone r) /\ exists kv, (call_step x now ph kv).1 = ph'.

(** The accesses a commit may still make: a turn of its loop takes at most
    [5 + 2 * n] of them for [n] events. *)
Definition turn (p : Pending) : nat := 5 + 2 * length (pd_events p).
Definition commit_left (ph : Phase) : option (nat * nat) :=
  match ph with
  | CRead a n p => Some (a, n * turn p + 4 + 2 * length (pd_events p))%nat
  | CEvents a n p _ rest => Some (a, n * turn p + 3 + 2 * length rest)%nat
  | CRecord a n p _ _ rest => Some (a, n * turn p + 4 + 2 * length rest)%nat
  | CSequence a n p => Some (a, n * turn p + 1)%nat
  | CTxn a n p _ _ => Some (a, n * turn p)%nat
  | _ => None
  end.

(** What follows an access of a commit: the end, another attempt, or less of
    the commit. *)
Definition follows (a m : nat) (ph : Phase) : Prop :=
  (exists r, ph = PDone r) \/ ((a < MAX_COMMIT_ATTEMPTS)%nat /\ ph = PIdem (S a)) \/
  exists m', commit_left ph = Some (a, m') /\ (m' < m)%nat.

Lemma committed_follows a m p ok : follows a m (committed a p ok).
Proof using Type.
  unfold committed, follows. destruct ok; [left; by eexists|]. destruct (Nat.leb_spec MAX_COMMIT_ATTEMPTS a); [left; by eexists|by right; left].
Qed.
Lemma not_replayed_follows a n p cur m : (n * turn p + 1 < m)%nat -> follows a m (not_replayed a n p cur).
Proof using Type.
  intros Hm. unfold not_replayed. destruct (instance_predicate_holds _ _); [|apply committed_follows]. right; right. by eexists.
Qed.
Lemma events_left_follows a n p cur rest m : (n * turn p + 3 + 2 * length rest < m)%nat -> follows a m (events_left a n p cur rest).
Proof using Type. intros Hm. destruct rest; [apply committed_follows|]. right; right. by eexists. Qed.

Lemma commit_step x now ph kv a m : commit_left ph = Some (a, m) -> follows a m (call_step x now ph kv).1.
Proof using Type.
  assert (forall r, follows a m (PDone r)) as Hdone by (intros r; left; by eexists).
  destruct ph; cbn [commit_left ApprovalStore.call_step]; intros [= <- <-].
  - destruct (read_instance _ _) as [|cur]; [apply Hdone|]. cbn [fst].
    destruct (replay_matches _ _); [apply events_left_follows|apply not_replayed_follows]; lia.
  - destruct rest as [|r rest]; [apply committed_follows|].
    destruct (row_value <$> _) as [[]|]; try (apply not_replayed_follows; cbn; lia). right; right. cbn. eexists. split; [done|lia].
  - destruct (row_value <$> _) as [[]|]; cbn [fst]; try apply Hdone; [apply events_left_follows|apply not_replayed_follows]; lia.
  - destruct (read_sequence _ _). right; right. cbn. eexists. split; [done|lia].
  - destruct (kv_txn _ _ _) as [[] kv']; cbn [fst]; [apply committed_follows|]. destruct rounds as [|[|n]]; try apply committed_follows.
    right; right. cbn [retry_commit commit_left]. eexists. split; [done|]. unfold turn. lia.
Qed.

Lemma done_acc x now r : Acc (next x now) (PDone r).
Proof using Type. constructor. intros ph [Hn _]. by destruct (Hn r). Qed.

Lemma commit_acc x now a :
  ((a < MAX_COMMIT_ATTEMPTS)%nat -> Acc (next x now) (PIdem (S a))) ->
  forall m ph, commit_left ph = Some (a, m) -> Acc (next x now) ph.
Proof using Type.
  intros Hnext m. induction (lt_wf m) as [m _ IH]. intros ph Hph. constructor. intros ph' [_ [kv <-]].
  destruct (commit_step x now ph kv a m Hph) as [[r ->]|[[Ha ->]|(m' & Hm' & Hlt)]]; [apply done_acc|auto|by eapply IH].
Qed.

Lemma attempt_acc x now a :
  ((a < MAX_COMMIT_ATTEMPTS)%nat -> Acc (next x now) (PIdem (S a))) ->
  Acc (next x now) (PIdem a) /\ Acc (next x now) (PLoad a) /\ forall m ph, commit_left ph = Some (a, m) -> Acc (next x now) ph.
Proof using Type.
  intros Hn. pose proof (commit_acc x now a Hn) as Hc. assert (Acc (next x now) (PLoad a)) as Hl; [|split_and!; [|exact Hl|exact Hc]].
  - constructor. intros ph [_ [kv <-]]. cbn. destruct (read_instance _ _); [apply done_acc|].
    destruct (call_attempt _ _ _); [apply done_acc|]. cbn. unfold begin_commit. destruct (_ || _); [apply done_acc|]. by eapply Hc.
  - constructor. intros ph [_ [kv <-]]. cbn. destruct (call_key x) as [key|]; [|exact Hl].
    destruct (load_idem _ _ _) as [|[]]; [apply done_acc|apply done_acc|exact Hl].
Qed.

(** C19: calls terminate.  Whatever other clients do to the store between any
    two accesses of a call, the call makes only finitely many of them: no
    sequence of its steps is infinite. *)
Theorem calls_terminate x now : well_founded (next x now).
Proof using Type.
  assert (forall k a, (MAX_COMMIT_ATTEMPTS - a <= k)%nat -> Acc (next x now) (PIdem a)) as Hidem.
  { intros k. induction k as [|k IH]; intros a Ha; apply attempt_acc; intros; [lia|apply IH; lia]. }
  intros ph. assert (forall a, Acc (next x now) (PIdem (S a))) as Hn by (intros a; by eapply Hidem).
  destruct ph; [..|apply done_acc]; destruct (attempt_acc x now attempt (fun _ => Hn attempt)) as (H1 & H2 & H3); [done|done|..]; by eapply H3.
Qed.

(** ** A call alone *)

Lemma expire_all_known ids now e o e' : expire_all ids now e = (inr o, e') -> forallb known o = true.
Proof using Type.
  revert e o. induction ids as [|id ids IH]; intros e o H; cbn [expire_all] in H; [by apply ret_inr in H as [-> _]|].
  apply bind_inr in H as (e0 & e1 & _ & H). apply bind_inr in H as (o1 & e2 & H1 & H). apply bind_ret in H as (os & H & ->).
  rewrite forallb_app. apply andb_true_iff. split; [|by eapply IH]. by eapply (run_command_known (Expire id)).
Qed.
Lemma open_node_known nd task ss pl dl now e o e' : open_node nd task ss pl dl now e = (inr o, e') -> forallb known o = true.
Proof using Type.
  intros H. unfold open_node in H. apply bind_inr in H as (e0 & e1 & _ & H). apply bind_inr in H as (r & e2 & H1 & H).
  apply bind_inr in H as (e3 & e4 & _ & H). apply bind_ret in H as (r' & H & ->). rewrite forallb_app. apply andb_true_iff. split.
  - eapply (run_command_known (EnterBranch nd None (mode task) (to_reject task) pl)). cbn [run_command]. cbv [mbind M_bind]. by rewrite H1.
  - eapply (run_command_known (OpenApproval r.1 ss dl)). cbn [run_command]. cbv [mbind M_bind]. by rewrite H.
Qed.

(** The records of a commit. *)
Lemma call_records x now loaded e events ex idem r :
  (forall e0 rev, loaded = Some (e0, rev) -> inst_id (instance e0) = call_id x) ->
  call_attempt x now loaded = Commit e events ex idem r ->
  forall i rc, events !! i = Some rc -> aggregate_id rc = call_id x /\
    rec_id rc = event_id (call_id x) (revision (instance e)) (Z.of_nat i) /\ rec_type rc ∈ APPROVAL_EVENT_TYPES.
Proof using Type.
  intros Hl H. assert (exists o, forallb known o = true /\ effects_to_records (call_id x) o (revision (instance e)) now = inr events) as (o & Ho & E).
  { destruct x; unfold ApprovalBridge.call_attempt in H.
    - unfold command_attempt in H. destruct loaded as [[e0 rev]|]; [|done]. apply commit_run_inv in H as (o & Hrun & E & _).
      exists o. split; [|exact E]. unfold acting in Hrun. destruct (apply_command _ _ _ _) as [res e1] eqn:Ea. injection Hrun as -> _.
      by eapply apply_command_known.
    - destruct (resolve_seats _ _ _ _); [done|]. unfold ensure_attempt in H. destruct loaded as [[e0 rev]|].
      + destruct (node_is_open _ _); [done|]. apply commit_run_inv in H as (o & Hrun & E & _). rewrite (Hl e0 rev eq_refl) in E.
        exists o. split; [|exact E]. by eapply open_node_known.
      + destruct (start _ _) as [|e0] eqn:Es; [done|]. apply start_bridge in Es as (_ & Hid & _). apply commit_run_inv in H as (o & Hrun & E & _).
        rewrite Hid in E. exists o. split; [|exact E]. by eapply open_node_known.
    - unfold expire_attempt in H. destruct loaded as [[e0 rev]|]; [|done]. destruct (bool_decide _); [done|].
      apply commit_run_inv in H as (o & Hrun & E & _). exists o. split; [|exact E]. by eapply expire_all_known.
    - unfold finish_attempt in H. destruct loaded as [[e0 rev]|]; [|done]. destruct (_ || _); [done|]. destruct (negb _); [done|].
      apply commit_run_inv in H as (o & Hrun & E & _). exists o. split; [|exact E]. by eapply (run_command_known Finish).
    - unfold terminate_attempt in H. destruct loaded as [[e0 rev]|]; [|done]. apply commit_run_inv in H as (o & Hrun & E & _).
      exists o. split; [|exact E]. apply bind_inr in Hrun as (u & e1 & _ & Hrun). apply bind_inr in Hrun as (e2 & e3 & _ & Hrun).
      by eapply (run_command_known (Terminate actor reason)). }
  destruct (records_known (call_id x) o (revision (instance e)) now 0 Ho) as (events' & E' & Hev). unfold effects_to_records in E.
  replace events' with events in Hev by congruence. exact Hev.
Qed.

Lemma commit_begins x now kv loaded e events ex idem r a :
  kv_ok kv -> valid_call x -> fits evaluate resolve x loaded -> read_instance kv (call_id x) = inr loaded ->
  call_attempt x now loaded = Commit e events ex idem r -> Z.of_nat (length events) < u64_modulus ->
  let p := {| pd_engine := e; pd_events := events; pd_expected := ex; pd_idem := idem; pd_result := r |} in
  pending_ok kv x now p /\ ex = expected_of loaded /\ call_step x now (PLoad a) kv = (CRead a COMMIT_RETRY_LIMIT p, kv).
Proof using Type.
  intros Hk Hv Hf Hl Ha Hlen p.
  pose proof (call_step_ok kv {| rc_call := x; rc_now := now; rc_phase := PLoad a |} (begin_commit a p) kv Hk Hv I) as Hstep.
  cbn [rc_call rc_now rc_phase ApprovalStore.call_step] in *. rewrite Hl, Ha in *.
  assert (forall e0 rev, loaded = Some (e0, rev) -> bridge_inv e0 /\ inst_id (instance e0) = call_id x /\ 0 < rev) as Hold.
  { intros e0 rev ->. unfold read_instance in Hl. destruct (kv_rows kv !! instance_key (call_id x)) as [row|] eqn:Hrow; [|done].
    destruct (ko_instance _ Hk _ _ Hrow) as (e1 & Hv1 & ? & ? & ? & _). rewrite Hv1 in Hl. by injection Hl as <- <-. }
  destruct (call_attempt_bridge x now loaded e events ex idem r Hv Hf) as (Hb & Hid & Hex & Hkey); [|done|].
  { intros e0 rev E. by destruct (Hold e0 rev E) as (? & ? & _). }
  assert (begin_commit a p = CRead a COMMIT_RETRY_LIMIT p) as Hbegin.
  { pose proof (call_records x now loaded e events ex idem r) as Hr.
    assert (rev_allowed ex = true) as R1.
    { rewrite Hex. destruct loaded as [[e0 rev]|]; [|done]. cbn. destruct (Hold e0 rev eq_refl) as (_ & _ & Hpos).
      by destruct (Z.eqb_spec rev 0); [lia|]. }
    assert (aggregates_match e events = true) as R2.
    { assert (forall i rc, events !! i = Some rc -> aggregate_id rc = call_id x /\
        rec_id rc = event_id (call_id x) (revision (instance e)) (Z.of_nat i) /\ rec_type rc ∈ APPROVAL_EVENT_TYPES) as Hev
        by (apply Hr; [intros e0 rev E; by destruct (Hold e0 rev E) as (_ & ? & _)|done]).
      unfold aggregates_match. apply andb_true_iff. split.
      - apply forallb_forall. intros rc [i Hi]%list_elem_of_In%list_elem_of_lookup. destruct (Hev i rc Hi) as (-> & _). rewrite Hid.
        by destruct (bytes_eqb_spec (call_id x) (call_id x)).
      - apply (records_distinct (call_id x) (revision (instance e)) 0); [apply (bi_revision _ Hb)|lia|lia|]. intros i rc Hi. by apply Hev. }
    unfold begin_commit. cbn [p pd_expected pd_engine pd_events]. by rewrite R1, R2. }
  destruct Hstep as (_ & _ & Hp); [unfold step_fits; cbn [rc_call rc_phase]; by rewrite Hl|done|]. rewrite Hbegin in Hp.
  split_and!; [done|done|]. exact (f_equal (fun ph => (ph, kv)) Hbegin).
Qed.

Abbreviation run_alone := (run_alone evaluate duration_ms resolve).

Lemma run_alone_done n x now r kv : run_alone n x now (PDone r) kv = (PDone r, kv).
Proof using Type. by induction n. Qed.

(** What may be in the way of a commit that is alone. *)
Record clear (kv : Kv) (x : Call) (events : list OutboxRecord) : Prop := {
  cl_key : forall key, call_key x = Some key -> kv_rows kv !! idem_key (call_id x) key = None;
  cl_sequence : forall row, kv_rows kv !! seq_key (call_id x) = Some row -> exists t, row_value row = DText t;
  cl_events : forall rc, rc ∈ events -> kv_rows kv !! id_key (rec_id rc) = None }.

Lemma predicate_of_loaded loaded : instance_predicate_holds (expected_of loaded) loaded = true.
Proof using Type. destruct loaded as [[e rev]|]; cbn; [apply Z.eqb_refl|done]. Qed.

Lemma compares_hold kv x now p loaded cur cur_bytes :
  pending_ok kv x now p -> clear kv x (pd_events p) -> read_instance kv (call_id x) = inr loaded -> pd_expected p = expected_of loaded ->
  read_sequence kv (call_id x) = (cur, cur_bytes) -> forallb (holds kv) (commit_compares p cur_bytes) = true.
Proof using Type.
  intros [Hid _ Hkey _] [Ck Cs Ce] Hl Hex Hseq. unfold commit_compares. rewrite Hid, !forallb_app, !andb_true_iff. split_and!.
  - unfold outbox_compares. destruct (pd_events p) as [|r0 evs] eqn:Eev; [done|]. rewrite <- Eev in *. cbn [forallb]. apply andb_true_iff. split.
    + cbn [holds]. unfold read_sequence in Hseq. destruct (kv_rows kv !! seq_key (call_id x)) as [row|] eqn:Hrow; cbn [fmap option_fmap option_map].
      * destruct (Cs row eq_refl) as [t Ht]. destruct row as [v ver md]. cbn [row_value] in *. subst v. injection Hseq as _ <-. by destruct (bytes_eqb_spec t t).
      * injection Hseq as _ <-. done.
    + apply forallb_forall. intros c (rc & -> & Hrc)%list_elem_of_In%list_elem_of_fmap. cbn [holds]. by rewrite (Ce rc Hrc).
  - cbn [forallb]. rewrite andb_true_r, Hex. unfold read_instance in Hl.
    destruct (kv_rows kv !! instance_key (call_id x)) as [row|] eqn:Hrow.
    + destruct (row_value row); try done. injection Hl as <-. cbn [expected_of snd]. unfold instance_predicate, holds. rewrite Hrow. apply Z.eqb_refl.
    + injection Hl as <-. unfold expected_of, instance_predicate, holds. by rewrite Hrow.
  - destruct (pd_idem p) as [r|]; [|done]. cbn [forallb]. rewrite andb_true_r. unfold holds. by rewrite (Ck (idem_name r)).
Qed.

Lemma commit_alone kv x now p loaded a n :
  kv_ok kv -> pending_ok kv x now p -> clear kv x (pd_events p) -> read_instance kv (call_id x) = inr loaded -> pd_expected p = expected_of loaded ->
  exists kv', run_alone (S (S n)) x now (CSequence a COMMIT_RETRY_LIMIT p) kv = (PDone (inr (pd_result p)), kv') /\
    read_instance kv' (call_id x) = inr (Some (pd_engine p, kv_revision kv')) /\
    (forall key, call_key x = Some key -> recorded kv' (call_id x, key)).
Proof using Type.
  intros Hk Hp Hc Hl Hex. cbn [ApprovalStore.run_alone ApprovalStore.call_step]. rewrite (po_id _ _ _ _ Hp).
  destruct (read_sequence kv (call_id x)) as [cur bs] eqn:Hseq.
  pose proof (compares_hold _ _ _ _ _ _ _ Hp Hc Hl Hex Hseq) as Hall. cbn [ApprovalStore.call_step].
  destruct (kv_txn (commit_compares p bs) (commit_puts p cur) kv) as [ok kv'] eqn:Et.
  assert (ok = true) as -> by (unfold kv_txn in Et; rewrite Hall in Et; congruence).
  destruct (txn_kv_ok _ _ _ _ _ _ _ Hk Hp Et) as (_ & _ & Hnew & _). cbn [committed]. rewrite run_alone_done. exists kv'. split_and!; [done|done|].
  intros key Hkey. destruct (txn_commits _ _ _ _ _ _ _ Hk Hp Et) as (_ & _ & _ & Hrows). unfold recorded. cbn [fst snd]. rewrite Hrows.
  pose proof (po_key _ _ _ _ Hp) as Ek. rewrite Hkey in Ek. destruct (pd_idem p) as [r|] eqn:Er; [|done]. injection Ek as <-.
  destruct (commit_rows p cur (kv_revision kv + 1) (kv_rows kv)) as (_ & _ & R3). rewrite (po_id _ _ _ _ Hp) in R3. rewrite (R3 r Er). by eexists.
Qed.

End calls.

(** ** Expiry *)

Lemma expire_all_app ids1 ids2 now e o e1 :
  expire_all ids1 now e = (inr o, e1) ->
  expire_all (ids1 ++ ids2) now e = (os ← expire_all ids2 now; mret (o ++ os)) e1.
Proof.
  revert e o. induction ids1 as [|id ids1 IH]; intros e o H; cbn [expire_all app] in H |- *.
  - apply ret_inr in H as [-> ->]. cbv [mbind M_bind mret M_ret]. by destruct (expire_all ids2 now e) as [[|] ?].
  - apply bind_inr in H as (e0 & e2 & Hg & H). apply get_inr in Hg as [-> ->]. apply bind_inr in H as (o1 & e2 & H1 & H).
    apply bind_ret in H as (os & H & ->). cbv [mbind M_bind get]. rewrite H1. rewrite (IH e2 os H). cbv [mbind M_bind mret M_ret].
    destruct (expire_all ids2 now e1) as [[|os'] e3]; [done|]. by rewrite app_assoc.
Qed.

Lemma expire_closed now e id t :
  tasks e !! id = Some t -> is_open (task_status t) = false -> expire (revision (instance e)) id now e = (inl InvalidTransition, e).
Proof.
  intros Ht Ho. unfold expire, guard, get_task, found. cbv [mbind M_bind get ensure mret M_ret fail]. rewrite Z.eqb_refl.
  destruct (negb (is_terminal _)); [|done]. by rewrite Ht, Ho.
Qed.

(** An expiry that decides the round blocks itself.  When some of the due
    seats, once expired, close another seat that is due, because they leave the
    round decided, [expire_due] runs into the closed seat and gives up with
    [InvalidTransition]: it commits nothing, and the seats are as due as
    before. *)
Theorem expiry_blocks_itself approval_id rev now e ids id ids' o e1 t :
  due_tasks now e = ids ++ id :: ids' -> expire_all ids now e = (inr o, e1) ->
  tasks e1 !! id = Some t -> is_open (task_status t) = false ->
  expire_attempt approval_id now (Some (e, rev)) = Stop (inl BInvalidTransition).
Proof.
  intros Hd H1 Ht Ho. unfold expire_attempt. rewrite Hd, bool_decide_eq_false_2 by (by destruct ids).
  rewrite (expire_all_app _ _ _ _ _ _ H1). cbn [expire_all]. cbv [mbind M_bind get]. by rewrite (expire_closed now e1 id t Ht Ho).
Qed.

(** An instance that has ended opens no node. *)
Lemma ended_opens_nothing wf nd task ss dl now e rev :
  is_terminal (inst_status (instance e)) = true -> node_is_open nd e = false ->
  ensure_attempt wf nd task ss dl now (Some (e, rev)) = Stop (inl BInvalidTransition).
Proof.
  intros Ht Ho. unfold ensure_attempt. rewrite Ho. unfold commit_run, open_node, enter_branch, guard.
  cbv [mbind M_bind get ensure mret M_ret fail]. by rewrite Z.eqb_refl, Ht.
Qed.
