(* ===== verification/Outbox.v ===== *)
(** * The outbox and its relay

    [KvOutboxStore] of [coord-agent/src/services/outbox_kv.rs] and the contract,
    the backoff and the relay of [coord-core/src/workflow/durable.rs].  Clients
    commit batches of events with their state; a relay polls the events that are
    due, hands them to a sink, and marks them delivered, to be tried again, or
    dead; in the end it deletes what has been settled for long enough.  Relay and
    [append] are machines that make one access to the store at a time.  The
    store and its keys are those of [ApprovalStore]. *)

From S2P Require Export ApprovalStore.

Local Open Scope Z_scope.

#[export] Instance OutboxStatus_eq_dec : EqDecision OutboxStatus.
Proof. solve_decision. Defined.
#[export] Instance OutboxRecord_eq_dec : EqDecision OutboxRecord.
Proof. solve_decision. Defined.

(** ** Transactions that also delete *)

Inductive KvOp :=
  | OpPut (key : bytes) (d : Doc)
  | OpDel (key : bytes).

Definition apply_op (rev : Z) (rows : gmap bytes KvRow) (op : KvOp) : gmap bytes KvRow :=
  match op with OpPut key d => put_row rev rows (key, d) | OpDel key => base.delete key rows end.

Definition apply_ops (ops : list KvOp) (kv : Kv) : Kv :=
  {| kv_rows := foldl (apply_op (kv_revision kv + 1)) (kv_rows kv) ops; kv_revision := kv_revision kv + 1 |}.

(** ** Reads *)

Definition records_prefix : bytes := b "/_workflow/v3/outbox/records/".
Definition pending_prefix : bytes := b "/_workflow/v3/outbox/pending/".

(** [str::parse::<i64>]. *)
Definition parse_i64 (x : bytes) : option Z :=
  match x with
  | [] => None
  | c :: r =>
    if decide (c = x2d) then
      match r with [] => None | _ => n ← foldl parse_digit (Some 0) r; if n <=? 2 ^ 63 then Some (- n) else None end
    else n ← parse_u64 x; if n <? 2 ^ 63 then Some n else None
  end.

(** A range without limit is cut off by the server after [window] rows. *)
Definition kv_range (window : nat) (prefix : bytes) (kv : Kv) : list (bytes * KvRow) :=
  take window (List.filter (fun x => starts_with x.1 prefix) (entries (kv_rows kv))).

(** The time in the key of an entry of the pending index. *)
Definition pending_time (key : bytes) : option Z :=
  '(ts, _) ← split_once x3a (drop (length pending_prefix) key); parse_i64 ts.

(** [n] is how many records are still wanted. *)
Fixpoint pending_loop (now : Z) (n : nat) (rows : list (bytes * KvRow)) : list OutboxRecord :=
  match rows with
  | [] => []
  | (key, row) :: rows =>
    match pending_time key with
    | None => pending_loop now n rows
    | Some next_at =>
      if now <? next_at then []
      else
        match row_value row with
        | DRecord r =>
          if bool_decide (rec_status r = OsPending)
          then r :: (if (n <=? 1)%nat then [] else pending_loop now (n - 1) rows)
          else pending_loop now n rows
        | _ => pending_loop now n rows
        end
    end
  end.

Definition pending (window : nat) (now : Z) (limit : nat) (kv : Kv) : list OutboxRecord :=
  pending_loop now limit (kv_range window pending_prefix kv).

(** ** Marks *)

Inductive Mark :=
  | MDelivered (at_ms : Z)
  | MRetry (attempts next : Z)
  | MDead (attempts : Z).

Definition change_record (s : OutboxStatus) (attempts next : Z) (delivered : option Z) (r : OutboxRecord) : OutboxRecord :=
  {| rec_id := rec_id r; aggregate_id := aggregate_id r; sequence := sequence r; rec_type := rec_type r;
     specversion := specversion r; source := source r; subject := subject r; dataschema := dataschema r;
     rec_time := rec_time r; rec_data := rec_data r; created_at_ms := created_at_ms r; rec_status := s;
     rec_attempts := attempts; next_attempt_at_ms := next; delivered_at_ms := delivered |}.

(** The changes of [mark_delivered], [mark_retry] and [mark_dead]. *)
Definition marked (m : Mark) (r : OutboxRecord) : OutboxRecord :=
  match m with
  | MDelivered at_ms => change_record OsDelivered (rec_attempts r) (next_attempt_at_ms r) (Some at_ms) r
  | MRetry attempts next => change_record OsPending attempts next (delivered_at_ms r) r
  | MDead attempts => change_record OsDead attempts (next_attempt_at_ms r) (delivered_at_ms r) r
  end.

(** [rewrite_record]: a transaction without conditions. *)
Definition mark_ops (m : Mark) (r : OutboxRecord) : list KvOp :=
  [OpDel (pending_key (next_attempt_at_ms r) (rec_id r));
   OpPut (record_key (aggregate_id r) (sequence r)) (DRecord (marked m r))] ++
  match m with MRetry _ next => [OpPut (pending_key next (rec_id r)) (DRecord (marked m r))] | _ => [] end.

(** ** Reclamation *)

Definition retention_basis_ms (r : OutboxRecord) : option Z :=
  match rec_status r with
  | OsPending => None
  | OsDelivered => Some (default (created_at_ms r) (delivered_at_ms r))
  | OsDead => Some (Z.max (created_at_ms r) (next_attempt_at_ms r))
  end.

Definition past_retention (now retention : Z) (r : OutboxRecord) : bool :=
  match retention_basis_ms r with
  | None => false
  | Some basis => i64_saturating_add basis retention <? now
  end.

Definition prune_ops (key : bytes) (r : OutboxRecord) : list KvOp :=
  [OpDel key; OpDel (id_key (rec_id r)); OpDel (pending_key (next_attempt_at_ms r) (rec_id r))].

(** The transaction of [prune], which requires the record to be unchanged. *)
Definition prune_txn (key : bytes) (r : OutboxRecord) (kv : Kv) : bool * Kv :=
  match row_value <$> kv_rows kv !! key with
  | Some (DRecord r') => if bool_decide (r' = r) then (true, apply_ops (prune_ops key r) kv) else (false, apply_ops [] kv)
  | _ => (false, apply_ops [] kv)
  end.

(** ** The relay *)

Definition backoff_ms (attempt base_ms cap_ms : Z) : Z :=
  Z.min (Z.min (base_ms * 2 ^ Z.min attempt 32) u64_max) cap_ms.

Record RelayPolicy := {
  batch : nat;
  max_attempts : Z;
  base_backoff_ms : Z;
  max_backoff_ms : Z;
  retention_ms : Z }.

Definition default_relay_policy : RelayPolicy :=
  {| batch := 64; max_attempts := 8; base_backoff_ms := 200; max_backoff_ms := 30000; retention_ms := 86400000 |}.

Record RelayReport := { rr_polled : nat; rr_delivered : nat; rr_retried : nat; rr_dead : nat; rr_pruned : nat }.

Definition report_polled (n : nat) : RelayReport :=
  {| rr_polled := n; rr_delivered := 0; rr_retried := 0; rr_dead := 0; rr_pruned := 0 |}.

(** What has become of a record, counted. *)
Definition report_mark (m : Mark) (rep : RelayReport) : RelayReport :=
  let '(dl, rt, dd) := match m with MDelivered _ => (1, 0, 0) | MRetry _ _ => (0, 1, 0) | MDead _ => (0, 0, 1) end%nat in
  {| rr_polled := rr_polled rep; rr_delivered := rr_delivered rep + dl; rr_retried := rr_retried rep + rt;
     rr_dead := rr_dead rep + dd; rr_pruned := rr_pruned rep |}.

Definition report_pruned (rep : RelayReport) : RelayReport :=
  {| rr_polled := rr_polled rep; rr_delivered := rr_delivered rep; rr_retried := rr_retried rep; rr_dead := rr_dead rep;
     rr_pruned := S (rr_pruned rep) |}.

(** The order of delivery: by aggregate, then by sequence; the sort is stable. *)
Definition record_ltb (r r' : OutboxRecord) : bool :=
  bytes_ltb (aggregate_id r) (aggregate_id r') ||
  (bytes_eqb (aggregate_id r) (aggregate_id r') && (sequence r <? sequence r')).

Fixpoint insert_record (r : OutboxRecord) (l : list OutboxRecord) : list OutboxRecord :=
  match l with
  | [] => [r]
  | x :: l => if record_ltb r x then r :: x :: l else x :: insert_record r l
  end.
Definition sort_records (l : list OutboxRecord) : list OutboxRecord := foldl (fun acc r => insert_record r acc) [] l.

(** What the relay writes after the sink has answered. *)
Definition mark_for (pol : RelayPolicy) (now : Z) (r : OutboxRecord) (accepted : bool) : Mark :=
  if accepted then MDelivered now
  else
    let attempts := u32_wrap (rec_attempts r + 1) in
    if max_attempts pol <=? attempts then MDead attempts
    else MRetry attempts (i64_wrap (now + i64_wrap (backoff_ms attempts (base_backoff_ms pol) (max_backoff_ms pol)))).

(** Where a relay stands in its [tick]. *)
Inductive RPhase :=
  | RIdle
  | RDeliver (now : Z) (rep : RelayReport) (todo : list OutboxRecord)
  | RFind (now : Z) (rep : RelayReport) (todo : list OutboxRecord) (id : bytes) (m : Mark)
  | RRead (now : Z) (rep : RelayReport) (todo : list OutboxRecord) (key : bytes) (m : Mark)
  | RWrite (now : Z) (rep : RelayReport) (todo : list OutboxRecord) (r : OutboxRecord) (m : Mark)
  | RPrune (now : Z) (rep : RelayReport) (rows : list (bytes * KvRow))
  | RDone (result : option RelayReport).

(** One access to the store, or one delivery; [accepted] is the answer of the
    sink, [clock] the time at which a tick begins. *)
Definition relay_step (window : nat) (pol : RelayPolicy) (clock : Z) (accepted : bool) (ph : RPhase) (kv : Kv)
    : RPhase * Kv :=
  match ph with
  | RIdle =>
    let records := pending window clock (batch pol) kv in
    (RDeliver clock (report_polled (length records)) (sort_records records), kv)
  | RDeliver now rep [] =>
    if (batch pol =? 0)%nat then (RDone (Some rep), kv) else (RPrune now rep (kv_range window records_prefix kv), kv)
  | RDeliver now rep (r :: todo) =>
    let m := mark_for pol now r accepted in (RFind now (report_mark m rep) todo (rec_id r) m, kv)
  | RFind now rep todo id m =>
    match row_value <$> kv_rows kv !! id_key id with
    | Some (DText key) => (RRead now rep todo key m, kv)
    | _ => (RDeliver now rep todo, kv)
    end
  | RRead now rep todo key m =>
    match row_value <$> kv_rows kv !! key with
    | None => (RDeliver now rep todo, kv)
    | Some (DRecord r) => (RWrite now rep todo r m, kv)
    | Some _ => (RDone None, kv)
    end
  | RWrite now rep todo r m => (RDeliver now rep todo, apply_ops (mark_ops m r) kv)
  | RPrune now rep [] => (RDone (Some rep), kv)
  | RPrune now rep ((key, row) :: rows) =>
    if (batch pol <=? rr_pruned rep)%nat then (RDone (Some rep), kv)
    else
      match row_value row with
      | DRecord r =>
        if past_retention now (Z.min (retention_ms pol) (2 ^ 63 - 1)) r then
          let '(ok, kv) := prune_txn key r kv in (RPrune now (if ok then report_pruned rep else rep) rows, kv)
        else (RPrune now rep rows, kv)
      | _ => (RPrune now rep rows, kv)
      end
  | RDone result => (RDone result, kv)
  end.

(** The delivery a step makes. *)
Definition offered (ph : RPhase) : option OutboxRecord := match ph with RDeliver _ _ (r :: _) => Some r | _ => None end.

(** A tick of a relay that has the store for itself, with the records it has
    handed to the sink. *)
Fixpoint run_tick (window : nat) (pol : RelayPolicy) (clock : Z) (sink : OutboxRecord -> bool) (n : nat) (ph : RPhase)
    (kv : Kv) : RPhase * Kv * list OutboxRecord :=
  match n with
  | O => (ph, kv, [])
  | S n =>
    let '(ph', kv') := relay_step window pol clock (from_option sink false (offered ph)) ph kv in
    let '(ph'', kv'', l) := run_tick window pol clock sink n ph' kv' in (ph'', kv'', option_list (offered ph) ++ l)
  end.

(** ** Appending *)

(** [append] and [commit_state_and_outbox_batch]: records of one aggregate,
    with the other writes and conditions of the same transaction. *)
Record Appending := {
  ap_aggregate : bytes;
  ap_records : list OutboxRecord;
  ap_puts : list (bytes * Doc);
  ap_compares : list Compare }.

Definition APPEND_ATTEMPTS : nat := 8.

(** [rounds] transactions are left.  [AFind] and [ARead] look up whether all
    records are there already. *)
Inductive APhase :=
  | AFind (rounds : nat) (rest : list OutboxRecord)
  | ARead (rounds : nat) (key : bytes) (rest : list OutboxRecord)
  | ASequence (rounds : nat)
  | ATxn (rounds : nat) (cur : Z) (cur_bytes : bytes)
  | ADone (result : option bool).

Definition append_missing (rounds : nat) : APhase :=
  match rounds with O => ADone (Some false) | S _ => ASequence rounds end.
Definition append_present (rounds : nat) (x : Appending) (rest : list OutboxRecord) : APhase :=
  match rest with
  | [] => if bool_decide (ap_records x = []) then append_missing rounds else ADone (Some true)
  | _ => AFind rounds rest
  end.

Definition append_step (x : Appending) (ph : APhase) (kv : Kv) : APhase * Kv :=
  match ph with
  | AFind rounds [] => (append_present rounds x [], kv)
  | AFind rounds (r :: rest) =>
    match row_value <$> kv_rows kv !! id_key (rec_id r) with
    | Some (DText key) => (ARead rounds key rest, kv)
    | _ => (append_missing rounds, kv)
    end
  | ARead rounds key rest =>
    match row_value <$> kv_rows kv !! key with
    | None => (append_missing rounds, kv)
    | Some (DRecord _) => (append_present rounds x rest, kv)
    | Some _ => (ADone None, kv)
    end
  | ASequence rounds => let '(cur, cur_bytes) := read_sequence kv (ap_aggregate x) in (ATxn rounds cur cur_bytes, kv)
  | ATxn rounds cur cur_bytes =>
    let '(ok, kv) := kv_txn (outbox_compares (ap_aggregate x) cur_bytes (ap_records x) ++ ap_compares x)
                            (ap_puts x ++ outbox_ops (ap_records x) (u64_wrap (cur + 1))) kv in
    (if ok then ADone (Some true) else append_present (pred rounds) x (ap_records x), kv)
  | ADone result => (ADone result, kv)
  end.

(** [append]: one record and nothing else; it looks first whether the record is
    there, and its last failure is an error. *)
Definition append_start (r : OutboxRecord) : Appending * APhase :=
  ({| ap_aggregate := aggregate_id r; ap_records := [r]; ap_puts := []; ap_compares := [] |}, AFind APPEND_ATTEMPTS [r]).
Definition append_result (result : option bool) : bool := match result with Some true => true | _ => false end.

(** ** The system *)

Inductive ObEvent :=
  | EvCommit (stored : list OutboxRecord)
  | EvDeliver (r : OutboxRecord) (accepted : bool).

(** What [read_sequence] makes of the bytes it returns. *)
Definition sequence_of (cur_bytes : bytes) : Z := default 0 (parse_u64 cur_bytes).

(** A step of a client: it leaves the outbox alone, or its transaction commits
    new events of one aggregate after the sequence it has read. *)
Inductive client_step : Kv -> list ObEvent -> Kv -> Prop :=
  | client_quiet kv kv' :
      (forall k, outbox_row k -> kv_rows kv' !! k = kv_rows kv !! k) -> client_step kv [] kv'
  | client_commit kv aggregate recs cur_bytes puts puts' :
      recs <> [] -> NoDup (rec_id <$> recs) ->
      Forall (fun r => aggregate_id r = aggregate /\ rec_attempts r = 0 /\ in_i64 (next_attempt_at_ms r)) recs ->
      (forall k, k ∈ puts.*1 \/ k ∈ puts'.*1 -> ~ outbox_row k) ->
      forallb (holds kv) (outbox_compares aggregate cur_bytes recs) = true ->
      let start := u64_wrap (sequence_of cur_bytes + 1) in
      client_step kv [EvCommit (number_from start recs)]
        {| kv_rows := foldl (put_row (kv_revision kv + 1)) (kv_rows kv) (puts ++ outbox_ops recs start ++ puts');
           kv_revision := kv_revision kv + 1 |}.

Record Outbox := { ob_kv : Kv; ob_relays : list RPhase }.

(** Any number of relays, which start, stop anywhere and start again, between
    the steps of any clients. *)
Inductive ob_step (window : nat) (pol : RelayPolicy) : Outbox -> list ObEvent -> Outbox -> Prop :=
  | ob_client kv' l s :
      client_step (ob_kv s) l kv' -> ob_step window pol s l {| ob_kv := kv'; ob_relays := ob_relays s |}
  | ob_start s : ob_step window pol s [] {| ob_kv := ob_kv s; ob_relays := ob_relays s ++ [RIdle] |}
  | ob_restart i s : ob_step window pol s [] {| ob_kv := ob_kv s; ob_relays := <[i := RIdle]> (ob_relays s) |}
  | ob_relay i ph clock accepted ph' kv' s :
      ob_relays s !! i = Some ph -> relay_step window pol clock accepted ph (ob_kv s) = (ph', kv') ->
      ob_step window pol s (option_list ((fun r => EvDeliver r accepted) <$> offered ph))
        {| ob_kv := kv'; ob_relays := <[i := ph']> (ob_relays s) |}.

Inductive ob_run (window : nat) (pol : RelayPolicy) : Outbox -> list ObEvent -> Outbox -> Prop :=
  | ob_nil s : ob_run window pol s [] s
  | ob_cons s s' s'' l ls : ob_run window pol s ls s' -> ob_step window pol s' l s'' -> ob_run window pol s (ls ++ l) s''.

Definition empty_outbox : Outbox := {| ob_kv := {| kv_rows := ∅; kv_revision := 0 |}; ob_relays := [] |}.

(** The events of a run: those committed, in their stored form, and whether and
    how often one was handed to the sink. *)
Definition assigned (tr : list ObEvent) : list OutboxRecord :=
  tr ≫= fun x => match x with EvCommit stored => stored | EvDeliver _ _ => [] end.
Definition delivery (id : bytes) (accepted : bool) (x : ObEvent) : bool :=
  match x with EvDeliver r a => bytes_eqb (rec_id r) id && Bool.eqb a accepted | EvCommit _ => false end.
Definition deliveries (id : bytes) (accepted : bool) (tr : list ObEvent) : Z :=
  Z.of_nat (length (List.filter (delivery id accepted) tr)).
