(* ===== verification/OutboxSafety.v ===== *)
(** * Events are not lost

    A run of the outbox system: the events committed so far, and how often each
    has been handed to the sink.  The sequence numbers of an aggregate are
    consecutive, and an event that no sink has accepted and that has not been
    refused often enough is in the outbox as pending, where the relays find it. *)

From S2P Require Export Outbox ApprovalBridgeSafety.

Local Open Scope Z_scope.

(** ** Numbers in keys *)

Lemma digits_length n z : (length (digits n z) <= n)%nat.
Proof.
  revert z. induction n as [|n IH]; intros z; [done|]. cbn [digits]. destruct (z <? 10); [cbn; lia|].
  rewrite length_app. cbn [length]. pose proof (IH (z / 10)). lia.
Qed.

Lemma parse_zeros n x : foldl parse_digit (Some 0) (replicate n x30 ++ x) = foldl parse_digit (Some 0) x.
Proof. induction n as [|n IH]; [done|]. exact IH. Qed.

Lemma digits_parse n z : (0 < n)%nat -> 0 <= z < 10 ^ Z.of_nat n -> z <= u64_max -> foldl parse_digit (Some 0) (padded n z) = Some z.
Proof.
  intros Hn Hz Hm. unfold padded. rewrite parse_zeros. unfold decimal. apply parse_digits; [|done|lia].
  unfold u64_max in Hm. split; [lia|]. eapply Z.le_lt_trans; [exact Hm|]. by vm_compute.
Qed.

Lemma decimal_length n z : (0 < n)%nat -> 0 <= z < 10 ^ Z.of_nat n -> (length (decimal z) <= n)%nat.
Proof.
  unfold decimal. generalize 20%nat as m. intros m. revert n z. induction m as [|m IH]; intros n z Hn Hz; [cbn; lia|].
  cbn [digits]. destruct (Z.ltb_spec z 10); [cbn; lia|]. destruct n as [|n]; [lia|].
  destruct n as [|n]; [cbn in Hz; lia|]. rewrite length_app. cbn [length].
  assert (length (digits m (z / 10)) <= S n)%nat; [|lia]. apply IH; [lia|].
  rewrite (Nat2Z.inj_succ (S n)), Z.pow_succ_r in Hz by lia. split; [apply Z.div_pos; lia|]. apply Z.div_lt_upper_bound; lia.
Qed.

Lemma padded_length n z : (0 < n)%nat -> 0 <= z < 10 ^ Z.of_nat n -> length (padded n z) = n.
Proof. intros Hn Hz. unfold padded. rewrite length_app, length_replicate. pose proof (decimal_length n z Hn Hz). lia. Qed.

Lemma padded_inj n z z' :
  (0 < n)%nat -> 0 <= z < 10 ^ Z.of_nat n -> 0 <= z' < 10 ^ Z.of_nat n -> z <= u64_max -> z' <= u64_max ->
  padded n z = padded n z' -> z = z'.
Proof.
  intros Hn Hz Hz' Hm Hm' E. pose proof (digits_parse n z Hn Hz Hm) as H1. rewrite E, (digits_parse n z' Hn Hz' Hm') in H1. congruence.
Qed.

Lemma u64_digits z : in_u64 z -> 0 <= z < 10 ^ Z.of_nat 20.
Proof. intros Hz. split; [apply Hz|]. eapply Z.lt_trans; [apply Hz|]. by vm_compute. Qed.
Lemma i63_digits n z : (19 <= n)%nat -> 0 <= z <= 2 ^ 63 -> 0 <= z < 10 ^ Z.of_nat n.
Proof.
  intros Hn Hz. split; [lia|]. eapply Z.lt_le_trans; [eapply Z.le_lt_trans; [apply Hz|]|apply (Z.pow_le_mono_r 10 19); lia]. by vm_compute.
Qed.

Lemma padded_digits n z : 0 <= z -> Forall is_digit (padded n z).
Proof.
  intros Hz. unfold padded. apply Forall_app. split; [|by apply digits_digits]. apply Forall_replicate. unfold is_digit. by vm_compute.
Qed.

Lemma padded_i64_length z : in_i64 z -> length (padded_i64 z) = 20%nat.
Proof.
  unfold in_i64, padded_i64. intros Hz. destruct (Z.ltb_spec z 0).
  - rewrite length_app, padded_length; [done|lia|]. apply i63_digits; lia.
  - apply padded_length; [lia|]. apply i63_digits; lia.
Qed.

Lemma padded_i64_inj z z' : in_i64 z -> in_i64 z' -> padded_i64 z = padded_i64 z' -> z = z'.
Proof.
  unfold in_i64, padded_i64. intros Hz Hz' E.
  assert (forall y x, 0 <= y -> b "-" ++ x <> padded 20 y) as Hno.
  { intros y x Hy Ey. pose proof (padded_digits 20 y Hy) as Hd. rewrite <-Ey in Hd. apply Forall_app in Hd as [Hd _].
    exact (proj2 sign_not_digit (Forall_inv Hd)). }
  destruct (Z.ltb_spec z 0), (Z.ltb_spec z' 0).
  - apply app_inv_head in E. apply padded_inj in E; try (apply i63_digits; lia); unfold u64_max, u64_modulus; lia.
  - by apply Hno in E.
  - symmetry in E. by apply Hno in E.
  - apply padded_inj in E; try (apply i63_digits; lia); unfold u64_max, u64_modulus; lia.
Qed.

(** ** Keys *)

Definition key_of (r : OutboxRecord) : bytes := record_key (aggregate_id r) (sequence r).

Lemma key_of_inj a n a' n' : in_u64 n -> in_u64 n' -> record_key a n = record_key a' n' -> a = a' /\ n = n'.
Proof.
  unfold record_key. intros Hn Hn' E%app_inv_head. rewrite !app_assoc in E. apply app_inj_2 in E as [Ea En].
  - apply app_inv_tail in Ea as ->. split; [done|].
    apply padded_inj in En; [done|lia|by apply u64_digits|by apply u64_digits|unfold in_u64, u64_max, u64_modulus in *; lia..].
  - rewrite !padded_length; [done|lia|by apply u64_digits|lia|by apply u64_digits].
Qed.

Lemma pending_key_inj t id t' id' :
  in_i64 t -> in_i64 t' -> pending_key t id = pending_key t' id' -> t = t' /\ id = id'.
Proof.
  unfold pending_key. intros Ht Ht' E%app_inv_head. apply app_inj_1 in E as [Et Ei]; [|by rewrite !padded_i64_length].
  apply app_inv_head in Ei as ->. split; [by apply padded_i64_inj|done].
Qed.

Lemma id_key_inj id id' : id_key id = id_key id' -> id = id'.
Proof. by intros ?%app_inv_head. Qed.
Lemma seq_key_inj a a' : seq_key a = seq_key a' -> a = a'.
Proof. by intros ?%app_inv_head. Qed.

(** Keys of different families differ. *)
Definition ids_prefix : bytes := b "/_workflow/v3/outbox/ids/".
Ltac differ := let H := fresh in intros H; try (unfold record_key, id_key, seq_key, pending_key in H); discriminate H.

(** ** Values of rows *)

Definition val (rows : gmap bytes KvRow) (k : bytes) : option Doc := row_value <$> rows !! k.

Lemma val_put rev rows k d k' : val (put_row rev rows (k, d)) k' = if decide (k = k') then Some d else val rows k'.
Proof. unfold val, put_row. cbn [fst snd]. destruct (decide (k = k')) as [->|?]; [by rewrite lookup_insert_eq|by rewrite lookup_insert_ne]. Qed.
Lemma val_del rows k k' : val (base.delete k rows) k' = if decide (k = k') then None else val rows k'.
Proof. unfold val. destruct (decide (k = k')) as [->|?]; [by rewrite lookup_delete_eq|by rewrite lookup_delete_ne]. Qed.

Lemma val_puts_other rev puts rows k : k ∉ puts.*1 -> val (foldl (put_row rev) rows puts) k = val rows k.
Proof. intros Hk. unfold val. by rewrite put_other. Qed.

(** When the writes of a transaction to a key agree, the key has what they
    write. *)
Lemma val_puts rev puts rows k d :
  (k, d) ∈ puts -> (forall d', (k, d') ∈ puts -> d' = d) -> val (foldl (put_row rev) rows puts) k = Some d.
Proof.
  revert rows. induction puts as [|[k0 d0] puts IH]; intros rows Hin Hall; [by apply elem_of_nil in Hin|]. cbn [foldl].
  destruct (decide (k ∈ puts.*1)) as [Hk|Hk].
  - apply list_elem_of_fmap in Hk as ([k' d'] & -> & Hk). cbn [fst] in *. assert (d' = d) as -> by (apply Hall; by right).
    apply IH; [done|]. intros d'' Hd. apply Hall. by right.
  - rewrite val_puts_other by done. rewrite val_put. apply elem_of_cons in Hin as [[= -> ->]|Hin].
    + by rewrite decide_True.
    + exfalso. apply Hk. apply list_elem_of_fmap. by exists (k, d).
Qed.

(** ** The rows of a batch *)

Definition rows_of (r : OutboxRecord) : list (bytes * Doc) :=
  [(id_key (rec_id r), DText (key_of r)); (key_of r, DRecord r); (pending_key (next_attempt_at_ms r) (rec_id r), DRecord r)].

Lemma record_puts_rows a recs n :
  Forall (fun r => aggregate_id r = a) recs -> record_puts a recs n = number_from n recs ≫= rows_of.
Proof.
  intros H. revert n. induction H as [|r recs Ha _ IH]; intros n; [done|]. cbn [record_puts number_from]. rewrite IH.
  unfold rows_of, key_of. cbn. by rewrite Ha.
Qed.

Lemma number_from_ids n recs : rec_id <$> number_from n recs = rec_id <$> recs.
Proof. revert n. induction recs as [|r recs IH]; intros n; [done|]. cbn. f_equal. apply IH. Qed.

Lemma number_from_seq n recs :
  0 <= n -> n + Z.of_nat (length recs) <= u64_modulus ->
  sequence <$> number_from n recs = seqZ n (Z.of_nat (length recs)).
Proof.
  revert n. induction recs as [|r recs IH]; intros n Hn Hb; [done|]. cbn [number_from length] in *.
  rewrite Nat2Z.inj_succ, seqZ_cons by lia. rewrite fmap_cons. f_equal. rewrite Z.pred_succ.
  destruct recs as [|r' recs]; [done|].
  rewrite (u64_wrap_id (n + 1)) by (unfold in_u64, u64_modulus in *; cbn [length] in *; lia). unfold Z.succ. apply IH; lia.
Qed.

Lemma number_from_elem n recs r0 : r0 ∈ number_from n recs -> exists r k, r ∈ recs /\ r0 = stored_record k r.
Proof.
  revert n. induction recs as [|r recs IH]; intros n; cbn [number_from]; [by intros ?%elem_of_nil|].
  intros [->|Hr]%elem_of_cons; [exists r, n; split; [by left|done]|]. destruct (IH _ Hr) as (r1 & k & H1 & ->). exists r1, k. split; [by right|done].
Qed.

(** ** Events of a run *)

Definition same_event (r r' : OutboxRecord) : Prop := change_record OsPending 0 0 None r = change_record OsPending 0 0 None r'.
Lemma same_event_parts r r' :
  same_event r r' -> rec_id r = rec_id r' /\ aggregate_id r = aggregate_id r' /\ sequence r = sequence r'.
Proof. intros H. split_and!; [by apply (f_equal rec_id) in H|by apply (f_equal aggregate_id) in H|by apply (f_equal sequence) in H]. Qed.
Lemma same_event_key r r' : same_event r r' -> key_of r = key_of r'.
Proof. intros (_ & Ha & Hs)%same_event_parts. unfold key_of. congruence. Qed.
Lemma marked_same m r : same_event r (marked m r).
Proof. by destruct m. Qed.

Definition committed_event (tr : list ObEvent) (r : OutboxRecord) : Prop := exists r0, r0 ∈ assigned tr /\ same_event r0 r.

Lemma assigned_app tr l : assigned (tr ++ l) = assigned tr ++ assigned l.
Proof. unfold assigned. by rewrite bind_app. Qed.
Lemma deliveries_app id a tr l : deliveries id a (tr ++ l) = deliveries id a tr + deliveries id a l.
Proof. unfold deliveries. rewrite List.filter_app, length_app. lia. Qed.
Lemma deliveries_pos id a tr : 0 <= deliveries id a tr.
Proof. unfold deliveries. lia. Qed.

Definition of_aggregate (a : bytes) (tr : list ObEvent) : list OutboxRecord :=
  List.filter (fun r => bytes_eqb (aggregate_id r) a) (assigned tr).
Definition count (a : bytes) (tr : list ObEvent) : Z := Z.of_nat (length (of_aggregate a tr)).

Lemma of_aggregate_elem a tr r : r ∈ of_aggregate a tr <-> r ∈ assigned tr /\ aggregate_id r = a.
Proof. unfold of_aggregate. rewrite elem_of_List_filter. destruct (bytes_eqb_spec (aggregate_id r) a); naive_solver. Qed.
Lemma of_aggregate_app a tr l : of_aggregate a (tr ++ l) = of_aggregate a tr ++ of_aggregate a l.
Proof. unfold of_aggregate. by rewrite assigned_app, List.filter_app. Qed.

Lemma fmap_nodup_eq {A B : Type} (f : A -> B) (l : list A) x y : NoDup (f <$> l) -> x ∈ l -> y ∈ l -> f x = f y -> x = y.
Proof.
  induction l as [|z l IH]; [by intros _ ?%elem_of_nil|]. rewrite fmap_cons. intros [Hz Hnd]%NoDup_cons Hx Hy E.
  apply elem_of_cons in Hx as [->|Hx], Hy as [->|Hy]; [done|exfalso..|by apply IH];
    apply Hz, list_elem_of_fmap; [by exists y|by exists x].
Qed.

(** What a run may not do: use an identity again, or count beyond a u64. *)
Record run_ok (tr : list ObEvent) : Prop := {
  ro_ids : NoDup (rec_id <$> assigned tr);
  ro_size : Z.of_nat (length (assigned tr)) < u64_modulus }.

Lemma run_ok_app tr l : run_ok (tr ++ l) -> run_ok tr.
Proof.
  intros [H1 H2]. rewrite assigned_app in *. rewrite fmap_app in H1. apply NoDup_app in H1 as [H1 _]. rewrite length_app in H2.
  split; [done|]. lia.
Qed.

Lemma known_mono tr l r : committed_event tr r -> committed_event (tr ++ l) r.
Proof. intros (r0 & H1 & H2). exists r0. split; [|done]. rewrite assigned_app. apply elem_of_app. by left. Qed.

Lemma known_same tr r r' : committed_event tr r -> same_event r r' -> committed_event tr r'.
Proof. intros (r0 & H1 & H2) H. exists r0. split; [done|]. unfold same_event in *. congruence. Qed.

Definition numbered (tr : list ObEvent) : Prop := forall a, sequence <$> of_aggregate a tr = seqZ 1 (count a tr).

Lemma assigned_range tr r : run_ok tr -> numbered tr -> r ∈ assigned tr -> 1 <= sequence r <= count (aggregate_id r) tr /\ in_u64 (sequence r).
Proof.
  intros [_ Hb] Hn Hr. assert (sequence r ∈ seqZ 1 (count (aggregate_id r) tr)) as Hs.
  { rewrite <-Hn. apply list_elem_of_fmap. exists r. split; [done|]. by apply of_aggregate_elem. }
  apply elem_of_seqZ in Hs. split; [lia|]. unfold count, of_aggregate in Hs.
  pose proof (filter_length_le (fun r0 => bytes_eqb (aggregate_id r0) (aggregate_id r)) (assigned tr)). unfold in_u64. lia.
Qed.

Lemma assigned_slot tr r r' : numbered tr -> r ∈ assigned tr -> r' ∈ assigned tr ->
  aggregate_id r = aggregate_id r' -> sequence r = sequence r' -> r = r'.
Proof.
  intros Hn Hr Hr' Ha. apply (fmap_nodup_eq sequence (of_aggregate (aggregate_id r') tr)); [|by apply of_aggregate_elem..].
  rewrite Hn. apply NoDup_seqZ.
Qed.

Lemma known_range tr r : run_ok tr -> numbered tr -> committed_event tr r -> in_u64 (sequence r).
Proof.
  intros Hk Hn (r0 & H1 & H2). pose proof (same_event_parts _ _ H2) as (_ & _ & <-).
  apply (assigned_range tr r0); auto.
Qed.

(** The key of a record, and its identity, tell the event. *)
Lemma known_key tr r r' : run_ok tr -> numbered tr -> committed_event tr r -> committed_event tr r' -> key_of r = key_of r' -> same_event r r'.
Proof.
  intros Hk Hn H H' E. pose proof (known_range _ _ Hk Hn H) as Hs. pose proof (known_range _ _ Hk Hn H') as Hs'.
  apply key_of_inj in E as [Ea Es]; [|done|done]. destruct H as (r0 & H1 & H2), H' as (r0' & H1' & H2').
  pose proof (same_event_parts _ _ H2) as (_ & ? & ?). pose proof (same_event_parts _ _ H2') as (_ & ? & ?).
  assert (r0 = r0') as -> by (eapply assigned_slot; eauto; congruence). unfold same_event in *. congruence.
Qed.
Lemma known_id tr r r' : run_ok tr -> committed_event tr r -> committed_event tr r' -> rec_id r = rec_id r' -> same_event r r'.
Proof.
  intros [Hk _] (r0 & H1 & H2) (r0' & H1' & H2') E.
  pose proof (same_event_parts _ _ H2) as (? & _ & _). pose proof (same_event_parts _ _ H2') as (? & _ & _).
  assert (r0 = r0') as -> by (eapply (fmap_nodup_eq rec_id); eauto; congruence). unfold same_event in *. congruence.
Qed.

Section relays.
Context (window : nat) (pol : RelayPolicy).

(** ** What records, marks and rows say *)

(** Accepted by a sink, or refused as often as the policy allows. *)
Definition settled (tr : list ObEvent) (id : bytes) : Prop :=
  0 < deliveries id true tr \/ max_attempts pol <= deliveries id false tr.

Record rec_ok (tr : list ObEvent) (r : OutboxRecord) : Prop := {
  rk_known : committed_event tr r;
  rk_next : in_i64 (next_attempt_at_ms r);
  rk_attempts : 0 <= rec_attempts r <= deliveries (rec_id r) false tr;
  rk_status : match rec_status r with
              | OsPending => True
              | OsDelivered => 0 < deliveries (rec_id r) true tr
              | OsDead => max_attempts pol <= deliveries (rec_id r) false tr
              end }.

Definition mark_ok (tr : list ObEvent) (id : bytes) (m : Mark) : Prop :=
  match m with
  | MDelivered _ => 0 < deliveries id true tr
  | MRetry a next => in_i64 next /\ 0 <= a <= deliveries id false tr
  | MDead a => 0 <= a <= deliveries id false tr /\ max_attempts pol <= deliveries id false tr
  end.

Lemma marked_ok tr r m : rec_ok tr r -> mark_ok tr (rec_id r) m -> rec_ok tr (marked m r).
Proof using Type.
  intros [Hk Hn Ha Hs] Hm. pose proof (known_same _ _ _ Hk (marked_same m r)).
  destruct m; cbn in Hm; split; cbn; try done; tauto.
Qed.

Lemma rec_ok_mono tr l r : rec_ok tr r -> rec_ok (tr ++ l) r.
Proof using Type.
  intros [Hk Hn Ha Hs]. pose proof (deliveries_pos (rec_id r) true l). pose proof (deliveries_pos (rec_id r) false l).
  split; rewrite ?deliveries_app; [by apply known_mono|done|lia|]. destruct (rec_status r); [done|lia|lia].
Qed.
Lemma mark_ok_mono tr l id m : mark_ok tr id m -> mark_ok (tr ++ l) id m.
Proof using Type.
  pose proof (deliveries_pos id true l). pose proof (deliveries_pos id false l).
  destruct m; cbn; rewrite ?deliveries_app; intros Hm; split_and?; try tauto; lia.
Qed.
Lemma settled_mono tr l id : settled tr id -> settled (tr ++ l) id.
Proof using Type.
  unfold settled. rewrite !deliveries_app. pose proof (deliveries_pos id true l). pose proof (deliveries_pos id false l). lia.
Qed.

(** A row of the outbox is a record, an entry of the pending index, an entry of
    the index by identity, or a counter. *)
Inductive row_ok (tr : list ObEvent) : bytes -> Doc -> Prop :=
  | row_record r : rec_ok tr r -> row_ok tr (key_of r) (DRecord r)
  | row_pending r :
      rec_ok tr r -> rec_status r = OsPending -> row_ok tr (pending_key (next_attempt_at_ms r) (rec_id r)) (DRecord r)
  | row_id r0 : r0 ∈ assigned tr -> row_ok tr (id_key (rec_id r0)) (DText (key_of r0))
  | row_seq a d : row_ok tr (seq_key a) d.

(** An event in the outbox that the relays will find. *)
Definition held (rows : gmap bytes KvRow) (r0 : OutboxRecord) : Prop :=
  exists r r', val rows (id_key (rec_id r0)) = Some (DText (key_of r0)) /\ val rows (key_of r0) = Some (DRecord r) /\
    rec_status r = OsPending /\ val rows (pending_key (next_attempt_at_ms r) (rec_id r0)) = Some (DRecord r').

Record rows_inv (tr : list ObEvent) (rows : gmap bytes KvRow) : Prop := {
  ri_numbered : numbered tr;
  ri_counter : forall a, val rows (seq_key a) = if count a tr =? 0 then None else Some (DText (decimal (count a tr)));
  ri_row : forall k d, outbox_row k -> val rows k = Some d -> row_ok tr k d;
  ri_held : forall r0, r0 ∈ assigned tr -> settled tr (rec_id r0) \/ held rows r0 }.

Lemma key_row r : outbox_row (key_of r).
Proof using Type. by eexists. Qed.
Lemma pending_row t id : outbox_row (pending_key t id).
Proof using Type. by eexists. Qed.
Lemma id_row id : outbox_row (id_key id).
Proof using Type. by eexists. Qed.
Lemma seq_row a : outbox_row (seq_key a).
Proof using Type. by eexists. Qed.

Lemma record_row_ok tr k d : row_ok tr k d -> forall r0, k = key_of r0 -> exists r, d = DRecord r /\ key_of r = key_of r0 /\ rec_ok tr r.
Proof using Type. intros [r Hr|r Hr Hs|r1 H1|a d1] r0 E; [by exists r|exfalso; revert E; differ..]. Qed.
Lemma pending_row_ok tr k d : row_ok tr k d -> forall t id, k = pending_key t id ->
  exists r, d = DRecord r /\ pending_key (next_attempt_at_ms r) (rec_id r) = pending_key t id /\ rec_ok tr r /\ rec_status r = OsPending.
Proof using Type. intros [r Hr|r Hr Hs|r1 H1|a d1] t id E; [exfalso; revert E; differ|by exists r|exfalso; revert E; differ..]. Qed.
Lemma id_row_ok tr k d : row_ok tr k d -> forall id, k = id_key id -> exists r0, d = DText (key_of r0) /\ rec_id r0 = id /\ r0 ∈ assigned tr.
Proof using Type.
  intros [r Hr|r Hr Hs|r1 H1|a d1] id E; [exfalso; revert E; differ..| |exfalso; revert E; differ].
  exists r1. split_and!; [done|by apply id_key_inj|done].
Qed.

Lemma row_ok_mono tr l k d : row_ok tr k d -> row_ok (tr ++ l) k d.
Proof using Type.
  intros [r Hr|r Hr Hs|r1 H1|a d1]; [apply row_record|apply row_pending; [|done]|apply row_id|apply row_seq]; try (by apply rec_ok_mono).
  rewrite assigned_app. apply elem_of_app. by left.
Qed.

Lemma held_record tr rows r0 r :
  run_ok tr -> rows_inv tr rows -> r0 ∈ assigned tr -> val rows (key_of r0) = Some (DRecord r) -> rec_ok tr r /\ same_event r0 r.
Proof using Type.
  intros Hok Hi Hr0 Hv. apply (ri_row _ _ Hi) in Hv; [|apply key_row].
  destruct (record_row_ok _ _ _ Hv r0 eq_refl) as (r1 & [= <-] & E & Hr). split; [done|].
  eapply known_key; [done|apply Hi| |apply Hr|done]. by exists r0.
Qed.

(** ** Changes to one event *)

(** The rows of the event with identity [id]. *)
Definition owned (tr : list ObEvent) (id k : bytes) : Prop :=
  k = id_key id \/ (exists r, committed_event tr r /\ rec_id r = id /\ k = key_of r) \/ (exists t, in_i64 t /\ k = pending_key t id).

Lemma owned_disjoint tr id id' k : run_ok tr -> numbered tr -> owned tr id k -> owned tr id' k -> id = id'.
Proof using Type.
  intros Hok Hn [->|[(r & H1 & H2 & ->)|(t & Ht & ->)]] [E|[(r' & H1' & H2' & E)|(t' & Ht' & E)]];
    try (exfalso; revert E; unfold key_of; differ).
  - by apply id_key_inj.
  - eapply known_key in E; [|done|done|done|done]. apply same_event_parts in E as (E & _). congruence.
  - by apply pending_key_inj in E as [_ E].
Qed.
Lemma owned_mono tr l id k : owned tr id k -> owned (tr ++ l) id k.
Proof using Type.
  intros [E|[(r & H1 & H2 & E)|H]]; [by left| |by right; right]. right. left. exists r. split; [by apply known_mono|done].
Qed.
Lemma seq_not_owned tr id a : ~ owned tr id (seq_key a).
Proof using Type. intros [E|[(r & _ & _ & E)|(t & _ & E)]]; revert E; unfold key_of; differ. Qed.

(** An event stays held where its own rows are not changed. *)
Lemma held_kept tr rows rows' r0 :
  run_ok tr -> rows_inv tr rows -> r0 ∈ assigned tr -> (forall k, outbox_row k -> owned tr (rec_id r0) k -> val rows' k = val rows k) ->
  held rows r0 -> held rows' r0.
Proof using Type.
  intros Hok Hi Hr0 Hkeep (r & r' & H1 & H2 & H3 & H4). destruct (held_record _ _ _ _ Hok Hi Hr0 H2) as [Hrk _].
  exists r, r'. rewrite (Hkeep _ (id_row _)), (Hkeep _ (key_row _)), (Hkeep _ (pending_row _ _)); [done|..|by left].
  - right. right. eexists. split; [apply Hrk|done].
  - right. left. exists r0. split; [by exists r0|done].
Qed.

Lemma rows_inv_change tr rows rows' id :
  run_ok tr -> rows_inv tr rows ->
  (forall k d, outbox_row k -> val rows' k = Some d -> val rows k = Some d \/ row_ok tr k d) ->
  (forall a, val rows' (seq_key a) = val rows (seq_key a)) ->
  (forall k, outbox_row k -> ~ owned tr id k -> val rows' k = val rows k) ->
  (forall r0, r0 ∈ assigned tr -> rec_id r0 = id -> held rows r0 -> settled tr id \/ held rows' r0) ->
  rows_inv tr rows'.
Proof using Type.
  intros Hok Hi Hnew Hseq Hsame Hid. split; [apply Hi|intros a; rewrite Hseq; apply Hi| |].
  - intros k d Hk Hv. destruct (Hnew k d Hk Hv) as [Hv'|?]; [|done]. by apply (ri_row _ _ Hi).
  - intros r0 Hr0. destruct (ri_held _ _ Hi r0 Hr0) as [?|Hh]; [by left|].
    destruct (decide (rec_id r0 = id)) as [E|Hne]; [rewrite E; by apply (Hid r0)|right].
    apply (held_kept tr rows); [done..| |done]. intros k Hk Ho. apply Hsame; [done|]. intros Ho'. by eapply Hne, owned_disjoint; [|apply Hi|..].
Qed.

(** A mark leaves the other events alone; one that is not settled stays in the
    outbox. *)
Lemma mark_inv tr rows rev r m :
  run_ok tr -> rows_inv tr rows -> rec_ok tr r -> mark_ok tr (rec_id r) m ->
  rows_inv tr (foldl (apply_op rev) rows (mark_ops m r)).
Proof using Type.
  intros Hok Hi Hr Hm. pose proof (marked_ok _ _ _ Hr Hm) as Hr'.
  assert (aggregate_id (marked m r) = aggregate_id r /\ sequence (marked m r) = sequence r /\ rec_id (marked m r) = rec_id r) as (Ea & Es & Ei) by (by destruct m).
  assert (owned tr (rec_id r) (key_of r)) as Ok by (right; left; exists r; split; [apply Hr|done]).
  assert (forall t, in_i64 t -> owned tr (rec_id r) (pending_key t (rec_id r))) as Op by (intros t Ht; right; right; by exists t).
  assert (row_ok tr (key_of r) (DRecord (marked m r))) as Rk.
  { replace (key_of r) with (key_of (marked m r)) by (unfold key_of; congruence). by apply row_record. }
  assert (forall k, val (foldl (apply_op rev) rows (mark_ops m r)) k =
    match m with
    | MRetry _ next => if decide (pending_key next (rec_id r) = k) then Some (DRecord (marked m r))
                       else if decide (key_of r = k) then Some (DRecord (marked m r))
                       else if decide (pending_key (next_attempt_at_ms r) (rec_id r) = k) then None else val rows k
    | _ => if decide (key_of r = k) then Some (DRecord (marked m r))
           else if decide (pending_key (next_attempt_at_ms r) (rec_id r) = k) then None else val rows k
    end) as Hv.
  { intros k. unfold mark_ops. destruct m; cbn [app foldl apply_op]; rewrite ?val_put, ?val_del; done. }
  apply (rows_inv_change tr rows _ (rec_id r)); [done|done|..].
  - intros k d _. rewrite Hv. destruct m as [at_ms|a next|a]; repeat case_decide; subst; intros E; try discriminate E; try (by left);
      injection E as <-; right; try exact Rk. by apply (row_pending tr (marked (MRetry a next) r)).
  - intros a. rewrite Hv. destruct m; repeat case_decide as E; try done; exfalso; revert E; unfold key_of; differ.
  - intros k _ Hn. rewrite Hv. destruct m as [at_ms|a next|a]; repeat case_decide; subst; try done; exfalso; apply Hn; try done; apply Op; [apply Hr|apply Hm|apply Hr|apply Hr].
  - intros r0 Hr0 E (r1 & r2 & H1 & H2 & H3 & H4). destruct m as [at_ms|a next|a]; [left; left; by apply Hm| |left; right; by apply Hm].
    right. exists (marked (MRetry a next) r). exists (marked (MRetry a next) r).
    assert (key_of r0 = key_of r) as Ek.
    { apply same_event_key. eapply known_id; [done|by exists r0|apply Hr|done]. }
    rewrite !Hv, E, Ek. split_and!; [| |done|].
    + rewrite !decide_False by differ. by rewrite <-E, H1, Ek.
    + rewrite decide_False, decide_True by (differ || done). done.
    + by rewrite decide_True.
Qed.

(** Reclamation removes a record that is settled. *)
Lemma prune_inv tr rows rev r now ret :
  run_ok tr -> rows_inv tr rows -> val rows (key_of r) = Some (DRecord r) -> past_retention now ret r = true ->
  rows_inv tr (foldl (apply_op rev) rows (prune_ops (key_of r) r)).
Proof using Type.
  intros Hok Hi Hr Hp. apply (ri_row _ _ Hi) in Hr; [|apply key_row].
  destruct (record_row_ok _ _ _ Hr r eq_refl) as (r1 & [= <-] & _ & Hk).
  assert (settled tr (rec_id r)) as Hs.
  { unfold past_retention, retention_basis_ms in Hp. pose proof (rk_status _ _ Hk). destruct (rec_status r); [done|by left|by right]. }
  assert (forall k, val (foldl (apply_op rev) rows (prune_ops (key_of r) r)) k =
    if decide (pending_key (next_attempt_at_ms r) (rec_id r) = k) then None else if decide (id_key (rec_id r) = k) then None
    else if decide (key_of r = k) then None else val rows k) as Hv.
  { intros k. cbn [prune_ops foldl apply_op]. by rewrite !val_del. }
  apply (rows_inv_change tr rows _ (rec_id r)); [done|done|..].
  - intros k d _. rewrite Hv. repeat case_decide; [done..|by left].
  - intros a. rewrite Hv. repeat case_decide as E; try done; exfalso; revert E; unfold key_of; differ.
  - intros k _ Hn. rewrite Hv. repeat case_decide; subst; try done; exfalso; apply Hn.
    + right. right. eexists. split; [apply Hk|done].
    + by left.
    + right. left. exists r. split; [apply Hk|done].
  - intros. by left.
Qed.

Lemma rows_inv_quiet tr rows rows' : (forall k, outbox_row k -> rows' !! k = rows !! k) -> rows_inv tr rows -> rows_inv tr rows'.
Proof using Type.
  intros Hq [H1 H2 H3 H4]. assert (forall k, outbox_row k -> val rows' k = val rows k) as Hv by (intros k Hk; unfold val; by rewrite Hq).
  split; [done|intros a; rewrite Hv by apply seq_row; apply H2|intros k d Hk; rewrite Hv by done; by apply H3|].
  intros r0 Hr0. destruct (H4 r0 Hr0) as [?|(r & r' & E1 & E2 & E3 & E4)]; [by left|right]. exists r, r'.
  by rewrite (Hv _ (id_row _)), (Hv _ (key_row _)), (Hv _ (pending_row _ _)).
Qed.

Lemma rows_inv_deliver tr rows r a : rows_inv tr rows -> rows_inv (tr ++ [EvDeliver r a]) rows.
Proof using Type.
  intros [H1 H2 H3 H4]. assert (assigned (tr ++ [EvDeliver r a]) = assigned tr) as E by (by rewrite assigned_app, app_nil_r).
  assert (forall x, of_aggregate x (tr ++ [EvDeliver r a]) = of_aggregate x tr) as Ea by (intros x; unfold of_aggregate; by rewrite E).
  split.
  - intros x. unfold count. rewrite Ea. apply H1.
  - intros x. unfold count. rewrite Ea. apply H2.
  - intros k d Hk Hv. apply row_ok_mono. by apply H3.
  - intros r0. rewrite E. intros Hr0. destruct (H4 r0 Hr0); [left; by apply settled_mono|by right].
Qed.

(** ** Commits *)

(** The sequence a client has read is the counter, if its transaction goes
    through. *)
Lemma sequence_read tr kv a recs cur_bytes :
  rows_inv tr (kv_rows kv) -> run_ok tr -> recs <> [] -> forallb (holds kv) (outbox_compares a cur_bytes recs) = true ->
  sequence_of cur_bytes = count a tr.
Proof using Type.
  intros Hi Hok Hne Hc. destruct recs as [|r recs]; [done|]. unfold outbox_compares in Hc. cbn [forallb] in Hc.
  apply andb_prop in Hc as [Hc _]. unfold holds in Hc. pose proof (ri_counter _ _ Hi a) as Hv. unfold val in Hv. rewrite Hv in Hc.
  destruct (Z.eqb_spec (count a tr) 0) as [E|Hne0].
  - destruct (bytes_eqb_spec [] cur_bytes) as [<-|]; [|done]. by rewrite E.
  - destruct (bytes_eqb_spec (decimal (count a tr)) cur_bytes) as [<-|]; [|done]. unfold sequence_of. rewrite decimal_parse; [done|].
    pose proof (ro_size _ Hok). unfold in_u64, count, of_aggregate in *.
    pose proof (filter_length_le (fun r0 => bytes_eqb (aggregate_id r0) a) (assigned tr)). lia.
Qed.

Lemma assigned_commit tr l : assigned (tr ++ [EvCommit l]) = assigned tr ++ l.
Proof using Type. rewrite assigned_app. cbn. by rewrite app_nil_r. Qed.

Lemma commit_sequence tr a recs :
  run_ok (tr ++ [EvCommit (number_from (count a tr + 1) recs)]) -> count a tr + 1 + Z.of_nat (length recs) <= u64_modulus.
Proof using Type.
  intros [_ H]. rewrite assigned_commit, length_app in H. pose proof (filter_length_le (fun r0 => bytes_eqb (aggregate_id r0) a) (assigned tr)).
  assert (forall n, length (number_from n recs) = length recs) as El.
  { intros n. rewrite <-(length_fmap rec_id (number_from n recs)), number_from_ids. by rewrite length_fmap. }
  rewrite El in H. unfold count, of_aggregate. lia.
Qed.

Lemma of_aggregate_commit tr a a' l :
  Forall (fun r => aggregate_id r = a) l -> of_aggregate a' (tr ++ [EvCommit l]) = of_aggregate a' tr ++ if bytes_eqb a a' then l else [].
Proof using Type.
  intros Hl. unfold of_aggregate. rewrite assigned_commit, List.filter_app. f_equal.
  induction Hl as [|r l <- _ IH]; [by destruct (bytes_eqb a a')|]. cbn [List.filter]. rewrite IH. by destruct (bytes_eqb (aggregate_id r) a').
Qed.

Lemma numbered_commit tr a recs :
  let l := number_from (count a tr + 1) recs in
  numbered tr -> run_ok (tr ++ [EvCommit l]) -> Forall (fun r => aggregate_id r = a) l ->
  numbered (tr ++ [EvCommit l]) /\ (forall a', count a' (tr ++ [EvCommit l]) = count a' tr + if bytes_eqb a a' then Z.of_nat (length recs) else 0).
Proof using Type.
  intros l Hn Hok Hl. pose proof (commit_sequence _ _ _ Hok) as Hb.
  assert (Z.of_nat (length l) = Z.of_nat (length recs)) as El.
  { unfold l. rewrite <-(length_fmap rec_id (number_from _ recs)), number_from_ids. by rewrite length_fmap. }
  assert (forall a', count a' (tr ++ [EvCommit l]) = count a' tr + if bytes_eqb a a' then Z.of_nat (length recs) else 0) as Hc.
  { intros a'. unfold count. rewrite (of_aggregate_commit _ a) by done. rewrite length_app. destruct (bytes_eqb a a'); [lia|cbn; lia]. }
  split; [|done]. intros a'. rewrite Hc, (of_aggregate_commit _ a) by done. rewrite fmap_app, Hn.
  destruct (bytes_eqb_spec a a') as [<-|]; [|by rewrite Z.add_0_r, app_nil_r].
  unfold l. rewrite number_from_seq by (unfold count in *; lia). rewrite (Z.add_comm (count a tr) 1), <-seqZ_app; [done|unfold count; lia|lia].
Qed.

Lemma stored_rec_ok tr l r0 : r0 ∈ l -> rec_status r0 = OsPending -> rec_attempts r0 = 0 -> in_i64 (next_attempt_at_ms r0) ->
  rec_ok (tr ++ [EvCommit l]) r0.
Proof using Type.
  intros Hr Hs Ha Hn. split; [|done| |by rewrite Hs].
  - exists r0. split; [|done]. rewrite assigned_commit. apply elem_of_app. by right.
  - rewrite Ha. pose proof (deliveries_pos (rec_id r0) false (tr ++ [EvCommit l])). lia.
Qed.

(** Who owns the keys that a batch writes. *)
Lemma batch_keys (l : list OutboxRecord) k d : (k, d) ∈ l ≫= rows_of -> exists r, r ∈ l /\ (k, d) ∈ rows_of r.
Proof using Type. intros (r & Hd & Hr)%list_elem_of_bind. by exists r. Qed.
Lemma rows_of_cases r k d : (k, d) ∈ rows_of r ->
  (k = id_key (rec_id r) /\ d = DText (key_of r)) \/ (k = key_of r /\ d = DRecord r) \/
  (k = pending_key (next_attempt_at_ms r) (rec_id r) /\ d = DRecord r).
Proof using Type.
  unfold rows_of. rewrite !elem_of_cons, elem_of_nil. intros [[= -> ->]|[[= -> ->]|[[= -> ->]|[]]]]; auto.
Qed.

(** Two records of a run that write the same key are one. *)
Lemma rows_of_inj tr r r' k d d' :
  run_ok tr -> numbered tr -> r ∈ assigned tr -> r' ∈ assigned tr -> in_i64 (next_attempt_at_ms r) -> in_i64 (next_attempt_at_ms r') ->
  (k, d) ∈ rows_of r -> (k, d') ∈ rows_of r' -> r = r' /\ d = d'.
Proof using Type.
  intros Hok Hn Hr Hr' Ht Ht' H H'.
  assert (rec_id r = rec_id r' -> r = r') as Hid by (apply (fmap_nodup_eq rec_id (assigned tr)); [apply Hok|done|done]).
  assert (key_of r = key_of r' -> r = r') as Hkey.
  { intros E. apply key_of_inj in E as [Ea Es]; [|by eapply assigned_range..]. by eapply assigned_slot. }
  apply rows_of_cases in H as [[-> ->]|[[-> ->]|[-> ->]]]; apply rows_of_cases in H' as [[E ->]|[[E ->]|[E ->]]];
    try (exfalso; revert E; unfold key_of; differ).
  - apply id_key_inj, Hid in E as <-. done.
  - apply Hkey in E as <-. done.
  - apply pending_key_inj in E as [_ E]; [|done|done]. apply Hid in E as <-. done.
Qed.

Lemma commit_start tr kv a recs cur_bytes :
  let start := u64_wrap (sequence_of cur_bytes + 1) in
  rows_inv tr (kv_rows kv) -> recs <> [] -> forallb (holds kv) (outbox_compares a cur_bytes recs) = true ->
  run_ok (tr ++ [EvCommit (number_from start recs)]) -> start = count a tr + 1.
Proof using Type.
  intros start Hi Hne Hc Hok'. pose proof (run_ok_app _ _ Hok') as Hok. unfold start. rewrite (sequence_read tr kv a recs cur_bytes) by done.
  apply u64_wrap_id. destruct recs as [|r recs]; [done|]. pose proof (ro_size _ Hok') as Hs. rewrite assigned_commit, length_app in Hs. cbn in Hs.
  pose proof (filter_length_le (fun r0 => bytes_eqb (aggregate_id r0) a) (assigned tr)). unfold in_u64, count, of_aggregate. lia.
Qed.

(** The writes of a batch of [a] after [n] events. *)
Definition batch_ops (a : bytes) (n : Z) (recs : list OutboxRecord) : list (bytes * Doc) :=
  (seq_key a, DText (decimal (n + Z.of_nat (length recs)))) :: (number_from (n + 1) recs ≫= rows_of).

Lemma outbox_ops_batch a n recs :
  Forall (fun r => aggregate_id r = a) recs -> recs <> [] -> 0 <= n -> n + 1 + Z.of_nat (length recs) <= u64_modulus ->
  outbox_ops recs (n + 1) = batch_ops a n recs.
Proof using Type.
  intros Ha Hne Hn Hb. destruct recs as [|r recs]; [done|]. pose proof (Forall_inv Ha) as Hr. unfold outbox_ops, batch_ops. rewrite Hr. f_equal.
  - rewrite u64_wrap_id; [do 3 f_equal; lia|]. unfold in_u64. cbn [length] in *. lia.
  - by apply record_puts_rows.
Qed.

Lemma batch_ops_seq a n recs a' d : (seq_key a', d) ∈ batch_ops a n recs -> a' = a /\ d = DText (decimal (n + Z.of_nat (length recs))).
Proof using Type.
  intros [E|Hd]%elem_of_cons; [apply pair_equal_spec in E as [E ->]; split; [by apply seq_key_inj|done]|].
  apply batch_keys in Hd as (r & _ & [[E _]|[[E _]|[E _]]]%rows_of_cases); exfalso; revert E; unfold key_of; differ.
Qed.

(** What the transaction of a batch leaves in the rows of the outbox. *)
Lemma batch_vals tr rev rows a n recs puts puts' :
  let l := number_from (n + 1) recs in
  let rows' := foldl (put_row rev) rows (puts ++ batch_ops a n recs ++ puts') in
  run_ok (tr ++ [EvCommit l]) -> numbered (tr ++ [EvCommit l]) -> (forall r, r ∈ l -> in_i64 (next_attempt_at_ms r)) ->
  (forall k, k ∈ puts.*1 \/ k ∈ puts'.*1 -> ~ outbox_row k) ->
  (forall k, outbox_row k -> k ∉ (batch_ops a n recs).*1 -> val rows' k = val rows k) /\
  (forall k d, outbox_row k -> (k, d) ∈ batch_ops a n recs -> val rows' k = Some d).
Proof using Type.
  intros l rows' Hok Hn Ht Hputs.
  assert (forall r0, r0 ∈ l -> r0 ∈ assigned (tr ++ [EvCommit l])) as Hin by (intros; rewrite assigned_commit; apply elem_of_app; by right).
  assert (forall k, outbox_row k -> val rows' k = val (foldl (put_row rev) (foldl (put_row rev) rows puts) (batch_ops a n recs)) k) as Hv1.
  { intros k Hk. unfold rows'. rewrite !foldl_app. apply val_puts_other. intros Hin'. eapply Hputs; [right; exact Hin'|done]. }
  split; intros k.
  - intros Hk Hnk. rewrite Hv1, !val_puts_other; [done|intros Hin'; eapply Hputs; [left; exact Hin'|done]|done|done].
  - intros d Hk Hd. rewrite Hv1 by done. apply val_puts; [done|]. intros d' Hd'.
    apply elem_of_cons in Hd as Hs. destruct Hs as [[= -> ->]|Hs]; [by apply batch_ops_seq in Hd' as [_ ->]|].
    apply elem_of_cons in Hd' as [[= -> ->]|Hd']; [by apply batch_ops_seq in Hd as [_ ->]|].
    apply batch_keys in Hs as (r & Hr & Hs), Hd' as (r' & Hr' & Hd'). by destruct (rows_of_inj _ r r' k d d' Hok Hn) as [_ ?]; auto.
Qed.

Lemma rows_of_owned tr r k d : rec_ok tr r -> (k, d) ∈ rows_of r -> owned tr (rec_id r) k.
Proof using Type.
  intros [Hk Hn _ _] [[-> _]|[[-> _]|[-> _]]]%rows_of_cases; [by left|right; left; by exists r|right; right; by eexists].
Qed.

Lemma batch_not_owned tr a n recs id k :
  let l := number_from (n + 1) recs in
  run_ok (tr ++ [EvCommit l]) -> numbered (tr ++ [EvCommit l]) -> (forall r, r ∈ l -> rec_ok (tr ++ [EvCommit l]) r) ->
  id ∈ rec_id <$> assigned tr -> owned tr id k -> k ∉ (batch_ops a n recs).*1.
Proof using Type.
  intros l Hok Hn Hl Hid Ho Hin. apply list_elem_of_fmap in Hin as ([k' d] & -> & Hin). cbn [fst] in *.
  apply elem_of_cons in Hin as [[= -> _]|Hin]; [by apply seq_not_owned in Ho|].
  apply batch_keys in Hin as (r & Hr & Hc). apply (rows_of_owned (tr ++ [EvCommit l])) in Hc; [|by apply Hl].
  apply (owned_mono _ [EvCommit l]) in Ho. pose proof (owned_disjoint _ _ _ _ Hok Hn Hc Ho) as <-.
  pose proof (ro_ids _ Hok) as Hnd. rewrite assigned_commit, fmap_app, NoDup_app in Hnd. destruct Hnd as (_ & Hnd & _).
  apply (Hnd (rec_id r) Hid), list_elem_of_fmap. by exists r.
Qed.

Lemma commit_inv tr kv a recs cur_bytes puts puts' :
  rows_inv tr (kv_rows kv) -> recs <> [] ->
  Forall (fun r => aggregate_id r = a /\ rec_attempts r = 0 /\ in_i64 (next_attempt_at_ms r)) recs ->
  (forall k, k ∈ puts.*1 \/ k ∈ puts'.*1 -> ~ outbox_row k) ->
  forallb (holds kv) (outbox_compares a cur_bytes recs) = true ->
  let start := u64_wrap (sequence_of cur_bytes + 1) in
  run_ok (tr ++ [EvCommit (number_from start recs)]) ->
  rows_inv (tr ++ [EvCommit (number_from start recs)])
    (foldl (put_row (kv_revision kv + 1)) (kv_rows kv) (puts ++ outbox_ops recs start ++ puts')).
Proof using Type.
  intros Hi Hne Hrecs Hputs Hc start Hok'. pose proof (commit_start tr kv a recs cur_bytes Hi Hne Hc Hok') as Es.
  unfold start in *. rewrite Es in *. clear start Es Hc. set (l := number_from (count a tr + 1) recs) in *.
  set (tr' := tr ++ [EvCommit l]) in *. pose proof (commit_sequence _ _ _ Hok') as Hb.
  assert (forall r0, r0 ∈ l -> aggregate_id r0 = a /\ rec_ok tr' r0 /\ rec_status r0 = OsPending) as Hl.
  { intros r0 Hr0. destruct (number_from_elem _ _ _ Hr0) as (r & k & Hr & ->).
    rewrite Forall_forall in Hrecs. destruct (Hrecs r Hr) as (H1 & H2 & H3). split_and!; [done|by apply stored_rec_ok|done]. }
  destruct (numbered_commit tr a recs (ri_numbered _ _ Hi) Hok') as [Hn' Hc']; [apply Forall_forall; intros r0 Hr0; by apply Hl|]. fold l tr' in Hn', Hc'.
  rewrite (outbox_ops_batch a) by (done || (unfold count; lia) || (eapply Forall_impl; [exact Hrecs|]; by intros r1 (? & _))).
  destruct (batch_vals tr (kv_revision kv + 1) (kv_rows kv) a (count a tr) recs puts puts' Hok' Hn') as [Hold Hnew];
    [intros r Hr; by apply Hl|done|]. set (rows' := foldl _ _ _) in *. fold l in Hold, Hnew.
  assert (assigned tr' = assigned tr ++ l) as Eas by apply assigned_commit.
  assert (forall r0, r0 ∈ l -> r0 ∈ assigned tr') as Hin by (intros; rewrite Eas; apply elem_of_app; by right).
  assert (forall r0 kd, r0 ∈ l -> kd ∈ rows_of r0 -> kd ∈ batch_ops a (count a tr) recs) as Hops.
  { intros r0 kd Hr0 Hkd. right. apply list_elem_of_bind. by exists r0. }
  split; [exact Hn'|..].
  - intros a'. rewrite Hc'. destruct (bytes_eqb_spec a a') as [<-|Hne'].
    + rewrite (Hnew (seq_key a) (DText (decimal (count a tr + Z.of_nat (length recs)))) (seq_row a)) by (by left).
      rewrite (proj2 (Z.eqb_neq _ _)); [done|]. destruct recs; [done|]. cbn [length]. unfold count. lia.
    + rewrite Z.add_0_r, Hold; [apply Hi|apply seq_row|]. intros ([k d] & E & Hkd)%list_elem_of_fmap. cbn in E. subst k.
      apply batch_ops_seq in Hkd as [-> _]. done.
  - intros k d Hk Hv. destruct (decide (k ∈ (batch_ops a (count a tr) recs).*1)) as [Hin'|Hnin].
    + apply list_elem_of_fmap in Hin' as ([k' d'] & -> & Hkd). rewrite (Hnew _ d' Hk Hkd) in Hv. injection Hv as <-.
      apply elem_of_cons in Hkd as [[= -> _]|Hkd]; [apply row_seq|].
      apply batch_keys in Hkd as (r & Hr & [[-> ->]|[[-> ->]|[-> ->]]]%rows_of_cases); destruct (Hl r Hr) as (_ & Hrk & Hrs);
        [apply row_id; by apply Hin|by apply row_record|by apply row_pending].
    + rewrite (Hold _ Hk Hnin) in Hv. apply row_ok_mono. by apply (ri_row _ _ Hi).
  - intros r0. rewrite Eas, elem_of_app. intros [Hr0|Hr0].
    + destruct (ri_held _ _ Hi r0 Hr0) as [?|Hh]; [left; by apply settled_mono|right].
      apply (held_kept tr (kv_rows kv)); [by eapply run_ok_app|done|done| |done]. intros k Hk Ho. apply Hold; [done|].
      eapply batch_not_owned; [exact Hok'|exact Hn'|intros r1 Hr1; by apply Hl| |exact Ho]. apply list_elem_of_fmap. by exists r0.
    + right. destruct (Hl r0 Hr0) as (_ & _ & Hs). exists r0, r0. split_and!; [| |done|]; apply Hnew; try (by eexists); eapply Hops; try exact Hr0;
        unfold rows_of; rewrite !elem_of_cons; auto.
Qed.

(** ** The relay *)

Definition relay_ok (tr : list ObEvent) (ph : RPhase) : Prop :=
  match ph with
  | RIdle | RDone _ => True
  | RDeliver _ _ todo => Forall (rec_ok tr) todo
  | RFind _ _ todo id m => Forall (rec_ok tr) todo /\ mark_ok tr id m
  | RRead _ _ todo key m => Forall (rec_ok tr) todo /\ exists r0, r0 ∈ assigned tr /\ key = key_of r0 /\ mark_ok tr (rec_id r0) m
  | RWrite _ _ todo r m => Forall (rec_ok tr) todo /\ rec_ok tr r /\ mark_ok tr (rec_id r) m
  | RPrune _ _ rows => Forall (fun kr : bytes * KvRow => forall r, row_value kr.2 = DRecord r -> kr.1 = key_of r) rows
  end.

Lemma recs_ok_mono tr l rs : Forall (rec_ok tr) rs -> Forall (rec_ok (tr ++ l)) rs.
Proof using Type. intros H. eapply Forall_impl; [exact H|]. intros r. apply rec_ok_mono. Qed.

Lemma relay_ok_mono tr l ph : relay_ok tr ph -> relay_ok (tr ++ l) ph.
Proof using Type.
  destruct ph; cbn; try done; [apply recs_ok_mono|..].
  - intros [? ?]. split; [by apply recs_ok_mono|by apply mark_ok_mono].
  - intros (? & r0 & ? & ? & ?). split; [by apply recs_ok_mono|]. exists r0. rewrite assigned_app, elem_of_app. split_and!; [by left|done|by apply mark_ok_mono].
  - intros (? & ? & ?). split_and!; [by apply recs_ok_mono|by apply rec_ok_mono|by apply mark_ok_mono].
Qed.

Lemma kv_range_elem prefix kv k row : (k, row) ∈ kv_range window prefix kv -> kv_rows kv !! k = Some row /\ exists rest, k = prefix ++ rest.
Proof using Type.
  unfold kv_range. set (l := List.filter _ _). intros H. assert ((k, row) ∈ l) as Hl by (rewrite <-(take_drop window l); apply elem_of_app; by left).
  clear H. rename Hl into H. apply elem_of_List_filter in H. unfold entries in H. rewrite merge_sort_Permutation in H.
  rewrite elem_of_map_to_list in H. cbn [fst] in H. rewrite starts_with_spec in H. tauto.
Qed.

Lemma pending_loop_elem now n rows r : r ∈ pending_loop now n rows -> exists k row, (k, row) ∈ rows /\ row_value row = DRecord r.
Proof using Type.
  revert n. induction rows as [|[k row] rows IH]; intros n; cbn [pending_loop]; [by intros ?%elem_of_nil|].
  assert (forall n, r ∈ pending_loop now n rows -> exists k0 row0, (k0, row0) ∈ (k, row) :: rows /\ row_value row0 = DRecord r) as Hgo.
  { intros n' (k0 & row0 & ? & ?)%IH. exists k0, row0. split; [by right|done]. }
  destruct (pending_time k); [|apply Hgo]. destruct (now <? z); [by intros ?%elem_of_nil|].
  destruct (row_value row) as [| |r1|] eqn:E; try apply Hgo. destruct (bool_decide _); [|apply Hgo].
  intros [->|H]%elem_of_cons; [exists k, row; split; [by left|done]|].
  destruct (n <=? 1)%nat; [by apply elem_of_nil in H|by eapply Hgo].
Qed.

Lemma insert_record_perm r l : insert_record r l ≡ₚ r :: l.
Proof using Type.
  induction l as [|x l IH]; [done|]. cbn [insert_record]. destruct (record_ltb r x); [done|]. rewrite IH. apply Permutation_swap.
Qed.
Lemma sort_records_perm l : sort_records l ≡ₚ l.
Proof using Type.
  unfold sort_records. assert (forall acc, foldl (fun acc r => insert_record r acc) acc l ≡ₚ l ++ acc) as H; [|by rewrite H, app_nil_r].
  induction l as [|r l IH]; intros acc; [done|]. cbn [foldl]. rewrite IH, insert_record_perm. symmetry. apply Permutation_middle.
Qed.

Lemma record_doc_ok tr k d r : row_ok tr k d -> d = DRecord r -> (forall a, k <> seq_key a) -> rec_ok tr r.
Proof using Type. intros [r1 ?|r1 ? ?|r1 ?|a ?] E Hn; [by injection E as <-|by injection E as <-|done|by destruct (Hn a)]. Qed.

Lemma polled_ok tr now limit kv : rows_inv tr (kv_rows kv) -> Forall (rec_ok tr) (pending window now limit kv).
Proof using Type.
  intros Hi. apply Forall_forall. intros r (k & row & Hin & Hr)%pending_loop_elem. apply kv_range_elem in Hin as [Hk [rest ->]].
  apply (record_doc_ok tr (pending_prefix ++ rest) (row_value row) r); [apply (ri_row _ _ Hi); [by eexists|unfold val; by rewrite Hk]|done|intros a; differ].
Qed.

Lemma records_ok tr kv : rows_inv tr (kv_rows kv) ->
  Forall (fun kr : bytes * KvRow => forall r, row_value kr.2 = DRecord r -> kr.1 = key_of r) (kv_range window records_prefix kv).
Proof using Type.
  intros Hi. apply Forall_forall. intros [k row] Hin r Hr. apply kv_range_elem in Hin as [Hk [rest ->]]. cbn [fst snd] in *.
  assert (row_ok tr (records_prefix ++ rest) (DRecord r)) as Hok by (apply (ri_row _ _ Hi); [by eexists|unfold val; rewrite Hk; cbn; by rewrite Hr]).
  remember (records_prefix ++ rest) as k eqn:Ek. remember (DRecord r) as d eqn:Ed.
  destruct Hok as [r1 ?|r1 ? ?|r1 ?|a ?]; [by injection Ed as <-|exfalso; revert Ek; differ..].
Qed.

Lemma deliveries_one id a r a' : deliveries id a [EvDeliver r a'] = if bytes_eqb (rec_id r) id && Bool.eqb a' a then 1 else 0.
Proof using Type. unfold deliveries. cbn. by destruct (_ && _). Qed.

Lemma mark_for_ok tr now r accepted : rec_ok tr r -> mark_ok (tr ++ [EvDeliver r accepted]) (rec_id r) (mark_for pol now r accepted).
Proof using Type.
  intros [_ _ Ha _]. pose proof (deliveries_pos (rec_id r) true tr). unfold mark_for. destruct accepted.
  - cbn. rewrite deliveries_app, deliveries_one. destruct (bytes_eqb_spec (rec_id r) (rec_id r)); [cbn; lia|done].
  - assert (deliveries (rec_id r) false (tr ++ [EvDeliver r false]) = deliveries (rec_id r) false tr + 1) as E.
    { rewrite deliveries_app, deliveries_one. by destruct (bytes_eqb_spec (rec_id r) (rec_id r)). }
    assert (0 <= u32_wrap (rec_attempts r + 1) <= rec_attempts r + 1) as Hw.
    { unfold u32_wrap. split; [apply Z.mod_pos_bound; done|apply Z.mod_le; [lia|done]]. }
    destruct (Z.leb_spec (max_attempts pol) (u32_wrap (rec_attempts r + 1))); cbn; rewrite E.
    + lia.
    + split; [apply i64_wrap_range|lia].
Qed.

Lemma rows_inv_events tr rows ph accepted :
  rows_inv tr rows -> rows_inv (tr ++ option_list ((fun r => EvDeliver r accepted) <$> offered ph)) rows.
Proof using Type. intros Hi. destruct (offered ph); cbn; [by apply rows_inv_deliver|by rewrite app_nil_r]. Qed.

Lemma relay_inv tr clock accepted ph kv ph' kv' :
  let tr' := tr ++ option_list ((fun r => EvDeliver r accepted) <$> offered ph) in
  run_ok tr' -> rows_inv tr (kv_rows kv) -> relay_ok tr ph -> relay_step window pol clock accepted ph kv = (ph', kv') ->
  rows_inv tr' (kv_rows kv') /\ relay_ok tr' ph'.
Proof using Type.
  intros tr' Hok Hi Hp Hs. pose proof (rows_inv_events tr _ ph accepted Hi) as Hi'. fold tr' in Hi'.
  pose proof (relay_ok_mono _ (option_list ((fun r => EvDeliver r accepted) <$> offered ph)) _ Hp) as Hp'. fold tr' in Hp'.
  destruct ph as [|now rep [|r todo]|now rep todo id m|now rep todo key m|now rep todo r m|now rep [|[key row] rows]|res]; cbn [relay_step] in Hs; cbn [relay_ok] in Hp'.
  - injection Hs as <- <-. split; [done|]. cbn [relay_ok]. rewrite sort_records_perm. by apply polled_ok.
  - destruct (batch pol =? 0)%nat; injection Hs as <- <-; (split; [done|]); [done|]. by apply (records_ok tr').
  - injection Hs as <- <-. split; [done|]. cbn [relay_ok]. apply Forall_cons in Hp' as [_ Hp']. split; [done|].
    apply mark_for_ok. by apply Forall_cons in Hp as [Hr _].
  - destruct Hp' as [Hp' Hm]. destruct (row_value <$> _) as [[| | |key]|] eqn:E; injection Hs as <- <-; (split; [done|]); try done.
    cbn [relay_ok]. split; [done|]. apply (ri_row _ _ Hi') in E; [|apply id_row].
    destruct (id_row_ok _ _ _ E id eq_refl) as (r0 & [= ->] & <- & Hr0). by exists r0.
  - destruct Hp' as (Hp' & r0 & Hr0 & -> & Hm). destruct (row_value <$> _) as [[| |r|]|] eqn:E; injection Hs as <- <-; (split; [done|]); try done.
    cbn [relay_ok]. destruct (held_record _ _ _ _ Hok Hi' Hr0 E) as [Hr Hse]. pose proof (same_event_parts _ _ Hse) as (<- & _). done.
  - injection Hs as <- <-. destruct Hp' as (Hp' & Hr & Hm). split; [|done]. by apply mark_inv.
  - by injection Hs as <- <-.
  - destruct (batch pol <=? rr_pruned rep)%nat; [by injection Hs as <- <-|]. apply Forall_cons in Hp' as [Hk Hp'].
    destruct (row_value row) as [| |r|] eqn:Er; try (injection Hs as <- <-; done).
    destruct (past_retention _ _ r) eqn:Hret; [|injection Hs as <- <-; done].
    pose proof (Hk r Er) as Ek. cbn [fst] in Ek. rewrite Ek in Hs. clear Ek. unfold prune_txn in Hs. destruct (row_value <$> _) as [[| |r'|]|] eqn:E; try (injection Hs as <- <-; done).
    destruct (bool_decide_reflect (r' = r)) as [->|]; injection Hs as <- <-; [|done]. split; [|done]. by eapply prune_inv.
  - by injection Hs as <- <-.
Qed.

(** ** Runs *)

Record ob_inv (tr : list ObEvent) (s : Outbox) : Prop := {
  oi_rows : rows_inv tr (kv_rows (ob_kv s));
  oi_relays : Forall (relay_ok tr) (ob_relays s) }.

Lemma relays_mono tr l phs : Forall (relay_ok tr) phs -> Forall (relay_ok (tr ++ l)) phs.
Proof using Type. intros H. eapply Forall_impl; [exact H|]. intros ph. apply relay_ok_mono. Qed.

Lemma ob_step_inv tr s l s' : run_ok (tr ++ l) -> ob_inv tr s -> ob_step window pol s l s' -> ob_inv (tr ++ l) s'.
Proof using Type.
  intros Hok [Hi Hr] Hs. destruct Hs as [kv' l s Hc|s|i s|i ph clock accepted ph' kv' s Hph Hs].
  - split; cbn; [|by apply relays_mono]. destruct Hc as [kv kv' Hq|kv a recs cur_bytes puts puts' Hne Hnd Hrecs Hputs Hc].
    + rewrite app_nil_r. by eapply rows_inv_quiet.
    + by apply (commit_inv tr kv a recs cur_bytes).
  - rewrite app_nil_r. split; [done|]. cbn. apply Forall_app. split; [done|]. by apply Forall_singleton.
  - rewrite app_nil_r. split; [done|]. cbn. by apply Forall_insert.
  - assert (relay_ok tr ph) as Hp by (eapply Forall_lookup_1; [exact Hr|exact Hph]).
    destruct (relay_inv tr clock accepted ph (ob_kv s) ph' kv' Hok Hi Hp Hs) as [H1 H2].
    split; [done|]. cbn. apply Forall_insert; [by apply relays_mono|done].
Qed.

Lemma empty_outbox_inv : ob_inv [] empty_outbox.
Proof using Type.
  split; [|by constructor]. split; cbn; [done|done|by intros k d _|by intros r0 ?%elem_of_nil].
Qed.

Lemma ob_run_inv tr s : ob_run window pol empty_outbox tr s -> run_ok tr -> ob_inv tr s.
Proof using Type.
  intros Hr. remember empty_outbox as s0 eqn:E. revert E. induction Hr as [s|s s' s'' l ls Hr IH Hs]; intros -> Hok; [apply empty_outbox_inv|].
  eapply ob_step_inv; [done| |exact Hs]. apply IH; [done|]. by eapply run_ok_app.
Qed.

(** C13: events are delivered at least once.  Whatever clients and relays do,
    and wherever relays stop, an event that has been committed has been accepted
    by a sink, or refused as often as the policy allows, or it is in the outbox:
    its record is pending, found by its identity, and the pending index has an
    entry for it at the time of its next attempt.  And whatever is handed to a
    sink is a committed event, unchanged. *)
Theorem events_at_least_once tr s r0 :
  ob_run window pol empty_outbox tr s -> run_ok tr -> r0 ∈ assigned tr ->
  (0 < deliveries (rec_id r0) true tr \/ max_attempts pol <= deliveries (rec_id r0) false tr \/ held (kv_rows (ob_kv s)) r0) /\
  (forall i now rep r todo, ob_relays s !! i = Some (RDeliver now rep (r :: todo)) -> committed_event tr r).
Proof using Type.
  intros Hr Hok Hr0. destruct (ob_run_inv _ _ Hr Hok) as [Hi Hp]. split.
  - destruct (ri_held _ _ Hi r0 Hr0) as [[?|?]|?]; auto.
  - intros i now rep r todo Hph. eapply Forall_lookup_1 in Hp; [|exact Hph]. apply Forall_cons in Hp as [Hk _]. apply Hk.
Qed.

(** C16: sequence numbers are consecutive.  The events of an aggregate are
    numbered 1, 2, 3, ... in the order of their commits, however clients and
    relays interleave and whatever has been reclaimed; the counter holds the
    last number. *)
Theorem sequences_consecutive tr s a :
  ob_run window pol empty_outbox tr s -> run_ok tr ->
  sequence <$> List.filter (fun r => bytes_eqb (aggregate_id r) a) (assigned tr) =
    seqZ 1 (Z.of_nat (length (List.filter (fun r => bytes_eqb (aggregate_id r) a) (assigned tr)))) /\
  (read_sequence (ob_kv s) a).1 = Z.of_nat (length (List.filter (fun r => bytes_eqb (aggregate_id r) a) (assigned tr))).
Proof using Type.
  intros Hr Hok. destruct (ob_run_inv _ _ Hr Hok) as [Hi _]. split; [apply (ri_numbered _ _ Hi a)|].
  pose proof (ri_counter _ _ Hi a) as Hv. unfold val in Hv. unfold read_sequence. fold (of_aggregate a tr). fold (count a tr).
  destruct (Z.eqb_spec (count a tr) 0) as [E|Hne]; destruct (kv_rows _ !! _) as [[d v mr]|]; try done.
  change (Some d = Some (DText (decimal (count a tr)))) in Hv. apply (inj Some) in Hv as ->. cbv iota beta. rewrite decimal_parse; [done|]. pose proof (ro_size _ Hok). unfold in_u64, count, of_aggregate.
  pose proof (filter_length_le (fun r => bytes_eqb (aggregate_id r) a) (assigned tr)). lia.
Qed.

End relays.

(** ** Clients *)

Lemma distinct_nodup l : distinct l = true -> NoDup l.
Proof.
  induction l as [|x l IH]; [constructor|]. cbn [distinct]. intros [H1 H2]%andb_prop. constructor; [|by apply IH].
  intros Hx%list_elem_of_In. apply negb_true_iff, not_true_iff_false in H1. apply H1, existsb_exists. exists x. split; [done|].
  by destruct (bytes_eqb_spec x x).
Qed.

Lemma read_sequence_of kv a cur cur_bytes : read_sequence kv a = (cur, cur_bytes) -> cur = sequence_of cur_bytes.
Proof.
  unfold read_sequence. destruct (kv_rows kv !! seq_key a) as [[[| | |x] v mr]|]; try (by intros [= <- <-]).
Qed.

(** A batch that a client may commit. *)
Definition batch_ok (aggregate : bytes) (recs : list OutboxRecord) : Prop :=
  NoDup (rec_id <$> recs) /\ Forall (fun r => aggregate_id r = aggregate /\ rec_attempts r = 0 /\ in_i64 (next_attempt_at_ms r)) recs.

(** The transaction of a client is one step, whether it goes through or not. *)
Lemma txn_client a recs cur cur_bytes compares puts puts' kv ok kv' :
  batch_ok a recs -> cur = sequence_of cur_bytes -> (forall k, k ∈ puts.*1 \/ k ∈ puts'.*1 -> ~ outbox_row k) ->
  kv_txn (outbox_compares a cur_bytes recs ++ compares) (puts ++ outbox_ops recs (u64_wrap (cur + 1)) ++ puts') kv = (ok, kv') ->
  client_step kv (if ok && negb (bool_decide (recs = [])) then [EvCommit (number_from (u64_wrap (cur + 1)) recs)] else []) kv'.
Proof.
  intros [Hnd Hrecs] -> Hputs. unfold kv_txn. destruct (forallb _ _) eqn:Hc; intros [= <- <-]; [|by apply client_quiet]. rewrite forallb_app in Hc.
  apply andb_prop in Hc as [Hc _]. destruct (bool_decide_reflect (recs = [])) as [->|Hne]; cbn [andb negb].
  - apply client_quiet. intros k Hk. cbn [kv_rows]. apply put_other. rewrite fmap_app, elem_of_app. cbn [outbox_ops app].
    intros Hin. by apply (Hputs k) in Hk.
  - by apply (client_commit kv a).
Qed.

(** [append] and [commit_state_and_outbox_batch] are clients, and with them any
    number of calls to them. *)
Definition appending_ok (x : Appending) : Prop :=
  batch_ok (ap_aggregate x) (ap_records x) /\ (forall k, k ∈ (ap_puts x).*1 -> ~ outbox_row k).
Definition append_ok (ph : APhase) : Prop := match ph with ATxn _ cur cur_bytes => cur = sequence_of cur_bytes | _ => True end.

Lemma append_missing_ok n : append_ok (append_missing n).
Proof. by destruct n. Qed.
Lemma append_present_ok n x rest : append_ok (append_present n x rest).
Proof. unfold append_present. destruct rest; [|done]. case_bool_decide; [apply append_missing_ok|done]. Qed.

Lemma append_client x ph kv ph' kv' :
  appending_ok x -> append_ok ph -> append_step x ph kv = (ph', kv') -> append_ok ph' /\ exists l, client_step kv l kv'.
Proof.
  intros [Hb Hputs] Hp.
  assert (exists l, client_step kv l kv) as Hq by (exists []; by apply client_quiet).
  destruct ph as [n [|r rest]|n key rest|n|n cur cur_bytes|res]; cbn [append_step].
  - intros [= <- <-]. split; [apply (append_present_ok n x [])|done].
  - destruct (row_value <$> _) as [[]|]; intros [= <- <-]; (split; [|done]); first [apply append_missing_ok|done].
  - destruct (row_value <$> _) as [[]|]; intros [= <- <-]; (split; [|done]); first [apply append_missing_ok|apply append_present_ok|done].
  - destruct (read_sequence _ _) as [cur bs] eqn:E. intros [= <- <-]. split; [by apply read_sequence_of in E|done].
  - destruct (kv_txn _ _ _) as [ok kv2] eqn:E. intros [= <- <-]. split; [destruct ok; [done|apply append_present_ok]|]. eexists.
    apply (txn_client _ _ cur cur_bytes (ap_compares x) (ap_puts x) [] kv ok kv2 Hb Hp); [|by rewrite app_nil_r].
    intros k [Hk|Hk]; [by apply Hputs|by apply elem_of_nil in Hk].
  - by intros [= <- <-].
Qed.

(** ** Approvals and the outbox together *)

Section joint.
Context (evaluate : bytes -> Value -> option Value).
Context (duration_ms : bytes -> option Z).
Context (resolve : bytes -> option (list Principal)).
Context (window : nat) (pol : RelayPolicy).

Abbreviation call_attempt := (call_attempt evaluate duration_ms resolve).
Abbreviation call_step := (call_step evaluate duration_ms resolve).

Lemma records_fresh id o rev now n events :
  records_from id o rev now n = inr events -> Forall (fun r => rec_attempts r = 0 /\ next_attempt_at_ms r = now) events.
Proof using Type.
  revert n events. induction o as [|f o IH]; intros n events; cbn [records_from]; [by intros [= <-]|].
  destruct f; try apply IH. unfold event_record. destruct (existsb _ _); [|done]. destruct (records_from _ _ _ _ _) as [|rs] eqn:E; [done|].
  intros [= <-]. constructor; [done|by eapply IH].
Qed.

Lemma call_events_fresh x now loaded e events ex idem r :
  call_attempt x now loaded = Commit e events ex idem r -> Forall (fun r => rec_attempts r = 0 /\ next_attempt_at_ms r = now) events.
Proof using Type.
  intros H. assert (exists id o rev, effects_to_records id o rev now = inr events) as (id & o & rev & E); [|by eapply records_fresh].
  destruct x; unfold ApprovalBridge.call_attempt, command_attempt, ensure_attempt, expire_attempt, finish_attempt, terminate_attempt in H;
    repeat case_match; try done; apply commit_run_inv in H as (o & _ & E & _); eauto.
Qed.

(** What the phases of a call know of its events. *)
Definition events_ok (p : Pending) : Prop := batch_ok (inst_id (instance (pd_engine p))) (pd_events p).
Definition call_ok (ph : Phase) : Prop :=
  match ph with
  | CRead _ _ p | CEvents _ _ p _ _ | CRecord _ _ p _ _ _ | CSequence _ _ p => events_ok p
  | CTxn _ _ p cur cur_bytes => events_ok p /\ cur = sequence_of cur_bytes
  | _ => True
  end.

Lemma begin_commit_ok a p now :
  in_i64 now -> Forall (fun r => rec_attempts r = 0 /\ next_attempt_at_ms r = now) (pd_events p) -> call_ok (begin_commit a p).
Proof using Type.
  intros Hnow Hf. unfold begin_commit. destruct (rev_allowed _); [|done]. destruct (aggregates_match _ _) eqn:Ha; [|done]. cbn.
  unfold aggregates_match in Ha. apply andb_prop in Ha as [Ha Hd]. split; [by apply distinct_nodup|].
  rewrite forallb_forall in Ha. apply Forall_forall. intros r Hr. rewrite Forall_forall in Hf. destruct (Hf r Hr) as [H1 ->].
  apply list_elem_of_In, Ha in Hr. by destruct (bytes_eqb_spec (aggregate_id r) (inst_id (instance (pd_engine p)))).
Qed.

Lemma committed_call_ok a p ok : call_ok (committed a p ok).
Proof using Type. unfold committed. destruct ok; [done|]. by destruct (_ <=? _)%nat. Qed.
Lemma retry_call_ok a n p : events_ok p -> call_ok (retry_commit a n p).
Proof using Type. intros Hp. destruct n as [|[|n]]; [apply committed_call_ok|apply committed_call_ok|done]. Qed.
Lemma not_replayed_call_ok a n p cur : events_ok p -> call_ok (not_replayed a n p cur).
Proof using Type. intros Hp. unfold not_replayed. destruct (instance_predicate_holds _ _); [done|apply committed_call_ok]. Qed.
Lemma events_left_call_ok a n p cur rest : events_ok p -> call_ok (events_left a n p cur rest).
Proof using Type. intros Hp. destruct rest; [apply committed_call_ok|done]. Qed.

(** The events a step of a call commits. *)
Definition call_events (ph : Phase) (kv : Kv) : list ObEvent :=
  match ph with
  | CTxn _ _ p cur cur_bytes =>
    if forallb (holds kv) (commit_compares p cur_bytes) && negb (bool_decide (pd_events p = []))
    then [EvCommit (number_from (u64_wrap (cur + 1)) (pd_events p))] else []
  | _ => []
  end.

Lemma call_client x now ph kv ph' kv' :
  in_i64 now -> call_ok ph -> call_step x now ph kv = (ph', kv') -> call_ok ph' /\ client_step kv (call_events ph kv) kv'.
Proof using Type.
  intros Hnow Hp. assert (client_step kv [] kv) as Hq by (by apply client_quiet).
  destruct ph as [a|a|a n p|a n p cur rest|a n p cur key rest|a n p|a n p cur bs|r]; cbn [ApprovalStore.call_step call_events call_ok] in *.
  - destruct (call_key x); [|by intros [= <- <-]]. destruct (load_idem _ _ _) as [|[|]]; by intros [= <- <-].
  - destruct (read_instance _ _) as [|loaded]; [by intros [= <- <-]|]. destruct (call_attempt _ _ _) as [|e events ex idem r] eqn:E; [by intros [= <- <-]|].
    intros [= <- <-]. split; [|done]. apply (begin_commit_ok _ _ now); [done|]. by eapply call_events_fresh.
  - destruct (read_instance _ _) as [|cur]; [by intros [= <- <-]|]. intros [= <- <-]. split; [|done].
    destruct (replay_matches _ _); [by apply events_left_call_ok|by apply not_replayed_call_ok].
  - destruct rest as [|r rest]; [intros [= <- <-]; done|].
    destruct (row_value <$> _) as [[]|]; intros [= <- <-]; (split; [|done]); try done; by apply not_replayed_call_ok.
  - destruct (row_value <$> _) as [[]|]; intros [= <- <-]; (split; [|done]); try done; [by apply events_left_call_ok|by apply not_replayed_call_ok].
  - destruct (read_sequence _ _) as [cur bs] eqn:E. intros [= <- <-]. split; [|done]. split; [done|by apply read_sequence_of in E].
  - destruct Hp as [Hp Hcur]. destruct (kv_txn _ _ _) as [ok kv2] eqn:E. intros [= <- <-]. split; [destruct ok; [done|by apply retry_call_ok]|].
    replace (forallb (holds kv) (commit_compares p bs)) with ok by (unfold kv_txn in E; destruct (forallb _ _); by injection E as <- _).
    unfold commit_compares, commit_puts in E. rewrite app_comm_cons in E.
    eapply (txn_client _ (pd_events p) cur bs _ [_] _ kv ok kv2 Hp Hcur); [|exact E].
    intros k [Hk|Hk].
    + apply list_elem_of_singleton in Hk as ->. apply instance_not_outbox.
    + destruct (pd_idem p); [|by apply elem_of_nil in Hk]. apply list_elem_of_singleton in Hk as ->. apply idem_not_outbox.
  - by intros [= <- <-].
Qed.

(** Calls of the approval bridge and relays of the outbox on one store, with
    other clients of the outbox. *)
Record Joint := { jt_system : System; jt_relays : list RPhase }.

Definition with_call (s : System) (kv : Kv) (i : nat) (c : Running) (ph : Phase) : System :=
  {| sys_kv := kv; sys_calls := <[i := {| rc_call := rc_call c; rc_now := rc_now c; rc_phase := ph |}]> (sys_calls s) |}.
Definition with_kv (kv : Kv) (s : System) : System := {| sys_kv := kv; sys_calls := sys_calls s |}.

Inductive joint_step : Joint -> list ObEvent -> Joint -> Prop :=
  | joint_arrive x now s :
      valid_call x -> in_i64 now ->
      joint_step s [] {| jt_system := {| sys_kv := sys_kv (jt_system s);
          sys_calls := sys_calls (jt_system s) ++ [{| rc_call := x; rc_now := now; rc_phase := start_phase evaluate resolve x |}] |};
        jt_relays := jt_relays s |}
  | joint_call i c ph kv' s :
      sys_calls (jt_system s) !! i = Some c -> step_fits evaluate resolve c (sys_kv (jt_system s)) ->
      call_step (rc_call c) (rc_now c) (rc_phase c) (sys_kv (jt_system s)) = (ph, kv') ->
      joint_step s (call_events (rc_phase c) (sys_kv (jt_system s)))
        {| jt_system := with_call (jt_system s) kv' i c ph; jt_relays := jt_relays s |}
  | joint_client kv' l s :
      client_step (sys_kv (jt_system s)) l kv' -> others_step (sys_kv (jt_system s)) kv' ->
      joint_step s l {| jt_system := with_kv kv' (jt_system s); jt_relays := jt_relays s |}
  | joint_start s : joint_step s [] {| jt_system := jt_system s; jt_relays := jt_relays s ++ [RIdle] |}
  | joint_restart i s : joint_step s [] {| jt_system := jt_system s; jt_relays := <[i := RIdle]> (jt_relays s) |}
  | joint_relay i ph clock accepted ph' kv' s :
      jt_relays s !! i = Some ph -> relay_step window pol clock accepted ph (sys_kv (jt_system s)) = (ph', kv') ->
      joint_step s (option_list ((fun r => EvDeliver r accepted) <$> offered ph))
        {| jt_system := with_kv kv' (jt_system s); jt_relays := <[i := ph']> (jt_relays s) |}.

Definition empty_joint : Joint := {| jt_system := empty_system; jt_relays := [] |}.

Inductive joint_run : list ObEvent -> Joint -> Prop :=
  | joint_nil : joint_run [] empty_joint
  | joint_cons s s' l ls : joint_run ls s -> joint_step s l s' -> joint_run (ls ++ l) s'.

(** Relays leave the approvals alone. *)
Definition prunes_records (ph : RPhase) : Prop :=
  match ph with RPrune _ _ rows => Forall (fun kr : bytes * KvRow => exists rest, kr.1 = records_prefix ++ rest) rows | _ => True end.

Lemma ops_other rev ops rows k :
  (forall op, op ∈ ops -> match op with OpPut k' _ | OpDel k' => k' <> k end) -> foldl (apply_op rev) rows ops !! k = rows !! k.
Proof using Type.
  revert rows. induction ops as [|op ops IH]; intros rows H; [done|]. cbn [foldl]. rewrite IH by (intros op' Hop; apply H; by right).
  assert (op ∈ op :: ops) as Hop%H by (by left). destruct op; cbn [apply_op]; [|by rewrite lookup_delete_ne]. unfold put_row. by rewrite lookup_insert_ne.
Qed.

Lemma relay_others clock accepted ph kv ph' kv' :
  prunes_records ph -> relay_step window pol clock accepted ph kv = (ph', kv') -> prunes_records ph' /\ others_step kv kv'.
Proof using Type.
  intros Hp. assert (others_step kv kv) as Hq by (split; [done|lia]).
  assert (forall ops, (forall op, op ∈ ops -> match op with OpPut k' _ | OpDel k' => outbox_row k' end) -> others_step kv (apply_ops ops kv)) as Hops.
  { intros ops Ho. split; [|cbn; lia]. intros k [rest ->]. apply ops_other. intros op Hop%Ho. by destruct op; intros ->; destruct Hop as [rest' [=]]. }
  destruct ph as [|now rep [|r todo]|now rep todo id m|now rep todo key m|now rep todo r m|now rep [|[key row] rows]|res]; cbn [relay_step].
  - by intros [= <- <-].
  - destruct (batch pol =? 0)%nat; intros [= <- <-]; [done|]. split; [|done]. apply Forall_forall. intros [k row] Hin. by apply (kv_range_elem window) in Hin as [_ Hk].
  - by intros [= <- <-].
  - destruct (row_value <$> _) as [[]|]; by intros [= <- <-].
  - destruct (row_value <$> _) as [[]|]; by intros [= <- <-].
  - intros [= <- <-]. split; [done|]. apply Hops. intros op. unfold mark_ops. rewrite !elem_of_app, !elem_of_cons, elem_of_nil.
    intros [[->|[->|[]]]|Hm]; [by eexists|by eexists|]. destruct m; try (by apply elem_of_nil in Hm). apply list_elem_of_singleton in Hm as ->. by eexists.
  - by intros [= <- <-].
  - apply Forall_cons in Hp as [[rest Hk] Hp]. destruct (_ <=? _)%nat; [by intros [= <- <-]|]. destruct (row_value row); try (by intros [= <- <-]).
    destruct (past_retention _ _ _); [|by intros [= <- <-]]. unfold prune_txn.
    assert (others_step kv (apply_ops [] kv)) as Hn by (apply Hops; by intros op ?%elem_of_nil).
    destruct (row_value <$> _) as [[]|]; try (by intros [= <- <-]). case_bool_decide; intros [= <- <-]; [|done]. split; [done|].
    apply Hops. intros op. unfold prune_ops. rewrite !elem_of_cons, elem_of_nil. cbn in Hk. intros [->|[->|[->|[]]]]; [rewrite Hk; by eexists|by eexists|by eexists].
  - by intros [= <- <-].
Qed.

Record joint_inv (tr : list ObEvent) (s : Joint) : Prop := {
  ji_system : exists ls, sys_run evaluate duration_ms resolve empty_system ls (jt_system s);
  ji_outbox : ob_run window pol empty_outbox tr {| ob_kv := sys_kv (jt_system s); ob_relays := jt_relays s |};
  ji_calls : forall i c, sys_calls (jt_system s) !! i = Some c -> in_i64 (rc_now c) /\ call_ok (rc_phase c);
  ji_relays : Forall prunes_records (jt_relays s) }.

Lemma start_phase_ok x : call_ok (start_phase evaluate resolve x).
Proof using Type. destruct x; try done. cbn. by destruct (resolve_seats _ _ _ _). Qed.

Lemma joint_step_inv tr s l s' : joint_inv tr s -> joint_step s l s' -> joint_inv (tr ++ l) s'.
Proof using Type.
  intros [[ls Hs] Ho Hc Hr] Hstep.
  destruct Hstep as [x now s Hv Hnow|i c ph kv' s Hi Hf Hstep|kv' l s Hcl Hot|s|i s|i ph clock accepted ph' kv' s Hph Hstep].
  - split; cbn; [|by rewrite app_nil_r| |done].
    + eexists. eapply run_step; [exact Hs|]. by apply step_arrive.
    + intros j c Hj. apply lookup_app_Some in Hj as [Hj|[_ Hj]]; [by apply (Hc j)|]. apply list_lookup_singleton_Some in Hj as [_ <-].
      split; [done|apply start_phase_ok].
  - destruct (Hc i c Hi) as [Hnow Hok]. destruct (call_client _ _ _ _ _ _ Hnow Hok Hstep) as [Hok' Hcl]. split; cbn; [| | |done].
    + eexists. eapply run_step; [exact Hs|]. by eapply step_call.
    + eapply ob_cons; [exact Ho|]. by apply (ob_client _ _ _ _ {| ob_kv := _; ob_relays := _ |}).
    + intros j c' Hj. apply list_lookup_insert_Some in Hj as [(-> & <- & _)|[_ Hj]]; [done|by apply (Hc j)].
  - split; cbn; [| |done|done].
    + eexists. eapply run_step; [exact Hs|]. by apply step_others.
    + eapply ob_cons; [exact Ho|]. by apply (ob_client _ _ _ _ {| ob_kv := _; ob_relays := _ |}).
  - split; cbn; [by exists ls| |done|apply Forall_app; split; [done|by apply Forall_singleton]].
    eapply ob_cons; [exact Ho|]. apply (ob_start _ _ {| ob_kv := _; ob_relays := _ |}).
  - split; cbn; [by exists ls| |done|by apply Forall_insert].
    eapply ob_cons; [exact Ho|]. apply (ob_restart _ _ i {| ob_kv := _; ob_relays := _ |}).
  - destruct (relay_others _ _ _ _ _ _ (Forall_lookup_1 _ _ _ _ Hr Hph) Hstep) as [Hp' Hot]. split; cbn; [| |done|by apply Forall_insert].
    + eexists. eapply run_step; [exact Hs|]. by apply step_others.
    + eapply ob_cons; [exact Ho|]. by apply (ob_relay _ _ i ph clock accepted ph' kv' {| ob_kv := _; ob_relays := _ |}).
Qed.

Lemma joint_run_inv tr s : joint_run tr s -> joint_inv tr s.
Proof using Type.
  induction 1 as [|s s' l ls _ IH Hs]; [|by eapply joint_step_inv]. split; [by exists []; constructor|by constructor|done|by constructor].
Qed.

(** C14: approvals and the outbox work together.  A run of approval calls and
    relays on one store is a run of the approval system, in which the relays
    are other clients, and a run of the outbox, in which the calls are clients;
    so what holds of either holds of both.  In particular every event that a
    call has committed has been accepted by a sink, refused as often as the
    policy allows, or is pending in the outbox. *)
Theorem approval_events_delivered tr s :
  joint_run tr s ->
  (exists ls, sys_run evaluate duration_ms resolve empty_system ls (jt_system s)) /\
  ob_run window pol empty_outbox tr {| ob_kv := sys_kv (jt_system s); ob_relays := jt_relays s |} /\
  (run_ok tr -> forall l r, EvCommit l ∈ tr -> r ∈ l ->
     0 < deliveries (rec_id r) true tr \/ max_attempts pol <= deliveries (rec_id r) false tr \/ held (kv_rows (sys_kv (jt_system s))) r).
Proof using Type.
  intros [Hs Ho _ _]%joint_run_inv. split_and!; [done|done|]. intros Hok l r Hl Hr. destruct (ob_run_inv _ _ _ _ Ho Hok) as [Hi _].
  destruct (ri_held _ _ _ Hi r) as [[?|?]|?]; auto. apply list_elem_of_bind. by exists (EvCommit l).
Qed.

End joint.
