(* ===== verification/OutboxRelay.v ===== *)
(** * What a tick of the relay does

    The entries of the pending index lie in the order of their times, so the
    scan that stops at the first entry that is not due has seen all that are.  A
    tick that is alone ends; it has handed to the sink what it has polled, in
    the order of the sequence numbers of each aggregate, and what the sink has
    accepted is marked. *)

From S2P Require Export OutboxSafety.

Local Open Scope Z_scope.

(** ** Numbers of equal width in the order of keys *)

Definition digit_value (acc : Z) (x : bytes) : Z := foldl (fun a c => a * 10 + (byte_Z c - 48)) acc x.

Lemma digit_value_bounds acc x : Forall is_digit x ->
  acc * 10 ^ Z.of_nat (length x) <= digit_value acc x < (acc + 1) * 10 ^ Z.of_nat (length x).
Proof.
  intros H. revert acc. induction H as [|c x Hc _ IH]; intros acc; [cbn; lia|]. cbn [digit_value foldl length]. fold (digit_value (acc * 10 + (byte_Z c - 48)) x).
  specialize (IH (acc * 10 + (byte_Z c - 48))). unfold is_digit in Hc. rewrite Nat2Z.inj_succ, Z.pow_succ_r by lia.
  assert (0 < 10 ^ Z.of_nat (length x)) by (apply Z.pow_pos_nonneg; lia). nia.
Qed.

Lemma digit_value_lt acc x y s s' :
  Forall is_digit x -> Forall is_digit y -> length x = length y -> digit_value acc x < digit_value acc y -> bytes_lt (x ++ s) (y ++ s').
Proof.
  intros Hx. revert acc y. induction Hx as [|c x Hc Hx IH]; intros acc [|d y] Hy Hl; try done; [cbn; lia|].
  apply Forall_cons in Hy as [Hd Hy]. injection Hl as Hl. cbn [digit_value foldl app]. fold (digit_value (acc * 10 + (byte_Z c - 48)) x) (digit_value (acc * 10 + (byte_Z d - 48)) y).
  intros Hlt. unfold bytes_lt. apply bytes_ltb_cons. destruct (Z.lt_trichotomy (byte_Z c) (byte_Z d)) as [?|[E|Hgt]]; [by left| |exfalso].
  - apply byte_Z_inj in E as ->. right. split; [done|]. by eapply IH.
  - pose proof (digit_value_bounds (acc * 10 + (byte_Z c - 48)) x Hx). pose proof (digit_value_bounds (acc * 10 + (byte_Z d - 48)) y Hy).
    rewrite Hl in *. assert (0 < 10 ^ Z.of_nat (length y)) by (apply Z.pow_pos_nonneg; lia). nia.
Qed.

Lemma parse_value a x v : Forall is_digit x -> foldl parse_digit (Some a) x = Some v -> v = digit_value a x.
Proof.
  intros H. revert a. induction H as [|c x Hc _ IH]; intros a; [by intros [= <-]|]. cbn [foldl digit_value]. fold (digit_value (a * 10 + (byte_Z c - 48)) x).
  unfold parse_digit at 2. cbn [mbind option_bind]. unfold is_digit in Hc. destruct (_ && _); [|intros E].
  - destruct (_ <=? u64_max); [apply IH|intros E]. exfalso. revert E. clear. induction x; [done|]. exact IHx.
  - exfalso. revert E. clear. induction x; [done|]. exact IHx.
Qed.

Lemma padded_lt z z' s s' : 0 <= z < z' -> in_i64 z' -> bytes_lt (padded 20 z ++ s) (padded 20 z' ++ s').
Proof.
  unfold in_i64. intros Hz Hz'. assert (0 <= z < 10 ^ Z.of_nat 20 /\ 0 <= z' < 10 ^ Z.of_nat 20) as [H1 H2] by (split; apply i63_digits; lia).
  apply (digit_value_lt 0); [by apply padded_digits; lia|by apply padded_digits; lia|by rewrite !padded_length by lia|].
  rewrite <-(parse_value 0 (padded 20 z) z), <-(parse_value 0 (padded 20 z') z'); [lia|..]; try (apply padded_digits; lia);
    apply digits_parse; unfold u64_max, u64_modulus; lia.
Qed.

(** ** The time of an entry *)

Lemma split_once_here c x r : c ∉ x -> split_once c (x ++ c :: r) = Some (x, r).
Proof.
  induction x as [|d x IH]; cbn [app split_once]; [by rewrite decide_True|]. rewrite not_elem_of_cons. intros [Hd Hx].
  rewrite decide_False by congruence. by rewrite IH.
Qed.

Lemma pending_time_key t id : 0 <= t -> in_i64 t -> pending_time (pending_key t id) = Some t.
Proof.
  intros Hp Ht. unfold pending_time, pending_key, padded_i64. rewrite (proj2 (Z.ltb_ge t 0)) by lia.
  replace (drop (length pending_prefix) (b "/_workflow/v3/outbox/pending/" ++ padded 20 t ++ b ":" ++ id)) with (padded 20 t ++ x3a :: id) by done.
  pose proof (padded_digits 20 t Hp) as Hd. unfold in_i64 in Ht. assert (0 <= t < 10 ^ Z.of_nat 20) as Hr by (apply i63_digits; lia).
  rewrite split_once_here; [|intros Hin; rewrite Forall_forall in Hd; by apply Hd in Hin as [_ Hc]]. cbn [mbind option_bind].
  pose proof (padded_length 20 t ltac:(lia) Hr) as Hl. pose proof (digits_parse 20 t ltac:(lia) Hr ltac:(unfold u64_max, u64_modulus; lia)) as Hv.
  unfold parse_i64, parse_u64. destruct (padded 20 t) as [|c x]; [done|]. apply Forall_cons in Hd as [Hc _].
  rewrite !decide_False; [|by intros ->; apply sign_not_digit..]. rewrite Hv. cbn [mbind option_bind]. by rewrite (proj2 (Z.ltb_lt t (2 ^ 63))) by lia.
Qed.

(** ** The scan finds what is due *)

#[local] Instance row_entry_trans : Transitive (@entry_le KvRow).
Proof. intros x y z. apply (@transitivity _ bytes_le _). Qed.
#[local] Instance row_entry_total : Total (@entry_le KvRow).
Proof. intros x y. apply (total bytes_le). Qed.

Lemma prefix_rows_sorted prefix kv : StronglySorted entry_le (List.filter (fun x => starts_with x.1 prefix) (entries (kv_rows kv))).
Proof. apply StronglySorted_List_filter. unfold entries. apply StronglySorted_merge_sort; apply _. Qed.

Lemma prefix_rows_elem prefix kv k row :
  (k, row) ∈ List.filter (fun x => starts_with x.1 prefix) (entries (kv_rows kv)) <-> kv_rows kv !! k = Some row /\ exists rest, k = prefix ++ rest.
Proof.
  rewrite elem_of_List_filter. unfold entries. rewrite merge_sort_Permutation, elem_of_map_to_list. cbn [fst].
  rewrite starts_with_spec. tauto.
Qed.

(** The entries of the index: a time that is not negative, in the key. *)
Definition entry_ok (kr : bytes * KvRow) : Prop := exists t id, kr.1 = pending_key t id /\ 0 <= t /\ in_i64 t.

Lemma entry_order t id t' id' (x y : KvRow) :
  entry_le (pending_key t id, x) (pending_key t' id', y) -> 0 <= t -> in_i64 t -> 0 <= t' -> in_i64 t' -> t <= t'.
Proof.
  intros Hle H1 H2 H3 H4. destruct (Z.le_gt_cases t t') as [|Hgt]; [done|]. exfalso. unfold entry_le in Hle. cbn [fst] in Hle.
  apply bytes_not_lt in Hle. apply Hle. unfold pending_key, padded_i64. rewrite !(proj2 (Z.ltb_ge _ 0)) by done.
  unfold bytes_lt. rewrite bytes_lt_app_r. apply padded_lt; [lia|done].
Qed.

Lemma pending_loop_finds now n rows k row r t :
  StronglySorted entry_le rows -> Forall entry_ok rows -> (length rows <= n)%nat ->
  (k, row) ∈ rows -> pending_time k = Some t -> t <= now -> row_value row = DRecord r -> rec_status r = OsPending ->
  r ∈ pending_loop now n rows.
Proof.
  intros Hs. revert n. induction Hs as [|[k0 row0] rows Hs IH Hle]; intros n Hok Hn Hin Ht Hnow Hr Hp; [by apply elem_of_nil in Hin|].
  apply Forall_cons in Hok as [(t0 & id0 & E0 & H1 & H2) Hok]. cbn [fst] in E0. cbn [pending_loop]. subst k0. rewrite pending_time_key by done.
  apply elem_of_cons in Hin as [[= -> ->]|Hin].
  - rewrite pending_time_key in Ht by done. injection Ht as ->. rewrite (proj2 (Z.ltb_ge _ _)) by done. rewrite Hr, bool_decide_eq_true_2 by done. by left.
  - assert (t0 <= t) as Hlt.
    { rewrite Forall_forall in Hle, Hok. pose proof (Hle _ Hin) as Hle'. destruct (Hok _ Hin) as (t1 & id1 & E1 & H3 & H4). cbn [fst] in E1. subst k.
      rewrite pending_time_key in Ht by done. injection Ht as ->. by eapply entry_order. }
    rewrite (proj2 (Z.ltb_ge _ _)) by lia. cbn [length] in Hn. assert (2 <= n)%nat as Hn2 by (destruct rows; [by apply elem_of_nil in Hin|cbn [length] in *; lia]).
    assert (forall m, (length rows <= m)%nat -> r ∈ pending_loop now m rows) as Hgo by (intros m Hm; by apply IH).
    destruct (row_value row0) as [| |r1|]; try (apply Hgo; lia). case_bool_decide; [|apply Hgo; lia].
    right. rewrite (proj2 (Nat.leb_gt _ _)) by lia. apply Hgo. lia.
Qed.

(** ** The order of delivery *)

Definition record_le (r r' : OutboxRecord) : Prop :=
  bytes_lt (aggregate_id r) (aggregate_id r') \/ (aggregate_id r = aggregate_id r' /\ sequence r <= sequence r').

Lemma record_ltb_false r r' : record_ltb r r' = false -> record_le r' r.
Proof.
  unfold record_ltb, record_le. intros [H1 H2]%orb_false_iff. destruct (bytes_lt_trichotomy (aggregate_id r) (aggregate_id r')) as [H|[H|H]].
  - unfold bytes_lt in H. congruence.
  - right. split; [done|]. rewrite H in H2. destruct (bytes_eqb_spec (aggregate_id r') (aggregate_id r')); [|done]. cbn in H2. lia.
  - by left.
Qed.
Lemma record_ltb_true r r' : record_ltb r r' = true -> record_le r r'.
Proof.
  unfold record_ltb, record_le. intros [H|[H1 H2]%andb_prop]%orb_prop; [by left|right].
  destruct (bytes_eqb_spec (aggregate_id r) (aggregate_id r')); [|done]. split; [done|lia].
Qed.
#[local] Instance record_le_trans : Transitive record_le.
Proof.
  intros r1 r2 r3 [H|[E H]] [H'|[E' H']]; unfold record_le; [left; by etrans|left; congruence|left; congruence|right; split; [congruence|lia]].
Qed.

Lemma insert_record_sorted r l : StronglySorted record_le l -> StronglySorted record_le (insert_record r l).
Proof.
  induction 1 as [|x l Hs IH Hx]; cbn [insert_record]; [by repeat constructor|]. destruct (record_ltb r x) eqn:E.
  - apply record_ltb_true in E. constructor; [by constructor|]. constructor; [done|]. eapply Forall_impl; [exact Hx|]. intros y Hy. by etrans.
  - constructor; [done|]. rewrite insert_record_perm. constructor; [by apply record_ltb_false|done].
Qed.
Lemma sort_records_sorted l : StronglySorted record_le (sort_records l).
Proof.
  unfold sort_records. assert (forall acc, StronglySorted record_le acc -> StronglySorted record_le (foldl (fun acc r => insert_record r acc) acc l)) as H.
  { induction l as [|r l IH]; intros acc Ha; [done|]. cbn [foldl]. by apply IH, insert_record_sorted. }
  apply H. constructor.
Qed.

Section tick.
Context (window : nat) (pol : RelayPolicy) (clock : Z) (sink : OutboxRecord -> bool).

(** ** A tick alone *)

Definition reaches (ph : RPhase) (kv : Kv) (ph' : RPhase) (kv' : Kv) (l : list OutboxRecord) : Prop :=
  exists n, run_tick window pol clock sink n ph kv = (ph', kv', l).

Lemma reaches_here ph kv : reaches ph kv ph kv [].
Proof using Type. by exists 0%nat. Qed.
Lemma reaches_trans ph1 kv1 ph2 kv2 ph3 kv3 l l' : reaches ph1 kv1 ph2 kv2 l -> reaches ph2 kv2 ph3 kv3 l' -> reaches ph1 kv1 ph3 kv3 (l ++ l').
Proof using Type.
  intros [n Hn] [m Hm]. exists (n + m)%nat. revert ph1 kv1 l Hn. induction n as [|n IH]; intros ph1 kv1 l Hn.
  - by injection Hn as -> -> <-.
  - cbn [run_tick Nat.add] in *. destruct (relay_step _ _ _ _ ph1 kv1) as [ph kv]. destruct (run_tick _ _ _ _ n ph kv) as [[ph' kv'] l1] eqn:E.
    injection Hn as -> -> <-. rewrite (IH ph kv l1 E). by rewrite app_assoc.
Qed.
Lemma reaches_step ph kv ph' kv' :
  relay_step window pol clock (from_option sink false (offered ph)) ph kv = (ph', kv') -> reaches ph kv ph' kv' (option_list (offered ph)).
Proof using Type. intros H. exists 1%nat. cbn [run_tick]. rewrite H. by rewrite app_nil_r. Qed.

(** The record of an event is there, and found by its identity. *)
Definition present (rows : gmap bytes KvRow) (r0 r : OutboxRecord) : Prop :=
  val rows (id_key (rec_id r0)) = Some (DText (key_of r0)) /\ val rows (key_of r0) = Some (DRecord r).

Lemma mark_vals tr rev rows m r k :
  rec_ok pol tr r -> mark_ok pol tr (rec_id r) m -> ~ owned tr (rec_id r) k -> val (foldl (apply_op rev) rows (mark_ops m r)) k = val rows k.
Proof using Type.
  intros Hr Hm Hn. unfold val. f_equal. apply ops_other. intros op. unfold mark_ops. rewrite elem_of_app, !elem_of_cons, elem_of_nil.
  intros [[->|[->|[]]]|Hin].
  - intros <-. apply Hn. right. right. eexists. split; [apply Hr|done].
  - intros <-. apply Hn. right. left. exists r. split; [apply Hr|done].
  - destruct m; try (by apply elem_of_nil in Hin). apply list_elem_of_singleton in Hin as ->. intros <-. apply Hn. right. right. eexists. split; [apply Hm|done].
Qed.

Lemma run_ok_deliver tr r a : run_ok tr -> run_ok (tr ++ [EvDeliver r a]).
Proof using Type. intros [H1 H2]. split; by rewrite assigned_app, app_nil_r. Qed.

Lemma mark_own rev rows m r r0 :
  rec_id r0 = rec_id r -> key_of r0 = key_of r -> present rows r0 r ->
  present (foldl (apply_op rev) rows (mark_ops m r)) r0 (marked m r).
Proof using Type.
  intros Ei Ek [H1 H2]. split.
  - rewrite <-H1. unfold val. f_equal. apply ops_other. intros op. unfold mark_ops. rewrite elem_of_app, !elem_of_cons, elem_of_nil.
    intros [[->|[->|[]]]|Hin]; [differ|differ|]. destruct m; try (by apply elem_of_nil in Hin). apply list_elem_of_singleton in Hin as ->. differ.
  - rewrite Ek. unfold mark_ops, key_of. destruct m; cbn [app foldl apply_op]; rewrite ?val_put, ?val_del; rewrite ?decide_False by differ; by rewrite decide_True.
Qed.

Lemma present_other tr rows rows' r0 r1 id :
  run_ok tr -> numbered tr -> r0 ∈ assigned tr -> rec_id r0 <> id -> (forall k, ~ owned tr id k -> val rows' k = val rows k) ->
  present rows r0 r1 -> present rows' r0 r1.
Proof using Type.
  intros Hok Hn Hr0 Hne Hsame [H1 H2]. split; rewrite Hsame; try done; intros Ho; apply Hne; eapply owned_disjoint; [done|done| |exact Ho|done|done| |exact Ho].
  - by left.
  - right. left. exists r0. split; [by exists r0|done].
Qed.

Lemma present_id tr rows r0 r1 : run_ok tr -> rows_inv pol tr rows -> r0 ∈ assigned tr -> present rows r0 r1 ->
  rec_ok pol tr r1 /\ rec_id r1 = rec_id r0 /\ key_of r1 = key_of r0.
Proof using Type.
  intros Hok Hi Hr0 [_ H]. destruct (held_record _ _ _ _ _ Hok Hi Hr0 H) as [Hr Hs]. split; [done|].
  pose proof (same_event_parts _ _ Hs) as (<- & _). split; [done|]. symmetry. by apply same_event_key.
Qed.

(** A record is looked up, and marked if it is still there. *)
Lemma find_marks tr now rep todo kv id m :
  run_ok tr -> rows_inv pol tr (kv_rows kv) -> mark_ok pol tr id m ->
  exists kv', reaches (RFind now rep todo id m) kv (RDeliver now rep todo) kv' [] /\ rows_inv pol tr (kv_rows kv') /\
    (forall r0 r1, r0 ∈ assigned tr -> present (kv_rows kv) r0 r1 ->
       present (kv_rows kv') r0 (if bool_decide (rec_id r0 = id) then marked m r1 else r1)).
Proof using Type.
  intros Hok Hi Hm.
  assert ((forall r0 r1, rec_id r0 = id -> ~ present (kv_rows kv) r0 r1) ->
    forall r0 r1, r0 ∈ assigned tr -> present (kv_rows kv) r0 r1 -> present (kv_rows kv) r0 (if bool_decide (rec_id r0 = id) then marked m r1 else r1)) as Hnone.
  { intros Hn r0 r1 _ Hp. case_bool_decide; [by destruct (Hn r0 r1)|done]. }
  destruct (row_value <$> kv_rows kv !! id_key id) as [d|] eqn:E.
  2: { exists kv. split_and!; [apply reaches_step; cbn [relay_step]; by rewrite E|done|].
       apply Hnone. intros r0 r1 Eid [Hp _]. rewrite Eid in Hp. unfold val in Hp. congruence. }
  pose proof E as E'. apply (ri_row _ _ _ Hi) in E'; [|apply id_row]. destruct (id_row_ok _ _ _ _ E' _ eq_refl) as (r2 & -> & Er2 & Hr2).
  assert (reaches (RFind now rep todo id m) kv (RRead now rep todo (key_of r2) m) kv []) as H2 by (apply reaches_step; cbn [relay_step]; by rewrite E).
  destruct (row_value <$> kv_rows kv !! key_of r2) as [d|] eqn:E2.
  2: { exists kv. split_and!; [eapply (reaches_trans _ _ _ _ _ _ [] []); [exact H2|]; apply reaches_step; cbn [relay_step]; by rewrite E2|done|].
       apply Hnone. intros r0 r1 Eid [Hp1 Hp2]. rewrite Eid in Hp1. unfold val in *. congruence. }
  pose proof E2 as E2'. apply (ri_row _ _ _ Hi) in E2'; [|apply key_row]. destruct (record_row_ok _ _ _ _ E2' _ eq_refl) as (r1 & -> & _ & Hr1).
  assert (present (kv_rows kv) r2 r1) as Hp by (split; [by rewrite Er2|done]).
  destruct (present_id _ _ _ _ Hok Hi Hr2 Hp) as (_ & Ei & Ek). rewrite Er2 in Ei. rewrite <-Ei in Hm. exists (apply_ops (mark_ops m r1) kv). split_and!.
  - eapply (reaches_trans _ _ _ _ _ _ [] []); [exact H2|].
    eapply (reaches_trans _ _ (RWrite now rep todo r1 m) kv _ _ [] []); apply reaches_step; cbn [relay_step]; by rewrite ?E2.
  - by apply mark_inv.
  - intros r0 r3 Hr0 Hp0. case_bool_decide as Eid.
    + assert (r0 = r2) as -> by (eapply (fmap_nodup_eq rec_id (assigned tr)); [apply Hok|done|done|congruence]).
      assert (r3 = r1) as -> by (destruct Hp, Hp0; congruence). apply mark_own; [congruence|done|done].
    + eapply (present_other tr _ _ _ _ (rec_id r1)); [done|apply Hi|done|congruence| |done]. intros k Hk. by apply (mark_vals tr).
Qed.

Lemma deliver_one tr now rep r todo kv :
  run_ok tr -> rows_inv pol tr (kv_rows kv) -> rec_ok pol tr r ->
  let m := mark_for pol now r (sink r) in
  exists kv', reaches (RDeliver now rep (r :: todo)) kv (RDeliver now (report_mark m rep) todo) kv' [r] /\
    rows_inv pol (tr ++ [EvDeliver r (sink r)]) (kv_rows kv') /\
    (forall r0 r1, r0 ∈ assigned tr -> present (kv_rows kv) r0 r1 ->
       present (kv_rows kv') r0 (if bool_decide (rec_id r0 = rec_id r) then marked m r1 else r1)).
Proof using Type.
  intros Hok Hi Hr m. destruct (find_marks (tr ++ [EvDeliver r (sink r)]) now (report_mark m rep) todo kv (rec_id r) m) as (kv' & H1 & H2 & H3).
  - by apply run_ok_deliver.
  - by apply rows_inv_deliver.
  - by apply mark_for_ok.
  - exists kv'. rewrite assigned_app, app_nil_r in H3. split_and!; [|done|done]. eapply (reaches_trans _ _ _ _ _ _ [r] []); [|exact H1].
    by apply reaches_step.
Qed.

(** What a tick knows of an event that the sink accepts. *)
Definition delivered_now (now : Z) (r : OutboxRecord) : Prop := rec_status r = OsDelivered /\ delivered_at_ms r = Some now.
Definition accepts (r0 : OutboxRecord) : Prop := forall r, rec_id r = rec_id r0 -> sink r = true.

Lemma deliver_all tr now todo : forall rep kv, run_ok tr -> rows_inv pol tr (kv_rows kv) -> Forall (rec_ok pol tr) todo ->
  exists tr' rep' kv', reaches (RDeliver now rep todo) kv (RDeliver now rep' []) kv' todo /\
    run_ok tr' /\ assigned tr' = assigned tr /\ rows_inv pol tr' (kv_rows kv') /\
    (forall r0 r1, r0 ∈ assigned tr -> accepts r0 -> present (kv_rows kv) r0 r1 ->
       exists r2, present (kv_rows kv') r0 r2 /\ (delivered_now now r1 \/ rec_id r0 ∈ rec_id <$> todo -> delivered_now now r2)).
Proof using Type.
  revert tr. induction todo as [|r todo IH]; intros tr rep kv Hok Hi Hall.
  - exists tr, rep, kv. split_and!; [apply reaches_here|done..|]. intros r0 r1 _ _ Hp. exists r1. split; [done|]. by intros [?|?%elem_of_nil].
  - apply Forall_cons in Hall as [Hr Hall]. destruct (deliver_one tr now rep r todo kv Hok Hi Hr) as (kv1 & H1 & H2 & H3).
    destruct (IH (tr ++ [EvDeliver r (sink r)]) (report_mark (mark_for pol now r (sink r)) rep) kv1) as (tr' & rep' & kv' & H4 & H5 & H6 & H7 & H8);
      [by apply run_ok_deliver|done|by apply recs_ok_mono|].
    rewrite assigned_app, app_nil_r in H6, H8. exists tr', rep', kv'. split_and!; [by eapply (reaches_trans _ _ _ _ _ _ [r] todo)|done..|].
    intros r0 r1 Hr0 Ha Hp. destruct (H8 r0 _ Hr0 Ha (H3 r0 r1 Hr0 Hp)) as (r2 & Hp2 & Hd). exists r2. split; [done|].
    rewrite fmap_cons, elem_of_cons. intros Hor. apply Hd. case_bool_decide as Eid.
    + left. unfold mark_for. by rewrite (Ha r (eq_sym Eid)).
    + destruct Hor as [?|[?|?]]; [by left|done|by right].
Qed.

Lemma not_past now r : in_i64 now -> 0 <= retention_ms pol -> delivered_now now r -> past_retention now (Z.min (retention_ms pol) (2 ^ 63 - 1)) r = false.
Proof using Type.
  intros Hn Hret [H1 H2]. unfold past_retention, retention_basis_ms. rewrite H1, H2. apply Z.ltb_ge.
  change (default (created_at_ms r) (Some now)) with now.
  unfold i64_saturating_add, in_i64 in *. lia.
Qed.

(** Reclamation spares what this tick has delivered. *)
Lemma prune_present tr rev rows now r r0 r1 :
  run_ok tr -> rows_inv pol tr rows -> in_i64 now -> 0 <= retention_ms pol -> val rows (key_of r) = Some (DRecord r) ->
  past_retention now (Z.min (retention_ms pol) (2 ^ 63 - 1)) r = true ->
  r0 ∈ assigned tr -> delivered_now now r1 -> present rows r0 r1 -> present (foldl (apply_op rev) rows (prune_ops (key_of r) r)) r0 r1.
Proof using Type.
  intros Hok Hi Hn Hret E Ep Hr0 Hd Hp. pose proof (ri_row _ _ _ Hi _ _ (key_row r) E) as Hr.
  destruct (record_row_ok _ _ _ _ Hr r eq_refl) as (r3 & [= <-] & _ & Hrk). destruct (decide (rec_id r0 = rec_id r)) as [Eid|Hne].
  - exfalso. destruct (present_id _ _ _ _ Hok Hi Hr0 Hp) as (Hr1 & Ei & Ek).
    assert (key_of r0 = key_of r) as Ekr by (rewrite <-Ek; apply same_event_key; eapply known_id; [done|apply Hr1|apply Hrk|congruence]).
    destruct Hp as [_ Hp]. rewrite Ekr, E in Hp. injection Hp as <-. by rewrite not_past in Ep.
  - eapply (present_other tr _ _ _ _ (rec_id r)); [done|apply Hi|done|done| |exact Hp]. intros k Hk. unfold val. f_equal. apply ops_other.
    intros op. unfold prune_ops. rewrite !elem_of_cons, elem_of_nil. intros [->|[->|[->|[]]]] <-; apply Hk;
      [right; left; exists r; split; [apply Hrk|done]|by left|right; right; eexists; split; [apply Hrk|done]].
Qed.

Lemma prune_all tr now rows : forall rep kv, run_ok tr -> rows_inv pol tr (kv_rows kv) -> in_i64 now -> 0 <= retention_ms pol ->
  Forall (fun kr : bytes * KvRow => forall r, row_value kr.2 = DRecord r -> kr.1 = key_of r) rows ->
  exists rep' kv', reaches (RPrune now rep rows) kv (RDone (Some rep')) kv' [] /\
    (forall r0 r1, r0 ∈ assigned tr -> delivered_now now r1 -> present (kv_rows kv) r0 r1 -> present (kv_rows kv') r0 r1).
Proof using Type.
  induction rows as [|[key row] rows IH]; intros rep kv Hok Hi Hn Hret Hall.
  { exists rep, kv. split; [by apply reaches_step|done]. }
  apply Forall_cons in Hall as [Hkey Hall]. cbn [fst snd] in Hkey.
  assert (forall rep1 kv1, rows_inv pol tr (kv_rows kv1) -> reaches (RPrune now rep ((key, row) :: rows)) kv (RPrune now rep1 rows) kv1 [] ->
    (forall r0 r1, r0 ∈ assigned tr -> delivered_now now r1 -> present (kv_rows kv) r0 r1 -> present (kv_rows kv1) r0 r1) ->
    exists rep' kv', reaches (RPrune now rep ((key, row) :: rows)) kv (RDone (Some rep')) kv' [] /\
    (forall r0 r1, r0 ∈ assigned tr -> delivered_now now r1 -> present (kv_rows kv) r0 r1 -> present (kv_rows kv') r0 r1)) as Hgo.
  { intros rep1 kv1 Hi1 H1 Hp1. destruct (IH rep1 kv1 Hok Hi1 Hn Hret Hall) as (rep' & kv' & H2 & Hp2). exists rep', kv'.
    split; [by eapply (reaches_trans _ _ _ _ _ _ [] [])|]. intros r0 r1 Hr0 Hd Hp. by apply Hp2, Hp1. }
  destruct (batch pol <=? rr_pruned rep)%nat eqn:Eb; [exists rep, kv; split; [apply reaches_step; cbn [relay_step]; by rewrite Eb|done]|].
  destruct (row_value row) as [| |r|] eqn:Er; try (apply (Hgo rep kv); [done|apply reaches_step; cbn [relay_step]; by rewrite Eb, Er|done]).
  destruct (past_retention now (Z.min (retention_ms pol) (2 ^ 63 - 1)) r) eqn:Ep;
    [|apply (Hgo rep kv); [done|apply reaches_step; cbn [relay_step]; by rewrite Eb, Er, Ep|done]].
  assert (reaches (RPrune now rep ((key, row) :: rows)) kv
    (RPrune now (if (prune_txn key r kv).1 then report_pruned rep else rep) rows) (prune_txn key r kv).2 []) as H1.
  { apply reaches_step. cbn [relay_step]. rewrite Eb, Er, Ep. by destruct (prune_txn key r kv). }
  pose proof (Hkey r eq_refl) as ->. unfold prune_txn in *. destruct (row_value <$> kv_rows kv !! key_of r) as [[| |r'|]|] eqn:E; try (by eapply Hgo; [|exact H1|]).
  destruct (bool_decide_reflect (r' = r)) as [->|]; [|by eapply Hgo; [|exact H1|]]. eapply Hgo; [|exact H1|]; cbn [snd apply_ops kv_rows].
  - by eapply prune_inv.
  - intros r0 r1 Hr0 Hd Hp. by eapply prune_present.
Qed.

(** ** The whole tick *)

(** The pending index fits into one scan and one batch, and its times are not
    before 1970. *)
Definition index_fits (kv : Kv) : Prop :=
  (length (List.filter (fun x => starts_with x.1 pending_prefix) (entries (kv_rows kv))) <= Nat.min window (batch pol))%nat /\
  (forall t id, is_Some (kv_rows kv !! pending_key t id) -> 0 <= t).

Lemma index_entries tr kv : rows_inv pol tr (kv_rows kv) -> index_fits kv ->
  Forall entry_ok (List.filter (fun x => starts_with x.1 pending_prefix) (entries (kv_rows kv))).
Proof using Type.
  intros Hi [_ Ht]. apply Forall_forall. intros [k row] [Hk [rest Ek]]%prefix_rows_elem. unfold entry_ok. cbn [fst].
  assert (row_ok pol tr k (row_value row)) as Hro by (apply (ri_row _ _ _ Hi); [rewrite Ek; by eexists|unfold val; by rewrite Hk]).
  destruct Hro as [r ?|r Hr ?|r1 ?|a ?]; [exfalso; revert Ek; differ| |exfalso; revert Ek; differ..].
  eexists _, _. split_and!; [done|by eapply Ht|apply Hr].
Qed.

(** An event that is due and not settled is polled. *)
Lemma due_polled tr kv r0 r :
  run_ok tr -> rows_inv pol tr (kv_rows kv) -> index_fits kv -> r0 ∈ assigned tr -> held (kv_rows kv) r0 ->
  val (kv_rows kv) (key_of r0) = Some (DRecord r) -> next_attempt_at_ms r <= clock ->
  rec_id r0 ∈ rec_id <$> pending window clock (batch pol) kv.
Proof using Type.
  intros Hok Hi Hfit Hr0 (r1 & r' & _ & H2 & _ & H4) Hv Hdue. assert (r1 = r) as -> by congruence.
  destruct (held_record _ _ _ _ _ Hok Hi Hr0 Hv) as [[_ Hn _ _] _]. pose proof (index_entries _ _ Hi Hfit) as Hent. destruct Hfit as [Hl Ht].
  unfold val in H4. destruct (kv_rows kv !! pending_key _ _) as [row|] eqn:Erow; [|done]. apply (inj Some) in H4.
  assert (row_ok pol tr (pending_key (next_attempt_at_ms r) (rec_id r0)) (DRecord r')) as Hro.
  { apply (ri_row _ _ _ Hi); [apply pending_row|]. unfold val. rewrite Erow. cbn. by rewrite H4. }
  destruct (pending_row_ok _ _ _ _ Hro _ _ eq_refl) as (r2 & [= <-] & Ekey & Hr' & Hs'). apply pending_key_inj in Ekey as [_ Eid]; [|apply Hr'|done].
  apply list_elem_of_fmap. exists r'. split; [done|]. unfold pending, kv_range. rewrite take_ge by lia.
  eapply (pending_loop_finds _ _ _ (pending_key (next_attempt_at_ms r) (rec_id r0)) row r' (next_attempt_at_ms r)); try done.
  - apply prefix_rows_sorted.
  - lia.
  - apply prefix_rows_elem. split; [done|]. by eexists.
  - apply pending_time_key; [|done]. by eapply Ht.
Qed.

(** C15: a tick that is alone does its work.  It ends; it has handed to the sink
    exactly what it has polled, the events of an aggregate in the order of their
    numbers; and an event that is due, not settled, and accepted by the sink is
    marked as delivered, if the pending index fits into one scan and one
    batch. *)
Theorem tick_delivers tr s :
  ob_run window pol empty_outbox tr s -> run_ok tr -> in_i64 clock -> 0 <= retention_ms pol ->
  exists n rep kv' l,
    run_tick window pol clock sink n RIdle (ob_kv s) = (RDone (Some rep), kv', l) /\
    l ≡ₚ pending window clock (batch pol) (ob_kv s) /\ StronglySorted record_le l /\
    (forall r0 r, r0 ∈ assigned tr -> ~ settled pol tr (rec_id r0) -> val (kv_rows (ob_kv s)) (key_of r0) = Some (DRecord r) ->
       next_attempt_at_ms r <= clock -> index_fits (ob_kv s) -> accepts r0 ->
       exists r', val (kv_rows kv') (key_of r0) = Some (DRecord r') /\ rec_status r' = OsDelivered).
Proof using Type.
  intros Hrun Hok Hclock Hret. destruct (ob_run_inv _ _ _ _ Hrun Hok) as [Hi _]. set (kv := ob_kv s) in *.
  set (polled := pending window clock (batch pol) kv). set (rep := report_polled (length polled)).
  assert (reaches RIdle kv (RDeliver clock rep (sort_records polled)) kv []) as H0 by (by apply reaches_step).
  destruct (deliver_all tr clock (sort_records polled) rep kv Hok Hi) as (tr' & rep' & kv1 & H1 & Hok1 & Eas & Hi1 & Hd).
  { rewrite sort_records_perm. by apply polled_ok. }
  assert (exists rep2 kv2, reaches (RDeliver clock rep' []) kv1 (RDone (Some rep2)) kv2 [] /\
    (forall r0 r1, r0 ∈ assigned tr -> delivered_now clock r1 -> present (kv_rows kv1) r0 r1 -> present (kv_rows kv2) r0 r1)) as (rep2 & kv2 & H2 & Hp).
  { destruct (batch pol =? 0)%nat eqn:Eb; [exists rep', kv1; split; [apply reaches_step; cbn [relay_step]; by rewrite Eb|done]|].
    destruct (prune_all tr' clock (kv_range window records_prefix kv1) rep' kv1) as (rep2 & kv2 & H2 & Hp); [done|done|done|done|by eapply records_ok|].
    rewrite Eas in Hp. exists rep2, kv2. split; [|done]. eapply (reaches_trans _ _ _ _ _ _ [] []); [|exact H2]. apply reaches_step. cbn [relay_step]. by rewrite Eb. }
  destruct (reaches_trans _ _ _ _ _ _ _ _ H0 (reaches_trans _ _ _ _ _ _ _ _ H1 H2)) as [n Hn]. rewrite app_nil_r in Hn. cbn [app] in Hn.
  exists n, rep2, kv2, (sort_records polled). split_and!; [done|apply sort_records_perm|apply sort_records_sorted|].
  intros r0 r Hr0 Hns Hv Hdue Hfit Ha. destruct (ri_held _ _ _ Hi r0 Hr0) as [?|Hh]; [done|].
  pose proof (due_polled _ _ _ _ Hok Hi Hfit Hr0 Hh Hv Hdue) as Hin. destruct Hh as (r1 & r2 & G1 & G2 & _).
  destruct (Hd r0 r1 Hr0 Ha (conj G1 G2)) as (r3 & Hp3 & Hd3). destruct Hd3 as [S1 S2]; [right; by rewrite sort_records_perm|].
  destruct (Hp r0 r3 Hr0 (conj S1 S2) Hp3) as [_ Hfin]. by exists r3.
Qed.

End tick.
