(* ===== verification/Witnesses.v ===== *)
(** * Concrete executions

    Small stores on which the hypotheses of the general theorems hold, and the
    theorems applied to them. *)

From S2P Require Export Anomalies Tso Reach.

Local Open Scope Z_scope.

(** ** Parameters instantiated *)

(** A floor codec that satisfies the round trip: the bits of the canonical
    numbering of floor lists, one byte each. *)
Fixpoint pos_bytes (p : positive) : bytes :=
  match p with
  | xH => []
  | xO p => x00 :: pos_bytes p
  | xI p => x01 :: pos_bytes p
  end.

Fixpoint bytes_pos (l : bytes) : positive :=
  match l with
  | [] => xH
  | x :: l => if decide (x = x00) then xO (bytes_pos l) else xI (bytes_pos l)
  end.

Lemma bytes_pos_bytes p : bytes_pos (pos_bytes p) = p.
Proof. induction p; simpl; by rewrite ?IHp. Qed.

#[export] Instance demo_codec : FloorCodec := {|
  encode_floors := fun l => pos_bytes (encode l);
  decode_floors := fun x => decode (bytes_pos x) |}.

#[export] Instance demo_codec_laws : FloorCodecLaws demo_codec.
Proof. intros l. simpl. by rewrite bytes_pos_bytes, decode_encode. Qed.

(** A toy cipher with a 32-byte header. *)
Definition demo_header : bytes := replicate 32 x07.
Definition demo_barrier : Barrier := {|
  encrypt := fun v => Ok (demo_header ++ v);
  decrypt := fun c => Ok (drop 32 c) |}.

#[export] Instance demo_barrier_laws : BarrierLaws demo_barrier.
Proof.
  split.
  - intros v c [= <-]. done.
  - intros v c [= <-]. simpl. lia.
Qed.

Definition sealed : MvccStorage :=
  {| revision_mode := ModeLogIndex; barrier := Some demo_barrier |}.
Definition stamped : MvccStorage := {| revision_mode := ModeCommitTs; barrier := None |}.

Lemma plain_barrier : rep_barrier plain.
Proof. by intros br [=]. Defined.
Lemma sealed_barrier : rep_barrier sealed.
Proof. intros br [= <-]. apply _. Qed.
Lemma stamped_barrier : rep_barrier stamped.
Proof. by intros br [=]. Qed.

(** ** A store with a history *)

Definition demo1 : db := do_put (b "k") (b "v") 1 ∅.
Definition demo2 : db := do_delete (b "k") 2 (do_put (b "k") (b "v") 1 ∅).
Definition demo_history : history :=
  [put_event (b "k") (b "v") 1; delete_event [b "k"] 2].

(** Discharge a closed hypothesis by evaluation. *)
Ltac concrete :=
  lazymatch goal with
  | |- event_wf _ => clear; split; [by vm_compute|split; [by vm_compute|repeat constructor; by vm_compute]]
  | |- rep_barrier plain => apply plain_barrier
  | |- rep_barrier stamped => apply stamped_barrier
  | |- mvcc_rep _ _ _ => fail
  | |- @eq ?A ?x ?y => exact (@eq_refl A y <: @eq A x y)
  | |- _ => clear; vm_compute; first [reflexivity|done|by repeat constructor]
  end.

Lemma demo1_rep : mvcc_rep plain demo1 [put_event (b "k") (b "v") 1].
Proof.
  assert (put_in_tx plain (b "k") (b "v") 0 1 (standalone 1) PolicyLogIndex ∅
    = Ok (applied_outcome, demo1)) as E by concrete.
  pose proof (put_in_tx_rep plain ∅ [] 1 PolicyLogIndex (mvcc_rep_empty plain) ltac:(concrete)
    plain_barrier ltac:(concrete) (b "k") (b "v") 0 (standalone 1) applied_outcome demo1
    ltac:(concrete) ltac:(concrete) E) as H.
  exact (proj1 (proj2 (proj2 H))).
Qed.

Lemma demo2_rep : mvcc_rep plain demo2 demo_history.
Proof.
  assert (delete_in_tx plain (b "k") 2 (standalone 2) PolicyLogIndex demo1
    = Ok (applied_outcome, demo2)) as E by concrete.
  pose proof (delete_in_tx_rep plain demo1 [put_event (b "k") (b "v") 1] 2 PolicyLogIndex demo1_rep
    ltac:(concrete) ltac:(concrete) (b "k") (standalone 2) applied_outcome demo2
    ltac:(concrete) E) as H.
  exact (proj1 (proj2 (proj2 H))).
Qed.

(** ** The theorems on these stores *)

Lemma mid_key_unbounded_witness :
  bytes_lt (b "m") (mid_key (b "m") []) /\ ([] = [] :> bytes \/ bytes_lt (mid_key (b "m") []) []).
Proof. apply (mid_key_unbounded (b "m") []). by left. Defined.

(** Put, seen through its refinement theorem: the third event is appended. *)
Lemma put_at_key_refines_witness :
  mvcc_rep plain (do_put (b "k") (b "w") 3 demo2)
    (demo_history ++ [put_event (b "k") (b "w") 3]).
Proof.
  pose proof (put_at_key_refines plain demo2 demo_history (b "k") (b "w") None 3 (standalone 3)
    PolicyLogIndex demo2_rep plain_barrier ltac:(concrete) ltac:(concrete) ltac:(concrete)
    ltac:(concrete)) as H.
  assert (put_at_key plain demo2 (b "k") (b "w") None 3 (standalone 3) PolicyLogIndex
    = (Ok false, do_put (b "k") (b "w") 3 demo2)) as E by concrete.
  rewrite E in H. exact (proj1 (proj2 H)).
Defined.

Lemma delete_at_key_refines_witness :
  mvcc_rep plain (do_delete (b "x") 3 demo2) (demo_history ++ [delete_event [b "x"] 3]).
Proof.
  pose proof (delete_at_key_refines plain demo2 demo_history (b "x") 3 (standalone 3)
    PolicyLogIndex demo2_rep ltac:(concrete) ltac:(concrete) ltac:(concrete)) as H.
  assert (delete_at_key plain demo2 (b "x") 3 (standalone 3) PolicyLogIndex
    = (Ok false, do_delete (b "x") 3 demo2)) as E by concrete.
  rewrite E in H. exact (proj1 (proj2 H)).
Defined.

Lemma range_reads_exact_witness :
  exists l, range_answer [put_event (b "k") (b "v") 1]
      (fun k => bytes_le [] k /\ bytes_lt k [xff]) l /\
    forall limit, range_in plain demo1 [] [xff] limit = Ok (take_limit limit l).
Proof.
  exact (proj1 (range_reads_exact plain demo1 [put_event (b "k") (b "v") 1] [] [xff] (b "k")
    demo1_rep)).
Defined.

Definition demo_range_deleted : db :=
  (delete_range_at_key plain demo1 [] [xff] 2 (standalone 2) PolicyLogIndex).2.

Lemma delete_range_at_key_refines_witness :
  mvcc_rep plain demo_range_deleted [put_event (b "k") (b "v") 1; delete_event [b "k"] 2].
Proof.
  pose proof (delete_range_at_key_refines plain demo1 [put_event (b "k") (b "v") 1] [] [xff] 2
    (standalone 2) PolicyLogIndex demo1_rep ltac:(concrete) ltac:(concrete) ltac:(concrete)) as H.
  assert (delete_range_at_key plain demo1 [] [xff] 2 (standalone 2) PolicyLogIndex
    = (Ok ([b "k"], false), demo_range_deleted)) as E by concrete.
  rewrite E in H. exact (proj1 (proj2 (proj2 H))).
Defined.

(** A compare-and-swap that succeeds. *)
Definition demo_cas : list TxnCompare :=
  [{| cmp_key := b "k"; cmp_target := CtValue; cmp_op := OpEqual;
      cmp_target_value := CvValue (b "v") |}].

Definition demo_cas_done : db :=
  (execute_txn_at_revision plain demo1 demo_cas [TxnPut (b "k") (b "w") None] [TxnDelete (b "k")]
     2 (standalone 2)).2.

Lemma execute_txn_refines_witness :
  mvcc_rep plain demo_cas_done
    [put_event (b "k") (b "v") 1; txn_event [TxnPut (b "k") (b "w") None] 2].
Proof.
  pose proof (execute_txn_refines plain demo1 [put_event (b "k") (b "v") 1] demo_cas
    [TxnPut (b "k") (b "w") None] [TxnDelete (b "k")] 2 (standalone 2) demo1_rep plain_barrier
    ltac:(concrete) ltac:(concrete) ltac:(repeat constructor; concrete) ltac:(repeat constructor)
    ltac:(concrete) ltac:(concrete) ltac:(concrete)) as H.
  assert (execute_txn_at_revision plain demo1 demo_cas [TxnPut (b "k") (b "w") None]
    [TxnDelete (b "k")] 2 (standalone 2) =
    (Ok {| succeeded := true; txn_revision := 2; responses := [RespPut 2] |}, demo_cas_done))
    as E by concrete.
  rewrite E in H. exact (proj1 (proj2 (proj2 (proj2 (proj2 (proj2 H)))))).
Defined.

Lemma standalone_wf i : in_u64 i -> applied_wf (standalone i).
Proof. intros. split; [by vm_compute|]. split; [by vm_compute|done]. Qed.

Lemma apply_compact_refines_witness :
  exists out d', apply_compact plain demo2 2 (standalone 3) = Some (out, d') /\
    mvcc_rep plain d' demo_history /\
    compacted_revision d' = Z.max (compacted_revision demo2) (Z.min 2 (current_revision plain demo2)) /\
    current_revision plain demo2 <= current_revision plain d' /\
    forall key, get plain d' key = get plain demo2 key.
Proof.
  apply (apply_compact_refines plain demo2 demo_history 2 (standalone 3));
    [exact demo2_rep|concrete|apply standalone_wf; concrete|intros _; concrete].
Defined.

Lemma get_at_revision_sound_witness :
  Some (b "v") = value_at demo_history (b "k") 1.
Proof.
  apply (get_at_revision_sound plain demo2 demo_history demo2_rep (b "k") 1 (Some (b "v")));
    concrete.
Defined.

Lemma get_at_revision_complete_witness :
  get_at_revision plain demo2 (b "k") 2 = Ok (value_at demo_history (b "k") 2).
Proof.
  apply (get_at_revision_complete plain demo2 demo_history demo2_rep (b "k") 2
    {| version := 2; create_revision := 1; mod_revision := 2; lease_id := 0; deleted := true |});
    concrete.
Defined.

Lemma range_at_revision_sound_witness :
  exists l, [(b "k", b "v")] = take_limit 0 l /\ StronglySorted pair_lt l /\
    forall k v, (k, v) ∈ l <->
      (bytes_le [] k /\ bytes_lt k [xff]) /\ value_at demo_history k 1 = Some v.
Proof.
  apply (range_at_revision_sound plain demo2 demo_history demo2_rep [] [xff] 0 1); concrete.
Defined.

(** ** Commit-timestamp stores *)

Lemma advance_commit_ts_closes_witness :
  put_at_commit_ts stamped (advance_commit_ts_watermark stamped 9 (standalone 1) ∅).2
    (b "k") (b "late") None 5 (standalone 2) =
  (Err (CommitRejected 5 9), (advance_commit_ts_watermark stamped 9 (standalone 1) ∅).2).
Proof.
  pose proof (advance_commit_ts_closes stamped ∅ [] 9 (standalone 1) (mvcc_rep_empty stamped)
    ltac:(concrete) ltac:(concrete) ltac:(concrete)) as H.
  destruct (advance_commit_ts_watermark stamped 9 (standalone 1) ∅) as [r d'] eqn:E.
  assert (r = 9) as -> by exact (f_equal fst (eq_sym E)).
  destruct H as (_ & _ & _ & H).
  exact (proj1 (H (b "k") (b "late") None 5 (standalone 2) ltac:(concrete) ltac:(concrete)
    ltac:(constructor))).
Defined.

Lemma direct_write_fence_exact_witness :
  exists d', fence_direct_writes (b "a") (b "m") 7 (standalone 1) ∅ = (Ok 7, d') /\
    direct_write_fence_hit d' (b "b") None = Ok (Some 7).
Proof.
  destruct (direct_write_fence_exact (b "a") (b "m") 7 (standalone 1) ∅ ltac:(concrete)
    ltac:(concrete) ltac:(concrete) ltac:(concrete)) as (d' & E & H & _).
  exists d'. split; [exact E|]. rewrite (H (b "b")). reflexivity.
Defined.

(** ** Leases *)

(** A store with a key bound to lease 7. *)
Definition demo_leased : db :=
  (put_at_revision plain ∅ (b "k") (b "v") (Some 7) 1 (standalone 1)).2.

Lemma demo_leased_rep : mvcc_rep plain demo_leased [put_event (b "k") (b "v") 1].
Proof.
  assert (put_in_tx plain (b "k") (b "v") 7 1 (standalone 1) PolicyLogIndex ∅
    = Ok (applied_outcome, demo_leased)) as E by concrete.
  pose proof (put_in_tx_rep plain ∅ [] 1 PolicyLogIndex (mvcc_rep_empty plain) ltac:(concrete)
    plain_barrier ltac:(concrete) (b "k") (b "v") 7 (standalone 1) applied_outcome demo_leased
    ltac:(concrete) ltac:(concrete) E) as H.
  exact (proj1 (proj2 (proj2 H))).
Qed.

Lemma lease_revoke_refines_witness :
  get_lease_record (apply_lease_op plain demo_leased (LeaseRevoke 7 true) 2 (standalone 2)).2 7 = None.
Proof.
  pose proof (lease_revoke_refines plain demo_leased [put_event (b "k") (b "v") 1] 2 (standalone 2) 7
    demo_leased_rep ltac:(concrete) ltac:(concrete) ltac:(concrete) ltac:(concrete)
    ltac:(concrete)) as H.
  destruct (apply_lease_op plain demo_leased (LeaseRevoke 7 true) 2 (standalone 2)) as [[out cs] d'].
  exact (proj1 (proj2 H)).
Defined.

Definition demo_v2_lease : LeaseV2Record :=
  {| v2_ttl := 10; v2_granted_ts := 4; v2_deadline_wall_ms := 1000; v2_revoked := false;
     v2_revoked_commit_ts := 0; v2_grant_request_id := b "req" |}.

Definition demo_v2 : db :=
  (apply_lease_v2_op stamped ∅ (V2Grant 4 10 4 1000 (b "req")) 1 (standalone 1)).2.

Lemma lease_v2_record_ages_witness :
  exists r', get_lease_v2_record
      (apply_lease_v2_op stamped demo_v2 (V2Revoke 4 9 0 []) 2 (standalone 2)).2 4 = Some r' /\
    v2_granted_ts r' = 4.
Proof.
  destruct (lease_v2_record_ages stamped demo_v2 (V2Revoke 4 9 0 []) 2 (standalone 2) 4 demo_v2_lease)
    as (r' & E & _ & H & _); [repeat split; concrete|concrete|concrete|].
  exists r'. split; [exact E|exact H].
Defined.

Lemma lease_v2_grant_idempotent_witness :
  (apply_lease_v2_op stamped demo_v2 (V2Grant 77 1 77 1 (b "req")) 2 (standalone 2)).1
  = (V2Granted 4 4 10 true, applied_outcome).
Proof.
  pose proof (lease_v2_grant_idempotent stamped ∅ 1 (standalone 1) 4 10 4 1000 (b "req")
    2 (standalone 2) 77 1 77 1 ltac:(concrete) ltac:(concrete) ltac:(concrete) ltac:(concrete)
    ltac:(done) ltac:(concrete) ltac:(concrete)) as H.
  unfold demo_v2.
  destruct (apply_lease_v2_op stamped ∅ _ 1 (standalone 1)) as [out d1].
  cbn [snd]. destruct (apply_lease_v2_op stamped d1 _ 2 (standalone 2)) as [out' d2].
  cbn [fst]. destruct H as (-> & -> & _). reflexivity.
Defined.

Lemma lease_v2_expiry_race_witness :
  get_lease_v2_record
    (apply_lease_v2_op stamped (apply_lease_v2_op stamped demo_v2 (V2KeepAlive 4 2000) 2
       (standalone 2)).2 (V2Revoke 4 9 1000 []) 3 (standalone 3)).2 4
  = Some (v2_set_deadline demo_v2_lease 2000).
Proof.
  pose proof (lease_v2_expiry_race stamped demo_v2 4 demo_v2_lease 2000 9 2 (standalone 2)
    3 (standalone 3) [] ltac:(concrete) ltac:(concrete) ltac:(concrete) ltac:(concrete)
    ltac:(concrete) ltac:(done) ltac:(concrete)) as H.
  cbv zeta in H. apply proj1 in H. change (v2_deadline_wall_ms demo_v2_lease) with 1000 in H.
  destruct (apply_lease_v2_op stamped demo_v2 (V2KeepAlive 4 2000) 2 (standalone 2)) as [[o1 x1] d1].
  cbn [snd].
  destruct (apply_lease_v2_op stamped d1 _ 3 (standalone 3)) as [[o2 x2] d2].
  exact (proj2 (proj2 H)).
Defined.

Definition stamped_leased : db :=
  (put_at_commit_ts stamped ∅ (b "k") (b "v") (Some 4) 5 (standalone 1)).2.

Lemma stamped_leased_rep : mvcc_rep stamped stamped_leased [put_event (b "k") (b "v") 5].
Proof.
  assert (put_in_tx stamped (b "k") (b "v") 4 5 (standalone 1) PolicyCommitTs ∅
    = Ok (applied_outcome, stamped_leased)) as E by concrete.
  pose proof (put_in_tx_rep stamped ∅ [] 5 PolicyCommitTs (mvcc_rep_empty stamped) ltac:(concrete)
    stamped_barrier ltac:(concrete) (b "k") (b "v") 4 (standalone 1) applied_outcome stamped_leased
    ltac:(concrete) ltac:(concrete) E) as H.
  exact (proj1 (proj2 (proj2 H))).
Qed.

Definition stamped_cleaned : db :=
  (delete_keys_by_lease_at_commit_ts stamped stamped_leased 4 9 (standalone 2)).2.

Lemma delete_keys_by_lease_at_commit_ts_refines_witness :
  mvcc_rep stamped stamped_cleaned [put_event (b "k") (b "v") 5; lease_event [b "k"] 9].
Proof.
  pose proof (delete_keys_by_lease_at_commit_ts_refines stamped stamped_leased
    [put_event (b "k") (b "v") 5] 4 9 (standalone 2) stamped_leased_rep ltac:(concrete)
    ltac:(concrete) ltac:(concrete)) as H.
  assert (delete_keys_by_lease_at_commit_ts stamped stamped_leased 4 9 (standalone 2)
    = (Ok (false, [b "k"]), stamped_cleaned)) as E by concrete.
  rewrite E in H. exact (proj1 (proj2 (proj2 H))).
Defined.

(** ** Reachable stores *)

Lemma demo1_reachable : rtc (step plain) ∅ demo1.
Proof.
  apply rtc_once.
  apply (step_put plain ∅ (b "k") (b "v") None 1 (standalone 1) PolicyLogIndex); concrete.
Qed.

Lemma demo2_reachable : rtc (step plain) demo1 demo2.
Proof.
  apply rtc_once.
  apply (step_delete plain demo1 (b "k") 2 (standalone 2) PolicyLogIndex); concrete.
Qed.

(** A v2 lease, a key bound to it, the revocation and the cleanup of the
    lease's keys. *)
Definition bound_db : db := (put_at_key stamped demo_v2 (b "k") (b "v") (Some 4) 5 (standalone 2) PolicyCommitTs).2.
Definition revoked_db : db := (apply_lease_v2_op stamped bound_db (V2Revoke 4 9 0 []) 3 (standalone 3)).2.
Definition cleaned_db : db := (delete_keys_by_lease_at_commit_ts stamped revoked_db 4 9 (standalone 4)).2.

Lemma cleaned_reachable : rtc (step stamped) ∅ cleaned_db.
Proof.
  eapply rtc_l; [apply (step_lease_v2 stamped ∅ (V2Grant 4 10 4 1000 (b "req")) 1 (standalone 1)); concrete|].
  eapply rtc_l; [apply (step_put stamped demo_v2 (b "k") (b "v") (Some 4) 5 (standalone 2) PolicyCommitTs); concrete|].
  eapply rtc_l; [apply (step_lease_v2 stamped bound_db (V2Revoke 4 9 0 []) 3 (standalone 3)); concrete|].
  apply rtc_once, (step_lease_v2_keys stamped revoked_db 4 9 (standalone 4)); concrete.
Qed.

Lemma reachable_represents_witness :
  (exists h, mvcc_rep stamped cleaned_db h) /\ get stamped bound_db (b "k") = Ok (Some (b "v")) /\
  get stamped cleaned_db (b "k") = Ok None.
Proof.
  split; [exact (reachable_represents stamped stamped_barrier cleaned_db cleaned_reachable)|]. split; concrete.
Defined.

(** The metadata of a deleted key: two versions, created at 1, changed at 2. *)
Lemma reachable_typed_witness :
  exists h h1 h2 l, mvcc_rep plain demo2 h /\ h = h1 ++ h2 /\ life h2 (b "k") = Some l /\
    i64_wrap (li_version l) = 2 /\ li_created l = 1 /\ li_modified l = 2 /\ li_dead l = true.
Proof.
  destruct (reachable_typed plain demo2 plain_barrier) as (h & Hrep & _ & Hl & _).
  { etrans; [exact demo1_reachable|exact demo2_reachable]. }
  destruct (Hl (b "k")) as (h1 & h2 & E & _ & Hs).
  assert (get_kv_metadata demo2 (b "k") =
    Some {| version := 2; create_revision := 1; mod_revision := 2; lease_id := 0; deleted := true |}) as Em by concrete.
  rewrite Em in Hs. destruct (life h2 (b "k")) as [l|] eqn:El; [|contradiction]. destruct Hs as (H1 & H2 & H3 & H4).
  exists h, h1, h2, l. split; [exact Hrep|]. split; [exact E|]. split; [exact El|]. symmetry in H1, H2, H3, H4.
  split; [exact H1|]. split; [rewrite H2; reflexivity|]. split; [rewrite H3; reflexivity|exact H4].
Defined.

Lemma past_immutable_witness :
  exists es, mvcc_rep plain demo2 ([put_event (b "k") (b "v") 1] ++ es) /\
    current_revision plain demo1 <= current_revision plain demo2 /\
    forall key T, T <= current_revision plain demo1 ->
      value_at ([put_event (b "k") (b "v") 1] ++ es) key T =
      value_at [put_event (b "k") (b "v") 1] key T.
Proof.
  exact (past_immutable plain plain_barrier demo1 demo2 [put_event (b "k") (b "v") 1] demo1_rep
    demo2_reachable).
Defined.

Lemma historical_reads_repeatable_witness :
  get_at_revision plain demo2 (b "k") 1 = get_at_revision plain demo1 (b "k") 1.
Proof.
  assert (get_at_revision plain demo1 (b "k") 1 = Ok (Some (b "v"))) as E1 by concrete.
  assert (get_at_revision plain demo2 (b "k") 1 = Ok (Some (b "v"))) as E2 by concrete.
  rewrite E2, E1. apply (f_equal Ok).
  exact (historical_reads_repeatable plain plain_barrier demo1 demo2 (b "k") 1 _ _ demo1_reachable
    demo2_reachable ltac:(concrete) ltac:(concrete) ltac:(concrete) E1 E2).
Defined.

(** ** Encryption *)

Lemma txn_value_compare_sees_ciphertext_witness :
  exists d', put_in_tx sealed (b "k") (b "v") 0 1 (standalone 1) PolicyLogIndex ∅
    = Ok (applied_outcome, d') /\
  evaluate_compare d' {| cmp_key := b "k"; cmp_target := CtValue; cmp_op := OpEqual;
                         cmp_target_value := CvValue (b "v") |} = false.
Proof.
  set (d' := (put_at_revision sealed ∅ (b "k") (b "v") None 1 (standalone 1)).2).
  assert (put_in_tx sealed (b "k") (b "v") 0 1 (standalone 1) PolicyLogIndex ∅
    = Ok (applied_outcome, d')) as E by concrete.
  exists d'. split; [exact E|].
  exact (proj1 (proj2 (txn_value_compare_sees_ciphertext sealed demo_barrier (b "k") (b "v")
    (demo_header ++ b "v") 0 1 (standalone 1) PolicyLogIndex ∅ applied_outcome d' eq_refl
    demo_barrier_laws eq_refl ltac:(done) ltac:(concrete) E))).
Defined.

(** ** Timestamps *)

#[export] Instance tso_record_eq_dec : EqDecision TsoBatchRecord.
Proof. solve_decision. Defined.

#[export] Instance tso_record_countable : Countable TsoBatchRecord.
Proof.
  refine (inj_countable' (fun r => (tb_revision r, tb_start_ts r, tb_end_ts r))
    (fun '(r, x, y) => {| tb_revision := r; tb_start_ts := x; tb_end_ts := y |}) _).
  by intros [].
Defined.

#[export] Instance tso_pc : Postcard TsoBatchRecord := countable_postcard TsoBatchRecord.
Definition tso_pl : @PostcardLaws TsoBatchRecord tso_pc := countable_postcard_laws TsoBatchRecord.

Definition demo0 : db := ∅.

Definition demo_allocated := @apply_tso_allocate tso_pc plain demo0 10 1 (standalone 1).

Lemma tso_allocate_spec_witness :
  demo_allocated.1 = Ok {| bo_start_ts := 1; bo_end_ts := 11; bo_replayed := false |} /\
  (@apply_tso_allocate tso_pc plain demo_allocated.2 99 1 (standalone 1)).1 =
    Ok {| bo_start_ts := 1; bo_end_ts := 11; bo_replayed := true |}.
Proof.
  pose proof (@tso_allocate_spec tso_pc tso_pl plain demo0 10 1 (standalone 1) 99 (standalone 1)
    ltac:(concrete)) as H.
  assert (apply_tso_allocate plain demo0 10 1 (standalone 1) =
    (Ok {| bo_start_ts := 1; bo_end_ts := 11; bo_replayed := false |}, demo_allocated.2)) as E
    by concrete.
  rewrite E in H. split; [concrete|]. exact (f_equal fst (proj2 (proj2 (proj2 (proj2 H))))).
Defined.

(** Node 3 gets a batch, installs it and issues its first timestamp. *)
Definition demo_granted : tso_system :=
  {| sys_db := demo_allocated.2; sys_caches := ∅;
     sys_inflight := <[3%nat := {| start_ts := 1; end_ts := 11 |}]> ∅; sys_issued := [] |}.

Definition demo_installed : tso_system :=
  {| sys_db := sys_db demo_granted;
     sys_caches := <[3%nat := {| cb_next := 1; cb_end := 11 |}]> (sys_caches demo_granted);
     sys_inflight := base.delete 3%nat (sys_inflight demo_granted); sys_issued := [] |}.

Definition demo_claimed : tso_system :=
  {| sys_db := sys_db demo_installed;
     sys_caches := <[3%nat := {| cb_next := 2; cb_end := 11 |}]> (sys_caches demo_installed);
     sys_inflight := sys_inflight demo_installed; sys_issued := [(3%nat, 1)] |}.

Lemma demo_claimed_reachable : rtc (@tso_step tso_pc plain) tso_init demo_claimed.
Proof.
  assert (tso_step plain tso_init demo_granted).
  { apply (tso_step_allocate plain tso_init 3 10 1 (standalone 1)
      {| bo_start_ts := 1; bo_end_ts := 11; bo_replayed := false |} demo_allocated.2);
      [concrete|done|done]. }
  assert (tso_step plain demo_granted demo_installed).
  { apply (tso_step_install plain demo_granted 3 {| start_ts := 1; end_ts := 11 |}
      {| cb_next := 1; cb_end := 11 |}); concrete. }
  assert (tso_step plain demo_installed demo_claimed).
  { apply (tso_step_claim plain demo_installed 3 1 {| cb_next := 2; cb_end := 11 |}); concrete. }
  eapply rtc_l; [done|]. eapply rtc_l; [done|]. by apply rtc_once.
Qed.

Lemma tso_timestamps_unique_witness :
  NoDup (sys_issued demo_claimed).*2 /\ 1 <= 1 < tso_high_water (sys_db demo_claimed).
Proof.
  destruct (@tso_timestamps_unique tso_pc plain demo_claimed tso_pl demo_claimed_reachable)
    as (Hd & _ & Hb).
  split; [exact Hd|]. apply (Hb 3%nat). left.
Defined.

Definition demo_region0 : region0 := {| r0_db := ∅; r0_index := 1; r0_leader := Some true |}.

Lemma demo_region0_inv : region0_inv demo_region0.
Proof. split; [done|]. split; [by vm_compute|]. split; [by vm_compute|]. by intros. Qed.

Definition demo_source : TsoSource region0 := @region0_source tso_pc plain.

Lemma get_ts_above_returns_witness :
  exists ts c' st', @get_ts_above region0 demo_source (3 + 2) 5 20 (tso_client_new 8) demo_region0
    = Some (Ok ts, c', st') /\ 20 < ts.
Proof.
  destruct (@get_ts_above_returns region0 demo_source (fun st => tso_high_water (r0_db st)) region0_inv
    5 20 3 (tso_client_new 8) demo_region0 (@region0_source_laws tso_pc tso_pl plain)
    demo_region0_inv ltac:(concrete) ltac:(concrete) ltac:(concrete) ltac:(concrete)
    ltac:(concrete)) as (ts & c' & st' & E & Hts & _).
  exists ts, c', st'. exact (conj E Hts).
Defined.

Lemma get_ts_above_spins_witness :
  @get_ts_above region0 demo_source 1000 5 0 (tso_client_new 1) demo_region0 = None.
Proof.
  exact (@get_ts_above_spins region0 demo_source (fun st => tso_high_water (r0_db st)) region0_inv
    1000 5 0 (tso_client_new 1) demo_region0 (@region0_source_laws tso_pc tso_pl plain)
    demo_region0_inv ltac:(concrete) ltac:(concrete) ltac:(concrete) ltac:(concrete)
    ltac:(concrete)).
Defined.
