(* ===== verification/SequencerWitnesses.v ===== *)
(** * Sequencer: concrete executions

    Codecs and a hash that satisfy the assumptions, a small decision log, and
    the theorems of the sequencer applied to it. *)

From S2P Require Export SequencerValidate SequencerRebuild Witnesses.

Local Open Scope Z_scope.

(** ** Codecs *)

#[export] Instance mutation_eq_dec : EqDecision SequencerMutation.
Proof. solve_decision. Defined.

#[export] Instance mutation_countable : Countable SequencerMutation.
Proof.
  refine (inj_countable'
    (fun m => match m with
              | SmPut k v l => inl (k, v, l)
              | SmDelete k => inr (inl k)
              | SmDeleteRange x y => inr (inr (x, y))
              end)
    (fun s => match s with
              | inl (k, v, l) => SmPut k v l
              | inr (inl k) => SmDelete k
              | inr (inr (x, y)) => SmDeleteRange x y
              end) _).
  by intros [].
Defined.

#[export] Instance decision_eq_dec : EqDecision SequencerDecision.
Proof. solve_decision. Defined.

#[export] Instance decision_countable : Countable SequencerDecision.
Proof.
  refine (inj_countable'
    (fun x => (sd_txn_id x, sd_request_id x, sd_start_ts x, sd_commit_ts x, sd_mutations x))
    (fun '(i, r, s, c, ms) => {| sd_txn_id := i; sd_request_id := r; sd_start_ts := s;
                                 sd_commit_ts := c; sd_mutations := ms |}) _).
  by intros [].
Defined.

#[export] Instance interval_eq_dec : EqDecision SequencerIntervalWrite.
Proof. solve_decision. Defined.

#[export] Instance interval_countable : Countable SequencerIntervalWrite.
Proof.
  refine (inj_countable' (fun x => (iw_start x, iw_end x, iw_commit_ts x))
    (fun '(s, e, c) => {| iw_start := s; iw_end := e; iw_commit_ts := c |}) _).
  by intros [].
Defined.

#[export] Instance decision_pc : Postcard SequencerDecision := countable_postcard SequencerDecision.
#[export] Instance decision_pl : PostcardLaws SequencerDecision :=
  countable_postcard_laws SequencerDecision.
#[export] Instance interval_pc : Postcard SequencerIntervalWrite :=
  countable_postcard SequencerIntervalWrite.
#[export] Instance interval_pl : PostcardLaws SequencerIntervalWrite :=
  countable_postcard_laws SequencerIntervalWrite.

(** A hash without any collision. *)
#[export] Instance demo_sha : Sha256 := fun x => x.
Definition all_inputs : bytes -> Prop := fun _ => True.
#[export] Instance demo_collision_free : CollisionFree all_inputs.
Proof. by intros x y _ _. Qed.

(** ** Transactions *)

Definition seq_txn (id : bytes) (start commit : Z) (reads : list bytes) (ms : list SequencerMutation)
    : SequencerTxn :=
  {| st_txn_id := id; st_start_ts := start; st_commit_ts := commit; st_request_id := [];
     st_read_set := reads; st_mutations := ms |}.

Definition txn1 : SequencerTxn := seq_txn (b "t1") 0 5 [] [SmPut (b "a") (b "1") None].
Definition txn2 : SequencerTxn := seq_txn (b "t2") 3 7 [b "a"] [SmPut (b "a") (b "2") None].
Definition txn3 : SequencerTxn := seq_txn (b "t3") 6 9 [b "a"] [SmDeleteRange (b "a") (b "c")].
Definition seq_op : SequencerOp := ValidateAndCommit [txn1; txn2; txn3].


Lemma seq_txn_ok txn :
  txn = txn1 \/ txn = txn2 \/ txn = txn3 -> txn_ok all_inputs txn.
Proof.
  intros [->|[->| ->]]; (split; [by vm_compute|]; split; [by vm_compute|]);
    split_and!; try done; repeat (apply Forall_cons; split); try done; try (split; [|done]);
    (split; [done|repeat (apply Forall_cons; split; [by vm_compute|]); done]).
Qed.


Lemma demo0_log : log_rows all_inputs demo0 [].
Proof.
  split; try done; try constructor.
Qed.

Lemma demo0_seq : seq_rep all_inputs demo0 [].
Proof.
  split; [apply demo0_log| |done]. split; try done.
  intros x v. split; [done|]. by intros (st & en & ts & E & _).
Qed.

(** ** The theorems, applied *)

Lemma apply_sequencer_op_exact_witness :
  exists d' ds', apply_sequencer_op plain demo0 seq_op 1 (standalone 1) =
      (Ok [Committed 5; Conflict 7 (b "a") 5; Committed 9], d') /\
    seq_rep all_inputs d' ds' /\
    validated (op_limits seq_op) [] (op_txns seq_op) [Committed 5; Conflict 7 (b "a") 5; Committed 9] ds'.
Proof.
  destruct (apply_sequencer_op_exact plain seq_op 1 (standalone 1) [] demo0 demo0_seq)
    as (outs & d' & ds' & E & Hv & Hs & _).
  { repeat (apply Forall_cons; split); try done; apply seq_txn_ok; auto. }
  assert (Ok outs = Ok [Committed 5; Conflict 7 (b "a") 5; Committed 9]) as [= ->].
  { change (Ok outs) with (Ok outs, d').1. rewrite <-E. by vm_compute. }
  exists d', ds'. exact (conj E (conj Hs Hv)).
Defined.

Definition seq_commands : list command :=
  [{| cmd_op := seq_op; cmd_rev := 1; cmd_applied := standalone 1 |};
   {| cmd_op := seq_op; cmd_rev := 2; cmd_applied := standalone 2 |}].

Lemma seq_commands_ok :
  Forall (fun c => Forall (fun t => txn_ok all_inputs (tr_txn t)) (op_txns (cmd_op c))) seq_commands.
Proof.
  repeat (apply Forall_cons; split); try done; apply seq_txn_ok; auto.
Qed.

(** The third transaction reads [a] at 6 and commits at 9. *)
Lemma sequencer_serializable_witness :
  exists ds', seq_rep all_inputs (apply_commands plain demo0 seq_commands).2 ds' /\
    decision_of txn3 ∈ ds' /\ decided_value ds' (b "a") 6 = decided_value ds' (b "a") 8.
Proof.
  destruct (sequencer_serializable plain seq_commands [] demo0 demo0_seq seq_commands_ok)
    as (ds' & Hs & _ & H).
  exists ds'. split; [exact Hs|].
  destruct (H {| tr_txn := txn3; tr_read_ranges := [] |} 9) as (Hd & _ & Hv).
  { exists 0%nat, 2%nat, {| cmd_op := seq_op; cmd_rev := 1; cmd_applied := standalone 1 |},
      [Committed 5; Conflict 7 (b "a") 5; Committed 9].
    split; [reflexivity|]. split; [by vm_compute|]. by split. }
  split; [exact Hd|]. apply (Hv (b "a")). left. left.
Defined.

(** A store with one decision. *)
Definition seq1 : db :=
  match sequencer_validate_in_tx txn1 [] None demo0 with Ok (_, d) => d | Err _ => demo0 end.

Lemma seq1_rep : seq_rep all_inputs seq1 [decision_of txn1].
Proof.
  destruct (validate_rep txn1 [] None [] demo0 demo0_seq (seq_txn_ok txn1 (or_introl eq_refl)))
    as (out & d' & E & _ & Hs & _).
  unfold seq1. rewrite E. assert (out = Committed 5) as ->; [|exact Hs].
  assert ((fun r => match r with Ok (o, _) => Some o | Err _ => None end)
    (sequencer_validate_in_tx txn1 [] None demo0) = Some (Committed 5)) as Hc by (by vm_compute).
  rewrite E in Hc. by injection Hc.
Qed.

(** The first transaction again: it is not decided twice. *)
Lemma sequencer_exactly_once_witness :
  sequencer_validate_in_tx txn1 [] None seq1 = Ok (Duplicate 5, seq1).
Proof.
  apply (sequencer_exactly_once txn1 [] None [decision_of txn1] seq1 (decision_of txn1) seq1_rep).
  - apply seq_txn_ok. auto.
  - by vm_compute.
  - left.
  - reflexivity.
Defined.

(** Rebuilding from the log of [seq1] with its index. *)
Lemma rebuild_restores_index_witness :
  exists d', rebuild_sequencer_validation_index 2 10 seq1 =
      Some (Ok {| rb_from_ts := 0; rb_to_ts := 5; rb_decisions := 1; rb_keys := 1 |}, d') /\
    seq_rep all_inputs d' [decision_of txn1].
Proof.
  destruct (rebuild_restores_index 2 10 [decision_of txn1] seq1 ltac:(simpl; lia) (sr_log _ _ _ seq1_rep))
    as (d' & E & Hs & _).
  exists d'. exact (conj E Hs).
Defined.

(** The second transaction conflicts before and after a rebuild. *)
Lemma rebuilt_index_equivalent_witness :
  exists d1 d' d1', sequencer_validate_in_tx txn2 [] None seq1 = Ok (Conflict 7 (b "a") 5, d') /\
    rebuild_sequencer_validation_index 2 10 seq1 =
      Some (Ok {| rb_from_ts := 0; rb_to_ts := 5; rb_decisions := 1; rb_keys := 1 |}, d1) /\
    sequencer_validate_in_tx txn2 [] None d1 = Ok (Conflict 7 (b "a") 5, d1').
Proof.
  destruct (rebuilt_index_equivalent 2 10 [decision_of txn1] seq1 txn2 [] None ltac:(simpl; lia)
    seq1_rep ltac:(apply seq_txn_ok; auto)) as (st & d1 & out & d' & d1' & E1 & E2 & E3 & _).
  assert ((fun r => match r with Ok (o, _) => Some o | Err _ => None end)
    (sequencer_validate_in_tx txn2 [] None seq1) = Some (Conflict 7 (b "a") 5)) as Hc
    by (by vm_compute).
  rewrite E2 in Hc. injection Hc as ->.
  assert ((fun r => match r with Some (Ok o, _) => Some o | _ => None end)
    (rebuild_sequencer_validation_index 2 10 seq1) =
    Some {| rb_from_ts := 0; rb_to_ts := 5; rb_decisions := 1; rb_keys := 1 |}) as Hr
    by (by vm_compute).
  rewrite E1 in Hr. injection Hr as ->.
  exists d1, d', d1'. exact (conj E2 (conj E1 E3)).
Defined.
