(* ===== verification/CommitLogWitnesses.v ===== *)
(** * Commit log and shards: concrete executions

    Codecs that satisfy the assumptions, a small commit log and shard table, and
    the theorems applied to them. *)

From S2P Require Export CommitLogShip Witnesses.
From S2P Require Export ShardTableFacts.

Local Open Scope Z_scope.

(** ** Codecs *)

#[export] Instance prev_countable : Countable CommitPrevValue.
Proof.
  refine (inj_countable'
    (fun x => (pv_value x, pv_create_revision x, pv_mod_revision x, pv_version x, pv_lease_id x))
    (fun '(v, c, m, n, l) => {| pv_value := v; pv_create_revision := c; pv_mod_revision := m;
                                pv_version := n; pv_lease_id := l |}) _).
  by intros [].
Defined.

#[export] Instance commit_change_countable : Countable CommitChange.
Proof.
  refine (inj_countable' (fun x => (cc_key x, cc_value x, cc_prev x))
    (fun '(k, v, p) => {| cc_key := k; cc_value := v; cc_prev := p |}) _).
  by intros [].
Defined.

#[export] Instance commit_record_countable : Countable CommitRecord.
Proof.
  refine (inj_countable'
    (fun x => (cr_shard_id x, cr_commit_ts x, cr_txn_id x, cr_start_ts x, cr_region_id x,
               cr_txn_bytes x, cr_changes x))
    (fun '(s, c, i, t, r, n, l) => {| cr_shard_id := s; cr_commit_ts := c; cr_txn_id := i;
       cr_start_ts := t; cr_region_id := r; cr_txn_bytes := n; cr_changes := l |}) _).
  by intros [].
Defined.

#[export] Instance shard_meta_eq_dec : EqDecision CommitLogShardMeta.
Proof. solve_decision. Defined.

#[export] Instance shard_meta_countable : Countable CommitLogShardMeta.
Proof.
  refine (inj_countable'
    (fun x => (shard_id x, start_ts x, end_ts x, opened_at_ms x, ended_at_ms x, sealed_at_ms x))
    (fun '(i, s, e, o, n, l) => {| shard_id := i; start_ts := s; end_ts := e; opened_at_ms := o;
       ended_at_ms := n; sealed_at_ms := l |}) _).
  by intros [].
Defined.

#[export] Instance shard_table_eq_dec : EqDecision CommitLogShardTable.
Proof. solve_decision. Defined.

#[export] Instance shard_table_countable : Countable CommitLogShardTable.
Proof.
  refine (inj_countable' (fun x => (shards x, gc_before_ts x))
    (fun '(l, g) => {| shards := l; gc_before_ts := g |}) _).
  by intros [].
Defined.

#[export] Instance commit_record_pc : Postcard CommitRecord := countable_postcard CommitRecord.
#[export] Instance commit_record_pl : PostcardLaws CommitRecord :=
  countable_postcard_laws CommitRecord.
#[export] Instance shard_table_pc : Postcard CommitLogShardTable :=
  countable_postcard CommitLogShardTable.
#[export] Instance shard_table_pl : PostcardLaws CommitLogShardTable :=
  countable_postcard_laws CommitLogShardTable.

(** Stored blocks: a compressor that copies. *)
#[export] Instance demo_zstd : Zstd := {|
  zstd_compress := fun x => Some x;
  zstd_decompress := fun y capacity => if Z.of_nat (length y) <=? capacity then Some y else None |}.

#[export] Instance demo_zstd_laws : ZstdLaws.
Proof.
  split.
  - intros x. by eexists.
  - intros x y [= ->]. simpl. by rewrite Z.leb_refl.
  - intros x y [= ->]. lia.
Qed.

(** ** A commit log with one record *)

Definition rec (ts region : Z) : CommitRecord :=
  {| cr_shard_id := COMMIT_LOG_STAGING_SHARD_ID; cr_commit_ts := ts; cr_txn_id := b "t";
     cr_start_ts := 1; cr_region_id := region; cr_txn_bytes := 20;
     cr_changes := [{| cc_key := b "a"; cc_value := Some (b "1"); cc_prev := None |}] |}.

Lemma rec_u64 ts region : in_u64 ts -> in_u64 region -> record_u64 (rec ts region).
Proof. intros. split; [by vm_compute|]. by split. Qed.

Definition log1 : db :=
  match append_commit_record_in_tx (rec 5 2) 100 demo0 with Ok (_, d) => d | Err _ => demo0 end.

Lemma demo0_commit_log : commit_log_wf demo0.
Proof. intros x H. by apply elem_of_nil in H. Qed.

Lemma rec5_u64 : record_u64 (rec 5 2).
Proof. by apply rec_u64; vm_compute. Qed.

Lemma log1_wf : commit_log_wf log1 /\ forall r, r ∈ log_records log1 <-> r = rec 5 2.
Proof.
  pose proof (append_rep (rec 5 2) 100 demo0 demo0_commit_log rec5_u64) as H. unfold log1.
  assert ((fun r => match r with Ok (o, _) => Some o | Err _ => None end)
    (append_commit_record_in_tx (rec 5 2) 100 demo0) = Some AppendInserted) as Hc by (by vm_compute).
  destruct (append_commit_record_in_tx (rec 5 2) 100 demo0) as [[[] d]|]; try done.
  destruct H as (_ & _ & Hw & Hr). split; [done|]. intros r. rewrite Hr.
  assert (r ∉ log_records demo0) by (intros Hn; by apply elem_of_nil in Hn). tauto.
Qed.

Lemma commit_record_frame_exact_witness :
  exists x, commit_record_encode (rec 5 2) 100 = Ok x /\ commit_record_decode x = Ok (rec 5 2) /\
    commit_record_decode (x ++ [x00]) = Err Storage.
Proof.
  destruct (commit_record_encode (rec 5 2) 100) as [x|] eqn:E; [|by vm_compute in E].
  destruct (commit_record_frame_exact (rec 5 2) 100 x E) as (H1 & H2 & _).
  exists x. split; [reflexivity|]. split; [exact H1|]. by apply H2.
Defined.

Lemma commit_log_append_once_witness :
  append_ok (rec 7 2) 100 log1 (append_commit_record_in_tx (rec 7 2) 100 log1).
Proof.
  apply (commit_log_append_once (rec 7 2) 100 log1 (proj1 log1_wf)).
  by apply rec_u64; vm_compute.
Defined.

Lemma commit_log_scans_exact_witness :
  exists after, commit_records_after log1 COMMIT_LOG_STAGING_SHARD_ID 4 10 = Ok (take_limit 10 after) /\
    forall r, r ∈ after <-> r ∈ log_records log1 /\ cr_shard_id r = COMMIT_LOG_STAGING_SHARD_ID /\
      4 < cr_commit_ts r.
Proof.
  destruct (commit_log_scans_exact log1 COMMIT_LOG_STAGING_SHARD_ID 4 10 (proj1 log1_wf))
    as (after & at_ & E & _ & Hr & _); [by vm_compute|lia|by vm_compute|].
  exists after. split; [exact E|exact Hr].
Defined.

Lemma log1_trimmed : outbox_trimmed log1.
Proof.
  intros r Hr%(proj2 log1_wf) _. subst r. by vm_compute.
Qed.

Lemma trim_commit_log_outbox_safe_witness :
  exists before n d', trim_commit_log_outbox plain log1 6 10 (standalone 1) =
      (Ok {| trimmed_before := before; removed := Z.of_nat n |}, d') /\
    commit_log_wf d' /\ before <= 6.
Proof.
  destruct (trim_commit_log_outbox_safe plain log1 6 10 (standalone 1) (proj1 log1_wf) log1_trimmed
    ltac:(by vm_compute)) as [_ H].
  destruct (H ltac:(by vm_compute)) as (before & n & d' & E & Hw & _ & _ & [_ Hb] & _).
  exists before, n, d'. split; [exact E|]. split; [exact Hw|].
  replace (commit_log_trimmed_before log1) with 0 in Hb by (by vm_compute). lia.
Defined.

(** Three records: one already there, one new, one outside the shard. *)
Lemma commit_log_append_accounts_witness :
  exists res d', apply_commit_log_append plain log1 COMMIT_LOG_STAGING_SHARD_ID 1 10
      [rec 5 2; rec 7 2; rec 12 2] 100 1 (standalone 1) = (res, d') /\
    inserted res + duplicates res + rejected res = 3 /\ commit_log_wf d'.
Proof.
  destruct (commit_log_append_accounts plain log1 COMMIT_LOG_STAGING_SHARD_ID 1 10
    [rec 5 2; rec 7 2; rec 12 2] 100 1 (standalone 1) (proj1 log1_wf))
    as (acc & res & d' & E & Hw & _ & _ & _ & _ & Hn & _).
  - repeat (apply Forall_cons; split); try done; by apply rec_u64; vm_compute.
  - by vm_compute.
  - exists res, d'. split; [exact E|]. split; [exact Hn|exact Hw].
Defined.

(** ** Shards *)

Definition demo_shards : list (CommitLogShardOp * Z * AppliedLogId) :=
  [(OpOpen 1 100, 1, standalone 1); (OpSetEnd 1 50 200, 2, standalone 2);
   (OpOpen 0 200, 3, standalone 3); (OpSetEnd 1 70 200, 4, standalone 4);
   (OpSeal 1 300, 5, standalone 5)].

Lemma empty_shards_inv : shard_inv empty_shard_table.
Proof.
  split; [done|]. split; [constructor|]. intros m Hm. by apply elem_of_nil in Hm.
Qed.

Lemma shard_routing_partition_witness :
  exists t', read_shard_table (apply_shard_ops plain demo0 demo_shards).2 = Ok t' /\ shard_inv t' /\
    Forall (fun r => exists l, r = Ok l) (apply_shard_ops plain demo0 demo_shards).1.
Proof.
  destruct (shard_routing_partition plain demo0 empty_shard_table demo_shards)
    as (t' & E & Hi & Hr & _); [done|exact empty_shards_inv| |].
  - repeat (apply Forall_cons; split); try done; by vm_compute.
  - exists t'. split; [exact E|]. split; [exact Hi|exact Hr].
Defined.

(** A sealed shard below the watermark, past its retention. *)
Definition sealed_table : CommitLogShardTable :=
  {| shards := [{| shard_id := 1; start_ts := 1; end_ts := 50; opened_at_ms := 100;
                   ended_at_ms := 200; sealed_at_ms := 300 |};
                {| shard_id := 2; start_ts := 50; end_ts := 0; opened_at_ms := 200;
                   ended_at_ms := 0; sealed_at_ms := 0 |}];
     gc_before_ts := 0 |}.

Lemma shard_gc_safe_witness :
  exists t', advance_gc sealed_table 50 = Ok (true, t') /\ gc_before_ts sealed_table < gc_before_ts t'.
Proof.
  destruct (shard_gc_safe sealed_table 60 10000 5 50) as (t' & E & _ & Hlt & _).
  - split; [done|]. split; [repeat (apply Forall_cons; split); try done; by vm_compute|].
    intros m [->|[->|H]%elem_of_cons]%elem_of_cons; [done|done|by apply elem_of_nil in H].
  - by vm_compute.
  - exists t'. split; [exact E|exact Hlt].
Defined.
