(* ===== verification/RegionWitnesses.v ===== *)
(** * Decisions and Regions: concrete executions

    A Region that replays a small decision log, a table of two Regions, and the
    theorems applied to them. *)

From S2P Require Export SequencerWitnesses CommitLogWitnesses RegionTableStore.

Local Open Scope Z_scope.

(** ** Codec *)

#[export] Instance role_countable : Countable PeerRole.
Proof.
  refine (inj_countable' (fun r => match r with Voter => true | Learner => false end)
    (fun x : bool => if x then Voter else Learner) _).
  by intros [].
Defined.

#[export] Instance peer_countable : Countable Peer.
Proof.
  refine (inj_countable' (fun x => (peer_node_id x, raft_addr x, role x))
    (fun '(n, a, r) => {| peer_node_id := n; raft_addr := a; role := r |}) _).
  by intros [].
Defined.

#[export] Instance epoch_countable : Countable RegionEpoch.
Proof.
  refine (inj_countable' (fun x => (conf_ver x, epoch_version x))
    (fun '(c, v) => {| conf_ver := c; epoch_version := v |}) _).
  by intros [].
Defined.

#[export] Instance region_meta_countable : Countable RegionMeta.
Proof.
  refine (inj_countable'
    (fun x => (region_id x, start_key x, end_key x, epoch x, peers x, approximate_size x,
               approximate_keys x))
    (fun '(i, s, e, ep, ps, n, k) => {| region_id := i; start_key := s; end_key := e; epoch := ep;
       peers := ps; approximate_size := n; approximate_keys := k |}) _).
  by intros [].
Defined.

#[export] Instance region_table_eq_dec : EqDecision RegionTable.
Proof. solve_decision. Defined.

#[export] Instance region_table_countable : Countable RegionTable.
Proof.
  refine (inj_countable' (fun x => (rt_version x, regions x))
    (fun '(v, l) => {| rt_version := v; regions := l |}) _).
  by intros [].
Defined.

#[export] Instance region_table_pc : Postcard RegionTable := countable_postcard RegionTable.
#[export] Instance region_table_pl : PostcardLaws RegionTable := countable_postcard_laws RegionTable.

(** ** Decisions *)

Lemma demo0_rep : mvcc_rep stamped demo0 [].
Proof. apply mvcc_rep_empty. Qed.

Lemma demo0_size : size demo0 = 0%nat.
Proof. apply map_size_empty. Qed.

Definition demo_view (ts : Z) (ms : list SequencerMutation) : DecisionView :=
  Plain {| da_commit_ts := ts; da_mutations := ms |}.

Definition demo_views : list DecisionView :=
  [demo_view 5 [SmPut (b "a") (b "1") None; SmPut (b "m") (b "2") None];
   demo_view 7 [SmDelete (b "a"); SmDeleteRange (b "k") (b "z")]].

Lemma demo_views_ok : Forall view_ok demo_views.
Proof.
  repeat (apply Forall_cons; split); try done;
    (split; [by vm_compute|]); split; repeat (apply Forall_cons; split); try done; by vm_compute.
Qed.

Lemma demo_views_sorted : StronglySorted view_lt demo_views.
Proof. repeat (constructor; try done). Qed.

(** The second decision deletes what the first one wrote. *)
Lemma apply_decisions_refine_witness :
  exists res d' h', apply_commit_decisions_core stamped demo0 demo_views 1 (standalone 1) 100
      = (Ok res, d') /\
    through_ts res = 7 /\ last_applied_decision_ts d' = 7 /\
    mvcc_rep stamped d' h' /\ value_at h' (b "m") 6 = Some (b "2") /\ value_at h' (b "m") 7 = None.
Proof.
  pose proof (apply_decisions_refine stamped eq_refl 100 demo_views 1 (standalone 1) demo0 []
    demo0_rep stamped_barrier demo_views_sorted demo_views_ok) as H.
  destruct (apply_commit_decisions_core stamped demo0 demo_views 1 (standalone 1) 100) as [[res|e] d'] eqn:E.
  - destruct H as (Ht & _ & Hl & _ & h' & Hr & _ & Hv).
    { clear. repeat (apply Forall_cons; split); try apply Forall_nil; by vm_compute. }
    { rewrite demo0_size. clear. repeat (apply Forall_cons; split); try apply Forall_nil; by vm_compute. }
    exists res, d', h'. split; [reflexivity|]. split; [rewrite Ht; clear; by vm_compute|].
    split; [rewrite Hl, Ht; clear; by vm_compute|]. split; [exact Hr|].
    split; rewrite Hv; clear; by vm_compute.
  - exfalso. assert ((apply_commit_decisions_core stamped demo0 demo_views 1 (standalone 1) 100).1
      = Ok {| through_ts := 7; decisions := 2 |}) as Hc by (by vm_compute).
    rewrite E in Hc. discriminate Hc.
Defined.

(** A store that has moved past the decision without having applied it. *)
Definition drifted : db := set_current_revision 9 demo0.

Lemma drifted_rep : mvcc_rep stamped drifted [].
Proof.
  apply (mvcc_rep_frame stamped demo0 drifted []).
  - intros key. by apply tx_get_insert_ne.
  - by apply same_table_insert.
  - by apply same_table_insert.
  - by vm_compute.
  - by vm_compute.
  - apply demo0_rep.
Qed.

Lemma drifted_decision_blocks_witness :
  exists d', apply_commit_decisions_core stamped drifted demo_views 1 (standalone 1) 100 =
      (Ok {| through_ts := 0; decisions := 0 |}, d') /\ mvcc_rep stamped d' [].
Proof.
  destruct (drifted_decision_blocks stamped eq_refl 100 [] (nth 0 demo_views (demo_view 0 []))
    (tail demo_views) 1 (standalone 1) drifted [] drifted_rep) as (d' & E & Hr & _).
  - constructor.
  - by vm_compute.
  - by vm_compute.
  - done.
  - intros e He. by apply elem_of_nil in He.
  - exists d'. split; [exact E|exact Hr].
Defined.

(** ** A Region *)

Definition region (id : Z) (start end_ : bytes) : RegionMeta :=
  {| region_id := id; start_key := start; end_key := end_;
     epoch := {| conf_ver := 1; epoch_version := 1 |}; peers := [];
     approximate_size := 0; approximate_keys := 0 |}.

Lemma apply_batch_exact_witness :
  exists n, build_apply_batch [decision_of txn1; decision_of txn3] (region 1 [] (b "m")) 10 1000
      = apply_entry (region 1 [] (b "m")) <$> take n [decision_of txn1; decision_of txn3] /\ (0 < n)%nat.
Proof.
  destruct (apply_batch_exact [decision_of txn1; decision_of txn3] (region 1 [] (b "m")) 10 1000)
    as (n & E & _ & Hp & _); [lia|].
  exists n. split; [exact E|]. by apply Hp.
Defined.

Lemma apply_batch_bounded_witness :
  (length (build_apply_batch [decision_of txn1; decision_of txn3] (region 1 [] (b "m")) 10 100) <= 10)%nat.
Proof.
  apply (apply_batch_bounded [decision_of txn1; decision_of txn3] (region 1 [] (b "m")) 10 100).
  by vm_compute.
Defined.

Lemma demo_follows : region_follows stamped (region 1 [] (b "m")) [decision_of txn1] demo0 [].
Proof.
  split; [apply demo0_rep|by vm_compute|]. intros k T.
  destruct (key_in_region (region 1 [] (b "m")) k); [|done].
  change (last_applied_decision_ts demo0) with 0. unfold decided_value. cbn [foldl].
  destruct (Z.leb_spec (sd_commit_ts (decision_of txn1)) (Z.min T 0)) as [H|H]; [|done].
  change (sd_commit_ts (decision_of txn1)) with 5 in H. lia.
Qed.

Lemma region_replays_log_witness :
  pass_done stamped (region 1 [] (b "m")) [decision_of txn1] [Some (1, standalone 1)] 0 demo0
    (apply_region_pending stamped (region 1 [] (b "m")) 10 1000 seq1 [Some (1, standalone 1)] 0 demo0).
Proof.
  apply (region_replays_log (U := all_inputs) stamped (region 1 [] (b "m")) 10 1000 seq1
    [decision_of txn1] eq_refl stamped_barrier ltac:(lia) (sr_log _ _ _ seq1_rep)) with (h := []).
  - apply Forall_singleton. split; [by vm_compute|]. split; apply Forall_singleton; by vm_compute.
  - apply Forall_singleton. by vm_compute.
  - exact demo_follows.
  - by vm_compute.
  - rewrite demo0_size. apply Forall_singleton. by vm_compute.
Defined.

(** ** A table of two Regions *)

Definition two_regions : RegionTable :=
  {| rt_version := 1; regions := [region 1 [] (b "m"); region 2 (b "m") []] |}.

Lemma two_regions_valid : region_validate two_regions = Ok tt.
Proof. by vm_compute. Qed.

Lemma two_regions_small : table_small two_regions.
Proof.
  split; [by vm_compute|]. repeat (apply Forall_cons; split); try apply Forall_nil; by vm_compute.
Qed.

Lemma route_is_search_witness :
  route two_regions (b "z") =
    List.find (fun m => contains_key m (b "z")) (regions two_regions).
Proof. by apply (route_is_search two_regions (b "z")); [|exact two_regions_valid]. Defined.

(** Splitting the first Region at [g]. *)
Lemma split_plan_exact_witness :
  exists plan t', plan_split two_regions 1 (b "g") 3 = Ok plan /\
    region_apply two_regions (plan_changes plan) = Ok (true, t') /\
    region_id <$> route t' (b "h") = Some 3 /\ region_id <$> route t' (b "a") = Some 1.
Proof.
  destruct (plan_split two_regions 1 (b "g") 3) as [plan|] eqn:E; [|by vm_compute in E].
  destruct (split_plan_exact two_regions 1 (b "g") 3 plan ltac:(done) two_regions_valid
    two_regions_small E) as (t' & Ha & _ & _ & Hr).
  exists plan, t'. split; [reflexivity|]. split; [exact Ha|]. clear E Ha.
  split; rewrite Hr; by vm_compute.
Defined.

Lemma merge_plan_exact_witness :
  exists plan t', plan_merge two_regions 1 2 = Ok plan /\
    region_apply two_regions (plan_changes plan) = Ok (true, t') /\
    region_id <$> route t' (b "z") = Some 1.
Proof.
  destruct (plan_merge two_regions 1 2) as [plan|] eqn:E; [|by vm_compute in E].
  destruct (merge_plan_exact two_regions 1 2 plan ltac:(done) two_regions_valid
    two_regions_small E) as (t' & Ha & _ & _ & Hr & _).
  exists plan, t'. split; [reflexivity|]. split; [exact Ha|]. clear E Ha.
  rewrite Hr. by vm_compute.
Defined.

Lemma two_seeds_ok : seeds_ok (regions two_regions).
Proof.
  destruct (proj1 (region_validate_iff two_regions ltac:(done)) two_regions_valid) as [_ H1 H2 H3].
  by split.
Qed.

Lemma carve_object_region_exact_witness :
  exists l' m, carve_object_region (regions two_regions) 3 = Ok (3, l') /\
    find_region 3 l' = Some m /\ contains_key m (b "/obj/m/x") = true /\
    contains_key m (b "/other") = false.
Proof.
  destruct (carve_object_region (regions two_regions) 3) as [[id l']|] eqn:E; [|by vm_compute in E].
  assert (id = 3) as ->.
  { assert ((fun r => match r with Ok (i, _) => Some i | Err _ => None end)
      (carve_object_region (regions two_regions) 3) = Some 3) as Hc by (by vm_compute).
    rewrite E in Hc. by injection Hc. }
  destruct (carve_object_region_exact (regions two_regions) 3 3 l' two_seeds_ok ltac:(by vm_compute) E)
    as (_ & m & Hm & Hk).
  exists l', m. split; [reflexivity|]. split; [exact Hm|]. rewrite !Hk. clear. by vm_compute.
Defined.

(** A store that holds the table. *)
Definition region_store : db :=
  tx_insert TABLE_KV REGION_TABLE_KEY (default [] (to_allocvec two_regions)) demo0.

Lemma region_store_table : region_table region_store = Ok two_regions.
Proof.
  unfold region_table, region_store. rewrite tx_get_insert.
  destruct (region_table_roundtrip two_regions two_regions_valid) as (x & E & D).
  unfold region_table_encode in E. destruct (to_allocvec two_regions) as [y|]; [|done].
  by injection E as ->.
Qed.

(** A malformed batch and a repeated seed. *)
Lemma region_ops_keep_tiling_witness :
  exists outcomes t',
    fst (apply_region_ops region_store [(RegionApply [RcAdd (region 5 (b "q") (b "r"))], standalone 1);
                                        (RegionInit [], standalone 2)]) = Ok <$> outcomes /\
    length outcomes = 2%nat /\ 1 <= rt_version t'.
Proof.
  destruct (region_ops_keep_tiling
    [(RegionApply [RcAdd (region 5 (b "q") (b "r"))], standalone 1); (RegionInit [], standalone 2)]
    region_store two_regions region_store_table ltac:(done) two_regions_valid
    ltac:(by vm_compute) ltac:(by vm_compute)) as (outcomes & t' & Ho & Hl & _ & Hv & _).
  exists outcomes, t'. split; [exact Ho|]. split; [exact Hl|exact Hv].
Defined.

Lemma empty_batch_spoils_table_witness :
  exists d', apply_region_meta_op demo0
      (RegionApply [RcAdd (region 1 [] []); RcRemove 1 {| conf_ver := 1; epoch_version := 1 |}])
      (standalone 1) = (Ok (RegionApplied 1), d') /\ region_table d' = Err Storage.
Proof.
  destruct (empty_batch_spoils_table demo0 (region 1 [] []) (standalone 1) eq_refl (or_introl eq_refl))
    as (d' & E & Hb & _).
  exists d'. split; [exact E|exact Hb].
Defined.

Lemma repeated_add_bumps_version_witness :
  region_apply two_regions [RcAdd (region 1 [] (b "m"))] =
    Ok (true, {| rt_version := 2; regions := regions two_regions |}).
Proof.
  apply (repeated_add_bumps_version two_regions (region 1 [] (b "m")));
    [done|exact two_regions_valid|by vm_compute|left].
Defined.

Lemma regions_share_decisions_witness :
  exists m, route two_regions (b "a") = Some m /\
    forall v, run_mutations (b "a") (dl_mutations (apply_entry m (decision_of txn1))) v
      = run_mutations (b "a") (sd_mutations (decision_of txn1)) v.
Proof.
  destruct (regions_share_decisions two_regions (decision_of txn1) (b "a") ltac:(done)
    two_regions_valid) as (m & Hr & Hv & _).
  exists m. split; [exact Hr|exact Hv].
Defined.
