(* ===== verification/MigrationWitnesses.v ===== *)
(** * Migrations: concrete executions

    A Region that has applied one decision, its split and a merge, and the
    theorems applied to them. *)

From S2P Require Export RegionWitnesses MigrationSplit MigrationLive.

Local Open Scope Z_scope.

(** ** The parent *)

Definition stamped_put (k v : bytes) (ts : Z) : db :=
  match put_in_tx stamped k v 0 ts (standalone 1) PolicyCommitTs demo0 with
  | Ok (_, d) => d
  | Err _ => demo0
  end.

Lemma stamped_put_rep k v ts :
  0 < ts -> in_u64 ts -> event_wf (put_event k v ts) ->
  mvcc_rep stamped (stamped_put k v ts) [put_event k v ts] /\
  current_revision stamped (stamped_put k v ts) = ts.
Proof.
  intros Hts Hu Hw. unfold stamped_put.
  destruct (put_in_tx stamped k v 0 ts (standalone 1) PolicyCommitTs demo0) as [[out d]|e] eqn:E.
  - destruct (put_in_tx_rep stamped demo0 [] ts PolicyCommitTs demo0_rep Hu stamped_barrier eq_refl
      k v 0 (standalone 1) out d ltac:(by vm_compute) Hw E) as (_ & _ & Hrep & Hc). done.
  - exfalso. unfold put_in_tx, accept_revision, accept_commit_ts in E.
    change (current_revision_in_tx demo0 (revision_mode stamped)) with 0 in E.
    destruct (Z.leb_spec ts 0); [lia|]. cbn [mbind result_bind] in E. unfold write_key, encrypt_value in E.
    rewrite encode_kv_key_prefix in E. done.
Qed.

(** A Region that has written one key and applied the decisions up to [c]. *)
Definition applied_put (k v : bytes) (ts c : Z) : db :=
  tx_insert TABLE_KV DECISION_APPLIED_TS (be64 c) (stamped_put k v ts).

Lemma applied_put_rep k v ts c :
  0 < ts -> in_u64 ts -> event_wf (put_event k v ts) ->
  mvcc_rep stamped (applied_put k v ts c) [put_event k v ts].
Proof.
  intros Hts Hu Hw. destruct (stamped_put_rep k v ts Hts Hu Hw) as [Hrep _].
  assert (forall t key, t <> TABLE_KV -> tx_get (applied_put k v ts c) t key = tx_get (stamped_put k v ts) t key)
    as Ht by (intros; unfold applied_put; by rewrite tx_get_insert_ne by congruence).
  apply (mvcc_rep_frame stamped (stamped_put k v ts)); [| | | | |done].
  - intros key. unfold applied_put. rewrite <-(app_nil_r DECISION_APPLIED_TS). by apply kv_key_frame.
  - by apply same_table_insert.
  - by apply same_table_insert.
  - unfold compacted_revision. by rewrite Ht.
  - unfold current_revision, current_revision_in_tx. by rewrite !Ht by done.
Qed.

(** The parent has applied the first decision. *)
Definition parent : db := applied_put (b "a") (b "1") 5 5.

Definition parent_history : history := [put_event (b "a") (b "1") 5].

Lemma parent_event_wf : event_wf (put_event (b "a") (b "1") 5).
Proof. concrete. Qed.

Lemma parent_rep : mvcc_rep stamped parent parent_history.
Proof. apply applied_put_rep; [lia|by vm_compute|apply parent_event_wf]. Qed.

Lemma parent_revision : current_revision stamped parent = 5.
Proof. by vm_compute. Qed.

Definition child : RegionMeta := region 7 (b "a") [].

Definition once (a : Z) : Proposed := {| applications := [standalone a]; answered := true |}.

(** A command whose first answer is lost. *)
Definition twice (a a' : Z) : Proposed :=
  {| applications := [standalone a; standalone a']; answered := true |}.

Definition one_page (src : db) : PageView :=
  {| pv_source := src; pv_cursor := src; pv_log := seq1; pv_between := fun d => d;
     pv_import := twice 2 3 |}.

Lemma one_page_quiet src : quiet (one_page src).
Proof. done. Qed.

Lemma demo0_absent k : absent demo0 k.
Proof. done. Qed.

(** ** The split *)

Definition split_run : (Z + MigrateError) * db :=
  import_pages stamped stamped 10 (b "a") [] true None (once 1) parent
    [(parent, seq1)] [one_page parent; one_page parent] demo0.

Lemma split_run_ok : split_run.1 = inl 5.
Proof. by vm_compute. Qed.

Lemma migration_copies_range_witness :
  exists v, v ∈ [one_page parent; one_page parent] /\
    copied stamped stamped (pv_source v) split_run.2 (b "a").
Proof.
  destruct (migration_copies_range stamped stamped 10 (b "a") [] true eq_refl stamped_barrier None
    (once 1) parent [(parent, seq1)] [one_page parent; one_page parent] demo0 5
    split_run.2) as [_ H].
  - repeat apply Forall_cons_2; try apply Forall_nil_2; by intros d k.
  - done.
  - intros k _. rewrite demo0_absent. by intros [].
  - rewrite <-split_run_ok. apply surjective_pairing.
  - destruct (H (b "a")) as (v & Hv & _ & Hc); [by vm_compute|]. exists v. split; [exact Hv|exact Hc].
Defined.

Lemma parent_follows : follows stamped child parent_history 5 [decision_of txn1] parent.
Proof.
  exists []. split; [rewrite app_nil_r; apply parent_rep|]. split; [constructor|].
  intros k T _. rewrite app_nil_r. change (last_applied_decision_ts parent) with 5.
  unfold value_at, decided_value, parent_history. cbn [foldl].
  change (revision (put_event (b "a") (b "1") 5)) with 5.
  change (sd_commit_ts (decision_of txn1)) with 5.
  replace (5 <=? Z.min T 5) with (5 <=? T); [|].
  { cbn. unfold apply_change. simpl. by destruct (bytes_eqb _ _). }
  apply eq_true_iff_eq. rewrite !Z.leb_le. lia.
Qed.

Lemma demo0_ready : ready stamped (b "a") [] 5 demo0.
Proof.
  split; [by vm_compute|done| |by vm_compute..]. intros k. rewrite demo0_absent. by intros [].
Qed.

Lemma split_child_follows_log_witness :
  region_follows stamped child [decision_of txn1] split_run.2
    (restrict_event (b "a") [] <$> parent_history) /\
  last_applied_decision_ts split_run.2 = 5.
Proof.
  destruct (split_child_follows_log (U := all_inputs) stamped stamped 10 child eq_refl stamped_barrier
    (once 1) parent [(parent, seq1)] (one_page parent) [one_page parent]
    parent_history 5 [decision_of txn1] demo0 split_run.1 split_run.2) as [_ H].
  - by vm_compute.
  - apply parent_revision.
  - repeat apply Forall_cons_2; try apply Forall_nil_2; exists [];
      (split; [rewrite app_nil_r; apply parent_rep|constructor]).
  - apply Forall_singleton. by vm_compute.
  - apply (sr_log _ _ _ seq1_rep).
  - apply parent_follows.
  - by vm_compute.
  - repeat apply Forall_cons_2; try apply Forall_nil_2; done.
  - apply demo0_ready.
  - apply surjective_pairing.
  - destruct (H 5 split_run_ok) as (_ & Hf & Hl & _). split; [exact Hf|exact Hl].
Defined.

(** The only metadata row of the parent. *)
Lemma parent_rows : table_rows parent TABLE_KV_META =
  [(encode_kv_meta_key (b "a"), default [] (tx_get parent TABLE_KV_META (encode_kv_meta_key (b "a"))))].
Proof. by vm_compute. Qed.

Lemma parent_fit k raw :
  in_range (b "a") [] k = true -> tx_get parent TABLE_KV_META (encode_kv_meta_key k) = Some raw ->
  exists m, meta_from_bytes raw = Some m /\
    (deleted m = false -> importable (current_revision stamped parent) k m).
Proof.
  intros _ E. apply elem_of_table_rows in E. rewrite parent_rows in E.
  apply list_elem_of_singleton in E. injection E as -> ->.
  eexists. split; [by vm_compute|]. intros _. rewrite parent_revision. by split_and!; vm_compute.
Qed.

Lemma migration_completes_witness :
  (exists d', import_pages stamped stamped 1 (b "a") [] true None (once 1) parent
     [(parent, seq1)] (replicate 9 (one_page parent)) demo0 = (inl (current_revision stamped parent), d')).
Proof.
  apply (migration_completes stamped stamped 1 (b "a") [] parent parent_history eq_refl stamped_barrier
    parent_rep).
  - intros key v. by eexists.
  - apply parent_fit.
  - done.
  - apply Forall_replicate. by split_and!.
  - vm_compute. lia.
  - by vm_compute.
  - by vm_compute.
  - intros k. rewrite demo0_absent. by intros [].
Defined.

(** ** A merge *)

Definition left_region : RegionMeta := region 1 [] (b "m").
Definition right_region : RegionMeta := region 2 (b "m") [].

Definition txn_n : SequencerTxn := seq_txn (b "t2") 0 7 [] [SmPut (b "n") (b "2") None].
Definition two_decisions : list SequencerDecision := [decision_of txn1; decision_of txn_n].

(** Both have applied the two decisions. *)
Definition left_store : db := applied_put (b "a") (b "1") 5 7.
Definition right_store : db := applied_put (b "n") (b "2") 7 7.

Lemma left_rep : mvcc_rep stamped left_store [put_event (b "a") (b "1") 5].
Proof. apply applied_put_rep; [lia|by vm_compute|concrete]. Qed.
Lemma right_rep : mvcc_rep stamped right_store [put_event (b "n") (b "2") 7].
Proof. apply applied_put_rep; [lia|by vm_compute|concrete]. Qed.

Lemma two_decisions_value k :
  decided_value two_decisions k 7 =
  if bytes_eqb (b "n") k then Some (b "2") else if bytes_eqb (b "a") k then Some (b "1") else None.
Proof. cbn. by destruct (bytes_eqb _ _), (bytes_eqb _ _). Qed.

Lemma left_reads : reads_log stamped [] (b "m") two_decisions 7 left_store.
Proof.
  intros k Hk. rewrite (get_latest _ _ _ k left_rep), two_decisions_value. f_equal.
  destruct (bytes_eqb_spec (b "n") k) as [<-|]; [by vm_compute in Hk|].
  cbn. unfold apply_change. simpl. by destruct (bytes_eqb _ _).
Qed.

Lemma right_reads : reads_log stamped (b "m") [] two_decisions 7 right_store.
Proof.
  intros k Hk. rewrite (get_latest _ _ _ k right_rep), two_decisions_value. f_equal.
  destruct (bytes_eqb_spec (b "a") k) as [<-|]; [by vm_compute in Hk|].
  cbn. unfold apply_change. simpl. by destruct (bytes_eqb _ _).
Qed.

Definition merge_plan : SplitMergePlan :=
  match plan_merge two_regions 1 2 with
  | Ok plan => plan
  | Err _ => {| plan_kind := RegionTable.Merge; source_region := 0; target_region := None;
                plan_changes := []; expected_table_version := 0 |}
  end.

Definition donor_ranges (id : Z) : option (bytes * bytes) := if id =? 2 then Some (b "m", []) else None.

Definition merge_run : (Z + MigrateError) * db :=
  migrate_merge stamped stamped 10 merge_plan donor_ranges true true
    [(right_store, left_store, right_store)] (once 1) right_store [] [one_page right_store] right_store
    left_store left_store.

Lemma merge_run_ok : merge_run.1 = inl 7.
Proof. by vm_compute. Qed.

Lemma left_rows : table_rows left_store TABLE_KV_META =
  [(encode_kv_meta_key (b "a"), default [] (tx_get left_store TABLE_KV_META (encode_kv_meta_key (b "a"))))].
Proof. by vm_compute. Qed.

Lemma merge_joins_reads_witness :
  last_applied_decision_ts left_store = 7 /\
  reads_log stamped [] [] two_decisions 7 merge_run.2.
Proof.
  assert (last_applied_decision_ts right_store = 7) as Hc by (by vm_compute).
  destruct (merge_joins_reads stamped stamped 10 eq_refl stamped_barrier two_regions left_region
    right_region merge_plan eq_refl eq_refl ltac:(by vm_compute) two_decisions donor_ranges true true
    [(right_store, left_store, right_store)] (once 1) right_store [] [one_page right_store] right_store
    left_store left_store 7 merge_run.2) as (H1 & _ & _ & H2).
  - done.
  - apply Forall_singleton. cbn [pv_source one_page pv_between]. rewrite Hc.
    split; [exists [put_event (b "n") (b "2") 7]; apply right_rep|]. split; [apply right_reads|].
    split; [lia|]. split; [apply Forall_singleton; cbn [fst]; lia|]. by split.
  - intros k Hk [x Hx]. apply elem_of_table_rows in Hx. rewrite left_rows in Hx.
    apply list_elem_of_singleton in Hx. injection Hx as -> _. by vm_compute in Hk.
  - exact left_reads.
  - rewrite <-merge_run_ok. apply surjective_pairing.
  - assert (last_applied_decision_ts merge_run.2 = 7) as Hd by (by vm_compute).
    rewrite Hc in H1. rewrite H1, Hd in H2. split; [exact H1|by apply H2].
Defined.

(** A third decision writes in the donor's range.  The group of the receiver has
    applied it, for its own range; the replicas on the migrating node have not,
    the imports being forwarded to the leader of the group.  Their cursors agree
    and the merge reports success, but the receiver, whose cursor has passed the
    decision, does not read it and will not apply it again. *)
Definition three_decisions : list SequencerDecision :=
  two_decisions ++ [decision_of (seq_txn (b "t3") 0 9 [] [SmPut (b "n") (b "3") None])].

Definition lagging_run : (Z + MigrateError) * db :=
  migrate_merge stamped stamped 10 merge_plan donor_ranges true true
    [(right_store, left_store, right_store)] (once 1) right_store [] [one_page right_store] right_store
    left_store (applied_put (b "a") (b "1") 5 9).

Lemma lagging_replica_loses_decision :
  lagging_run.1 = inl 7 /\ last_applied_decision_ts lagging_run.2 = 9 /\
  get stamped lagging_run.2 (b "n") = Ok (Some (b "2")) /\ decided_value three_decisions (b "n") 9 = Some (b "3").
Proof. split_and!; by vm_compute. Qed.

(** ** A merge back *)

(** The receiver wrote the key before the split; the donor has changed it since. *)
Definition receiver : db := stamped_put (b "a") (b "old") 5.

Definition donor_meta : KvMetadata :=
  {| version := 2; create_revision := 5; mod_revision := 15; lease_id := 0; deleted := false |}.

Definition cleared : result Z * db := clear_imported_range stamped receiver (b "a") [] (standalone 2).

Definition merged : result Z * db :=
  apply_range_import stamped cleared.2 (b "a") [] [(b "a", b "new", donor_meta)] 20 false true (standalone 3).

Lemma cleared_ok : cleared.1 = Ok 1.
Proof. by vm_compute. Qed.

Lemma merged_ok : merged.1 = Ok 1.
Proof. by vm_compute. Qed.

Lemma merged_key_reads_old_history_witness :
  get stamped merged.2 (b "a") = Ok (Some (b "new")) /\
  get_at_revision stamped merged.2 (b "a") 20 = Ok (Some (b "old")).
Proof.
  destruct (merged_key_reads_old_history stamped eq_refl stamped_barrier receiver
    [put_event (b "a") (b "old") 5] (b "a") [] 20 (b "a") (b "new") donor_meta 5 20 (standalone 2)
    (standalone 3) 1 1 cleared.2 merged.2) as [H1 H2].
  - apply stamped_put_rep; [lia|by vm_compute|concrete].
  - by vm_compute.
  - by vm_compute.
  - vm_compute. by eexists.
  - exists (put_event (b "a") (b "old") 5). split; [by left|]. split; [done|by left].
  - by vm_compute.
  - by vm_compute.
  - by vm_compute.
  - by vm_compute.
  - lia.
  - concrete.
  - reflexivity.
  - rewrite <-cleared_ok. apply surjective_pairing.
  - rewrite <-merged_ok. apply surjective_pairing.
  - split; [exact H1|]. etransitivity; [exact H2|reflexivity].
Defined.

Lemma range_import_replays_witness :
  apply_range_import stamped merged.2 (b "a") [] [(b "a", b "new", donor_meta)] 20 false true (standalone 4)
  = (Ok 0, insert_last_applied (standalone 4) merged.2).
Proof.
  apply (range_import_replays stamped eq_refl stamped_barrier (b "a") [] [(b "a", b "new", donor_meta)] 20
    false true cleared.2 (standalone 3) (standalone 4) 1 merged.2).
  - by vm_compute.
  - apply Forall_singleton. concrete.
  - rewrite <-merged_ok. apply surjective_pairing.
Defined.

(** ** A reserved key *)

Definition holder : db := stamped_put (b "/_x") (b "1") 5.

Lemma reserved_key_blocks_migration_witness :
  exists e, (import_pages stamped stamped 10 (b "/") [] true None (once 1) holder
    [(holder, demo0)] (replicate 9 (one_page holder)) demo0).1 = inr e.
Proof.
  apply (reserved_key_blocks_migration stamped stamped 10 (b "/") [] true eq_refl stamped_barrier None
    (once 1) holder [(holder, demo0)] (replicate 9 (one_page holder)) demo0 (b "/_x")).
  - done.
  - by vm_compute.
  - by vm_compute.
  - apply Forall_replicate. eexists. split; [by vm_compute|done].
Defined.
