(* ===== verification/PdWitnesses.v ===== *)
(** * The operator queue: concrete executions

    A store of Region 0 with a table of two Regions, on which an operator is
    queued, claimed and completed, and a split is journalled and cut over. *)

From S2P Require Export RegionWitnesses PdQueueSafety.

Local Open Scope Z_scope.

(** ** Codecs *)

#[export] Instance operator_countable : Countable Operator.
Proof.
  refine (inj_countable'
    (fun op => match op with
      | AddPeer r n a => inl (inl (r, n, a))
      | RemovePeer r n => inl (inr (r, n))
      | TransferLeader r n => inr (inl (r, n))
      | SplitRegion r k n => inr (inr (inl (r, k, n)))
      | MergeRegion l r => inr (inr (inr (l, r)))
      end)
    (fun x => match x with
      | inl (inl (r, n, a)) => AddPeer r n a
      | inl (inr (r, n)) => RemovePeer r n
      | inr (inl (r, n)) => TransferLeader r n
      | inr (inr (inl (r, k, n))) => SplitRegion r k n
      | inr (inr (inr (l, r))) => MergeRegion l r
      end) _).
  by intros [].
Defined.

#[export] Instance operator_status_countable : Countable OperatorStatus.
Proof.
  refine (inj_countable'
    (fun st => match st with
      | Pending => inl 0 | Running => inl 1 | Success => inl 2 | Cancelled => inl 3
      | Failed error => inr error
      end)
    (fun x : Z + bytes => match x with
      | inl 0 => Pending | inl 1 => Running | inl 2 => Success | inl _ => Cancelled
      | inr error => Failed error
      end) _).
  by intros [].
Defined.

#[export] Instance queue_entry_eq_dec : EqDecision PdQueueEntry.
Proof. solve_decision. Defined.

#[export] Instance queue_entry_countable : Countable PdQueueEntry.
Proof.
  refine (inj_countable'
    (fun e => (qe_op_id e, qe_op e, qe_status e, qe_requester e, qe_claimed_by e,
               qe_proposed_at_unix e, qe_claimed_at_unix e, qe_error e))
    (fun '(i, o, st, r, c, p, a, x) => {| qe_op_id := i; qe_op := o; qe_status := st;
       qe_requester := r; qe_claimed_by := c; qe_proposed_at_unix := p; qe_claimed_at_unix := a;
       qe_error := x |}) _).
  by intros [].
Defined.

#[export] Instance region_change_eq_dec : EqDecision RegionChange.
Proof. solve_decision. Defined.

#[export] Instance region_change_countable : Countable RegionChange.
Proof.
  refine (inj_countable'
    (fun c => match c with
      | RcAdd m => inl (inl m) | RcUpdate m => inl (inr m) | RcRemove i e => inr (i, e)
      end)
    (fun x => match x with
      | inl (inl m) => RcAdd m | inl (inr m) => RcUpdate m | inr (i, e) => RcRemove i e
      end) _).
  by intros [].
Defined.

#[export] Instance plan_kind_eq_dec : EqDecision SplitMergeKind.
Proof. solve_decision. Defined.

#[export] Instance plan_kind_countable : Countable SplitMergeKind.
Proof.
  refine (inj_countable' (fun k => match k with RegionTable.Split => true | RegionTable.Merge => false end)
    (fun x : bool => if x then RegionTable.Split else RegionTable.Merge) _).
  by intros [].
Defined.

#[export] Instance plan_eq_dec : EqDecision SplitMergePlan.
Proof. solve_decision. Defined.

#[export] Instance plan_countable : Countable SplitMergePlan.
Proof.
  refine (inj_countable'
    (fun p => (plan_kind p, source_region p, target_region p, plan_changes p,
               expected_table_version p))
    (fun '(k, s, t, c, v) => {| plan_kind := k; source_region := s; target_region := t;
       plan_changes := c; expected_table_version := v |}) _).
  by intros [].
Defined.

#[export] Instance error_countable : Countable Error.
Proof.
  refine (inj_countable'
    (fun e => match e with
      | Internal => (0, 0, 0) | InvalidArgument => (1, 0, 0) | FailedPrecondition => (2, 0, 0)
      | Storage => (3, 0, 0) | Crypto => (4, 0, 0) | DataCorruption => (5, 0, 0)
      | RevisionCompacted r o => (6, r, o) | CommitRejected c r => (7, c, r)
      | HistoryUnavailable r => (8, r, 0) | NotLeader => (9, 0, 0) | NotLeaderNoHint => (10, 0, 0)
      | ClusterUnavailable => (11, 0, 0) | Panic => (12, 0, 0)
      end)
    (fun '(tag, x, y) => match tag with
      | 0 => Internal | 1 => InvalidArgument | 2 => FailedPrecondition | 3 => Storage
      | 4 => Crypto | 5 => DataCorruption | 6 => RevisionCompacted x y | 7 => CommitRejected x y
      | 8 => HistoryUnavailable x | 9 => NotLeader | 10 => NotLeaderNoHint
      | 11 => ClusterUnavailable | _ => Panic
      end) _).
  by intros [].
Defined.

#[export] Instance reason_countable : Countable RejectReason.
Proof.
  refine (inj_countable'
    (fun r => match r with TableMoved v e => inl (v, e) | PlanRefused e => inr e end)
    (fun x => match x with inl (v, e) => TableMoved v e | inr e => PlanRefused e end) _).
  by intros [].
Defined.

#[export] Instance phase_countable : Countable IntentPhase.
Proof.
  refine (inj_countable'
    (fun p => match p with
      | Prepared => None | Applied v => Some (inl v) | Rejected r => Some (inr r)
      end)
    (fun x => match x with
      | None => Prepared | Some (inl v) => Applied v | Some (inr r) => Rejected r
      end) _).
  by intros [].
Defined.

#[export] Instance intent_eq_dec : EqDecision PdIntent.
Proof. solve_decision. Defined.

#[export] Instance intent_countable : Countable PdIntent.
Proof.
  refine (inj_countable' (fun i => (in_op_id i, in_owner i, in_plan i, in_phase i))
    (fun '(o, w, p, ph) => {| in_op_id := o; in_owner := w; in_plan := p; in_phase := ph |}) _).
  by intros [].
Defined.

#[export] Instance queue_entry_pc : Postcard PdQueueEntry := countable_postcard PdQueueEntry.
#[export] Instance queue_entry_pl : PostcardLaws PdQueueEntry := countable_postcard_laws PdQueueEntry.
#[export] Instance intent_pc : Postcard PdIntent := countable_postcard PdIntent.
#[export] Instance intent_pl : PostcardLaws PdIntent := countable_postcard_laws PdIntent.

(** ** A store of Region 0 *)

Definition zero_db : db :=
  match region_table_encode two_regions with
  | Ok x => tx_insert TABLE_KV REGION_TABLE_KEY x ∅
  | Err _ => ∅
  end.

Definition zero_state : PdState := {| pd_queue := []; pd_journal := ∅; pd_table := two_regions |}.

Lemma zero_ok : r0_ok 0 zero_db zero_state.
Proof.
  pose proof (region_table_roundtrip two_regions two_regions_valid) as (x & Ex & Dx).
  assert (zero_db = tx_insert TABLE_KV REGION_TABLE_KEY x ∅) as ->. { unfold zero_db. by rewrite Ex. }
  split; [split| |by apply region_validate_iff|done|].
  - unfold queue_rows. rewrite iter_prefix_insert_other; [by vm_compute|right; by vm_compute].
  - split; constructor.
  - intros y v. rewrite tx_get_insert_ne by done. split; [done|]. intros (k & i & _ & _ & H & _). done.
  - done.
  - unfold region_table. by rewrite tx_get_insert.
  - split; [split; constructor|constructor..|cbn; lia].
  - intros r _ _. unfold changelog_contains_revision. by rewrite tx_get_insert_ne.
Qed.

Definition r0_pd (rev : Z) (op : PdOp) : R0Entry :=
  {| r0_rev := rev; r0_applied := standalone rev; r0_command := R0Pd op |}.

Definition split_op : Operator := SplitRegion 1 (b "g") 3.

Definition demo_queue : list R0Entry :=
  [r0_pd 1 (Enqueue split_op 7 100); r0_pd 2 (Enqueue split_op 8 101); r0_pd 3 (Claim 1 7 102);
   r0_pd 4 (Claim 1 8 103); r0_pd 5 (Complete 1 8 true []); r0_pd 6 (Complete 1 7 false (b "e"))].

Lemma pd_queue_in_order_witness :
  (run_r0 stamped zero_db demo_queue).1 = replicate 6 true.
Proof.
  apply (pd_queue_in_order stamped demo_queue 0 zero_db zero_state zero_ok); [|by vm_compute].
  repeat split; by vm_compute.
Defined.

(** The operator is claimed by node 7 at index 3. *)
Definition claimed_entry : PdQueueEntry :=
  set_status (new_pending 1 split_op 7 100) Running 7 102 [].

Definition claimed_db : db := (run_r0 stamped zero_db (take 3 demo_queue)).2.
Definition claimed_state : PdState := spec_log zero_state (take 3 demo_queue).

(** An index and the commands up to it. *)
Lemma run_ok_at l last d st :
  r0_ok last d st -> log_ok last l -> rt_version (pd_table st) + Z.of_nat (length l) <= u64_max ->
  r0_ok (foldl (fun _ e => r0_rev e) last l) (run_r0 stamped d l).2 (spec_log st l).
Proof.
  revert last d st. induction l as [|e l IH]; intros last d st Hro Hl Hu; [done|].
  cbn [run_r0 log_ok length foldl] in *. destruct Hl as (Hlt & Hr & Hn & Hl). pose proof (ro_version _ _ _ Hro).
  destruct (apply_r0_ok stamped last d st e Hro Hlt Hr Hn) as (d' & -> & Hro'); [lia|].
  assert (r0_ok (foldl (fun _ e => r0_rev e) (r0_rev e) l) (run_r0 stamped d' l).2 (spec_log (spec_r0 st e) l)).
  { apply IH; [done..|]. destruct (spec_r0_table st e (ro_table _ _ _ Hro)) as [_ [->| ->]]; lia. }
  by destruct (run_r0 stamped d' l).
Qed.

Lemma claimed_ok : r0_ok 3 claimed_db claimed_state.
Proof. apply (run_ok_at (take 3 demo_queue) 0 zero_db zero_state zero_ok); [|by vm_compute]. repeat split; by vm_compute. Qed.

Lemma claim_exclusive_witness :
  exists q, queue_rows (run_r0 stamped claimed_db (drop 3 demo_queue)).2 =
      keyed_row PD_QUEUE_PREFIX qe_op_id entry_bytes <$> q /\
    (claimed_entry ∈ q \/ exists (success : bool) (error : bytes), forall e', e' ∈ q -> qe_op_id e' = 1 ->
      e' = set_status claimed_entry (if success then Success else Failed error) 7 102
             (if success then [] else error)).
Proof.
  destruct (claim_exclusive stamped (drop 3 demo_queue) 3 claimed_db claimed_state claimed_entry claimed_ok)
    as (q & Hq & H).
  - repeat split; by vm_compute.
  - by vm_compute.
  - by left.
  - done.
  - repeat (apply Forall_cons_2; [done|]). by apply Forall_nil_2.
  - exists q. split; [exact Hq|]. destruct H as [H|(success & error & _ & H)]; [by left|right].
    exists success, error. exact H.
Defined.

(** ** A split *)

Definition demo_intent : option PdIntent :=
  match plan_split two_regions 1 (b "g") 3 with
  | Ok plan => Some {| in_op_id := 1; in_owner := 7; in_plan := plan; in_phase := Prepared |}
  | Err _ => None
  end.

Lemma cutover_exact_witness :
  exists i t', demo_intent = Some i /\
    region_table (run_r0 stamped zero_db ([r0_pd 1 (RecordIntent i)] ++ [r0_pd 2 (Cutover 1)])).2 = Ok t' /\
    region_apply two_regions (plan_changes (in_plan i)) = Ok (true, t').
Proof.
  unfold demo_intent. destruct (plan_split two_regions 1 (b "g") 3) as [plan|] eqn:E; [|by vm_compute in E].
  set (i := {| in_op_id := 1; in_owner := 7; in_plan := plan; in_phase := Prepared |}).
  assert (r0_ok 1 (run_r0 stamped zero_db [r0_pd 1 (RecordIntent i)]).2
    (spec_log zero_state [r0_pd 1 (RecordIntent i)])) as [Hrep _ _ _ _].
  { apply (run_ok_at [r0_pd 1 (RecordIntent i)] 0 zero_db zero_state zero_ok); [|by vm_compute].
    repeat split; by vm_compute. }
  destruct (cutover_exact stamped [r0_pd 1 (RecordIntent i)] [] 0 zero_db zero_state plan 1 i
    (r0_pd 2 (Cutover 1)) (r0_pd 3 (Cutover 1)) zero_ok two_regions_small)
    as (t & t' & phase & Ht & Ht' & _ & _ & H).
  - left. by exists 1, (b "g"), 3.
  - repeat split; by vm_compute.
  - by vm_compute.
  - done.
  - done.
  - by apply Forall_nil_2.
  - by rewrite (pd_intent_rep _ _ _ Hrep).
  - done.
  - done.
  - rewrite (pr_table _ _ Hrep) in Ht. injection Ht as <-.
    exists i, t'. split; [done|]. split; [exact Ht'|].
    destruct H as [(_ & H & _)|(_ & H & _)]; [exact H|]. by destruct H.
Defined.
