(* ===== verification/ExecutorWitnesses.v ===== *)
(** * The execution of a split: concrete executions

    One Region with a key, split in a run of the executor that goes well, and
    the runs that lose writes. *)

From S2P Require Export PdWitnesses MigrationWitnesses ExecutorAnomalies.

Local Open Scope Z_scope.

(** ** The run *)

Definition demo_plan : SplitMergePlan := {|
  plan_kind := RegionTable.Split; source_region := 1; target_region := Some 3;
  plan_changes := [RcUpdate (shrink_region (region 1 [] (b "m")) (b "g"));
                   RcAdd (split_child (region 1 [] (b "m")) (b "g") 3)];
  expected_table_version := 1 |}.

Lemma demo_plan_ok : plan_split two_regions 1 (b "g") 3 = Ok demo_plan.
Proof. by vm_compute. Qed.

Definition run_intent : PdIntent := new_intent 7 1 demo_plan.

(** The parent has written one key of the child. *)
Definition source0 : db := applied_put (b "h") (b "1") 5 5.

(** The fence is armed. *)
Definition source1 : db := (fence_direct_writes (b "g") (b "m") 1 (standalone 50) source0).2.

Definition demo_copy (d : db) : (Z + MigrateError) * db :=
  migrate_split stamped stamped 10 demo_plan true true (once 1) source1 [(source1, seq1)]
    [one_page source1] d.

Lemma demo_copy_ok : (demo_copy demo0).1 = inl 5.
Proof. by vm_compute. Qed.

Definition demo_put : DirectWrite := PutV2 (b "h") (b "9") None 9.

Definition entry1 : R0Entry := r0_pd 1 (Enqueue split_op 7 100).
Definition entry2 : R0Entry := r0_pd 2 (Claim 1 7 102).
Definition entry3 : R0Entry := r0_pd 3 (RecordIntent run_intent).
Definition entry4 : R0Entry := r0_pd 4 (Cutover 1).

Definition demo_log : list R0Entry := [entry1; entry2; entry3; entry4].

(** A state with so many entries in the log, no moved key and nothing in flight. *)
Definition world (n seen : nat) (src dst : db) (routed : list DirectWrite) : World :=
  {| w_log := take n demo_log; w_seen := seen; w_flight := []; w_source := src; w_target := dst;
     w_routed := routed; w_moved := ∅ |}.

Abbreviation demo_run :=
  (sys_run stamped stamped stamped 10 zero_db zero_state 0 7 1 1 (b "g") 3).
Abbreviation demo_step :=
  (run_exec stamped stamped stamped 10 zero_db zero_state 0 7 1 1 (b "g") 3).
Abbreviation demo_env :=
  (run_env stamped stamped stamped 10 zero_db zero_state 0 7 1 1 (b "g") 3).

Lemma demo_log_fine n : (n <= 4)%nat -> log_fine zero_state 0 (take n demo_log).
Proof.
  intros Hn. do 5 (destruct n as [|n]; [split; [repeat split; by vm_compute|by vm_compute]|]). lia.
Qed.

Lemma demo_reads n seen :
  (n <= 4)%nat -> pd_rep (run_r0 stamped zero_db (take seen (take n demo_log))).2 (state_at zero_state (take n demo_log) seen).
Proof. intros H. apply (state_reads _ _ _ 0 zero_ok). by apply demo_log_fine. Qed.

Lemma demo_commit n e c seen src dst routed :
  r0_command e = R0Pd c -> (S n <= 4)%nat -> take n demo_log ++ [e] = take (S n) demo_log ->
  can_commit zero_state 0 (world n seen src dst routed) e c.
Proof.
  intros Hc H E. split; [done|]. cbn [w_log world]. rewrite E. by apply demo_log_fine.
Qed.

Lemma demo_initial : initial (world 0 0 source0 demo0 []).
Proof. split_and!; try done. intros k. cbn. by intros []. Qed.

Lemma demo_queued src dst routed :
  queued 1 1 (b "g") 3 (view stamped zero_db (world 1 1 src dst routed)).
Proof.
  exists (new_pending 1 split_op 7 100). split; [|done]. unfold view. cbn [w_log w_seen world].
  rewrite (pd_queue_entries_rep _ _ (demo_reads 1 1 ltac:(lia))). by left.
Qed.

Lemma demo_claimed n seen src dst routed :
  (n = 2%nat /\ seen = 2%nat) \/ (n = 4%nat /\ seen = 3%nat) ->
  claimed_here 7 1 1 (b "g") 3 (view stamped zero_db (world n seen src dst routed)).
Proof.
  intros H. exists claimed_entry. split; [|done]. unfold view. cbn [w_log w_seen world].
  destruct H as [[-> ->]|[-> ->]].
  - rewrite (pd_queue_entries_rep _ _ (demo_reads 2 2 ltac:(lia))). by left.
  - rewrite (pd_queue_entries_rep _ _ (demo_reads 4 3 ltac:(lia))). by left.
Qed.

(** The run up to the copy; a put was routed before the fence. *)
Lemma demo_run_copied :
  demo_run (world 0 0 source0 demo0 [], Idle) []
    (world 3 3 source1 (demo_copy demo0).2 [demo_put], Copied run_intent).
Proof.
  eapply (demo_env _ _ (world 1 0 source0 demo0 []) None); [apply (v_commit _ _ _ _ _ _ _ _ (world 0 0 source0 demo0 []) entry1); [exact I|apply (demo_log_fine 1); lia..]|].
  eapply (demo_env _ _ (world 1 1 source0 demo0 []) None).
  { apply (v_observe _ _ _ _ _ _ _ _ (world 1 0 source0 demo0 []) 1); cbn; lia. }
  eapply demo_step.
  { apply x_one; apply x_claim with (w := world 1 1 source0 demo0 []) (e := entry2) (at_unix := 102);
      [apply demo_queued|apply demo_commit; [done|lia|done]]. }
  eapply (demo_env _ _ (world 2 2 source0 demo0 []) None).
  { apply (v_observe _ _ _ _ _ _ _ _ (world 2 1 source0 demo0 []) 2); cbn; lia. }
  pose proof (demo_reads 2 2 ltac:(lia)) as Hrep.
  eapply (demo_env _ _ (world 2 2 source0 demo0 [demo_put]) None).
  { apply (v_route _ _ _ _ _ _ _ _ (world 2 2 source0 demo0 [])). exists two_regions.
    split; [apply (pr_table _ _ Hrep)|]. intros k ->. by vm_compute. }
  eapply demo_step; [apply x_one, x_start, demo_claimed; by left|].
  eapply demo_step.
  { apply x_drive; apply x_plan with (w := world 2 2 source0 demo0 [demo_put]) (t := two_regions) (plan := demo_plan);
      [apply (pr_table _ _ Hrep)|apply two_regions_small|by apply (pd_intent_rep _ _ _ Hrep)|apply demo_plan_ok]. }
  eapply demo_step.
  { apply x_drive; apply x_record with (w := world 2 2 source0 demo0 [demo_put]) (e := entry3). apply demo_commit; [done|lia|done]. }
  eapply (demo_env _ _ (world 3 3 source0 demo0 [demo_put]) None).
  { apply (v_observe _ _ _ _ _ _ _ _ (world 3 2 source0 demo0 [demo_put]) 3); cbn; lia. }
  eapply demo_step.
  { apply x_drive; apply x_arm with (w := world 3 3 source0 demo0 [demo_put]) (w' := world 3 3 source1 demo0 [demo_put]); [done|].
    exists 1, (b "g"), (b "m"), (standalone 50). split; [done|]. split; [by vm_compute|done]. }
  eapply demo_step; [apply x_drive; apply x_page|].
  eapply demo_step; [|apply run_here].
  apply x_drive; apply x_migrate with (w := world 3 3 source1 demo0 [demo_put]) (assembled := true) (drained := true) (reset := once 1)
    (before := source1) (polls := [(source1, seq1)]) (views := [one_page source1])
    (child := split_child (region 1 [] (b "m")) (b "g") 3) (r := inl 5).
  - done.
  - done.
  - by apply Forall_singleton.
  - by apply Forall_singleton.
  - change (migrate_split _ _ _ _ _ _ _ _ _ _ _) with (demo_copy demo0). rewrite <-demo_copy_ok. apply surjective_pairing.
Qed.

Definition copied_world : World := world 3 3 source1 (demo_copy demo0).2 [demo_put].

Lemma demo_cutover : can_commit zero_state 0 copied_world entry4 (Cutover 1).
Proof. apply demo_commit; [done|lia|done]. Qed.

Lemma demo_fresh_key : pd_journal zero_state !! 1 = None.
Proof. done. Qed.

Lemma demo_in_child : in_child run_intent (b "h").
Proof. eexists. split; [done|by vm_compute]. Qed.

(** The split goes through. *)
Definition cut_world : World := commit copied_world entry4.
Definition cut_intent : PdIntent := set_phase run_intent (Applied 2).

Lemma demo_cut_over : cut_over stamped zero_db 1 cut_world cut_intent.
Proof.
  apply (cut_over_of_cut stamped zero_db zero_state 0 1 zero_ok ltac:(by vm_compute)); [apply (demo_log_fine 4); lia|].
  by vm_compute.
Qed.

Lemma demo_run_cut : demo_run (world 0 0 source0 demo0 [], Idle) [] (cut_world, Waiting run_intent).
Proof.
  eapply (run_trans _ _ _ _ _ _ _ _ _ _ _ _ _ [] _ []); [apply demo_run_copied|].
  eapply demo_step; [|apply run_here]. apply x_drive; apply x_cutover, demo_cutover.
Qed.

Lemma split_loses_no_write_witness :
  exists t, region_table (region0 stamped zero_db cut_world) = Ok t /\
    region_id <$> route t (b "h") = Some 3 /\
    copied stamped stamped (w_source cut_world) (w_target cut_world) (b "h").
Proof.
  destruct (split_loses_no_write stamped stamped stamped 10 zero_db zero_state 0 7 1 1 (b "g") 3 zero_ok
    ltac:(by vm_compute) ltac:(by vm_compute) eq_refl stamped_barrier (world 0 0 source0 demo0 []) cut_world
    (Waiting run_intent) cut_intent demo_fresh_key ltac:(by vm_compute) demo_initial demo_run_cut demo_cut_over)
    as (t & Ht & H).
  exists t. split; [exact Ht|]. destruct (H (b "h") demo_in_child) as [Hr Hc].
  split; [exact Hr|]. apply Hc. cbn [w_moved cut_world commit copied_world world]. apply not_elem_of_empty.
Defined.

(** ** Runs that lose writes *)

Lemma fence_rep s d h start end_ op_id a :
  revision_mode s = ModeCommitTs -> mvcc_rep s d h -> mvcc_rep s (fence_direct_writes start end_ op_id a d).2 h.
Proof.
  intros Hm Hrep. pose proof (fun key => fence_rows op_id start end_ a d key) as Hk.
  unfold fence_direct_writes, backend_write in *. destruct (applied_contains d a).
  { by destruct (direct_write_fence_in_tx d). }
  cbn [snd] in *. set (d1 := tx_insert _ _ _ d) in *.
  assert (forall t, t <> TABLE_KV -> same_table t d1 d) as Hs by (intros t Ht; unfold d1; frame).
  apply (mvcc_rep_frame s d); [intros key; by injection (Hk key)| | | | |done].
  - unfold insert_last_applied. frame.
  - unfold insert_last_applied. frame.
  - rewrite compacted_revision_last_applied. by apply compacted_revision_proper, Hs.
  - unfold current_revision, current_revision_in_tx, insert_last_applied. rewrite tx_get_insert_ne by done.
    rewrite (Hs TABLE_META) by done. rewrite Hm. destruct (_ ≫= decode_u64); lia.
Qed.

Lemma source1_rep : mvcc_rep stamped source1 [put_event (b "h") (b "1") 5].
Proof. apply fence_rep; [done|]. apply applied_put_rep; [lia|by vm_compute|concrete]. Qed.

Lemma demo_fresh_put : fresh_put stamped source1 (b "h") (b "9") None 9.
Proof.
  split; [eexists; apply source1_rep|by vm_compute|by vm_compute|concrete|by eexists].
Qed.

Lemma demo_copied_up :
  copied_up stamped stamped stamped 10 zero_db zero_state 0 7 1 1 (b "g") 3 copied_world run_intent two_regions.
Proof.
  pose proof (demo_reads 3 3 ltac:(lia)) as Hrep. split; [| |apply (pr_table _ _ Hrep)|done..].
  2: { etransitivity; [apply (pd_intent_rep _ _ 1 Hrep); by vm_compute|done]. }
  exists (world 0 0 source0 demo0 []). split; [apply demo_initial|apply demo_run_copied].
Qed.

Lemma late_cutover_loses_write_witness :
  exists w' i', demo_run (copied_world, Copied run_intent) [LateCommand] (w', Stopped false) /\
    cut_over stamped zero_db 1 w' i' /\ get stamped (w_source w') (b "h") = Ok (Some (b "9")) /\
    get stamped (w_target w') (b "h") = Ok (Some (b "1")).
Proof.
  destruct (late_cutover_loses_write stamped stamped stamped 10 zero_db zero_state 0 7 1 1 (b "g") 3 zero_ok
    ltac:(by vm_compute) ltac:(by vm_compute) eq_refl stamped_barrier eq_refl stamped_barrier demo_fresh_key
    ltac:(by vm_compute) copied_world run_intent two_regions entry4 (b "h") (b "9") None 9 (standalone 60)
    demo_copied_up demo_cutover demo_in_child demo_fresh_put ltac:(by vm_compute))
    as (w' & i' & Hrun & Hcut & _ & Hs & Ht & _).
  exists w', i'. split; [exact Hrun|]. split; [exact Hcut|]. split; [exact Hs|]. rewrite Ht. by vm_compute.
Defined.

Lemma routed_write_lost_witness :
  exists w' i', demo_run (copied_world, Copied run_intent) [StaleRoute] (w', Clearing true) /\
    cut_over stamped zero_db 1 w' i' /\ get stamped (w_source w') (b "h") = Ok (Some (b "9")) /\
    get stamped (w_target w') (b "h") = Ok (Some (b "1")).
Proof.
  destruct (routed_write_lost stamped stamped stamped 10 zero_db zero_state 0 7 1 1 (b "g") 3 zero_ok
    ltac:(by vm_compute) ltac:(by vm_compute) eq_refl stamped_barrier eq_refl stamped_barrier demo_fresh_key
    ltac:(by vm_compute) copied_world run_intent two_regions entry4 [] [] (b "h") (b "9") None 9 (standalone 60)
    demo_copied_up demo_cutover demo_in_child eq_refl demo_fresh_put ltac:(by vm_compute))
    as (w' & i' & Hrun & Hcut & _ & Hs & Ht & _).
  exists w', i'. split; [exact Hrun|]. split; [exact Hcut|]. split; [exact Hs|]. rewrite Ht. by vm_compute.
Defined.

(** The child writes the key, and the node that has not seen the cutover
    starts again. *)
Definition served_target : db :=
  (apply_direct stamped (demo_copy demo0).2 (PutV2 (b "h") (b "2") None 9) (standalone 60)).2.

Definition served_world : World := set_moved (set_target cut_world served_target) (∅ ∪ {[b "h"]}).

Definition source2 : db := (fence_direct_writes (b "g") (b "m") 1 (standalone 60) source1).2.

Definition second_copy : (Z + MigrateError) * db :=
  migrate_split stamped stamped 10 demo_plan true true (once 61) source2 [(source2, seq1)]
    [one_page source2] served_target.

Lemma second_copy_ok : second_copy.1 = inl 5.
Proof. by vm_compute. Qed.

Lemma served_run : demo_run (world 0 0 source0 demo0 [], Idle) [] (served_world, Waiting run_intent).
Proof.
  eapply (run_trans _ _ _ _ _ _ _ _ _ _ _ _ _ [] _ []); [apply demo_run_cut|].
  eapply (demo_env _ _ served_world None); [|apply run_here].
  pose proof (demo_reads 4 4 ltac:(lia)) as Hrep.
  eapply (v_serve _ _ _ _ _ _ _ _ cut_world {[b "h"]} served_target); [apply (pr_table _ _ Hrep)|by vm_compute; eexists|..].
  - intros k Hk. apply (apply_direct_keys stamped _ (PutV2 (b "h") (b "2") None 9)). cbn [writes_key]. set_solver.
  - apply paired_direct. apply (paired_migrate stamped stamped eq_refl); [by apply Forall_singleton|].
    intros k. cbn. by intros [].
Qed.

Lemma served_cut_over : cut_over stamped zero_db 1 served_world cut_intent.
Proof. exact demo_cut_over. Qed.

Lemma stale_restart_overwrites_child_witness :
  get stamped (w_target served_world) (b "h") = Ok (Some (b "2")) /\
  exists w', demo_run (served_world, Waiting run_intent) [StaleView] (w', Copied run_intent) /\
    cut_over stamped zero_db 1 w' cut_intent /\ get stamped (w_target w') (b "h") = Ok (Some (b "1")).
Proof.
  pose proof (demo_reads 4 3 ltac:(lia)) as Hrep. split; [by vm_compute|].
  destruct (stale_restart_overwrites_child stamped stamped stamped 10 zero_db zero_state 0 7 1 1 (b "g") 3 zero_ok
    ltac:(by vm_compute) ltac:(by vm_compute) eq_refl stamped_barrier demo_fresh_key ltac:(by vm_compute)
    (world 0 0 source0 demo0 []) served_world (Waiting run_intent) run_intent cut_intent
    (split_child (region 1 [] (b "m")) (b "g") 3) true true (once 61) source2 [(source2, seq1)]
    (one_page source2) [] 5 second_copy.2 (standalone 60) [put_event (b "h") (b "1") 5] demo_initial served_run served_cut_over)
    as (w' & Hrun & Hcut & Hget).
  - apply (demo_claimed 4 3 source1 served_target [demo_put]). by right.
  - etransitivity; [apply (pd_intent_rep _ _ 1 Hrep); by vm_compute|done].
  - done.
  - done.
  - exact source1_rep.
  - by vm_compute.
  - by apply Forall_singleton.
  - apply Forall_singleton. intros d k. done.
  - by apply Forall_singleton.
  - rewrite <-second_copy_ok. apply surjective_pairing.
  - exists w'. split; [exact Hrun|]. split; [exact Hcut|]. rewrite (Hget (b "h") demo_in_child). by vm_compute.
Defined.
