(* ===== verification/SnapshotWitnesses.v ===== *)
(** * Snapshots and the Raft log: concrete executions

    Small stores that are exported and installed, a log that is written,
    truncated and purged, and a node that restarts. *)

From S2P Require Export PdWitnesses SnapshotSafety SnapshotStoreSafety.

Local Open Scope Z_scope.

(** ** Codecs *)

#[export] Instance raw_entry_eq_dec : EqDecision SnapshotRawEntry.
Proof. solve_decision. Defined.
#[export] Instance raw_entry_countable : Countable SnapshotRawEntry.
Proof.
  refine (inj_countable' (fun e => (internal_key e, raw_value e))
    (fun '(k, v) => {| internal_key := k; raw_value := v |}) _).
  by intros [].
Defined.

#[export] Instance kv_pair_eq_dec : EqDecision SnapshotKvPair.
Proof. solve_decision. Defined.
#[export] Instance kv_pair_countable : Countable SnapshotKvPair.
Proof.
  refine (inj_countable' (fun e => (pair_key e, pair_value e))
    (fun '(k, v) => {| pair_key := k; pair_value := v |}) _).
  by intros [].
Defined.

#[export] Instance kv_metadata_countable : Countable KvMetadata.
Proof.
  refine (inj_countable' (fun m => (version m, create_revision m, mod_revision m, lease_id m, deleted m))
    (fun '(v, c, m, l, x) => {| version := v; create_revision := c; mod_revision := m; lease_id := l; deleted := x |}) _).
  by intros [].
Defined.

#[export] Instance kv_meta_eq_dec : EqDecision SnapshotKvMeta.
Proof. solve_decision. Defined.
#[export] Instance kv_meta_countable : Countable SnapshotKvMeta.
Proof.
  refine (inj_countable' (fun e => (meta_key e, meta_fields e))
    (fun '(k, v) => {| meta_key := k; meta_fields := v |}) _).
  by intros [].
Defined.

#[export] Instance snapshot_data_eq_dec : EqDecision SnapshotData.
Proof. solve_decision. Defined.
#[export] Instance snapshot_data_countable : Countable SnapshotData.
Proof.
  refine (inj_countable'
    (fun x => ((snap_version x, last_included_index x, last_included_term x, next_revision x, applied_index x,
                applied_term x, applied_node_id x, snap_compacted x, snap_current x),
               (kv_pairs x, kv_metadata x, auth_entries x, lease_entries x, pd_entries x, sys_entries x,
                changelog_entries x, commit_log_entries x)))
    (fun '((a, c, e, f, g, i, j, k, l), (m, n, o, p, q, r, s, t)) =>
       {| snap_version := a; last_included_index := c; last_included_term := e; next_revision := f;
          applied_index := g; applied_term := i; applied_node_id := j; snap_compacted := k; snap_current := l;
          kv_pairs := m; kv_metadata := n; auth_entries := o; lease_entries := p; pd_entries := q;
          sys_entries := r; changelog_entries := s; commit_log_entries := t |}) _).
  by intros [].
Defined.

#[export] Instance log_id_countable : Countable LogId.
Proof.
  refine (inj_countable' (fun l => (leader_term l, leader_node l, log_index l))
    (fun '(t, n, i) => {| leader_term := t; leader_node := n; log_index := i |}) _).
  by intros [].
Defined.

#[export] Instance raft_entry_eq_dec : EqDecision (Entry bytes).
Proof. solve_decision. Defined.
#[export] Instance raft_entry_countable : Countable (Entry bytes).
Proof.
  refine (inj_countable' (fun e => (log_id e, payload e)) (fun '(l, p) => {| log_id := l; payload := p |}) _).
  by intros [].
Defined.

#[export] Instance snapshot_meta_eq_dec : EqDecision (SnapshotMeta Z).
Proof. solve_decision. Defined.
#[export] Instance persisted_snapshot_eq_dec : EqDecision (PersistedSnapshotMeta Z).
Proof. solve_decision. Defined.
#[export] Instance persisted_snapshot_countable : Countable (PersistedSnapshotMeta Z).
Proof.
  refine (inj_countable'
    (fun x => (sm_last_log_id (pm_meta x), sm_membership (pm_meta x), pm_checksum x, pm_path x))
    (fun '(l, m, c, p) => {| pm_meta := {| sm_last_log_id := l; sm_membership := m |}; pm_checksum := c; pm_path := p |}) _).
  by intros [[] ].
Defined.

#[export] Instance snapshot_data_pc : Postcard SnapshotData := countable_postcard SnapshotData.
#[export] Instance snapshot_data_pl : PostcardLaws SnapshotData := countable_postcard_laws SnapshotData.
#[export] Instance log_id_pc : Postcard LogId := countable_postcard LogId.
#[export] Instance log_id_pl : PostcardLaws LogId := countable_postcard_laws LogId.
#[export] Instance raft_entry_pc : Postcard (Entry bytes) := countable_postcard (Entry bytes).
#[export] Instance raft_entry_pl : PostcardLaws (Entry bytes) := countable_postcard_laws (Entry bytes).
#[export] Instance vote_pc : Postcard Z := countable_postcard Z.
#[export] Instance vote_pl : PostcardLaws Z := countable_postcard_laws Z.
#[export] Instance persisted_snapshot_pc : Postcard (PersistedSnapshotMeta Z) := countable_postcard (PersistedSnapshotMeta Z).
#[export] Instance persisted_snapshot_pl : PostcardLaws (PersistedSnapshotMeta Z) :=
  countable_postcard_laws (PersistedSnapshotMeta Z).

(** ** Snapshots *)

(** A second node with a cipher of its own. *)
Definition other_barrier : Barrier := {|
  encrypt := fun v => Ok (replicate 32 x09 ++ v);
  decrypt := fun c => if decide (take 32 c = replicate 32 x09) then Ok (drop 32 c) else Err Crypto |}.
Definition other_node : MvccStorage := {| revision_mode := ModeLogIndex; barrier := Some other_barrier |}.

Definition sealed_store : db := (put_at_revision sealed ∅ (b "k") (b "v") None 1 (standalone 1)).2.
Definition sealed_installed : db :=
  (import_snapshot_data other_node (export_snapshot_data sealed sealed_store 1 0) ∅).2.

Lemma sealed_store_rep : mvcc_rep sealed sealed_store [put_event (b "k") (b "v") 1].
Proof.
  assert (put_in_tx sealed (b "k") (b "v") 0 1 (standalone 1) PolicyLogIndex ∅ = Ok (applied_outcome, sealed_store))
    as E by concrete.
  pose proof (put_in_tx_rep sealed ∅ [] 1 PolicyLogIndex (mvcc_rep_empty sealed) ltac:(concrete) sealed_barrier
    ltac:(concrete) (b "k") (b "v") 0 (standalone 1) applied_outcome sealed_store ltac:(concrete) ltac:(concrete) E) as H.
  exact (proj1 (proj2 (proj2 H))).
Qed.

(** An encrypted value is installed on empty nodes.  The one that has the
    sender's cipher represents the history, the one with another cipher is at
    the same revision and does not. *)
Lemma snapshot_carries_state_witness :
  exists d1 d2,
    import_snapshot_data sealed (export_snapshot_data sealed sealed_store 1 0) ∅ = (Ok tt, d1) /\
    mvcc_rep sealed d1 [put_event (b "k") (b "v") 1] /\
    import_snapshot_data other_node (export_snapshot_data sealed sealed_store 1 0) ∅ = (Ok tt, d2) /\
    current_revision other_node d2 = 1 /\ ~ mvcc_rep other_node d2 [put_event (b "k") (b "v") 1].
Proof.
  assert (forall s', revision_mode s' = ModeLogIndex -> current_revision s' ∅ <= 1 -> exists d',
    import_snapshot_data s' (export_snapshot_data sealed sealed_store 1 0) ∅ = (Ok tt, d') /\
    (mvcc_rep s' d' [put_event (b "k") (b "v") 1] <-> opens_rows s' sealed_store [put_event (b "k") (b "v") 1]) /\
    opens_rows sealed sealed_store [put_event (b "k") (b "v") 1] /\ current_revision s' d' = 1) as H.
  { intros s' Hm Hc.
    destruct (snapshot_carries_state sealed s' sealed_store _ (standalone 1) 1 0 sealed_store_rep ltac:(concrete)
      ltac:(left; concrete) Hm) as (_ & _ & _ & Ho & H).
    assert (current_revision sealed sealed_store = 1) as E by concrete. rewrite E in H.
    destruct (H ∅) as [(d' & H1 & H2 & _ & H3 & _) _]; [exact Hc|]. by exists d'. }
  destruct (H sealed eq_refl ltac:(concrete)) as (d1 & E1 & H1 & Ho & _).
  destruct (H other_node eq_refl ltac:(concrete)) as (d2 & E2 & H2 & _ & Hc).
  exists d1, d2. split; [exact E1|]. split; [by apply H1|]. split; [exact E2|]. split; [exact Hc|].
  intros Hn%H2. destruct (Hn (b "k") (b "v") eq_refl) as (raw & Eraw & Ep).
  vm_compute in Eraw. injection Eraw as <-. vm_compute in Ep. discriminate Ep.
Defined.

Definition installed_from (d : db) : db := (import_snapshot_data stamped (export_snapshot_data stamped d 3 0) ∅).2.

Lemma installed_from_ok d a :
  get_applied_log_id d = Some a ->
  import_snapshot_data stamped (export_snapshot_data stamped d 3 0) ∅ = (Ok tt, installed_from d).
Proof.
  intros Ha. unfold installed_from. rewrite import_regress, (snap_current_exact stamped d 3 0 a Ha).
  pose proof (current_revision_range stamped d) as [H _]. assert (current_revision stamped ∅ = 0) as E by concrete.
  rewrite E. by rewrite (proj2 (Z.ltb_ge _ _) H).
Qed.

Definition seq_store : db := insert_last_applied (standalone 3) seq1.
Definition follower_store : db := insert_last_applied (standalone 3) demo0.

Lemma follower_store_follows : region_follows stamped (region 1 [] (b "m")) [decision_of txn1] follower_store [].
Proof.
  destruct demo_follows as [G1 G2 G3]. split; [|by vm_compute|exact G3].
  apply (mvcc_rep_frame stamped demo0); [| | |by vm_compute..|exact G1]; unfold follower_store, insert_last_applied; [|frame..].
  intros key. by rewrite tx_get_insert_ne.
Qed.

(** A decision log, an operator queue with a claimed operator and a Region that
    waits for its first decision. *)
Lemma snapshot_carries_services_witness :
  seq_rep all_inputs (installed_from seq_store) [decision_of txn1] /\
  r0_ok 3 (installed_from claimed_db) claimed_state /\
  region_follows stamped (region 1 [] (b "m")) [decision_of txn1] (installed_from follower_store) [].
Proof.
  split; [|split].
  - destruct (snapshot_carries_services (U := all_inputs) stamped stamped seq_store ∅ (installed_from seq_store) (standalone 3) 3 0
      ltac:(concrete) eq_refl eq_refl ltac:(apply (installed_from_ok _ (standalone 3)); concrete)) as (H & _).
    apply H. eapply seq_rep_frame; [|exact seq1_rep]. apply same_table_agree. unfold seq_store, insert_last_applied. frame.
  - destruct (snapshot_carries_services (U := all_inputs) stamped stamped claimed_db ∅ (installed_from claimed_db) (standalone 3) 3 0
      ltac:(concrete) eq_refl eq_refl ltac:(apply (installed_from_ok _ (standalone 3)); concrete)) as (_ & H & _).
    apply H, claimed_ok.
  - destruct (snapshot_carries_services (U := all_inputs) stamped stamped follower_store ∅ (installed_from follower_store) (standalone 3) 3 0
      ltac:(concrete) eq_refl eq_refl ltac:(apply (installed_from_ok _ (standalone 3)); concrete)) as (_ & _ & H & _).
    destruct (H _ _ _ follower_store_follows) as [Ho Hf]. by apply Hf.
Defined.

(** A v2 lease with a key bound to it. *)
Definition leased_store : db := (put_at_commit_ts stamped demo_v2 (b "k") (b "v") (Some 4) 5 (standalone 2)).2.
Definition leased_installed : db :=
  (import_snapshot_data stamped (export_snapshot_data stamped leased_store 2 0) ∅).2.

Lemma snapshot_loses_v2_leases_witness :
  get_lease_v2_record leased_store 4 = Some demo_v2_lease /\
  get_lease_v2_record leased_installed 4 = None /\ bound leased_installed 4 (b "k").
Proof.
  destruct (snapshot_loses_v2_leases stamped leased_store ∅ leased_installed (standalone 2) 2 0 4)
    as (_ & H1 & _ & _ & _ & H2).
  - concrete.
  - apply surjective_pairing.
  - split; [concrete|]. split; [exact H1|]. apply (H2 (b "k")).
    exists {| version := 1; create_revision := 5; mod_revision := 5; lease_id := 4; deleted := false |}.
    split; [concrete|]. split; concrete.
Defined.

Lemma snapshot_ships_foreign_ciphertext_witness :
  get sealed sealed_store (b "k") = Ok (Some (b "v")) /\ get other_node sealed_installed (b "k") = Err Crypto.
Proof.
  destruct (snapshot_ships_foreign_ciphertext sealed other_node demo_barrier other_barrier sealed_store ∅
    sealed_installed 1 0 (b "k") (b "v") (demo_header ++ b "v")) as (H1 & H2 & _).
  - reflexivity.
  - reflexivity.
  - apply demo_barrier_laws.
  - reflexivity.
  - concrete.
  - concrete.
  - reflexivity.
  - apply surjective_pairing.
  - split; [exact H1|exact H2].
Defined.

(** ** The Raft log *)

Definition lid (t i : Z) : LogId := {| leader_term := t; leader_node := 1; log_index := i |}.
Definition raft_entry (t i : Z) (p : bytes) : Entry bytes := {| log_id := lid t i; payload := p |}.

Definition on_log (tracker : option SnapshotTracker) (op : LogOp (Payload := bytes) (Vote := Z))
    : LogCall (Payload := bytes) (Vote := Z) :=
  {| lc_tracker := tracker; lc_is_file := fun _ => true; lc_op := op |}.

Definition durable_one : DurableSnapshot := {| durable_index := 1; durable_term := 1; durable_path := b "s" |}.

(** Three entries, the last replaced by another leader, then two purges of which
    the first has no snapshot. *)
Definition demo_calls : list (LogCall (Payload := bytes) (Vote := Z)) := [
  on_log None (SaveVote 7);
  on_log None (Append [raft_entry 1 0 (b "a"); raft_entry 1 1 (b "b"); raft_entry 1 2 (b "c")]);
  on_log None (TruncateAfter (Some (lid 1 1)));
  on_log None (Append [raft_entry 2 2 (b "d")]);
  on_log None (SaveCommitted (Some (lid 2 2)));
  on_log (Some None) (Purge (lid 1 0));
  on_log (Some (Some durable_one)) (Purge (lid 1 0))].

Lemma demo_calls_allowed : allowed_calls empty_log demo_calls.
Proof. by repeat split. Qed.

Lemma raft_log_keeps_contract_witness :
  exists d, (run_calls demo_calls ∅).2 = d /\
    get_entry_at 2 d = Ok (Some (raft_entry 2 2 (b "d"))) /\ get_entry_at 0 d = Ok (None (A := Entry bytes)) /\
    try_get_log_entries (Included 1) (Excluded 3) d = Ok [raft_entry 1 1 (b "b"); raft_entry 2 2 (b "d")].
Proof.
  destruct (raft_log_keeps_contract demo_calls demo_calls_allowed) as (d & E & H1 & H2 & _).
  exists d. split; [by rewrite E|]. split; [rewrite H1; [reflexivity|concrete]|].
  split; [rewrite H1; [reflexivity|concrete]|]. rewrite H2; [reflexivity|concrete].
Defined.

Definition leader_at (applied : LogId) : RaftMetrics :=
  {| is_leader := true; local_committed := Some (lid 2 2); last_applied_id := Some applied |}.

Lemma read_barrier_exact_witness :
  exists d, (run_calls demo_calls ∅).2 = d /\
    ensure_linearizable_barrier (Payload := bytes) (Some (ReadIndexOk, leader_at (lid 2 2))) (Some d) = Served /\
    ensure_linearizable_barrier (Payload := bytes) (Some (ReadIndexOk, leader_at (lid 1 2))) (Some d) <> Served.
Proof.
  destruct (empty_log_rep (Payload := bytes) (Vote := Z)) as [Hr Hok].
  destruct (run_calls_ok demo_calls ∅ empty_log Hr Hok demo_calls_allowed) as (d & E & Hr' & Hok').
  exists d. split; [by rewrite E|]. split.
  - apply (read_barrier_exact d _ (leader_at (lid 2 2)) Hr' Hok'); [concrete|]. split; [reflexivity|].
    intros applied [= <-]. split; [by intros c [= <-]|]. right. exists (raft_entry 2 2 (b "d")). clear.
    split; vm_compute; reflexivity.
  - intros [_ H]%(read_barrier_exact d _ (leader_at (lid 1 2)) Hr' Hok'); [|concrete].
    destruct (H (lid 1 2) eq_refl) as [_ [H'|(e & He & Hl)]]; [vm_compute in H'; discriminate H'|].
    clear -He Hl. vm_compute in He. injection He as <-. vm_compute in Hl. discriminate Hl.
Defined.

(** ** Snapshots on disk *)

Definition meta_at (t i : Z) : SnapshotMeta Z := {| sm_last_log_id := Some (lid t i); sm_membership := 0 |}.

Lemma snapshot_write_crash_safe_witness :
  exists (n : Node Z), load (nd_db n) (nd_files n) = Some ({| ss_meta := meta_at 1 3; ss_data := b "old" |}, final_name (meta_at 1 3)) /\
    (load (nd_db n) (renamed (meta_at 1 5) (b "new") (nd_files n)) =
       Some ({| ss_meta := meta_at 1 3; ss_data := b "old" |}, final_name (meta_at 1 3)) \/
     load (nd_db n) (renamed (meta_at 1 5) (b "new") (nd_files n)) =
       Some ({| ss_meta := meta_at 1 5; ss_data := b "new" |}, final_name (meta_at 1 5))).
Proof.
  destruct (persist_ok (meta_at 1 3) (b "old") (sm_new 0 ∅ ∅ ∅)) as (n & _ & [P1 P2 _ _ _ _ _ _]).
  assert (load (nd_db n) (nd_files n) = Some ({| ss_meta := meta_at 1 3; ss_data := b "old" |}, final_name (meta_at 1 3))) as E.
  { rewrite (load_row _ _ (meta_at 1 3) (b "old")), P2 by (rewrite P1; apply tx_get_insert). cbn [mbind option_bind].
    by rewrite decide_True. }
  exists n. split; [exact E|].
  apply (snapshot_write_crash_safe (meta_at 1 5) (meta_at 1 3) (b "new") (nd_db n) (nd_files n) (nd_db n)
    (renamed (meta_at 1 5) (b "new") (nd_files n)) {| ss_meta := meta_at 1 3; ss_data := b "old" |} E).
  - intros H. exfalso. vm_compute in H. discriminate H.
  - apply crash_rename.
Defined.

(** A node that has applied three entries. *)
Definition applied_db : db := insert_last_applied {| term := 1; node_id := 1; index := 2 |} ∅.
Abbreviation node_world := (NodeWorld (M := Z) (Payload := bytes) (Vote := Z)).

Definition world_applied : node_world :=
  {| w_node := in_memory (on_disk (sm_new 0 ∅ ∅ ∅) applied_db ∅) (Some (lid 1 2)) 0; w_build := None; w_log := empty_log |}.

Lemma world_applied_reachable : rtc (node_step 0 stamped) (new_world 0) world_applied.
Proof.
  eapply rtc_l; [|apply rtc_refl].
  apply (step_apply 0 stamped (new_world 0) applied_db (Some (lid 1 2)) 0); [reflexivity|by vm_compute|by vm_compute|by vm_compute].
Qed.

Lemma build_finish_post (mt : SnapshotMeta Z) data n :
  nd_tracker n = None -> let n' := (build_finish mt data n).2 in
  nd_tracker n' = Some {| durable_index := meta_index mt; durable_term := meta_term mt; durable_path := final_name mt |} /\
  nd_files n' !! final_name mt = Some data /\ nd_log n' = nd_log n.
Proof.
  intros Ht. unfold build_finish. destruct (persist_ok mt data n) as (n1 & -> & [P1 P2 P3 P4 P5 P6 P7 P8]).
  cbv zeta. cbn [snd]. unfold publish_snapshot. rewrite Ht in P4.
  destruct (match nd_slot n1 with Some _ => _ | None => _ end); (split; [exact P4|split; [exact P2|exact P5]]).
Qed.

Definition demo_append : LogOp (Payload := bytes) (Vote := Z) :=
  Append [raft_entry 1 0 (b "a"); raft_entry 1 1 (b "b"); raft_entry 1 2 (b "c")].
Definition demo_purge : LogOp (Payload := bytes) (Vote := Z) := Purge (lid 1 2).
Definition demo_meta : SnapshotMeta Z := build_read (get_snapshot_builder (w_node world_applied)) (w_node world_applied).

Lemma demo_append_allowed : allowed empty_log demo_append.
Proof. by vm_compute. Qed.
Lemma demo_purge_allowed : allowed (spec_op empty_log demo_append) demo_purge.
Proof. by vm_compute. Qed.

(** It builds a snapshot of them and purges its log. *)
Lemma purged_reachable :
  exists w : node_world, rtc (node_step 0 stamped) (new_world 0) w /\ ls_purged (w_log w) = Some (lid 1 2).
Proof.
  destruct (snapshot_bytes_roundtrip (export_snapshot_data stamped applied_db 2 1) eq_refl) as (data & Ed & _).
  destruct (build_finish_post demo_meta data (w_node world_applied) eq_refl) as (F1 & F2 & F3).
  set (n1 := (build_finish demo_meta data (w_node world_applied)).2) in *.
  set (c1 := {| lc_tracker := Some (nd_tracker n1); lc_is_file := is_file n1; lc_op := demo_append |}).
  set (n2 := with_log n1 (log_call c1 (nd_log n1)).2).
  set (c2 := {| lc_tracker := Some (nd_tracker n2); lc_is_file := is_file n2; lc_op := demo_purge |}).
  assert (refused c2 = false) as Hc2.
  { unfold refused. cbn [c2 lc_op lc_tracker lc_is_file demo_purge]. unfold n2. cbn [with_log nd_tracker]. rewrite F1.
    unfold durable_covers, is_file. cbn [durable_index durable_path with_log nd_files]. rewrite F2.
    rewrite bool_decide_eq_true_2 by eauto. clear. vm_compute. reflexivity. }
  exists {| w_node := with_log n2 (log_call c2 (nd_log n2)).2; w_build := None;
            w_log := spec_call (spec_call empty_log c1) c2 |}.
  split; [|unfold spec_call at 1; rewrite Hc2; reflexivity].
  etrans; [exact world_applied_reachable|].
  eapply rtc_l; [apply step_get_builder; reflexivity|].
  eapply rtc_l; [eapply step_build_read; reflexivity|].
  eapply rtc_l; [eapply (step_build_export _ _ _ demo_meta data); [reflexivity|exact Ed]|].
  eapply rtc_l; [eapply (step_build_finish _ _ _ demo_meta data n1); [reflexivity|apply surjective_pairing]|].
  eapply rtc_l; [eapply (step_log _ _ _ demo_append); [exact demo_append_allowed|apply eq_refl]|].
  eapply rtc_l; [eapply (step_log _ _ _ demo_purge); [exact demo_purge_allowed|apply eq_refl]|].
  apply rtc_refl.
Qed.

Lemma restart_covers_purged_log_witness :
  exists (w : node_world) n, restart 0 stamped (w_node w) = (Ok tt, n) /\ last_purged (nd_log n) = Ok (Some (lid 1 2)) /\
    durable_covers (is_file n) 2 (nd_tracker n) = true.
Proof.
  destruct purged_reachable as (w & Hw & Hp). destruct (restart 0 stamped (w_node w)) as [r n] eqn:E.
  destruct (restart_covers_purged_log 0 stamped w r n Hw E) as (H1 & H2 & H3).
  exists w, n. rewrite E, H1, H2, Hp. split; [reflexivity|]. split; [reflexivity|]. exact (proj1 (H3 _ Hp)).
Defined.

Lemma install_succeeds (mt : SnapshotMeta Z) data (n : Node Z) sd :
  snapshot_from_bytes data = Ok sd -> snap_version sd = CURRENT_VERSION ->
  current_revision stamped (nd_db n) <= snap_current sd ->
  exists n', install_snapshot stamped mt data n = (Ok tt, n').
Proof.
  intros Hsd Hv Hc. unfold install_snapshot, import_bytes.
  destruct (bytes_eqb_spec data []) as [->|_]; [by vm_compute in Hsd|]. rewrite Hsd. unfold import_snapshot_data.
  rewrite Hv, Z.eqb_refl, (proj2 (Z.ltb_ge _ _) Hc). cbn [negb]. unfold backend_write.
  match goal with |- context[persist_snapshot_file mt data ?m] => destruct (persist_ok mt data m) as (n2 & -> & _) end.
  match goal with |- context[persist_membership ?m] => destruct (persist_membership_ok m) as [x ->] end.
  by eexists.
Qed.

Definition fresh_node : Node Z := sm_new 0 ∅ ∅ ∅.
Definition early_meta : SnapshotMeta Z := {| sm_last_log_id := None; sm_membership := 0 |}.

Lemma late_build_takes_snapshot_back_witness :
  exists n3 data : _, last_purged (nd_log n3) = Ok (Some (lid 1 2)) /\
    (get_current_snapshot (region_restart 0 n3)).1 = Some {| ss_meta := early_meta; ss_data := data |}.
Proof.
  destruct (snapshot_bytes_roundtrip (export_snapshot_data stamped ∅ 0 0) eq_refl) as (data & Ed & _).
  destruct (snapshot_bytes_roundtrip (export_snapshot_data stamped applied_db 2 1) eq_refl) as (data' & Ed' & Hd').
  destruct (install_succeeds (meta_at 1 2) data' fresh_node _ Hd') as [n1 E1]; [concrete|concrete|].
  set (n2 := with_log n1 (purge (Some (nd_tracker n1)) (is_file n1) (lid 1 2) (nd_log n1)).2).
  destruct (persist_ok early_meta data n2) as (n2' & Ep & _).
  destruct (late_build_takes_snapshot_back (Payload := bytes) (Vote := Z) 0 stamped fresh_node empty_log early_meta data
    (meta_at 1 2) data' n1 (lid 1 2) n2 (publish_snapshot {| ss_meta := early_meta; ss_data := data |} n2'))
    as (H1 & _ & H2 & _).
  - exact (proj1 (new_world_ok 0)).
  - split; [exact I|]. split; [concrete|]. eapply (export_snapshot_of stamped ∅ 0 0); [concrete|right; concrete|exact Ed].
  - concrete.
  - reflexivity.
  - eapply (export_snapshot_of stamped applied_db 2 1); [concrete|left; concrete|exact Ed'].
  - concrete.
  - concrete.
  - concrete.
  - exact E1.
  - reflexivity.
  - unfold build_finish. by rewrite Ep.
  - exists (publish_snapshot {| ss_meta := early_meta; ss_data := data |} n2'), data. split; [exact H1|exact H2].
Defined.
