(* ===== verification/ApprovalWitnesses.v ===== *)
(** * Examples for the approval engine and its bridge

    A small instance: two approvers who must agree, and a reader.  The theorems
    of [ApprovalSafety] and [ApprovalBridgeSafety] are applied to it, and the
    places where the code does something else than its comments say are run. *)

From S2P Require Import ApprovalBridgeSafety.

Local Open Scope Z_scope.

(** ** The engine *)

Definition demo_spec : StartSpec :=
  {| spec_id := b "w1"; spec_ns := b "eis"; spec_name := b "leave"; spec_version := b "1"; spec_hash := b "h";
     spec_initiator := b "ann"; spec_context := ∅ |}.

Definition unwrap {A : Type} (d : A) (x : ApprovalError + A) : A := match x with inr a => a | inl _ => d end.

Definition blank : Engine :=
  {| instance := {| inst_id := []; definition_ns := []; definition_name := []; definition_version := []; definition_hash := [];
       engine_version := []; initiator := []; inst_status := IPending; context := ∅; root_branch_id := None; revision := 0;
       jump_count := 0; audit := []; returns := []; inst_created_at := 0; inst_updated_at := 0 |};
     branches := ∅; tasks := ∅; rounds := ∅; node_attempts := ∅; seq := 0; acting_service := None |}.

Definition succeeded_b {A : Type} (m : (ApprovalError + A) * Engine) : bool := match m with (inr _, _) => true | _ => false end.
Lemma succeeded_spec {A : Type} (d : A) m : succeeded_b m = true -> m = (inr (unwrap d m.1), m.2).
Proof. by destruct m as [[x|a] e]. Qed.
Definition is_some {A : Type} (o : option A) : bool := match o with Some _ => true | None => false end.
Lemma some_default {A : Type} (d : A) o : is_some o = true -> o = Some (default d o).
Proof. by destruct o. Qed.

Definition demo0 : Engine := unwrap blank (start demo_spec 10).

Fixpoint run_commands (cs : list (Command * Z)) (e : Engine) : Engine :=
  match cs with
  | [] => e
  | (c, now) :: cs => run_commands cs (run_command c (revision (instance e)) now e).2
  end.

(** Every command of the list succeeds and has room. *)
Fixpoint commands_run (cs : list (Command * Z)) (e : Engine) : bool :=
  match cs with
  | [] => true
  | (c, now) :: cs =>
    (seq e + ids_needed c <? u32_modulus) &&
    match run_command c (revision (instance e)) now e with
    | (inr _, e) => commands_run cs e
    | (inl _, _) => false
    end
  end.

Lemma commands_reach cs e : commands_run cs e = true -> rtc engine_step e (run_commands cs e).
Proof.
  revert e. induction cs as [|[c now] cs IH]; intros e; cbn [commands_run run_commands]; [constructor|].
  intros [Hr Hc]%andb_true_iff. apply Z.ltb_lt in Hr.
  destruct (run_command c (revision (instance e)) now e) as [[x|o] e'] eqn:E; [done|]. eapply rtc_l; [by eapply step_command|by apply IH].
Qed.

Definition branch1 : Id := b "w1:branch-0001".
Definition task_a : Id := b "w1:task-0003".
Definition task_b : Id := b "w1:task-0004".
Definition task_r : Id := b "w1:task-0005".

Definition opening : list (Command * Z) :=
  [(EnterBranch (b "review") None JAll AnyReject default_policy, 11);
   (OpenApproval branch1 [approver (b "bob"); approver (b "cyd"); reader (b "dan")] (Some 100), 12)].

Definition opened : Engine := run_commands opening demo0.

Lemma opened_runs : commands_run opening demo0 = true.
Proof. by vm_compute. Qed.
Lemma opened_reached : rtc engine_step demo0 opened.
Proof. apply commands_reach, opened_runs. Qed.

Definition approving : list (Command * Z) :=
  [(Vote task_a (b "bob") DApprove None, 20); (Vote task_b (b "cyd") DApprove None, 21)].
Definition passed : Engine := run_commands approving opened.
Lemma passed_reached : rtc engine_step demo0 passed.
Proof. etrans; [apply opened_reached|]. apply commands_reach. by vm_compute. Qed.

Lemma demo_started : start demo_spec 10 = inr demo0.
Proof. by vm_compute. Qed.

Lemma approval_instance_consistent_witness :
  exists x, branches opened !! branch1 = Some x /\ br_status x = BOpen /\ inst_status (instance opened) = IRunning.
Proof.
  assert (exists x, branches opened !! branch1 = Some x /\ br_status x = BOpen) as (x & Hx & Ho) by (vm_compute; by eexists).
  exists x. split_and!; [done|done|].
  by destruct (approval_instance_consistent demo_spec 10 demo0 opened demo_started opened_reached) as (H & _); apply (H _ _ _ _ Hx Hx).
Defined.

Lemma votes_decide_witness :
  exists k r, rounds passed !! k = Some r /\ rd_status r = RPassed /\ votes_in k DApprove passed = 2.
Proof.
  assert (exists r, rounds passed !! b "w1:round-0002" = Some r /\ rd_status r = RPassed /\ completed_count r = 2) as (r & Hr & Hs & Hc)
    by (vm_compute; by eexists).
  exists (b "w1:round-0002"), r. split_and!; [done|done|].
  destruct (votes_decide demo_spec 10 demo0 passed demo_started passed_reached) as (H & _). destruct (H _ _ Hr) as (E & _). by rewrite <- E.
Defined.

Definition vote_a : Command := Vote task_a (b "bob") DApprove None.

Lemma voted_ok : run_command vote_a 2 20 opened =
  (inr (unwrap [] (run_command vote_a 2 20 opened).1), (run_command vote_a 2 20 opened).2).
Proof. apply (succeeded_spec []). by vm_compute. Qed.

Lemma commands_guarded_witness :
  (run_command vote_a 7 20 opened).1 = inl (StaleRevision 7 2) /\
  (run_command vote_a 2 30 (run_command vote_a 2 20 opened).2).1 = inl (StaleRevision 2 3).
Proof.
  split.
  - destruct (commands_guarded vote_a 7 20 opened _ _ (surjective_pairing _)) as (H & _). rewrite H; [by vm_compute|by vm_compute].
  - destruct (commands_guarded vote_a 2 20 opened _ _ voted_ok) as (_ & _ & _ & H). destruct (H _ eq_refl) as [[_ E]|[Hrev H2]].
    + assert (length (unwrap [] (run_command vote_a 2 20 opened).1) = 2%nat) as El by (by vm_compute). by rewrite E in El.
    + rewrite H2, Hrev. by vm_compute.
Defined.

Lemma effects_complete_witness :
  replay (view opened) (unwrap [] (run_command vote_a 2 20 opened).1) = Some (view (run_command vote_a 2 20 opened).2).
Proof.
  apply (effects_complete demo_spec 10 demo0 opened vote_a 2 20 _ _ demo_started opened_reached); [by vm_compute|by vm_compute|apply voted_ok].
Defined.

(** ** The bridge *)

(** No expressions, one length of time, no roles. *)
Definition no_evaluate (x : bytes) (v : Value) : option Value := None.
Definition one_length (x : bytes) : option Z := Some 90.
Definition no_roles (x : bytes) : option (list Principal) := None.

Abbreviation demo_step := (call_step no_evaluate one_length no_roles).
Abbreviation demo_schedule := (run_schedule no_evaluate one_length no_roles).
Abbreviation demo_run := (sys_run no_evaluate one_length no_roles).
Abbreviation demo_attempt := (call_attempt no_evaluate one_length no_roles).

Definition advance (s : System) (i : nat) (c : Running) : System :=
  let '(ph, kv) := demo_step (rc_call c) (rc_now c) (rc_phase c) (sys_kv s) in
  {| sys_kv := kv; sys_calls := <[i := {| rc_call := rc_call c; rc_now := rc_now c; rc_phase := ph |}]> (sys_calls s) |}.

Definition step_fits_b (c : Running) (kv : Kv) : bool :=
  match rc_phase c, read_instance kv (call_id (rc_call c)) with
  | PLoad _, inr loaded => loaded_seq loaded + call_ids no_evaluate no_roles (rc_call c) (loaded_seq loaded) <? u32_modulus
  | _, _ => true
  end.
Lemma step_fits_spec c kv : step_fits_b c kv = true -> step_fits no_evaluate no_roles c kv.
Proof.
  unfold step_fits_b, step_fits, fits. destruct (rc_phase c); try done. destruct (read_instance _ _); [done|]. by intros ?%Z.ltb_lt.
Qed.

(** The calls advance in the given order; the keys that they write. *)
Fixpoint schedule_keys (order : list nat) (s : System) : option (list (Id * bytes)) :=
  match order with
  | [] => Some []
  | i :: order =>
    c ← sys_calls s !! i;
    ls ← schedule_keys order (advance s i c);
    if step_fits_b c (sys_kv s) then Some (option_list (written_key (rc_phase c) (sys_kv s)) ++ ls) else None
  end.

Lemma schedule_run order s0 ls s ls' :
  demo_run s0 ls s -> schedule_keys order s = Some ls' -> demo_run s0 (ls ++ ls') (demo_schedule order s).
Proof.
  revert ls s ls'. induction order as [|i order IH]; intros ls s ls' Hr; cbn [schedule_keys run_schedule].
  - intros [= <-]. by rewrite app_nil_r.
  - destruct (sys_calls s !! i) as [c|] eqn:Hi; [|done]. cbn [mbind option_bind].
    destruct (schedule_keys order (advance s i c)) as [ls2|] eqn:El; [|done]. cbn [mbind option_bind].
    destruct (step_fits_b c (sys_kv s)) eqn:Hf; [|done]. intros [= <-]. unfold advance in El. rewrite app_assoc.
    destruct (demo_step (rc_call c) (rc_now c) (rc_phase c) (sys_kv s)) as [ph kv'] eqn:E. apply IH; [|done].
    eapply run_step; [exact Hr|]. eapply step_call; [done|by apply step_fits_spec|exact E].
Qed.

Definition arrive (x : Call) (now : Z) (s : System) : System :=
  {| sys_kv := sys_kv s;
     sys_calls := sys_calls s ++ [{| rc_call := x; rc_now := now; rc_phase := start_phase no_evaluate no_roles x |}] |}.
Lemma arrive_run x now s0 ls s : valid_call x -> demo_run s0 ls s -> demo_run s0 ls (arrive x now s).
Proof. intros Hv Hr. rewrite <- (app_nil_r ls). eapply (run_step _ _ _ _ _ _ None); [exact Hr|by apply step_arrive]. Qed.

Definition demo_wf : WorkflowInstance :=
  {| wf_id := b "w1"; wf_ns := b "eis"; wf_name := b "leave"; wf_version := b "1"; wf_hash := Some (b "h");
     wf_initiator := Some (b "ann"); wf_context := VNull |}.
Definition demo_task : ApproveTask :=
  {| approvers := [b "bob"; b "cyd"]; at_pool := []; readers := [b "dan"]; roles := []; mode := JAll; veto := true;
     at_deadline := Some (b "PT90S"); on_pass := None; on_reject := Some (b "rework"); at_sign_admins := [];
     at_allow_self := false |}.
Definition open_call : Call := EnsureCall demo_wf (b "review") demo_task.
Definition bob_call : Call := CommandCall (b "w1") (b "bob") None (AcApprove task_a None) (Some (b "k1")).
Definition cyd_rejects : Call := CommandCall (b "w1") (b "cyd") None (AcReject task_b None) None.

(** The node is opened; then two calls with one key arrive and both read the
    instance before the first of them commits. *)
Definition sys1 : System := demo_schedule (replicate 6 0%nat) (arrive open_call 10 empty_system).
Definition two_bobs : System := arrive bob_call 21 (arrive bob_call 20 sys1).
Definition turns : list nat := [1; 2; 1; 2; 1; 1; 1; 2]%nat.
Definition sys2 : System := demo_schedule turns two_bobs.

Lemma sys1_run : demo_run empty_system [] sys1.
Proof. apply (schedule_run _ _ [] _ []); [|by vm_compute]. apply arrive_run; [done|apply run_nil]. Qed.
Lemma two_bobs_run : demo_run empty_system [] two_bobs.
Proof. do 2 (apply arrive_run; [done|]). apply sys1_run. Qed.
Lemma sys2_run : demo_run empty_system [(b "w1", b "k1")] sys2.
Proof. apply (schedule_run turns _ [] two_bobs [(b "w1", b "k1")]); [apply two_bobs_run|by vm_compute]. Qed.

Definition stored (s : System) (id : Id) : option (Engine * Z) :=
  match read_instance (sys_kv s) id with inr x => x | _ => None end.

Definition stored1 (s : System) : Engine * Z := default (blank, 0) (stored s (b "w1")).
Lemma stored_ok s : is_some (stored s (b "w1")) = true -> read_instance (sys_kv s) (b "w1") = inr (Some ((stored1 s).1, (stored1 s).2)).
Proof. unfold stored1, stored. by destruct (read_instance _ _) as [x|[[e rev]|]]. Qed.

Lemma stored_instances_sound_witness :
  inst_id (instance (stored1 sys2).1) = b "w1" /\ revision (instance (stored1 sys2).1) = 3.
Proof.
  split; [|by vm_compute].
  apply (stored_instances_sound no_evaluate one_length no_roles _ sys2 (b "w1") (stored1 sys2).1 (stored1 sys2).2 sys2_run).
  apply stored_ok. by vm_compute.
Defined.

Definition idle : Running := {| rc_call := ExpireCall []; rc_now := 0; rc_phase := PIdem 1 |}.
Definition nth_call (s : System) (i : nat) : Running := default idle (sys_calls s !! i).

(** The transaction of the first call. *)
Definition before_commit : System := demo_schedule [1; 2; 1; 2; 1; 1]%nat two_bobs.
Lemma before_commit_run : demo_run empty_system [] before_commit.
Proof. apply (schedule_run [1; 2; 1; 2; 1; 1]%nat _ [] two_bobs []); [apply two_bobs_run|by vm_compute]. Qed.
Lemma committing_call : sys_calls before_commit !! 1%nat = Some (nth_call before_commit 1).
Proof. apply some_default. by vm_compute. Qed.
Lemma committing_fits : step_fits_b (nth_call before_commit 1) (sys_kv before_commit) = true.
Proof. by vm_compute. Qed.
Definition commit_step : Phase * Kv :=
  demo_step (rc_call (nth_call before_commit 1)) (rc_now (nth_call before_commit 1)) (rc_phase (nth_call before_commit 1))
    (sys_kv before_commit).

Lemma updates_are_serial_witness :
  exists i c loaded e events idem r,
    sys_calls before_commit !! i = Some c /\ read_instance (sys_kv before_commit) (b "w1") = inr loaded /\
    demo_attempt (rc_call c) (rc_now c) loaded = Commit e events (expected_of loaded) idem r.
Proof.
  destruct (updates_are_serial no_evaluate one_length no_roles _ before_commit _ _ (b "w1") before_commit_run
    (step_call _ _ _ 1 (nth_call before_commit 1) commit_step.1 commit_step.2 before_commit committing_call (step_fits_spec _ _ committing_fits)
      (surjective_pairing _))) as [Hsame|(i & c' & loaded & e & events & idem & r & Hi & _ & Hl & Ha & _)].
  - exfalso. cbn [sys_kv] in Hsame.
    assert (forall x y : BridgeError + option (Engine * Z), x = y ->
      (match x with inr (Some er) => er.2 | _ => 0 end) = (match y with inr (Some er) => er.2 | _ => 0 end)) as Hf by (by intros x ? <-).
    apply Hf in Hsame. by vm_compute in Hsame.
  - exists i, c', loaded, e, events, idem, r. split; [exact Hi|]. split; [exact Hl|exact Ha].
Defined.

Lemma commands_at_most_once_witness :
  exists response, demo_step (rc_call (nth_call sys2 2)) (rc_now (nth_call sys2 2)) (rc_phase (nth_call sys2 2)) (sys_kv sys2) =
    (PDone (inr (RCommand (Duplicate response))), sys_kv sys2).
Proof.
  destruct (commands_at_most_once no_evaluate one_length no_roles _ sys2 sys2_run) as (_ & _ & H).
  apply (H 2%nat (nth_call sys2 2) 2%nat (b "k1")); [apply some_default; by vm_compute|by vm_compute|by vm_compute|].
  replace (call_id (rc_call (nth_call sys2 2))) with (b "w1") by (by vm_compute). by left.
Defined.

Definition opening_commit : Engine * list OutboxRecord * ExpectedRev * option IdemRecord * Outcome :=
  match demo_attempt open_call 10 None with
  | Commit e events ex idem r => (e, events, ex, idem, r)
  | Stop _ => (blank, [], CreateOnly, None, RTerminated)
  end.
Lemma opening_ok : demo_attempt open_call 10 None =
  Commit opening_commit.1.1.1.1 opening_commit.1.1.1.2 opening_commit.1.1.2 opening_commit.1.2 opening_commit.2.
Proof.
  assert (match demo_attempt open_call 10 None with Commit _ _ _ _ _ => true | Stop _ => false end = true) as H by (by vm_compute).
  unfold opening_commit. by destruct (demo_attempt open_call 10 None).
Qed.
Lemma opening_quiet : opening_commit.1.1.1.2 = [].
Proof. by vm_compute. Qed.


(** ** Expiry *)

(** One of two approvers has agreed; the other seat and the reader's are due. *)
Definition one_left : Engine := run_commands [(vote_a, 20)] opened.
Definition expired_b : (ApprovalError + list Effect) * Engine := expire_all [task_b] 100 one_left.

Lemma expiry_blocks_itself_witness :
  expire_attempt (b "w1") 100 (Some (one_left, 1)) = Stop (inl BInvalidTransition).
Proof.
  assert (is_some (tasks expired_b.2 !! task_r) = true) as Hs by (by vm_compute).
  destruct (tasks expired_b.2 !! task_r) as [t|] eqn:Ht; [|done].
  apply (expiry_blocks_itself (b "w1") 1 100 one_left [task_b] task_r [] (unwrap [] expired_b.1) expired_b.2 t).
  - by vm_compute.
  - apply (succeeded_spec []). by vm_compute.
  - exact Ht.
  - assert (from_option (fun t => is_open (task_status t)) true (tasks expired_b.2 !! task_r) = false) as Ho by (by vm_compute).
    by rewrite Ht in Ho.
Defined.

(** ** What the code does differently *)

(** Expiry decides: the seat of the second approver expires, and the round
    passes with the one vote that was cast; with the policy that waits for all
    votes, an expiry rejects the instance. *)
Definition waiting : Engine :=
  run_commands
    [(EnterBranch (b "review") None JAll OnExhausted default_policy, 11);
     (OpenApproval branch1 [approver (b "bob"); approver (b "cyd")] (Some 100), 12);
     (Vote task_a (b "bob") DReject None, 20); (Expire task_b, 100)] demo0.

Lemma expiry_decides :
  rd_status <$> rounds (run_commands [(Expire task_b, 100)] one_left) !! b "w1:round-0002" = Some RPassed /\
  inst_status (instance waiting) = IRejected.
Proof. by vm_compute. Qed.

(** A candidate who acknowledges a seat takes it, and no effect says so. *)
Definition pool_reader : SeatSpec := {| seat_assignee := None; seat_candidates := [b "dan"]; seat_kind := KReadAck |}.
Definition read_open : Engine :=
  run_commands [(EnterBranch (b "review") None JAll AnyReject default_policy, 11);
                (OpenApproval branch1 [approver (b "bob"); pool_reader] None, 12)] demo0.

Lemma acknowledgement_is_silent :
  (run_command (Acknowledge task_b (b "dan")) 2 20 read_open).1 = inr [ETaskStatus task_b TCreated TCompleted] /\
  assignee <$> tasks read_open !! task_b = Some None /\
  assignee <$> tasks (run_command (Acknowledge task_b (b "dan")) 2 20 read_open).2 !! task_b = Some (Some (b "dan")).
Proof. by vm_compute. Qed.

(** With a clock that goes back, the branch that was left counts as the last
    one, and an instance whose last node passed cannot finish. *)
Definition went_back : Engine :=
  run_commands
    [(EnterBranch (b "review") None JAll AnyReject default_policy, 50);
     (OpenApproval branch1 [approver (b "bob")] None, 51);
     (ReturnToNode branch1 (b "review") (b "bob") None, 40);
     (OpenApproval (b "w1:branch-0004") [approver (b "bob")] None, 41);
     (Vote (b "w1:task-0006") (b "bob") DApprove None, 60)] demo0.

Lemma clock_going_back_blocks_finish :
  br_status <$> branches went_back !! b "w1:branch-0004" = Some BCompleted /\
  any_open_branch went_back = false /\ (finish (revision (instance went_back)) 70 went_back).1 = inl InvalidTransition.
Proof. by vm_compute. Qed.

(** A rejection ends the whole instance, so the node that the workflow goes to
    on rejection is never opened. *)
Definition rejected : System :=
  demo_schedule (replicate 6 1%nat) (arrive cyd_rejects 20 sys1).
Definition rework_call : Call := EnsureCall demo_wf (b "rework") demo_task.

Lemma rejection_blocks_next_node :
  (rc_phase <$> sys_calls rejected !! 1%nat) =
    Some (PDone (inr (RCommand (Applied (VObject [(b "instance_id", VString (b "w1")); (b "status", VString (b "REJECTED"))])
      (Some NodeRejected) (Some OutRejected))))) /\
  demo_attempt rework_call 30 (stored rejected (b "w1")) = Stop (inl BInvalidTransition).
Proof. by vm_compute. Qed.

(** A call that looks up its key, and reads the instance after another call
    with the same key has committed, answers with the error of the engine. *)
Lemma late_duplicate_gets_error :
  rc_phase <$> sys_calls (demo_schedule [1; 2; 1; 1; 1; 1; 2]%nat two_bobs) !! 2%nat = Some (PDone (inl BInvalidTransition)).
Proof. by vm_compute. Qed.

(** The store in memory does not look at the key: a delegation with one key is
    applied twice. *)
Definition delegating (now : Z) (er : Engine * Z) : Pending :=
  match demo_attempt (CommandCall (b "w1") (b "bob") None (AcDelegate task_a (b "eve")) (Some (b "k2"))) now (Some er) with
  | Commit e events ex idem r => {| pd_engine := e; pd_events := events; pd_expected := ex; pd_idem := idem; pd_result := r |}
  | Stop _ => {| pd_engine := er.1; pd_events := []; pd_expected := CreateOnly; pd_idem := None; pd_result := ROpened |}
  end.
Definition memory0 : gmap Id Entry := {[ b "w1" := {| en_engine := opened; en_mod := 1; en_events := []; en_idem := ∅ |} ]}.
Definition memory1 := memory_commit (delegating 20 (opened, 1)) memory0.
Definition loaded1 : Engine * Z := from_option (fun en => (en_engine en, en_mod en)) (opened, 0) (memory1.2 !! b "w1").
Definition memory2 := memory_commit (delegating 21 loaded1) memory1.2.

Lemma memory_store_applies_twice :
  memory1.1 = inr true /\ memory2.1 = inr true /\ en_mod <$> memory2.2 !! b "w1" = Some 3 /\
  (revision ∘ instance ∘ en_engine) <$> memory2.2 !! b "w1" = Some 4.
Proof. by vm_compute. Qed.
