(* ===== verification/OutboxWitnesses.v ===== *)
(** * Examples for the outbox

    The approval of [ApprovalWitnesses] passes and its instance is finished; the
    two events go through the outbox.  The theorems of [OutboxSafety] and
    [OutboxRelay] are applied to this run, and two runs show what the relay does
    not do. *)

From S2P Require Import OutboxRelay ApprovalWitnesses.

Local Open Scope Z_scope.

(** ** Runs as lists of turns *)

Inductive Turn :=
  | TArrive (x : Call) (now : Z)
  | TCall (i : nat)
  | TStart
  | TRelay (i : nat) (clock : Z) (accepted : bool).

Definition arrival_ok (x : Call) (now : Z) : bool :=
  (- 2 ^ 63 <=? now) && (now <? 2 ^ 63) &&
  match x with EnsureCall _ _ task => bool_decide (mode task = JAll) | _ => true end.

Definition take_turn (t : Turn) (s : Joint) : option (list ObEvent * Joint) :=
  match t with
  | TArrive x now =>
    if arrival_ok x now then Some ([], {| jt_system := arrive x now (jt_system s); jt_relays := jt_relays s |}) else None
  | TCall i =>
    c ← sys_calls (jt_system s) !! i;
    if step_fits_b c (sys_kv (jt_system s))
    then Some (call_events (rc_phase c) (sys_kv (jt_system s)),
               {| jt_system := advance (jt_system s) i c; jt_relays := jt_relays s |})
    else None
  | TStart => Some ([], {| jt_system := jt_system s; jt_relays := jt_relays s ++ [RIdle] |})
  | TRelay i clock accepted =>
    ph ← jt_relays s !! i;
    let '(ph', kv') := relay_step 1000 default_relay_policy clock accepted ph (sys_kv (jt_system s)) in
    Some (option_list ((fun r => EvDeliver r accepted) <$> offered ph),
          {| jt_system := with_kv kv' (jt_system s); jt_relays := <[i := ph']> (jt_relays s) |})
  end.

Fixpoint take_turns (ts : list Turn) (s : Joint) : option (list ObEvent * Joint) :=
  match ts with
  | [] => Some ([], s)
  | t :: ts => '(l, s1) ← take_turn t s; '(l', s2) ← take_turns ts s1; Some (l ++ l', s2)
  end.

Abbreviation demo_joint := (joint_run no_evaluate one_length no_roles 1000 default_relay_policy).

Lemma take_turn_step t s l s' :
  take_turn t s = Some (l, s') -> joint_step no_evaluate one_length no_roles 1000 default_relay_policy s l s'.
Proof.
  destruct t as [x now|i| |i clock accepted]; cbn [take_turn].
  - destruct (arrival_ok x now) eqn:E; [|done]. intros [= <- <-]. unfold arrival_ok in E. apply andb_prop in E as [E1 E2]. apply joint_arrive.
    + destruct x; try done. cbn in *. apply bool_decide_eq_true in E2. by rewrite E2.
    + apply andb_prop in E1 as [H1 H2]. unfold in_i64. lia.
  - destruct (sys_calls _ !! i) as [c|] eqn:Ei; [|done]. cbn [mbind option_bind]. destruct (step_fits_b c _) eqn:Ef; [|done]. intros [= <- <-].
    unfold advance. destruct (demo_step _ _ _ _) as [ph kv'] eqn:E. eapply joint_call; [done|by apply step_fits_spec|done].
  - intros [= <- <-]. apply joint_start.
  - destruct (jt_relays s !! i) as [ph|] eqn:Ei; [|done]. cbn [mbind option_bind]. destruct (relay_step _ _ _ _ _ _) as [ph' kv'] eqn:E.
    intros [= <- <-]. by eapply joint_relay.
Qed.

Lemma take_turns_run ts tr s l s' : demo_joint tr s -> take_turns ts s = Some (l, s') -> demo_joint (tr ++ l) s'.
Proof.
  revert tr s l. induction ts as [|t ts IH]; intros tr s l Hr; cbn [take_turns]; [intros [= <- <-]; by rewrite app_nil_r|].
  destruct (take_turn t s) as [[l1 s1]|] eqn:E1; [|done]. cbn [mbind option_bind]. destruct (take_turns ts s1) as [[l2 s2]|] eqn:E2; [|done].
  intros [= <- <-]. rewrite app_assoc. eapply IH; [|exact E2]. eapply joint_cons; [exact Hr|]. by apply (take_turn_step t).
Qed.

Definition played (ts : list Turn) : list ObEvent * Joint := default ([], empty_joint) (take_turns ts empty_joint).
Lemma played_run ts : is_some (take_turns ts empty_joint) = true -> demo_joint (played ts).1 (played ts).2.
Proof.
  intros H. unfold played. destruct (take_turns ts empty_joint) as [[l s]|] eqn:E; [|done]. cbn [default].
  apply (take_turns_run ts [] empty_joint); [constructor|done].
Qed.

(** ** An approval that passes *)

Definition cyd_call : Call := CommandCall (b "w1") (b "cyd") None (AcApprove task_b None) (Some (b "k2")).
Definition finish_call : Call := FinishCall (b "w1").

Definition approval_turns : list Turn :=
  TArrive open_call 10 :: replicate 6 (TCall 0) ++ TArrive bob_call 20 :: replicate 6 (TCall 1) ++
  TArrive cyd_call 30 :: replicate 6 (TCall 2) ++ TArrive finish_call 40 :: replicate 6 (TCall 3).

Definition play1 := played approval_turns.
Definition outbox1 : Outbox := {| ob_kv := sys_kv (jt_system play1.2); ob_relays := jt_relays play1.2 |}.

Lemma play1_run : demo_joint play1.1 play1.2.
Proof. apply played_run. by vm_compute. Qed.

Lemma outbox_of_run tr s : demo_joint tr s ->
  ob_run 1000 default_relay_policy empty_outbox tr {| ob_kv := sys_kv (jt_system s); ob_relays := jt_relays s |}.
Proof. intros H. by apply (ji_outbox _ _ _ _ _ _ _ (joint_run_inv _ _ _ _ _ _ _ H)). Qed.

Definition run_ok_b (tr : list ObEvent) : bool :=
  bool_decide (NoDup (rec_id <$> assigned tr)) && (Z.of_nat (length (assigned tr)) <? u64_modulus).
Lemma run_ok_spec tr : run_ok_b tr = true -> run_ok tr.
Proof. intros [H1 H2]%andb_prop. split; [by apply bool_decide_eq_true in H1|lia]. Qed.

Definition nth_event (tr : list ObEvent) (i : nat) : OutboxRecord :=
  default (lifecycle [] [] VNull 0 []) (assigned tr !! i).
Lemma nth_event_in tr i : is_some (assigned tr !! i) = true -> nth_event tr i ∈ assigned tr.
Proof. unfold nth_event. destruct (assigned tr !! i) as [r|] eqn:E; [|done]. intros _. by eapply list_elem_of_lookup_2. Qed.

Lemma nth_event_batch tr i : is_some (assigned tr !! i) = true -> exists l, EvCommit l ∈ tr /\ nth_event tr i ∈ l.
Proof.
  intros H%nth_event_in. revert H. generalize (nth_event tr i). intros r ([l|r' a] & Hr & Hl)%list_elem_of_bind; [by exists l|].
  by apply elem_of_nil in Hr.
Qed.

(** A relay polls both events; the sink refuses the first. *)
Definition refusing : list Turn := TStart :: TRelay 0 100 true :: replicate 4 (TRelay 0 100 false).
Definition play2 := played (approval_turns ++ refusing).
Definition outbox2 : Outbox := {| ob_kv := sys_kv (jt_system play2.2); ob_relays := jt_relays play2.2 |}.
Lemma play2_run : demo_joint play2.1 play2.2.
Proof. apply played_run. by vm_compute. Qed.
Lemma play2_ok : run_ok play2.1.
Proof. apply run_ok_spec. by vm_compute. Qed.

Lemma events_at_least_once_witness :
  deliveries (rec_id (nth_event play2.1 0)) false play2.1 = 1 /\ held (kv_rows (ob_kv outbox2)) (nth_event play2.1 0).
Proof.
  split; [by vm_compute|].
  assert (nth_event play2.1 0 ∈ assigned play2.1) as Hin by (apply nth_event_in; by vm_compute).
  destruct (events_at_least_once 1000 default_relay_policy play2.1 outbox2 _ (outbox_of_run _ _ play2_run) play2_ok Hin) as [[H|[H|H]] _]; [| |done].
  - assert (deliveries (rec_id (nth_event play2.1 0)) true play2.1 = 0) as E by (by vm_compute). lia.
  - assert (deliveries (rec_id (nth_event play2.1 0)) false play2.1 = 1) as E by (by vm_compute).
    change (8 <= deliveries (rec_id (nth_event play2.1 0)) false play2.1) in H. lia.
Defined.

Lemma play1_ok : run_ok play1.1.
Proof. apply run_ok_spec. by vm_compute. Qed.

Lemma sequences_consecutive_witness :
  sequence <$> List.filter (fun r => bytes_eqb (aggregate_id r) (b "w1")) (assigned play1.1) = [1; 2].
Proof.
  destruct (sequences_consecutive 1000 default_relay_policy play1.1 outbox1 (b "w1") (outbox_of_run _ _ play1_run) play1_ok) as [H _].
  rewrite H. by vm_compute.
Defined.

Lemma approval_events_delivered_witness :
  (exists ls, sys_run no_evaluate one_length no_roles empty_system ls (jt_system play2.2)) /\
  (deliveries (rec_id (nth_event play2.1 0)) true play2.1 = 0 -> held (kv_rows (sys_kv (jt_system play2.2))) (nth_event play2.1 0)).
Proof.
  destruct (approval_events_delivered no_evaluate one_length no_roles 1000 default_relay_policy play2.1 play2.2 play2_run) as (H & _ & H').
  split; [exact H|]. intros Et.
  destruct (nth_event_batch play2.1 0) as (l & Hl & Hr); [by vm_compute|].
  destruct (H' play2_ok l (nth_event play2.1 0) Hl Hr) as [G|[G|G]]; [lia| |exact G].
  assert (deliveries (rec_id (nth_event play2.1 0)) false play2.1 = 1) as E by (by vm_compute).
  change (8 <= deliveries (rec_id (nth_event play2.1 0)) false play2.1) in G. lia.
Defined.

(** No key of the index has a sign. *)
Definition unsigned (kv : Kv) : bool :=
  forallb (fun kr => negb (starts_with kr.1 (pending_prefix ++ b "-"))) (map_to_list (kv_rows kv)).
Lemma unsigned_times kv t id : unsigned kv = true -> is_Some (kv_rows kv !! pending_key t id) -> 0 <= t.
Proof.
  unfold unsigned. rewrite forallb_forall. intros H [row Hrow]. destruct (Z.le_gt_cases 0 t) as [|Ht]; [done|]. exfalso.
  apply elem_of_map_to_list, list_elem_of_In in Hrow. apply H in Hrow. apply negb_true_iff, not_true_iff_false in Hrow. apply Hrow, starts_with_spec.
  cbn [fst]. unfold pending_key, padded_i64. rewrite (proj2 (Z.ltb_lt t 0)) by done. eexists. unfold pending_prefix. by rewrite <-!app_assoc.
Qed.

Definition all_accept (r : OutboxRecord) : bool := true.

(** The record stored for an event. *)
Definition stored_for (kv : Kv) (r0 : OutboxRecord) : OutboxRecord :=
  match val (kv_rows kv) (key_of r0) with Some (DRecord r) => r | _ => r0 end.
Definition is_stored (kv : Kv) (r0 : OutboxRecord) : bool :=
  match val (kv_rows kv) (key_of r0) with Some (DRecord _) => true | _ => false end.
Lemma stored_for_spec kv r0 : is_stored kv r0 = true -> val (kv_rows kv) (key_of r0) = Some (DRecord (stored_for kv r0)).
Proof. unfold is_stored, stored_for. by destruct (val _ _) as [[]|]. Qed.

Lemma fits_spec kv :
  (length (List.filter (fun x => starts_with x.1 pending_prefix) (entries (kv_rows kv))) <=? 64)%nat = true -> unsigned kv = true ->
  index_fits 1000 default_relay_policy kv.
Proof. intros H1 H2. split; [by apply Nat.leb_le|]. intros t id. by apply unsigned_times. Qed.

Lemma play1_unsettled : ~ settled default_relay_policy play1.1 (rec_id (nth_event play1.1 0)).
Proof.
  assert (deliveries (rec_id (nth_event play1.1 0)) true play1.1 = 0) as E1 by (by vm_compute).
  assert (deliveries (rec_id (nth_event play1.1 0)) false play1.1 = 0) as E2 by (by vm_compute).
  unfold settled. rewrite E1, E2. cbn. lia.
Qed.

Lemma tick_delivers_witness :
  exists n rep kv' l r', run_tick 1000 default_relay_policy 100 all_accept n RIdle (ob_kv outbox1) = (RDone (Some rep), kv', l) /\
    val (kv_rows kv') (key_of (nth_event play1.1 0)) = Some (DRecord r') /\ rec_status r' = OsDelivered.
Proof.
  assert (in_i64 100) as Hc by (unfold in_i64; lia).
  assert (0 <= retention_ms default_relay_policy) as Hr by (by vm_compute).
  destruct (tick_delivers 1000 default_relay_policy 100 all_accept play1.1 outbox1 (outbox_of_run _ _ play1_run) play1_ok Hc Hr)
    as (n & rep & kv' & l & H1 & _ & _ & H2).
  assert (nth_event play1.1 0 ∈ assigned play1.1) as Hin by (apply nth_event_in; by vm_compute).
  assert (next_attempt_at_ms (stored_for (ob_kv outbox1) (nth_event play1.1 0)) <= 100) as Hd by (apply Z.leb_le; by vm_compute).
  assert (val (kv_rows (ob_kv outbox1)) (key_of (nth_event play1.1 0)) = Some (DRecord (stored_for (ob_kv outbox1) (nth_event play1.1 0)))) as Hv
    by (apply stored_for_spec; by vm_compute).
  assert (index_fits 1000 default_relay_policy (ob_kv outbox1)) as Hf by (apply fits_spec; by vm_compute).
  destruct (H2 _ _ Hin play1_unsettled Hv Hd Hf) as (r' & Hr' & Hs); [intros r _; reflexivity|].
  exists n, rep, kv', l, r'. split; [exact H1|]. split; [exact Hr'|exact Hs].
Defined.

(** ** What the relay does not do *)

Definition kv_of (p : list ObEvent * Joint) : Kv := sys_kv (jt_system p.2).
Definition relay_turns (i : nat) (clock : Z) (accepted : bool) (n : nat) : list Turn := replicate n (TRelay i clock accepted).

(** The order of the sequences of an instance is not the order in which its
    events are accepted: the tick that is refused the first event goes on and
    delivers the second. *)
Definition overtaking : list ObEvent * Joint :=
  played (approval_turns ++ TStart :: relay_turns 0 100 false 5 ++ relay_turns 0 100 true 4).

Lemma refused_event_overtaken :
  demo_joint overtaking.1 overtaking.2 /\
  aggregate_id (nth_event overtaking.1 0) = aggregate_id (nth_event overtaking.1 1) /\
  sequence <$> assigned overtaking.1 = [1; 2] /\
  (fun r => deliveries (rec_id r) true overtaking.1) <$> assigned overtaking.1 = [0; 1] /\
  (fun r => rec_id (stored_for (kv_of overtaking) r)) <$> assigned overtaking.1 = rec_id <$> assigned overtaking.1 /\
  (fun r => rec_status (stored_for (kv_of overtaking) r)) <$> assigned overtaking.1 = [OsPending; OsDelivered].
Proof. split; [apply played_run; by vm_compute|]. split_and!; by vm_compute. Qed.

(** Two relays that are refused the same event, each of which has read the
    record before the other writes, leave an entry of the index that no mark
    removes: every later tick offers the event again, although it has been
    accepted, and each time the record is marked anew, so that it is not
    reclaimed either. *)
Definition both_refused : list Turn :=
  TStart :: TStart :: relay_turns 0 100 false 4 ++ relay_turns 1 150 false 4 ++ relay_turns 0 100 false 1 ++ relay_turns 1 150 false 1.
Definition ticks_after : list Turn :=
  TStart :: relay_turns 2 600 true 30 ++ TStart :: relay_turns 3 100000000 true 30 ++ TStart :: relay_turns 4 200000000 true 30.
Definition left_behind : list ObEvent * Joint := played (approval_turns ++ both_refused ++ ticks_after).

Lemma stale_entry_redelivered :
  demo_joint left_behind.1 left_behind.2 /\ run_ok left_behind.1 /\
  is_stored (kv_of left_behind) (nth_event left_behind.1 0) = true /\
  rec_status (stored_for (kv_of left_behind) (nth_event left_behind.1 0)) = OsDelivered /\
  delivered_at_ms (stored_for (kv_of left_behind) (nth_event left_behind.1 0)) = Some 200000000 /\
  deliveries (rec_id (nth_event left_behind.1 0)) true left_behind.1 = 4 /\
  rec_id <$> pending 1000 300000000 64 (kv_of left_behind) = [rec_id (nth_event left_behind.1 0)].
Proof. split; [apply played_run; by vm_compute|]. split; [apply run_ok_spec; by vm_compute|]. split_and!; by vm_compute. Qed.
